(* ===== verification/_CoqProject ===== *)
-Q . S2P
Prelude.v
Str.v
Sorting.v
TraceIds.v
BMap.v
Json.v
ExprLexer.v
ExprEval.v
ValueBag.v
ExprParser.v
ExprTotal.v
ExprRoundtrip.v
PathPolicy.v
Serde.v
Events.v
RunState.v
RunStateEffect.v
RunStateInv.v
RunStateOps.v
RunStatePrompts.v
RunStateDemo.v
RunStateFrame.v
JournalFile.v
JournalLines.v
JournalRepair.v
AuditRules.v
JournalWriter.v
JournalSafety.v
JournalSystem.v
JournalDemo.v
IdemWorld.v
IdemStore.v
IdemExpiry.v
IdemMoves.v
IdemOps.v
IdemSystem.v
IdemProtocol.v
IdemExecution.v
IdemDemo.v
AnchoredPatch.v
Graph.v
GraphTopo.v
GraphBuild.v
TextGate.v
Scheduler.v
LlmRetry.v
LlmRetrySpec.v
LlmParse.v
LlmStream.v
LlmHttp.v
LlmStreamSpec.v
LlmParity.v
CostTier.v
EngineTypes.v
EngineWorld.v
EngineExecute.v
EngineRepair.v
EngineRun.v
EngineInner.v
EngineFold.v
EngineCalm.v
EngineMoves.v
EngineRound.v
EngineWaveSpec.v
EngineLoop.v
EngineSpec.v
EngineBudget.v
EngineDemo.v
LlmDecision.v
LlmRequest.v
LlmPayload.v
LlmGateway.v
LlmGatewaySpec.v
Base64.v
RateLimit.v
Guard.v
GuardSpec.v
GuardSystem.v
GuardBinding.v
GuardDemo.v
