(* ===== verification/Prelude.v ===== *)
(** * qcg: a verification library for the contract-driven generation harness

    qcg runs generators: a manifest declares a flow of steps, the engine runs
    them, every fact about a run is an event of an append-only journal, and a
    service queues the runs and serves requests about them.  The sources are
    the Rust crates under [src/crates]; file names below are relative to it.

    ** Parts and how they interact

    - A manifest is turned into a graph ([contract/src/graph]).  The engine
      asks the graph which steps can run and which have to be skipped.
    - Conditions and templates of steps are expressions
      ([contract/src/expr]) over a scope of inputs, outputs and outcomes.
    - The engine ([engine/src/engine]) runs the steps, alone or in parallel
      waves, retries, repairs and regenerates them, suspends for questions,
      accounts for elapsed time, and settles the run.
    - What happens is written to the journal as events ([api/src/events]).  A
      writer ([engine/src/journal]) stamps, appends and repairs; the state of
      a run is the fold of its journal ([engine/src/state.rs]): recovery,
      queries, forks and budgets all read this fold.  Which records are kept
      as observations is the audit policy ([policy/src/audit.rs]).
    - Paths of files a run may touch obey a portable path policy
      ([policy/src/path.rs]); files are edited by hash-anchored patches
      ([files/src/anchored.rs]).
    - Model calls go through a router with a retry policy ([llm/src/retry.rs],
      [llm/src/router.rs]); the HTTP provider ([llm/src/http_provider.rs])
      reads three wire formats, whole or as streams ([llm/src/parse.rs],
      [llm/src/stream.rs]); streamed text passes a credential gate
      ([llm/src/text_gate.rs]); calls are priced by tiers
      ([policy/src/tier.rs], [policy/src/cost.rs]).  A step calls a model through
      the model gateway ([engine/src/llm_gateway]), which scans requests and
      answers for secrets, reserves the budget of the run and tries the routes;
      typed decisions have a codec and checks of their own
      ([llm/src/decision.rs]).
    - What a step does outside of its workspace passes the operation guard
      ([engine/src/engine/run_context.rs]): approvals, one record before the
      operation and one after it, recorded results on a resend.
    - The service orders queued runs, preempts and hands out execution slots
      ([service/src/queue.rs]).
    - The server makes mutations idempotent ([server/src/server/idempotency]):
      claims and results in files, gates between processes, expiry.  It limits
      the rate of requests ([server/src/server/rate_limit.rs]).

    ** Files

    Foundations.
    - [Prelude]: [result] and its monad, loops over lists, machine integers,
      record update, shared tactics and the hint database [qcg].
    - [Str]: strings as lists of code points, UTF-8 lengths, the string
      functions of the standard library the sources call.
    - [Sorting]: [Ord], [min_by] and the stable sort.
    - [TraceIds]: SHA-256 digests, and the trace and span ids of events.
    - [BMap]: [BTreeMap<String, V>] as a key-ordered association list.
    - [Json]: binary64 arithmetic (the specification floats of the Standard
      Library) and [serde_json::Value].

    Expressions.
    - [ExprLexer], [ExprEval], [ValueBag], [ExprParser]: the files of
      [contract/src/expr], one operation per function.
    - [ExprTotal]: evaluation always returns, and what is accepted is within
      the byte, token, node and depth limits.
    - [ExprRoundtrip]: a printer with minimal parentheses and the proof that
      lexing and parsing invert it, for integers and for doubles as their
      exact decimals.

    Paths, failures, patches.
    - [PathPolicy]: portable relative paths, prefixes, path sets; a set is
      accepted exactly when its paths are portable, no two collide and none
      lies below a file.
    - [Serde]: failure details and their JSON form.
    - [AnchoredPatch]: an accepted patch does what a
      line-by-line reference definition says, and edits made from a read
      apply to what was read.
    - [Base64]: the streaming codec of [steps/src/common/base64.rs] accepts
      canonical texts only and inverts its encoder, however it is read.

    The fold of the journal.
    - [Events]: event kinds, the flat envelope, the payloads the fold reads.
    - [RunState]: [RunState::apply], arm by arm, [fold_values] and
      [fold_journal_through].
    - [RunStateEffect]: [apply] as a step relation [journal_step], and what
      one step does to the tracked fields.
    - [RunStateInv]: order of sequence numbers, sealed final runs, lineage,
      elapsed ledger, budget accounting, historical prefixes.
    - [RunStateOps]: file pins, execution generations, operation ids; the
      operation table refines the life cycle of external operations.
      [RunStatePrompts]: prompts and responses; [RunStateFrame]: what the fold
      does not look at.
    - [RunStateDemo]: a concrete journal on which the theorems are applied.

    The journal as files.
    - [JournalFile]: limits, lines, readers, the last sequence
      number and the repair of a torn line, read in windows; [AuditRules]: the
      audit policy; [JournalWriter]: the writer and the appends without one.
    - [JournalLines], [JournalRepair]: reading what was appended,
      repairing what was cut, finding the last sequence number.
    - [JournalSafety], [JournalSystem]: writers of several processes, control
      appends and crashes at any byte; nothing accepted is lost, and what reads
      parts of the file agrees with what reads all of it.  Records may hold
      doubles that JSON reads back as themselves ([exact_value]).
      [JournalDemo].

    The flow graph.
    - [Graph]: [contract/src/graph]; [GraphTopo]: the sort is correct and
      complete; [GraphBuild]: [build] decides a declarative validity, runs
      make progress, run and skip exclude each other, implicit
      dependencies position by position, on a concrete manifest too.

    The engine.
    - [EngineTypes]: errors, outcomes, failures; [EngineWorld]: the state of a
      run and its surroundings; [EngineExecute]: attempts, deadlines and retries
      of one node, parallel waves; [EngineRepair]: repair,
      regeneration and active time; [EngineRun]: hooks, scan,
      settlement of nodes, the loop; [EngineInner]: [run_inner] with entry,
      resume and settlement of the run.
    - [EngineFold], [EngineCalm]: what the records of bodies, retries, repairs
      and joins do to the outcomes of nodes.
    - [EngineMoves]: the scheduler as an abstract machine of moves and marks.
      With it [EngineRound], [EngineWaveSpec], [EngineLoop]: every
      operation of the loop, as triples over the moves of that machine.
    - [EngineSpec]: a run refines the scheduler, terminates without a stall,
      starts a node after its needs and once unless it was interrupted, and
      succeeds only when every node is settled.  [EngineBudget]: attempts stay
      within the step budget.  [EngineDemo]: a run with a wave and a repair.

    Model calls.
    - [TextGate]: the credential gate; no part of a credential is published,
      and clean text is delivered unchanged, for every chunking.
    - [LlmRetry], [LlmRetrySpec]: the retry policy cannot bypass its guards,
      both loops return within their bounds, a stream delivers the events of
      one attempt only, and the waits are as documented.
    - [LlmParse], [LlmStream], [LlmHttp]: responses, streams, the HTTP
      provider.  [LlmStreamSpec]: what is published begins the text that was
      received, ends before any credential in it, and is all of it when the
      stream succeeds; [LlmParity]: streamed and whole chat responses agree;
      usage categories, request window, circuit breaker.
    - [CostTier]: the check of tier lists, the tier of a
      request, and that a reservation covers every bill.
    - [LlmDecision]: decision questions, their payload and the reading of an
      answer: an accepted answer fits its questions, with exactly the declared
      labels, an answer written is read back, and exactly which answers make the reader panic.  [LlmRequest]: the
      chat request, the analysis of a response schema and what a route has to
      support.
    - [LlmPayload]: the checks of a request before it is sent, the bound on
      schemas ([policy/src/schema.rs]), the provider row and the three request
      bodies.  A body declares strict only a schema whose objects are closed
      at every level (what stays open is shown by [open_parts_pass]), forces only a tool it offers, and says so when cache writes are
      forbidden; the bound on schemas is what its declarative reading says.
    - [LlmGateway]: the secret store and the gateway.  A call ([complete],
      [decide_call]) runs in the monad [CM] over the journal writer and the table
      of reservations, both shared by the tasks of a process; a call ends with an
      answer, an error, or by being dropped ([Gone]).
    - [LlmGatewaySpec]: no stream publishes a part of a secret, whichever routes
      are tried; a returned answer was scanned and recorded, and the text of a
      streamed one was published to its end; reservations never exceed the budget together, and a call that
      ends without being dropped gives its reservation back.

    The operation guard.
    - [Guard]: approvals and their ids, the guard before an operation, the record
      after it, results kept inline or in a sidecar, pending payloads, and the
      HTTP and command steps that go through it, in a process whose writes may be
      cut and which may stop at any moment.
    - [GuardSpec], [GuardSystem]: the process among others that append to the
      same journal: before every effect of a guarded call they act as they like
      ([su_others]).  An operation that must not be repeated is sent at most
      once across restarts, and a resend returns what was recorded.
    - [GuardBinding]: an approval covers the request it was asked for and no
      other.  [GuardDemo]: concrete operations.

    Scheduling.
    - [Scheduler]: queue order, preemption victim, reported
      position, and the slot pool as a step relation over interleavings.

    Idempotency.
    - [IdemWorld]: files, locks, clock and UUIDs, with effects that fail or in
      which the process dies; [IdemStore], [IdemExpiry]: the operations of
      [durable.rs] and its submodules; [IdemSystem]: requests of several
      processes as a transition system.
    - [IdemMoves], [IdemOps]: what the operations do to a key;
      [IdemProtocol]: what they leave alone, and the invariant;
      [IdemExecution]: one executor per key, an open execution is repeated
      only as itself, a commit meets no rival, a committed answer stays until
      it expires.  [IdemDemo]: concrete runs.

    Rate limiting.
    - [RateLimit]: policy, keys, token buckets; however many identities appear,
      fresh bursts stay bounded, and unverified requests share one.

    ** Conventions

    A fallible function returns [result E A] with the errors of the source as
    constructors; text of messages is kept only where it is data.  Mutation is
    state passing, or a state monad where state survives errors ([EM] in
    [EngineWorld]); [r <| f := v |>] is a field assignment.  Integers are [Z]
    with the overflow behaviour of the source written out.  Concurrency is a
    step relation over critical sections ([JournalSystem], [IdemSystem],
    [Scheduler]) or an interleaving chosen by the surroundings
    ([EngineExecute]).

    Code that is not under [src] is a parameter, with its laws where a theorem
    needs them: payload decoders of other event types ([WireTypes]), SHA-256
    ([Sha256], [Sha256Bytes]), the JSON text codec ([SerdeJson], [JsonText]),
    the codecs of the state file and of idempotency records ([StateCodec],
    [IdemCodec]), UUIDs ([Uuids]), Unicode case mapping ([CaseMapping]) and the
    collision key of a path ([PathPolicy]), the decoder of server-sent events
    ([SseDecoder]), the answers of providers ([LlmProvider]), error texts and
    form values the engine passes on ([Messages], [Forms]), the crate [base64]
    ([Base64Engine]), header names and the order of a hash map ([RateLimit]), the
    length of a serialized request ([ChatCodec]), the compiler of JSON schemas
    ([SchemaCompiler]), texts of errors the guard
    passes on ([GuardTexts]).  The clock, system calls, providers and step bodies
    answer as they like: the [Clock] and the [write_outcome] of the journal, the
    [answer]s of [IdemWorld], the [Environment] of [EngineWorld], the
    [Surroundings] of [Guard], in which other processes act before every effect,
    the [World] of [LlmGateway], in which other tasks
    of the process act between any two steps of a call ([wd_others]).

    The theorems on the journal and on the guard are about values whose doubles
    the JSON codec reads back as themselves ([exact_value]); integers, strings
    and structure are unrestricted.

    The theorems of [EngineSpec] assume that the journal refused no record
    (with a refusing journal a wave can be repeated for ever, see
    [EngineDemo.refused_wave_repeats]), that step bodies write no records about
    graph nodes ([modest_bodies]) and that node ids do not look like those of
    repairs and hooks ([plain_ids]); where stated, that files can be pinned
    ([pins_work]) and that a passed deadline stays passed ([expiry_final]).  They
    are about the loop: a node that another one names for its repair or recheck
    also runs inside of that repair, whose executions the loop does not mark.

    ** Fuel and bounds

    The lexer and the parser recurse on fuel derived from the number of
    characters and tokens; [ExprTotal] proves that it never runs out.  The
    loop of the topological sort has one unit per node ([GraphTopo] proves
    that it suffices), the stream loop [stream_retry_attempts + 1]
    ([LlmRetrySpec]), the chunked sleep one more than the quotient.  The
    readers of lines and windows of a journal have one unit per byte
    ([JournalLines], [JournalRepair]); the attempts at opening or
    staging a file are bounded by the source (8 and 3).  A task of a node has
    two units per attempt left, the joins of a wave one per task
    ([EngineCalm]), the loop of a run one more than the graph has nodes
    ([EngineSpec.run_terminates]).  The substitution of secrets has one unit per
    character ([LlmGatewaySpec.inject_loop_fuel]); the analysis of a schema has
    ten levels and the bound on schemas 8192 values, the limits of the source.
    All other functions are structurally
    recursive.

    ** Not modelled

    - Effects behind the gateways on files, processes and the network, run
      directories, containers, MCP, confined file access and the command line:
      what they do is done by the operating system and by other programs, and
      their code consists of calls to them.
    - HTTP handlers and the life cycle of runs in the service: asynchronous glue
      over the modelled queue, journal and idempotency store.
    - Of the engine: the iterations of foreach, the checkpoint store, the
      verification of workspace files at resume and the construction of
      gateways.
    - Of the idempotency store: the bounded traversal of a sweep, which only
      chooses the entries the modelled operations work on, and the responses of
      HTTP.
    - Of model calls: URLs, headers and credentials of the HTTP provider, the
      catalog of providers and the checks of its rows, and reading secrets from the environment and from files.
    - Manifest sections other than flow and hooks, deployment configuration, step
      bodies other than the HTTP and command exchange, prompts and tool loops of
      model steps and agents. *)

From stdpp Require Export prelude strings.
From Stdlib Require Export ZArith Lia.

(** ** Fallible code

    Rust's [Result<T, E>].  The type and its bind are the only error
    mechanism of the development: [x ← m; k] is Rust's [let x = m?; k]. *)

Inductive result (E A : Type) : Type :=
| Ok (a : A)
| Err (e : E).
Arguments Ok {E A} a.
Arguments Err {E A} e.

#[global] Instance result_ret {E} : MRet (result E) := λ A x, Ok x.
#[global] Instance result_bind {E} : MBind (result E) := λ A B f m,
  match m with Ok x => f x | Err e => Err e end.
#[global] Instance result_fmap {E} : FMap (result E) := λ A B f m,
  match m with Ok x => Ok (f x) | Err e => Err e end.

#[global] Instance result_eq_dec {E A} `{EqDecision E, EqDecision A} :
  EqDecision (result E A).
Proof. solve_decision. Defined.

Definition map_err {E F A} (f : E → F) (m : result E A) : result F A :=
  match m with Ok x => Ok x | Err e => Err (f e) end.

(** Rust's [Option::ok_or]. *)
Definition ok_or {E A} (o : option A) (e : E) : result E A :=
  match o with Some x => Ok x | None => Err e end.

Definition is_ok {E A} (m : result E A) : bool :=
  match m with Ok _ => true | Err _ => false end.

Section result_lemmas.
Context {E A B : Type}.
Implicit Types (m : result E A) (f : A → result E B).

Lemma result_bind_Ok m f y :
  m ≫= f = Ok y ↔ ∃ x, m = Ok x ∧ f x = Ok y.
Proof. destruct m; cbn; naive_solver. Qed.

Lemma result_bind_Err m f e :
  m ≫= f = Err e ↔ m = Err e ∨ ∃ x, m = Ok x ∧ f x = Err e.
Proof. destruct m; cbn; naive_solver. Qed.

Lemma ok_or_Ok (o : option A) (e : E) x : ok_or o e = Ok x ↔ o = Some x.
Proof. destruct o; cbn; naive_solver. Qed.

Lemma ok_or_Err (o : option A) (e e' : E) :
  ok_or o e = Err e' ↔ o = None ∧ e = e'.
Proof. destruct o; cbn; naive_solver. Qed.
End result_lemmas.

#[global] Instance Ok_inj {E A} : Inj eq eq (@Ok E A).
Proof. by intros ?? [= ->]. Qed.

Create HintDb qcg.
Create Rewrite HintDb qcg.
#[export] Hint Rewrite @result_bind_Ok @ok_or_Ok @ok_or_Err : qcg.

(** [result_inv H] inverts a hypothesis that a chain of binds returned [Ok],
    one bind at a time, and names the intermediate results. *)
Ltac result_inv_step H :=
  lazymatch type of H with
  | mbind _ _ = Ok _ =>
      let x := fresh "x" in let Hx := fresh "Hx" in
      apply result_bind_Ok in H as (x & Hx & H); result_inv_step H
  | ok_or _ _ = Ok _ => apply ok_or_Ok in H
  | Err _ = Ok _ => discriminate H
  | _ => idtac
  end.
Tactic Notation "result_inv" hyp(H) := cbn in H; result_inv_step H.

(** [destr_in H] case-splits on the scrutinee of the outermost match of [H]
    and drops the contradictory cases. *)
Ltac destr_in H :=
  lazymatch type of H with
  | context [match ?x with _ => _ end] =>
      let E := fresh "E" in destruct x eqn:E; try discriminate H
  end.
Ltac destr_goal :=
  lazymatch goal with
  | |- context [match ?x with _ => _ end] =>
      let E := fresh "E" in destruct x eqn:E
  end.

(** Monadic traversal of a list, left to right, first error wins:
    [iter().map(f).collect::<Result<Vec<_>, _>>()]. *)
Section traverse.
Context {E A B : Type} (f : A → result E B).

Fixpoint traverse (l : list A) : result E (list B) :=
  match l with
  | [] => Ok []
  | x :: l => y ← f x; ys ← traverse l; Ok (y :: ys)
  end.

Lemma traverse_Ok l ys :
  traverse l = Ok ys ↔ Forall2 (λ x y, f x = Ok y) l ys.
Proof.
  revert ys; induction l as [|x l IH]; intros ys; cbn.
  { split; [intros [= <-]; constructor | by inversion 1]. }
  rewrite result_bind_Ok. setoid_rewrite result_bind_Ok. split.
  - intros (y & Hy & ys' & Hys & [= <-]). constructor; [done | by apply IH].
  - inversion 1 as [|? y ? ys']; subst. exists y; split; [done|].
    exists ys'; split; [by apply IH | done].
Qed.
End traverse.

(** A loop over a list that threads a state and stops at the first error:
    Rust's [for x in l { body? }]. *)
Section foldM.
Context {E A S : Type} (f : S → A → result E S).

Fixpoint foldM (s : S) (l : list A) : result E S :=
  match l with
  | [] => Ok s
  | x :: l => s' ← f s x; foldM s' l
  end.

Lemma foldM_app s l1 l2 :
  foldM s (l1 ++ l2) = (s' ← foldM s l1; foldM s' l2).
Proof.
  revert s; induction l1 as [|x l1 IH]; intros s; cbn; [done|].
  destruct (f s x); cbn; [apply IH | done].
Qed.

(** Invariant rule for such a loop. *)
Lemma foldM_inv (P : S → Prop) s s' l :
  (∀ s x s', x ∈ l → P s → f s x = Ok s' → P s') →
  P s → foldM s l = Ok s' → P s'.
Proof.
  revert s; induction l as [|x l IH]; intros s Hf Hs; cbn.
  - intros [= <-]. done.
  - intros H. result_inv H. eapply IH; [| |exact H].
    + intros; eapply Hf; [by right | done..].
    + eapply Hf; [by left | done..].
Qed.
End foldM.

(** A loop that only checks. *)
Lemma foldM_unit_ok {E A} (P : A → Prop) (f : unit → A → result E unit) l :
  (∀ u x, f u x = Ok () ↔ P x) → foldM f () l = Ok () ↔ ∀ x, x ∈ l → P x.
Proof.
  intros Hf. induction l as [|x l IH]; cbn.
  { split; [by intros _ x ?%not_elem_of_nil|done]. }
  specialize (Hf () x). destruct (f () x) as [[]|e]; cbn.
  - rewrite IH. set_solver.
  - split; [done|]. intros H. assert (Hx : P x) by (apply H; by left). by apply Hf in Hx.
Qed.

(** ** Machine integers

    An unsigned integer of the source is a [Z] together with its width; the
    operations write out the overflow behaviour the source chose. *)

Definition U8_MAX : Z := 2 ^ 8 - 1.
Definition U32_MAX : Z := 2 ^ 32 - 1.
Definition U64_MAX : Z := 2 ^ 64 - 1.
Definition I64_MAX : Z := 2 ^ 63 - 1.
Definition I64_MIN : Z := - 2 ^ 63.
Definition I32_MAX : Z := 2 ^ 31 - 1.
Definition I32_MIN : Z := - 2 ^ 31.
Definition I128_MAX : Z := 2 ^ 127 - 1.
Definition I128_MIN : Z := - 2 ^ 127.
(** The targets of the project are 64-bit. *)
Definition USIZE_MAX : Z := U64_MAX.

Definition in_u64 (z : Z) : Prop := (0 ≤ z ≤ U64_MAX)%Z.
#[global] Instance in_u64_dec z : Decision (in_u64 z).
Proof. unfold in_u64; apply _. Defined.

(** [checked_add] at the width whose maximum is [max]. *)
Definition checked_add (max a b : Z) : option Z :=
  if decide (a + b ≤ max)%Z then Some (a + b)%Z else None.

(** [saturating_add] and [saturating_mul] at the width whose maximum is [max]. *)
Definition saturating_add (max a b : Z) : Z := Z.min max (a + b).
Definition saturating_mul (max a b : Z) : Z := Z.min max (a * b).

Lemma checked_add_Some max a b c :
  checked_add max a b = Some c ↔ c = (a + b)%Z ∧ (a + b ≤ max)%Z.
Proof. unfold checked_add; case_decide; naive_solver. Qed.

Lemma checked_add_None max a b :
  checked_add max a b = None ↔ (max < a + b)%Z.
Proof. unfold checked_add; case_decide; split; first [done | lia | by intros; lia]. Qed.

#[export] Hint Rewrite checked_add_Some : qcg.

(** ** Lists *)

Section list_lemmas.
Context {A : Type}.

(** First element satisfying a boolean test, Rust's [iter().find]. *)
Lemma find_some_elem (f : A → bool) l x :
  List.find f l = Some x → x ∈ l ∧ f x = true.
Proof.
  intros H. apply List.find_some in H as [Hin Hf].
  split; [by apply list_elem_of_In | done].
Qed.

Lemma find_none_elem (f : A → bool) l :
  List.find f l = None ↔ ∀ x, x ∈ l → f x = false.
Proof.
  split.
  - intros H x Hx. apply (List.find_none _ _ H). by apply list_elem_of_In.
  - induction l as [|y l IH]; intros H; cbn; [done|].
    rewrite (H y) by (by left). apply IH. intros; apply H; by right.
Qed.
End list_lemmas.

(** Index of the first element satisfying a test, Rust's [iter().position]. *)
Fixpoint position {A} (f : A → bool) (l : list A) : option nat :=
  match l with
  | [] => None
  | x :: l => if f x then Some 0 else S <$> position f l
  end.

Lemma position_Some {A} (f : A → bool) l i :
  position f l = Some i ↔
    (∃ x, l !! i = Some x ∧ f x = true) ∧
    (∀ j x, j < i → l !! j = Some x → f x = false).
Proof.
  revert i; induction l as [|y l IH]; intros i; cbn.
  { split; [done | by intros [(? & ? & ?) _]]. }
  destruct (f y) eqn:Ey.
  - split.
    + intros [= <-]. split; [by exists y | lia].
    + intros [_ Hi]. destruct i as [|i]; [done|].
      specialize (Hi 0 y ltac:(lia) eq_refl). congruence.
  - rewrite fmap_Some. split.
    + intros (i' & [Hx Hlt]%IH & ->). split; [done|].
      intros [|j] x Hj; cbn; [congruence|]. intros. apply (Hlt j); [lia | done].
    + intros [(x & Hx & Hfx) Hlt]. destruct i as [|i]; cbn in *; [congruence|].
      exists i; split; [|done]. apply IH. split; [by exists x|].
      intros j z Hj Hz. apply (Hlt (S j)); [lia | done].
Qed.

(** [case_if] splits on the outermost boolean test of the goal, [case_if in H]
    on that of a hypothesis. *)
Ltac case_if :=
  match goal with
  | |- context [match ?b with true => _ | false => _ end] =>
      let E := fresh "E" in destruct b eqn:E
  end.
Tactic Notation "case_if" "in" hyp(H) :=
  match type of H with
  | context [match ?b with true => _ | false => _ end] =>
      let E := fresh "E" in destruct b eqn:E
  end.

(** ** Record update

    [r <| field := v |>] is Rust's [r.field = v].  A setter is derived from
    the eta-expansion of the record by abstracting the projection in it. *)
Class Setter {R T} (proj : R → T) := set_field : T → R → R.
Arguments set_field {R T} proj {_} v r.
Notation "r <| proj := v |>" := (set_field proj v r)
  (at level 12, left associativity, format "r  <| proj  :=  v |>").

Ltac derive_setter eta proj :=
  let body := eval cbv delta [eta] in eta in
  let g := eval pattern proj in body in
  lazymatch g with
  | ?F _ => let t := eval cbv beta in (λ v, F (λ _, v)) in exact t
  end.
