(* ===== verification/Str.v ===== *)
(** * Rust strings

    A Rust [str] is a sequence of Unicode scalar values; here a list of code
    points.  [str_len] is the UTF-8 byte length ([str::len]), [length] is
    [chars().count()].  The order of [String] (byte-lexicographic) is the
    lexicographic order of the code points.  Only the standard-library
    functions the modelled sources call are defined. *)

From S2P Require Import Prelude.
From Stdlib Require Import Ascii.

Abbreviation char := Z (only parsing).
Abbreviation str := (list Z) (only parsing).

(** String literals of the source (ASCII). *)
Fixpoint s (x : string) : str :=
  match x with
  | EmptyString => []
  | String a x => Z.of_N (N_of_ascii a) :: s x
  end.
Arguments s !x / : simpl nomatch.
Definition ch (a : ascii) : char := Z.of_N (N_of_ascii a).

(** ** Equality and order *)

Fixpoint str_eqb (a b : str) : bool :=
  match a, b with
  | [], [] => true
  | x :: a, y :: b => Z.eqb x y && str_eqb a b
  | _, _ => false
  end.

Declare Scope str_scope.
Delimit Scope str_scope with str.
Notation "a =s b" := (str_eqb a b) (at level 70) : str_scope.
Open Scope str_scope.

Lemma str_eqb_eq a b : (a =s b) = true ↔ a = b.
Proof.
  revert b; induction a as [|x a IH]; intros [|y b]; cbn; try done.
  rewrite andb_true_iff, Z.eqb_eq, IH. naive_solver.
Qed.
Lemma str_eqb_refl a : (a =s a) = true.
Proof. by apply str_eqb_eq. Qed.
Lemma str_eqb_neq a b : (a =s b) = false ↔ a ≠ b.
Proof. rewrite <-str_eqb_eq. destruct (a =s b); naive_solver. Qed.
Lemma str_eqb_spec a b : reflect (a = b) (a =s b).
Proof. apply iff_reflect. by rewrite str_eqb_eq. Qed.
Lemma str_eqb_sym a b : (a =s b) = (b =s a).
Proof.
  destruct (a =s b) eqn:E, (b =s a) eqn:F; try done.
  - apply str_eqb_eq in E as ->. by rewrite str_eqb_refl in F.
  - apply str_eqb_eq in F as ->. by rewrite str_eqb_refl in E.
Qed.

#[export] Hint Rewrite str_eqb_refl : qcg.

(** Case analysis on a string test. *)
Ltac str_case :=
  match goal with
  | |- context [str_eqb ?a ?b] => destruct (str_eqb_spec a b); subst
  | H : context [str_eqb ?a ?b] |- _ => destruct (str_eqb_spec a b); subst
  end.

Fixpoint str_cmp (a b : str) : comparison :=
  match a, b with
  | [], [] => Eq
  | [], _ => Lt
  | _, [] => Gt
  | x :: a, y :: b =>
      match (x ?= y)%Z with Eq => str_cmp a b | c => c end
  end.

Lemma str_cmp_refl a : str_cmp a a = Eq.
Proof. induction a; cbn; [done|]. by rewrite Z.compare_refl. Qed.
Lemma str_cmp_eq a b : str_cmp a b = Eq ↔ a = b.
Proof.
  split; [|intros ->; apply str_cmp_refl].
  revert b; induction a as [|x a IH]; intros [|y b]; cbn; try done.
  destruct (Z.compare_spec x y); try done. intros ?%IH. congruence.
Qed.
Lemma str_cmp_antisym a b : str_cmp a b = CompOpp (str_cmp b a).
Proof.
  revert b; induction a as [|x a IH]; intros [|y b]; cbn; try done.
  rewrite (Z.compare_antisym y x).
  destruct (y ?= x)%Z; cbn; [apply IH | done..].
Qed.
Lemma str_cmp_trans a b c :
  str_cmp a b = Lt → str_cmp b c = Lt → str_cmp a c = Lt.
Proof.
  revert b c; induction a as [|x a IH]; intros [|y b] [|z c]; cbn; try done.
  destruct (Z.compare_spec x y), (Z.compare_spec y z); try done; subst; intros.
  - rewrite Z.compare_refl. by eapply IH.
  - destruct (Z.compare_spec y z); first [done | lia].
  - destruct (Z.compare_spec x z); first [done | lia].
  - destruct (Z.compare_spec x z); first [done | lia].
Qed.
Lemma str_cmp_Gt_Lt a b : str_cmp a b = Gt ↔ str_cmp b a = Lt.
Proof. rewrite (str_cmp_antisym a b). by destruct (str_cmp b a). Qed.

Definition str_lt (a b : str) : Prop := str_cmp a b = Lt.
#[global] Instance str_lt_dec : RelDecision str_lt.
Proof. intros a b; unfold str_lt; apply _. Defined.
#[global] Instance str_lt_strict : StrictOrder str_lt.
Proof.
  split.
  - intros a H. unfold str_lt in H. by rewrite str_cmp_refl in H.
  - intros a b c. apply str_cmp_trans.
Qed.
Lemma str_lt_trichotomy a b : str_lt a b ∨ a = b ∨ str_lt b a.
Proof.
  unfold str_lt. destruct (str_cmp a b) eqn:E.
  - right; left; by apply str_cmp_eq.
  - by left.
  - right; right. by apply str_cmp_Gt_Lt.
Qed.

(** ** Lengths and character classes *)

Definition utf8_len (c : char) : Z :=
  if (c <? 0x80)%Z then 1
  else if (c <? 0x800)%Z then 2
  else if (c <? 0x10000)%Z then 3 else 4.
Fixpoint str_len (x : str) : Z :=
  match x with [] => 0 | c :: x => utf8_len c + str_len x end.

Lemma utf8_len_pos c : (1 ≤ utf8_len c ≤ 4)%Z.
Proof. unfold utf8_len. repeat case_match; lia. Qed.
Lemma str_len_nonneg x : (0 ≤ str_len x)%Z.
Proof. induction x as [|c x IH]; cbn; [lia|]. pose proof (utf8_len_pos c). lia. Qed.
Lemma length_le_str_len x : (Z.of_nat (length x) ≤ str_len x)%Z.
Proof. induction x as [|c x IH]; cbn; [lia|]. pose proof (utf8_len_pos c). lia. Qed.

(** [char::is_whitespace]: the Unicode property White_Space. *)
Definition is_whitespace (c : char) : bool :=
  ((9 <=? c) && (c <=? 13) || (c =? 32) || (c =? 0x85) || (c =? 0xA0)
   || (c =? 0x1680) || (0x2000 <=? c) && (c <=? 0x200A)
   || (c =? 0x2028) || (c =? 0x2029) || (c =? 0x202F) || (c =? 0x205F)
   || (c =? 0x3000))%Z.
Definition is_ascii_digit (c : char) : bool := ((48 <=? c) && (c <=? 57))%Z.
Definition is_ascii_uppercase (c : char) : bool := ((65 <=? c) && (c <=? 90))%Z.
Definition is_ascii_lowercase (c : char) : bool := ((97 <=? c) && (c <=? 122))%Z.
Definition is_ascii_alphabetic (c : char) : bool :=
  is_ascii_uppercase c || is_ascii_lowercase c.
Definition is_ascii_alphanumeric (c : char) : bool :=
  is_ascii_alphabetic c || is_ascii_digit c.
Definition is_ascii_hexdigit (c : char) : bool :=
  (is_ascii_digit c || (65 <=? c) && (c <=? 70) || (97 <=? c) && (c <=? 102))%Z.
Definition to_ascii_lowercase_char (c : char) : char :=
  if is_ascii_uppercase c then (c + 32)%Z else c.
Definition to_ascii_lowercase (x : str) : str := map to_ascii_lowercase_char x.
Definition eq_ignore_ascii_case (a b : str) : bool :=
  to_ascii_lowercase a =s to_ascii_lowercase b.

(** ** Searching, splitting, joining *)

Fixpoint strip_prefix (p x : str) : option str :=
  match p, x with
  | [], _ => Some x
  | a :: p, b :: x => if Z.eqb a b then strip_prefix p x else None
  | _ :: _, [] => None
  end.
Definition starts_with (x p : str) : bool :=
  match strip_prefix p x with Some _ => true | None => false end.
Definition strip_suffix (p x : str) : option str :=
  reverse <$> strip_prefix (reverse p) (reverse x).
Definition ends_with (x p : str) : bool :=
  match strip_suffix p x with Some _ => true | None => false end.

Lemma strip_prefix_Some p x r : strip_prefix p x = Some r ↔ x = p ++ r.
Proof.
  revert x; induction p as [|a p IH]; intros x; cbn.
  { naive_solver. }
  destruct x as [|b x]; [naive_solver|].
  destruct (Z.eqb_spec a b) as [->|Hne]; [rewrite IH; naive_solver | naive_solver].
Qed.
Lemma starts_with_spec x p : starts_with x p = true ↔ ∃ r, x = p ++ r.
Proof.
  unfold starts_with. setoid_rewrite <-strip_prefix_Some.
  destruct (strip_prefix p x); naive_solver.
Qed.
Lemma strip_suffix_Some p x r : strip_suffix p x = Some r ↔ x = r ++ p.
Proof.
  unfold strip_suffix. rewrite fmap_Some. setoid_rewrite strip_prefix_Some. split.
  - intros (y & H & ->). apply (f_equal reverse) in H.
    by rewrite reverse_app, !reverse_involutive in H.
  - intros ->. exists (reverse r). by rewrite reverse_app, reverse_involutive.
Qed.

(** [x.contains(c)] for a character and [x.contains(p)] for a string. *)
Definition contains_char (x : str) (c : char) : bool := existsb (Z.eqb c) x.
Fixpoint contains_str (x p : str) : bool :=
  starts_with x p || match x with [] => false | _ :: x => contains_str x p end.

Lemma contains_char_spec x c : contains_char x c = true ↔ c ∈ x.
Proof.
  unfold contains_char. rewrite existsb_exists. split.
  - intros (d & Hd & ->%Z.eqb_eq). by apply list_elem_of_In.
  - intros H. exists c. rewrite Z.eqb_refl. split; [by apply list_elem_of_In | done].
Qed.
Lemma contains_str_spec x p :
  contains_str x p = true ↔ ∃ a b, x = a ++ p ++ b.
Proof.
  induction x as [|c x IH]; cbn; rewrite orb_true_iff, starts_with_spec.
  - split.
    + intros [[r H]|H]; [by exists [], r | done].
    + intros ([|] & b & H); [left; by exists b | done].
  - rewrite IH. split.
    + intros [[r ->]|(a & b & ->)]; [by exists [], r | by exists (c :: a), b].
    + intros ([|d a] & b & H); [left; by exists b|].
      injection H as -> ->. right; by exists a, b.
Qed.

(** [x.split(c)]. *)
Fixpoint split_char (c : char) (x : str) : list str :=
  match x with
  | [] => [[]]
  | d :: x =>
      if Z.eqb d c then [] :: split_char c x
      else match split_char c x with
           | p :: ps => (d :: p) :: ps
           | [] => [[d]]
           end
  end.

(** [x.split_once(c)]. *)
Fixpoint split_once (c : char) (x : str) : option (str * str) :=
  match x with
  | [] => None
  | d :: x =>
      if Z.eqb d c then Some ([], x)
      else match split_once c x with
           | Some (a, b) => Some (d :: a, b)
           | None => None
           end
  end.

(** [x.split(p)] for a string pattern: non-overlapping matches, left to
    right; [k] characters of a match are still to be skipped.  An empty
    pattern matches at every character boundary. *)
Fixpoint split_str_go (p : str) (k : nat) (x : str) : list str :=
  match x with
  | [] => [[]]
  | d :: r =>
      match k with
      | S k => split_str_go p k r
      | 0 =>
          if starts_with x p then [] :: split_str_go p (length p - 1) r
          else match split_str_go p 0 r with
               | q :: qs => (d :: q) :: qs
               | [] => [[d]]
               end
      end
  end.
Definition split_str (p x : str) : list str :=
  match p with
  | [] => [] :: map (λ c, [c]) x ++ [[]]
  | _ => split_str_go p 0 x
  end.

(** [parts.join(sep)]. *)
Fixpoint join (sep : str) (parts : list str) : str :=
  match parts with
  | [] => []
  | [x] => x
  | x :: rest => x ++ sep ++ join sep rest
  end.

(** [x.replace(from, to)]. *)
Definition replace (from to x : str) : str := join to (split_str from x).

(** [x.trim()]. *)
Fixpoint trim_start (x : str) : str :=
  match x with
  | c :: r => if is_whitespace c then trim_start r else x
  | [] => []
  end.
Definition trim (x : str) : str := reverse (trim_start (reverse (trim_start x))).

Lemma split_char_nonempty c x : split_char c x ≠ [].
Proof. destruct x; cbn; [done|]. case_match; [done|]. by case_match. Qed.

Lemma join_cons sep p q qs : join sep (p :: q :: qs) = p ++ sep ++ join sep (q :: qs).
Proof. done. Qed.

Lemma join_cons_char sep d p ps : join sep ((d :: p) :: ps) = d :: join sep (p :: ps).
Proof. by destruct ps. Qed.

Lemma join_split_char c x : join [c] (split_char c x) = x.
Proof.
  induction x as [|d x IH]; cbn; [done|].
  pose proof (split_char_nonempty c x).
  destruct (Z.eqb_spec d c) as [->|].
  - destruct (split_char c x) as [|p ps]; [done|]. rewrite join_cons. cbn.
    by f_equal.
  - destruct (split_char c x) as [|p ps]; [done|]. rewrite join_cons_char. by f_equal.
Qed.

(** No piece of a split contains the separator. *)
Lemma split_char_sep_free c x p : p ∈ split_char c x → c ∉ p.
Proof.
  revert p; induction x as [|d x IH]; intros p; cbn.
  { intros ->%list_elem_of_singleton. apply not_elem_of_nil. }
  destruct (Z.eqb_spec d c) as [->|Hne].
  - intros [->|H]%elem_of_cons; [apply not_elem_of_nil | by apply IH].
  - destruct (split_char c x) as [|q qs].
    + intros ->%list_elem_of_singleton. set_solver.
    + intros [->|H]%elem_of_cons.
      * specialize (IH q). set_solver.
      * apply IH. by right.
Qed.

(** Splitting is the only way to cut [x] into separator-free pieces. *)
Lemma split_char_join c ps :
  ps ≠ [] → (∀ p, p ∈ ps → c ∉ p) → split_char c (join [c] ps) = ps.
Proof.
  assert (Hfree : ∀ p q, c ∉ p → split_char c (p ++ c :: q) = p :: split_char c q).
  { induction p as [|d p IH]; intros q Hp; cbn; [by rewrite Z.eqb_refl|].
    rewrite (proj2 (Z.eqb_neq d c)) by set_solver. rewrite IH by set_solver. done. }
  assert (Hone : ∀ p, c ∉ p → split_char c p = [p]).
  { induction p as [|d p IH]; intros Hp; cbn; [done|].
    rewrite (proj2 (Z.eqb_neq d c)) by set_solver. by rewrite IH by set_solver. }
  induction ps as [|p [|q ps] IH]; intros Hne Hf; [done| |].
  - cbn. apply Hone, Hf. by left.
  - rewrite join_cons. cbn [app]. rewrite Hfree by (apply Hf; by left).
    f_equal. apply IH; [done|]. intros; apply Hf; by right.
Qed.

Lemma split_char_app c a b : split_char c (a ++ c :: b) = split_char c a ++ split_char c b.
Proof.
  induction a as [|d a IH]; cbn; [by rewrite Z.eqb_refl|].
  case_match; cbn; [by rewrite IH|]. rewrite IH.
  pose proof (split_char_nonempty c a). by destruct (split_char c a).
Qed.
Lemma split_char_free c x : c ∉ x → split_char c x = [x].
Proof.
  intros H. rewrite <-(split_char_join c [x]); [done|done|].
  by intros p ->%list_elem_of_singleton.
Qed.
Lemma join_app sep l1 l2 :
  l1 ≠ [] → l2 ≠ [] → join sep (l1 ++ l2) = join sep l1 ++ sep ++ join sep l2.
Proof.
  intros H1 H2. induction l1 as [|x l1 IH]; [done|].
  destruct l1 as [|y l1]; [by destruct l2|].
  change ((x :: y :: l1) ++ l2) with (x :: y :: (l1 ++ l2)). rewrite !join_cons.
  change (y :: l1 ++ l2) with ((y :: l1) ++ l2). by rewrite IH, <-!app_assoc.
Qed.
Lemma split_char_inj c x y : split_char c x = split_char c y → x = y.
Proof. intros E. by rewrite <-(join_split_char c x), <-(join_split_char c y), E. Qed.

Lemma split_once_Some c x a b :
  split_once c x = Some (a, b) ↔ x = a ++ c :: b ∧ c ∉ a.
Proof.
  revert a b; induction x as [|d x IH]; intros a b; cbn.
  { split; [done|]. intros [H _]. by destruct a. }
  destruct (Z.eqb_spec d c) as [->|Hne].
  - split; [intros [= <- <-]; split; [done | apply not_elem_of_nil]|].
    intros [H Hc]. destruct a as [|e a]; cbn in H; [naive_solver|].
    injection H as -> ->. set_solver.
  - assert (Hcons : ∀ e a', d :: x = (e :: a') ++ c :: b ∧ c ∉ e :: a' →
                      e = d ∧ split_once c x = Some (a', b)).
    { intros e a' [[= -> Hx] Hc]. split; [done|]. apply IH. set_solver. }
    destruct (split_once c x) as [[a' b']|] eqn:E.
    + destruct (proj1 (IH a' b') eq_refl) as [Hx Hc]. split.
      * intros [= <- <-]. rewrite Hx. set_solver.
      * intros H. destruct a as [|e a]; [naive_solver|].
        apply Hcons in H as [-> H]. naive_solver.
    + split; [done|]. intros H. destruct a as [|e a]; [naive_solver|].
      by apply Hcons in H as [_ H].
Qed.

(** ** Decimal numbers *)

Definition digit_val (c : char) : option Z :=
  if is_ascii_digit c then Some (c - 48)%Z else None.
Fixpoint digits_val_acc (acc : Z) (x : str) : option Z :=
  match x with
  | [] => Some acc
  | c :: x => match digit_val c with
              | Some d => digits_val_acc (acc * 10 + d)%Z x
              | None => None
              end
  end.
(** The value of a non-empty digit sequence. *)
Definition digits_val (x : str) : option Z :=
  match x with [] => None | _ => digits_val_acc 0 x end.

(** [usize::from_str]: an optional [+], at least one digit, no overflow. *)
Definition parse_uint (max : Z) (x : str) : option Z :=
  let body := match x with
              | c :: r => if Z.eqb c 43 then r else x
              | [] => []
              end in
  match digits_val body with
  | Some v => if (v <=? max)%Z then Some v else None
  | None => None
  end.
Definition parse_usize (x : str) : option Z := parse_uint USIZE_MAX x.

(** [to_string] of an unsigned integer. *)
Fixpoint show_uint_go (fuel : nat) (z : Z) (acc : str) : str :=
  match fuel with
  | 0 => acc
  | S fuel =>
      let acc := (48 + z mod 10)%Z :: acc in
      if (z / 10 =? 0)%Z then acc else show_uint_go fuel (z / 10)%Z acc
  end.
Definition show_uint (z : Z) : str := show_uint_go (S (Z.to_nat (Z.log2 z))) z [].
Definition show_nat (n : nat) : str := show_uint (Z.of_nat n).

(** Printing an unsigned integer in decimal and reading it back. *)
Lemma show_uint_go_spec fuel z acc :
  (0 ≤ z < 2 ^ Z.of_nat fuel)%Z → fuel ≠ 0 →
  ∃ ds, show_uint_go fuel z acc = ds ++ acc ∧
        Forall (λ c, is_ascii_digit c = true) ds ∧
        (∀ a, digits_val_acc a ds = Some (a * 10 ^ Z.of_nat (length ds) + z)%Z) ∧
        (ds = [48%Z] ∨ ∃ c r, ds = c :: r ∧ c ≠ 48%Z).
Proof.
  revert z acc; induction fuel as [|fuel IH]; [done|]. intros z acc Hz _.
  assert (Hm : (0 ≤ z mod 10 < 10)%Z) by (apply Z.mod_pos_bound; lia).
  assert (Hdig : is_ascii_digit (48 + z mod 10) = true)
    by (unfold is_ascii_digit; apply andb_true_iff; split; apply Z.leb_le; lia).
  assert (Hval : digit_val (48 + z mod 10) = Some (z mod 10)%Z)
    by (unfold digit_val; rewrite Hdig; f_equal; lia).
  assert (Hz10 : z = (10 * (z / 10) + z mod 10)%Z) by (apply Z.div_mod; lia).
  cbn [show_uint_go]. destruct (Z.eqb_spec (z / 10) 0) as [E|E].
  - exists [(48 + z mod 10)%Z]. split; [done|]. split; [by constructor|]. split.
    + intros a. cbn [digits_val_acc]. rewrite Hval. cbn. f_equal. lia.
    + destruct (decide (z mod 10 = 0)%Z) as [->|]; [by left|].
      right. eexists _, []. split; [done|lia].
  - assert (Hlt : (0 ≤ z / 10 < 2 ^ Z.of_nat fuel)%Z).
    { rewrite Nat2Z.inj_succ, Z.pow_succ_r in Hz by lia.
      split; [apply Z.div_pos; lia | apply Z.div_lt_upper_bound; lia]. }
    destruct fuel as [|fuel]; [cbn in Hlt; lia|].
    destruct (IH (z / 10)%Z ((48 + z mod 10)%Z :: acc) Hlt ltac:(done))
      as (ds & -> & Hd & Hv & Hh).
    exists (ds ++ [(48 + z mod 10)%Z]). rewrite <-app_assoc. split; [done|].
    split; [by apply Forall_app; split; [|constructor]|]. split.
    + assert (Happ : ∀ a b l, digits_val_acc a l = Some b →
                digits_val_acc a (l ++ [(48 + z mod 10)%Z]) = Some (b * 10 + z mod 10)%Z).
      { intros a b l; revert a; induction l as [|c l IHl]; intros a.
        - intros [= ->]. cbn [digits_val_acc app]. by rewrite Hval.
        - cbn [digits_val_acc app]. destruct (digit_val c); [apply IHl|done]. }
      intros a. rewrite (Happ _ _ _ (Hv a)), length_app. cbn [length].
      rewrite Nat2Z.inj_add, Z.pow_add_r by lia. f_equal. lia.
    + right. destruct Hh as [->|(c & r & -> & Hc)].
      * specialize (Hv 0%Z). cbn in Hv. injection Hv as Hv. lia.
      * exists c, (r ++ [(48 + z mod 10)%Z]). done.
Qed.

Lemma show_uint_spec z :
  (0 ≤ z)%Z →
  Forall (λ c, is_ascii_digit c = true) (show_uint z) ∧
  digits_val (show_uint z) = Some z ∧
  (show_uint z = [48%Z] ∨ ∃ c r, show_uint z = c :: r ∧ c ≠ 48%Z).
Proof.
  intros Hz. unfold show_uint.
  destruct (show_uint_go_spec (S (Z.to_nat (Z.log2 z))) z []) as (ds & E & Hd & Hv & Hh).
  - split; [done|]. rewrite Nat2Z.inj_succ, Z2Nat.id by apply Z.log2_nonneg.
    destruct (decide (z = 0)%Z) as [->|]; [done|]. by apply Z.log2_spec; lia.
  - done.
  - rewrite E, app_nil_r in *. split; [done|]. split; [|done].
    specialize (Hv 0%Z). unfold digits_val. rewrite Hv.
    destruct Hh as [->|(c & r & -> & _)]; f_equal; lia.
Qed.
