(* ===== verification/Sorting.v ===== *)
(** * Orders and sorting

    Rust's [Ord] on tuples, options and [Reverse], [Iterator::min_by] and the
    stable [slice::sort_by], with their laws. *)

From S2P Require Import Prelude Str.
From Stdlib Require Import Sorted.

(** ** Orders

    Rust's [Ord] on the types the keys are built from. *)

Class TotalCmp {A} (cmp : A → A → comparison) : Prop := {
  tc_eq a b : cmp a b = Eq ↔ a = b;
  tc_antisym a b : cmp a b = CompOpp (cmp b a);
  tc_trans a b c : cmp a b = Lt → cmp b c = Lt → cmp a c = Lt;
}.
#[global] Hint Mode TotalCmp + ! : typeclass_instances.

Definition lex {A B} (ca : A → A → comparison) (cb : B → B → comparison)
    (x y : A * B) : comparison :=
  match ca x.1 y.1 with Eq => cb x.2 y.2 | o => o end.
(** [std::cmp::Reverse]. *)
Definition rev_cmp {A} (c : A → A → comparison) (x y : A) : comparison := c y x.
(** [bool] and [Option]: [false] before [true], [None] before [Some]. *)
Definition bool_cmp (x y : bool) : comparison :=
  match x, y with false, true => Lt | true, false => Gt | _, _ => Eq end.
Definition option_cmp {A} (c : A → A → comparison) (x y : option A) : comparison :=
  match x, y with
  | None, None => Eq | None, Some _ => Lt | Some _, None => Gt
  | Some x, Some y => c x y
  end.

#[global] Instance Z_total : TotalCmp Z.compare.
Proof.
  constructor; intros; [apply Z.compare_eq_iff|apply Z.compare_antisym|].
  rewrite Z.compare_lt_iff in *. lia.
Qed.
#[global] Instance str_total : TotalCmp str_cmp.
Proof. constructor; [apply str_cmp_eq|apply str_cmp_antisym|apply str_cmp_trans]. Qed.
#[global] Instance bool_total : TotalCmp bool_cmp.
Proof. constructor; [by intros [] []|by intros [] []|by intros [] [] []]. Qed.
#[global] Instance rev_total {A} (c : A → A → comparison) `{TotalCmp A c} : TotalCmp (rev_cmp c).
Proof.
  constructor; unfold rev_cmp; intros; [rewrite tc_eq; naive_solver|apply tc_antisym|by eapply tc_trans].
Qed.
#[global] Instance option_total {A} (c : A → A → comparison) `{TotalCmp A c} : TotalCmp (option_cmp c).
Proof.
  constructor.
  - intros [x|] [y|]; cbn; rewrite ?tc_eq; naive_solver.
  - intros [x|] [y|]; cbn; try done. apply tc_antisym.
  - intros [x|] [y|] [z|]; cbn; try done. apply tc_trans.
Qed.
#[global] Instance lex_total {A B} (ca : A → A → comparison) (cb : B → B → comparison)
    `{TotalCmp A ca, TotalCmp B cb} : TotalCmp (lex ca cb).
Proof.
  constructor; unfold lex.
  - intros [a b] [a' b']; cbn. destruct (ca a a') eqn:E.
    + apply tc_eq in E as ->. rewrite tc_eq. naive_solver.
    + split; [done|]. intros [= -> ->]. by rewrite (proj2 (tc_eq a' a')) in E.
    + split; [done|]. intros [= -> ->]. by rewrite (proj2 (tc_eq a' a')) in E.
  - intros [a b] [a' b']; cbn. rewrite (tc_antisym a a').
    destruct (ca a' a); cbn; [apply tc_antisym|done..].
  - intros [a b] [a' b'] [a'' b'']; cbn. destruct (ca a a') eqn:E1; [|intros _|done].
    + apply tc_eq in E1 as ->. destruct (ca a' a''); [apply tc_trans|done..].
    + destruct (ca a' a'') eqn:E2; [|intros _|done].
      * apply tc_eq in E2 as ->. by rewrite E1.
      * by rewrite (tc_trans _ _ _ E1 E2).
Qed.

#[global] Typeclasses Opaque lex rev_cmp bool_cmp option_cmp.

(** [Iterator::min_by]: the first least element. *)
Definition min_by {A} (cmp : A → A → comparison) (l : list A) : option A :=
  match l with
  | [] => None
  | x :: l => Some (foldl (λ x y, match cmp x y with Gt => y | _ => x end) x l)
  end.
(** [slice::sort_by] (stable): insertion after the elements not greater. *)
Fixpoint insert_by {A} (cmp : A → A → comparison) (x : A) (l : list A) : list A :=
  match l with
  | [] => [x]
  | y :: l' => match cmp y x with Gt => x :: l | _ => y :: insert_by cmp x l' end
  end.
Definition sort_by {A} (cmp : A → A → comparison) (l : list A) : list A :=
  foldl (λ acc x, insert_by cmp x acc) [] l.

(** ** Least elements and sorting *)

Section by_key.
Context {A K : Type} (key : A → K) (cmp : K → K → comparison) `{!TotalCmp cmp}.
#[local] Abbreviation kcmp := (λ a b, cmp (key a) (key b)).

Lemma cmp_refl k : cmp k k = Eq.
Proof. by apply tc_eq. Qed.
Lemma cmp_gt a b : cmp a b = Gt ↔ cmp b a = Lt.
Proof. rewrite (tc_antisym a b). destruct (cmp b a); naive_solver. Qed.
Lemma cmp_le_trans a b c : cmp a b ≠ Gt → cmp b c ≠ Gt → cmp a c ≠ Gt.
Proof.
  intros H1 H2. destruct (cmp a b) eqn:E1; [apply tc_eq in E1 as ->; done| |done].
  destruct (cmp b c) eqn:E2; [apply tc_eq in E2 as <-; by rewrite E1| |done].
  by rewrite (tc_trans _ _ _ E1 E2).
Qed.

Lemma min_by_foldl l : ∀ x, let m := foldl (λ x y, match kcmp x y with Gt => y | _ => x end) x l in
  (m = x ∨ m ∈ l) ∧ kcmp m x ≠ Gt ∧ ∀ y, y ∈ l → kcmp m y ≠ Gt.
Proof.
  induction l as [|y l IH]; intros x; cbn.
  { split; [by left|]. split; [by rewrite cmp_refl|by intros ? ?%not_elem_of_nil]. }
  set (z := match cmp (key x) (key y) with Gt => y | _ => x end).
  destruct (IH z) as (H1 & H2 & H3). set (m := foldl _ z l) in *.
  assert (Hzx : cmp (key z) (key x) ≠ Gt).
  { unfold z. destruct (cmp (key x) (key y)) eqn:E; [by rewrite cmp_refl..|].
    apply cmp_gt in E. by rewrite E. }
  assert (Hzy : cmp (key z) (key y) ≠ Gt).
  { unfold z. destruct (cmp (key x) (key y)) eqn:E; [by rewrite E..|by rewrite cmp_refl]. }
  split; [|split].
  - destruct H1 as [->|]; [|right; by right]. unfold z.
    destruct (cmp (key x) (key y)); [by left|by left|right; by left].
  - by eapply cmp_le_trans.
  - intros w [->|Hw]%elem_of_cons; [by eapply cmp_le_trans|by apply H3].
Qed.
Lemma min_by_Some l x : min_by kcmp l = Some x → x ∈ l ∧ ∀ y, y ∈ l → kcmp x y ≠ Gt.
Proof.
  destruct l as [|y l]; [done|]. cbn [min_by]. intros [= <-].
  destruct (min_by_foldl l y) as (H1 & H2 & H3). split.
  - destruct H1 as [->|]; [by left|by right].
  - intros w [->|Hw]%elem_of_cons; [done|by apply H3].
Qed.
Lemma min_by_None l : min_by kcmp l = None ↔ l = [].
Proof. by destruct l. Qed.

Lemma insert_by_perm x l : insert_by kcmp x l ≡ₚ x :: l.
Proof.
  induction l as [|y l IH]; cbn; [done|]. destruct (cmp (key y) (key x)); [..|done]; rewrite IH; apply Permutation_swap.
Qed.
Lemma insert_by_sorted x l : StronglySorted (λ a b, kcmp a b ≠ Gt) l →
  StronglySorted (λ a b, kcmp a b ≠ Gt) (insert_by kcmp x l).
Proof.
  induction l as [|y l IH]; intros Hs; cbn; [repeat constructor|].
  inversion Hs as [|?? Hs' Hf]; subst. rewrite Forall_forall in Hf.
  destruct (cmp (key y) (key x)) eqn:E.
  1,2: constructor; [by apply IH|]; apply Forall_forall; intros z Hz;
    rewrite insert_by_perm in Hz; apply elem_of_cons in Hz as [->|Hz]; [congruence|by apply Hf].
  constructor; [done|]. apply cmp_gt in E. apply Forall_forall.
  intros z [->|Hz]%elem_of_cons; [congruence|]. eapply cmp_le_trans; [|by apply Hf]. congruence.
Qed.
Lemma sort_by_spec l : sort_by kcmp l ≡ₚ l ∧ StronglySorted (λ a b, kcmp a b ≠ Gt) (sort_by kcmp l).
Proof.
  unfold sort_by. assert (H : ∀ acc, StronglySorted (λ a b, kcmp a b ≠ Gt) acc →
    foldl (λ acc x, insert_by kcmp x acc) acc l ≡ₚ acc ++ l ∧
    StronglySorted (λ a b, kcmp a b ≠ Gt) (foldl (λ acc x, insert_by kcmp x acc) acc l)).
  { induction l as [|x l IH]; intros acc Hacc; cbn; [by rewrite app_nil_r|].
    destruct (IH (insert_by kcmp x acc)) as [H1 H2]; [by apply insert_by_sorted|].
    split; [|done]. rewrite H1, insert_by_perm. apply Permutation_middle. }
  apply (H []). constructor.
Qed.

(** In a sorted list the index of an element with a unique key is the number
    of elements before it in the order. *)
Definition before (x : A) (l : list A) : nat :=
  length (List.filter (λ y, bool_decide (kcmp y x = Lt)) l).
Lemma before_perm x l l' : l ≡ₚ l' → before x l = before x l'.
Proof.
  unfold before. induction 1 as [|y l l' _ IH|y z l|l1 l2 l3 _ IH1 _ IH2]; cbn; [done| | |congruence].
  - case_bool_decide; cbn; congruence.
  - repeat case_bool_decide; done.
Qed.
Lemma sorted_position (p : A → bool) x l : x ∈ l → (∀ y, y ∈ l → p y = true ↔ key y = key x) →
  StronglySorted (λ a b, kcmp a b ≠ Gt) l → position p l = Some (before x l).
Proof.
  induction l as [|y l IH]; intros Hx Hp Hs; [by apply not_elem_of_nil in Hx|].
  inversion Hs as [|?? Hs' Hf]; subst. rewrite Forall_forall in Hf. cbn [position].
  unfold before. cbn [List.filter]. destruct (p y) eqn:Ep.
  - assert (Hk : key y = key x) by (by apply Hp; [left|]).
    rewrite bool_decide_false by by rewrite Hk, cmp_refl. f_equal.
    destruct (List.filter _ l) as [|z r] eqn:Ef; [done|]. exfalso.
    assert (Hz : z ∈ z :: r) by by left. rewrite <-Ef in Hz.
    apply list_elem_of_In, List.filter_In in Hz as [Hz Hlt%bool_decide_eq_true].
    apply list_elem_of_In in Hz. specialize (Hf z Hz). rewrite Hk in Hf. apply cmp_gt in Hlt. done.
  - assert (Hne : key y ≠ key x) by (intros Hk; apply Hp in Hk; [congruence|by left]).
    apply elem_of_cons in Hx as [->|Hx]; [done|].
    rewrite bool_decide_true.
    2:{ specialize (Hf x Hx). destruct (cmp (key y) (key x)) eqn:E; [by apply tc_eq in E|done|done]. }
    cbn [length]. rewrite IH; [done|done| |done]. intros z Hz. apply Hp. by right.
Qed.
(** Sorting keeps the elements of one key in their order, and a sorted list is
    the concatenation of its groups. *)
Definition has_key (k : K) (x : A) : bool := match cmp (key x) k with Eq => true | _ => false end.
Lemma has_key_eq k x : has_key k x = true ↔ key x = k.
Proof. unfold has_key. rewrite <-(tc_eq (cmp := cmp)). by destruct (cmp (key x) k). Qed.
Lemma has_key_none k l : (∀ y, y ∈ l → key y ≠ k) → List.filter (has_key k) l = [].
Proof.
  induction l as [|y l IH]; intros Hl; cbn; [done|]. destruct (has_key k y) eqn:E.
  - apply has_key_eq in E. destruct (Hl y ltac:(by left) E).
  - apply IH. intros z Hz. apply Hl. by right.
Qed.

Lemma insert_by_filter k x l : StronglySorted (λ a b, kcmp a b ≠ Gt) l →
  List.filter (has_key k) (insert_by kcmp x l)
  = List.filter (has_key k) l ++ List.filter (has_key k) [x].
Proof.
  induction l as [|y l IH]; intros Hs; [done|]. inversion Hs as [|?? Hs' Hf]; subst.
  rewrite Forall_forall in Hf. cbn [insert_by]. destruct (cmp (key y) (key x)) eqn:E.
  1,2: cbn [List.filter]; rewrite IH by done; by destruct (has_key k y).
  change (x :: y :: l) with ([x] ++ y :: l). rewrite List.filter_app.
  destruct (has_key k x) eqn:Hx;
    [|cbn [List.filter app]; rewrite Hx; by rewrite app_nil_r].
  apply has_key_eq in Hx. rewrite (has_key_none k (y :: l)); [by rewrite app_nil_r|]. intros z Hz Hk. apply elem_of_cons in Hz as [->|Hz].
  - by rewrite Hx, Hk, cmp_refl in E.
  - specialize (Hf z Hz). rewrite Hk, <-Hx in Hf. congruence.
Qed.
Lemma sort_by_filter k l :
  List.filter (has_key k) (sort_by kcmp l) = List.filter (has_key k) l.
Proof.
  unfold sort_by. assert (Hg : ∀ acc, StronglySorted (λ a b, kcmp a b ≠ Gt) acc →
    List.filter (has_key k) (foldl (λ acc x, insert_by kcmp x acc) acc l)
    = List.filter (has_key k) acc ++ List.filter (has_key k) l).
  { induction l as [|x l IH]; intros acc Hacc; cbn; [by rewrite app_nil_r|].
    rewrite IH by by apply insert_by_sorted. rewrite insert_by_filter by done.
    rewrite <-app_assoc. f_equal. cbn. by destruct (has_key k x). }
  apply (Hg []). constructor.
Qed.

Lemma sorted_group_first k l : StronglySorted (λ a b, kcmp a b ≠ Gt) l →
  (∀ y, y ∈ l → cmp k (key y) ≠ Gt) →
  l = List.filter (has_key k) l ++ List.filter (λ y, negb (has_key k y)) l.
Proof.
  induction l as [|y l IH]; intros Hs Hk; [done|]. inversion Hs as [|?? Hs' Hf]; subst. cbn.
  destruct (has_key k y) eqn:E; cbn.
  - f_equal. apply IH; [done|]. intros z Hz. apply Hk. by right.
  - assert (Hnone : List.filter (has_key k) l = []).
    { apply has_key_none. intros z Hz Heq. rewrite Forall_forall in Hf. specialize (Hf z Hz).
      specialize (Hk y ltac:(by left)). rewrite Heq in Hf.
      destruct (cmp k (key y)) eqn:Ek; [|by apply cmp_gt in Ek|done].
      apply tc_eq in Ek. symmetry in Ek. apply has_key_eq in Ek. congruence. }
    rewrite Hnone. cbn. f_equal. rewrite (IH Hs') at 1 by (intros z Hz; apply Hk; by right).
    by rewrite Hnone.
Qed.
Lemma sorted_groups ks l : StronglySorted (λ a b, kcmp a b ≠ Gt) l →
  StronglySorted (λ a b, cmp a b = Lt) ks → (∀ y, y ∈ l → key y ∈ ks) →
  l = concat (map (λ k, List.filter (has_key k) l) ks).
Proof.
  revert l. induction ks as [|k ks IH]; intros l Hs Hks Hin.
  { destruct l as [|y l]; [done|]. by destruct (not_elem_of_nil _ (Hin y ltac:(by left))). }
  inversion Hks as [|?? Hks' Hlt]; subst. rewrite Forall_forall in Hlt.
  rewrite (sorted_group_first k l) at 1.
  3:{ intros y Hy. apply Hin in Hy as [->|Hy]%elem_of_cons; [by rewrite cmp_refl|].
      by rewrite (Hlt _ Hy). }
  2:{ done. }
  cbn. f_equal. rewrite (IH (List.filter (λ y, negb (has_key k y)) l)) at 1.
  - f_equal. apply map_ext_in. intros k' Hk'. apply list_elem_of_In, Hlt in Hk'.
    clear -Hk' TotalCmp0. induction l as [|y l IH]; cbn; [done|].
    destruct (has_key k y) eqn:E1, (has_key k' y) eqn:E2; cbn; rewrite ?E2, ?IH; try done.
    apply has_key_eq in E1, E2. rewrite <-E1, <-E2, cmp_refl in Hk'. done.
  - clear -Hs. induction l as [|y l IH]; cbn; [constructor|]. inversion Hs as [|?? Hs' Hf]; subst.
    destruct (has_key k y); cbn; [by apply IH|]. constructor; [by apply IH|].
    apply Forall_forall. intros z Hz. rewrite Forall_forall in Hf. apply Hf.
    apply list_elem_of_In, List.filter_In in Hz as [Hz _]. by apply list_elem_of_In.
  - done.
  - intros y Hy. apply list_elem_of_In, List.filter_In in Hy as [Hy Hn]. apply list_elem_of_In in Hy.
    apply Hin in Hy as [Hy|Hy]%elem_of_cons; [|done]. apply has_key_eq in Hy. by rewrite Hy in Hn.
Qed.
End by_key.
