(* ===== verification/TraceIds.v ===== *)
(** * Digests, trace and span ids *)

From S2P Require Import Prelude Str.

(** * Digests

    SHA-256 with hexadecimal output, a parameter of the development, and what
    its clients rely on: a digest is 64 lowercase hexadecimal digits. *)

Definition lower_hex (c : char) : bool :=
  is_ascii_digit c || ((97 <=? c) && (c <=? 102))%Z.
(** A string of [n] lowercase hexadecimal digits. *)
Definition hex_id (n : nat) (x : str) : Prop :=
  length x = n ∧ Forall (λ c, lower_hex c = true) x.

(** [hex::encode(sha2::Sha256::digest(..))]. *)
Class Sha256 := { sha256_hex : str → str }.
Class Sha256Laws `{Sha256} : Prop := { sha256_form : ∀ x, hex_id 64 (sha256_hex x) }.
(** The same digest, of bytes. *)
Class Sha256Bytes := { sha256_bytes_hex : list Z → str }.
Class Sha256BytesLaws `{Sha256Bytes} : Prop := {
  sha256_bytes_form : ∀ x, hex_id 64 (sha256_bytes_hex x);
}.

Lemma lower_hex_hexdigit c : lower_hex c = true → is_ascii_hexdigit c = true.
Proof. unfold lower_hex, is_ascii_hexdigit, is_ascii_digit. lia. Qed.
Lemma lower_hex_lowercase c : lower_hex c = true → to_ascii_lowercase_char c = c.
Proof.
  unfold lower_hex, to_ascii_lowercase_char, is_ascii_digit, is_ascii_uppercase. case_if; lia.
Qed.
Lemma lower_hex_lower x : Forall (λ c, lower_hex c = true) x → to_ascii_lowercase x = x.
Proof.
  intros Hx. unfold to_ascii_lowercase. rewrite <-(map_id x) at 2. apply map_ext_Forall.
  eapply Forall_impl; [exact Hx|]. apply lower_hex_lowercase.
Qed.

#[local] Arguments s : simpl never.

(** * Trace and span ids

    [api/src/events/envelope.rs]: the ids the journal writer stamps on every
    record, as 64-bit FNV-1a arithmetic over UTF-8 bytes. *)

(** The UTF-8 bytes of a string. *)
Definition utf8_char (c : char) : list Z :=
  (if c <? 0x80 then [c]
   else if c <? 0x800 then [0xC0 + Z.shiftr c 6; 0x80 + Z.land c 0x3F]
   else if c <? 0x10000 then
     [0xE0 + Z.shiftr c 12; 0x80 + Z.land (Z.shiftr c 6) 0x3F; 0x80 + Z.land c 0x3F]
   else
     [0xF0 + Z.shiftr c 18; 0x80 + Z.land (Z.shiftr c 12) 0x3F;
      0x80 + Z.land (Z.shiftr c 6) 0x3F; 0x80 + Z.land c 0x3F])%Z.
Definition utf8_bytes (x : str) : list Z := concat (map utf8_char x).

(** [format!("{:016x}", z)] for a 64-bit [z]: the digits from the lowest. *)
Definition hex_digit (d : Z) : char := if (d <? 10)%Z then (48 + d)%Z else (87 + d)%Z.
Fixpoint hex_go (n : nat) (z : Z) (acc : str) : str :=
  match n with
  | O => acc
  | S n => hex_go n (Z.shiftr z 4) (hex_digit (Z.land z 15) :: acc)
  end.
Definition hex16 (z : Z) : str := hex_go 16 z [].

Definition FNV_PRIME : Z := 0x100000001b3.
Definition fnv_step (state byte : Z) : Z := (Z.lxor state byte * FNV_PRIME) mod (U64_MAX + 1).

(** The two interleaved states of [trace_id_for_run]. *)
Fixpoint fnv_pair (even : bool) (a b : Z) (data : list Z) : Z * Z :=
  match data with
  | [] => (a, b)
  | byte :: data =>
      if even then fnv_pair false (fnv_step a byte) b data
      else fnv_pair true a (fnv_step b byte) data
  end.

Definition trace_id_for_run (run_id : str) : str :=
  let compact :=
    map to_ascii_lowercase_char (List.filter is_ascii_hexdigit (utf8_bytes run_id)) in
  if (length compact =? 32)%nat && existsb (λ c, negb (c =? 48)%Z) compact then compact
  else
    let '(a, b) := fnv_pair true 0xcbf29ce484222325 0x84222325cbf29ce4 (utf8_bytes run_id) in
    hex16 a ++ hex16 b.

Definition span_id_for_seq (seq : Z) : str := hex16 (Z.max seq 1).

Definition span_id_for_scope (run_id scope : str) : str :=
  let state := foldl fnv_step 0xcbf29ce484222325%Z
                 (utf8_bytes run_id ++ [58%Z] ++ utf8_bytes scope) in
  hex16 (if (state =? 0)%Z then 1%Z else state).

(** ** Form of the ids *)

(** The number a string of hexadecimal digits denotes. *)
Definition hex_val (c : char) : Z := if (c <? 97)%Z then (c - 48)%Z else (c - 87)%Z.
Definition hex_num (x : str) : Z := foldl (λ acc c, acc * 16 + hex_val c)%Z 0%Z x.

Lemma hex_digit_lower d : (0 ≤ d < 16)%Z → lower_hex (hex_digit d) = true.
Proof. intros Hd. unfold lower_hex, hex_digit, is_ascii_digit. case_if; lia. Qed.
Lemma hex_digit_val d : (0 ≤ d < 16)%Z → hex_val (hex_digit d) = d.
Proof. intros Hd. unfold hex_val, hex_digit. case_if; case_if; lia. Qed.

Lemma land15_range z : (0 ≤ Z.land z 15 < 16)%Z.
Proof. change 15%Z with (Z.ones 4). rewrite Z.land_ones by lia. apply Z.mod_pos_bound. lia. Qed.

Lemma hex_go_id n z acc k : hex_id k acc → hex_id (n + k) (hex_go n z acc).
Proof.
  revert z acc k. induction n as [|n IH]; intros z acc k [Hl Hf]; [done|]. cbn [hex_go].
  replace (S n + k) with (n + S k) by lia. apply IH. split; [cbn; lia|].
  constructor; [apply hex_digit_lower, land15_range | done].
Qed.
Lemma hex16_id z : hex_id 16 (hex16 z).
Proof. apply (hex_go_id 16 z [] 0). by split. Qed.

Lemma hex_go_num n z acc c :
  foldl (λ acc c, acc * 16 + hex_val c)%Z c (hex_go n z acc)
  = foldl (λ acc c, acc * 16 + hex_val c)%Z (c * 16 ^ Z.of_nat n + z mod 16 ^ Z.of_nat n)%Z acc.
Proof.
  revert z acc c. induction n as [|n IH]; intros z acc c; cbn [hex_go].
  { f_equal. change (16 ^ Z.of_nat 0)%Z with 1%Z. rewrite Z.mod_1_r. lia. }
  rewrite IH. cbn [foldl]. f_equal. rewrite hex_digit_val by apply land15_range.
  rewrite Nat2Z.inj_succ, Z.pow_succ_r by lia.
  rewrite Z.rem_mul_r by lia. change 15%Z with (Z.ones 4).
  rewrite Z.land_ones, Z.shiftr_div_pow2 by lia. change (2 ^ 4)%Z with 16%Z. lia.
Qed.
Lemma hex16_num z : (0 ≤ z ≤ U64_MAX)%Z → hex_num (hex16 z) = z.
Proof.
  intros Hz. unfold hex_num, hex16. rewrite hex_go_num. cbn [foldl].
  rewrite Z.mod_small by (change (16 ^ Z.of_nat 16)%Z with (U64_MAX + 1)%Z; lia). lia.
Qed.

Lemma fnv_step_range state byte : (0 ≤ fnv_step state byte ≤ U64_MAX)%Z.
Proof.
  unfold fnv_step. pose proof (Z.mod_pos_bound (Z.lxor state byte * FNV_PRIME) (U64_MAX + 1)
    ltac:(done)). lia.
Qed.
Lemma fnv_fold_range data state :
  (0 ≤ state ≤ U64_MAX)%Z → (0 ≤ foldl fnv_step state data ≤ U64_MAX)%Z.
Proof.
  revert state. induction data as [|b data IH]; intros state Hs; [done|]. cbn [foldl].
  apply IH, fnv_step_range.
Qed.

Lemma lower_of_hex c : is_ascii_hexdigit c = true → lower_hex (to_ascii_lowercase_char c) = true.
Proof.
  unfold is_ascii_hexdigit, lower_hex, to_ascii_lowercase_char, is_ascii_uppercase, is_ascii_digit.
  case_if; lia.
Qed.

(** C40: every id the journal stamps has the form its readers require: a trace
    id is 32 lowercase hexadecimal digits, a span id is 16 and denotes a
    nonzero number, and two records of a run with different positive sequence
    numbers have different span ids. *)
Theorem trace_ids_wellformed (run_id scope : str) (seq seq' : Z) :
  (0 ≤ seq ≤ U64_MAX)%Z → (0 < seq' ≤ U64_MAX)%Z → seq ≠ seq' →
  hex_id 32 (trace_id_for_run run_id) ∧
  hex_id 16 (span_id_for_seq seq) ∧ hex_num (span_id_for_seq seq) ≠ 0%Z ∧
  hex_id 16 (span_id_for_scope run_id scope) ∧ hex_num (span_id_for_scope run_id scope) ≠ 0%Z ∧
  ((0 < seq)%Z → span_id_for_seq seq ≠ span_id_for_seq seq').
Proof.
  intros Hs Hs' Hne. split_and!.
  - unfold trace_id_for_run. cbn zeta. destruct (_ && _) eqn:E.
    + apply andb_true_iff in E as [E _]. apply Nat.eqb_eq in E. split; [done|].
      apply Forall_forall. intros c (d & -> & Hd)%list_elem_of_fmap.
      apply list_elem_of_In, filter_In in Hd as [_ Hd]. by apply lower_of_hex.
    + destruct (fnv_pair _ _ _ _) as [a b].
      destruct (hex16_id a) as [La Fa], (hex16_id b) as [Lb Fb].
      split; [rewrite length_app; lia | by apply Forall_app].
  - apply hex16_id.
  - unfold span_id_for_seq. rewrite hex16_num by lia. lia.
  - apply hex16_id.
  - unfold span_id_for_scope. cbn zeta.
    set (state := foldl _ _ _). assert (0 ≤ state ≤ U64_MAX)%Z by (by apply fnv_fold_range).
    case_if; rewrite hex16_num by lia; lia.
  - intros Hp Heq. apply Hne. unfold span_id_for_seq in Heq.
    apply (f_equal hex_num) in Heq. rewrite !hex16_num in Heq by lia. lia.
Qed.
