(* ===== verification/BMap.v ===== *)
(** * Ordered maps

    [std::collections::BTreeMap<String, V>] (and [serde_json::Map], which is
    one): an association list kept in strictly increasing key order, because
    the sources observe the iteration order ([first_key_value], [iter().find],
    [keys], [values]).  The lookup laws hold for every association list; only
    extensionality and minimality need the order. *)

From S2P Require Import Prelude Str.
From Stdlib Require Import Sorted.

Abbreviation bmap V := (list (str * V)) (only parsing).

Section bmap.
Context {V : Type}.
Implicit Types (m : bmap V) (k : str) (v : V).

Fixpoint bm_get k m : option V :=
  match m with
  | [] => None
  | (k', v) :: m => if k =s k' then Some v else bm_get k m
  end.

Fixpoint bm_insert k v m : bmap V :=
  match m with
  | [] => [(k, v)]
  | (k', v') :: m' =>
      match str_cmp k k' with
      | Lt => (k, v) :: m
      | Eq => (k, v) :: m'
      | Gt => (k', v') :: bm_insert k v m'
      end
  end.

Fixpoint bm_remove k m : bmap V :=
  match m with
  | [] => []
  | (k', v') :: m' =>
      if k =s k' then bm_remove k m' else (k', v') :: bm_remove k m'
  end.

Definition bm_contains k m : bool :=
  match bm_get k m with Some _ => true | None => false end.
Definition bm_keys m : list str := map fst m.
Definition bm_values m : list V := map snd m.
(** [retain] with a test on key and value. *)
Definition bm_retain (f : str → V → bool) m : bmap V :=
  List.filter (λ '(k, v), f k v) m.
(** [extend] with the entries of another map, later entries win. *)
Definition bm_extend (m m' : bmap V) : bmap V :=
  foldl (λ acc '(k, v), bm_insert k v acc) m m'.
(** [iter().find(...)]: the first entry in key order. *)
Definition bm_find (f : str → V → bool) m : option (str * V) :=
  List.find (λ '(k, v), f k v) m.
Definition bm_of_list (l : list (str * V)) : bmap V := bm_extend [] l.

Definition bm_sorted (m : bmap V) : Prop :=
  StronglySorted str_lt (bm_keys m).
End bmap.

Section bmap_lemmas.
Context {V : Type}.
Implicit Types (m : bmap V) (k : str) (v : V).

Lemma bm_get_insert k k' v m :
  bm_get k' (bm_insert k v m) = if k' =s k then Some v else bm_get k' m.
Proof.
  induction m as [|[k1 v1] m IH]; cbn; [done|].
  destruct (str_cmp k k1) eqn:E; cbn.
  - apply str_cmp_eq in E as ->. destruct (str_eqb_spec k' k1); done.
  - done.
  - rewrite IH. destruct (str_eqb_spec k' k1) as [->|]; [|done].
    destruct (str_eqb_spec k1 k) as [->|]; [|done].
    by rewrite str_cmp_refl in E.
Qed.
Lemma bm_get_insert_eq k v m : bm_get k (bm_insert k v m) = Some v.
Proof. by rewrite bm_get_insert, str_eqb_refl. Qed.
Lemma bm_get_insert_ne k k' v m :
  k' ≠ k → bm_get k' (bm_insert k v m) = bm_get k' m.
Proof. rewrite bm_get_insert. by intros ->%str_eqb_neq. Qed.

Lemma bm_get_remove k k' m :
  bm_get k' (bm_remove k m) = if k' =s k then None else bm_get k' m.
Proof.
  induction m as [|[k1 v1] m IH]; cbn; [by case_match|].
  destruct (str_eqb_spec k k1) as [->|Hne]; cbn.
  - rewrite IH. by destruct (k' =s k1).
  - rewrite IH. destruct (str_eqb_spec k' k1) as [->|]; [|done].
    destruct (str_eqb_spec k1 k); congruence.
Qed.
Lemma bm_get_remove_eq k m : bm_get k (bm_remove k m) = None.
Proof. by rewrite bm_get_remove, str_eqb_refl. Qed.
Lemma bm_get_remove_ne k k' m :
  k' ≠ k → bm_get k' (bm_remove k m) = bm_get k' m.
Proof. rewrite bm_get_remove. by intros ->%str_eqb_neq. Qed.

Lemma bm_get_elem k v m : bm_get k m = Some v → (k, v) ∈ m.
Proof.
  induction m as [|[k' v'] m IH]; cbn; [done|].
  destruct (str_eqb_spec k k') as [->|]; [intros [= ->]; by left|].
  intros. right. by apply IH.
Qed.
Lemma bm_get_is_Some k m : is_Some (bm_get k m) ↔ k ∈ bm_keys m.
Proof.
  unfold bm_keys. induction m as [|[k' v'] m IH]; cbn.
  { split; [by intros [??] | by intros ?%not_elem_of_nil]. }
  rewrite elem_of_cons, <-IH. destruct (str_eqb_spec k k') as [->|]; naive_solver.
Qed.
Lemma bm_get_None k m : bm_get k m = None ↔ k ∉ bm_keys m.
Proof. rewrite <-bm_get_is_Some. destruct (bm_get k m); naive_solver. Qed.

(** The order invariant. *)
Lemma bm_keys_insert k v m x :
  x ∈ bm_keys (bm_insert k v m) ↔ x = k ∨ x ∈ bm_keys m.
Proof.
  rewrite <-!bm_get_is_Some, bm_get_insert.
  destruct (str_eqb_spec x k) as [->|]; naive_solver.
Qed.
Lemma bm_keys_remove k m x :
  x ∈ bm_keys (bm_remove k m) ↔ x ≠ k ∧ x ∈ bm_keys m.
Proof.
  rewrite <-!bm_get_is_Some, bm_get_remove.
  destruct (str_eqb_spec x k) as [->|]; [|naive_solver].
  split; [by intros [??] | naive_solver].
Qed.
Lemma bm_sorted_nil : bm_sorted (V:=V) [].
Proof. constructor. Qed.
Lemma bm_sorted_cons k v m :
  bm_sorted ((k, v) :: m) ↔ (∀ x, x ∈ bm_keys m → str_lt k x) ∧ bm_sorted m.
Proof.
  unfold bm_sorted; cbn. split.
  - inversion 1 as [|?? Hs Hf]; subst. rewrite Forall_forall in Hf. done.
  - intros [Hf Hs]. constructor; [done|]. by apply Forall_forall.
Qed.
Lemma bm_sorted_insert k v m : bm_sorted m → bm_sorted (bm_insert k v m).
Proof.
  induction m as [|[k1 v1] m IH]; cbn; intros Hs.
  { apply bm_sorted_cons. split; [by intros ??%not_elem_of_nil | constructor]. }
  destruct (proj1 (bm_sorted_cons _ _ _) Hs) as [Hlt Hm].
  destruct (str_cmp k k1) eqn:E.
  - apply str_cmp_eq in E as ->. by apply bm_sorted_cons.
  - apply bm_sorted_cons. split; [|done]. intros x [->|Hx]%elem_of_cons; [done|].
    etrans; [exact E | by apply Hlt].
  - apply bm_sorted_cons. split; [|by apply IH].
    intros x [->|Hx]%bm_keys_insert; [by apply str_cmp_Gt_Lt | by apply Hlt].
Qed.
Lemma bm_sorted_remove k m : bm_sorted m → bm_sorted (bm_remove k m).
Proof.
  induction m as [|[k1 v1] m IH]; cbn; [done|].
  intros [Hlt Hm]%bm_sorted_cons. case_match; [by apply IH|].
  apply bm_sorted_cons. split; [|by apply IH].
  intros x [_ Hx]%bm_keys_remove. by apply Hlt.
Qed.
Lemma bm_sorted_retain f m : bm_sorted m → bm_sorted (bm_retain f m).
Proof.
  unfold bm_retain. induction m as [|[k1 v1] m IH]; cbn; [done|].
  intros [Hlt Hm]%bm_sorted_cons. case_match; [|by apply IH].
  apply bm_sorted_cons. split; [|by apply IH].
  intros x Hx. apply Hlt. unfold bm_keys in *.
  rewrite list_elem_of_In, in_map_iff in Hx. destruct Hx as ([y vy] & <- & Hy).
  apply list_elem_of_In, in_map. apply List.filter_In in Hy as [??]. done.
Qed.
Lemma bm_sorted_extend m m' : bm_sorted m → bm_sorted (bm_extend m m').
Proof.
  unfold bm_extend. revert m; induction m' as [|[k v] m' IH]; cbn; [done|].
  intros m Hm. apply IH. by apply bm_sorted_insert.
Qed.

Lemma bm_get_retain f k m :
  bm_sorted m →
  bm_get k (bm_retain f m) =
    match bm_get k m with
    | Some v => if f k v then Some v else None
    | None => None
    end.
Proof.
  unfold bm_retain. induction m as [|[k1 v1] m IH]; cbn; [done|].
  intros [Hlt Hm]%bm_sorted_cons. specialize (IH Hm).
  destruct (f k1 v1) eqn:Ef; cbn; destruct (str_eqb_spec k k1) as [->|].
  - by rewrite Ef.
  - apply IH.
  - rewrite Ef. rewrite IH. destruct (bm_get k1 m) eqn:Eg; [|done].
    exfalso. assert (k1 ∈ bm_keys m) as Hin by (apply bm_get_is_Some; eauto).
    apply Hlt in Hin. by apply (irreflexivity str_lt) in Hin.
  - apply IH.
Qed.

Lemma bm_get_extend k m m' :
  bm_sorted m' →
  bm_get k (bm_extend m m') =
    match bm_get k m' with Some v => Some v | None => bm_get k m end.
Proof.
  unfold bm_extend. revert m; induction m' as [|[k1 v1] m' IH]; cbn; [done|].
  intros m [Hlt Hm]%bm_sorted_cons. rewrite (IH _ Hm), bm_get_insert.
  destruct (str_eqb_spec k k1) as [->|]; [|done].
  destruct (bm_get k1 m') eqn:Eg; [|done].
  exfalso. assert (k1 ∈ bm_keys m') as Hin by (apply bm_get_is_Some; eauto).
  apply Hlt in Hin. by apply (irreflexivity str_lt) in Hin.
Qed.

(** Membership is lookup for an ordered map. *)
Lemma bm_elem_get k v m : bm_sorted m → (k, v) ∈ m ↔ bm_get k m = Some v.
Proof.
  intros Hs. split; [|apply bm_get_elem].
  induction m as [|[k1 v1] m IH]; cbn; [by intros ?%not_elem_of_nil|].
  apply bm_sorted_cons in Hs as [Hlt Hm].
  intros [[= -> ->]|Hin]%elem_of_cons; [by rewrite str_eqb_refl|].
  destruct (str_eqb_spec k k1) as [->|]; [|by apply IH].
  exfalso. assert (k1 ∈ bm_keys m) as Hk.
  { apply list_elem_of_In, in_map_iff. exists (k1, v). split; [done|].
    by apply list_elem_of_In. }
  apply Hlt in Hk. by apply (irreflexivity str_lt) in Hk.
Qed.

(** [first_key_value] is the least key. *)
Lemma bm_head_least k v m x :
  bm_sorted ((k, v) :: m) → x ∈ bm_keys ((k, v) :: m) → x = k ∨ str_lt k x.
Proof.
  intros [Hlt _]%bm_sorted_cons. cbn. rewrite elem_of_cons.
  intros [->|Hx]; [by left | right; by apply Hlt].
Qed.
End bmap_lemmas.

#[export] Hint Resolve bm_sorted_nil bm_sorted_insert bm_sorted_remove
  bm_sorted_retain bm_sorted_extend : qcg.
#[export] Hint Rewrite @bm_get_insert_eq @bm_get_remove_eq : qcg.
