(* ===== verification/Json.v ===== *)
(** * Doubles and JSON values *)

From S2P Require Import Prelude Str BMap.
From Stdlib Require Import SpecFloat.

(** ** IEEE 754 binary64

    Rust's [f64] as the Standard Library's executable specification
    [spec_float] at precision 53 and maximal exponent 1024, with the
    operations the sources use: conversion from integers, arithmetic, [%],
    comparison, [max]/[min], [fract], integer conversion and decimal
    parsing. *)

Definition prec : Z := 53.
Definition emax : Z := 1024.
Abbreviation f64 := spec_float (only parsing).

#[global] Instance f64_eq_dec : EqDecision spec_float.
Proof. solve_decision. Defined.

Definition f64_of_Z (z : Z) : f64 := binary_normalize prec emax z 0 false.
Definition f64_zero : f64 := S754_zero false.
Definition f64_one : f64 := f64_of_Z 1.
Definition f64_add : f64 → f64 → f64 := SFadd prec emax.
Definition f64_sub : f64 → f64 → f64 := SFsub prec emax.
Definition f64_mul : f64 → f64 → f64 := SFmul prec emax.
Definition f64_div : f64 → f64 → f64 := SFdiv prec emax.
Definition f64_neg : f64 → f64 := SFopp.
Definition f64_cmp : f64 → f64 → option comparison := SFcompare.
Definition f64_eqb : f64 → f64 → bool := SFeqb.
Definition f64_ltb : f64 → f64 → bool := SFltb.
Definition f64_leb : f64 → f64 → bool := SFleb.

Definition f64_is_nan (x : f64) : bool :=
  match x with S754_nan => true | _ => false end.
Definition f64_is_finite (x : f64) : bool :=
  match x with S754_zero _ | S754_finite _ _ _ => true | _ => false end.

(** [f64::max] and [f64::min]: a NaN operand is ignored. *)
Definition f64_max (x y : f64) : f64 :=
  if f64_is_nan x then y else if f64_is_nan y then x
  else if f64_ltb x y then y else x.
Definition f64_min (x y : f64) : f64 :=
  if f64_is_nan x then y else if f64_is_nan y then x
  else if f64_ltb y x then y else x.

(** [x % y]: the exact remainder of the truncated division, with the sign of
    the dividend. *)
Definition f64_rem (x y : f64) : f64 :=
  match x, y with
  | S754_nan, _ | _, S754_nan => S754_nan
  | S754_infinity _, _ => S754_nan
  | _, S754_zero _ => S754_nan
  | S754_zero _, _ => x
  | S754_finite _ _ _, S754_infinity _ => x
  | S754_finite sx mx ex, S754_finite _ my ey =>
      let e := Z.min ex ey in
      let a := (Zpos mx * 2 ^ (ex - e))%Z in
      let b := (Zpos my * 2 ^ (ey - e))%Z in
      let r := (a mod b)%Z in
      binary_normalize prec emax (if sx then - r else r)%Z e sx
  end.

(** [x.fract() == 0.0] for a finite [x]. *)
Definition f64_integral (x : f64) : bool :=
  match x with
  | S754_zero _ => true
  | S754_finite _ m e =>
      if (0 <=? e)%Z then true else (Zpos m mod 2 ^ (- e) =? 0)%Z
  | _ => false
  end.
(** [x.trunc()] of a finite value, as an integer. *)
Definition f64_trunc (x : f64) : Z :=
  match x with
  | S754_finite sx m e =>
      let a := if (0 <=? e)%Z then (Zpos m * 2 ^ e)%Z else (Zpos m / 2 ^ (- e))%Z in
      if sx then (- a)%Z else a
  | _ => 0%Z
  end.

(** The double nearest to [m * 10^e], for [m >= 0] (correctly rounded). *)
Definition f64_of_decimal (m e : Z) : f64 :=
  match m with
  | Zpos p =>
      if (0 <=? e)%Z then binary_normalize prec emax (Zpos p * 10 ^ e) 0 false
      else let '(q, e', l) := SFdiv_core_binary prec emax (Zpos p) 0 (10 ^ (- e)) 0 in
           binary_round_aux prec emax false q e' l
  | _ => S754_zero false
  end.

(** [f64::from_str] on literals made of digits, [.], [e], [E], [+], [-]:
    [Digit* . Digit*] with at least one digit, then an optional exponent with
    at least one digit. *)
Fixpoint take_digits (x : str) : str * str :=
  match x with
  | c :: r => if is_ascii_digit c then let '(d, r') := take_digits r in (c :: d, r')
              else ([], x)
  | [] => ([], [])
  end.
Definition parse_exponent (x : str) : option Z :=
  match x with
  | [] => Some 0%Z
  | c :: r =>
      if (c =? 101)%Z || (c =? 69)%Z then
        match r with
        | c' :: r' =>
            if (c' =? 43)%Z then digits_val r'
            else if (c' =? 45)%Z then Z.opp <$> digits_val r'
            else digits_val r
        | [] => None
        end
      else None
  end.
Definition parse_f64 (x : str) : option f64 :=
  let '(int, r) := take_digits x in
  let '(frac, r) := match r with
                    | c :: r' => if (c =? 46)%Z then take_digits r' else ([], r)
                    | [] => ([], [])
                    end in
  match digits_val (int ++ frac), parse_exponent r with
  | Some m, Some e => Some (f64_of_decimal m (e - Z.of_nat (length frac)))
  | _, _ => None
  end.

(** ** JSON values

    [serde_json::Value] as the project builds it (no [preserve_order], no
    [arbitrary_precision]): numbers are unsigned integers, negative integers
    or finite doubles; objects are key-ordered maps. *)

Inductive number : Type :=
| PosInt (n : Z)
| NegInt (n : Z)
| Float (f : f64).

Inductive value : Type :=
| VNull
| VBool (b : bool)
| VNumber (n : number)
| VString (x : str)
| VArray (l : list value)
| VObject (m : list (str * value)).

#[global] Instance number_eq_dec : EqDecision number.
Proof. solve_decision. Defined.

(** Induction over values with the hypotheses for the nested containers. *)
Lemma value_ind' (P : value → Prop) :
  P VNull → (∀ b, P (VBool b)) → (∀ n, P (VNumber n)) → (∀ x, P (VString x)) →
  (∀ l, Forall P l → P (VArray l)) →
  (∀ m, Forall (λ '(_, v), P v) m → P (VObject m)) →
  ∀ v, P v.
Proof.
  intros Hn Hb Hnum Hs Ha Ho. fix IH 1. intros [ | b | n | x | l | m].
  - exact Hn.
  - apply Hb.
  - apply Hnum.
  - apply Hs.
  - apply Ha. induction l as [|v l IHl]; constructor; [apply IH | exact IHl].
  - apply Ho. induction m as [|[k v] m IHm]; constructor; [apply IH | exact IHm].
Qed.

(** ** Accessors *)

Definition as_str (v : value) : option str :=
  match v with VString x => Some x | _ => None end.
Definition as_bool (v : value) : option bool :=
  match v with VBool b => Some b | _ => None end.
Definition as_object (v : value) : option (bmap value) :=
  match v with VObject m => Some m | _ => None end.
Definition as_array (v : value) : option (list value) :=
  match v with VArray l => Some l | _ => None end.
Definition is_null (v : value) : bool := match v with VNull => true | _ => false end.
Definition is_string (v : value) : bool := match v with VString _ => true | _ => false end.
Definition is_object (v : value) : bool := match v with VObject _ => true | _ => false end.

Definition num_as_u64 (n : number) : option Z :=
  match n with PosInt n => Some n | _ => None end.
Definition num_as_i64 (n : number) : option Z :=
  match n with
  | PosInt n => if (n <=? I64_MAX)%Z then Some n else None
  | NegInt n => Some n
  | Float _ => None
  end.
Definition num_as_f64 (n : number) : f64 :=
  match n with PosInt n | NegInt n => f64_of_Z n | Float f => f end.
Definition num_is_u64 (n : number) : bool := match n with PosInt _ => true | _ => false end.
Definition num_is_i64 (n : number) : bool :=
  match num_as_i64 n with Some _ => true | None => false end.
Definition as_u64 (v : value) : option Z :=
  match v with VNumber n => num_as_u64 n | _ => None end.
Definition as_i64 (v : value) : option Z :=
  match v with VNumber n => num_as_i64 n | _ => None end.
Definition as_f64 (v : value) : option f64 :=
  match v with VNumber n => Some (num_as_f64 n) | _ => None end.

(** [Number::from_f64]: only finite values. *)
Definition num_from_f64 (f : f64) : option number :=
  if f64_is_finite f then Some (Float f) else None.
(** [Value::from(i64)]. *)
Definition num_from_int (n : Z) : number := if (0 <=? n)%Z then PosInt n else NegInt n.

(** [value.get(key)]: [None] unless the value is an object with the key. *)
Definition get (key : str) (v : value) : option value :=
  match v with VObject m => bm_get key m | _ => None end.
Definition get_str (key : str) (v : value) : option str := get key v ≫= as_str.
Definition get_u64 (key : str) (v : value) : option Z := get key v ≫= as_u64.
Definition get_bool (key : str) (v : value) : option bool := get key v ≫= as_bool.
Definition get_object (key : str) (v : value) : option (bmap value) :=
  get key v ≫= as_object.
(** [value[key]]: [Null] when absent. *)
Definition index (key : str) (v : value) : value := default VNull (get key v).

(** ** Well-formed values

    What [serde_json] can hold: the integers are in range, a double is finite
    and canonical, and object keys are in order. *)
Definition number_wf (n : number) : Prop :=
  match n with
  | PosInt n => (0 ≤ n ≤ U64_MAX)%Z
  | NegInt n => (I64_MIN ≤ n < 0)%Z
  | Float f => f64_is_finite f = true ∧ valid_binary prec emax f = true
  end.
Fixpoint value_wf (v : value) : Prop :=
  match v with
  | VNumber n => number_wf n
  | VArray l => fold_right (λ v P, value_wf v ∧ P) True l
  | VObject m =>
      bm_sorted m ∧ fold_right (λ kv P, value_wf (snd kv) ∧ P) True m
  | _ => True
  end.

Lemma value_wf_array l : value_wf (VArray l) ↔ Forall value_wf l.
Proof. cbn. induction l; cbn; [done|]. rewrite Forall_cons, IHl. done. Qed.
Lemma value_wf_object m :
  value_wf (VObject m) ↔ bm_sorted m ∧ Forall (λ kv, value_wf (snd kv)) m.
Proof.
  cbn. assert (fold_right (λ kv P, value_wf (snd kv) ∧ P) True m
               ↔ Forall (λ kv, value_wf (snd kv)) m) as ->; [|done].
  induction m; cbn; [done|]. rewrite Forall_cons, IHm. done.
Qed.
