(* ===== verification/ExprLexer.v ===== *)
(** * Expression language: errors, tokens, lexer

    [crates/contract/src/expr/error.rs] and [expr/lexer.rs].  An operator of
    the source is one of fourteen static strings; here it is an enumeration
    with [op_str] giving the string.  A syntax message is an enumeration of
    the places that build one, with the data the message shows. *)

From S2P Require Import Prelude Str Json.

Definition MAX_EXPRESSION_BYTES : Z := 64 * 1024.
Definition MAX_EXPRESSION_TOKENS : Z := 4096.
Definition MAX_EXPRESSION_DEPTH : Z := 128.
Definition MAX_EXPRESSION_NODES : Z := 2048.

Inductive operator : Type :=
| OpOr | OpAnd | OpEq | OpNe | OpGe | OpLe
| OpNot | OpGt | OpLt | OpPlus | OpMinus | OpMul | OpDiv | OpRem.

#[global] Instance operator_eq_dec : EqDecision operator.
Proof. solve_decision. Defined.

Definition op_str (o : operator) : str :=
  match o with
  | OpOr => s"||" | OpAnd => s"&&" | OpEq => s"==" | OpNe => s"!="
  | OpGe => s">=" | OpLe => s"<=" | OpNot => s"!" | OpGt => s">"
  | OpLt => s"<" | OpPlus => s"+" | OpMinus => s"-" | OpMul => s"*"
  | OpDiv => s"/" | OpRem => s"%"
  end.

Inductive Token : Type :=
| TIdentifier (x : str)
| TString (x : str)
| TNumber (n : number)
| TBool (b : bool)
| TNull
| TOperator (o : operator)
| TLeftParen
| TRightParen
| TLeftBracket
| TRightBracket
| TComma
| TEnd.

#[global] Instance Token_eq_dec : EqDecision Token.
Proof. solve_decision. Defined.

Inductive syntax_error : Type :=
| IntegerOutOfRange (literal : str)
| InvalidNumber (literal : str)
| NumberNotFinite
| UnterminatedEscape
| UnsupportedEscape (c : char)
| UnterminatedString
| UnexpectedCharacter (c : char) (position : Z)
| UnsupportedLiteral (identifier : str)
| ExpectedParen (t : Token)
| ExpectedCommaOrBracket (t : Token)
| ExpectedCommaOrParen (t : Token)
| ExpectedExpression (t : Token)
| TrailingToken (t : Token).

(** [Diverged] is not an error of the source: it is what the fuelled loops of
    this model return when the fuel runs out, and the theorems below exclude
    it for the fuel the entry points supply. *)
Inductive ExprError : Type :=
| InputTooLarge (bytes limit : Z)
| TooManyTokens (limit : Z)
| TooDeep (limit : Z)
| TooManyNodes (limit : Z)
| Syntax (m : syntax_error)
| Evaluation (m : str)
| Diverged.

Definition ensure_expression_bytes (source : str) : result ExprError unit :=
  if (MAX_EXPRESSION_BYTES <? str_len source)%Z then
    Err (InputTooLarge (str_len source) MAX_EXPRESSION_BYTES)
  else Ok ().

(** ** Number literals *)

(** [serde_json::from_str::<Number>] on a digit sequence: JSON forbids a
    leading zero; a value above [u64::MAX] becomes a double, and one whose
    double is infinite is an error. *)
Definition json_integer_literal (literal : str) : option (option Z) :=
  match literal with
  | 48%Z :: _ :: _ => None
  | _ =>
      match digits_val literal with
      | Some v =>
          if (v <=? U64_MAX)%Z then Some (Some v)
          else if f64_is_finite (f64_of_Z v) then Some None else None
      | None => None
      end
  end.

Definition parse_float_literal (literal : str) : result ExprError number :=
  match parse_f64 literal with
  | None => Err (Syntax (InvalidNumber literal))
  | Some value => ok_or (num_from_f64 value) (Syntax NumberNotFinite)
  end.

Definition parse_number_literal (literal : str) : result ExprError number :=
  if contains_char literal 46 || contains_char literal 101 || contains_char literal 69
  then parse_float_literal literal
  else
    match json_integer_literal literal with
    | Some (Some v) => Ok (PosInt v)
    | Some None => Err (Syntax (IntegerOutOfRange literal))
    | None => parse_float_literal literal
    end.

(** ** Scanners

    Each consumes a prefix of the remaining characters. *)

Definition unescape (c : char) : option char :=
  if (c =? 110)%Z then Some 10%Z
  else if (c =? 114)%Z then Some 13%Z
  else if (c =? 116)%Z then Some 9%Z
  else if (c =? 92)%Z then Some 92%Z
  else if (c =? 39)%Z then Some 39%Z
  else if (c =? 34)%Z then Some 34%Z
  else None.

(** After the opening quote; [acc] is the value so far, reversed. *)
Fixpoint scan_string (quote : char) (acc : str) (x : str) :
    result ExprError (str * str) :=
  match x with
  | [] => Err (Syntax UnterminatedString)
  | c :: r =>
      if (c =? quote)%Z then Ok (reverse acc, r)
      else if (c =? 92)%Z then
        match r with
        | [] => Err (Syntax UnterminatedEscape)
        | e :: r' =>
            match unescape e with
            | Some v => scan_string quote (v :: acc) r'
            | None => Err (Syntax (UnsupportedEscape e))
            end
        end
      else scan_string quote (c :: acc) r
  end.

Definition is_exponent_char (c : char) : bool := (c =? 101)%Z || (c =? 69)%Z.
Definition is_sign_char (c : char) : bool := (c =? 43)%Z || (c =? 45)%Z.

(** After the first character of a number; [prev] is the last one consumed. *)
Fixpoint scan_number (prev : char) (x : str) : str * str :=
  match x with
  | [] => ([], [])
  | c :: r =>
      if is_ascii_digit c || (c =? 46)%Z || is_exponent_char c || is_sign_char c then
        if is_sign_char c && negb (is_exponent_char prev) then ([], x)
        else let '(a, b) := scan_number c r in (c :: a, b)
      else ([], x)
  end.

Definition is_outcome_field (rest : str) : bool :=
  existsb
    (λ field,
      match strip_prefix field rest with
      | Some (next :: _) => negb (is_ascii_alphanumeric next) && negb (next =? 95)%Z
      | Some [] => true
      | None => false
      end)
    [s"output"; s"status"; s"reason"].

(** After the first character of an identifier; [acc] holds the consumed
    characters, reversed. *)
Fixpoint scan_identifier (acc : str) (step_path outcome_field : bool) (x : str) :
    str * str :=
  match x with
  | [] => (reverse acc, [])
  | current :: r =>
      if is_ascii_alphanumeric current || (current =? 95)%Z || (current =? 46)%Z
         || (current =? 45)%Z then
        if (current =? 46)%Z then
          if negb step_path && (reverse (current :: acc) =s s"steps.") then
            scan_identifier (current :: acc) true outcome_field r
          else if step_path && is_outcome_field r then
            scan_identifier (current :: acc) step_path true r
          else scan_identifier (current :: acc) step_path outcome_field r
        else scan_identifier (current :: acc) step_path outcome_field r
      else if step_path && ((current =? 64)%Z || (current =? 91)%Z || (current =? 93)%Z)
      then scan_identifier (current :: acc) step_path outcome_field r
      else if step_path && (current =? 47)%Z && negb outcome_field then
        scan_identifier (current :: acc) step_path outcome_field r
      else (reverse acc, x)
  end.

Definition identifier_token (identifier : str) : Token :=
  if identifier =s s"true" then TBool true
  else if identifier =s s"false" then TBool false
  else if identifier =s s"null" then TNull
  else TIdentifier identifier.

Definition pair_operator (a b : char) : option operator :=
  if [a; b] =s s"||" then Some OpOr
  else if [a; b] =s s"&&" then Some OpAnd
  else if [a; b] =s s"==" then Some OpEq
  else if [a; b] =s s"!=" then Some OpNe
  else if [a; b] =s s">=" then Some OpGe
  else if [a; b] =s s"<=" then Some OpLe
  else None.

Definition single_token (c : char) : option Token :=
  if (c =? 33)%Z then Some (TOperator OpNot)
  else if (c =? 62)%Z then Some (TOperator OpGt)
  else if (c =? 60)%Z then Some (TOperator OpLt)
  else if (c =? 43)%Z then Some (TOperator OpPlus)
  else if (c =? 45)%Z then Some (TOperator OpMinus)
  else if (c =? 42)%Z then Some (TOperator OpMul)
  else if (c =? 47)%Z then Some (TOperator OpDiv)
  else if (c =? 37)%Z then Some (TOperator OpRem)
  else if (c =? 40)%Z then Some TLeftParen
  else if (c =? 41)%Z then Some TRightParen
  else if (c =? 91)%Z then Some TLeftBracket
  else if (c =? 93)%Z then Some TRightBracket
  else if (c =? 44)%Z then Some TComma
  else None.

Definition push_token (tokens : list Token) (token : Token) :
    result ExprError (list Token) :=
  if (MAX_EXPRESSION_TOKENS <=? Z.of_nat (length tokens))%Z then
    Err (TooManyTokens MAX_EXPRESSION_TOKENS)
  else Ok (tokens ++ [token]).

(** One iteration of the loop of [tokenize] at a non-empty rest [ch :: r]:
    the token to push, if any, and the characters left. *)
Definition lex_one (position : Z) (ch : char) (r : str) :
    result ExprError (option Token * str) :=
  if is_whitespace ch then Ok (None, r)
  else if (ch =? 39)%Z || (ch =? 34)%Z then
    '(value, rest) ← scan_string ch [] r;
    Ok (Some (TString value), rest)
  else if is_ascii_digit ch
          || (ch =? 46)%Z && match r with next :: _ => is_ascii_digit next | [] => false end
  then
    let '(tail, rest) := scan_number ch r in
    number ← parse_number_literal (ch :: tail);
    Ok (Some (TNumber number), rest)
  else if is_ascii_alphabetic ch || (ch =? 95)%Z then
    let '(identifier, rest) := scan_identifier [ch] false false r in
    Ok (Some (identifier_token identifier), rest)
  else
    match match r with next :: r' => pair_operator ch next | [] => None end with
    | Some o => Ok (Some (TOperator o), tail r)
    | None =>
        match single_token ch with
        | Some token => Ok (Some token, r)
        | None => Err (Syntax (UnexpectedCharacter ch position))
        end
    end.

Fixpoint lex_loop (fuel : nat) (total : Z) (rest : str) (tokens : list Token) :
    result ExprError (list Token) :=
  match rest with
  | [] => push_token tokens TEnd
  | ch :: r =>
      match fuel with
      | 0 => Err Diverged
      | S fuel =>
          '(token, rest') ← lex_one (total - Z.of_nat (length rest)) ch r;
          tokens' ← match token with
                    | Some token => push_token tokens token
                    | None => Ok tokens
                    end;
          lex_loop fuel total rest' tokens'
      end
  end.

Definition tokenize (source : str) : result ExprError (list Token) :=
  _ ← ensure_expression_bytes source;
  lex_loop (length source) (Z.of_nat (length source)) source [].
