(* ===== verification/ExprEval.v ===== *)
(** * Expression language: operators and functions

    [crates/contract/src/expr/eval.rs].  Evaluation errors are the message
    strings of the source.  [String::to_uppercase] and [to_lowercase] are the
    Unicode tables of the standard library; they enter through the class
    [CaseMapping], whose law pins them on ASCII text. *)

From S2P Require Import Prelude Str BMap Json ExprLexer.

Class CaseMapping : Type := {
  to_uppercase : str → str;
  to_lowercase : str → str;
}.

Definition is_ascii_str (x : str) : Prop := Forall (λ c, 0 ≤ c < 128)%Z x.
Definition ascii_upper_char (c : char) : char :=
  if is_ascii_lowercase c then (c - 32)%Z else c.

Class CaseMappingLaws `{CaseMapping} : Prop := {
  to_uppercase_ascii x : is_ascii_str x → to_uppercase x = map ascii_upper_char x;
  to_lowercase_ascii x : is_ascii_str x → to_lowercase x = to_ascii_lowercase x;
}.

(** ** Numbers *)

Definition I128_LIMIT : f64 := f64_of_Z (2 ^ 127).

Definition exact_integer (n : number) : option Z :=
  match n with
  | PosInt v | NegInt v => Some v
  | Float value =>
      if negb (f64_is_finite value) || negb (f64_integral value)
         || f64_ltb value (f64_neg I128_LIMIT) || f64_leb I128_LIMIT value
      then None
      else Some (f64_trunc value)
  end.

Definition compare_numbers (lhs rhs : number) : option comparison :=
  match exact_integer lhs, exact_integer rhs with
  | Some lhs, Some rhs => Some (lhs ?= rhs)%Z
  | _, _ => f64_cmp (num_as_f64 lhs) (num_as_f64 rhs)
  end.

Definition is_Eq (c : option comparison) : bool :=
  match c with Some Eq => true | _ => false end.

(** ** Equality and order of values *)

Fixpoint values_equal (lhs rhs : value) {struct lhs} : bool :=
  match lhs, rhs with
  | VNumber lhs, VNumber rhs => is_Eq (compare_numbers lhs rhs)
  | VArray lhs, VArray rhs =>
      Nat.eqb (length lhs) (length rhs) &&
      (fix all (lhs rhs : list value) : bool :=
         match lhs, rhs with
         | x :: lhs, y :: rhs => values_equal x y && all lhs rhs
         | _, _ => true
         end) lhs rhs
  | VObject lhs, VObject rhs =>
      Nat.eqb (length lhs) (length rhs) &&
      forallb
        (λ '(key, v),
          match bm_get key rhs with
          | Some other => values_equal v other
          | None => false
          end) lhs
  | VNull, VNull => true
  | VBool lhs, VBool rhs => Bool.eqb lhs rhs
  | VString lhs, VString rhs => lhs =s rhs
  | _, _ => false
  end.

Definition unknown_ordering (operator : operator) : str :=
  s"unknown ordering operator `" ++ op_str operator ++ s"`".

Definition compare_ordered_by (ordering : comparison) (operator : operator) :
    result str bool :=
  match operator with
  | OpGt => Ok (match ordering with Gt => true | _ => false end)
  | OpLt => Ok (match ordering with Lt => true | _ => false end)
  | OpGe => Ok (match ordering with Lt => false | _ => true end)
  | OpLe => Ok (match ordering with Gt => false | _ => true end)
  | _ => Err (unknown_ordering operator)
  end.

(** [compare_ordered] at [T = &String]. *)
Definition compare_ordered (lhs : str) (operator : operator) (rhs : str) :
    result str bool :=
  compare_ordered_by (str_cmp lhs rhs) operator.

Definition compare_order (lhs : value) (operator : operator) (rhs : value) :
    result str bool :=
  match lhs, rhs with
  | VString lhs, VString rhs => compare_ordered lhs operator rhs
  | VNumber lhs, VNumber rhs =>
      ordering ← ok_or (compare_numbers lhs rhs) (s"invalid right number");
      compare_ordered_by ordering operator
  | VBool _, VBool _ =>
      Err (s"operator `" ++ op_str operator ++ s"` is not valid for booleans")
  | VNull, VNull =>
      Err (s"operator `" ++ op_str operator ++ s"` is not valid for null")
  | _, _ =>
      Err (s"type mismatch in expression with operator `" ++ op_str operator ++ s"`")
  end.

Definition truthy (v : value) : bool :=
  match v with
  | VNull => false
  | VBool b => b
  | VNumber n => negb (f64_eqb (num_as_f64 n) f64_zero)
  | VString x => negb (match x with [] => true | _ => false end)
  | VArray x => negb (match x with [] => true | _ => false end)
  | VObject x => negb (match x with [] => true | _ => false end)
  end.

Definition as_number (v : value) (operator : str) : result str f64 :=
  ok_or (as_f64 v) (s"operator `" ++ operator ++ s"` requires numbers").

Definition number_value (x : f64) : result str value :=
  match num_from_f64 x with
  | Some n => Ok (VNumber n)
  | None => Err (s"numeric expression result is not finite")
  end.

Definition evaluate_arith (operator : operator) (lhs rhs : value) :
    result str value :=
  lhs ← as_number lhs (op_str operator);
  rhs ← as_number rhs (op_str operator);
  value ← match operator with
          | OpPlus => Ok (f64_add lhs rhs)
          | OpMinus => Ok (f64_sub lhs rhs)
          | OpMul => Ok (f64_mul lhs rhs)
          | OpDiv => if f64_eqb rhs f64_zero then Err (s"division by zero")
                     else Ok (f64_div lhs rhs)
          | OpRem => if f64_eqb rhs f64_zero then Err (s"remainder by zero")
                     else Ok (f64_rem lhs rhs)
          | _ => Err (s"unknown arithmetic operator `" ++ op_str operator ++ s"`")
          end;
  number_value value.

Definition evaluate_binary (operator : operator) (lhs rhs : value) :
    result str value :=
  match operator with
  | OpOr => Ok (VBool (truthy lhs || truthy rhs))
  | OpAnd => Ok (VBool (truthy lhs && truthy rhs))
  | OpEq => Ok (VBool (values_equal lhs rhs))
  | OpNe => Ok (VBool (negb (values_equal lhs rhs)))
  | OpGt | OpLt | OpGe | OpLe =>
      b ← compare_order lhs operator rhs; Ok (VBool b)
  | OpPlus | OpMinus | OpMul | OpDiv | OpRem => evaluate_arith operator lhs rhs
  | OpNot => Err (s"unknown operator `" ++ op_str operator ++ s"`")
  end.

(** ** Functions on arrays *)

Definition compare_json_scalar (lhs rhs : value) : option comparison :=
  match lhs, rhs with
  | VNumber lhs, VNumber rhs => compare_numbers lhs rhs
  | VString lhs, VString rhs => Some (str_cmp lhs rhs)
  | VBool lhs, VBool rhs =>
      Some (match lhs, rhs with
            | false, true => Lt | true, false => Gt | _, _ => Eq end)
  | _, _ => None
  end.

Definition is_orderable_scalar (v : value) : bool :=
  match compare_json_scalar v v with Some _ => true | None => false end.

Definition unordered_array_error (name : str) : str :=
  name ++ s"() requires an array of numbers, strings, or booleans".

Fixpoint extreme_loop (name : str) (wanted : comparison) (selected : option value)
    (items : list value) : result str (option value) :=
  match items with
  | [] => Ok selected
  | item :: items =>
      if is_orderable_scalar item then
        match selected with
        | None => extreme_loop name wanted (Some item) items
        | Some current =>
            match compare_json_scalar item current with
            | None => Err (unordered_array_error name)
            | Some ordering =>
                extreme_loop name wanted
                  (Some (if bool_decide (ordering = wanted) then item else current))
                  items
            end
        end
      else Err (unordered_array_error name)
  end.
Definition extreme (items : list value) (name : str) (wanted : comparison) :
    result str value :=
  selected ← extreme_loop name wanted None items;
  Ok (default VNull selected).

Definition join_values (v : value) (separator : str) : result str value :=
  match v with
  | VArray items =>
      parts ← traverse (λ item,
                match item with
                | VString part => Ok part
                | _ => Err (s"join() requires an array of strings")
                end) items;
      Ok (VString (join separator parts))
  | _ => Err (s"join() requires an array")
  end.

Definition flatten_values (items : list value) : list value :=
  foldl (λ flat item,
    match item with
    | VArray nested => flat ++ nested
    | _ => flat ++ [item]
    end) [] items.

Definition unique_values (items : list value) : list value :=
  foldl (λ unique item,
    if existsb (λ seen, values_equal seen item) unique then unique
    else unique ++ [item]) [] items.

(** The validation pass of [sort]: every element is orderable on its own and
    comparable with its predecessor. *)
Fixpoint sort_check (previous : option value) (items : list value) : bool :=
  match items with
  | [] => true
  | item :: items =>
      is_orderable_scalar item &&
      match previous with
      | Some p => match compare_json_scalar p item with Some _ => true | None => false end
      | None => true
      end && sort_check (Some item) items
  end.

(** [slice::sort_by] with [compare_json_scalar(..).unwrap_or(Equal)]: the
    stable sort, written as insertion after the elements not greater. *)
Definition scalar_cmp (lhs rhs : value) : comparison :=
  default Eq (compare_json_scalar lhs rhs).
Fixpoint insert_stable (x : value) (l : list value) : list value :=
  match l with
  | [] => [x]
  | y :: r => match scalar_cmp y x with
              | Gt => x :: l
              | _ => y :: insert_stable x r
              end
  end.
Definition sort_by_scalar (items : list value) : list value :=
  foldl (λ acc x, insert_stable x acc) [] items.

Definition sum_values (items : list value) : result str f64 :=
  foldM (λ total item, x ← as_number item (s"sum()"); Ok (f64_add total x))
    f64_zero items.

(** ** Function calls *)

(** The arity messages, [Err] for a known name with the wrong arguments. *)
Definition call_arity_error (name : str) : str :=
  if name =s s"len" then s"len() requires exactly one argument"
  else if name =s s"contains" then s"contains() requires exactly two arguments"
  else if name =s s"empty" then s"empty() requires exactly one argument"
  else if name =s s"default" then s"default() requires exactly two arguments"
  else if name =s s"upper" then s"upper() requires exactly one string"
  else if name =s s"lower" then s"lower() requires exactly one string"
  else if name =s s"trim" then s"trim() requires exactly one string"
  else if name =s s"starts_with" then s"starts_with() requires exactly two strings"
  else if name =s s"ends_with" then s"ends_with() requires exactly two strings"
  else if name =s s"replace" then s"replace() requires exactly three strings"
  else if name =s s"split" then s"split() requires exactly two strings"
  else if name =s s"join" then s"join() requires an array and an optional separator"
  else if name =s s"first" then s"first() requires exactly one array"
  else if name =s s"last" then s"last() requires exactly one array"
  else if name =s s"keys" then s"keys() requires exactly one object"
  else if name =s s"values" then s"values() requires exactly one object"
  else if name =s s"reverse" then s"reverse() requires exactly one array"
  else if name =s s"flatten" then s"flatten() requires exactly one array"
  else if name =s s"unique" then s"unique() requires exactly one array"
  else if name =s s"sort" then s"sort() requires exactly one array"
  else if name =s s"sum" then s"sum() requires exactly one array"
  else if name =s s"min" then s"min() requires exactly one array"
  else if name =s s"max" then s"max() requires exactly one array"
  else s"unknown expression function `" ++ name ++ s"`".

Section calls.
Context `{CaseMapping}.

(** [len], [contains], [empty], [default] and the string functions. *)
Definition call_text (name : str) (arguments : list value) :
    option (result str value) :=
  match arguments with
  | [v] =>
      if name =s s"len" then Some
        match v with
        | VString x => Ok (VNumber (PosInt (Z.of_nat (length x))))
        | VArray x => Ok (VNumber (PosInt (Z.of_nat (length x))))
        | VObject x => Ok (VNumber (PosInt (Z.of_nat (length x))))
        | _ => Err (s"len() requires a string, array, or object")
        end
      else if name =s s"empty" then Some (Ok (VBool (negb (truthy v))))
      else if name =s s"upper" then Some
        match v with
        | VString x => Ok (VString (to_uppercase x))
        | _ => Err (s"upper() requires a string")
        end
      else if name =s s"lower" then Some
        match v with
        | VString x => Ok (VString (to_lowercase x))
        | _ => Err (s"lower() requires a string")
        end
      else if name =s s"trim" then Some
        match v with
        | VString x => Ok (VString (trim x))
        | _ => Err (s"trim() requires a string")
        end
      else None
  | [v; w] =>
      if name =s s"contains" then Some
        match v, w with
        | VString container, VString needle =>
            Ok (VBool (contains_str container needle))
        | VArray container, needle =>
            Ok (VBool (existsb (λ item, values_equal item needle) container))
        | VObject container, VString needle =>
            Ok (VBool (bm_contains needle container))
        | _, _ => Err (s"contains() received incompatible arguments")
        end
      else if name =s s"default" then Some (Ok (if is_null v then w else v))
      else if name =s s"starts_with" then Some
        match v, w with
        | VString x, VString prefix => Ok (VBool (starts_with x prefix))
        | _, _ => Err (s"starts_with() requires two strings")
        end
      else if name =s s"ends_with" then Some
        match v, w with
        | VString x, VString suffix => Ok (VBool (ends_with x suffix))
        | _, _ => Err (s"ends_with() requires two strings")
        end
      else if name =s s"split" then Some
        match v, w with
        | VString x, VString separator =>
            Ok (VArray (map VString (split_str separator x)))
        | _, _ => Err (s"split() requires two strings")
        end
      else None
  | [v; w; u] =>
      if name =s s"replace" then Some
        match v, w, u with
        | VString x, VString from, VString to => Ok (VString (replace from to x))
        | _, _, _ => Err (s"replace() requires three strings")
        end
      else None
  | _ => None
  end.

(** [join] and the functions on arrays and objects. *)
Definition call_collection (name : str) (arguments : list value) :
    option (result str value) :=
  match arguments with
  | [v] =>
      if name =s s"join" then Some (join_values v [])
      else if name =s s"first" then Some
        match v with
        | VArray items => Ok (default VNull (head items))
        | _ => Err (s"first() requires an array")
        end
      else if name =s s"last" then Some
        match v with
        | VArray items => Ok (default VNull (last items))
        | _ => Err (s"last() requires an array")
        end
      else if name =s s"keys" then Some
        match v with
        | VObject m => Ok (VArray (map VString (bm_keys m)))
        | _ => Err (s"keys() requires an object")
        end
      else if name =s s"values" then Some
        match v with
        | VObject m => Ok (VArray (bm_values m))
        | _ => Err (s"values() requires an object")
        end
      else if name =s s"reverse" then Some
        match v with
        | VArray items => Ok (VArray (reverse items))
        | _ => Err (s"reverse() requires an array")
        end
      else if name =s s"flatten" then Some
        match v with
        | VArray items => Ok (VArray (flatten_values items))
        | _ => Err (s"flatten() requires an array")
        end
      else if name =s s"unique" then Some
        match v with
        | VArray items => Ok (VArray (unique_values items))
        | _ => Err (s"unique() requires an array")
        end
      else if name =s s"sort" then Some
        match v with
        | VArray items =>
            if sort_check None items then Ok (VArray (sort_by_scalar items))
            else Err (unordered_array_error (s"sort"))
        | _ => Err (s"sort() requires an array")
        end
      else if name =s s"sum" then Some
        match v with
        | VArray items => total ← sum_values items; number_value total
        | _ => Err (s"sum() requires an array")
        end
      else if name =s s"min" then Some
        match v with
        | VArray items => extreme items (s"min") Lt
        | _ => Err (s"min() requires an array")
        end
      else if name =s s"max" then Some
        match v with
        | VArray items => extreme items (s"max") Gt
        | _ => Err (s"max() requires an array")
        end
      else None
  | [v; separator] =>
      if name =s s"join" then Some
        match separator with
        | VString separator => join_values v separator
        | _ => Err (s"join() separator must be a string")
        end
      else None
  | _ => None
  end.

Definition evaluate_call (name : str) (arguments : list value) : result str value :=
  match call_text name arguments with
  | Some r => r
  | None =>
      match call_collection name arguments with
      | Some r => r
      | None => Err (call_arity_error name)
      end
  end.
End calls.

(** A concrete instance: the tables restricted to ASCII. *)
Definition ascii_case_mapping : CaseMapping := {|
  to_uppercase := map ascii_upper_char;
  to_lowercase := to_ascii_lowercase;
|}.
