(* ===== verification/ValueBag.v ===== *)
(** * The value bag

    [crates/contract/src/expr/bag.rs]: the scope an expression is evaluated
    in.  Inputs, step outputs, step statuses and reasons are ordered maps;
    outcome metadata is keyed by canonical node path. *)

From S2P Require Import Prelude Str BMap Json.

Record ValueBag : Type := mkValueBag {
  vb_inputs : bmap value;
  vb_steps : bmap value;
  vb_statuses : bmap value;
  vb_reasons : bmap value;
  vb_item : option value;
}.

Definition bag_default : ValueBag := mkValueBag [] [] [] [] None.

Definition with_inputs (inputs : bmap value) : ValueBag :=
  mkValueBag inputs [] [] [] None.

Definition set_step_output (b : ValueBag) (id : str) (v : value) : ValueBag :=
  mkValueBag (vb_inputs b) (bm_insert id v (vb_steps b)) (vb_statuses b)
    (vb_reasons b) (vb_item b).

Definition publish_step_output (b : ValueBag) (node_id : str)
    (output_alias : option str) (output : option value)
    (extra_alias : option str) : ValueBag :=
  match output with
  | None => b
  | Some v =>
      let name := default node_id output_alias in
      let b := set_step_output b name v in
      match extra_alias with
      | Some extra => set_step_output b extra v
      | None => b
      end
  end.

Definition set_inputs (b : ValueBag) (inputs : bmap value) : ValueBag :=
  mkValueBag inputs (vb_steps b) (vb_statuses b) (vb_reasons b) (vb_item b).

Definition set_step_status (b : ValueBag) (id status : str) : ValueBag :=
  mkValueBag (vb_inputs b) (vb_steps b)
    (bm_insert id (VString status) (vb_statuses b))
    (bm_remove id (vb_reasons b)) (vb_item b).

Definition set_step_outcome (b : ValueBag) (id status : str)
    (reason : option value) : ValueBag :=
  mkValueBag (vb_inputs b) (vb_steps b)
    (bm_insert id (VString status) (vb_statuses b))
    (match reason with
     | Some reason => bm_insert id reason (vb_reasons b)
     | None => bm_remove id (vb_reasons b)
     end) (vb_item b).

Definition sync_outcome_metadata (b folded : ValueBag) : ValueBag :=
  mkValueBag (vb_inputs b) (vb_steps b) (vb_statuses folded) (vb_reasons folded)
    (vb_item b).

Definition path_is_within (path prefix : str) : bool :=
  (path =s prefix)
  || existsb (λ separator, starts_with path (prefix ++ separator))
       [s"/"; s"["; s"@repair."].

Definition clear_step_outcome_subtree (b : ValueBag) (prefix : str) : ValueBag :=
  mkValueBag (vb_inputs b) (vb_steps b)
    (bm_retain (λ path _, negb (path_is_within path prefix)) (vb_statuses b))
    (bm_retain (λ path _, negb (path_is_within path prefix)) (vb_reasons b))
    (vb_item b).

Definition sync_step_outcome_subtree (b folded : ValueBag) (prefix : str) : ValueBag :=
  let b := clear_step_outcome_subtree b prefix in
  mkValueBag (vb_inputs b) (vb_steps b)
    (bm_extend (vb_statuses b)
       (bm_retain (λ path _, path_is_within path prefix) (vb_statuses folded)))
    (bm_extend (vb_reasons b)
       (bm_retain (λ path _, path_is_within path prefix) (vb_reasons folded)))
    (vb_item b).

Definition set_item (b : ValueBag) (v : option value) : ValueBag :=
  mkValueBag (vb_inputs b) (vb_steps b) (vb_statuses b) (vb_reasons b) v.

Definition patch_inputs (b : ValueBag) (values : bmap value) : ValueBag :=
  mkValueBag (bm_extend (vb_inputs b) values) (vb_steps b) (vb_statuses b)
    (vb_reasons b) (vb_item b).

Definition patch_step_outputs (b : ValueBag) (values : bmap value) : ValueBag :=
  mkValueBag (vb_inputs b) (bm_extend (vb_steps b) values) (vb_statuses b)
    (vb_reasons b) (vb_item b).

Definition patch_step_statuses (b : ValueBag) (values : bmap str) : ValueBag :=
  foldl (λ b '(key, v), set_step_status b key v) b values.

Definition absorb (b other : ValueBag) : ValueBag :=
  mkValueBag (vb_inputs b) (bm_extend (vb_steps b) (vb_steps other))
    (bm_extend (vb_statuses b) (vb_statuses other))
    (bm_extend (vb_reasons b) (vb_reasons other)) (vb_item b).

Definition absorb_outputs (b other : ValueBag) : ValueBag :=
  mkValueBag (vb_inputs b) (bm_extend (vb_steps b) (vb_steps other))
    (vb_statuses b) (vb_reasons b) (vb_item b).

(** [ids.sort(); ids.dedup()]: the keys of the union, in order. *)
Definition step_ids (b : ValueBag) : list str :=
  bm_keys (bm_of_list (map (λ k, (k, ()))
    (bm_keys (vb_steps b) ++ bm_keys (vb_statuses b) ++ bm_keys (vb_reasons b)))).

Definition to_json (b : ValueBag) : value :=
  let entry key :=
    let m := match bm_get key (vb_steps b) with
             | Some output => bm_insert (s"output") output []
             | None => [] end in
    let m := match bm_get key (vb_statuses b) with
             | Some status => bm_insert (s"status") status m
             | None => m end in
    match bm_get key (vb_reasons b) with
    | Some reason => bm_insert (s"reason") reason m
    | None => m end in
  let steps := bm_of_list (map (λ key, (key, VObject (entry key))) (step_ids b)) in
  VObject (bm_of_list [ (s"inputs", VObject (vb_inputs b));
                        (s"steps", VObject steps);
                        (s"item", default VNull (vb_item b)) ]).

(** ** Path lookup *)

Fixpoint descend (v : value) (parts : list str) : option value :=
  match parts with
  | [] => Some v
  | part :: parts =>
      match v with
      | VArray items =>
          idx ← parse_usize part;
          if (idx <? Z.of_nat (length items))%Z
          then v ← items !! Z.to_nat idx; descend v parts
          else None
      | _ => v ← get part v; descend v parts
      end
  end.

(** [iter().max_by_key(key)]: the last of the maximal elements. *)
Definition max_by_key {A} (key : A → Z) (l : list A) : option A :=
  foldl (λ best x,
    match best with
    | None => Some x
    | Some b => if (key b <=? key x)%Z then Some x else best
    end) None l.

Definition get_step_path (b : ValueBag) (path : str) : option value :=
  id ← max_by_key str_len
         (List.filter
            (λ id, match strip_prefix id path with
                   | Some suffix => starts_with suffix (s".")
                   | None => false
                   end)
            (bm_keys (vb_steps b) ++ bm_keys (vb_statuses b) ++ bm_keys (vb_reasons b)));
  suffix ← strip_prefix id path;
  fields ← strip_prefix (s".") suffix;
  match split_char 46 fields with
  | [] => None
  | field :: parts =>
      v ← (if field =s s"output" then bm_get id (vb_steps b)
           else if field =s s"status" then bm_get id (vb_statuses b)
           else if field =s s"reason" then bm_get id (vb_reasons b)
           else None);
      descend v parts
  end.

Definition get_path (b : ValueBag) (path : str) : option value :=
  match split_char 46 path with
  | [] => None
  | first :: parts =>
      if first =s s"inputs" then
        match parts with
        | [] => None
        | name :: parts => v ← bm_get name (vb_inputs b); descend v parts
        end
      else if first =s s"steps" then
        path ← strip_prefix (s"steps.") path; get_step_path b path
      else if first =s s"item" then
        item ← vb_item b; descend item parts
      else None
  end.
