(* ===== verification/ExprParser.v ===== *)
(** * Expression language: syntax tree, parser, evaluation

    [crates/contract/src/expr/parser.rs], the entry point [eval_expression] of
    [expr/lexer.rs] and the evaluation methods of [expr/bag.rs].  The parser's
    cursor is the suffix of tokens not yet consumed; reading past the end
    yields [End], as in the source. *)

From S2P Require Import Prelude Str BMap Json ExprLexer ExprEval ValueBag.

Inductive ExpressionNode : Type :=
| Literal (v : value)
| Path (path : str)
| Array (items : list ExpressionNode)
| Unary (operator : operator) (operand : ExpressionNode)
| Binary (operator : operator) (lhs rhs : ExpressionNode)
| Call (name : str) (arguments : list ExpressionNode).

Lemma ExpressionNode_ind' (P : ExpressionNode → Prop) :
  (∀ v, P (Literal v)) → (∀ p, P (Path p)) →
  (∀ items, Forall P items → P (Array items)) →
  (∀ o e, P e → P (Unary o e)) →
  (∀ o l r, P l → P r → P (Binary o l r)) →
  (∀ name args, Forall P args → P (Call name args)) →
  ∀ e, P e.
Proof.
  intros Hl Hp Ha Hu Hb Hc. fix IH 1. intros [v|p|items|o e|o l r|name args].
  - apply Hl.
  - apply Hp.
  - apply Ha. induction items; constructor; [apply IH | done].
  - apply Hu, IH.
  - apply Hb; apply IH.
  - apply Hc. induction args; constructor; [apply IH | done].
Qed.

(** ** Evaluation *)

(** Negation of an integer literal or input stays exact. *)
Definition negate_value (v : value) : result str value :=
  match v with
  | VNumber (PosInt _ as number) | VNumber (NegInt _ as number) =>
      match exact_integer number with
      | Some exact =>
          let negated := (- exact)%Z in
          if (I64_MIN <=? negated)%Z && (negated <=? I64_MAX)%Z then
            Ok (VNumber (num_from_int negated))
          else if (0 <=? negated)%Z && (negated <=? U64_MAX)%Z then
            Ok (VNumber (PosInt negated))
          else Err (s"unary - of `" ++ show_uint exact
                    ++ s"` has no exact integer representation")
      | None => x ← as_number v (s"unary -"); number_value (f64_neg x)
      end
  | _ => x ← as_number v (s"unary -"); number_value (f64_neg x)
  end.

Section evaluation.
Context `{CaseMapping}.

Fixpoint evaluate (bag : ValueBag) (e : ExpressionNode) : result str value :=
  match e with
  | Literal v => Ok v
  | Array items => VArray <$> traverse (evaluate bag) items
  | Path path => Ok (default VNull (get_path bag path))
  | Unary operator operand =>
      v ← evaluate bag operand;
      match operator with
      | OpNot => Ok (VBool (negb (truthy v)))
      | OpMinus => negate_value v
      | _ => Err (s"unknown unary operator `" ++ op_str operator ++ s"`")
      end
  | Binary operator lhs rhs =>
      l ← evaluate bag lhs;
      match operator with
      | OpOr => if truthy l then Ok (VBool true)
                else r ← evaluate bag rhs; evaluate_binary operator l r
      | OpAnd => if negb (truthy l) then Ok (VBool false)
                 else r ← evaluate bag rhs; evaluate_binary operator l r
      | _ => r ← evaluate bag rhs; evaluate_binary operator l r
      end
  | Call name arguments =>
      values ← traverse (evaluate bag) arguments;
      evaluate_call name values
  end.
End evaluation.

(** ** Parser *)

Record Parser : Type := mkParser { p_rest : list Token; p_nodes : Z }.

Definition parser_new (tokens : list Token) : Parser := mkParser tokens 0.

Definition peek (p : Parser) : Token := default TEnd (head (p_rest p)).
Definition advance (p : Parser) : Parser := mkParser (tail (p_rest p)) (p_nodes p).
Definition next (p : Parser) : Token * Parser := (peek p, advance p).

Definition expect_end (p : Parser) : result ExprError unit :=
  match peek p with
  | TEnd => Ok ()
  | token => Err (Syntax (TrailingToken token))
  end.

Definition ensure_depth (depth : Z) : result ExprError unit :=
  if (MAX_EXPRESSION_DEPTH <? depth)%Z then Err (TooDeep MAX_EXPRESSION_DEPTH) else Ok ().

Definition next_depth (depth : Z) : result ExprError Z :=
  ok_or (checked_add USIZE_MAX depth 1) (TooDeep MAX_EXPRESSION_DEPTH).

Definition reserve_node (p : Parser) : result ExprError Parser :=
  if (MAX_EXPRESSION_NODES <=? p_nodes p)%Z then Err (TooManyNodes MAX_EXPRESSION_NODES)
  else Ok (mkParser (p_rest p) (p_nodes p + 1)).

Definition infix_binding_power (o : operator) : option (Z * Z) :=
  match o with
  | OpOr => Some (1, 2)
  | OpAnd => Some (3, 4)
  | OpEq | OpNe => Some (5, 6)
  | OpGt | OpLt | OpGe | OpLe => Some (7, 8)
  | OpPlus | OpMinus => Some (9, 10)
  | OpMul | OpDiv | OpRem => Some (11, 12)
  | OpNot => None
  end%Z.

(** A leaf: account for the node and return it. *)
Definition leaf (node : ExpressionNode) (p : Parser) :
    result ExprError (ExpressionNode * Parser) :=
  p ← reserve_node p; Ok (node, p).

Definition is_path_identifier (identifier : str) : bool :=
  starts_with identifier (s"inputs.") || starts_with identifier (s"steps.")
  || (identifier =s s"item") || starts_with identifier (s"item.").

Definition parse_path (identifier : str) (p : Parser) :
    result ExprError (ExpressionNode * Parser) :=
  if is_path_identifier identifier then
    if (MAX_EXPRESSION_DEPTH <? Z.of_nat (length (split_char 46 identifier)))%Z then
      Err (TooDeep MAX_EXPRESSION_DEPTH)
    else leaf (Path identifier) p
  else Err (Syntax (UnsupportedLiteral identifier)).

(** The mutually recursive functions share one fuel, which every call
    decreases: [parse_expression_at], its [while] loop, [parse_prefix], the
    [loop] over array items, [parse_call] and the [loop] over arguments. *)
Fixpoint parse_expression_at (fuel : nat) (min_binding_power depth : Z) (p : Parser) :
    result ExprError (ExpressionNode * Parser) :=
  match fuel with
  | 0 => Err Diverged
  | S fuel =>
      _ ← ensure_depth depth;
      '(lhs, p) ← parse_prefix fuel depth p;
      infix_loop fuel min_binding_power depth lhs p
  end
with infix_loop (fuel : nat) (min_binding_power depth : Z) (lhs : ExpressionNode)
    (p : Parser) : result ExprError (ExpressionNode * Parser) :=
  match fuel with
  | 0 => Err Diverged
  | S fuel =>
      match peek p with
      | TOperator operator =>
          match infix_binding_power operator with
          | None => Ok (lhs, p)
          | Some (left_power, right_power) =>
              if (left_power <? min_binding_power)%Z then Ok (lhs, p)
              else
                let p := advance p in
                depth' ← next_depth depth;
                '(rhs, p) ← parse_expression_at fuel right_power depth' p;
                p ← reserve_node p;
                infix_loop fuel min_binding_power depth (Binary operator lhs rhs) p
          end
      | _ => Ok (lhs, p)
      end
  end
with parse_prefix (fuel : nat) (depth : Z) (p : Parser) :
    result ExprError (ExpressionNode * Parser) :=
  match fuel with
  | 0 => Err Diverged
  | S fuel =>
      _ ← ensure_depth depth;
      let '(token, p) := next p in
      match token with
      | TBool b => leaf (Literal (VBool b)) p
      | TNull => leaf (Literal VNull) p
      | TString x => leaf (Literal (VString x)) p
      | TNumber n => leaf (Literal (VNumber n)) p
      | TIdentifier identifier =>
          match peek p with
          | TLeftParen =>
              let p := advance p in
              depth' ← next_depth depth;
              parse_call fuel identifier depth' p
          | _ => parse_path identifier p
          end
      | TOperator OpNot =>
          depth' ← next_depth depth;
          '(v, p) ← parse_expression_at fuel 13 depth' p;
          p ← reserve_node p; Ok (Unary OpNot v, p)
      | TOperator OpMinus =>
          depth' ← next_depth depth;
          '(v, p) ← parse_expression_at fuel 13 depth' p;
          p ← reserve_node p; Ok (Unary OpMinus v, p)
      | TLeftParen =>
          depth' ← next_depth depth;
          '(expression, p) ← parse_expression_at fuel 0 depth' p;
          let '(token, p) := next p in
          match token with
          | TRightParen => Ok (expression, p)
          | token => Err (Syntax (ExpectedParen token))
          end
      | TLeftBracket =>
          match peek p with
          | TRightBracket => leaf (Array []) (advance p)
          | _ =>
              '(items, p) ← array_loop fuel depth [] p;
              leaf (Array items) p
          end
      | token => Err (Syntax (ExpectedExpression token))
      end
  end
with array_loop (fuel : nat) (depth : Z) (items : list ExpressionNode) (p : Parser) :
    result ExprError (list ExpressionNode * Parser) :=
  match fuel with
  | 0 => Err Diverged
  | S fuel =>
      depth' ← next_depth depth;
      '(item, p) ← parse_expression_at fuel 0 depth' p;
      let items := items ++ [item] in
      let '(token, p) := next p in
      match token with
      | TComma => array_loop fuel depth items p
      | TRightBracket => Ok (items, p)
      | token => Err (Syntax (ExpectedCommaOrBracket token))
      end
  end
with parse_call (fuel : nat) (name : str) (depth : Z) (p : Parser) :
    result ExprError (ExpressionNode * Parser) :=
  match fuel with
  | 0 => Err Diverged
  | S fuel =>
      _ ← ensure_depth depth;
      match peek p with
      | TRightParen => leaf (Call name []) (advance p)
      | _ =>
          '(arguments, p) ← call_loop fuel depth [] p;
          leaf (Call name arguments) p
      end
  end
with call_loop (fuel : nat) (depth : Z) (arguments : list ExpressionNode) (p : Parser) :
    result ExprError (list ExpressionNode * Parser) :=
  match fuel with
  | 0 => Err Diverged
  | S fuel =>
      depth' ← next_depth depth;
      '(argument, p) ← parse_expression_at fuel 0 depth' p;
      let arguments := arguments ++ [argument] in
      let '(token, p) := next p in
      match token with
      | TComma => call_loop fuel depth arguments p
      | TRightParen => Ok (arguments, p)
      | token => Err (Syntax (ExpectedCommaOrParen token))
      end
  end.

(** Enough fuel for any token sequence (theorem [parse_total] below). *)
Definition parse_fuel (tokens : list Token) : nat := 3 * length tokens + 2.

Definition parse_expression (min_binding_power : Z) (p : Parser) :
    result ExprError (ExpressionNode * Parser) :=
  parse_expression_at (parse_fuel (p_rest p)) min_binding_power 0 p.

(** Lexing, parsing and the end check, shared by the two entry points. *)
Definition parse_source (source : str) : result ExprError ExpressionNode :=
  tokens ← tokenize source;
  '(expression, p) ← parse_expression 0 (parser_new tokens);
  _ ← expect_end p;
  Ok expression.

Section entry_points.
Context `{CaseMapping}.

Definition eval_expression (source : str) (bag : ValueBag) : result ExprError bool :=
  _ ← ensure_expression_bytes source;
  match trim source with
  | [] => Ok false
  | _ =>
      expression ← parse_source source;
      v ← map_err Evaluation (evaluate bag expression);
      Ok (truthy v)
  end.

(** [ValueBag::eval_bool_typed]: no expression means true. *)
Definition eval_bool_typed (bag : ValueBag) (expr : option str) :
    result ExprError bool :=
  match expr with
  | None => Ok true
  | Some expr => eval_expression expr bag
  end.

(** [ValueBag::eval_value]; the error is kept typed, the source renders it. *)
Definition eval_value (bag : ValueBag) (source : str) : result ExprError value :=
  _ ← ensure_expression_bytes source;
  expression ← parse_source source;
  map_err Evaluation (evaluate bag expression).
End entry_points.
