(* ===== verification/ExprTotal.v ===== *)
(** * Expression language: termination and resource bounds

    Every entry point returns: the fuel the model supplies is always enough.
    What the lexer and the parser accept stays within the limits of
    [expr/error.rs]. *)

From S2P Require Import Prelude Str BMap Json ExprLexer ExprEval ValueBag ExprParser.

(** ** Lexer *)

Lemma scan_string_length quote acc x y r :
  scan_string quote acc x = Ok (y, r) → length r < length x.
Proof.
  revert acc; induction x as [x IH] using (induction_ltof1 _ (@length _));
    unfold ltof in IH; intros acc.
  destruct x as [|c x]; cbn; [done|].
  case_match; [intros [= _ <-]; lia|].
  case_match; [|intros Hs; apply IH in Hs; cbn in *; lia].
  destruct x as [|e x]; [done|]. case_match; [|done].
  intros Hs; apply IH in Hs; cbn in *; lia.
Qed.

Lemma scan_string_not_Diverged quote acc x : scan_string quote acc x ≠ Err Diverged.
Proof.
  revert acc; induction x as [x IH] using (induction_ltof1 _ (@length _));
    unfold ltof in IH; intros acc.
  destruct x as [|c x]; cbn; [done|]. case_match; [done|].
  case_match; [|apply IH; cbn; lia].
  destruct x as [|e x]; [done|]. case_match; [|done]. apply IH; cbn; lia.
Qed.

Lemma scan_number_length prev x a b : scan_number prev x = (a, b) → length b ≤ length x.
Proof.
  revert prev a b; induction x as [|c x IH]; intros prev a b; cbn.
  { by intros [= <- <-]. }
  case_match; [|by intros [= <- <-]]. case_match; [by intros [= <- <-]|].
  destruct (scan_number c x) as [a' b'] eqn:E. intros [= <- <-].
  apply IH in E. lia.
Qed.

Lemma scan_identifier_length acc sp oc x a b :
  scan_identifier acc sp oc x = (a, b) → length b ≤ length x.
Proof.
  revert acc sp oc a b; induction x as [|c x IH]; intros acc sp oc a b;
    cbn [scan_identifier].
  { by intros [= <- <-]. }
  repeat match goal with |- context [if ?b then _ else _] => destruct b end;
    first [ intros Hs; apply IH in Hs; cbn; lia | intros [= <- <-]; cbn; lia ].
Qed.

Lemma lex_one_length pos c r t rest :
  lex_one pos c r = Ok (t, rest) → length rest ≤ length r.
Proof.
  unfold lex_one. case_if; [by intros [= _ <-]|]. case_if.
  { intros H. result_inv H. destruct x as [v rest'].
    apply scan_string_length in Hx. simplify_eq. lia. }
  case_if.
  { destruct (scan_number c r) as [tl rest'] eqn:Es. intros H. result_inv H.
    simplify_eq. by eapply scan_number_length. }
  case_if.
  { destruct (scan_identifier _ _ _ r) as [i rest'] eqn:Es. intros [= _ <-].
    by eapply scan_identifier_length. }
  destr_goal; [intros [= _ <-]; destruct r; cbn; lia|].
  destr_goal; [by intros [= _ <-] | done].
Qed.

Lemma parse_number_literal_not_Diverged l : parse_number_literal l ≠ Err Diverged.
Proof.
  unfold parse_number_literal, parse_float_literal. repeat case_match; try done;
    unfold ok_or; by case_match.
Qed.

Lemma lex_one_not_Diverged pos c r : lex_one pos c r ≠ Err Diverged.
Proof.
  unfold lex_one. case_if; [done|]. case_if.
  { intros [H|([] & _ & H)]%result_bind_Err; [|done].
    by apply scan_string_not_Diverged in H. }
  case_if.
  { destruct (scan_number c r). intros [H|(? & _ & H)]%result_bind_Err; [|done].
    by apply parse_number_literal_not_Diverged in H. }
  case_if; [by destr_goal|]. destr_goal; [done|]. by destr_goal.
Qed.

Lemma push_token_Ok ts t ts' :
  push_token ts t = Ok ts' ↔
    ts' = ts ++ [t] ∧ (Z.of_nat (length ts') ≤ MAX_EXPRESSION_TOKENS)%Z.
Proof.
  unfold push_token. destruct (Z.leb_spec MAX_EXPRESSION_TOKENS (Z.of_nat (length ts))).
  - split; [done|]. intros [-> ?]. rewrite length_app in *. cbn in *. lia.
  - split; [intros [= <-]|naive_solver]. rewrite length_app. cbn. split; [done|lia].
Qed.
Lemma push_token_not_Diverged ts t : push_token ts t ≠ Err Diverged.
Proof. unfold push_token. by case_match. Qed.

Lemma lex_loop_total fuel total rest tokens :
  length rest ≤ fuel → lex_loop fuel total rest tokens ≠ Err Diverged.
Proof.
  revert rest tokens; induction fuel as [|fuel IH]; intros [|c r] tokens Hlen; cbn;
    try apply push_token_not_Diverged; [cbn in Hlen; lia|].
  intros [H|([t rest'] & Hone & H)]%result_bind_Err.
  { by apply lex_one_not_Diverged in H. }
  apply lex_one_length in Hone. cbn in Hlen.
  apply result_bind_Err in H as [H|(ts' & _ & H)].
  - destruct t; [by apply push_token_not_Diverged in H | done].
  - apply IH in H; [done | lia].
Qed.

Lemma tokenize_total source : tokenize source ≠ Err Diverged.
Proof.
  unfold tokenize, ensure_expression_bytes. case_match; [done|]. cbn.
  by apply lex_loop_total.
Qed.

(** No token of the scanners is [End]; the loop pushes it once, at the end. *)
Lemma lex_one_not_End pos c r rest : lex_one pos c r ≠ Ok (Some TEnd, rest).
Proof.
  unfold lex_one. case_if; [done|]. case_if.
  { intros ([] & _ & H)%result_bind_Ok. done. }
  case_if.
  { destruct (scan_number c r). by intros (? & _ & H)%result_bind_Ok. }
  case_if.
  { destruct (scan_identifier _ _ _ r). unfold identifier_token.
    by repeat case_if. }
  destr_goal; [done|]. unfold single_token. by repeat case_if.
Qed.

Lemma lex_loop_shape fuel total rest tokens ts :
  TEnd ∉ tokens → lex_loop fuel total rest tokens = Ok ts →
  ∃ body, ts = body ++ [TEnd] ∧ TEnd ∉ body ∧
          (Z.of_nat (length ts) ≤ MAX_EXPRESSION_TOKENS)%Z.
Proof.
  revert rest tokens; induction fuel as [|fuel IH]; intros [|c r] tokens Hno; cbn; try done.
  1,2: intros [-> Hle]%push_token_Ok; by exists tokens.
  intros H. apply result_bind_Ok in H as ([t rest'] & Hone & H).
  apply result_bind_Ok in H as (ts' & Hpush & H).
  eapply IH, H. destruct t as [t|]; [|by injection Hpush as <-].
  apply push_token_Ok in Hpush as [-> _]. intros [?|Ht]%elem_of_app; [done|].
  apply list_elem_of_singleton in Ht as <-. by apply lex_one_not_End in Hone.
Qed.

Lemma tokenize_shape source ts :
  tokenize source = Ok ts →
  ∃ body, ts = body ++ [TEnd] ∧ TEnd ∉ body ∧
          (Z.of_nat (length ts) ≤ MAX_EXPRESSION_TOKENS)%Z.
Proof.
  unfold tokenize. intros H. apply result_bind_Ok in H as (? & _ & H).
  eapply lex_loop_shape, H. apply not_elem_of_nil.
Qed.

(** ** Size and nesting of a syntax tree *)

Fixpoint ast_size (e : ExpressionNode) : Z :=
  match e with
  | Literal _ | Path _ => 1
  | Array items => 1 + fold_right (λ i n, ast_size i + n) 0 items
  | Unary _ e => 1 + ast_size e
  | Binary _ l r => 1 + ast_size l + ast_size r
  | Call _ args => 1 + fold_right (λ i n, ast_size i + n) 0 args
  end%Z.
Definition asts_size (l : list ExpressionNode) : Z :=
  fold_right (λ i n, ast_size i + n)%Z 0%Z l.

(** The recursion depth the parser reaches for the tree: left operands cost
    nothing, because the operator loop is iterative. *)
Fixpoint nesting (e : ExpressionNode) : Z :=
  match e with
  | Literal _ | Path _ => 0
  | Array items => fold_right (λ i n, Z.max (1 + nesting i) n) 0 items
  | Unary _ e => 1 + nesting e
  | Binary _ l r => Z.max (nesting l) (1 + nesting r)
  | Call _ args => fold_right (λ i n, Z.max (2 + nesting i) n) 1 args
  end%Z.

Lemma asts_size_cons e l : asts_size (e :: l) = (ast_size e + asts_size l)%Z.
Proof. done. Qed.
Lemma asts_size_app l1 l2 : asts_size (l1 ++ l2) = (asts_size l1 + asts_size l2)%Z.
Proof. unfold asts_size. induction l1; cbn; lia. Qed.

(** [fits d e]: a tree parsed at depth [d] respects the depth limit. *)
Definition fits (d : Z) (e : ExpressionNode) : Prop :=
  (d + nesting e ≤ MAX_EXPRESSION_DEPTH)%Z.

Lemma fits_Array d items :
  (d ≤ MAX_EXPRESSION_DEPTH)%Z → Forall (fits (d + 1)) items → fits d (Array items).
Proof.
  unfold fits. intros Hd H. cbn. induction H; cbn; lia.
Qed.
Lemma fits_Call d name args :
  (d + 1 ≤ MAX_EXPRESSION_DEPTH)%Z → Forall (fits (d + 2)) args → fits d (Call name args).
Proof.
  unfold fits. intros Hd H. cbn. induction H; cbn; lia.
Qed.

(** ** One-step equations of the parser *)

Section equations.
Context (fuel : nat).

Lemma parse_expression_at_S m d p :
  parse_expression_at (S fuel) m d p =
    (_ ← ensure_depth d; '(lhs, p) ← parse_prefix fuel d p; infix_loop fuel m d lhs p).
Proof. done. Qed.
Lemma infix_loop_S m d lhs p :
  infix_loop (S fuel) m d lhs p =
    match peek p with
    | TOperator operator =>
        match infix_binding_power operator with
        | None => Ok (lhs, p)
        | Some (left_power, right_power) =>
            if (left_power <? m)%Z then Ok (lhs, p)
            else
              depth' ← next_depth d;
              '(rhs, p) ← parse_expression_at fuel right_power depth' (advance p);
              p ← reserve_node p;
              infix_loop fuel m d (Binary operator lhs rhs) p
        end
    | _ => Ok (lhs, p)
    end.
Proof. done. Qed.
End equations.

(** What a successful call consumed and produced. *)
Definition consumed (d : Z) (p : Parser) (e : ExpressionNode) (p' : Parser) : Prop :=
  length (p_rest p') < length (p_rest p) ∧
  p_nodes p' = (p_nodes p + ast_size e)%Z ∧
  (p_nodes p' ≤ MAX_EXPRESSION_NODES)%Z ∧ fits d e.

Definition consumed_list (d : Z) (p : Parser) (es : list ExpressionNode) (p' : Parser) : Prop :=
  length (p_rest p') < length (p_rest p) ∧
  p_nodes p' = (p_nodes p + asts_size es)%Z ∧
  (p_nodes p' ≤ MAX_EXPRESSION_NODES)%Z ∧ Forall (fits d) es.

Lemma ensure_depth_Ok d u : ensure_depth d = Ok u → (d ≤ MAX_EXPRESSION_DEPTH)%Z.
Proof. unfold ensure_depth. case_if; [done|]. lia. Qed.
Lemma next_depth_Ok d d' : next_depth d = Ok d' → d' = (d + 1)%Z.
Proof. unfold next_depth. intros [? _]%ok_or_Ok%checked_add_Some. done. Qed.
Lemma reserve_node_Ok p p' :
  reserve_node p = Ok p' →
  p' = mkParser (p_rest p) (p_nodes p + 1) ∧ (p_nodes p + 1 ≤ MAX_EXPRESSION_NODES)%Z.
Proof. unfold reserve_node. case_if; [done|]. intros [= <-]. split; [done|lia]. Qed.
Lemma leaf_Ok node p e p' :
  leaf node p = Ok (e, p') →
  e = node ∧ p' = mkParser (p_rest p) (p_nodes p + 1) ∧
  (p_nodes p + 1 ≤ MAX_EXPRESSION_NODES)%Z.
Proof.
  unfold leaf. intros (q & [-> ?]%reserve_node_Ok & Hq)%result_bind_Ok. by simplify_eq.
Qed.
Lemma parse_path_Ok x p e p' :
  parse_path x p = Ok (e, p') → leaf (Path x) p = Ok (e, p').
Proof. unfold parse_path. by repeat case_if. Qed.
Lemma peek_advance p : peek p ≠ TEnd → length (p_rest (advance p)) < length (p_rest p).
Proof. unfold peek. destruct (p_rest p) eqn:E; cbn; rewrite ?E; cbn; [done|lia]. Qed.
Lemma advance_le p : length (p_rest (advance p)) ≤ length (p_rest p).
Proof. cbn. destruct (p_rest p); cbn; lia. Qed.

(** The six parser functions, specified together by induction on the fuel. *)
Definition parser_spec (fuel : nat) : Prop :=
  (∀ m d p e p', parse_expression_at fuel m d p = Ok (e, p') → consumed d p e p') ∧
  (∀ m d lhs p e p', infix_loop fuel m d lhs p = Ok (e, p') →
     fits d lhs → (p_nodes p ≤ MAX_EXPRESSION_NODES)%Z →
     length (p_rest p') ≤ length (p_rest p) ∧
     p_nodes p' = (p_nodes p + ast_size e - ast_size lhs)%Z ∧
     (p_nodes p' ≤ MAX_EXPRESSION_NODES)%Z ∧ fits d e) ∧
  (∀ d p e p', parse_prefix fuel d p = Ok (e, p') → consumed d p e p') ∧
  (∀ d items p es p', array_loop fuel d items p = Ok (es, p') →
     ∃ new, es = items ++ new ∧ consumed_list (d + 1) p new p') ∧
  (∀ name d p e p', parse_call fuel name d p = Ok (e, p') →
     (d ≤ MAX_EXPRESSION_DEPTH)%Z ∧ consumed (d - 1) p e p') ∧
  (∀ d args p es p', call_loop fuel d args p = Ok (es, p') →
     ∃ new, es = args ++ new ∧ consumed_list (d + 1) p new p').

Lemma expr_step fuel m d p e p' :
  parser_spec fuel → parse_expression_at (S fuel) m d p = Ok (e, p') → consumed d p e p'.
Proof.
  intros (_ & IHi & IHp & _) H. rewrite parse_expression_at_S in H.
  result_inv H. destruct x0 as [lhs q].
  apply IHp in Hx0 as (Hl & Hn & Hm & Hf).
  apply IHi in H as (? & ? & ? & ?); [|done..].
  unfold consumed. repeat split; try done; lia.
Qed.

Lemma infix_step fuel m d lhs p e p' :
  parser_spec fuel → infix_loop (S fuel) m d lhs p = Ok (e, p') →
  fits d lhs → (p_nodes p ≤ MAX_EXPRESSION_NODES)%Z →
  length (p_rest p') ≤ length (p_rest p) ∧
  p_nodes p' = (p_nodes p + ast_size e - ast_size lhs)%Z ∧
  (p_nodes p' ≤ MAX_EXPRESSION_NODES)%Z ∧ fits d e.
Proof.
  intros (IHe & IHi & _) H Hlhs Hp. rewrite infix_loop_S in H.
  assert (Hstop : Ok (lhs, p) = Ok (E:=ExprError) (e, p') →
    length (p_rest p') ≤ length (p_rest p) ∧
    p_nodes p' = (p_nodes p + ast_size e - ast_size lhs)%Z ∧
    (p_nodes p' ≤ MAX_EXPRESSION_NODES)%Z ∧ fits d e).
  { intros [= -> ->]. repeat split; try done; lia. }
  destruct (peek p) eqn:Hpeek; try by apply Hstop.
  destruct (infix_binding_power _) as [[lp rp]|]; [|by apply Hstop].
  case_if in H; [by apply Hstop|]. clear Hstop.
  result_inv H. destruct x0 as [rhs q]. cbn in H. result_inv H.
  apply next_depth_Ok in Hx as ->. apply IHe in Hx0 as (Hl & Hn & Hm & Hf).
  apply reserve_node_Ok in Hx1 as [-> Hq].
  pose proof (advance_le p). cbn in *.
  apply IHi in H as (? & ? & ? & ?); cbn in *; [|unfold fits in *; cbn; lia|lia].
  repeat split; try done; lia.
Qed.

Lemma consumed_leaf d p node p' :
  (d ≤ MAX_EXPRESSION_DEPTH)%Z → peek p ≠ TEnd →
  ast_size node = 1%Z → nesting node = 0%Z →
  p' = mkParser (p_rest (advance p)) (p_nodes p + 1) →
  (p_nodes p + 1 ≤ MAX_EXPRESSION_NODES)%Z → consumed d p node p'.
Proof.
  intros ? Hpeek Hs Hn -> ?. apply peek_advance in Hpeek.
  unfold consumed, fits. rewrite Hs, Hn. cbn in *. repeat split; try done; lia.
Qed.

Lemma unary_step fuel m o d p e p' :
  parser_spec fuel → peek p ≠ TEnd →
  (depth' ← next_depth d;
   '(v, q) ← parse_expression_at fuel m depth' (advance p);
   q ← reserve_node q; Ok (Unary o v, q)) = Ok (e, p') →
  consumed d p e p'.
Proof.
  intros (IHe & _) Hpeek%peek_advance H. result_inv H. destruct x0 as [v q].
  cbn in H. result_inv H. apply next_depth_Ok in Hx as ->.
  apply IHe in Hx0 as (? & ? & ? & Hf). apply reserve_node_Ok in Hx1 as [-> ?].
  simplify_eq. unfold consumed, fits in *. cbn in *. repeat split; lia.
Qed.

Lemma array_step fuel d items p es p' :
  parser_spec fuel → array_loop (S fuel) d items p = Ok (es, p') →
  ∃ new, es = items ++ new ∧ consumed_list (d + 1) p new p'.
Proof.
  intros (IHe & _ & _ & IHa & _) H. cbn [array_loop] in H.
  result_inv H. destruct x0 as [item q]. apply next_depth_Ok in Hx as ->.
  apply IHe in Hx0 as (? & Hn & ? & Hf). unfold next in H.
  pose proof (advance_le q). destruct (peek q); try done.
  - injection H as <- <-. exists [item]. split; [done|].
    unfold consumed_list. rewrite asts_size_cons. cbn [p_nodes p_rest advance asts_size fold_right] in *.
    repeat split; try lia. by constructor.
  - apply IHa in H as (new & -> & ? & Hn' & ? & ?). exists (item :: new).
    rewrite <-app_assoc. split; [done|]. unfold consumed_list.
    rewrite asts_size_cons. cbn [p_nodes p_rest advance] in *.
    repeat split; try lia. by constructor.
Qed.

Lemma call_loop_step fuel d args p es p' :
  parser_spec fuel → call_loop (S fuel) d args p = Ok (es, p') →
  ∃ new, es = args ++ new ∧ consumed_list (d + 1) p new p'.
Proof.
  intros (IHe & _ & _ & _ & _ & IHc) H. cbn [call_loop] in H.
  result_inv H. destruct x0 as [item q]. apply next_depth_Ok in Hx as ->.
  apply IHe in Hx0 as (? & Hn & ? & Hf). unfold next in H.
  pose proof (advance_le q). destruct (peek q); try done.
  - injection H as <- <-. exists [item]. split; [done|].
    unfold consumed_list. rewrite asts_size_cons. cbn [p_nodes p_rest advance asts_size fold_right] in *.
    repeat split; try lia. by constructor.
  - apply IHc in H as (new & -> & ? & Hn' & ? & ?). exists (item :: new).
    rewrite <-app_assoc. split; [done|]. unfold consumed_list.
    rewrite asts_size_cons. cbn [p_nodes p_rest advance] in *.
    repeat split; try lia. by constructor.
Qed.

Lemma call_step fuel name d p e p' :
  parser_spec fuel → parse_call (S fuel) name d p = Ok (e, p') →
  (d ≤ MAX_EXPRESSION_DEPTH)%Z ∧ consumed (d - 1) p e p'.
Proof.
  intros (_ & _ & _ & _ & _ & IHc) H. cbn [parse_call] in H.
  result_inv H. apply ensure_depth_Ok in Hx. split; [done|].
  assert (Hargs : ('(arguments, p) ← call_loop fuel d [] p; leaf (Call name arguments) p)
                  = Ok (e, p') → consumed (d - 1) p e p').
  { intros H'. result_inv H'. destruct x0 as [args q].
    apply IHc in Hx0 as (new & -> & ? & Hn & ? & Hf).
    apply leaf_Ok in H' as (-> & -> & ?). unfold consumed.
    cbn [p_rest p_nodes ast_size app] in *. fold (asts_size new).
    repeat split; try lia. apply fits_Call; [lia|].
    by replace (d - 1 + 2)%Z with (d + 1)%Z by lia. }
  destruct (peek p) eqn:Hpeek; try by apply Hargs.
  apply leaf_Ok in H as (-> & -> & ?).
  pose proof (peek_advance p ltac:(by rewrite Hpeek)).
  unfold consumed, fits. cbn in *. repeat split; lia.
Qed.

Lemma paren_step fuel d p e p' :
  parser_spec fuel → peek p ≠ TEnd →
  (depth' ← next_depth d;
   '(expression, q) ← parse_expression_at fuel 0 depth' (advance p);
   let '(token, q) := next q in
   match token with
   | TRightParen => Ok (expression, q)
   | token => Err (Syntax (ExpectedParen token))
   end) = Ok (e, p') →
  consumed d p e p'.
Proof.
  intros (IHe & _) Hpeek%peek_advance H. result_inv H. destruct x0 as [v q].
  cbn in H. apply next_depth_Ok in Hx as ->.
  apply IHe in Hx0 as (? & ? & ? & Hf). destruct (peek q); simplify_eq.
  pose proof (advance_le q). unfold consumed, fits in *. cbn in *. repeat split; lia.
Qed.

Lemma prefix_step fuel d p e p' :
  parser_spec fuel → parse_prefix (S fuel) d p = Ok (e, p') → consumed d p e p'.
Proof.
  intros Hspec H. cbn [parse_prefix] in H. result_inv H.
  apply ensure_depth_Ok in Hx. unfold next in H.
  destruct (peek p) as [i|x'|n|b| |o| | | | | |] eqn:Hpeek; try done;
    try (apply leaf_Ok in H as (-> & -> & ?); apply consumed_leaf; by rewrite ?Hpeek).
  - pose proof (peek_advance p ltac:(by rewrite Hpeek)) as Hadv.
    assert (Hpath : parse_path i (advance p) = Ok (e, p') → consumed d p e p').
    { intros (-> & -> & ?)%parse_path_Ok%leaf_Ok. apply consumed_leaf; by rewrite ?Hpeek. }
    destruct (peek (advance p)) eqn:Hpeek'; try by apply Hpath.
    result_inv H. apply next_depth_Ok in Hx0 as ->.
    apply Hspec in H as (? & ? & ? & ? & ?).
    pose proof (advance_le (advance p)). unfold consumed.
    replace (d + 1 - 1)%Z with d in * by lia. cbn in *. repeat split; try done; lia.
  - destruct o; try done; (eapply unary_step; [done | by rewrite Hpeek | exact H]).
  - eapply paren_step; [done | by rewrite Hpeek | exact H].
  - pose proof (peek_advance p ltac:(by rewrite Hpeek)) as Hadv.
    assert (Hitems : ('(items, q) ← array_loop fuel d [] (advance p); leaf (Array items) q)
                     = Ok (e, p') → consumed d p e p').
    { intros H'. result_inv H'. destruct x0 as [items q].
      apply Hspec in Hx0 as (new & -> & ? & Hn & ? & Hf).
      apply leaf_Ok in H' as (-> & -> & ?). unfold consumed.
      cbn [p_rest p_nodes ast_size app advance] in *. fold (asts_size new).
      repeat split; try lia. by apply fits_Array. }
    destruct (peek (advance p)); try by apply Hitems.
    apply leaf_Ok in H as (-> & -> & ?). pose proof (advance_le (advance p)).
    unfold consumed, fits. cbn in *. repeat split; lia.
Qed.

Lemma parser_spec_all fuel : parser_spec fuel.
Proof.
  induction fuel as [|fuel IH]; [repeat split; by intros|].
  split; [|split; [|split; [|split; [|split]]]]; intros.
  - by eapply expr_step.
  - by eapply infix_step.
  - by eapply prefix_step.
  - by eapply array_step.
  - by eapply call_step.
  - by eapply call_loop_step.
Qed.

Lemma parse_expression_at_consumed fuel m d p e p' :
  parse_expression_at fuel m d p = Ok (e, p') → consumed d p e p'.
Proof. apply parser_spec_all. Qed.
Lemma parse_prefix_consumed fuel d p e p' :
  parse_prefix fuel d p = Ok (e, p') → consumed d p e p'.
Proof. apply parser_spec_all. Qed.

(** ** The fuel is enough *)

Definition len (p : Parser) : nat := length (p_rest p).

Definition parser_total (fuel : nat) : Prop :=
  (∀ m d p, 3 * len p + 2 ≤ fuel → parse_expression_at fuel m d p ≠ Err Diverged) ∧
  (∀ m d lhs p, 3 * len p + 1 ≤ fuel → infix_loop fuel m d lhs p ≠ Err Diverged) ∧
  (∀ d p, 3 * len p + 1 ≤ fuel → parse_prefix fuel d p ≠ Err Diverged) ∧
  (∀ d items p, 3 * len p + 3 ≤ fuel → array_loop fuel d items p ≠ Err Diverged) ∧
  (∀ name d p, 3 * len p + 4 ≤ fuel → parse_call fuel name d p ≠ Err Diverged) ∧
  (∀ d args p, 3 * len p + 3 ≤ fuel → call_loop fuel d args p ≠ Err Diverged).

Lemma ensure_depth_not_Diverged d : ensure_depth d ≠ Err Diverged.
Proof. unfold ensure_depth. by case_if. Qed.
Lemma next_depth_not_Diverged d : next_depth d ≠ Err Diverged.
Proof. unfold next_depth. by intros [_ ?]%ok_or_Err. Qed.
Lemma reserve_node_not_Diverged p : reserve_node p ≠ Err Diverged.
Proof. unfold reserve_node. by case_if. Qed.
Lemma leaf_not_Diverged node p : leaf node p ≠ Err Diverged.
Proof.
  unfold leaf. intros [Hr|(? & _ & ?)]%result_bind_Err; [|done].
  by apply reserve_node_not_Diverged in Hr.
Qed.
Lemma parse_path_not_Diverged x p : parse_path x p ≠ Err Diverged.
Proof. unfold parse_path. repeat case_if; try done. apply leaf_not_Diverged. Qed.
Lemma expect_end_not_Diverged p : expect_end p ≠ Err Diverged.
Proof. unfold expect_end. by case_match. Qed.

#[local] Hint Resolve ensure_depth_not_Diverged next_depth_not_Diverged
  reserve_node_not_Diverged leaf_not_Diverged parse_path_not_Diverged : qcg.

(** A bind diverges only if one of its parts does. *)
Lemma bind_not_Diverged {A B} (m : result ExprError A) (f : A → result ExprError B) :
  m ≠ Err Diverged → (∀ x, m = Ok x → f x ≠ Err Diverged) → m ≫= f ≠ Err Diverged.
Proof. intros Hm Hf [?|(x & ? & ?)]%result_bind_Err; [done|]. by eapply Hf. Qed.

Ltac bind_total := apply bind_not_Diverged; [eauto with qcg|].

Lemma parse_expression_at_len fuel m d p e p' :
  parse_expression_at fuel m d p = Ok (e, p') → len p' < len p.
Proof. by intros [? _]%parse_expression_at_consumed. Qed.
Lemma advance_len p : len (advance p) ≤ len p.
Proof. apply advance_le. Qed.
Lemma advance_len_lt p t : peek p = t → t ≠ TEnd → len (advance p) < len p.
Proof. intros <-. apply peek_advance. Qed.

Lemma list_loops_total fuel :
  parser_total fuel →
  (∀ d items p, 3 * len p + 3 ≤ S fuel → array_loop (S fuel) d items p ≠ Err Diverged) ∧
  (∀ d args p, 3 * len p + 3 ≤ S fuel → call_loop (S fuel) d args p ≠ Err Diverged).
Proof.
  intros (IHe & _ & _ & IHa & _ & IHc). split; intros d items p Hlen.
  - cbn [array_loop]. bind_total. intros d' _.
    apply bind_not_Diverged; [apply IHe; lia|]. intros [item q] Hq%parse_expression_at_len.
    unfold next. pose proof (advance_len q). destruct (peek q) eqn:Hp; try done.
    apply IHa. apply (advance_len_lt q) in Hp; [lia|done].
  - cbn [call_loop]. bind_total. intros d' _.
    apply bind_not_Diverged; [apply IHe; lia|]. intros [item q] Hq%parse_expression_at_len.
    unfold next. destruct (peek q) eqn:Hp; try done.
    apply IHc. apply (advance_len_lt q) in Hp; [lia|done].
Qed.

Lemma infix_total fuel m d lhs p :
  parser_total fuel → 3 * len p + 1 ≤ S fuel → infix_loop (S fuel) m d lhs p ≠ Err Diverged.
Proof.
  intros (IHe & IHi & _) Hlen. rewrite infix_loop_S.
  destruct (peek p) eqn:Hp; try done. destruct (infix_binding_power _) as [[lp rp]|]; [|done].
  case_if; [done|]. apply (advance_len_lt p) in Hp; [|done].
  bind_total. intros d' _. apply bind_not_Diverged; [apply IHe; lia|].
  intros [rhs q] Hq%parse_expression_at_len. bind_total.
  intros q' [-> _]%reserve_node_Ok. apply IHi. unfold len in *. cbn in *. lia.
Qed.

Lemma prefix_total fuel d p :
  parser_total fuel → 3 * len p + 1 ≤ S fuel → parse_prefix (S fuel) d p ≠ Err Diverged.
Proof.
  intros (IHe & _ & _ & IHa & IHc & _) Hlen. cbn [parse_prefix]. bind_total.
  intros _ _. unfold next. pose proof (advance_len (advance p)).
  destruct (peek p) as [i|x|n|b| |o| | | | | |] eqn:Hp; try done; eauto with qcg;
    (apply (advance_len_lt p) in Hp; [|done]).
  - destruct (peek (advance p)) eqn:Hp'; eauto with qcg.
    apply (advance_len_lt (advance p)) in Hp'; [|done].
    bind_total. intros d' _. apply IHc. lia.
  - destruct o; try done;
      (bind_total; intros d' _; apply bind_not_Diverged; [apply IHe; lia|];
       intros [v q] _; bind_total; done).
  - bind_total. intros d' _. apply bind_not_Diverged; [apply IHe; lia|].
    intros [v q] _. by destruct (peek q).
  - destruct (peek (advance p)) eqn:Hp'; eauto with qcg;
      (apply bind_not_Diverged; [apply IHa; lia|]; intros [items q] _; eauto with qcg).
Qed.

Lemma parser_total_all fuel : parser_total fuel.
Proof.
  induction fuel as [|fuel IH]; [repeat split; intros; lia|].
  destruct (list_loops_total fuel IH) as [Ha Hc].
  split; [|split; [|split; [|split; [|split]]]]; intros.
  - rewrite parse_expression_at_S. bind_total. intros _ _.
    apply bind_not_Diverged; [apply IH; lia|].
    intros [lhs q] [Hq _]%parse_prefix_consumed. apply IH. unfold len in *. lia.
  - by apply infix_total.
  - by apply prefix_total.
  - by apply Ha.
  - cbn [parse_call]. bind_total. intros _ _.
    destruct (peek p) eqn:Hp; eauto with qcg;
      (apply bind_not_Diverged; [apply IH; lia|]; intros [args q] _; eauto with qcg).
  - by apply Hc.
Qed.

Lemma parse_source_total source : parse_source source ≠ Err Diverged.
Proof.
  unfold parse_source, parse_expression, parse_fuel.
  apply bind_not_Diverged; [apply tokenize_total|]. intros tokens _.
  apply bind_not_Diverged; [by apply parser_total_all|]. intros [e p] _.
  apply bind_not_Diverged; [apply expect_end_not_Diverged|]. done.
Qed.

Lemma map_err_not_Diverged {A} (m : result str A) : map_err Evaluation m ≠ Err Diverged.
Proof. by destruct m. Qed.

(** ** Properties *)

(** Every evaluation terminates: for every source text and scope, the
    boolean and the value entry point return a value or one of the source's
    errors; the fuel-exhausted outcome of the model is never returned. *)
Theorem eval_terminates `{CaseMapping} (source : str) (bag : ValueBag) :
  eval_expression source bag ≠ Err Diverged ∧
  eval_value bag source ≠ Err Diverged.
Proof.
  assert (ensure_expression_bytes source ≠ Err Diverged)
    by (unfold ensure_expression_bytes; by case_if).
  pose proof (parse_source_total source). split.
  - unfold eval_expression. apply bind_not_Diverged; [done|]. intros _ _.
    destruct (trim source); [done|]. apply bind_not_Diverged; [done|]. intros e _.
    apply bind_not_Diverged; [apply map_err_not_Diverged | done].
  - unfold eval_value. apply bind_not_Diverged; [done|]. intros _ _.
    apply bind_not_Diverged; [done|]. intros e _. apply map_err_not_Diverged.
Qed.

(** An accepted expression is within every limit of [expr/error.rs]: its
    text, its token sequence ([End] last and only there), the number of nodes
    of its tree and the parser's recursion depth. *)
Theorem accepted_within_limits (source : str) (e : ExpressionNode) :
  parse_source source = Ok e →
  (str_len source ≤ MAX_EXPRESSION_BYTES)%Z ∧
  (∃ body, tokenize source = Ok (body ++ [TEnd]) ∧ TEnd ∉ body ∧
           (Z.of_nat (length body) < MAX_EXPRESSION_TOKENS)%Z) ∧
  (ast_size e ≤ MAX_EXPRESSION_NODES)%Z ∧
  (nesting e ≤ MAX_EXPRESSION_DEPTH)%Z.
Proof.
  unfold parse_source. intros H. result_inv H. destruct x0 as [e' p].
  cbn in H. result_inv H. simplify_eq.
  destruct (tokenize_shape _ _ Hx) as (body & -> & Hbody & Hlen).
  split; [|split].
  - unfold tokenize, ensure_expression_bytes in Hx.
    destruct (Z.ltb_spec MAX_EXPRESSION_BYTES (str_len source)); [done|lia].
  - exists body. rewrite length_app in Hlen. cbn in Hlen. repeat split; try done. lia.
  - apply parse_expression_at_consumed in Hx0 as (_ & Hn & Hm & Hf).
    unfold fits in Hf. cbn in Hn. lia.
Qed.

Lemma accepted_within_limits_witness :
  ∃ e, parse_source (s"1 + inputs.a * 2") = Ok e ∧ (nesting e ≤ 128)%Z.
Proof.
  eexists. split; [vm_compute; reflexivity|].
  eapply (accepted_within_limits (s"1 + inputs.a * 2")). vm_compute. reflexivity.
Defined.
