(* ===== verification/ExprRoundtrip.v ===== *)
(** * Expression language: printing and parsing are inverse

    A printer with the least parentheses the binding powers allow, down to
    source text, and the proof that [parse_source] inverts it: precedence,
    left associativity, unary binding, calls and arrays are read the way the
    tree says. *)

From S2P Require Import Prelude Str BMap Json ExprLexer ExprEval ValueBag ExprParser ExprTotal.
From Stdlib Require Import SpecFloat.

(** ** More fuel does not change a result *)

Definition refines {A} (a b : result ExprError A) : Prop := a ≠ Err Diverged → b = a.

Lemma refines_refl {A} (a : result ExprError A) : refines a a.
Proof. by intros _. Qed.
Lemma refines_bind {A B} (m m' : result ExprError A) (f f' : A → result ExprError B) :
  refines m m' → (∀ x, refines (f x) (f' x)) → refines (m ≫= f) (m' ≫= f').
Proof.
  intros Hm Hf Hd. unfold refines in *. destruct m as [x|e]; cbn in *.
  - rewrite Hm by congruence. by apply Hf.
  - by rewrite Hm by congruence.
Qed.

Definition parser_mono (F G : nat) : Prop :=
  (∀ m d p, refines (parse_expression_at F m d p) (parse_expression_at G m d p)) ∧
  (∀ m d lhs p, refines (infix_loop F m d lhs p) (infix_loop G m d lhs p)) ∧
  (∀ d p, refines (parse_prefix F d p) (parse_prefix G d p)) ∧
  (∀ d items p, refines (array_loop F d items p) (array_loop G d items p)) ∧
  (∀ name d p, refines (parse_call F name d p) (parse_call G name d p)) ∧
  (∀ d args p, refines (call_loop F d args p) (call_loop G d args p)).

Ltac mono_step :=
  match goal with
  | |- refines (mbind _ _) (mbind _ _) => apply refines_bind; [|intros ?]
  | |- refines (match ?x with _ => _ end) _ => destruct x
  | |- refines ?a ?a => apply refines_refl
  | H : parser_mono _ _ |- _ => apply H
  end.

Lemma parser_mono_step F G : parser_mono F G → parser_mono (S F) (S G).
Proof.
  intros IH. split; [|split; [|split; [|split; [|split]]]]; intros.
  - rewrite !parse_expression_at_S. repeat mono_step.
  - rewrite !infix_loop_S. repeat mono_step.
  - cbn [parse_prefix]. unfold next. repeat mono_step.
  - cbn [array_loop]. unfold next. repeat mono_step.
  - cbn [parse_call]. repeat mono_step.
  - cbn [call_loop]. unfold next. repeat mono_step.
Qed.

Lemma parser_mono_all F G : F ≤ G → parser_mono F G.
Proof.
  revert G; induction F as [|F IH]; intros G H.
  - repeat split; intros; by intros [].
  - destruct G as [|G]; [lia|]. apply parser_mono_step, IH. lia.
Qed.

(** ** Printing to tokens *)

Fixpoint commas (l : list (list Token)) : list Token :=
  match l with
  | [] => []
  | [x] => x
  | x :: r => x ++ TComma :: commas r
  end.

Fixpoint print_at (m : Z) (e : ExpressionNode) : list Token :=
  match e with
  | Literal VNull => [TNull]
  | Literal (VBool b) => [TBool b]
  | Literal (VNumber n) => [TNumber n]
  | Literal (VString x) => [TString x]
  | Literal _ => []
  | Path p => [TIdentifier p]
  | Array items => TLeftBracket :: commas (map (print_at 0) items) ++ [TRightBracket]
  | Unary o e => TOperator o :: print_at 13 e
  | Binary o l r =>
      match infix_binding_power o with
      | Some (lp, rp) =>
          let body := print_at lp l ++ TOperator o :: print_at rp r in
          if (lp <? m)%Z then TLeftParen :: body ++ [TRightParen] else body
      | None => []
      end
  | Call name args =>
      TIdentifier name :: TLeftParen :: commas (map (print_at 0) args) ++ [TRightParen]
  end.

(** The recursion depth of the parser on the printed tokens. *)
Fixpoint print_depth (m : Z) (e : ExpressionNode) : Z :=
  match e with
  | Literal _ | Path _ => 0
  | Array items => fold_right (λ i n, Z.max (1 + print_depth 0 i) n) 0 items
  | Unary _ e => 1 + print_depth 13 e
  | Binary o l r =>
      match infix_binding_power o with
      | Some (lp, rp) =>
          let body := Z.max (print_depth lp l) (1 + print_depth rp r) in
          if lp <? m then 1 + body else body
      | None => 0
      end
  | Call _ args => fold_right (λ i n, Z.max (2 + print_depth 0 i) n) 1 args
  end%Z.

(** Trees the surface syntax can express. *)
Fixpoint printable (e : ExpressionNode) : Prop :=
  match e with
  | Literal (VArray _) | Literal (VObject _) => False
  | Literal _ => True
  | Path p =>
      is_path_identifier p = true ∧
      (Z.of_nat (length (split_char 46 p)) ≤ MAX_EXPRESSION_DEPTH)%Z
  | Array items => fold_right (λ i P, printable i ∧ P) True items
  | Unary o e => (o = OpNot ∨ o = OpMinus) ∧ printable e
  | Binary o l r => o ≠ OpNot ∧ printable l ∧ printable r
  | Call _ args => fold_right (λ i P, printable i ∧ P) True args
  end.

Lemma printable_list l :
  fold_right (λ i P, printable i ∧ P) True l ↔ Forall printable l.
Proof. induction l; cbn; [done|]. by rewrite Forall_cons, IHl. Qed.

Lemma ast_size_pos e : (1 ≤ ast_size e)%Z.
Proof.
  induction e as [v|p|items IH|o e IH|o l r IHl IHr|name args IH] using ExpressionNode_ind';
    cbn; try lia; induction IH; cbn in *; lia.
Qed.
Lemma asts_size_nonneg l : (0 ≤ asts_size l)%Z.
Proof.
  induction l as [|e l IH]; [done|]. rewrite asts_size_cons.
  pose proof (ast_size_pos e). lia.
Qed.

Lemma binding_powers o lp rp :
  infix_binding_power o = Some (lp, rp) → (1 ≤ lp ∧ rp = lp + 1 ∧ rp ≤ 12)%Z.
Proof. destruct o; cbn; intros [= <- <-]; lia. Qed.

(** The tokens that may follow a printed expression: nothing the operator
    loop at minimal power [k] would consume, and no call parenthesis. *)
Definition stop (k : Z) (rest : list Token) : Prop :=
  match head rest with
  | Some (TOperator o) =>
      match infix_binding_power o with Some (lp, _) => (lp < k)%Z | None => True end
  | Some TLeftParen => False
  | _ => True
  end.

Lemma stop_weaken k k' rest : (k ≤ k')%Z → stop k rest → stop k' rest.
Proof.
  unfold stop. destruct (head rest) as [[]|]; try done.
  destruct (infix_binding_power _) as [[]|]; [lia|done].
Qed.
Lemma stop_13 k rest : stop k rest → stop 13 rest.
Proof.
  unfold stop. destruct (head rest) as [[]|]; try done.
  destruct (infix_binding_power _) as [[lp rp]|] eqn:E; [|done].
  apply binding_powers in E. lia.
Qed.
Lemma stop_infix k d e rest n :
  stop k rest → infix_loop 1 k d e (mkParser rest n) = Ok (e, mkParser rest n).
Proof.
  intros H. rewrite infix_loop_S. unfold stop, peek in *. cbn.
  destruct rest as [|[] rest]; cbn in *; try done.
  destruct (infix_binding_power _) as [[lp rp]|]; [|done].
  by rewrite (proj2 (Z.ltb_lt _ _) H).
Qed.

Lemma print_head m e :
  printable e →
  ∃ t ts, print_at m e = t :: ts ∧ t ≠ TRightBracket ∧ t ≠ TRightParen.
Proof.
  revert m; induction e as [v|p|items IH|o e IH|o l r IHl IHr|name args IH]
    using ExpressionNode_ind'; intros m; cbn; try (by eauto).
  - destruct v; cbn; try done; eauto.
  - intros (Ho & Hl & Hr). destruct (infix_binding_power o) as [[lp rp]|] eqn:E.
    + destruct (IHl lp Hl) as (t & ts & -> & ? & ?). case_if; cbn; eauto.
    + by destruct o.
Qed.

(** ** Parsing printed tokens *)

(** [parses m e]: printed at power [m] and followed by a stopping rest, the
    tree is read back, with its nodes accounted for. *)
Definition parses (m : Z) (e : ExpressionNode) : Prop :=
  ∀ d n rest, stop m rest →
    (d + print_depth m e ≤ MAX_EXPRESSION_DEPTH)%Z → (0 ≤ d)%Z →
    (n + ast_size e ≤ MAX_EXPRESSION_NODES)%Z →
    ∃ F, parse_expression_at F m d (mkParser (print_at m e ++ rest) n)
         = Ok (e, mkParser rest (n + ast_size e)).

(** The prefix and operator loop of [parse_expression_at]. *)
Definition head_loop (F : nat) (m d : Z) (p : Parser) :
    result ExprError (ExpressionNode * Parser) :=
  '(lhs, p) ← parse_prefix F d p; infix_loop F m d lhs p.

(** [absorbs k e]: whatever the operator loop at a lower power does after the
    tree, the parser does on the printed tokens. *)
Definition absorbs (k : Z) (e : ExpressionNode) : Prop :=
  ∀ m d n rest R, (m ≤ k)%Z → stop (k + 1) rest →
    (d + print_depth k e ≤ MAX_EXPRESSION_DEPTH)%Z → (0 ≤ d)%Z →
    (n + ast_size e ≤ MAX_EXPRESSION_NODES)%Z → R ≠ Err Diverged →
    (∃ F, infix_loop F m d e (mkParser rest (n + ast_size e)) = R) →
    ∃ F, head_loop F m d (mkParser (print_at k e ++ rest) n) = R.

Lemma ensure_depth_ok d : (d ≤ MAX_EXPRESSION_DEPTH)%Z → ensure_depth d = Ok ().
Proof. intros H. unfold ensure_depth. by rewrite (proj2 (Z.ltb_ge _ _) H). Qed.
Lemma next_depth_ok d : (d ≤ MAX_EXPRESSION_DEPTH)%Z → next_depth d = Ok (d + 1)%Z.
Proof.
  intros H. unfold next_depth, checked_add. rewrite decide_True; [done|].
  unfold MAX_EXPRESSION_DEPTH, USIZE_MAX, U64_MAX in *. lia.
Qed.
Lemma reserve_node_ok ts n :
  (n + 1 ≤ MAX_EXPRESSION_NODES)%Z → reserve_node (mkParser ts n) = Ok (mkParser ts (n + 1)).
Proof.
  intros H. unfold reserve_node. cbn.
  by rewrite (proj2 (Z.leb_gt MAX_EXPRESSION_NODES n)) by lia.
Qed.
Lemma leaf_ok e ts n :
  (n + 1 ≤ MAX_EXPRESSION_NODES)%Z → leaf e (mkParser ts n) = Ok (e, mkParser ts (n + 1)).
Proof. intros H. unfold leaf. by rewrite reserve_node_ok. Qed.

(** Raising the fuel of a known result. *)
Lemma expr_raise F G m d p r :
  parse_expression_at F m d p = r → r ≠ Err Diverged → F ≤ G →
  parse_expression_at G m d p = r.
Proof. intros H Hr HF. destruct (parser_mono_all F G HF) as [Hm _]. rewrite <-H. apply Hm. congruence. Qed.
Lemma infix_raise F G m d e p r :
  infix_loop F m d e p = r → r ≠ Err Diverged → F ≤ G → infix_loop G m d e p = r.
Proof.
  intros H Hr HF. destruct (parser_mono_all F G HF) as (_ & Hm & _). rewrite <-H.
  apply Hm. congruence.
Qed.
Lemma prefix_raise F G d p r :
  parse_prefix F d p = r → r ≠ Err Diverged → F ≤ G → parse_prefix G d p = r.
Proof.
  intros H Hr HF. destruct (parser_mono_all F G HF) as (_ & _ & Hm & _). rewrite <-H.
  apply Hm. congruence.
Qed.

(** A tree whose printed form is read by [parse_prefix] alone. *)
Lemma absorbs_prefix k e :
  (∀ d n rest, stop (k + 1) rest →
     (d + print_depth k e ≤ MAX_EXPRESSION_DEPTH)%Z → (0 ≤ d)%Z →
     (n + ast_size e ≤ MAX_EXPRESSION_NODES)%Z →
     ∃ F, parse_prefix F d (mkParser (print_at k e ++ rest) n)
          = Ok (e, mkParser rest (n + ast_size e))) →
  absorbs k e.
Proof.
  intros H m d n rest R Hm Hstop Hd Hd0 Hn HR [F1 HF1].
  destruct (H d n rest Hstop Hd Hd0 Hn) as [F2 HF2].
  exists (max F1 F2). unfold head_loop.
  rewrite (prefix_raise F2 _ _ _ _ HF2) by (done || lia). cbn.
  by apply (infix_raise F1); [|done|lia].
Qed.

Lemma print_depth_nonneg m e : (0 ≤ print_depth m e)%Z.
Proof.
  revert m; induction e as [v|p|items IH|o e IH|o l r IHl IHr|name args IH]
    using ExpressionNode_ind'; intros m; cbn; try lia.
  - induction IH; cbn; lia.
  - specialize (IH 13%Z). lia.
  - destruct (infix_binding_power o) as [[lp rp]|]; [|lia].
    specialize (IHl lp). case_if; lia.
  - induction IH; cbn; lia.
Qed.

Lemma absorbs_parses m e : absorbs m e → parses m e.
Proof.
  intros H d n rest Hstop Hd Hd0 Hn.
  destruct (H m d n rest (Ok (e, mkParser rest (n + ast_size e)))) as [F HF];
    try done; [by apply (stop_weaken m); [lia|] | exists 1; by apply stop_infix |].
  exists (S F). rewrite parse_expression_at_S, ensure_depth_ok; [done|].
  pose proof (print_depth_nonneg m e). lia.
Qed.

Lemma parses_leaf k e t :
  print_at k e = [t] → ast_size e = 1%Z →
  (∀ d n rest, stop (k + 1) rest → (d ≤ MAX_EXPRESSION_DEPTH)%Z → 
     (n + 1 ≤ MAX_EXPRESSION_NODES)%Z →
     parse_prefix 1 d (mkParser (t :: rest) n) = Ok (e, mkParser rest (n + 1))) →
  absorbs k e.
Proof.
  intros Hp Hs H. apply absorbs_prefix. intros d n rest Hstop Hd Hd0 Hn. exists 1.
  rewrite Hp, Hs in *. pose proof (print_depth_nonneg k e). apply H; [done|lia..].
Qed.

Lemma absorbs_literal k v : printable (Literal v) → absorbs k (Literal v).
Proof.
  destruct v; cbn; try done; intros _; (eapply parses_leaf; [done|done|]);
    intros d nn rest Hstop Hd Hn; cbn [parse_prefix]; rewrite ensure_depth_ok by done;
    by apply leaf_ok.
Qed.

Lemma absorbs_path k p : printable (Path p) → absorbs k (Path p).
Proof.
  intros [Hp Hl]. eapply parses_leaf; [done|done|].
  intros d n rest Hstop Hd Hn. cbn [parse_prefix]. rewrite ensure_depth_ok by done.
  cbn. assert (parse_path p (mkParser rest n) = Ok (Path p, mkParser rest (n + 1))) as Hpath.
  { unfold parse_path. rewrite Hp, (proj2 (Z.ltb_ge _ _) Hl). by apply leaf_ok. }
  unfold peek, stop in *. cbn. destruct rest as [|[] rest]; cbn in *; try done; apply Hpath.
Qed.

Lemma absorbs_unary k o e :
  (o = OpNot ∨ o = OpMinus) → parses 13 e → absorbs k (Unary o e).
Proof.
  intros Ho He. apply absorbs_prefix. intros d n rest Hstop Hd Hd0 Hn. cbn in Hd, Hn.
  pose proof (print_depth_nonneg 13 e).
  destruct (He (d + 1)%Z n rest) as [F HF]; [by eapply stop_13|lia..|].
  exists (S F). cbn [print_at parse_prefix app]. rewrite ensure_depth_ok by lia.
  cbn [next]. destruct Ho as [-> | ->]; cbn; rewrite next_depth_ok by lia; cbn;
    unfold advance; cbn; rewrite HF; cbn; rewrite reserve_node_ok by lia; cbn;
    by replace (n + ast_size e + 1)%Z with (n + (1 + ast_size e))%Z by lia.
Qed.

Lemma print_binary k o l r lp rp :
  infix_binding_power o = Some (lp, rp) → (k ≤ lp)%Z →
  print_at k (Binary o l r) = print_at lp l ++ TOperator o :: print_at rp r ∧
  print_depth k (Binary o l r) = Z.max (print_depth lp l) (1 + print_depth rp r).
Proof. intros Ho Hk. cbn. rewrite Ho. by rewrite (proj2 (Z.ltb_ge _ _) Hk). Qed.

Lemma print_paren k o l r lp rp :
  infix_binding_power o = Some (lp, rp) → (lp < k)%Z →
  print_at k (Binary o l r) = TLeftParen :: print_at 0 (Binary o l r) ++ [TRightParen] ∧
  print_depth k (Binary o l r) = (1 + print_depth 0 (Binary o l r))%Z.
Proof.
  intros Ho Hk. cbn. rewrite Ho. rewrite (proj2 (Z.ltb_lt _ _) Hk).
  apply binding_powers in Ho. by rewrite (proj2 (Z.ltb_ge lp 0)) by lia.
Qed.

Lemma absorbs_infix k o l r lp rp :
  infix_binding_power o = Some (lp, rp) → (k ≤ lp)%Z →
  absorbs lp l → parses rp r → absorbs k (Binary o l r).
Proof.
  intros Ho Hk Hl Hr m d n rest R Hm Hstop Hd Hd0 Hn HR [F1 HF1].
  destruct (print_binary k o l r lp rp Ho Hk) as [-> Hdep]. rewrite Hdep in Hd.
  destruct (binding_powers _ _ _ Ho) as (? & Hrp & ?).
  cbn [ast_size] in *. pose proof (ast_size_pos r).
  pose proof (print_depth_nonneg rp r). rewrite <-app_assoc. cbn [app].
  apply Hl; try done; try lia.
  { unfold stop. cbn. rewrite Ho. lia. }
  destruct (Hr (d + 1)%Z (n + ast_size l)%Z rest) as [F2 HF2]; try lia.
  { apply (stop_weaken (k + 1)); [lia|done]. }
  exists (S (max F1 F2)). rewrite infix_loop_S. cbn [peek head p_rest default].
  unfold peek. cbn. rewrite Ho, (proj2 (Z.ltb_ge lp m)) by lia.
  rewrite next_depth_ok by lia. cbn. unfold advance; cbn.
  rewrite (expr_raise F2 _ _ _ _ _ HF2) by (done || lia). cbn.
  rewrite reserve_node_ok by lia. cbn. apply (infix_raise F1); [|done|lia].
  rewrite <-HF1. do 2 f_equal. lia.
Qed.

Lemma absorbs_binary k o l r :
  o ≠ OpNot → (∀ k, absorbs k l) → (∀ k, absorbs k r) → absorbs k (Binary o l r).
Proof.
  intros Ho Hl Hr. destruct (infix_binding_power o) as [[lp rp]|] eqn:E; [|by destruct o].
  assert (Hinfix : ∀ k, (k ≤ lp)%Z → absorbs k (Binary o l r)).
  { intros. eapply absorbs_infix; [done|done|done|by apply absorbs_parses]. }
  destruct (decide (k ≤ lp)%Z) as [Hk|Hk]; [by apply Hinfix|].
  apply absorbs_prefix. intros d n rest Hstop Hd Hd0 Hn.
  destruct (print_paren k o l r lp rp E ltac:(lia)) as [-> Hdep]. rewrite Hdep in Hd.
  destruct (binding_powers _ _ _ E) as (? & _).
  pose proof (print_depth_nonneg 0 (Binary o l r)).
  destruct (absorbs_parses 0 _ (Hinfix 0%Z ltac:(lia)) (d + 1)%Z n (TRightParen :: rest))
    as [F HF]; [done|lia..|].
  exists (S F). cbn [app parse_prefix]. rewrite ensure_depth_ok by lia. cbn [mbind result_bind].
  cbn [next peek p_rest head default]. unfold next, peek, advance. cbn [p_rest p_nodes head default tail].
  cbn [from_option id]. rewrite next_depth_ok by lia. cbn [mbind result_bind].
  rewrite <-app_assoc. cbn [app]. rewrite HF. by cbn.
Qed.

(** The comma-separated lists of arrays and calls. *)
Lemma array_loop_parses items :
  items ≠ [] → Forall (parses 0) items →
  ∀ acc d n rest, (0 ≤ d)%Z →
    Forall (λ i, d + 1 + print_depth 0 i ≤ MAX_EXPRESSION_DEPTH)%Z items →
    (n + asts_size items ≤ MAX_EXPRESSION_NODES)%Z →
    ∃ F, array_loop F d acc
           (mkParser (commas (map (print_at 0) items) ++ TRightBracket :: rest) n)
         = Ok (acc ++ items, mkParser rest (n + asts_size items)).
Proof.
  intros Hne Hp. induction Hp as [|i items Hi Hp IH]; [done|].
  intros acc d n rest Hd0 [Hd Hds]%Forall_cons Hn. rewrite asts_size_cons in *.
  pose proof (asts_size_nonneg items). pose proof (print_depth_nonneg 0 i).
  destruct items as [|j items].
  - change (asts_size []) with 0%Z in *.
    destruct (Hi (d + 1)%Z n (TRightBracket :: rest)) as [F HF]; [done|lia..|].
    exists (S F). cbn [commas map array_loop]. rewrite next_depth_ok by lia.
    cbn [mbind result_bind]. by rewrite HF, Z.add_0_r.
  - destruct (Hi (d + 1)%Z n
      (TComma :: commas (map (print_at 0) (j :: items)) ++ TRightBracket :: rest))
      as [F1 HF1]; [done|lia..|].
    destruct (IH ltac:(done) (acc ++ [i]) d (n + ast_size i)%Z rest) as [F2 HF2]; [done|done|lia|].
    exists (S (max F1 F2)). cbn [array_loop]. rewrite next_depth_ok by lia. cbn [mbind result_bind].
    replace (commas (map (print_at 0) (i :: j :: items)) ++ TRightBracket :: rest)
      with (print_at 0 i ++ TComma :: commas (map (print_at 0) (j :: items)) ++ TRightBracket :: rest)
      by (cbn; by rewrite <-app_assoc).
    rewrite (expr_raise F1 _ _ _ _ _ HF1) by (done || lia). cbn [mbind result_bind next].
    unfold next, peek, advance. cbn [p_rest p_nodes head default tail from_option id].
    destruct (parser_mono_all F2 (max F1 F2) ltac:(lia)) as (_ & _ & _ & Hm & _).
    rewrite Hm, HF2 by congruence. rewrite <-app_assoc. cbn. do 3 f_equal. lia.
Qed.

Lemma call_loop_parses args :
  args ≠ [] → Forall (parses 0) args →
  ∀ acc d n rest, (0 ≤ d)%Z →
    Forall (λ i, d + 1 + print_depth 0 i ≤ MAX_EXPRESSION_DEPTH)%Z args →
    (n + asts_size args ≤ MAX_EXPRESSION_NODES)%Z →
    ∃ F, call_loop F d acc
           (mkParser (commas (map (print_at 0) args) ++ TRightParen :: rest) n)
         = Ok (acc ++ args, mkParser rest (n + asts_size args)).
Proof.
  intros Hne Hp. induction Hp as [|i args Hi Hp IH]; [done|].
  intros acc d n rest Hd0 [Hd Hds]%Forall_cons Hn. rewrite asts_size_cons in *.
  pose proof (asts_size_nonneg args). pose proof (print_depth_nonneg 0 i).
  destruct args as [|j args].
  - change (asts_size []) with 0%Z in *.
    destruct (Hi (d + 1)%Z n (TRightParen :: rest)) as [F HF]; [done|lia..|].
    exists (S F). cbn [commas map call_loop]. rewrite next_depth_ok by lia.
    cbn [mbind result_bind]. by rewrite HF, Z.add_0_r.
  - destruct (Hi (d + 1)%Z n
      (TComma :: commas (map (print_at 0) (j :: args)) ++ TRightParen :: rest))
      as [F1 HF1]; [done|lia..|].
    destruct (IH ltac:(done) (acc ++ [i]) d (n + ast_size i)%Z rest) as [F2 HF2]; [done|done|lia|].
    exists (S (max F1 F2)). cbn [call_loop]. rewrite next_depth_ok by lia. cbn [mbind result_bind].
    replace (commas (map (print_at 0) (i :: j :: args)) ++ TRightParen :: rest)
      with (print_at 0 i ++ TComma :: commas (map (print_at 0) (j :: args)) ++ TRightParen :: rest)
      by (cbn; by rewrite <-app_assoc).
    rewrite (expr_raise F1 _ _ _ _ _ HF1) by (done || lia). cbn [mbind result_bind next].
    unfold next, peek, advance. cbn [p_rest p_nodes head default tail from_option id].
    destruct (parser_mono_all F2 (max F1 F2) ltac:(lia)) as (_ & _ & _ & _ & _ & Hm).
    rewrite Hm, HF2 by congruence. rewrite <-app_assoc. cbn. do 3 f_equal. lia.
Qed.

Lemma commas_head (items : list ExpressionNode) rest :
  items ≠ [] → Forall printable items →
  ∃ t ts, commas (map (print_at 0) items) ++ rest = t :: ts ∧
          t ≠ TRightBracket ∧ t ≠ TRightParen.
Proof.
  intros Hne Hp.
  destruct items as [|i items]; [done|]. apply Forall_cons in Hp as [Hi _].
  destruct (print_head 0 i Hi) as (t & ts & E & ? & ?).
  destruct items; cbn; rewrite E; cbn; eauto.
Qed.

Lemma list_depth (c d base : Z) (items : list ExpressionNode) :
  (d + fold_right (λ i n, Z.max (c + print_depth 0 i) n) base items
     ≤ MAX_EXPRESSION_DEPTH)%Z →
  (d + base ≤ MAX_EXPRESSION_DEPTH)%Z ∧
  Forall (λ i, d + c + print_depth 0 i ≤ MAX_EXPRESSION_DEPTH)%Z items.
Proof.
  induction items as [|i items IH]; cbn; [intros; split; [lia|constructor]|].
  intros H. destruct IH as [? ?]; [lia|]. split; [done|]. constructor; [lia|done].
Qed.

Lemma absorbs_array k items :
  Forall printable items → Forall (parses 0) items → absorbs k (Array items).
Proof.
  intros Hpr Hp. apply absorbs_prefix. intros d n rest Hstop Hd Hd0 Hn.
  cbn in Hd. apply list_depth in Hd as [Hd Hds].
  cbn [ast_size] in Hn |- *. fold (asts_size items) in *.
  pose proof (asts_size_nonneg items).
  destruct (decide (items = [])) as [->|Hne].
  - exists 1. cbn [parse_prefix]. rewrite ensure_depth_ok by lia. cbn. by apply leaf_ok.
  - destruct (array_loop_parses items Hne Hp [] d n rest) as [F HF]; [done|done|lia|].
    exists (S F). cbn [parse_prefix print_at]. rewrite ensure_depth_ok by lia.
    cbn [mbind result_bind app]. unfold next, peek, advance.
    cbn [p_rest p_nodes head tail from_option id]. rewrite <-app_assoc. cbn [app].
    destruct (commas_head items (TRightBracket :: rest) Hne Hpr) as (t & ts & E & Ht & _).
    rewrite E in *. cbn [head from_option id]. rewrite HF. cbn [mbind result_bind].
    rewrite leaf_ok by lia.
    replace (n + asts_size items + 1)%Z with (n + (1 + asts_size items))%Z by lia.
    by destruct t.
Qed.

Lemma absorbs_call k name args :
  Forall printable args → Forall (parses 0) args → absorbs k (Call name args).
Proof.
  intros Hpr Hp. apply absorbs_prefix. intros d n rest Hstop Hd Hd0 Hn.
  cbn in Hd. apply list_depth in Hd as [Hd Hds].
  cbn [ast_size] in Hn |- *. fold (asts_size args) in *.
  pose proof (asts_size_nonneg args).
  destruct (decide (args = [])) as [->|Hne].
  - exists 2. cbn [parse_prefix]. rewrite ensure_depth_ok by lia. cbn.
    rewrite next_depth_ok by lia. cbn. rewrite ensure_depth_ok by lia. cbn.
    by apply leaf_ok.
  - destruct (call_loop_parses args Hne Hp [] (d + 1)%Z n rest) as [F HF]; [lia| |lia|].
    { eapply Forall_impl; [exact Hds|]. cbn. lia. }
    exists (S (S F)). cbn [parse_prefix print_at]. rewrite ensure_depth_ok by lia.
    cbn [mbind result_bind app]. unfold next, peek, advance.
    cbn [p_rest p_nodes head tail from_option id]. rewrite next_depth_ok by lia.
    cbn [mbind result_bind parse_call]. rewrite ensure_depth_ok by lia.
    cbn [mbind result_bind]. rewrite <-app_assoc. cbn [app]. unfold peek. cbn [p_rest].
    destruct (commas_head args (TRightParen :: rest) Hne Hpr) as (t & ts & E & _ & Ht).
    rewrite E in *. cbn [head from_option id]. rewrite HF. cbn [mbind result_bind].
    rewrite leaf_ok by lia.
    replace (n + asts_size args + 1)%Z with (n + (1 + asts_size args))%Z by lia.
    by destruct t.
Qed.

Lemma printable_absorbs e : printable e → ∀ k, absorbs k e.
Proof.
  induction e as [v|p|items IH|o e IH|o l r IHl IHr|name args IH]
    using ExpressionNode_ind'; intros Hp k.
  - by apply absorbs_literal.
  - by apply absorbs_path.
  - apply printable_list in Hp. apply absorbs_array; [done|].
    rewrite Forall_forall in *. intros i Hi. apply absorbs_parses, IH; [done|by apply Hp].
  - destruct Hp as [Ho Hp]. apply absorbs_unary; [done|]. by apply absorbs_parses, IH.
  - destruct Hp as (Ho & Hl & Hr). apply absorbs_binary; [done|by apply IHl|by apply IHr].
  - apply printable_list in Hp. apply absorbs_call; [done|].
    rewrite Forall_forall in *. intros i Hi. apply absorbs_parses, IH; [done|by apply Hp].
Qed.

Lemma parse_printed e :
  printable e → (print_depth 0 e ≤ MAX_EXPRESSION_DEPTH)%Z →
  (ast_size e ≤ MAX_EXPRESSION_NODES)%Z →
  parse_expression 0 (parser_new (print_at 0 e ++ [TEnd]))
  = Ok (e, mkParser [TEnd] (ast_size e)).
Proof.
  intros Hp Hd Hn. set (p := parser_new (print_at 0 e ++ [TEnd])).
  destruct (absorbs_parses 0 e (printable_absorbs e Hp 0) 0%Z 0%Z [TEnd]) as [F HF];
    [done|lia..|].
  unfold parse_expression. set (G := parse_fuel (p_rest p)).
  assert (HG : parse_expression_at G 0 0 p ≠ Err Diverged)
    by (by apply parser_total_all).
  destruct (parser_mono_all G (max F G) ltac:(lia)) as [Hm _].
  rewrite <-(Hm 0%Z 0%Z p HG). by apply (expr_raise F); [exact HF|done|lia].
Qed.

(** ** Doubles as exact decimals

    A double is an integer multiple of a power of two, so it is also an integer
    times a power of ten, and reading that decimal rounds nothing away. *)

Section exact_decimals.
#[local] Open Scope Z_scope.
Lemma digits2_log2 m : Zpos (digits2_pos m) = Z.log2 (Zpos m) + 1.
Proof.
  induction m as [m IH|m IH|]; cbn [digits2_pos]; [| |done]; rewrite Pos2Z.inj_succ, IH.
  - change (Zpos m~1) with (2 * Zpos m + 1). rewrite Z.log2_succ_double by lia. lia.
  - change (Zpos m~0) with (2 * Zpos m). rewrite Z.log2_double by lia. lia.
Qed.
Lemma Zdigits2_log2 z : 0 < z → Zdigits2 z = Z.log2 z + 1.
Proof. destruct z as [|m|m]; [lia| |lia]. intros _. apply digits2_log2. Qed.
Lemma shr_1_double z : 0 < z → shr_1 (Build_shr_record (2 * z) false false) = Build_shr_record z false false.
Proof. by destruct z. Qed.
Lemma iter_shr p : ∀ z, 0 < z →
  iter_pos shr_1 p (Build_shr_record (z * 2 ^ Zpos p) false false) = Build_shr_record z false false.
Proof.
  induction p as [p IH|p IH|]; intros z Hz; cbn [iter_pos].
  - assert (z * 2 ^ Zpos p~1 = 2 * (z * 2 ^ Zpos p * 2 ^ Zpos p)) as ->.
    { replace (Zpos p~1) with (1 + Zpos p + Zpos p) by lia. rewrite !Z.pow_add_r by lia. lia. }
    rewrite shr_1_double by nia. by rewrite !IH by nia.
  - assert (z * 2 ^ Zpos p~0 = z * 2 ^ Zpos p * 2 ^ Zpos p) as ->.
    { replace (Zpos p~0) with (Zpos p + Zpos p) by lia. rewrite !Z.pow_add_r by lia. lia. }
    by rewrite !IH by nia.
  - change (2 ^ 1) with 2. rewrite Z.mul_comm. by apply shr_1_double.
Qed.
Lemma bounded_spec m e : bounded prec emax m e = true →
  fexp prec emax (Z.log2 (Zpos m) + 1 + e) = e ∧ e <= emax - prec.
Proof.
  unfold bounded, canonical_mantissa. rewrite digits2_log2.
  intros [H1%Z.eqb_eq H2%Z.leb_le]%andb_prop. done.
Qed.
(** Dropping zero bits is exact: a double is found from any of its multiples. *)
Lemma round_exact m e j : bounded prec emax m e = true → 0 <= j →
  binary_round_aux prec emax false (Zpos m * 2 ^ j) (e - j) loc_Exact = S754_finite false m e.
Proof.
  intros [Hf He]%bounded_spec Hj. unfold binary_round_aux, shr_fexp at 1.
  rewrite Zdigits2_log2, Z.log2_mul_pow2 by (lia || nia).
  replace (j + Z.log2 (Zpos m) + 1 + (e - j)) with (Z.log2 (Zpos m) + 1 + e) by lia.
  rewrite Hf. replace (e - (e - j)) with j by lia. cbn [shr_record_of_loc].
  assert (shr (Build_shr_record (Zpos m * 2 ^ j) false false) (e - j) j
          = (Build_shr_record (Zpos m) false false, e)) as ->.
  { destruct j as [|p|p]; [cbn; f_equal; [f_equal|]; lia| |lia]. cbn [shr]. rewrite iter_shr by lia.
    f_equal. lia. }
  cbn [shr_m loc_of_shr_record round_nearest_even]. unfold shr_fexp.
  rewrite Zdigits2_log2, Hf, Z.sub_diag by lia. cbn [shr shr_record_of_loc shr_m].
  by rewrite (proj2 (Z.leb_le _ _) He).
Qed.
Lemma fexp_mono a b : a <= b → fexp prec emax a <= fexp prec emax b.
Proof. unfold fexp. lia. Qed.

Lemma pos_eq z : 0 < z → ∃ p, z = Zpos p.
Proof. destruct z; [done|by eexists|done]. Qed.
Lemma decimal_pos m e : bounded prec emax m e = true → 0 <= e →
  f64_of_decimal (Zpos m * 2 ^ e) 0 = S754_finite false m e.
Proof.
  intros Hb He. pose proof (round_exact m e e Hb He) as R. apply bounded_spec in Hb as [Hf _].
  unfold f64_of_decimal. destruct (pos_eq (Zpos m * 2 ^ e)) as [p Ep]; [nia|]. rewrite Ep.
  change (0 <=? 0) with true. cbn iota. rewrite Z.mul_1_r. cbn [binary_normalize]. unfold binary_round, shl_align.
  rewrite digits2_log2, <-Ep, Z.log2_mul_pow2 by lia.
  replace (e + Z.log2 (Zpos m) + 1 + 0) with (Z.log2 (Zpos m) + 1 + e) by lia. rewrite Hf, Z.sub_0_r.
  rewrite Z.sub_diag, Ep in R. destruct e; [done|done|lia].
Qed.
Lemma decimal_neg m k : bounded prec emax m (- k) = true → 0 < k →
  f64_of_decimal (Zpos m * 5 ^ k) (- k) = S754_finite false m (- k).
Proof.
  intros Hb Hk. pose proof (λ j, round_exact m (- k) j Hb) as R. apply bounded_spec in Hb as [Hf _].
  assert (H5 : 0 < 5 ^ k) by (apply Z.pow_pos_nonneg; lia).
  assert (H2 : 0 < 2 ^ k) by (apply Z.pow_pos_nonneg; lia).
  assert (H10 : 10 ^ k = 5 ^ k * 2 ^ k) by (change 10 with (5 * 2); apply Z.pow_mul_l).
  unfold f64_of_decimal. destruct (pos_eq (Zpos m * 5 ^ k)) as [p Ep]; [nia|]. rewrite Ep.
  rewrite (proj2 (Z.leb_gt 0 (- k))), Z.opp_involutive by lia. unfold SFdiv_core_binary. rewrite <-Ep.
  rewrite !Zdigits2_log2, !Z.add_0_r, Z.sub_0_r by (rewrite ?H10; nia).
  set (e' := Z.min (fexp prec emax _) 0).
  assert (He' : e' <= - k).
  { unfold e'. etransitivity; [apply Z.le_min_l|]. rewrite <-Hf. apply fexp_mono.
    rewrite H10, Z.log2_mul_pow2 by lia. pose proof (Z.log2_mul_above (Zpos m) (5 ^ k)). lia. }
  clearbody e'. destruct (0 - e') as [|s'|s'] eqn:Es; [lia| |lia].
  set (sh := Zpos s') in *. rewrite Z.shiftl_mul_pow2 by lia.
  assert (Hd : Zpos m * 5 ^ k * 2 ^ sh = Zpos m * 2 ^ (sh - k) * 10 ^ k).
  { rewrite H10. replace sh with (sh - k + k) at 1 by lia. rewrite Z.pow_add_r by lia. lia. }
  rewrite Hd.
  assert (Z.div_eucl (Zpos m * 2 ^ (sh - k) * 10 ^ k) (10 ^ k) = (Zpos m * 2 ^ (sh - k), 0)) as ->.
  { rewrite (surjective_pairing (Z.div_eucl _ _)). f_equal; [apply Z.div_mul; nia|].
    apply (Z.mod_mul (Zpos m * 2 ^ (sh - k))). nia. }
  assert (new_location (10 ^ k) 0 = loc_Exact) as -> by (unfold new_location; by destruct (Z.even _)).
  replace e' with (- k - (sh - k)) by lia. apply R. lia.
Qed.
End exact_decimals.

(** ** Rendering tokens as text *)

Definition escape_char (c : char) : str :=
  if (c =? 34)%Z || (c =? 92)%Z then [92%Z; c] else [c].

(** The exact decimal form of a double that is not negative. *)
Definition render_f64 (f : f64) : str :=
  match f with
  | S754_zero false => s"0e0"
  | S754_finite false m e =>
      if (0 <=? e)%Z then show_uint (Zpos m * 2 ^ e) ++ s"e0"
      else show_uint (Zpos m * 5 ^ (- e)) ++ s"e-" ++ show_uint (- e)
  | _ => []
  end.
Definition render_token (t : Token) : str :=
  match t with
  | TIdentifier x => x
  | TString x => 34%Z :: flat_map escape_char x ++ [34%Z]
  | TNumber (PosInt n) => show_uint n
  | TNumber (Float f) => render_f64 f
  | TNumber (NegInt _) | TEnd => []
  | TBool b => if b then s"true" else s"false"
  | TNull => s"null"
  | TOperator o => op_str o
  | TLeftParen => s"("
  | TRightParen => s")"
  | TLeftBracket => s"["
  | TRightBracket => s"]"
  | TComma => s","
  end.
Definition render (ts : list Token) : str := flat_map (λ t, render_token t ++ [32%Z]) ts.

(** The tokens a source text can hold: words the identifier scanner accepts
    whole and that are no keyword, every string, every [u64] and every finite
    double that is not negative. A number literal has no sign, so it is never
    negative. *)
Definition literal_f64 (f : f64) : Prop :=
  match f with
  | S754_zero false => True
  | S754_finite false m e => bounded prec emax m e = true
  | _ => False
  end.
Definition lexable (t : Token) : Prop :=
  match t with
  | TIdentifier [] => False
  | TIdentifier (c :: r) =>
      is_ascii_alphabetic c || (c =? 95)%Z = true ∧
      scan_identifier [c] false false r = (c :: r, []) ∧
      identifier_token (c :: r) = TIdentifier (c :: r)
  | TNumber (PosInt n) => in_u64 n
  | TNumber (Float f) => literal_f64 f
  | TNumber (NegInt _) | TEnd => False
  | _ => True
  end.

Lemma strip_prefix_space p x rest :
  32%Z ∉ p → strip_prefix p (x ++ 32%Z :: rest) = (λ r, r ++ 32%Z :: rest) <$> strip_prefix p x.
Proof.
  revert x; induction p as [|a p IH]; intros x Hp; [done|].
  destruct x as [|b x]; cbn.
  - by rewrite (proj2 (Z.eqb_neq a 32)) by set_solver.
  - case_if; [apply IH; set_solver|done].
Qed.

Lemma is_outcome_field_space r rest :
  is_outcome_field (r ++ 32%Z :: rest) = is_outcome_field r.
Proof.
  unfold is_outcome_field. cbn [existsb].
  rewrite !strip_prefix_space
    by (apply (bool_decide_unpack _); vm_compute; exact I).
  by destruct (strip_prefix (s"output") r) as [[]|], (strip_prefix (s"status") r) as [[]|],
    (strip_prefix (s"reason") r) as [[]|].
Qed.

Lemma scan_identifier_space acc sp out x y rest :
  scan_identifier acc sp out x = (y, []) →
  scan_identifier acc sp out (x ++ 32%Z :: rest) = (y, 32%Z :: rest).
Proof.
  revert acc sp out; induction x as [|c x IH]; intros acc sp out.
  - intros [= <-]. cbn [scan_identifier app]. by rewrite andb_false_r, andb_false_r.
  - cbn [scan_identifier app]. rewrite is_outcome_field_space.
    repeat (case_if; try (by apply IH); try done).
Qed.

Lemma scan_string_escape acc x rest :
  scan_string 34 acc (flat_map escape_char x ++ 34%Z :: rest) = Ok (reverse acc ++ x, rest).
Proof.
  revert acc; induction x as [|c x IH]; intros acc.
  - cbn. by rewrite app_nil_r.
  - cbn [flat_map]. rewrite <-app_assoc. unfold escape_char at 1.
    destruct (Z.eqb_spec c 34) as [->|H34]; [|destruct (Z.eqb_spec c 92) as [->|H92]].
    + cbn -[reverse]. by rewrite IH, reverse_cons, <-app_assoc.
    + cbn -[reverse]. by rewrite IH, reverse_cons, <-app_assoc.
    + cbn [orb app scan_string].
      rewrite (proj2 (Z.eqb_neq c 34)), (proj2 (Z.eqb_neq c 92)) by done.
      by rewrite IH, reverse_cons, <-app_assoc.
Qed.

Lemma scan_number_digits prev ds rest :
  Forall (λ c, is_ascii_digit c = true) ds →
  scan_number prev (ds ++ 32%Z :: rest) = (ds, 32%Z :: rest).
Proof.
  intros H; revert prev; induction H as [|c ds Hc H IH]; intros prev; [done|].
  cbn [scan_number app]. rewrite Hc, IH. cbn [orb].
  assert (is_sign_char c = false) as ->; [|done].
  unfold is_ascii_digit, is_sign_char in *. lia.
Qed.

Lemma digits_free ds c :
  Forall (λ c, is_ascii_digit c = true) ds → is_ascii_digit c = false →
  contains_char ds c = false.
Proof.
  intros H Hc. apply not_true_iff_false. rewrite contains_char_spec. intros Hin.
  rewrite Forall_forall in H. specialize (H c Hin). congruence.
Qed.

Lemma parse_number_show n : in_u64 n → parse_number_literal (show_uint n) = Ok (PosInt n).
Proof.
  intros [Hn0 Hn]. destruct (show_uint_spec n Hn0) as (Hd & Hv & Hz).
  unfold parse_number_literal. rewrite !digits_free by done. cbn [orb].
  unfold json_integer_literal. rewrite Hv, (proj2 (Z.leb_le _ _) Hn).
  destruct Hz as [->|(c & r & -> & Hc)]; [done|].
  destruct c as [|p|p]; try done.
  by repeat (destruct p as [p|p|]; try done).
Qed.

Lemma take_digits_app ds c r : Forall (λ c, is_ascii_digit c = true) ds → is_ascii_digit c = false →
  take_digits (ds ++ c :: r) = (ds, c :: r).
Proof.
  intros H Hc. induction H as [|d ds Hd H IH]; cbn [take_digits app]; [by rewrite Hc|]. by rewrite Hd, IH.
Qed.
Lemma parse_f64_exponent ds ex m e : Forall (λ c, is_ascii_digit c = true) ds →
  digits_val ds = Some m → parse_exponent (101%Z :: ex) = Some e →
  parse_f64 (ds ++ 101%Z :: ex) = Some (f64_of_decimal m e).
Proof.
  intros H Hm He. unfold parse_f64. rewrite take_digits_app by done.
  change (101 =? 46)%Z with false. cbn iota. rewrite app_nil_r, Hm, He. by rewrite Z.sub_0_r.
Qed.
(** The exact decimal form is an integer and an exponent, and denotes the
    double. *)
Lemma render_f64_parts f : literal_f64 f → ∃ n ex e,
  render_f64 f = show_uint n ++ 101%Z :: ex ∧ (0 ≤ n)%Z ∧
  (Forall (λ c, is_ascii_digit c = true) ex ∨
   ∃ ds, ex = 45%Z :: ds ∧ Forall (λ c, is_ascii_digit c = true) ds) ∧
  parse_exponent (101%Z :: ex) = Some e ∧ f64_of_decimal n e = f.
Proof.
  destruct f as [[]|b| |[] m e]; cbn [literal_f64 render_f64]; try done.
  - intros _. exists 0%Z, (s"0"), 0%Z. split; [done|]. split; [done|]. split; [|done].
    left. by repeat constructor.
  - intros Hb. destruct (Z.leb_spec 0 e) as [He|He].
    + exists (Zpos m * 2 ^ e)%Z, (s"0"), 0%Z. split; [done|]. split; [nia|].
      split; [left; by repeat constructor|]. split; [done|]. by apply decimal_pos.
    + exists (Zpos m * 5 ^ (- e))%Z, (s"-" ++ show_uint (- e)), e. split; [done|].
      split; [pose proof (Z.pow_nonneg 5 (- e)); nia|].
      destruct (show_uint_spec (- e)) as (Hd & Hv & _); [lia|]. split; [right; by eexists|].
      split; [change (Z.opp <$> digits_val (show_uint (- e)) = Some e); rewrite Hv; cbn; f_equal; lia|].
      rewrite <-(Z.opp_involutive e) in Hb |- * at 2. rewrite <-(Z.opp_involutive e) at 3.
      apply decimal_neg; [done|lia].
Qed.
Lemma scan_number_exponent prev ds ex rest :
  Forall (λ c, is_ascii_digit c = true) ds →
  (Forall (λ c, is_ascii_digit c = true) ex ∨
   ∃ ds, ex = 45%Z :: ds ∧ Forall (λ c, is_ascii_digit c = true) ds) →
  scan_number prev (ds ++ 101%Z :: ex ++ 32%Z :: rest) = (ds ++ 101%Z :: ex, 32%Z :: rest).
Proof.
  intros H Hex; revert prev; induction H as [|c ds Hc H IH]; intros prev; cbn [app scan_number].
  - assert (scan_number 101 (ex ++ 32%Z :: rest) = (ex, 32%Z :: rest)) as ->; [|done].
    destruct Hex as [He|(ds' & -> & He)]; [by apply scan_number_digits|].
    cbn [app scan_number]. by rewrite scan_number_digits.
  - rewrite Hc, IH. cbn [orb].
    assert (is_sign_char c = false) as ->; [|done]. unfold is_ascii_digit, is_sign_char in *. lia.
Qed.
Lemma parse_number_f64 f : literal_f64 f → parse_number_literal (render_f64 f) = Ok (Float f).
Proof.
  intros Hf. destruct (render_f64_parts f Hf) as (n & ex & e & E & Hn & _ & He & Hd). rewrite E.
  unfold parse_number_literal.
  assert (contains_char (show_uint n ++ 101%Z :: ex) 101 = true) as ->
    by (apply contains_char_spec; set_solver).
  rewrite orb_true_r. cbn [orb]. unfold parse_float_literal.
  destruct (show_uint_spec n Hn) as (Hds & Hv & _).
  rewrite (parse_f64_exponent _ _ n e Hds Hv He), Hd. by destruct f as [[]|b| |[] m e'].
Qed.

(** A rendered token and a space are lexed to the token. *)
Lemma lex_one_render pos t rest :
  lexable t →
  ∃ c r, render_token t = c :: r ∧
         lex_one pos c (r ++ 32%Z :: rest) = Ok (Some t, 32%Z :: rest).
Proof.
  destruct t as [x|x|n|b| |o| | | | | |]; intros H;
    try (eexists _, _; split; [reflexivity|]; cbn; done).
  - destruct x as [|c r]; [done|]. destruct H as (Hc & Hs & Hi). exists c, r. split; [done|].
    unfold lex_one. rewrite (scan_identifier_space _ _ _ _ _ rest Hs), Hi, Hc.
    unfold is_whitespace, is_ascii_digit, is_ascii_alphabetic, is_ascii_uppercase,
      is_ascii_lowercase in *.
    repeat (case_if; try done); lia.
  - eexists _, _. split; [reflexivity|]. unfold lex_one. cbn [is_whitespace].
    rewrite <-app_assoc. cbn [app]. 
    change (is_whitespace 34) with false. cbn [Z.eqb Pos.eqb orb].
    by rewrite scan_string_escape.
  - assert (Hn : ∃ c r, render_token (TNumber n) = c :: r ∧ is_ascii_digit c = true ∧
      scan_number c (r ++ 32%Z :: rest) = (r, 32%Z :: rest) ∧ parse_number_literal (c :: r) = Ok n).
    { destruct n as [n|n|f]; [|done|]; cbn [lexable render_token] in *.
      - destruct (show_uint_spec n ltac:(apply H)) as (Hd & Hv & _). pose proof (parse_number_show n H) as Hp.
        destruct (show_uint n) as [|c r]; [done|]. exists c, r. apply Forall_cons in Hd as [Hc Hd].
        by rewrite scan_number_digits.
      - pose proof (parse_number_f64 f H) as Hp.
        destruct (render_f64_parts f H) as (n & ex & e & E & Hn & Hex & _). rewrite E in *.
        destruct (show_uint_spec n Hn) as (Hd & Hv & _). destruct (show_uint n) as [|c r]; [done|].
        apply Forall_cons in Hd as [Hc Hd]. exists c, (r ++ 101%Z :: ex).
        rewrite <-app_assoc. cbn [app]. by rewrite scan_number_exponent. }
    destruct Hn as (c & r & -> & Hc & Hs & Hp). exists c, r. split; [done|]. unfold lex_one.
    rewrite Hs, Hc, Hp. cbn [orb mbind result_bind].
    assert (is_whitespace c = false) as ->
      by (unfold is_whitespace, is_ascii_digit in *; lia).
    by assert ((c =? 39)%Z || (c =? 34)%Z = false) as ->
      by (unfold is_ascii_digit in *; lia).
  - destruct b; eexists _, _; (split; [reflexivity|]); by vm_compute.
  - destruct o; eexists _, _; (split; [reflexivity|]); by vm_compute.
  - done.
Qed.

Lemma lex_loop_render ts : Forall lexable ts →
  ∀ fuel total tokens, length (render ts) ≤ fuel →
  (Z.of_nat (length tokens + length ts) < MAX_EXPRESSION_TOKENS)%Z →
  lex_loop fuel total (render ts) tokens = Ok (tokens ++ ts ++ [TEnd]).
Proof.
  induction 1 as [|t ts Ht Hts IH]; intros fuel total tokens Hf Hlen.
  - cbn in *. destruct fuel; cbn; unfold push_token;
      by rewrite (proj2 (Z.leb_gt _ _)) by lia.
  - change (render (t :: ts)) with ((render_token t ++ [32%Z]) ++ render ts) in *.
    rewrite <-app_assoc in *. cbn [app] in *. 
    destruct (lex_one_render (total - Z.of_nat (length (render_token t ++ 32%Z :: render ts)))
      t (render ts) Ht) as (c & r & E & Hl).
    rewrite E in *. cbn [app length] in *. rewrite length_app in Hf. cbn [length] in Hf.
    destruct fuel as [|fuel]; [lia|]. cbn [lex_loop app length]. rewrite Hl.
    cbn [mbind result_bind].
    assert (push_token tokens t = Ok (tokens ++ [t])) as ->.
    { unfold push_token. by rewrite (proj2 (Z.leb_gt _ _)) by lia. }
    cbn [mbind result_bind]. destruct fuel as [|fuel]; [lia|]. cbn [lex_loop].
    change (lex_one _ 32%Z (render ts)) with (Ok (E:=ExprError) (None (A:=Token), render ts)).
    cbn [mbind result_bind]. rewrite IH.
    + by rewrite <-app_assoc.
    + lia.
    + rewrite length_app. cbn. lia.
Qed.

(** A tree of what source text can hold, whose printed form is within the limits
    on depth, nodes, tokens and bytes. *)
Definition expressible (e : ExpressionNode) : Prop :=
  printable e ∧ Forall lexable (print_at 0 e) ∧
  (print_depth 0 e ≤ MAX_EXPRESSION_DEPTH)%Z ∧ (ast_size e ≤ MAX_EXPRESSION_NODES)%Z ∧
  (Z.of_nat (length (print_at 0 e)) < MAX_EXPRESSION_TOKENS)%Z ∧
  (str_len (render (print_at 0 e)) ≤ MAX_EXPRESSION_BYTES)%Z.

(** C20: parsing inverts printing. A tree whose leaves source text can hold (paths
    and names the scanner accepts whole, booleans, null, every string, every
    unsigned 64-bit integer and every finite double that is not negative, which
    is printed as its exact decimal), printed with the least parentheses its
    operators' precedence and left associativity require, is parsed back to
    exactly that tree by the lexer and the parser, when the printed form is
    within their limits on depth, nodes, tokens and bytes. *)
Theorem parse_source_print (e : ExpressionNode) :
  expressible e → parse_source (render (print_at 0 e)) = Ok e.
Proof.
  intros (Hp & Hl & Hd & Hn & Ht & Hb). unfold parse_source, tokenize, ensure_expression_bytes.
  rewrite (proj2 (Z.ltb_ge _ _) Hb). cbn [mbind result_bind].
  rewrite lex_loop_render by (done || cbn; lia).
  cbn [mbind result_bind app]. rewrite parse_printed by done. reflexivity.
Qed.

(** [inputs.a - (steps.r1@v/2.output.b - 1.5) * 3 == !f([item, "x"])], where [1.5]
    is printed as an integer of 53 decimals and its power of ten. *)
Definition one_and_half : f64 := f64_of_decimal 15 (-1).
Lemma parse_source_print_witness :
  let e := Binary OpEq
             (Binary OpMinus (Path (s"inputs.a"))
                (Binary OpMul (Binary OpMinus (Path (s"steps.r1@v/2.output.b")) (Literal (VNumber (Float one_and_half))))
                   (Literal (VNumber (PosInt 3)))))
             (Unary OpNot (Call (s"f") [Array [Path (s"item"); Literal (VString (s"x"))]])) in
  expressible e ∧ parse_source (render (print_at 0 e)) = Ok e.
Proof.
  match goal with |- let e := ?x in _ => assert (H : expressible x) end.
  { split; [vm_compute; repeat match goal with
      | |- _ ∧ _ => split | |- _ ∨ _ => by left | |- _ = _ => reflexivity
      | |- True => exact I | |- _ → False => discriminate end|].
    split; [apply List.Forall_forall; intros t Ht; vm_compute in Ht;
            repeat destruct Ht as [<-|Ht]; try done; by vm_compute; repeat split|].
    repeat split; by vm_compute. }
  split; [exact H|]. exact (parse_source_print _ H).
Defined.
