(* ===== verification/PathPolicy.v ===== *)
(** * Portable relative paths

    [crates/policy/src/path.rs]: the syntactic test every workspace, archive
    and manifest path passes, prefix containment, and the validation of a set
    of paths against collisions.  [path_collision_key] is computed by Unicode
    crates; here it is a parameter with the one law the code relies on. *)

From S2P Require Import Prelude Str.
From Stdlib Require Import Sorted.

Definition superscript_stems : list str :=
  [ s"COM" ++ [0xB9%Z]; s"COM" ++ [0xB2%Z]; s"COM" ++ [0xB3%Z];
    s"LPT" ++ [0xB9%Z]; s"LPT" ++ [0xB2%Z]; s"LPT" ++ [0xB3%Z] ].

Definition WINDOWS_RESERVED_STEMS : list str :=
  [ s"CON"; s"PRN"; s"AUX"; s"NUL"; s"CONIN$"; s"CONOUT$";
    s"COM1"; s"COM2"; s"COM3"; s"COM4"; s"COM5"; s"COM6"; s"COM7"; s"COM8"; s"COM9";
    s"LPT1"; s"LPT2"; s"LPT3"; s"LPT4"; s"LPT5"; s"LPT6"; s"LPT7"; s"LPT8"; s"LPT9" ]
  ++ superscript_stems.

Definition contains_any (x : str) (cs : list char) : bool := existsb (contains_char x) cs.

Definition is_portable_component (part : str) (wildcards_allowed : bool) : bool :=
  if (part =s []) || (part =s s".") || (part =s s"..") || contains_char part 58
     || (ends_with part (s".") || ends_with part (s" "))
     || existsb (λ c, (c <? 0x20)%Z || (c =? 0x7f)%Z) part
     || contains_any part [60%Z; 62%Z; 34%Z; 124%Z]
     || negb wildcards_allowed && contains_any part [63%Z; 42%Z]
  then false
  else
    let stem := default part (head (split_char 46 part)) in
    negb (existsb (eq_ignore_ascii_case stem) WINDOWS_RESERVED_STEMS).

Definition is_safe_relative (path : str) (w : bool) : bool :=
  negb (contains_char path 92)
  && forallb (λ p, is_portable_component p w) (split_char 47 path).

Definition is_safe_relative_path (path : str) : bool := is_safe_relative path false.
Definition is_safe_glob_pattern (pattern : str) : bool := is_safe_relative pattern true.
Definition is_safe_path_component (path : str) : bool :=
  is_safe_relative_path path && negb (contains_char path 47).

Definition normalize_path_prefix (prefix : str) : option str :=
  let normalized := default prefix (strip_suffix (s"/") prefix) in
  if is_safe_relative_path normalized then Some normalized else None.

Definition path_is_within_prefix (path prefix : str) : bool :=
  match normalize_path_prefix prefix with
  | None => false
  | Some prefix =>
      is_safe_relative_path path
      && match strip_prefix prefix path with
         | Some suffix => (suffix =s []) || starts_with suffix (s"/")
         | None => false
         end
  end.

(** ** Sets of paths *)

(** [Iterator::cmp] of two split paths. *)
Fixpoint parts_cmp (a b : list str) : comparison :=
  match a, b with
  | [], [] => Eq
  | [], _ => Lt
  | _, [] => Gt
  | x :: a, y :: b => match str_cmp x y with Eq => parts_cmp a b | c => c end
  end.

Record path_entry : Type := mkEntry { e_key : str; e_path : str; e_dir : bool }.
Definition key_parts (e : path_entry) : list str := split_char 47 (e_key e).
Definition path_parts (e : path_entry) : list str := split_char 47 (e_path e).

(** [sort_unstable_by] on the split keys. *)
Fixpoint insert_entry (e : path_entry) (l : list path_entry) : list path_entry :=
  match l with
  | [] => [e]
  | f :: r =>
      match parts_cmp (key_parts e) (key_parts f) with
      | Gt => f :: insert_entry e r
      | _ => e :: l
      end
  end.
Definition sort_entries (l : list path_entry) : list path_entry := foldr insert_entry [] l.

Fixpoint take_while {A} (f : A → bool) (l : list A) : list A :=
  match l with
  | [] => []
  | x :: l => if f x then x :: take_while f l else []
  end.

Inductive path_set_error : Type := UnsafeOrColliding | FileAsDirectory.

Section path_sets.
Variable path_collision_key : str → str.

Definition alias (l r : path_entry) : bool :=
  existsb (λ '((_, lp), (_, rp)), negb (lp =s rp))
    (take_while (λ '((lk, _), (rk, _)), lk =s rk)
       (zip (zip (key_parts l) (path_parts l)) (zip (key_parts r) (path_parts r)))).

(** The loop over [windows(2)]. *)
Fixpoint colliding_neighbours (tree : bool) (l : list path_entry) : bool :=
  match l with
  | x :: (y :: _) as r =>
      (e_key x =s e_key y) || tree && alias x y || colliding_neighbours tree r
  | _ => false
  end.

Definition rsplit_once (c : char) (x : str) : option (str * str) :=
  '(b, a) ← split_once c (reverse x); Some (reverse a, reverse b).

(** [binary_search_by] in the sorted list. *)
Definition search_key (paths : list path_entry) (p : str) : option path_entry :=
  List.find
    (λ e, match parts_cmp (key_parts e) (split_char 47 p) with Eq => true | _ => false end)
    paths.

(** The [while let] loop over the parents of one key; each round shortens
    [parent]. *)
Fixpoint file_parent (fuel : nat) (paths : list path_entry) (parent : str) : bool :=
  match fuel with
  | 0 => false
  | S fuel =>
      match rsplit_once 47 parent with
      | None => false
      | Some (p, _) =>
          match search_key paths p with
          | Some e => negb (e_dir e) || file_parent fuel paths p
          | None => file_parent fuel paths p
          end
      end
  end.

Definition validate_path_set_inner (entries : list (str * bool)) (tree : bool) :
    result path_set_error unit :=
  let paths := map (λ '(p, d), mkEntry (path_collision_key p) p d) entries in
  if existsb (λ e, negb (is_safe_relative_path (e_path e))) paths
  then Err UnsafeOrColliding
  else
    let paths := sort_entries paths in
    if colliding_neighbours tree paths then Err UnsafeOrColliding
    else if existsb (λ e, file_parent (length (e_key e)) paths (e_key e)) paths
    then Err FileAsDirectory
    else Ok ().

Definition validate_path_set (entries : list (str * bool)) := validate_path_set_inner entries false.
Definition validate_path_tree_set (entries : list (str * bool)) := validate_path_set_inner entries true.
End path_sets.

(** ** What a safe path is *)

(** A name every host accepts as one component: not empty, [.] or [..]; no
    control character and none of the characters Win32 refuses or gives a
    meaning; no trailing dot or space; and its stem is no device name. *)
Definition refused_chars : list char :=
  [58%Z; 92%Z; 60%Z; 62%Z; 34%Z; 124%Z; 63%Z; 42%Z].
Record portable_name (x : str) : Prop := {
  pn_nonempty : x ≠ [];
  pn_current : x ≠ s".";
  pn_parent : x ≠ s"..";
  pn_chars : ∀ c, c ∈ x → (0x20 ≤ c)%Z ∧ c ≠ 0x7f%Z ∧ c ∉ refused_chars;
  pn_last : ∀ y, x ≠ y ++ s"." ∧ x ≠ y ++ s" ";
  pn_stem : ∀ stem rest device, (x = stem ∨ x = stem ++ s"." ++ rest) → 46%Z ∉ stem →
    device ∈ WINDOWS_RESERVED_STEMS → to_ascii_lowercase stem ≠ to_ascii_lowercase device;
}.
(** A relative path of such names, separated by single slashes. *)
Definition portable_path (p : str) : Prop :=
  ∃ names, names ≠ [] ∧ p = join (s"/") names ∧
    Forall (λ x, 47%Z ∉ x ∧ portable_name x) names.

Lemma elem_of_join_free c sep names : c ≠ sep → c ∈ join [sep] names ↔ ∃ x, x ∈ names ∧ c ∈ x.
Proof.
  intros Hc. induction names as [|x names IH].
  { cbn. split; [by intros ?%not_elem_of_nil|]. by intros (? & ?%not_elem_of_nil & _). }
  assert (join [sep] (x :: names) = x ++ match names with [] => [] | _ => sep :: join [sep] names end) as ->
    by (destruct names; cbn; by rewrite ?app_nil_r).
  rewrite elem_of_app. setoid_rewrite elem_of_cons. destruct names as [|y names].
  - rewrite elem_of_nil. setoid_rewrite elem_of_nil. naive_solver.
  - rewrite elem_of_cons, IH. naive_solver.
Qed.
Lemma ends_with_spec x p : ends_with x p = true ↔ ∃ y, x = y ++ p.
Proof.
  assert (ends_with x p = starts_with (reverse x) (reverse p)) as ->
    by (unfold ends_with, starts_with, strip_suffix; by destruct (strip_prefix _ _)).
  rewrite starts_with_spec. split.
  - intros [r E]. exists (reverse r). by rewrite <-(reverse_involutive x), E, reverse_app, reverse_involutive.
  - intros [y ->]. exists (reverse y). by rewrite reverse_app.
Qed.
Lemma contains_any_spec x cs : contains_any x cs = true ↔ ∃ c, c ∈ cs ∧ c ∈ x.
Proof.
  unfold contains_any. rewrite existsb_exists. setoid_rewrite <-list_elem_of_In.
  by setoid_rewrite contains_char_spec.
Qed.
(** The stem is what stands before the first dot. *)
Lemma stem_spec x stem rest : (x = stem ∨ x = stem ++ s"." ++ rest) → 46%Z ∉ stem →
  default x (head (split_char 46 x)) = stem.
Proof.
  intros [->| ->] Hf; [by rewrite split_char_free|].
  change (s"." ++ rest) with (46%Z :: rest). by rewrite split_char_app, split_char_free.
Qed.
Lemma stem_of x : ∃ rest, (x = default x (head (split_char 46 x)) ∨
  x = default x (head (split_char 46 x)) ++ s"." ++ rest) ∧ 46%Z ∉ default x (head (split_char 46 x)).
Proof.
  pose proof (join_split_char 46 x) as E. pose proof (split_char_sep_free 46 x) as Hf.
  destruct (split_char 46 x) as [|y parts] eqn:Es; [by destruct (split_char_nonempty 46 x)|].
  cbn [head default]. exists (join [46%Z] parts). split; [|apply Hf; by left].
  destruct parts; [left|right]; by rewrite <-E.
Qed.
Lemma portable_component_spec x : 92%Z ∉ x → is_portable_component x false = true ↔ portable_name x.
Proof.
  intros Hb. unfold is_portable_component. split.
  - intros H. destr_in H. rewrite !orb_false_iff, !str_eqb_neq in E.
    destruct E as (((((((H1 & H2) & H3) & H4) & H5 & H6) & H7) & H8) & H9).
    cbn [negb andb] in H9. apply negb_true_iff in H.
    rewrite <-not_true_iff_false in H4, H5, H6, H7, H8, H9, H.
    rewrite contains_char_spec in H4. rewrite ends_with_spec in H5, H6.
    rewrite contains_any_spec in H8, H9. rewrite existsb_exists in H7, H. constructor; [done..| | |].
    + intros c Hc. assert (Hr : c ∉ refused_chars).
      { intros Hr. unfold refused_chars in Hr. set_unfold in Hr.
        destruct Hr as [->|[->|Hr]]; [done..|].
        destruct (decide (c = 63 ∨ c = 42)%Z) as [Hw|Hw].
        - apply H9. exists c. split; [set_solver|done].
        - apply H8. exists c. split; [set_solver|done]. }
      enough (¬ (c < 0x20 ∨ c = 0x7f)%Z) by (split; [lia|split; [lia|done]]).
      intros Hx. apply H7. exists c. split; [by apply list_elem_of_In|]. lia.
    + intros y. split; intros ->; [apply H5|apply H6]; by eexists.
    + intros stem rest device Hx Hs Hd E. apply H. exists device.
      split; [by apply list_elem_of_In|]. rewrite (stem_spec x stem rest) by done.
      unfold eq_ignore_ascii_case. by apply str_eqb_eq.
  - intros [H1 H2 H3 Hc Hl Hs].
    assert (Hnc : ∀ cs, (∀ c, c ∈ cs → c ∈ refused_chars) → contains_any x cs = false).
    { intros cs Hcs. apply not_true_iff_false. rewrite contains_any_spec. intros (c & Hin & Hx).
      apply (Hc c Hx). by apply Hcs. }
    rewrite !(proj2 (str_eqb_neq _ _)) by done. cbn [orb].
    pose proof (Hnc [58%Z] ltac:(set_solver)) as Hcolon. cbn in Hcolon. rewrite orb_false_r in Hcolon.
    rewrite Hcolon, (Hnc [60%Z; 62%Z; 34%Z; 124%Z]), (Hnc [63%Z; 42%Z])
      by (intros c; unfold refused_chars; set_unfold; tauto).
    assert (ends_with x (s".") = false) as ->
      by (apply not_true_iff_false; rewrite ends_with_spec; intros [y E]; by destruct (Hl y)).
    assert (ends_with x (s" ") = false) as ->
      by (apply not_true_iff_false; rewrite ends_with_spec; intros [y E]; by destruct (Hl y)).
    assert (existsb (λ c, (c <? 0x20)%Z || (c =? 0x7f)%Z) x = false) as ->.
    { apply not_true_iff_false. rewrite existsb_exists. intros (c & Hx%list_elem_of_In & E).
      destruct (Hc c Hx) as (? & ? & _). lia. }
    cbn [orb andb negb]. cbv zeta. apply negb_true_iff, not_true_iff_false. rewrite existsb_exists.
    intros (device & Hd%list_elem_of_In & E%str_eqb_eq). destruct (stem_of x) as (rest & Hx & Hf).
    by apply (Hs _ _ _ Hx Hf Hd).
Qed.
(** The test accepts exactly the portable relative paths. *)
Lemma is_safe_relative_path_spec p : is_safe_relative_path p = true ↔ portable_path p.
Proof.
  unfold is_safe_relative_path, is_safe_relative, portable_path.
  rewrite andb_true_iff, negb_true_iff, <-not_true_iff_false, contains_char_spec, forallb_forall.
  split.
  - intros [Hb Hp]. exists (split_char 47 p). split; [apply split_char_nonempty|].
    split; [symmetry; apply join_split_char|]. apply Forall_forall. intros x Hx.
    split; [by eapply split_char_sep_free|]. apply portable_component_spec, Hp, list_elem_of_In, Hx.
    intros Hin. apply Hb. rewrite <-(join_split_char 47 p). apply elem_of_join_free; [done|]. by exists x.
  - intros (names & Hn & -> & Hf). rewrite Forall_forall in Hf. rewrite split_char_join; [|done|].
      2: { intros x Hx. by apply Hf. }
    assert (Hfree : ∀ x, x ∈ names → 92%Z ∉ x).
    { intros x Hx Hin. destruct (Hf x Hx) as [_ Hp]. apply (pn_chars x Hp _ Hin). set_solver. }
    split; [intros (x & Hx & Hin)%elem_of_join_free; [by apply (Hfree x)|done]|].
    intros x Hx%list_elem_of_In. apply portable_component_spec; [by apply Hfree|by apply Hf].
Qed.

(** ** Prefix containment *)

Lemma within_components p q :
  match strip_prefix q p with
  | Some suffix => (suffix =s []) || starts_with suffix (s"/")
  | None => false
  end = true ↔ split_char 47 q `prefix_of` split_char 47 p.
Proof.
  split.
  - destruct (strip_prefix q p) as [x|] eqn:E; [|done]. apply strip_prefix_Some in E as ->.
    rewrite orb_true_iff, str_eqb_eq, starts_with_spec. intros [->|[r ->]].
    + by rewrite app_nil_r.
    + change (s"/" ++ r) with (47%Z :: r). rewrite split_char_app.
      by apply prefix_app_r.
  - intros [rest E]. pose proof (split_char_nonempty 47 q) as Hq.
    assert (p = q ++ match rest with [] => [] | _ => 47%Z :: join [47%Z] rest end) as Hp.
    { rewrite <-(join_split_char 47 p), E. destruct rest as [|r rest].
      - by rewrite !app_nil_r, join_split_char.
      - by rewrite join_app, join_split_char by done. }
    assert (strip_prefix q p = Some match rest with [] => [] | _ => 47%Z :: join [47%Z] rest end)
      as -> by (by apply strip_prefix_Some). by destruct rest.
Qed.

(** Prefix containment is component-wise.  [path_is_within_prefix]
    accepts exactly the safe paths whose component list extends the component
    list of the safe, slash-normalised prefix; a string prefix that splits a
    component is never enough. *)
Theorem path_is_within_prefix_spec (path prefix : str) :
  path_is_within_prefix path prefix = true ↔
  ∃ p, normalize_path_prefix prefix = Some p ∧
       is_safe_relative_path path = true ∧ is_safe_relative_path p = true ∧
       split_char 47 p `prefix_of` split_char 47 path.
Proof.
  unfold path_is_within_prefix.
  destruct (normalize_path_prefix prefix) as [q|] eqn:E; [|naive_solver].
  assert (is_safe_relative_path q = true) by (unfold normalize_path_prefix in E; by case_match; simplify_eq).
  rewrite andb_true_iff, within_components. naive_solver.
Qed.

(** ** Path sets *)

Lemma parts_cmp_refl a : parts_cmp a a = Eq.
Proof. induction a; cbn; [done|]. by rewrite str_cmp_refl. Qed.
Lemma parts_cmp_eq a b : parts_cmp a b = Eq ↔ a = b.
Proof.
  split; [|intros ->; apply parts_cmp_refl].
  revert b; induction a as [|x a IH]; intros [|y b]; cbn; try done.
  destruct (str_cmp x y) eqn:E; try done. apply str_cmp_eq in E as ->.
  by intros ->%IH.
Qed.
Lemma parts_cmp_antisym a b : parts_cmp a b = CompOpp (parts_cmp b a).
Proof.
  revert b; induction a as [|x a IH]; intros [|y b]; cbn; try done.
  rewrite (str_cmp_antisym x y). destruct (str_cmp y x); cbn; [apply IH|done..].
Qed.

Definition parts_le (a b : list str) : Prop := parts_cmp a b ≠ Gt.

Lemma parts_le_cons x a y b :
  parts_le (x :: a) (y :: b) ↔ str_lt x y ∨ x = y ∧ parts_le a b.
Proof.
  unfold parts_le, str_lt. cbn. destruct (str_cmp x y) eqn:E.
  - apply str_cmp_eq in E as ->. naive_solver.
  - naive_solver.
  - split; [done|]. intros [?|[-> _]]; [done|]. by rewrite str_cmp_refl in E.
Qed.
Lemma parts_le_trans a b c : parts_le a b → parts_le b c → parts_le a c.
Proof.
  revert b c; induction a as [|x a IH]; intros [|y b] [|z c]; try (unfold parts_le; by cbn).
  rewrite !parts_le_cons. intros [H|[-> H]] [H'|[-> H']].
  - left. by transitivity y.
  - by left.
  - by left.
  - right. split; [done|]. by eapply IH.
Qed.
#[export] Instance parts_le_preorder : PreOrder parts_le.
Proof. split; [intros a; unfold parts_le; by rewrite parts_cmp_refl|exact parts_le_trans]. Qed.

(** Everything between two paths that share a leading part shares it. *)
Lemma parts_squeeze n a b c :
  parts_le a b → parts_le b c → n ≤ length a → take n a = take n c → take n b = take n a.
Proof.
  revert a b c; induction n as [|n IH]; intros a b c Hab Hbc Hn E; [done|].
  destruct a as [|x a]; [cbn in Hn; lia|]. destruct c as [|z c]; [done|].
  cbn in E. injection E as <- E. destruct b as [|y b]; [done|].
  apply parts_le_cons in Hab, Hbc. cbn in Hn |- *.
  destruct Hab as [Hab|[-> Hab]], Hbc as [Hbc|[Hxy Hbc]].
  - destruct (irreflexivity str_lt x). by transitivity y.
  - subst. by destruct (irreflexivity str_lt x).
  - by destruct (irreflexivity str_lt y).
  - f_equal. apply (IH a b c); [done..|lia|done].
Qed.

Lemma insert_entry_perm e l : insert_entry e l ≡ₚ e :: l.
Proof.
  induction l as [|f l IH]; cbn; [done|]. destruct (parts_cmp _ _); try done.
  rewrite IH. constructor.
Qed.
Lemma sort_entries_perm l : sort_entries l ≡ₚ l.
Proof. induction l as [|e l IH]; cbn; [done|]. by rewrite insert_entry_perm, IH. Qed.

Definition entries_sorted (l : list path_entry) : Prop :=
  StronglySorted (λ a b, parts_le (key_parts a) (key_parts b)) l.
Lemma insert_entry_sorted e l : entries_sorted l → entries_sorted (insert_entry e l).
Proof.
  induction l as [|f l IH]; cbn; intros Hs; [by repeat constructor|].
  apply StronglySorted_inv in Hs as [Hs Hf].
  destruct (parts_cmp (key_parts e) (key_parts f)) eqn:E.
  3: { constructor; [by apply IH|]. rewrite insert_entry_perm. constructor; [|done].
       unfold parts_le. rewrite parts_cmp_antisym, E. done. }
  all: assert (parts_le (key_parts e) (key_parts f)) by (unfold parts_le; by rewrite E).
  all: constructor; [by constructor|]; constructor; [done|].
  all: eapply Forall_impl; [exact Hf|]; intros; by etransitivity.
Qed.
Lemma sort_entries_sorted l : entries_sorted (sort_entries l).
Proof. induction l; cbn; [constructor|]. by apply insert_entry_sorted. Qed.

(** Two entries agree: shared leading key components are spelled alike. *)
Definition spelled_alike (a b : path_entry) : Prop :=
  ∀ n, n ≤ length (key_parts a) → take n (key_parts a) = take n (key_parts b) →
       take n (path_parts a) = take n (path_parts b).

Lemma alias_false a b :
  length (key_parts a) = length (path_parts a) →
  length (key_parts b) = length (path_parts b) →
  alias a b = false ↔ spelled_alike a b.
Proof.
  unfold alias, spelled_alike. generalize (key_parts a), (path_parts a), (key_parts b), (path_parts b).
  induction l as [|x l IH]; intros [|px pl] [|y r] [|py pr]; intros Hl Hr; try done; cbn in Hl, Hr.
  - split; [|done]. intros _ n. cbn. intros ?. by assert (n = 0) as -> by lia.
  - split; [|done]. intros _ n Hn E. destruct n; [done|]. by cbn in E.
  - cbn. destruct (str_eqb_spec x y) as [<-|Hne]; cbn.
    + rewrite orb_false_iff, negb_false_iff, str_eqb_eq, IH by lia. split.
      * intros [<- H] [|n] Hn E; cbn in *; [done|]. injection E as E.
        f_equal. apply H; [lia|done].
      * intros H. split.
        -- specialize (H 1 ltac:(lia) eq_refl). by injection H.
        -- intros n Hn E. specialize (H (S n) ltac:(lia)). cbn in H. rewrite E in H.
           by specialize (H eq_refl); injection H.
    + split; [|done]. intros _ [|n] Hn E; [done|]. cbn in E. congruence.
Qed.

Lemma spelled_alike_sym a b : spelled_alike a b → spelled_alike b a.
Proof.
  intros H n Hn E. symmetry. apply H; [|done].
  apply (f_equal length) in E. rewrite !length_take in E. lia.
Qed.

(** Checking neighbours of the sorted list checks every pair. *)
Lemma neighbours_all_pairs tree l :
  entries_sorted l →
  Forall (λ e, length (key_parts e) = length (path_parts e)) l →
  colliding_neighbours tree l = false ↔
  StronglySorted (λ a b, e_key a ≠ e_key b ∧ (tree = true → spelled_alike a b)) l.
Proof.
  induction l as [|x [|y l] IH]; intros Hs Hl.
  - split; constructor.
  - split; [|done]. intros _. repeat constructor.
  - apply StronglySorted_inv in Hs as [Hs Hx]. apply Forall_cons in Hl as [Hlx Hl].
    cbn [colliding_neighbours]. rewrite !orb_false_iff, str_eqb_neq, (IH Hs Hl).
    assert (Hal : tree && alias x y = false ↔ (tree = true → spelled_alike x y)).
    { apply Forall_cons in Hl as [Hly _]. rewrite <-(alias_false x y) by done.
      destruct tree; cbn; naive_solver. }
    rewrite Hal. split; [|intros [Hp Hq%Forall_cons]%StronglySorted_inv; naive_solver].
    intros [[Hne Hxy] Hp]. constructor; [done|]. constructor; [done|].
    apply StronglySorted_inv in Hp as [_ Hp], Hs as [_ Hs].
    apply Forall_cons in Hx as [Hxley Hx].
    rewrite Forall_forall in *. intros z Hz. specialize (Hp z Hz). specialize (Hs z Hz).
    split.
    + intros Hk. destruct Hp as [Hyz _]. apply Hne. apply (split_char_inj 47).
      assert (key_parts y = key_parts x) as E; [|symmetry; exact E].
      assert (Hxz : key_parts x = key_parts z) by (unfold key_parts; by rewrite Hk).
      rewrite <-Hxz in Hs. unfold parts_le in *. apply parts_cmp_eq.
      rewrite parts_cmp_antisym in Hxley. by destruct (parts_cmp (key_parts y) (key_parts x)).
    + intros Ht n Hn E. specialize (Hxy Ht). destruct Hp as [_ Hp]. specialize (Hp Ht).
      assert (take n (key_parts y) = take n (key_parts x)) as Ey
        by (by apply (parts_squeeze n _ _ (key_parts z))).
      rewrite (Hxy n Hn) by done. apply Hp; [|by rewrite Ey].
      apply (f_equal length) in Ey. rewrite !length_take in Ey. lia.
Qed.

Lemma StronglySorted_pairs {A} (R : A → A → Prop) l x y :
  (∀ a b, R a b → R b a) → StronglySorted R l → x ∈ l → y ∈ l → x = y ∨ R x y.
Proof.
  intros Hsym. induction 1 as [|a l Hs IH Ha]; [by intros ?%not_elem_of_nil|].
  rewrite Forall_forall in Ha. rewrite !elem_of_cons. intros [->|Hx] [->|Hy]; eauto.
Qed.
Lemma pairs_StronglySorted {A} (R : A → A → Prop) l :
  NoDup l → (∀ x y, x ∈ l → y ∈ l → x ≠ y → R x y) → StronglySorted R l.
Proof.
  induction 1 as [|a l Ha Hl IH]; intros H; [constructor|]. constructor.
  - apply IH. intros; apply H; [by right..|done].
  - apply Forall_forall. intros y Hy. apply H; [by left|by right|]. intros ->. done.
Qed.
Lemma StronglySorted_NoDup {A B} (f : A → B) (R : A → A → Prop) l :
  (∀ a b, R a b → f a ≠ f b) → StronglySorted R l → NoDup (map f l).
Proof.
  intros HR. induction 1 as [|a l Hs IH Ha]; cbn; constructor; [|done].
  rewrite Forall_forall in Ha. intros (b & E & Hb)%list_elem_of_fmap.
  by apply (HR a b (Ha b Hb)).
Qed.
Lemma NoDup_map_inj {A B} (f : A → B) l x y :
  NoDup (map f l) → x ∈ l → y ∈ l → f x = f y → x = y.
Proof.
  induction l as [|a l IH]; [by intros ? ?%not_elem_of_nil|]. cbn.
  intros [Ha Hl]%NoDup_cons. rewrite !elem_of_cons. intros [->|Hx] [->|Hy] E; eauto;
    exfalso; apply Ha; apply list_elem_of_fmap; eauto.
Qed.

Lemma rsplit_once_Some c x a b :
  rsplit_once c x = Some (a, b) ↔ x = a ++ c :: b ∧ c ∉ b.
Proof.
  unfold rsplit_once. destruct (split_once c (reverse x)) as [[b' a']|] eqn:E; cbn.
  - apply split_once_Some in E as [E Hb]. apply (f_equal reverse) in E.
    rewrite reverse_involutive, reverse_app, reverse_cons, <-app_assoc in E. cbn in E.
    split.
    + intros [= <- <-]. split; [done|]. by rewrite elem_of_reverse.
    + intros [-> Hc]. assert (split_once c (reverse (a ++ c :: b)) = Some (reverse b, reverse a)) as E1.
      { apply split_once_Some. rewrite elem_of_reverse. split; [|done].
        by rewrite reverse_app, reverse_cons, <-app_assoc. }
      assert (split_once c (reverse (a ++ c :: b)) = Some (b', a')) as E2.
      { apply split_once_Some. split; [|done]. rewrite E. rewrite reverse_app, reverse_cons.
        by rewrite !reverse_involutive, <-app_assoc. }
      rewrite E1 in E2. injection E2 as <- <-. by rewrite !reverse_involutive.
  - split; [done|]. intros [-> Hc].
    assert (split_once c (reverse (a ++ c :: b)) = Some (reverse b, reverse a)); [|congruence].
    apply split_once_Some. rewrite elem_of_reverse. split; [|done].
    by rewrite reverse_app, reverse_cons, <-app_assoc.
Qed.
Lemma rsplit_once_None c x : rsplit_once c x = None → c ∉ x.
Proof.
  intros H Hc. apply elem_of_reverse in Hc. apply list_elem_of_split_l in Hc as (a & b & E & Hn).
  assert (split_once c (reverse x) = Some (a, b)) as E'
    by (by apply split_once_Some). unfold rsplit_once in H. by rewrite E' in H.
Qed.

(** The parents of a key are its proper component prefixes. *)
Definition parent_of (p q : str) : Prop :=
  ∃ rest, rest ≠ [] ∧ split_char 47 q = split_char 47 p ++ rest.

Lemma parent_of_free p q : 47%Z ∉ q → ~ parent_of p q.
Proof.
  intros Hq (r & Hr & E). rewrite split_char_free in E by done.
  pose proof (split_char_nonempty 47 p). by destruct (split_char 47 p) as [|? []], r.
Qed.
Lemma parent_of_cons a b p :
  47%Z ∉ b → parent_of p (a ++ 47%Z :: b) ↔ p = a ∨ parent_of p a.
Proof.
  intros Hb. unfold parent_of. rewrite split_char_app, (split_char_free _ b) by done. split.
  - intros (rest & Hne & E). destruct (exists_last Hne) as (r & z & ->).
    rewrite app_assoc in E. apply app_inj_tail in E as [E _].
    destruct r; [left|right]; [rewrite app_nil_r in E; by apply split_char_inj in E|by exists (l :: r)].
  - intros [->|(rest & Hne & ->)]; [by exists [b]|].
    exists (rest ++ [b]). rewrite <-app_assoc. split; [|done]. by destruct rest.
Qed.

Lemma file_parent_spec fuel paths q :
  length q ≤ fuel →
  file_parent fuel paths q = true ↔
  ∃ p e, parent_of p q ∧ search_key paths p = Some e ∧ e_dir e = false.
Proof.
  revert q; induction fuel as [|fuel IH]; intros q Hq.
  { destruct q; [|cbn in Hq; lia]. split; [done|]. intros (p & e & Hp & _).
    by apply parent_of_free in Hp; [|apply not_elem_of_nil]. }
  cbn [file_parent]. destruct (rsplit_once 47 q) as [[a b]|] eqn:E.
  - apply rsplit_once_Some in E as [-> Hb]. setoid_rewrite parent_of_cons; [|done].
    rewrite length_app in Hq. cbn in Hq. specialize (IH a ltac:(lia)).
    destruct (search_key paths a) as [e|] eqn:Es.
    + rewrite orb_true_iff, negb_true_iff, IH. naive_solver.
    + rewrite IH. naive_solver.
  - apply rsplit_once_None in E. split; [done|].
    intros (p & e & Hp & _). by apply parent_of_free in Hp.
Qed.

Lemma search_key_spec paths p e :
  NoDup (map e_key paths) → search_key paths p = Some e ↔ e ∈ paths ∧ e_key e = p.
Proof.
  intros Hnd. unfold search_key. split.
  - intros [Hin H]%find_some_elem. split; [done|]. apply (split_char_inj 47), parts_cmp_eq.
    by destruct (parts_cmp _ _).
  - intros [Hin <-]. destruct (List.find _ paths) as [f|] eqn:E.
    + apply find_some_elem in E as [Hf H]. f_equal. apply (NoDup_map_inj e_key paths); try done.
      apply (split_char_inj 47), parts_cmp_eq. unfold key_parts in H. by destruct (parts_cmp _ _).
    + eapply find_none_elem in E; [|exact Hin]. unfold key_parts in E.
      by rewrite parts_cmp_refl in E.
Qed.

Section path_set_spec.
Variable key : str → str.
(** The key of a path has the components of the path: normalisation and
    case folding neither create nor remove a slash. *)
Hypothesis key_components : ∀ p,
  length (split_char 47 (key p)) = length (split_char 47 p).

(** What a valid set of entries is, without sorting: every path is portable, no
    two entries have the same key, in a tree shared directories are spelled alike, and
    no entry lies below a file. *)
Definition path_set_ok (tree : bool) (entries : list (str * bool)) : Prop :=
  (∀ p d, (p, d) ∈ entries → portable_path p) ∧
  NoDup (map (λ '(p, _), key p) entries) ∧
  (tree = true → ∀ p d q e n, (p, d) ∈ entries → (q, e) ∈ entries →
     n ≤ length (split_char 47 (key p)) →
     take n (split_char 47 (key p)) = take n (split_char 47 (key q)) →
     take n (split_char 47 p) = take n (split_char 47 q)) ∧
  (∀ p d q e, (p, d) ∈ entries → (q, e) ∈ entries → parent_of (key p) (key q) → d = true).

Definition entry_of : str * bool → path_entry := λ '(p, d), mkEntry (key p) p d.

Lemma entry_of_elem entries e :
  e ∈ map entry_of entries ↔ ∃ p d, (p, d) ∈ entries ∧ e = mkEntry (key p) p d.
Proof.
  rewrite list_elem_of_fmap. split.
  - intros ([p d] & -> & H). eauto.
  - intros (p & d & H & ->). by exists (p, d).
Qed.

Lemma neighbours_spec tree entries :
  colliding_neighbours tree (sort_entries (map entry_of entries)) = false ↔
  NoDup (map (λ '(p, _), key p) entries) ∧
  (tree = true → ∀ p d q e n, (p, d) ∈ entries → (q, e) ∈ entries →
     n ≤ length (split_char 47 (key p)) →
     take n (split_char 47 (key p)) = take n (split_char 47 (key q)) →
     take n (split_char 47 p) = take n (split_char 47 q)).
Proof.
  set (l := sort_entries (map entry_of entries)).
  assert (Hp : l ≡ₚ map entry_of entries) by apply sort_entries_perm.
  assert (Hk : map e_key l ≡ₚ map (λ '(p, _), key p) entries).
  { rewrite Hp, map_map. apply Permutation_refl', map_ext. by intros [p d]. }
  rewrite neighbours_all_pairs; [|apply sort_entries_sorted|].
  2: { rewrite Hp. apply Forall_forall. intros e (p & d & _ & ->)%entry_of_elem. apply key_components. }
  rewrite <-Hk. split.
  - intros Hs. split.
    + eapply StronglySorted_NoDup; [|exact Hs]. by intros a b [? _].
    + intros Ht p d q e n Hpd Hqe Hn E.
      assert (Hin : ∀ p d, (p, d) ∈ entries → mkEntry (key p) p d ∈ l)
        by (intros; rewrite Hp; apply entry_of_elem; eauto).
      eapply StronglySorted_pairs in Hs as [Heq|[_ Hal]];
        [| | |exact (Hin _ _ Hpd)|exact (Hin _ _ Hqe)].
      * by injection Heq as _ -> _.
      * by apply (Hal Ht).
      * intros a b [? ?]. split; [done|]. intros. by apply spelled_alike_sym; auto.
  - intros [Hnd Hal]. apply pairs_StronglySorted; [by eapply NoDup_fmap_1|].
    intros x y Hx Hy Hxy. split.
    + intros E. apply Hxy. by apply (NoDup_map_inj e_key l).
    + intros Ht. rewrite Hp in Hx, Hy. apply entry_of_elem in Hx as (p & d & Hx & ->).
      apply entry_of_elem in Hy as (q & e & Hy & ->). intros n Hn E. by eapply Hal.
Qed.

(** C29: [validate_path_set] and [validate_path_tree_set] accept exactly the
    sets in which every path is a portable relative path (components that are
    not empty, [.] or [..], without control characters, colons, backslashes or
    the characters Win32 refuses, without a trailing dot or space, and whose
    stem is no Windows device name in any case), no two entries have the same
    collision key, in a tree the directories that share a key are spelled alike,
    and no entry lies below a file. So looking at the neighbours of the sorted
    keys finds every collision, and the parent search every file used as a
    directory. The collision key is a parameter; the one law used is that it
    keeps the number of components of a path. *)
Theorem validate_path_set_spec (tree : bool) (entries : list (str * bool)) :
  validate_path_set_inner key entries tree = Ok () ↔ path_set_ok tree entries.
Proof.
  unfold validate_path_set_inner, path_set_ok. fold entry_of.
  change (map (λ '(p, d), mkEntry (key p) p d) entries) with (map entry_of entries).
  set (l := sort_entries (map entry_of entries)).
  assert (Hsafe : existsb (λ e, negb (is_safe_relative_path (e_path e))) (map entry_of entries) = false
            ↔ ∀ p d, (p, d) ∈ entries → portable_path p).
  { setoid_rewrite <-is_safe_relative_path_spec. rewrite <-not_true_iff_false, existsb_exists. setoid_rewrite <-list_elem_of_In. split.
    - intros H p d Hp. apply not_false_iff_true. intros E. apply H.
      exists (mkEntry (key p) p d). split; [apply entry_of_elem; eauto|]. cbn. by rewrite E.
    - intros H (e & (p & d & Hp & ->)%entry_of_elem & He). cbn in He. by rewrite (H p d) in He. }
  destruct (existsb _ (map entry_of entries)).
  { split; [done|]. intros [H%Hsafe _]. done. }
  pose proof (neighbours_spec tree entries) as Hn. fold l in Hn.
  destruct (colliding_neighbours tree l).
  { split; [done|]. intros (_ & H1 & H2 & _). discriminate (proj2 Hn (conj H1 H2)). }
  destruct (proj1 Hn eq_refl) as [Hnd Hal].
  assert (Hpar : existsb (λ e, file_parent (length (e_key e)) l (e_key e)) l = false ↔
    ∀ p d q e, (p, d) ∈ entries → (q, e) ∈ entries → parent_of (key p) (key q) → d = true).
  { assert (Hl : l ≡ₚ map entry_of entries) by apply sort_entries_perm.
    assert (Hk : NoDup (map e_key l)).
    { rewrite Hl, map_map. by erewrite map_ext; [exact Hnd|]; intros [p d]. }
    rewrite <-not_true_iff_false, existsb_exists. setoid_rewrite <-list_elem_of_In.
    setoid_rewrite file_parent_spec; [|lia]. setoid_rewrite search_key_spec; [|done].
    setoid_rewrite Hl. setoid_rewrite entry_of_elem. split.
    - intros H p d q e Hp Hq Hpq. apply not_false_iff_true. intros ->. apply H.
      exists (mkEntry (key q) q e). split; [eauto|]. exists (key p), (mkEntry (key p) p false).
      cbn. naive_solver.
    - intros H (x & (q & e & Hq & ->) & (k & y & Hk' & [(p & d & Hp & ->) <-] & Hd)).
      cbn in *. rewrite (H p d q e) in Hd; done. }
  destruct (existsb _ l); naive_solver.
Qed.
End path_set_spec.

Lemma validate_path_set_spec_witness :
  validate_path_set_inner to_ascii_lowercase [(s"A/x", false); (s"A", true)] true = Ok () ∧
  path_set_ok to_ascii_lowercase true [(s"A/x", false); (s"A", true)].
Proof.
  split; [reflexivity|].
  refine (proj1 (validate_path_set_spec to_ascii_lowercase _ true [(s"A/x", false); (s"A", true)]) _).
  - intros p. unfold to_ascii_lowercase. induction p as [|c p IH]; [done|].
    cbn [map split_char]. assert ((to_ascii_lowercase_char c =? 47)%Z = (c =? 47)%Z) as ->.
    { unfold to_ascii_lowercase_char, is_ascii_uppercase. repeat case_if; lia. }
    case_if; cbn; [by rewrite IH|].
    destruct (split_char 47 (map to_ascii_lowercase_char p)), (split_char 47 p); cbn in *; lia.
  - reflexivity.
Defined.
