(* ===== verification/Serde.v ===== *)
(** * Decoding and encoding of JSON values

    The behaviour of the derived [serde] implementations the journal code
    uses, on a [serde_json::Value]: a struct is read from an object (unknown
    fields ignored or refused) or from an array of its fields in order, a unit
    enum from its name or from [{name: null}].  [FailureDetail] and its parts
    are those of [crates/model/src/types/failure.rs]. *)

From S2P Require Import Prelude Str BMap Json.

(** ** Scalars and containers *)

Definition de_string (v : value) : option str := as_str v.
Definition de_u64 (v : value) : option Z := as_u64 v.
Definition de_u32 (v : value) : option Z :=
  n ← as_u64 v; if (n <=? U32_MAX)%Z then Some n else None.
Definition de_option {A} (de : value → option A) (v : value) : option (option A) :=
  match v with VNull => Some None | _ => Some <$> de v end.
Definition de_vec {A} (de : value → option A) (v : value) : option (list A) :=
  match v with VArray l => mapM de l | _ => None end.
Definition de_unit_enum {A} (names : list (str * A)) (v : value) : option A :=
  match v with
  | VString x => snd <$> List.find (λ '(n, _), n =s x) names
  | VObject [(x, VNull)] => snd <$> List.find (λ '(n, _), n =s x) names
  | _ => None
  end.

(** ** Structs

    A field of a struct by name, or by position; [None] when absent. *)
Definition struct_field (fields : list str) (v : value) (name : str) : option value :=
  match v with
  | VObject m => bm_get name m
  | VArray l => i ← position (str_eqb name) fields; l !! i
  | _ => None
  end.
(** Whether the value has the shape of a struct with these fields. *)
Definition struct_shape (deny_unknown : bool) (fields : list str) (v : value) : bool :=
  match v with
  | VObject m =>
      negb deny_unknown || forallb (λ k, existsb (str_eqb k) fields) (bm_keys m)
  | VArray l => length l <=? length fields
  | _ => false
  end.
Definition required {A} (de : value → option A) (field : option value) : option A :=
  field ≫= de.
(** [#[serde(default)]]. *)
Definition defaulted {A} (d : A) (de : value → option A) (field : option value) : option A :=
  match field with Some v => de v | None => Some d end.

(** [RetryOnIndeterminate] of [contract/src/manifest/resources.rs], which the
    journal stores by name. *)
Inductive RetryOnIndeterminate : Type := RetryFail | RetryRepeat.
#[global] Instance RetryOnIndeterminate_eq_dec : EqDecision RetryOnIndeterminate.
Proof. solve_decision. Defined.

(** ** Failure details *)

Inductive FailureCode : Type :=
| WhenFalse | DependencyUnsatisfied | NoDependencySucceeded | CheckFailed
| ExecutionFailed | ElapsedExceeded | TimedOut | RepairExhausted
| SchedulerFailed | Canceled | Interrupted | BudgetExceeded
| ProviderContextExhausted | Refused | McpAuthorizationRequired.
#[global] Instance FailureCode_eq_dec : EqDecision FailureCode.
Proof. solve_decision. Defined.

Definition failure_codes : list (str * FailureCode) :=
  [ (s"when_false", WhenFalse); (s"dependency_unsatisfied", DependencyUnsatisfied);
    (s"no_dependency_succeeded", NoDependencySucceeded); (s"check_failed", CheckFailed);
    (s"execution_failed", ExecutionFailed); (s"elapsed_exceeded", ElapsedExceeded);
    (s"timed_out", TimedOut); (s"repair_exhausted", RepairExhausted);
    (s"scheduler_failed", SchedulerFailed); (s"canceled", Canceled);
    (s"interrupted", Interrupted); (s"budget_exceeded", BudgetExceeded);
    (s"provider_context_exhausted", ProviderContextExhausted); (s"refused", Refused);
    (s"mcp_authorization_required", McpAuthorizationRequired) ].

Inductive DependencyStatus : Type := DepSkipped | DepFailed.
Definition dependency_statuses : list (str * DependencyStatus) :=
  [ (s"skipped", DepSkipped); (s"failed", DepFailed) ].
#[global] Instance DependencyStatus_eq_dec : EqDecision DependencyStatus.
Proof. solve_decision. Defined.

Record DependencyFailure : Type := mkDependencyFailure {
  df_path : str;
  df_status : DependencyStatus;
  df_message : str;
}.
Record BudgetExhaustion : Type := mkBudgetExhaustion {
  be_resource : str;
  be_used : Z;
  be_allowed : Z;
  be_used_subsec_nanoseconds : option Z;
}.
Record FailureDetail : Type := mkFailureDetail {
  fd_code : FailureCode;
  fd_message : str;
  fd_dependencies : list DependencyFailure;
  fd_exhaustion : option BudgetExhaustion;
}.
(** [FailureDetail::new]. *)
Definition failure_new (code : FailureCode) (message : str) : FailureDetail :=
  mkFailureDetail code message [] None.

Definition enum_name {A} `{EqDecision A} (names : list (str * A)) (x : A) : str :=
  default [] (fst <$> List.find (λ '(_, y), bool_decide (y = x)) names).

Definition df_fields : list str := [s"path"; s"status"; s"message"].
Definition de_dependency_failure (v : value) : option DependencyFailure :=
  if struct_shape true df_fields v then
    path ← required de_string (struct_field df_fields v (s"path"));
    status ← required (de_unit_enum dependency_statuses) (struct_field df_fields v (s"status"));
    message ← required de_string (struct_field df_fields v (s"message"));
    Some (mkDependencyFailure path status message)
  else None.
Definition ser_dependency_failure (d : DependencyFailure) : value :=
  VObject (bm_of_list
    [ (s"path", VString (df_path d));
      (s"status", VString (enum_name dependency_statuses (df_status d)));
      (s"message", VString (df_message d)) ]).

Definition be_fields : list str :=
  [s"resource"; s"used"; s"allowed"; s"used_subsec_nanoseconds"].
Definition de_budget_exhaustion (v : value) : option BudgetExhaustion :=
  if struct_shape true be_fields v then
    resource ← required de_string (struct_field be_fields v (s"resource"));
    used ← required de_u64 (struct_field be_fields v (s"used"));
    allowed ← required de_u64 (struct_field be_fields v (s"allowed"));
    subsec ← defaulted None (de_option de_u32)
               (struct_field be_fields v (s"used_subsec_nanoseconds"));
    Some (mkBudgetExhaustion resource used allowed subsec)
  else None.
Definition ser_budget_exhaustion (b : BudgetExhaustion) : value :=
  VObject (bm_of_list
    ([ (s"resource", VString (be_resource b));
       (s"used", VNumber (PosInt (be_used b)));
       (s"allowed", VNumber (PosInt (be_allowed b))) ]
     ++ match be_used_subsec_nanoseconds b with
        | Some n => [(s"used_subsec_nanoseconds", VNumber (PosInt n))]
        | None => []
        end)).

Definition fd_fields : list str := [s"code"; s"message"; s"dependencies"; s"exhaustion"].
Definition de_failure_detail (v : value) : option FailureDetail :=
  if struct_shape true fd_fields v then
    code ← required (de_unit_enum failure_codes) (struct_field fd_fields v (s"code"));
    message ← required de_string (struct_field fd_fields v (s"message"));
    dependencies ← defaulted [] (de_vec de_dependency_failure)
                     (struct_field fd_fields v (s"dependencies"));
    exhaustion ← defaulted None (de_option de_budget_exhaustion)
                   (struct_field fd_fields v (s"exhaustion"));
    Some (mkFailureDetail code message dependencies exhaustion)
  else None.
Definition ser_failure_detail (d : FailureDetail) : value :=
  VObject (bm_of_list
    ([ (s"code", VString (enum_name failure_codes (fd_code d)));
       (s"message", VString (fd_message d)) ]
     ++ match fd_dependencies d with
        | [] => []
        | deps => [(s"dependencies", VArray (map ser_dependency_failure deps))]
        end
     ++ match fd_exhaustion d with
        | Some b => [(s"exhaustion", ser_budget_exhaustion b)]
        | None => []
        end)).

(** ** Round trip *)

(** Evaluates the shape test and the field lookups of a concrete object. *)
Ltac eval_struct fields :=
  repeat match goal with |- context [struct_field fields ?v ?n] =>
    let r := eval vm_compute in (struct_field fields v n) in
    change (struct_field fields v n) with r end;
  match goal with |- context [struct_shape ?b fields ?v] =>
    change (struct_shape b fields v) with true end;
  unfold required, defaulted; cbn [mbind option_bind].

Lemma de_dependency_ser d : de_dependency_failure (ser_dependency_failure d) = Some d.
Proof. destruct d as [p st m]. by destruct st. Qed.

Lemma de_budget_ser b :
  match be_used_subsec_nanoseconds b with Some n => (n ≤ U32_MAX)%Z | None => True end →
  de_budget_exhaustion (ser_budget_exhaustion b) = Some b.
Proof.
  destruct b as [r u a [n|]]; intros Hn; cbn in Hn; [|reflexivity].
  unfold de_budget_exhaustion, ser_budget_exhaustion.
  cbn [be_resource be_used be_allowed be_used_subsec_nanoseconds app]. eval_struct be_fields.
  cbn [de_option de_string de_u64 as_str as_u64 num_as_u64 mbind option_bind].
  unfold de_u32. cbn [as_u64 num_as_u64 mbind option_bind].
  by rewrite (proj2 (Z.leb_le _ _) Hn).
Qed.

Lemma de_dependencies_ser l : mapM de_dependency_failure (map ser_dependency_failure l) = Some l.
Proof. induction l as [|d l IH]; [done|]. cbn [map mapM]. by rewrite de_dependency_ser, IH. Qed.

(** A failure detail written to the journal is read back unchanged:
    decoding inverts encoding for every detail whose subsecond count is a
    [u32], with or without dependencies and budget amounts. *)
Theorem failure_detail_roundtrip (d : FailureDetail) :
  (∀ b n, fd_exhaustion d = Some b → be_used_subsec_nanoseconds b = Some n → n ≤ U32_MAX)%Z →
  de_failure_detail (ser_failure_detail d) = Some d.
Proof.
  destruct d as [c m deps ex]; cbn [fd_exhaustion]; intros Hex.
  assert (Hb : ∀ b, ex = Some b → de_option de_budget_exhaustion (ser_budget_exhaustion b) = Some (Some b)).
  { intros b ->. unfold de_option, ser_budget_exhaustion at 1.
    change (VObject _) with (ser_budget_exhaustion b). rewrite de_budget_ser; [done|].
    destruct (be_used_subsec_nanoseconds b) eqn:E; [by eapply Hex|done]. }
  assert (Hc : de_unit_enum failure_codes (VString (enum_name failure_codes c)) = Some c)
    by (by destruct c).
  assert (Hd : de_vec de_dependency_failure (VArray (map ser_dependency_failure deps)) = Some deps)
    by apply de_dependencies_ser.
  unfold de_failure_detail, ser_failure_detail. cbn [fd_code fd_message fd_dependencies fd_exhaustion].
  set (code := VString (enum_name failure_codes c)) in *. clearbody code.
  destruct deps as [|dep deps], ex as [b|].
  all: try (set (ds := VArray (map ser_dependency_failure (dep :: deps))) in *; clearbody ds).
  all: try (specialize (Hb b eq_refl); set (e := ser_budget_exhaustion b) in *; clearbody e).
  all: eval_struct fd_fields; rewrite ?Hc, ?Hd, ?Hb; reflexivity.
Qed.
Lemma failure_detail_roundtrip_witness :
  let d := mkFailureDetail BudgetExceeded (s"over budget")
             [mkDependencyFailure (s"build") DepFailed (s"exit 1")]
             (Some (mkBudgetExhaustion (s"elapsed_seconds") 61 60 (Some 5%Z))) in
  de_failure_detail (ser_failure_detail d) = Some d.
Proof.
  apply failure_detail_roundtrip. intros b n [= <-] [= <-]. by vm_compute.
Defined.
