(* ===== verification/Events.v ===== *)
(** * Journal events

    [crates/api/src/events/core.rs] and [envelope.rs]: the registry of event
    kinds, the flat wire form of an event and its decoding.  The payload
    structs whose contents the fold reads through typed accessors are decoded
    here; the derived decoders of the others, of the form and confirmation
    specifications ([crates/api/src/api/dto.rs]) and the RFC 3339 parser of
    [chrono] are the members of [WireTypes]. *)

From S2P Require Import Prelude Str BMap Json Serde.

Definition JOURNAL_SCHEMA_VERSION : Z := 2.

Class WireTypes := {
  FormSpec : Type;
  form_id : FormSpec → str;
  de_form : value → option FormSpec;
  ConfirmSpec : Type;
  confirm_id : ConfirmSpec → str;
  de_confirm : value → option ConfirmSpec;
  (** Whether the payload struct registered for a kind decodes. *)
  payload_decodes : str → value → bool;
  (** Whether [chrono::DateTime::parse_from_rfc3339] accepts the text. *)
  rfc3339_ok : str → bool;
}.

Definition TERMINAL_EVENT_KINDS : list str :=
  [s"run_finished"; s"run_error"; s"run_canceled"; s"run_interrupted"].

Definition registered_kinds : list str :=
  [ s"elapsed_accounted"; s"run_queued"; s"run_started"; s"run_resumed";
    s"graph_resolved"; s"resource"; s"step_started"; s"step_retry";
    s"step_finished"; s"step_replayed"; s"step_skipped"; s"foreach_iteration";
    s"foreach_budget_exhausted"; s"repair_attempt_started";
    s"repair_attempt_finished"; s"regenerate_attempt_started";
    s"regenerate_attempt_finished"; s"llm_call"; s"llm_delta";
    s"agent_checkpoint"; s"agent_file_changes"; s"agent_delegated";
    s"agent_completed"; s"agent_failed"; s"agent_handoff"; s"context_compacted";
    s"llm_validation_failed"; s"llm_route_failed"; s"tool_call";
    s"mcp_cleanup_settled"; s"guardrail_evaluated"; s"guardrail_error";
    s"guardrail_tripwire"; s"tool_backend_resolved"; s"user_interaction";
    s"out_of_contract"; s"confirm_request"; s"side_effect"; s"dry_run";
    s"artifact"; s"run_waiting"; s"run_error"; s"run_canceled";
    s"run_interrupted"; s"run_finished"; s"lagged" ].

Definition is_known_run_event_kind (kind : str) : bool :=
  existsb (str_eqb kind) registered_kinds.

Definition INTERNAL_RUN_EVENT_KINDS : list str :=
  [ s"audit_degraded"; s"budget_charged"; s"elapsed_exceeded";
    s"foreach_sibling_drained"; s"foreach_iteration_settled";
    s"foreach_sibling_ignored"; s"hook_failed"; s"hook_replayed";
    s"hook_skipped"; s"mcp_authorization_required";
    s"mcp_continuation_consumed"; s"mcp_continuation_resumed";
    s"mcp_destination_decision"; s"mcp_input_pending"; s"operation_finished";
    s"operation_repeated"; s"parallel_replay_authorized";
    s"parallel_task_joined"; s"operation_started"; s"run_forked";
    s"run_yielded"; s"state_patched"; s"step_interrupted"; s"step_timeout";
    s"user_answered"; s"user_cancel_requested"; s"user_confirmed" ].

Definition is_terminal_event_kind (kind : str) : bool :=
  existsb (str_eqb kind) TERMINAL_EVENT_KINDS.

Record ElapsedAccounted : Type := mkElapsed {
  active_nanoseconds : Z;
  active_started_at : option str;
}.
Record AgentFileChanges : Type := mkFileChanges {
  fc_removed_files : list str;
  fc_written_files : list str;
}.

Inductive RunEventData : Type :=
| DElapsedAccounted (d : ElapsedAccounted)
| DAgentFileChanges (d : AgentFileChanges)
| DRegistered (kind : str) (data : value)
| DUnknown (data : value).

Record RunEvent : Type := mkRunEvent {
  ev_seq : Z;
  ev_ts : str;
  ev_run_id : str;
  ev_trace_id : str;
  ev_span_id : str;
  ev_parent_span_id : option str;
  ev_path : option str;
  ev_kind : str;
  ev_data : RunEventData;
}.

Inductive event_error : Type :=
| NotAnObject
| MissingField (label : str)
| InvalidPayloadData (kind : str).

Section decoding.
Context {W : WireTypes}.

Definition elapsed_fields : list str := [s"active_nanoseconds"; s"active_started_at"].
(** [required_active_start]: a present anchor is an RFC 3339 timestamp. *)
Definition de_active_start (v : value) : option (option str) :=
  a ← de_option de_string v;
  match a with
  | Some timestamp => if rfc3339_ok timestamp then Some a else None
  | None => Some a
  end.
Definition de_elapsed (v : value) : option ElapsedAccounted :=
  if struct_shape true elapsed_fields v then
    n ← required de_u64 (struct_field elapsed_fields v (s"active_nanoseconds"));
    a ← required de_active_start (struct_field elapsed_fields v (s"active_started_at"));
    Some (mkElapsed n a)
  else None.

Definition file_change_fields : list str := [s"removed_files"; s"written_files"].
Definition de_file_changes (v : value) : option AgentFileChanges :=
  if struct_shape true file_change_fields v then
    r ← required (de_vec de_string) (struct_field file_change_fields v (s"removed_files"));
    w ← required (de_vec de_string) (struct_field file_change_fields v (s"written_files"));
    Some (mkFileChanges r w)
  else None.

(** The explicit schema-1 migration of [RunEventData::parse]. *)
Definition migrate_payload (kind : str) (data : value) : value :=
  match data with
  | VObject m =>
      if ((kind =s s"run_queued") || (kind =s s"run_started"))
         && bool_decide (get_u64 (s"schema_version") data = Some 1%Z)
         && negb (bm_contains (s"elapsed_budget_mode") m)
      then VObject (bm_insert (s"elapsed_budget_mode") (VString (s"wall_clock")) m)
      else data
  | _ => data
  end.

Definition parse_event_data (kind : str) (data : value) : result event_error RunEventData :=
  let data := migrate_payload kind data in
  if kind =s s"elapsed_accounted" then
    DElapsedAccounted <$> ok_or (de_elapsed data) (InvalidPayloadData kind)
  else if kind =s s"agent_file_changes" then
    DAgentFileChanges <$> ok_or (de_file_changes data) (InvalidPayloadData kind)
  else if is_known_run_event_kind kind then
    if payload_decodes kind data then Ok (DRegistered kind data)
    else Err (InvalidPayloadData kind)
  else Ok (DUnknown data).

Definition common_fields : list str :=
  [ s"seq"; s"ts"; s"t"; s"run_id"; s"trace_id"; s"span_id"; s"parent_span_id"; s"node" ].

Definition from_flat (v : value) : result event_error RunEvent :=
  object ← ok_or (as_object v) NotAnObject;
  let required_string field label :=
    ok_or (bm_get field object ≫= as_str) (MissingField label) in
  seq ← ok_or (bm_get (s"seq") object ≫= as_u64) (MissingField (s"seq"));
  ts ← required_string (s"ts") (s"ts");
  kind ← required_string (s"t") (s"kind");
  run_id ← required_string (s"run_id") (s"run_id");
  trace_id ← required_string (s"trace_id") (s"trace_id");
  span_id ← required_string (s"span_id") (s"span_id");
  let path := bm_get (s"node") object ≫= as_str in
  let data := foldl (λ m k, bm_remove k m) object common_fields in
  data ← parse_event_data kind (VObject data);
  Ok (mkRunEvent seq ts run_id trace_id span_id
        (bm_get (s"parent_span_id") object ≫= as_str) path kind data).
End decoding.

(** The fields the fold reads of an event that decodes. *)
Lemma from_flat_fields `{WireTypes} v e :
  from_flat v = Ok e →
  get_u64 (s"seq") v = Some (ev_seq e) ∧ get_str (s"t") v = Some (ev_kind e) ∧
  get_str (s"run_id") v = Some (ev_run_id e) ∧ get_str (s"ts") v = Some (ev_ts e) ∧
  get_str (s"node") v = ev_path e.
Proof.
  unfold from_flat. intros Hf.
  apply result_bind_Ok in Hf as (m & Hm & Hf). apply ok_or_Ok in Hm.
  destruct v; try done. injection Hm as ->.
  apply result_bind_Ok in Hf as (seq & Hseq%ok_or_Ok & Hf).
  apply result_bind_Ok in Hf as (ts & Hts%ok_or_Ok & Hf).
  apply result_bind_Ok in Hf as (kind & Hkind%ok_or_Ok & Hf).
  apply result_bind_Ok in Hf as (run & Hrun%ok_or_Ok & Hf).
  apply result_bind_Ok in Hf as (tr & _ & Hf).
  apply result_bind_Ok in Hf as (sp & _ & Hf).
  apply result_bind_Ok in Hf as (d & _ & [= <-]). done.
Qed.
