(* ===== verification/RunState.v ===== *)
(** * The run state: folding the journal

    [crates/engine/src/state.rs]: a run's state is the fold of its journal.
    [apply] validates one event and updates the state; the journal writer
    applies an event to a copy before it appends it, so a refused event leaves
    no trace and the model returns only the error.  One definition per arm of
    the [match] on the event kind.  Error texts are the constructors of
    [invalid_event]. *)

From S2P Require Import Prelude Str BMap Json ValueBag PathPolicy Serde Events.

Definition RUN_STATE_SCHEMA_VERSION : Z := 9.

Definition is_known_journal_event_kind (kind : str) : bool :=
  is_known_run_event_kind kind || existsb (str_eqb kind) INTERNAL_RUN_EVENT_KINDS.

(** [BTreeSet<String>]. *)
Abbreviation bset := (bmap unit) (only parsing).
Definition bs_insert (k : str) (m : bset) : bset := bm_insert k () m.

Inductive TerminalState : Type := Succeeded | Failed | RunCanceled | RunInterrupted.
#[global] Instance TerminalState_eq_dec : EqDecision TerminalState.
Proof. solve_decision. Defined.

Inductive ElapsedBudgetMode : Type := WallClock | ActiveExecution.
#[global] Instance ElapsedBudgetMode_eq_dec : EqDecision ElapsedBudgetMode.
Proof. solve_decision. Defined.
Definition elapsed_budget_modes : list (str * ElapsedBudgetMode) :=
  [ (s"wall_clock", WallClock); (s"active_execution", ActiveExecution) ].

Inductive OperationStatus : Type :=
| Started | OpSucceeded | FailedClean | FailedIndeterminate.
#[global] Instance OperationStatus_eq_dec : EqDecision OperationStatus.
Proof. solve_decision. Defined.

Record FilePin : Type := mkFilePin { pin_path : str; pin_sha256 : str }.
Definition file_pin_fields : list str := [s"path"; s"sha256"].
Definition de_file_pin (v : value) : option FilePin :=
  if struct_shape false file_pin_fields v then
    path ← required de_string (struct_field file_pin_fields v (s"path"));
    sha256 ← required de_string (struct_field file_pin_fields v (s"sha256"));
    Some (mkFilePin path sha256)
  else None.

Inductive NodeOutcome : Type :=
| NodeSuccess (output : option value) (files : list FilePin)
| NodeSkipped (reason : FailureDetail)
| NodeFailed (reason : FailureDetail).

Record OperationRecord : Type := mkOperationRecord {
  or_digest : str;
  or_status : OperationStatus;
  or_result : option value;
  or_result_ref : option str;
  or_invocation : str;
  or_on_indeterminate : RetryOnIndeterminate;
}.

Inductive invalid_event : Type :=
| ZeroSeq
| SeqNotGreater (seq last : Z)
| KindRequired
| ForeignRun (actual expected : str)
| UnknownKind (kind : str)
| FinalRun (kind : str)
| UnsupportedSchema (version : Z)
| MissingMode
| SchemaOneMode
| ModeChanged
| MissingLedger
| NotParent (next previous : str)
| PackageChanged
| CounterOverflow (counter : str)
| LedgerWithoutIdentity
| MissingActiveTotal
| MissingActiveAnchor
| InvalidAnchor
| IllegalLedger
| BadAmount
| TokenMissing (name : str)
| TokenInvalid (name : str)
| CostMissing
| CostInvalid
| BadEvent (e : event_error)
| ChangesNeedNode
| InvalidChanges
| UnsafePath
| PatchStatuses
| IterationRequired
| OwnerRequired
| ResponseIdRequired (kind : str)
| ValuesRequired
| ApprovedRequired
| BadInteraction
| StepNodeRequired
| StepStatusRequired
| BadPins (key : str)
| BadFailureDetail
| DigestRequired
| InvocationRequired.

Inductive JournalError : Type :=
| JsonError
| InvalidEvent (m : invalid_event).

Definition invalid {A} (m : invalid_event) : result JournalError A := Err (InvalidEvent m).
Definition ok_or_invalid {A} (o : option A) (m : invalid_event) : result JournalError A :=
  ok_or o (InvalidEvent m).
Definition count (max current amount : Z) (counter : str) : result JournalError Z :=
  ok_or_invalid (checked_add max current amount) (CounterOverflow counter).

Record BudgetState : Type := mkBudgetState {
  bs_elapsed_budget_mode : ElapsedBudgetMode;
  bs_elapsed : option ElapsedAccounted;
  bs_steps_executed : Z;
  bs_budget_charged : Z;
  bs_has_budget_charges : bool;
  bs_steps_succeeded : Z;
  bs_steps_failed : Z;
  bs_steps_skipped : Z;
  bs_repair_attempts : Z;
  bs_regenerate_attempts : Z;
  bs_llm_calls : Z;
  bs_tokens_input : Z;
  bs_tokens_output : Z;
  bs_tokens_cached_input : Z;
  bs_tokens_cache_creation_input : Z;
  bs_cost_microusd : Z;
  bs_unresolved_search_cost : bool;
  bs_started_at : option str;
}.

Definition budget_eta (b : BudgetState) : BudgetState :=
  mkBudgetState (bs_elapsed_budget_mode b) (bs_elapsed b) (bs_steps_executed b)
    (bs_budget_charged b) (bs_has_budget_charges b) (bs_steps_succeeded b) (bs_steps_failed b)
    (bs_steps_skipped b) (bs_repair_attempts b) (bs_regenerate_attempts b) (bs_llm_calls b)
    (bs_tokens_input b) (bs_tokens_output b) (bs_tokens_cached_input b)
    (bs_tokens_cache_creation_input b) (bs_cost_microusd b) (bs_unresolved_search_cost b)
    (bs_started_at b).

#[global] Instance set_bs_elapsed_budget_mode : Setter bs_elapsed_budget_mode := ltac:(derive_setter budget_eta bs_elapsed_budget_mode).
#[global] Instance set_bs_elapsed : Setter bs_elapsed := ltac:(derive_setter budget_eta bs_elapsed).
#[global] Instance set_bs_steps_executed : Setter bs_steps_executed := ltac:(derive_setter budget_eta bs_steps_executed).
#[global] Instance set_bs_budget_charged : Setter bs_budget_charged := ltac:(derive_setter budget_eta bs_budget_charged).
#[global] Instance set_bs_has_budget_charges : Setter bs_has_budget_charges := ltac:(derive_setter budget_eta bs_has_budget_charges).
#[global] Instance set_bs_steps_succeeded : Setter bs_steps_succeeded := ltac:(derive_setter budget_eta bs_steps_succeeded).
#[global] Instance set_bs_steps_failed : Setter bs_steps_failed := ltac:(derive_setter budget_eta bs_steps_failed).
#[global] Instance set_bs_steps_skipped : Setter bs_steps_skipped := ltac:(derive_setter budget_eta bs_steps_skipped).
#[global] Instance set_bs_repair_attempts : Setter bs_repair_attempts := ltac:(derive_setter budget_eta bs_repair_attempts).
#[global] Instance set_bs_regenerate_attempts : Setter bs_regenerate_attempts := ltac:(derive_setter budget_eta bs_regenerate_attempts).
#[global] Instance set_bs_llm_calls : Setter bs_llm_calls := ltac:(derive_setter budget_eta bs_llm_calls).
#[global] Instance set_bs_tokens_input : Setter bs_tokens_input := ltac:(derive_setter budget_eta bs_tokens_input).
#[global] Instance set_bs_tokens_output : Setter bs_tokens_output := ltac:(derive_setter budget_eta bs_tokens_output).
#[global] Instance set_bs_tokens_cached_input : Setter bs_tokens_cached_input := ltac:(derive_setter budget_eta bs_tokens_cached_input).
#[global] Instance set_bs_tokens_cache_creation_input : Setter bs_tokens_cache_creation_input := ltac:(derive_setter budget_eta bs_tokens_cache_creation_input).
#[global] Instance set_bs_cost_microusd : Setter bs_cost_microusd := ltac:(derive_setter budget_eta bs_cost_microusd).
#[global] Instance set_bs_unresolved_search_cost : Setter bs_unresolved_search_cost := ltac:(derive_setter budget_eta bs_unresolved_search_cost).
#[global] Instance set_bs_started_at : Setter bs_started_at := ltac:(derive_setter budget_eta bs_started_at).

Definition budget_default : BudgetState :=
  mkBudgetState WallClock None 0 0 false 0 0 0 0 0 0 0 0 0 0 0 false None.

(** [operation_id_for], over the hexadecimal SHA-256 digest of a string. *)
Definition operation_id_for (sha256_hex : str → str) (run_id node_id invocation_id : str) : str :=
  run_id ++ s":" ++ node_id ++ s":" ++ sha256_hex invocation_id.

Section run_state.
Context {W : WireTypes}.

Inductive Interaction : Type :=
| Question (question : FormSpec)
| Confirmation (confirm : ConfirmSpec).

Definition response_identity (i : Interaction) : str * str * str :=
  match i with
  | Question question => (s"user_answered", s"question_id", form_id question)
  | Confirmation confirm => (s"user_confirmed", s"confirmation_id", confirm_id confirm)
  end.

Record RunState : Type := mkRunState {
  rs_schema_version : Z;
  rs_run_id : option str;
  rs_contract_sha256 : option str;
  rs_package_sha256 : option str;
  rs_generator_path : option str;
  rs_generator_id : option str;
  rs_last_seq : Z;
  rs_labels : bmap str;
  rs_audit_seq : Z;
  rs_inputs : option (bmap value);
  rs_vars : ValueBag;
  rs_nodes : bmap NodeOutcome;
  rs_checkpoints : bmap value;
  rs_unresolved_tasks : bmap value;
  rs_foreach_reports : bmap value;
  rs_removed_files : bset;
  rs_budget : BudgetState;
  rs_resource_pins : bmap str;
  rs_latest_file_pins : bmap str;
  rs_node_executions : bmap Z;
  rs_historical_file_pins : bmap bset;
  rs_pending : option Interaction;
  rs_pending_seq : option Z;
  rs_pending_interactions : bmap Interaction;
  rs_interaction_seqs : bmap Z;
  rs_terminal : option TerminalState;
  rs_execution_started : bool;
  rs_finished_at : option str;
  rs_priority : Z;
  rs_parent_run_id : option str;
  rs_queued_at : option str;
  rs_operation_records : bmap OperationRecord;
  rs_operation_attempts : bmap Z;
  rs_answers : bmap value;
  rs_confirmations : bmap bool;
  rs_cancel_requested : bool;
  rs_cancel_operations : bset;
  rs_mcp_pending : bmap value;
  rs_mcp_resumed : bmap str;
  rs_hooks_settled : bset;
}.

Definition run_state_eta (st : RunState) : RunState :=
  mkRunState (rs_schema_version st) (rs_run_id st) (rs_contract_sha256 st) (rs_package_sha256
    st) (rs_generator_path st) (rs_generator_id st) (rs_last_seq st) (rs_labels st)
    (rs_audit_seq st) (rs_inputs st) (rs_vars st) (rs_nodes st) (rs_checkpoints st)
    (rs_unresolved_tasks st) (rs_foreach_reports st) (rs_removed_files st) (rs_budget st)
    (rs_resource_pins st) (rs_latest_file_pins st) (rs_node_executions st)
    (rs_historical_file_pins st) (rs_pending st) (rs_pending_seq st) (rs_pending_interactions
    st) (rs_interaction_seqs st) (rs_terminal st) (rs_execution_started st) (rs_finished_at st)
    (rs_priority st) (rs_parent_run_id st) (rs_queued_at st) (rs_operation_records st)
    (rs_operation_attempts st) (rs_answers st) (rs_confirmations st) (rs_cancel_requested st)
    (rs_cancel_operations st) (rs_mcp_pending st) (rs_mcp_resumed st) (rs_hooks_settled st).

#[global] Instance set_rs_schema_version : Setter rs_schema_version := ltac:(derive_setter run_state_eta rs_schema_version).
#[global] Instance set_rs_run_id : Setter rs_run_id := ltac:(derive_setter run_state_eta rs_run_id).
#[global] Instance set_rs_contract_sha256 : Setter rs_contract_sha256 := ltac:(derive_setter run_state_eta rs_contract_sha256).
#[global] Instance set_rs_package_sha256 : Setter rs_package_sha256 := ltac:(derive_setter run_state_eta rs_package_sha256).
#[global] Instance set_rs_generator_path : Setter rs_generator_path := ltac:(derive_setter run_state_eta rs_generator_path).
#[global] Instance set_rs_generator_id : Setter rs_generator_id := ltac:(derive_setter run_state_eta rs_generator_id).
#[global] Instance set_rs_last_seq : Setter rs_last_seq := ltac:(derive_setter run_state_eta rs_last_seq).
#[global] Instance set_rs_labels : Setter rs_labels := ltac:(derive_setter run_state_eta rs_labels).
#[global] Instance set_rs_audit_seq : Setter rs_audit_seq := ltac:(derive_setter run_state_eta rs_audit_seq).
#[global] Instance set_rs_inputs : Setter rs_inputs := ltac:(derive_setter run_state_eta rs_inputs).
#[global] Instance set_rs_vars : Setter rs_vars := ltac:(derive_setter run_state_eta rs_vars).
#[global] Instance set_rs_nodes : Setter rs_nodes := ltac:(derive_setter run_state_eta rs_nodes).
#[global] Instance set_rs_checkpoints : Setter rs_checkpoints := ltac:(derive_setter run_state_eta rs_checkpoints).
#[global] Instance set_rs_unresolved_tasks : Setter rs_unresolved_tasks := ltac:(derive_setter run_state_eta rs_unresolved_tasks).
#[global] Instance set_rs_foreach_reports : Setter rs_foreach_reports := ltac:(derive_setter run_state_eta rs_foreach_reports).
#[global] Instance set_rs_removed_files : Setter rs_removed_files := ltac:(derive_setter run_state_eta rs_removed_files).
#[global] Instance set_rs_budget : Setter rs_budget := ltac:(derive_setter run_state_eta rs_budget).
#[global] Instance set_rs_resource_pins : Setter rs_resource_pins := ltac:(derive_setter run_state_eta rs_resource_pins).
#[global] Instance set_rs_latest_file_pins : Setter rs_latest_file_pins := ltac:(derive_setter run_state_eta rs_latest_file_pins).
#[global] Instance set_rs_node_executions : Setter rs_node_executions := ltac:(derive_setter run_state_eta rs_node_executions).
#[global] Instance set_rs_historical_file_pins : Setter rs_historical_file_pins := ltac:(derive_setter run_state_eta rs_historical_file_pins).
#[global] Instance set_rs_pending : Setter rs_pending := ltac:(derive_setter run_state_eta rs_pending).
#[global] Instance set_rs_pending_seq : Setter rs_pending_seq := ltac:(derive_setter run_state_eta rs_pending_seq).
#[global] Instance set_rs_pending_interactions : Setter rs_pending_interactions := ltac:(derive_setter run_state_eta rs_pending_interactions).
#[global] Instance set_rs_interaction_seqs : Setter rs_interaction_seqs := ltac:(derive_setter run_state_eta rs_interaction_seqs).
#[global] Instance set_rs_terminal : Setter rs_terminal := ltac:(derive_setter run_state_eta rs_terminal).
#[global] Instance set_rs_execution_started : Setter rs_execution_started := ltac:(derive_setter run_state_eta rs_execution_started).
#[global] Instance set_rs_finished_at : Setter rs_finished_at := ltac:(derive_setter run_state_eta rs_finished_at).
#[global] Instance set_rs_priority : Setter rs_priority := ltac:(derive_setter run_state_eta rs_priority).
#[global] Instance set_rs_parent_run_id : Setter rs_parent_run_id := ltac:(derive_setter run_state_eta rs_parent_run_id).
#[global] Instance set_rs_queued_at : Setter rs_queued_at := ltac:(derive_setter run_state_eta rs_queued_at).
#[global] Instance set_rs_operation_records : Setter rs_operation_records := ltac:(derive_setter run_state_eta rs_operation_records).
#[global] Instance set_rs_operation_attempts : Setter rs_operation_attempts := ltac:(derive_setter run_state_eta rs_operation_attempts).
#[global] Instance set_rs_answers : Setter rs_answers := ltac:(derive_setter run_state_eta rs_answers).
#[global] Instance set_rs_confirmations : Setter rs_confirmations := ltac:(derive_setter run_state_eta rs_confirmations).
#[global] Instance set_rs_cancel_requested : Setter rs_cancel_requested := ltac:(derive_setter run_state_eta rs_cancel_requested).
#[global] Instance set_rs_cancel_operations : Setter rs_cancel_operations := ltac:(derive_setter run_state_eta rs_cancel_operations).
#[global] Instance set_rs_mcp_pending : Setter rs_mcp_pending := ltac:(derive_setter run_state_eta rs_mcp_pending).
#[global] Instance set_rs_mcp_resumed : Setter rs_mcp_resumed := ltac:(derive_setter run_state_eta rs_mcp_resumed).
#[global] Instance set_rs_hooks_settled : Setter rs_hooks_settled := ltac:(derive_setter run_state_eta rs_hooks_settled).

(** [RunState::default]. *)
Definition state_default : RunState :=
  mkRunState RUN_STATE_SCHEMA_VERSION None None None None None 0 [] 0 None bag_default [] [] []
    [] [] budget_default [] [] [] [] None None [] [] None false None 0 None None [] [] [] []
    false [] [] [] [].

(** ** Gates *)

Definition is_started (r : OperationRecord) : bool := bool_decide (or_status r = Started).

(** [None] is the [Ok(())] of the source, [Some id] names the operation the
    refusal reports. *)
Definition ensure_no_inflight_operations (st : RunState) : option str :=
  fst <$> bm_find (λ _ record, is_started record) (rs_operation_records st).

Definition ensure_no_fail_closed_inflight_operations (st : RunState) : option str :=
  fst <$> bm_find
    (λ _ record, is_started record && bool_decide (or_on_indeterminate record = RetryFail))
    (rs_operation_records st).

Definition settled_pending (st : RunState) : option Interaction :=
  if bool_decide (bs_elapsed_budget_mode (rs_budget st) = ActiveExecution)
     && match bs_elapsed (rs_budget st) with
        | None => true
        | Some ledger => bool_decide (is_Some (active_started_at ledger))
        end
  then None
  else rs_pending st.

(** ** Helpers of the fold *)

Definition project_interaction (st : RunState) : RunState :=
  let next := head (rs_pending_interactions st) in
  st <| rs_pending := snd <$> next |>
     <| rs_pending_seq := '(owner, _) ← next; bm_get owner (rs_interaction_seqs st) |>.

Definition same_identity (a b : Interaction) : bool :=
  let '(k1, f1, i1) := response_identity a in
  let '(k2, f2, i2) := response_identity b in
  (k1 =s k2) && (f1 =s f2) && (i1 =s i2).

Definition retire_interaction (st : RunState) (path : str) : RunState :=
  let retired := bm_get path (rs_pending_interactions st) in
  let st := st <| rs_pending_interactions := bm_remove path (rs_pending_interactions st) |> in
  let st :=
    match retired, rs_pending st with
    | Some retired, Some pending =>
        if same_identity pending retired then project_interaction st else st
    | _, _ => st
    end in
  st <| rs_interaction_seqs := bm_remove path (rs_interaction_seqs st) |>.

Definition install_interaction (st : RunState) (event : value) (confirmation : bool) :
    result JournalError RunState :=
  match get (if confirmation then s"confirm" else s"question") event with
  | None => Ok st
  | Some payload =>
      interaction ← ok_or_invalid
        (if confirmation then Confirmation <$> de_confirm payload
         else Question <$> de_form payload) BadInteraction;
      let owner :=
        match get_str (s"node") event with
        | Some node => Some node
        | None => fst <$> bm_find (λ _ saved, same_identity saved interaction)
                            (rs_pending_interactions st)
        end in
      let seq := get_u64 (s"seq") event in
      match owner with
      | Some owner =>
          let seqs := bm_remove owner (rs_interaction_seqs st) in
          let seqs := match seq with Some seq => bm_insert owner seq seqs | None => seqs end in
          Ok (project_interaction
                (st <| rs_interaction_seqs := seqs |>
                    <| rs_pending_interactions :=
                         bm_insert owner interaction (rs_pending_interactions st) |>))
      | None => Ok (st <| rs_pending := Some interaction |> <| rs_pending_seq := seq |>)
      end
  end.

Definition failure_value (reason : FailureDetail) : value := ser_failure_detail reason.

Definition failure_detail (event : value) (default_code : FailureCode)
    (default_message : str) : result JournalError FailureDetail :=
  match get (s"reason") event with
  | None => Ok (failure_new default_code default_message)
  | Some reason => ok_or_invalid (de_failure_detail reason) BadFailureDetail
  end.

Definition apply_workspace_file_pins (st : RunState) (files : list FilePin) : RunState :=
  foldl (λ st pin,
    st <| rs_latest_file_pins := bm_insert (pin_path pin) (pin_sha256 pin) (rs_latest_file_pins st) |>
       <| rs_removed_files := bm_remove (pin_path pin) (rs_removed_files st) |>) st files.

Definition record_node_execution (st : RunState) (path : str) : result JournalError RunState :=
  n ← count U64_MAX (default 0%Z (bm_get path (rs_node_executions st))) 1
        (s"node execution generation");
  Ok (st <| rs_node_executions := bm_insert path n (rs_node_executions st) |>).

Definition pins (event : value) (key : str) : result JournalError (list FilePin) :=
  match get key event with
  | None => Ok []
  | Some v => ok_or_invalid (de_vec de_file_pin v) (BadPins key)
  end.

(** The loop that records every revision of [files] and [failed_files]. *)
Definition record_history (history : bmap bset) (files : list FilePin) : bmap bset :=
  foldl (λ h pin,
    bm_insert (pin_path pin)
      (bs_insert (pin_sha256 pin) (default [] (bm_get (pin_path pin) h))) h) history files.

Definition is_success_status (status : str) : bool :=
  existsb (str_eqb status)
    [s"success"; s"repaired"; s"routed"; s"answered_on_fail"; s"regenerated"].
Definition is_suspended_status (status : str) : bool :=
  (status =s s"needs_user") || (status =s s"needs_confirm").

(** The success branch of [apply_step_finished]. *)
Definition step_succeeded (st : RunState) (event : value) (path : str) (files : list FilePin) :
    result JournalError RunState :=
  n ← count U64_MAX (bs_steps_succeeded (rs_budget st)) 1 (s"succeeded step");
  let st := st <| rs_budget := rs_budget st <| bs_steps_succeeded := n |> |> in
  let output := v ← get (s"output") event; if is_null v then None else Some v in
  let output_name := default path (get_str (s"output_name") event) in
  let vars := match output with
              | Some output => set_step_output (rs_vars st) output_name output
              | None => rs_vars st
              end in
  Ok (st <| rs_vars := set_step_outcome vars path (s"success") None |>
         <| rs_nodes := bm_insert path (NodeSuccess output files) (rs_nodes st) |>).

(** The failure branch of [apply_step_finished]. *)
Definition step_failed (st : RunState) (event : value) (path status : str) :
    result JournalError RunState :=
  n ← count U64_MAX (bs_steps_failed (rs_budget st)) 1 (s"failed step");
  let st := st <| rs_budget := rs_budget st <| bs_steps_failed := n |> |> in
  reason ← failure_detail event ExecutionFailed status;
  Ok (st <| rs_vars := set_step_outcome (rs_vars st) path (s"failed") (Some (failure_value reason)) |>
         <| rs_nodes := bm_insert path (NodeFailed reason) (rs_nodes st) |>).

Definition apply_step_finished (st : RunState) (event : value) : result JournalError RunState :=
  path ← ok_or_invalid (get_str (s"node") event) StepNodeRequired;
  status ← ok_or_invalid (get_str (s"status") event) StepStatusRequired;
  files ← pins event (s"files");
  failed_files ← pins event (s"failed_files");
  let st := st <| rs_historical_file_pins :=
                    record_history (rs_historical_file_pins st) (files ++ failed_files) |> in
  let succeeded := is_success_status status in
  let suspended := is_suspended_status status in
  let st := st <| rs_unresolved_tasks :=
      bm_retain
        (λ owner fact,
          negb (owner =s path)
          && negb (succeeded && bool_decide (as_str (index (s"node") fact) = Some path)))
        (rs_unresolved_tasks st) |> in
  let st := if succeeded || suspended then apply_workspace_file_pins st files else st in
  st ← (if suspended then install_interaction st event (status =s s"needs_confirm") else Ok st);
  st ← (if succeeded then step_succeeded st event path files
        else if negb suspended then step_failed st event path status
        else Ok st);
  if negb suspended then
    let st := st <| rs_checkpoints := bm_remove path (rs_checkpoints st) |> in
    record_node_execution (retire_interaction st path) path
  else Ok st.

(** ** The arms of [apply] *)

Definition schema_version_of (event : value) : Z := default 1%Z (get_u64 (s"schema_version") event).

(** The accounting mode an identity event declares. *)
Definition identity_mode (event : value) : result JournalError ElapsedBudgetMode :=
  let version := schema_version_of event in
  mode ← match get (s"elapsed_budget_mode") event with
         | Some v => ok_or (de_unit_enum elapsed_budget_modes v) JsonError
         | None => if (version =? 1)%Z then Ok WallClock else invalid MissingMode
         end;
  if (version =? 1)%Z && negb (bool_decide (mode = WallClock)) then invalid SchemaOneMode
  else Ok mode.

(** The elapsed ledger of an identity event. *)
Definition identity_ledger (st : RunState) (mode : ElapsedBudgetMode) :
    result JournalError RunState :=
  let b := rs_budget st in
  if bool_decide (is_Some (bs_started_at b))
     && negb (bool_decide (bs_elapsed_budget_mode b = mode))
  then invalid ModeChanged
  else
    b ← (if bool_decide (mode = ActiveExecution) && negb (bool_decide (is_Some (bs_elapsed b)))
         then
           if bool_decide (is_Some (rs_contract_sha256 st))
              || bool_decide (is_Some (bs_started_at b)) || rs_execution_started st
           then invalid MissingLedger
           else Ok (b <| bs_elapsed := Some (mkElapsed 0 None) |>)
         else Ok b);
    Ok (st <| rs_budget := b <| bs_elapsed_budget_mode := mode |> |>).

(** Run id, package, contract and generator of an identity event. *)
Definition identity_lineage (st : RunState) (event : value) : result JournalError RunState :=
  _ ← match rs_run_id st, get_str (s"run_id") event with
      | Some previous, Some next =>
          if negb (previous =s next)
             && negb (bool_decide (get_str (s"parent_run_id") event = Some previous))
          then invalid (NotParent next previous)
          else Ok ()
      | _, _ => Ok ()
      end;
  let st := st <| rs_run_id := get_str (s"run_id") event |> in
  let package := get_str (s"package_sha256") event in
  if bool_decide (is_Some (rs_package_sha256 st))
     && negb (bool_decide (rs_package_sha256 st = package))
  then invalid PackageChanged
  else
    let st := st <| rs_package_sha256 := package |>
                 <| rs_generator_path := get_str (s"generator_path") event |>
                 <| rs_contract_sha256 := get_str (s"contract_sha256") event |> in
    Ok (match rs_generator_id st with
        | Some _ => st
        | None =>
            st <| rs_generator_id :=
              (λ generator,
                match split_once 64 generator with Some (id, _) => id | None => generator end)
              <$> get_str (s"generator") event |>
        end).

Definition clamp_i32 (p : Z) : Z := Z.max I32_MIN (Z.min I32_MAX p).

Definition or_else {A} (a b : option A) : option A := match a with Some _ => a | None => b end.

(** What only [run_queued] does. *)
Definition admit_queued (st : RunState) (event : value) : RunState :=
  let st := match get (s"priority") event ≫= as_i64 with
            | Some priority => st <| rs_priority := clamp_i32 priority |>
            | None => st
            end in
  let st := st <| rs_parent_run_id := get_str (s"parent_run_id") event |>
               <| rs_queued_at := or_else (get_str (s"queued_at") event) (get_str (s"ts") event) |> in
  let st := match get_object (s"answers") event with
            | Some m => st <| rs_answers := bm_extend (rs_answers st) m |>
            | None => st
            end in
  match get_object (s"confirmations") event with
  | Some m =>
      st <| rs_confirmations :=
        foldl (λ acc '(key, v),
          match as_bool v with Some approved => bm_insert key approved acc | None => acc end)
          (rs_confirmations st) m |>
  | None => st
  end.

(** What an accepted identity event records of the run. *)
Definition identity_body (st : RunState) (kind : str) (event : value) : RunState :=
  let st := match get_object (s"inputs") event with
            | Some inputs => st <| rs_inputs := Some inputs |> <| rs_vars := with_inputs inputs |>
            | None => st
            end in
  let st := st <| rs_terminal := None |> in
  let st := match bs_started_at (rs_budget st) with
            | Some _ => st
            | None => st <| rs_budget := rs_budget st <| bs_started_at := get_str (s"ts") event |> |>
            end in
  let st := if kind =s s"run_queued" then admit_queued st event else st in
  let st := if kind =s s"run_started" then st <| rs_execution_started := true |> else st in
  match get_object (s"labels") event with
  | Some labels =>
      st <| rs_labels :=
        bm_of_list (omap (λ '(key, v), x ← as_str v; Some (key, x)) labels) |>
  | None => st
  end.

(** ["run_queued" | "run_started"]. *)
Definition apply_identity (st : RunState) (kind : str) (event : value) :
    result JournalError RunState :=
  mode ← identity_mode event;
  st ← identity_ledger st mode;
  st ← identity_lineage st event;
  Ok (identity_body st kind event).

(** ["run_resumed"]. *)
Definition apply_resumed (st : RunState) : RunState := st <| rs_terminal := None |>.

(** ["step_started"]. *)
Definition apply_step_started (st : RunState) : result JournalError RunState :=
  n ← count USIZE_MAX (bs_steps_executed (rs_budget st)) 1 (s"executed step");
  Ok (st <| rs_budget := rs_budget st <| bs_steps_executed := n |> |>).

(** The transitions of the elapsed ledger. *)
Definition legal_ledger (previous next : ElapsedAccounted) : bool :=
  match active_started_at previous, active_started_at next with
  | None, Some _ => (active_nanoseconds next =? active_nanoseconds previous)%Z
  | Some _, None => (active_nanoseconds previous <=? active_nanoseconds next)%Z
  | _, _ => false
  end.

(** ["elapsed_accounted"]. *)
Definition apply_elapsed (st : RunState) (event : value) : result JournalError RunState :=
  if negb (bool_decide (bs_elapsed_budget_mode (rs_budget st) = ActiveExecution))
     || negb (bool_decide (is_Some (rs_run_id st)))
  then invalid LedgerWithoutIdentity
  else
    total ← ok_or_invalid (get (s"active_nanoseconds") event) MissingActiveTotal;
    anchor ← ok_or_invalid (get (s"active_started_at") event) MissingActiveAnchor;
    next ← ok_or (de_elapsed (VObject (bm_of_list
             [(s"active_nanoseconds", total); (s"active_started_at", anchor)]))) JsonError;
    _ ← match active_started_at next with
        | Some anchor => if rfc3339_ok anchor then Ok () else invalid InvalidAnchor
        | None => Ok ()
        end;
    if match bs_elapsed (rs_budget st) with
       | None => false
       | Some previous => legal_ledger previous next
       end
    then Ok (st <| rs_budget := rs_budget st <| bs_elapsed := Some next |> |>)
    else invalid IllegalLedger.

(** ["budget_charged"]; [usize] is 64 bits wide, so [try_from] succeeds. *)
Definition apply_budget_charged (st : RunState) (event : value) : result JournalError RunState :=
  amount ← match get (s"amount") event with
           | None => Ok 1%Z
           | Some v => ok_or_invalid (as_u64 v) BadAmount
           end;
  n ← count USIZE_MAX (bs_budget_charged (rs_budget st)) amount (s"budget charge");
  Ok (st <| rs_budget := rs_budget st <| bs_budget_charged := n |>
                                      <| bs_has_budget_charges := true |> |>).

Definition token_counter (tokens : bmap value) (name : str) : result JournalError Z :=
  v ← ok_or_invalid (bm_get name tokens) (TokenMissing name);
  ok_or_invalid (as_u64 v) (TokenInvalid name).

(** The token counters of an [llm_call]. *)
Definition charge_tokens (b : BudgetState) (tokens : bmap value) : result JournalError BudgetState :=
  input ← token_counter tokens (s"input");
  n_input ← count U64_MAX (bs_tokens_input b) input (s"input token");
  output ← token_counter tokens (s"output");
  n_output ← count U64_MAX (bs_tokens_output b) output (s"output token");
  cached ← token_counter tokens (s"cached_input");
  n_cached ← count U64_MAX (bs_tokens_cached_input b) cached (s"cached input token");
  creation ← (if bm_contains (s"cache_creation_input") tokens
              then token_counter tokens (s"cache_creation_input") else Ok 0%Z);
  n_creation ← count U64_MAX (bs_tokens_cache_creation_input b) creation
                 (s"cache creation input token");
  Ok (b <| bs_tokens_input := n_input |> <| bs_tokens_output := n_output |>
        <| bs_tokens_cached_input := n_cached |>
        <| bs_tokens_cache_creation_input := n_creation |>).

(** ["llm_call"]. *)
Definition apply_llm_call (st : RunState) (event : value) : result JournalError RunState :=
  let b := rs_budget st in
  calls ← count U64_MAX (bs_llm_calls b) 1 (s"LLM call");
  let b := b <| bs_llm_calls := calls |> in
  b ← match get_object (s"tokens") event with
      | Some tokens => charge_tokens b tokens
      | None => Ok b
      end;
  v ← ok_or_invalid (get (s"cost_microusd") event) CostMissing;
  cost ← ok_or_invalid (as_u64 v) CostInvalid;
  n ← count U64_MAX (bs_cost_microusd b) cost (s"cost");
  Ok (st <| rs_budget := b <| bs_cost_microusd := n |> |>).

(** ["agent_file_changes"]. *)
Definition apply_file_changes (st : RunState) (event : value) : result JournalError RunState :=
  parsed ← map_err (λ e, InvalidEvent (BadEvent e)) (from_flat event);
  _ ← ok_or_invalid (ev_path parsed) ChangesNeedNode;
  match ev_data parsed with
  | DAgentFileChanges changes =>
      if existsb (λ path, negb (is_safe_relative_path path))
           (fc_removed_files changes ++ fc_written_files changes)
      then invalid UnsafePath
      else
        let st := foldl (λ st path,
          st <| rs_latest_file_pins := bm_remove path (rs_latest_file_pins st) |>
             <| rs_removed_files := bs_insert path (rs_removed_files st) |>)
          st (fc_removed_files changes) in
        Ok (foldl (λ st path,
          st <| rs_removed_files := bm_remove path (rs_removed_files st) |>)
          st (fc_written_files changes))
  | _ => invalid InvalidChanges
  end.

(** ["agent_checkpoint"]. *)
Definition apply_checkpoint (st : RunState) (event : value) : RunState :=
  match get_str (s"node") event, get (s"checkpoint") event with
  | Some path, Some checkpoint =>
      st <| rs_checkpoints := bm_insert path checkpoint (rs_checkpoints st) |>
  | _, _ => st
  end.

(** ["state_patched"]. *)
Definition apply_state_patched (st : RunState) (event : value) : result JournalError RunState :=
  let st := match get_object (s"inputs") event with
            | Some values =>
                st <| rs_inputs := (λ inputs, bm_extend inputs values) <$> rs_inputs st |>
                   <| rs_vars := patch_inputs (rs_vars st) values |>
            | None => st
            end in
  let st := match get_object (s"step_outputs") event with
            | Some values => st <| rs_vars := patch_step_outputs (rs_vars st) values |>
            | None => st
            end in
  match get_object (s"step_statuses") event with
  | Some values =>
      values ← ok_or_invalid (mapM (λ '(key, v), x ← as_str v; Some (key, x)) values) PatchStatuses;
      Ok (st <| rs_vars := patch_step_statuses (rs_vars st) values |>)
  | None => Ok st
  end.

(** ["parallel_task_joined" | "foreach_sibling_drained" | "foreach_iteration_settled"]. *)
Definition is_reported_class (class : str) : bool :=
  existsb (str_eqb class)
    [ s"completed_success"; s"completed_terminal"; s"interaction_pending"; s"task_error";
      s"agent_continuation" ].
Definition journal_keys : list str :=
  [s"t"; s"ts"; s"run_id"; s"trace_id"; s"span_id"; s"parent_span_id"].
Definition is_resumable (event : value) : bool :=
  let outcome := as_str (index (s"outcome") event) in
  bool_decide (outcome = Some (s"needs_user")) && is_string (index (s"question_id") event)
  || bool_decide (outcome = Some (s"needs_confirm")) && is_string (index (s"confirm_id") event).

Definition foreach_report (st : RunState) (class : str) (event : value) :
    result JournalError RunState :=
  owner ← ok_or_invalid (as_str (index (s"iteration") event)) IterationRequired;
  let fact := match event with
              | VObject m => VObject (foldl (λ m key, bm_remove key m) m journal_keys)
              | _ => event
              end in
  let st := st <| rs_foreach_reports := bm_insert owner fact (rs_foreach_reports st) |> in
  Ok (if negb (bool_decide (is_Some (get (s"result") event)))
         && ((class =s s"task_error")
             || (class =s s"completed_terminal") && negb (is_resumable event))
      then st <| rs_unresolved_tasks := bm_insert owner event (rs_unresolved_tasks st) |>
      else st).

Definition unreported_task (st : RunState) (kind : str) (event : value) :
    result JournalError RunState :=
  let owner := if negb (kind =s s"parallel_task_joined")
               then index (s"iteration") event else index (s"node") event in
  owner ← ok_or_invalid
    (o ← as_str owner; if is_string (index (s"node") event) then Some o else None) OwnerRequired;
  Ok (st <| rs_unresolved_tasks := bm_insert owner event (rs_unresolved_tasks st) |>).

Definition apply_task_joined (st : RunState) (kind : str) (event : value) :
    result JournalError RunState :=
  let class := default [] (as_str (index (s"classification") event)) in
  let unreported := negb (is_reported_class class) in
  st ← (if negb unreported && negb (kind =s s"parallel_task_joined")
        then foreach_report st class event else Ok st);
  if unreported then unreported_task st kind event else Ok st.

(** ["step_skipped"]. *)
Definition apply_step_skipped (st : RunState) (event : value) : result JournalError RunState :=
  n ← count U64_MAX (bs_steps_skipped (rs_budget st)) 1 (s"skipped step");
  let st := st <| rs_budget := rs_budget st <| bs_steps_skipped := n |> |> in
  match get_str (s"node") event with
  | None => Ok st
  | Some path =>
      reason ← failure_detail event ExecutionFailed (s"step was skipped");
      let st := st <| rs_nodes := bm_insert path (NodeSkipped reason) (rs_nodes st) |> in
      let st := retire_interaction st path in
      Ok (st <| rs_vars :=
            set_step_outcome (rs_vars st) path (s"skipped") (Some (failure_value reason)) |>)
  end.

(** ["repair_attempt_started"] and ["regenerate_attempt_started"]. *)
Definition apply_repair_started (st : RunState) : result JournalError RunState :=
  n ← count U64_MAX (bs_repair_attempts (rs_budget st)) 1 (s"repair attempt");
  Ok (st <| rs_budget := rs_budget st <| bs_repair_attempts := n |> |>).
Definition apply_regenerate_started (st : RunState) : result JournalError RunState :=
  n ← count U64_MAX (bs_regenerate_attempts (rs_budget st)) 1 (s"regenerate attempt");
  Ok (st <| rs_budget := rs_budget st <| bs_regenerate_attempts := n |> |>).

(** ["resource"]. *)
Definition apply_resource (st : RunState) (event : value) : RunState :=
  match get_str (s"name") event, get_str (s"sha256") event with
  | Some name, Some digest =>
      st <| rs_resource_pins := bm_insert name digest (rs_resource_pins st) |>
  | _, _ => st
  end.

(** ["confirm_request" | "run_waiting"]. *)
Definition apply_waiting (st : RunState) (kind : str) (event : value) :
    result JournalError RunState :=
  let confirm := kind =s s"confirm_request" in
  st ← (if confirm && bool_decide (is_Some (get (s"files") event))
           && bool_decide (is_Some (get (s"node") event))
        then
          apply_step_finished st
            match event with
            | VObject m => VObject (bm_insert (s"status") (VString (s"needs_confirm")) m)
            | _ => event
            end
        else Ok st);
  install_interaction st event confirm.

(** ["user_answered" | "user_confirmed"]. *)
Definition response_matches (kind : str) (event : value) (i : Interaction) : bool :=
  let '(expected, key, id) := response_identity i in
  (kind =s expected) && bool_decide (get_str key event = Some id).

(** The prompts a response leaves: its own are removed, and the next one is
    shown. *)
Definition settle (kind : str) (event : value) (st : RunState) : RunState :=
  let st := st <| rs_pending_interactions :=
      bm_retain (λ _ i, negb (response_matches kind event i)) (rs_pending_interactions st) |> in
  let st := st <| rs_interaction_seqs :=
      bm_retain (λ owner _, bm_contains owner (rs_pending_interactions st))
        (rs_interaction_seqs st) |> in
  match rs_pending st with
  | Some pending => if response_matches kind event pending then project_interaction st else st
  | None => st
  end.

Definition apply_response (st : RunState) (kind : str) (event : value) :
    result JournalError RunState :=
  let st := st <| rs_queued_at := or_else (get_str (s"queued_at") event) (get_str (s"ts") event) |> in
  let answered := kind =s s"user_answered" in
  id ← ok_or_invalid
         (get_str (if answered then s"question_id" else s"confirmation_id") event)
         (ResponseIdRequired kind);
  st ← (if answered then
          values ← ok_or_invalid (get (s"values") event) ValuesRequired;
          Ok (st <| rs_answers := bm_insert id values (rs_answers st) |>)
        else
          approved ← ok_or_invalid (get_bool (s"approved") event) ApprovedRequired;
          Ok (st <| rs_confirmations := bm_insert id approved (rs_confirmations st) |>));
  Ok (settle kind event st <| rs_terminal := None |>).

(** ["user_cancel_requested"]. *)
Definition apply_cancel_requested (st : RunState) (event : value) : RunState :=
  let st := st <| rs_cancel_requested := true |> in
  match get_str (s"operation_id") event with
  | Some operation_id =>
      st <| rs_cancel_operations := bs_insert operation_id (rs_cancel_operations st) |>
  | None => st
  end.

(** ["hook_failed"]. *)
Definition apply_hook_failed (st : RunState) (event : value) : RunState :=
  match get_str (s"hook") event with
  | None => st
  | Some hook =>
      let status_path := s"steps." ++ hook ++ s".status" in
      let st :=
        match get_path (rs_vars st) status_path with
        | Some _ => st
        | None =>
            let message := default (s"hook execution failed") (get_str (s"error") event) in
            let reason := failure_new ExecutionFailed message in
            st <| rs_vars :=
              set_step_outcome (rs_vars st) hook (s"failed") (Some (failure_value reason)) |>
        end in
      if bool_decide (get_str (s"policy") event = Some (s"warn"))
      then st <| rs_hooks_settled := bs_insert hook (rs_hooks_settled st) |>
      else st
  end.

(** ["hook_skipped"]. *)
Definition apply_hook_skipped (st : RunState) (event : value) : RunState :=
  match get_str (s"hook") event with
  | None => st
  | Some hook =>
      let message := default (s"hook skipped because the run budget was exhausted")
                       (get_str (s"error") event) in
      let reason := failure_new BudgetExceeded message in
      st <| rs_vars :=
           set_step_outcome (rs_vars st) hook (s"skipped") (Some (failure_value reason)) |>
         <| rs_hooks_settled := bs_insert hook (rs_hooks_settled st) |>
  end.

(** ["mcp_input_pending"]. *)
Definition mcp_pending_fields : list str :=
  [ s"node"; s"question_id"; s"server"; s"tool"; s"alias"; s"call_id"; s"arguments";
    s"request_state"; s"input_requests" ].
Definition apply_mcp_pending (st : RunState) (event : value) : RunState :=
  match get_str (s"pending_key") event with
  | None => st
  | Some key =>
      let pending := foldl (λ m field,
        match get field event with Some v => bm_insert field v m | None => m end)
        [] mcp_pending_fields in
      st <| rs_mcp_pending := bm_insert key (VObject pending) (rs_mcp_pending st) |>
  end.

(** ["mcp_continuation_consumed"]. *)
Definition apply_mcp_consumed (st : RunState) (event : value) : RunState :=
  match get_str (s"pending_key") event with
  | None => st
  | Some key =>
      st <| rs_mcp_pending := bm_remove key (rs_mcp_pending st) |>
         <| rs_mcp_resumed := bm_remove key (rs_mcp_resumed st) |>
         <| rs_operation_records :=
              bm_insert (s"mcp:" ++ key)
                (mkOperationRecord [] OpSucceeded None None [] RetryFail)
                (rs_operation_records st) |>
  end.

(** ["mcp_continuation_resumed"]. *)
Definition apply_mcp_resumed (st : RunState) (event : value) : RunState :=
  match get_str (s"pending_key") event, get_str (s"question_id") event with
  | Some key, Some question_id =>
      st <| rs_mcp_resumed := bm_insert key question_id (rs_mcp_resumed st) |>
  | _, _ => st
  end.

(** ["run_finished" | "run_error" | "run_canceled" | "run_interrupted"]. *)
Definition terminal_state (kind : str) (event : value) : TerminalState :=
  if (kind =s s"run_finished") && bool_decide (get_str (s"status") event = Some (s"success"))
  then Succeeded
  else if kind =s s"run_canceled" then RunCanceled
  else if kind =s s"run_interrupted" then RunInterrupted
  else Failed.
Definition apply_terminal (st : RunState) (kind : str) (event : value) : RunState :=
  st <| rs_finished_at := get_str (s"ts") event |>
     <| rs_pending := None |>
     <| rs_pending_seq := None |>
     <| rs_terminal := Some (terminal_state kind event) |>.

(** ["run_forked"]. *)
Definition apply_forked (st : RunState) (event : value) : RunState :=
  st <| rs_run_id := get_str (s"run_id") event |>.

(** ["operation_started"]. *)
Definition apply_operation_started (st : RunState) (event : value) : result JournalError RunState :=
  match get_str (s"operation_id") event with
  | None => Ok st
  | Some id =>
      digest ← ok_or_invalid (get_str (s"operation_digest") event) DigestRequired;
      invocation ← ok_or_invalid (get_str (s"invocation_id") event) InvocationRequired;
      let on_indeterminate :=
        if bool_decide (get_str (s"on_indeterminate") event = Some (s"repeat"))
        then RetryRepeat else RetryFail in
      let record := default (mkOperationRecord digest Started None None invocation on_indeterminate)
                      (bm_get id (rs_operation_records st)) in
      let record := mkOperationRecord (or_digest record) Started (or_result record)
                      (or_result_ref record) (or_invocation record) on_indeterminate in
      let st := st <| rs_operation_records := bm_insert id record (rs_operation_records st) |> in
      attempts ← count U32_MAX (default 0%Z (bm_get id (rs_operation_attempts st))) 1
                   (s"operation attempt generation");
      Ok (st <| rs_operation_attempts := bm_insert id attempts (rs_operation_attempts st) |>)
  end.

(** ["operation_finished"]. *)
Definition finished_outcome (event : value) : OperationStatus * option value * option str :=
  match get_str (s"status") event with
  | Some status =>
      if status =s s"success" then
        (OpSucceeded, get (s"result") event, get_str (s"result_ref") event)
      else if status =s s"clean" then (FailedClean, None, None)
      else (FailedIndeterminate, None, None)
  | None => (FailedIndeterminate, None, None)
  end.
Definition apply_operation_finished (st : RunState) (event : value) : RunState :=
  match get_str (s"operation_id") event with
  | None => st
  | Some id =>
      let '(status, result, result_ref) := finished_outcome event in
      let record := default (mkOperationRecord [] status None None [] RetryFail)
                      (bm_get id (rs_operation_records st)) in
      let digest := default (or_digest record) (get_str (s"operation_digest") event) in
      st <| rs_operation_records :=
           bm_insert id
             (mkOperationRecord digest status result result_ref (or_invocation record)
                (or_on_indeterminate record))
             (rs_operation_records st) |>
  end.

(** ** [apply] *)

Definition kind_in (kind : str) (kinds : list str) : bool := existsb (str_eqb kind) kinds.

(** The guards before the [match] on the kind, in the order of the source. *)
Definition apply_seq (st : RunState) (event : value) : result JournalError RunState :=
  match get_u64 (s"seq") event with
  | None => Ok st
  | Some seq =>
      if (seq =? 0)%Z then invalid ZeroSeq
      else if (seq <=? rs_last_seq st)%Z then invalid (SeqNotGreater seq (rs_last_seq st))
      else Ok (st <| rs_last_seq := seq |>)
  end.
Definition check_owner (st : RunState) (kind : str) (event : value) : result JournalError unit :=
  if kind_in kind [s"run_queued"; s"run_started"; s"run_forked"] then Ok ()
  else match rs_run_id st, get_str (s"run_id") event with
       | Some expected, Some actual =>
           if actual =s expected then Ok () else invalid (ForeignRun actual expected)
       | _, _ => Ok ()
       end.
Definition is_final (st : RunState) : bool :=
  match rs_terminal st with
  | Some Succeeded | Some Failed | Some RunCanceled => true
  | _ => false
  end.
Definition check_schema (kind : str) (event : value) : result JournalError unit :=
  if kind_in kind [s"run_queued"; s"run_started"] then
    match get_u64 (s"schema_version") event with
    | Some version =>
        if (version =? 1)%Z || (version =? JOURNAL_SCHEMA_VERSION)%Z then Ok ()
        else invalid (UnsupportedSchema version)
    | None => Ok ()
    end
  else Ok ().
Definition note_search_cost (st : RunState) (kind : str) (event : value) : RunState :=
  if kind_in kind [s"llm_call"; s"llm_route_failed"] then
    let unresolved :=
      match get (s"web_search") event with
      | Some search =>
          is_object search && negb (bool_decide (is_Some (get_u64 (s"cost_microusd") search)))
      | None => false
      end in
    st <| rs_budget := rs_budget st <|
      bs_unresolved_search_cost := bs_unresolved_search_cost (rs_budget st) || unresolved |> |>
  else st.

(** The [match] on the kind. *)
Definition apply_kind (st : RunState) (kind : str) (event : value) : result JournalError RunState :=
  if kind_in kind [s"run_queued"; s"run_started"] then apply_identity st kind event
  else if kind =s s"run_resumed" then Ok (apply_resumed st)
  else if kind =s s"step_started" then apply_step_started st
  else if kind =s s"elapsed_accounted" then apply_elapsed st event
  else if kind =s s"budget_charged" then apply_budget_charged st event
  else if kind =s s"llm_call" then apply_llm_call st event
  else if kind =s s"agent_file_changes" then apply_file_changes st event
  else if kind =s s"agent_checkpoint" then Ok (apply_checkpoint st event)
  else if kind =s s"state_patched" then apply_state_patched st event
  else if kind_in kind [s"parallel_task_joined"; s"foreach_sibling_drained";
                        s"foreach_iteration_settled"] then apply_task_joined st kind event
  else if kind =s s"step_finished" then apply_step_finished st event
  else if kind =s s"step_skipped" then apply_step_skipped st event
  else if kind =s s"repair_attempt_started" then apply_repair_started st
  else if kind =s s"regenerate_attempt_started" then apply_regenerate_started st
  else if kind =s s"resource" then Ok (apply_resource st event)
  else if kind_in kind [s"confirm_request"; s"run_waiting"] then apply_waiting st kind event
  else if kind_in kind [s"user_answered"; s"user_confirmed"] then apply_response st kind event
  else if kind =s s"user_cancel_requested" then Ok (apply_cancel_requested st event)
  else if kind =s s"hook_failed" then Ok (apply_hook_failed st event)
  else if kind =s s"hook_skipped" then Ok (apply_hook_skipped st event)
  else if kind =s s"mcp_input_pending" then Ok (apply_mcp_pending st event)
  else if kind =s s"mcp_continuation_consumed" then Ok (apply_mcp_consumed st event)
  else if kind =s s"mcp_continuation_resumed" then Ok (apply_mcp_resumed st event)
  else if kind_in kind TERMINAL_EVENT_KINDS then Ok (apply_terminal st kind event)
  else if kind =s s"run_forked" then Ok (apply_forked st event)
  else if kind =s s"operation_started" then apply_operation_started st event
  else if kind =s s"operation_finished" then Ok (apply_operation_finished st event)
  else Ok st.

Definition apply (st : RunState) (event : value) : result JournalError RunState :=
  st ← apply_seq st event;
  kind ← ok_or_invalid (get_str (s"t") event) KindRequired;
  _ ← check_owner st kind event;
  _ ← (if is_known_journal_event_kind kind then Ok () else invalid (UnknownKind kind));
  _ ← (if is_final st && negb (kind_in kind [s"run_queued"; s"run_started"; s"run_resumed"])
       then invalid (FinalRun kind) else Ok ());
  _ ← check_schema kind event;
  apply_kind (note_search_cost st kind event) kind event.

(** [fold_values]: every event is decoded, then applied. *)
Definition fold_step (st : RunState) (event : value) : result JournalError RunState :=
  _ ← map_err (λ e, InvalidEvent (BadEvent e)) (from_flat event);
  apply st event.
Definition fold_values (events : list value) : result JournalError RunState :=
  foldM fold_step state_default events.

(** [fold_journal_through]: the fold of the events whose sequence number is
    at most the limit, over the values read from the file. *)
Fixpoint fold_through (limit : option Z) (st : RunState) (events : list value) :
    result JournalError RunState :=
  match events with
  | [] => Ok st
  | event :: rest =>
      parsed ← map_err (λ e, InvalidEvent (BadEvent e)) (from_flat event);
      if match limit with Some limit => (limit <? ev_seq parsed)%Z | None => false end
      then Ok st
      else st ← apply st event; fold_through limit st rest
  end.
End run_state.
