(* ===== verification/RunStateEffect.v ===== *)
(** * Steps of the run state and their effects *)

From S2P Require Import Prelude Str BMap Json ValueBag PathPolicy Serde Events RunState.

(** * The journal fold as a step relation

    [apply] inverted once: an accepted event is one step of [journal_step],
    whose constructors are the arms of the source.  The invariants of the run
    state are proved by cases on it. *)

Section journal_step.
Context {W : WireTypes}.

(** Kinds with an arm of their own. *)
Definition folded_kinds : list str :=
  [ s"run_queued"; s"run_started"; s"run_resumed"; s"step_started"; s"elapsed_accounted";
    s"budget_charged"; s"llm_call"; s"agent_file_changes"; s"agent_checkpoint";
    s"state_patched"; s"parallel_task_joined"; s"foreach_sibling_drained";
    s"foreach_iteration_settled"; s"step_finished"; s"step_skipped";
    s"repair_attempt_started"; s"regenerate_attempt_started"; s"resource";
    s"confirm_request"; s"run_waiting"; s"user_answered"; s"user_confirmed";
    s"user_cancel_requested"; s"hook_failed"; s"hook_skipped"; s"mcp_input_pending";
    s"mcp_continuation_consumed"; s"mcp_continuation_resumed"; s"run_finished";
    s"run_error"; s"run_canceled"; s"run_interrupted"; s"run_forked";
    s"operation_started"; s"operation_finished" ].

Inductive kind_step (event : value) (st st' : RunState) : str → Prop :=
| SIdentity kind : kind ∈ [s"run_queued"; s"run_started"] →
    apply_identity st kind event = Ok st' → kind_step event st st' kind
| SResumed : st' = apply_resumed st → kind_step event st st' (s"run_resumed")
| SStepStarted : apply_step_started st = Ok st' → kind_step event st st' (s"step_started")
| SElapsed : apply_elapsed st event = Ok st' → kind_step event st st' (s"elapsed_accounted")
| SBudget : apply_budget_charged st event = Ok st' → kind_step event st st' (s"budget_charged")
| SLlmCall : apply_llm_call st event = Ok st' → kind_step event st st' (s"llm_call")
| SFileChanges : apply_file_changes st event = Ok st' →
    kind_step event st st' (s"agent_file_changes")
| SCheckpoint : st' = apply_checkpoint st event → kind_step event st st' (s"agent_checkpoint")
| SPatched : apply_state_patched st event = Ok st' → kind_step event st st' (s"state_patched")
| STaskJoined kind :
    kind ∈ [s"parallel_task_joined"; s"foreach_sibling_drained"; s"foreach_iteration_settled"] →
    apply_task_joined st kind event = Ok st' → kind_step event st st' kind
| SStepFinished : apply_step_finished st event = Ok st' → kind_step event st st' (s"step_finished")
| SStepSkipped : apply_step_skipped st event = Ok st' → kind_step event st st' (s"step_skipped")
| SRepair : apply_repair_started st = Ok st' → kind_step event st st' (s"repair_attempt_started")
| SRegenerate : apply_regenerate_started st = Ok st' →
    kind_step event st st' (s"regenerate_attempt_started")
| SResource : st' = apply_resource st event → kind_step event st st' (s"resource")
| SWaiting kind : kind ∈ [s"confirm_request"; s"run_waiting"] →
    apply_waiting st kind event = Ok st' → kind_step event st st' kind
| SResponse kind : kind ∈ [s"user_answered"; s"user_confirmed"] →
    apply_response st kind event = Ok st' → kind_step event st st' kind
| SCancel : st' = apply_cancel_requested st event →
    kind_step event st st' (s"user_cancel_requested")
| SHookFailed : st' = apply_hook_failed st event → kind_step event st st' (s"hook_failed")
| SHookSkipped : st' = apply_hook_skipped st event → kind_step event st st' (s"hook_skipped")
| SMcpPending : st' = apply_mcp_pending st event → kind_step event st st' (s"mcp_input_pending")
| SMcpConsumed : st' = apply_mcp_consumed st event →
    kind_step event st st' (s"mcp_continuation_consumed")
| SMcpResumed : st' = apply_mcp_resumed st event →
    kind_step event st st' (s"mcp_continuation_resumed")
| STerminal kind : kind ∈ TERMINAL_EVENT_KINDS →
    st' = apply_terminal st kind event → kind_step event st st' kind
| SForked : st' = apply_forked st event → kind_step event st st' (s"run_forked")
| SOperationStarted : apply_operation_started st event = Ok st' →
    kind_step event st st' (s"operation_started")
| SOperationFinished : st' = apply_operation_finished st event →
    kind_step event st st' (s"operation_finished")
| SOther kind : kind ∉ folded_kinds → st' = st → kind_step event st st' kind.

Lemma kind_in_elem kind kinds : kind_in kind kinds = true ↔ kind ∈ kinds.
Proof.
  unfold kind_in. rewrite existsb_exists. setoid_rewrite <-list_elem_of_In. split.
  - intros (x & Hx & ->%str_eqb_eq). done.
  - intros Hk. exists kind. by rewrite str_eqb_refl.
Qed.

Lemma apply_kind_step st st' kind event :
  apply_kind st kind event = Ok st' → kind_step event st st' kind.
Proof.
  unfold apply_kind. intros Ha.
  repeat match type of Ha with
  | (if kind_in ?k ?l then _ else _) = _ =>
      let E := fresh "E" in destruct (kind_in k l) eqn:E; [apply kind_in_elem in E|]
  | (if ?k =s ?l then _ else _) = _ =>
      let E := fresh "E" in destruct (k =s l) eqn:E; [apply str_eqb_eq in E; subst k|]
  end.
  all: try (injection Ha as <-).
  all: try (solve [econstructor; eauto]).
  apply SOther; [|done]. intros Hk. apply kind_in_elem in Hk.
  unfold kind_in, folded_kinds, TERMINAL_EVENT_KINDS in *. cbn [existsb] in *.
  repeat match goal with
  | E : _ || _ = false |- _ => apply orb_false_iff in E as [? ?]
  | E : (kind =s ?l) = false, Hk : context [kind =s ?l] |- _ => rewrite E in Hk
  end. done.
Qed.

(** One accepted event. *)
Record journal_step (event : value) (st st' : RunState) (kind : str) : Prop := {
  js_kind : get_str (s"t") event = Some kind;
  js_known : is_known_journal_event_kind kind = true;
  js_seq : match get_u64 (s"seq") event with
           | Some seq => (rs_last_seq st < seq ∧ seq ≠ 0)%Z
           | None => True
           end;
  js_owner : check_owner st kind event = Ok ();
  js_final : is_final st = true → kind ∈ [s"run_queued"; s"run_started"; s"run_resumed"];
  js_schema : check_schema kind event = Ok ();
  js_step : kind_step event
              (note_search_cost (st <| rs_last_seq := default (rs_last_seq st) (get_u64 (s"seq") event) |>)
                 kind event) st' kind;
}.

Lemma set_last_seq_id st : st <| rs_last_seq := rs_last_seq st |> = st.
Proof. by destruct st. Qed.

Lemma apply_seq_Ok st st' event :
  apply_seq st event = Ok st' →
  st' = st <| rs_last_seq := default (rs_last_seq st) (get_u64 (s"seq") event) |> ∧
  match get_u64 (s"seq") event with
  | Some seq => (rs_last_seq st < seq ∧ seq ≠ 0)%Z
  | None => True
  end.
Proof.
  unfold apply_seq. destruct (get_u64 (s"seq") event) as [seq|]; cbn.
  - destruct (Z.eqb_spec seq 0); [done|]. destruct (Z.leb_spec seq (rs_last_seq st)); [done|].
    intros [= <-]. done.
  - intros [= <-]. by rewrite set_last_seq_id.
Qed.

Lemma apply_step st st' event :
  apply st event = Ok st' → ∃ kind, journal_step event st st' kind.
Proof.
  unfold apply. intros Ha. apply result_bind_Ok in Ha as (st1 & Hs & Ha).
  apply apply_seq_Ok in Hs as [-> Hs].
  apply result_bind_Ok in Ha as (kind & Hk%ok_or_Ok & Ha).
  apply result_bind_Ok in Ha as ([] & Ho & Ha). apply result_bind_Ok in Ha as ([] & Hn & Ha).
  apply result_bind_Ok in Ha as ([] & Hf & Ha). apply result_bind_Ok in Ha as ([] & Hc & Ha).
  exists kind. constructor; try done.
  - by destruct (is_known_journal_event_kind kind).
  - intros Hfin. apply kind_in_elem.
    change (is_final (st <| rs_last_seq := _ |>)) with (is_final st) in Hf.
    rewrite Hfin in Hf. by destruct (kind_in kind _).
  - by apply apply_kind_step.
Qed.

(** The arm an accepted event runs. *)
Lemma apply_arm st st' event kind :
  apply st event = Ok st' → get_str (s"t") event = Some kind →
  apply_kind (note_search_cost (st <| rs_last_seq := default (rs_last_seq st) (get_u64 (s"seq") event) |>)
                kind event) kind event = Ok st'.
Proof.
  unfold apply. intros Ha Ht. apply result_bind_Ok in Ha as (st1 & Hs & Ha).
  apply apply_seq_Ok in Hs as [-> _]. rewrite Ht in Ha. cbn [ok_or_invalid ok_or mbind result_bind] in Ha.
  do 4 (apply result_bind_Ok in Ha as (? & _ & Ha)). exact Ha.
Qed.
End journal_step.

#[local] Arguments s : simpl never.

(** * The run state: the effect of one event

    Each arm of [apply] summarised by the tracked fields it changes: lineage,
    budget, file pins, operations, node executions, terminal state.  What is
    left ([sans_misc] erases it) is not constrained here. *)

(** Splits membership of a kind in a concrete list. *)
Ltac split_kind :=
  repeat match goal with
  | E : _ ∈ _ :: _ |- _ => apply elem_of_cons in E as [->|E]
  | E : _ ∈ [] |- _ => by apply not_elem_of_nil in E
  end.

Section effects.
Context {W : WireTypes}.
Implicit Types (st : RunState) (event : value).

(** ** Frames *)

(** Splits every hypothesis that a computation returned [Ok]. *)
Ltac ok_step :=
  match goal with
  | E : mbind _ _ = Ok _ |- _ =>
      let x := fresh "x" in let Hx := fresh "Hx" in
      apply result_bind_Ok in E as (x & Hx & E)
  | E : Ok _ = Ok _ |- _ => injection E as E; subst
  | E : Err _ = Ok _ |- _ => discriminate E
  | E : invalid _ = Ok _ |- _ => discriminate E
  | E : ok_or_invalid _ _ = Ok _ |- _ => apply ok_or_Ok in E
  | E : ok_or _ _ = Ok _ |- _ => apply ok_or_Ok in E
  | E : (if ?b then _ else _) = Ok _ |- _ => let E' := fresh "E" in destruct b eqn:E'
  | E : (match ?o with Some _ => _ | None => _ end) = Ok _ |- _ =>
      let E' := fresh "E" in destruct o eqn:E'
  end.
Ltac ok_inv := repeat (ok_step; cbn zeta in * ).

Lemma workspace_pins_eq st files :
  apply_workspace_file_pins st files =
  st <| rs_latest_file_pins :=
          foldl (λ m pin, bm_insert (pin_path pin) (pin_sha256 pin) m) (rs_latest_file_pins st) files |>
     <| rs_removed_files := foldl (λ m pin, bm_remove (pin_path pin) m) (rs_removed_files st) files |>.
Proof.
  unfold apply_workspace_file_pins. revert st; induction files as [|pin files IH]; intros st.
  - by destruct st.
  - cbn [foldl]. by rewrite IH.
Qed.

(** A state without its prompts; helpers that touch only the prompts keep it. *)
Definition sans_prompts st : RunState :=
  st <| rs_pending := None |> <| rs_pending_seq := None |>
     <| rs_pending_interactions := [] |> <| rs_interaction_seqs := [] |>.

Lemma install_frame st st' event b :
  install_interaction st event b = Ok st' → sans_prompts st' = sans_prompts st.
Proof. unfold install_interaction. intros Hi. by ok_inv. Qed.
Lemma retire_frame st path : sans_prompts (retire_interaction st path) = sans_prompts st.
Proof.
  unfold retire_interaction. cbn zeta.
  change (rs_pending (st <| rs_pending_interactions := _ |>)) with (rs_pending st).
  destruct (bm_get _ _), (rs_pending st); try done. by case_if.
Qed.

(** A state without what a finished step reports. *)
Definition sans_report st : RunState :=
  sans_prompts st <| rs_nodes := [] |> <| rs_vars := bag_default |> <| rs_checkpoints := [] |>
    <| rs_unresolved_tasks := [] |> <| rs_historical_file_pins := [] |>
    <| rs_latest_file_pins := [] |> <| rs_removed_files := [] |>
    <| rs_node_executions := [] |> <| rs_budget := budget_default |>.

Lemma count_Ok max a n c r : count max a n c = Ok r → r = (a + n)%Z ∧ (a + n ≤ max)%Z.
Proof. unfold count. intros Hc%ok_or_Ok. by apply checked_add_Some in Hc. Qed.

Definition pins_latest (files : list FilePin) (m : bmap str) : bmap str :=
  foldl (λ m pin, bm_insert (pin_path pin) (pin_sha256 pin) m) m files.
Definition pins_unremoved (files : list FilePin) (m : bmap unit) : bmap unit :=
  foldl (λ m pin, bm_remove (pin_path pin) m) m files.

Lemma suspended_not_success status :
  is_suspended_status status = true → is_success_status status = false.
Proof. unfold is_suspended_status. by intros [->%str_eqb_eq| ->%str_eqb_eq]%orb_true_iff. Qed.

Lemma record_execution_inv st st' path :
  record_node_execution st path = Ok st' →
  st' = st <| rs_node_executions :=
    bm_insert path (default 0 (bm_get path (rs_node_executions st)) + 1)%Z (rs_node_executions st) |> ∧
  (default 0 (bm_get path (rs_node_executions st)) + 1 ≤ U64_MAX)%Z.
Proof. unfold record_node_execution. intros Hr. ok_inv. by apply count_Ok in Hx as [-> ?]. Qed.

Lemma succeeded_inv st st' event path files :
  step_succeeded st event path files = Ok st' →
  sans_report st' = sans_report st ∧
  rs_budget st' = rs_budget st <| bs_steps_succeeded := (bs_steps_succeeded (rs_budget st) + 1)%Z |> ∧
  (bs_steps_succeeded (rs_budget st) + 1 ≤ U64_MAX)%Z ∧
  rs_latest_file_pins st' = rs_latest_file_pins st ∧ rs_removed_files st' = rs_removed_files st ∧
  rs_historical_file_pins st' = rs_historical_file_pins st ∧
  rs_node_executions st' = rs_node_executions st.
Proof. unfold step_succeeded. intros Hs. ok_inv. by apply count_Ok in Hx as [-> ?]. Qed.
Lemma failed_inv st st' event path status :
  step_failed st event path status = Ok st' →
  sans_report st' = sans_report st ∧
  rs_budget st' = rs_budget st <| bs_steps_failed := (bs_steps_failed (rs_budget st) + 1)%Z |> ∧
  (bs_steps_failed (rs_budget st) + 1 ≤ U64_MAX)%Z ∧
  rs_latest_file_pins st' = rs_latest_file_pins st ∧ rs_removed_files st' = rs_removed_files st ∧
  rs_historical_file_pins st' = rs_historical_file_pins st ∧
  rs_node_executions st' = rs_node_executions st.
Proof. unfold step_failed. intros Hs. ok_inv. by apply count_Ok in Hx as [-> ?]. Qed.

(** Everything [apply_step_finished] does outside prompts, variables and
    outcomes. *)
Record finished event st st' (path status : str) (files failed : list FilePin) : Prop := {
  fin_node : get_str (s"node") event = Some path;
  fin_status : get_str (s"status") event = Some status;
  fin_files : pins event (s"files") = Ok files;
  fin_failed : pins event (s"failed_files") = Ok failed;
  fin_core : sans_report st' = sans_report st;
  fin_history : rs_historical_file_pins st' =
    record_history (rs_historical_file_pins st) (files ++ failed);
  fin_latest : rs_latest_file_pins st' =
    if is_success_status status || is_suspended_status status
    then pins_latest files (rs_latest_file_pins st) else rs_latest_file_pins st;
  fin_removed : rs_removed_files st' =
    if is_success_status status || is_suspended_status status
    then pins_unremoved files (rs_removed_files st) else rs_removed_files st;
  fin_budget : rs_budget st' =
    if is_suspended_status status then rs_budget st
    else if is_success_status status
    then rs_budget st <| bs_steps_succeeded := (bs_steps_succeeded (rs_budget st) + 1)%Z |>
    else rs_budget st <| bs_steps_failed := (bs_steps_failed (rs_budget st) + 1)%Z |>;
  fin_executions : rs_node_executions st' =
    if is_suspended_status status then rs_node_executions st
    else bm_insert path (default 0 (bm_get path (rs_node_executions st)) + 1)%Z
           (rs_node_executions st);
  fin_bounds :
    if is_suspended_status status then True
    else if is_success_status status then (bs_steps_succeeded (rs_budget st) + 1 ≤ U64_MAX)%Z
    else (bs_steps_failed (rs_budget st) + 1 ≤ U64_MAX)%Z;
}.

Lemma finished_inv st st' event :
  apply_step_finished st event = Ok st' →
  ∃ path status files failed, finished event st st' path status files failed.
Proof.
  unfold apply_step_finished. intros Hf.
  apply result_bind_Ok in Hf as (path & Hpath%ok_or_Ok & Hf).
  apply result_bind_Ok in Hf as (status & Hstatus%ok_or_Ok & Hf).
  apply result_bind_Ok in Hf as (files & Hfiles & Hf).
  apply result_bind_Ok in Hf as (failed & Hfailed & Hf).
  exists path, status, files, failed. cbn zeta in Hf. rewrite workspace_pins_eq in Hf.
  destruct (is_suspended_status status) eqn:Es.
  - rewrite (suspended_not_success _ Es) in *. cbn [orb negb] in Hf. ok_inv.
    pose proof (install_frame _ _ _ _ Hx) as E.
    constructor; rewrite ?Es, ?(suspended_not_success _ Es); try done;
      first [exact (f_equal sans_report E) | exact (f_equal rs_historical_file_pins E)
            |exact (f_equal rs_latest_file_pins E) |exact (f_equal rs_removed_files E)
            |exact (f_equal rs_budget E) |exact (f_equal rs_node_executions E)].
  - destruct (is_success_status status) eqn:Esu; cbn [negb orb] in Hf.
    all: apply result_bind_Ok in Hf as (st1 & [= <-] & Hf).
    all: apply result_bind_Ok in Hf as (st2 & Hs & Hf).
    all: apply record_execution_inv in Hf as [-> _].
    all: generalize (retire_interaction (st2 <| rs_checkpoints := bm_remove path (rs_checkpoints st2) |>) path),
      (retire_frame (st2 <| rs_checkpoints := bm_remove path (rs_checkpoints st2) |>) path).
    all: intros st3 E.
    all: first [apply succeeded_inv in Hs as (E1 & E2 & Hle & E3 & E4 & E5 & E6)
               |apply failed_inv in Hs as (E1 & E2 & Hle & E3 & E4 & E5 & E6)].
    all: constructor; rewrite ?Es, ?Esu; try done; cbn [orb].
    all: first [etransitivity; [exact (f_equal sans_report E)|exact E1]
               |etransitivity; [exact (f_equal rs_historical_file_pins E)|exact E5]
               |etransitivity; [exact (f_equal rs_latest_file_pins E)|exact E3]
               |etransitivity; [exact (f_equal rs_removed_files E)|exact E4]
               |etransitivity; [exact (f_equal rs_budget E)|exact E2]
               |idtac].
    all: change (rs_node_executions (?a <| rs_node_executions := ?b |>)) with b.
    all: assert (rs_node_executions st3 = rs_node_executions st) as ->
      by (etransitivity; [exact (f_equal rs_node_executions E)|exact E6]).
    all: done.
Qed.
(** ** Identity events *)

(** A state without what an identity event records. *)
Definition sans_admission st : RunState :=
  st <| rs_priority := 0%Z |> <| rs_parent_run_id := None |> <| rs_queued_at := None |>
     <| rs_answers := [] |> <| rs_confirmations := [] |>.
Definition sans_identity st : RunState :=
  sans_admission st <| rs_run_id := None |> <| rs_package_sha256 := None |>
    <| rs_generator_path := None |> <| rs_contract_sha256 := None |> <| rs_generator_id := None |>
    <| rs_inputs := None |> <| rs_vars := bag_default |> <| rs_terminal := None |>
    <| rs_execution_started := false |> <| rs_labels := [] |> <| rs_budget := budget_default |>.

Lemma admit_frame st event : sans_admission (admit_queued st event) = sans_admission st.
Proof.
  unfold admit_queued. cbn zeta.
  by destruct (get (s"priority") event ≫= as_i64), (get_object (s"answers") event),
    (get_object (s"confirmations") event).
Qed.

(** The lineage fields, and everything else. *)
Definition lineage_of st : RunState * option str * option str * option str * option str :=
  (sans_identity st, rs_run_id st, rs_package_sha256 st, rs_generator_id st, rs_contract_sha256 st).
Definition started b event : BudgetState :=
  b <| bs_started_at := or_else (bs_started_at b) (get_str (s"ts") event) |>.

Lemma identity_body_frame st kind event :
  let st' := identity_body st kind event in
  lineage_of st' = lineage_of st ∧ rs_terminal st' = None ∧
  rs_budget st' = started (rs_budget st) event.
Proof.
  unfold identity_body. cbn zeta.
  set (st1 := match get_object (s"inputs") event with _ => _ end <| rs_terminal := None |>).
  assert (E1 : lineage_of st1 = lineage_of st ∧ rs_terminal st1 = None ∧ rs_budget st1 = rs_budget st)
    by (subst st1; by destruct (get_object _ _)).
  clearbody st1. destruct E1 as (E1 & E2 & E3).
  set (st2 := match bs_started_at (rs_budget st1) with Some _ => st1 | None => _ end).
  assert (F : lineage_of st2 = lineage_of st1 ∧ rs_terminal st2 = rs_terminal st1 ∧
              rs_budget st2 = started (rs_budget st1) event).
  { subst st2. unfold started. destruct (bs_started_at (rs_budget st1)) eqn:E; [|done].
    split; [done|]. split; [done|]. cbn. rewrite <-E. by destruct (rs_budget st1). }
  clearbody st2. pose proof (admit_frame st2 event) as Ea. rewrite E1, E2, E3 in F.
  set (st3 := if kind =s s"run_queued" then _ else _).
  assert (E : sans_admission st3 = sans_admission st2) by (subst st3; by case_if).
  clearbody st3. destruct F as (<- & <- & <-).
  set (o := get_object (s"labels") event). clearbody o. destruct (kind =s s"run_started"), o.
  all: exact (conj (f_equal lineage_of E) (conj (f_equal rs_terminal E) (f_equal rs_budget E))).
Qed.
Lemma lineage_inv st st' event :
  identity_lineage st event = Ok st' →
  sans_identity st' = sans_identity st ∧ rs_budget st' = rs_budget st ∧
  rs_run_id st' = get_str (s"run_id") event ∧
  (∀ previous next, rs_run_id st = Some previous → get_str (s"run_id") event = Some next →
     next = previous ∨ get_str (s"parent_run_id") event = Some previous) ∧
  (∀ p, rs_package_sha256 st = Some p → rs_package_sha256 st' = Some p) ∧
  (∀ g, rs_generator_id st = Some g → rs_generator_id st' = Some g).
Proof.
  unfold identity_lineage. intros Hl. apply result_bind_Ok in Hl as ([] & Hp & Hl). cbn zeta in Hl.
  change (rs_package_sha256 (st <| rs_run_id := _ |>)) with (rs_package_sha256 st) in Hl.
  assert (Hpar : ∀ previous next, rs_run_id st = Some previous → get_str (s"run_id") event = Some next →
     next = previous ∨ get_str (s"parent_run_id") event = Some previous).
  { intros p n E1 E2. rewrite E1, E2 in Hp. destruct (str_eqb_spec p n); [by left|].
    right. apply dec_stable. intros Hne. by rewrite bool_decide_eq_false_2 in Hp. }
  destruct (_ && _) eqn:Epkg in Hl; [done|].
  assert (Hpkg : ∀ p, rs_package_sha256 st = Some p → get_str (s"package_sha256") event = Some p).
  { intros p E. rewrite E, bool_decide_eq_true_2 in Epkg by eauto. cbn [negb andb] in Epkg.
    by case_bool_decide. }
  injection Hl as <-. change (rs_generator_id _) with (rs_generator_id st) at 1.
  destruct (rs_generator_id st) eqn:Eg; repeat (split; [done|]); [|done].
  intros g [= <-]. exact Eg.
Qed.

Lemma ledger_inv st st' mode :
  identity_ledger st mode = Ok st' →
  (∀ t, bs_started_at (rs_budget st) = Some t → bs_elapsed_budget_mode (rs_budget st) = mode) ∧
  ∃ ledger, st' = st <| rs_budget := rs_budget st <| bs_elapsed := ledger |>
                                                  <| bs_elapsed_budget_mode := mode |> |> ∧
    (ledger = bs_elapsed (rs_budget st) ∨
     bs_elapsed (rs_budget st) = None ∧ ledger = Some (mkElapsed 0 None) ∧
     bs_started_at (rs_budget st) = None).
Proof.
  unfold identity_ledger. cbn zeta. intros Hl. destruct (_ && _) eqn:Em in Hl; [done|]. split.
  - intros t E. rewrite E, bool_decide_eq_true_2 in Em by eauto.
    by apply negb_false_iff, bool_decide_eq_true in Em.
  - apply result_bind_Ok in Hl as (b & Hb & [= <-]). destruct (_ && _) eqn:Ee in Hb.
    + destruct (_ || _) eqn:Eo in Hb; [done|]. injection Hb as <-. eexists. split; [done|].
      apply orb_false_iff in Eo as [[_ Eo]%orb_false_iff _].
      apply andb_true_iff in Ee as [_ Ee]. right.
      apply negb_true_iff in Ee. apply bool_decide_eq_false in Ee, Eo.
      by apply eq_None_not_Some in Ee, Eo.
    + injection Hb as <-. exists (bs_elapsed (rs_budget st)). split; [|by left].
      by destruct (rs_budget st).
Qed.

(** What an accepted identity event does. *)
Record identified event st st' (mode : ElapsedBudgetMode) (ledger : option ElapsedAccounted) : Prop := {
  id_core : sans_identity st' = sans_identity st;
  id_terminal : rs_terminal st' = None;
  id_run : rs_run_id st' = get_str (s"run_id") event;
  id_parent : ∀ previous next, rs_run_id st = Some previous →
    get_str (s"run_id") event = Some next →
    next = previous ∨ get_str (s"parent_run_id") event = Some previous;
  id_package : ∀ p, rs_package_sha256 st = Some p → rs_package_sha256 st' = Some p;
  id_generator : ∀ g, rs_generator_id st = Some g → rs_generator_id st' = Some g;
  id_mode : ∀ t, bs_started_at (rs_budget st) = Some t → bs_elapsed_budget_mode (rs_budget st) = mode;
  id_ledger : ledger = bs_elapsed (rs_budget st) ∨
    bs_elapsed (rs_budget st) = None ∧ ledger = Some (mkElapsed 0 None) ∧
    bs_started_at (rs_budget st) = None;
  id_budget : rs_budget st' =
    started (rs_budget st <| bs_elapsed := ledger |> <| bs_elapsed_budget_mode := mode |>) event;
}.

Lemma identified_inv st st' kind event :
  apply_identity st kind event = Ok st' → ∃ mode ledger, identified event st st' mode ledger.
Proof.
  unfold apply_identity. intros Hi. apply result_bind_Ok in Hi as (mode & _ & Hi).
  apply result_bind_Ok in Hi as (st1 & Hl & Hi).
  apply ledger_inv in Hl as (Hm & ledger & -> & Hl).
  apply result_bind_Ok in Hi as (st2 & Hn & [= <-]).
  apply lineage_inv in Hn as (E1 & E2 & E3 & E4 & E5 & E6).
  destruct (identity_body_frame st2 kind event) as (F1 & F2 & F3).
  pose proof (f_equal (λ t, t.1.1.1.1) F1 : sans_identity _ = sans_identity _) as G1.
  pose proof (f_equal (λ t, t.1.1.1.2) F1 : rs_run_id _ = rs_run_id _) as G2.
  pose proof (f_equal (λ t, t.1.1.2) F1 : rs_package_sha256 _ = rs_package_sha256 _) as G3.
  pose proof (f_equal (λ t, t.1.2) F1 : rs_generator_id _ = rs_generator_id _) as G4.
  exists mode, ledger. split; try done.
  - by rewrite G1, E1.
  - by rewrite G2.
  - intros p Ep. rewrite G3. by apply E5.
  - intros g Eg. rewrite G4. by apply E6.
  - by rewrite F3, E2.
Qed.

(** ** The effect of one event on the tracked fields *)

Definition sans_misc st : RunState :=
  sans_prompts st <| rs_generator_path := None |> <| rs_labels := [] |> <| rs_inputs := None |>
    <| rs_vars := bag_default |> <| rs_nodes := [] |> <| rs_checkpoints := [] |>
    <| rs_unresolved_tasks := [] |> <| rs_foreach_reports := [] |> <| rs_resource_pins := [] |>
    <| rs_finished_at := None |> <| rs_priority := 0%Z |> <| rs_parent_run_id := None |>
    <| rs_queued_at := None |> <| rs_answers := [] |> <| rs_confirmations := [] |>
    <| rs_cancel_requested := false |> <| rs_cancel_operations := [] |> <| rs_mcp_pending := [] |>
    <| rs_mcp_resumed := [] |> <| rs_hooks_settled := [] |>.

Inductive budget_step event (b b' : BudgetState) : str → Prop :=
| BStarted : (bs_steps_executed b + 1 ≤ USIZE_MAX)%Z →
    b' = b <| bs_steps_executed := (bs_steps_executed b + 1)%Z |> →
    budget_step event b b' (s"step_started")
| BElapsed previous next : bs_elapsed_budget_mode b = ActiveExecution →
    bs_elapsed b = Some previous → legal_ledger previous next = true →
    b' = b <| bs_elapsed := Some next |> → budget_step event b b' (s"elapsed_accounted")
| BCharged amount : amount = default 1%Z (get_u64 (s"amount") event) →
    (bs_budget_charged b + amount ≤ USIZE_MAX)%Z →
    b' = b <| bs_budget_charged := (bs_budget_charged b + amount)%Z |>
           <| bs_has_budget_charges := true |> → budget_step event b b' (s"budget_charged")
| BLlm b1 cost : (bs_llm_calls b + 1 ≤ U64_MAX)%Z →
    (b1 = b <| bs_llm_calls := (bs_llm_calls b + 1)%Z |> ∧ get_object (s"tokens") event = None ∨
     ∃ tokens, get_object (s"tokens") event = Some tokens ∧
       charge_tokens (b <| bs_llm_calls := (bs_llm_calls b + 1)%Z |>) tokens = Ok b1) →
    get_u64 (s"cost_microusd") event = Some cost → (bs_cost_microusd b1 + cost ≤ U64_MAX)%Z →
    b' = b1 <| bs_cost_microusd := (bs_cost_microusd b1 + cost)%Z |> →
    budget_step event b b' (s"llm_call")
| BSkipped : (bs_steps_skipped b + 1 ≤ U64_MAX)%Z →
    b' = b <| bs_steps_skipped := (bs_steps_skipped b + 1)%Z |> →
    budget_step event b b' (s"step_skipped")
| BRepair : (bs_repair_attempts b + 1 ≤ U64_MAX)%Z →
    b' = b <| bs_repair_attempts := (bs_repair_attempts b + 1)%Z |> →
    budget_step event b b' (s"repair_attempt_started")
| BRegenerate : (bs_regenerate_attempts b + 1 ≤ U64_MAX)%Z →
    b' = b <| bs_regenerate_attempts := (bs_regenerate_attempts b + 1)%Z |> →
    budget_step event b b' (s"regenerate_attempt_started").

(** Kinds whose arm changes a tracked field. *)
Definition tracked_kinds : list str :=
  [ s"run_queued"; s"run_started"; s"run_resumed"; s"step_started"; s"elapsed_accounted";
    s"budget_charged"; s"llm_call"; s"agent_file_changes"; s"step_finished"; s"step_skipped";
    s"repair_attempt_started"; s"regenerate_attempt_started"; s"user_answered";
    s"user_confirmed"; s"mcp_continuation_consumed"; s"run_finished"; s"run_error";
    s"run_canceled"; s"run_interrupted"; s"run_forked"; s"operation_started";
    s"operation_finished" ].

(** The two loops of [agent_file_changes]. *)
Definition changes_latest (c : AgentFileChanges) (m : bmap str) : bmap str :=
  foldl (λ m path, bm_remove path m) m (fc_removed_files c).
Definition changes_removed (c : AgentFileChanges) (m : bmap unit) : bmap unit :=
  foldl (λ m path, bm_remove path m)
    (foldl (λ m path, bs_insert path m) m (fc_removed_files c)) (fc_written_files c).

Inductive effect event st st' : str → Prop :=
| EMisc kind : kind ∉ tracked_kinds → sans_misc st' = sans_misc st → effect event st st' kind
| EIdentity kind mode ledger : kind ∈ [s"run_queued"; s"run_started"] →
    identified event st st' mode ledger → effect event st st' kind
| ERestart kind : kind ∈ [s"run_resumed"; s"user_answered"; s"user_confirmed"] →
    sans_misc st' = sans_misc (st <| rs_terminal := None |>) → effect event st st' kind
| EEnd kind : kind ∈ TERMINAL_EVENT_KINDS →
    sans_misc st' = sans_misc (st <| rs_terminal := Some (terminal_state kind event) |>) →
    rs_pending st' = None → rs_pending_seq st' = None → effect event st st' kind
| EForked : sans_misc st' = sans_misc (st <| rs_run_id := get_str (s"run_id") event |>) →
    effect event st st' (s"run_forked")
| EBudget kind b : budget_step event (rs_budget st) b kind →
    sans_misc st' = sans_misc (st <| rs_budget := b |>) → effect event st st' kind
| EChanges c path : ev_data <$> from_flat event = Ok (DAgentFileChanges c) →
    get_str (s"node") event = Some path →
    Forall (λ p, is_safe_relative_path p = true) (fc_removed_files c ++ fc_written_files c) →
    sans_misc st' = sans_misc (st
      <| rs_latest_file_pins := changes_latest c (rs_latest_file_pins st) |>
      <| rs_removed_files := changes_removed c (rs_removed_files st) |>) →
    effect event st st' (s"agent_file_changes")
| EFinished path status files failed : finished event st st' path status files failed →
    effect event st st' (s"step_finished")
| ESuspended status path files failed event' : finished event' st st' path status files failed →
    is_suspended_status status = true → get_str (s"t") event' = get_str (s"t") event →
    effect event st st' (s"confirm_request")
| EOperations kind records attempts :
    kind ∈ [s"mcp_continuation_consumed"; s"operation_started"; s"operation_finished"] →
    (kind = s"mcp_continuation_consumed" ∧ records = rs_operation_records (apply_mcp_consumed st event)
       ∧ attempts = rs_operation_attempts st ∨
     kind = s"operation_finished" ∧ records = rs_operation_records (apply_operation_finished st event)
       ∧ attempts = rs_operation_attempts st ∨
     kind = s"operation_started" ∧ ∃ st1, apply_operation_started st event = Ok st1 ∧
       records = rs_operation_records st1 ∧ attempts = rs_operation_attempts st1) →
    sans_misc st' = sans_misc (st <| rs_operation_records := records |>
                                  <| rs_operation_attempts := attempts |>) →
    effect event st st' kind.

Lemma misc_of_prompts st st' : sans_prompts st' = sans_prompts st → sans_misc st' = sans_misc st.
Proof. intros E. exact (f_equal sans_misc E). Qed.

Lemma patched_frame st st' event :
  apply_state_patched st event = Ok st' → sans_misc st' = sans_misc st.
Proof.
  unfold apply_state_patched. cbn zeta. intros Hp.
  destruct (get_object (s"inputs") event), (get_object (s"step_outputs") event),
    (get_object (s"step_statuses") event); by ok_inv.
Qed.
Lemma task_joined_frame st st' kind event :
  apply_task_joined st kind event = Ok st' → sans_misc st' = sans_misc st.
Proof.
  unfold apply_task_joined. cbn zeta. intros Hj. apply result_bind_Ok in Hj as (st1 & H1 & Hj).
  assert (E1 : sans_misc st1 = sans_misc st).
  { unfold foreach_report in H1. case_if in H1; [|by injection H1 as <-].
    apply result_bind_Ok in H1 as (owner & _ & [= <-]). by case_if. }
  rewrite <-E1. unfold unreported_task in Hj. case_if in Hj; [|by injection Hj as <-].
  by apply result_bind_Ok in Hj as (owner & _ & [= <-]).
Qed.
Lemma hook_failed_frame st event : sans_misc (apply_hook_failed st event) = sans_misc st.
Proof.
  unfold apply_hook_failed. destruct (get_str _ event); [|done]. cbn zeta.
  destruct (get_path _ _); by case_if.
Qed.
Lemma settle_frame kind event st : sans_prompts (settle kind event st) = sans_prompts st.
Proof.
  unfold settle. cbn zeta. destr_goal; [by case_if|done].
Qed.
Lemma response_frame st st' kind event :
  apply_response st kind event = Ok st' →
  sans_misc st' = sans_misc (st <| rs_terminal := None |>).
Proof.
  unfold apply_response. cbn zeta. intros Hr. apply result_bind_Ok in Hr as (id & _ & Hr).
  apply result_bind_Ok in Hr as (st1 & H1 & [= <-]).
  assert (E1 : sans_misc st1 = sans_misc st) by (case_if in H1; by ok_inv).
  transitivity (sans_misc (st1 <| rs_terminal := None |>));
    [|exact (f_equal (λ st, st <| rs_terminal := None |>) E1)].
  generalize (settle kind event st1), (settle_frame kind event st1). intros st2 E2.
  apply (f_equal (λ st : RunState, sans_misc (st <| rs_terminal := None |>))) in E2. exact E2.
Qed.
Lemma retire_misc st path nodes vars :
  sans_misc (retire_interaction (st <| rs_nodes := nodes |>) path <| rs_vars := vars |>)
  = sans_misc st.
Proof.
  generalize (retire_interaction (st <| rs_nodes := nodes |>) path),
    (retire_frame (st <| rs_nodes := nodes |>) path).
  intros st2 E. exact (f_equal sans_misc E).
Qed.
Lemma skipped_frame st st' event :
  apply_step_skipped st event = Ok st' →
  (bs_steps_skipped (rs_budget st) + 1 ≤ U64_MAX)%Z ∧
  sans_misc st' = sans_misc (st <| rs_budget := rs_budget st <|
    bs_steps_skipped := (bs_steps_skipped (rs_budget st) + 1)%Z |> |>).
Proof.
  unfold apply_step_skipped. intros Hs. apply result_bind_Ok in Hs as (n & Hn & Hs).
  apply count_Ok in Hn as [-> Hn]. split; [done|]. destruct (get_str _ event); [|by injection Hs as <-].
  apply result_bind_Ok in Hs as (r & _ & Hs). apply (inj Ok) in Hs as <-.
  apply (retire_misc _ _ (bm_insert l (NodeSkipped r) (rs_nodes st))).
Qed.
Lemma elapsed_frame st st' event :
  apply_elapsed st event = Ok st' →
  ∃ b, budget_step event (rs_budget st) b (s"elapsed_accounted") ∧ st' = st <| rs_budget := b |>.
Proof.
  unfold apply_elapsed. intros He. case_if in He; [done|].
  apply orb_false_iff in E as [Em _]. apply negb_false_iff, bool_decide_eq_true in Em.
  apply result_bind_Ok in He as (t & _ & He). apply result_bind_Ok in He as (a & _ & He).
  apply result_bind_Ok in He as (next & _ & He). apply result_bind_Ok in He as ([] & _ & He).
  destruct (bs_elapsed (rs_budget st)) as [previous|] eqn:E; [|done].
  case_if in He; [|done]. injection He as <-. eexists. split; [|done]. by econstructor.
Qed.
Lemma charged_frame st st' event :
  apply_budget_charged st event = Ok st' →
  ∃ b, budget_step event (rs_budget st) b (s"budget_charged") ∧ st' = st <| rs_budget := b |>.
Proof.
  unfold apply_budget_charged. intros Hc. apply result_bind_Ok in Hc as (amount & Ha & Hc).
  apply result_bind_Ok in Hc as (n & Hn & [= <-]). apply count_Ok in Hn as [-> Hn].
  eexists. split; [|done]. apply (BCharged _ _ _ amount); try done.
  unfold get_u64. destruct (get _ event); cbn; [|by injection Ha].
  apply ok_or_Ok in Ha. by rewrite Ha.
Qed.
Lemma llm_call_frame st st' event :
  apply_llm_call st event = Ok st' →
  ∃ b, budget_step event (rs_budget st) b (s"llm_call") ∧ st' = st <| rs_budget := b |>.
Proof.
  unfold apply_llm_call. cbn zeta. intros Hc. apply result_bind_Ok in Hc as (n & Hn & Hc).
  apply count_Ok in Hn as [-> Hn]. apply result_bind_Ok in Hc as (b1 & Hb & Hc).
  apply result_bind_Ok in Hc as (v & Hv%ok_or_Ok & Hc).
  apply result_bind_Ok in Hc as (cost & Hcost%ok_or_Ok & Hc).
  apply result_bind_Ok in Hc as (m & Hm & [= <-]). apply count_Ok in Hm as [-> Hm].
  eexists. split; [|done]. apply (BLlm _ _ _ b1 cost); try done.
  - destruct (get_object _ event) as [t|]; [right; eauto|left]. by injection Hb as <-.
  - unfold get_u64. by rewrite Hv.
Qed.
Lemma removed_loop_eq st l :
  foldl (λ st path, st <| rs_latest_file_pins := bm_remove path (rs_latest_file_pins st) |>
                       <| rs_removed_files := bs_insert path (rs_removed_files st) |>) st l =
  st <| rs_latest_file_pins := foldl (λ m path, bm_remove path m) (rs_latest_file_pins st) l |>
     <| rs_removed_files := foldl (λ m path, bs_insert path m) (rs_removed_files st) l |>.
Proof. revert st; induction l as [|p l IH]; intros st; [by destruct st|]. cbn [foldl]. by rewrite IH. Qed.
Lemma written_loop_eq st l :
  foldl (λ st path, st <| rs_removed_files := bm_remove path (rs_removed_files st) |>) st l =
  st <| rs_removed_files := foldl (λ m path, bm_remove path m) (rs_removed_files st) l |>.
Proof. revert st; induction l as [|p l IH]; intros st; [by destruct st|]. cbn [foldl]. by rewrite IH. Qed.

Lemma file_changes_inv st st' event :
  apply_file_changes st event = Ok st' → effect event st st' (s"agent_file_changes").
Proof.
  unfold apply_file_changes. intros Hc. apply result_bind_Ok in Hc as (parsed & Hp & Hc).
  apply result_bind_Ok in Hc as (path & Hn%ok_or_Ok & Hc).
  destruct (from_flat event) as [e|] eqn:Ef; [|done]. injection Hp as ->.
  destruct (ev_data parsed) as [|c| |] eqn:Ed; try done. case_if in Hc; [done|].
  injection Hc as <-. apply (EChanges _ _ _ c path).
  - rewrite Ef. cbn. by rewrite Ed.
  - by rewrite <-Hn; apply from_flat_fields.
  - apply Forall_forall. intros p Hp. apply not_false_iff_true. intros E'.
    apply not_true_iff_false in E. apply E, existsb_exists. exists p.
    rewrite <-list_elem_of_In, E'. done.
  - by rewrite removed_loop_eq, written_loop_eq.
Qed.

Lemma finished_install st st1 st' event ev b path status files failed :
  finished event st st1 path status files failed → install_interaction st1 ev b = Ok st' →
  finished event st st' path status files failed.
Proof.
  intros [H1 H2 H3 H4 H5 H6 H7 H8 H9 H10 H11] E%install_frame. constructor; try done.
  - rewrite <-H5. exact (f_equal sans_report E).
  - rewrite <-H6. exact (f_equal rs_historical_file_pins E).
  - rewrite <-H7. exact (f_equal rs_latest_file_pins E).
  - rewrite <-H8. exact (f_equal rs_removed_files E).
  - rewrite <-H9. exact (f_equal rs_budget E).
  - rewrite <-H10. exact (f_equal rs_node_executions E).
Qed.

Lemma waiting_inv st st' kind event :
  kind ∈ [s"confirm_request"; s"run_waiting"] →
  get_str (s"t") event = Some kind → apply_waiting st kind event = Ok st' →
  effect event st st' kind.
Proof.
  intros Hk Ht Hw. unfold apply_waiting in Hw. apply result_bind_Ok in Hw as (st1 & H1 & Hi).
  destruct (kind =s s"confirm_request") eqn:Ek; cbn [andb] in H1.
  2: { injection H1 as <-. apply EMisc.
       - apply elem_of_cons in Hk as [->|Hk]; [done|]. apply list_elem_of_singleton in Hk as ->.
         by apply (bool_decide_unpack _).
       - by eapply misc_of_prompts, install_frame. }
  apply str_eqb_eq in Ek as ->. case_if in H1.
  - apply finished_inv in H1 as (path & status & files & failed & Hf).
    eapply ESuspended; [by eapply finished_install| |].
    + destruct Hf as [_ Hst _ _ _ _ _ _ _ _ _]. destruct event; try done. cbn in Hst.
      unfold get_str, get in Hst. rewrite bm_get_insert_eq in Hst. by injection Hst as <-.
    + destruct event; try done. unfold get_str, get. by rewrite bm_get_insert_ne.
  - injection H1 as <-. apply EMisc; [by apply (bool_decide_unpack _)|].
    by eapply misc_of_prompts, install_frame.
Qed.

Lemma operation_started_frame st st' event :
  apply_operation_started st event = Ok st' →
  st' = st <| rs_operation_records := rs_operation_records st' |>
           <| rs_operation_attempts := rs_operation_attempts st' |>.
Proof. unfold apply_operation_started. intros Ho. ok_inv; first [done | by destruct st']. Qed.
Lemma operation_finished_frame st event :
  apply_operation_finished st event =
  st <| rs_operation_records := rs_operation_records (apply_operation_finished st event) |>
     <| rs_operation_attempts := rs_operation_attempts st |>.
Proof.
  unfold apply_operation_finished. destruct (get_str _ event); [|by destruct st].
  by destruct (finished_outcome event) as [[? ?] ?].
Qed.

Lemma kind_step_effect st st' kind event :
  get_str (s"t") event = Some kind → kind_step event st st' kind → effect event st st' kind.
Proof.
  intros Ht Hs.
  assert (Hmisc : ∀ k, bool_decide (k ∉ tracked_kinds) = true → sans_misc st' = sans_misc st →
            effect event st st' k) by (intros k E%bool_decide_eq_true; by apply EMisc).
  destruct Hs; subst; try (apply Hmisc; [reflexivity|]).
  - apply identified_inv in H0 as (mode & ledger & Hi). by eapply EIdentity.
  - apply ERestart; [by left|done].
  - unfold apply_step_started in H. apply result_bind_Ok in H as (n & Hn & [= <-]).
    apply count_Ok in Hn as [-> Hn]. by eapply EBudget; [apply BStarted|].
  - apply elapsed_frame in H as (b & Hb & ->). by eapply EBudget.
  - apply charged_frame in H as (b & Hb & ->). by eapply EBudget.
  - apply llm_call_frame in H as (b & Hb & ->). by eapply EBudget.
  - by apply file_changes_inv.
  - unfold apply_checkpoint. by destruct (get_str (s"node") event), (get (s"checkpoint") event).
  - by eapply patched_frame.
  - apply task_joined_frame in H0. split_kind; apply Hmisc; done.
  - apply finished_inv in H as (path & status & files & failed & Hf). by eapply EFinished.
  - apply skipped_frame in H as [Hn Hm]. by eapply EBudget; [apply BSkipped|].
  - unfold apply_repair_started in H. apply result_bind_Ok in H as (n & Hn & [= <-]).
    apply count_Ok in Hn as [-> Hn]. by eapply EBudget; [apply BRepair|].
  - unfold apply_regenerate_started in H. apply result_bind_Ok in H as (n & Hn & [= <-]).
    apply count_Ok in Hn as [-> Hn]. by eapply EBudget; [apply BRegenerate|].
  - unfold apply_resource. by destruct (get_str (s"name") event), (get_str (s"sha256") event).
  - by apply waiting_inv.
  - apply response_frame in H0. apply ERestart; [|done]. by right.
  - unfold apply_cancel_requested. by destruct (get_str (s"operation_id") event).
  - apply hook_failed_frame.
  - unfold apply_hook_skipped. by destruct (get_str (s"hook") event).
  - unfold apply_mcp_pending. by destruct (get_str (s"pending_key") event).
  - eapply EOperations; [by left|left; done|].
    unfold apply_mcp_consumed. by destruct (get_str (s"pending_key") event).
  - unfold apply_mcp_resumed. by destruct (get_str (s"pending_key") event), (get_str (s"question_id") event).
  - by eapply EEnd.
  - by apply EForked.
  - eapply EOperations; [by right; left|right; right; eauto|].
    by rewrite <-(operation_started_frame _ _ _ H).
  - eapply EOperations; [by right; right; left|right; left; done|].
    by rewrite <-operation_finished_frame.
  - apply EMisc; [|done]. intros Hk. apply H. revert Hk. unfold tracked_kinds, folded_kinds.
    intros Hk. split_kind; by apply (bool_decide_unpack _).
Qed.
End effects.
