(* ===== verification/RunStateInv.v ===== *)
(** * The run state: invariants of the fold

    What holds of every state a journal folds to: sequence order, sealing of
    final runs, lineage, the elapsed ledger, accounting, file pins and the
    life cycle of external operations. *)

From S2P Require Import Prelude Str BMap Json ValueBag PathPolicy Serde Events RunState RunStateEffect.
From Stdlib Require Import Sorted.

#[local] Arguments s : simpl never.

(** Cases on the effect of an event, with the kind split. *)
Ltac effect_cases H :=
  destruct H as [kind Hk E|kind mode ledger Hk Hid|kind Hk E|kind Hk E Hp Hps|E|kind b Hb E
                |c path Hc Hn Hsafe E|path status files failed Hfin
                |status path files failed event' Hfin Hsus Ht'|kind records attempts Hk Hrec E].

Section invariants.
Context {W : WireTypes}.
Implicit Types (st : RunState) (event : value).

(** The state an arm starts from. *)
Definition entered event st (u : bool) : RunState :=
  st <| rs_last_seq := default (rs_last_seq st) (get_u64 (s"seq") event) |>
     <| rs_budget := rs_budget st <| bs_unresolved_search_cost := u |> |>.

Lemma note_entered st kind event :
  ∃ u, note_search_cost (st <| rs_last_seq := default (rs_last_seq st) (get_u64 (s"seq") event) |>)
         kind event = entered event st u.
Proof.
  unfold note_search_cost, entered. destruct (kind_in kind _); [by eexists|].
  exists (bs_unresolved_search_cost (rs_budget st)).
  destruct st as [? ? ? ? ? ? ? ? ? ? ? ? ? ? ? ? b]. by destruct b.
Qed.

Lemma apply_effect st st' event :
  apply st event = Ok st' →
  ∃ kind u, get_str (s"t") event = Some kind ∧ effect event (entered event st u) st' kind.
Proof.
  intros (kind & Hj)%apply_step. destruct (note_entered st kind event) as [u Hu].
  exists kind, u. split; [apply Hj|]. rewrite <-Hu. apply kind_step_effect; apply Hj.
Qed.

Lemma effect_last_seq event st st' kind : effect event st st' kind → rs_last_seq st' = rs_last_seq st.
Proof.
  destruct 1 as [? ? E|? ? ? ? [E]|? ? E|? ? E|E|? ? ? E|? ? ? ? ? E|? ? ? ? [? ? ? ? E]
                |? ? ? ? ? [? ? ? ? E]|? ? ? ? ? E]; exact (f_equal rs_last_seq E).
Qed.

Lemma fold_step_Ok st st' event :
  fold_step st event = Ok st' → ∃ e, from_flat event = Ok e ∧ apply st event = Ok st'.
Proof.
  unfold fold_step. intros Hf. apply result_bind_Ok in Hf as (e & He & Ha).
  destruct (from_flat event); [|done]. eauto.
Qed.

(** Induction over the journal from its end. *)
Lemma fold_values_snoc events event st :
  fold_values (events ++ [event]) = Ok st ↔
  ∃ st1, fold_values events = Ok st1 ∧ fold_step st1 event = Ok st.
Proof.
  unfold fold_values. rewrite foldM_app, result_bind_Ok.
  enough (∀ st1, foldM fold_step st1 [event] = fold_step st1 event) as E by (by setoid_rewrite E).
  intros st1. cbn. by destruct (fold_step st1 event).
Qed.
Lemma fold_values_ind (P : list value → RunState → Prop) :
  P [] state_default →
  (∀ events event st st' e, fold_values events = Ok st → P events st →
     from_flat event = Ok e → apply st event = Ok st' → P (events ++ [event]) st') →
  ∀ events st, fold_values events = Ok st → P events st.
Proof.
  intros H0 Hs events. induction events as [|event events IH] using rev_ind; intros st.
  - by intros [= <-].
  - intros (st1 & H1 & (e & He & Ha)%fold_step_Ok)%fold_values_snoc. eauto.
Qed.

(** ** Sequence numbers *)

Definition seqs (events : list value) : list Z := omap (get_u64 (s"seq")) events.

Lemma seqs_snoc events event n :
  get_u64 (s"seq") event = Some n → seqs (events ++ [event]) = seqs events ++ [n].
Proof. intros E. unfold seqs. rewrite omap_app. cbn. by rewrite E. Qed.

Lemma sorted_snoc l (n : Z) :
  StronglySorted Z.lt l → Forall (λ x, x < n)%Z l → StronglySorted Z.lt (l ++ [n]).
Proof.
  induction 1 as [|a l Hs IH Ha]; intros Hn; cbn; [by repeat constructor|].
  apply Forall_cons in Hn as [Hn Hl]. constructor; [by apply IH|].
  apply Forall_app. split; [done|by constructor].
Qed.

Lemma last_seq_nonneg events st : fold_values events = Ok st → (0 ≤ rs_last_seq st)%Z.
Proof.
  revert events st. apply fold_values_ind; [done|]. intros events event st st' e _ Hst He Ha.
  destruct (apply_effect _ _ _ Ha) as (k & u & _ & ->%effect_last_seq).
  apply apply_step in Ha as (kind & [_ _ Hn _ _ _ _]). cbn.
  destruct (get_u64 _ event); cbn; lia.
Qed.

Lemma fold_seq_order (events : list value) st :
  fold_values events = Ok st →
  length (seqs events) = length events ∧
  StronglySorted Z.lt (0%Z :: seqs events) ∧
  rs_last_seq st = List.last (seqs events) 0%Z ∧
  Forall (λ n, n ≤ rs_last_seq st)%Z (seqs events).
Proof.
  revert events st. apply fold_values_ind; [by repeat constructor|].
  intros events event st st' e Hf (Hlen & Hsort & Hlast & Hle) He Ha.
  destruct (from_flat_fields _ _ He) as [Hseq _].
  destruct (apply_step _ _ _ Ha) as [kind Hj]. pose proof (js_seq _ _ _ _ Hj) as Hn.
  rewrite Hseq in Hn. destruct Hn as [Hlt Hnz].
  destruct (apply_effect _ _ _ Ha) as (k & u & _ & Heff%effect_last_seq). cbn in Heff.
  rewrite Hseq in Heff. cbn in Heff. rewrite (seqs_snoc _ _ _ Hseq), !length_app, Hlen, Heff.
  split; [done|]. apply StronglySorted_inv in Hsort as [Hsort Hpos].
  assert (Hall : Forall (λ x, x < ev_seq e)%Z (seqs events))
    by (eapply Forall_impl; [exact Hle|]; cbn; lia).
  pose proof (last_seq_nonneg _ _ Hf).
  split; [|split].
  - constructor; [by apply sorted_snoc|]. apply Forall_app. split; [done|]. repeat constructor. lia.
  - by rewrite last_last.
  - apply Forall_app. split; [|by repeat constructor]. eapply Forall_impl; [exact Hall|]. cbn; lia.
Qed.

(** C21: a journal that folds has one strictly increasing order.  Every event
    carries a sequence number, the numbers are positive and strictly
    increasing, and the state's [last_seq] is the last of them. *)
Theorem journal_seq_order (events : list value) st :
  fold_values events = Ok st →
  length (seqs events) = length events ∧
  StronglySorted Z.lt (0%Z :: seqs events) ∧
  rs_last_seq st = List.last (seqs events) 0%Z ∧
  Forall (λ n, n ≤ rs_last_seq st)%Z (seqs events).
Proof. apply fold_seq_order. Qed.

(** ** Final runs *)

Definition restart_kinds : list str :=
  [s"run_queued"; s"run_started"; s"run_resumed"; s"user_answered"; s"user_confirmed"].

Lemma kind_test kinds kind : kind_in kind kinds = bool_decide (kind ∈ kinds).
Proof. apply eq_iff_eq_true. by rewrite kind_in_elem, bool_decide_eq_true. Qed.

(** The value of the terminal field after an event of the kind. *)
Definition next_terminal (kind : str) event st : option TerminalState :=
  if kind_in kind TERMINAL_EVENT_KINDS then Some (terminal_state kind event)
  else if kind_in kind restart_kinds then None
  else rs_terminal st.

Lemma effect_terminal event st st' kind :
  effect event st st' kind → rs_terminal st' = next_terminal kind event st.
Proof.
  assert (Hm : ∀ k, k ∉ tracked_kinds → next_terminal k event st = rs_terminal st).
  { intros k Hk. unfold next_terminal. rewrite !kind_test, !bool_decide_eq_false_2; [done|..];
      intros Hin; apply Hk; unfold TERMINAL_EVENT_KINDS, restart_kinds in Hin;
      split_kind; by apply (bool_decide_unpack _). }
  intros He. effect_cases He; unfold TERMINAL_EVENT_KINDS in *.
  - rewrite Hm by done. exact (f_equal rs_terminal E).
  - rewrite (id_terminal _ _ _ _ _ Hid). split_kind; done.
  - split_kind; exact (f_equal rs_terminal E).
  - split_kind; exact (f_equal rs_terminal E).
  - exact (f_equal rs_terminal E).
  - destruct Hb; exact (f_equal rs_terminal E).
  - exact (f_equal rs_terminal E).
  - exact (f_equal rs_terminal (fin_core _ _ _ _ _ _ _ Hfin)).
  - exact (f_equal rs_terminal (fin_core _ _ _ _ _ _ _ Hfin)).
  - split_kind; exact (f_equal rs_terminal E).
Qed.

(** C31: final runs are sealed.  A terminal event sets the terminal state it
    names ([run_finished] is a success only with status [success]); a restart
    or a user response clears it; every other kind keeps it; and a run that
    succeeded, failed or was canceled accepts only [run_queued],
    [run_started] or [run_resumed], after which it is not terminal. *)
Theorem final_runs_sealed st st' event :
  apply st event = Ok st' →
  ∃ kind, get_str (s"t") event = Some kind ∧
    (kind = s"run_finished" → rs_terminal st' =
       Some (if decide (get_str (s"status") event = Some (s"success")) then Succeeded else Failed)) ∧
    (kind = s"run_error" → rs_terminal st' = Some Failed) ∧
    (kind = s"run_canceled" → rs_terminal st' = Some RunCanceled) ∧
    (kind = s"run_interrupted" → rs_terminal st' = Some RunInterrupted) ∧
    (kind ∈ restart_kinds → rs_terminal st' = None) ∧
    (kind ∉ TERMINAL_EVENT_KINDS → kind ∉ restart_kinds → rs_terminal st' = rs_terminal st) ∧
    (rs_terminal st ∈ [Some Succeeded; Some Failed; Some RunCanceled] →
       kind ∈ [s"run_queued"; s"run_started"; s"run_resumed"] ∧ rs_terminal st' = None).
Proof.
  intros Ha. destruct (apply_effect _ _ _ Ha) as (kind & u & Hk & He%effect_terminal).
  apply apply_step in Ha as (kind' & Hj). rewrite (js_kind _ _ _ _ Hj) in Hk. injection Hk as ->.
  assert (Hfinal : rs_terminal st ∈ [Some Succeeded; Some Failed; Some RunCanceled] → is_final st = true).
  { unfold is_final. rewrite !elem_of_cons. by intros [->|[->|[->|?%not_elem_of_nil]]]. }
  exists kind. split; [apply Hj|]. rewrite He. split_and!.
  - intros ->. unfold next_terminal, terminal_state. cbn. by case_bool_decide; case_decide.
  - by intros ->.
  - by intros ->.
  - by intros ->.
  - unfold restart_kinds. intros Hin. by split_kind.
  - intros H1 H2. unfold next_terminal. by rewrite !kind_test, !bool_decide_eq_false_2.
  - intros Hin%Hfinal. pose proof (js_final _ _ _ _ Hj Hin) as Hk. split; [done|]. by split_kind.
Qed.

(** ** Lineage *)

Definition admission_kinds : list str := [s"run_queued"; s"run_started"; s"run_forked"].
Definition lineage st : option str * option str * option str :=
  (rs_package_sha256 st, rs_generator_id st, rs_run_id st).

Lemma effect_lineage event st st' kind :
  effect event st st' kind →
  kind ∈ [s"run_queued"; s"run_started"] ∧ (∃ mode ledger, identified event st st' mode ledger) ∨
  kind = s"run_forked" ∧
    lineage st' = (rs_package_sha256 st, rs_generator_id st, get_str (s"run_id") event) ∨
  kind ∉ admission_kinds ∧ lineage st' = lineage st.
Proof.
  unfold admission_kinds. intros He.
  effect_cases He; unfold TERMINAL_EVENT_KINDS in *;
    try (right; right; split; [|exact (f_equal lineage E)]).
  - intros Hin. apply Hk. split_kind; by apply (bool_decide_unpack _).
  - left. eauto.
  - split_kind; by apply (bool_decide_unpack _).
  - split_kind; by apply (bool_decide_unpack _).
  - right; left. split; [done|]. exact (f_equal lineage E).
  - destruct Hb; by apply (bool_decide_unpack _).
  - by apply (bool_decide_unpack _).
  - right; right. split; [by apply (bool_decide_unpack _)|].
    exact (f_equal lineage (fin_core _ _ _ _ _ _ _ Hfin)).
  - right; right. split; [by apply (bool_decide_unpack _)|].
    exact (f_equal lineage (fin_core _ _ _ _ _ _ _ Hfin)).
  - split_kind; by apply (bool_decide_unpack _).
Qed.

(** a journal tells one lineage.  Once recorded, the package digest and
    the owning generator never change, and the run identity changes only by a
    [run_forked] marker or by an admission that names the current run as its
    parent; every other accepted event carries the run's own id. *)
Theorem lineage_preserved st st' event (r : str) :
  fold_step st event = Ok st' → rs_run_id st = Some r →
  (∀ p, rs_package_sha256 st = Some p → rs_package_sha256 st' = Some p) ∧
  (∀ g, rs_generator_id st = Some g → rs_generator_id st' = Some g) ∧
  ∃ kind n, get_str (s"t") event = Some kind ∧ get_str (s"run_id") event = Some n ∧
    rs_run_id st' = Some n ∧
    (n = r ∨ kind = s"run_forked" ∨
     kind ∈ [s"run_queued"; s"run_started"] ∧ get_str (s"parent_run_id") event = Some r).
Proof.
  intros (e & Hf & Ha)%fold_step_Ok Hr. destruct (from_flat_fields _ _ Hf) as (_ & _ & Hrun & _).
  destruct (apply_effect _ _ _ Ha) as (kind & u & Hk & He).
  apply effect_lineage in He as [(Hin & mode & ledger & Hid)|[[-> E]|[Hni E]]].
  - split; [apply (id_package _ _ _ _ _ Hid)|]. split; [apply (id_generator _ _ _ _ _ Hid)|].
    exists kind, (ev_run_id e). split; [done|]. split; [done|].
    split; [by rewrite (id_run _ _ _ _ _ Hid)|].
    destruct (id_parent _ _ _ _ _ Hid r (ev_run_id e) Hr Hrun); [by left|by right; right].
  - injection E as -> -> ->. split; [done|]. split; [done|]. exists (s"run_forked"), (ev_run_id e).
    naive_solver.
  - injection E as -> -> ->. split; [done|]. split; [done|]. exists kind, (ev_run_id e).
    apply apply_step in Ha as (kind' & Hj). pose proof (js_owner _ _ _ _ Hj) as Ho.
    rewrite (js_kind _ _ _ _ Hj) in Hk. injection Hk as ->. unfold check_owner in Ho.
    rewrite kind_test, bool_decide_eq_false_2, Hr, Hrun in Ho by done.
    destruct (str_eqb_spec (ev_run_id e) r) as [<-|]; [|done]. eauto 10 using js_kind.
Qed.

(** ** The elapsed ledger *)

Lemma effect_ledger event st st' kind l :
  effect event st st' kind → bs_elapsed (rs_budget st) = Some l →
  ∃ l', bs_elapsed (rs_budget st') = Some l' ∧
    (l' = l ∨ kind = s"elapsed_accounted" ∧ legal_ledger l l' = true).
Proof.
  intros He Hl. effect_cases He.
  all: try (exists l; split; [rewrite <-Hl|by left]; exact (f_equal (λ st, bs_elapsed (rs_budget st)) E)).
  - exists l. split; [|by left]. rewrite (id_budget _ _ _ _ _ Hid). cbn.
    destruct (id_ledger _ _ _ _ _ Hid) as [->|[E _]]; [done|congruence].
  - pose proof (f_equal rs_budget E : rs_budget st' = b) as ->.
    destruct Hb as [? ->|prev next _ Hp Hlegal ->|? ? ? ->|b1 cost ? Hb1 ? ? ->|? ->|? ->|? ->];
      try (by exists l; split; [|left]).
    + exists next. split; [done|]. right. split; [done|]. rewrite Hp in Hl. by injection Hl as <-.
    + exists l. split; [|by left]. cbn. destruct Hb1 as [[-> _]|(t & _ & Ht)]; [done|].
      unfold charge_tokens in Ht.
      do 8 (apply result_bind_Ok in Ht as (? & _ & Ht)). by injection Ht as <-.
  - exists l. split; [|by left]. rewrite (fin_budget _ _ _ _ _ _ _ Hfin). by repeat case_if.
  - exists l. split; [|by left]. rewrite (fin_budget _ _ _ _ _ _ _ Hfin). by repeat case_if.
Qed.

Lemma ledger_run events st st' l :
  foldM fold_step st events = Ok st' → bs_elapsed (rs_budget st) = Some l →
  ∃ l', bs_elapsed (rs_budget st') = Some l' ∧ (active_nanoseconds l ≤ active_nanoseconds l')%Z.
Proof.
  revert st l; induction events as [|event events IH]; intros st l; cbn.
  - intros [= <-] Hl. by exists l.
  - intros Hf Hl. apply result_bind_Ok in Hf as (st1 & (e & _ & Ha)%fold_step_Ok & Hf).
    destruct (apply_effect _ _ _ Ha) as (kind & u & _ & He).
    destruct (effect_ledger _ _ _ _ _ He Hl) as (l1 & Hl1 & Hor).
    destruct (IH _ _ Hf Hl1) as (l' & Hl' & Hle). exists l'. split; [done|].
    assert (active_nanoseconds l ≤ active_nanoseconds l1)%Z; [|lia].
    destruct Hor as [->|[_ Hlegal]]; [lia|]. unfold legal_ledger in Hlegal.
    by destruct (active_started_at l), (active_started_at l1); try done; lia.
Qed.

Lemma charge_tokens_inv b b' tokens :
  charge_tokens b tokens = Ok b' →
  let n name := default 0%Z (bm_get name tokens ≫= as_u64) in
  b' = b <| bs_tokens_input := (bs_tokens_input b + n (s"input"))%Z |>
         <| bs_tokens_output := (bs_tokens_output b + n (s"output"))%Z |>
         <| bs_tokens_cached_input := (bs_tokens_cached_input b + n (s"cached_input"))%Z |>
         <| bs_tokens_cache_creation_input :=
              (bs_tokens_cache_creation_input b + n (s"cache_creation_input"))%Z |> ∧
  (bs_tokens_input b + n (s"input") ≤ U64_MAX)%Z ∧ (bs_tokens_output b + n (s"output") ≤ U64_MAX)%Z ∧
  (bs_tokens_cached_input b + n (s"cached_input") ≤ U64_MAX)%Z ∧
  (bs_tokens_cache_creation_input b + n (s"cache_creation_input") ≤ U64_MAX)%Z.
Proof.
  assert (Ht : ∀ name v, token_counter tokens name = Ok v → default 0%Z (bm_get name tokens ≫= as_u64) = v).
  { intros name v Hv. unfold token_counter in Hv.
    apply result_bind_Ok in Hv as (w & ->%ok_or_Ok & Hv%ok_or_Ok). cbn. by rewrite Hv. }
  intros Hc n. unfold charge_tokens in Hc.
  apply result_bind_Ok in Hc as (i & <-%Ht & Hc). apply result_bind_Ok in Hc as (? & [-> Hi]%count_Ok & Hc).
  apply result_bind_Ok in Hc as (o & <-%Ht & Hc). apply result_bind_Ok in Hc as (? & [-> Ho]%count_Ok & Hc).
  apply result_bind_Ok in Hc as (c & <-%Ht & Hc). apply result_bind_Ok in Hc as (? & [-> Hc']%count_Ok & Hc).
  apply result_bind_Ok in Hc as (k & Hk & Hc). apply result_bind_Ok in Hc as (? & [-> Hk']%count_Ok & Hc).
  injection Hc as <-. assert (n (s"cache_creation_input") = k) as Ek; [|by rewrite <-Ek in *].
  unfold n, bm_contains in *. destruct (bm_get (s"cache_creation_input") tokens) eqn:E.
  - rewrite <-E. by apply Ht.
  - by injection Hk as <-.
Qed.

(** What a budget keeps besides its counters. *)
Definition clock (b : BudgetState) : option str * ElapsedBudgetMode :=
  (bs_started_at b, bs_elapsed_budget_mode b).

Lemma budget_step_clock event b b' kind : budget_step event b b' kind → clock b' = clock b.
Proof.
  destruct 1 as [? ->|prev next _ Hp Hlegal ->|? ? ? ->|b1 cost ? Hb1 ? ? ->|? ->|? ->|? ->]; try done.
  destruct Hb1 as [[-> _]|(t & _ & [-> _]%charge_tokens_inv)]; done.
Qed.

Lemma effect_clock event st st' kind t :
  effect event st st' kind → bs_started_at (rs_budget st) = Some t →
  clock (rs_budget st') = clock (rs_budget st).
Proof.
  intros He Ht. effect_cases He; try exact (f_equal (λ st, clock (rs_budget st)) E).
  - rewrite (id_budget _ _ _ _ _ Hid). unfold clock. cbn. rewrite Ht. cbn.
    by rewrite (id_mode _ _ _ _ _ Hid _ Ht).
  - etransitivity; [exact (f_equal (λ st, clock (rs_budget st)) E)|]. by eapply budget_step_clock.
  - rewrite (fin_budget _ _ _ _ _ _ _ Hfin). by repeat case_if.
  - rewrite (fin_budget _ _ _ _ _ _ _ Hfin). by repeat case_if.
Qed.

(** Elapsed accounting never runs backwards.  However a journal is
    extended, the active ledger, once present, stays present; its total never
    decreases; each single event either keeps it or is an [elapsed_accounted]
    that opens it at the same total or closes it at a total at least as large;
    and the accounting mode and the start stamp, once set, never change. *)
Theorem elapsed_ledger_monotone events st st' (l : ElapsedAccounted) (t : str) :
  foldM fold_step st events = Ok st' →
  bs_elapsed (rs_budget st) = Some l → bs_started_at (rs_budget st) = Some t →
  (∃ l', bs_elapsed (rs_budget st') = Some l' ∧ (active_nanoseconds l ≤ active_nanoseconds l')%Z) ∧
  clock (rs_budget st') = clock (rs_budget st) ∧
  (∀ event, events = [event] → ∃ l', bs_elapsed (rs_budget st') = Some l' ∧
     (l' = l ∨ get_str (s"t") event = Some (s"elapsed_accounted") ∧ legal_ledger l l' = true)).
Proof.
  intros Hf Hl Ht. split; [by eapply ledger_run|]. split.
  - eapply (foldM_inv fold_step (λ st1, clock (rs_budget st1) = clock (rs_budget st)));
      [|done|exact Hf].
    intros st1 event st2 _ Hc (e & _ & Ha)%fold_step_Ok.
    destruct (apply_effect _ _ _ Ha) as (kind & u & _ & He). rewrite <-Hc.
    eapply (effect_clock _ _ _ _ t) in He; [exact He|]. cbn.
    rewrite <-Ht. exact (f_equal fst Hc).
  - intros event ->. cbn in Hf. apply result_bind_Ok in Hf as (st1 & (e & _ & Ha)%fold_step_Ok & [= <-]).
    destruct (apply_effect _ _ _ Ha) as (kind & u & Hk & He).
    destruct (effect_ledger _ _ _ _ _ He Hl) as (l1 & Hl1 & Hor). exists l1. split; [done|].
    destruct Hor as [->|[-> ?]]; [by left|by right].
Qed.

(** ** Accounting *)

Definition step_status event : str := default [] (get_str (s"status") event).
(** The statuses of a finished step that count as success, and those of a step
    that waits for the user and has not finished. *)
Definition success_statuses : list str :=
  [s"success"; s"repaired"; s"routed"; s"answered_on_fail"; s"regenerated"].
Definition suspended_statuses : list str := [s"needs_user"; s"needs_confirm"].
Lemma success_status_spec status : kind_in status success_statuses = is_success_status status.
Proof. done. Qed.
Lemma suspended_status_spec status : kind_in status suspended_statuses = is_suspended_status status.
Proof. unfold kind_in, suspended_statuses, is_suspended_status. cbn [existsb]. by rewrite orb_false_r. Qed.
Definition token_count event (name : str) : Z :=
  default 0%Z (tokens ← get_object (s"tokens") event; bm_get name tokens ≫= as_u64).

(** The numbers a budget accounts, and what one event adds to each. *)
Definition accounted (b : BudgetState) : list Z :=
  [ bs_steps_executed b; bs_steps_skipped b; bs_repair_attempts b; bs_regenerate_attempts b;
    bs_steps_succeeded b; bs_steps_failed b; bs_budget_charged b; bs_llm_calls b;
    bs_tokens_input b; bs_tokens_output b; bs_tokens_cached_input b;
    bs_tokens_cache_creation_input b; bs_cost_microusd b ].

Definition when (b : bool) (n : Z) : Z := if b then n else 0%Z.
Definition charges_of (kind : str) event : list Z :=
  let fin := kind =s s"step_finished" in
  let ok := kind_in (step_status event) success_statuses in
  let llm := kind =s s"llm_call" in
  [ when (kind =s s"step_started") 1; when (kind =s s"step_skipped") 1;
    when (kind =s s"repair_attempt_started") 1; when (kind =s s"regenerate_attempt_started") 1;
    when (fin && ok) 1;
    when (fin && negb ok && negb (kind_in (step_status event) suspended_statuses)) 1;
    when (kind =s s"budget_charged") (default 1%Z (get_u64 (s"amount") event));
    when llm 1; when llm (token_count event (s"input")); when llm (token_count event (s"output"));
    when llm (token_count event (s"cached_input"));
    when llm (token_count event (s"cache_creation_input"));
    when llm (default 0%Z (get_u64 (s"cost_microusd") event)) ].
Definition charges event : list Z := charges_of (default [] (get_str (s"t") event)) event.

Definition add_all : list Z → list Z → list Z := zip_with Z.add.
Definition no_charges : list Z := replicate 13 0%Z.

(** One event adds its charges, and nothing overflows. *)
Definition charged (b b' : BudgetState) (cs : list Z) : Prop :=
  accounted b' = add_all (accounted b) cs ∧
  (Forall (λ n, n ≤ U64_MAX)%Z (accounted b) → Forall (λ n, n ≤ U64_MAX)%Z (accounted b')).

Lemma charged_none b b' cs :
  cs = no_charges → accounted b' = accounted b → charged b b' cs.
Proof.
  intros -> E. split; [|by rewrite E]. rewrite E. unfold accounted, add_all, no_charges. cbn.
  by rewrite !Z.add_0_r.
Qed.

Ltac eval_kinds :=
  repeat match goal with |- context [str_eqb (s ?a) (s ?b)] =>
    let v := eval vm_compute in (str_eqb (s a) (s b)) in
    change (str_eqb (s a) (s b)) with v end; cbn [when andb].

Lemma charges_untracked kind event : kind ∉ tracked_kinds → charges_of kind event = no_charges.
Proof.
  intros Hk.
  assert (Hn : ∀ k, bool_decide (k ∈ tracked_kinds) = true → (kind =s k) = false).
  { intros k Hin%bool_decide_eq_true. apply str_eqb_neq. by intros ->. }
  unfold charges_of. rewrite !Hn by reflexivity. reflexivity.
Qed.

Lemma budget_step_charged event b b' kind :
  budget_step event b b' kind → charged b b' (charges_of kind event).
Proof.
  destruct 1 as [? ->|prev next _ Hp Hlegal ->|amount -> ? ->|b1 cost ? Hb1 Hcost ? ->|? ->|? ->|? ->].
  2: apply charged_none; [unfold charges_of; by eval_kinds|done].
  3: assert (b1 = b <| bs_llm_calls := (bs_llm_calls b + 1)%Z |>
      <| bs_tokens_input := (bs_tokens_input b + token_count event (s"input"))%Z |>
      <| bs_tokens_output := (bs_tokens_output b + token_count event (s"output"))%Z |>
      <| bs_tokens_cached_input := (bs_tokens_cached_input b + token_count event (s"cached_input"))%Z |>
      <| bs_tokens_cache_creation_input := (bs_tokens_cache_creation_input b
           + token_count event (s"cache_creation_input"))%Z |> ∧
      (Forall (λ n, n ≤ U64_MAX)%Z (accounted b) → Forall (λ n, n ≤ U64_MAX)%Z (accounted b1))) as [-> Hb].
  3: { unfold token_count. destruct Hb1 as [[-> ->]|(t & -> & (-> & ? & ? & ? & ?)%charge_tokens_inv)]; cbn [mbind option_bind].
       - cbn. rewrite !Z.add_0_r. split; [by destruct b|]. unfold accounted. cbn. rewrite !Forall_cons. tauto.
       - split; [done|]. unfold accounted. cbn. rewrite !Forall_cons. cbn in *. tauto. }
  all: unfold charged, charges_of, USIZE_MAX in *; eval_kinds; rewrite ?Hcost; cbn [default from_option id].
  all: unfold accounted, add_all in *; cbn [zip_with]; rewrite ?Z.add_0_r.
  all: split; [reflexivity|]. 
  all: cbn in *; rewrite !Forall_cons in *; tauto.
Qed.

Lemma effect_charged event st st' kind :
  get_str (s"t") event = Some kind → effect event st st' kind →
  charged (rs_budget st) (rs_budget st') (charges_of kind event).
Proof.
  intros Hkind He. effect_cases He; unfold TERMINAL_EVENT_KINDS in *.
  - apply charged_none; [by apply charges_untracked|exact (f_equal (λ st, accounted (rs_budget st)) E)].
  - apply charged_none; [unfold charges_of; by split_kind; eval_kinds|].
    by rewrite (id_budget _ _ _ _ _ Hid).
  - apply charged_none; [unfold charges_of; by split_kind; eval_kinds|].
    exact (f_equal (λ st, accounted (rs_budget st)) E).
  - apply charged_none; [unfold charges_of; by split_kind; eval_kinds|].
    exact (f_equal (λ st, accounted (rs_budget st)) E).
  - apply charged_none; [unfold charges_of; by eval_kinds|].
    exact (f_equal (λ st, accounted (rs_budget st)) E).
  - pose proof (f_equal rs_budget E : rs_budget st' = b) as ->. by apply budget_step_charged.
  - apply charged_none; [unfold charges_of; by eval_kinds|].
    exact (f_equal (λ st, accounted (rs_budget st)) E).
  - rewrite (fin_budget _ _ _ _ _ _ _ Hfin). pose proof (fin_bounds _ _ _ _ _ _ _ Hfin) as Hle.
    unfold charges_of, step_status. rewrite (fin_status _ _ _ _ _ _ _ Hfin). cbn [default from_option id].
    rewrite success_status_spec, suspended_status_spec.
    eval_kinds. destruct (is_suspended_status status) eqn:Es.
    + apply charged_none; [by rewrite (suspended_not_success _ Es)|done].
    + destruct (is_success_status status); cbn [when andb negb]; (split;
        [unfold accounted, add_all; cbn [zip_with]; by rewrite !Z.add_0_r
        |unfold accounted; cbn in *; rewrite !Forall_cons; tauto]).
  - apply charged_none; [unfold charges_of; by eval_kinds|].
    rewrite (fin_budget _ _ _ _ _ _ _ Hfin). by rewrite Hsus.
  - apply charged_none; [unfold charges_of; by split_kind; eval_kinds|].
    exact (f_equal (λ st, accounted (rs_budget st)) E).
Qed.

(** C22: the budget accounts exactly what the journal says.  Every counter of
    the folded state is the sum over the events of what each adds: step
    starts, skips, repairs, regenerations, completions by outcome, charged
    amounts, model calls, their tokens and their cost; suspended steps and all
    other kinds add nothing; no counter exceeds 64 bits, so none wrapped. *)
Theorem budget_accounts_journal (events : list value) st :
  fold_values events = Ok st →
  accounted (rs_budget st) = foldl add_all no_charges (map charges events) ∧
  Forall (λ n, n ≤ U64_MAX)%Z (accounted (rs_budget st)).
Proof.
  revert events st. apply fold_values_ind; [split; [done|]; by repeat constructor|].
  intros events event st st' e _ [IH Hle] _ Ha.
  destruct (apply_effect _ _ _ Ha) as (kind & u & Hk & He).
  destruct (effect_charged _ _ _ _ Hk He) as [E Hle']. split; [|by apply Hle'].
  rewrite map_app, foldl_app, <-IH. cbn. unfold charges. by rewrite Hk.
Qed.

(** ** Folding a prefix *)

Lemma fold_later events st st' :
  foldM fold_step st events = Ok st' →
  Forall (λ event, ∃ n, get_u64 (s"seq") event = Some n ∧ (rs_last_seq st < n)%Z) events.
Proof.
  revert st; induction events as [|event events IH]; intros st Hf; [constructor|].
  cbn in Hf. apply result_bind_Ok in Hf as (st1 & (e & He & Ha)%fold_step_Ok & Hf).
  destruct (from_flat_fields _ _ He) as [Hseq _].
  destruct (apply_effect _ _ _ Ha) as (k & u & _ & El%effect_last_seq). cbn in El.
  apply apply_step in Ha as (kind & Hj). pose proof (js_seq _ _ _ _ Hj) as Hlt.
  rewrite Hseq in *. cbn in El. constructor; [exists (ev_seq e); split; [done|lia]|].
  eapply Forall_impl; [exact (IH _ Hf)|]. intros x (n & ? & ?). exists n. split; [done|lia].
Qed.

Definition up_to (limit : Z) event : bool :=
  match get_u64 (s"seq") event with Some n => (n <=? limit)%Z | None => false end.

Lemma filter_later limit events st :
  Forall (λ event, ∃ n, get_u64 (s"seq") event = Some n ∧ (rs_last_seq st < n)%Z) events →
  (limit ≤ rs_last_seq st)%Z → List.filter (up_to limit) events = [].
Proof.
  intros Hl Hle. induction Hl as [|event events (n & En & Hn) _ IH]; [done|]. cbn.
  unfold up_to at 1. rewrite En, (proj2 (Z.leb_gt _ _)) by lia. exact IH.
Qed.

Lemma fold_through_filter limit events st st' :
  foldM fold_step st events = Ok st' →
  fold_through (Some limit) st events = foldM fold_step st (List.filter (up_to limit) events).
Proof.
  revert st; induction events as [|event events IH]; intros st Hf; [done|].
  pose proof Hf as Hf0. cbn in Hf. apply result_bind_Ok in Hf as (st1 & H1 & Hf).
  destruct (fold_step_Ok _ _ _ H1) as (e & He & Ha). destruct (from_flat_fields _ _ He) as [Hseq _].
  cbn [fold_through List.filter]. rewrite He. cbn [map_err mbind result_bind].
  unfold up_to at 1. rewrite Hseq. destruct (Z.ltb_spec limit (ev_seq e)) as [Hlt|Hle].
  - rewrite (proj2 (Z.leb_gt _ _)) by lia. rewrite (filter_later limit events st1); [done|..].
    + by eapply fold_later.
    + destruct (apply_effect _ _ _ Ha) as (k & u & _ & ->%effect_last_seq). cbn. rewrite Hseq. cbn. lia.
  - rewrite (proj2 (Z.leb_le _ _)) by lia. cbn [foldM]. rewrite H1, Ha. cbn [mbind result_bind].
    by apply IH.
Qed.

(** A historical view is the fold of a prefix.  For a journal that folds,
    stopping at a sequence number gives exactly the fold of the events up to
    it, and that fold succeeds: every prefix of a valid journal is a valid
    journal. *)
Theorem fold_through_prefix (limit : Z) (events : list value) st :
  fold_values events = Ok st →
  ∃ st', fold_through (Some limit) state_default events = Ok st' ∧
         fold_values (List.filter (up_to limit) events) = Ok st' ∧
         (rs_last_seq st' ≤ Z.max 0 limit)%Z.
Proof.
  intros Hf. unfold fold_values in *. rewrite (fold_through_filter limit events _ _ Hf).
  assert (Hpre : ∃ rest, events = List.filter (up_to limit) events ++ rest).
  { revert Hf. generalize state_default. induction events as [|event events IH]; intros st0 Hf; [by exists []|].
    pose proof Hf as Hf0. cbn in Hf. apply result_bind_Ok in Hf as (st1 & H1 & Hf). cbn [List.filter].
    destruct (up_to limit event) eqn:Eu.
    - destruct (IH st1 Hf) as [rest E]. exists rest. cbn. by rewrite <-E.
    - destruct (fold_step_Ok _ _ _ H1) as (e & He & Ha). destruct (from_flat_fields _ _ He) as [Hseq _].
      unfold up_to in Eu. rewrite Hseq in Eu. apply Z.leb_gt in Eu.
      rewrite (filter_later limit events st1); [by exists (event :: events)|by eapply fold_later|].
      destruct (apply_effect _ _ _ Ha) as (k & u & _ & ->%effect_last_seq). cbn. rewrite Hseq. cbn. lia. }
  destruct Hpre as [rest E]. rewrite E, foldM_app in Hf. apply result_bind_Ok in Hf as (st' & Hf & _).
  exists st'. split; [done|]. split; [done|].
  enough (∀ l st1, Forall (λ e, up_to limit e = true) l → (rs_last_seq st1 ≤ Z.max 0 limit)%Z →
            foldM fold_step st1 l = Ok st' → (rs_last_seq st' ≤ Z.max 0 limit)%Z) as Hb.
  { apply (Hb _ state_default) in Hf; [done| |cbn; lia]. apply List.Forall_forall.
    by intros x [_ ?]%filter_In. }
  clear. induction l as [|event l IH]; intros st1 Hl Hle Hf; [by injection Hf as <-|].
  cbn in Hf. apply result_bind_Ok in Hf as (st2 & (e & He & Ha)%fold_step_Ok & Hf).
  apply Forall_cons in Hl as [Hu Hl]. apply (IH st2); [done| |done].
  destruct (from_flat_fields _ _ He) as [Hseq _]. unfold up_to in Hu. rewrite Hseq in Hu.
  destruct (apply_effect _ _ _ Ha) as (k & u & _ & ->%effect_last_seq). cbn. rewrite Hseq. cbn. lia.
Qed.
End invariants.
