(* ===== verification/RunStateOps.v ===== *)
(** * The run state: files, executions and external operations *)

From S2P Require Import Prelude Str BMap Json ValueBag PathPolicy Serde Events RunState RunStateEffect RunStateInv.

#[local] Arguments s : simpl never.

(** ** The run state: file pins, node executions, operations *)

Section files.
Context {W : WireTypes}.
Implicit Types (st : RunState) (event : value).

(** ** File pins *)

Definition has_revision (h : bmap (bmap unit)) (p sha : str) : Prop :=
  ∃ revisions, bm_get p h = Some revisions ∧ is_Some (bm_get sha revisions).

Lemma has_revision_record h files p sha :
  has_revision (record_history h files) p sha ↔
  has_revision h p sha ∨ mkFilePin p sha ∈ files.
Proof.
  unfold record_history. revert h; induction files as [|[q z] files IH]; intros h; cbn [foldl].
  { split; [by left|]. by intros [?|?%not_elem_of_nil]. }
  rewrite IH, elem_of_cons.
  assert (Hone : has_revision (bm_insert q (bs_insert z (default [] (bm_get q h))) h) p sha ↔
                 has_revision h p sha ∨ mkFilePin p sha = mkFilePin q z).
  { unfold has_revision, bs_insert. rewrite bm_get_insert.
    destruct (str_eqb_spec p q) as [->|Hne].
    - split.
      + intros (r & [= <-] & Hr). rewrite bm_get_insert in Hr.
        destruct (str_eqb_spec sha z) as [->|]; [by right|]. left.
        destruct (bm_get q h) as [r|]; [by eauto|by destruct Hr].
      + intros Hor. eexists. split; [done|]. rewrite bm_get_insert.
        destruct (str_eqb_spec sha z); [by eauto|].
        by destruct Hor as [(r & -> & Hr)|[= ->]].
    - split; [by left|]. intros [?|[= -> ->]]; done. }
  rewrite Hone. cbn. tauto.
Qed.

Lemma pins_latest_get files m p :
  bm_get p (pins_latest files m) = bm_get p m ∧ p ∉ map pin_path files ∨
  ∃ sha, bm_get p (pins_latest files m) = Some sha ∧ mkFilePin p sha ∈ files.
Proof.
  unfold pins_latest. revert m; induction files as [|[q z] files IH]; intros m; cbn.
  { left. split; [done|apply not_elem_of_nil]. }
  destruct (IH (bm_insert q z m)) as [[E Hn]|(sha & E & Hin)].
  - rewrite E, bm_get_insert. destruct (str_eqb_spec p q) as [->|Hne].
    + right. exists z. split; [done|by left].
    + left. split; [done|]. set_solver.
  - right. exists sha. split; [done|by right].
Qed.
Lemma remove_all_get {V} (l : list str) (m : bmap V) p :
  bm_get p (foldl (λ m q, bm_remove q m) m l) = if decide (p ∈ l) then None else bm_get p m.
Proof.
  revert m; induction l as [|q l IH]; intros m; cbn; [done|]. rewrite IH, bm_get_remove.
  destruct (str_eqb_spec p q) as [->|Hne]; repeat case_decide; set_solver.
Qed.
Lemma pins_unremoved_get files m p :
  bm_get p (pins_unremoved files m) = if decide (p ∈ map pin_path files) then None else bm_get p m.
Proof.
  unfold pins_unremoved. rewrite <-remove_all_get. f_equal.
  revert m; induction files as [|pin files IH]; intros m; cbn; [done|]. apply IH.
Qed.
Lemma insert_all_get (l : list str) (m : bmap unit) p :
  is_Some (bm_get p (foldl (λ m q, bs_insert q m) m l)) ↔ p ∈ l ∨ is_Some (bm_get p m).
Proof.
  revert m; induction l as [|q l IH]; intros m; cbn; [set_solver|].
  rewrite IH. unfold bs_insert. rewrite bm_get_insert, elem_of_cons.
  destruct (str_eqb_spec p q) as [->|Hne]; [|naive_solver]. naive_solver eauto.
Qed.

(** The pins of a state: no removed path has a latest revision, and every
    latest revision is in the history. *)
Definition pins_ok (latest : bmap str) (removed : bmap unit) (h : bmap (bmap unit)) : Prop :=
  ∀ p sha, bm_get p latest = Some sha → bm_get p removed = None ∧ has_revision h p sha.
Definition state_pins_ok st : Prop :=
  pins_ok (rs_latest_file_pins st) (rs_removed_files st) (rs_historical_file_pins st).
Definition file_pins st : bmap str * bmap unit * bmap (bmap unit) :=
  (rs_latest_file_pins st, rs_removed_files st, rs_historical_file_pins st).

Lemma changes_pins_ok c latest removed h :
  pins_ok latest removed h → pins_ok (changes_latest c latest) (changes_removed c removed) h.
Proof.
  intros Hok p sha. unfold changes_latest, changes_removed. rewrite !remove_all_get.
  destruct (decide (p ∈ fc_removed_files c)) as [|Hn]; [done|]. intros E.
  destruct (Hok p sha E) as [Hr Hh]. split; [|done]. case_decide; [done|].
  apply eq_None_not_Some. rewrite insert_all_get, Hr. intros [?|[? ?]]; done.
Qed.

Lemma finished_pins_ok event st st' path status files failed :
  finished event st st' path status files failed → state_pins_ok st → state_pins_ok st'.
Proof.
  intros Hfin Hok p sha.
  rewrite (fin_latest _ _ _ _ _ _ _ Hfin), (fin_removed _ _ _ _ _ _ _ Hfin),
    (fin_history _ _ _ _ _ _ _ Hfin), has_revision_record, elem_of_app.
  case_if.
  - rewrite pins_unremoved_get. destruct (pins_latest_get files (rs_latest_file_pins st) p)
      as [[-> Hn]|(z & -> & Hin)].
    + intros Hp. rewrite decide_False by done. destruct (Hok p sha Hp). naive_solver.
    + intros [= ->]. rewrite decide_True; [naive_solver|].
      apply list_elem_of_fmap. by exists (mkFilePin p sha).
  - intros Hp. destruct (Hok p sha Hp). naive_solver.
Qed.

Lemma effect_pins_ok event st st' kind :
  effect event st st' kind → state_pins_ok st → state_pins_ok st'.
Proof.
  intros He Hok. unfold state_pins_ok.
  assert (Hsame : ∀ st1, file_pins st1 = file_pins st → state_pins_ok st1).
  { intros st1 E. unfold state_pins_ok.
    by rewrite (f_equal (λ t, t.1.1) E : rs_latest_file_pins st1 = _),
      (f_equal (λ t, t.1.2) E : rs_removed_files st1 = _),
      (f_equal (λ t, t.2) E : rs_historical_file_pins st1 = _). }
  effect_cases He; try (apply Hsame; exact (f_equal file_pins E)).
  - apply Hsame. exact (f_equal file_pins (id_core _ _ _ _ _ Hid)).
  - pose proof (f_equal rs_latest_file_pins E : rs_latest_file_pins st' = _) as ->.
    pose proof (f_equal rs_removed_files E : rs_removed_files st' = _) as ->.
    pose proof (f_equal rs_historical_file_pins E : rs_historical_file_pins st' = _) as ->.
    by apply changes_pins_ok.
  - by eapply finished_pins_ok.
  - by eapply finished_pins_ok.
Qed.

Lemma effect_history event st st' kind p sha :
  effect event st st' kind → has_revision (rs_historical_file_pins st) p sha →
  has_revision (rs_historical_file_pins st') p sha.
Proof.
  intros He Hr. effect_cases He;
    try (by rewrite (f_equal rs_historical_file_pins E : rs_historical_file_pins st' = _)).
  - by rewrite (f_equal rs_historical_file_pins (id_core _ _ _ _ _ Hid) : rs_historical_file_pins st' = _).
  - rewrite (fin_history _ _ _ _ _ _ _ Hfin), has_revision_record. by left.
  - rewrite (fin_history _ _ _ _ _ _ _ Hfin), has_revision_record. by left.
Qed.

(** An effect whose kind is [step_finished] is that of a finished step. *)
Lemma effect_finished event st st' :
  effect event st st' (s"step_finished") →
  ∃ path status files failed, finished event st st' path status files failed.
Proof.
  intros He. remember (s"step_finished") as k eqn:Ek.
  assert (Hnot : ∀ l, kind_in (s"step_finished") l = false → k ∉ l).
  { intros l Hl Hin. rewrite Ek in Hin. apply kind_in_elem in Hin. congruence. }
  effect_cases He; unfold TERMINAL_EVENT_KINDS in *; eauto;
    try (exfalso; revert Hk; apply Hnot; vm_compute; reflexivity); try (by vm_compute in Ek).
  - destruct Hk. rewrite Ek. by apply (bool_decide_unpack _).
  - destruct Hb; by vm_compute in Ek.
Qed.

(** file pins are consistent with the history.  In every folded state a
    path with a latest revision is not recorded as removed, that revision is
    in the immutable history, and no revision a finished step reported is ever
    dropped from the history. *)
Theorem file_pins_consistent (events : list value) st :
  fold_values events = Ok st →
  state_pins_ok st ∧
  (∀ event files pin, event ∈ events → get_str (s"t") event = Some (s"step_finished") →
     pins event (s"files") = Ok files → pin ∈ files →
     has_revision (rs_historical_file_pins st) (pin_path pin) (pin_sha256 pin)).
Proof.
  revert events st. apply fold_values_ind.
  { split; [done|]. by intros ? ? ? ?%not_elem_of_nil. }
  intros events event st st' e _ [Hok Hall] _ Ha.
  destruct (apply_effect _ _ _ Ha) as (kind & u & Hk & He). split.
  - by eapply effect_pins_ok.
  - intros ev files pin Hev Ht Hp Hpin. apply elem_of_app in Hev as [Hin|Hin].
    + eapply effect_history; [exact He|]. by eapply Hall.
    + apply list_elem_of_singleton in Hin as ->. rewrite Hk in Ht. injection Ht as ->.
      apply effect_finished in He as (path & status & files' & failed & Hfin).
      rewrite (fin_history _ _ _ _ _ _ _ Hfin), has_revision_record, elem_of_app.
      right; left. rewrite (fin_files _ _ _ _ _ _ _ Hfin) in Hp. injection Hp as ->. by destruct pin.
Qed.

(** ** Node executions *)

Definition count_if (f : value → bool) (events : list value) : Z :=
  Z.of_nat (length (List.filter f events)).
Lemma count_if_snoc f events e :
  count_if f (events ++ [e]) = (count_if f events + if f e then 1 else 0)%Z.
Proof. unfold count_if. rewrite List.filter_app, length_app. cbn. destruct (f e); cbn; lia. Qed.

(** A report that ends an execution of the node. *)
Definition completes (path : str) event : bool :=
  bool_decide (get_str (s"t") event = Some (s"step_finished"))
  && bool_decide (get_str (s"node") event = Some path)
  && negb (kind_in (step_status event) suspended_statuses).

Lemma effect_executions event st st' kind node :
  get_str (s"t") event = Some kind → effect event st st' kind →
  default 0%Z (bm_get node (rs_node_executions st')) =
  (default 0%Z (bm_get node (rs_node_executions st)) + if completes node event then 1 else 0)%Z.
Proof.
  intros Hkind He.
  assert (Hsame : kind ≠ s"step_finished" → rs_node_executions st' = rs_node_executions st →
    default 0%Z (bm_get node (rs_node_executions st')) =
    (default 0%Z (bm_get node (rs_node_executions st)) + if completes node event then 1 else 0)%Z).
  { intros Hne ->. unfold completes. rewrite Hkind, bool_decide_eq_false_2 by congruence. cbn. lia. }
  destruct (decide (kind = s"step_finished")) as [->|Hne].
  - clear Hsame. apply effect_finished in He as (p & status & files & failed & Hfin).
    rewrite (fin_executions _ _ _ _ _ _ _ Hfin). unfold completes, step_status.
    rewrite Hkind, (fin_node _ _ _ _ _ _ _ Hfin), (fin_status _ _ _ _ _ _ _ Hfin).
    rewrite (bool_decide_eq_true_2 (Some (s"step_finished") = _)) by done.
    cbn [default from_option id andb]. rewrite suspended_status_spec.
    destruct (is_suspended_status status); cbn; [rewrite andb_false_r; lia|].
    rewrite andb_true_r, bm_get_insert. destruct (str_eqb_spec node p) as [->|Hp].
    + rewrite bool_decide_eq_true_2 by done. done.
    + rewrite bool_decide_eq_false_2 by congruence. lia.
  - apply Hsame; [done|]. effect_cases He; try exact (f_equal rs_node_executions E).
    + exact (f_equal rs_node_executions (id_core _ _ _ _ _ Hid)).
    + done.
    + rewrite (fin_executions _ _ _ _ _ _ _ Hfin). by rewrite Hsus.
Qed.

(** Execution generations are truthful.  The recorded generation of a
    node is exactly the number of its [step_finished] reports that were not a
    suspension, so an invocation keeps its identity across questions and
    confirmations and never shares it with another execution. *)
Theorem node_executions_count (events : list value) st (path : str) :
  fold_values events = Ok st →
  default 0%Z (bm_get path (rs_node_executions st)) = count_if (completes path) events.
Proof.
  revert events st. apply (fold_values_ind (λ events st, default 0%Z (bm_get path (rs_node_executions st)) = _)).
  { done. }
  intros events event st st' e _ IH _ Ha. destruct (apply_effect _ _ _ Ha) as (kind & u & Hk & He).
  rewrite (effect_executions _ _ _ _ path Hk He), count_if_snoc. cbn. by rewrite IH.
Qed.
End files.

(** ** The run state: external operations

    The operation table of the state against an abstract life cycle: the
    status of an operation is that of the last event about it. *)

Section operations.
Context {W : WireTypes}.
Implicit Types (st : RunState) (event : value).

(** ** The abstract life cycle *)

Inductive op_event : Type :=
| OpStarted (id : str)
| OpFinished (id : str) (outcome : OperationStatus).

(** The outcome a report names: anything but a known status leaves it open
    whether the operation took effect. *)
Definition reported_outcome event : OperationStatus :=
  if decide (get_str (s"status") event = Some (s"success")) then OpSucceeded
  else if decide (get_str (s"status") event = Some (s"clean")) then FailedClean
  else FailedIndeterminate.
Lemma finished_outcome_spec event : (finished_outcome event).1.1 = reported_outcome event.
Proof.
  unfold finished_outcome, reported_outcome. destruct (get_str (s"status") event) as [x|]; [|done].
  destruct (str_eqb_spec x (s"success")) as [->|H1]; [by rewrite decide_True|].
  rewrite decide_False by congruence.
  destruct (str_eqb_spec x (s"clean")) as [->|H2]; [by rewrite decide_True|].
  by rewrite decide_False by congruence.
Qed.

(** What an event says about an operation. *)
Definition op_event_of event : option op_event :=
  kind ← get_str (s"t") event;
  if kind =s s"operation_started" then OpStarted <$> get_str (s"operation_id") event
  else if kind =s s"operation_finished" then
    (λ id, OpFinished id (reported_outcome event)) <$> get_str (s"operation_id") event
  else if kind =s s"mcp_continuation_consumed" then
    (λ key, OpFinished (s"mcp:" ++ key) OpSucceeded) <$> get_str (s"pending_key") event
  else None.

(** The operation an event is about. *)
Definition op_subject event : option str :=
  match op_event_of event with Some (OpStarted i) | Some (OpFinished i _) => Some i | None => None end.
Definition op_next (id : str) (o : option OperationStatus) (e : option op_event) :
    option OperationStatus :=
  match e with
  | Some (OpStarted i) => if id =s i then Some Started else o
  | Some (OpFinished i outcome) => if id =s i then Some outcome else o
  | None => o
  end.
(** The status of an operation after a journal. *)
Definition op_status (id : str) (events : list value) : option OperationStatus :=
  foldl (op_next id) None (map op_event_of events).
Definition starts (id : str) event : bool :=
  match op_event_of event with Some (OpStarted i) => id =s i | _ => false end.

(** ** The table implements it *)

Definition table st : bmap OperationRecord * bmap Z :=
  (rs_operation_records st, rs_operation_attempts st).

Definition ops_kinds : list str :=
  [s"mcp_continuation_consumed"; s"operation_started"; s"operation_finished"].

(** The table after one event. *)
Record ops_step event st st' : Prop := {
  os_status : ∀ id, or_status <$> bm_get id (rs_operation_records st') =
    op_next id (or_status <$> bm_get id (rs_operation_records st)) (op_event_of event);
  os_attempts : ∀ id, default 0%Z (bm_get id (rs_operation_attempts st')) =
    (default 0%Z (bm_get id (rs_operation_attempts st)) + if starts id event then 1 else 0)%Z;
  os_sorted : bm_sorted (rs_operation_records st) → bm_sorted (rs_operation_records st');
  os_others : ∀ id, op_subject event ≠ Some id →
    bm_get id (rs_operation_records st') = bm_get id (rs_operation_records st);
}.

Lemma ops_same event st st' :
  op_event_of event = None → table st' = table st → ops_step event st st'.
Proof.
  intros Hn E. pose proof (f_equal fst E : rs_operation_records st' = _) as E1.
  pose proof (f_equal snd E : rs_operation_attempts st' = _) as E2.
  constructor; [intros id; by rewrite E1, Hn|intros id; rewrite E2; unfold starts; rewrite Hn; cbn -[bm_get]; lia|by rewrite E1|].
  intros id _. by rewrite E1.
Qed.
Lemma not_op_event event kind :
  get_str (s"t") event = Some kind → kind ∉ ops_kinds → op_event_of event = None.
Proof.
  intros Ht Hk. unfold op_event_of. rewrite Ht. cbn [mbind option_bind].
  rewrite !(proj2 (str_eqb_neq kind _)); [done|..]; intros ->; apply Hk; by apply (bool_decide_unpack _).
Qed.

Ltac op_kind Ht :=
  unfold op_event_of; rewrite Ht; cbn [mbind option_bind]; 
  repeat match goal with |- context [str_eqb (s ?a) (s ?b)] =>
    let v := eval vm_compute in (str_eqb (s a) (s b)) in
    change (str_eqb (s a) (s b)) with v end.

Lemma insert_status (m : bmap OperationRecord) id i r :
  or_status <$> bm_get id (bm_insert i r m) =
  if id =s i then Some (or_status r) else or_status <$> bm_get id m.
Proof. rewrite bm_get_insert. by destruct (id =s i). Qed.

Lemma started_step event st st1 :
  get_str (s"t") event = Some (s"operation_started") →
  apply_operation_started st event = Ok st1 → ops_step event st st1.
Proof.
  intros Ht Ho.
  assert (Hev : op_event_of event = OpStarted <$> get_str (s"operation_id") event) by (by op_kind Ht).
  unfold apply_operation_started in Ho.
  destruct (get_str (s"operation_id") event) as [i|]; [|injection Ho as <-; by apply ops_same].
  apply result_bind_Ok in Ho as (d & _ & Ho). apply result_bind_Ok in Ho as (inv & _ & Ho).
  apply result_bind_Ok in Ho as (n & Hn & [= <-]). apply count_Ok in Hn as [-> _].
  constructor.
  - intros id. rewrite Hev. cbn [rs_operation_records]. apply insert_status.
  - intros id. unfold starts. rewrite Hev. cbn -[bm_get]. rewrite bm_get_insert.
    destruct (str_eqb_spec id i) as [->|]; [done|lia].
  - intros Hs. by apply bm_sorted_insert.
  - intros id Hid. unfold op_subject in Hid. rewrite Hev in Hid. cbn in Hid. apply bm_get_insert_ne. congruence.
Qed.
Lemma finished_op_step event st :
  get_str (s"t") event = Some (s"operation_finished") →
  ops_step event st (apply_operation_finished st event).
Proof.
  intros Ht.
  assert (Hev : op_event_of event =
    (λ id, OpFinished id (reported_outcome event)) <$> get_str (s"operation_id") event)
    by (by op_kind Ht).
  unfold apply_operation_finished.
  destruct (get_str (s"operation_id") event) as [i|]; [|by apply ops_same].
  rewrite <-finished_outcome_spec in Hev.
  destruct (finished_outcome event) as [[status res] ref]. constructor.
  - intros id. rewrite Hev. apply insert_status.
  - intros id. unfold starts. rewrite Hev. cbn -[bm_get]. lia.
  - intros Hs. by apply bm_sorted_insert.
  - intros id Hid. unfold op_subject in Hid. rewrite Hev in Hid. cbn in Hid. apply bm_get_insert_ne. congruence.
Qed.
Lemma consumed_step event st :
  get_str (s"t") event = Some (s"mcp_continuation_consumed") →
  ops_step event st (apply_mcp_consumed st event).
Proof.
  intros Ht.
  assert (Hev : op_event_of event =
    (λ key, OpFinished (s"mcp:" ++ key) OpSucceeded) <$> get_str (s"pending_key") event)
    by (by op_kind Ht).
  unfold apply_mcp_consumed.
  destruct (get_str (s"pending_key") event) as [i|]; [|by apply ops_same]. constructor.
  - intros id. rewrite Hev. apply insert_status.
  - intros id. unfold starts. rewrite Hev. cbn -[bm_get]. lia.
  - intros Hs. by apply bm_sorted_insert.
  - intros id Hid. unfold op_subject in Hid. rewrite Hev in Hid. cbn in Hid. apply bm_get_insert_ne. congruence.
Qed.

Lemma ops_step_table event st st1 st' :
  ops_step event st st1 → table st' = table st1 → ops_step event st st'.
Proof.
  intros [H1 H2 H3 H4] E. pose proof (f_equal fst E : rs_operation_records st' = _) as E1.
  pose proof (f_equal snd E : rs_operation_attempts st' = _) as E2.
  constructor; [intros id; by rewrite E1|intros id; by rewrite E2|by rewrite E1|].
  intros id Hid. rewrite E1. by apply H4.
Qed.

Lemma effect_ops event st st' kind :
  get_str (s"t") event = Some kind → effect event st st' kind → ops_step event st st'.
Proof.
  intros Ht He.
  assert (Hsame : kind ∉ ops_kinds → table st' = table st → ops_step event st st').
  { intros Hk E. apply ops_same; [by eapply not_op_event|done]. }
  effect_cases He; unfold TERMINAL_EVENT_KINDS, ops_kinds in *.
  - apply Hsame; [|exact (f_equal table E)]. intros Hin. apply Hk.
    split_kind; by apply (bool_decide_unpack _).
  - apply Hsame; [|exact (f_equal table (id_core _ _ _ _ _ Hid))].
    split_kind; by apply (bool_decide_unpack _).
  - apply Hsame; [|exact (f_equal table E)]. split_kind; by apply (bool_decide_unpack _).
  - apply Hsame; [|exact (f_equal table E)]. split_kind; by apply (bool_decide_unpack _).
  - apply Hsame; [|exact (f_equal table E)]. by apply (bool_decide_unpack _).
  - apply Hsame; [|exact (f_equal table E)]. destruct Hb; by apply (bool_decide_unpack _).
  - apply Hsame; [|exact (f_equal table E)]. by apply (bool_decide_unpack _).
  - apply Hsame; [|exact (f_equal table (fin_core _ _ _ _ _ _ _ Hfin))]. by apply (bool_decide_unpack _).
  - apply Hsame; [|exact (f_equal table (fin_core _ _ _ _ _ _ _ Hfin))]. by apply (bool_decide_unpack _).
  - clear Hsame. pose proof (f_equal table E : table st' = (records, attempts)) as Et.
    destruct Hrec as [(-> & -> & ->)|[(-> & -> & ->)|(-> & st1 & Ho & -> & ->)]].
    + eapply ops_step_table; [by apply consumed_step|]. rewrite Et. unfold table. f_equal.
      unfold apply_mcp_consumed. by destruct (get_str (s"pending_key") event).
    + eapply ops_step_table; [by apply finished_op_step|]. rewrite Et. unfold table. f_equal.
      by rewrite operation_finished_frame.
    + eapply ops_step_table; [by eapply started_step|]. by rewrite Et.
Qed.

Lemma inflight_None st :
  bm_sorted (rs_operation_records st) →
  ensure_no_inflight_operations st = None ↔
  ∀ id, or_status <$> bm_get id (rs_operation_records st) ≠ Some Started.
Proof.
  intros Hs. unfold ensure_no_inflight_operations, bm_find. rewrite fmap_None, find_none_elem. split.
  - intros Hn id E. apply fmap_Some in E as (r & Hr & Es). symmetry in Es.
    apply bm_get_elem, Hn in Hr. unfold is_started in Hr. by rewrite bool_decide_eq_true_2 in Hr.
  - intros Hn [id r] Hin. apply bm_elem_get in Hin; [|done]. specialize (Hn id).
    unfold is_started. apply bool_decide_eq_false_2. intros E. apply Hn. by rewrite Hin, <-E.
Qed.

(** The table after a journal. *)
Lemma fold_operations (events : list value) st :
  fold_values events = Ok st →
  (∀ id, or_status <$> bm_get id (rs_operation_records st) = op_status id events) ∧
  (∀ id, default 0%Z (bm_get id (rs_operation_attempts st)) = count_if (starts id) events) ∧
  bm_sorted (rs_operation_records st).
Proof.
  revert events st. apply fold_values_ind; [split; [done|]; split; [done|constructor]|].
  intros events event st st' e _ (IH1 & IH2 & IH3) _ Ha.
  destruct (apply_effect _ _ _ Ha) as (kind & u & Hk & He).
  destruct (effect_ops _ _ _ _ Hk He) as [H1 H2 H3 _]. split; [|split; [|by apply H3]].
  - intros id. rewrite H1. unfold op_status. rewrite map_app, foldl_app. cbn [map foldl].
    f_equal. apply IH1.
  - intros id. rewrite H2, count_if_snoc. f_equal. apply IH2.
Qed.
(** Events about other operations leave the record of an operation alone. *)
Lemma fold_record_kept (events later : list value) st st' id :
  fold_values events = Ok st → fold_values (events ++ later) = Ok st' →
  (∀ v, v ∈ later → op_subject v ≠ Some id) →
  bm_get id (rs_operation_records st') = bm_get id (rs_operation_records st).
Proof.
  intros Hf. revert st'. induction later as [|v later IH] using rev_ind; intros st' Hf' Hl.
  { rewrite app_nil_r in Hf'. congruence. }
  rewrite app_assoc in Hf'. apply fold_values_snoc in Hf' as (st1 & Hf1 & (e & _ & Ha)%fold_step_Ok).
  destruct (apply_effect _ _ _ Ha) as (kind & u & Hk & He).
  rewrite (os_others _ _ _ (effect_ops _ _ _ _ Hk He)) by (apply Hl; set_solver).
  transitivity (bm_get id (rs_operation_records st1)); [done|].
  apply IH; [done|]. intros w Hw. apply Hl. set_solver.
Qed.
(** A status after a start was set by an event after it. *)
Lemma op_status_after id before v after o :
  op_event_of v = Some (OpStarted id) → op_status id (before ++ v :: after) = o → o ≠ Some Started →
  ∃ outcome v', o = Some outcome ∧ v' ∈ after ∧ op_event_of v' = Some (OpFinished id outcome).
Proof.
  intros Hv. unfold op_status. rewrite map_app, foldl_app. cbn [map foldl]. rewrite Hv. cbn [op_next].
  rewrite str_eqb_refl. revert o. induction after as [|u after IH] using rev_ind; intros o Ho Hs; [by subst|].
  rewrite map_app, foldl_app in Ho. cbn [map foldl] in Ho.
  set (o1 := foldl _ _ _) in *. destruct (op_event_of u) as [[i|i outcome]|] eqn:Eu; cbn [op_next] in Ho.
  - destruct (id =s i); [by subst|]. destruct (IH o1 eq_refl) as (x & v' & E & Hin & Hev); [congruence|].
    exists x, v'. split; [congruence|]. split; [set_solver | done].
  - destruct (str_eqb_spec id i) as [->|].
    + exists outcome, u. split; [done|]. split; [set_solver | done].
    + destruct (IH o1 eq_refl) as (x & v' & E & Hin & Hev); [congruence|].
      exists x, v'. split; [congruence|]. split; [set_solver | done].
  - destruct (IH o1 eq_refl) as (x & v' & E & Hin & Hev); [congruence|].
    exists x, v'. split; [congruence|]. split; [set_solver | done].
Qed.

(** C26: the operation table refines the life cycle of external operations.
    For every operation the recorded status is the outcome of the last event
    about it, its attempt generation is the number of its starts, and the
    deletion gate opens exactly when no operation is in flight, that is, when
    the last event about every operation reported an outcome. *)
Theorem operations_refine (events : list value) st :
  fold_values events = Ok st →
  (∀ id, or_status <$> bm_get id (rs_operation_records st) = op_status id events) ∧
  (∀ id, default 0%Z (bm_get id (rs_operation_attempts st)) = count_if (starts id) events) ∧
  (ensure_no_inflight_operations st = None ↔ ∀ id, op_status id events ≠ Some Started).
Proof.
  intros (H1 & H2 & H3)%fold_operations. split; [done|]. split; [done|].
  rewrite inflight_None by done. by setoid_rewrite H1.
Qed.
End operations.

(** ** Operation ids *)

Section operation_ids.
Variable sha256_hex : str → str.
(** A SHA-256 digest is 64 hexadecimal digits. *)
Hypothesis digest_length : ∀ x, length (sha256_hex x) = 64.

(** Within a run an operation id determines the node and the digest of
    the invocation: two guarded calls share an id only if they come from the
    same node and their invocations have the same SHA-256 digest, whatever
    characters the node ids contain. *)
Theorem operation_id_injective (run node1 node2 inv1 inv2 : str) :
  operation_id_for sha256_hex run node1 inv1 = operation_id_for sha256_hex run node2 inv2 →
  node1 = node2 ∧ sha256_hex inv1 = sha256_hex inv2.
Proof.
  assert (Hid : ∀ n i, operation_id_for sha256_hex run n i = (run ++ s":" ++ n ++ s":") ++ sha256_hex i)
    by (intros; unfold operation_id_for; by rewrite <-!app_assoc).
  rewrite !Hid. intros E. apply app_inj_2 in E as [E1 E2]; [|by rewrite !digest_length].
  split; [|done]. apply app_inv_head, app_inv_head in E1. by apply app_inj_2 in E1 as [E1 _].
Qed.
End operation_ids.

Lemma operation_id_injective_witness :
  let sha := λ x : str, take 64 (x ++ replicate 64 48%Z) in
  operation_id_for sha (s"r") (s"a:b") (s"1") = operation_id_for sha (s"r") (s"a:b") (s"1") ∧
  sha (s"1") = sha (s"1").
Proof.
  intros sha. split; [reflexivity|].
  refine (proj2 (operation_id_injective sha _ (s"r") (s"a:b") (s"a:b") (s"1") (s"1") eq_refl)).
  intros x. unfold sha. rewrite length_take, length_app, length_replicate. lia.
Defined.
