(* ===== verification/RunStatePrompts.v ===== *)
(** * The run state: prompts

    Questions and confirmations a run waits for: who owns them, which journal
    event installed them, and what a response does to them. *)

From S2P Require Import Prelude Str BMap Json ValueBag PathPolicy Serde Events RunState RunStateEffect RunStateInv.

#[local] Arguments s : simpl never.

Section prompts.
Context {W : WireTypes}.
Implicit Types (st : RunState) (event : value).

Definition prompts st : option Interaction * option Z * bmap Interaction * bmap Z :=
  (rs_pending st, rs_pending_seq st, rs_pending_interactions st, rs_interaction_seqs st).

(** Reported prompts are stored by owner in order, a recorded generation has
    a prompt and is a sequence number already seen, and so is the generation
    of the prompt shown. *)
Record owners_ok (last : Z) (interactions : bmap Interaction) (gens : bmap Z) : Prop := {
  ow_sorted : bm_sorted interactions;
  ow_gens_sorted : bm_sorted gens;
  ow_gens : ∀ owner n, bm_get owner gens = Some n →
    is_Some (bm_get owner interactions) ∧ (n ≤ last)%Z;
}.
Record prompts_ok st : Prop := {
  po_owners : owners_ok (rs_last_seq st) (rs_pending_interactions st) (rs_interaction_seqs st);
  po_shown : ∀ n, rs_pending_seq st = Some n → is_Some (rs_pending st) ∧ (n ≤ rs_last_seq st)%Z;
}.

Lemma prompts_ok_same st st' :
  prompts st' = prompts st → rs_last_seq st' = rs_last_seq st → prompts_ok st → prompts_ok st'.
Proof.
  intros E El [Ho Hs].
  pose proof (f_equal (λ t, t.1.1.1) E : rs_pending st' = _) as E1.
  pose proof (f_equal (λ t, t.1.1.2) E : rs_pending_seq st' = _) as E2.
  pose proof (f_equal (λ t, t.1.2) E : rs_pending_interactions st' = _) as E3.
  pose proof (f_equal (λ t, t.2) E : rs_interaction_seqs st' = _) as E4.
  constructor; rewrite ?E1, ?E2, ?E3, ?E4, ?El; done.
Qed.

Lemma project_ok st :
  owners_ok (rs_last_seq st) (rs_pending_interactions st) (rs_interaction_seqs st) →
  prompts_ok (project_interaction st).
Proof.
  intros Ho. constructor; [exact Ho|]. cbn. intros n.
  destruct (rs_pending_interactions st) as [|[owner i] m]; [done|]. cbn.
  intros Hn. split; [by eexists|]. by apply (ow_gens _ _ _ Ho) in Hn as [_ ?].
Qed.

Lemma install_ok st st' event b n :
  get_u64 (s"seq") event = Some n → (n ≤ rs_last_seq st)%Z → prompts_ok st →
  install_interaction st event b = Ok st' → prompts_ok st' ∧ rs_last_seq st' = rs_last_seq st.
Proof.
  intros Hseq Hn Hok Hi.
  assert (El : rs_last_seq st' = rs_last_seq st)
    by (apply install_frame in Hi; exact (f_equal rs_last_seq Hi)).
  split; [|done]. unfold install_interaction in Hi. destruct (get _ event); [|by injection Hi as <-].
  apply result_bind_Ok in Hi as (i & _ & Hi). rewrite Hseq in Hi. cbn zeta in Hi.
  destruct (match get_str (s"node") event with Some node => Some node | None => _ end) as [owner|];
    injection Hi as <-.
  - destruct Hok as [[Hso Hgs Hg] _]. apply project_ok. cbn.
    constructor; [by apply bm_sorted_insert|by apply bm_sorted_insert, bm_sorted_remove|].
    intros o k. rewrite bm_get_insert, bm_get_remove, bm_get_insert.
    destruct (str_eqb_spec o owner); [|apply Hg]. intros [= <-]. split; [by eexists|done].
  - destruct Hok as [Ho _]. constructor; [exact Ho|]. cbn. intros k [= <-]. split; [by eexists|done].
Qed.

Lemma owners_remove last pi gens path :
  owners_ok last pi gens → owners_ok last (bm_remove path pi) (bm_remove path gens).
Proof.
  intros [Hs Hgs Hg]. constructor; [by apply bm_sorted_remove..|].
  intros o k. rewrite !bm_get_remove. destruct (str_eqb_spec o path); [done|]. apply Hg.
Qed.

Lemma retire_ok st path : prompts_ok st → prompts_ok (retire_interaction st path).
Proof.
  intros [Ho Hs]. pose proof (owners_remove _ _ _ path Ho) as Hr. unfold retire_interaction. cbn zeta.
  change (rs_pending (st <| rs_pending_interactions := _ |>)) with (rs_pending st).
  assert (Hkeep : prompts_ok (st <| rs_pending_interactions := bm_remove path (rs_pending_interactions st) |>
                                 <| rs_interaction_seqs := bm_remove path (rs_interaction_seqs st) |>))
    by (by constructor).
  destruct (bm_get path _) as [r|], (rs_pending st) as [p|] eqn:Ep; try exact Hkeep.
  case_if; [|exact Hkeep]. constructor; [exact Hr|]. cbn. intros n.
  destruct (bm_remove path (rs_pending_interactions st)) as [|[o i] m] eqn:Em; [done|]. cbn.
  intros Hn. split; [by eexists|]. by apply (ow_gens _ _ _ Ho) in Hn as [_ ?].
Qed.

Lemma retire_last_seq st path : rs_last_seq (retire_interaction st path) = rs_last_seq st.
Proof. exact (f_equal rs_last_seq (retire_frame st path)). Qed.

(** ** The arms *)

Lemma patched_prompts st st' event :
  apply_state_patched st event = Ok st' → prompts st' = prompts st.
Proof.
  unfold apply_state_patched. cbn zeta. intros Hp.
  destruct (get_object (s"inputs") event), (get_object (s"step_outputs") event),
    (get_object (s"step_statuses") event);
    by first [injection Hp as <- | apply result_bind_Ok in Hp as (? & _ & [= <-])].
Qed.
Lemma task_joined_prompts st st' kind event :
  apply_task_joined st kind event = Ok st' → prompts st' = prompts st.
Proof.
  unfold apply_task_joined. cbn zeta. intros Hj. apply result_bind_Ok in Hj as (st1 & H1 & Hj).
  assert (E1 : prompts st1 = prompts st).
  { unfold foreach_report in H1. case_if in H1; [|by injection H1 as <-].
    apply result_bind_Ok in H1 as (owner & _ & [= <-]). by case_if. }
  rewrite <-E1. unfold unreported_task in Hj. case_if in Hj; [|by injection Hj as <-].
  by apply result_bind_Ok in Hj as (owner & _ & [= <-]).
Qed.

Lemma finished_ok st st' event n :
  get_u64 (s"seq") event = Some n → (n ≤ rs_last_seq st)%Z → prompts_ok st →
  apply_step_finished st event = Ok st' → prompts_ok st' ∧ rs_last_seq st' = rs_last_seq st.
Proof.
  intros Hseq Hn Hok Hf.
  assert (El : rs_last_seq st' = rs_last_seq st).
  { apply finished_inv in Hf as (? & ? & ? & ? & Hf).
    exact (f_equal rs_last_seq (fin_core _ _ _ _ _ _ _ Hf)). }
  split; [|done]. unfold apply_step_finished in Hf.
  apply result_bind_Ok in Hf as (path & _ & Hf). apply result_bind_Ok in Hf as (status & _ & Hf).
  apply result_bind_Ok in Hf as (files & _ & Hf). apply result_bind_Ok in Hf as (failed & _ & Hf).
  cbn zeta in Hf. rewrite workspace_pins_eq in Hf.
  apply result_bind_Ok in Hf as (st1 & H1 & Hf). apply result_bind_Ok in Hf as (st2 & H2 & Hf).
  assert (Hok1 : prompts_ok st1 ∧ rs_last_seq st1 = rs_last_seq st).
  { destruct (is_suspended_status status).
    - rewrite orb_true_r in H1.
      eapply install_ok in H1 as [Hp Hl];
        [split; [exact Hp|exact Hl]|exact Hseq|exact Hn|by apply (prompts_ok_same st)].
    - injection H1 as <-. split; [|by case_if]. by apply (prompts_ok_same st); [case_if..|]. }
  destruct Hok1 as [Hok1 El1].
  assert (Hok2 : prompts_ok st2 ∧ rs_last_seq st2 = rs_last_seq st).
  { case_if in H2; [|case_if in H2; [|by injection H2 as <-]].
    - unfold step_succeeded in H2. apply result_bind_Ok in H2 as (? & _ & [= <-]).
      split; [by apply (prompts_ok_same st1)|done].
    - unfold step_failed in H2. apply result_bind_Ok in H2 as (? & _ & H2).
      apply result_bind_Ok in H2 as (? & _ & [= <-]). split; [by apply (prompts_ok_same st1)|done]. }
  destruct Hok2 as [Hok2 _]. case_if in Hf; [|by injection Hf as <-].
  apply record_execution_inv in Hf as [-> _].
  set (st3 := st2 <| rs_checkpoints := _ |>).
  apply (prompts_ok_same (retire_interaction st3 path)); [done..|]. apply retire_ok.
  by apply (prompts_ok_same st2).
Qed.

Lemma prompts_ok_later st st' :
  prompts st' = prompts st → (rs_last_seq st ≤ rs_last_seq st')%Z → prompts_ok st → prompts_ok st'.
Proof.
  intros E El [[Hs Hgs Hg] Hp].
  pose proof (f_equal (λ t, t.1.1.1) E : rs_pending st' = _) as E1.
  pose proof (f_equal (λ t, t.1.1.2) E : rs_pending_seq st' = _) as E2.
  pose proof (f_equal (λ t, t.1.2) E : rs_pending_interactions st' = _) as E3.
  pose proof (f_equal (λ t, t.2) E : rs_interaction_seqs st' = _) as E4.
  constructor; rewrite ?E1, ?E2, ?E3, ?E4.
  - constructor; [done..|]. intros o k Hk. destruct (Hg o k Hk). split; [done|lia].
  - intros k Hk. destruct (Hp k Hk). split; [done|lia].
Qed.

Lemma response_inv st st' kind event :
  apply_response st kind event = Ok st' →
  ∃ st1 id, prompts st1 = prompts st ∧ rs_last_seq st1 = rs_last_seq st ∧
    st' = settle kind event st1 <| rs_terminal := None |> ∧
    get_str (if kind =s s"user_answered" then s"question_id" else s"confirmation_id") event = Some id ∧
    (if kind =s s"user_answered"
     then bm_get id (rs_answers st1) = get (s"values") event ∧ is_Some (get (s"values") event)
     else bm_get id (rs_confirmations st1) = get_bool (s"approved") event ∧
          is_Some (get_bool (s"approved") event)).
Proof.
  unfold apply_response. cbn zeta. intros Hr. apply result_bind_Ok in Hr as (id & Hid%ok_or_Ok & Hr).
  apply result_bind_Ok in Hr as (st1 & H1 & [= <-]). exists st1, id.
  destruct (kind =s s"user_answered"); apply result_bind_Ok in H1 as (v & Hv%ok_or_Ok & [= <-]).
  all: split; [done|]; split; [done|]; split; [done|]; split; [done|]; cbn.
  all: rewrite bm_get_insert_eq, Hv; eauto.
Qed.

Lemma retain_get_key {V} (f : str → V → bool) (m : bmap V) k v :
  bm_get k (bm_retain f m) = Some v → f k v = true ∧ (k, v) ∈ m.
Proof.
  intros Hg%bm_get_elem. unfold bm_retain in Hg. rewrite list_elem_of_In in Hg.
  apply filter_In in Hg as [Hin Hf]. by rewrite list_elem_of_In.
Qed.

Lemma settle_ok kind event st : prompts_ok st → prompts_ok (settle kind event st).
Proof.
  intros [[Hs Hss Hg] Hp]. unfold settle. cbn zeta.
  set (pi := bm_retain _ (rs_pending_interactions st)).
  set (gs := bm_retain (λ owner _, bm_contains owner pi) (rs_interaction_seqs st)).
  assert (Ho : owners_ok (rs_last_seq st) pi gs).
  { constructor; [by apply bm_sorted_retain..|]. intros o n Hn.
    apply retain_get_key in Hn as [Hc Hin]. apply bm_elem_get in Hin; [|done].
    split; [|by apply (Hg o n)]. unfold bm_contains in Hc.
    destruct (bm_get o pi); [by eexists|done]. }
  change (rs_pending (st <| rs_pending_interactions := _ |> <| rs_interaction_seqs := _ |>))
    with (rs_pending st).
  destruct (rs_pending st) as [p|] eqn:Ep; [destruct (response_matches kind event p)|].
  - by apply project_ok.
  - constructor; [exact Ho|]. cbn. by rewrite Ep.
  - constructor; [exact Ho|]. cbn. by rewrite Ep.
Qed.

Lemma waiting_ok st st' kind event n :
  get_u64 (s"seq") event = Some n → (n ≤ rs_last_seq st)%Z → prompts_ok st →
  apply_waiting st kind event = Ok st' → prompts_ok st'.
Proof.
  intros Hseq Hn Hok Hw. unfold apply_waiting in Hw. apply result_bind_Ok in Hw as (st1 & H1 & Hi).
  assert (Hok1 : prompts_ok st1 ∧ rs_last_seq st1 = rs_last_seq st).
  { case_if in H1; [|by injection H1 as <-].
    eapply finished_ok in H1 as [Hp Hl]; [split; [exact Hp|exact Hl]|..]; [|exact Hn|exact Hok].
    destruct event; try exact Hseq. unfold get_u64, get in *. by rewrite bm_get_insert_ne. }
  destruct Hok1 as [Hok1 El1].
  eapply install_ok in Hi as [Hp _]; [exact Hp|exact Hseq|lia|exact Hok1].
Qed.

Lemma skipped_ok st st' event :
  prompts_ok st → apply_step_skipped st event = Ok st' → prompts_ok st'.
Proof.
  intros Hok Hs. unfold apply_step_skipped in Hs. apply result_bind_Ok in Hs as (n & _ & Hs).
  destruct (get_str (s"node") event) as [path|].
  - apply result_bind_Ok in Hs as (r & _ & Hs). apply (inj Ok) in Hs as <-.
    match goal with |- context [retire_interaction ?a ?p] => set (st1 := a) end.
    apply (prompts_ok_same (retire_interaction st1 path)); [done..|]. apply retire_ok.
    by apply (prompts_ok_same st).
  - apply (inj Ok) in Hs as <-. by apply (prompts_ok_same st).
Qed.

(** Arms that leave the prompts alone. *)
Lemma kind_step_prompts event st st' kind n :
  get_u64 (s"seq") event = Some n → (n ≤ rs_last_seq st)%Z →
  kind_step event st st' kind → prompts_ok st → rs_last_seq st' = rs_last_seq st → prompts_ok st'.
Proof.
  intros Hseq Hn Hs Hok El.
  assert (Hsame : prompts st' = prompts st → prompts_ok st') by (intros E; by apply (prompts_ok_same st)).
  destruct Hs as [? ? Hi| -> |Hi|Hi|Hi|Hi|Hi| -> |Hi|? ? Hi|Hi|Hi|Hi|Hi| -> |? ? Hi|? ? Hi| -> | -> | -> | -> | -> | -> |? ? -> | -> |Hi| -> |? ? ->];
    try exact Hok.
  - apply identified_inv in Hi as (? & ? & Hid). apply Hsame. exact (f_equal prompts (id_core _ _ _ _ _ Hid)).
  - by apply Hsame.
  - apply Hsame. unfold apply_step_started in Hi. by apply result_bind_Ok in Hi as (? & _ & [= <-]).
  - apply elapsed_frame in Hi as (b & _ & ->). by apply Hsame.
  - apply charged_frame in Hi as (b & _ & ->). by apply Hsame.
  - apply llm_call_frame in Hi as (b & _ & ->). by apply Hsame.
  - apply Hsame. unfold apply_file_changes in Hi. apply result_bind_Ok in Hi as (e & _ & Hi).
    apply result_bind_Ok in Hi as (? & _ & Hi). destruct (ev_data e); try done. case_if in Hi; [done|].
    rewrite removed_loop_eq, written_loop_eq in Hi. by injection Hi as <-.
  - apply Hsame. unfold apply_checkpoint. by destruct (get_str (s"node") event), (get (s"checkpoint") event).
  - by apply Hsame, (patched_prompts _ _ _ Hi).
  - by apply Hsame, (task_joined_prompts _ _ _ _ Hi).
  - by apply (finished_ok _ _ _ _ Hseq Hn Hok Hi).
  - by apply (skipped_ok st _ event).
  - apply Hsame. unfold apply_repair_started in Hi. by apply result_bind_Ok in Hi as (? & _ & [= <-]).
  - apply Hsame. unfold apply_regenerate_started in Hi. by apply result_bind_Ok in Hi as (? & _ & [= <-]).
  - apply Hsame. unfold apply_resource. by destruct (get_str (s"name") event), (get_str (s"sha256") event).
  - by apply (waiting_ok _ _ _ _ _ Hseq Hn Hok Hi).
  - apply response_inv in Hi as (st1 & id & E1 & E2 & -> & _).
    apply (prompts_ok_same (settle kind event st1)); [done..|]. apply settle_ok.
    by apply (prompts_ok_same st).
  - apply Hsame. unfold apply_cancel_requested. by destruct (get_str (s"operation_id") event).
  - apply Hsame. unfold apply_hook_failed. destruct (get_str (s"hook") event); [|done]. cbn zeta.
    destruct (get_path _ _); by case_if.
  - apply Hsame. unfold apply_hook_skipped. by destruct (get_str (s"hook") event).
  - apply Hsame. unfold apply_mcp_pending. by destruct (get_str (s"pending_key") event).
  - apply Hsame. unfold apply_mcp_consumed. by destruct (get_str (s"pending_key") event).
  - apply Hsame. unfold apply_mcp_resumed.
    by destruct (get_str (s"pending_key") event), (get_str (s"question_id") event).
  - destruct Hok as [Ho _]. by constructor.
  - by apply Hsame.
  - apply Hsame. rewrite (operation_started_frame _ _ _ Hi). done.
  - apply Hsame. by rewrite operation_finished_frame.
Qed.

(** prompts are well accounted.  In every folded state the stored prompts
    are ordered by owner, every recorded generation belongs to a stored prompt
    and is a sequence number of the journal, and a prompt shown with a
    generation exists, so an answer can be matched to the event that asked. *)
Theorem prompts_accounted (events : list value) st :
  fold_values events = Ok st → prompts_ok st.
Proof.
  revert events st. apply (fold_values_ind (λ _ st, prompts_ok st)).
  { repeat constructor; done. }
  intros events event st st' e _ Hok He Ha. destruct (from_flat_fields _ _ He) as [Hseq _].
  destruct (apply_effect _ _ _ Ha) as (k & u & _ & El%effect_last_seq).
  apply apply_step in Ha as (kind & Hj). destruct (note_entered st kind event) as [u' Hu].
  pose proof (js_seq _ _ _ _ Hj) as Hlt. pose proof (js_step _ _ _ _ Hj) as Hs.
  rewrite Hu in Hs. rewrite Hseq in Hlt. cbn in El. rewrite Hseq in El. cbn in El.
  eapply (kind_step_prompts _ _ _ _ (ev_seq e)); [done| |exact Hs| |]; cbn; rewrite ?Hseq; cbn; try done.
  apply (prompts_ok_later st); [done|cbn; rewrite Hseq; cbn; lia|done].
Qed.

Lemma retain_elem {V} (f : str → V → bool) (m : bmap V) k v :
  (k, v) ∈ bm_retain f m ↔ (k, v) ∈ m ∧ f k v = true.
Proof. unfold bm_retain. by rewrite !list_elem_of_In, filter_In. Qed.

Lemma settle_prompts kind event st :
  (∀ owner i, (owner, i) ∈ rs_pending_interactions (settle kind event st) ↔
     (owner, i) ∈ rs_pending_interactions st ∧ response_matches kind event i = false) ∧
  (∀ i, rs_pending (settle kind event st) = Some i → response_matches kind event i = false).
Proof.
  set (m := bm_retain (λ _ i, negb (response_matches kind event i)) (rs_pending_interactions st)).
  assert (Hm : ∀ owner i, (owner, i) ∈ m ↔
    (owner, i) ∈ rs_pending_interactions st ∧ response_matches kind event i = false).
  { intros. unfold m. by rewrite retain_elem, negb_true_iff. }
  unfold settle. cbn zeta. fold m.
  change (rs_pending (st <| rs_pending_interactions := _ |> <| rs_interaction_seqs := _ |>))
    with (rs_pending st).
  destruct (rs_pending st) as [p|] eqn:Ep; [destruct (response_matches kind event p) eqn:Em|];
    (split; [exact Hm|]).
  - cbn. intros i Hi. destruct m as [|[o j] m'] eqn:E; [done|]. cbn in Hi. injection Hi as ->.
    by apply (Hm o i); left.
  - cbn. intros i Hi. rewrite Ep in Hi. by injection Hi as <-.
  - cbn. by rewrite Ep.
Qed.

(** The response a prompt waits for. *)
Definition awaits (kind : str) event (i : Interaction) : Prop :=
  match i with
  | Question q => kind = s"user_answered" ∧ get_str (s"question_id") event = Some (form_id q)
  | Confirmation c => kind = s"user_confirmed" ∧ get_str (s"confirmation_id") event = Some (confirm_id c)
  end.
Lemma response_matches_spec kind event i : response_matches kind event i = false ↔ ¬ awaits kind event i.
Proof.
  unfold response_matches, awaits.
  rewrite <-not_true_iff_false. apply not_iff_compat.
  destruct i; cbn; by rewrite andb_true_iff, str_eqb_eq, bool_decide_eq_true.
Qed.

(** a response settles its own prompt and no other.  After an accepted
    answer or decision, it is recorded under its id, no stored or shown prompt
    waits for it any more, and every other stored prompt is still there. *)
Theorem response_settles_prompt st st' event (kind id : str) :
  apply st event = Ok st' → get_str (s"t") event = Some kind →
  kind ∈ [s"user_answered"; s"user_confirmed"] →
  get_str (if kind =s s"user_answered" then s"question_id" else s"confirmation_id") event = Some id →
  (if kind =s s"user_answered" then bm_get id (rs_answers st') = get (s"values") event
   else bm_get id (rs_confirmations st') = get_bool (s"approved") event) ∧
  (∀ owner i, (owner, i) ∈ rs_pending_interactions st' ↔
     (owner, i) ∈ rs_pending_interactions st ∧ ¬ awaits kind event i) ∧
  (∀ i, rs_pending st' = Some i → ¬ awaits kind event i) ∧
  rs_terminal st' = None.
Proof.
  setoid_rewrite <-response_matches_spec.
  intros Ha Ht Hk Hid. apply (apply_arm _ _ _ _ Ha) in Ht as Hr.
  destruct (note_entered st kind event) as [u Hu]. rewrite Hu in Hr.
  assert (Hresp : apply_response (entered event st u) kind event = Ok st')
    by (split_kind; exact Hr).
  apply response_inv in Hresp as (st1 & id' & E1 & _ & -> & Hid' & Hrec).
  rewrite Hid in Hid'. injection Hid' as <-.
  pose proof (settle_frame kind event st1) as Ef.
  pose proof (f_equal (λ t, t.1.2) E1 : rs_pending_interactions st1 = rs_pending_interactions st) as Epi.
  split.
  { revert Ef. generalize (settle kind event st1). intros st2 Ef.
    case_if; rewrite <-(proj1 Hrec);
      [exact (f_equal (λ st : RunState, bm_get id (rs_answers st)) Ef)
      |exact (f_equal (λ st : RunState, bm_get id (rs_confirmations st)) Ef)]. }
  destruct (settle_prompts kind event st1) as [Hpi Hp]. split; [|split; [|done]].
  - intros owner i. cbn. by rewrite Hpi, Epi.
  - intros i Hi. by apply Hp.
Qed.
End prompts.
