(* ===== verification/RunStateDemo.v ===== *)
(** * The run state: a concrete journal

    A small run with concrete wire decoders: queued and started under active
    accounting, a model call, an external operation, a question, its answer,
    and success.  It shows that the hypotheses of the fold theorems hold. *)

From S2P Require Import Prelude Str BMap Json ValueBag PathPolicy Serde Events RunState RunStateEffect RunStateInv RunStateOps RunStatePrompts.
From Stdlib Require Import Sorted.

#[global] Instance demo_wire : WireTypes := {|
  FormSpec := str;
  form_id := λ x, x;
  de_form := get_str (s"id");
  ConfirmSpec := str;
  confirm_id := λ x, x;
  de_confirm := get_str (s"id");
  payload_decodes := λ _ _, true;
  rfc3339_ok := λ x, negb (x =s []);
|}.

Definition num (n : Z) : value := VNumber (PosInt n).
Definition event (seq : Z) (kind : str) (fields : list (str * value)) : value :=
  VObject (bm_of_list
    ([ (s"seq", num seq); (s"ts", VString (s"2026-01-01T00:00:00Z")); (s"t", VString kind);
       (s"run_id", VString (s"r1")); (s"trace_id", VString (s"t")); (s"span_id", VString (s"sp")) ]
     ++ fields)).
Definition identity_fields : list (str * value) :=
  [ (s"schema_version", num 2); (s"elapsed_budget_mode", VString (s"active_execution"));
    (s"package_sha256", VString (s"p1")); (s"generator", VString (s"gen@1.0")) ].
Definition pin (path sha : str) : value :=
  VObject (bm_of_list [(s"path", VString path); (s"sha256", VString sha)]).
Definition ledger (total : Z) (anchor : value) : list (str * value) :=
  [(s"active_nanoseconds", num total); (s"active_started_at", anchor)].

Definition demo_prefix : list value :=
  [ event 1 (s"run_queued") identity_fields;
    event 2 (s"run_started") identity_fields ].
Definition demo_rest : list value :=
  [ event 3 (s"elapsed_accounted") (ledger 0 (VString (s"now")));
    event 4 (s"step_started") [(s"node", VString (s"draft"))];
    event 5 (s"llm_call")
      [ (s"tokens", VObject (bm_of_list [ (s"input", num 100); (s"output", num 20);
                                          (s"cached_input", num 0) ]));
        (s"cost_microusd", num 7) ];
    event 6 (s"operation_started")
      [ (s"operation_id", VString (s"op")); (s"operation_digest", VString (s"d"));
        (s"invocation_id", VString (s"i")) ];
    event 7 (s"operation_finished")
      [ (s"operation_id", VString (s"op")); (s"status", VString (s"success")) ];
    event 8 (s"step_finished")
      [ (s"node", VString (s"draft")); (s"status", VString (s"needs_user"));
        (s"files", VArray [pin (s"out/a.md") (s"h1")]);
        (s"question", VObject (bm_of_list [(s"id", VString (s"q1"))])) ];
    event 9 (s"elapsed_accounted") (ledger 12 VNull) ].
Definition demo_answer : value :=
  event 10 (s"user_answered") [(s"question_id", VString (s"q1")); (s"values", VBool true)].
Definition demo_end : list value :=
  [ event 11 (s"step_finished")
      [ (s"node", VString (s"draft")); (s"status", VString (s"success"));
        (s"files", VArray [pin (s"out/a.md") (s"h2")]) ];
    event 12 (s"run_finished") [(s"status", VString (s"success"))] ].

Definition demo_waiting : list value := demo_prefix ++ demo_rest.
Definition demo_journal : list value := demo_waiting ++ demo_answer :: demo_end.

(** The state a journal folds to, or the initial one. *)
Definition state_of (events : list value) : RunState :=
  match fold_values events with Ok st => st | Err _ => state_default end.

(** The state a step leads to, or the one it started from. *)
Definition ok_state (st : RunState) (r : result JournalError RunState) : RunState :=
  match r with Ok st' => st' | Err _ => st end.
Definition demo_resume : value := event 13 (s"run_resumed") [].
Definition demo_resumed : RunState :=
  ok_state state_default (apply (state_of demo_journal) demo_resume).
Definition demo_early : value := event 3 (s"run_resumed") [].
Definition demo_early_resumed : RunState :=
  ok_state state_default (fold_step (state_of demo_prefix) demo_early).
Definition demo_active : RunState :=
  ok_state state_default (foldM fold_step (state_of demo_prefix) demo_rest).
Definition demo_answered : RunState :=
  ok_state state_default (apply (state_of demo_waiting) demo_answer).

Lemma journal_seq_order_witness :
  fold_values demo_journal = Ok (state_of demo_journal) ∧
  rs_last_seq (state_of demo_journal) = 12%Z ∧
  StronglySorted Z.lt (0%Z :: seqs demo_journal).
Proof.
  assert (Hf : fold_values demo_journal = Ok (state_of demo_journal)) by (vm_compute; reflexivity).
  split; [exact Hf|]. destruct (journal_seq_order demo_journal (state_of demo_journal) Hf) as (_ & Hs & Hl & _).
  split; [|exact Hs]. rewrite Hl. vm_compute. reflexivity.
Defined.

Lemma final_runs_sealed_witness :
  apply (state_of demo_journal) demo_resume = Ok demo_resumed ∧
  rs_terminal (state_of demo_journal) = Some Succeeded ∧ rs_terminal demo_resumed = None.
Proof.
  assert (Hr : apply (state_of demo_journal) demo_resume = Ok demo_resumed) by (vm_compute; reflexivity).
  assert (Hfin : rs_terminal (state_of demo_journal) = Some Succeeded) by (vm_compute; reflexivity).
  split; [exact Hr|]. split; [exact Hfin|].
  destruct (final_runs_sealed (state_of demo_journal) demo_resumed demo_resume Hr) as (k & _ & _ & _ & _ & _ & _ & _ & H).
  apply H. rewrite Hfin. by left.
Defined.

Lemma lineage_preserved_witness :
  fold_step (state_of demo_prefix) demo_early = Ok demo_early_resumed ∧
  rs_package_sha256 demo_early_resumed = Some (s"p1").
Proof.
  assert (Hr : fold_step (state_of demo_prefix) demo_early = Ok demo_early_resumed)
    by (vm_compute; reflexivity).
  assert (Hrun : rs_run_id (state_of demo_prefix) = Some (s"r1")) by (vm_compute; reflexivity).
  assert (Hpkg : rs_package_sha256 (state_of demo_prefix) = Some (s"p1")) by (vm_compute; reflexivity).
  split; [exact Hr|].
  exact (proj1 (lineage_preserved (state_of demo_prefix) demo_early_resumed demo_early (s"r1") Hr Hrun)
           (s"p1") Hpkg).
Defined.

Lemma elapsed_ledger_monotone_witness :
  foldM fold_step (state_of demo_prefix) demo_rest = Ok demo_active ∧
  ∃ l', bs_elapsed (rs_budget demo_active) = Some l' ∧ (0 ≤ active_nanoseconds l')%Z.
Proof.
  assert (Hr : foldM fold_step (state_of demo_prefix) demo_rest = Ok demo_active)
    by (vm_compute; reflexivity).
  assert (Hl : bs_elapsed (rs_budget (state_of demo_prefix)) = Some (mkElapsed 0 None))
    by (vm_compute; reflexivity).
  assert (Ht : bs_started_at (rs_budget (state_of demo_prefix)) = Some (s"2026-01-01T00:00:00Z"))
    by (vm_compute; reflexivity).
  split; [exact Hr|].
  exact (proj1 (elapsed_ledger_monotone demo_rest (state_of demo_prefix) demo_active
                  (mkElapsed 0 None) (s"2026-01-01T00:00:00Z") Hr Hl Ht)).
Defined.

Lemma budget_accounts_journal_witness :
  fold_values demo_journal = Ok (state_of demo_journal) ∧
  accounted (rs_budget (state_of demo_journal)) = [1; 0; 0; 0; 1; 0; 0; 1; 100; 20; 0; 0; 7]%Z.
Proof.
  assert (Hf : fold_values demo_journal = Ok (state_of demo_journal)) by (vm_compute; reflexivity).
  split; [exact Hf|]. rewrite (proj1 (budget_accounts_journal demo_journal (state_of demo_journal) Hf)).
  vm_compute. reflexivity.
Defined.

Lemma file_pins_consistent_witness :
  fold_values demo_journal = Ok (state_of demo_journal) ∧
  has_revision (rs_historical_file_pins (state_of demo_journal)) (s"out/a.md") (s"h2").
Proof.
  assert (Hf : fold_values demo_journal = Ok (state_of demo_journal)) by (vm_compute; reflexivity).
  split; [exact Hf|]. apply (proj1 (file_pins_consistent demo_journal (state_of demo_journal) Hf)).
  vm_compute. reflexivity.
Defined.

Lemma node_executions_count_witness :
  fold_values demo_journal = Ok (state_of demo_journal) ∧
  default 0%Z (bm_get (s"draft") (rs_node_executions (state_of demo_journal))) = 1%Z.
Proof.
  assert (Hf : fold_values demo_journal = Ok (state_of demo_journal)) by (vm_compute; reflexivity).
  split; [exact Hf|]. rewrite (node_executions_count demo_journal (state_of demo_journal) (s"draft") Hf).
  vm_compute. reflexivity.
Defined.

Lemma operations_refine_witness :
  fold_values demo_journal = Ok (state_of demo_journal) ∧
  or_status <$> bm_get (s"op") (rs_operation_records (state_of demo_journal)) = Some OpSucceeded.
Proof.
  assert (Hf : fold_values demo_journal = Ok (state_of demo_journal)) by (vm_compute; reflexivity).
  split; [exact Hf|]. rewrite (proj1 (operations_refine demo_journal (state_of demo_journal) Hf) (s"op")).
  vm_compute. reflexivity.
Defined.

Lemma prompts_accounted_witness :
  fold_values demo_waiting = Ok (state_of demo_waiting) ∧
  rs_pending_seq (state_of demo_waiting) = Some 8%Z ∧ is_Some (rs_pending (state_of demo_waiting)).
Proof.
  assert (Hf : fold_values demo_waiting = Ok (state_of demo_waiting)) by (vm_compute; reflexivity).
  assert (Hp : rs_pending_seq (state_of demo_waiting) = Some 8%Z) by (vm_compute; reflexivity).
  split; [exact Hf|]. split; [exact Hp|].
  exact (proj1 (po_shown _ (prompts_accounted demo_waiting (state_of demo_waiting) Hf) 8%Z Hp)).
Defined.

Lemma response_settles_prompt_witness :
  apply (state_of demo_waiting) demo_answer = Ok demo_answered ∧
  bm_get (s"q1") (rs_answers demo_answered) = get (s"values") demo_answer ∧
  rs_terminal demo_answered = None.
Proof.
  assert (Hr : apply (state_of demo_waiting) demo_answer = Ok demo_answered) by (vm_compute; reflexivity).
  assert (Ht : get_str (s"t") demo_answer = Some (s"user_answered")) by (vm_compute; reflexivity).
  assert (Hk : s"user_answered" ∈ [s"user_answered"; s"user_confirmed"]) by (by left).
  assert (Hi : get_str (if s"user_answered" =s s"user_answered" then s"question_id" else s"confirmation_id")
                 demo_answer = Some (s"q1")) by (vm_compute; reflexivity).
  split; [exact Hr|].
  destruct (response_settles_prompt (state_of demo_waiting) demo_answered demo_answer
              (s"user_answered") (s"q1") Hr Ht Hk Hi) as (Ha & _ & _ & Hn).
  rewrite str_eqb_refl in Ha. split; [exact Ha|exact Hn].
Defined.

Lemma fold_through_prefix_witness :
  fold_values demo_journal = Ok (state_of demo_journal) ∧
  ∃ st', fold_through (Some 9%Z) state_default demo_journal = Ok st' ∧ (rs_last_seq st' ≤ 9)%Z.
Proof.
  assert (Hf : fold_values demo_journal = Ok (state_of demo_journal)) by (vm_compute; reflexivity).
  split; [exact Hf|].
  destruct (fold_through_prefix 9 demo_journal (state_of demo_journal) Hf) as (st' & H1 & _ & H2).
  exists st'. split; [exact H1|exact H2].
Defined.
