(* ===== verification/RunStateFrame.v ===== *)
(** * The run state: what the fold does not look at

    A journal writer keeps a state whose run id is known before the first
    event and whose observation counter is recovered from another stream.  The
    fold reads neither, so the state of a writer and the fold of its journal
    accept the same events and stay equal in everything else. *)

From S2P Require Import Prelude Str BMap Json ValueBag PathPolicy Serde Events RunState RunStateEffect RunStateInv.

#[local] Arguments s : simpl never.

Section frame.
Context {W : WireTypes}.
Implicit Types (st : RunState) (event : value).

(** The state with another run id and observation counter. *)
Definition retag (r : option str) (a : Z) st : RunState :=
  st <| rs_run_id := r |> <| rs_audit_seq := a |>.

(** ** Rules: a computation that commutes with a change of the state *)

Section rules.
Variable F : RunState → RunState.

Lemma bind_same {A} (m : result JournalError A) (k k' : A → result JournalError RunState) :
  (∀ x, k x = F <$> k' x) → (m ≫= k) = F <$> (m ≫= k').
Proof. intros Hk. destruct m; [apply Hk | done]. Qed.
Lemma bind_frame m m' (k k' : RunState → result JournalError RunState) :
  m = F <$> m' → (∀ st, k (F st) = F <$> k' st) → (m ≫= k) = F <$> (m' ≫= k').
Proof. intros -> Hk. destruct m'; [apply Hk | done]. Qed.
Lemma if_frame (b : bool) (x y x' y' : result JournalError RunState) :
  x = F <$> x' → y = F <$> y' → (if b then x else y) = F <$> (if b then x' else y').
Proof. by destruct b. Qed.
Lemma option_frame {A} (o : option A) (x x' : A → result JournalError RunState) y y' :
  (∀ z, x z = F <$> x' z) → y = F <$> y' →
  match o with Some z => x z | None => y end = F <$> match o with Some z => x' z | None => y' end.
Proof. by destruct o. Qed.
Lemma ok_frame st st' : st = F st' → Ok st = F <$> Ok st' :> result JournalError RunState.
Proof. by intros ->. Qed.
End rules.

Ltac frame_step :=
  first
    [ reflexivity
    | apply if_frame
    | apply option_frame; [intros ?|]
    | apply bind_same; intros ?
    | apply ok_frame ].
Ltac frame := cbn zeta; repeat frame_step.
(** The same for a state that is computed without errors. *)
Ltac pure_frame := cbn zeta; repeat first [reflexivity | case_match].

Section arms.
Variables (r : option str) (a : Z).
Notation F := (retag r a).

Lemma project_retag st : project_interaction (F st) = F (project_interaction st).
Proof. reflexivity. Qed.

Lemma retire_retag st path : retire_interaction (F st) path = F (retire_interaction st path).
Proof.
  unfold retire_interaction. cbn zeta.
  change (rs_pending_interactions (F st)) with (rs_pending_interactions st).
  set (prompts := bm_remove path (rs_pending_interactions st)).
  change (rs_pending (F st <| rs_pending_interactions := prompts |>)) with (rs_pending st).
  change (rs_pending (st <| rs_pending_interactions := prompts |>)) with (rs_pending st).
  destruct (bm_get path _), (rs_pending st); try reflexivity. by case_if.
Qed.

Lemma pins_retag st files :
  apply_workspace_file_pins (F st) files = F (apply_workspace_file_pins st files).
Proof. by rewrite !workspace_pins_eq. Qed.

Lemma install_retag st event b :
  install_interaction (F st) event b = F <$> install_interaction st event b.
Proof. unfold install_interaction. frame. Qed.

Lemma step_finished_retag st event :
  apply_step_finished (F st) event = F <$> apply_step_finished st event.
Proof.
  unfold apply_step_finished. do 4 (apply bind_same; intros ?). cbn zeta.
  set (b1 := is_success_status _). set (b2 := is_suspended_status _).
  match goal with |- context [apply_workspace_file_pins ?S _] =>
    change S with (F (st <| rs_historical_file_pins :=
                    record_history (rs_historical_file_pins st) (x1 ++ x2) |>
       <| rs_unresolved_tasks :=
      bm_retain
        (λ owner fact,
          negb (owner =s x)
          && negb (b1 && bool_decide (as_str (index (s"node") fact) = Some x)))
        (rs_unresolved_tasks st) |>)) end.
  rewrite pins_retag.
  match goal with |- context [if b1 || b2 then F ?S else _] =>
    assert (∀ T, (if b1 || b2 then F S else F T) = F (if b1 || b2 then S else T)) as Hif
      by (intros; by destruct (b1 || b2)) end.
  rewrite Hif. clear Hif. apply bind_frame; [apply if_frame; [apply install_retag | done]|].
  intros st1. apply bind_frame.
  { apply if_frame; [unfold step_succeeded; frame|].
    apply if_frame; [unfold step_failed; frame | done]. }
  intros st2. apply if_frame; [|done]. cbn zeta.
  change (F st2 <| rs_checkpoints := _ |>) with (F (st2 <| rs_checkpoints := bm_remove x (rs_checkpoints st2) |>)).
  rewrite retire_retag. unfold record_node_execution. frame.
Qed.

Lemma file_changes_retag st event :
  apply_file_changes (F st) event = F <$> apply_file_changes st event.
Proof.
  unfold apply_file_changes. do 2 (apply bind_same; intros ?). destruct (ev_data x); try done.
  apply if_frame; [done|]. cbn zeta. by rewrite !written_loop_eq, !removed_loop_eq.
Qed.

Lemma settle_retag kind event st : settle kind event (F st) = F (settle kind event st).
Proof.
  unfold settle. cbn zeta.
  change (rs_pending_interactions (F st)) with (rs_pending_interactions st).
  match goal with |- match rs_pending ?S with _ => _ end = F match rs_pending ?T with _ => _ end =>
    change (rs_pending S) with (rs_pending st); change (rs_pending T) with (rs_pending st);
    change S with (F T) end.
  destruct (rs_pending st); [|reflexivity]. case_if; reflexivity.
Qed.

Lemma response_retag st kind event :
  apply_response (F st) kind event = F <$> apply_response st kind event.
Proof.
  unfold apply_response. cbn zeta. apply bind_same; intros id. apply bind_frame.
  { apply if_frame; frame. }
  intros st1. by rewrite settle_retag.
Qed.

Lemma skipped_retag st event : apply_step_skipped (F st) event = F <$> apply_step_skipped st event.
Proof.
  unfold apply_step_skipped. apply bind_same; intros n. cbn zeta.
  apply option_frame; [intros path | reflexivity]. apply bind_same; intros reason.
  match goal with |- context [retire_interaction ?S path] =>
    change S with (F (st <| rs_budget := rs_budget st <| bs_steps_skipped := n |> |>
                         <| rs_nodes := bm_insert path (NodeSkipped reason) (rs_nodes st) |>)) end.
  by rewrite retire_retag.
Qed.

Lemma patched_retag st event :
  apply_state_patched (F st) event = F <$> apply_state_patched st event.
Proof.
  unfold apply_state_patched. cbn zeta.
  destruct (get_object (s"inputs") event), (get_object (s"step_outputs") event); frame.
Qed.

Lemma task_joined_retag st kind event :
  apply_task_joined (F st) kind event = F <$> apply_task_joined st kind event.
Proof.
  unfold apply_task_joined. cbn zeta. apply bind_frame.
  { apply if_frame; [|done]. unfold foreach_report. apply bind_same; intros ?. cbn zeta.
    apply ok_frame. by case_if. }
  intros st1. apply if_frame; [|done]. unfold unreported_task. frame.
Qed.

Lemma hook_failed_retag st event : apply_hook_failed (F st) event = F (apply_hook_failed st event).
Proof.
  unfold apply_hook_failed. destruct (get_str (s"hook") event) as [hook|]; [|done]. cbn zeta.
  change (rs_vars (F st)) with (rs_vars st).
  destruct (get_path _ _); case_if; reflexivity.
Qed.

Lemma waiting_retag st kind event :
  apply_waiting (F st) kind event = F <$> apply_waiting st kind event.
Proof.
  unfold apply_waiting. cbn zeta. apply bind_frame.
  { apply if_frame; [apply step_finished_retag | done]. }
  intros. apply install_retag.
Qed.

(** The kinds that read or set the run id. *)
Definition identity_kinds : list str :=
  [s"run_queued"; s"run_started"; s"run_forked"; s"elapsed_accounted"].

Lemma kind_retag st kind event :
  kind_in kind identity_kinds = false →
  apply_kind (F st) kind event = F <$> apply_kind st kind event.
Proof.
  unfold identity_kinds, kind_in. cbn [existsb]. rewrite !orb_false_iff.
  intros (H1 & H2 & H3 & H4 & _). unfold apply_kind, kind_in. cbn [existsb].
  rewrite H1, H2, H3, H4. cbn [orb].
  repeat (apply if_frame; [|]);
    first
      [ reflexivity
      | apply task_joined_retag | apply step_finished_retag | apply skipped_retag
      | apply waiting_retag | apply response_retag | apply patched_retag
      | apply file_changes_retag
      | apply ok_frame, hook_failed_retag
      | solve [unfold apply_step_started, apply_budget_charged, apply_llm_call,
          apply_repair_started, apply_regenerate_started, apply_operation_started; frame]
      | apply ok_frame; unfold apply_checkpoint, apply_resource, apply_cancel_requested,
          apply_hook_skipped, apply_mcp_pending, apply_mcp_consumed, apply_mcp_resumed,
          apply_operation_finished; pure_frame ].
Qed.
End arms.

(** ** A writer's state follows the fold *)

(** The fold knows the run, or has seen no identity event yet. *)
Definition owner_known (r : str) st : Prop :=
  rs_run_id st = Some r ∨
  rs_run_id st = None ∧ bs_elapsed_budget_mode (rs_budget st) = WallClock.

(** The state of a writer of run [r] and the fold of the journal: equal but
    for the observation counter and, before the first identity event, the run
    id. *)
Record tracks (r : str) st st0 : Prop := {
  tr_eq : st = retag (Some r) (rs_audit_seq st) st0;
  tr_id : owner_known r st0;
}.

Lemma retag_id st : retag (rs_run_id st) (rs_audit_seq st) st = st.
Proof. by destruct st. Qed.
Lemma retag_retag r a r' a' st : retag r a (retag r' a' st) = retag r a st.
Proof. reflexivity. Qed.

Lemma note_retag r a st kind event :
  note_search_cost (retag r a st) kind event = retag r a (note_search_cost st kind event).
Proof. unfold note_search_cost. by case_if. Qed.

Lemma apply_seq_retag r a st event :
  apply_seq (retag r a st) event = retag r a <$> apply_seq st event.
Proof.
  unfold apply_seq. change (rs_last_seq (retag r a st)) with (rs_last_seq st).
  destruct (get_u64 _ event); [|done]. by repeat case_if.
Qed.

Lemma lineage_retag r a st event :
  get_str (s"run_id") event = Some r → rs_run_id st = Some r ∨ rs_run_id st = None →
  identity_lineage (retag (Some r) a st) event = retag (Some r) a <$> identity_lineage st event.
Proof.
  intros Hr Hid. unfold identity_lineage. rewrite Hr.
  change (rs_run_id (retag (Some r) a st)) with (Some r).
  assert (negb (r =s r) = false) as Hrr by (rewrite negb_false_iff; by apply str_eqb_eq).
  cbn beta iota. rewrite Hrr. cbn [andb].
  assert (∀ k : result JournalError RunState,
    (match rs_run_id st with
     | Some previous =>
         if negb (previous =s r) && negb (bool_decide (get_str (s"parent_run_id") event = Some previous))
         then invalid (NotParent r previous) else Ok ()
     | None => Ok () end ≫= λ _, k) = k) as ->.
  { intros k. destruct Hid as [-> | ->]; [|done]. by rewrite Hrr. }
  cbn zeta. apply if_frame; [done|]. apply ok_frame.
  change (rs_generator_id (_ <| rs_contract_sha256 := _ |>)) with (rs_generator_id st).
  by destruct (rs_generator_id st).
Qed.

Lemma identity_body_retag r a st kind event :
  identity_body (retag r a st) kind event = retag r a (identity_body st kind event).
Proof.
  unfold identity_body. cbn zeta. unfold admit_queued. cbn zeta.
  destruct (get_object (s"inputs") event), (get_object (s"labels") event);
    repeat match goal with |- context [bs_started_at (rs_budget ?X)] =>
      progress change (bs_started_at (rs_budget X)) with (bs_started_at (rs_budget st)) end;
    destruct (bs_started_at (rs_budget st)), (kind =s s"run_queued"), (kind =s s"run_started");
    try reflexivity;
    destruct (get (s"priority") event ≫= as_i64), (get_object (s"answers") event),
      (get_object (s"confirmations") event); reflexivity.
Qed.

Lemma identity_retag r a st kind event :
  get_str (s"run_id") event = Some r → rs_run_id st = Some r ∨ rs_run_id st = None →
  apply_identity (retag (Some r) a st) kind event
  = retag (Some r) a <$> apply_identity st kind event.
Proof.
  intros Hr Hid. unfold apply_identity. apply bind_same; intros mode.
  assert (identity_ledger (retag (Some r) a st) mode
          = retag (Some r) a <$> identity_ledger st mode) as ->.
  { unfold identity_ledger. cbn zeta. apply if_frame; [done|]. apply bind_same. by intros. }
  destruct (identity_ledger st mode) as [st1|] eqn:E; [|done].
  apply ledger_inv in E as (_ & ledger & -> & _). cbn [fmap result_fmap mbind result_bind].
  apply bind_frame; [by apply lineage_retag|]. intros st2. by rewrite identity_body_retag.
Qed.

Lemma effect_owner event st st' kind :
  effect event st st' kind → kind ∉ [s"run_queued"; s"run_started"; s"run_forked"] →
  rs_run_id st' = rs_run_id st ∧ clock (rs_budget st') = clock (rs_budget st).
Proof.
  intros He Hnot. effect_cases He;
    try (split; [exact (f_equal rs_run_id E) | exact (f_equal (λ st, clock (rs_budget st)) E)]).
  - exfalso. apply Hnot. set_solver.
  - exfalso. apply Hnot. set_solver.
  - split; [exact (f_equal rs_run_id E)|].
    etransitivity; [exact (f_equal (λ st, clock (rs_budget st)) E)|]. by eapply budget_step_clock.
  - split; [exact (f_equal rs_run_id (fin_core _ _ _ _ _ _ _ Hfin))|].
    rewrite (fin_budget _ _ _ _ _ _ _ Hfin). by repeat case_if.
  - split; [exact (f_equal rs_run_id (fin_core _ _ _ _ _ _ _ Hfin))|].
    rewrite (fin_budget _ _ _ _ _ _ _ Hfin). by repeat case_if.
Qed.

Lemma kind_tracks r a st st' kind event :
  owner_known r st → get_str (s"run_id") event = Some r →
  apply_kind (retag (Some r) a st) kind event = Ok st' →
  ∃ st0', apply_kind st kind event = Ok st0' ∧ st' = retag (Some r) a st0'.
Proof.
  intros Hid Hr Ha.
  enough (apply_kind (retag (Some r) a st) kind event = retag (Some r) a <$> apply_kind st kind event
          ∨ ∃ e, apply_kind (retag (Some r) a st) kind event = Err e) as [E|[e E]].
  { rewrite E in Ha. destruct (apply_kind st kind event) as [st1|]; [|done].
    injection Ha as <-. by eexists. }
  { by rewrite E in Ha. }
  destruct (kind_in kind identity_kinds) eqn:Ek; [|left; by apply kind_retag].
  apply kind_in_elem in Ek. unfold identity_kinds in Ek.
  repeat (apply elem_of_cons in Ek as [-> |Ek]); [..|by apply elem_of_nil in Ek].
  - left. apply identity_retag; [done|]. destruct Hid as [?|[? _]]; auto.
  - left. apply identity_retag; [done|]. destruct Hid as [?|[? _]]; auto.
  - left. unfold apply_kind. cbn. unfold apply_forked. by rewrite Hr.
  - change (apply_kind (retag (Some r) a st) (s"elapsed_accounted") event)
      with (apply_elapsed (retag (Some r) a st) event).
    change (apply_kind st (s"elapsed_accounted") event) with (apply_elapsed st event).
    unfold apply_elapsed. change (rs_run_id (retag (Some r) a st)) with (Some r).
    destruct Hid as [-> |[-> Hm]].
    + left. apply if_frame; [done|]. do 4 (apply bind_same; intros ?). by apply if_frame.
    + right. change (rs_budget (retag (Some r) a st)) with (rs_budget st). rewrite Hm. by eexists.
Qed.

Lemma apply_owner r st st' event :
  owner_known r st → get_str (s"run_id") event = Some r → apply st event = Ok st' →
  owner_known r st'.
Proof.
  intros Hid Hr Ha. destruct (apply_effect _ _ _ Ha) as (kind & u & Ht & He).
  destruct (decide (kind ∈ [s"run_queued"; s"run_started"; s"run_forked"])) as [Hk|Hk].
  - left. apply apply_arm with (kind := kind) in Ha; [|done].
    repeat (apply elem_of_cons in Hk as [-> |Hk]); [..|by apply elem_of_nil in Hk].
    + apply (identified_inv _ _ (s"run_queued")) in Ha as (m & l & Hi).
      by rewrite (id_run _ _ _ _ _ Hi).
    + apply (identified_inv _ _ (s"run_started")) in Ha as (m & l & Hi).
      by rewrite (id_run _ _ _ _ _ Hi).
    + change (Ok (apply_forked (note_search_cost (st <| rs_last_seq :=
        default (rs_last_seq st) (get_u64 (s"seq") event) |>) (s"run_forked") event) event) = Ok st'
        :> result JournalError RunState) in Ha.
      injection Ha as <-. done.
  - apply effect_owner in He as [E1 E2]; [|done]. unfold owner_known. rewrite E1.
    injection E2 as _ ->. exact Hid.
Qed.

(** One event: what the writer's state accepts, the fold accepts, and they
    stay together. *)
Lemma tracks_step r st st0 st' event :
  tracks r st st0 → get_str (s"run_id") event = Some r → apply st event = Ok st' →
  ∃ st0', apply st0 event = Ok st0' ∧ tracks r st' st0' ∧ rs_audit_seq st' = rs_audit_seq st.
Proof.
  intros [Heq Hid] Hr Ha. set (a := rs_audit_seq st) in *. clearbody a. subst st.
  enough (∃ st0', apply st0 event = Ok st0' ∧ st' = retag (Some r) a st0') as (st0' & H0 & ->).
  { exists st0'. split_and!; [done| |done]. split; [done|]. by eapply apply_owner. }
  unfold apply in *. rewrite apply_seq_retag in Ha.
  destruct (apply_seq st0 event) as [s1|] eqn:Es; [|done].
  cbn [fmap result_fmap mbind result_bind] in Ha |- *.
  apply result_bind_Ok in Ha as (k & Hk & Ha). rewrite Hk. cbn [mbind result_bind].
  apply result_bind_Ok in Ha as ([] & _ & Ha).
  assert (Hid1 : owner_known r s1) by (by apply apply_seq_Ok in Es as [-> _]).
  assert (check_owner s1 k event = Ok ()) as ->.
  { unfold check_owner. case_if; [done|]. rewrite Hr.
    destruct Hid1 as [-> |[-> _]]; [|done]. by rewrite (proj2 (str_eqb_eq r r)). }
  cbn [mbind result_bind]. apply result_bind_Ok in Ha as ([] & -> & Ha). cbn [mbind result_bind].
  apply result_bind_Ok in Ha as ([] & Hf & Ha).
  change (is_final (retag (Some r) a s1)) with (is_final s1) in Hf. rewrite Hf.
  cbn [mbind result_bind]. apply result_bind_Ok in Ha as ([] & -> & Ha). cbn [mbind result_bind].
  rewrite note_retag in Ha. eapply kind_tracks; [|exact Hr|exact Ha].
  unfold note_search_cost. by case_if.
Qed.

(** ** The observation counter alone *)

Definition set_audit (a : Z) st : RunState := st <| rs_audit_seq := a |>.

Lemma identity_audit a st kind event :
  apply_identity (set_audit a st) kind event = set_audit a <$> apply_identity st kind event.
Proof.
  unfold apply_identity. apply bind_same; intros mode. apply bind_frame.
  { unfold identity_ledger. cbn zeta. apply if_frame; [done|]. apply bind_same. by intros. }
  intros st1. apply bind_frame.
  { unfold identity_lineage. apply bind_same; intros []. cbn zeta. apply if_frame; [done|].
    apply ok_frame. change (rs_generator_id (_ <| rs_contract_sha256 := _ |>)) with (rs_generator_id st1).
    by destruct (rs_generator_id st1). }
  intros st2. change (set_audit a st2) with (retag (rs_run_id st2) a st2).
  rewrite identity_body_retag. apply ok_frame. unfold retag, set_audit.
  assert (rs_run_id (identity_body st2 kind event) = rs_run_id st2) as <-.
  { pose proof (identity_body_retag (rs_run_id st2) (rs_audit_seq st2) st2 kind event) as E.
    rewrite retag_id in E. by rewrite E. }
  by destruct (identity_body st2 kind event).
Qed.

Lemma kind_audit a st kind event :
  apply_kind (set_audit a st) kind event = set_audit a <$> apply_kind st kind event.
Proof.
  destruct (kind_in kind identity_kinds) eqn:Ek.
  - apply kind_in_elem in Ek. unfold identity_kinds in Ek.
    repeat (apply elem_of_cons in Ek as [-> |Ek]); [..|by apply elem_of_nil in Ek].
    + apply identity_audit.
    + apply identity_audit.
    + done.
    + change (apply_elapsed (set_audit a st) event = set_audit a <$> apply_elapsed st event).
      unfold apply_elapsed. apply if_frame; [done|]. do 4 (apply bind_same; intros ?).
      by apply if_frame.
  - change (set_audit a st) with (retag (rs_run_id st) a st). rewrite kind_retag by done.
    pose proof (kind_retag (rs_run_id st) (rs_audit_seq st) st kind event Ek) as E.
    rewrite retag_id in E. destruct (apply_kind st kind event) as [st1|]; [|done].
    injection E as E. cbn. f_equal. unfold retag, set_audit.
    assert (rs_run_id st1 = rs_run_id st) as <- by (by rewrite E). by destruct st1.
Qed.

Lemma apply_audit a st event :
  apply (set_audit a st) event = set_audit a <$> apply st event.
Proof.
  unfold apply. apply bind_frame.
  { unfold apply_seq. change (rs_last_seq (set_audit a st)) with (rs_last_seq st).
    destruct (get_u64 _ event); [|done]. by repeat case_if. }
  intros st1. apply bind_same; intros kind. do 4 (apply bind_same; intros ?).
  assert (note_search_cost (set_audit a st1) kind event
          = set_audit a (note_search_cost st1 kind event)) as ->
    by (unfold note_search_cost; by case_if).
  apply kind_audit.
Qed.
End frame.
