(* ===== verification/JournalFile.v ===== *)
(** * The journal file and its tail *)

From S2P Require Import Prelude Str BMap Json ValueBag Serde Events RunState.

(** * The journal file

    [engine/src/journal/types.rs], [serialize.rs], [read.rs] and the tail
    functions of [writer.rs]: a journal is a file of JSON lines.  A file is a
    list of bytes, [None] a file that does not exist.  [serde_json] is the
    class [SerdeJson]: the pieces its serializer writes and the answer of
    [from_slice].  [usize] and [u64] are both 64 bits wide. *)

Notation bytes := (list Z).
Notation zlen b := (Z.of_nat (length b)).
Definition NEWLINE : Z := 10.

(** ** Limits, counters, errors *)

Record JournalLimits : Type := mkJournalLimits {
  max_event_bytes : option Z;
  max_total_bytes : option Z;
  max_event_count : option Z;
  max_state_bytes : option Z;
  scan_window_bytes : option Z;
}.

Definition DEFAULT_JOURNAL_SCAN_WINDOW_BYTES : Z := 1024 * 1024.
Definition DEFAULT_MAX_JOURNAL_EVENT_BYTES : Z := 8 * 1024 * 1024.
Definition DEFAULT_MAX_JOURNAL_TOTAL_BYTES : Z := 64 * 1024 * 1024.
Definition DEFAULT_MAX_JOURNAL_EVENT_COUNT : Z := 1000000.
Definition DEFAULT_MAX_STATE_BYTES : Z := 16 * 1024 * 1024.

Definition journal_limits_default : JournalLimits :=
  mkJournalLimits (Some DEFAULT_MAX_JOURNAL_EVENT_BYTES) (Some DEFAULT_MAX_JOURNAL_TOTAL_BYTES)
    (Some DEFAULT_MAX_JOURNAL_EVENT_COUNT) (Some DEFAULT_MAX_STATE_BYTES)
    (Some DEFAULT_JOURNAL_SCAN_WINDOW_BYTES).

(** The journal settings of [RuntimeLimits]. *)
Record RuntimeLimits : Type := mkRuntimeLimits {
  journal_event_limit_bytes : option Z;
  journal_total_limit_bytes : option Z;
  journal_event_count_limit : option Z;
  state_limit_bytes : option Z;
  journal_scan_window_bytes : option Z;
}.
(** [impl From<&RuntimeLimits> for JournalLimits]. *)
Definition journal_limits_from (runtime : RuntimeLimits) : JournalLimits :=
  mkJournalLimits
    (or_else (journal_event_limit_bytes runtime) (Some DEFAULT_MAX_JOURNAL_EVENT_BYTES))
    (or_else (journal_total_limit_bytes runtime) (Some DEFAULT_MAX_JOURNAL_TOTAL_BYTES))
    (or_else (journal_event_count_limit runtime) (Some DEFAULT_MAX_JOURNAL_EVENT_COUNT))
    (or_else (state_limit_bytes runtime) (Some DEFAULT_MAX_STATE_BYTES))
    (or_else (journal_scan_window_bytes runtime) (Some DEFAULT_JOURNAL_SCAN_WINDOW_BYTES)).

Record JournalStats : Type := mkJournalStats { js_bytes : Z; js_events : Z }.
Definition journal_stats_default : JournalStats := mkJournalStats 0 0.

Record JournalScan : Type := mkJournalScan { scan_events : list value; scan_stats : JournalStats }.

(** [serde_json::error::Category]. *)
Inductive json_category : Type := CatIo | CatSyntax | CatData | CatEof.
Definition is_eof (c : json_category) : bool :=
  match c with CatEof => true | _ => false end.

(** The texts of [JournalError::InvalidEvent] in the files of this module. *)
Inductive journal_message : Type :=
| SizeLimitOverflowed
| EventCountOverflowed
| EventLengthOverflowed
| ByteTotalOverflowed
| LineNumberOverflowed
| ScanOffsetOverflowed
| FinalLineTooLong
| TailOffsetsInconsistent
| NoCompleteLine
| FinalLineNotJson
| FinalLineWithoutSeq
| EventsWithoutSeq
| TailResolutionFailed
| StateCorrupt
| StateWithoutSeq
| UnsupportedStateSchema
| TailTooLong (limit : Z)
| MarkerSymlink
| TruncatedAfterCleanShutdown
| EmptyRunId
| RunIdMismatch (expected found : str)
| EventRunIdMismatch (expected found : str)
| TruncatedOutsideLock
| CountNotRepresentable
| SeqOverflowed
| EmptyBatch
| NoEvents
| NotUtf8
| BadJournalEvent (e : event_error)
| StartTimeRequired
| InvalidStartTime
| StartAfterFinish
| TokenTotalOverflowed.

Inductive JError : Type :=
| JIo
| JJson (c : json_category)
| JInvalidLine (line : Z) (c : json_category)
| JInvalidPayload
| JInvalid (m : journal_message)
| JFold (e : JournalError)
| JPreconditionFailed (m : str)
| JLimitExceeded (resource : str) (actual limit : Z)
| JEventCountExceeded (actual limit : Z)
| JInvalidLimit (resource : str).

Class SerdeJson := {
  (** The pieces [serde_json::to_writer] writes for a value, in order. *)
  ser_value : value → list bytes;
  from_slice : bytes → result json_category value;
}.
Definition to_vec `{SerdeJson} (v : value) : bytes := concat (ser_value v).

(** [validate_limits]. *)
Definition validate_limits (limits : JournalLimits) : result JError () :=
  foldM (λ _ '(resource, limit),
           if bool_decide (limit = Some 0%Z) then Err (JInvalidLimit resource) else Ok ()) ()
    [(s"max_event_bytes", max_event_bytes limits); (s"max_total_bytes", max_total_bytes limits);
     (s"max_event_count", max_event_count limits); (s"max_state_bytes", max_state_bytes limits);
     (s"scan_window_bytes", scan_window_bytes limits)].

(** The guards the writer and the reader share. *)
Definition within (limit : option Z) (resource : str) (actual : Z) : result JError () :=
  match limit with
  | Some limit =>
      if (limit <? actual)%Z then Err (JLimitExceeded resource actual limit) else Ok ()
  | None => Ok ()
  end.
Definition count_room (limits : JournalLimits) (stats : JournalStats) : result JError () :=
  match max_event_count limits with
  | Some limit =>
      if (limit <=? js_events stats)%Z then
        actual ← ok_or (checked_add USIZE_MAX (js_events stats) 1)
                   (JInvalid EventCountOverflowed);
        Err (JEventCountExceeded actual limit)
      else Ok ()
  | None => Ok ()
  end.

(** ** Serialization *)

Record BoundedBytesWriter : Type := mkBounded {
  bw_bytes : bytes;
  bw_limit : Z;
  bw_exceeded : bool;
}.
Definition bounded_new (limit : Z) : BoundedBytesWriter := mkBounded [] limit false.

(** [Write::write]: the writer and whether the write succeeded. *)
Definition bounded_write (w : BoundedBytesWriter) (chunk : bytes) : BoundedBytesWriter * bool :=
  match checked_add USIZE_MAX (zlen (bw_bytes w)) (zlen chunk) with
  | None => (mkBounded (bw_bytes w) (bw_limit w) true, false)
  | Some next =>
      if (bw_limit w <? next)%Z then (mkBounded (bw_bytes w) (bw_limit w) true, false)
      else (mkBounded (bw_bytes w ++ chunk) (bw_limit w) (bw_exceeded w), true)
  end.
(** A serializer stops at the first write that fails. *)
Fixpoint write_chunks (w : BoundedBytesWriter) (chunks : list bytes) : BoundedBytesWriter * bool :=
  match chunks with
  | [] => (w, true)
  | chunk :: chunks =>
      let '(w, ok) := bounded_write w chunk in
      if ok then write_chunks w chunks else (w, false)
  end.

(** [serialize_bounded]; a serialization is the pieces written and the error
    it ends with, if any. *)
Definition serialize_bounded (ser : list bytes * option json_category) (limit : option Z)
    (resource : str) : result JError bytes :=
  match limit with
  | None =>
      match ser.2 with None => Ok (concat ser.1) | Some c => Err (JJson c) end
  | Some limit =>
      if (limit =? 0)%Z then Err (JInvalidLimit resource)
      else
        let '(w, ok) := write_chunks (bounded_new limit) ser.1 in
        match ok, ser.2 with
        | true, None => Ok (bw_bytes w)
        | _, c =>
            if bw_exceeded w then
              actual ← ok_or (checked_add USIZE_MAX limit 1) (JInvalid SizeLimitOverflowed);
              Err (JLimitExceeded resource actual limit)
            else Err (JJson (default CatIo c))
        end
  end.

(** What [write_all] does to the file: it writes everything, or fails after
    some bytes (a full disk, or the process dies). *)
Inductive write_outcome : Type := Written | Torn (n : nat).
Definition write_all (out : write_outcome) (file data : bytes) : bytes * bool :=
  match out with
  | Written => (file ++ data, true)
  | Torn n => (file ++ take n data, false)
  end.

(** [append_serialized_json_line]: the file, the counters and the result. *)
Definition line_checks (line : bytes) (stats : JournalStats) (limits : JournalLimits) :
    result JError Z :=
  _ ← validate_limits limits;
  _ ← count_room limits stats;
  _ ← within (max_event_bytes limits) (s"event") (zlen line);
  line_len ← ok_or (checked_add USIZE_MAX (zlen line) 1) (JInvalid EventLengthOverflowed);
  total ← ok_or (checked_add USIZE_MAX (js_bytes stats) line_len) (JInvalid ByteTotalOverflowed);
  _ ← within (max_total_bytes limits) (s"total journal") total;
  Ok total.
Definition append_serialized_json_line (out : write_outcome) (file line : bytes)
    (stats : JournalStats) (limits : JournalLimits) : bytes * JournalStats * result JError () :=
  match line_checks line stats limits with
  | Err e => (file, stats, Err e)
  | Ok total =>
      let '(file, ok) := write_all out file (line ++ [NEWLINE]) in
      if ok then
        match checked_add USIZE_MAX (js_events stats) 1 with
        | Some n => (file, mkJournalStats total n, Ok ())
        | None => (file, mkJournalStats total (js_events stats),
                   Err (JInvalid EventCountOverflowed))
        end
      else (file, stats, Err JIo)
  end.

(** ** Reading *)

(** [reader.take(cap).read_until(b'\n', ..)]: the bytes read and the rest. *)
Fixpoint read_until (cap : option Z) (file : bytes) : bytes * bytes :=
  match file with
  | [] => ([], [])
  | b :: rest =>
      if bool_decide (cap = Some 0%Z) then ([], file)
      else if (b =? NEWLINE)%Z then ([b], rest)
      else let '(line, rest) := read_until (Z.pred <$> cap) rest in (b :: line, rest)
  end.

(** The lines the loop reads, one call of [read_until] each. *)
Fixpoint raw_lines_go (fuel : nat) (cap : option Z) (file : bytes) : list bytes :=
  match fuel with
  | O => []
  | S fuel =>
      match read_until cap file with
      | ([], _) => []
      | (line, rest) => line :: raw_lines_go fuel cap rest
      end
  end.
Definition raw_lines (cap : option Z) (file : bytes) : list bytes :=
  raw_lines_go (S (length file)) cap file.

Definition is_ascii_whitespace (b : Z) : bool :=
  ((b =? 32) || (b =? 9) || (b =? 10) || (b =? 12) || (b =? 13))%Z.
Definition has_newline (line : bytes) : bool := bool_decide (last line = Some NEWLINE).

Section serde.
Context `{SerdeJson}.

(** The loop of [read_journal_values_through]; the reader is at the end of
    the file when no line is left. *)
Fixpoint read_loop (through : option Z) (limits : JournalLimits) (read_limit : option Z)
    (line_number : Z) (stats : JournalStats) (events : list value) (lines : list bytes) :
    result JError JournalScan :=
  match lines with
  | [] => Ok (mkJournalScan events stats)
  | line :: lines =>
      line_number ← ok_or (checked_add USIZE_MAX line_number 1) (JInvalid LineNumberOverflowed);
      total ← ok_or (checked_add USIZE_MAX (js_bytes stats) (zlen line))
                match max_total_bytes limits with
                | Some limit =>
                    JLimitExceeded (s"total journal") (saturating_add USIZE_MAX limit 1) limit
                | None => JLimitExceeded (s"total journal") USIZE_MAX USIZE_MAX
                end;
      let stats := mkJournalStats total (js_events stats) in
      _ ← within (max_total_bytes limits) (s"total journal") total;
      let newline := has_newline line in
      _ ← match read_limit with
          | Some cap =>
              if negb newline && (zlen line =? cap)%Z then
                Err (JLimitExceeded (s"event") (zlen line) (Z.max 0 (cap - 2)))
              else Ok ()
          | None => Ok ()
          end;
      let body := take (length line - (if newline then 1 else 0)) line in
      _ ← within (max_event_bytes limits) (s"event") (zlen body);
      if forallb is_ascii_whitespace body then
        read_loop through limits read_limit line_number stats events lines
      else
        _ ← count_room limits stats;
        match from_slice body with
        | Err c =>
            if negb newline && is_eof c && bool_decide (lines = [])
            then Ok (mkJournalScan events stats)
            else Err (JInvalidLine line_number c)
        | Ok event =>
            if match through, get_u64 (s"seq") event with
               | Some limit, Some seq => (limit <? seq)%Z
               | _, _ => false
               end
            then Ok (mkJournalScan events stats)
            else
              n ← ok_or (checked_add USIZE_MAX (js_events stats) 1)
                    (JInvalid EventCountOverflowed);
              read_loop through limits read_limit line_number (mkJournalStats total n)
                (events ++ [event]) lines
        end
  end.

Definition line_read_limit (limits : JournalLimits) : result JError (option Z) :=
  match max_event_bytes limits with
  | None => Ok None
  | Some limit =>
      cap ← ok_or (checked_add USIZE_MAX limit 2) (JLimitExceeded (s"event") USIZE_MAX limit);
      Ok (Some cap)
  end.

Definition read_journal_values_through (file : option bytes) (through : option Z)
    (limits : JournalLimits) : result JError JournalScan :=
  _ ← validate_limits limits;
  match file with
  | None => Ok (mkJournalScan [] journal_stats_default)
  | Some file =>
      cap ← line_read_limit limits;
      read_loop through limits cap 0 journal_stats_default [] (raw_lines cap file)
  end.
Definition read_journal_values (file : option bytes) (limits : JournalLimits) :
    result JError JournalScan :=
  read_journal_values_through file None limits.
End serde.

(** * The tail of the journal file

    [engine/src/journal/writer.rs]: the sequence number of the last line found
    without reading the whole file, and the repair of a torn last line.  The
    state of a run directory is the record [Disk]: the journal, the
    observation stream, [state.json] and the clean-shutdown marker. *)

(** A file at the marker path; a read follows a symbolic link. *)
Record Marker : Type := mkMarker { marker_bytes : bytes; marker_symlink : bool }.

Record Disk : Type := mkDisk {
  dk_journal : option bytes;
  dk_audit : option bytes;
  dk_state : option bytes;
  dk_marker : option Marker;
}.

Definition CLEAN_SHUTDOWN_MAGIC : bytes := s"clean-shutdown-v1" ++ [NEWLINE].

(** [std::fs::write] at the marker path, through a link if there is one. *)
Definition write_clean_shutdown_marker (m : option Marker) : option Marker :=
  Some (mkMarker CLEAN_SHUTDOWN_MAGIC
          (match m with Some m => marker_symlink m | None => false end)).
Definition clear_clean_shutdown_marker (m : option Marker) : option Marker := None.

(** Index of the last element satisfying a test, Rust's [iter().rposition]. *)
Fixpoint rposition {A} (f : A → bool) (l : list A) : option nat :=
  match l with
  | [] => None
  | x :: l =>
      match rposition f l with
      | Some i => Some (S i)
      | None => if f x then Some 0 else None
      end
  end.
Definition is_newline (b : Z) : bool := (b =? NEWLINE)%Z.

(** The bytes of the file from [start], [n] of them. *)
Definition read_at (file : bytes) (start n : Z) : bytes :=
  take (Z.to_nat n) (drop (Z.to_nat start) file).

Section serde.
Context `{SerdeJson}.

(** ** The last sequence number *)

(** [read_single_line_seq]. *)
Definition read_single_line_seq (file : bytes) (start end' : Z) (cap : option Z) :
    result JError Z :=
  if (end' <? start)%Z then Err (JInvalid TailOffsetsInconsistent)
  else
    let line_len := (end' - start)%Z in
    if (line_len =? 0)%Z then Err (JInvalid NoCompleteLine)
    else if match cap with Some cap => (cap <? line_len)%Z | None => false end
    then Err (JInvalid FinalLineTooLong)
    else
      v ← map_err (λ _, JInvalid FinalLineNotJson) (from_slice (read_at file start line_len));
      ok_or (get_u64 (s"seq") v) (JInvalid FinalLineWithoutSeq).

Definition TAIL_CHUNK : Z := 64 * 1024.

(** Number of newlines a chunk ends with. *)
Definition trailing_newlines (chunk : bytes) : nat :=
  default (length chunk) (position (λ b, negb (is_newline b)) (reverse chunk)).

(** The loop of [read_huge_tail_seq]; one unit of fuel for each chunk. *)
Fixpoint huge_tail_loop (fuel : nat) (file : bytes) (cap : option Z) (cursor scanned : Z)
    (line_end : option Z) : result JError Z :=
  match fuel with
  | O => read_single_line_seq file 0 (default 0%Z line_end) cap
  | S fuel =>
      if (cursor =? 0)%Z then read_single_line_seq file 0 (default 0%Z line_end) cap
      else
        let n := Z.min cursor TAIL_CHUNK in
        let chunk := read_at file (cursor - n) n in
        let '(line_end, effective) :=
          match line_end with
          | Some e => (e, chunk)
          | None =>
              let stripped := trailing_newlines chunk in
              ((cursor - Z.of_nat stripped)%Z, take (length chunk - stripped) chunk)
          end in
        match rposition is_newline effective with
        | Some pos =>
            read_single_line_seq file (cursor - n + Z.of_nat pos + 1) line_end cap
        | None =>
            scanned ← ok_or (checked_add U64_MAX scanned n) (JInvalid ScanOffsetOverflowed);
            if match cap with Some cap => (cap <? scanned)%Z | None => false end
            then Err (JInvalid FinalLineTooLong)
            else huge_tail_loop fuel file cap (cursor - n) scanned (Some line_end)
        end
  end.
Definition read_huge_tail_seq (file : bytes) (len : Z) (limits : JournalLimits) :
    result JError Z :=
  huge_tail_loop (Z.to_nat (len / TAIL_CHUNK + 1)) file (max_event_bytes limits) len 0 None.

Definition MAX_LINE : Z := 1024 * 1024.
Definition wrapping_add_u64 (a b : Z) : Z := (a + b) mod (U64_MAX + 1).

(** The last sequence number of the complete lines of the window. *)
Definition window_seq (slice : bytes) : Z :=
  foldl (λ last_seq line,
           match line with
           | [] => last_seq
           | _ =>
               match from_slice line with
               | Ok v =>
                   match get_u64 (s"seq") v with
                   | Some seq => Z.max last_seq seq
                   | None => last_seq
                   end
               | Err _ => last_seq
               end
           end) 0%Z (split_char NEWLINE slice).

(** The full scan when the window and the bounded scan found nothing. *)
Definition full_scan_seq (file : bytes) (limits : JournalLimits) : result JError Z :=
  scan ← map_err (λ _, JInvalid TailResolutionFailed) (read_journal_values (Some file) limits);
  match scan_events scan with
  | [] => Ok 0%Z
  | events =>
      match omap (get_u64 (s"seq")) events with
      | [] => Err (JInvalid EventsWithoutSeq)
      | seq :: seqs => Ok (foldl Z.max seq seqs)
      end
  end.

(** [read_last_seq_from_file_tail]. *)
Definition read_last_seq_from_file_tail (file : option bytes) (limits : JournalLimits) :
    result JError Z :=
  match file with
  | None => Ok 0%Z
  | Some file =>
      let len := zlen file in
      if (len =? 0)%Z then Ok 0%Z
      else
        let tail_window := Z.max (default (64 * 1024)%Z (scan_window_bytes limits)) (4 * 1024) in
        let window := Z.min len (wrapping_add_u64 tail_window MAX_LINE) in
        let start := (len - window)%Z in
        let contents := read_at file start window in
        let slice :=
          if (0 <? start)%Z then
            match position is_newline contents with
            | Some pos => drop (S pos) contents
            | None => []
            end
          else contents in
        let last_seq := window_seq slice in
        if (0 <? start)%Z && (last_seq =? 0)%Z then
          match read_huge_tail_seq file len limits with
          | Ok seq => Ok seq
          | Err _ => full_scan_seq file limits
          end
        else Ok last_seq
  end.

(** [state_json_seq_floor]. *)
Definition state_json_seq_floor (state : option bytes) : result JError Z :=
  match state with
  | None => Ok 0%Z
  | Some contents =>
      v ← map_err (λ _, JInvalid StateCorrupt) (from_slice contents);
      ok_or (get_u64 (s"last_seq") v) (JInvalid StateWithoutSeq)
  end.

(** [read_last_seq_from_tail]. *)
Definition read_last_seq_from_tail (d : Disk) (limits : JournalLimits) : result JError Z :=
  tail ← read_last_seq_from_file_tail (dk_journal d) limits;
  floor ← state_json_seq_floor (dk_state d);
  Ok (Z.max tail floor).

(** ** Repair of a torn tail *)

Definition truncate_to (file : bytes) (len : Z) : bytes := take (Z.to_nat len) file.

(** [repair_tail_at]. *)
Definition repair_tail_at (marker : option Marker) (file tail : bytes) (tail_start : Z) :
    result JError bytes :=
  let clean_shutdown :=
    match marker with
    | Some m => bool_decide (marker_bytes m = CLEAN_SHUTDOWN_MAGIC)
    | None => false
    end in
  if clean_shutdown && match marker with Some m => marker_symlink m | None => false end
  then Err (JInvalid MarkerSymlink)
  else if clean_shutdown then Err (JInvalid TruncatedAfterCleanShutdown)
  else if forallb is_ascii_whitespace tail then Ok (truncate_to file tail_start)
  else
    match from_slice tail with
    | Ok _ => Ok (file ++ [NEWLINE])
    | Err _ => Ok (truncate_to file tail_start)
    end.

(** [repair_tail_bytes]. *)
Definition repair_tail_bytes (marker : option Marker) (file contents : bytes) (base : Z) :
    result JError bytes :=
  let tail_start := match rposition is_newline contents with Some pos => S pos | None => 0 end in
  repair_tail_at marker file (drop tail_start contents) (base + Z.of_nat tail_start).

(** The loop of [repair_tail_backscan]; one unit of fuel for each window. *)
Fixpoint backscan_loop (fuel : nat) (marker : option Marker) (file : bytes)
    (scan_end : Z) (tail : bytes) (scan_window max_backscan : Z) : result JError bytes :=
  match fuel with
  | O => repair_tail_bytes marker file tail 0
  | S fuel =>
      let scan_start := Z.max 0 (scan_end - scan_window) in
      let chunk := read_at file scan_start (scan_end - scan_start) in
      match rposition is_newline chunk with
      | Some pos =>
          repair_tail_at marker file (drop (S pos) chunk ++ tail)
            (scan_start + Z.of_nat pos + 1)
      | None =>
          if (max_backscan <? zlen tail + zlen chunk)%Z
          then Err (JInvalid (TailTooLong max_backscan))
          else if (scan_start =? 0)%Z then repair_tail_bytes marker file (chunk ++ tail) 0
          else backscan_loop fuel marker file scan_start (chunk ++ tail) scan_window max_backscan
      end
  end.
Definition repair_tail_backscan (marker : option Marker) (file : bytes) (scan_end : Z)
    (tail : bytes) (scan_window : Z) : result JError bytes :=
  backscan_loop (Z.to_nat (scan_end / scan_window + 1)) marker file scan_end tail scan_window
    (saturating_mul U64_MAX scan_window 16).

(** [repair_truncated_tail_locked]: the file after the repair. *)
Definition repair_truncated_tail_locked (marker : option Marker) (file : option bytes)
    (limits : JournalLimits) : result JError (option bytes) :=
  match file with
  | None => Ok None
  | Some file =>
      let scan_window :=
        Z.max (default (1024 * 1024)%Z (scan_window_bytes limits)) (4 * 1024) in
      let len := zlen file in
      if (len =? 0)%Z then Ok (Some file)
      else if (len <=? scan_window)%Z then
        if has_newline file then Ok (Some file)
        else Some <$> repair_tail_bytes marker file file 0
      else
        let start := (len - scan_window)%Z in
        let contents := read_at file start scan_window in
        if has_newline contents then Ok (Some file)
        else
          match rposition is_newline contents with
          | Some pos =>
              Some <$> repair_tail_at marker file (drop (S pos) contents)
                         (start + Z.of_nat pos + 1)
          | None => Some <$> repair_tail_backscan marker file start contents scan_window
          end
  end.
End serde.
