(* ===== verification/JournalLines.v ===== *)
(** * Reading what was appended

    The laws of [serde_json] the journal relies on, the file of a list of
    events, and what reading such a file returns, with and without a torn
    last line. *)

From S2P Require Import Prelude Str BMap Json Serde Events ValueBag RunState JournalFile.

#[local] Arguments s : simpl never.

(** Values that survive a round trip exactly: all integers, and the doubles that
    are read back from their text as themselves. [serde_json] does not promise
    that of every double (the [float_roundtrip] feature is off: the last bit may
    change), so it is asked of the doubles a record holds. *)
Definition exact_number `{SerdeJson} (n : number) : bool :=
  match n with
  | Float f =>
      match from_slice (to_vec (VNumber (Float f))) with
      | Ok (VNumber m) => bool_decide (m = Float f)
      | _ => false
      end
  | _ => true
  end.
Fixpoint exact_value `{SerdeJson} (v : value) : bool :=
  match v with
  | VNumber n => exact_number n
  | VArray l => forallb exact_value l
  | VObject m => forallb (λ kv, exact_value kv.2) m
  | _ => true
  end.
Definition event_value `{SerdeJson} (v : value) : Prop := is_object v = true ∧ exact_value v = true.

(** What [serde_json] documents of compact output: an object is written on one
    line, starts with a brace, parses back, and is cut short visibly. *)
Class SerdeJsonLaws `{SerdeJson} : Prop := {
  to_vec_one_line : ∀ v, event_value v → NEWLINE ∉ to_vec v;
  to_vec_brace : ∀ v, event_value v → head (to_vec v) = Some 123%Z;
  from_to_vec : ∀ v, event_value v → from_slice (to_vec v) = Ok v;
  from_torn : ∀ v p, event_value v → p `prefix_of` to_vec v → p ≠ [] → p ≠ to_vec v →
    from_slice p = Err CatEof;
}.

(** The file of a list of events. *)
Definition journal_line `{SerdeJson} (v : value) : bytes := to_vec v ++ [NEWLINE].
Definition journal_of `{SerdeJson} (events : list value) : bytes :=
  concat (map journal_line events).

(** ** Lines of a file *)

Lemma read_until_line cap line rest :
  NEWLINE ∉ line → (∀ c, cap = Some c → zlen line + 1 ≤ c)%Z →
  read_until cap (line ++ NEWLINE :: rest) = (line ++ [NEWLINE], rest).
Proof.
  revert cap. induction line as [|b line IH]; intros cap Hn Hc; cbn.
  - rewrite bool_decide_false by (intros ->; specialize (Hc 0%Z eq_refl); cbn in Hc; lia). done.
  - apply not_elem_of_cons in Hn as [Hb Hn].
    rewrite bool_decide_false by (intros ->; specialize (Hc 0%Z eq_refl); cbn in Hc; lia).
    assert ((b =? NEWLINE)%Z = false) as -> by (apply Z.eqb_neq; congruence).
    rewrite IH; [done | done |]. intros c Hcap. destruct cap as [c'|]; [|done].
    injection Hcap as <-. specialize (Hc c' eq_refl). cbn in Hc. lia.
Qed.

Lemma read_until_end cap line :
  NEWLINE ∉ line → (∀ c, cap = Some c → zlen line ≤ c)%Z → read_until cap line = (line, []).
Proof.
  revert cap. induction line as [|b line IH]; intros cap Hn Hc; cbn; [done|].
  apply not_elem_of_cons in Hn as [Hb Hn].
  rewrite bool_decide_false by (intros ->; specialize (Hc 0%Z eq_refl); cbn in Hc; lia).
  assert ((b =? NEWLINE)%Z = false) as -> by (apply Z.eqb_neq; congruence).
  rewrite IH; [done | done |]. intros c Hcap. destruct cap as [c'|]; [|done].
  injection Hcap as <-. specialize (Hc c' eq_refl). cbn in Hc. lia.
Qed.

Lemma read_until_app cap file line rest :
  read_until cap file = (line, rest) → file = line ++ rest.
Proof.
  revert cap line rest. induction file as [|b file IH]; intros cap line rest; cbn.
  { by intros [= <- <-]. }
  case_bool_decide; [by intros [= <- <-]|]. case_match; [by intros [= <- <-]|].
  destruct (read_until _ _) as [l r] eqn:E. intros [= <- <-]. cbn. f_equal. by eapply IH.
Qed.

(** No byte is skipped, and the fuel is enough: the lines are the file. *)
Lemma raw_lines_go_concat fuel cap file :
  length file < fuel → (∀ c, cap = Some c → 0 < c)%Z → concat (raw_lines_go fuel cap file) = file.
Proof.
  revert file. induction fuel as [|fuel IH]; intros file Hf Hc; [lia|]. cbn.
  destruct (read_until cap file) as [[|b line] rest] eqn:E.
  - destruct file as [|b file]; [done|]. cbn in E. case_bool_decide as Hz.
    { specialize (Hc _ Hz). lia. }
    case_match; [done|]. by destruct (read_until _ _).
  - pose proof (read_until_app _ _ _ _ E) as ->. cbn. rewrite IH; [done | | done].
    cbn in Hf. rewrite length_app in Hf. lia.
Qed.

Lemma raw_lines_go_fuel fuel fuel' cap file :
  length file < fuel → length file < fuel' → (∀ c, cap = Some c → 0 < c)%Z →
  raw_lines_go fuel cap file = raw_lines_go fuel' cap file.
Proof.
  revert fuel' file. induction fuel as [|fuel IH]; intros [|fuel'] file Hf Hf' Hc; try lia.
  cbn. destruct (read_until cap file) as [[|b line] rest] eqn:E; [done|]. f_equal.
  pose proof (read_until_app _ _ _ _ E) as ->. cbn in Hf, Hf'. rewrite length_app in Hf, Hf'.
  apply IH; [lia | lia | done].
Qed.

Lemma raw_lines_line cap line rest :
  NEWLINE ∉ line → (∀ c, cap = Some c → zlen line + 1 ≤ c)%Z →
  raw_lines cap (line ++ NEWLINE :: rest) = (line ++ [NEWLINE]) :: raw_lines cap rest.
Proof.
  intros Hn Hc. unfold raw_lines at 1. cbn [raw_lines_go]. rewrite read_until_line by done.
  destruct (line ++ [NEWLINE]) eqn:E; [by destruct line|]. f_equal.
  unfold raw_lines. apply raw_lines_go_fuel; rewrite ?length_app; cbn; [lia | lia |].
  intros c Hcap. specialize (Hc c Hcap). lia.
Qed.

Lemma raw_lines_end cap line :
  NEWLINE ∉ line → (∀ c, cap = Some c → zlen line ≤ c)%Z →
  raw_lines cap line = match line with [] => [] | _ => [line] end.
Proof.
  intros Hn Hc. unfold raw_lines. cbn [raw_lines_go]. rewrite read_until_end by done.
  destruct line; [done|]. by cbn.
Qed.

Lemma has_newline_snoc line : has_newline (line ++ [NEWLINE]) = true.
Proof. unfold has_newline. apply bool_decide_true. by rewrite last_snoc. Qed.
Lemma has_newline_none line : NEWLINE ∉ line → has_newline line = false.
Proof.
  intros Hn. apply bool_decide_false. intros Hl. apply Hn.
  apply last_Some in Hl as [l' ->]. apply elem_of_app. right. by apply list_elem_of_singleton.
Qed.

(** ** Reading a journal *)

(** The events up to the first one past the limit. *)
Fixpoint through_prefix (through : option Z) (events : list value) : list value :=
  match events with
  | [] => []
  | v :: events =>
      match through, get_u64 (s"seq") v with
      | Some limit, Some seq =>
          if (limit <? seq)%Z then [] else v :: through_prefix through events
      | _, _ => v :: through_prefix through events
      end
  end.

Section laws.
Context `{SerdeJsonLaws}.

(** A journal and the fragment after it are within the limits. *)
Record fits (limits : JournalLimits) (events : list value) (frag : bytes) : Prop := {
  fit_valid : validate_limits limits = Ok ();
  fit_event : ∀ l, max_event_bytes limits = Some l →
    (l + 2 ≤ USIZE_MAX ∧ zlen frag ≤ l)%Z ∧ Forall (λ v, zlen (to_vec v) ≤ l)%Z events;
  fit_bytes : (zlen (journal_of events) + zlen frag ≤ USIZE_MAX)%Z;
  fit_total : ∀ l, max_total_bytes limits = Some l →
    (zlen (journal_of events) + zlen frag ≤ l)%Z;
  fit_count : ∀ l, max_event_count limits = Some l →
    (zlen events + (if bool_decide (frag = []) then 0 else 1) ≤ l)%Z;
}.

(** The beginning of the line of an event, cut before its end. *)
Definition torn_fragment (frag : bytes) : Prop :=
  frag = [] ∨ ∃ v, event_value v ∧ frag `prefix_of` to_vec v ∧ frag ≠ to_vec v.

Lemma torn_no_newline frag : torn_fragment frag → NEWLINE ∉ frag.
Proof.
  intros [->|(v & Hv & [r Hr] & _)]; [apply not_elem_of_nil|].
  pose proof (to_vec_one_line v Hv) as Hn. rewrite Hr in Hn. set_solver.
Qed.
Lemma brace_not_blank b rest : b :: rest ≠ [] → b = 123%Z →
  forallb is_ascii_whitespace (b :: rest) = false.
Proof. by intros _ ->. Qed.
Lemma event_not_blank v : event_value v → forallb is_ascii_whitespace (to_vec v) = false.
Proof.
  intros Hv. pose proof (to_vec_brace v Hv) as Hb. destruct (to_vec v); [done|].
  cbn in Hb. injection Hb as ->. done.
Qed.
Lemma torn_not_blank frag :
  torn_fragment frag → frag ≠ [] → forallb is_ascii_whitespace frag = false.
Proof.
  intros [->|(v & Hv & [r Hr] & _)] Hne; [done|].
  pose proof (to_vec_brace v Hv) as Hb. destruct frag; [done|]. rewrite Hr in Hb.
  cbn in Hb. injection Hb as ->. done.
Qed.
Lemma torn_parse frag : torn_fragment frag → frag ≠ [] → from_slice frag = Err CatEof.
Proof. intros [->|(v & Hv & Hp & Hne)] H1; [done|]. by eapply from_torn. Qed.

Lemma raw_lines_journal cap v events frag :
  event_value v → (∀ c, cap = Some c → zlen (to_vec v) + 2 ≤ c)%Z →
  raw_lines cap (journal_of (v :: events) ++ frag)
  = journal_line v :: raw_lines cap (journal_of events ++ frag).
Proof.
  intros Hv Hc. unfold journal_of, journal_line. cbn.
  rewrite <-!app_assoc. cbn. apply raw_lines_line; [by apply to_vec_one_line|].
  intros c Hcap. specialize (Hc c Hcap). lia.
Qed.

Lemma journal_of_cons v events :
  zlen (journal_of (v :: events)) = (zlen (to_vec v) + 1 + zlen (journal_of events))%Z.
Proof. unfold journal_of, journal_line. cbn. rewrite !length_app. cbn. lia. Qed.
Lemma journal_of_app events events' :
  journal_of (events ++ events') = journal_of events ++ journal_of events'.
Proof. unfold journal_of. by rewrite map_app, concat_app. Qed.
Lemma journal_of_snoc events v :
  journal_of (events ++ [v]) = journal_of events ++ journal_line v.
Proof. rewrite journal_of_app. f_equal. unfold journal_of. cbn. by rewrite app_nil_r. Qed.

(** The loop over a journal, from any point of it. *)
Definition scan_room (limits : JournalLimits) (stats : JournalStats) (events : list value)
    (frag : bytes) : Prop :=
  (∀ l, max_event_bytes limits = Some l →
     (zlen frag ≤ l)%Z ∧ Forall (λ v, zlen (to_vec v) ≤ l)%Z events) ∧
  (js_bytes stats + zlen (journal_of events) + zlen frag ≤ USIZE_MAX)%Z ∧
  (∀ l, max_total_bytes limits = Some l →
     (js_bytes stats + zlen (journal_of events) + zlen frag ≤ l)%Z) ∧
  (∀ l, max_event_count limits = Some l →
     (js_events stats + zlen events + (if bool_decide (frag = []) then 0 else 1) ≤ l)%Z) ∧
  (0 ≤ js_events stats ≤ js_bytes stats)%Z.

Lemma within_ok limit resource n : (∀ l, limit = Some l → n ≤ l)%Z → within limit resource n = Ok ().
Proof.
  intros Hl. destruct limit as [l|]; cbn; [|done]. specialize (Hl l eq_refl).
  by rewrite (proj2 (Z.ltb_ge _ _)) by lia.
Qed.
Lemma count_room_ok limits stats :
  (∀ l, max_event_count limits = Some l → js_events stats < l)%Z → count_room limits stats = Ok ().
Proof.
  unfold count_room. intros Hl. destruct (max_event_count limits) as [l|]; [|done].
  specialize (Hl l eq_refl). by rewrite (proj2 (Z.leb_gt _ _)) by lia.
Qed.
Lemma checked_add_ok max a b : (a + b ≤ max)%Z → checked_add max a b = Some (a + b)%Z.
Proof. intros. by apply checked_add_Some. Qed.

(** One line of the loop. *)
Lemma read_loop_line through limits ln stats acc v events frag lines :
  event_value v → scan_room limits stats (v :: events) frag → (0 ≤ ln ≤ js_bytes stats)%Z →
  read_loop through limits ((λ l, l + 2) <$> max_event_bytes limits)%Z ln stats acc
    (journal_line v :: lines) =
  let total := (js_bytes stats + (zlen (to_vec v) + 1))%Z in
  if match through, get_u64 (s"seq") v with
     | Some limit, Some seq => (limit <? seq)%Z
     | _, _ => false
     end
  then Ok (mkJournalScan acc (mkJournalStats total (js_events stats)))
  else read_loop through limits ((λ l, l + 2) <$> max_event_bytes limits)%Z (ln + 1)
         (mkJournalStats total (js_events stats + 1)) (acc ++ [v]) lines.
Proof.
  intros Hv (He & Hb & Ht & Hc & Hev) Hln. rewrite journal_of_cons in *.
  assert (Hlen : zlen (journal_line v) = (zlen (to_vec v) + 1)%Z)
    by (unfold journal_line; rewrite length_app; cbn; lia).
  cbn [read_loop]. rewrite Hlen, !checked_add_ok by lia. cbn [ok_or mbind result_bind js_bytes].
  rewrite (within_ok (max_total_bytes limits)) by (intros l Hl; specialize (Ht l Hl); lia). cbn [mbind result_bind].
  assert (has_newline (journal_line v) = true) as -> by apply has_newline_snoc.
  assert (∀ o, match o with
    | Some cap => if negb true && (zlen (to_vec v) + 1 =? cap)%Z
                  then Err (JLimitExceeded (s"event") (zlen (to_vec v) + 1) (Z.max 0 (cap - 2)))
                  else Ok ()
    | None => Ok () end = Ok () :> result JError ()) as -> by (by intros []).
  cbn [mbind result_bind].
  assert (take (length (journal_line v) - 1) (journal_line v) = to_vec v) as ->.
  { unfold journal_line. rewrite length_app. cbn.
    replace (length (to_vec v) + 1 - 1) with (length (to_vec v)) by lia. apply take_app_length. }
  rewrite (within_ok (max_event_bytes limits)) by
    (intros l Hl; destruct (He l Hl) as [_ Hf]; by apply Forall_cons_1 in Hf as [? _]).
  cbn [mbind result_bind]. rewrite event_not_blank by done.
  rewrite count_room_ok by (intros l Hl; specialize (Hc l Hl); cbn in Hc |- *; case_bool_decide; lia).
  cbn [mbind result_bind]. rewrite from_to_vec by done. cbn [js_events].
  rewrite checked_add_ok by (cbn in Hev |- *; lia). done.
Qed.

(** The last line without its newline. *)
Lemma read_loop_last through limits ln stats acc frag :
  NEWLINE ∉ frag → frag ≠ [] → forallb is_ascii_whitespace frag = false →
  scan_room limits stats [] frag → (0 ≤ ln ≤ js_bytes stats)%Z →
  let cap := ((λ l, l + 2) <$> max_event_bytes limits)%Z in
  let stats' := mkJournalStats (js_bytes stats + zlen frag) (js_events stats) in
  read_loop through limits cap ln stats acc (raw_lines cap frag)
  = match from_slice frag with
    | Err c =>
        if is_eof c then Ok (mkJournalScan acc stats') else Err (JInvalidLine (ln + 1) c)
    | Ok event =>
        if match through, get_u64 (s"seq") event with
           | Some limit, Some seq => (limit <? seq)%Z
           | _, _ => false
           end
        then Ok (mkJournalScan acc stats')
        else Ok (mkJournalScan (acc ++ [event])
                   (mkJournalStats (js_bytes stats + zlen frag) (js_events stats + 1)))
    end.
Proof.
  intros Hn Hne Hblank (He & Hb & Ht & Hc & Hev) Hln cap. cbn in Hb, Ht, Hc.
  assert (Hcap : ∀ c, cap = Some c → (zlen frag + 2 ≤ c)%Z).
  { unfold cap. intros c. destruct (max_event_bytes limits) as [l|]; [|done].
    intros [= <-]. destruct (He l eq_refl). lia. }
  rewrite raw_lines_end by (done || intros c Hc'; specialize (Hcap c Hc'); lia).
  assert (∀ A (x y : A), match frag with [] => x | _ => y end = y) as -> by (by destruct frag).
  assert (0 < zlen frag)%Z by (destruct frag; [done | cbn; lia]).
  cbn [read_loop]. rewrite !checked_add_ok by lia. cbn [ok_or mbind result_bind].
  rewrite (within_ok (max_total_bytes limits)) by (intros l Hl; specialize (Ht l Hl); lia).
  cbn [mbind result_bind]. rewrite (has_newline_none _ Hn). cbn [negb andb].
  assert (match cap with
          | Some c => if (zlen frag =? c)%Z
                      then Err (JLimitExceeded (s"event") (zlen frag) (Z.max 0 (c - 2)))
                      else Ok ()
          | None => Ok () end = Ok () :> result JError ()) as ->.
  { destruct cap as [c|]; [|done]. specialize (Hcap c eq_refl).
    by rewrite (proj2 (Z.eqb_neq _ _)) by lia. }
  cbn [mbind result_bind]. rewrite Nat.sub_0_r, firstn_all.
  rewrite (within_ok (max_event_bytes limits)) by (intros l Hl; by destruct (He l Hl)).
  cbn [mbind result_bind]. rewrite Hblank.
  rewrite count_room_ok by
    (intros l Hl; specialize (Hc l Hl); rewrite bool_decide_false in Hc by done; cbn; lia).
  cbn [mbind result_bind js_events]. rewrite checked_add_ok by lia.
  destruct (from_slice frag) as [v|c]; [done|]. rewrite bool_decide_true by done.
  by rewrite andb_true_r.
Qed.

(** The torn last line is skipped. *)
Lemma read_loop_torn through limits ln stats acc frag :
  torn_fragment frag → scan_room limits stats [] frag → (0 ≤ ln ≤ js_bytes stats)%Z →
  let cap := ((λ l, l + 2) <$> max_event_bytes limits)%Z in
  read_loop through limits cap ln stats acc (raw_lines cap frag)
  = Ok (mkJournalScan acc (mkJournalStats (js_bytes stats + zlen frag) (js_events stats))).
Proof.
  intros Hf Hroom Hln cap. destruct (decide (frag = [])) as [->|Hne].
  { cbn. rewrite Z.add_0_r. by destruct stats. }
  unfold cap. rewrite read_loop_last by
    (done || by apply torn_no_newline || by apply torn_not_blank).
  by rewrite torn_parse by done.
Qed.

Lemma scan_room_next limits stats v events frag :
  scan_room limits stats (v :: events) frag →
  scan_room limits (mkJournalStats (js_bytes stats + (zlen (to_vec v) + 1)) (js_events stats + 1))
    events frag.
Proof.
  intros (He & Hb & Ht & Hc & Hev). rewrite journal_of_cons in *. split_and!; cbn.
  - intros l Hl. destruct (He l Hl) as [? Hf]. by apply Forall_cons_1 in Hf as [_ ?].
  - lia.
  - intros l Hl. specialize (Ht l Hl). lia.
  - intros l Hl. specialize (Hc l Hl). cbn in Hc. lia.
  - lia.
  - lia.
Qed.

Lemma read_loop_journal through limits ln stats acc events frag :
  Forall event_value events → torn_fragment frag → scan_room limits stats events frag →
  (0 ≤ ln ≤ js_bytes stats)%Z →
  let cap := ((λ l, l + 2) <$> max_event_bytes limits)%Z in
  ∃ stats',
    read_loop through limits cap ln stats acc (raw_lines cap (journal_of events ++ frag))
    = Ok (mkJournalScan (acc ++ through_prefix through events) stats') ∧
    (through = None →
     stats' = mkJournalStats (js_bytes stats + zlen (journal_of events) + zlen frag)
                             (js_events stats + zlen events)).
Proof.
  intros Hev. revert ln stats acc. induction Hev as [|v events Hv Hev IH];
    intros ln stats acc Hf Hroom Hln cap.
  - eexists. split.
    + cbn [journal_of map concat app]. rewrite read_loop_torn by done. cbn. by rewrite app_nil_r.
    + intros _. cbn. f_equal; lia.
  - assert (Hcap : ∀ c, cap = Some c → (zlen (to_vec v) + 2 ≤ c)%Z).
    { destruct Hroom as (He & _). unfold cap. intros c.
      destruct (max_event_bytes limits) as [l|]; [|done]. intros [= <-].
      destruct (He l eq_refl) as [_ Hfl]. apply Forall_cons_1 in Hfl as [? _]. lia. }
    rewrite raw_lines_journal by done. unfold cap. erewrite read_loop_line by done. cbn zeta.
    cbn [through_prefix].
    destruct (IH (ln + 1)%Z _ (acc ++ [v]) Hf (scan_room_next _ _ _ _ _ Hroom))
      as (st & Hst & Hnone); [cbn; lia|].
    destruct through as [limit|]; [destruct (get_u64 _ v) as [seq|]; [case_if|]|].
    + eexists. rewrite app_nil_r. split; [done|]. done.
    + eexists. rewrite Hst, <-app_assoc. by split.
    + eexists. rewrite Hst, <-app_assoc. by split.
    + eexists. rewrite Hst, <-app_assoc. split; [done|]. intros _. rewrite (Hnone eq_refl).
      rewrite journal_of_cons. cbn. f_equal; lia.
Qed.

(** The loop reaches what follows the complete lines. *)
Lemma read_loop_skip limits ln stats acc events frag tail :
  Forall event_value events → scan_room limits stats events frag → (0 ≤ ln ≤ js_bytes stats)%Z →
  let cap := ((λ l, l + 2) <$> max_event_bytes limits)%Z in
  let stats' := mkJournalStats (js_bytes stats + zlen (journal_of events))
                  (js_events stats + zlen events) in
  read_loop None limits cap ln stats acc (raw_lines cap (journal_of events ++ tail))
  = read_loop None limits cap (ln + zlen events) stats' (acc ++ events) (raw_lines cap tail) ∧
  scan_room limits stats' [] frag ∧ (0 ≤ ln + zlen events ≤ js_bytes stats')%Z.
Proof.
  intros Hev. revert ln stats acc. induction Hev as [|v events Hv Hev IH];
    intros ln stats acc Hroom Hln cap.
  - cbn. rewrite !Z.add_0_r, app_nil_r. destruct stats. by split_and!; try lia.
  - assert (Hcap : ∀ c, cap = Some c → (zlen (to_vec v) + 2 ≤ c)%Z).
    { destruct Hroom as (He & _). unfold cap. intros c.
      destruct (max_event_bytes limits) as [l|]; [|done]. intros [= <-].
      destruct (He l eq_refl) as [_ Hfl]. apply Forall_cons_1 in Hfl as [? _]. lia. }
    rewrite raw_lines_journal by done. unfold cap. erewrite read_loop_line by done. cbn zeta.
    destruct (IH (ln + 1)%Z _ (acc ++ [v]) (scan_room_next _ _ _ _ _ Hroom)) as (-> & Hr & Hl);
      [cbn; lia|].
    rewrite <-app_assoc. cbn [app]. rewrite journal_of_cons in *. cbn [js_bytes js_events] in *.
    replace (ln + zlen (v :: events))%Z with (ln + 1 + zlen events)%Z by (cbn; lia).
    replace (js_events stats + zlen (v :: events))%Z with (js_events stats + 1 + zlen events)%Z
      by (cbn; lia).
    replace (js_bytes stats + (zlen (to_vec v) + 1 + zlen (journal_of events)))%Z
      with (js_bytes stats + (zlen (to_vec v) + 1) + zlen (journal_of events))%Z by lia.
    by split_and!; try lia.
Qed.

Lemma fits_room limits events frag :
  fits limits events frag → scan_room limits journal_stats_default events frag.
Proof.
  intros [_ He Hb Ht Hc]. split_and!; cbn; try lia.
  - intros l Hl. by destruct (He l Hl) as [[_ ?] ?].
  - intros l Hl. specialize (Ht l Hl). lia.
  - intros l Hl. specialize (Hc l Hl). lia.
Qed.

Lemma fits_cap limits events frag :
  fits limits events frag →
  line_read_limit limits = Ok ((λ l, l + 2) <$> max_event_bytes limits)%Z.
Proof.
  intros Hfit. unfold line_read_limit. destruct (max_event_bytes limits) as [l|] eqn:El; [|done].
  destruct (fit_event _ _ _ Hfit l El) as [[? _] _]. by rewrite checked_add_ok by lia.
Qed.

(** Reading a journal with a torn last line. *)
Lemma read_journal_through through limits events frag :
  Forall event_value events → torn_fragment frag → fits limits events frag →
  ∃ stats,
    read_journal_values_through (Some (journal_of events ++ frag)) through limits
    = Ok (mkJournalScan (through_prefix through events) stats) ∧
    (through = None →
     stats = mkJournalStats (zlen (journal_of events) + zlen frag) (zlen events)).
Proof.
  intros Hev Hf Hfit. unfold read_journal_values_through. rewrite (fit_valid _ _ _ Hfit). cbn [mbind result_bind].
  rewrite (fits_cap _ _ _ Hfit). cbn [mbind result_bind].
  apply (read_loop_journal through limits 0 journal_stats_default [] events frag); try done.
  by apply fits_room.
Qed.

Lemma through_none events : through_prefix None events = events.
Proof. induction events as [|v events IH]; cbn; [done|]. by rewrite IH. Qed.

Lemma read_journal limits events frag :
  Forall event_value events → torn_fragment frag → fits limits events frag →
  read_journal_values (Some (journal_of events ++ frag)) limits
  = Ok (mkJournalScan events
          (mkJournalStats (zlen (journal_of events) + zlen frag) (zlen events))).
Proof.
  intros Hev Hf Hfit. destruct (read_journal_through None limits events frag) as (st & Hr & Hst);
    [done..|]. unfold read_journal_values. rewrite Hr, through_none, (Hst eq_refl). done.
Qed.

(** A last event without its newline is read. *)
Lemma read_journal_unterminated limits events v :
  Forall event_value (events ++ [v]) → fits limits events (to_vec v) →
  read_journal_values (Some (journal_of events ++ to_vec v)) limits
  = Ok (mkJournalScan (events ++ [v])
          (mkJournalStats (zlen (journal_of events) + zlen (to_vec v)) (zlen events + 1))).
Proof.
  intros [Hev Hv]%Forall_app Hfit. rewrite Forall_singleton in Hv.
  unfold read_journal_values, read_journal_values_through.
  rewrite (fit_valid _ _ _ Hfit). cbn [mbind result_bind]. rewrite (fits_cap _ _ _ Hfit). cbn [mbind result_bind].
  destruct (read_loop_skip limits 0 journal_stats_default [] events (to_vec v) (to_vec v) Hev
              (fits_room _ _ _ Hfit)) as (-> & Hr & Hl); [cbn; lia|].
  assert (to_vec v ≠ []) by (intros Hz; pose proof (to_vec_brace v Hv) as Hb; by rewrite Hz in Hb).
  rewrite read_loop_last by
    (done || by apply to_vec_one_line || by apply event_not_blank).
  by rewrite from_to_vec by done.
Qed.
End laws.
