(* ===== verification/JournalRepair.v ===== *)
(** * Repair and last sequence number of a journal *)

From S2P Require Import Prelude Str BMap Json ValueBag Serde Events RunState JournalFile JournalLines.
From Stdlib Require Import Sorted.

#[local] Arguments s : simpl never.

(** * Repair of a torn journal

    The repair reads the end of the file in windows; it does what a reader of
    the whole file would do.  After a write that was cut at any byte, the
    repaired file is the journal before the write or the journal with the
    event, and the reader agrees. *)

(** ** Windows of a file *)

Lemma rposition_none l : NEWLINE ∉ l → rposition is_newline l = None.
Proof.
  induction l as [|b l IH]; [done|]. intros [Hb Hl]%not_elem_of_cons. cbn. rewrite IH by done.
  unfold is_newline. by rewrite (proj2 (Z.eqb_neq _ _)) by congruence.
Qed.
Lemma rposition_split p tail :
  NEWLINE ∉ tail → rposition is_newline (p ++ NEWLINE :: tail) = Some (length p).
Proof.
  intros Hn. induction p as [|b p IH]; cbn; [by rewrite rposition_none | by rewrite IH].
Qed.

(** [pre] is the complete lines of a file and [tail] what follows them. *)
Definition complete_lines (pre : bytes) : Prop := pre = [] ∨ ∃ p, pre = p ++ [NEWLINE].

Lemma read_at_rest file a : (0 ≤ a)%Z → read_at file a (zlen file - a) = drop (Z.to_nat a) file.
Proof.
  intros Ha. unfold read_at. apply take_ge. rewrite length_drop. lia.
Qed.

Section window.
Variables (pre tail : bytes).
Hypothesis Hpre : complete_lines pre.
Hypothesis Htail : NEWLINE ∉ tail.

(** A window that ends in the tail and starts in it. *)
Lemma window_inside a b :
  (zlen pre ≤ a ≤ b)%Z →
  read_at (pre ++ tail) a (b - a) = read_at tail (a - zlen pre) (b - a) ∧
  rposition is_newline (read_at (pre ++ tail) a (b - a)) = None.
Proof.
  intros Hab. assert (read_at (pre ++ tail) a (b - a) = read_at tail (a - zlen pre) (b - a)) as ->.
  { unfold read_at. rewrite drop_app_ge by lia. do 2 f_equal. lia. }
  split; [done|]. apply rposition_none. intros Hin. apply Htail.
  unfold read_at in Hin. apply elem_of_take in Hin as (i & Hi & _).
  rewrite lookup_drop in Hi. by apply list_elem_of_lookup_2 in Hi.
Qed.

(** A window that ends in the tail and starts before it. *)
Lemma window_across a b :
  (0 ≤ a < zlen pre)%Z → (zlen pre ≤ b)%Z →
  ∃ pos, rposition is_newline (read_at (pre ++ tail) a (b - a)) = Some pos ∧
         (a + Z.of_nat pos + 1 = zlen pre)%Z ∧
         drop (S pos) (read_at (pre ++ tail) a (b - a)) = take (Z.to_nat (b - zlen pre)) tail.
Proof.
  intros Ha Hb. destruct Hpre as [->|[p ->]]; [cbn in Ha; lia|].
  rewrite length_app in *. cbn in Ha, Hb.
  exists (length p - Z.to_nat a).
  assert (read_at ((p ++ [NEWLINE]) ++ tail) a (b - a) =
          drop (Z.to_nat a) p ++ NEWLINE :: take (Z.to_nat (b - zlen (p ++ [NEWLINE]))) tail) as ->.
  { unfold read_at. rewrite <-app_assoc. rewrite drop_app_le by lia.
    rewrite take_app_ge by (rewrite length_drop; lia). f_equal. cbn [app].
    rewrite length_drop, length_app. cbn.
    replace (Z.to_nat (b - a) - (length p - Z.to_nat a))
      with (S (Z.to_nat (b - Z.of_nat (length p + 1)))) by lia. done. }
  assert (Hl : length (drop (Z.to_nat a) p) = length p - Z.to_nat a) by apply length_drop.
  split_and!.
  - rewrite rposition_split; [by rewrite Hl|]. intros Hin. apply Htail.
    apply elem_of_take in Hin as (i & Hi & _). by apply list_elem_of_lookup_2 in Hi.
  - cbn. lia.
  - rewrite <-Hl. rewrite drop_app_ge by lia.
    rewrite Nat.sub_succ_l, Nat.sub_diag, length_app by lia. done.
Qed.
End window.

(** ** The windows find the tail *)

Section laws.
Context `{SerdeJson}.

Lemma tail_bytes_whole marker file tail :
  NEWLINE ∉ tail → repair_tail_bytes marker file tail 0 = repair_tail_at marker file tail 0.
Proof. intros Hn. unfold repair_tail_bytes. by rewrite rposition_none by done. Qed.

Lemma backscan_loop_tail fuel marker pre tail scan_end w most :
  complete_lines pre → NEWLINE ∉ tail → (0 < w)%Z →
  (zlen pre ≤ scan_end ≤ zlen (pre ++ tail))%Z → (scan_end ≤ Z.of_nat fuel * w)%Z →
  let repaired := backscan_loop fuel marker (pre ++ tail) scan_end
                    (drop (Z.to_nat (scan_end - zlen pre)) tail) w most in
  repaired = repair_tail_at marker (pre ++ tail) tail (zlen pre) ∨
  repaired = Err (JInvalid (TailTooLong most)) ∧ (most < zlen tail)%Z.
Proof.
  intros Hpre Hn Hw. cbn zeta. revert scan_end.
  induction fuel as [|fuel IH]; intros scan_end Hend Hfuel.
  { assert (pre = []) as -> by (apply nil_length_inv; lia). cbn in Hend, Hfuel.
    assert (scan_end = 0%Z) as -> by lia. left. by apply tail_bytes_whole. }
  cbn [backscan_loop]. set (scan_start := Z.max 0 (scan_end - w)).
  destruct (decide (zlen pre ≤ scan_start)%Z) as [Hin|Hout].
  - destruct (window_inside pre tail Hn scan_start scan_end) as [Hchunk ->]; [lia|].
    rewrite Hchunk. unfold read_at.
    set (rest := drop (Z.to_nat (scan_start - zlen pre)) tail).
    assert (Hcat : take (Z.to_nat (scan_end - scan_start)) rest
                   ++ drop (Z.to_nat (scan_end - zlen pre)) tail = rest).
    { unfold rest. replace (Z.to_nat (scan_end - zlen pre)) with
        (Z.to_nat (scan_start - zlen pre) + Z.to_nat (scan_end - scan_start)) by lia.
      rewrite <-drop_drop. apply take_drop. }
    rewrite Hcat. assert (length rest ≤ length tail) by (unfold rest; rewrite length_drop; lia).
    rewrite <-Nat2Z.inj_add, (Nat.add_comm (length (drop _ tail))), <-length_app, Hcat.
    case_if; [apply Z.ltb_lt in E; right; split; [done | lia]|]. clear E. case_if.
    + left. apply Z.eqb_eq in E. assert (pre = []) as -> by (apply nil_length_inv; lia).
      unfold rest. rewrite E. by apply tail_bytes_whole.
    + apply Z.eqb_neq in E. apply IH; lia.
  - destruct (window_across pre tail Hpre Hn scan_start scan_end)
      as (pos & -> & Hpos & ->); [lia | lia |].
    rewrite Hpos, take_drop. by left.
Qed.

Lemma has_newline_drop file k :
  k < length file → has_newline (drop k file) = has_newline file.
Proof.
  intros Hk. assert (last file = last (drop k file)) as Hl; [|unfold has_newline; by rewrite Hl].
  rewrite <-(take_drop k file) at 1. rewrite last_app.
  destruct (drop k file) as [|b l] eqn:E.
  - apply (f_equal length) in E. rewrite length_drop in E. cbn in E. lia.
  - destruct (last (b :: l)) eqn:E'; [done|]. by apply last_None in E'.
Qed.

Definition repair_window (limits : JournalLimits) : Z :=
  Z.max (default (1024 * 1024)%Z (scan_window_bytes limits)) 4096.

(** A file of complete lines is left alone. *)
Lemma repair_complete marker file limits :
  complete_lines file → repair_truncated_tail_locked marker (Some file) limits = Ok (Some file).
Proof.
  intros Hf. cbn zeta beta iota delta [repair_truncated_tail_locked].
  destruct Hf as [->|[p ->]]; [done|]. case_if; [done|]. rewrite has_newline_snoc.
  case_if; [done|]. apply Z.leb_gt in E0.
  replace (Z.max (default (1024 * 1024)%Z (scan_window_bytes limits)) (4 * 1024))
    with (repair_window limits) in * by done.
  assert (0 < repair_window limits)%Z by (unfold repair_window; lia).
  set (len := zlen (p ++ [NEWLINE])) in *.
  replace (repair_window limits) with (len - (len - repair_window limits))%Z at 2 by lia.
  unfold len at 2. rewrite read_at_rest by lia.
  rewrite has_newline_drop by (unfold len; lia). by rewrite has_newline_snoc.
Qed.

(** Otherwise the windows find the bytes after the last newline. *)
Lemma repair_finds_tail marker pre tail limits :
  complete_lines pre → NEWLINE ∉ tail → tail ≠ [] →
  let most := saturating_mul U64_MAX (repair_window limits) 16 in
  let repaired := repair_truncated_tail_locked marker (Some (pre ++ tail)) limits in
  repaired = Some <$> repair_tail_at marker (pre ++ tail) tail (zlen pre) ∨
  repaired = Err (JInvalid (TailTooLong most)) ∧ (most < zlen tail)%Z.
Proof.
  intros Hpre Hn Hne most. cbn zeta beta iota delta [repair_truncated_tail_locked].
  replace (Z.max (default (1024 * 1024)%Z (scan_window_bytes limits)) (4 * 1024))
    with (repair_window limits) by done.
  set (w := repair_window limits) in *. assert (0 < w)%Z by (unfold w, repair_window; lia).
  assert (0 < length tail) by (destruct tail; [done | cbn; lia]).
  assert (Hnl : has_newline (pre ++ tail) = false).
  { rewrite <-(has_newline_drop _ (length pre)) by (rewrite length_app; lia).
    rewrite drop_app_length. by apply has_newline_none. }
  set (len := zlen (pre ++ tail)). assert (len = zlen pre + zlen tail)%Z
    by (unfold len; rewrite length_app; lia).
  rewrite (proj2 (Z.eqb_neq _ _)) by lia. case_if.
  { rewrite Hnl. left. f_equal. unfold repair_tail_bytes.
    destruct Hpre as [->|[p ->]].
    - cbn. by rewrite rposition_none by done.
    - rewrite <-app_assoc. cbn [app]. rewrite rposition_split by done.
      f_equal; [|rewrite length_app; cbn; lia].
      rewrite drop_app_ge by lia. by rewrite Nat.sub_succ_l, Nat.sub_diag by lia. }
  apply Z.leb_gt in E. set (start := (len - w)%Z).
  assert (read_at (pre ++ tail) start w = read_at (pre ++ tail) start (len - start)) as ->
    by (f_equal; unfold start; lia).
  destruct (decide (zlen pre ≤ start)%Z) as [Hin|Hout].
  - destruct (window_inside pre tail Hn start len) as [Hchunk ->]; [unfold start; lia|].
    rewrite Hchunk. unfold len. rewrite length_app.
    replace (Z.of_nat (length pre + length tail) - start)%Z
      with (zlen tail - (start - zlen pre))%Z by lia.
    rewrite read_at_rest by (unfold start; lia).
    rewrite has_newline_drop by (unfold start; lia).
    rewrite has_newline_none by done. unfold repair_tail_backscan. fold most.
    edestruct backscan_loop_tail as [-> |[-> ?]]; [exact Hpre|exact Hn|done| | |by left|by right];
      [rewrite length_app; unfold start; lia|].
    pose proof (Z.div_mod start w ltac:(lia)). pose proof (Z.mod_pos_bound start w ltac:(lia)).
    assert (0 ≤ start / w)%Z by (apply Z.div_pos; unfold start; lia). nia.
  - destruct (window_across pre tail Hpre Hn start len) as (pos & -> & Hpos & Hdrop);
      [unfold start; lia | lia |].
    rewrite Hdrop, Hpos. unfold len at 1. rewrite read_at_rest by (unfold start; lia).
    rewrite has_newline_drop by (unfold start, len in *; lia). rewrite Hnl. left. do 2 f_equal.
    apply take_ge. lia.
Qed.
End laws.

(** ** Recovery after a write that was cut *)

Section recovery.
Context `{SerdeJsonLaws}.

Lemma journal_complete events : complete_lines (journal_of events).
Proof.
  destruct events as [|v events] using rev_ind; [by left|]. right.
  exists (journal_of events ++ to_vec v). rewrite journal_of_snoc. unfold journal_line.
  by rewrite app_assoc.
Qed.

(** The events a journal keeps when the write of [v] stopped after [n]
    bytes. *)
Definition kept (events : list value) (v : value) (n : nat) : list value :=
  if (n <? length (to_vec v))%nat then events else events ++ [v].

Lemma take_line_cases v n :
  (n < length (to_vec v) ∧ take n (journal_line v) = take n (to_vec v)) ∨
  (n = length (to_vec v) ∧ take n (journal_line v) = to_vec v) ∨
  (length (to_vec v) < n ∧ take n (journal_line v) = journal_line v).
Proof.
  unfold journal_line. destruct (decide (n < length (to_vec v))) as [Hn|Hn].
  - left. split; [done|]. rewrite take_app_le by lia. done.
  - right. destruct (decide (n = length (to_vec v))) as [->|Hne].
    + left. split; [done|]. apply take_app_length.
    + right. split; [lia|]. apply take_ge. rewrite length_app. cbn. lia.
Qed.

Lemma take_torn v n : event_value v → n < length (to_vec v) → torn_fragment (take n (to_vec v)).
Proof.
  intros Hv Hn. right. exists v. split_and!; [done | by apply prefix_take |].
  intros Heq. apply (f_equal length) in Heq. rewrite length_take in Heq. lia.
Qed.

Lemma fits_prefix limits events v frag :
  fits limits (events ++ [v]) [] → (zlen frag ≤ zlen (to_vec v))%Z → fits limits events frag.
Proof.
  intros [Hv He Hb Ht Hc] Hf.
  assert (Hlen : zlen (journal_of (events ++ [v]))
                 = (zlen (journal_of events) + zlen (to_vec v) + 1)%Z).
  { rewrite journal_of_snoc. unfold journal_line. rewrite !length_app. cbn. lia. }
  rewrite Hlen in Hb, Ht. cbn in Hb, Ht, Hc. split; [done| | lia | |].
  - intros l Hl. destruct (He l Hl) as [[? _] [Hall Hlast]%Forall_app].
    rewrite Forall_singleton in Hlast. split; [lia | done].
  - intros l Hl. specialize (Ht l Hl). lia.
  - intros l Hl. specialize (Hc l Hl). rewrite length_app in Hc. cbn in Hc.
    case_bool_decide; lia.
Qed.

Lemma read_after_crash limits events v n :
  Forall event_value (events ++ [v]) → fits limits (events ++ [v]) [] →
  let file := journal_of events ++ take n (journal_line v) in
  read_journal_values (Some file) limits
  = Ok (mkJournalScan (kept events v n)
          (mkJournalStats (zlen file) (zlen (kept events v n)))).
Proof.
  intros Hev Hfit file. pose proof Hev as [Hevs Hv]%Forall_app. rewrite Forall_singleton in Hv.
  unfold file, kept. rewrite length_app, Nat2Z.inj_add.
  destruct (take_line_cases v n) as [[Hn ->]|[[Hn ->]|[Hn ->]]].
  - rewrite (proj2 (Nat.ltb_lt _ _)) by lia. apply read_journal; [done | by apply take_torn |].
    eapply fits_prefix; [done|]. rewrite length_take. lia.
  - rewrite (proj2 (Nat.ltb_ge _ _)) by lia.
    rewrite read_journal_unterminated by (done || by eapply fits_prefix).
    do 3 f_equal. rewrite length_app. cbn. lia.
  - rewrite (proj2 (Nat.ltb_ge _ _)) by lia. rewrite <-journal_of_snoc.
    pose proof (read_journal limits (events ++ [v]) [] Hev (or_introl eq_refl) Hfit) as Hr.
    rewrite app_nil_r in Hr. rewrite Hr. do 3 f_equal.
    rewrite journal_of_snoc, length_app. cbn. lia.
Qed.

(** The marker of a clean shutdown. *)
Definition clean_marker (marker : option Marker) : bool :=
  match marker with
  | Some m => bool_decide (marker_bytes m = CLEAN_SHUTDOWN_MAGIC)
  | None => false
  end.

Lemma repair_tail_unmarked marker file tail start :
  clean_marker marker = false →
  repair_tail_at marker file tail start
  = Ok (if forallb is_ascii_whitespace tail then truncate_to file start
        else match from_slice tail with
             | Ok _ => file ++ [NEWLINE]
             | Err _ => truncate_to file start
             end).
Proof.
  intros Hm. unfold repair_tail_at.
  change (match marker with Some m => bool_decide (marker_bytes m = CLEAN_SHUTDOWN_MAGIC)
          | None => false end) with (clean_marker marker).
  rewrite Hm. cbn [andb]. case_if; [done|]. by destruct (from_slice tail).
Qed.
Lemma repair_tail_marked marker file tail start :
  clean_marker marker = true → ∃ e, repair_tail_at marker file tail start = Err e.
Proof.
  intros Hm. unfold repair_tail_at.
  change (match marker with Some m => bool_decide (marker_bytes m = CLEAN_SHUTDOWN_MAGIC)
          | None => false end) with (clean_marker marker).
  rewrite Hm. cbn [andb]. case_if; by eexists.
Qed.

(** What repair does after a cut write: it restores the journal, or refuses. *)
Lemma repair_after_crash marker limits events v n :
  event_value v →
  let file := journal_of events ++ take n (journal_line v) in
  let repaired := repair_truncated_tail_locked marker (Some file) limits in
  let most := saturating_mul U64_MAX (repair_window limits) 16 in
  repaired = Ok (Some (journal_of (kept events v n))) ∨
  (∃ e, repaired = Err e) ∧ (clean_marker marker = true ∨ (most < zlen (to_vec v))%Z).
Proof.
  intros Hv. cbn zeta. unfold kept. pose proof (journal_complete events) as Hc.
  destruct (take_line_cases v n) as [[Hn ->]|[[Hn ->]|[Hn ->]]].
  - rewrite (proj2 (Nat.ltb_lt _ _)) by lia.
    destruct (decide (take n (to_vec v) = [])) as [->|Hne].
    { left. rewrite app_nil_r. by apply repair_complete. }
    pose proof (take_torn v n Hv Hn) as Ht.
    destruct (repair_finds_tail marker (journal_of events) (take n (to_vec v)) limits)
      as [-> |[-> Hbig]]; [done | by apply torn_no_newline | done | |].
    2:{ right. split; [by eexists|]. right. rewrite length_take in Hbig. lia. }
    destruct (clean_marker marker) eqn:Hm.
    { right. split; [|by left]. edestruct repair_tail_marked as [e ->]; [done|]. by eexists. }
    left. rewrite repair_tail_unmarked by done. rewrite torn_not_blank, torn_parse by done.
    unfold truncate_to. rewrite Nat2Z.id, take_app_length. done.
  - rewrite (proj2 (Nat.ltb_ge _ _)) by lia.
    destruct (repair_finds_tail marker (journal_of events) (to_vec v) limits) as [-> |[-> Hbig]];
      [done | by apply to_vec_one_line
       | intros Hz; pose proof (to_vec_brace v Hv) as Hb; by rewrite Hz in Hb | |].
    2:{ right. split; [by eexists|]. by right. }
    destruct (clean_marker marker) eqn:Hm.
    { right. split; [|by left]. edestruct repair_tail_marked as [e ->]; [done|]. by eexists. }
    left. rewrite repair_tail_unmarked by done. rewrite event_not_blank, from_to_vec by done.
    rewrite journal_of_snoc. unfold journal_line. cbn. by rewrite <-app_assoc.
  - left. rewrite (proj2 (Nat.ltb_ge _ _)) by lia. rewrite <-journal_of_snoc.
    apply repair_complete, journal_complete.
Qed.
End recovery.

(** * The last sequence number of a journal

    [read_last_seq_from_file_tail] reads a window at the end of the file,
    falls back to a backward scan for the start of an over-long last line, and
    then to a full scan.  On a journal of ordered events it returns the last
    sequence number, whatever the window is. *)

Definition seq_of (v : value) : option Z := get_u64 (s"seq") v.
(** Every event has a positive number, and the numbers increase. *)
Definition seq_ordered (events : list value) : Prop :=
  ∃ l, Forall2 (λ v n, seq_of v = Some n) events l ∧ StronglySorted Z.lt (0%Z :: l).
Definition last_seq (events : list value) : Z := default 0%Z (last events ≫= seq_of).

Lemma sorted_app_r (l1 l2 : list Z) a :
  StronglySorted Z.lt (a :: l1 ++ l2) → StronglySorted Z.lt (a :: l2).
Proof.
  induction l1 as [|b l1 IH]; cbn; [done|]. intros Hs. apply IH.
  apply StronglySorted_inv in Hs as [Hs Hf]. apply StronglySorted_inv in Hs as [Hs _].
  apply Forall_cons in Hf as [_ Hf]. by constructor.
Qed.
Lemma seq_ordered_suffix events1 events2 : seq_ordered (events1 ++ events2) → seq_ordered events2.
Proof.
  intros (l & Hl & Hs). apply Forall2_app_inv_l in Hl as (l1 & l2 & _ & Hl & ->).
  exists l2. split; [done|]. by eapply sorted_app_r.
Qed.

Lemma foldl_max_sorted a (l : list Z) :
  StronglySorted Z.lt (a :: l) → foldl Z.max a l = default a (last l).
Proof.
  revert a. induction l as [|b l IH]; intros a Hs; [done|].
  apply StronglySorted_inv in Hs as [Hs Hf]. apply Forall_cons in Hf as [Hab Hf].
  cbn [foldl]. rewrite Z.max_r by lia. rewrite IH by done. rewrite last_cons. by destruct (last l).
Qed.

Lemma last_seq_list events l :
  Forall2 (λ v n, seq_of v = Some n) events l → last_seq events = default 0%Z (last l).
Proof.
  intros Hl. unfold last_seq. destruct events as [|v events] using rev_ind.
  { by apply Forall2_nil_inv_l in Hl as ->. }
  apply Forall2_app_inv_l in Hl as (l1 & l2 & _ & Hv & ->).
  apply Forall2_cons_inv_l in Hv as (n & ? & Hn & ->%Forall2_nil_inv_l & ->).
  rewrite !last_snoc. cbn. by rewrite Hn.
Qed.
Lemma last_seq_pos events : seq_ordered events → events ≠ [] → (0 < last_seq events)%Z.
Proof.
  intros (l & Hl & Hs) Hne. rewrite (last_seq_list _ _ Hl).
  apply StronglySorted_inv in Hs as [_ Hf].
  destruct (last l) as [n|] eqn:E; cbn.
  - apply last_Some in E as [l' ->]. apply Forall_app in Hf as [_ Hf].
    by rewrite Forall_singleton in Hf.
  - apply last_None in E as ->. by apply Forall2_nil_inv_r in Hl as ->.
Qed.
Lemma last_seq_suffix events1 events2 :
  events2 ≠ [] → last_seq (events1 ++ events2) = last_seq events2.
Proof.
  intros Hne. unfold last_seq. rewrite last_app. destruct (last events2) eqn:E; [done|].
  by apply last_None in E.
Qed.

Section laws.
Context `{SerdeJsonLaws}.

(** ** The window *)

Lemma split_line line rest :
  NEWLINE ∉ line → split_char NEWLINE (line ++ NEWLINE :: rest) = line :: split_char NEWLINE rest.
Proof.
  induction line as [|b line IH]; intros Hn; cbn; [done|].
  apply not_elem_of_cons in Hn as [Hb Hn]. rewrite (proj2 (Z.eqb_neq _ _)) by congruence.
  by rewrite IH by done.
Qed.
Lemma split_journal events :
  Forall event_value events →
  split_char NEWLINE (journal_of events) = map to_vec events ++ [[]].
Proof.
  induction 1 as [|v events Hv Hev IH]; [done|].
  change (journal_of (v :: events)) with (journal_line v ++ journal_of events).
  unfold journal_line. rewrite <-app_assoc. cbn [app map].
  rewrite split_line by (by apply to_vec_one_line). by rewrite IH.
Qed.

Lemma window_seq_journal events :
  Forall event_value events → seq_ordered events → window_seq (journal_of events) = last_seq events.
Proof.
  intros Hev (l & Hl & Hs). rewrite (last_seq_list _ _ Hl).
  rewrite <-foldl_max_sorted by done.
  unfold window_seq. rewrite split_journal by done. rewrite foldl_app. cbn.
  clear Hs. generalize 0%Z as a. induction Hl as [|v n events l Hn Hl IH]; intros a; [done|].
  apply Forall_cons in Hev as [Hv Hev]. cbn [map foldl].
  destruct (to_vec v) as [|b x] eqn:E.
  { pose proof (to_vec_brace v Hv) as Hb. by rewrite E in Hb. }
  rewrite <-E, from_to_vec by done. unfold seq_of in Hn. rewrite Hn. by apply IH.
Qed.

(** Past the first newline of any suffix of the file, complete lines remain. *)
Lemma suffix_lines events k :
  Forall event_value events →
  ∃ events1 events2, events = events1 ++ events2 ∧
    match position is_newline (drop k (journal_of events)) with
    | Some pos => drop (S pos) (drop k (journal_of events))
    | None => []
    end = journal_of events2.
Proof.
  intros Hev. revert k. induction Hev as [|v events Hv Hev IH]; intros k.
  { exists [], []. split; [done|]. unfold journal_of. cbn. by rewrite drop_nil. }
  destruct (decide (k ≤ length (to_vec v))) as [Hk|Hk].
  - exists [v], events. split; [done|].
    assert (drop k (journal_of (v :: events)) = drop k (to_vec v) ++ NEWLINE :: journal_of events)
      as ->.
    { unfold journal_of. cbn. unfold journal_line at 1. rewrite <-app_assoc.
      by rewrite drop_app_le by done. }
    assert (position is_newline (drop k (to_vec v) ++ NEWLINE :: journal_of events)
            = Some (length (drop k (to_vec v)))) as ->.
    { assert (Hn : NEWLINE ∉ drop k (to_vec v)).
      { intros Hin. apply (to_vec_one_line v Hv). eapply elem_of_submseteq; [done|].
        apply submseteq_drop. }
      induction (drop k (to_vec v)) as [|b x IHx]; [done|].
      apply not_elem_of_cons in Hn as [Hb Hn]. cbn. unfold is_newline at 1.
      rewrite (proj2 (Z.eqb_neq _ _)) by congruence. by rewrite IHx. }
    rewrite drop_app_ge by lia. by rewrite Nat.sub_succ_l, Nat.sub_diag by lia.
  - destruct (IH (k - length (journal_line v))) as (e1 & e2 & -> & Hm).
    exists (v :: e1), e2. split; [done|]. rewrite <-Hm.
    assert (length (journal_line v) ≤ k) as Hlk
      by (unfold journal_line; rewrite length_app; cbn; lia).
    change (journal_of (v :: e1 ++ e2)) with (journal_line v ++ journal_of (e1 ++ e2)).
    by rewrite drop_app_ge by done.
Qed.

(** ** The backward scan *)

Section huge.
Variables (E : bytes) (v : value) (cap : option Z).
Hypothesis (HE : complete_lines E) (Hv : event_value v).
Notation line := (to_vec v).
Notation file := (E ++ line ++ [NEWLINE]).

Lemma single_line_seq q :
  read_single_line_seq file (zlen E) (zlen (E ++ line)) cap = Ok q → seq_of v = Some q.
Proof.
  unfold read_single_line_seq. case_if; [done|]. case_if; [done|]. case_if; [done|].
  assert (read_at file (zlen E) (zlen (E ++ line) - zlen E) = line) as ->.
  { unfold read_at. rewrite Nat2Z.id, drop_app_length, length_app.
    replace (Z.to_nat _) with (length line) by lia. apply take_app_length. }
  rewrite from_to_vec by done. cbn. unfold seq_of.
  destruct (get_u64 _ v); [by intros [= ->] | done].
Qed.

Lemma read_at_line a b :
  (0 ≤ a ≤ b)%Z → (b ≤ zlen (E ++ line))%Z →
  read_at file a (b - a) = read_at (E ++ line) a (b - a).
Proof.
  intros Hab Hb. unfold read_at. rewrite (app_assoc E line [NEWLINE]).
  rewrite drop_app_le by lia. apply take_app_le. rewrite length_drop. lia.
Qed.

(** A window either contains the start of the line or lies inside it. *)
Lemma huge_window a b q (k : result JError Z) :
  (0 ≤ a ≤ b)%Z → (zlen E ≤ b ≤ zlen (E ++ line))%Z →
  (zlen E ≤ a → k = Ok q → seq_of v = Some q)%Z →
  match rposition is_newline (read_at (E ++ line) a (b - a)) with
  | Some pos => read_single_line_seq file (a + Z.of_nat pos + 1) (zlen (E ++ line)) cap
  | None => k
  end = Ok q → seq_of v = Some q.
Proof.
  intros Hab Hb Hk. pose proof (to_vec_one_line v Hv) as Hn.
  destruct (decide (zlen E ≤ a)%Z) as [Hin|Hout].
  - destruct (window_inside E line Hn a b) as [_ ->]; [lia|]. by apply Hk.
  - destruct (window_across E line HE Hn a b) as (pos & -> & -> & _); [lia | lia |].
    apply single_line_seq.
Qed.

Lemma huge_loop_inside fuel cursor scanned q :
  (zlen E ≤ cursor ≤ zlen (E ++ line))%Z → (cursor ≤ Z.of_nat fuel * TAIL_CHUNK)%Z →
  huge_tail_loop fuel file cap cursor scanned (Some (zlen (E ++ line))) = Ok q →
  seq_of v = Some q.
Proof.
  assert (Hzero : (zlen E ≤ 0)%Z → read_single_line_seq file 0 (zlen (E ++ line)) cap = Ok q →
                  seq_of v = Some q).
  { intros Hz Hr. apply single_line_seq. by replace (zlen E) with 0%Z by lia. }
  revert cursor scanned. induction fuel as [|fuel IH]; intros cursor scanned Hc Hfuel.
  { apply Hzero. lia. }
  cbn [huge_tail_loop]. case_if.
  { apply Hzero. apply Z.eqb_eq in E0. lia. }
  apply Z.eqb_neq in E0. set (n := Z.min cursor TAIL_CHUNK).
  assert (0 < n ≤ cursor)%Z by (unfold n, TAIL_CHUNK; lia).
  replace (read_at file (cursor - n) n) with (read_at (E ++ line) (cursor - n) (cursor - (cursor - n)))
    by (rewrite <-read_at_line by lia; f_equal; lia).
  apply huge_window; [lia | lia |]. intros Hin Hk. result_inv Hk. destr_in Hk.
  eapply IH; [| |exact Hk]; unfold n, TAIL_CHUNK in *; lia.
Qed.

Lemma huge_tail_sound fuel q :
  (zlen file ≤ Z.of_nat fuel * TAIL_CHUNK)%Z →
  huge_tail_loop fuel file cap (zlen file) 0 None = Ok q → seq_of v = Some q.
Proof.
  intros Hfuel. assert (Hlen : zlen file = (zlen (E ++ line) + 1)%Z)
    by (rewrite !length_app; cbn; lia).
  pose proof (to_vec_brace v Hv) as Hb. pose proof (to_vec_one_line v Hv) as Hn.
  assert (0 < length line) by (destruct line; [done | cbn; lia]).
  assert (zlen (E ++ line) = zlen E + zlen line)%Z by (rewrite length_app; lia).
  destruct fuel as [|fuel]; [lia|]. cbn [huge_tail_loop].
  rewrite (proj2 (Z.eqb_neq _ _)) by lia. set (n := Z.min (zlen file) TAIL_CHUNK).
  assert (2 ≤ n ≤ zlen file)%Z by (unfold n, TAIL_CHUNK; lia).
  set (a := (zlen file - n)%Z). set (b := zlen (E ++ line)).
  set (w := read_at (E ++ line) a (b - a)).
  assert (Hw : w = drop (Z.to_nat a) (E ++ line)) by (apply read_at_rest; unfold a; lia).
  assert (read_at file a n = w ++ [NEWLINE]) as ->.
  { unfold a. replace n with (zlen file - (zlen file - n))%Z at 2 by lia. fold a.
    rewrite read_at_rest, Hw, (app_assoc E line) by (unfold a; lia).
    apply drop_app_le. unfold a, b in *; lia. }
  assert (trailing_newlines (w ++ [NEWLINE]) = 1) as ->.
  { unfold trailing_newlines. rewrite reverse_snoc. cbn [position]. unfold is_newline at 1. cbn.
    destruct w as [|c w' _] eqn:Ew using rev_ind.
    { apply (f_equal length) in Hw. rewrite length_drop in Hw. cbn in Hw. unfold a, b in *. lia. }
    assert (c ≠ NEWLINE) as Hc.
    { intros ->. apply Hn. assert (last (E ++ line) = Some NEWLINE) as Hl.
      { rewrite <-(take_drop (Z.to_nat a) (E ++ line)), <-Hw, app_assoc. apply last_snoc. }
      rewrite last_app in Hl. destruct (last line) eqn:Ell.
      - injection Hl as ->. apply last_Some in Ell as [l' ->]. set_solver.
      - apply last_None in Ell. rewrite Ell in *. cbn in *. lia. }
    rewrite reverse_snoc. cbn. unfold is_newline. by rewrite (proj2 (Z.eqb_neq _ _)) by done. }
  rewrite length_app. cbn [length]. rewrite Nat.add_sub, take_app_length.
  replace (zlen file - Z.of_nat 1)%Z with b by (unfold b; lia).
  apply huge_window; [unfold a, b; lia | unfold b; lia |]. intros Hin Hk. result_inv Hk.
  destr_in Hk. eapply huge_loop_inside; [| |exact Hk]; unfold a, n, TAIL_CHUNK in *; lia.
Qed.
End huge.

Lemma read_huge_sound events v limits q :
  event_value v →
  read_huge_tail_seq (journal_of (events ++ [v])) (zlen (journal_of (events ++ [v]))) limits = Ok q →
  seq_of v = Some q.
Proof.
  intros Hv. rewrite journal_of_snoc. unfold journal_line, read_huge_tail_seq.
  apply huge_tail_sound; [apply journal_complete | done |].
  set (len := zlen _). pose proof (Z.div_mod len TAIL_CHUNK ltac:(done)).
  pose proof (Z.mod_pos_bound len TAIL_CHUNK ltac:(done)).
  assert (0 ≤ len / TAIL_CHUNK)%Z by (apply Z.div_pos; [lia | done]). nia.
Qed.

(** ** The result *)

Lemma full_scan_journal limits events :
  Forall event_value events → seq_ordered events → fits limits events [] →
  full_scan_seq (journal_of events) limits = Ok (last_seq events).
Proof.
  intros Hev (l & Hl & Hs) Hfit. unfold full_scan_seq.
  pose proof (read_journal limits events [] Hev (or_introl eq_refl) Hfit) as Hr.
  rewrite app_nil_r in Hr. rewrite Hr. cbn [map_err mbind result_bind scan_events].
  rewrite (last_seq_list _ _ Hl).
  assert (Ho : omap (get_u64 (s"seq")) events = l).
  { clear Hs Hev Hfit Hr. induction Hl as [|v n events l Hn Hl IH]; [done|]. cbn.
    unfold seq_of in Hn. by rewrite Hn, IH. }
  destruct Hl as [|v n events l Hn Hl]; [done|]. rewrite Ho.
  apply StronglySorted_inv in Hs as [Hs _]. rewrite foldl_max_sorted by done.
  rewrite last_cons. by destruct (last l).
Qed.

Lemma tail_seq_journal limits events :
  Forall event_value events → seq_ordered events → fits limits events [] →
  read_last_seq_from_file_tail (Some (journal_of events)) limits = Ok (last_seq events).
Proof.
  intros Hev Hord Hfit. cbn zeta beta iota delta [read_last_seq_from_file_tail].
  set (file := journal_of events). case_if.
  { apply Z.eqb_eq in E. destruct events as [|v events]; [done|].
    unfold file in E. rewrite journal_of_cons in E. lia. }
  apply Z.eqb_neq in E. set (window := Z.min (zlen file) _).
  assert (Hw : (0 ≤ window ≤ zlen file)%Z).
  { unfold window. split; [|lia]. apply Z.min_glb; [lia|]. by apply Z.mod_pos_bound. }
  assert (read_at file (zlen file - window) window = drop (Z.to_nat (zlen file - window)) file)
    as ->.
  { replace window with (zlen file - (zlen file - window))%Z at 2 by lia. apply read_at_rest. lia. }
  destruct (0 <? zlen file - window)%Z eqn:E0; cbn [andb].
  2:{ replace (Z.to_nat (zlen file - window)) with 0 by (apply Z.ltb_ge in E0; lia).
      rewrite drop_0. unfold file. by rewrite window_seq_journal. }
  destruct (suffix_lines events (Z.to_nat (zlen file - window)) Hev) as (e1 & e2 & He & Hsuf).
  fold file in Hsuf. rewrite Hsuf.
  assert (Hev2 : Forall event_value e2) by (rewrite He in Hev; by apply Forall_app in Hev as [_ ?]).
  assert (Hord2 : seq_ordered e2) by (rewrite He in Hord; by eapply seq_ordered_suffix).
  rewrite window_seq_journal by done. case_if.
  - destruct (read_huge_tail_seq file (zlen file) limits) as [q|] eqn:Hq.
    + destruct events as [|v events _] using rev_ind; [done|].
      apply Forall_app in Hev as [_ Hv]. rewrite Forall_singleton in Hv.
      apply read_huge_sound in Hq; [|done]. unfold last_seq. rewrite last_snoc. cbn.
      by rewrite Hq.
    + by apply full_scan_journal.
  - f_equal. rewrite He. symmetry. apply last_seq_suffix. intros ->. by apply Z.eqb_neq in E1.
Qed.
End laws.
