(* ===== verification/AuditRules.v ===== *)
(** * Audit policy

    [policy/src/audit.rs]: which record kinds are observations, the audit
    section of a contract, the resolution with a per-run raise and the
    deployment floor, and the bounds of the observation stream. *)

From S2P Require Import Prelude Str BMap Json ValueBag Serde Events RunState RunStateEffect JournalFile.

#[local] Arguments s : simpl never.

Inductive EventClass : Type := Durable | Observation.

Definition OBSERVATION_EVENT_KINDS : list str :=
  [ s"graph_resolved"; s"step_retry"; s"step_replayed"; s"foreach_iteration";
    s"foreach_budget_exhausted"; s"repair_attempt_finished"; s"regenerate_attempt_finished";
    s"llm_delta"; s"agent_delegated"; s"agent_completed"; s"agent_failed"; s"agent_handoff";
    s"context_compacted"; s"llm_validation_failed"; s"llm_route_failed"; s"tool_call";
    s"guardrail_evaluated"; s"guardrail_error"; s"guardrail_tripwire"; s"tool_backend_resolved";
    s"user_interaction"; s"out_of_contract"; s"side_effect"; s"dry_run"; s"artifact" ].

Definition event_class (kind : str) : EventClass :=
  if existsb (str_eqb kind) OBSERVATION_EVENT_KINDS then Observation else Durable.

Inductive AuditMode : Type := AuditFull | AuditDigest | AuditOff.
#[global] Instance audit_mode_eq_dec : EqDecision AuditMode.
Proof. solve_decision. Defined.

Inductive AuditLevel : Type := LevelStandard | LevelMinimal.
#[global] Instance audit_level_eq_dec : EqDecision AuditLevel.
Proof. solve_decision. Defined.
Definition level_default_mode (l : AuditLevel) : AuditMode :=
  match l with LevelStandard => AuditFull | LevelMinimal => AuditOff end.

Inductive AuditFloor : Type := FloorMinimal | FloorStandard.
#[global] Instance audit_floor_eq_dec : EqDecision AuditFloor.
Proof. solve_decision. Defined.

Record AuditConfig : Type := mkAuditConfig {
  ac_level : AuditLevel;
  ac_classes : bmap AuditMode;
  ac_max_bytes : option Z;
  ac_max_events : option Z;
  ac_max_tool_value_bytes : option Z;
}.
Record AuditPolicy : Type := mkAuditPolicy {
  ap_default_mode : AuditMode;
  ap_classes : bmap AuditMode;
}.
Definition audit_policy_default : AuditPolicy := mkAuditPolicy AuditFull [].

Definition TOOL_EVENT_VALUE_LIMIT_BYTES : Z := 32 * 1024.
Definition DEFAULT_MAX_AUDIT_TOTAL_BYTES : Z := 64 * 1024 * 1024.

Definition keep_full (classes : bmap AuditMode) : bmap AuditMode :=
  bm_retain (λ _ mode, bool_decide (mode = AuditFull)) classes.

(** [AuditFloor::apply] and [AuditPolicy::apply_floor]. *)
Definition floor_apply (floor : AuditFloor) (p : AuditPolicy) : AuditPolicy :=
  if bool_decide (floor = FloorStandard)
  then mkAuditPolicy AuditFull (keep_full (ap_classes p)) else p.

(** [AuditConfig::tool_event_value_limit_bytes]. *)
Definition tool_event_value_limit_bytes (c : AuditConfig) : Z :=
  Z.min (default TOOL_EVENT_VALUE_LIMIT_BYTES (ac_max_tool_value_bytes c))
        TOOL_EVENT_VALUE_LIMIT_BYTES.

(** [AuditConfig::apply_floor]. *)
Definition config_apply_floor (c : AuditConfig) (floor : AuditFloor) : AuditConfig :=
  if bool_decide (floor = FloorStandard)
  then mkAuditConfig LevelStandard (keep_full (ac_classes c)) (ac_max_bytes c) (ac_max_events c)
         (ac_max_tool_value_bytes c)
  else c.

(** [AuditConfig::apply_raise]. *)
Definition apply_raise (c : AuditConfig) (raise : option AuditLevel) : AuditConfig :=
  if bool_decide (raise = Some LevelStandard) && bool_decide (ac_level c = LevelMinimal)
  then mkAuditConfig LevelStandard (ac_classes c) (ac_max_bytes c) (ac_max_events c)
         (ac_max_tool_value_bytes c)
  else c.

Definition resolve_effective_audit (c : AuditConfig) (raise : option AuditLevel)
    (floor : AuditFloor) : AuditConfig :=
  config_apply_floor (apply_raise c raise) floor.

(** The errors of [AuditPolicy::from_config]. *)
Inductive audit_error : Type :=
| AuditMaxBytes | AuditMaxEvents | AuditMaxToolValue | AuditDurableClass (kind : str).

Definition out_of_range (value : option Z) (max : Z) : bool :=
  match value with Some v => (v =? 0)%Z || (max <? v)%Z | None => false end.

Definition policy_from_config (c : AuditConfig) : result audit_error AuditPolicy :=
  if out_of_range (ac_max_bytes c) DEFAULT_MAX_AUDIT_TOTAL_BYTES then Err AuditMaxBytes
  else if out_of_range (ac_max_events c) DEFAULT_MAX_JOURNAL_EVENT_COUNT then Err AuditMaxEvents
  else if out_of_range (ac_max_tool_value_bytes c) TOOL_EVENT_VALUE_LIMIT_BYTES
  then Err AuditMaxToolValue
  else
    _ ← foldM (λ _ kind,
                match event_class kind with
                | Durable => Err (AuditDurableClass kind)
                | Observation => Ok ()
                end) () (bm_keys (ac_classes c));
    Ok (mkAuditPolicy (level_default_mode (ac_level c)) (ac_classes c)).

Definition mode_for (p : AuditPolicy) (kind : str) : AuditMode :=
  default (ap_default_mode p) (bm_get kind (ap_classes p)).
Definition audit_is_full (p : AuditPolicy) : bool :=
  bool_decide (ap_default_mode p = AuditFull)
  && forallb (λ mode, bool_decide (mode = AuditFull)) (bm_values (ap_classes p)).

Record AuditLimits : Type := mkAuditLimits {
  al_max_event_bytes : option Z;
  al_max_total_bytes : option Z;
  al_max_event_count : option Z;
}.
(** [AuditLimits::from_config]. *)
Definition audit_limits_from_config (c : AuditConfig) : AuditLimits :=
  mkAuditLimits (Some DEFAULT_MAX_JOURNAL_EVENT_BYTES)
    (Some (Z.min (default DEFAULT_MAX_AUDIT_TOTAL_BYTES (ac_max_bytes c))
             DEFAULT_MAX_AUDIT_TOTAL_BYTES))
    (Some (Z.min (default DEFAULT_MAX_JOURNAL_EVENT_COUNT (ac_max_events c)) DEFAULT_MAX_JOURNAL_EVENT_COUNT)).
(** [AuditLimits::validate]. *)
Definition audit_limits_validate (l : AuditLimits) : result str () :=
  foldM (λ _ '(resource, limit),
           if bool_decide (limit = Some 0%Z) then Err resource else Ok ()) ()
    [(s"audit max_bytes", al_max_total_bytes l); (s"audit max_events", al_max_event_count l)].

(** ** Properties *)

(** What a mode keeps of a record. *)
Definition mode_rank (m : AuditMode) : nat :=
  match m with AuditOff => 0 | AuditDigest => 1 | AuditFull => 2 end.
Definition contract_mode (c : AuditConfig) (kind : str) : AuditMode :=
  mode_for (mkAuditPolicy (level_default_mode (ac_level c)) (ac_classes c)) kind.

Lemma keep_full_get classes kind :
  bm_sorted classes →
  bm_get kind (keep_full classes)
  = match bm_get kind classes with Some AuditFull => Some AuditFull | _ => None end.
Proof.
  intros Hs. unfold keep_full. rewrite bm_get_retain by done.
  destruct (bm_get kind classes) as [[]|]; done.
Qed.

Lemma keep_full_idemp classes : keep_full (keep_full classes) = keep_full classes.
Proof.
  unfold keep_full, bm_retain. induction classes as [|[k m] classes IH]; [done|]. cbn.
  destruct (bool_decide (m = AuditFull)) eqn:E; cbn; rewrite ?E, ?IH; done.
Qed.
Lemma keep_full_keys classes kind : kind ∈ bm_keys (keep_full classes) → kind ∈ bm_keys classes.
Proof.
  unfold keep_full, bm_retain, bm_keys. induction classes as [|[k m] classes IH]; [done|]. cbn.
  destruct (bool_decide (m = AuditFull)); cbn; rewrite !elem_of_cons; naive_solver.
Qed.

(** What [policy_from_config] accepts. *)
Definition ranges_ok (c : AuditConfig) : bool :=
  negb (out_of_range (ac_max_bytes c) DEFAULT_MAX_AUDIT_TOTAL_BYTES)
  && negb (out_of_range (ac_max_events c) DEFAULT_MAX_JOURNAL_EVENT_COUNT)
  && negb (out_of_range (ac_max_tool_value_bytes c) TOOL_EVENT_VALUE_LIMIT_BYTES).
Lemma policy_from_config_ok c p :
  policy_from_config c = Ok p ↔
  ranges_ok c = true ∧ (∀ k, k ∈ bm_keys (ac_classes c) → event_class k = Observation) ∧
  p = mkAuditPolicy (level_default_mode (ac_level c)) (ac_classes c).
Proof.
  unfold policy_from_config, ranges_ok.
  destruct (out_of_range _ _); [naive_solver|]. destruct (out_of_range _ _); [naive_solver|].
  destruct (out_of_range _ _); [naive_solver|]. cbn [negb andb].
  rewrite <-(foldM_unit_ok (E := audit_error) (λ k, event_class k = Observation)
    (λ _ kind, match event_class kind with
               | Durable => Err (AuditDurableClass kind) | Observation => Ok () end)).
  - rewrite result_bind_Ok. split.
    + intros ([] & Hf & [= <-]). done.
    + intros (_ & Hf & ->). by exists ().
  - intros _ k. destruct (event_class k); naive_solver.
Qed.

(** raising and flooring an audit configuration only tightens it.  For
    every record kind the effective mode keeps at least what the contract's
    mode keeps, the deployment floor [Standard] makes every kind [Full],
    resolving again changes nothing, and a configuration accepted before is
    accepted after with the same bounds. *)
Theorem audit_only_tightens c raise floor kind :
  bm_sorted (ac_classes c) →
  let c' := resolve_effective_audit c raise floor in
  mode_rank (contract_mode c kind) ≤ mode_rank (contract_mode c' kind) ∧
  (floor = FloorStandard → contract_mode c' kind = AuditFull) ∧
  resolve_effective_audit c' raise floor = c' ∧
  (∀ p, policy_from_config c = Ok p →
     ∃ p', policy_from_config c' = Ok p' ∧ mode_for p' kind = contract_mode c' kind ∧
           audit_limits_from_config c' = audit_limits_from_config c ∧
           floor_apply floor p' = p').
Proof.
  intros Hs c'. assert (Hkeys : ∀ k, k ∈ bm_keys (ac_classes c') → k ∈ bm_keys (ac_classes c)).
  { intros k. unfold c', resolve_effective_audit, config_apply_floor, apply_raise.
    case_if; case_if; cbn; try done; apply keep_full_keys. }
  assert (Hcls : ac_classes c' = if bool_decide (floor = FloorStandard)
                                 then keep_full (ac_classes c) else ac_classes c).
  { unfold c', resolve_effective_audit, config_apply_floor, apply_raise.
    by case_bool_decide; case_if. }
  split_and!.
  - clear Hcls Hkeys. unfold contract_mode, mode_for, c', resolve_effective_audit,
      config_apply_floor, apply_raise. destruct c as [level classes ? ? ?]; cbn in Hs.
    destruct level, raise as [[]|], floor; repeat (case_bool_decide; try done); cbn;
      rewrite ?keep_full_get by done; destruct (bm_get kind classes) as [[]|]; cbn; lia.
  - intros ->. unfold contract_mode, mode_for. cbn [ap_classes ap_default_mode].
    rewrite Hcls, bool_decide_true, keep_full_get by done.
    unfold c', resolve_effective_audit, config_apply_floor. rewrite bool_decide_true by done.
    by destruct (bm_get kind (ac_classes c)) as [[]|].
  - unfold c', resolve_effective_audit, config_apply_floor, apply_raise.
    destruct floor, raise as [[]|], c as [[]]; repeat (case_bool_decide; try done); cbn;
      repeat (case_bool_decide; try done); cbn; rewrite ?keep_full_idemp; done.
  - intros p (Hr & Hobs & ->)%policy_from_config_ok. eexists. split_and!.
    + apply policy_from_config_ok. split_and!; [|by eauto|done].
      unfold c', resolve_effective_audit, config_apply_floor, apply_raise. by repeat case_if.
    + done.
    + unfold c', resolve_effective_audit, config_apply_floor, apply_raise. by repeat case_if.
    + unfold floor_apply. cbn [ap_classes]. rewrite Hcls. case_bool_decide as Hf; [|done].
      unfold c', resolve_effective_audit, config_apply_floor.
      by rewrite bool_decide_true, keep_full_idemp by done.
Qed.

(** The gateway promotes this kind when it bears a liability. *)
Definition promoted_kind : str := s"llm_route_failed".

(** An audit policy cannot change what a journal means.  An observation
    record that did reach the fold would change nothing but the sequence
    number; the one exception is [llm_route_failed], which may note an
    unresolved search cost and nothing else. *)
Theorem observations_bear_no_state `{WireTypes} st st' kind event :
  event_class kind = Observation → get_str (s"t") event = Some kind → apply st event = Ok st' →
  ∃ unresolved,
    st' = st <| rs_last_seq := default (rs_last_seq st) (get_u64 (s"seq") event) |>
             <| rs_budget := rs_budget st <| bs_unresolved_search_cost := unresolved |> |> ∧
    (kind ≠ promoted_kind → unresolved = bs_unresolved_search_cost (rs_budget st)).
Proof.
  intros Hc Ht Ha. apply apply_arm with (kind := kind) in Ha; [|done].
  unfold event_class in Hc. destruct (existsb _ _) eqn:Ho in Hc; [|done].
  assert (Hk : ∀ s1, apply_kind s1 kind event = Ok s1).
  { intros s1. apply existsb_exists in Ho as (k & Hin & ->%str_eqb_eq).
    repeat destruct Hin as [<-|Hin]; [reflexivity..|]. done. }
  rewrite Hk in Ha. injection Ha as <-. unfold note_search_cost.
  destruct (kind_in kind _) eqn:Ek.
  - eexists. split; [reflexivity|]. intros Hne.
    apply kind_in_elem in Ek. apply elem_of_cons in Ek as [-> |Ek%list_elem_of_singleton]; [|done].
    by vm_compute in Ho.
  - exists (bs_unresolved_search_cost (rs_budget st)). split; [|done].
    destruct st as [? ? ? ? ? ? ? ? ? ? ? ? ? ? ? ? b]. by destruct b.
Qed.
