(* ===== verification/JournalWriter.v ===== *)
(** * The journal writer

    [engine/src/journal/writer.rs] and [journal_metrics] of [read.rs]: a
    writer that appends durable and observation records, and the appends of
    control paths that have no writer.  The state of the run directory is
    passed explicitly; other processes act on the same [Disk] between calls,
    because every call holds the journal lock from repair to persist.

    What a write did is the argument [write_outcome]; the other system calls
    (opening, truncation, [fsync], the atomic publication of [state.json], the
    marker) are taken to succeed.  Clock readings are arguments.  Mirrored and
    broadcast events are the returned ones. *)

From S2P Require Import Prelude Str BMap Json Serde Events ValueBag RunState JournalFile TraceIds AuditRules.

#[local] Arguments s : simpl never.

(** The derived codec of [RunState]. *)
Class StateCodec `{WireTypes} := {
  ser_state : RunState → list bytes * option json_category;
  de_state : bytes → option RunState;
}.

(** A reading of the clock: the current timestamp, and the milliseconds since
    a timestamp, [None] when it does not parse. *)
Record Clock : Type := mkClock { now : str; ms_since : str → option Z }.

Definition disk_eta (d : Disk) : Disk :=
  mkDisk (dk_journal d) (dk_audit d) (dk_state d) (dk_marker d).
#[global] Instance set_dk_journal : Setter dk_journal := ltac:(derive_setter disk_eta dk_journal).
#[global] Instance set_dk_audit : Setter dk_audit := ltac:(derive_setter disk_eta dk_audit).
#[global] Instance set_dk_state : Setter dk_state := ltac:(derive_setter disk_eta dk_state).
#[global] Instance set_dk_marker : Setter dk_marker := ltac:(derive_setter disk_eta dk_marker).

Section writer.
Context {W : WireTypes}.

Record JournalWriter : Type := mkJournalWriter {
  jw_run_id : str;
  jw_state : RunState;
  jw_limits : JournalLimits;
  jw_stats : JournalStats;
  jw_floor_len : option Z;
  jw_audit_policy : AuditPolicy;
  jw_audit_limits : AuditLimits;
  jw_audit_stats : option JournalStats;
  jw_audit_degraded : bool;
}.
Definition journal_writer_eta (w : JournalWriter) : JournalWriter :=
  mkJournalWriter (jw_run_id w) (jw_state w) (jw_limits w) (jw_stats w) (jw_floor_len w)
    (jw_audit_policy w) (jw_audit_limits w) (jw_audit_stats w) (jw_audit_degraded w).
#[global] Instance set_jw_state : Setter jw_state := ltac:(derive_setter journal_writer_eta jw_state).
#[global] Instance set_jw_stats : Setter jw_stats := ltac:(derive_setter journal_writer_eta jw_stats).
#[global] Instance set_jw_floor_len : Setter jw_floor_len := ltac:(derive_setter journal_writer_eta jw_floor_len).
#[global] Instance set_jw_audit_stats : Setter jw_audit_stats := ltac:(derive_setter journal_writer_eta jw_audit_stats).
#[global] Instance set_jw_audit_degraded : Setter jw_audit_degraded := ltac:(derive_setter journal_writer_eta jw_audit_degraded).

Context {S : SerdeJson} {C : StateCodec} {H : Sha256}.

(** ** Schema of a persisted state *)

(** [ensure_supported_state_schema]. *)
Definition ensure_supported_state_schema (contents : bytes) : result JError () :=
  match from_slice contents with
  | Ok v =>
      match get (s"schema_version") v with
      | Some (VNumber version) =>
          if match num_as_u64 version with
             | Some version => (RUN_STATE_SCHEMA_VERSION <? version)%Z
             | None => f64_leb (f64_of_Z U64_MAX) (num_as_f64 version)
             end
          then Err (JInvalid UnsupportedStateSchema) else Ok ()
      | _ => Ok ()
      end
  | Err _ => Ok ()
  end.

(** [RunState::fold_journal_through_with_limits] and
    [fold_journal_with_limits]. *)
Definition fold_journal_through_with_limits (file : option bytes) (through : option Z)
    (limits : JournalLimits) : result JError RunState :=
  scan ← read_journal_values_through file through limits;
  map_err JFold (fold_through through state_default (scan_events scan)).
Definition fold_journal_with_limits (file : option bytes) (limits : JournalLimits) :
    result JError RunState :=
  fold_journal_through_with_limits file None limits.

(** [resync_durable_state]. *)
Definition resync_durable_state (d : Disk) (limits : JournalLimits) (durable_seq : Z) :
    result JError RunState :=
  match dk_state d with
  | Some contents =>
      _ ← ensure_supported_state_schema contents;
      match de_state contents with
      | Some persisted =>
          if (rs_schema_version persisted =? RUN_STATE_SCHEMA_VERSION)%Z
             && (rs_last_seq persisted =? durable_seq)%Z
          then Ok persisted
          else fold_journal_with_limits (dk_journal d) limits
      | None => fold_journal_with_limits (dk_journal d) limits
      end
  | None => fold_journal_with_limits (dk_journal d) limits
  end.

(** ** Metrics of terminal records *)

Definition vnum (n : Z) : value := VNumber (PosInt n).
Definition journal_metrics (clock : Clock) (b : BudgetState) : result JError value :=
  started_at ← ok_or (bs_started_at b) (JInvalid StartTimeRequired);
  duration ← ok_or (ms_since clock started_at) (JInvalid InvalidStartTime);
  duration_ms ← (if (duration <? 0)%Z then Err (JInvalid StartAfterFinish) else Ok duration);
  total ← ok_or (checked_add U64_MAX (bs_tokens_input b) (bs_tokens_output b))
            (JInvalid TokenTotalOverflowed);
  Ok (VObject (bm_of_list
    [ (s"steps_total", vnum (bs_steps_executed b));
      (s"steps_succeeded", vnum (bs_steps_succeeded b));
      (s"steps_failed", vnum (bs_steps_failed b));
      (s"steps_skipped", vnum (bs_steps_skipped b));
      (s"repair_attempts", vnum (bs_repair_attempts b));
      (s"regenerate_attempts", vnum (bs_regenerate_attempts b));
      (s"llm_calls", vnum (bs_llm_calls b));
      (s"tokens_input", vnum (bs_tokens_input b));
      (s"tokens_output", vnum (bs_tokens_output b));
      (s"tokens_cached_input", vnum (bs_tokens_cached_input b));
      (s"tokens_cache_creation_input", vnum (bs_tokens_cache_creation_input b));
      (s"steps_executed", vnum (bs_steps_executed b));
      (s"budget_charged", vnum (bs_budget_charged b));
      (s"tokens_total", vnum total);
      (s"cost_microusd", vnum (bs_cost_microusd b));
      (s"duration_ms", vnum duration_ms) ])).

(** ** The envelope *)

(** A payload that is not an object is wrapped. *)
Definition payload_object (v : value) : bmap value :=
  match v with VObject m => m | _ => [(s"value", v)] end.

Definition stamp (kind ts run_id : str) (seq : Z) (m : bmap value) : bmap value :=
  let m := bm_insert (s"t") (VString kind) m in
  let m := bm_insert (s"ts") (VString ts) m in
  let m := bm_insert (s"seq") (vnum seq) m in
  let m := bm_insert (s"run_id") (VString run_id) m in
  let m := bm_insert (s"trace_id") (VString (trace_id_for_run run_id)) m in
  bm_insert (s"span_id") (VString (span_id_for_seq seq)) m.
Definition stamp_parent (run_id : str) (m : bmap value) : bmap value :=
  let parent_scope :=
    match bm_get (s"node") m ≫= as_str with
    | Some node => s"step:" ++ node
    | None => s"run"
    end in
  bm_insert (s"parent_span_id") (VString (span_id_for_scope run_id parent_scope)) m.

Definition check_payload_run (run_id : str) (m : bmap value) : result JError () :=
  match bm_get (s"run_id") m ≫= as_str with
  | Some found =>
      if found =s run_id then Ok () else Err (JInvalid (EventRunIdMismatch run_id found))
  | None => Ok ()
  end.

Definition audit_read_limits (l : AuditLimits) : JournalLimits :=
  mkJournalLimits (al_max_event_bytes l) (al_max_total_bytes l) (al_max_event_count l) None None.
Definition audit_append_limits (l : AuditLimits) : JournalLimits := audit_read_limits l.

Definition next_seq (a : Z) : result JError Z :=
  ok_or (checked_add U64_MAX a 1) (JInvalid SeqOverflowed).

Definition ser_ok (v : value) : list bytes * option json_category := (ser_value v, None).
Definition decode_event (v : value) : result JError RunEvent :=
  map_err (λ e, JInvalid (BadJournalEvent e)) (from_flat v).

(** ** The writer

    A computation over the run directory and the writer: both are kept as
    they are when it fails. *)
Definition WM (A : Type) : Type := Disk → JournalWriter → Disk * JournalWriter * result JError A.
#[global] Instance wm_ret : MRet WM := λ A x d w, (d, w, Ok x).
#[global] Instance wm_bind : MBind WM := λ A B k m d w,
  match m d w with
  | (d, w, Ok x) => k x d w
  | (d, w, Err e) => (d, w, Err e)
  end.
Definition lift {A} (r : result JError A) : WM A := λ d w, (d, w, r).
Definition the_disk : WM Disk := λ d w, (d, w, Ok d).
Definition the_writer : WM JournalWriter := λ d w, (d, w, Ok w).
Definition put_disk (f : Disk → Disk) : WM () := λ d w, (f d, w, Ok ()).
Definition put_writer (f : JournalWriter → JournalWriter) : WM () := λ d w, (d, f w, Ok ()).

(** [std::fs::metadata(..)?.len()]. *)
Definition file_len (file : option bytes) : result JError Z :=
  match file with Some b => Ok (zlen b) | None => Err JIo end.

(** Repair under the lock. *)
Definition repair_journal : WM () :=
  d ← the_disk;
  w ← the_writer;
  file ← lift (repair_truncated_tail_locked (dk_marker d) (dk_journal d) (jw_limits w));
  put_disk (λ d, d <| dk_journal := file |>).
Definition repair_audit : WM () :=
  d ← the_disk;
  w ← the_writer;
  file ← lift (repair_truncated_tail_locked (dk_marker d) (dk_audit d) (jw_limits w));
  put_disk (λ d, d <| dk_audit := file |>).

(** The truncation check and the resynchronization with what peers wrote. *)
Definition resync_writer : WM Z :=
  d ← the_disk;
  w ← the_writer;
  repaired_len ← lift (file_len (dk_journal d));
  _ ← lift match jw_floor_len w with
           | Some min_len =>
               if (repaired_len <? min_len)%Z then Err (JInvalid TruncatedOutsideLock) else Ok ()
           | None => Ok ()
           end;
  durable_seq ← lift (read_last_seq_from_tail d (jw_limits w));
  _ ← (if (rs_last_seq (jw_state w) <? durable_seq)%Z then
         st ← lift (resync_durable_state d (jw_limits w) durable_seq);
         put_writer (λ w, w <| jw_state := st |>
                            <| jw_stats := mkJournalStats repaired_len (rs_last_seq st) |>)
       else mret ());
  mret durable_seq.

Definition recover_audit_seq : WM () :=
  d ← the_disk;
  w ← the_writer;
  match read_last_seq_from_file_tail (dk_audit d) (audit_read_limits (jw_audit_limits w)) with
  | Ok audit_tail =>
      put_writer (λ w, w <| jw_state := jw_state w <|
        rs_audit_seq := Z.max (rs_audit_seq (jw_state w)) audit_tail |> |>)
  | Err _ => put_writer (λ w, w <| jw_audit_degraded := true |>)
  end.

Definition append_journal (out : write_outcome) (line : bytes) : WM () := λ d w,
  match dk_journal d with
  | None => (d, w, Err JIo)
  | Some file =>
      let '(file, stats, r) :=
        append_serialized_json_line out file line (jw_stats w) (jw_limits w) in
      (d <| dk_journal := Some file |>, w <| jw_stats := stats |>, r)
  end.

(** The state persisted, the checkpoint advanced, the marker set or cleared. *)
Definition commit (kind : str) (next : RunState) (state_bytes : bytes) : WM () :=
  _ ← put_writer (λ w, w <| jw_state := next |>);
  _ ← put_disk (λ d, d <| dk_state := Some state_bytes |>);
  d ← the_disk;
  appended_len ← lift (file_len (dk_journal d));
  _ ← put_writer (λ w, w <| jw_floor_len := Some appended_len |>);
  put_disk (λ d, d <| dk_marker :=
    (if is_terminal_event_kind kind then write_clean_shutdown_marker
     else clear_clean_shutdown_marker) (dk_marker d) |>).

(** A terminal record carries the metrics of the run, where they compute. *)
Definition with_metrics (clock : Clock) (b : BudgetState) (kind : str) (object : bmap value) :
    bmap value :=
  if is_terminal_event_kind kind then
    match journal_metrics clock b with
    | Ok metrics => bm_insert (s"metrics") metrics object
    | Err _ => object
    end
  else object.

(** The object of a durable record before it is stamped. *)
Definition durable_payload (clock : Clock) (w : JournalWriter) (kind : str)
    (payload : list bytes * option json_category) : result JError (bmap value) :=
  contents ← serialize_bounded payload (max_event_bytes (jw_limits w)) (s"event");
  v ← map_err JJson (from_slice contents);
  Ok (with_metrics clock (rs_budget (jw_state w)) kind (payload_object v)).

(** The record as it is written. *)
Definition durable_record (clock : Clock) (kind run_id : str) (seq : Z) (object : bmap value) : value :=
  let object := stamp kind (now clock) run_id seq object in
  VObject (if kind_in kind [s"run_queued"; s"run_started"] then object
           else stamp_parent run_id object).

(** [durable_event]. *)
Definition durable_event (clock : Clock) (out : write_outcome) (kind : str)
    (payload : list bytes * option json_category) : WM RunEvent :=
  w ← the_writer;
  object ← lift (durable_payload clock w kind payload);
  _ ← repair_journal;
  durable_seq ← resync_writer;
  _ ← recover_audit_seq;
  w ← the_writer;
  let st := jw_state w in
  seq ← lift (next_seq (Z.max (Z.max (rs_last_seq st) (rs_audit_seq st)) durable_seq));
  _ ← lift (check_payload_run (jw_run_id w) object);
  let v := durable_record clock kind (jw_run_id w) seq object in
  event ← lift (decode_event v);
  next ← lift (map_err JFold (apply st v));
  state_bytes ← lift (serialize_bounded (ser_state next) (max_state_bytes (jw_limits w)) (s"state"));
  line ← lift (serialize_bounded (ser_ok v) (max_event_bytes (jw_limits w)) (s"event"));
  _ ← append_journal out line;
  _ ← commit kind next state_bytes;
  mret event.

(** [audit_digest]. *)
Fixpoint digest_strings (v : value) : value :=
  match v with
  | VString text => VString (s"sha256:" ++ sha256_hex text)
  | VArray items => VArray (map digest_strings items)
  | VObject m => VObject (map (λ '(k, v), (k, digest_strings v)) m)
  | _ => v
  end.

(** The part of [observation_event] under the lock: the event and what the
    append to the observation stream returned. *)
Definition observation_record (clock : Clock) (out : write_outcome) (kind : str) (object : bmap value) :
    WM (RunEvent * result JError ()) :=
  _ ← repair_audit;
  w ← the_writer;
  let st := jw_state w in
  seq ← lift (next_seq (Z.max (rs_last_seq st) (rs_audit_seq st)));
  let v := VObject (stamp_parent (jw_run_id w)
                      (stamp kind (now clock) (jw_run_id w) seq object)) in
  event ← lift (decode_event v);
  line ← lift (serialize_bounded (ser_ok v) (al_max_event_bytes (jw_audit_limits w))
                 (s"audit event"));
  d ← the_disk;
  let '(file, stats, r) :=
    append_serialized_json_line out (default [] (dk_audit d)) line
      (default journal_stats_default (jw_audit_stats w))
      (audit_append_limits (jw_audit_limits w)) in
  _ ← put_disk (λ d, d <| dk_audit := Some file |>);
  _ ← put_writer (λ w,
        match r with
        | Ok _ => w <| jw_state := jw_state w <| rs_audit_seq := seq |> |>
                    <| jw_audit_stats := Some stats |>
        | Err _ => w <| jw_audit_stats := None |>
        end);
  mret (event, r).

Definition degrade_reason (e : JError) : str :=
  match e with
  | JLimitExceeded _ _ _ | JEventCountExceeded _ _ => s"limit"
  | _ => s"write_failure"
  end.

(** [observation_event]: [None] when the policy filters the record. *)
Definition observation_event (clock : Clock) (out out_degraded : write_outcome) (kind : str)
    (payload : list bytes * option json_category) : WM (option RunEvent) :=
  w ← the_writer;
  if bool_decide (mode_for (jw_audit_policy w) kind = AuditOff) || jw_audit_degraded w
  then mret None
  else
    contents ← lift (serialize_bounded payload (max_event_bytes (jw_limits w)) (s"event"));
    v ← lift (map_err JJson (from_slice contents));
    let v := VObject (payload_object v) in
    let v := if bool_decide (mode_for (jw_audit_policy w) kind = AuditDigest)
             then digest_strings v else v in
    '(event, outcome) ← observation_record clock out kind (payload_object v);
    _ ← match outcome with
        | Ok _ => mret ()
        | Err e =>
            w ← the_writer;
            _ ← put_writer (λ w, w <| jw_audit_degraded := true |>);
            if jw_audit_degraded w then mret ()
            else
              _ ← durable_event clock out_degraded (s"audit_degraded")
                    (ser_ok (VObject (bm_of_list
                      [(s"reason", VString (degrade_reason e)); (s"record", VString kind)])));
              mret ()
        end;
    mret (Some event).

(** [JournalWriter::event]. *)
Definition writer_event (clock : Clock) (out out_degraded : write_outcome) (kind : str)
    (payload : list bytes * option json_category) : WM (option RunEvent) :=
  match event_class kind with
  | Observation => observation_event clock out out_degraded kind payload
  | Durable => event ← durable_event clock out kind payload; mret (Some event)
  end.

(** ** Opening a writer *)

(** The fold of [create_with_policies]. *)
Definition fold_scanned (events : list value) : result JError RunState :=
  foldM (λ st event, _ ← decode_event event; map_err JFold (apply st event)) state_default events.

(** The loop the constructor runs once the files are repaired. *)
Definition open_writer (run_id : str) (limits : JournalLimits) (audit_policy : AuditPolicy)
    (audit_limits : AuditLimits) (journal : bytes) (audit : option bytes) :
    result JError (JournalWriter * bytes) :=
  scan ← read_journal_values (Some journal) limits;
  st ← fold_scanned (scan_events scan);
  _ ← match rs_run_id st with
      | Some existing =>
          if existing =s run_id then Ok () else Err (JInvalid (RunIdMismatch run_id existing))
      | None => Ok ()
      end;
  let audit_scan := read_journal_values audit (audit_read_limits audit_limits) in
  let audit_tail := read_last_seq_from_file_tail audit (audit_read_limits audit_limits) in
  let st := st <| rs_run_id := Some run_id |>
               <| rs_audit_seq := match audit_tail with Ok tail => tail | Err _ => 0%Z end |> in
  state_bytes ← serialize_bounded (ser_state st) (max_state_bytes limits) (s"state");
  Ok (mkJournalWriter run_id st limits (scan_stats scan) None audit_policy audit_limits
        match audit_scan with Ok scan => Some (scan_stats scan) | Err _ => None end
        (negb (is_ok audit_scan) || negb (is_ok audit_tail)),
      state_bytes).

(** [create_with_policies]. *)
Definition create_with_policies (d : Disk) (run_id : str) (limits : JournalLimits)
    (audit_policy : AuditPolicy) (audit_limits : AuditLimits) : Disk * result JError JournalWriter :=
  match
    _ ← validate_limits limits;
    _ ← map_err JInvalidLimit (audit_limits_validate audit_limits);
    _ ← (if bool_decide (trim run_id = []) then Err (JInvalid EmptyRunId) else Ok ());
    match dk_state d with
    | Some contents => ensure_supported_state_schema contents
    | None => Ok ()
    end
  with
  | Err e => (d, Err e)
  | Ok _ =>
      match repair_truncated_tail_locked (dk_marker d) (dk_journal d) limits with
      | Err e => (d, Err e)
      | Ok journal =>
          let d := d <| dk_journal := journal |> in
          match repair_truncated_tail_locked (dk_marker d) (dk_audit d) limits with
          | Err e => (d, Err e)
          | Ok audit =>
              let journal := default [] (dk_journal d) in
              let d := d <| dk_audit := audit |> <| dk_journal := Some journal |> in
              match open_writer run_id limits audit_policy audit_limits journal audit with
              | Err e => (d, Err e)
              | Ok (w, state_bytes) => (d <| dk_state := Some state_bytes |>, Ok w)
              end
          end
      end
  end.

(** ** Appends without a writer *)

(** The loop over the batch: the file, the state and the result. *)
Fixpoint append_loop (ts : nat → str) (outs : nat → write_outcome) (run_id : str)
    (limits : JournalLimits) (i : nat) (file : bytes) (stats : JournalStats) (st : RunState)
    (appended : list RunEvent) (batch : list (str * bmap value)) :
    bytes * RunState * result JError (list RunEvent) :=
  match batch with
  | [] => (file, st, Ok appended)
  | (kind, object) :: batch =>
      match
        seq ← next_seq (Z.max (rs_last_seq st) (rs_audit_seq st));
        let v := VObject (stamp kind (ts i) run_id seq object) in
        event ← decode_event v;
        next ← map_err JFold (apply st v);
        line ← serialize_bounded (ser_ok v) (max_event_bytes limits) (s"event");
        Ok (event, next, line)
      with
      | Err e => (file, st, Err e)
      | Ok (event, next, line) =>
          let '(file, stats, r) := append_serialized_json_line (outs i) file line stats limits in
          match r with
          | Err e => (file, next, Err e)
          | Ok _ =>
              append_loop ts outs run_id limits (Datatypes.S i) file stats next
                (appended ++ [event]) batch
          end
      end
  end.

(** The payloads of a batch, checked before anything is appended. *)
Definition normalize_batch (run_id : str) (events : list (str * value)) :
    result JError (list (str * bmap value)) :=
  traverse (λ '(kind, v),
    let object := payload_object v in
    _ ← check_payload_run run_id object;
    Ok (kind, object)) events.

(** The state [append_events_with] hands to its selection. *)
Definition control_state (d : Disk) (run_id : str) (limits : JournalLimits) : result JError RunState :=
  st ← fold_journal_with_limits (dk_journal d) limits;
  _ ← match rs_run_id st with
      | Some existing =>
          if existing =s run_id then Ok () else Err (JInvalid (RunIdMismatch run_id existing))
      | None => Ok ()
      end;
  Ok (match read_last_seq_from_file_tail (dk_audit d)
              (mkJournalLimits (max_event_bytes limits) (max_total_bytes journal_limits_default)
                 (max_event_count journal_limits_default) (max_state_bytes journal_limits_default)
                 (scan_window_bytes journal_limits_default)) with
      | Ok audit_tail => st <| rs_audit_seq := Z.max (rs_audit_seq st) audit_tail |>
      | Err _ => st
      end).

(** The batch appended, the state persisted and the marker written. *)
Definition append_batch (ts : nat → str) (outs : nat → write_outcome) (d : Disk) (run_id : str)
    (limits : JournalLimits) (st : RunState) (batch : list (str * bmap value)) :
    Disk * result JError (list RunEvent) :=
  let seals := existsb (λ '(kind, _), is_terminal_event_kind kind) batch in
  let d := if seals then d else d <| dk_marker := clear_clean_shutdown_marker (dk_marker d) |> in
  match dk_journal d with
  | None => (d, Err JIo)
  | Some file =>
      let '(file, st, r) :=
        append_loop ts outs run_id limits 0 file (mkJournalStats (zlen file) (rs_last_seq st)) st
          [] batch in
      let d := d <| dk_journal := Some file |> in
      match
        appended ← r;
        state_bytes ← serialize_bounded (ser_state st) (max_state_bytes limits) (s"state");
        Ok (appended, state_bytes)
      with
      | Err e => (d, Err e)
      | Ok (appended, state_bytes) =>
          let d := d <| dk_state := Some state_bytes |> in
          (if seals then d <| dk_marker := write_clean_shutdown_marker (dk_marker d) |> else d,
           Ok appended)
      end
  end.

(** [append_events_with]. *)
Definition append_events_with (ts : nat → str) (outs : nat → write_outcome) (d : Disk)
    (run_id : str) (limits : JournalLimits)
    (select : RunState → result JError (list (str * value))) :
    Disk * result JError (list RunEvent) :=
  match
    _ ← validate_limits limits;
    _ ← (if bool_decide (trim run_id = []) then Err (JInvalid EmptyRunId) else Ok ());
    repair_truncated_tail_locked (dk_marker d) (dk_journal d) limits
  with
  | Err e => (d, Err e)
  | Ok journal =>
      let d := d <| dk_journal := journal |> in
      match
        st ← control_state d run_id limits;
        events ← select st;
        batch ← normalize_batch run_id events;
        Ok (st, batch)
      with
      | Err e => (d, Err e)
      | Ok (_, []) => (d, Ok [])
      | Ok (st, batch) => append_batch ts outs d run_id limits st batch
      end
  end.

(** [append_events_if]. *)
Definition append_events_if (ts : nat → str) (outs : nat → write_outcome) (d : Disk)
    (run_id : str) (events : list (str * value)) (limits : JournalLimits)
    (check : RunState → result JError ()) : Disk * result JError (list RunEvent) :=
  match events with
  | [] => (d, Err (JInvalid EmptyBatch))
  | _ =>
      append_events_with ts outs d run_id limits (λ st, _ ← check st; Ok events)
  end.

(** [append_single_event_if] and [append_single_event]. *)
Definition append_single_event_if (ts : str) (out : write_outcome) (d : Disk) (run_id kind : str)
    (payload : value) (limits : JournalLimits) (check : RunState → result JError ()) :
    Disk * result JError RunEvent :=
  let '(d, r) :=
    append_events_if (λ _, ts) (λ _, out) d run_id [(kind, payload)] limits check in
  (d, events ← r; ok_or (last events) (JInvalid NoEvents)).
Definition append_single_event (ts : str) (out : write_outcome) (d : Disk) (run_id kind : str)
    (payload : value) (limits : JournalLimits) : Disk * result JError RunEvent :=
  append_single_event_if ts out d run_id kind payload limits (λ _, Ok ()).
End writer.
