(* ===== verification/JournalSafety.v ===== *)
(** * Safety of the journal

    One journal, many writers, control paths without a writer, and writes that
    may be cut at any byte: what was accepted stays readable.  The invariant
    speaks of the list of events the journal durably holds; every operation
    keeps it or extends it. *)

From S2P Require Import Prelude Str BMap Json Serde Events ValueBag RunState RunStateEffect RunStateInv RunStateFrame JournalFile JournalLines JournalRepair TraceIds AuditRules JournalWriter.
From Stdlib Require Import Sorted.

#[local] Arguments s : simpl never.

(** ** Serialization *)

Lemma write_chunks_bytes w chunks w' :
  write_chunks w chunks = (w', true) → bw_bytes w' = bw_bytes w ++ concat chunks.
Proof.
  revert w. induction chunks as [|c chunks IH]; intros w; cbn.
  { intros [= <-]. by rewrite app_nil_r. }
  unfold bounded_write. destruct (checked_add _ _ _); [|done]. case_if; [done|].
  intros Hw%IH. by rewrite Hw, app_assoc.
Qed.
Lemma serialize_bounded_ok ser limit resource b :
  serialize_bounded ser limit resource = Ok b → ser.2 = None ∧ b = concat ser.1.
Proof.
  unfold serialize_bounded. destruct limit as [l|].
  - case_if; [done|]. destruct (write_chunks _ _) as [w ok] eqn:Ew.
    assert (Herr : ∀ c, (if bw_exceeded w then
        actual ← ok_or (checked_add USIZE_MAX l 1) (JInvalid SizeLimitOverflowed);
        Err (JLimitExceeded resource actual l) else Err (JJson c)) ≠ Ok b).
    { intros c. case_if; [|done]. by destruct (checked_add _ _ _). }
    destruct ok, (ser.2) as [c|]; intros Hb; try (exfalso; by eapply Herr).
    injection Hb as <-. split; [done|]. by apply write_chunks_bytes in Ew.
  - destruct (ser.2); [done|]. by intros [= <-].
Qed.

Section safety.
Context {W : WireTypes} {S : SerdeJson} {SL : SerdeJsonLaws} {C : StateCodec} {H : Sha256}.

(** ** Stamped records *)

Lemma exact_insert k v (m : bmap value) :
  exact_value v = true → forallb (λ kv, exact_value kv.2) m = true →
  forallb (λ kv, exact_value kv.2) (bm_insert k v m) = true.
Proof.
  intros Hv. induction m as [|[k' v'] m IH]; cbn; [by rewrite Hv|].
  intros [Hv' Hm]%andb_true_iff. repeat case_match; cbn; rewrite ?Hv, ?Hv', ?Hm, ?IH; done.
Qed.
Definition exact_object (m : bmap value) : Prop := forallb (λ kv, exact_value kv.2) m = true.

Lemma stamp_exact kind ts run seq m : exact_object m → exact_object (stamp kind ts run seq m).
Proof. intros Hm. unfold stamp. by repeat apply exact_insert. Qed.
Lemma stamp_parent_exact run m : exact_object m → exact_object (stamp_parent run m).
Proof. intros Hm. unfold stamp_parent. by apply exact_insert. Qed.

Lemma stamp_run_id kind ts run seq m :
  get_str (s"run_id") (VObject (stamp kind ts run seq m)) = Some run.
Proof.
  unfold get_str, get, stamp. cbn zeta.
  do 2 (rewrite bm_get_insert_ne by (by vm_compute)). by rewrite bm_get_insert_eq.
Qed.

Lemma stamp_parent_run_id run' m :
  get_str (s"run_id") (VObject (stamp_parent run' m)) = get_str (s"run_id") (VObject m).
Proof.
  unfold get_str, get, stamp_parent. cbn zeta. by rewrite bm_get_insert_ne by (by vm_compute).
Qed.

(** ** Journals *)

Variables (L : JournalLimits) (r : str).

(** The events of run [r] that a journal within the limits can hold. *)
Record good (events : list value) (st0 : RunState) : Prop := {
  gd_values : Forall event_value events;
  gd_fold : fold_values events = Ok st0;
  gd_fits : fits L events [];
  gd_owner : Forall (λ v, get_str (s"run_id") v = Some r) events;
}.

(** What the file holds, with or without the remains of a cut write. *)
Inductive holds (file : option bytes) : list value → RunState → Prop :=
| HoldsClean events st0 :
    file = Some (journal_of events) → good events st0 → holds file events st0
| HoldsTorn base v n st1 st0 :
    file = Some (journal_of base ++ take n (journal_line v)) → good (base ++ [v]) st1 →
    fold_values (kept base v n) = Ok st0 → holds file (kept base v n) st0.

Lemma good_prefix base v st1 : good (base ++ [v]) st1 → ∃ st0, good base st0.
Proof.
  intros [Hv Hf Hfit Ho]. apply fold_values_snoc in Hf as (st0 & Hf & _). exists st0.
  apply Forall_app in Hv as [Hv _], Ho as [Ho _]. split; try done.
  eapply fits_prefix; [done|]. cbn. lia.
Qed.
Lemma holds_good file events st0 : holds file events st0 → good events st0.
Proof.
  intros [? ? _ Hg|base v n st1 st0' _ Hg Hf]; [done|]. unfold kept in *.
  destruct (n <? length (to_vec v))%nat.
  - destruct (good_prefix _ _ _ Hg) as [st2 Hg2]. pose proof (gd_fold _ _ Hg2) as Hf2.
    rewrite Hf in Hf2. by injection Hf2 as ->.
  - pose proof (gd_fold _ _ Hg) as Hf2. rewrite Hf in Hf2. by injection Hf2 as ->.
Qed.

Lemma holds_repair marker file events st0 file' :
  holds file events st0 → repair_truncated_tail_locked marker file L = Ok file' →
  file' = Some (journal_of events).
Proof.
  intros [? ? -> Hg|base v n st1 st0' -> Hg Hf].
  - rewrite repair_complete by apply journal_complete. by intros [= <-].
  - pose proof (gd_values _ _ Hg) as [_ Hv]%Forall_app. rewrite Forall_singleton in Hv.
    destruct (repair_after_crash marker L base v n Hv) as [-> |[[e ->] _]]; [|done].
    by intros [= <-].
Qed.

Lemma fold_through_none st events : fold_through None st events = foldM fold_step st events.
Proof.
  revert st. induction events as [|e events IH]; intros st; cbn; [done|].
  unfold fold_step. destruct (from_flat e); cbn; [|done]. destruct (apply st e); cbn; [apply IH|done].
Qed.

(** Readers see exactly these events, repaired or not. *)
Lemma holds_read file events st0 :
  holds file events st0 →
  ∃ stats, read_journal_values file L = Ok (mkJournalScan events stats).
Proof.
  intros [? ? -> Hg|base v n st1 st0' -> Hg Hf]; eexists.
  - rewrite <-(app_nil_r (journal_of _)). apply read_journal; [apply Hg | by left | apply Hg].
  - apply read_after_crash; apply Hg.
Qed.
Lemma holds_fold file events st0 :
  holds file events st0 → fold_journal_with_limits file L = Ok st0.
Proof.
  intros Hh. destruct (holds_read _ _ _ Hh) as [stats Hr].
  unfold fold_journal_with_limits, fold_journal_through_with_limits.
  unfold read_journal_values in Hr. rewrite Hr. cbn [mbind result_bind scan_events].
  rewrite fold_through_none. by rewrite (gd_fold _ _ (holds_good _ _ _ Hh) : foldM _ _ _ = _).
Qed.

(** ** One append *)

Lemma omap_length {A B} (f : A → option B) (l : list A) : length (omap f l) ≤ length l.
Proof. induction l as [|x l IH]; cbn; [done|]. destruct (f x); cbn; lia. Qed.
Lemma last_default (l : list Z) a : List.last l a = default a (last l).
Proof.
  induction l as [|x l IH]; [done|]. rewrite last_cons. destruct l; [done|].
  cbn [List.last] in IH |- *. rewrite IH. by destruct (last (z :: l)) eqn:E; [|apply last_None in E].
Qed.
Lemma sorted_last a (l : list Z) :
  StronglySorted Z.lt (a :: l) → (a + zlen l ≤ default a (last l))%Z.
Proof.
  revert a. induction l as [|x l IH]; intros a Hs; [cbn; lia|].
  apply StronglySorted_inv in Hs as [Hs Ha]. apply Forall_cons in Ha as [Ha _].
  specialize (IH x Hs). rewrite last_cons. cbn [length]. destruct (last l); cbn in *; lia.
Qed.

Lemma fold_last_seq events st0 :
  fold_values events = Ok st0 → seq_ordered events ∧ rs_last_seq st0 = last_seq events ∧
  (zlen events ≤ rs_last_seq st0)%Z.
Proof.
  intros Hf. destruct (fold_seq_order _ _ Hf) as (Hlen & Hsort & Hlast & _).
  assert (Hl : Forall2 (λ v n, seq_of v = Some n) events (seqs events)).
  { clear Hf Hsort Hlast. induction events as [|v events IH]; [constructor|].
    unfold seqs in *. cbn in *. destruct (get_u64 (s"seq") v) eqn:E; cbn in *.
    - constructor; [done|]. apply IH. lia.
    - exfalso. pose proof (omap_length (get_u64 (s"seq")) events). lia. }
  split; [by exists (seqs events)|].
  rewrite Hlast, (last_seq_list _ _ Hl), last_default. split; [done|].
  rewrite <-Hlen. pose proof (sorted_last _ _ Hsort). lia.
Qed.

(** What the guards of an append establish. *)
Lemma line_checks_fits events v n total :
  fits L events [] → (zlen events ≤ n)%Z →
  line_checks (to_vec v) (mkJournalStats (zlen (journal_of events)) n) L = Ok total →
  fits L (events ++ [v]) [] ∧ total = zlen (journal_of (events ++ [v])).
Proof.
  intros [Hval He Hb Ht Hc] Hn Hl. unfold line_checks in Hl.
  apply result_bind_Ok in Hl as ([] & _ & Hl). apply result_bind_Ok in Hl as ([] & Hroom & Hl).
  apply result_bind_Ok in Hl as ([] & Hev & Hl).
  apply result_bind_Ok in Hl as (len & Hlen%ok_or_Ok & Hl). apply checked_add_Some in Hlen as [-> _].
  apply result_bind_Ok in Hl as (tot & Htot%ok_or_Ok & Hl). cbn [js_bytes] in Htot.
  apply checked_add_Some in Htot as [-> Hmax].
  apply result_bind_Ok in Hl as ([] & Hw & [= <-]).
  assert (Hsize : zlen (journal_of (events ++ [v]))
                  = (zlen (journal_of events) + (zlen (to_vec v) + 1))%Z).
  { rewrite journal_of_snoc. unfold journal_line. rewrite !length_app. cbn. lia. }
  split; [|done]. cbn [js_events js_bytes] in *. split; [done| | | |]; rewrite ?Hsize; cbn [length].
  2:{ lia. }
  - intros l El. rewrite El in Hev. cbn in Hev. destruct (He l El) as [? Hall].
    split; [lia|]. apply Forall_app. split; [done|]. apply Forall_singleton.
    destruct (l <? zlen (to_vec v))%Z eqn:E; [done|]. lia.
  - intros l El. rewrite El in Hw. cbn in Hw.
    destruct (l <? _)%Z eqn:E in Hw; [done|]. lia.
  - intros l El. unfold count_room in Hroom. rewrite El in Hroom. cbn in Hroom.
    destruct (l <=? n)%Z eqn:E; [by destruct (checked_add _ _ _)|].
    rewrite bool_decide_true, length_app by done. cbn. lia.
Qed.

(** The file after an append, whatever the write did. *)
Lemma append_line_cases out events v n file stats res :
  fits L events [] → (zlen events ≤ n)%Z →
  append_serialized_json_line out (journal_of events) (to_vec v)
    (mkJournalStats (zlen (journal_of events)) n) L = (file, stats, res) →
  (res = Ok () ∧ file = journal_of (events ++ [v]) ∧ fits L (events ++ [v]) [] ∧
   stats = mkJournalStats (zlen (journal_of (events ++ [v]))) (n + 1)) ∨
  (∃ e, res = Err e) ∧
  let old := mkJournalStats (zlen (journal_of events)) n in
  (file = journal_of events ∧ stats = old ∨
   fits L (events ++ [v]) [] ∧ ∃ k, file = journal_of events ++ take k (journal_line v) ∧
     (stats = old ∨ length (to_vec v) < k)).
Proof.
  intros Hfit Hn. unfold append_serialized_json_line.
  destruct (line_checks _ _ _) as [total|e] eqn:El.
  2:{ intros [= <- <- <-]. right. split; [by eexists | by left]. }
  destruct (line_checks_fits _ _ _ _ Hfit Hn El) as [Hfit' ->]. cbn [js_events].
  destruct out as [|k]; cbn [write_all].
  - change (to_vec v ++ [NEWLINE]) with (journal_line v).
    destruct (checked_add USIZE_MAX n 1) as [m|] eqn:Em; intros [= <- <- <-].
    + left. apply checked_add_Some in Em as [-> _]. by rewrite journal_of_snoc.
    + right. split; [by eexists|]. right. split; [done|].
      exists (length (journal_line v)). rewrite firstn_all. split; [done|]. right.
      unfold journal_line. rewrite length_app. cbn. lia.
  - intros [= <- <- <-]. right. split; [by eexists|]. right. split; [done|]. exists k. auto.
Qed.

(** ** States that follow the fold *)

(** A state that is the fold but for the observation counter, or the state of
    a writer that knows the run id in advance. *)
Definition follows (st st0 : RunState) : Prop :=
  (∃ a, st = set_audit a st0) ∨ tracks r st st0.

Lemma follows_step st st0 st' v :
  follows st st0 → get_str (s"run_id") v = Some r → apply st v = Ok st' →
  ∃ st0', apply st0 v = Ok st0' ∧ follows st' st0'.
Proof.
  intros [[a ->]|Ht] Hr Ha.
  - rewrite apply_audit in Ha. destruct (apply st0 v) as [st1|]; [|done].
    injection Ha as <-. exists st1. split; [done|]. left. by exists a.
  - destruct (tracks_step _ _ _ _ _ Ht Hr Ha) as (st1 & Ha1 & Ht1 & _). exists st1.
    split; [done|]. by right.
Qed.
Lemma follows_last_seq st st0 : follows st st0 → rs_last_seq st = rs_last_seq st0.
Proof. by intros [[a ->]|[-> _]]. Qed.
Lemma follows_audit st st0 a : follows st st0 → follows (set_audit a st) st0.
Proof.
  intros [[b ->]|[Heq Ho]]; [left; by exists a|]. right. split; [|done].
  rewrite Heq at 1. done.
Qed.
Lemma follows_refl st0 : follows st0 st0.
Proof. left. exists (rs_audit_seq st0). by destruct st0. Qed.

(** A record that passed the decoder and the fold extends the journal. *)
Lemma good_snoc events st0 st0' v e :
  good events st0 → event_value v → fits L (events ++ [v]) [] →
  get_str (s"run_id") v = Some r → from_flat v = Ok e → apply st0 v = Ok st0' →
  good (events ++ [v]) st0'.
Proof.
  intros [Hv Hf Hfit Ho] Hev Hfit' Hr Hd Ha.
  split; [by apply Forall_app; rewrite Forall_singleton | | done
         | by apply Forall_app; rewrite Forall_singleton].
  apply fold_values_snoc. exists st0. split; [done|]. unfold fold_step. by rewrite Hd.
Qed.

Lemma append_holds out events st0 st0' v e n file stats res :
  good events st0 → event_value v → get_str (s"run_id") v = Some r → from_flat v = Ok e →
  apply st0 v = Ok st0' → (zlen events ≤ n)%Z →
  append_serialized_json_line out (journal_of events) (to_vec v)
    (mkJournalStats (zlen (journal_of events)) n) L = (file, stats, res) →
  (res = Ok () ∧ file = journal_of (events ++ [v]) ∧ good (events ++ [v]) st0' ∧
   stats = mkJournalStats (zlen (journal_of (events ++ [v]))) (n + 1)) ∨
  (∃ e, res = Err e) ∧ ∃ new st1, length new ≤ 1 ∧ holds (Some file) (events ++ new) st1 ∧
    (stats = mkJournalStats (zlen (journal_of events)) n ∨ new ≠ []).
Proof.
  intros Hg Hev Hr Hd Ha Hn Happ.
  destruct (append_line_cases _ _ _ _ _ _ _ (gd_fits _ _ Hg) Hn Happ)
    as [(-> & -> & Hfit & ->)|[He Hfile]].
  - left. split_and!; try done. by eapply good_snoc.
  - right. split; [done|]. destruct Hfile as [[-> ->]|(Hfit & k & -> & Hstats)].
    + exists [], st0. rewrite app_nil_r. split; [cbn; lia|]. split; [by constructor | by left].
    + pose proof (good_snoc _ _ _ _ _ Hg Hev Hfit Hr Hd Ha) as Hg'.
      unshelve epose proof (HoldsTorn _ events v k st0'
        (if (k <? length (to_vec v))%nat then st0 else st0') eq_refl Hg' _) as Hh.
      { unfold kept. case_if; [apply Hg | apply Hg']. }
      unfold kept in Hh. destruct (k <? length (to_vec v))%nat eqn:Ek.
      * exists [], st0. rewrite app_nil_r. split; [cbn; lia|]. split; [done|]. left.
        destruct Hstats as [->|Hk]; [done|]. apply Nat.ltb_lt in Ek. lia.
      * exists [v], st0'. split; [done|]. split; [done | by right].
Qed.

(** ** Appends without a writer *)

Definition exact_batch (batch : list (str * bmap value)) : Prop :=
  Forall (λ kv, exact_object kv.2) batch.

Lemma append_loop_holds ts outs batch i events st0 st stats appended file st' res :
  good events st0 → follows st st0 → exact_batch batch →
  js_bytes stats = zlen (journal_of events) → (zlen events ≤ js_events stats)%Z →
  append_loop ts outs r L i (journal_of events) stats st appended batch = (file, st', res) →
  ∃ new st1, holds (Some file) (events ++ new) st1 ∧
    ∀ evs, res = Ok evs →
      file = journal_of (events ++ new) ∧ follows st' st1 ∧
      ∃ evs', evs = appended ++ evs' ∧ Forall2 (λ v e, from_flat v = Ok e) new evs' ∧
              length new = length batch.
Proof.
  revert i events st0 st stats appended. induction batch as [|[kind object] batch IH];
    intros i events st0 st stats appended Hg Hfol Hex Hb He; cbn [append_loop].
  { intros [= <- <- <-]. exists [], st0. rewrite app_nil_r. split; [by constructor|].
    intros evs [= <-]. split_and!; [done..|]. exists []. rewrite app_nil_r. by split_and!. }
  apply Forall_cons in Hex as [Hobj Hex].
  destruct (mbind _ _) as [[[event next] line]|e] eqn:Hpre.
  2:{ intros [= <- <- <-]. exists [], st0. rewrite app_nil_r. split; [by constructor | done]. }
  apply result_bind_Ok in Hpre as (seq & Hseq & Hpre). cbn zeta in Hpre.
  set (v := VObject (stamp kind (ts i) r seq object)) in *.
  apply result_bind_Ok in Hpre as (ev & Hev & Hpre).
  apply result_bind_Ok in Hpre as (nx & Hnx & Hpre).
  apply result_bind_Ok in Hpre as (ln & Hln & [= -> -> ->]).
  unfold decode_event in Hev. destruct (from_flat v) as [ev'|] eqn:Hd; [|done].
  injection Hev as ->. destruct (apply st v) as [nx'|] eqn:Ha; [|done]. injection Hnx as ->.
  apply serialize_bounded_ok in Hln as [_ ->]. change (concat (ser_ok v).1) with (to_vec v).
  destruct (follows_step _ _ _ _ Hfol (stamp_run_id _ _ _ _ _) Ha) as (st0' & Ha0 & Hfol').
  destruct (append_serialized_json_line _ _ _ _ _) as [[file1 stats1] res1] eqn:Happ.
  destruct stats as [sb se]. cbn in Hb, He. subst sb.
  assert (Hv : event_value v) by (split; [done | by apply stamp_exact]).
  destruct (append_holds _ _ _ _ _ _ _ _ _ _ Hg Hv (stamp_run_id _ _ _ _ _) Hd Ha0 He Happ)
    as [(-> & -> & Hg' & ->)|[[e ->] (new & st1 & _ & Hh & _)]].
  - intros Hloop. eapply IH in Hloop as (new & st1 & Hh & Hok); [|done..|cbn; rewrite length_app; cbn; lia].
    exists (v :: new), st1. rewrite <-app_assoc in Hh. split; [done|].
    intros evs Hevs. destruct (Hok evs Hevs) as (-> & Hf & evs' & -> & Hall & Hlen).
    rewrite <-app_assoc. split_and!; [done..|]. exists (event :: evs').
    rewrite <-app_assoc. split_and!; [done | by constructor | cbn; lia].
  - intros [= <- <- <-]. exists new, st1. by split.
Qed.

(** ** The persisted state *)

(** What the derived codec of the state promises: the JSON it writes has the
    last sequence number, and a state that was decoded is the one written.
    The second is required only of states folded from exact events. *)
Class StateCodecLaws : Prop := {
  state_last_seq : ∀ st chunks, ser_state st = (chunks, None) →
    ∃ v, from_slice (concat chunks) = Ok v ∧ get_u64 (s"last_seq") v = Some (rs_last_seq st);
  state_sound : ∀ events st0 o a chunks st', Forall event_value events →
    fold_values events = Ok st0 → ser_state (retag o a st0) = (chunks, None) →
    de_state (concat chunks) = Some st' → st' = retag o a st0;
}.

(** [state.json] is absent or was written for a prefix of the journal. *)
Definition state_ok (contents : option bytes) (events : list value) : Prop :=
  match contents with
  | None => True
  | Some b => ∃ evs st0 st chunks,
      evs `prefix_of` events ∧ fold_values evs = Ok st0 ∧ follows st st0 ∧
      ser_state st = (chunks, None) ∧ b = concat chunks
  end.
Lemma state_ok_mono contents events new : state_ok contents events → state_ok contents (events ++ new).
Proof.
  destruct contents as [b|]; [|done]. intros (evs & st0 & st & ch & Hp & Hr).
  exists evs, st0, st, ch. split; [|done]. by apply prefix_app_r.
Qed.

Record disk_ok (d : Disk) (events : list value) (st0 : RunState) : Prop := {
  do_file : holds (dk_journal d) events st0;
  do_state : state_ok (dk_state d) events;
}.

Lemma state_persisted st st0 events b limit resource :
  fold_values events = Ok st0 → follows st st0 →
  serialize_bounded (ser_state st) limit resource = Ok b → state_ok (Some b) events.
Proof.
  intros Hf Hfol [Hn ->]%serialize_bounded_ok. exists events, st0, st, (ser_state st).1.
  split_and!; try done. by destruct (ser_state st) as [c o]; cbn in *; subst.
Qed.

Lemma normalize_exact run evs batch :
  (∀ kind v, (kind, v) ∈ evs → exact_value v = true) →
  normalize_batch run evs = Ok batch → exact_batch batch.
Proof.
  intros Hex Hb. apply traverse_Ok in Hb. unfold exact_batch. induction Hb as [|[kind v] [k m] evs batch Hb _ IH].
  - constructor.
  - constructor; [|apply IH; intros; eapply Hex; by right].
    apply result_bind_Ok in Hb as ([] & _ & [= -> <-]). cbn.
    specialize (Hex k v ltac:(by left)). unfold exact_object.
    destruct v; cbn in Hex |- *; rewrite ?andb_true_r; done.
Qed.

Lemma append_batch_safe ts outs d events st0 st batch d' res :
  dk_journal d = Some (journal_of events) → good events st0 → state_ok (dk_state d) events →
  follows st st0 → exact_batch batch →
  append_batch ts outs d r L st batch = (d', res) →
  ∃ new st1, disk_ok d' (events ++ new) st1 ∧
    ∀ evs, res = Ok evs →
      dk_journal d' = Some (journal_of (events ++ new)) ∧
      Forall2 (λ v e, from_flat v = Ok e) new evs ∧ length new = length batch.
Proof.
  intros Hj Hg Hs Hfol Hex. unfold append_batch. cbn zeta.
  set (seals := existsb _ batch).
  assert (Hd : ∀ d1, d1 = (if seals then d
      else d <| dk_marker := clear_clean_shutdown_marker (dk_marker d) |>) →
      dk_journal d1 = dk_journal d ∧ dk_state d1 = dk_state d)
    by (intros ? ->; by destruct seals).
  set (d1 := if seals then d else _) in *. destruct (Hd d1 eq_refl) as [E1 E2]. clearbody d1.
  rewrite E1, Hj. destruct (append_loop _ _ _ _ _ _ _ _ _ _) as [[file st'] r1] eqn:Hl.
  destruct (fold_last_seq _ _ (gd_fold _ _ Hg)) as (_ & _ & Hcount).
  rewrite (follows_last_seq _ _ Hfol) in Hl.
  destruct (append_loop_holds ts outs batch 0 events st0 st
    (mkJournalStats (zlen (journal_of events)) (rs_last_seq st0)) [] file st' r1 Hg Hfol Hex
    eq_refl Hcount Hl) as (new & st1 & Hh & Hok).
  assert (Herr : disk_ok (d1 <| dk_journal := Some file |>) (events ++ new) st1).
  { split; [done|]. cbn. rewrite E2. by apply state_ok_mono. }
  destruct r1 as [appended|e]; cbn [mbind result_bind].
  2:{ intros [= <- <-]. by exists new, st1. }
  destruct (serialize_bounded _ _ _) as [b|e] eqn:Hb; cbn [mbind result_bind].
  2:{ intros [= <- <-]. by exists new, st1. }
  destruct (Hok _ eq_refl) as (-> & Hf' & evs' & -> & Hall & Hlen).
  intros [= <- <-]. exists new, st1. split.
  - split; [by destruct seals|].
    assert (state_ok (Some b) (events ++ new)) as Hsb; [|by destruct seals].
    eapply state_persisted; [|done..]. apply (gd_fold _ _ (holds_good _ _ _ Hh)).
  - intros evs [= <-]. split_and!; [by destruct seals | done | done].
Qed.

Lemma control_append ts outs d events st0 select d' res :
  disk_ok d events st0 →
  (∀ st evs kind v, select st = Ok evs → (kind, v) ∈ evs → exact_value v = true) →
  append_events_with ts outs d r L select = (d', res) →
  ∃ new st1, disk_ok d' (events ++ new) st1 ∧
    ∀ evs, res = Ok evs →
      dk_journal d' = Some (journal_of (events ++ new)) ∧
      Forall2 (λ v e, from_flat v = Ok e) new evs.
Proof.
  intros [Hh Hs] Hex. unfold append_events_with.
  destruct (mbind _ _) as [file|e] eqn:Hrep.
  2:{ intros [= <- <-]. exists [], st0. rewrite app_nil_r. by split. }
  apply result_bind_Ok in Hrep as ([] & _ & Hrep). apply result_bind_Ok in Hrep as ([] & _ & Hrep).
  rewrite (holds_repair _ _ _ _ _ Hh Hrep). clear Hrep file.
  pose proof (holds_good _ _ _ Hh) as Hg. set (d1 := d <| dk_journal := _ |>).
  assert (Hd1 : disk_ok d1 (events ++ []) st0) by (rewrite app_nil_r; split; [by constructor | done]).
  destruct (mbind _ _) as [[st batch]|e] eqn:Hsel.
  2:{ intros [= <- <-]. by exists [], st0. }
  apply result_bind_Ok in Hsel as (st' & Hst & Hsel).
  apply result_bind_Ok in Hsel as (evs & Hevs & Hsel).
  apply result_bind_Ok in Hsel as (b & Hb & [= -> ->]).
  assert (Hfol : follows st st0).
  { unfold control_state in Hst.
    assert (Hf : holds (dk_journal d1) events st0) by (by constructor).
    rewrite (holds_fold _ _ _ Hf) in Hst. cbn [mbind result_bind] in Hst.
    apply result_bind_Ok in Hst as ([] & _ & [= <-]). case_match; [|apply follows_refl].
    left. by eexists. }
  assert (Hxb : exact_batch batch) by (eapply normalize_exact; [|exact Hb]; eauto).
  destruct batch as [|x batch].
  - intros [= <- <-]. exists [], st0. split; [done|]. intros evs' [= <-].
    rewrite app_nil_r. by split.
  - intros Happ. eapply append_batch_safe in Happ as (new & st1 & Hd & Hok); [|done..].
    exists new, st1. split; [done|]. intros evs' He. by destruct (Hok _ He) as (? & ? & _).
Qed.

(** ** Writers *)

Context {CL : StateCodecLaws}.

(** What the writer is known to have seen: it never forgets it. *)
Variable base : list value.
(** A writer has seen a prefix of the journal; its counters are right if that
    is all of it. *)
Definition writer_ok (w : JournalWriter) (events : list value) : Prop :=
  jw_run_id w = r ∧ jw_limits w = L ∧
  ∃ evs st0, base `prefix_of` evs ∧ evs `prefix_of` events ∧ fold_values evs = Ok st0 ∧ follows (jw_state w) st0 ∧
    (evs = events → js_bytes (jw_stats w) = zlen (journal_of events) ∧
                    (zlen events ≤ js_events (jw_stats w))%Z).

Lemma prefix_both {A} (l l' new : list A) : l `prefix_of` l' → l = l' ++ new → l = l' ∧ new = [].
Proof.
  intros [k ->] Heq. rewrite <-app_assoc in Heq.
  assert (k ++ new = []) as [-> ->]%app_eq_nil.
  { apply (f_equal length) in Heq. rewrite !length_app in Heq. apply nil_length_inv.
    rewrite length_app. lia. }
  by rewrite app_nil_r.
Qed.

Lemma writer_ok_mono w events new : writer_ok w events → writer_ok w (events ++ new).
Proof.
  intros (Hr & Hl & evs & st0 & Hbase & Hp & Hf & Hfol & Hst). split_and!; try done.
  exists evs, st0. split_and!; [done | by apply prefix_app_r | done | done |].
  intros Heq. destruct (prefix_both _ _ _ Hp Heq) as [-> ->]. rewrite app_nil_r. by apply Hst.
Qed.

Definition inv (events : list value) (d : Disk) (w : JournalWriter) : Prop :=
  (∃ st0, disk_ok d events st0) ∧ writer_ok w events.
(** What an operation may do at any point where it stops: at most one record is
    added. *)
Definition ext (events : list value) (d : Disk) (w : JournalWriter) : Prop :=
  ∃ new, length new ≤ 1 ∧ inv (events ++ new) d w.
Lemma inv_ext events d w : inv events d w → ext events d w.
Proof. exists []. rewrite app_nil_r. split; [cbn; lia | done]. Qed.

(** The journal is complete lines, and the writer is where it was. *)
Definition repaired (events : list value) (st0 : RunState) (d : Disk) (w : JournalWriter) : Prop :=
  dk_journal d = Some (journal_of events) ∧ good events st0 ∧ state_ok (dk_state d) events ∧
  writer_ok w events.
(** Moreover the writer has seen all of it. *)
Definition synced (events : list value) (st0 : RunState) (d : Disk) (w : JournalWriter) : Prop :=
  dk_journal d = Some (journal_of events) ∧ good events st0 ∧ state_ok (dk_state d) events ∧
  base `prefix_of` events ∧ jw_run_id w = r ∧ jw_limits w = L ∧ follows (jw_state w) st0 ∧
  js_bytes (jw_stats w) = zlen (journal_of events) ∧ (zlen events ≤ js_events (jw_stats w))%Z.

Lemma synced_repaired events st0 d w : synced events st0 d w → repaired events st0 d w.
Proof.
  intros (Hj & Hg & Hs & Hbase & Hr & Hl & Hfol & Hb & He). repeat (split; [done|]).
  exists events, st0. split_and!; try done. apply Hg.
Qed.
Lemma repaired_inv events st0 d w : repaired events st0 d w → inv events d w.
Proof. intros (Hj & Hg & Hs & Hw). split; [|done]. exists st0. split; [by constructor | done]. Qed.

(** ** Triples

    A computation started in [P] ends in [Q], or stops in a state that extends
    the journal. *)
Definition triple (events : list value) {A} (P : Disk → JournalWriter → Prop) (m : WM A)
    (Q : A → Disk → JournalWriter → Prop) : Prop :=
  ∀ d w, P d w → match m d w with
                 | (d', w', Ok x) => Q x d' w'
                 | (d', w', Err _) => ext events d' w'
                 end.

Lemma triple_bind events {A B} P (m : WM A) R (k : A → WM B) Q :
  triple events P m R → (∀ x, triple events (R x) (k x) Q) → triple events P (m ≫= k) Q.
Proof.
  intros Hm Hk d w HP. unfold mbind, wm_bind. specialize (Hm d w HP).
  destruct (m d w) as [[d1 w1] [x|e]]; [|done]. by apply Hk.
Qed.
Lemma triple_lift events {A} P (x : result JError A) :
  (∀ d w, P d w → ext events d w) → triple events P (lift x) (λ a d w, P d w ∧ x = Ok a).
Proof. intros HP d w Hd. unfold lift. destruct x; [done|]. by apply HP. Qed.
Lemma triple_writer events P (φ : JournalWriter → Prop) :
  (∀ d w, P d w → φ w) → triple events P the_writer (λ x d w, (P d w ∧ x = w) ∧ φ x).
Proof. intros Hφ d w Hd. split; [done|]. by eapply Hφ. Qed.

Lemma repair_journal_triple events :
  triple events (inv events) repair_journal (λ _ d w, ∃ st0, repaired events st0 d w).
Proof.
  intros d w [[st0 [Hh Hs]] Hw].
  unfold repair_journal, mbind, wm_bind, the_disk, the_writer, lift, put_disk.
  destruct Hw as (Hr & Hl & Hw). rewrite Hl.
  destruct (repair_truncated_tail_locked _ _ _) as [file|] eqn:Hrep.
  - rewrite (holds_repair _ _ _ _ _ Hh Hrep). exists st0. split; [done|].
    split; [by eapply holds_good|]. by split.
  - apply inv_ext. split; [|done]. exists st0. by split.
Qed.

Lemma fold_prefix_le evs k st1 st0 :
  fold_values evs = Ok st1 → fold_values (evs ++ k) = Ok st0 → (rs_last_seq st1 ≤ rs_last_seq st0)%Z.
Proof.
  intros Hf1 Hf. destruct (fold_seq_order _ _ Hf1) as (_ & _ & Hl1 & _).
  destruct (fold_seq_order _ _ Hf) as (_ & _ & _ & Hall).
  unfold seqs in Hall. rewrite omap_app in Hall. apply Forall_app in Hall as [Hall _].
  rewrite Hl1. fold (seqs evs) in Hall. pose proof (last_seq_nonneg _ _ Hf).
  rewrite last_default. destruct (last (seqs evs)) as [x|] eqn:E; cbn; [|lia].
  apply last_Some in E as [l' E]. rewrite E in Hall. apply Forall_app in Hall as [_ Hx].
  by rewrite Forall_singleton in Hx.
Qed.
Lemma fold_prefix_eq evs events st1 st0 :
  evs `prefix_of` events → fold_values evs = Ok st1 → fold_values events = Ok st0 →
  (rs_last_seq st0 ≤ rs_last_seq st1)%Z → evs = events.
Proof.
  intros [k ->] Hf1 Hf Hle. destruct k as [|v k _] using rev_ind; [by rewrite app_nil_r|].
  exfalso. rewrite app_assoc in Hf. apply fold_values_snoc in Hf as (st2 & Hf2 & Hs).
  pose proof (fold_prefix_le _ _ _ _ Hf1 Hf2). apply fold_step_Ok in Hs as (e & He & Ha).
  destruct (from_flat_fields _ _ He) as [Hseq _]. destruct (apply_step _ _ _ Ha) as [kind Hj].
  pose proof (js_seq _ _ _ _ Hj) as Hn. rewrite Hseq in Hn.
  destruct (apply_effect _ _ _ Ha) as (k' & u & _ & Heff%effect_last_seq). cbn in Heff.
  rewrite Hseq in Heff. cbn in Heff. lia.
Qed.

(** The tail of a journal that folds is its last number, and [state.json] is
    not ahead of it. *)
Lemma state_floor_le contents events st0 n :
  fold_values events = Ok st0 → state_ok contents events → state_json_seq_floor contents = Ok n →
  (n ≤ rs_last_seq st0)%Z.
Proof.
  intros Hf Hs. unfold state_json_seq_floor. destruct contents as [b|].
  - destruct Hs as (evs & st1 & st & ch & [k Hk] & Hf1 & Hfol & Hser & ->).
    destruct (state_last_seq _ _ Hser) as (v & -> & Hv). cbn. rewrite Hv. intros [= <-].
    rewrite (follows_last_seq _ _ Hfol). subst events. by eapply fold_prefix_le.
  - intros [= <-]. by eapply last_seq_nonneg.
Qed.

Lemma tail_is_last d events st0 n :
  dk_journal d = Some (journal_of events) → good events st0 → state_ok (dk_state d) events →
  read_last_seq_from_tail d L = Ok n → n = rs_last_seq st0.
Proof.
  intros Hj Hg Hs Hn. unfold read_last_seq_from_tail in Hn. rewrite Hj in Hn.
  destruct (fold_last_seq _ _ (gd_fold _ _ Hg)) as (Hord & Hlast & _).
  rewrite tail_seq_journal in Hn by (done || apply Hg). cbn [mbind result_bind] in Hn.
  apply result_bind_Ok in Hn as (fl & Hfl & [= <-]).
  pose proof (state_floor_le _ _ _ _ (gd_fold _ _ Hg) Hs Hfl). lia.
Qed.

Lemma follows_retag st st0 : follows st st0 → ∃ o a, st = retag o a st0.
Proof.
  intros [[a ->]|[-> _]]; [|by eexists _, _]. exists (rs_run_id st0), a. by destruct st0.
Qed.

Lemma resync_follows d events st0 n st :
  dk_journal d = Some (journal_of events) → good events st0 → state_ok (dk_state d) events →
  resync_durable_state d L (rs_last_seq st0) = Ok st → n = rs_last_seq st0 → follows st st0.
Proof.
  intros Hj Hg Hs Hr Hn.
  assert (Hfold : fold_journal_with_limits (dk_journal d) L = Ok st → follows st st0).
  { rewrite (holds_fold _ events st0) by (by constructor). intros [= <-]. apply follows_refl. }
  unfold resync_durable_state in Hr. destruct (dk_state d) as [b|]; [|by apply Hfold].
  apply result_bind_Ok in Hr as ([] & _ & Hr).
  destruct (de_state b) as [p|] eqn:Hp; [|by apply Hfold].
  destruct (_ && _) eqn:E in Hr; [|by apply Hfold]. injection Hr as <-.
  apply andb_true_iff in E as [_ E%Z.eqb_eq].
  destruct Hs as (evs & st1 & st2 & ch & Hpre & Hf1 & Hfol & Hser & ->).
  destruct (follows_retag _ _ Hfol) as (o & a & ->).
  assert (Hev : Forall event_value evs).
  { destruct Hpre as [k ->]. by pose proof (gd_values _ _ Hg) as [? _]%Forall_app. }
  pose proof (state_sound _ _ _ _ _ _ Hev Hf1 Hser Hp) as ->.
  assert (evs = events) as ->.
  { eapply fold_prefix_eq; [done..|apply Hg|]. rewrite <-E. done. }
  pose proof (gd_fold _ _ Hg) as Hf. rewrite Hf1 in Hf. by injection Hf as ->.
Qed.

Lemma resync_triple events st0 :
  triple events (repaired events st0) resync_writer
    (λ n d w, n = rs_last_seq st0 ∧ synced events st0 d w).
Proof.
  intros d w Hrep. pose proof (inv_ext _ _ _ (repaired_inv _ _ _ _ Hrep)) as Hext.
  destruct Hrep as (Hj & Hg & Hs & (Hr & Hl & evs & st1 & Hbase & Hpre & Hf1 & Hfol & Hst)).
  assert (Hbe : base `prefix_of` events) by (by etransitivity).
  unfold resync_writer, mbind, wm_bind, the_disk, the_writer, lift.
  rewrite Hj. cbn [file_len].
  set (chk := match jw_floor_len w with
              | Some min_len => if (zlen (journal_of events) <? min_len)%Z
                                then Err (JInvalid TruncatedOutsideLock) else Ok ()
              | None => Ok () end : result JError ()).
  destruct chk as [[]|e]; [|done].
  rewrite Hl. destruct (read_last_seq_from_tail d L) as [n|e] eqn:Hn; [|done].
  pose proof (tail_is_last _ _ _ _ Hj Hg Hs Hn) as ->.
  destruct (rs_last_seq (jw_state w) <? rs_last_seq st0)%Z eqn:E.
  - destruct (resync_durable_state d L (rs_last_seq st0)) as [st|e] eqn:Hres; [|done].
    pose proof (resync_follows _ _ _ _ _ Hj Hg Hs Hres eq_refl) as Hfol'.
    destruct (fold_last_seq _ _ (gd_fold _ _ Hg)) as (_ & _ & Hcount).
    cbn. split; [done|]. split_and!; cbn; try done.
    by rewrite (follows_last_seq _ _ Hfol').
  - apply Z.ltb_ge in E. rewrite (follows_last_seq _ _ Hfol) in E.
    assert (evs = events) as -> by (eapply fold_prefix_eq; [done..|apply Hg|lia]).
    pose proof (gd_fold _ _ Hg) as Hf. rewrite Hf1 in Hf. injection Hf as ->.
    destruct (Hst eq_refl). cbn. split; [done|]. by split_and!.
Qed.

Lemma recover_audit_triple events st0 :
  triple events (synced events st0) recover_audit_seq (λ _ d w, synced events st0 d w).
Proof.
  intros d w Hsyn. unfold recover_audit_seq, mbind, wm_bind, the_disk, the_writer, put_writer.
  destruct Hsyn as (Hj & Hg & Hs & Hbase & Hr & Hl & Hfol & Hb & He).
  destruct (read_last_seq_from_file_tail _ _); cbn; split_and!; try done.
  by apply follows_audit.
Qed.

(** ** A durable record *)

Definition exact_payload (payload : list bytes * option json_category) : Prop :=
  ∀ v, from_slice (concat payload.1) = Ok v → exact_value v = true.

Lemma metrics_exact clock b m : journal_metrics clock b = Ok m → exact_value m = true.
Proof.
  unfold journal_metrics. intros Hm. do 4 (apply result_bind_Ok in Hm as (? & _ & Hm)).
  injection Hm as <-. vm_compute. done.
Qed.
Lemma payload_object_exact v : exact_value v = true → exact_object (payload_object v).
Proof. intros Hv. unfold exact_object. destruct v; cbn in Hv |- *; rewrite ?andb_true_r; done. Qed.
Lemma durable_payload_exact clock w kind payload object :
  exact_payload payload → durable_payload clock w kind payload = Ok object → exact_object object.
Proof.
  intros Hp Ho. unfold durable_payload in Ho. apply result_bind_Ok in Ho as (b & Hb & Ho).
  apply serialize_bounded_ok in Hb as [_ ->]. apply result_bind_Ok in Ho as (v & Hv & [= <-]).
  destruct (from_slice _) as [v'|] eqn:Ev in Hv; [|done]. injection Hv as ->.
  pose proof (payload_object_exact _ (Hp _ Ev)) as Hobj. unfold with_metrics. case_if; [|done].
  destruct (journal_metrics _ _) eqn:Em; [|done]. apply exact_insert; [|done].
  by eapply metrics_exact.
Qed.
Lemma durable_record_event clock kind seq object :
  exact_object object →
  event_value (durable_record clock kind r seq object) ∧
  get_str (s"run_id") (durable_record clock kind r seq object) = Some r.
Proof.
  intros Ho. unfold durable_record. cbn zeta. split.
  - split; [done|]. case_if; [by apply stamp_exact | by apply stamp_parent_exact, stamp_exact].
  - case_if; [|rewrite stamp_parent_run_id]; apply stamp_run_id.
Qed.

Lemma triple_pure events {A} (P : Disk → JournalWriter → Prop) (φ : Prop) (m : WM A) Q :
  (φ → triple events P m Q) → triple events (λ d w, P d w ∧ φ) m Q.
Proof. intros Hm d w [HP Hφ]. by apply Hm. Qed.
Lemma triple_exists events {A B} (P : B → Disk → JournalWriter → Prop) (m : WM A) Q :
  (∀ b, triple events (P b) m Q) → triple events (λ d w, ∃ b, P b d w) m Q.
Proof. intros Hm d w [b HP]. by apply (Hm b). Qed.
Lemma triple_pre events {A} (P P' : Disk → JournalWriter → Prop) (m : WM A) Q :
  triple events P' m Q → (∀ d w, P d w → P' d w) → triple events P m Q.
Proof. intros Hm HP d w Hd. by apply Hm, HP. Qed.

Lemma triple_post events {A} P (m : WM A) (Q Q' : A → Disk → JournalWriter → Prop) :
  triple events P m Q → (∀ x d w, Q x d w → Q' x d w) → triple events P m Q'.
Proof.
  intros Hm HQ d w Hd. specialize (Hm d w Hd). destruct (m d w) as [[d' w'] [x|]]; [|done].
  by apply HQ.
Qed.

Lemma synced_ext events st0 d w : synced events st0 d w → ext events d w.
Proof. intros Hs. by apply inv_ext, (repaired_inv _ st0), synced_repaired. Qed.

(** The append and the persisted state. *)
Lemma publish_triple events st0 st0' w0 kind out v e next b :
  event_value v → get_str (s"run_id") v = Some r → from_flat v = Ok e →
  apply st0 v = Ok st0' → follows next st0' →
  (∃ limit resource, serialize_bounded (ser_state next) limit resource = Ok b) →
  triple events (λ d w, synced events st0 d w ∧ w0 = w)
    (append_journal out (to_vec v) ≫= λ _, commit kind next b ≫= λ _, mret e)
    (λ e' d w, e' = e ∧ synced (events ++ [v]) st0' d w).
Proof.
  intros Hv Hr Hd Ha Hfol (limit & resource & Hb) d w [Hsyn _].
  destruct Hsyn as (Hj & Hg & Hs & Hbase & Hrun & Hlim & Hfw & Hbytes & Hcnt).
  unfold mbind, wm_bind, append_journal. rewrite Hj, Hlim.
  destruct (append_serialized_json_line _ _ _ _ _) as [[file stats] res] eqn:Happ.
  destruct (jw_stats w) as [sb se] eqn:Est. cbn in Hbytes, Hcnt. subst sb.
  destruct (append_holds _ _ _ _ _ _ _ _ _ _ Hg Hv Hr Hd Ha Hcnt Happ)
    as [(-> & -> & Hg' & ->)|[[e1 ->] (new & st1 & Hlen & Hh & Hstats)]].
  - cbn. split; [done|]. split_and!; try done.
    + eapply state_persisted; [apply Hg' | done..].
    + by apply prefix_app_r.
    + cbn. rewrite length_app. cbn. lia.
  - exists new. split; [done|]. split; [exists st1; split; [done | by apply state_ok_mono]|].
    split_and!; try done. exists events, st0. cbn.
    split_and!; [done | by apply prefix_app_r | apply Hg | done |].
    intros Heq. destruct (prefix_both events events new) as [_ ->]; [done..|].
    destruct Hstats as [->|?]; [|done]. rewrite app_nil_r. by cbn.
Qed.

(** A durable record is appended to the journal, and then the writer has seen
    all of it, or the journal is kept. *)
Lemma durable_record_triple clock out kind payload events :
  exact_payload payload →
  triple events (inv events) (durable_event clock out kind payload)
    (λ e d w, ∃ w0 object seq st1, let v := durable_record clock kind r seq object in
       durable_payload clock w0 kind payload = Ok object ∧ from_flat v = Ok e ∧
       synced (events ++ [v]) st1 d w).
Proof.
  intros Hp. unfold durable_event.
  eapply triple_bind; [by apply (triple_writer _ _ (λ _, True))|]. intros w0.
  apply triple_pure. intros _.
  eapply triple_pre with (P' := inv events); [|by intros d w [Hi _]].
  eapply triple_bind; [apply triple_lift, inv_ext|]. intros object.
  apply triple_pure. intros Hpay. pose proof (durable_payload_exact _ _ _ _ _ Hp Hpay) as Ho.
  eapply triple_bind; [apply repair_journal_triple|]. intros []. apply triple_exists. intros st0.
  eapply triple_bind; [apply resync_triple|]. intros n.
  eapply triple_bind with (R := λ _ d w, synced events st0 d w).
  { intros d w [_ Hs]. by apply recover_audit_triple. }
  intros []. eapply triple_bind.
  { apply (triple_writer _ _ (λ w, jw_run_id w = r ∧ follows (jw_state w) st0)).
    by intros d w (_ & _ & _ & _ & ? & _ & ? & _). }
  intros w1. apply triple_pure. intros [Hrun Hfol]. cbn zeta. rewrite Hrun.
  assert (Hext : ∀ d w, synced events st0 d w ∧ w1 = w → ext events d w)
    by (intros d w [Hs _]; by eapply synced_ext).
  set (P := λ d w, synced events st0 d w ∧ w1 = w) in *.
  eapply triple_bind; [apply (triple_lift _ P), Hext|]. intros seq. apply triple_pure. intros _.
  eapply triple_bind; [apply (triple_lift _ P), Hext|]. intros []. apply triple_pure. intros _.
  destruct (durable_record_event clock kind seq object Ho) as [Hv Hr].
  set (v := durable_record clock kind r seq object) in *.
  eapply triple_bind; [apply (triple_lift _ P), Hext|]. intros e. apply triple_pure.
  unfold decode_event. destruct (from_flat v) as [e'|] eqn:Hd; [|done]. intros [= ->].
  eapply triple_bind; [apply (triple_lift _ P), Hext|]. intros next. apply triple_pure.
  destruct (apply (jw_state w1) v) as [next'|] eqn:Ha; [|done]. intros [= ->].
  destruct (follows_step _ _ _ _ Hfol Hr Ha) as (st0' & Ha0 & Hfol').
  eapply triple_bind; [apply (triple_lift _ P), Hext|]. intros b. apply triple_pure. intros Hb.
  eapply triple_bind; [apply (triple_lift _ P), Hext|]. intros line. apply triple_pure.
  intros [_ ->]%serialize_bounded_ok. change (concat (ser_ok v).1) with (to_vec v).
  eapply triple_post; [eapply publish_triple; try done; by eexists _, _|].
  intros x d w (-> & Hs). by exists w0, object, seq, st0'.
Qed.
Lemma durable_event_triple clock out kind payload events :
  exact_payload payload →
  triple events (inv events) (durable_event clock out kind payload)
    (λ e d w, ∃ v, from_flat v = Ok e ∧ dk_journal d = Some (journal_of (events ++ [v])) ∧
                   inv (events ++ [v]) d w).
Proof.
  intros Hp. eapply triple_post; [by apply durable_record_triple|].
  intros e d w (w0 & object & seq & st1 & _ & Hd & Hs). eexists. split; [exact Hd|].
  split; [apply Hs|]. by eapply repaired_inv, synced_repaired.
Qed.

(** ** Observation records *)

Lemma inv_audit events d w w' audit :
  inv events d w → jw_run_id w' = jw_run_id w → jw_limits w' = jw_limits w →
  jw_stats w' = jw_stats w → (∃ a, jw_state w' = set_audit a (jw_state w)) →
  inv events (d <| dk_audit := audit |>) w'.
Proof.
  intros [[st0 [Hh Hs]] (Hr & Hl & evs & st1 & Hb & Hp & Hf & Hfol & Hst)] E1 E2 E3 [a E4].
  split; [by exists st0|]. rewrite <-E1 in Hr. rewrite <-E2 in Hl. split_and!; try done.
  exists evs, st1. rewrite E3, E4. split_and!; try done. by apply follows_audit.
Qed.
Lemma inv_same events d w w' :
  inv events d w → jw_run_id w' = jw_run_id w → jw_limits w' = jw_limits w →
  jw_stats w' = jw_stats w → jw_state w' = jw_state w → inv events d w'.
Proof.
  intros [Hd (Hr & Hl & evs & st1 & Hb & Hp & Hf & Hfol & Hst)] E1 E2 E3 E4.
  split; [done|]. rewrite <-E1 in Hr. rewrite <-E2 in Hl. split_and!; try done.
  exists evs, st1. by rewrite E3, E4.
Qed.
Lemma set_audit_own st : set_audit (rs_audit_seq st) st = st.
Proof. by destruct st. Qed.

Lemma observation_record_triple clock out kind object events :
  triple events (inv events) (observation_record clock out kind object) (λ _ d w, inv events d w).
Proof.
  intros d w Hi. unfold observation_record, repair_audit.
  unfold mbind, wm_bind, the_disk, the_writer, lift, put_disk, put_writer, mret, wm_ret.
  destruct (repair_truncated_tail_locked _ _ _) as [audit|]; [|by apply inv_ext].
  assert (Hi1 : inv events (d <| dk_audit := audit |>) w).
  { eapply inv_audit; [done..|]. eexists. symmetry. apply set_audit_own. }
  destruct (next_seq _) as [seq|]; [|by apply inv_ext].
  destruct (decode_event _) as [e|]; [|by apply inv_ext].
  destruct (serialize_bounded _ _ _) as [line|]; [|by apply inv_ext].
  destruct (append_serialized_json_line _ _ _ _ _) as [[file stats] res].
  destruct res as [[]|]; cbn.
  - eapply inv_audit; [exact Hi1|done..|]. by eexists.
  - eapply inv_audit; [exact Hi1|done..|]. eexists. symmetry. apply set_audit_own.
Qed.

Lemma degraded_payload reason kind :
  exact_payload (ser_ok (VObject (bm_of_list
    [(s"reason", VString reason); (s"record", VString kind)]))).
Proof.
  intros v. change (concat _) with (to_vec (VObject (bm_of_list
    [(s"reason", VString reason); (s"record", VString kind)]))).
  rewrite from_to_vec by done. by intros [= <-].
Qed.

Lemma observation_event_triple clock out out' kind payload events :
  triple events (inv events) (observation_event clock out out' kind payload)
    (λ _ d w, ext events d w).
Proof.
  unfold observation_event. eapply triple_bind; [by apply (triple_writer _ _ (λ _, True))|].
  intros w0. apply triple_pure. intros _.
  eapply triple_pre with (P' := inv events); [|by intros d w [Hi _]].
  case_if; [intros d w Hi; by apply inv_ext|].
  eapply triple_bind; [apply triple_lift, inv_ext|]. intros contents. apply triple_pure. intros _.
  eapply triple_bind; [apply triple_lift, inv_ext|]. intros v. apply triple_pure. intros _.
  cbn zeta. eapply triple_bind; [apply observation_record_triple|]. intros [e res].
  eapply triple_bind with (R := λ _ d w, ext events d w); [|by intros [] d w He].
  destruct res as [[]|err]; [intros d w Hi; by apply inv_ext|].
  eapply triple_bind; [by apply (triple_writer _ _ (λ _, True))|]. intros w1.
  apply triple_pure. intros _.
  eapply triple_pre with (P' := inv events); [|by intros d w [Hi _]].
  eapply triple_bind with (R := λ _ d w, inv events d w).
  { intros d w Hi. cbn. by eapply inv_same. }
  intros []. case_if; [intros d w Hi; by apply inv_ext|].
  eapply triple_bind; [apply durable_event_triple, degraded_payload|].
  intros ev d w (v' & _ & _ & Hi). by exists [v'].
Qed.

Lemma writer_event_triple clock out out' kind payload events :
  exact_payload payload →
  triple events (inv events) (writer_event clock out out' kind payload) (λ _ d w, ext events d w).
Proof.
  intros Hp. unfold writer_event. destruct (event_class kind).
  - eapply triple_bind; [by apply durable_event_triple|].
    intros ev d w (v & _ & _ & Hi). by exists [v].
  - apply observation_event_triple.
Qed.

(** ** Opening a writer *)

Lemma good_owner_known events st0 : good events st0 → owner_known r st0.
Proof.
  intros [_ Hf _ Ho]. revert events st0 Hf Ho. apply (fold_values_ind (λ events st0,
    Forall (λ v, get_str (s"run_id") v = Some r) events → owner_known r st0)).
  - intros _. by right.
  - intros events v st st' e _ IH _ Ha [Ho Hv]%Forall_app. rewrite Forall_singleton in Hv.
    eapply apply_owner; [by apply IH | done..].
Qed.

Lemma fold_scanned_ok events st : fold_scanned events = Ok st → fold_values events = Ok st.
Proof.
  unfold fold_scanned, fold_values. generalize state_default as s0.
  induction events as [|v events IH]; intros s0; [by intros [= ->]|]. cbn [foldM]. unfold fold_step, decode_event.
  destruct (from_flat v); [|done]. cbn. destruct (apply s0 v); [|done]. apply IH.
Qed.

Lemma create_safe d events st0 policy alimits d' res :
  disk_ok d events st0 → create_with_policies d r L policy alimits = (d', res) →
  disk_ok d' events st0 ∧ ∀ w, res = Ok w → base `prefix_of` events → writer_ok w events.
Proof.
  intros Hd. unfold create_with_policies. destruct (mbind _ _) as [[]|e]; [|by intros [= <- <-]].
  destruct (repair_truncated_tail_locked _ (dk_journal d) L) as [file|] eqn:Hrep;
    [|by intros [= <- <-]].
  destruct Hd as [Hh Hs]. rewrite (holds_repair _ _ _ _ _ Hh Hrep). clear Hrep file.
  pose proof (holds_good _ _ _ Hh) as Hg. cbn zeta.
  destruct (repair_truncated_tail_locked _ _ _) as [audit|].
  2:{ intros [= <- <-]. split; [|done]. split; [by constructor | done]. }
  cbn [dk_journal default set_field set_dk_journal]. destruct (open_writer _ _ _ _ _ _) as [[w b]|] eqn:Ho.
  2:{ intros [= <- <-]. split; [|done]. split; [by constructor | done]. }
  unfold open_writer in Ho. pose proof (read_journal L events [] (gd_values _ _ Hg)
    (or_introl eq_refl) (gd_fits _ _ Hg)) as Hread. rewrite app_nil_r in Hread.
  unfold id in Ho. rewrite Hread in Ho. cbn [mbind result_bind] in Ho.
  apply result_bind_Ok in Ho as (st & Hst%fold_scanned_ok & Ho). cbn [scan_events] in Hst.
  pose proof (gd_fold _ _ Hg) as Hf. rewrite Hf in Hst. injection Hst as <-.
  apply result_bind_Ok in Ho as ([] & _ & Ho). cbn zeta in Ho.
  set (a := match read_last_seq_from_file_tail audit _ with Ok tail => tail | Err _ => 0%Z end) in Ho.
  apply result_bind_Ok in Ho as (b' & Hb & [= <- <-]).
  assert (Hfol : follows (st0 <| rs_run_id := Some r |> <| rs_audit_seq := a |>) st0).
  { right. split; [done|]. by eapply good_owner_known. }
  intros [= <- <-]. split.
  - split; [by constructor|]. by eapply state_persisted.
  - intros w' [= <-] Hbase. split_and!; try done. exists events, st0. split_and!; try done.
    intros _. cbn. split; [lia|done].
Qed.
End safety.
