(* ===== verification/JournalSystem.v ===== *)
(** * The journal as a system

    Writers of several processes, control appends and crashes interleave on one
    run directory.  The theorems say what every interleaving preserves, and
    that the functions which read only parts of the file agree with ones that
    read all of it. *)

From S2P Require Import Prelude Str BMap Json Serde Events ValueBag RunState RunStateEffect RunStateInv RunStateFrame JournalFile JournalLines JournalRepair TraceIds AuditRules JournalWriter JournalSafety.
From stdpp Require Import relations.

#[local] Arguments s : simpl never.

Section system.
Context {W : WireTypes} {S : SerdeJson} {SL : SerdeJsonLaws} {C : StateCodec} {H : Sha256}.
Context {CL : StateCodecLaws}.
Variables (L : JournalLimits) (r : str).

(** A run directory and the writers that are open on it. *)
Record System : Type := mkSystem { sy_disk : Disk; sy_writers : list JournalWriter }.

(** One operation at a time holds the journal lock.  A write may be cut at any
    byte, and a writer may disappear. *)
Inductive system_step (σ : System) : System → Prop :=
| StepEvent i w clock out out' kind payload d' w' res :
    sy_writers σ !! i = Some w → exact_payload payload →
    writer_event clock out out' kind payload (sy_disk σ) w = (d', w', res) →
    system_step σ (mkSystem d' (<[i := w']> (sy_writers σ)))
| StepControl ts outs select d' res :
    (∀ st evs kind v, select st = Ok evs → (kind, v) ∈ evs → exact_value v = true) →
    append_events_with ts outs (sy_disk σ) r L select = (d', res) →
    system_step σ (mkSystem d' (sy_writers σ))
| StepOpen policy alimits d' w :
    create_with_policies (sy_disk σ) r L policy alimits = (d', Ok w) →
    system_step σ (mkSystem d' (sy_writers σ ++ [w]))
| StepOpenFails policy alimits d' e :
    create_with_policies (sy_disk σ) r L policy alimits = (d', Err e) →
    system_step σ (mkSystem d' (sy_writers σ))
| StepExit i :
    system_step σ (mkSystem (sy_disk σ) (delete i (sy_writers σ))).

Definition system_inv (events : list value) (σ : System) : Prop :=
  (∃ st0, disk_ok L r (sy_disk σ) events st0) ∧ Forall (λ w, writer_ok L r [] w events) (sy_writers σ).

Lemma writers_mono events new (ws : list JournalWriter) :
  Forall (λ w, writer_ok L r [] w events) ws → Forall (λ w, writer_ok L r [] w (events ++ new)) ws.
Proof. intros Hf. eapply Forall_impl; [exact Hf|]. intros w. apply writer_ok_mono. Qed.

Lemma system_step_inv events σ σ' :
  system_inv events σ → system_step σ σ' → ∃ new, system_inv (events ++ new) σ'.
Proof.
  intros [[st0 Hd] Hws] Hst. destruct Hst as
    [i w clock out out' kind payload d' w' res Hi Hp Hev|ts outs select d' res Hex Hc
    |policy alimits d' w Ho|policy alimits d' e Ho|i].
  - pose proof (proj1 (Forall_lookup _ _) Hws i w Hi) as Hw.
    pose proof (writer_event_triple L r [] clock out out' kind payload events Hp (sy_disk σ) w
      (conj (ex_intro _ st0 Hd) Hw)) as Ht. rewrite Hev in Ht.
    assert (ext L r [] events d' w') as (new & _ & Hd' & Hw') by (by destruct res). exists new.
    split; [done|]. apply Forall_insert; [by apply writers_mono | done].
  - destruct (control_append L r _ _ _ _ _ _ _ _ Hd Hex Hc) as (new & st1 & Hd' & _).
    exists new. split; [by exists st1 | by apply writers_mono].
  - destruct (create_safe L r [] _ _ _ _ _ _ _ Hd Ho) as [Hd' Hw]. exists [].
    rewrite app_nil_r. split; [by exists st0|]. apply Forall_app. split; [done|].
    apply Forall_singleton. apply Hw; [done | apply prefix_nil].
  - destruct (create_safe L r [] _ _ _ _ _ _ _ Hd Ho) as [Hd' _]. exists [].
    rewrite app_nil_r. split; [by exists st0 | done].
  - exists []. rewrite app_nil_r. split; [by exists st0|]. by apply Forall_delete.
Qed.

Lemma system_steps_inv events σ σ' :
  system_inv events σ → rtc system_step σ σ' → ∃ new, system_inv (events ++ new) σ'.
Proof.
  intros Hi Hrtc. revert events Hi. induction Hrtc as [σ|σ σ1 σ2 Hst _ IH]; intros events Hi.
  - exists []. by rewrite app_nil_r.
  - destruct (system_step_inv _ _ _ Hi Hst) as [n1 Hi1]. destruct (IH _ Hi1) as [n2 Hi2].
    exists (n1 ++ n2). by rewrite app_assoc.
Qed.

(** C1: accepted events are never lost, whatever interleaves and crashes.
    From any state of a run directory whose journal holds some events, every
    sequence of appends by any number of writers and control paths, of records
    whose doubles are read back from JSON as themselves, with writes cut at any
    byte and with writers that come and go, leaves a journal that holds those
    events followed by new ones; reading it returns exactly these, and they fold
    to a run state of this run. *)
Theorem journal_never_loses events σ σ' :
  system_inv events σ → rtc system_step σ σ' →
  ∃ new st stats,
    system_inv (events ++ new) σ' ∧
    read_journal_values (dk_journal (sy_disk σ')) L = Ok (mkJournalScan (events ++ new) stats) ∧
    fold_values (events ++ new) = Ok st ∧
    fold_journal_with_limits (dk_journal (sy_disk σ')) L = Ok st ∧
    Forall (λ v, get_str (s"run_id") v = Some r) (events ++ new).
Proof.
  intros Hi Hrtc. destruct (system_steps_inv _ _ _ Hi Hrtc) as [new Hi'].
  destruct Hi' as [[st Hd] Hws]. pose proof (do_file _ _ _ _ _ Hd) as Hh.
  destruct (holds_read _ _ _ _ _ Hh) as [stats Hr].
  pose proof (holds_good _ _ _ _ _ Hh) as Hg.
  exists new, st, stats. split_and!; [by split; [exists st|] | done | apply Hg | | apply Hg].
  by eapply holds_fold.
Qed.

(** A writer that has seen all of the journal. *)
Lemma synced_all base events st0 d w : synced L r base events st0 d w → inv L r events events d w.
Proof.
  intros (Hj & Hg & Hs & _ & Hr & Hl & Hfol & Hb & He). split; [exists st0; split; [by constructor|done]|].
  split_and!; try done. exists events, st0. split_and!; try done. apply Hg.
Qed.

(** C2: a durable record is accepted as a whole.  Let a writer of the run append
    a payload whose doubles are read back from JSON as themselves.  If the writer reports
    success, the journal is the old one plus one complete line, which decodes
    to the returned event and carries a number greater than all before it;
    the run state of the writer is that of the new journal.  If it reports an
    error, the journal still holds the old events, and at most one record
    more.  Whatever the writer has seen of the journal it has still seen
    afterwards. *)
Theorem durable_event_atomic base events d w clock out kind payload :
  inv L r base events d w → exact_payload payload →
  match durable_event clock out kind payload d w with
  | (d', w', Ok e) =>
      ∃ v, from_flat v = Ok e ∧ dk_journal d' = Some (journal_of (events ++ [v])) ∧
           inv L r (events ++ [v]) (events ++ [v]) d' w' ∧
           Forall (λ n, n < ev_seq e)%Z (seqs events)
  | (d', w', Err _) => ∃ new, length new ≤ 1 ∧ inv L r base (events ++ new) d' w'
  end.
Proof.
  intros Hi Hp. pose proof (durable_record_triple L r base clock out kind payload events Hp d w Hi) as Ht.
  destruct (durable_event _ _ _ _ _ _) as [[d' w'] [e|]]; [|done].
  destruct Ht as (w0 & object & seq & st1 & _ & Hv & Hsyn). pose proof (synced_all _ _ _ _ _ Hsyn) as Hi'.
  set (v := durable_record _ _ _ _ _) in *. exists v. split_and!; [done | apply Hsyn | done|].
  destruct Hi' as [[st [Hh _]] _]. pose proof (gd_fold _ _ _ _ (holds_good _ _ _ _ _ Hh)) as Hf.
  apply fold_values_snoc in Hf as (st0 & Hf0 & (e' & He & Ha)%fold_step_Ok).
  rewrite Hv in He. injection He as <-.
  destruct (fold_seq_order _ _ Hf0) as (_ & _ & _ & Hall).
  destruct (apply_step _ _ _ Ha) as [k Hjs]. pose proof (js_seq _ _ _ _ Hjs) as Hn.
  destruct (from_flat_fields _ _ Hv) as [Hseq _]. rewrite Hseq in Hn.
  eapply Forall_impl; [exact Hall|]. cbn. lia.
Qed.
End system.

Section files.
Context `{SerdeJsonLaws}.

(** C3: a write that was cut can always be undone or completed.  Let a journal and
    one more event be objects whose doubles are read back from JSON as
    themselves, together within the limits on bytes and events, and let the write
    of that event stop after any number of bytes: the reader returns the events
    before it, and the event too once its last brace was written; the repair
    leaves the journal of exactly these events.  Only a clean-shutdown marker
    or a line longer than sixteen scan windows makes the repair refuse, and
    then it changes nothing. *)
Theorem crash_recovery marker limits events v n :
  Forall event_value (events ++ [v]) → fits limits (events ++ [v]) [] →
  let file := journal_of events ++ take n (journal_line v) in
  let kept := if (n <? length (to_vec v))%nat then events else events ++ [v] in
  (∃ stats, read_journal_values (Some file) limits = Ok (mkJournalScan kept stats)) ∧
  (clean_marker marker = false →
   (zlen (to_vec v) ≤ saturating_mul U64_MAX (repair_window limits) 16)%Z →
   repair_truncated_tail_locked marker (Some file) limits = Ok (Some (journal_of kept))) ∧
  (∀ file', repair_truncated_tail_locked marker (Some file) limits = Ok file' →
   file' = Some (journal_of kept)).
Proof.
  intros Hev Hfit file kept'. pose proof Hev as [_ Hv]%Forall_app. rewrite Forall_singleton in Hv.
  split_and!.
  - eexists. by apply read_after_crash.
  - intros Hm Hw. destruct (repair_after_crash marker limits events v n Hv) as [Hr|[_ [Hr|Hr]]];
      [done | congruence | lia].
  - intros file' Hf. destruct (repair_after_crash marker limits events v n Hv) as [Hr|[[e Hr] _]].
    + unfold file in Hf. rewrite Hr in Hf. by injection Hf as <-.
    + unfold file in Hf. congruence.
Qed.

(** The tail of a file, read in one piece. *)
Fixpoint after_last_newline (file : bytes) : bytes :=
  match file with
  | [] => []
  | b :: rest =>
      if existsb is_newline rest then after_last_newline rest
      else if is_newline b then rest else file
  end.
Definition repair_whole_file (marker : option Marker) (file : bytes) : result JError bytes :=
  let tail := after_last_newline file in
  match tail with
  | [] => Ok file
  | _ => repair_tail_at marker file tail (zlen file - zlen tail)
  end.

Lemma existsb_newline l : existsb is_newline l = false ↔ NEWLINE ∉ l.
Proof.
  induction l as [|b l IH]; cbn; [split; [intros _; apply not_elem_of_nil | done]|].
  rewrite orb_false_iff, IH, not_elem_of_cons. unfold is_newline. rewrite Z.eqb_neq. naive_solver.
Qed.
Lemma after_last_newline_split file :
  ∃ pre, file = pre ++ after_last_newline file ∧ complete_lines pre ∧
         NEWLINE ∉ after_last_newline file.
Proof.
  induction file as [|b rest (pre & Heq & Hc & Hn)]; cbn.
  { exists []. split_and!; [done | by left | apply not_elem_of_nil]. }
  destruct (existsb is_newline rest) eqn:E.
  - exists (b :: pre). split_and!; [by cbn; f_equal | | done]. right.
    destruct Hc as [->|[p ->]]; [|by exists (b :: p)]. exfalso. cbn in Heq. rewrite Heq in E.
    apply existsb_newline in Hn. congruence.
  - apply existsb_newline in E. destruct (is_newline b) eqn:Eb.
    + exists [b]. split_and!; [done | | done]. right. exists []. apply Z.eqb_eq in Eb. by subst.
    + exists []. split_and!; [done | by left |]. apply not_elem_of_cons. split; [|done].
      apply Z.eqb_neq in Eb. done.
Qed.

(** reading the end of a file in windows finds the same torn tail as
    reading all of it.  On every file the bounded repair does what a repair of
    the whole file does, or refuses because the tail is longer than sixteen
    windows. *)
Theorem repair_in_windows marker file limits :
  let most := saturating_mul U64_MAX (repair_window limits) 16 in
  let repaired := repair_truncated_tail_locked marker (Some file) limits in
  repaired = Some <$> repair_whole_file marker file ∨
  repaired = Err (JInvalid (TailTooLong most)) ∧ (most < zlen (after_last_newline file))%Z.
Proof.
  cbn zeta. destruct (after_last_newline_split file) as (pre & Heq & Hc & Hn).
  unfold repair_whole_file. set (tail := after_last_newline file) in *. clearbody tail. subst file.
  destruct tail as [|b tail].
  - left. rewrite app_nil_r. by rewrite repair_complete.
  - replace (zlen (pre ++ b :: tail) - zlen (b :: tail))%Z with (zlen pre)
      by (rewrite length_app; lia).
    by apply repair_finds_tail.
Qed.

(** the last sequence number is found without reading the whole file.  On
    a journal of events with increasing numbers that is within the limits, the
    scan of a window at the end, with its fallbacks for lines that do not fit
    in it, returns the number of the last event, for every window size. *)
Theorem tail_finds_last_seq limits events :
  Forall event_value events → seq_ordered events → fits limits events [] →
  read_last_seq_from_file_tail (Some (journal_of events)) limits = Ok (last_seq events).
Proof. apply tail_seq_journal. Qed.

(** The loop stops at a complete line that is not JSON. *)
Lemma read_loop_bad limits ln stats acc bad c lines :
  NEWLINE ∉ bad → forallb is_ascii_whitespace bad = false → from_slice bad = Err c →
  scan_room limits stats [] bad → (0 ≤ ln ≤ js_bytes stats)%Z →
  (js_bytes stats + zlen bad + 1 ≤ USIZE_MAX)%Z →
  (∀ l, max_total_bytes limits = Some l → js_bytes stats + zlen bad + 1 ≤ l)%Z →
  read_loop None limits ((λ l, l + 2) <$> max_event_bytes limits)%Z ln stats acc
    ((bad ++ [NEWLINE]) :: lines)
  = Err (JInvalidLine (ln + 1) c).
Proof.
  intros Hn Hblank Hbad (He & Hb & Ht & Hc & Hev) Hln Hmax Htot.
  assert (Hlen : zlen (bad ++ [NEWLINE]) = (zlen bad + 1)%Z) by (rewrite length_app; cbn; lia).
  cbn [read_loop]. rewrite Hlen, !checked_add_ok by lia. cbn [ok_or mbind result_bind].
  rewrite (within_ok (max_total_bytes limits)) by (intros l Hl; specialize (Htot l Hl); lia).
  cbn [mbind result_bind]. rewrite has_newline_snoc. cbn [negb andb].
  assert (∀ o : option Z, match o with Some _ => Ok () | None => Ok () end = Ok () :> result JError ())
    as -> by (by intros []). cbn [mbind result_bind].
  assert (take (length (bad ++ [NEWLINE]) - 1) (bad ++ [NEWLINE]) = bad) as ->.
  { rewrite length_app. cbn. rewrite Nat.add_sub. apply take_app_length. }
  rewrite (within_ok (max_event_bytes limits)) by (intros l Hl; by destruct (He l Hl)).
  cbn [mbind result_bind]. rewrite Hblank.
  rewrite count_room_ok by (intros l Hl; specialize (Hc l Hl); cbn in Hc |- *;
    case_bool_decide as Hz; [by rewrite Hz in Hblank | lia]).
  cbn [mbind result_bind]. by rewrite Hbad.
Qed.

(** Corruption is reported, never skipped.  A line in the middle of the
    journal that is not JSON, whatever follows it, and a last line that is
    wrong rather than cut short, are errors that name the line; no event after
    it is returned. *)
Theorem corrupt_line_reported limits events bad rest c :
  Forall event_value events → fits limits events bad →
  NEWLINE ∉ bad → forallb is_ascii_whitespace bad = false → from_slice bad = Err c →
  (zlen (journal_of events) + zlen bad + 1 ≤ USIZE_MAX)%Z →
  (∀ l, max_total_bytes limits = Some l → zlen (journal_of events) + zlen bad + 1 ≤ l)%Z →
  read_journal_values (Some (journal_of events ++ bad ++ NEWLINE :: rest)) limits
  = Err (JInvalidLine (zlen events + 1) c) ∧
  (c ≠ CatEof →
   read_journal_values (Some (journal_of events ++ bad)) limits
   = Err (JInvalidLine (zlen events + 1) c)).
Proof.
  intros Hev Hfit Hn Hblank Hbad Hmax Htot. unfold read_journal_values, read_journal_values_through.
  rewrite (fit_valid _ _ _ Hfit). cbn [mbind result_bind]. rewrite (fits_cap _ _ _ Hfit).
  cbn [mbind result_bind].
  assert (Hskip := λ tail, read_loop_skip limits 0 journal_stats_default [] events bad tail Hev
    (fits_room _ _ _ Hfit) ltac:(cbn; lia)). cbn zeta in Hskip.
  split.
  - destruct (Hskip (bad ++ NEWLINE :: rest)) as (-> & Hr & Hl). rewrite raw_lines_line.
    + rewrite Z.add_0_l. by apply read_loop_bad.
    + done.
    + intros cap Hcap. destruct (max_event_bytes limits) as [l|] eqn:El; [|done].
      injection Hcap as <-. destruct (fit_event _ _ _ Hfit l El) as [[_ ?] _]. lia.
  - intros Hne. destruct (Hskip bad) as (-> & Hr & Hl).
    rewrite read_loop_last by (done || (by intros ->) || lia).
    rewrite Hbad, Z.add_0_l. by destruct c.
Qed.
End files.
