(* ===== verification/JournalDemo.v ===== *)
(** * The journal: concrete instances

    A codec that satisfies the laws of [SerdeJsonLaws], run directories, and
    the theorems of the journal applied to them. *)

From S2P Require Import Prelude Str BMap Json Serde Events ValueBag RunState RunStateEffect RunStateInv RunStateFrame RunStateDemo JournalFile JournalLines JournalRepair TraceIds AuditRules JournalWriter JournalSafety JournalSystem.
From Stdlib Require Import SpecFloat.
From stdpp Require Import relations.

#[local] Arguments s : simpl never.

(** ** A self-delimiting encoding of JSON values *)

Definition enc_float (f : f64) : list Z :=
  match f with
  | S754_zero b => [0; Z.b2z b]
  | S754_infinity b => [1; Z.b2z b]
  | S754_nan => [2]
  | S754_finite b m e => [3; Z.b2z b; Zpos m; e]
  end%Z.
Definition dec_float (l : list Z) : option (f64 * list Z) :=
  match l with
  | 0 :: b :: l => Some (S754_zero (b =? 1), l)
  | 1 :: b :: l => Some (S754_infinity (b =? 1), l)
  | 2 :: l => Some (S754_nan, l)
  | 3 :: b :: Zpos m :: e :: l => Some (S754_finite (b =? 1) m e, l)
  | _ => None
  end%Z.
Definition enc_num (n : number) : list Z :=
  match n with PosInt z => [0; z] | NegInt z => [1; z] | Float f => 2 :: enc_float f end%Z.
Definition dec_num (l : list Z) : option (number * list Z) :=
  match l with
  | 0 :: z :: l => Some (PosInt z, l)
  | 1 :: z :: l => Some (NegInt z, l)
  | 2 :: l => '(f, l) ← dec_float l; Some (Float f, l)
  | _ => None
  end%Z.
Definition enc_str (x : str) : list Z := zlen x :: x.
Definition dec_str (l : list Z) : option (str * list Z) :=
  match l with n :: l => Some (take (Z.to_nat n) l, drop (Z.to_nat n) l) | [] => None end.

Fixpoint enc (v : value) : list Z :=
  match v with
  | VNull => [0]
  | VBool b => [1; Z.b2z b]
  | VNumber n => 2 :: enc_num n
  | VString x => 3 :: enc_str x
  | VArray l => 4 :: zlen l :: concat (map enc l)
  | VObject m => 5 :: zlen m :: concat (map (λ '(k, v), enc_str k ++ enc v) m)
  end%Z.

Fixpoint dec_many {A} (d : list Z → option (A * list Z)) (n : nat) (l : list Z) :
    option (list A * list Z) :=
  match n with
  | O => Some ([], l)
  | S n => '(x, l) ← d l; '(xs, l) ← dec_many d n l; Some (x :: xs, l)
  end.
Fixpoint dec (fuel : nat) (l : list Z) : option (value * list Z) :=
  match fuel with
  | O => None
  | S fuel =>
      match l with
      | 0 :: l => Some (VNull, l)
      | 1 :: b :: l => Some (VBool (b =? 1), l)
      | 2 :: l => '(n, l) ← dec_num l; Some (VNumber n, l)
      | 3 :: l => '(x, l) ← dec_str l; Some (VString x, l)
      | 4 :: n :: l => '(vs, l) ← dec_many (dec fuel) (Z.to_nat n) l; Some (VArray vs, l)
      | 5 :: n :: l =>
          '(kvs, l) ← dec_many (λ l, '(k, l) ← dec_str l; '(v, l) ← dec fuel l;
                                     Some ((k, v), l)) (Z.to_nat n) l;
          Some (VObject kvs, l)
      | _ => None
      end%Z
  end.

Lemma dec_str_enc x l : dec_str (enc_str x ++ l) = Some (x, l).
Proof. cbn. by rewrite Nat2Z.id, take_app_length, drop_app_length. Qed.
Lemma dec_num_enc n l : dec_num (enc_num n ++ l) = Some (n, l).
Proof. destruct n as [|?|[[]|[]| |[] m e]]; reflexivity. Qed.
Lemma dec_many_enc {A} (e : A → list Z) d xs l :
  Forall (λ x, ∀ l, d (e x ++ l) = Some (x, l)) xs →
  dec_many d (length xs) (concat (map e xs) ++ l) = Some (xs, l).
Proof.
  induction 1 as [|x xs Hx Hxs IH]; [done|]. cbn. rewrite <-app_assoc, Hx. cbn. by rewrite IH.
Qed.
Lemma concat_length_elem {A} (e : A → list Z) xs x :
  x ∈ xs → length (e x) ≤ length (concat (map e xs)).
Proof.
  induction 1 as [x xs|x y xs _ IH]; cbn; rewrite length_app; lia.
Qed.

Lemma dec_enc v fuel l : length (enc v) ≤ fuel → dec fuel (enc v ++ l) = Some (v, l).
Proof.
  revert fuel l. induction v as [|b|n|x|vs IH|m IH] using value_ind'; intros [|fuel] l Hf;
    try (cbn in Hf; lia).
  - done.
  - by destruct b.
  - cbn. by rewrite dec_num_enc.
  - cbn [enc app dec]. by rewrite dec_str_enc.
  - cbn [enc app dec] in *. rewrite Nat2Z.id, dec_many_enc; [done|].
    apply Forall_forall. intros x Hx l'. rewrite Forall_forall in IH. apply (IH x Hx).
    pose proof (concat_length_elem enc vs x Hx). cbn in Hf. lia.
  - cbn [enc app dec] in *. rewrite Nat2Z.id, dec_many_enc; [done|].
    apply Forall_forall. intros [k x] Hx l'. rewrite Forall_forall in IH.
    rewrite <-app_assoc, dec_str_enc. cbn.
    pose proof (concat_length_elem (λ '(k, v), enc_str k ++ enc v) m (k, x) Hx) as Hl.
    cbn in Hl, Hf. rewrite length_app in Hl. rewrite (IH (k, x) Hx); [done|]. lia.
Qed.

(** Units that are neither a newline nor a brace. *)
Definition unit_of (z : Z) : Z := if (z <? 0)%Z then z else (z + 126)%Z.
Definition of_unit (u : Z) : Z := if (u <? 0)%Z then u else (u - 126)%Z.
Lemma of_unit_of z : of_unit (unit_of z) = z.
Proof. unfold of_unit, unit_of. repeat case_if; lia. Qed.
Lemma map_of_unit l : map of_unit (map unit_of l) = l.
Proof. rewrite map_map. rewrite <-(map_id l) at 2. apply map_ext. apply of_unit_of. Qed.
Lemma unit_free l u : (0 ≤ u < 126)%Z → u ∉ map unit_of l.
Proof.
  intros Hu (z & -> & _)%list_elem_of_fmap. unfold unit_of in Hu. case_if in Hu; lia.
Qed.

(** The codec: a brace, the units, a brace. *)
Definition demo_ser (v : value) : list bytes := [[123%Z]; map unit_of (enc v); [125%Z]].
Definition demo_parse (b : bytes) : result json_category value :=
  match b with
  | 123%Z :: rest =>
      if bool_decide (last rest = Some 125%Z) then
        let units := map of_unit (take (length rest - 1) rest) in
        match dec (length units) units with
        | Some (v, []) => Ok v
        | _ => Err CatSyntax
        end
      else Err CatEof
  | [] => Err CatEof
  | _ => Err CatSyntax
  end.
#[global] Instance demo_json : SerdeJson := { ser_value := demo_ser; from_slice := demo_parse }.

Lemma demo_to_vec v : to_vec v = 123%Z :: map unit_of (enc v) ++ [125%Z].
Proof. done. Qed.

#[global] Instance demo_json_laws : SerdeJsonLaws.
Proof.
  split.
  - intros v _. rewrite demo_to_vec. unfold NEWLINE.
    rewrite not_elem_of_cons, not_elem_of_app, list_elem_of_singleton.
    split; [done|]. split; [|done]. by apply unit_free.
  - done.
  - intros v _. rewrite demo_to_vec. cbn [from_slice demo_json demo_parse].
    rewrite bool_decide_true by apply last_snoc. rewrite length_app. cbn [length].
    rewrite Nat.add_sub, take_app_length, map_of_unit.
    rewrite <-(app_nil_r (enc v)) at 2. by rewrite dec_enc.
  - intros v p _ [k Hk] Hne Hp. rewrite demo_to_vec in Hk. destruct p as [|b p]; [done|].
    injection Hk as <- Hk. cbn [from_slice demo_json demo_parse].
    rewrite bool_decide_false; [done|]. intros Hlast. apply last_Some in Hlast as [p' ->].
    destruct k as [|c k] using rev_ind.
    { rewrite app_nil_r in Hk. apply Hp. rewrite demo_to_vec. by rewrite Hk. }
    clear IHk. rewrite app_assoc in Hk. apply app_inj_tail in Hk as [Hk _].
    apply (unit_free (enc v) 125); [lia|]. rewrite Hk. set_solver.
Qed.

(** ** A run directory *)

#[global] Instance demo_state_codec : StateCodec := {
  ser_state st := (ser_value (VObject [(s"last_seq", num (rs_last_seq st))]), None);
  de_state _ := None;
}.
#[global] Instance demo_state_codec_laws : StateCodecLaws.
Proof.
  split; [|done]. intros st chunks [= <-].
  exists (VObject [(s"last_seq", num (rs_last_seq st))]). split; [|reflexivity].
  change (concat _) with (to_vec (VObject [(s"last_seq", num (rs_last_seq st))])).
  by rewrite from_to_vec.
Qed.
#[global] Instance demo_sha : Sha256 := { sha256_hex x := x }.

(** A decision procedure for [fits]. *)
Definition le_limit (n : Z) (limit : option Z) : bool :=
  match limit with Some l => (n <=? l)%Z | None => true end.
Definition fitsb (limits : JournalLimits) (events : list value) (frag : bytes) : bool :=
  is_ok (validate_limits limits)
  && le_limit 2 ((λ l, USIZE_MAX - l)%Z <$> max_event_bytes limits)
  && forallb (λ v, le_limit (zlen (to_vec v)) (max_event_bytes limits)) events
  && le_limit (zlen frag) (max_event_bytes limits)
  && (zlen (journal_of events) + zlen frag <=? USIZE_MAX)%Z
  && le_limit (zlen (journal_of events) + zlen frag) (max_total_bytes limits)
  && le_limit (zlen events + 1) (max_event_count limits).
Lemma le_limit_le n limit l : le_limit n limit = true → limit = Some l → (n ≤ l)%Z.
Proof. intros Hn ->. cbn in Hn. lia. Qed.
Lemma fitsb_sound limits events frag : fitsb limits events frag = true → fits limits events frag.
Proof.
  unfold fitsb. rewrite !andb_true_iff. intros ((((((Hv & He) & Hf) & Hg) & Hb) & Ht) & Hc). split.
  - by destruct (validate_limits limits) as [[]|].
  - intros l El. pose proof (le_limit_le _ _ _ Hg El). rewrite El in He. cbn in He. split; [lia|]. apply Forall_forall. intros v Hin.
    rewrite forallb_forall in Hf. specialize (Hf v ltac:(by apply list_elem_of_In)).
    by eapply le_limit_le.
  - lia.
  - intros l El. by eapply le_limit_le.
  - intros l El. eapply le_limit_le in El; [|done]. case_bool_decide; lia.
Qed.

Definition demo_limits : JournalLimits := journal_limits_default.
Definition demo_clock : Clock := mkClock (s"2026-01-01T00:00:00Z") (λ _, Some 5%Z).
Definition demo_disk : Disk := mkDisk (Some (journal_of demo_prefix)) None None None.
Definition demo_payload (fields : list (str * value)) : list bytes * option json_category :=
  ser_ok (VObject (bm_of_list fields)).

Definition the_ok {E A} (d : A) (x : result E A) : A := match x with Ok a => a | Err _ => d end.
Definition audit_within (n : Z) : AuditLimits := mkAuditLimits (Some n) None None.
Definition writer_within (n : Z) : JournalWriter :=
  the_ok (mkJournalWriter [] state_default demo_limits journal_stats_default None
            audit_policy_default (mkAuditLimits None None None) None true)
    (create_with_policies demo_disk (s"r1") demo_limits audit_policy_default (audit_within n)).2.
Definition demo_writer : JournalWriter := writer_within 200.
Definition demo_opened : Disk :=
  (create_with_policies demo_disk (s"r1") demo_limits audit_policy_default
     (audit_within 200)).1.

(** ** The theorems at work *)

Definition exact_event (v : value) : bool := is_object v && exact_value v.
Lemma exact_events events : forallb exact_event events = true → Forall event_value events.
Proof.
  intros Hb. apply Forall_forall. intros v Hin. rewrite forallb_forall in Hb.
  specialize (Hb v ltac:(by apply list_elem_of_In)). by apply andb_true_iff in Hb.
Qed.
Definition owned (r : str) (v : value) : bool :=
  match get_str (s"run_id") v with Some x => x =s r | None => false end.
Lemma owned_sound r events :
  forallb (owned r) events = true → Forall (λ v, get_str (s"run_id") v = Some r) events.
Proof.
  intros Hb. apply Forall_forall. intros v Hin. rewrite forallb_forall in Hb.
  specialize (Hb v ltac:(by apply list_elem_of_In)). unfold owned in Hb.
  destruct (get_str _ v) as [x|]; [|done]. by apply str_eqb_eq in Hb as ->.
Qed.

Lemma demo_disk_ok : disk_ok demo_limits (s"r1") demo_disk demo_prefix (state_of demo_prefix).
Proof.
  split; [|done]. apply HoldsClean; [done|]. split.
  - apply exact_events. vm_compute. reflexivity.
  - vm_compute. reflexivity.
  - apply fitsb_sound. vm_compute. reflexivity.
  - apply owned_sound. vm_compute. reflexivity.
Qed.
Lemma demo_created :
  create_with_policies demo_disk (s"r1") demo_limits audit_policy_default
    (audit_within 200) = (demo_opened, Ok demo_writer).
Proof. vm_compute. reflexivity. Qed.
Lemma demo_inv base : base `prefix_of` demo_prefix → inv demo_limits (s"r1") base demo_prefix demo_opened demo_writer.
Proof.
  intros Hb. destruct (create_safe _ _ base _ _ _ _ _ _ _ demo_disk_ok demo_created) as [Hd Hw].
  split; [by exists (state_of demo_prefix) | by apply Hw].
Qed.
Lemma demo_payload_exact fields :
  forallb (λ kv, exact_value kv.2) (bm_of_list fields) = true → exact_payload (demo_payload fields).
Proof.
  intros Hx v Hv. change (concat _) with (to_vec (VObject (bm_of_list fields))) in Hv.
  rewrite from_to_vec in Hv by done. by injection Hv as <-.
Qed.

Lemma triple_eta {A B C} (x : A * B * C) : x = (x.1.1, x.1.2, x.2).
Proof. by destruct x as [[] ]. Qed.

(** A record with a double. *)
Definition demo_node : list (str * value) :=
  [(s"node", VString (s"draft")); (s"weight", VNumber (Float (f64_of_decimal 7 (-1))))].
(** The write of the event is cut after ten bytes. *)
Definition demo_cut : Disk * JournalWriter * result JError (option RunEvent) :=
  writer_event demo_clock (Torn 10) Written (s"step_started") (demo_payload demo_node)
    demo_opened demo_writer.

Lemma journal_never_loses_witness :
  demo_cut.2 = Err JIo ∧
  ∃ new st stats,
    read_journal_values (dk_journal demo_cut.1.1) demo_limits
    = Ok (mkJournalScan (demo_prefix ++ new) stats) ∧
    fold_journal_with_limits (dk_journal demo_cut.1.1) demo_limits = Ok st.
Proof.
  split; [vm_compute; reflexivity|].
  destruct (journal_never_loses demo_limits (s"r1") demo_prefix
    (mkSystem demo_opened [demo_writer]) (mkSystem demo_cut.1.1 [demo_cut.1.2]))
    as (new & st & stats & _ & Hr & _ & Hf & _).
  - destruct (demo_inv [] (prefix_nil _)) as [Hd Hw]. split; [exact Hd | by apply Forall_singleton].
  - apply rtc_once.
    apply (StepEvent demo_limits (s"r1") (mkSystem demo_opened [demo_writer]) 0 demo_writer demo_clock
      (Torn 10) Written (s"step_started") (demo_payload demo_node)
      demo_cut.1.1 demo_cut.1.2 demo_cut.2); [done | by apply demo_payload_exact |].
    cbn [sy_disk]. unfold demo_cut. apply triple_eta.
  - exists new, st, stats. split; [exact Hr | exact Hf].
Defined.

Lemma durable_event_atomic_witness :
  ∃ v, dk_journal (durable_event demo_clock Written (s"step_started") (demo_payload demo_node)
                     demo_opened demo_writer).1.1 = Some (journal_of (demo_prefix ++ [v])).
Proof.
  pose proof (durable_event_atomic demo_limits (s"r1") [] demo_prefix demo_opened demo_writer demo_clock
    Written (s"step_started") (demo_payload demo_node) (demo_inv [] (prefix_nil _)) ltac:(by apply demo_payload_exact)) as Ha.
  assert (Hok : is_ok (durable_event demo_clock Written (s"step_started") (demo_payload demo_node)
    demo_opened demo_writer).2 = true) by (vm_compute; reflexivity).
  destruct (durable_event _ _ _ _ _ _) as [[d' w'] [e|e]]; [|discriminate Hok].
  destruct Ha as (v & _ & Hj & _). exists v. exact Hj.
Defined.

Definition demo_last : value := event 3 (s"step_started") demo_node.
Lemma crash_recovery_witness :
  Forall event_value (demo_prefix ++ [demo_last]) ∧
  repair_truncated_tail_locked None (Some (journal_of demo_prefix ++ take 7 (journal_line demo_last)))
    demo_limits = Ok (Some (journal_of demo_prefix)).
Proof.
  assert (Hev : Forall event_value (demo_prefix ++ [demo_last]))
    by (apply exact_events; vm_compute; reflexivity).
  assert (Hfit : fits demo_limits (demo_prefix ++ [demo_last]) [])
    by (apply fitsb_sound; vm_compute; reflexivity).
  split; [exact Hev|].
  destruct (crash_recovery None demo_limits demo_prefix demo_last 7 Hev Hfit) as (_ & Hr & _).
  apply Hr; [reflexivity | vm_compute; discriminate].
Defined.

Lemma tail_finds_last_seq_witness :
  read_last_seq_from_file_tail (Some (journal_of demo_journal)) demo_limits = Ok 12%Z.
Proof.
  rewrite (tail_finds_last_seq demo_limits demo_journal).
  - vm_compute. reflexivity.
  - apply exact_events. vm_compute. reflexivity.
  - exists [1; 2; 3; 4; 5; 6; 7; 8; 9; 10; 11; 12]%Z. split.
    + repeat first [apply Forall2_cons; split; [vm_compute; reflexivity|] | apply Forall2_nil_2].
    + repeat constructor.
  - apply fitsb_sound. vm_compute. reflexivity.
Defined.

Lemma corrupt_line_reported_witness :
  read_journal_values (Some (journal_of demo_prefix ++ [7%Z] ++ NEWLINE :: to_vec demo_last)) demo_limits
  = Err (JInvalidLine 3 CatSyntax).
Proof.
  destruct (corrupt_line_reported demo_limits demo_prefix [7%Z] (to_vec demo_last) CatSyntax) as [Hr _].
  - apply exact_events. vm_compute. reflexivity.
  - apply fitsb_sound. vm_compute. reflexivity.
  - by intros ?%list_elem_of_singleton.
  - reflexivity.
  - reflexivity.
  - vm_compute. discriminate.
  - intros l Hl. vm_compute in Hl |- *. injection Hl as <-. discriminate.
  - exact Hr.
Defined.

Definition demo_audit : AuditConfig :=
  mkAuditConfig LevelMinimal (bm_of_list [(s"tool_call", AuditDigest)]) None None None.
Lemma audit_only_tightens_witness :
  contract_mode demo_audit (s"tool_call") = AuditDigest ∧
  contract_mode (resolve_effective_audit demo_audit None FloorStandard) (s"tool_call") = AuditFull.
Proof.
  split; [vm_compute; reflexivity|].
  destruct (audit_only_tightens demo_audit None FloorStandard (s"tool_call")) as (_ & Hf & _).
  - vm_compute. repeat constructor.
  - by apply Hf.
Defined.

Lemma observations_bear_no_state_witness :
  rs_nodes (state_of (demo_prefix ++ [event 3 (s"tool_call") demo_node])) = rs_nodes (state_of demo_prefix).
Proof.
  destruct (observations_bear_no_state (state_of demo_prefix)
    (state_of (demo_prefix ++ [event 3 (s"tool_call") demo_node])) (s"tool_call")
    (event 3 (s"tool_call") demo_node)) as (u & Heq & _); [vm_compute; reflexivity.. |].
  rewrite Heq. by destruct (state_of demo_prefix).
Defined.

Lemma trace_ids_wellformed_witness :
  hex_id 16 (span_id_for_seq 1) ∧ span_id_for_seq 1 ≠ span_id_for_seq 2.
Proof.
  destruct (trace_ids_wellformed (s"r1") (s"run") 1 2) as (_ & Hs & _ & _ & _ & Hne);
    [unfold U64_MAX; lia.. | discriminate |].
  split; [exact Hs | apply Hne; lia].
Defined.

(** ** Where the writer differs from its comments *)

(** An observation record longer than the audit limit is an error of the
    run.  The call returns the error, the audit stream is not degraded and no
    [audit_degraded] record is written. *)
Theorem oversized_observation_fails :
  match observation_event demo_clock Written Written (s"tool_call") (demo_payload demo_node)
          demo_opened (writer_within 50) with
  | (d, w, r) =>
      r = Err (JLimitExceeded (s"audit event") 51 50) ∧ jw_audit_degraded w = false ∧
      dk_journal d = dk_journal demo_opened
  end.
Proof. vm_compute. split_and!; reflexivity. Qed.

Definition demo_gap : list value :=
  [ event 1 (s"run_queued") identity_fields; event 5 (s"run_started") identity_fields ].
Definition five_events : JournalLimits :=
  mkJournalLimits (Some 4096%Z) (Some 65536%Z) (Some 5%Z) (Some 65536%Z) (Some 1024%Z).
(** A control append counts the records of the audit stream as events of
    the journal.  Both streams draw their numbers from one sequence, so a
    journal of two events may end at number five; the reader accepts it under
    a limit of five events, and the append is refused because the count
    starts at five. *)
Theorem control_append_overcounts :
  read_journal_values (Some (journal_of demo_gap)) five_events
  = Ok (mkJournalScan demo_gap (mkJournalStats (zlen (journal_of demo_gap)) 2)) ∧
  (append_single_event (s"now") Written (mkDisk (Some (journal_of demo_gap)) None None None) (s"r1")
     (s"run_resumed") (VObject []) five_events).2 = Err (JEventCountExceeded 6 5).
Proof. vm_compute. split; reflexivity. Qed.

Definition bad_audit : Disk := mkDisk (Some (journal_of demo_prefix)) (Some [7%Z; NEWLINE]) None None.
(** A writer opened on an audit stream it cannot read drops every observation
    record, and no [audit_degraded] record tells so: the first append finds the
    stream degraded already and returns before it would write one. *)
Theorem unreadable_audit_is_silent out out' kind payload :
  event_class kind = Observation →
  match create_with_policies bad_audit (s"r1") demo_limits audit_policy_default (audit_within 200) with
  | (d, Ok w) =>
      jw_audit_degraded w = true ∧ writer_event demo_clock out out' kind payload d w = (d, w, Ok None)
  | (_, Err _) => False
  end.
Proof.
  intros Hk. unfold writer_event. rewrite Hk. destruct (create_with_policies _ _ _ _ _) as [d [w|e]] eqn:E.
  - assert (Hw : (d, Ok w : result JError JournalWriter)
      = create_with_policies bad_audit (s"r1") demo_limits audit_policy_default (audit_within 200)) by done.
    assert (Hdeg : jw_audit_degraded w = true).
    { apply (f_equal (λ x, match x.2 with Ok w => jw_audit_degraded w | Err _ => false end)) in Hw.
      cbn [snd] in Hw. rewrite Hw. vm_compute. reflexivity. }
    split; [done|]. unfold observation_event, mbind, wm_bind, the_writer. by rewrite Hdeg, orb_true_r.
  - apply (f_equal (λ x, is_ok x.2)) in E. vm_compute in E. discriminate.
Qed.
