(* ===== verification/IdemWorld.v ===== *)
(** * The file system under the idempotency store

    The world the idempotency store of the server runs in
    ([server/src/server/idempotency]): files under the runs directory, the
    locks of the execution gates, the clock and the source of UUIDs.  A path
    is the list of its components below the runs directory.

    Every effect asks the world how it goes ([answer]): it succeeds, it fails,
    a lock is busy, or the process dies in it.  A program is a function of the
    world; theorems hold for every list of answers, so that they hold whatever
    the file system does and wherever a process dies.  File contents survive a
    dead process; the loss of unsynced data at a power failure is not
    represented, so synchronisation can fail but changes nothing. *)

From stdpp Require Import gmap.
From S2P Require Import Prelude Str TraceIds.

#[local] Arguments s : simpl never.

Abbreviation path := (list (list Z)) (only parsing).

(** A link is one no open follows; [NSpecial] is a device, a socket or a FIFO. *)
Inductive node : Type := NFile (content : list Z) | NDir | NLink | NSpecial.
#[global] Instance node_eq_dec : EqDecision node.
Proof. solve_decision. Defined.

(** [n] is the number of bytes a torn write leaves behind. *)
Inductive answer : Type := Fine | Fault (n : nat) | Busy | Crash (n : nat).

Record world : Type := mkWorld {
  w_files : gmap path node;
  (** The inode of every lock file, and the locked inodes. *)
  w_gates : gmap path nat;
  w_locked : gset nat;
  w_inodes : nat;
  (** The readings of the clock; [None] is before the Unix epoch. *)
  w_clock : list (option Z);
  (** The number of UUIDs handed out. *)
  w_ids : nat;
  w_answers : list answer;
}.
Definition world_eta (w : world) : world :=
  mkWorld (w_files w) (w_gates w) (w_locked w) (w_inodes w) (w_clock w) (w_ids w) (w_answers w).
#[global] Instance set_w_files : Setter w_files := ltac:(derive_setter world_eta w_files).
#[global] Instance set_w_gates : Setter w_gates := ltac:(derive_setter world_eta w_gates).
#[global] Instance set_w_locked : Setter w_locked := ltac:(derive_setter world_eta w_locked).
#[global] Instance set_w_inodes : Setter w_inodes := ltac:(derive_setter world_eta w_inodes).
#[global] Instance set_w_clock : Setter w_clock := ltac:(derive_setter world_eta w_clock).
#[global] Instance set_w_ids : Setter w_ids := ltac:(derive_setter world_eta w_ids).
#[global] Instance set_w_answers : Setter w_answers := ltac:(derive_setter world_eta w_answers).

(** [std::io::ErrorKind], as far as the sources look at it. *)
Inductive io_kind : Type := NotFound | AlreadyExists | InvalidInput | OtherError.
#[global] Instance io_kind_eq_dec : EqDecision io_kind.
Proof. solve_decision. Defined.

(** ** Programs *)

Inductive outcome (A : Type) : Type := Done (a : A) | Crashed.
Arguments Done {A} a.
Arguments Crashed {A}.

Definition io (A : Type) : Type := world → outcome A * world.
#[global] Instance io_ret : MRet io := λ A a w, (Done a, w).
#[global] Instance io_bind : MBind io := λ A B k m w,
  match m w with (Done a, w') => k a w' | (Crashed, w') => (Crashed, w') end.

(** Rust's [let x = m?; k] and the adapters of [Result]. *)
Definition try_bind {E A B} (m : io (result E A)) (k : A → io (result E B)) : io (result E B) :=
  m ≫= λ r, match r with Ok a => k a | Err e => mret (Err e) end.
Notation "x ←? y ; z" := (try_bind y (λ x : _, z))
  (at level 20, y at level 100, z at level 200, only parsing).
Notation "' x ←? y ; z" := (try_bind y (λ x : _, z))
  (at level 20, x pattern, y at level 100, z at level 200, only parsing).
Definition io_map {A B} (f : A → B) (m : io A) : io B := m ≫= λ a, mret (f a).
Definition io_map_err {E F A} (f : E → F) (m : io (result E A)) : io (result F A) :=
  io_map (map_err f) m.

(** A loop over a list that stops at the first error. *)
Fixpoint io_each {E A} (f : A → io (result E ())) (l : list A) : io (result E ()) :=
  match l with
  | [] => mret (Ok ())
  | x :: l => _ ←? f x; io_each f l
  end.

(** One effect on the files: [fine] is what it does when it succeeds,
    [torn n] what is left when it does not. *)
Definition file_effect {A} (fine : gmap path node → result io_kind A * gmap path node)
    (torn : nat → gmap path node → gmap path node) : io (result io_kind A) := λ w,
  match w_answers w with
  | Fault n :: rest => (Done (Err OtherError), w <| w_files := torn n (w_files w) |> <| w_answers := rest |>)
  | Crash n :: rest => (Crashed, w <| w_files := torn n (w_files w) |> <| w_answers := rest |>)
  | answers =>
      let '(r, files) := fine (w_files w) in
      (Done r, w <| w_files := files |> <| w_answers := tail answers |>)
  end.
(** An effect that changes nothing when it does not succeed. *)
Definition atomic {A} (fine : gmap path node → result io_kind A * gmap path node) :
    io (result io_kind A) := file_effect fine (λ _ files, files).
(** An effect that only looks. *)
Definition observe {A} (look : gmap path node → result io_kind A) : io (result io_kind A) :=
  atomic (λ files, (look files, files)).

(** [File::lock] and [sync_all]: nothing changes. *)
Definition sync_all : io (result io_kind ()) := observe (λ _, Ok ()).
(** [File::try_lock] of a lock whose holder is not represented. *)
Definition try_lock : io (result io_kind bool) := λ w,
  match w_answers w with
  | Busy :: rest => (Done (Ok false), w <| w_answers := rest |>)
  | _ => (_ ←? sync_all; mret (Ok true)) w
  end.

(** ** Files *)

Definition parent (p : path) : path := removelast p.
(** The runs directory itself exists. *)
Definition is_dir (files : gmap path node) (p : path) : bool :=
  match p with [] => true | _ => bool_decide (files !! p = Some NDir) end.
(** What opening a directory with [O_DIRECTORY | O_NOFOLLOW] says. *)
Definition pin_parent (files : gmap path node) (p : path) : result io_kind () :=
  if is_dir files p then Ok ()
  else match files !! p with None => Err NotFound | Some _ => Err OtherError end.

(** [file_parts]: the last component of a path must be a plain name. *)
Definition file_parts (p : path) : result io_kind () :=
  match last p with
  | Some name =>
      if bool_decide (name ∉ [s""; s"."; s".."])
         && forallb (λ c, negb (existsb (Z.eqb c) [0; 47; 92; 58]%Z)) name
      then Ok () else Err InvalidInput
  | None => Err InvalidInput
  end.

(** [open_no_follow_once] on Unix.  A handle is the path it was opened at. *)
Definition open_no_follow_once (p : path) (read write create create_new : bool) :
    io (result io_kind path) :=
  if negb read && negb write then mret (Err InvalidInput) else
  match file_parts p with
  | Err e => mret (Err e)
  | Ok _ => atomic (λ files,
      match pin_parent files (parent p) with
      | Err e => (Err e, files)
      | Ok _ =>
          match files !! p with
          | None => if create || create_new then (Ok p, <[p := NFile []]> files) else (Err NotFound, files)
          | Some (NFile _) => if create_new then (Err AlreadyExists, files) else (Ok p, files)
          | Some _ => if create_new then (Err AlreadyExists, files) else (Err OtherError, files)
          end
      end)
  end.

(** [open_no_follow_or_create], with the remaining tries as fuel. *)
Fixpoint open_no_follow_or_create (tries : nat) (p : path) (read write : bool) :
    io (result io_kind path) :=
  match tries with
  | O => mret (Err NotFound)
  | S tries =>
      created ← open_no_follow_once p read write true true;
      opened ← match created with
               | Err AlreadyExists => open_no_follow_once p read write false false
               | result => mret result
               end;
      match opened with
      | Err NotFound => open_no_follow_or_create tries p read write
      | result => mret result
      end
  end.
Definition open_no_follow (p : path) (read write create create_new : bool) :
    io (result io_kind path) :=
  if create && negb create_new then open_no_follow_or_create 8 p read write
  else open_no_follow_once p read write create create_new.

Definition content (files : gmap path node) (p : path) : list Z :=
  match files !! p with Some (NFile b) => b | _ => [] end.
(** [file.take(limit).read_to_end]. *)
Definition read_to_end (limit : Z) (handle : path) : io (result io_kind (list Z)) :=
  observe (λ files,
    let b := content files handle in
    Ok (if (Z.of_nat (length b) <=? limit)%Z then b else take (Z.to_nat limit) b)).
(** [file.write_all] on a fresh handle. *)
Definition write_bytes (handle : path) (b : list Z) : io (result io_kind ()) :=
  file_effect (λ files, (Ok (), <[handle := NFile b]> files))
    (λ n files, <[handle := NFile (take n b)]> files).

(** [fs::remove_file]: links are removed, directories refused. *)
Definition remove_file (p : path) : io (result io_kind ()) :=
  atomic (λ files,
    match files !! p with
    | None => (Err NotFound, files)
    | Some NDir => (Err OtherError, files)
    | Some _ => (Ok (), delete p files)
    end).

(** [rename_verified]. *)
Definition rename_verified (src dst : path) : io (result io_kind ()) :=
  match file_parts src, file_parts dst with
  | Ok _, Ok _ => atomic (λ files,
      match pin_parent files (parent src), pin_parent files (parent dst) with
      | Ok _, Ok _ =>
          match files !! src, files !! dst with
          | None, _ => (Err NotFound, files)
          | Some NDir, _ | _, Some NDir => (Err OtherError, files)
          | Some n, _ => (Ok (), <[dst := n]> (delete src files))
          end
      | Err e, _ | _, Err e => (Err e, files)
      end)
  | Err e, _ | _, Err e => mret (Err e)
  end.

(** [sync_dir_entry]. *)
Definition sync_dir (dir : path) : io (result io_kind ()) :=
  observe (λ files, pin_parent files dir).

(** [fs::create_dir] and [fs::create_dir_all]. *)
Definition create_dir (p : path) : io (result io_kind ()) :=
  atomic (λ files,
    match files !! p with
    | Some _ => (Err AlreadyExists, files)
    | None => if is_dir files (parent p) then (Ok (), <[p := NDir]> files) else (Err NotFound, files)
    end).
Definition prefixes (p : path) : list path := (λ n, take (S n) p) <$> seq 0 (length p).
Definition make_dir (dir : path) : io (result io_kind ()) :=
  made ← create_dir dir;
  match made with
  | Ok _ => mret (Ok ())
  | Err AlreadyExists => observe (λ files, if is_dir files dir then Ok () else Err AlreadyExists)
  | Err e => mret (Err e)
  end.
Definition create_dir_all (p : path) : io (result io_kind ()) := io_each make_dir (prefixes p).

(** [fs::symlink_metadata(p)?.is_dir()] and [is_file()], [None] when absent. *)
Definition symlink_metadata (p : path) : io (result io_kind (option node)) :=
  observe (λ files, Ok (files !! p)).

(** ** Clock and UUIDs *)

(** [uuid::Uuid::now_v7().to_string()], the [n]-th of the run, and the two
    tests the sources make of UUID texts. *)
Class Uuids := {
  now_v7 : nat → str;
  (** [Uuid::parse_str(x).is_ok_and(|id| id.to_string() == x)]. *)
  uuid_canonical : str → bool;
  (** The same with [get_version_num() == 7] and the RFC 4122 variant. *)
  uuid_v7_canonical : str → bool;
}.
Class UuidsLaws `{Uuids} : Prop := {
  now_v7_inj : Inj eq eq now_v7;
  now_v7_canonical : ∀ n, uuid_canonical (now_v7 n) = true;
  uuid_v7_chars : ∀ x, uuid_v7_canonical x = true → Forall (λ c, lower_hex c = true ∨ c = 45%Z) x;
}.
Definition fresh_uuid `{Uuids} : io str := λ w,
  (Done (now_v7 (w_ids w)), w <| w_ids := S (w_ids w) |>).
(** [SystemTime::now().duration_since(UNIX_EPOCH)], in seconds. *)
Definition read_clock : io (option Z) := λ w,
  (Done (mjoin (head (w_clock w))), w <| w_clock := tail (w_clock w) |>).

(** ** Locks of the execution gates

    The lock file of a gate is opened, and created when it is missing; the
    lock belongs to the inode, which a new file at the same path does not
    share. *)
Definition open_gate (p : path) : io (result io_kind nat) := λ w,
  match w_answers w with
  | Fault _ :: rest => (Done (Err OtherError), w <| w_answers := rest |>)
  | Crash _ :: rest => (Crashed, w <| w_answers := rest |>)
  | answers =>
      let w := w <| w_answers := tail answers |> in
      match w_gates w !! p with
      | Some inode => (Done (Ok inode), w)
      | None => (Done (Ok (w_inodes w)),
                 w <| w_gates := <[p := w_inodes w]> (w_gates w) |> <| w_inodes := S (w_inodes w) |>)
      end
  end.
Definition try_lock_inode (inode : nat) : io (result io_kind bool) := λ w,
  match w_answers w with
  | Fault _ :: rest => (Done (Err OtherError), w <| w_answers := rest |>)
  | Crash _ :: rest => (Crashed, w <| w_answers := rest |>)
  | answers =>
      let w := w <| w_answers := tail answers |> in
      if bool_decide (inode ∈ w_locked w) then (Done (Ok false), w)
      else (Done (Ok true), w <| w_locked := {[inode]} ∪ w_locked w |>)
  end.
Definition unlock_inode (inode : nat) : io () := λ w,
  (Done (), w <| w_locked := w_locked w ∖ {[inode]} |>).
Definition find_gate (p : path) : io (option nat) := λ w, (Done (w_gates w !! p), w).
Definition unlink_gate (p : path) : io (result io_kind ()) := λ w,
  match w_answers w with
  | Fault _ :: rest => (Done (Err OtherError), w <| w_answers := rest |>)
  | Crash _ :: rest => (Crashed, w <| w_answers := rest |>)
  | answers => (Done (Ok ()), w <| w_gates := delete p (w_gates w) |> <| w_answers := tail answers |>)
  end.
