(* ===== verification/IdemStore.v ===== *)
(** * The durable idempotency store

    [server/src/server/idempotency/durable.rs]: for every idempotency key a
    Pending claim and a Ready record.  [serde_json] of the three record types
    is the class [IdemCodec]. *)

From stdpp Require Import gmap.
From S2P Require Import Prelude Str TraceIds PathPolicy IdemWorld.

#[local] Arguments s : simpl never.

(** ** Records *)

Record DurableIdempotencyRecord : Type := mkReady {
  rd_key : str;
  rd_digest : str;
  rd_run_id : str;
  rd_created_at_unix : Z;
  rd_generation : Z;
  rd_publication_id : option str;
}.
Record DurablePendingRecord : Type := mkPending {
  pn_key : str;
  pn_digest : str;
  pn_run_id : option str;
  pn_operation_id : option str;
  pn_owner : str;
  pn_created_at_unix : Z;
  pn_generation : Z;
}.
Record OrphanIdempotencyRecord : Type := mkOrphan {
  or_key : str;
  or_digest : str;
  or_run_id : str;
  or_created_at_unix : Z;
}.
#[global] Instance ready_eq_dec : EqDecision DurableIdempotencyRecord.
Proof. solve_decision. Defined.
#[global] Instance pending_eq_dec : EqDecision DurablePendingRecord.
Proof. solve_decision. Defined.

(** [serde_json::to_vec] and [from_slice]; [None] is a decoding error. *)
Class IdemCodec := {
  ready_to_vec : DurableIdempotencyRecord → list Z;
  ready_from_slice : list Z → option DurableIdempotencyRecord;
  pending_to_vec : DurablePendingRecord → list Z;
  pending_from_slice : list Z → option DurablePendingRecord;
  orphan_to_vec : OrphanIdempotencyRecord → list Z;
  orphan_from_slice : list Z → option OrphanIdempotencyRecord;
}.
Class IdemCodecLaws `{IdemCodec} : Prop := {
  ready_round : ∀ r, ready_from_slice (ready_to_vec r) = Some r;
  pending_round : ∀ p, pending_from_slice (pending_to_vec p) = Some p;
  orphan_round : ∀ o, orphan_from_slice (orphan_to_vec o) = Some o;
  (** Nothing is a JSON text of no bytes. *)
  ready_from_nothing : ready_from_slice [] = None;
}.

(** [DurableIdempotencyRecord::expired_at]; the ttl is in seconds. *)
Definition saturating_sub (a b : Z) : Z := Z.max 0 (a - b).
Definition older_than (created now ttl : Z) : bool := (ttl <=? saturating_sub now created)%Z.
Definition expired_at (r : DurableIdempotencyRecord) (now ttl : Z) : bool :=
  older_than (rd_created_at_unix r) now (Z.max 1 ttl).

(** The texts of the errors. *)
Inductive store_detail : Type :=
| DIo (kind : io_kind)
| DClock
| DTooLarge
| DEmptyReady
| DCorruptReady
| DForeignReady
| DCorruptPending
| DForeignPending
| DUnusable (d : store_detail)
| DOwnedByOther
| DSuperseded (generation : Z)
| DDifferentContent
| DNoReservedRun
| DClaimAbsent
| DCollided
| DWrongGate
| DLegacyClaim
| DBadOperationId
| DNoTarget
| DUnsafeRunId
| DOrphanTooLarge
| DOrphanMisplaced
| DOrphanDuplicate
| DMissingExpiry
| DExpiryIdentity
| DNotDue
| DMigrationMismatch
| DNotADirectory
| DReadyVanished
| DNoClaimIdentity.

Inductive ApiHttpError : Type :=
| HInternal (d : store_detail)
| HUnavailable
| HConflict
| HNotFound
| HBadRequest
| HService.

Definition PENDING_TTL_SECS : Z := 60.
Definition MAX_IDEMPOTENCY_FILE_BYTES : Z := 64 * 1024.

Section durable.
Context `{Sha256, Uuids, IdemCodec}.

(** ** Paths *)

Definition idempotency_dir : path := [s"idempotency"].
Definition idempotency_path (key : str) : path :=
  idempotency_dir ++ [sha256_hex key ++ s".json"].
Definition pending_path (key : str) : path :=
  idempotency_dir ++ [sha256_hex key ++ s".pending.json"].
Definition lock_path : path := idempotency_dir ++ [s".idempotency.lock"].
Definition temp_path : path := idempotency_dir ++ [s".temps"].
(** [path.with_extension(format!("tmp-{id}")).file_name()]. *)
Definition ready_temp (key id : str) : str := sha256_hex key ++ s".tmp-" ++ id.
Definition pending_temp (key id : str) : str := sha256_hex key ++ s".pending.tmp-" ++ id.

(** ** Shared pieces *)

Definition now_unix : io (result store_detail Z) :=
  io_map (λ t, ok_or t DClock) read_clock.

Definition acquire_idempotency_lock : io (result store_detail ()) :=
  io_map_err DIo
    (_ ←? create_dir_all idempotency_dir;
     _ ←? open_no_follow lock_path true true true false;
     sync_all).

(** [expiry::ensure_dir]. *)
Definition ensure_dir (p : path) : io (result store_detail ()) :=
  made ← create_dir p;
  match made with
  | Ok _ | Err AlreadyExists =>
      meta ←? io_map_err DIo (symlink_metadata p);
      match meta with
      | Some NDir => io_map_err DIo (sync_dir (parent p))
      | Some _ => mret (Err DNotADirectory)
      | None => mret (Err (DIo NotFound))
      end
  | Err e => mret (Err (DIo e))
  end.
(** [expiry::temp_dir] makes sure that [temp_path] is a directory. *)
Definition temp_dir : io (result store_detail ()) := ensure_dir temp_path.

Inductive BoundedRead : Type := RPresent (b : list Z) | RAbsent | RUnreadable (d : store_detail).
Definition read_bounded_idempotency_file (p : path) : io BoundedRead :=
  opened ← open_no_follow p true false false false;
  match opened with
  | Err NotFound => mret RAbsent
  | Err e => mret (RUnreadable (DIo e))
  | Ok file =>
      bytes ← read_to_end (MAX_IDEMPOTENCY_FILE_BYTES + 1) file;
      mret match bytes with
           | Err e => RUnreadable (DIo e)
           | Ok b =>
               if (MAX_IDEMPOTENCY_FILE_BYTES <? Z.of_nat (length b))%Z
               then RUnreadable DTooLarge else RPresent b
           end
  end.

Record KeyFilesSnapshot : Type := mkSnapshot {
  sn_ready : option (list Z);
  sn_pending : option (list Z);
}.
Definition snapshot_of (p : path) : io (result store_detail (option (list Z))) :=
  read ← read_bounded_idempotency_file p;
  mret match read with
       | RPresent b => Ok (Some b)
       | RAbsent => Ok None
       | RUnreadable d => Err d
       end.
Definition read_key_files_snapshot (key : str) : io (result store_detail KeyFilesSnapshot) :=
  ready ←? snapshot_of (idempotency_path key);
  pending ←? snapshot_of (pending_path key);
  mret (Ok (mkSnapshot ready pending)).

Definition parse_ready (key : str) (b : list Z) : result store_detail DurableIdempotencyRecord :=
  match b with
  | [] => Err DEmptyReady
  | _ =>
      record ← ok_or (ready_from_slice b) DCorruptReady;
      if rd_key record =s key then Ok record else Err DForeignReady
  end.

Inductive PendingRead : Type :=
| PValid (p : DurablePendingRecord)
| PExpired (p : DurablePendingRecord)
| PAbsent
| PUnusable (d : store_detail).
Definition parse_pending_bytes (key : str) (b : list Z) : io PendingRead :=
  match pending_from_slice b with
  | None => mret (PUnusable DCorruptPending)
  | Some record =>
      if negb (pn_key record =s key) then mret (PUnusable DForeignPending)
      else
        now ← now_unix;
        mret match now with
             | Err d => PUnusable d
             | Ok now =>
                 if older_than (pn_created_at_unix record) now PENDING_TTL_SECS
                 then PExpired record else PValid record
             end
  end.
Definition parse_snapshot (key : str) (pending : option (list Z)) : io PendingRead :=
  match pending with Some b => parse_pending_bytes key b | None => mret PAbsent end.
Definition read_durable_pending (key : str) : io PendingRead :=
  read ← read_bounded_idempotency_file (pending_path key);
  match read with
  | RPresent b => parse_pending_bytes key b
  | RAbsent => mret PAbsent
  | RUnreadable d => mret (PUnusable d)
  end.

(** Does a Pending belong to the Ready that resolves it? *)
Definition resolved_by (ready : DurableIdempotencyRecord) (owner : option str)
    (pending : DurablePendingRecord) : bool :=
  (pn_key pending =s rd_key ready)
  && (pn_digest pending =s rd_digest ready)
  && bool_decide (pn_run_id pending = Some (rd_run_id ready))
  && (pn_generation pending =? rd_generation ready)%Z
  && match owner with Some owner => pn_owner pending =s owner | None => true end.
Definition retire_ready_pending (ready : DurableIdempotencyRecord) (owner : option str) :
    io (result store_detail bool) :=
  read ← read_bounded_idempotency_file (pending_path (rd_key ready));
  match read with
  | RAbsent => _ ←? io_map_err DIo (sync_dir idempotency_dir); mret (Ok false)
  | RUnreadable _ => mret (Ok false)
  | RPresent b =>
      match pending_from_slice b with
      | None => mret (Ok false)
      | Some pending =>
          if negb (resolved_by ready owner pending) then mret (Ok false)
          else
            _ ←? io_map_err DIo (remove_file (pending_path (rd_key ready)));
            _ ←? io_map_err DIo (sync_dir idempotency_dir);
            mret (Ok true)
      end
  end.

(** The live Ready, the generation floor and the snapshot that is left. *)
Definition reap_expired_ready_snapshot (key : str) (snapshot : KeyFilesSnapshot) (ttl : Z) :
    io (result store_detail (option DurableIdempotencyRecord * Z * KeyFilesSnapshot)) :=
  match sn_ready snapshot with
  | None => mret (Ok (None, 0%Z, snapshot))
  | Some b =>
      match parse_ready key b with
      | Err d => mret (Err d)
      | Ok record =>
          now ←? now_unix;
          if expired_at record now ttl then
            retired ←? retire_ready_pending record None;
            _ ←? io_map_err DIo (remove_file (idempotency_path key));
            mret (Ok (None, rd_generation record,
              mkSnapshot None (if retired : bool then None else sn_pending snapshot)))
          else mret (Ok (Some record, rd_generation record, snapshot))
      end
  end.

Definition pending_generation_from_parsed (pending_generation ready_generation : Z) : Z :=
  saturating_add U64_MAX (Z.max pending_generation ready_generation) 1.

(** ** The execution gate ([durable/execution.rs]) *)

Record ExecutionGate : Type := mkGate { gt_key : str; gt_path : path; gt_inode : nat }.
Definition gate_path (key : str) : path :=
  idempotency_dir ++ [s".execution"] ++ [sha256_hex key ++ s".lock"].

(** [registry]: the outer lock both ends of a gate take. *)
Definition registry : io (result store_detail bool) :=
  _ ←? io_map_err DIo (create_dir_all (idempotency_dir ++ [s".execution"]));
  _ ←? io_map_err DIo (open_no_follow (idempotency_dir ++ [s".execution-registry.lock"])
                         true true true false);
  io_map_err DIo try_lock.
(** [ExecutionGate::try_acquire]. *)
Definition try_acquire (key : str) : io (result store_detail (option ExecutionGate)) :=
  free ←? registry;
  if negb free then mret (Ok None) else
  inode ←? io_map_err DIo (open_gate (gate_path key));
  locked ←? io_map_err DIo (try_lock_inode inode);
  mret (Ok (if locked : bool then Some (mkGate key (gate_path key) inode) else None)).
Definition validate (gate : ExecutionGate) (key : str) : result store_detail () :=
  if gt_key gate =s key then Ok () else Err DWrongGate.
(** [reclaim]: unlink the lock file of an idle gate, under the registry. *)
Definition reclaim (p : path) : io (result store_detail ()) :=
  free ←? registry;
  if negb free then mret (Ok ()) else
  inode ← find_gate p;
  match inode with
  | None => mret (Ok ())
  | Some inode =>
      locked ←? io_map_err DIo (try_lock_inode inode);
      if locked : bool then
        _ ← unlock_inode inode;
        io_map_err DIo (unlink_gate p)
      else mret (Ok ())
  end.

(** ** Claims *)

Inductive ClaimOutcome : Type :=
| COwner (operation_id : str) (run_id : option str) (owner : str) (generation : Z)
| CPeer
| CReady (r : DurableIdempotencyRecord)
| CConflict.

(** [service::require_run_directory]. *)
Definition require_run_directory (id : str) : io (result ApiHttpError ()) :=
  let stat p := io_map_err (λ _, HService) (symlink_metadata p) in
  run ←? stat [id];
  if negb (bool_decide (run = Some NDir)) then mret (Err HNotFound) else
  meta ←? stat [id; s"meta"];
  if negb (bool_decide (meta = Some NDir)) then mret (Err HNotFound) else
  journal ←? stat [id; s"meta"; s"journal.jsonl"];
  match journal with Some (NFile _) => mret (Ok ()) | _ => mret (Err HNotFound) end.
(** The target of a mutation still exists. *)
Definition check_target (run_id : option str) : io (result ApiHttpError ()) :=
  match run_id with
  | Some id =>
      if negb (is_safe_path_component id) then mret (Err (HInternal DNoTarget))
      else
        _ ←? require_run_directory id;
        opened ← open_no_follow [id; s"meta"; s"journal.jsonl"] true false false false;
        mret match opened with
             | Ok _ => Ok ()
             | Err NotFound => Err HNotFound
             | Err e => Err HService
             end
  | None => mret (Err (HInternal DNoTarget))
  end.

(** [stage_pending]: exclusive creation, content, synchronisation. *)
Definition stage_pending (tmp : path) (b : list Z) : io (result io_kind ()) :=
  file ←? open_no_follow tmp false true false true;
  _ ←? write_bytes file b;
  sync_all.
Fixpoint stage_claim (attempts : nat) (key : str) (b : list Z) : io (result store_detail path) :=
  match attempts with
  | O => mret (Err DCollided)
  | S attempts =>
      _ ←? temp_dir;
      id ← fresh_uuid;
      let tmp := temp_path ++ [pending_temp key id] in
      staged ← stage_pending tmp b;
      match staged with
      | Ok _ => mret (Ok tmp)
      | Err AlreadyExists => stage_claim attempts key b
      | Err e => mret (Err (DIo e))
      end
  end.

(** What a claim takes over from the Pending it found: the generation, the
    operation id and the run. *)
Inductive Takeover : Type :=
| TPeer
| TConflict
| TTake (generation : Z) (operation_id : str) (adopted : option str).
Definition take_over (digest new_id : str) (pending : PendingRead) : result ApiHttpError Takeover :=
  match pending with
  | PValid record => Ok (if pn_digest record =s digest then TPeer else TConflict)
  | PExpired record =>
      if negb (pn_digest record =s digest) then Ok TConflict
      else match pn_operation_id record with
           | None => Err (HInternal DLegacyClaim)
           | Some id =>
               if uuid_canonical id
               then Ok (TTake (pn_generation record) id (pn_run_id record))
               else Err (HInternal DBadOperationId)
           end
  | PAbsent => Ok (TTake 0 new_id None)
  | PUnusable d => Err (HInternal d)
  end.

Definition or_else_opt {A} (a b : option A) : option A := match a with Some _ => a | None => b end.

(** The claim is written: staged, renamed over its predecessor, synced. *)
Definition publish_claim (key : str) (record : DurablePendingRecord) : io (result ApiHttpError ()) :=
  tmp ←? io_map_err HInternal (stage_claim 3 key (pending_to_vec record));
  renamed ← rename_verified tmp (pending_path key);
  match renamed with
  | Err e => _ ← remove_file tmp; mret (Err (HInternal (DIo e)))
  | Ok _ => io_map_err (λ e, HInternal (DIo e)) (sync_dir idempotency_dir)
  end.

Definition claim_durable_pending_for_target_gated (gate : ExecutionGate) (key digest : str)
    (reserved_run_id : option str) (ttl : Z) (require_target : bool) :
    io (result ApiHttpError ClaimOutcome) :=
  match validate gate key with
  | Err d => mret (Err (HInternal d))
  | Ok _ =>
      free ←? io_map_err (λ e, HInternal (DIo e)) try_lock;
      if negb free then mret (Err HUnavailable) else
      _ ←? io_map_err HInternal acquire_idempotency_lock;
      snapshot ←? io_map_err HInternal (read_key_files_snapshot key);
      '(committed, ready_generation, snapshot) ←?
        io_map_err HInternal (reap_expired_ready_snapshot key snapshot ttl);
      match committed with
      | Some record => mret (Ok (if rd_digest record =s digest then CReady record else CConflict))
      | None =>
          new_id ← fresh_uuid;
          pending ← parse_snapshot key (sn_pending snapshot);
          match take_over digest new_id pending with
          | Err e => mret (Err e)
          | Ok TPeer => mret (Ok CPeer)
          | Ok TConflict => mret (Ok CConflict)
          | Ok (TTake pending_generation operation_id adopted) =>
              let run_id := or_else_opt adopted reserved_run_id in
              _ ←? (if require_target then check_target run_id else mret (Ok ()));
              owner ← fresh_uuid;
              let generation := pending_generation_from_parsed pending_generation ready_generation in
              now ←? io_map_err HInternal now_unix;
              _ ←? publish_claim key
                     (mkPending key digest run_id (Some operation_id) owner now generation);
              mret (Ok (COwner operation_id run_id owner generation))
          end
      end
  end.

(** ** Release and the recheck of ownership *)

Definition release_durable_pending_gated (gate : ExecutionGate) (key owner : str) (generation : Z) :
    io (result store_detail ()) :=
  match validate gate key with
  | Err d => mret (Err d)
  | Ok _ =>
      _ ←? acquire_idempotency_lock;
      read ← read_bounded_idempotency_file (pending_path key);
      match read with
      | RAbsent => mret (Ok ())
      | RUnreadable d => mret (Err d)
      | RPresent b =>
          match pending_from_slice b with
          | None => mret (Err DCorruptPending)
          | Some current =>
              if negb (pn_key current =s key) then mret (Err DForeignPending)
              else if (pn_owner current =s owner) && (pn_generation current =? generation)%Z
              then io_map_err DIo (remove_file (pending_path key))
              else mret (Ok ())
          end
      end
  end.

Inductive OwnerCheck : Type := OCurrent | OSuperseded | OAbsent.
Definition check_pending_owner_gated (gate : ExecutionGate) (key owner : str) (generation : Z)
    (expected_digest : str) : io (result store_detail OwnerCheck) :=
  match validate gate key with
  | Err d => mret (Err d)
  | Ok _ =>
      _ ←? acquire_idempotency_lock;
      read ← read_bounded_idempotency_file (pending_path key);
      match read with
      | RAbsent => mret (Ok OAbsent)
      | RUnreadable d => mret (Err d)
      | RPresent b =>
          parsed ← parse_pending_bytes key b;
          mret match parsed with
               | PValid current | PExpired current =>
                   Ok (if (pn_owner current =s owner) && (pn_generation current =? generation)%Z
                          && (pn_digest current =s expected_digest)
                       then OCurrent else OSuperseded)
               | PAbsent => Ok OAbsent
               | PUnusable d => Err d
               end
      end
  end.

(** ** Reading Ready *)

Definition read_ready (key : str) : io (result store_detail (option DurableIdempotencyRecord)) :=
  read ← read_bounded_idempotency_file (idempotency_path key);
  mret match read with
       | RPresent b => Some <$> parse_ready key b
       | RAbsent => Ok None
       | RUnreadable d => Err d
       end.
Definition load_durable_ready_result (key : str) (ttl : Z) :
    io (result store_detail (option DurableIdempotencyRecord)) :=
  record ←? read_ready key;
  match record with
  | None => mret (Ok None)
  | Some record =>
      now ←? now_unix;
      mret (Ok (if expired_at record now ttl then None else Some record))
  end.
Definition load_durable_pending_digest_result (key : str) : io (result store_detail (option str)) :=
  read ← read_durable_pending key;
  mret match read with
       | PValid record => Ok (Some (pn_digest record))
       | PExpired _ | PAbsent => Ok None
       | PUnusable d => Err d
       end.
End durable.
