(* ===== verification/IdemExpiry.v ===== *)
(** * Publication and expiry of Ready records

    The rest of [server/src/server/idempotency/durable.rs] (publication of a
    Ready record, the sidecars of finished runs) and the operations of
    [durable/expiry.rs] on the store: the expiry index, the retirement of due
    records and the treatment of staging files. *)

From stdpp Require Import gmap.
From S2P Require Import Prelude Str TraceIds PathPolicy IdemWorld IdemStore.

#[local] Arguments s : simpl never.

(** [x.split_once(p)] for a string [p]. *)
Fixpoint split_once_str (p x : str) : option (str * str) :=
  match strip_prefix p x with
  | Some rest => Some ([], rest)
  | None =>
      match x with
      | [] => None
      | c :: x => (λ '(a, b), (c :: a, b)) <$> split_once_str p x
      end
  end.
Lemma split_once_str_Some p x a b : split_once_str p x = Some (a, b) → x = a ++ p ++ b.
Proof.
  revert a; induction x as [|c x IH]; intros a; cbn [split_once_str];
    destruct (strip_prefix p _) as [rest|] eqn:E.
  1, 3: intros [= <- <-]; by apply strip_prefix_Some in E.
  - done.
  - intros ([a' b'] & Hx & [= -> ->])%fmap_Some. cbn. f_equal. by apply IH.
Qed.

Inductive StoreReadyError : Type := DigestConflict | Storage (d : store_detail).

Section expiry.
Context `{Sha256, Sha256Bytes, Uuids, IdemCodec}.

(** ** The expiry index *)

Definition expiry_root : path := idempotency_dir ++ [s".expiry"].
(** One directory per hexadecimal digit of the creation time. *)
Definition expiry_dir (created : Z) : path := expiry_root ++ ((λ c, [c]) <$> hex16 created).
Definition expiry_path (created : Z) (b : list Z) : path :=
  expiry_dir created ++ [sha256_bytes_hex b].

(** [publish]. *)
Definition publish (p : path) (b : list Z) : io (result store_detail ()) :=
  _ ←? temp_dir;
  id ← fresh_uuid;
  let tmp := temp_path ++ [sha256_bytes_hex b ++ s".tmp-" ++ id] in
  file ←? io_map_err DIo (open_no_follow tmp false true false true);
  _ ←? io_map_err DIo (_ ←? write_bytes file b; sync_all);
  _ ←? io_map_err DIo (rename_verified tmp p);
  io_map_err DIo (sync_dir (parent p)).

(** [register]: the index entry comes before the record it indexes. *)
Definition register (b : list Z) : io (result store_detail ()) :=
  match ready_from_slice b with
  | None => mret (Err DCorruptReady)
  | Some record =>
      _ ←? ensure_dir expiry_root;
      _ ←? io_each (λ n, ensure_dir (take (3 + n) (expiry_dir (rd_created_at_unix record))))
             (seq 0 16);
      publish (expiry_path (rd_created_at_unix record) b) b
  end.

Definition required_bytes (p : path) : io (result store_detail (list Z)) :=
  read ← read_bounded_idempotency_file p;
  mret match read with
       | RPresent b => Ok b
       | RAbsent => Err DMissingExpiry
       | RUnreadable d => Err d
       end.

(** The Ready a due entry names is retired, unless it was replaced. *)
Definition reap_ready (scheduled : list Z) (record : DurableIdempotencyRecord) (now ttl : Z) :
    io (result store_detail ()) :=
  let ready := idempotency_path (rd_key record) in
  read ← read_bounded_idempotency_file ready;
  match read with
  | RPresent b =>
      match ready_from_slice b with
      | None => mret (Err DCorruptReady)
      | Some current =>
          if negb (rd_key current =s rd_key record) then mret (Err DForeignReady)
          else if bool_decide (b = scheduled) then
            if negb (expired_at current now ttl) then mret (Err DNotDue)
            else
              _ ←? retire_ready_pending current None;
              io_map_err DIo (remove_file ready)
          else mret (Ok ())
      end
  | RAbsent => mret (Ok ())
  | RUnreadable d => mret (Err d)
  end.
Definition reap (work : path) (now ttl : Z) : io (result store_detail ()) :=
  scheduled ←? required_bytes work;
  match ready_from_slice scheduled with
  | None => mret (Err DCorruptReady)
  | Some record =>
      if negb (bool_decide (work = expiry_path (rd_created_at_unix record) scheduled))
      then mret (Err DExpiryIdentity)
      else
        _ ←? reap_ready scheduled record now ttl;
        _ ←? io_map_err DIo (sync_dir idempotency_dir);
        _ ←? io_map_err DIo (remove_file work);
        synced ← sync_dir (parent work);
        match synced with
        | Ok _ => mret (Ok ())
        | Err e => _ ←? register scheduled; mret (Err (DIo e))
        end
  end.

(** ** Staging files *)

Definition canonical_key_hash (name : str) : bool :=
  (str_len name =? 64)%Z && forallb lower_hex name.
Definition generated_temp (name : str) : bool :=
  match split_once_str (s".tmp-") name with
  | Some (stem, suffix) =>
      canonical_key_hash (default stem (strip_suffix (s".pending") stem))
      && uuid_v7_canonical suffix
  | None => false
  end.
(** [modified] is the modification time of the entry, [None] when it cannot
    be told or is before the epoch. *)
Definition clean_temp (dir : path) (name : str) (modified : option Z) (now : Z) :
    io (result store_detail ()) :=
  if negb (generated_temp name) then mret (Ok ()) else
  let p := dir ++ [name] in
  let unlink := (_ ←? io_map_err DIo (remove_file p); io_map_err DIo (sync_dir dir)) in
  meta ←? io_map_err DIo (symlink_metadata p);
  match meta with
  | None => mret (Err (DIo NotFound))
  | Some NLink => unlink
  | Some (NFile _) =>
      match modified with
      | None => mret (Err DClock)
      | Some modified => if older_than modified now PENDING_TTL_SECS then unlink else mret (Ok ())
      end
  | Some _ => mret (Ok ())
  end.
(** [discover], for an entry of the idempotency directory. *)
Definition discover (name : str) : io (result store_detail ()) :=
  let p := idempotency_dir ++ [name] in
  let is_ready := match strip_suffix (s".json") name with
                  | Some stem => canonical_key_hash stem | None => false end in
  if negb (is_ready || generated_temp name) then mret (Ok ()) else
  meta ←? io_map_err DIo (symlink_metadata p);
  match meta with
  | None => mret (Ok ())
  | Some n =>
      if is_ready then
        b ←? required_bytes p;
        match ready_from_slice b with
        | None => mret (Err DCorruptReady)
        | Some record =>
            if bool_decide (idempotency_path (rd_key record) = p) then register b
            else mret (Err DMigrationMismatch)
        end
      else
        match n with
        | NLink =>
            _ ←? io_map_err DIo (remove_file p);
            io_map_err DIo (sync_dir idempotency_dir)
        | NFile _ =>
            let target := temp_path ++ [name] in
            meta ← symlink_metadata target;
            match meta with
            | Ok (Some _) => mret (Err DMigrationMismatch)
            | _ =>
                _ ←? io_map_err DIo (rename_verified p target);
                _ ←? io_map_err DIo (sync_dir temp_path);
                io_map_err DIo (sync_dir idempotency_dir)
            end
        | _ => mret (Ok ())
        end
  end.

(** ** Publication *)

Definition check_live_ownership (digest run_id owner : str) (generation : Z)
    (pending : DurablePendingRecord) : result StoreReadyError () :=
  if negb (pn_owner pending =s owner) then Err (Storage DOwnedByOther)
  else if negb (pn_generation pending =? generation)%Z
  then Err (Storage (DSuperseded (pn_generation pending)))
  else if negb (pn_digest pending =s digest) then Err (Storage DDifferentContent)
  else if bool_decide (pn_run_id pending = Some run_id) then Ok ()
  else Err (Storage DNoReservedRun).

Fixpoint stage_ready (attempts : nat) (key : str) (b : list Z) : io (result store_detail path) :=
  match attempts with
  | O => mret (Err DCollided)
  | S attempts =>
      _ ←? temp_dir;
      id ← fresh_uuid;
      let tmp := temp_path ++ [ready_temp key id] in
      opened ← open_no_follow tmp false true false true;
      match opened with
      | Ok file =>
          written ← (_ ←? write_bytes file b; sync_all);
          match written with
          | Ok _ => mret (Ok tmp)
          | Err e => _ ← remove_file tmp; mret (Err (DIo e))
          end
      | Err AlreadyExists => stage_ready attempts key b
      | Err e => mret (Err (DIo e))
      end
  end.

(** The record is indexed, staged and renamed into place; from then on it is
    committed, and its claim is retired as far as that succeeds. *)
Definition commit_ready (key owner : str) (record : DurableIdempotencyRecord) :
    io (result StoreReadyError DurableIdempotencyRecord) :=
  let b := ready_to_vec record in
  _ ←? io_map_err Storage (register b);
  tmp ←? io_map_err Storage (stage_ready 3 key b);
  renamed ← rename_verified tmp (idempotency_path key);
  match renamed with
  | Err e => _ ← remove_file tmp; mret (Err (Storage (DIo e)))
  | Ok _ =>
      _ ← sync_dir idempotency_dir;
      _ ← retire_ready_pending record (Some owner);
      mret (Ok record)
  end.

Definition store_durable_ready_gated (gate : ExecutionGate) (key digest run_id owner : str)
    (generation ttl : Z) : io (result StoreReadyError DurableIdempotencyRecord) :=
  match validate gate key with
  | Err d => mret (Err (Storage d))
  | Ok _ =>
      _ ←? io_map_err Storage acquire_idempotency_lock;
      snapshot ←? io_map_err Storage (read_key_files_snapshot key);
      '(existing, _, snapshot) ←?
        io_map_err Storage (reap_expired_ready_snapshot key snapshot ttl);
      pending ← parse_snapshot key (sn_pending snapshot);
      match existing with
      | Some existing =>
          if negb (rd_digest existing =s digest) then mret (Err DigestConflict)
          else match pending with
          | PValid pending | PExpired pending =>
              match check_live_ownership digest run_id owner generation pending with
              | Err e => mret (Err e)
              | Ok _ =>
                  if (rd_run_id existing =s run_id) && (rd_generation existing =? generation)%Z
                  then _ ← retire_ready_pending existing (Some owner); mret (Ok existing)
                  else mret (Ok existing)
              end
          | PAbsent => mret (Ok existing)
          | PUnusable d => mret (Err (Storage (DUnusable d)))
          end
      | None =>
          match pending with
          | PValid pending | PExpired pending =>
              match check_live_ownership digest run_id owner generation pending with
              | Err e => mret (Err e)
              | Ok _ =>
                  id ← fresh_uuid;
                  now ←? io_map_err Storage now_unix;
                  commit_ready key owner (mkReady key digest run_id now generation (Some id))
              end
          | PAbsent => mret (Err (Storage DClaimAbsent))
          | PUnusable d => mret (Err (Storage (DUnusable d)))
          end
      end
  end.

(** ** Sidecars of finished runs *)

Definition orphan_path_for_run (run_id : str) : path := [run_id; s"meta"; s"idempotency.json"].
Definition unsafe_run_id (run_id : str) : bool :=
  (run_id =s []) || existsb (contains_char run_id) [47; 92; 0]%Z
  || existsb (str_eqb run_id) [s"."; s".."; s"idempotency"].
Definition write_orphan_record (run_id key digest : str) : io (result store_detail ()) :=
  if unsafe_run_id run_id then mret (Err DUnsafeRunId) else
  let p := orphan_path_for_run run_id in
  _ ←? io_map_err DIo (create_dir_all (parent p));
  now ←? now_unix;
  let b := orphan_to_vec (mkOrphan key digest run_id now) in
  if (MAX_IDEMPOTENCY_FILE_BYTES <? Z.of_nat (length b))%Z then mret (Err DOrphanTooLarge) else
  id ← fresh_uuid;
  let tmp := parent p ++ [s"idempotency.tmp-" ++ id] in
  file ←? io_map_err DIo (open_no_follow tmp false true false true);
  _ ←? io_map_err DIo (write_bytes file b);
  _ ←? io_map_err DIo sync_all;
  renamed ← rename_verified tmp p;
  match renamed with
  | Err e => _ ← remove_file tmp; mret (Err (DIo e))
  | Ok _ => io_map_err DIo (sync_dir (parent p))
  end.

(** [find_orphan_run]; the names are the directory entries that are UTF-8, in
    the order the directory is read. *)
Fixpoint find_orphan_go (key : str) (ttl : Z) (found : option (str * str)) (names : list str) :
    io (result store_detail (option (str * str))) :=
  match names with
  | [] => mret (Ok found)
  | name :: names =>
      let continue := find_orphan_go key ttl found names in
      if (name =s s"idempotency") || starts_with name (s".") then continue else
      meta ←? io_map_err DIo (symlink_metadata [name]);
      if negb (bool_decide (meta = Some NDir)) then continue else
      let p := orphan_path_for_run name in
      read ← read_bounded_idempotency_file p;
      match read with
      | RAbsent | RUnreadable _ => continue
      | RPresent b =>
          match orphan_from_slice b with
          | None => continue
          | Some record =>
              if negb (or_key record =s key) then continue else
              now ←? now_unix;
              if older_than (or_created_at_unix record) now (Z.max 1 ttl) then
                _ ← remove_file p; continue
              else if negb (or_run_id record =s name) then mret (Err DOrphanMisplaced)
              else match found with
                   | Some (run, digest) =>
                       if (run =s or_run_id record) && (digest =s or_digest record)
                       then continue else mret (Err DOrphanDuplicate)
                   | None =>
                       find_orphan_go key ttl (Some (or_run_id record, or_digest record)) names
                   end
          end
      end
  end.
Definition find_orphan_run (key : str) (ttl : Z) (names : list str) :
    io (result store_detail (option (str * str))) := find_orphan_go key ttl None names.

(** ** Waiting for a peer

    One round of the polling loop of [wait_for_peer_ready_with_deadline];
    [late] says whether the deadline has passed when it is looked at. *)
Inductive WaitOutcome : Type :=
| WReady (r : DurableIdempotencyRecord)
| WRetryClaim (adopted : option str).
Definition answer_ready (digest : str) (r : DurableIdempotencyRecord) :
    result ApiHttpError WaitOutcome :=
  if rd_digest r =s digest then Ok (WReady r) else Err HConflict.
Definition recheck_ready (key digest : str) (ttl : Z) (otherwise : result ApiHttpError WaitOutcome) :
    io (result ApiHttpError WaitOutcome) :=
  ready ←? io_map_err HInternal (load_durable_ready_result key ttl);
  mret match ready with Some r => answer_ready digest r | None => otherwise end.
Definition wait_round (key digest : str) (ttl : Z) (late : bool) :
    io (result ApiHttpError (option WaitOutcome)) :=
  let some := io_map (fmap (M := result ApiHttpError) Some) in
  ready ← load_durable_ready_result key ttl;
  pending ← read_durable_pending key;
  match ready with
  | Err d => mret (Err (HInternal d))
  | Ok (Some r) => mret (Some <$> answer_ready digest r)
  | Ok None =>
      match pending with
      | PUnusable d => mret (Err (HInternal d))
      | PAbsent => some (recheck_ready key digest ttl (Ok (WRetryClaim None)))
      | PExpired p =>
          if negb (pn_digest p =s digest) then mret (Err HConflict)
          else some (recheck_ready key digest ttl (Ok (WRetryClaim (pn_run_id p))))
      | PValid p =>
          if negb (pn_digest p =s digest) then mret (Err HConflict)
          else if late then some (recheck_ready key digest ttl (Err HUnavailable))
          else mret (Ok None)
      end
  end.
End expiry.
