(* ===== verification/IdemMoves.v ===== *)
(** * What the store operations do to a key

    Rules to run programs of [IdemWorld] symbolically, and the effect of every
    operation of the store on the two files of a key, whatever the file system
    answers and wherever the process dies. *)

From stdpp Require Import gmap.
From S2P Require Import Prelude Str TraceIds PathPolicy IdemWorld IdemStore IdemExpiry.

#[local] Arguments s : simpl never.

(** ** Running programs *)

(** [post m w Q]: run in [w], the program [m] ends as [Q] says. *)
Definition post {A} (m : io A) (w : world) (Q : outcome A → world → Prop) : Prop :=
  Q (m w).1 (m w).2.

Lemma post_run {A} (m : io A) w (Q : outcome A → world → Prop) o w' :
  m w = (o, w') → post m w Q → Q o w'.
Proof. unfold post. by intros ->. Qed.
Lemma post_mono {A} (m : io A) w (P Q : outcome A → world → Prop) :
  (∀ o w', P o w' → Q o w') → post m w P → post m w Q.
Proof. unfold post. auto. Qed.
Lemma post_and {A} (m : io A) w (P Q : outcome A → world → Prop) :
  post m w P → post m w Q → post m w (λ o w', P o w' ∧ Q o w').
Proof. unfold post. auto. Qed.
Lemma post_ret {A} (a : A) w (Q : outcome A → world → Prop) : Q (Done a) w → post (mret a) w Q.
Proof. done. Qed.
Lemma post_bind {A B} (m : io A) (k : A → io B) w Q :
  post m w (λ o w1, match o with Done a => post (k a) w1 Q | Crashed => Q Crashed w1 end) →
  post (m ≫= k) w Q.
Proof.
  unfold post, mbind, io_bind. destruct (m w) as [[a|] w1]; cbn; done.
Qed.
Lemma post_try {E A B} (m : io (result E A)) (k : A → io (result E B)) w Q :
  post m w (λ o w1, match o with
                    | Done (Ok a) => post (k a) w1 Q
                    | Done (Err e) => Q (Done (Err e)) w1
                    | Crashed => Q Crashed w1
                    end) →
  post (try_bind m k) w Q.
Proof.
  intros H. unfold try_bind. apply post_bind. eapply post_mono; [|exact H].
  by intros [[a|e]|] w1.
Qed.
Lemma post_map {A B} (f : A → B) (m : io A) w Q :
  post m w (λ o w1, Q (match o with Done a => Done (f a) | Crashed => Crashed end) w1) →
  post (io_map f m) w Q.
Proof.
  intros H. unfold io_map. apply post_bind. eapply post_mono; [|exact H].
  by intros [a|] w1.
Qed.

(** ** Calm programs

    Files of keys are the [.json] files of the idempotency directory.  A calm
    program leaves them alone. *)
Definition slot_shape (p : path) : bool :=
  match p with [_; name] => ends_with name (s".json") | _ => false end.
Definition aside (p : path) : Prop := slot_shape p = false ∧ p ≠ idempotency_dir.

Definition gates (w : world) : gmap path nat * gset nat * nat := (w_gates w, w_locked w, w_inodes w).
Record calm (w w' : world) : Prop := {
  calm_slots : ∀ p, slot_shape p = true → w_files w' !! p = w_files w !! p;
  calm_dir : w_files w !! idempotency_dir = Some NDir → w_files w' !! idempotency_dir = Some NDir;
  calm_clock : w_clock w' `suffix_of` w_clock w;
  calm_gates : gates w' = gates w;
}.
#[global] Instance calm_preorder : PreOrder calm.
Proof.
  split.
  - by intros w.
  - intros x y z [A1 B1 C1 D1] [A2 B2 C2 D2]. split; [|by auto|by etrans|by etrans].
    intros p Hp. by rewrite A2, A1.
Qed.
Definition silent {A} (m : io A) : Prop := ∀ w, post m w (λ _ w', calm w w').

Create HintDb silent.

Lemma silent_ret {A} (a : A) : silent (mret a).
Proof. intros w. apply post_ret. reflexivity. Qed.
Lemma silent_bind {A B} (m : io A) (k : A → io B) :
  silent m → (∀ a, silent (k a)) → silent (m ≫= k).
Proof.
  intros Hm Hk w. apply post_bind. eapply post_mono; [|apply Hm].
  intros [a|] w1 H1; [|done]. eapply post_mono; [|apply Hk]. intros o w2 H2. by etrans.
Qed.
Lemma silent_try {E A B} (m : io (result E A)) (k : A → io (result E B)) :
  silent m → (∀ a, silent (k a)) → silent (try_bind m k).
Proof.
  intros Hm Hk. apply silent_bind; [done|]. intros [a|e]; [apply Hk|apply silent_ret].
Qed.
Lemma silent_map {A B} (f : A → B) (m : io A) : silent m → silent (io_map f m).
Proof. intros Hm. apply silent_bind; [done|]. intros; apply silent_ret. Qed.
Lemma silent_each {E A} (f : A → io (result E ())) l :
  (∀ x, x ∈ l → silent (f x)) → silent (io_each f l).
Proof.
  induction l as [|x l IH]; intros Hf; cbn [io_each]; [apply silent_ret|].
  apply silent_try; [apply Hf; by left|]. intros _. apply IH. intros; apply Hf; by right.
Qed.

(** A change of files that keeps the files of keys. *)
Definition tame (g : gmap path node → gmap path node) : Prop := ∀ f,
  (∀ p, slot_shape p = true → g f !! p = f !! p) ∧
  (f !! idempotency_dir = Some NDir → g f !! idempotency_dir = Some NDir).
Lemma silent_effect {A} (fine : gmap path node → result io_kind A * gmap path node) torn :
  tame (λ f, (fine f).2) → (∀ n, tame (torn n)) → silent (file_effect fine torn).
Proof.
  intros Hf Ht w. unfold post, file_effect.
  assert (Hfine : ∀ answers,
    calm w (let '(r, files) := fine (w_files w) in
      (Done r, w <| w_files := files |> <| w_answers := tail answers |>)).2).
  { intros answers. specialize (Hf (w_files w)). cbn beta in Hf.
    destruct (fine (w_files w)) as [r files]. cbn in *. destruct Hf. by split. }
  destruct (w_answers w) as [|[|n| |n] rest]; try apply Hfine;
    specialize (Ht n (w_files w)) as []; by split.
Qed.
Lemma tame_id : tame (λ f, f).
Proof. done. Qed.
Lemma silent_atomic {A} (fine : gmap path node → result io_kind A * gmap path node) :
  tame (λ f, (fine f).2) → silent (atomic fine).
Proof. intros H. apply silent_effect; [done|]. intros _. apply tame_id. Qed.
Lemma silent_observe {A} (look : gmap path node → result io_kind A) : silent (observe look).
Proof. apply silent_atomic. apply tame_id. Qed.

Lemma insert_aside (p : path) (n : node) (f : gmap path node) : aside p →
  (∀ q, slot_shape q = true → <[p := n]> f !! q = f !! q) ∧
  (f !! idempotency_dir = Some NDir → <[p := n]> f !! idempotency_dir = Some NDir).
Proof.
  intros [Hp Hd]. split.
  - intros q Hq. apply lookup_insert_ne. intros ->. congruence.
  - rewrite lookup_insert_ne by done. done.
Qed.
Lemma delete_aside (p : path) (f : gmap path node) : aside p →
  (∀ q, slot_shape q = true → delete p f !! q = f !! q) ∧
  (f !! idempotency_dir = Some NDir → delete p f !! idempotency_dir = Some NDir).
Proof.
  intros [Hp Hd]. split.
  - intros q Hq. apply lookup_delete_ne. intros ->. congruence.
  - rewrite lookup_delete_ne by done. done.
Qed.
Lemma insert_dir_tame (p : path) (f : gmap path node) : slot_shape p = false →
  (∀ q, slot_shape q = true → <[p := NDir]> f !! q = f !! q) ∧
  (f !! idempotency_dir = Some NDir → <[p := NDir]> f !! idempotency_dir = Some NDir).
Proof.
  intros Hp. split.
  - intros q Hq. apply lookup_insert_ne. intros ->. congruence.
  - intros Hd. destruct (decide (p = idempotency_dir)) as [->|].
    + by rewrite lookup_insert_eq.
    + by rewrite lookup_insert_ne.
Qed.

(** An atomic effect by cases on what it does. *)
Ltac tame_cases :=
  let f := fresh "f" in intros f; cbn beta;
  repeat (case_match; cbn [snd]);
  auto using insert_aside, delete_aside, insert_dir_tame.

Lemma silent_open_once p read write create create_new :
  (create || create_new = true → aside p) →
  silent (open_no_follow_once p read write create create_new).
Proof.
  intros Hp. unfold open_no_follow_once. case_match; [apply silent_ret|].
  case_match; [|apply silent_ret]. apply silent_atomic. tame_cases.
Qed.
Lemma silent_open_or_create tries p read write :
  aside p → silent (open_no_follow_or_create tries p read write).
Proof.
  intros Hp. induction tries as [|tries IH]; cbn [open_no_follow_or_create]; [apply silent_ret|].
  apply silent_bind; [by apply silent_open_once|]. intros created. apply silent_bind.
  - repeat case_match; try apply silent_ret. by apply silent_open_once.
  - intros opened. repeat case_match; try apply silent_ret. done.
Qed.
Lemma silent_open p read write create create_new :
  (create || create_new = true → aside p) → silent (open_no_follow p read write create create_new).
Proof.
  intros Hp. unfold open_no_follow. case_match eqn:E; [|by apply silent_open_once].
  apply silent_open_or_create. apply Hp. by destruct create.
Qed.
(** A handle is the path it was opened at. *)
Definition handle_of (p : path) (o : outcome (result io_kind path)) : Prop :=
  ∀ h, o = Done (Ok h) → h = p.
Lemma open_once_handle p read write create create_new w :
  post (open_no_follow_once p read write create create_new) w (λ o _, handle_of p o).
Proof.
  unfold post, handle_of, open_no_follow_once. case_match; [by intros ? [=]|].
  case_match; [|by intros ? [=]]. unfold atomic, file_effect.
  destruct (w_answers w) as [|[] ?]; cbn; repeat case_match; cbn; naive_solver.
Qed.
Lemma open_new_handle p w : post (open_no_follow p false true false true) w (λ o _, handle_of p o).
Proof. apply open_once_handle. Qed.
Lemma silent_read limit p : silent (read_to_end limit p).
Proof. apply silent_observe. Qed.
Lemma silent_write p b : aside p → silent (write_bytes p b).
Proof.
  intros Hp. apply silent_effect; [|intros n]; intros f; by apply insert_aside.
Qed.
Lemma silent_remove p : aside p → silent (remove_file p).
Proof. intros Hp. apply silent_atomic. tame_cases. Qed.
Lemma silent_rename src dst : aside src → aside dst → silent (rename_verified src dst).
Proof.
  intros Hs Hd. unfold rename_verified. repeat (case_match; try apply silent_ret).
  apply silent_atomic. intros f. cbn beta.
  destruct (delete_aside src f Hs) as [D1 D2].
  assert (Hmv : ∀ n : node, (∀ q, slot_shape q = true → <[dst := n]> (delete src f) !! q = f !! q) ∧
    (f !! idempotency_dir = Some NDir → <[dst := n]> (delete src f) !! idempotency_dir = Some NDir)).
  { intros n. destruct (insert_aside dst n (delete src f) Hd) as [I1 I2]. split; [|by auto].
    intros q Hq. by rewrite I1, D1. }
  repeat (case_match; cbn [snd]); auto.
Qed.
Lemma silent_sync p : silent (sync_dir p).
Proof. apply silent_observe. Qed.
Lemma silent_settle : silent sync_all.
Proof. apply silent_observe. Qed.
Lemma silent_metadata p : silent (symlink_metadata p).
Proof. apply silent_observe. Qed.
Lemma silent_create_dir p : slot_shape p = false → silent (create_dir p).
Proof. intros Hp. apply silent_atomic. tame_cases. Qed.
Lemma silent_try_lock : silent try_lock.
Proof.
  intros w. unfold try_lock.
  assert (silent (_ ←? sync_all; mret (Ok (E := io_kind) true))) as H
    by (apply silent_try; [apply silent_settle|intros; apply silent_ret]).
  specialize (H w). unfold post in *.
  destruct (w_answers w) as [|[]]; try exact H. cbn. by split.
Qed.
Lemma silent_uuid `{Uuids} : silent fresh_uuid.
Proof. intros w. by split. Qed.
Lemma silent_clock : silent read_clock.
Proof.
  intros w. split; cbn; try done. destruct (w_clock w); [done|]. by apply suffix_cons_r.
Qed.

(** ** Paths *)

Lemma ends_with_app (x p : str) : ends_with (x ++ p) p = true.
Proof. unfold ends_with. by rewrite (proj2 (strip_suffix_Some p (x ++ p) x) eq_refl). Qed.
Lemma slot_shape_length p : slot_shape p = true → length p = 2.
Proof. destruct p as [|? [|? [|]]]; cbn; done. Qed.
Lemma aside_long (p : path) : 3 ≤ length p → aside p.
Proof.
  intros Hl. split; [|by intros ->; cbn in Hl; lia].
  destruct (slot_shape p) eqn:E; [|done]. apply slot_shape_length in E. lia.
Qed.

Section moves.
Context `{SL : Sha256Laws} `{SB : Sha256Bytes} `{U : Uuids} `{IdemCodec}.

Lemma ready_slot key : slot_shape (idempotency_path key) = true.
Proof. apply ends_with_app. Qed.
Lemma pending_slot key : slot_shape (pending_path key) = true.
Proof.
  cbn. change (s".pending.json") with (s".pending" ++ s".json"). rewrite app_assoc.
  apply ends_with_app.
Qed.
Lemma ready_pending_ne key key' : idempotency_path key ≠ pending_path key'.
Proof.
  unfold idempotency_path, pending_path. cbn. intros [= E].
  apply (f_equal length) in E. rewrite !length_app in E.
  rewrite (proj1 (sha256_form key)), (proj1 (sha256_form key')) in E. done.
Qed.
Lemma temp_aside name : aside (temp_path ++ [name]).
Proof. apply aside_long. cbn. lia. Qed.
Lemma expiry_aside created b : aside (expiry_path created b).
Proof. apply aside_long. unfold expiry_path. rewrite length_app. cbn. lia. Qed.
Lemma orphan_aside run : aside (orphan_path_for_run run).
Proof. apply aside_long. cbn. lia. Qed.

(** ** The parts that are calm *)

Lemma silent_now : silent now_unix.
Proof. apply silent_map, silent_clock. Qed.
Lemma silent_ensure p : slot_shape p = false → silent (ensure_dir p).
Proof.
  intros Hp. apply silent_bind; [by apply silent_create_dir|]. intros made.
  repeat case_match; try apply silent_ret;
    (apply silent_try; [apply silent_map, silent_metadata|]; intros meta;
     repeat case_match; try apply silent_ret; apply silent_map, silent_sync).
Qed.
Lemma silent_temp_dir : silent temp_dir.
Proof. by apply silent_ensure. Qed.
Lemma silent_create_all p :
  (∀ q, q ∈ prefixes p → slot_shape q = false) → silent (create_dir_all p).
Proof.
  intros Hp. apply silent_each. intros q Hq. apply silent_bind; [apply silent_create_dir; auto|].
  intros made. repeat case_match; try apply silent_ret. apply silent_observe.
Qed.
Lemma silent_metadata_lock : silent acquire_idempotency_lock.
Proof.
  apply silent_map, silent_try.
  { apply silent_create_all. intros q. cbn. rewrite list_elem_of_singleton. by intros ->. }
  intros _. apply silent_try; [|intros; apply silent_settle].
  apply silent_open. by split.
Qed.
Lemma silent_bounded p : silent (read_bounded_idempotency_file p).
Proof.
  apply silent_bind; [by apply silent_open|]. intros opened.
  repeat case_match; try apply silent_ret.
  apply silent_bind; [apply silent_read|intros; apply silent_ret].
Qed.
Lemma silent_parse key b : silent (parse_pending_bytes key b).
Proof.
  unfold parse_pending_bytes. repeat (case_match; try apply silent_ret).
  apply silent_bind; [apply silent_now|intros; apply silent_ret].
Qed.
Lemma silent_parse_snapshot key b : silent (parse_snapshot key b).
Proof. destruct b; [apply silent_parse|apply silent_ret]. Qed.
(** A fresh file is opened and the rest works on its handle. *)
Lemma silent_new {B} p (k : result io_kind path → io B) :
  aside p → (∀ e, silent (k (Err e))) → silent (k (Ok p)) →
  silent (open_no_follow p false true false true ≫= k).
Proof.
  intros Hp He Hk w. apply post_bind.
  eapply post_mono; [|apply post_and; [by apply (silent_open p)|apply open_new_handle]].
  intros [[h|e]|] w1 [Hc Hh]; [rewrite (Hh h eq_refl)| |done];
    (eapply post_mono; [|first [apply Hk|apply He]]; intros o w2 H2; by etrans).
Qed.
Lemma silent_new_err {E B} (f : io_kind → E) p (k : path → io (result E B)) :
  aside p → silent (k p) → silent (try_bind (io_map_err f (open_no_follow p false true false true)) k).
Proof.
  intros Hp Hk w. pose proof (silent_new p
    (λ r, match map_err f r with Ok a => k a | Err e => mret (Err e) end) Hp) as Hn.
  specialize (Hn (λ e, silent_ret _) Hk w). apply post_try, post_map.
  unfold post, mbind, io_bind in *.
  destruct (open_no_follow p false true false true w) as [[[h|e]|] w1]; exact Hn.
Qed.

(** ** Staging, renaming, removing *)

Definition put (p : path) (n : node) (w : world) : world := w <| w_files := <[p := n]> (w_files w) |>.
Definition cut (p : path) (w : world) : world := w <| w_files := delete p (w_files w) |>.

Lemma observe_files {A} (look : gmap path node → result io_kind A) w :
  post (observe look) w (λ _ w', w_files w' = w_files w).
Proof. unfold post, observe, atomic, file_effect. by destruct (w_answers w) as [|[] ?]. Qed.
Lemma write_written p b w :
  post (_ ←? write_bytes p b; sync_all) w (λ o w', o = Done (Ok ()) → w_files w' !! p = Some (NFile b)).
Proof.
  apply post_try. unfold post at 1, write_bytes, file_effect.
  assert (Hw : ∀ w1, w_files w1 = <[p := NFile b]> (w_files w) →
    post sync_all w1 (λ o w', o = Done (Ok ()) → w_files w' !! p = Some (NFile b))).
  { intros w1 H1. eapply post_mono; [|apply observe_files]. cbn. intros o w' -> _.
    by rewrite H1, lookup_insert_eq. }
  destruct (w_answers w) as [|[] ?]; cbn; try done; by apply Hw.
Qed.
Definition staged {E} (tmp : path) (b : list Z) (w : world) (o : outcome (result E ())) (w' : world) :
    Prop := calm w w' ∧ (o = Done (Ok ()) → w_files w' !! tmp = Some (NFile b)).
Lemma stage_pending_staged tmp b w :
  aside tmp → post (stage_pending tmp b) w (staged tmp b w).
Proof.
  intros Ht. apply post_and.
  - apply silent_new; [done|intros; apply silent_ret|].
    apply silent_try; [by apply silent_write|]. intros _. apply silent_settle.
  - unfold stage_pending. apply post_try. eapply post_mono; [|apply open_new_handle].
    intros [[h|e]|] w1 Hh; [|done..]. rewrite (Hh h eq_refl). apply write_written.
Qed.

(** A staged path: what a rename to a key's file publishes. *)
Definition ready_to_move {E} (b : list Z) (w : world) (o : outcome (result E path)) (w' : world) :
    Prop :=
  calm w w' ∧ ∀ tmp, o = Done (Ok tmp) → aside tmp ∧ w_files w' !! tmp = Some (NFile b).
Lemma ready_to_move_calm {E} b w w1 (o : outcome (result E path)) w' :
  calm w w1 → ready_to_move b w1 o w' → ready_to_move b w o w'.
Proof. intros H1 [H2 H3]. split; [by etrans|done]. Qed.

Lemma stage_claim_ready n key b w : post (stage_claim n key b) w (ready_to_move b w).
Proof.
  revert w; induction n as [|n IH]; intros w; cbn [stage_claim]; [by apply post_ret|].
  apply post_try. eapply post_mono; [|apply silent_temp_dir].
  intros [[[]|e]|] w1 H1; [|by split..]. apply post_bind.
  eapply post_mono; [|apply silent_uuid]. intros [id|] w2 H2; [|by split; [etrans|]].
  assert (calm w w2) as H02 by (by etrans). apply post_bind.
  eapply post_mono; [|apply stage_pending_staged, temp_aside].
  intros [[[]|e]|] w3 [H3 H4]; [| |by split; [etrans|]].
  - apply post_ret. split; [by etrans|]. intros tmp [= <-]. split; [apply temp_aside|by apply H4].
  - destruct e; try (apply post_ret; by split; [etrans|]).
    eapply post_mono; [|apply IH]. intros o w4. apply ready_to_move_calm. by etrans.
Qed.
Lemma stage_ready_ready n key b w : post (stage_ready n key b) w (ready_to_move b w).
Proof.
  revert w; induction n as [|n IH]; intros w; cbn [stage_ready]; [by apply post_ret|].
  apply post_try. eapply post_mono; [|apply silent_temp_dir].
  intros [[[]|e]|] w1 H1; [|by split..]. apply post_bind.
  eapply post_mono; [|apply silent_uuid]. intros [id|] w2 H2; [|by split; [etrans|]].
  set (tmp := temp_path ++ [ready_temp key id]).
  assert (calm w w2) as H02 by (by etrans). apply post_bind.
  eapply post_mono; [|apply post_and; [apply (silent_open tmp); intros; apply temp_aside
                                      |apply open_new_handle]].
  intros [[h|e]|] w3 [H3 Hh]; [rewrite (Hh h eq_refl)| |by split; [etrans|]].
  - apply post_bind. eapply post_mono; [|apply post_and; [|apply (write_written tmp b)]].
    2: { apply silent_try; [apply silent_write, temp_aside|]. intros _. apply silent_settle. }
    intros [[[]|e]|] w4 [H4 Hw]; [| |by split; [do 2 etrans; eauto|]].
    + apply post_ret. split; [by do 2 (etrans; [eassumption|])|]. intros ? [= <-].
      split; [apply temp_aside|by apply Hw].
    + apply post_bind. eapply post_mono; [|apply (silent_remove tmp), temp_aside].
      intros [?|] w5 H5; [apply post_ret|]; (split; [by do 3 (etrans; [eassumption|])|done]).
  - destruct e; try (apply post_ret; by split; [etrans|]).
    eapply post_mono; [|apply IH]. intros o w4. apply ready_to_move_calm. by etrans.
Qed.

(** Index entries are written aside. *)
Lemma silent_publish p b : aside p → silent (publish p b).
Proof.
  intros Hp. apply silent_try; [apply silent_temp_dir|]. intros _.
  apply silent_bind; [apply silent_uuid|]. intros id.
  apply silent_new_err; [apply temp_aside|].
  apply silent_try.
  { apply silent_map, silent_try; [apply silent_write, temp_aside|]. intros _. apply silent_settle. }
  intros _. apply silent_try; [apply silent_map, silent_rename; [apply temp_aside|done]|].
  intros _. apply silent_map, silent_sync.
Qed.
Lemma expiry_dir_shape created n : slot_shape (take (3 + n) (expiry_dir created)) = false.
Proof. reflexivity. Qed.
Lemma silent_register b : silent (register b).
Proof.
  unfold register. destruct (ready_from_slice b) as [r|]; [|apply silent_ret].
  apply silent_try; [by apply silent_ensure|]. intros _. apply silent_try.
  - apply silent_each. intros n _. apply silent_ensure, expiry_dir_shape.
  - intros _. apply silent_publish, expiry_aside.
Qed.

(** The atomic changes to the file of a key. *)
Lemma calm_put p n w w' : calm w w' → calm (put p n w) (put p n w').
Proof.
  intros [A B C D]. unfold put. split; cbn.
  - intros q Hq. destruct (decide (p = q)) as [->|]; [by rewrite !lookup_insert_eq|].
    rewrite !lookup_insert_ne by done. auto.
  - destruct (decide (p = idempotency_dir)) as [->|]; [by rewrite !lookup_insert_eq|].
    rewrite !lookup_insert_ne by done. auto.
  - done.
  - done.
Qed.
Lemma rename_publishes tmp dst b w :
  aside tmp → slot_shape dst = true → w_files w !! tmp = Some (NFile b) →
  post (rename_verified tmp dst) w (λ o w',
    (calm w w' ∧ o ≠ Done (Ok ())) ∨ (o = Done (Ok ()) ∧ calm (put dst (NFile b) w) w')).
Proof.
  intros Ht Hd Hb. unfold rename_verified, post.
  destruct (file_parts tmp); [|by left]. destruct (file_parts dst); [|by left].
  unfold atomic, file_effect.
  destruct (w_answers w) as [|[] rest]; cbn; try (left; by split);
    (destruct (pin_parent _ (parent tmp)); [|left; by split];
     destruct (pin_parent _ (parent dst)); [|left; by split]; rewrite Hb;
     destruct (w_files w !! dst) as [[]|] eqn:Ed; cbn; try (left; by split); right; (split; [done|]);
     (split; cbn; [|rewrite !lookup_insert_ne by (intros ->; discriminate Hd)|done|done];
      [intros q Hq; destruct (decide (dst = q)) as [->|]; [by rewrite !lookup_insert_eq|];
       rewrite !lookup_insert_ne by done; rewrite lookup_delete_ne; [done|];
       intros ->; by destruct Ht; congruence
      |rewrite lookup_delete_ne; [done|]; apply Ht])).
Qed.
Lemma remove_cuts p w :
  slot_shape p = true →
  post (remove_file p) w (λ o w',
    (calm w w' ∧ o ≠ Done (Ok ())) ∨ (o = Done (Ok ()) ∧ calm (cut p w) w')).
Proof.
  intros Hp. unfold post, remove_file, atomic, file_effect.
  destruct (w_answers w) as [|[] rest]; cbn; try (left; by split);
    (destruct (w_files w !! p) as [[]|]; cbn; try (left; by split); right; (split; [done|]; by split)).
Qed.

(** What a bounded read says about the file. *)
Definition read_says (p : path) (w : world) (o : outcome BoundedRead) : Prop :=
  match o with
  | Done (RPresent b) => w_files w !! p = Some (NFile b)
  | Done RAbsent => is_dir (w_files w) (parent p) = true → w_files w !! p = None
  | _ => True
  end.
Definition read_post (p : path) (w : world) (o : outcome BoundedRead) (w' : world) : Prop :=
  calm w w' ∧ w_files w' = w_files w ∧ read_says p w o.
Lemma open_reads p w :
  post (open_no_follow p true false false false) w (λ o w',
    calm w w' ∧ w_files w' = w_files w ∧
    match o with
    | Done (Ok h) => h = p ∧ ∃ b, w_files w !! p = Some (NFile b)
    | Done (Err NotFound) => is_dir (w_files w) (parent p) = true → w_files w !! p = None
    | _ => True
    end).
Proof.
  apply post_and; [by apply silent_open|]. unfold post, open_no_follow, open_no_follow_once.
  cbn [andb negb]. destruct (file_parts p) as [|e] eqn:Ef.
  2: { cbn. unfold file_parts in Ef. repeat case_match; simplify_eq; done. }
  unfold atomic, file_effect.
  assert (Hpin : pin_parent (w_files w) (parent p) = Err NotFound →
    is_dir (w_files w) (parent p) = true → w_files w !! p = None).
  { unfold pin_parent. intros Hn Hd. by rewrite Hd in Hn. }
  destruct (w_answers w) as [|[] rest]; cbn; try done;
    (destruct (pin_parent _ _) as [[]|[]]; cbn; try by auto;
     destruct (w_files w !! p) as [[]|] eqn:E; cbn; by eauto).
Qed.
Lemma bounded_reads p w : post (read_bounded_idempotency_file p) w (read_post p w).
Proof.
  unfold read_bounded_idempotency_file. apply post_bind. eapply post_mono; [|apply open_reads].
  intros [[h|e]|] w1 (H1 & H2 & H3); [|destruct e; by apply post_ret|by split].
  destruct H3 as [-> [b Hb]]. apply post_bind. eapply post_mono; [|apply post_and;
    [apply (silent_read _ p)|apply post_and; [apply observe_files|]]].
  2: instantiate (1 := λ o _, ∀ b', o = Done (Ok b') →
       length b' ≤ Z.to_nat MAX_IDEMPOTENCY_FILE_BYTES → b' = b).
  - intros [[b'|e]|] w2 (H4 & H5 & H6);
      [|by apply post_ret; split; [etrans|split; [congruence|]]|by split; [etrans|split; [congruence|]]].
    apply post_ret. split; [by etrans|]. split; [congruence|].
    destruct (Z.ltb_spec MAX_IDEMPOTENCY_FILE_BYTES (Z.of_nat (length b'))); cbn; [done|].
    rewrite (H6 b' eq_refl) by lia. done.
  - unfold post, read_to_end, observe, atomic, file_effect. intros b'.
    assert (Hc : content (w_files w1) p = b) by (unfold content; by rewrite H2, Hb).
    rewrite Hc. destruct (w_answers w1) as [|[] ?]; cbn [fst]; try done; intros [= <-];
      (case_if; [done|]; rewrite length_take; unfold MAX_IDEMPOTENCY_FILE_BYTES in *; lia).
Qed.
End moves.
