(* ===== verification/IdemOps.v ===== *)
(** * The operations of the idempotency store: claims, results, gates and frames *)

From stdpp Require Import gmap.
From S2P Require Import Prelude Str TraceIds PathPolicy IdemWorld IdemStore IdemExpiry IdemMoves.

#[local] Arguments s : simpl never.

(** ** The operations of the idempotency store

    What claims, publications, releases and sweeps do to the Ready record and
    the Pending claim of a key. *)

Section ops.
Context `{SL : Sha256Laws} `{SB : Sha256Bytes} `{U : Uuids} `{CL : IdemCodecLaws}.

(** The Ready and the Pending on disk. *)
Definition ready_at (key : str) (w : world) (r : DurableIdempotencyRecord) : Prop :=
  ∃ b, w_files w !! idempotency_path key = Some (NFile b) ∧ parse_ready key b = Ok r.
Definition pending_at (key : str) (w : world) (p : DurablePendingRecord) : Prop :=
  ∃ b, w_files w !! pending_path key = Some (NFile b) ∧ pending_from_slice b = Some p.
Definition no_ready (key : str) (w : world) : Prop := w_files w !! idempotency_path key = None.
Definition no_pending (key : str) (w : world) : Prop := w_files w !! pending_path key = None.

Lemma parse_ready_key key b r : parse_ready key b = Ok r → rd_key r = key.
Proof.
  unfold parse_ready. destruct b; [done|]. intros H1. result_inv H1.
  destruct (str_eqb_spec (rd_key x) key); by simplify_eq.
Qed.
Lemma parse_ready_slice key b r : parse_ready key b = Ok r → ready_from_slice b = Some r.
Proof.
  unfold parse_ready. destruct b; [done|]. intros H1. result_inv H1. destr_in H1.
  simplify_eq. by apply ok_or_Ok in Hx.
Qed.
Lemma parse_ready_of_slice key b r :
  ready_from_slice b = Some r → rd_key r = key → parse_ready key b = Ok r.
Proof.
  intros Hb <-. unfold parse_ready. destruct b; [by rewrite ready_from_nothing in Hb|].
  rewrite Hb. cbn. by rewrite str_eqb_refl.
Qed.

(** ** Cleaning up a key

    Expiry removes an expired Ready, and before it the Pending the Ready
    resolves; [readings] are the times the clock showed. *)
Inductive tidy (key : str) (ttl : Z) (readings : list (option Z)) : world → world → Prop :=
| tidy_calm w w' : calm w w' → tidy key ttl readings w w'
| tidy_retire w r p :
    ready_at key w r → pending_at key w p → resolved_by r None p = true →
    tidy key ttl readings w (cut (pending_path key) w)
| tidy_expire w r now :
    ready_at key w r → Some now ∈ readings → expired_at r now ttl = true →
    tidy key ttl readings w (cut (idempotency_path key) w).
Definition tidies (key : str) (ttl : Z) (readings : list (option Z)) : relation world :=
  rtc (tidy key ttl readings).

Lemma tidies_calm key ttl readings w w' : calm w w' → tidies key ttl readings w w'.
Proof. intros. by apply rtc_once, tidy_calm. Qed.
Lemma tidies_step key ttl readings w w1 w2 w' :
  tidy key ttl readings w w1 → calm w1 w2 → tidies key ttl readings w2 w' →
  tidies key ttl readings w w'.
Proof. intros H1 H2 H3. eapply rtc_l; [exact H1|]. eapply rtc_l; [by apply tidy_calm|done]. Qed.

Lemma calm_ready key w w' r : calm w w' → ready_at key w r → ready_at key w' r.
Proof.
  intros Hc (b & Hb & Hr). exists b. split; [|done].
  rewrite (calm_slots _ _ Hc); [done|apply ready_slot].
Qed.
Lemma calm_pending key w w' p : calm w w' → pending_at key w p → pending_at key w' p.
Proof.
  intros Hc (b & Hb & Hr). exists b. split; [|done].
  rewrite (calm_slots _ _ Hc); [done|apply pending_slot].
Qed.
Lemma calm_no_ready key w w' : calm w w' → no_ready key w → no_ready key w'.
Proof. intros Hc Hn. unfold no_ready. by rewrite (calm_slots _ _ Hc _ (ready_slot key)). Qed.
Lemma calm_no_pending key w w' : calm w w' → no_pending key w → no_pending key w'.
Proof. intros Hc Hn. unfold no_pending. by rewrite (calm_slots _ _ Hc _ (pending_slot key)). Qed.
Lemma cut_pending_ready key w : w_files (cut (pending_path key) w) !! idempotency_path key =
  w_files w !! idempotency_path key.
Proof. apply lookup_delete_ne. intros E. by apply (ready_pending_ne key key). Qed.
Lemma cut_ready_pending key w : w_files (cut (idempotency_path key) w) !! pending_path key =
  w_files w !! pending_path key.
Proof. apply lookup_delete_ne, ready_pending_ne. Qed.

Definition same_ready (key : str) (w w' : world) : Prop :=
  w_files w' !! idempotency_path key = w_files w !! idempotency_path key.
Definition same_pending (key : str) (w w' : world) : Prop :=
  w_files w' !! pending_path key = w_files w !! pending_path key.

(** [retire_ready_pending] removes the Pending its Ready resolves, or nothing. *)
Definition retired (key : str) (ttl : Z) (readings : list (option Z)) (w : world)
    (o : outcome (result store_detail bool)) (w' : world) : Prop :=
  tidies key ttl readings w w' ∧ same_ready key w w' ∧
  w_clock w' `suffix_of` w_clock w ∧
  match o with
  | Done (Ok true) => no_pending key w'
  | Done (Ok false) => same_pending key w w'
  | _ => True
  end.
Lemma retired_calm key ttl readings w o w' :
  calm w w' → o ≠ Done (Ok true) → retired key ttl readings w o w'.
Proof.
  intros Hc Ho. split; [by apply tidies_calm|]. split; [apply Hc, ready_slot|].
  split; [apply Hc|]. destruct o as [[[]|]|]; try done. apply Hc, pending_slot.
Qed.
Lemma retire_spec key ttl readings r owner w :
  ready_at key w r →
  post (retire_ready_pending r owner) w (retired key ttl readings w).
Proof.
  intros Hr. pose proof Hr as (b & _ & Hk%parse_ready_key).
  unfold retire_ready_pending. rewrite Hk. apply post_bind.
  eapply post_mono; [|apply bounded_reads].
  intros [[b'| |d]|] w1 (H1 & H2 & H3); [| |by apply retired_calm..].
  2: { apply post_try, post_map. eapply post_mono; [|apply silent_sync].
       intros [[?|e]|] w2 H4; try (apply post_ret); by apply retired_calm; [etrans|]. }
  destruct (pending_from_slice b') as [p|] eqn:Ep; [|by apply post_ret, retired_calm].
  destruct (resolved_by r owner p) eqn:Er; cbn [negb]; [|by apply post_ret, retired_calm].
  assert (Hres : resolved_by r None p = true).
  { unfold resolved_by in *. rewrite !andb_true_iff in *. naive_solver. }
  assert (Ht : tidy key ttl readings w1 (cut (pending_path key) w1)).
  { eapply tidy_retire; [by eapply calm_ready| |exact Hres]. exists b'. by rewrite H2. }
  apply post_try, post_map. eapply post_mono; [|apply (remove_cuts _ _ (pending_slot key))].
  intros o w2 [[H4 Ho]|[-> H4]].
  { destruct o as [[[]|e]|]; [done|by apply retired_calm; [etrans|]..]. }
  apply post_try, post_map. eapply post_mono; [|apply silent_sync]. intros o w3 H5.
  assert (Hall : tidies key ttl readings w w3 ∧ same_ready key w w3 ∧
    w_clock w3 `suffix_of` w_clock w ∧ no_pending key w3).
  { assert (calm (cut (pending_path key) w1) w3) as Hc by (by etrans).
    split; [eapply rtc_l; [by apply tidy_calm|]; eapply tidies_step; [exact Ht|exact Hc|done]|].
    split; [|split].
    - unfold same_ready. rewrite (calm_slots _ _ Hc), cut_pending_ready by apply ready_slot.
      apply H1, ready_slot.
    - etrans; [apply Hc|apply H1].
    - unfold no_pending. rewrite (calm_slots _ _ Hc) by apply pending_slot.
      apply lookup_delete_eq. }
  destruct Hall as (A1 & A2 & A3 & A4). by destruct o as [[[]|e]|].
Qed.

(** ** The snapshot of a key *)

Definition store_dir (w : world) : Prop := w_files w !! idempotency_dir = Some NDir.
Lemma make_dir_spec d w :
  d ≠ [] → post (make_dir d) w (λ o w', o = Done (Ok ()) → w_files w' !! d = Some NDir).
Proof.
  intros Hd. unfold make_dir. apply post_bind.
  apply (post_mono _ _ (λ o w1, o = Done (Ok ()) → w_files w1 !! d = Some NDir)).
  - intros [[[]|e]|] w1 H1; [by apply post_ret; auto| |done].
    destruct e; try by apply post_ret. unfold post, observe, atomic, file_effect, is_dir.
    destruct d as [|c d]; [done|].
    destruct (w_answers w1) as [|[] ?]; cbn; try done; by case_bool_decide.
  - unfold create_dir, post, atomic, file_effect.
    destruct (w_answers w) as [|[] ?]; cbn; try done;
      (destruct (w_files w !! d); cbn; [done|]; destruct (is_dir _ _); cbn; [|done];
       intros _; apply lookup_insert_eq).
Qed.
Lemma lock_makes_dir w :
  post acquire_idempotency_lock w (λ o w', calm w w' ∧ (o = Done (Ok ()) → store_dir w')).
Proof.
  apply post_and; [apply silent_metadata_lock|].
  unfold acquire_idempotency_lock. apply post_map, post_try.
  apply (post_mono _ _ (λ o w1, o = Done (Ok ()) → store_dir w1)).
  - intros [[[]|e]|] w1 H1; [|done..]. specialize (H1 eq_refl).
    apply (post_mono _ _ (λ _ w2, calm w1 w2)).
    { intros [[[]|e]|] w2 H2; try done. intros _. by apply H2. }
    apply silent_try; [by apply silent_open|]. intros _. apply silent_settle.
  - change (create_dir_all idempotency_dir) with
      (_ ←? make_dir idempotency_dir; mret (Ok (E := io_kind) ())).
    apply post_try. eapply post_mono; [|by apply (make_dir_spec idempotency_dir)].
    intros [[[]|e]|] w1 H1; [by apply post_ret; auto|done..].
Qed.

(** A snapshot part agrees with the file it was read from. *)
Definition agrees (p : path) (w : world) (x : option (list Z)) : Prop :=
  match x with
  | Some b => w_files w !! p = Some (NFile b)
  | None => w_files w !! p = None
  end.
Lemma snapshot_of_spec p w :
  parent p = idempotency_dir → store_dir w →
  post (snapshot_of p) w (λ o w', calm w w' ∧ ∀ x, o = Done (Ok x) → agrees p w' x).
Proof.
  intros Hp Hd. unfold snapshot_of. apply post_bind. eapply post_mono; [|apply bounded_reads].
  intros [[b| |d]|] w1 (H1 & H2 & H3); try (apply post_ret); (split; [done|]); try done;
    intros x [= <-]; cbn in *; rewrite H2; [done|]. apply H3. rewrite Hp. cbn.
  by rewrite bool_decide_eq_true.
Qed.
Definition snapshot_agrees (key : str) (w : world) (sn : KeyFilesSnapshot) : Prop :=
  agrees (idempotency_path key) w (sn_ready sn) ∧ agrees (pending_path key) w (sn_pending sn).
Lemma agrees_calm p w w' x :
  slot_shape p = true → calm w w' → agrees p w x → agrees p w' x.
Proof. intros Hp Hc. unfold agrees. by rewrite (calm_slots _ _ Hc _ Hp). Qed.
Lemma read_snapshot_spec key w :
  store_dir w →
  post (read_key_files_snapshot key) w
    (λ o w', calm w w' ∧ ∀ sn, o = Done (Ok sn) → snapshot_agrees key w' sn).
Proof.
  intros Hd. unfold read_key_files_snapshot. apply post_try.
  eapply post_mono; [|by apply (snapshot_of_spec (idempotency_path key))].
  intros [[x|e]|] w1 [H1 Hx]; [|done..]. specialize (Hx _ eq_refl). apply post_try.
  eapply post_mono; [|apply (snapshot_of_spec (pending_path key)); [done|by apply H1]].
  intros [[y|e]|] w2 [H2 Hy]; [|by split; [etrans|]..]. apply post_ret.
  split; [by etrans|]. intros sn [= <-]. split; [|by apply Hy].
  eapply agrees_calm; [apply ready_slot|exact H2|exact Hx].
Qed.
Lemma now_spec w :
  post now_unix w (λ o w', calm w w' ∧ ∀ now, o = Done (Ok now) → Some now ∈ w_clock w).
Proof.
  apply post_and; [apply silent_now|]. unfold now_unix. apply post_map.
  unfold post, read_clock. cbn. intros now. destruct (w_clock w) as [|[t|] l]; cbn; try done.
  intros [= <-]. by left.
Qed.

(** The live Ready, or none is left. *)
Definition reaped (key : str) (ttl : Z) (readings : list (option Z)) (w : world)
    (o : outcome (result store_detail (option DurableIdempotencyRecord * Z * KeyFilesSnapshot)))
    (w' : world) : Prop :=
  tidies key ttl readings w w' ∧ w_clock w' `suffix_of` w_clock w ∧
  ∀ live g sn, o = Done (Ok (live, g, sn)) →
    agrees (pending_path key) w' (sn_pending sn) ∧
    match live with
    | Some r => ready_at key w' r ∧ ∃ now, Some now ∈ readings ∧ expired_at r now ttl = false
    | None => no_ready key w'
    end.
Lemma reaped_calm key ttl readings w o w' :
  calm w w' → (∀ x, o ≠ Done (Ok x)) → reaped key ttl readings w o w'.
Proof.
  intros Hc Ho. split; [by apply tidies_calm|]. split; [apply Hc|]. intros ??? ->. by destruct (Ho (live, g, sn)).
Qed.
Lemma reap_spec key ttl readings sn w :
  snapshot_agrees key w sn → w_clock w ⊆ readings →
  post (reap_expired_ready_snapshot key sn ttl) w (reaped key ttl readings w).
Proof.
  intros [Hr Hp] Hk. unfold reap_expired_ready_snapshot.
  destruct (sn_ready sn) as [b|] eqn:Esn; cbn in Hr.
  2: { apply post_ret. split; [done|]. split; [done|]. intros ??? [= <- <- <-]. done. }
  destruct (parse_ready key b) as [r|d] eqn:Eb; [|by apply post_ret, reaped_calm].
  assert (Hat : ready_at key w r) by (by exists b).
  apply post_try. eapply post_mono; [|apply now_spec].
  intros [[now|d]|] w1 [H1 Hnow]; [|by apply reaped_calm..]. specialize (Hnow _ eq_refl).
  apply Hk in Hnow. destruct (expired_at r now ttl) eqn:Ee.
  2: { apply post_ret. split; [by apply tidies_calm|]. split; [apply H1|].
       intros ??? [= <- <- <-]. split; [by eapply agrees_calm; [apply pending_slot|..]|].
       split; [by eapply calm_ready|by eauto]. }
  apply post_try. eapply post_mono; [|apply (retire_spec key ttl readings); by eapply calm_ready].
  intros o w2 (T2 & R2 & C2 & P2).
  assert (T02 : tidies key ttl readings w w2) by (eapply rtc_l; [by apply tidy_calm|done]).
  assert (C02 : w_clock w2 `suffix_of` w_clock w) by (etrans; [exact C2|apply H1]).
  destruct o as [[retired|d]|]; [|by split..].
  assert (Hr2 : ready_at key w2 r).
  { apply (calm_ready _ _ _ _ H1) in Hat as (b' & Hb' & ?). exists b'. by rewrite R2. }
  apply post_try, post_map. eapply post_mono; [|apply (remove_cuts _ _ (ready_slot key))].
  intros o w3 [[H3 Ho]|[-> H3]].
  - assert (tidies key ttl readings w w3 ∧ w_clock w3 `suffix_of` w_clock w) as [].
    { split; [etrans; [exact T02|by apply tidies_calm]|etrans; [apply H3|done]]. }
    destruct o as [[[]|e]|]; [done|by split..].
  - apply post_ret. split; [etrans; [exact T02|]; eapply tidies_step; [by eapply tidy_expire|exact H3|done]|].
    split; [by etrans; [apply H3|]|]. intros ??? [= <- <- <-]. split.
    + cbn [sn_pending]. assert (Hp3 : w_files w3 !! pending_path key = w_files w2 !! pending_path key).
      { rewrite (calm_slots _ _ H3) by apply pending_slot. apply cut_ready_pending. }
      unfold agrees. destruct retired; [by rewrite Hp3|]. rewrite Hp3, P2, (calm_slots _ _ H1) by apply pending_slot. exact Hp.
    + unfold no_ready. rewrite (calm_slots _ _ H3) by apply ready_slot. apply lookup_delete_eq.
Qed.

(** ** Claims *)

Definition put_pending (key : str) (p : DurablePendingRecord) : world → world :=
  put (pending_path key) (NFile (pending_to_vec p)).
Definition put_ready (key : str) (r : DurableIdempotencyRecord) : world → world :=
  put (idempotency_path key) (NFile (ready_to_vec r)).
Lemma put_pending_at key p w w' : calm (put_pending key p w) w' → pending_at key w' p.
Proof.
  intros Hc. exists (pending_to_vec p). split; [|apply pending_round].
  rewrite (calm_slots _ _ Hc) by apply pending_slot. apply lookup_insert_eq.
Qed.
Lemma put_ready_at key r w w' : rd_key r = key → calm (put_ready key r w) w' → ready_at key w' r.
Proof.
  intros Hk Hc. exists (ready_to_vec r). split.
  - rewrite (calm_slots _ _ Hc) by apply ready_slot. apply lookup_insert_eq.
  - apply parse_ready_of_slice; [apply ready_round|done].
Qed.
Lemma put_pending_ready key p w :
  w_files (put_pending key p w) !! idempotency_path key = w_files w !! idempotency_path key.
Proof. apply lookup_insert_ne. intros E. by apply (ready_pending_ne key key). Qed.
Lemma put_ready_pending key r w :
  w_files (put_ready key r w) !! pending_path key = w_files w !! pending_path key.
Proof. apply lookup_insert_ne, ready_pending_ne. Qed.

(** The claim [p] may be written: nothing is committed, and it repeats the
    unresolved claim it replaces: same content, operation and run, and a
    later generation. *)
Definition repeats (q p : DurablePendingRecord) : Prop :=
  pn_key q = pn_key p ∧ pn_digest q = pn_digest p ∧ pn_operation_id q = pn_operation_id p ∧
  (is_Some (pn_run_id q) → pn_run_id q = pn_run_id p) ∧
  (pn_generation q < pn_generation p ∨ pn_generation p = U64_MAX)%Z.
Definition adopts (key : str) (w : world) (p : DurablePendingRecord) : Prop :=
  pn_key p = key ∧ no_ready key w ∧
  (no_pending key w ∨ ∃ q, pending_at key w q ∧ repeats q p).

(** What is on disk when a claim is refused. *)
Definition refused (key digest : str) (w : world) (o : outcome (result ApiHttpError ClaimOutcome)) :
    Prop :=
  match o with
  | Done (Ok (COwner _ _ _ _)) => False
  | Done (Ok (CReady r)) => ready_at key w r ∧ rd_digest r = digest
  | Done (Ok CPeer) => ∃ p, pending_at key w p ∧ pn_key p = key ∧ pn_digest p = digest
  | Done (Ok CConflict) =>
      (∃ r, ready_at key w r ∧ rd_digest r ≠ digest) ∨
      (∃ p, pending_at key w p ∧ pn_key p = key ∧ pn_digest p ≠ digest)
  | _ => True
  end.
Definition claims_as (p : DurablePendingRecord) (o : outcome (result ApiHttpError ClaimOutcome)) :
    Prop :=
  match o with
  | Done (Ok (COwner op run owner g)) =>
      pn_operation_id p = Some op ∧ pn_run_id p = run ∧ pn_owner p = owner ∧ pn_generation p = g
  | Done (Ok _) => False
  | _ => True
  end.
Inductive claimed (key digest : str) (ttl : Z) (readings : list (option Z)) (w : world)
    (o : outcome (result ApiHttpError ClaimOutcome)) (w' : world) : Prop :=
| claimed_not : tidies key ttl readings w w' → refused key digest w' o →
    claimed key digest ttl readings w o w'
| claimed_owner w1 p : tidies key ttl readings w w1 → adopts key w1 p → pn_digest p = digest →
    calm (put_pending key p w1) w' → claims_as p o → claimed key digest ttl readings w o w'.
Lemma claimed_pre key digest ttl readings w w1 o w' :
  tidies key ttl readings w w1 → claimed key digest ttl readings w1 o w' →
  claimed key digest ttl readings w o w'.
Proof.
  intros H1 [H2 H3|w2 p H2 H3 H4 H5 H6].
  - apply claimed_not; [by etrans|done].
  - eapply claimed_owner; [by etrans|done..].
Qed.
Lemma claimed_calm key digest ttl readings w o w' :
  calm w w' → refused key digest w' o → claimed key digest ttl readings w o w'.
Proof. intros. by apply claimed_not; [apply tidies_calm|]. Qed.

Lemma publish_claim_spec key p w :
  post (publish_claim key p) w (λ o w',
    (calm w w' ∧ o ≠ Done (Ok ())) ∨ calm (put_pending key p w) w').
Proof.
  unfold publish_claim. apply post_try, post_map. eapply post_mono; [|apply stage_claim_ready].
  intros [[tmp|e]|] w1 [H1 Ht]; [|by left..]. destruct (Ht tmp eq_refl) as [Ha Hf]. apply post_bind.
  eapply post_mono; [|by apply (rename_publishes tmp (pending_path key)); [|apply pending_slot|]].
  intros o w2 [[H2 Ho]|[-> H2]].
  - destruct o as [[[]|e]|]; [done| |by left; split; [etrans|]]. apply post_bind.
    eapply post_mono; [|by apply (silent_remove tmp)].
    intros [?|] w3 H3; [apply post_ret|]; left; (split; [by do 2 (etrans; [eassumption|])|done]).
  - apply post_map. eapply post_mono; [|apply silent_sync]. intros o w3 H3. right.
    etrans; [apply calm_put, H1|]. by etrans.
Qed.

(** What a claim takes over is the Pending in the snapshot. *)
Lemma parse_snapshot_spec key x w :
  agrees (pending_path key) w x →
  post (parse_snapshot key x) w (λ o w', calm w w' ∧
    match o with
    | Done (PValid p) | Done (PExpired p) => pending_at key w' p ∧ pn_key p = key
    | Done PAbsent => no_pending key w'
    | _ => True
    end).
Proof.
  intros Hx. apply post_and; [apply silent_parse_snapshot|].
  destruct x as [b|]; cbn [parse_snapshot agrees] in *; [|by apply post_ret].
  unfold parse_pending_bytes. destruct (pending_from_slice b) as [p|] eqn:Ep; [|by apply post_ret].
  destruct (str_eqb_spec (pn_key p) key) as [Hk|]; cbn [negb]; [|by apply post_ret].
  apply post_bind. eapply post_mono; [|apply silent_now]. intros [[now|d]|] w1 H1; [|by apply post_ret|done].
  apply post_ret. assert (pending_at key w1 p).
  { exists b. split; [|done]. by rewrite (calm_slots _ _ H1) by apply pending_slot. }
  by case_if.
Qed.
Lemma silent_target run : silent (check_target run).
Proof.
  unfold check_target. destruct run as [id|]; [|apply silent_ret]. case_match; [apply silent_ret|].
  apply silent_try.
  - unfold require_run_directory.
    do 2 (apply silent_try; [apply silent_map, silent_metadata|]; intros ?;
          case_match; [apply silent_ret|]).
    apply silent_try; [apply silent_map, silent_metadata|]. intros [[]|]; apply silent_ret.
  - intros _. apply silent_bind; [by apply silent_open|intros; apply silent_ret].
Qed.

Lemma take_over_spec key digest new_id pending w g op run :
  match pending with
  | PValid p | PExpired p => pending_at key w p ∧ pn_key p = key
  | PAbsent => no_pending key w
  | _ => True
  end →
  take_over digest new_id pending = Ok (TTake g op run) → no_ready key w →
  ∀ reserved owner now g', adopts key w (mkPending key digest (or_else_opt run reserved) (Some op)
    owner now (pending_generation_from_parsed g g')).
Proof.
  intros Hp Ht Hn reserved owner now g'. split; [done|]. split; [done|].
  destruct pending as [p|p| |d]; cbn in Ht; [by case_if in Ht| |by simplify_eq; left|done].
  destruct (str_eqb_spec (pn_digest p) digest) as [Hd|]; cbn in Ht; [|done].
  destruct (pn_operation_id p) as [id|] eqn:Eo; [|done]. destruct (uuid_canonical id); [|done].
  simplify_eq. destruct Hp as [Hp Hk]. right. exists p. split; [done|].
  split; [done|]. split; [done|]. split; [done|]. split; cbn.
  - by intros [x ->].
  - unfold pending_generation_from_parsed, saturating_add. lia.
Qed.
Lemma take_over_refused key digest new_id pending w x :
  match pending with
  | PValid p | PExpired p => pending_at key w p ∧ pn_key p = key
  | PAbsent => no_pending key w
  | _ => True
  end →
  take_over digest new_id pending = Ok x →
  match x with
  | TPeer => refused key digest w (Done (Ok CPeer))
  | TConflict => refused key digest w (Done (Ok CConflict))
  | _ => True
  end.
Proof.
  intros Hp Ht. destruct pending as [p|p| |d]; cbn in Ht; simplify_eq; [..|done].
  - destruct Hp as [Hp Hk]. destruct (str_eqb_spec (pn_digest p) digest); simplify_eq; cbn; eauto.
  - destruct Hp as [Hp Hk]. destruct (str_eqb_spec (pn_digest p) digest); simplify_eq; cbn in *.
    + repeat case_match; by simplify_eq.
    + simplify_eq. right. eauto.
Qed.

(** The claim after the cleaning up. *)
Lemma claim_rest key digest reserved ttl readings target g sn w :
  agrees (pending_path key) w (sn_pending sn) → no_ready key w →
  post (new_id ← fresh_uuid;
        pending ← parse_snapshot key (sn_pending sn);
        match take_over digest new_id pending with
        | Err e => mret (Err e)
        | Ok TPeer => mret (Ok CPeer)
        | Ok TConflict => mret (Ok CConflict)
        | Ok (TTake pending_generation operation_id adopted) =>
            let run_id := or_else_opt adopted reserved in
            _ ←? (if target : bool then check_target run_id else mret (Ok ()));
            owner ← fresh_uuid;
            let generation := pending_generation_from_parsed pending_generation g in
            now ←? io_map_err HInternal now_unix;
            _ ←? publish_claim key
                   (mkPending key digest run_id (Some operation_id) owner now generation);
            mret (Ok (COwner operation_id run_id owner generation))
        end) w (claimed key digest ttl readings w).
Proof.
  intros Hp Hn. apply post_bind. eapply post_mono; [|apply silent_uuid].
  intros [new_id|] w1 H1; [|by apply claimed_calm]. apply post_bind.
  eapply post_mono; [|apply parse_snapshot_spec; by eapply agrees_calm; [apply pending_slot|..]].
  intros o w2 [H2 Hq]. assert (H02 : calm w w2) by (by etrans).
  destruct o as [pending|]; [|by apply claimed_calm].
  assert (Hn2 : no_ready key w2) by (by eapply calm_no_ready).
  destruct (take_over digest new_id pending) as [x|e] eqn:Et; [|by apply post_ret, claimed_calm].
  pose proof (take_over_refused key digest new_id pending w2 x Hq Et) as Href.
  destruct x as [| |pg op run]; [by apply post_ret, claimed_calm..|].
  apply post_try. eapply (post_mono _ _ (λ _ w3, calm w2 w3));
    [|destruct target; [apply silent_target|by apply post_ret]].
  intros o w3 H3. assert (H03 : calm w w3) by (by etrans).
  destruct o as [[[]|e]|]; [|by apply claimed_calm..]. apply post_bind.
  eapply post_mono; [|apply silent_uuid]. intros o w4 H4.
  assert (H04 : calm w w4) by (by etrans). destruct o as [owner|]; [|by apply claimed_calm].
  apply post_try, post_map. eapply post_mono; [|apply silent_now]. intros o w5 H5.
  assert (H05 : calm w w5) by (by etrans). assert (H25 : calm w2 w5) by (by do 2 (etrans; [eassumption|])).
  destruct o as [[now|e]|]; [|by apply claimed_calm..].
  assert (Ha : adopts key w5 (mkPending key digest (or_else_opt run reserved) (Some op) owner now
    (pending_generation_from_parsed pg g))).
  { eapply (take_over_spec key digest new_id pending); [|exact Et|by eapply calm_no_ready].
    destruct pending; try done; cbn in *; [destruct Hq; split; [by eapply calm_pending|done]..|].
    by eapply calm_no_pending. }
  apply post_try. eapply post_mono; [|apply publish_claim_spec]. intros o w6 [[H6 Ho]|H6].
  { destruct o as [[[]|e]|]; [done|by apply claimed_calm; [etrans|]..]. }
  destruct o as [[[]|e]|]; [apply post_ret|..];
    (eapply claimed_owner; [by apply tidies_calm|exact Ha|done|exact H6|done]).
Qed.
Lemma claim_spec gate key digest reserved ttl target w readings :
  w_clock w ⊆ readings →
  post (claim_durable_pending_for_target_gated gate key digest reserved ttl target) w
    (claimed key digest ttl readings w).
Proof.
  intros Hk. unfold claim_durable_pending_for_target_gated.
  destruct (validate gate key); [|by apply post_ret, claimed_calm].
  apply post_try, post_map. eapply post_mono; [|apply silent_try_lock].
  intros [[[]|e]|] w1 H1; cbn [negb]; try (try apply post_ret; by apply claimed_calm).
  apply post_try, post_map. eapply post_mono; [|apply lock_makes_dir].
  intros o w2 [H2 Hd]. assert (H02 : calm w w2) by (by etrans).
  destruct o as [[[]|d]|]; [|by apply claimed_calm..]. specialize (Hd eq_refl).
  apply post_try, post_map. eapply post_mono; [|by apply read_snapshot_spec].
  intros o w3 [H3 Hs]. assert (H03 : calm w w3) by (by etrans).
  destruct o as [[sn|d]|]; [|by apply claimed_calm..]. specialize (Hs _ eq_refl).
  apply post_try, post_map. eapply post_mono; [|apply (reap_spec key ttl readings)]; [|done|].
  2: { intros x Hx. apply Hk. destruct (calm_clock _ _ H03) as [l ->]. set_solver. }
  intros o w4 (T4 & C4 & Hr).
  assert (T04 : tidies key ttl readings w w4) by (eapply rtc_l; [by apply tidy_calm|done]).
  destruct o as [[[[live g] sn']|d]|]; [|by apply claimed_not..].
  destruct (Hr _ _ _ eq_refl) as [Hp Hl]. destruct live as [r|].
  { destruct Hl as [Hl _]. apply post_ret. apply claimed_not; [done|].
    destruct (str_eqb_spec (rd_digest r) digest); cbn; eauto. }
  apply (post_mono _ _ (claimed key digest ttl readings w4));
    [intros o w'; by apply claimed_pre|].
  by apply claim_rest.
Qed.

(** ** Publication *)

Definition owned_by (digest run owner : str) (g : Z) (p : DurablePendingRecord) : Prop :=
  pn_owner p = owner ∧ pn_generation p = g ∧ pn_digest p = digest ∧ pn_run_id p = Some run.
Lemma check_live_Ok digest run owner g p :
  check_live_ownership digest run owner g p = Ok () → owned_by digest run owner g p.
Proof.
  unfold check_live_ownership. destruct (str_eqb_spec (pn_owner p) owner); cbn [negb]; [|done].
  destruct (Z.eqb_spec (pn_generation p) g); cbn [negb]; [|done].
  destruct (str_eqb_spec (pn_digest p) digest); cbn [negb]; [|done].
  case_bool_decide; [done|done].
Qed.

(** A publication, and what the store answers then. *)
Definition publishes (key digest run owner : str) (g : Z) (r : DurableIdempotencyRecord) (w : world) :
    Prop :=
  no_ready key w ∧ rd_key r = key ∧ rd_digest r = digest ∧ rd_run_id r = run ∧ rd_generation r = g ∧
  ∃ p, pending_at key w p ∧ pn_key p = key ∧ owned_by digest run owner g p.
Inductive stored (key digest run owner : str) (g ttl : Z) (readings : list (option Z)) (w : world)
    (o : outcome (result StoreReadyError DurableIdempotencyRecord)) (w' : world) : Prop :=
| stored_not :
    tidies key ttl readings w w' →
    (∀ r, o = Done (Ok r) → ready_at key w' r ∧ rd_digest r = digest) →
    (o = Done (Err DigestConflict) → ∃ r, ready_at key w' r ∧ rd_digest r ≠ digest) →
    stored key digest run owner g ttl readings w o w'
| stored_new w1 r w2 :
    tidies key ttl readings w w1 → publishes key digest run owner g r w1 →
    calm (put_ready key r w1) w2 → tidies key ttl readings w2 w' → same_ready key w2 w' →
    (o = Crashed ∨ o = Done (Ok r)) →
    stored key digest run owner g ttl readings w o w'.
Lemma stored_pre key digest run owner g ttl readings w w1 o w' :
  tidies key ttl readings w w1 → stored key digest run owner g ttl readings w1 o w' →
  stored key digest run owner g ttl readings w o w'.
Proof.
  intros H1 [H2 H3|w2 r w3 H2 H3 H4 H5 H6].
  - apply stored_not; [by etrans|done..].
  - eapply stored_new; [by etrans|done..].
Qed.
Definition plain_error (o : outcome (result StoreReadyError DurableIdempotencyRecord)) : Prop :=
  match o with Done (Ok _) | Done (Err DigestConflict) => False | _ => True end.
Lemma stored_err key digest run owner g ttl readings w o w' :
  tidies key ttl readings w w' → plain_error o → stored key digest run owner g ttl readings w o w'.
Proof. intros Ht Ho. apply stored_not; [done|by intros r ->|by intros ->]. Qed.
Lemma stored_calm key digest run owner g ttl readings w o w' :
  calm w w' → plain_error o → stored key digest run owner g ttl readings w o w'.
Proof. intros Hc. by apply stored_err, tidies_calm. Qed.
Lemma check_live_Err digest run owner g p e :
  check_live_ownership digest run owner g p = Err e → plain_error (Done (Err e)).
Proof. unfold check_live_ownership. repeat case_match; naive_solver. Qed.

Lemma same_ready_at key w w' r : same_ready key w w' → ready_at key w r → ready_at key w' r.
Proof. intros Hs (b & Hb & Hr). exists b. by rewrite Hs. Qed.
Lemma commit_spec key digest run owner g ttl readings r w :
  publishes key digest run owner g r w →
  post (commit_ready key owner r) w (stored key digest run owner g ttl readings w).
Proof.
  intros Hpub. unfold commit_ready. apply post_try, post_map.
  eapply post_mono; [|apply silent_register]. intros [[[]|e]|] w1 H1; [|by apply stored_calm..].
  apply post_try, post_map. eapply post_mono; [|apply stage_ready_ready].
  intros o w2 [H2 Ht]. assert (H02 : calm w w2) by (by etrans).
  destruct o as [[tmp|e]|]; [|by apply stored_calm..]. destruct (Ht tmp eq_refl) as [Ha Hf].
  apply post_bind. eapply post_mono;
    [|by apply (rename_publishes tmp (idempotency_path key)); [|apply ready_slot|]].
  intros o w3 [[H3 Ho]|[-> H3]].
  { destruct o as [[[]|e]|]; [done| |by apply stored_calm; [etrans|]]. apply post_bind.
    eapply post_mono; [|by apply (silent_remove tmp)].
    intros [?|] w4 H4; [apply post_ret|];
      (apply stored_calm; [by do 2 (etrans; [eassumption|])|done]). }
  assert (Hput : calm (put_ready key r w) w3) by (etrans; [apply calm_put, H02|exact H3]).
  apply post_bind. eapply post_mono; [|apply silent_sync]. intros o w4 H4.
  assert (Hput4 : calm (put_ready key r w) w4) by (by etrans).
  destruct o as [x|].
  2: { eapply stored_new; [done|exact Hpub|exact Hput4|done|done|by left]. }
  apply post_bind. eapply post_mono; [|apply (retire_spec key ttl readings)].
  2: { eapply put_ready_at; [apply Hpub|exact Hput4]. }
  intros o w5 (T5 & R5 & _). destruct o as [y|]; [apply post_ret|];
    (eapply stored_new; [done|exact Hpub|exact Hput4|exact T5|exact R5|..]); naive_solver.
Qed.
Lemma store_rest key digest run owner g ttl readings pending w :
  match pending with
  | PValid p | PExpired p => pending_at key w p ∧ pn_key p = key
  | PAbsent => no_pending key w
  | _ => True
  end → no_ready key w →
  post match pending with
       | PValid pending | PExpired pending =>
           match check_live_ownership digest run owner g pending with
           | Err e => mret (Err e)
           | Ok _ =>
               id ← fresh_uuid;
               now ←? io_map_err Storage now_unix;
               commit_ready key owner (mkReady key digest run now g (Some id))
           end
       | PAbsent => mret (Err (Storage DClaimAbsent))
       | PUnusable d => mret (Err (Storage (DUnusable d)))
       end w (stored key digest run owner g ttl readings w).
Proof.
  intros Hp Hn. destruct pending as [p|p| |d]; [| |by apply post_ret, stored_calm..].
  all: destruct (check_live_ownership digest run owner g p) as [[]|e] eqn:Ec;
    [|apply post_ret, stored_calm; [done|by eapply check_live_Err]].
  all: apply check_live_Ok in Ec; destruct Hp as [Hp Hk]; apply post_bind.
  all: eapply post_mono; [|apply silent_uuid]; intros [id|] w1 H1; [|by apply stored_calm].
  all: apply post_try, post_map; eapply post_mono; [|apply silent_now]; intros o w2 H2.
  all: assert (H02 : calm w w2) by (by etrans).
  all: destruct o as [[now|e]|]; [|by apply stored_calm..].
  all: eapply post_mono; [intros o w3; apply stored_pre, tidies_calm, H02|]; apply commit_spec.
  all: (split; [by eapply calm_no_ready|]); do 4 (split; [done|]); exists p;
    (split; [by eapply calm_pending|done]).
Qed.
Lemma store_spec gate key digest run owner g ttl readings w :
  w_clock w ⊆ readings →
  post (store_durable_ready_gated gate key digest run owner g ttl) w
    (stored key digest run owner g ttl readings w).
Proof.
  intros Hk. unfold store_durable_ready_gated.
  destruct (validate gate key); [|by apply post_ret, stored_calm].
  apply post_try, post_map. eapply post_mono; [|apply lock_makes_dir].
  intros o w2 [H02 Hd].
  destruct o as [[[]|d]|]; [|by apply stored_calm..]. specialize (Hd eq_refl).
  apply post_try, post_map. eapply post_mono; [|by apply read_snapshot_spec].
  intros o w3 [H3 Hs]. assert (H03 : calm w w3) by (by etrans).
  destruct o as [[sn|d]|]; [|by apply stored_calm..]. specialize (Hs _ eq_refl).
  apply post_try, post_map. eapply post_mono; [|apply (reap_spec key ttl readings)]; [|done|].
  2: { intros x Hx. apply Hk. destruct (calm_clock _ _ H03) as [l ->]. set_solver. }
  intros o w4 (T4 & C4 & Hr).
  assert (T04 : tidies key ttl readings w w4) by (eapply rtc_l; [by apply tidy_calm|done]).
  destruct o as [[[[live g'] sn']|d]|]; [|by apply stored_err..].
  destruct (Hr _ _ _ eq_refl) as [Hp Hl]. apply post_bind.
  eapply post_mono; [|by apply parse_snapshot_spec]. intros o w5 [H5 Hq].
  assert (T05 : tidies key ttl readings w w5) by (etrans; [done|by apply tidies_calm]).
  destruct o as [pending|]; [|by apply stored_err]. destruct live as [r|].
  - destruct Hl as [Hl _]. apply (calm_ready _ _ _ _ H5) in Hl.
    destruct (str_eqb_spec (rd_digest r) digest) as [Hdig|]; cbn [negb];
      [|by apply post_ret, stored_not; eauto].
    assert (Hok : stored key digest run owner g ttl readings w (Done (Ok r)) w5)
      by (apply stored_not; [done| |done]; by intros ? [= <-]).
    destruct pending as [p|p| |d]; [| |by apply post_ret|by apply post_ret, stored_err].
    all: destruct (check_live_ownership digest run owner g p) as [[]|e] eqn:Ec;
      [|apply post_ret, stored_err; [done|by eapply check_live_Err]].
    all: case_match; [|by apply post_ret]; apply post_bind;
      (eapply post_mono; [|by apply (retire_spec key ttl readings)]); intros o w6 (T6 & R6 & _);
      (destruct o as [y|]; [apply post_ret|]; (apply stored_not; [by etrans| |done]));
      intros r' [= <-]; (split; [by eapply same_ready_at|done]).
  - eapply post_mono; [intros o w6; apply stored_pre, T05|]. apply store_rest; [done|].
    by eapply calm_no_ready.
Qed.

(** ** Release, ownership, sweeps *)

Inductive released (key owner : str) (g : Z) (w w' : world) : Prop :=
| released_not : calm w w' → released key owner g w w'
| released_cut w1 p : calm w w1 → pending_at key w1 p → pn_key p = key → pn_owner p = owner →
    pn_generation p = g → calm (cut (pending_path key) w1) w' → released key owner g w w'.
Lemma release_spec gate key owner g w :
  post (release_durable_pending_gated gate key owner g) w (λ _ w', released key owner g w w').
Proof.
  unfold release_durable_pending_gated. destruct (validate gate key); [|by apply post_ret, released_not].
  apply post_try. eapply post_mono; [|apply silent_metadata_lock].
  intros [[[]|d]|] w1 H1; [|by apply released_not..]. apply post_bind.
  eapply post_mono; [|apply bounded_reads]. intros o w2 (H2 & Hf & Hs).
  assert (H02 : calm w w2) by (by etrans).
  destruct o as [[b| |d]|]; [|by apply released_not..].
  destruct (pending_from_slice b) as [p|] eqn:Ep; [|by apply post_ret, released_not].
  destruct (str_eqb_spec (pn_key p) key) as [Hk|]; cbn [negb]; [|by apply post_ret, released_not].
  case_match eqn:Eo; [|by apply post_ret, released_not]. apply andb_true_iff in Eo as [Eo Eg].
  apply str_eqb_eq in Eo. apply Z.eqb_eq in Eg. apply post_map.
  eapply post_mono; [|apply (remove_cuts _ _ (pending_slot key))].
  intros o w3 [[H3 _]|[-> H3]]; [by apply released_not; etrans|].
  eapply (released_cut _ _ _ _ _ w2 p); try done. exists b. by rewrite Hf.
Qed.
Lemma check_spec gate key owner g digest w :
  post (check_pending_owner_gated gate key owner g digest) w (λ o w', calm w w' ∧
    (o = Done (Ok OCurrent) → ∃ p, pending_at key w' p ∧ pn_key p = key ∧ pn_owner p = owner ∧
       pn_generation p = g ∧ pn_digest p = digest)).
Proof.
  unfold check_pending_owner_gated. destruct (validate gate key); [|by apply post_ret].
  apply post_try. eapply post_mono; [|apply silent_metadata_lock].
  intros [[[]|d]|] w1 H1; [|done..]. apply post_bind.
  eapply post_mono; [|apply bounded_reads]. intros o w2 (H2 & Hf & Hs).
  assert (H02 : calm w w2) by (by etrans).
  destruct o as [[b| |d]|]; [|done..]. apply post_bind.
  eapply post_mono; [|apply (parse_snapshot_spec key (Some b) w2)]; [|cbn; by rewrite Hf].
  intros o w3 [H3 Hp]. assert (H03 : calm w w3) by (by etrans).
  destruct o as [[p|p| |d]|]; [| |done..]; apply post_ret; (split; [done|]); intros [= Ec];
    case_match eqn:E; try done; rewrite !andb_true_iff, !str_eqb_eq, Z.eqb_eq in E;
    destruct E as [[] ?], Hp; by exists p.
Qed.

Lemma silent_required p : silent (required_bytes p).
Proof. apply silent_bind; [apply silent_bounded|intros; apply silent_ret]. Qed.
Definition swept (ttl : Z) (readings : list (option Z)) (w w' : world) : Prop :=
  ∃ key, tidies key ttl readings w w'.
Lemma reap_ready_spec scheduled record now ttl readings w :
  Some now ∈ readings →
  post (reap_ready scheduled record now ttl) w (λ _ w', tidies (rd_key record) ttl readings w w').
Proof.
  intros Hnow. set (key := rd_key record). unfold reap_ready. fold key. apply post_bind.
  eapply post_mono; [|apply bounded_reads]. intros o w1 (H1 & Hf & Hs).
  assert (T1 : tidies key ttl readings w w1) by (by apply tidies_calm).
  destruct o as [[b| |d]|]; [|by try apply post_ret..].
  destruct (ready_from_slice b) as [r|] eqn:Er; [|by apply post_ret].
  destruct (str_eqb_spec (rd_key r) key) as [Hk|]; cbn [negb]; [|by apply post_ret].
  case_bool_decide; [|by apply post_ret].
  destruct (expired_at r now ttl) eqn:Ee; cbn [negb]; [|by apply post_ret].
  assert (Hr : ready_at key w1 r).
  { exists b. rewrite Hf. split; [done|]. by apply parse_ready_of_slice. }
  apply post_try. eapply post_mono; [|by apply (retire_spec key ttl readings)].
  intros o w2 (T2 & R2 & _).
  assert (T02 : tidies key ttl readings w w2) by (by etrans).
  destruct o as [[x|d]|]; [|done..]. apply post_map.
  eapply post_mono; [|apply (remove_cuts _ _ (ready_slot key))].
  intros o w3 [[H3 _]|[-> H3]]; (etrans; [exact T02|]); [by apply tidies_calm|].
  eapply tidies_step; [|exact H3|done]. eapply tidy_expire; [by eapply same_ready_at|done..].
Qed.
Lemma reap_sweeps work now ttl readings w :
  Some now ∈ readings → post (reap work now ttl) w (λ _ w', swept ttl readings w w').
Proof.
  intros Hnow. unfold reap. apply post_try. eapply post_mono; [|apply silent_required].
  intros o w1 H1. assert (S1 : swept ttl readings w w1) by (exists []; by apply tidies_calm).
  destruct o as [[b|d]|]; [|done..].
  destruct (ready_from_slice b) as [r|]; [|by apply post_ret].
  case_bool_decide as Hw; cbn [negb]; [|by apply post_ret].
  apply post_try. eapply post_mono; [|by apply (reap_ready_spec b r now ttl readings)].
  intros o w2 T2. assert (T02 : tidies (rd_key r) ttl readings w w2)
    by (eapply rtc_l; [by apply tidy_calm|done]).
  destruct o as [[[]|d]|]; [|by exists (rd_key r)..].
  eapply (post_mono _ _ (λ _ w3, calm w2 w3)).
  { intros o w3 H3. exists (rd_key r). etrans; [exact T02|by apply tidies_calm]. }
  apply silent_try; [apply silent_map, silent_sync|]. intros _.
  apply silent_try; [apply silent_map, silent_remove; rewrite Hw; apply expiry_aside|]. intros _.
  apply silent_bind; [apply silent_sync|]. intros [[]|e]; [apply silent_ret|].
  apply silent_try; [apply silent_register|intros; apply silent_ret].
Qed.
End ops.

(** ** Gates and frames

    The remaining calm operations, the execution gates, and what an operation
    on one key leaves alone. *)

(** ** Calm operations *)

Section calm_ops.
Context `{SL : Sha256Laws} `{SB : Sha256Bytes} `{UL : UuidsLaws} `{IdemCodec}.

Lemma generated_temp_name name : generated_temp name = true → ends_with name (s".json") = false.
Proof.
  unfold generated_temp. destruct (split_once_str _ name) as [[stem suffix]|] eqn:E; [|done].
  apply split_once_str_Some in E as ->. intros [_ Hu%uuid_v7_chars]%andb_true_iff.
  destruct (ends_with _ _) eqn:Ee; [|done]. exfalso. unfold ends_with in Ee.
  destruct (strip_suffix _ _) as [r|] eqn:Es; [|done]. apply strip_suffix_Some in Es.
  assert (Hl : last (stem ++ s".tmp-" ++ suffix) = Some 110%Z) by (rewrite Es; apply last_app_Some; by left).
  destruct (decide (suffix = [])) as [->|Hne].
  { rewrite app_nil_r, last_app in Hl. done. }
  apply exists_last in Hne as (l & c & ->). rewrite !app_assoc, last_snoc in Hl. simplify_eq.
  apply Forall_app in Hu as [_ Hu]. inversion Hu as [|?? [Hc|Hc] _]; [|done].
  unfold lower_hex, is_ascii_digit in Hc. done.
Qed.
Lemma generated_aside name : generated_temp name = true → aside (idempotency_dir ++ [name]).
Proof. intros Hg. split; [by apply generated_temp_name|done]. Qed.

Lemma silent_clean_temp dir name modified now :
  (generated_temp name = true → aside (dir ++ [name])) → silent (clean_temp dir name modified now).
Proof.
  intros Ha. unfold clean_temp. destruct (generated_temp name); cbn [negb]; [|apply silent_ret].
  assert (Hu : silent (_ ←? io_map_err DIo (remove_file (dir ++ [name])); io_map_err DIo (sync_dir dir))).
  { apply silent_try; [apply silent_map, silent_remove; auto|]. intros _. apply silent_map, silent_sync. }
  apply silent_try; [apply silent_map, silent_metadata|]. intros meta.
  repeat (case_match; try apply silent_ret; try exact Hu).
Qed.
Lemma silent_discover name : silent (discover name).
Proof.
  unfold discover. set (is_ready := match strip_suffix _ name with Some _ => _ | None => _ end).
  clearbody is_ready. destruct (is_ready || generated_temp name) eqn:Eg; cbn [negb]; [|apply silent_ret].
  apply silent_try; [apply silent_map, silent_metadata|]. intros [n|]; [|apply silent_ret].
  destruct is_ready.
  - apply silent_try; [apply silent_required|]. intros b.
    destruct (ready_from_slice b); [|apply silent_ret]. case_bool_decide; [|apply silent_ret].
    apply silent_register.
  - cbn [orb] in Eg. apply generated_aside in Eg.
    destruct n as [b| | |]; [|apply silent_ret| |apply silent_ret].
    + apply silent_bind; [apply silent_metadata|]. intros meta.
      assert (silent (_ ←? io_map_err DIo (rename_verified (idempotency_dir ++ [name]) (temp_path ++ [name]));
        _ ←? io_map_err DIo (sync_dir temp_path); io_map_err DIo (sync_dir idempotency_dir))).
      { apply silent_try; [apply silent_map, silent_rename; [done|apply temp_aside]|]. intros _.
        apply silent_try; [apply silent_map, silent_sync|]. intros _. apply silent_map, silent_sync. }
      destruct meta as [[m|]|e]; [apply silent_ret|done..].
    + apply silent_try; [apply silent_map; by apply silent_remove|]. intros _. apply silent_map, silent_sync.
Qed.
Lemma silent_write_orphan run key digest : silent (write_orphan_record run key digest).
Proof.
  unfold write_orphan_record. case_match; [apply silent_ret|]. apply silent_try.
  { apply silent_map, silent_create_all. intros q. cbn. rewrite !elem_of_cons, elem_of_nil.
    by intros [->|[->|[]]]. }
  intros _. apply silent_try; [apply silent_now|]. intros now. case_match; [apply silent_ret|].
  apply silent_bind; [apply silent_uuid|]. intros id.
  assert (Ha : aside (parent (orphan_path_for_run run) ++ [s"idempotency.tmp-" ++ id]))
    by (apply aside_long; cbn; lia).
  apply silent_new_err; [done|]. apply silent_try; [apply silent_map; by apply silent_write|]. intros _.
  apply silent_try; [apply silent_map, silent_settle|]. intros _.
  apply silent_bind; [apply silent_rename; [done|apply orphan_aside]|]. intros [[]|e].
  - apply silent_map, silent_sync.
  - apply silent_bind; [by apply silent_remove|intros; apply silent_ret].
Qed.
Lemma silent_find_orphan key ttl found names : silent (find_orphan_go key ttl found names).
Proof.
  revert found; induction names as [|name names IH]; intros found; cbn [find_orphan_go];
    [apply silent_ret|].
  case_match; [apply IH|]. apply silent_try; [apply silent_map, silent_metadata|]. intros meta.
  case_match; [apply IH|]. apply silent_bind; [apply silent_bounded|].
  intros [b| |d]; [|apply IH..]. destruct (orphan_from_slice b) as [o|]; [|apply IH].
  case_match; [apply IH|]. apply silent_try; [apply silent_now|]. intros now.
  case_match; [apply silent_bind; [apply silent_remove, orphan_aside|intros; apply IH]|].
  case_match; [apply silent_ret|]. destruct found as [[run dig]|]; [|apply IH].
  case_match; [apply IH|apply silent_ret].
Qed.
Lemma silent_load key ttl : silent (load_durable_ready_result key ttl).
Proof.
  apply silent_try.
  - apply silent_bind; [apply silent_bounded|intros; apply silent_ret].
  - intros [r|]; [|apply silent_ret]. apply silent_try; [apply silent_now|intros; apply silent_ret].
Qed.
Lemma silent_read_pending key : silent (read_durable_pending key).
Proof.
  apply silent_bind; [apply silent_bounded|].
  intros [b| |d]; [apply silent_parse|apply silent_ret..].
Qed.
Lemma silent_wait_round key digest ttl late : silent (wait_round key digest ttl late).
Proof.
  assert (Hr : ∀ x, silent (recheck_ready key digest ttl x)).
  { intros x. apply silent_try; [apply silent_map, silent_load|intros; apply silent_ret]. }
  apply silent_bind; [apply silent_load|]. intros ready.
  apply silent_bind; [apply silent_read_pending|]. intros pending.
  repeat (case_match; try apply silent_ret; try (apply silent_map, Hr)).
Qed.
End calm_ops.

(** ** Execution gates *)

Section gates.
Context `{SL : Sha256Laws} `{U : Uuids} `{IdemCodec}.

(** Calm but for the gates. *)
Definition with_gates (w w' : world) : world :=
  w' <| w_gates := w_gates w |> <| w_locked := w_locked w |> <| w_inodes := w_inodes w |>.
Definition still (w w' : world) : Prop := calm w (with_gates w w').
Lemma calm_still w w' : calm w w' → still w w'.
Proof. by intros [A B C D]. Qed.
Lemma still_trans w1 w2 w3 : still w1 w2 → still w2 w3 → still w1 w3.
Proof.
  intros [A1 B1 C1 _] [A2 B2 C2 _]. split; cbn in *; [|by auto|by etrans|done].
  intros p Hp. by rewrite A2, A1.
Qed.

(** Opening a lock file keeps its inode or makes a new one. *)
Definition opened_at (p : path) (w w' : world) : Prop :=
  (w_gates w' = w_gates w ∧ w_inodes w' = w_inodes w) ∨
  (w_gates w !! p = None ∧ w_gates w' = <[p := w_inodes w]> (w_gates w) ∧
   w_inodes w' = S (w_inodes w)).
Definition acquired (key : str) (w : world) (o : outcome (result store_detail (option ExecutionGate)))
    (w' : world) : Prop :=
  still w w' ∧ opened_at (gate_path key) w w' ∧
  match o with
  | Done (Ok (Some g)) =>
      gt_key g = key ∧ gt_path g = gate_path key ∧
      w_gates w' !! gate_path key = Some (gt_inode g) ∧
      gt_inode g ∉ w_locked w ∧ w_locked w' = {[gt_inode g]} ∪ w_locked w
  | _ => w_locked w' = w_locked w
  end.
Lemma silent_registry : silent registry.
Proof.
  apply silent_try.
  { apply silent_map, silent_create_all. intros q. cbn. rewrite !elem_of_cons, elem_of_nil.
    by intros [->|[->|[]]]. }
  intros _. apply silent_try; [apply silent_map, silent_open; by split|]. intros _.
  apply silent_map, silent_try_lock.
Qed.
Lemma acquired_calm key w o w' :
  calm w w' → (∀ g, o ≠ Done (Ok (Some g))) → acquired key w o w'.
Proof.
  intros Hc Ho. pose proof (calm_gates _ _ Hc) as [= Eg El Ei].
  split; [by apply calm_still|]. split; [by left|]. by destruct o as [[[g|]|]|]; [destruct (Ho g)|..].
Qed.
Lemma open_gate_spec p w :
  post (open_gate p) w (λ o w', still w w' ∧ opened_at p w w' ∧ w_locked w' = w_locked w ∧
    ∀ i, o = Done (Ok i) → w_gates w' !! p = Some i).
Proof.
  unfold post, open_gate. destruct (w_answers w) as [|[] ?]; cbn;
    try (split; [by split|]; split; [by left|]; by split).
  all: destruct (w_gates w !! p) as [i|] eqn:E; cbn;
    (split; [by split|]; split; [by (left + right)|]; split; [done|]; intros ? [= <-]);
    [done|apply lookup_insert_eq].
Qed.
Lemma try_lock_inode_spec i w :
  post (try_lock_inode i) w (λ o w', still w w' ∧ w_gates w' = w_gates w ∧ w_inodes w' = w_inodes w ∧
    match o with
    | Done (Ok true) => i ∉ w_locked w ∧ w_locked w' = {[i]} ∪ w_locked w
    | _ => w_locked w' = w_locked w
    end).
Proof.
  unfold post, try_lock_inode. destruct (w_answers w) as [|[] ?]; cbn; try done;
    (case_bool_decide; cbn; (split; [by split|done])).
Qed.
Lemma acquire_spec key w : post (try_acquire key) w (acquired key w).
Proof.
  unfold try_acquire. apply post_try. eapply post_mono; [|apply silent_registry].
  intros [[[]|d]|] w1 H1; cbn [negb]; try (try apply post_ret; by apply acquired_calm).
  pose proof (calm_gates _ _ H1) as [= Eg El Ei].
  apply post_try, post_map. eapply post_mono; [|apply open_gate_spec].
  intros o w2 (S2 & O2 & L2 & I2).
  assert (S02 : still w w2) by (eapply still_trans; [by apply calm_still|done]).
  assert (O02 : opened_at (gate_path key) w w2).
  { unfold opened_at in *. rewrite <-Eg, <-Ei. done. }
  destruct o as [[i|e]|]; [|by split; [|split; [|cbn; congruence]]..]. specialize (I2 i eq_refl).
  apply post_try, post_map. eapply post_mono; [|apply try_lock_inode_spec].
  intros o w3 (S3 & G3 & N3 & H3).
  assert (S03 : still w w3) by (by eapply still_trans).
  assert (O03 : opened_at (gate_path key) w w3) by (unfold opened_at in *; by rewrite G3, N3).
  destruct o as [[[]|e]|]; [|apply post_ret|..]; try (split; [done|split; [done|]]; cbn; congruence).
  apply post_ret. destruct H3 as [H3 H4]. split; [done|]. split; [done|]. cbn.
  rewrite G3. split; [done|]. split; [done|]. split; [done|]. split; congruence.
Qed.

(** Reclaiming unlinks the lock file of an idle gate at most. *)
Definition reclaimed (p : path) (w w' : world) : Prop :=
  still w w' ∧ w_locked w' = w_locked w ∧ w_inodes w' = w_inodes w ∧
  (w_gates w' = w_gates w ∨
   ∃ i, w_gates w !! p = Some i ∧ i ∉ w_locked w ∧ w_gates w' = delete p (w_gates w)).
Lemma reclaimed_calm p w w' : calm w w' → reclaimed p w w'.
Proof.
  intros Hc. pose proof (calm_gates _ _ Hc) as [= Eg El Ei]. split; [by apply calm_still|].
  split; [done|]. split; [done|]. by left.
Qed.
Lemma reclaim_spec p w : post (reclaim p) w (λ _ w', reclaimed p w w').
Proof.
  unfold reclaim. apply post_try. eapply post_mono; [|apply silent_registry].
  intros o w1 H1. pose proof (reclaimed_calm p _ _ H1) as Hr.
  destruct o as [[[]|d]|]; cbn [negb]; [|by apply post_ret|done..].
  pose proof (calm_gates _ _ H1) as [= Eg El Ei].
  apply post_bind. unfold post at 1, find_gate. cbn.
  destruct (w_gates w1 !! p) as [i|] eqn:E; [|by apply post_ret].
  apply post_try, post_map. eapply post_mono; [|apply try_lock_inode_spec].
  intros o w2 (S2 & G2 & N2 & H2).
  assert (S02 : still w w2) by (eapply still_trans; [by apply calm_still|done]).
  destruct o as [[[]|e]|].
  2-4: try apply post_ret; split; [done|]; split; [congruence|]; split; [congruence|];
    left; congruence.
  destruct H2 as [Hi Hl]. rewrite El in Hi, Hl. apply post_bind. unfold post at 1, unlock_inode. cbn.
  set (w3 := w2 <| w_locked := w_locked w2 ∖ {[i]} |>).
  assert (S03 : still w w3) by (by destruct S02).
  assert (L3 : w_locked w3 = w_locked w) by (cbn; rewrite Hl; set_solver).
  assert (N3 : w_inodes w3 = w_inodes w) by (cbn; congruence).
  assert (G3 : w_gates w3 = w_gates w) by (cbn; congruence). clearbody w3.
  apply post_map. unfold post, unlink_gate.
  destruct (w_answers w3) as [|[] ?]; cbn;
    (split; [by destruct S03|]; split; [exact L3|]; split; [exact N3|]);
    first [by left|right; exists i; split; [congruence|]; split; [done|]; by rewrite G3].
Qed.
End gates.
