(* ===== verification/IdemSystem.v ===== *)
(** * Idempotent requests

    [server/src/server/idempotency/mod.rs] and [guard.rs]: requests of several
    server processes with an idempotency key, as a transition system over the
    shared store.  A request takes one step per critical section of
    [with_idempotency]: a look at the memory of its process, or an operation
    on the store, which runs under the metadata lock.  Between two steps
    anything else may happen; a process may die in every effect and between
    any two of them. *)

From stdpp Require Import gmap.
From S2P Require Import Prelude Str TraceIds PathPolicy IdemWorld IdemStore IdemExpiry.

#[local] Arguments s : simpl never.

(** What a request executes: the content it was accepted for, the acceptance
    id, the run it works on. *)
Record Execution : Type := mkExecution {
  ex_digest : str;
  ex_operation : str;
  ex_run : option str;
}.

(** The identity of a claim ([ClaimOutcome::Owner]). *)
Record Identity : Type := mkIdentity {
  id_operation : str;
  id_owner : str;
  id_generation : Z;
  id_run : option str;
}.

(** [IdempotencyEntry]: the owner of a Pending entry is the request-local
    [owner_id]. *)
Inductive MemEntry : Type :=
| MPending (digest : str) (owner : nat)
| MReady (r : DurableIdempotencyRecord).

(** Where a request is in [with_idempotency]; [carried] is [carried_adopted]. *)
Inductive phase : Type :=
| Looking (carried : option str)
| Wanting (carried : option str)
| AwaitPeer (carried : option str)
| Gated (carried : option str) (gate : ExecutionGate)
| Claimed (carried : option str) (gate : ExecutionGate) (id : Identity)
| Registered (carried : option str) (gate : ExecutionGate) (id : Identity) (owner : nat)
| Executing (gate : ExecutionGate) (id : Identity) (owner : nat)
| Executed (gate : ExecutionGate) (id : Identity) (owner : nat) (run : str)
| Committed (gate : ExecutionGate) (id : Identity) (owner : nat) (r : DurableIdempotencyRecord)
| Conflicted (gate : ExecutionGate) (id : Identity) (owner : nat)
| StoreFailed (gate : ExecutionGate) (id : Identity) (owner : nat) (run : str)
| Detached (gate : ExecutionGate)
| Finished.

Record request : Type := mkRequest {
  q_pid : nat;
  q_key : str;
  q_digest : str;
  q_reserved : option str;
  (** Is it [start_run] or [fork_run]? *)
  q_creates : bool;
  q_phase : phase;
}.
Definition set_phase (ph : phase) (q : request) : request :=
  mkRequest (q_pid q) (q_key q) (q_digest q) (q_reserved q) (q_creates q) ph.

(** The gate a phase holds, and the memory registration it is responsible for. *)
Definition gate_of (ph : phase) : option ExecutionGate :=
  match ph with
  | Gated _ g | Claimed _ g _ | Registered _ g _ _ | Executing g _ _ | Executed g _ _ _
  | Committed g _ _ _ | Conflicted g _ _ | StoreFailed g _ _ _ | Detached g => Some g
  | _ => None
  end.
Definition registered (ph : phase) : option nat :=
  match ph with
  | Registered _ _ _ o | Executing _ _ o | Executed _ _ o _ | Committed _ _ o _
  | Conflicted _ _ o | StoreFailed _ _ o _ => Some o
  | _ => None
  end.

Record system : Type := mkSystem {
  sy_world : world;
  sy_requests : gmap nat request;
  sy_memory : gmap (nat * str) MemEntry;
  (** Spawned withdrawals that have not run yet. *)
  sy_tasks : list (nat * str * nat);
  sy_next : nat;
  (** The executions begun, not answered by a Ready since, and not given up
      by a later claim of the key that found an entry in the memory of its
      process and released what it had adopted ([forget]). *)
  sy_open : gmap str Execution;
}.

Section system.
Context `{Sha256, Sha256Bytes, Uuids, IdemCodec}.
(** The frozen deployment settings. *)
Variables (ttl : Z) (max_entries : nat).

(** [request_digest]: scope, target, body and context, separated by NUL. *)
Definition digest_input (scope target : str) (body : list Z) (context : option (list Z)) : list Z :=
  utf8_bytes scope ++ [0%Z] ++ utf8_bytes target ++ [0%Z] ++ body
  ++ match context with Some context => 0%Z :: context | None => [] end.
Definition request_digest (scope target : str) (body : list Z) (context : option (list Z)) : str :=
  sha256_bytes_hex (digest_input scope target body context).

(** ** Bookkeeping of a step *)

(** Dropping a gate unlocks its inode; the file is reclaimed in a later step. *)
Definition drop_gate (before after : phase) (w : world) : world :=
  match gate_of before, gate_of after with
  | Some g, None => w <| w_locked := w_locked w ∖ {[gt_inode g]} |>
  | _, _ => w
  end.
Definition still_open (w : world) (open : gmap str Execution) : gmap str Execution :=
  filter (λ '(key, _), w_files w !! idempotency_path key = None) open.
(** [PendingIdempotencyGuard::withdraw]. *)
Definition withdraw (pid : nat) (key : str) (owner : nat) (memory : gmap (nat * str) MemEntry) :
    gmap (nat * str) MemEntry :=
  match memory !! (pid, key) with
  | Some (MPending _ current) => if bool_decide (current = owner) then delete (pid, key) memory else memory
  | _ => memory
  end.
(** A request enters a phase in the world [w]. *)
Definition enter (sy : system) (rid : nat) (q : request) (ph : phase) (w : world) : system :=
  let w := drop_gate (q_phase q) ph w in
  mkSystem w (<[rid := set_phase ph q]> (sy_requests sy)) (sy_memory sy) (sy_tasks sy) (sy_next sy)
    (still_open w (sy_open sy)).
Definition with_memory (memory : gmap (nat * str) MemEntry) (sy : system) : system :=
  mkSystem (sy_world sy) (sy_requests sy) memory (sy_tasks sy) (sy_next sy) (sy_open sy).
(** [Drop] of an armed guard spawns a withdrawal. *)
Definition spawn_withdraw (q : request) (sy : system) : system :=
  mkSystem (sy_world sy) (sy_requests sy) (sy_memory sy)
    (match registered (q_phase q) with
     | Some o => (q_pid q, q_key q, o) :: sy_tasks sy | None => sy_tasks sy end)
    (sy_next sy) (sy_open sy).
(** A request that finds an entry in the memory of its process after its claim
    releases the claim, although it may have adopted it from an execution that
    was interrupted. *)
Definition forget (key : str) (sy : system) : system :=
  mkSystem (sy_world sy) (sy_requests sy) (sy_memory sy) (sy_tasks sy) (sy_next sy)
    (delete key (sy_open sy)).
Definition begin_execution (key : str) (x : Execution) (sy : system) : system :=
  mkSystem (sy_world sy) (sy_requests sy) (sy_memory sy) (sy_tasks sy) (sy_next sy)
    (<[key := x]> (sy_open sy)).
Definition execution_of (q : request) (id : Identity) : Execution :=
  mkExecution (q_digest q) (id_operation id) (id_run id).

(** ** The operations on the store, and where they lead *)

Definition claim_key (q : request) (carried : option str) (gate : ExecutionGate) :
    io (result ApiHttpError ClaimOutcome) :=
  claim_durable_pending_for_target_gated gate (q_key q) (q_digest q)
    (or_else_opt carried (q_reserved q)) ttl (negb (q_creates q)).
Definition after_claim (carried : option str) (gate : ExecutionGate)
    (o : outcome (result ApiHttpError ClaimOutcome)) : phase :=
  match o with
  | Done (Ok (COwner op run owner g)) => Claimed carried gate (mkIdentity op owner g run)
  | Done (Ok CPeer) => AwaitPeer carried
  | Done (Ok (CReady _)) => Looking carried
  | _ => Finished
  end.
Definition after_wait (carried : option str)
    (o : outcome (result ApiHttpError (option WaitOutcome))) : phase :=
  match o with
  | Done (Ok None) => AwaitPeer carried
  | Done (Ok (Some (WReady _))) => Looking carried
  | Done (Ok (Some (WRetryClaim adopted))) => Looking (or_else_opt carried adopted)
  | _ => Finished
  end.
Definition release_claim (q : request) (gate : ExecutionGate) (id : Identity) : io (result store_detail ()) :=
  release_durable_pending_gated gate (q_key q) (id_owner id) (id_generation id).
Definition check_claim (q : request) (gate : ExecutionGate) (id : Identity) : io (result store_detail OwnerCheck) :=
  check_pending_owner_gated gate (q_key q) (id_owner id) (id_generation id) (q_digest q).
Definition store_result (q : request) (gate : ExecutionGate) (id : Identity) (run : str) :
    io (result StoreReadyError DurableIdempotencyRecord) :=
  store_durable_ready_gated gate (q_key q) (q_digest q) run (id_owner id) (id_generation id) ttl.
Definition after_store (gate : ExecutionGate) (id : Identity) (owner : nat) (run : str)
    (o : outcome (result StoreReadyError DurableIdempotencyRecord)) : phase :=
  match o with
  | Done (Ok r) => Committed gate id owner r
  | Done (Err DigestConflict) => Conflicted gate id owner
  | Done (Err (Storage _)) => StoreFailed gate id owner run
  | Crashed => Finished
  end.
(** After a storage error only a different committed winner releases. *)
Definition after_store_error (q : request) (gate : ExecutionGate) (id : Identity) (run : str) :
    io (result store_detail ()) :=
  committed ← load_durable_ready_result (q_key q) ttl;
  match committed with
  | Ok (Some r) =>
      if (rd_digest r =s q_digest q) && negb (rd_run_id r =s run)
      then _ ← release_claim q gate id; mret (Ok ())
      else mret (Ok ())
  | _ => mret (Ok ())
  end.

(** What the memory says when a claimed request registers itself. *)
Inductive Reexamined : Type := XReady | XPending (digest : str) | XAbsent.
Definition reexamine (entry : option MemEntry) : io (result store_detail Reexamined) :=
  match entry with
  | Some (MReady r) =>
      now ←? now_unix; mret (Ok (if expired_at r now ttl then XAbsent else XReady))
  | Some (MPending digest _) => mret (Ok (XPending digest))
  | None => mret (Ok XAbsent)
  end.
Definition entries_of (pid : nat) (memory : gmap (nat * str) MemEntry) : nat :=
  size (filter (λ '((p, _), _), p = pid) memory).

(** Operations of anybody: sweeps, reads, sidecars, cleaning up of gates. *)
Inductive background : io (result store_detail ()) → Prop :=
| bg_reap work : background (now ←? now_unix; reap work now ttl)
| bg_discover name : background (discover name)
| bg_clean_temp name modified now : background (clean_temp temp_path name modified now)
| bg_write_orphan run key digest : background (write_orphan_record run key digest)
| bg_find_orphan key names : background (_ ←? find_orphan_run key ttl names; mret (Ok ()))
| bg_load key : background (_ ←? load_durable_ready_result key ttl; mret (Ok ()))
| bg_load_pending key : background (_ ←? load_durable_pending_digest_result key; mret (Ok ()))
| bg_reclaim p : background (reclaim p).

Inductive idem_step (sy : system) : system → Prop :=
| st_arrive rid q :
    sy_requests sy !! rid = None → q_phase q = Looking None →
    idem_step sy (enter sy rid q (Looking None) (sy_world sy))
| st_background m o w' :
    background m → m (sy_world sy) = (o, w') →
    idem_step sy (mkSystem w' (sy_requests sy) (sy_memory sy) (sy_tasks sy) (sy_next sy)
               (still_open w' (sy_open sy)))
(** The memory of a process: pruning, caching, spawned withdrawals. *)
| st_prune pid key :
    idem_step sy (with_memory (delete (pid, key) (sy_memory sy)) sy)
| st_cache pid key r b :
    w_files (sy_world sy) !! idempotency_path key = Some (NFile b) → parse_ready key b = Ok r →
    idem_step sy (with_memory (<[(pid, key) := MReady r]> (sy_memory sy)) sy)
| st_withdraw pid key owner tasks tasks' :
    sy_tasks sy = tasks ++ (pid, key, owner) :: tasks' →
    idem_step sy (mkSystem (sy_world sy) (sy_requests sy) (withdraw pid key owner (sy_memory sy))
               (tasks ++ tasks') (sy_next sy) (sy_open sy))
(** Admission. *)
| st_look rid q carried :
    sy_requests sy !! rid = Some q → q_phase q = Looking carried →
    sy_memory sy !! (q_pid q, q_key q) = None →
    idem_step sy (enter sy rid q (Wanting carried) (sy_world sy))
| st_orphan rid q names run w' :
    sy_requests sy !! rid = Some q → q_phase q = Wanting None → q_creates q = true →
    find_orphan_run (q_key q) ttl names (sy_world sy) = (Done (Ok (Some (run, q_digest q))), w') →
    idem_step sy (enter sy rid q (Wanting (Some run)) w')
| st_acquire rid q carried gate w' :
    sy_requests sy !! rid = Some q → q_phase q = Wanting carried →
    try_acquire (q_key q) (sy_world sy) = (Done (Ok (Some gate)), w') →
    idem_step sy (enter sy rid q (Gated carried gate) w')
| st_busy rid q carried w' :
    sy_requests sy !! rid = Some q → q_phase q = Wanting carried →
    try_acquire (q_key q) (sy_world sy) = (Done (Ok None), w') →
    idem_step sy (enter sy rid q (Wanting carried) w')
| st_claim rid q carried gate o w' :
    sy_requests sy !! rid = Some q → q_phase q = Gated carried gate →
    claim_key q carried gate (sy_world sy) = (o, w') →
    idem_step sy (enter sy rid q (after_claim carried gate o) w')
| st_wait rid q carried late o w' :
    sy_requests sy !! rid = Some q → q_phase q = AwaitPeer carried →
    wait_round (q_key q) (q_digest q) ttl late (sy_world sy) = (o, w') →
    idem_step sy (enter sy rid q (after_wait carried o) w')
| st_register rid q carried gate id w' :
    sy_requests sy !! rid = Some q → q_phase q = Claimed carried gate id →
    reexamine (sy_memory sy !! (q_pid q, q_key q)) (sy_world sy) = (Done (Ok XAbsent), w') →
    (entries_of (q_pid q) (sy_memory sy) < max_entries)%nat →
    idem_step sy (enter (mkSystem (sy_world sy) (sy_requests sy)
                      (<[(q_pid q, q_key q) := MPending (q_digest q) (sy_next sy)]> (sy_memory sy))
                      (sy_tasks sy) (S (sy_next sy)) (sy_open sy))
               rid q (Registered carried gate id (sy_next sy)) w')
| st_diverge rid q carried gate id found w1 o w' ph :
    sy_requests sy !! rid = Some q → q_phase q = Claimed carried gate id →
    reexamine (sy_memory sy !! (q_pid q, q_key q)) (sy_world sy) = (Done (Ok found), w1) →
    found ≠ XAbsent → release_claim q gate id w1 = (o, w') →
    ph = match o with
         | Done (Ok _) =>
             match found with
             | XPending digest => if digest =s q_digest q then Looking carried else Finished
             | _ => Looking carried
             end
         | _ => Finished
         end →
    idem_step sy (forget (q_key q) (enter sy rid q ph w'))
| st_check rid q carried gate id owner o w' :
    sy_requests sy !! rid = Some q → q_phase q = Registered carried gate id owner →
    check_claim q gate id (sy_world sy) = (o, w') → o ≠ Done (Ok OCurrent) →
    idem_step sy
      match o with
      | Done (Ok _) =>
          with_memory (withdraw (q_pid q) (q_key q) owner (sy_memory sy))
            (enter sy rid q (Looking (or_else_opt carried (id_run id))) w')
      | _ => spawn_withdraw q (enter sy rid q Finished w')
      end
(** Execution. *)
| st_begin rid q carried gate id owner w' :
    sy_requests sy !! rid = Some q → q_phase q = Registered carried gate id owner →
    check_claim q gate id (sy_world sy) = (Done (Ok OCurrent), w') →
    idem_step sy (begin_execution (q_key q) (execution_of q id) (enter sy rid q (Executing gate id owner) w'))
| st_executed rid q gate id owner run :
    sy_requests sy !! rid = Some q → q_phase q = Executing gate id owner →
    idem_step sy (enter sy rid q (Executed gate id owner run) (sy_world sy))
| st_execute_error rid q gate id owner :
    sy_requests sy !! rid = Some q → q_phase q = Executing gate id owner →
    idem_step sy (with_memory (withdraw (q_pid q) (q_key q) owner (sy_memory sy))
               (enter sy rid q Finished (sy_world sy)))
| st_detach rid q gate id owner :
    sy_requests sy !! rid = Some q → q_phase q = Executing gate id owner →
    idem_step sy (spawn_withdraw q (enter sy rid q (Detached gate) (sy_world sy)))
(** Publication. *)
| st_store rid q gate id owner run o w' :
    sy_requests sy !! rid = Some q → q_phase q = Executed gate id owner run →
    store_result q gate id run (sy_world sy) = (o, w') →
    idem_step sy (enter sy rid q (after_store gate id owner run o) w')
| st_conflicted rid q gate id owner o w' :
    sy_requests sy !! rid = Some q → q_phase q = Conflicted gate id owner →
    release_claim q gate id (sy_world sy) = (o, w') →
    idem_step sy (spawn_withdraw q (enter sy rid q Finished w'))
| st_store_failed rid q gate id owner run o w' :
    sy_requests sy !! rid = Some q → q_phase q = StoreFailed gate id owner run →
    after_store_error q gate id run (sy_world sy) = (o, w') →
    idem_step sy (with_memory (withdraw (q_pid q) (q_key q) owner (sy_memory sy))
               (enter sy rid q Finished w'))
| st_committed rid q gate id owner r o w' :
    sy_requests sy !! rid = Some q → q_phase q = Committed gate id owner r →
    release_claim q gate id (sy_world sy) = (o, w') →
    idem_step sy (with_memory (<[(q_pid q, q_key q) := MReady r]> (sy_memory sy))
               (enter sy rid q Finished w'))
(** A request answers and is gone, its future is dropped, or its process dies. *)
| st_leave rid q :
    sy_requests sy !! rid = Some q →
    (∀ gate id owner, q_phase q ≠ Executing gate id owner) →
    idem_step sy (spawn_withdraw q (enter sy rid q Finished (sy_world sy)))
| st_die rid q :
    sy_requests sy !! rid = Some q →
    idem_step sy (enter sy rid q Finished (sy_world sy)).

(** A store with any content; no request, no lock held. *)
Definition initial (sy : system) : Prop :=
  sy_requests sy = ∅ ∧ sy_open sy = ∅ ∧ w_locked (sy_world sy) = ∅ ∧
  map_Forall (λ _ inode, inode < w_inodes (sy_world sy)) (w_gates (sy_world sy)).
Definition reachable (sy : system) : Prop := ∃ sy0, initial sy0 ∧ rtc idem_step sy0 sy.
End system.
