(* ===== verification/IdemProtocol.v ===== *)
(** * Frames and the invariant of idempotent requests *)

From stdpp Require Import gmap.
From S2P Require Import Prelude Str TraceIds PathPolicy IdemWorld IdemStore IdemExpiry IdemMoves IdemOps IdemSystem.

#[local] Arguments s : simpl never.

(** * What an operation on one key leaves alone

    Claims that no Ready resolves survive every operation that does not own
    their key; a Ready survives every operation until it has expired. *)

Section frame.
Context `{SL : Sha256Laws} `{SB : Sha256Bytes} `{U : Uuids} `{CL : IdemCodecLaws}.

(** Two keys may share their files: the file names are digests. *)
Definition same_slot (key key' : str) : Prop := sha256_hex key = sha256_hex key'.
Lemma slot_ready key key' : idempotency_path key = idempotency_path key' ↔ same_slot key key'.
Proof.
  unfold idempotency_path, same_slot. split; [|by intros ->]. intros [= E]. by simplify_list_eq.
Qed.
Lemma slot_pending key key' : pending_path key = pending_path key' ↔ same_slot key key'.
Proof.
  unfold pending_path, same_slot. split; [|by intros ->]. intros [= E]. by simplify_list_eq.
Qed.
Lemma slot_gate key key' : gate_path key = gate_path key' ↔ same_slot key key'.
Proof.
  unfold gate_path, same_slot. split; [|by intros ->]. intros [= E]. by simplify_list_eq.
Qed.

Lemma pending_at_unique key key' w p q :
  same_slot key key' → pending_at key w p → pending_at key' w q → p = q.
Proof.
  intros Hs (b & Hb & Hp) (b' & Hb' & Hq). apply slot_pending in Hs. rewrite Hs in Hb.
  rewrite Hb' in Hb. by simplify_eq.
Qed.
Lemma ready_at_unique key key' w r r' :
  same_slot key key' → ready_at key w r → ready_at key' w r' → key = key' ∧ r = r'.
Proof.
  intros Hs (b & Hb & Hr) (b' & Hb' & Hr'). apply slot_ready in Hs. rewrite Hs in Hb.
  rewrite Hb' in Hb. simplify_eq.
  pose proof (parse_ready_key _ _ _ Hr). pose proof (parse_ready_key _ _ _ Hr').
  apply parse_ready_slice in Hr, Hr'. naive_solver.
Qed.
Lemma no_ready_slot key key' w : same_slot key key' → no_ready key w → no_ready key' w.
Proof. intros Hs%slot_ready. unfold no_ready. by rewrite Hs. Qed.
Lemma no_ready_not key key' w r : same_slot key key' → no_ready key w → ¬ ready_at key' w r.
Proof. intros Hs Hn (b & Hb & _). apply (no_ready_slot _ _ _ Hs) in Hn. unfold no_ready in Hn. congruence. Qed.

(** [keeps P w w']: an unresolved claim of a key in [P] survives. *)
Definition keeps (P : str → Prop) (w w' : world) : Prop :=
  ∀ key, P key → no_ready key w →
    no_ready key w' ∧ ∀ p, pending_at key w p → pending_at key w' p.
Definition others (key : str) : str → Prop := λ key', ¬ same_slot key' key.
Definition everywhere : str → Prop := λ _, True.

Lemma keeps_trans P w1 w2 w3 : keeps P w1 w2 → keeps P w2 w3 → keeps P w1 w3.
Proof. intros H1 H2 key HP Hn. destruct (H1 key HP Hn) as [Hn2 Hp]. destruct (H2 key HP Hn2). auto. Qed.
Lemma keeps_weaken P w w' : keeps everywhere w w' → keeps P w w'.
Proof. intros H1 key _. by apply H1. Qed.
Lemma keeps_same P w w' :
  (∀ p, slot_shape p = true → w_files w' !! p = w_files w !! p) → keeps P w w'.
Proof.
  intros Hf key _ Hn. split.
  - unfold no_ready. by rewrite Hf by apply ready_slot.
  - intros p (b & Hb & Hp). exists b. by rewrite Hf by apply pending_slot.
Qed.
Lemma keeps_calm P w w' : calm w w' → keeps P w w'.
Proof. intros Hc. apply keeps_same, Hc. Qed.
Lemma keeps_still P w w' : still w w' → keeps P w w'.
Proof. intros Hc. apply keeps_same. exact (calm_slots _ _ Hc). Qed.

(** A change of the Pending of a key keeps the others. *)
Lemma keeps_pending key w w' :
  (∀ p, p ≠ pending_path key → w_files w' !! p = w_files w !! p) → keeps (others key) w w'.
Proof.
  intros Hf key' Hk Hn. split.
  - unfold no_ready. rewrite Hf; [done|]. apply ready_pending_ne.
  - intros p (b & Hb & Hp). exists b. rewrite Hf; [done|]. by intros E%slot_pending.
Qed.
Lemma keeps_ready key w w' :
  (∀ p, p ≠ idempotency_path key → w_files w' !! p = w_files w !! p) → keeps (others key) w w'.
Proof.
  intros Hf key' Hk Hn. split.
  - unfold no_ready. rewrite Hf; [done|]. by intros E%slot_ready.
  - intros p (b & Hb & Hp). exists b. rewrite Hf; [done|]. intros E. symmetry in E.
    by apply ready_pending_ne in E.
Qed.
Lemma cut_other p q w : q ≠ p → w_files (cut p w) !! q = w_files w !! q.
Proof. intros Hne. by apply lookup_delete_ne. Qed.
Lemma put_other p n q w : q ≠ p → w_files (put p n w) !! q = w_files w !! q.
Proof. intros Hne. by apply lookup_insert_ne. Qed.

(** Cleaning up needs a Ready: it touches no unresolved claim. *)
Lemma tidy_keeps key ttl readings w w' : tidy key ttl readings w w' → keeps everywhere w w'.
Proof.
  intros [w1 w2 Hc|w1 r p Hr Hp _|w1 r now Hr _ _] key' _ Hn; [by apply (keeps_calm everywhere)|..].
  all: assert (Hs : others key key')
    by (intros Hs; by apply (no_ready_not _ _ _ r Hs Hn)).
  - by apply (keeps_pending key); [intros; apply cut_other|..].
  - by apply (keeps_ready key); [intros; apply cut_other|..].
Qed.
Lemma tidies_keeps key ttl readings w w' : tidies key ttl readings w w' → keeps everywhere w w'.
Proof.
  induction 1 as [w|w1 w2 w3 H1 _ IH]; [by apply keeps_calm|].
  eapply keeps_trans; [by eapply tidy_keeps|done].
Qed.
Lemma tidies_gates key ttl readings w w' : tidies key ttl readings w w' → gates w' = gates w.
Proof.
  induction 1 as [w|w1 w2 w3 H1 _ IH]; [done|]. rewrite IH.
  by destruct H1 as [?? Hc| |]; [apply Hc|..].
Qed.

Lemma claimed_keeps key digest ttl readings w o w' :
  claimed key digest ttl readings w o w' → keeps (others key) w w'.
Proof.
  intros [H1 _|w1 p H1 _ _ H2 _]; [by eapply keeps_weaken, tidies_keeps|].
  eapply keeps_trans; [by eapply keeps_weaken, tidies_keeps|].
  eapply keeps_trans; [|by apply keeps_calm]. apply keeps_pending. intros; by apply put_other.
Qed.
Lemma claimed_gates key digest ttl readings w o w' :
  claimed key digest ttl readings w o w' → gates w' = gates w.
Proof.
  intros [H1 _|w1 p H1 _ _ H2 _]; [by eapply tidies_gates|].
  rewrite (calm_gates _ _ H2). by eapply (tidies_gates _ _ _ _ w1).
Qed.
Lemma stored_keeps key digest run owner g ttl readings w o w' :
  stored key digest run owner g ttl readings w o w' → keeps (others key) w w'.
Proof.
  intros [H1 _ _|w1 r w2 H1 _ H2 H3 _ _]; [by eapply keeps_weaken, tidies_keeps|].
  eapply keeps_trans; [by eapply keeps_weaken, tidies_keeps|].
  eapply keeps_trans; [|by eapply keeps_weaken, tidies_keeps].
  eapply keeps_trans; [|by apply keeps_calm]. apply keeps_ready. intros; by apply put_other.
Qed.
Lemma stored_gates key digest run owner g ttl readings w o w' :
  stored key digest run owner g ttl readings w o w' → gates w' = gates w.
Proof.
  intros [H1 _ _|w1 r w2 H1 _ H2 H3 _ _]; [by eapply tidies_gates|].
  rewrite (tidies_gates _ _ _ _ _ H3), (calm_gates _ _ H2). by eapply (tidies_gates _ _ _ _ w1).
Qed.
Lemma released_keeps key owner g w w' : released key owner g w w' → keeps (others key) w w'.
Proof.
  intros [H1|w1 p H1 _ _ _ _ H2]; [by apply keeps_calm|].
  eapply keeps_trans; [by apply keeps_calm|]. eapply keeps_trans; [|by apply keeps_calm].
  apply keeps_pending. intros; by apply cut_other.
Qed.
Lemma released_gates key owner g w w' : released key owner g w w' → gates w' = gates w.
Proof.
  intros [H1|w1 p H1 _ _ _ _ H2]; [apply H1|]. rewrite (calm_gates _ _ H2). apply H1.
Qed.

(** ** Unresolved claims of the key itself *)

(** A release removes a claim of its own key only. *)
Lemma released_pending key owner g w w' key' p :
  released key owner g w w' → no_ready key' w → pending_at key' w p → pn_key p = key' →
  no_ready key' w' ∧ (pending_at key' w' p ∨ key' = key).
Proof.
  intros Hr Hn Hp Hk. split.
  - destruct Hr as [H1|w1 q H1 _ _ _ _ H2]; [by eapply calm_no_ready|].
    eapply calm_no_ready; [exact H2|]. unfold no_ready. rewrite cut_other by apply ready_pending_ne.
    by eapply calm_no_ready.
  - destruct (decide (sha256_hex key' = sha256_hex key)) as [Hs|Hs].
    + destruct Hr as [H1|w1 q H1 Hq Hkq _ _ H2]; [left; by eapply calm_pending|].
      right. assert (p = q) as -> by (eapply (pending_at_unique key' key w1); [done|by eapply calm_pending|done]).
      congruence.
    + left. by apply (released_keeps _ _ _ _ _ Hr).
Qed.
(** A claim repeats the unresolved claim it replaces. *)
Lemma claimed_pending key digest ttl readings w o w' key' p :
  claimed key digest ttl readings w o w' → no_ready key' w → pending_at key' w p → pn_key p = key' →
  no_ready key' w' ∧ ∃ p', pending_at key' w' p' ∧ (p' = p ∨ repeats p p').
Proof.
  intros [H1 _|w1 q H1 (Hkq & Hnq & Had) _ H2 _] Hn Hp Hk.
  { destruct (tidies_keeps _ _ _ _ _ H1 key' I Hn) as [Hn' Hp'].
    split; [done|]. exists p. split; [by apply Hp'|by left]. }
  destruct (tidies_keeps _ _ _ _ _ H1 key' I Hn) as [Hn1 Hp1]. specialize (Hp1 p Hp).
  destruct (decide (sha256_hex key' = sha256_hex key)) as [Hs|Hs].
  - destruct Had as [Had|(q0 & Hq0 & Hrep)].
    { destruct Hp1 as (b & Hb & _). apply slot_pending in Hs. unfold no_pending in Had. congruence. }
    assert (q0 = p) as -> by (by eapply (pending_at_unique key key' w1)).
    assert (key' = key) as -> by (destruct Hrep; congruence). split.
    + eapply calm_no_ready; [exact H2|]. unfold no_ready. by rewrite put_pending_ready.
    + exists q. split; [by eapply put_pending_at|by right].
  - assert (keeps (others key) w1 w') as Hke.
    { eapply keeps_trans; [|by apply keeps_calm]. apply keeps_pending. intros; by apply put_other. }
    destruct (Hke key' Hs Hn1) as [Hn' Hp'].
    split; [done|]. exists p. split; [by apply Hp'|by left].
Qed.

(** ** A Ready stays until it has expired *)

Definition expired_in (ttl : Z) (readings : list (option Z)) (r : DurableIdempotencyRecord) : Prop :=
  ∃ now, Some now ∈ readings ∧ expired_at r now ttl = true.
Lemma tidy_ready key ttl readings w w' key' r :
  tidy key ttl readings w w' → ready_at key' w r → ready_at key' w' r ∨ expired_in ttl readings r.
Proof.
  intros [w1 w2 Hc|w1 r1 p Hr1 Hp _|w1 r1 now Hr1 Hnow He] Hr.
  - left. by eapply calm_ready.
  - left. destruct Hr as (b & Hb & Hr). exists b. rewrite cut_other by apply ready_pending_ne. done.
  - destruct (decide (sha256_hex key' = sha256_hex key)) as [Hs|Hs].
    + right. exists now. split; [done|]. by destruct (ready_at_unique _ _ _ _ _ Hs Hr Hr1) as [_ ->].
    + left. destruct Hr as (b & Hb & Hr). exists b. rewrite cut_other; [done|]. by intros E%slot_ready.
Qed.
Lemma tidies_ready key ttl readings w w' key' r :
  tidies key ttl readings w w' → ready_at key' w r → ready_at key' w' r ∨ expired_in ttl readings r.
Proof.
  induction 1 as [w|w1 w2 w3 H1 _ IH]; intros Hr; [by left|].
  destruct (tidy_ready _ _ _ _ _ _ _ H1 Hr); [by apply IH|by right].
Qed.
Lemma claimed_ready key digest ttl readings w o w' key' r :
  claimed key digest ttl readings w o w' → ready_at key' w r →
  ready_at key' w' r ∨ expired_in ttl readings r.
Proof.
  intros [H1 _|w1 q H1 _ _ H2 _] Hr; [by eapply tidies_ready|].
  destruct (tidies_ready _ _ _ _ _ _ _ H1 Hr) as [(b & Hb & Hr1)|]; [left|by right].
  eapply calm_ready; [exact H2|]. exists b. unfold put_pending. by rewrite put_other by apply ready_pending_ne.
Qed.
Lemma stored_ready key digest run owner g ttl readings w o w' key' r :
  stored key digest run owner g ttl readings w o w' → ready_at key' w r →
  ready_at key' w' r ∨ expired_in ttl readings r.
Proof.
  intros [H1 _ _|w1 q w2 H1 [Hn _] H2 H3 _ _] Hr; [by eapply tidies_ready|].
  destruct (tidies_ready _ _ _ _ _ _ _ H1 Hr) as [Hr1|]; [|by right].
  eapply tidies_ready; [exact H3|]. eapply calm_ready; [exact H2|].
  destruct Hr1 as (b & Hb & Hp). exists b. unfold put_ready. rewrite put_other; [done|]. intros E.
  unfold no_ready in Hn. congruence.
Qed.
Lemma released_ready key owner g w w' key' r :
  released key owner g w w' → ready_at key' w r → ready_at key' w' r.
Proof.
  intros [H1|w1 p H1 _ _ _ _ H2] Hr; [by eapply calm_ready|].
  eapply calm_ready; [exact H2|]. apply (calm_ready _ _ _ _ H1) in Hr as (b & Hb & Hr).
  exists b. by rewrite cut_other by apply ready_pending_ne.
Qed.
Lemma still_ready w w' key r : still w w' → ready_at key w r → ready_at key w' r.
Proof.
  intros Hs (b & Hb & Hr). exists b. split; [|done].
  rewrite <-Hb. exact (calm_slots _ _ Hs _ (ready_slot key)).
Qed.
End frame.

(** * Idempotent execution

    The invariant of the requests of [IdemSystem], and what follows from it:
    one request at a time works on a key, an unresolved execution is only
    ever repeated as itself, a commit meets no rival, and a committed answer
    stays until it has expired. *)

(** The claim a phase relies on. *)
Definition claim_of (ph : phase) : option Identity :=
  match ph with
  | Claimed _ _ id | Registered _ _ id _ | Executing _ id _ | Executed _ id _ _
  | StoreFailed _ id _ _ => Some id
  | _ => None
  end.
(** The claim on disk is the one of the request. *)
Definition claim_matches (q : request) (id : Identity) (p : DurablePendingRecord) : Prop :=
  pn_key p = q_key q ∧ pn_digest p = q_digest q ∧ pn_operation_id p = Some (id_operation id) ∧
  pn_owner p = id_owner id ∧ pn_generation p = id_generation id ∧ pn_run_id p = id_run id.
(** The claim on disk stands for the execution. *)
Definition carries (x : Execution) (p : DurablePendingRecord) : Prop :=
  pn_digest p = ex_digest x ∧ pn_operation_id p = Some (ex_operation x) ∧
  (is_Some (ex_run x) → pn_run_id p = ex_run x).
Lemma carries_repeats x p p' : carries x p → repeats p p' → carries x p'.
Proof.
  intros (Hd & Ho & Hr) (_ & Hd' & Ho' & Hr' & _). split; [congruence|]. split; [congruence|].
  intros Hx. rewrite <-Hr'; [auto|]. rewrite Hr; done.
Qed.

Section protocol.
Context `{SL : Sha256Laws} `{SB : Sha256Bytes} `{UL : UuidsLaws} `{CL : IdemCodecLaws}.
Variables (ttl : Z) (max_entries : nat).
Abbreviation step := (idem_step ttl max_entries).

(** An unresolved claim on disk. *)
Definition unresolved (key : str) (w : world) (P : DurablePendingRecord → Prop) : Prop :=
  no_ready key w ∧ ∃ p, pending_at key w p ∧ P p.

Record idem_inv (sy : system) : Prop := {
  inv_gates : ∀ rid q g, sy_requests sy !! rid = Some q → gate_of (q_phase q) = Some g →
    gt_key g = q_key q ∧ w_gates (sy_world sy) !! gate_path (q_key q) = Some (gt_inode g) ∧
    gt_inode g ∈ w_locked (sy_world sy);
  inv_distinct : ∀ rid rid' q q' g g',
    sy_requests sy !! rid = Some q → sy_requests sy !! rid' = Some q' →
    gate_of (q_phase q) = Some g → gate_of (q_phase q') = Some g' → gt_inode g = gt_inode g' → rid = rid';
  inv_inodes : ∀ i, (i ∈ w_locked (sy_world sy) ∨ ∃ p, w_gates (sy_world sy) !! p = Some i) →
    i < w_inodes (sy_world sy);
  inv_claims : ∀ rid q id, sy_requests sy !! rid = Some q → claim_of (q_phase q) = Some id →
    unresolved (q_key q) (sy_world sy) (claim_matches q id);
  inv_committed : ∀ rid q g id o r, sy_requests sy !! rid = Some q →
    q_phase q = Committed g id o r → sy_open sy !! q_key q = None;
  inv_unrivaled : ∀ rid q g id o, sy_requests sy !! rid = Some q → q_phase q ≠ Conflicted g id o;
  inv_open : ∀ key x, sy_open sy !! key = Some x →
    unresolved key (sy_world sy) (λ p, pn_key p = key ∧ carries x p);
}.

Lemma idem_inv_ext sy sy' :
  idem_inv sy → sy_world sy' = sy_world sy → sy_requests sy' = sy_requests sy → sy_open sy' = sy_open sy →
  idem_inv sy'.
Proof.
  intros [A B C D E F G] Hw Hr Ho. split; rewrite ?Hw, ?Hr, ?Ho; auto.
Qed.

(** Requests whose keys share files cannot both hold a gate. *)
Lemma one_holder sy rid rid' q q' g g' :
  idem_inv sy → sy_requests sy !! rid = Some q → sy_requests sy !! rid' = Some q' →
  gate_of (q_phase q) = Some g → gate_of (q_phase q') = Some g' → same_slot (q_key q) (q_key q') →
  rid = rid'.
Proof.
  intros Hi Hq Hq' Hg Hg' Hs%slot_gate.
  destruct (inv_gates _ Hi _ _ _ Hq Hg) as (_ & G1 & _), (inv_gates _ Hi _ _ _ Hq' Hg') as (_ & G2 & _).
  eapply (inv_distinct _ Hi); try done. rewrite Hs in G1. congruence.
Qed.

Lemma claim_holds ph id : claim_of ph = Some id → is_Some (gate_of ph).
Proof. destruct ph; cbn; naive_solver. Qed.

Lemma unresolved_keeps P key w w' Q :
  keeps P w w' → P key → unresolved key w Q → unresolved key w' Q.
Proof.
  intros Hk HP (Hn & p & Hp & HQ). destruct (Hk key HP Hn) as [Hn' Hp'].
  split; [done|]. exists p. auto.
Qed.
Lemma unresolved_mono key w (P Q : DurablePendingRecord → Prop) :
  (∀ p, P p → Q p) → unresolved key w P → unresolved key w Q.
Proof. intros HPQ (Hn & p & Hp & HP). split; [done|]. eauto. Qed.

(** Dropping gates changes no file. *)
Lemma drop_gate_files before after w : w_files (drop_gate before after w) = w_files w.
Proof. unfold drop_gate. by destruct (gate_of before), (gate_of after). Qed.
Lemma unresolved_files key w w' P : w_files w' = w_files w → unresolved key w P → unresolved key w' P.
Proof. intros Hf. unfold unresolved, no_ready, pending_at. by rewrite Hf. Qed.

(** ** One request moves

    The part of the invariant about gates, and the part about claims. *)

Definition gates_inv (w : world) (reqs : gmap nat request) : Prop :=
  (∀ rid q g, reqs !! rid = Some q → gate_of (q_phase q) = Some g →
    gt_key g = q_key q ∧ w_gates w !! gate_path (q_key q) = Some (gt_inode g) ∧
    gt_inode g ∈ w_locked w) ∧
  (∀ rid rid' q q' g g', reqs !! rid = Some q → reqs !! rid' = Some q' →
    gate_of (q_phase q) = Some g → gate_of (q_phase q') = Some g' → gt_inode g = gt_inode g' → rid = rid') ∧
  (∀ i, (i ∈ w_locked w ∨ ∃ p, w_gates w !! p = Some i) → i < w_inodes w).
Lemma inv_gates_inv sy : idem_inv sy → gates_inv (sy_world sy) (sy_requests sy).
Proof. intros [A B C]. by split. Qed.
Lemma gates_inv_eq w w' reqs : gates w' = gates w → gates_inv w reqs → gates_inv w' reqs.
Proof. intros [= Eg El Ei]. unfold gates_inv. by rewrite Eg, El, Ei. Qed.

(** A request keeps its gate, or gives it up. *)
Lemma gates_inv_move w reqs rid q ph :
  gates_inv w reqs → reqs !! rid = Some q → gate_of ph = None ∨ gate_of ph = gate_of (q_phase q) →
  gates_inv (drop_gate (q_phase q) ph w) (<[rid := set_phase ph q]> reqs).
Proof.
  intros (A & B & C) Hq Hh.
  assert (Hold : ∀ r q' g, <[rid := set_phase ph q]> reqs !! r = Some q' → gate_of (q_phase q') = Some g →
    ∃ q0, reqs !! r = Some q0 ∧ gate_of (q_phase q0) = Some g ∧ q_key q0 = q_key q' ∧
      (r = rid → gate_of ph = Some g)).
  { intros r q' g [[<- <-]|[Hne Hr]]%lookup_insert_Some Hg; cbn in Hg.
    - exists q. destruct Hh as [Hh|Hh]; [congruence|]. split; [done|]. split; [congruence|]. done.
    - by exists q'. }
  split; [|split].
  - intros r q' g Hr Hg. destruct (Hold _ _ _ Hr Hg) as (q0 & Hr0 & Hg0 & Hk & Heq).
    destruct (A _ _ _ Hr0 Hg0) as (A1 & A2 & A3). rewrite Hk in A1, A2. unfold drop_gate.
    destruct (gate_of (q_phase q)) as [g1|] eqn:E1; [|done].
    destruct (gate_of ph) as [g2|] eqn:E2; [done|]. split; [done|]. split; [done|]. cbn.
    apply elem_of_difference. split; [done|]. intros Hi%elem_of_singleton.
    assert (r = rid) as -> by (by eapply (B r rid q0 q g g1)). specialize (Heq eq_refl). congruence.
  - intros r r' q1 q2 g g' Hr Hr' Hg Hg' Hi.
    destruct (Hold _ _ _ Hr Hg) as (q01 & ? & ? & _), (Hold _ _ _ Hr' Hg') as (q02 & ? & ? & _).
    by eapply (B r r').
  - intros i. unfold drop_gate. destruct (gate_of (q_phase q)), (gate_of ph); auto. cbn.
    intros [[Hi _]%elem_of_difference|Hi]; auto.
Qed.

(** The move of a request to [ph] in the world [w']: its own claim, the open
    executions of keys that share its files, and nothing else changes. *)
Record moves (sy : system) (q : request) (ph : phase) (w' : world) (open' : gmap str Execution) :
    Prop := {
  mv_keeps : keeps (others (q_key q)) (sy_world sy) w';
  mv_idle : gate_of (q_phase q) = None → keeps everywhere (sy_world sy) w';
  mv_claim : ∀ id, claim_of ph = Some id → unresolved (q_key q) w' (claim_matches q id);
  mv_committed : ∀ g id o r, ph = Committed g id o r → open' !! q_key q = None;
  mv_unrivaled : ∀ g id o, ph ≠ Conflicted g id o;
  mv_open : ∀ key x, open' !! key = Some x →
    (sy_open sy !! key = Some x ∧ no_ready key w' ∧ ¬ same_slot key (q_key q)) ∨
    unresolved key w' (λ p, pn_key p = key ∧ carries x p);
  mv_news : ∀ key, (gate_of (q_phase q) = None ∨ key ≠ q_key q) → sy_open sy !! key = None → open' !! key = None;
}.
Lemma inv_moves sy rid q ph w' open' sy' :
  idem_inv sy → sy_requests sy !! rid = Some q → moves sy q ph w' open' →
  gates_inv (sy_world sy') (sy_requests sy') →
  sy_world sy' = drop_gate (q_phase q) ph w' →
  sy_requests sy' = <[rid := set_phase ph q]> (sy_requests sy) → sy_open sy' = open' →
  idem_inv sy'.
Proof.
  intros Hi Hq [Mk Mi Mc Mcm Mu Mo Mn] (A & B & C) Hw Hr Ho. split; [done|done|done|..].
  - intros r q' id Hq' Hid. rewrite Hw. eapply unresolved_files; [apply drop_gate_files|].
    rewrite Hr in Hq'. apply lookup_insert_Some in Hq' as [[<- <-]|[Hne Hq']]; [by apply Mc|].
    pose proof (inv_claims _ Hi _ _ _ Hq' Hid) as Hc.
    destruct (decide (sha256_hex (q_key q') = sha256_hex (q_key q))) as [Hs|Hs].
    + destruct (claim_holds _ _ Hid) as [g Hg].
      destruct (gate_of (q_phase q)) as [g'|] eqn:Eg.
      * destruct Hne. by eapply (one_holder sy rid r q q').
      * eapply unresolved_keeps; [by apply Mi|done|done].
    + eapply unresolved_keeps; [exact Mk|exact Hs|done].
  - intros r q' g id o rec Hq' Hph. rewrite Ho. rewrite Hr in Hq'.
    apply lookup_insert_Some in Hq' as [[<- <-]|[Hne Hq']]; [by eapply Mcm|].
    pose proof (inv_committed _ Hi _ _ _ _ _ _ Hq' Hph) as Hc.
    apply Mn; [|done]. destruct (decide (q_key q' = q_key q)) as [Hk|Hk]; [left|by right].
    destruct (gate_of (q_phase q)) as [g'|] eqn:Eg; [|done]. destruct Hne.
    eapply (one_holder sy rid r q q' g' g); try done; [by rewrite Hph|]. unfold same_slot. congruence.
  - intros r q' g id o Hq'. rewrite Hr in Hq'.
    apply lookup_insert_Some in Hq' as [[<- <-]|[Hne Hq']]; [by apply Mu|].
    by eapply (inv_unrivaled _ Hi).
  - intros key x Hx. rewrite Ho in Hx. rewrite Hw.
    eapply unresolved_files; [apply drop_gate_files|].
    destruct (Mo _ _ Hx) as [(Hx0 & _ & Hs)|Hun]; [|done].
    eapply unresolved_keeps; [exact Mk|exact Hs|]. by apply (inv_open _ Hi).
Qed.

(** ** Steps that leave the claims alone *)

Lemma still_open_Some w open key x :
  still_open w open !! key = Some x ↔ open !! key = Some x ∧ no_ready key w.
Proof. unfold still_open, no_ready. by rewrite map_lookup_filter_Some. Qed.
Lemma still_open_None w open key : open !! key = None → still_open w open !! key = None.
Proof.
  intros Ho. apply eq_None_not_Some. intros [x [Hx _]%still_open_Some]. congruence.
Qed.
Lemma open_keeps sy w' key x :
  idem_inv sy → keeps everywhere (sy_world sy) w' → sy_open sy !! key = Some x →
  unresolved key w' (λ p, pn_key p = key ∧ carries x p).
Proof. intros Hi Hk Hx. eapply unresolved_keeps; [exact Hk|done|]. by apply (inv_open _ Hi). Qed.

(** A request moves and the store is kept. *)
Lemma moves_keeps sy q ph w' :
  idem_inv sy → keeps everywhere (sy_world sy) w' →
  (∀ id, claim_of ph = Some id → unresolved (q_key q) w' (claim_matches q id)) →
  (∀ g id o r, ph ≠ Committed g id o r) → (∀ g id o, ph ≠ Conflicted g id o) →
  moves sy q ph w' (still_open (drop_gate (q_phase q) ph w') (sy_open sy)).
Proof.
  intros Hi Hk Hc H1' H2'. split; try done.
  - by apply keeps_weaken.
  - intros g id o r ->. by destruct (H1' g id o r).
  - intros key x [Hx _]%still_open_Some. right. by eapply open_keeps.
  - intros key _. apply still_open_None.
Qed.
(** The gates after a request moved. *)
Lemma enter_gates sy rid q ph w' :
  idem_inv sy → sy_requests sy !! rid = Some q → gates w' = gates (sy_world sy) →
  gate_of ph = None ∨ gate_of ph = gate_of (q_phase q) →
  gates_inv (drop_gate (q_phase q) ph w') (<[rid := set_phase ph q]> (sy_requests sy)).
Proof.
  intros Hi Hq Hg Hh. apply gates_inv_move; [|done|done].
  eapply gates_inv_eq; [done|by apply inv_gates_inv].
Qed.
Lemma enter_keeps sy rid q ph w' :
  idem_inv sy → sy_requests sy !! rid = Some q →
  gates w' = gates (sy_world sy) → gate_of ph = None ∨ gate_of ph = gate_of (q_phase q) →
  keeps everywhere (sy_world sy) w' →
  (∀ id, claim_of ph = Some id → unresolved (q_key q) w' (claim_matches q id)) →
  (∀ g id o r, ph ≠ Committed g id o r) → (∀ g id o, ph ≠ Conflicted g id o) →
  idem_inv (enter sy rid q ph w').
Proof.
  intros Hi Hq Hg Hh Hk Hc H1' H2'.
  eapply inv_moves; [done|done|by apply moves_keeps|by apply enter_gates|done..].
Qed.
(** The same claim in another phase. *)
Lemma claim_stays sy rid q w' id :
  idem_inv sy → sy_requests sy !! rid = Some q → claim_of (q_phase q) = Some id →
  keeps everywhere (sy_world sy) w' → unresolved (q_key q) w' (claim_matches q id).
Proof. intros Hi Hq Hc Hk. eapply unresolved_keeps; [exact Hk|done|]. by eapply (inv_claims _ Hi). Qed.
Lemma keeps_refl w : keeps everywhere w w.
Proof. by apply keeps_calm. Qed.

(** ** The steps, one by one *)

Lemma inv_arrive sy rid q :
  idem_inv sy → sy_requests sy !! rid = None → q_phase q = Looking None →
  idem_inv (enter sy rid q (Looking None) (sy_world sy)).
Proof.
  intros Hi Hr Hph.
  assert (Hnew : ∀ r q', <[rid := set_phase (Looking None) q]> (sy_requests sy) !! r = Some q' →
    sy_requests sy !! r = Some q' ∨ q_phase q' = Looking None).
  { intros r q' [[_ <-]|[_ ?]]%lookup_insert_Some; auto. }
  assert (Hw : drop_gate (q_phase q) (Looking None) (sy_world sy) = sy_world sy)
    by (unfold drop_gate; by rewrite Hph).
  assert (Ho : still_open (sy_world sy) (sy_open sy) = sy_open sy).
  { apply map_eq. intros k. apply option_eq. intros x. rewrite still_open_Some.
    split; [by intros []|]. intros Hx. split; [done|]. by apply (inv_open _ Hi) in Hx as []. }
  unfold enter. rewrite Hw, Ho. split; cbn.
  - intros r q' g [Hq'|Hq']%Hnew Hg; [by eapply (inv_gates _ Hi)|by rewrite Hq' in Hg].
  - intros r r' q1 q2 g g' [Hq1|Hq1]%Hnew [Hq2|Hq2]%Hnew Hg1 Hg2;
      [by eapply (inv_distinct _ Hi)|by rewrite Hq2 in Hg2|by rewrite Hq1 in Hg1..].
  - apply (inv_inodes _ Hi).
  - intros r q' id [Hq'|Hq']%Hnew Hid; [by eapply (inv_claims _ Hi)|by rewrite Hq' in Hid].
  - intros r q' g id o rec [Hq'|Hq']%Hnew Hc; [by eapply (inv_committed _ Hi)|by rewrite Hq' in Hc].
  - intros r q' g id o [Hq'|Hq']%Hnew; [by eapply (inv_unrivaled _ Hi)|by rewrite Hq'].
  - apply (inv_open _ Hi).
Qed.

(** The world changes beside the requests. *)
Lemma inv_world sy w' :
  idem_inv sy → gates_inv w' (sy_requests sy) → keeps everywhere (sy_world sy) w' →
  idem_inv (mkSystem w' (sy_requests sy) (sy_memory sy) (sy_tasks sy) (sy_next sy)
         (still_open w' (sy_open sy))).
Proof.
  intros Hi (A & B & C) Hk. split; cbn; [done|done|done|..].
  - intros rid q id Hq Hid. by eapply claim_stays.
  - intros rid q g id o r Hq Hph. apply still_open_None. by eapply (inv_committed _ Hi).
  - apply (inv_unrivaled _ Hi).
  - intros key x [Hx _]%still_open_Some. by eapply open_keeps.
Qed.
Lemma reclaimed_gates p w w' reqs : reclaimed p w w' → gates_inv w reqs → gates_inv w' reqs.
Proof.
  intros (_ & Hl & Hi & Hg) (A & B & C). unfold gates_inv. rewrite Hl, Hi. split; [|split].
  - intros rid q g Hq Hh. destruct (A _ _ _ Hq Hh) as (A1 & A2 & A3). split; [done|]. split; [|done].
    destruct Hg as [->|(i & Hp & Hn & ->)]; [done|].
    apply lookup_delete_Some. split; [|done]. intros ->. congruence.
  - done.
  - intros i [Hin|[p' Hp']]; [by apply C; left|]. apply C. right. exists p'.
    destruct Hg as [<-|(j & Hp & Hn & Hd)]; [done|]. rewrite Hd in Hp'.
    by apply lookup_delete_Some in Hp' as [].
Qed.
Lemma inv_background sy m o w' :
  idem_inv sy → background ttl m → m (sy_world sy) = (o, w') →
  idem_inv (mkSystem w' (sy_requests sy) (sy_memory sy) (sy_tasks sy) (sy_next sy)
         (still_open w' (sy_open sy))).
Proof.
  intros Hi Hb Hm.
  assert (Hsilent : silent m → idem_inv (mkSystem w' (sy_requests sy) (sy_memory sy) (sy_tasks sy)
    (sy_next sy) (still_open w' (sy_open sy)))).
  { intros Hs. specialize (Hs (sy_world sy)). unfold post in Hs. rewrite Hm in Hs. cbn in Hs.
    apply inv_world; [done| |by apply keeps_calm].
    eapply gates_inv_eq; [apply Hs|by apply inv_gates_inv]. }
  destruct Hb as [work|name|name modified now|run key digest|key names|key|key|p].
  - assert (Hsw : swept ttl (w_clock (sy_world sy)) (sy_world sy) w').
    { apply (post_run _ _ (λ _ w1, swept ttl (w_clock (sy_world sy)) (sy_world sy) w1) _ _ Hm).
      apply post_try. eapply post_mono; [|apply now_spec].
      intros o' w1 [Hc Hnow].
      destruct o' as [[now|d]|]; [|by exists []; apply tidies_calm..].
      eapply post_mono; [|apply (reap_sweeps _ _ _ (w_clock (sy_world sy)))]; [|by apply Hnow].
      intros o2 w2 [key Ht]. exists key. eapply rtc_l; [by apply tidy_calm|done]. }
    destruct Hsw as [key Ht]. apply inv_world; [done| |by eapply tidies_keeps].
    eapply gates_inv_eq; [by eapply tidies_gates|by apply inv_gates_inv].
  - apply Hsilent, silent_discover.
  - apply Hsilent, silent_clean_temp. intros _. apply temp_aside.
  - apply Hsilent, silent_write_orphan.
  - apply Hsilent, silent_try; [apply silent_find_orphan|intros; apply silent_ret].
  - apply Hsilent, silent_try; [apply silent_load|intros; apply silent_ret].
  - apply Hsilent, silent_try; [|intros; apply silent_ret].
    apply silent_bind; [apply silent_read_pending|intros; apply silent_ret].
  - pose proof (reclaim_spec p (sy_world sy)) as Hr. unfold post in Hr. rewrite Hm in Hr. cbn in Hr.
    apply inv_world; [done| |apply keeps_still, Hr].
    eapply reclaimed_gates; [exact Hr|by apply inv_gates_inv].
Qed.
End protocol.
