(* ===== verification/IdemExecution.v ===== *)
(** * Theorems about idempotent execution

    The invariant of [IdemProtocol] is preserved by every step, and what it
    says about reachable states. *)

From stdpp Require Import gmap.
From S2P Require Import Prelude Str TraceIds PathPolicy IdemWorld IdemStore IdemExpiry IdemMoves IdemOps IdemSystem IdemProtocol.

#[local] Arguments s : simpl never.

Section execution.
Context `{SL : Sha256Laws} `{SB : Sha256Bytes} `{UL : UuidsLaws} `{CL : IdemCodecLaws}.
Variables (ttl : Z) (max_entries : nat).
Abbreviation step := (idem_step ttl max_entries).
Implicit Types (sy : system) (q : request).

(** A silent operation of a request. *)
Lemma inv_silent {A} sy rid q ph (m : io A) o w' :
  idem_inv sy → sy_requests sy !! rid = Some q → silent m → m (sy_world sy) = (o, w') →
  gate_of ph = None ∨ gate_of ph = gate_of (q_phase q) →
  (∀ id, claim_of ph = Some id → claim_of (q_phase q) = Some id) →
  (∀ g id o r, ph ≠ Committed g id o r) → (∀ g id o, ph ≠ Conflicted g id o) →
  idem_inv (enter sy rid q ph w').
Proof.
  intros Hi Hq Hs Hm Hh Hc Hn1 Hn2. specialize (Hs (sy_world sy)). unfold post in Hs.
  rewrite Hm in Hs. cbn in Hs. apply enter_keeps; try done; [apply Hs|by apply keeps_calm|].
  intros id Hid%Hc. by eapply claim_stays; [..|apply keeps_calm].
Qed.
Lemma inv_idle sy rid q ph :
  idem_inv sy → sy_requests sy !! rid = Some q → gate_of ph = None ∨ gate_of ph = gate_of (q_phase q) →
  (∀ id, claim_of ph = Some id → claim_of (q_phase q) = Some id) →
  (∀ g id o r, ph ≠ Committed g id o r) → (∀ g id o, ph ≠ Conflicted g id o) →
  idem_inv (enter sy rid q ph (sy_world sy)).
Proof.
  intros Hi Hq. eapply (inv_silent sy rid q ph (mret ())); [done|done|apply silent_ret|done].
Qed.

(** ** The gate *)

Lemma opened_gates p w w' reqs :
  opened_at p w w' → w_locked w' = w_locked w → gates_inv w reqs → gates_inv w' reqs.
Proof.
  intros Ho Hl (A & B & C). unfold gates_inv. rewrite Hl.
  destruct Ho as [[-> ->]|(Hn & Hg & Hi)]; [done|]. rewrite Hg, Hi. split; [|split].
  - intros rid q g Hq Hh. destruct (A _ _ _ Hq Hh) as (A1 & A2 & A3). split; [done|]. split; [|done].
    rewrite lookup_insert_ne; [done|]. intros ->. congruence.
  - done.
  - intros i [Hin|[p' Hp']]; [specialize (C i (or_introl Hin)); lia|].
    apply lookup_insert_Some in Hp' as [[_ <-]|[_ Hp']]; [lia|].
    specialize (C i (or_intror (ex_intro _ p' Hp'))). lia.
Qed.
Lemma acquired_gates rid q ph gate w w' (reqs : gmap nat request) :
  acquired (q_key q) w (Done (Ok (Some gate))) w' → reqs !! rid = Some q →
  gate_of (q_phase q) = None → gate_of ph = Some gate → gates_inv w reqs →
  gates_inv w' (<[rid := set_phase ph q]> reqs).
Proof.
  intros (_ & Ho & Hk & Hp & Hg & Hn & Hl) Hq Hh Hph HI.
  assert (Hw1 : gates_inv (w' <| w_locked := w_locked w |>) reqs).
  { by apply (opened_gates (gate_path (q_key q)) w). }
  destruct HI as (A & B & C). destruct Hw1 as (A1 & B1 & C1). cbn in A1, C1. unfold gates_inv. rewrite Hl. split; [|split].
  - intros r q' g [[<- <-]|[Hne Hq']]%lookup_insert_Some Hg'; cbn in *.
    + assert (gate = g) as -> by congruence. split; [done|]. split; [done|set_solver].
    + destruct (A1 _ _ _ Hq' Hg') as (E1 & E2 & E3). split; [done|]. split; [done|set_solver].
  - intros r r' q1 q2 g1 g2 Hr1 Hr2 Hg1 Hg2 Heq.
    assert (Hfresh : ∀ r0 q0 g0, reqs !! r0 = Some q0 → gate_of (q_phase q0) = Some g0 →
      gt_inode g0 ≠ gt_inode gate).
    { intros r0 q0 g0 Hr0 Hg0 E. destruct (A _ _ _ Hr0 Hg0) as (_ & _ & Hin). congruence. }
    apply lookup_insert_Some in Hr1 as [[<- <-]|[Hne1 Hr1]], Hr2 as [[<- <-]|[Hne2 Hr2]]; cbn in *.
    + done.
    + destruct (Hfresh _ _ _ Hr2 Hg2). congruence.
    + destruct (Hfresh _ _ _ Hr1 Hg1). congruence.
    + by eapply (B r r').
  - intros i [[Hin%elem_of_singleton|Hin]%elem_of_union|Hin]; [subst i|auto..].
    apply C1. right. eauto.
Qed.
Lemma inv_acquire sy rid q carried o w' ph :
  idem_inv sy → sy_requests sy !! rid = Some q → q_phase q = Wanting carried →
  try_acquire (q_key q) (sy_world sy) = (Done (Ok o), w') →
  ph = match o with Some gate => Gated carried gate | None => Wanting carried end →
  idem_inv (enter sy rid q ph w').
Proof.
  intros Hi Hq Hph Hm ->. pose proof (acquire_spec (q_key q) (sy_world sy)) as Hs.
  unfold post in Hs. rewrite Hm in Hs. cbn in Hs.
  assert (Hh : gate_of (q_phase q) = None) by (by rewrite Hph).
  set (ph := match o with Some gate => Gated carried gate | None => Wanting carried end).
  assert (Hd : drop_gate (q_phase q) ph w' = w') by (unfold drop_gate; by rewrite Hh).
  eapply inv_moves; [exact Hi|exact Hq|apply moves_keeps; [done|apply keeps_still, Hs|..]| |reflexivity..].
  - by destruct o.
  - by destruct o.
  - by destruct o.
  - cbn. rewrite Hd. destruct o as [gate|]; cbn [ph].
    + by eapply acquired_gates; [..|apply inv_gates_inv].
    + destruct Hs as (_ & Ho & Hl).
      assert (gates_inv w' (sy_requests sy)) as (A & B & C)
        by (by eapply opened_gates; [..|apply inv_gates_inv]).
      assert (Hidem : ∀ r q' g, <[rid := set_phase (Wanting carried) q]> (sy_requests sy) !! r = Some q' →
        gate_of (q_phase q') = Some g → sy_requests sy !! r = Some q').
      { by intros r q' g [[_ <-]|[_ ?]]%lookup_insert_Some. }
      split; [|split]; [|intros ? ? ? ? ? ? ? ? ? ?|done]; eauto.
Qed.

(** ** Claims *)

Lemma claimed_matches q w carried gate o w' id readings :
  claimed (q_key q) (q_digest q) ttl readings w o w' →
  claim_of (after_claim carried gate o) = Some id →
  unresolved (q_key q) w' (claim_matches q id).
Proof.
  intros Hc Hid. destruct o as [[[op run owner g| | |]|]|]; cbn in Hid; simplify_eq.
  destruct Hc as [_ []|w1 p _ (Hk & Hn & _) Hd Hput (Ho & Hr & Hw & Hg)]. split.
  - eapply calm_no_ready; [exact Hput|]. unfold no_ready. by rewrite put_pending_ready.
  - exists p. split; [by eapply put_pending_at|]. by repeat split.
Qed.
Lemma inv_claim sy rid q carried gate o w' :
  idem_inv sy → sy_requests sy !! rid = Some q → q_phase q = Gated carried gate →
  claim_key ttl q carried gate (sy_world sy) = (o, w') →
  idem_inv (enter sy rid q (after_claim carried gate o) w').
Proof.
  intros Hi Hq Hph Hm.
  assert (Hc : claimed (q_key q) (q_digest q) ttl (w_clock (sy_world sy)) (sy_world sy) o w').
  { eapply (post_run _ _ _ _ _ Hm). by apply claim_spec. }
  eapply inv_moves; [exact Hi|exact Hq| |apply enter_gates; [done|done| |]|reflexivity..].
  - split.
    + by eapply claimed_keeps.
    + rewrite Hph. done.
    + intros id. by eapply claimed_matches.
    + by intros ???? ?; destruct o as [[[]|]|].
    + by intros ???; destruct o as [[[]|]|].
    + intros key x [Hx _]%still_open_Some. right.
      destruct (inv_open _ Hi _ _ Hx) as (Hn & p & Hp & Hk & Hcar).
      destruct (claimed_pending _ _ _ _ _ _ _ _ _ Hc Hn Hp Hk) as (Hn' & p' & Hp' & Hrep).
      split; [done|]. exists p'. split; [done|].
      destruct Hrep as [->|Hrep]; [done|]. split; [by destruct Hrep; congruence|by eapply carries_repeats].
    + intros key _. apply still_open_None.
  - by eapply claimed_gates.
  - rewrite Hph. destruct o as [[[]|]|]; by (left + right).
Qed.

(** ** Registration, divergence, ownership *)

Lemma silent_reexamine entry : silent (reexamine ttl entry).
Proof.
  destruct entry as [[d o|r]|]; [apply silent_ret| |apply silent_ret].
  apply silent_try; [apply silent_now|intros; apply silent_ret].
Qed.
Lemma released_pre key owner g w w1 w' : calm w w1 → released key owner g w1 w' → released key owner g w w'.
Proof.
  intros Hc [Hr|w2 p Hr Hp Hk Ho Hg Hcut]; [by apply released_not; etrans|].
  eapply released_cut; [by etrans|done..].
Qed.
Lemma release_run q gate id w o w' :
  release_claim q gate id w = (o, w') → released (q_key q) (id_owner id) (id_generation id) w w'.
Proof. intros Hm. apply (post_run _ _ (λ _ w1, released _ _ _ w w1) _ _ Hm). apply release_spec. Qed.
(** A release of a request that gives up its claim. *)
Lemma moves_release sy q ph owner g w' open' :
  idem_inv sy → released (q_key q) owner g (sy_world sy) w' → is_Some (gate_of (q_phase q)) →
  claim_of ph = None → (∀ g id o r, ph ≠ Committed g id o r) → (∀ g id o, ph ≠ Conflicted g id o) →
  (∀ key x, open' !! key = Some x → sy_open sy !! key = Some x ∧ key ≠ q_key q) →
  moves sy q ph w' open'.
Proof.
  intros Hi Hr [gate Hg] Hc Hn1 Hn2 Ho. split; try done.
  - by eapply released_keeps.
  - congruence.
  - congruence.
  - intros ???? ->. by destruct (Hn1 g0 id o r).
  - intros key x Hx. destruct (Ho _ _ Hx) as [Hx0 Hne]. right.
    destruct (inv_open _ Hi _ _ Hx0) as (Hn & p & Hp & Hk & Hcar).
    destruct (released_pending _ _ _ _ _ _ _ Hr Hn Hp Hk) as [Hn' [Hp'|?]]; [|done].
    split; [done|]. by exists p.
  - intros key _ HN. apply eq_None_not_Some. intros [x [Hx _]%Ho]. congruence.
Qed.
Lemma inv_release sy rid q ph gate id w1 o w' sy' :
  idem_inv sy → sy_requests sy !! rid = Some q → gate_of (q_phase q) = Some gate →
  calm (sy_world sy) w1 → release_claim q gate id w1 = (o, w') →
  gate_of ph = None → claim_of ph = None →
  (∀ g id o r, ph ≠ Committed g id o r) → (∀ g id o, ph ≠ Conflicted g id o) →
  sy_world sy' = drop_gate (q_phase q) ph w' →
  sy_requests sy' = <[rid := set_phase ph q]> (sy_requests sy) →
  (∀ key x, sy_open sy' !! key = Some x → sy_open sy !! key = Some x ∧ key ≠ q_key q) →
  idem_inv sy'.
Proof.
  intros Hi Hq Hg Hc Hm%release_run Hh Hcl Hn1 Hn2 Hw Hr Ho.
  apply (released_pre _ _ _ _ _ _ Hc) in Hm.
  eapply inv_moves; [exact Hi|exact Hq|by eapply moves_release| |exact Hw|exact Hr|reflexivity].
  rewrite Hw, Hr. apply enter_gates; [done|done|by eapply released_gates|by left].
Qed.
Lemma inv_diverge sy rid q carried gate id found w1 o w' ph :
  idem_inv sy → sy_requests sy !! rid = Some q → q_phase q = Claimed carried gate id →
  reexamine ttl (sy_memory sy !! (q_pid q, q_key q)) (sy_world sy) = (Done (Ok found), w1) →
  release_claim q gate id w1 = (o, w') → (∃ c, ph = Looking c) ∨ ph = Finished →
  idem_inv (forget (q_key q) (enter sy rid q ph w')).
Proof.
  intros Hi Hq Hph Hx Hm Hend. pose proof (silent_reexamine (sy_memory sy !! (q_pid q, q_key q))) as Hs.
  specialize (Hs (sy_world sy)). unfold post in Hs. rewrite Hx in Hs. cbn in Hs.
  assert (gate_of ph = None ∧ claim_of ph = None ∧ (∀ g id o r, ph ≠ Committed g id o r) ∧
    (∀ g id o, ph ≠ Conflicted g id o)) as (E1 & E2 & E3 & E4) by (by destruct Hend as [[c ->]| ->]).
  eapply (inv_release sy rid q ph gate id w1); try done; [by rewrite Hph|].
  cbn [sy_open forget enter]. intros key x [Hne [Hk _]%still_open_Some]%lookup_delete_Some. done.
Qed.
Lemma check_run q gate id w o w' :
  check_claim q gate id w = (o, w') → calm w w' ∧ (o = Done (Ok OCurrent) → ∃ p, pending_at (q_key q) w' p ∧
    pn_key p = q_key q ∧ pn_owner p = id_owner id ∧ pn_generation p = id_generation id ∧
    pn_digest p = q_digest q).
Proof.
  intros Hm. pose proof (check_spec gate (q_key q) (id_owner id) (id_generation id) (q_digest q) w) as Hc.
  exact (post_run _ _ _ _ _ Hm Hc).
Qed.
Lemma silent_check q gate id : silent (check_claim q gate id).
Proof. intros w. eapply post_mono; [|apply check_spec]. by intros o w' []. Qed.

(** ** Execution and publication *)

Lemma inv_begin sy rid q carried gate id owner w' :
  idem_inv sy → sy_requests sy !! rid = Some q → q_phase q = Registered carried gate id owner →
  check_claim q gate id (sy_world sy) = (Done (Ok OCurrent), w') →
  idem_inv (begin_execution (q_key q) (execution_of q id) (enter sy rid q (Executing gate id owner) w')).
Proof.
  intros Hi Hq Hph [Hc _]%check_run.
  assert (Hcl : unresolved (q_key q) w' (claim_matches q id)).
  { eapply claim_stays; [done|exact Hq|by rewrite Hph|by apply keeps_calm]. }
  eapply (inv_moves sy rid q (Executing gate id owner) w'); [done|done| | |reflexivity..].
  - destruct (moves_keeps sy q (Executing gate id owner) w' Hi) as [A B C D E F G]; try done.
    + by apply keeps_calm.
    + by intros id' [= <-].
    + split; try done.
      * cbn [sy_open begin_execution enter]. intros key x [[<- <-]|[Hne Hx]]%lookup_insert_Some; [|by apply F].
        right. eapply unresolved_mono; [|exact Hcl].
        intros p (K1 & K2 & K3 & K4 & K5 & K6). by repeat split.
      * intros key [Hn|Hne] Hx; [by rewrite Hph in Hn|].
        cbn. rewrite lookup_insert_ne by done. by apply still_open_None.
  - apply enter_gates; [done|done|apply Hc|right; by rewrite Hph].
Qed.
Lemma store_run q gate id run w o w' :
  store_result ttl q gate id run w = (o, w') →
  stored (q_key q) (q_digest q) run (id_owner id) (id_generation id) ttl (w_clock w) w o w'.
Proof. intros Hm. refine (post_run _ _ _ _ _ Hm _). by apply store_spec. Qed.

(** Without a Ready, a store publishes its own record or fails. *)
Lemma stored_unrivaled q id run readings w o w' :
  no_ready (q_key q) w →
  stored (q_key q) (q_digest q) run (id_owner id) (id_generation id) ttl readings w o w' →
  (keeps everywhere w w' ∧ (o = Crashed ∨ ∃ d, o = Done (Err (Storage d)))) ∨
  ∃ r, ready_at (q_key q) w' r ∧ rd_run_id r = run ∧ rd_digest r = q_digest q ∧
    (o = Crashed ∨ o = Done (Ok r)).
Proof.
  intros Hn [Ht Hok Hconf|w1 r w2 Ht Hpub Hput Ht2 Hs Ho].
  - left. pose proof (tidies_keeps _ _ _ _ _ Ht) as Hk. split; [done|].
    destruct (Hk (q_key q) I Hn) as [Hn' _]. destruct o as [[r|[|d]]|]; [| |by right; exists d|by left].
    + destruct (Hok r eq_refl) as [Hr _]. by apply (no_ready_not (q_key q) (q_key q)) in Hr.
    + destruct (Hconf eq_refl) as (r & Hr & _). by apply (no_ready_not (q_key q) (q_key q)) in Hr.
  - right. destruct Hpub as (_ & Hk & Hd & Hr & _ & _). exists r. split; [|done].
    eapply same_ready_at; [exact Hs|]. by eapply put_ready_at.
Qed.
Lemma ready_at_some key w r : ready_at key w r → ¬ no_ready key w.
Proof. intros (b & Hb & _) Hn. unfold no_ready in Hn. congruence. Qed.
Lemma inv_store sy rid q gate id owner run o w' :
  idem_inv sy → sy_requests sy !! rid = Some q → q_phase q = Executed gate id owner run →
  store_result ttl q gate id run (sy_world sy) = (o, w') →
  idem_inv (enter sy rid q (after_store gate id owner run o) w').
Proof.
  intros Hi Hq Hph Hm%store_run.
  destruct (inv_claims _ Hi rid q id Hq) as [Hn _]; [by rewrite Hph|].
  assert (Hgates : gates w' = gates (sy_world sy)) by (by eapply stored_gates).
  assert (Hh : gate_of (after_store gate id owner run o) = None ∨
    gate_of (after_store gate id owner run o) = gate_of (q_phase q)).
  { rewrite Hph. destruct o as [[r|[]]|]; by (left + right). }
  destruct (stored_unrivaled _ _ _ _ _ _ _ Hn Hm) as [[Hk Ho]|(r & Hr & _ & _ & Ho)].
  - apply enter_keeps; try done.
    + intros id' Hid. destruct Ho as [->|[d ->]]; [done|]. cbn in Hid. simplify_eq.
      by eapply claim_stays; [..|by rewrite Hph|].
    + by destruct Ho as [->|[d ->]].
    + by destruct Ho as [->|[d ->]].
  - eapply inv_moves; [exact Hi|exact Hq| |by apply enter_gates|reflexivity..].
    assert (Hclosed : ∀ key x, same_slot key (q_key q) → still_open (drop_gate (q_phase q)
      (after_store gate id owner run o) w') (sy_open sy) !! key = Some x → False).
    { intros key x Hs [_ Hno]%still_open_Some. eapply no_ready_slot in Hno; [|exact Hs].
      unfold no_ready in Hno. rewrite drop_gate_files in Hno. by apply ready_at_some in Hr. }
    split.
    + by eapply stored_keeps.
    + by rewrite Hph.
    + by destruct Ho as [->| ->].
    + intros ???? _. apply eq_None_not_Some. intros [x Hx]. by eapply Hclosed.
    + by destruct Ho as [->| ->].
    + intros key x Hx. left. pose proof Hx as [Hx0 Hno]%still_open_Some.
      unfold no_ready in Hno. rewrite drop_gate_files in Hno.
      split; [done|]. split; [done|]. intros Hs. by eapply Hclosed.
    + intros key _. apply still_open_None.
Qed.

Lemma load_spec key w :
  post (load_durable_ready_result key ttl) w
    (λ o w', calm w w' ∧ ∀ r, o = Done (Ok (Some r)) → ready_at key w r).
Proof.
  apply post_and; [apply silent_load|]. unfold load_durable_ready_result, read_ready.
  apply post_try, post_bind. eapply post_mono; [|apply bounded_reads].
  intros [[b| |d]|] w1 (_ & _ & Hb); [|by apply post_ret..|done]. apply post_ret.
  destruct (parse_ready key b) as [r|e] eqn:Er; [|done]. cbn. apply post_try.
  eapply post_mono; [|apply silent_now]. intros [[now|e]|] w2 _; [apply post_ret|done..].
  intros r'. case_match; [done|]. intros [= <-]. by exists b.
Qed.
Lemma inv_store_failed sy rid q gate id owner run o w' :
  idem_inv sy → sy_requests sy !! rid = Some q → q_phase q = StoreFailed gate id owner run →
  after_store_error ttl q gate id run (sy_world sy) = (o, w') →
  idem_inv (enter sy rid q Finished w').
Proof.
  intros Hi Hq Hph Hm. destruct (inv_claims _ Hi rid q id Hq) as [Hn _]; [by rewrite Hph|].
  assert (Hc : calm (sy_world sy) w').
  { apply (post_run _ _ (λ _ w1, calm (sy_world sy) w1) _ _ Hm). unfold after_store_error.
    apply post_bind. eapply post_mono; [|apply load_spec]. intros x w1 [Hc Hr].
    destruct x as [[[r|]|d]|]; [|done..]. specialize (Hr r eq_refl). by apply ready_at_some in Hr. }
  apply enter_keeps; try done; [apply Hc|by left|by apply keeps_calm].
Qed.
Lemma inv_committed_step sy rid q gate id owner r o w' :
  idem_inv sy → sy_requests sy !! rid = Some q → q_phase q = Committed gate id owner r →
  release_claim q gate id (sy_world sy) = (o, w') →
  idem_inv (enter sy rid q Finished w').
Proof.
  intros Hi Hq Hph Hm. pose proof (inv_committed _ Hi _ _ _ _ _ _ Hq Hph) as Hno.
  eapply (inv_release sy rid q Finished gate id (sy_world sy)); try done; [by rewrite Hph|].
  cbn [sy_open enter]. intros key x [Hx _]%still_open_Some. split; [done|]. congruence.
Qed.

(** The side conditions of a move, from the phase before it. *)
Ltac by_phase :=
  try match goal with Hp : q_phase _ = _ |- _ => rewrite ?Hp end; cbn;
  first [done | by left | by right | by intros ? [= <-]].

Lemma inv_step sy sy' : idem_inv sy → step sy sy' → idem_inv sy'.
Proof.
  intros Hi Hst. destruct Hst.
  - by apply inv_arrive.
  - by eapply inv_background.
  - by eapply idem_inv_ext.
  - by eapply idem_inv_ext.
  - by eapply idem_inv_ext.
  - apply inv_idle; try done; by_phase.
  - eapply inv_silent; [done|done|apply silent_find_orphan|done|..]; by_phase.
  - by eapply (inv_acquire _ _ _ _ (Some gate)).
  - by eapply (inv_acquire _ _ _ _ None).
  - by apply inv_claim.
  - eapply inv_silent; [done|done|apply silent_wait_round|done|..];
      destruct o as [[[[]|]|]|]; by_phase.
  - eapply inv_silent; [by eapply idem_inv_ext|done|apply silent_reexamine|done|..]; by_phase.
  - eapply inv_diverge; [done..|]. subst. repeat case_match; eauto.
  - assert (Hbase : ∀ ph, gate_of ph = None → claim_of ph = None → idem_inv (enter sy rid q ph w')).
    { intros ph Hh Hc. eapply inv_silent; [done|done|apply silent_check|done|by left|..].
      - by rewrite Hc.
      - by intros ???? ->.
      - by intros ??? ->. }
    destruct o as [[x|d]|];
      [eapply idem_inv_ext; [by apply (Hbase (Looking (or_else_opt carried (id_run id))))|done..]
      |(eapply idem_inv_ext; [by apply (Hbase Finished)|done..])..].
  - by eapply inv_begin.
  - apply inv_idle; try done; by_phase.
  - eapply idem_inv_ext; [apply (inv_idle sy rid q Finished)|done..]; by_phase.
  - eapply idem_inv_ext; [apply (inv_idle sy rid q (Detached gate))|done..]; by_phase.
  - by eapply inv_store.
  - by destruct (inv_unrivaled _ Hi rid q gate id owner).
  - eapply idem_inv_ext; [by eapply inv_store_failed|done..].
  - eapply idem_inv_ext; [by eapply inv_committed_step|done..].
  - eapply idem_inv_ext; [apply (inv_idle sy rid q Finished)|done..]; by_phase.
  - apply inv_idle; try done; by_phase.
Qed.
Lemma inv_initial sy : initial sy → idem_inv sy.
Proof.
  intros (Hr & Ho & Hl & Hg). split; rewrite ?Hr, ?Ho, ?Hl; try (by intros; simplify_map_eq).
  intros i [Hi|[p Hp]]; [set_solver|]. by apply Hg in Hp.
Qed.
Lemma reachable_inv sy : reachable ttl max_entries sy → idem_inv sy.
Proof.
  intros (sy0 & H0' & Hst). apply inv_initial in H0'. revert H0'.
  induction Hst; eauto using inv_step.
Qed.

(** ** What the protocol promises *)

(** C7: One request at a time works on a key, across all processes: from its
    claim until it commits or gives up, no other request has a claim on the
    key, no Ready answers the key, and the claim on disk is its own. *)
Theorem one_executor sy rid rid' q q' id id' :
  reachable ttl max_entries sy →
  sy_requests sy !! rid = Some q → sy_requests sy !! rid' = Some q' →
  claim_of (q_phase q) = Some id → claim_of (q_phase q') = Some id' → q_key q = q_key q' →
  rid = rid' ∧ unresolved (q_key q) (sy_world sy) (claim_matches q id).
Proof.
  intros Hi%reachable_inv Hq Hq' Hc Hc' Hk. split; [|by eapply (inv_claims _ Hi)].
  destruct (claim_holds _ _ Hc) as [g Hg], (claim_holds _ _ Hc') as [g' Hg'].
  eapply (one_holder sy rid rid'); try done. unfold same_slot. congruence.
Qed.

(** C8: An execution that began and was not answered by a Ready stays on disk
    as a claim, whatever fails and whoever dies, and a later request that
    gets to work on the key repeats it: the same content, the same operation
    id, the same run.  One case is excepted and drops the execution from
    [sy_open]: a request that adopted the claim and then found an entry of
    its own process in memory releases the claim. *)
Theorem open_execution_repeated sy key x :
  reachable ttl max_entries sy → sy_open sy !! key = Some x →
  unresolved key (sy_world sy) (λ p, pn_key p = key ∧ carries x p) ∧
  ∀ rid q id, sy_requests sy !! rid = Some q → claim_of (q_phase q) = Some id → q_key q = key →
    q_digest q = ex_digest x ∧ id_operation id = ex_operation x ∧
    (is_Some (ex_run x) → id_run id = ex_run x).
Proof.
  intros Hi%reachable_inv Hx. pose proof (inv_open _ Hi _ _ Hx) as Hun. split; [done|].
  intros rid q id Hq Hid <-. destruct Hun as (_ & p & Hp & _ & Hd & Ho & Hr).
  destruct (inv_claims _ Hi _ _ _ Hq Hid) as (_ & p' & Hp' & _ & Hd' & Ho' & _ & _ & Hr').
  assert (p' = p) as -> by (by eapply pending_at_unique).
  split; [congruence|]. split; [congruence|]. intros Hs. rewrite <-Hr'. auto.
Qed.

(** C9: A commit meets no rival: when a request has executed, the store never
    answers that the key was committed for other content, and the record it
    answers is the one of this request's content and run. *)
Theorem commit_meets_no_rival sy rid q gate id owner run o w' :
  reachable ttl max_entries sy → sy_requests sy !! rid = Some q →
  q_phase q = Executed gate id owner run → store_result ttl q gate id run (sy_world sy) = (o, w') →
  o ≠ Done (Err DigestConflict) ∧
  ∀ r, o = Done (Ok r) →
    rd_run_id r = run ∧ rd_digest r = q_digest q ∧ ready_at (q_key q) w' r.
Proof.
  intros Hi%reachable_inv Hq Hph Hm%store_run.
  destruct (inv_claims _ Hi rid q id Hq) as [Hn _]; [by rewrite Hph|].
  destruct (stored_unrivaled _ _ _ _ _ _ _ Hn Hm) as [[_ Ho]|(r & Hr & Hrun & Hd & Ho)].
  - by destruct Ho as [->|[d ->]].
  - split; [by destruct Ho as [->| ->]|]. intros r' E. destruct Ho as [->| ->]; simplify_eq. done.
Qed.

(** A step keeps the Ready of a key, or the Ready has expired. *)
Definition ready_kept (w w' : world) : Prop := ∀ key r,
  ready_at key w r → ready_at key w' r ∨ expired_in ttl (w_clock w) r.
Lemma kept_silent {A} (m : io A) w o w' : silent m → m w = (o, w') → ready_kept w w'.
Proof.
  intros Hs Hm key r Hr. left. specialize (Hs w). unfold post in Hs. rewrite Hm in Hs.
  by eapply calm_ready.
Qed.
Lemma kept_drop before after w w' : ready_kept w w' → ready_kept w (drop_gate before after w').
Proof.
  intros Hk key r Hr. destruct (Hk key r Hr) as [(b & Hb & Hp)|]; [left|by right].
  exists b. by rewrite drop_gate_files.
Qed.
Lemma kept_refl w : ready_kept w w.
Proof. intros key r Hr. by left. Qed.
Lemma kept_background m w o w' : background ttl m → m w = (o, w') → ready_kept w w'.
Proof.
  intros Hb Hm. destruct Hb as [work|name|name modified now|run key digest|key names|key|key|p].
  - assert (Hsw : swept ttl (w_clock w) w w').
    { apply (post_run _ _ (λ _ w1, swept ttl (w_clock w) w w1) _ _ Hm).
      apply post_try. eapply post_mono; [|apply now_spec]. intros o' w1 [Hc Hnow].
      destruct o' as [[now|d]|]; [|by exists []; apply tidies_calm..].
      eapply post_mono; [|apply (reap_sweeps _ _ _ (w_clock w))]; [|by apply Hnow].
      intros o2 w2 [key Ht]. exists key. eapply rtc_l; [by apply tidy_calm|done]. }
    destruct Hsw as [key Ht]. intros key' r Hr. by eapply tidies_ready.
  - by eapply kept_silent; [apply silent_discover|].
  - eapply kept_silent; [|exact Hm]. apply silent_clean_temp. intros _. apply temp_aside.
  - by eapply kept_silent; [apply silent_write_orphan|].
  - eapply kept_silent; [|exact Hm]. apply silent_try; [apply silent_find_orphan|intros; apply silent_ret].
  - eapply kept_silent; [|exact Hm]. apply silent_try; [apply silent_load|intros; apply silent_ret].
  - eapply kept_silent; [|exact Hm]. apply silent_try; [|intros; apply silent_ret].
    apply silent_bind; [apply silent_read_pending|intros; apply silent_ret].
  - pose proof (reclaim_spec p w) as Hr. unfold post in Hr. rewrite Hm in Hr.
    intros key r Hk. left. by eapply still_ready; [apply Hr|].
Qed.
Lemma kept_acquire key w o w' : try_acquire key w = (o, w') → ready_kept w w'.
Proof.
  intros Hm. pose proof (acquire_spec key w) as Hs. unfold post in Hs. rewrite Hm in Hs.
  intros key' r Hr. left. by eapply still_ready; [apply Hs|].
Qed.
Lemma kept_claim q carried gate w o w' : claim_key ttl q carried gate w = (o, w') → ready_kept w w'.
Proof.
  intros Hm key r Hr.
  assert (Hc : claimed (q_key q) (q_digest q) ttl (w_clock w) w o w').
  { refine (post_run _ _ _ _ _ Hm _). by apply claim_spec. }
  by eapply claimed_ready.
Qed.
Lemma kept_release q gate id w w1 o w' : calm w w1 → release_claim q gate id w1 = (o, w') → ready_kept w w'.
Proof.
  intros Hc Hm%release_run key r Hr. left. eapply released_ready; [exact Hm|]. by eapply calm_ready.
Qed.
Lemma kept_store q gate id run w o w' : store_result ttl q gate id run w = (o, w') → ready_kept w w'.
Proof. intros Hm%store_run key r Hr. by eapply stored_ready. Qed.
Lemma kept_store_error q gate id run w o w' :
  after_store_error ttl q gate id run w = (o, w') → ready_kept w w'.
Proof.
  intros Hm key r Hr.
  apply (post_run _ _ (λ _ w1, ready_at key w1 r ∨ expired_in ttl (w_clock w) r) _ _ Hm).
  unfold after_store_error. apply post_bind. eapply post_mono; [|apply silent_load].
  intros x w1 Hc. assert (Hr1 : ready_at key w1 r) by exact (calm_ready _ _ _ _ Hc Hr).
  destruct x as [[[r'|]|d]|]; [|by left..]. case_match; [|by left].
  apply post_bind. unfold release_claim. eapply post_mono; [|apply release_spec].
  intros y w2 Hrel. assert (ready_at key w2 r) by exact (released_ready _ _ _ _ _ _ _ Hrel Hr1). destruct y; by left.
Qed.
Lemma step_kept sy sy' : step sy sy' → ready_kept (sy_world sy) (sy_world sy').
Proof.
  intros Hst. destruct Hst; cbn [sy_world enter with_memory spawn_withdraw forget begin_execution];
    try apply kept_refl; try (apply kept_drop, kept_refl).
  - by eapply kept_background.
  - apply kept_drop. by eapply kept_silent; [apply silent_find_orphan|].
  - apply kept_drop. by eapply kept_acquire.
  - apply kept_drop. by eapply kept_acquire.
  - apply kept_drop. by eapply kept_claim.
  - apply kept_drop. by eapply kept_silent; [apply silent_wait_round|].
  - apply kept_drop. by eapply kept_silent; [apply silent_reexamine|].
  - apply kept_drop. eapply kept_release; [|done].
    pose proof (silent_reexamine (sy_memory sy !! (q_pid q, q_key q)) (sy_world sy)) as Hs.
    unfold post in Hs.
    match goal with Hx : reexamine _ _ _ = _ |- _ => rewrite Hx in Hs end. exact Hs.
  - destruct o as [[]|]; apply kept_drop; by eapply kept_silent; [apply silent_check|].
  - apply kept_drop. by eapply kept_silent; [apply silent_check|].
  - apply kept_drop. by eapply kept_store.
  - apply kept_drop. by eapply kept_release.
  - apply kept_drop. by eapply kept_store_error.
  - apply kept_drop. by eapply kept_release.
Qed.

(** C30: A committed answer stays: no step of any request, no sweep and no
    death of a process removes or replaces the Ready of a key, unless the
    clock showed a time at which it has expired. *)
Theorem ready_until_expired sy sy' key r :
  step sy sy' → ready_at key (sy_world sy) r →
  ready_at key (sy_world sy') r ∨ expired_in ttl (w_clock (sy_world sy)) r.
Proof. intros Hst Hr. by apply (step_kept sy sy'). Qed.

(** The answer of a claim is what is on disk: an owner holds the only
    evidence for the key, a replayed Ready has the content of the request, a
    peer is a claim for the same content, and a conflict is a Ready or a
    claim for other content. *)
Theorem claim_answers gate key digest reserved target w x w' :
  claim_durable_pending_for_target_gated gate key digest reserved ttl target w = (Done (Ok x), w') →
  match x with
  | COwner op run owner g =>
      unresolved key w' (λ p, pn_key p = key ∧ pn_digest p = digest ∧ pn_operation_id p = Some op ∧
        pn_run_id p = run ∧ pn_owner p = owner ∧ pn_generation p = g)
  | CReady r => ready_at key w' r ∧ rd_digest r = digest
  | CPeer => ∃ p, pending_at key w' p ∧ pn_key p = key ∧ pn_digest p = digest
  | CConflict =>
      (∃ r, ready_at key w' r ∧ rd_digest r ≠ digest) ∨
      (∃ p, pending_at key w' p ∧ pn_key p = key ∧ pn_digest p ≠ digest)
  end.
Proof.
  intros Hm.
  assert (Hc : claimed key digest ttl (w_clock w) w (Done (Ok x)) w').
  { refine (post_run _ _ _ _ _ Hm _). by apply claim_spec. }
  destruct Hc as [_ Hr|w1 p _ (Hk & Hn & _) Hd Hput Has]; [by destruct x|].
  destruct x as [op run owner g| | |]; try done. destruct Has as (Ho & Hrun & Hw & Hg). split.
  - eapply calm_no_ready; [exact Hput|]. unfold no_ready. by rewrite put_pending_ready.
  - exists p. split; [by eapply put_pending_at|]. by repeat split.
Qed.
End execution.
