(* ===== verification/IdemDemo.v ===== *)
(** * Concrete runs of the idempotency protocol

    A record codec, UUIDs and a digest to compute with, a scheduler that runs
    chosen steps of [IdemSystem], and runs on which the theorems of
    [IdemExecution] are applied. *)

From stdpp Require Import gmap.
From S2P Require Import Prelude Str TraceIds PathPolicy IdemWorld IdemStore IdemExpiry IdemMoves IdemOps IdemSystem IdemProtocol IdemExecution.

#[local] Arguments s : simpl never.

(** ** Parameters to compute with *)

#[local] Instance idem_digest : Sha256 := {
  sha256_hex x := let h := hex16 (foldl fnv_step 0%Z x) in h ++ h ++ h ++ h }.
#[local] Instance idem_digest_laws : Sha256Laws.
Proof.
  split. intros x. cbn [sha256_hex idem_digest]. destruct (hex16_id (foldl fnv_step 0%Z x)) as [Hl Hf].
  split; [by rewrite !length_app, Hl | by repeat apply Forall_app_2].
Qed.
#[local] Instance idem_digest_bytes : Sha256Bytes := { sha256_bytes_hex := sha256_hex }.

#[local] Instance idem_uuids : Uuids := {
  now_v7 n := repeat 97%Z n;
  uuid_canonical _ := true;
  uuid_v7_canonical := forallb (λ c, lower_hex c || (c =? 45)%Z) }.
#[local] Instance idem_uuids_laws : UuidsLaws.
Proof.
  split; cbn.
  - intros n m E. apply (f_equal length) in E. by rewrite !repeat_length in E.
  - done.
  - intros x Hx. apply Forall_forall. intros c Hc. rewrite forallb_forall in Hx.
    apply list_elem_of_In, Hx in Hc. rewrite orb_true_iff, Z.eqb_eq in Hc. done.
Qed.

(** Fields with their lengths before them. *)
Definition pack (fields : list (list Z)) : list Z :=
  concat ((λ x, Z.of_nat (length x) :: x) <$> fields).
Fixpoint unpack (fuel : nat) (b : list Z) : option (list (list Z)) :=
  match b, fuel with
  | [], _ => Some []
  | _, O => None
  | n :: b, S fuel =>
      if (Z.of_nat (length b) <? n)%Z then None
      else (cons (take (Z.to_nat n) b)) <$> unpack fuel (drop (Z.to_nat n) b)
  end.
Lemma unpack_pack fields fuel :
  (length (pack fields) ≤ fuel)%nat → unpack fuel (pack fields) = Some fields.
Proof.
  revert fuel; induction fields as [|x fields IH]; intros fuel Hf; [by destruct fuel|].
  change (pack (x :: fields)) with (Z.of_nat (length x) :: x ++ pack fields) in *.
  destruct fuel as [|fuel]; [cbn in Hf; lia|]. cbn [unpack length] in *. rewrite length_app in Hf.
  destruct (Z.ltb_spec (Z.of_nat (length (x ++ pack fields))) (Z.of_nat (length x))) as [Hlt|_].
  { rewrite length_app in Hlt. lia. }
  rewrite Nat2Z.id, take_app_length, drop_app_length, IH by lia. done.
Qed.
Definition unpack_all (b : list Z) : option (list (list Z)) := unpack (length b) b.
Definition put_opt (x : option str) : list Z := match x with Some x => 1%Z :: x | None => [] end.
Definition get_opt (b : list Z) : option str := match b with [] => None | _ :: x => Some x end.
Lemma get_put_opt x : get_opt (put_opt x) = x.
Proof. by destruct x. Qed.

#[local] Instance idem_codec : IdemCodec := {
  ready_to_vec r := pack [rd_key r; rd_digest r; rd_run_id r; [rd_created_at_unix r];
                          [rd_generation r]; put_opt (rd_publication_id r)];
  ready_from_slice b :=
    match unpack_all b with
    | Some [k; d; r; [c]; [g]; p] => Some (mkReady k d r c g (get_opt p)) | _ => None end;
  pending_to_vec p := pack [pn_key p; pn_digest p; put_opt (pn_run_id p); put_opt (pn_operation_id p);
                            pn_owner p; [pn_created_at_unix p]; [pn_generation p]];
  pending_from_slice b :=
    match unpack_all b with
    | Some [k; d; r; o; w; [c]; [g]] => Some (mkPending k d (get_opt r) (get_opt o) w c g) | _ => None end;
  orphan_to_vec o := pack [or_key o; or_digest o; or_run_id o; [or_created_at_unix o]];
  orphan_from_slice b :=
    match unpack_all b with
    | Some [k; d; r; [c]] => Some (mkOrphan k d r c) | _ => None end }.
#[local] Instance idem_codec_laws : IdemCodecLaws.
Proof.
  split.
  - intros [????? p]. cbn -[pack]. unfold unpack_all. rewrite unpack_pack by done.
    by rewrite get_put_opt.
  - intros [?? r o ???]. cbn -[pack]. unfold unpack_all. rewrite unpack_pack by done.
    by rewrite !get_put_opt.
  - intros []. cbn -[pack]. unfold unpack_all. by rewrite unpack_pack by done.
  - done.
Qed.

(** ** A scheduler *)

Inductive action : Type :=
| AArrive (rid : nat) (q : request) | ALook (rid : nat) | AAcquire (rid : nat) | AClaim (rid : nat)
| ARegister (rid : nat) | ADiverge (rid : nat) | ABegin (rid : nat) | AExecuted (rid : nat) (run : str)
| ADetach (rid : nat) | AStore (rid : nat) | ACommitted (rid : nat) | ADie (rid : nat) | AWithdraw.

Section scheduler.
Variables (ttl : Z) (max_entries : nat).

Definition act_request (sy : system) (q : request) (rid : nat) (a : action) : option system :=
  let w := sy_world sy in
  let entry := sy_memory sy !! (q_pid q, q_key q) in
  match a, q_phase q with
  | ALook _, Looking c =>
      match entry with None => Some (enter sy rid q (Wanting c) w) | _ => None end
  | AAcquire _, Wanting c =>
      match try_acquire (q_key q) w with
      | (Done (Ok (Some g)), w') => Some (enter sy rid q (Gated c g) w')
      | _ => None
      end
  | AClaim _, Gated c g =>
      let '(o, w') := claim_key ttl q c g w in Some (enter sy rid q (after_claim c g o) w')
  | ARegister _, Claimed c g id =>
      match reexamine ttl entry w with
      | (Done (Ok XAbsent), w') =>
          if bool_decide (entries_of (q_pid q) (sy_memory sy) < max_entries)%nat
          then Some (enter (mkSystem w (sy_requests sy)
                      (<[(q_pid q, q_key q) := MPending (q_digest q) (sy_next sy)]> (sy_memory sy))
                      (sy_tasks sy) (S (sy_next sy)) (sy_open sy))
               rid q (Registered c g id (sy_next sy)) w')
          else None
      | _ => None
      end
  | ADiverge _, Claimed c g id =>
      match reexamine ttl entry w with
      | (Done (Ok (XPending d)), w1) =>
          let '(o, w') := release_claim q g id w1 in
          Some (forget (q_key q) (enter sy rid q
            (match o with
             | Done (Ok _) => if d =s q_digest q then Looking c else Finished
             | _ => Finished
             end) w'))
      | _ => None
      end
  | ABegin _, Registered c g id o =>
      match check_claim q g id w with
      | (Done (Ok OCurrent), w') =>
          Some (begin_execution (q_key q) (execution_of q id) (enter sy rid q (Executing g id o) w'))
      | _ => None
      end
  | AExecuted _ run, Executing g id o => Some (enter sy rid q (Executed g id o run) w)
  | ADetach _, Executing g id o => Some (spawn_withdraw q (enter sy rid q (Detached g) w))
  | AStore _, Executed g id o run =>
      let '(r, w') := store_result ttl q g id run w in Some (enter sy rid q (after_store g id o run r) w')
  | ACommitted _, Committed g id o r =>
      let '(_, w') := release_claim q g id w in
      Some (with_memory (<[(q_pid q, q_key q) := MReady r]> (sy_memory sy)) (enter sy rid q Finished w'))
  | ADie _, _ => Some (enter sy rid q Finished w)
  | _, _ => None
  end.
Definition act (sy : system) (a : action) : option system :=
  match a with
  | AArrive rid q =>
      match sy_requests sy !! rid, q_phase q with
      | None, Looking None => Some (enter sy rid q (Looking None) (sy_world sy))
      | _, _ => None
      end
  | AWithdraw =>
      match sy_tasks sy with
      | (pid, key, owner) :: tasks =>
          Some (mkSystem (sy_world sy) (sy_requests sy) (withdraw pid key owner (sy_memory sy))
                  tasks (sy_next sy) (sy_open sy))
      | [] => None
      end
  | ALook rid | AAcquire rid | AClaim rid | ARegister rid | ADiverge rid | ABegin rid
  | AExecuted rid _ | ADetach rid | AStore rid | ACommitted rid | ADie rid =>
      q ← sy_requests sy !! rid; act_request sy q rid a
  end.
Fixpoint acts (sy : system) (l : list action) : option system :=
  match l with [] => Some sy | a :: l => sy' ← act sy a; acts sy' l end.

Lemma act_request_step sy q rid a sy' :
  sy_requests sy !! rid = Some q → act_request sy q rid a = Some sy' → idem_step ttl max_entries sy sy'.
Proof.
  intros Hq Ha. unfold act_request in Ha.
  destruct a; destruct (q_phase q) as [c|c|c|c g|c g id|c g id o|g id o|g id o run0|g id o r|g id o
    |g id o run0|g|] eqn:Hph; try discriminate Ha.
  4: { destruct (reexamine _ _ _) as [[[[| |]|]|] w'] eqn:Ex; try discriminate Ha.
       case_bool_decide; [|done]. simplify_eq. by eapply st_register. }
  4: { destruct (reexamine _ _ _) as [[[[|d|]|]|] w1] eqn:Ex; try discriminate Ha.
       destruct (release_claim q g id w1) as [o w'] eqn:Er. simplify_eq.
       by eapply (st_diverge _ _ _ _ _ _ _ _ (XPending d)). }
  all: repeat (case_match; try discriminate Ha); simplify_eq; by econstructor; eauto; done.
Qed.
Lemma act_step sy a sy' : act sy a = Some sy' → idem_step ttl max_entries sy sy'.
Proof.
  destruct a; cbn [act]; intros Ha;
    try (destruct (sy_requests sy !! rid) as [q'|] eqn:Hq; [|done];
         cbn [mbind option_bind] in Ha; by eapply act_request_step).
  - repeat (case_match; try discriminate Ha). simplify_eq. by eapply st_arrive.
  - destruct (sy_tasks sy) as [|[[pid key] owner] tasks] eqn:Et; [done|]. simplify_eq.
    by eapply (st_withdraw _ _ _ _ _ _ []).
Qed.
Lemma acts_steps l sy sy' : acts sy l = Some sy' → rtc (idem_step ttl max_entries) sy sy'.
Proof.
  revert sy; induction l as [|a l IH]; intros sy; cbn; [by intros [= <-]|].
  destruct (act sy a) as [sy1|] eqn:Ea; [|done]. intros Hl.
  eapply rtc_l; [by eapply act_step|by apply IH].
Qed.
End scheduler.

(** ** A request that commits *)

(** An empty store whose clock shows the given times. *)
Definition fresh_world (times : list Z) : world :=
  mkWorld ∅ ∅ ∅ 0 (Some <$> times) 0 [].
Definition fresh_system (times : list Z) : system := mkSystem (fresh_world times) ∅ ∅ [] 0 ∅.
Lemma fresh_initial times : initial (fresh_system times).
Proof. repeat (split; [done|]). apply map_Forall_empty. Qed.

Definition demo_request : request :=
  mkRequest 0 (s"key-1") (s"digest-1") (Some (s"run-1")) true (Looking None).
Definition until_executed : list action :=
  [AArrive 0 demo_request; ALook 0; AAcquire 0; AClaim 0; ARegister 0; ABegin 0; AExecuted 0 (s"run-1")].
Definition demo_times : list Z := [100; 100; 100; 101; 101; 101; 102; 102]%Z.

Definition demo_executed : option system := acts 600 8 (fresh_system demo_times) until_executed.
Definition demo_committed : option system := sy ← demo_executed; acts 600 8 sy [AStore 0; ACommitted 0].

Example demo_executed_phase :
  (λ sy, (claim_of ∘ q_phase) <$> sy_requests sy !! 0%nat) <$> demo_executed
  = Some (Some (Some (mkIdentity (now_v7 0) (now_v7 1) 1 (Some (s"run-1"))))).
Proof. vm_compute. reflexivity. Qed.

Lemma some_of {A} (o : option A) : (if o then true else false) = true → { x | o = Some x }.
Proof. destruct o as [x|]; [by exists x|done]. Defined.

(** The state in which the request has executed is reachable. *)
Lemma demo_executed_reachable :
  ∃ sy q gate id owner, reachable 600 8 sy ∧ demo_executed = Some sy ∧ sy_requests sy !! 0%nat = Some q ∧
    q_phase q = Executed gate id owner (s"run-1") ∧ q_key q = s"key-1" ∧
    sy_open sy !! s"key-1" = Some (mkExecution (s"digest-1") (now_v7 0) (Some (s"run-1"))).
Proof.
  destruct (some_of demo_executed) as [sy E]; [vm_compute; reflexivity|].
  assert (Hr : reachable 600 8 sy).
  { exists (fresh_system demo_times). split; [apply fresh_initial|]. by eapply acts_steps. }
  assert (Hd : (λ sy, (sy_requests sy !! 0%nat, sy_open sy !! s"key-1")) <$> demo_executed =
    Some (Some (set_phase (Executed (mkGate (s"key-1") (gate_path (s"key-1")) 0)
      (mkIdentity (now_v7 0) (now_v7 1) 1 (Some (s"run-1"))) 0 (s"run-1")) demo_request),
      Some (mkExecution (s"digest-1") (now_v7 0) (Some (s"run-1"))))) by (vm_compute; reflexivity).
  rewrite E in Hd. cbn [fmap option_fmap option_map] in Hd. injection Hd as Hq Ho.
  eexists sy, _, _, _, _. split; [exact Hr|]. split; [exact E|]. split; [exact Hq|].
  split; [reflexivity|]. split; [reflexivity|exact Ho].
Qed.

Lemma one_executor_witness : ∃ sy q id, reachable 600 8 sy ∧ sy_requests sy !! 0%nat = Some q ∧
  unresolved (q_key q) (sy_world sy) (claim_matches q id).
Proof.
  destruct demo_executed_reachable as (sy & q & gate & id & owner & Hr & _ & Hq & Hph & _).
  exists sy, q, id. split; [exact Hr|]. split; [exact Hq|].
  apply (one_executor 600 8 sy 0 0 q q id id); try done; by rewrite Hph.
Defined.
Lemma open_execution_repeated_witness : ∃ sy x, reachable 600 8 sy ∧
  unresolved (s"key-1") (sy_world sy) (λ p, pn_key p = s"key-1" ∧ carries x p).
Proof.
  destruct demo_executed_reachable as (sy & q & gate & id & owner & Hr & _ & _ & _ & _ & Ho).
  eexists sy, _. split; [exact Hr|].
  exact (proj1 (open_execution_repeated 600 8 sy (s"key-1") _ Hr Ho)).
Defined.
Lemma commit_meets_no_rival_witness : ∃ sy q gate id o w', reachable 600 8 sy ∧
  store_result 600 q gate id (s"run-1") (sy_world sy) = (o, w') ∧ o ≠ Done (Err DigestConflict).
Proof.
  destruct demo_executed_reachable as (sy & q & gate & id & owner & Hr & _ & Hq & Hph & _).
  destruct (store_result 600 q gate id (s"run-1") (sy_world sy)) as [o w'] eqn:Hm.
  exists sy, q, gate, id, o, w'. split; [exact Hr|]. split; [exact Hm|].
  exact (proj1 (commit_meets_no_rival 600 8 sy 0 q gate id owner (s"run-1") o w' Hr Hq Hph Hm)).
Defined.

(** The committed answer, and a step after it. *)
Definition demo_record : DurableIdempotencyRecord :=
  mkReady (s"key-1") (s"digest-1") (s"run-1") 101 1 (Some (now_v7 3)).
Example demo_committed_ready :
  (λ sy, w_files (sy_world sy) !! idempotency_path (s"key-1")) <$> demo_committed
    = Some (Some (NFile (ready_to_vec demo_record))).
Proof. vm_compute. reflexivity. Qed.
Example demo_committed_no_claim :
  (λ sy, w_files (sy_world sy) !! pending_path (s"key-1")) <$> demo_committed = Some None.
Proof. vm_compute. reflexivity. Qed.
Lemma ready_until_expired_witness : ∃ sy sy',
  idem_step 600 8 sy sy' ∧ ready_at (s"key-1") (sy_world sy) demo_record ∧
  (ready_at (s"key-1") (sy_world sy') demo_record ∨
   expired_in 600 (w_clock (sy_world sy)) demo_record).
Proof.
  destruct (some_of demo_committed) as [sy E]; [vm_compute; reflexivity|].
  pose proof demo_committed_ready as Hf. rewrite E in Hf. injection Hf as Hf.
  assert (Hready : ready_at (s"key-1") (sy_world sy) demo_record).
  { eexists. split; [exact Hf|]. vm_compute. reflexivity. }
  assert (Hs : idem_step 600 8 sy (enter sy 1 demo_request (Looking None) (sy_world sy))).
  { apply st_arrive; [|reflexivity].
    assert (Hd : (λ sy, sy_requests sy !! 1%nat) <$> demo_committed = Some None)
      by (vm_compute; reflexivity).
    rewrite E in Hd. by injection Hd. }
  eexists sy, _. split; [exact Hs|]. split; [exact Hready|].
  exact (ready_until_expired 600 8 sy _ _ _ Hs Hready).
Defined.
(** A second claim of the same key and content is answered by the Ready. *)
Lemma claim_answers_witness : ∃ w w' gate,
  claim_durable_pending_for_target_gated gate (s"key-1") (s"digest-1") None 600 false w
    = (Done (Ok (CReady demo_record)), w') ∧ ready_at (s"key-1") w' demo_record.
Proof.
  destruct (some_of demo_committed) as [sy E]; [vm_compute; reflexivity|].
  set (gate := mkGate (s"key-1") [] 0).
  destruct (claim_durable_pending_for_target_gated gate (s"key-1") (s"digest-1") None 600 false
    (sy_world sy)) as [o w'] eqn:Hm.
  assert (o = Done (Ok (CReady demo_record))) as ->.
  { assert (Hd : (λ sy, fst (claim_durable_pending_for_target_gated gate (s"key-1") (s"digest-1") None
      600 false (sy_world sy))) <$> demo_committed = Some (Done (Ok (CReady demo_record))))
      by (vm_compute; reflexivity).
    rewrite E in Hd. cbn [fmap option_fmap option_map] in Hd. rewrite Hm in Hd. by injection Hd. }
  exists (sy_world sy), w', gate. split; [exact Hm|].
  exact (proj1 (claim_answers 600 _ _ _ _ _ _ _ _ Hm)).
Defined.

(** ** A run that forgets an execution

    Two requests of one process with the same key.  The first executes and
    its future is dropped; the withdrawal of its memory entry is spawned but
    has not run when the second one, which had looked at the memory before,
    gets the gate.  It adopts the expired claim, finds the memory entry,
    and releases the claim it adopted.  The next claim of the key is a new
    operation. *)
Definition diverging : list action :=
  [AArrive 0 demo_request; AArrive 1 demo_request; ALook 0; ALook 1; AAcquire 0; AClaim 0; ARegister 0;
   ABegin 0].
Definition diverged : list action :=
  [ADetach 0; ADie 0; AAcquire 1; AClaim 1; ADiverge 1; AWithdraw; ALook 1; AAcquire 1; AClaim 1;
   ARegister 1; ABegin 1].
Definition diverging_times : list Z := [100; 100; 170; 171; 171; 171; 171; 171]%Z.
Lemma divergence_forgets : ∃ sy1 sy2 x1 x2,
  reachable 600 8 sy1 ∧ rtc (idem_step 600 8) sy1 sy2 ∧
  sy_open sy1 !! s"key-1" = Some x1 ∧ sy_open sy2 !! s"key-1" = Some x2 ∧
  ex_digest x1 = ex_digest x2 ∧ ex_operation x1 ≠ ex_operation x2.
Proof.
  destruct (some_of (acts 600 8 (fresh_system diverging_times) diverging)) as [sy1 E1];
    [vm_compute; reflexivity|].
  destruct (some_of (acts 600 8 (fresh_system diverging_times) diverging ≫=
    λ sy, acts 600 8 sy diverged)) as [sy2 E2]; [vm_compute; reflexivity|].
  assert (H1 : (λ sy, ex_operation <$> sy_open sy !! s"key-1") <$>
    acts 600 8 (fresh_system diverging_times) diverging = Some (Some (now_v7 0))) by (vm_compute; reflexivity).
  assert (H2 : (λ sy, ex_operation <$> sy_open sy !! s"key-1") <$>
    (acts 600 8 (fresh_system diverging_times) diverging ≫= λ sy, acts 600 8 sy diverged)
    = Some (Some (now_v7 6))) by (vm_compute; reflexivity).
  assert (H3 : (λ sy, ex_digest <$> sy_open sy !! s"key-1") <$>
    acts 600 8 (fresh_system diverging_times) diverging = Some (Some (s"digest-1"))) by (vm_compute; reflexivity).
  assert (H4 : (λ sy, ex_digest <$> sy_open sy !! s"key-1") <$>
    (acts 600 8 (fresh_system diverging_times) diverging ≫= λ sy, acts 600 8 sy diverged)
    = Some (Some (s"digest-1"))) by (vm_compute; reflexivity).
  rewrite E2 in H2, H4. rewrite E1 in H1, H3, E2. cbn [mbind option_bind] in E2.
  cbn [fmap option_fmap option_map] in *. injection H1 as H1. injection H2 as H2.
  injection H3 as H3. injection H4 as H4.
  apply fmap_Some in H1 as (x1 & Hx1 & O1), H2 as (x2 & Hx2 & O2).
  rewrite Hx1 in H3. rewrite Hx2 in H4. injection H3 as H3. injection H4 as H4.
  exists sy1, sy2, x1, x2. split; [exists (fresh_system diverging_times); split; [apply fresh_initial|];
    by eapply acts_steps|]. split; [by eapply acts_steps|].
  split; [done|]. split; [done|]. split; [congruence|]. rewrite <-O1, <-O2. vm_compute. done.
Qed.
