(* ===== verification/AnchoredPatch.v ===== *)
(** * Hash-anchored patches, and what an accepted patch does *)

From stdpp Require Import gmap.
From S2P Require Import Prelude Str Sorting TraceIds.
From Stdlib Require Import Sorted.

#[local] Arguments s : simpl never.

(** ** Hash-anchored line patches

    [files/src/anchored.rs]: a file is read with an anchor per line, and edits
    name the lines they change by anchor.  The vector operations of the source
    panic out of range; here they return [None], so that the absence of panics
    is a theorem. *)

Definition ANCHOR_HASH_LEN : nat := 8.

Record AnchoredLine : Type := mkAnchoredLine { al_line_no : Z; al_hash : str; al_text : str }.
Definition anchor_text (line_no : Z) (hash : str) : str := show_uint line_no ++ s":" ++ hash.
Definition anchor (l : AnchoredLine) : str := anchor_text (al_line_no l) (al_hash l).

Inductive PatchOp : Type := Replace | Append | Prepend.
#[global] Instance patch_op_eq_dec : EqDecision PatchOp.
Proof. solve_decision. Defined.
Definition parse_op (x : str) : option PatchOp :=
  if x =s s"replace" then Some Replace
  else if x =s s"append" then Some Append
  else if x =s s"prepend" then Some Prepend
  else None.
Definition op_as_str (op : PatchOp) : str :=
  match op with Replace => s"replace" | Append => s"append" | Prepend => s"prepend" end.

Record PatchEdit : Type := mkPatchEdit {
  pe_op : PatchOp;
  pe_anchor_line : Z;
  pe_anchor_hash : str;
  pe_lines : list str;
}.
Record RawPatchEdit : Type := mkRawPatchEdit { raw_op : str; raw_anchor : str; raw_lines_of : list str }.
Record AnchorRemap : Type := mkAnchorRemap { stale_anchor : str; current_anchor : str }.
Record PatchOutcome : Type := mkPatchOutcome {
  po_new_text : str;
  po_new_base_sha256 : str;
  po_applied : Z;
}.
Record PatchLimits : Type := mkPatchLimits {
  max_edits : Z;
  max_patch_bytes : Z;
  max_result_bytes : Z;
}.

Inductive AnchoredPatchError : Type :=
| EmptyEdits
| AnchorInvalid (anchor : str)
| AnchorNotFound (anchor : str)
| BaseMismatch (expected actual : str)
| AnchorStale (anchor : str) (remaps : list AnchorRemap) (current_base : str)
| OverlappingEdits (line_no : Z)
| TooManyEdits (count limit : Z)
| PatchTooLarge (size limit : Z)
| ResultTooLarge (size limit : Z).

Definition CR : char := 13.
Definition LF : char := 10.

(** ** Vectors *)

Definition vec_insert {A} (i : nat) (x : A) (l : list A) : option (list A) :=
  if (i <=? length l)%nat then Some (take i l ++ x :: drop i l) else None.
(** [remove(i)], [l\[i\] = x] and [splice(i..=i, xs)]: the element replaced by
    none, one or several. *)
Definition vec_splice {A} (i : nat) (xs : list A) (l : list A) : option (list A) :=
  if (i <? length l)%nat then Some (take i l ++ xs ++ drop (S i) l) else None.
(** [for (offset, x) in xs.iter().enumerate() { l.insert(i + offset, x) }]. *)
Fixpoint vec_insert_all {A} (i : nat) (xs : list A) (l : list A) : option (list A) :=
  match xs with
  | [] => Some l
  | x :: xs => l ← vec_insert i x l; vec_insert_all (S i) xs l
  end.

Section patch.
Context `{Sha256}.

Definition line_hash (line_no : Z) (text : str) : str :=
  take ANCHOR_HASH_LEN (sha256_hex (show_uint line_no ++ s":" ++ text)).
Definition anchor_for (line_no : Z) (text : str) : str :=
  anchor_text line_no (line_hash line_no text).
Definition parse_anchor (x : str) : option (Z * str) :=
  '(line, hash) ← split_once 58 x;
  line_no ← parse_usize line;
  if (line_no =? 0)%Z || negb (str_len hash =? Z.of_nat ANCHOR_HASH_LEN)%Z then None
  else if negb (forallb is_ascii_hexdigit hash) then None
  else Some (line_no, to_ascii_lowercase hash).

Definition strip_cr (line : str) : str := default line (strip_suffix [CR] line).
Definition split_lines (text : str) : list str := map strip_cr (split_char LF text).
Definition base_sha256 (text : str) : str := sha256_hex text.

Definition annotate_line (index : nat) (text : str) : AnchoredLine :=
  let line_no := (Z.of_nat index + 1)%Z in mkAnchoredLine line_no (line_hash line_no text) text.
Definition annotate (text : str) : list AnchoredLine := imap annotate_line (split_lines text).
Definition read_window (text : str) (offset limit : nat) : str * list AnchoredLine :=
  let start := Nat.max offset 1 in
  (base_sha256 text, take limit (drop (start - 1) (annotate text))).

Definition parse_edit (item : RawPatchEdit) : result AnchoredPatchError PatchEdit :=
  op ← ok_or (parse_op (raw_op item)) (AnchorInvalid (raw_anchor item));
  '(line_no, hash) ← ok_or (parse_anchor (raw_anchor item)) (AnchorInvalid (raw_anchor item));
  Ok (mkPatchEdit op line_no hash (raw_lines_of item)).
Definition parse_edits (raw : list RawPatchEdit) : result AnchoredPatchError (list PatchEdit) :=
  match raw with [] => Err EmptyEdits | _ => traverse parse_edit raw end.

Definition z_sum (l : list Z) : Z := foldr Z.add 0%Z l.
Definition payload_bytes (edits : list PatchEdit) : Z :=
  z_sum (map (λ e, z_sum (map str_len (pe_lines e))) edits).
Definition check_patch_limits (edits : list PatchEdit) (limits : PatchLimits) :
    result AnchoredPatchError () :=
  let count := Z.of_nat (length edits) in
  if (max_edits limits <? count)%Z then Err (TooManyEdits count (max_edits limits))
  else if (max_patch_bytes limits <? payload_bytes edits)%Z
  then Err (PatchTooLarge (payload_bytes edits) (max_patch_bytes limits))
  else Ok ().

(** The check of one anchor: the lines that were replaced so far. *)
Definition check_anchor (actual_base : str) (by_line : gmap Z AnchoredLine) (replace_seen : gset Z)
    (edit : PatchEdit) : result AnchoredPatchError (gset Z) :=
  let name := anchor_text (pe_anchor_line edit) (pe_anchor_hash edit) in
  match by_line !! pe_anchor_line edit with
  | None => Err (AnchorNotFound name)
  | Some current =>
      if negb (al_hash current =s pe_anchor_hash edit)
      then Err (AnchorStale name [mkAnchorRemap name (anchor current)] actual_base)
      else if bool_decide (pe_op edit = Replace) then
        if bool_decide (pe_anchor_line edit ∈ replace_seen)
        then Err (OverlappingEdits (pe_anchor_line edit))
        else Ok ({[pe_anchor_line edit]} ∪ replace_seen)
      else Ok replace_seen
  end.

Definition op_order (op : PatchOp) : Z :=
  match op with Append => 0 | Replace => 1 | Prepend => 2 end.
Definition edit_key (e : PatchEdit) : Z * Z := (pe_anchor_line e, op_order (pe_op e)).
Definition key_cmp : Z * Z → Z * Z → comparison := lex (rev_cmp Z.compare) Z.compare.

Definition apply_edit (lines : list str) (edit : PatchEdit) : option (list str) :=
  let index := Z.to_nat (pe_anchor_line edit - 1) in
  match pe_op edit with
  | Replace => vec_splice index (pe_lines edit) lines
  | Append => vec_insert_all (index + 1) (pe_lines edit) lines
  | Prepend => vec_insert_all index (pe_lines edit) lines
  end.
Fixpoint apply_edits (lines : list str) (edits : list PatchEdit) : option (list str) :=
  match edits with
  | [] => Some lines
  | e :: edits => lines ← apply_edit lines e; apply_edits lines edits
  end.

Definition crlf_at (text : str) (index : nat) (c : char) : bool :=
  if (c =? LF)%Z then (0 <? index)%nat && bool_decide (text !! (index - 1)%nat = Some CR)
  else if (c =? CR)%Z then bool_decide (text !! (index + 1)%nat = Some LF)
  else true.
Definition uniform_crlf (text : str) : bool :=
  if negb (contains_char text CR) || negb (contains_char text LF) then false
  else forallb id (imap (crlf_at text) text).
Definition join_lines (base_text : str) (lines : list str) : str :=
  if uniform_crlf base_text then join [CR; LF] lines else join [LF] lines.

(** What is checked before a line changes: the digest of the file. *)
Definition check_patch (base_text : str) (expected_base : option str) (edits : list PatchEdit)
    (limits : PatchLimits) : result AnchoredPatchError () :=
  _ ← (match edits with [] => Err EmptyEdits | _ => Ok () end);
  _ ← check_patch_limits edits limits;
  let actual_base := base_sha256 base_text in
  _ ← (match expected_base with
       | Some expected =>
           if to_ascii_lowercase expected =s actual_base then Ok ()
           else Err (BaseMismatch expected actual_base)
       | None => Ok ()
       end);
  let by_line : gmap Z AnchoredLine :=
    list_to_map (map (λ l, (al_line_no l, l)) (annotate base_text)) in
  _ ← foldM (check_anchor actual_base by_line) ∅ edits;
  Ok ().

(** [apply_anchored_patch]; [None] is a panic. *)
Definition apply_anchored_patch (base_text : str) (expected_base : option str)
    (edits : list PatchEdit) (limits : PatchLimits) : option (result AnchoredPatchError PatchOutcome) :=
  match check_patch base_text expected_base edits limits with
  | Err e => Some (Err e)
  | Ok _ =>
      let lines := map al_text (annotate base_text) in
      let ordered := sort_by (λ l r, key_cmp (edit_key l) (edit_key r)) edits in
      lines ← apply_edits lines ordered;
      let new_text := join_lines base_text lines in
      Some (if (max_result_bytes limits <? str_len new_text)%Z
            then Err (ResultTooLarge (str_len new_text) (max_result_bytes limits))
            else Ok (mkPatchOutcome new_text (base_sha256 new_text) (Z.of_nat (length edits))))
  end.
End patch.

(** ** Hash-anchored patches: what an accepted patch does

    The edits are applied bottom-up in one sorted pass; the reference
    definition rewrites each line of the snapshot on its own. *)

(** ** The reference *)

(** The edits of one kind that name line [n]. *)
Definition edits_on (n : Z) (op : PatchOp) (edits : list PatchEdit) : list PatchEdit :=
  filter (λ e, pe_anchor_line e = n ∧ pe_op e = op) edits.
(** One line of the snapshot: later insertions at the same place come first. *)
Definition inserted (es : list PatchEdit) : list str := concat (reverse (map pe_lines es)).
Definition patched_line (edits : list PatchEdit) (n : Z) (text : str) : list str :=
  inserted (edits_on n Prepend edits)
  ++ match edits_on n Replace edits with e :: _ => pe_lines e | [] => [text] end
  ++ inserted (edits_on n Append edits).
Definition patched_lines (edits : list PatchEdit) (lines : list str) : list str :=
  concat (imap (λ i text, patched_line edits (Z.of_nat i + 1) text) lines).

Section spec.
Context `{Sha256}.

Record patch_accepted (base_text : str) (expected : option str) (edits : list PatchEdit)
    (limits : PatchLimits) : Prop := {
  pa_some : edits ≠ [];
  pa_count : (Z.of_nat (length edits) ≤ max_edits limits)%Z;
  pa_payload : (payload_bytes edits ≤ max_patch_bytes limits)%Z;
  pa_base : ∀ e, expected = Some e → to_ascii_lowercase e = sha256_hex base_text;
  pa_fresh : Forall (λ e, ∃ i text,
    pe_anchor_line e = (Z.of_nat i + 1)%Z ∧ split_lines base_text !! i = Some text ∧
    pe_anchor_hash e = line_hash (pe_anchor_line e) text) edits;
  pa_once : NoDup (map pe_anchor_line (filter (λ e, pe_op e = Replace) edits));
}.

(** ** Vectors *)

Lemma vec_insert_all_app {A} (xs L T : list A) :
  vec_insert_all (length L) xs (L ++ T) = Some (L ++ xs ++ T).
Proof.
  revert L. induction xs as [|x xs IH]; intros L; [done|]. cbn [vec_insert_all]. unfold vec_insert.
  destruct (Nat.leb_spec (length L) (length (L ++ T))) as [_|Hl]; [|rewrite length_app in Hl; lia].
  cbn [mbind option_bind]. rewrite take_app_length, drop_app_length.
  change (L ++ x :: T) with (L ++ [x] ++ T). rewrite app_assoc.
  replace (S (length L)) with (length (L ++ [x])) by (rewrite length_app; cbn; lia).
  rewrite IH. by rewrite <-!app_assoc.
Qed.
Lemma vec_splice_app {A} (xs : list A) L x T :
  vec_splice (length L) xs (L ++ x :: T) = Some (L ++ xs ++ T).
Proof.
  unfold vec_splice. destruct (Nat.ltb_spec (length L) (length (L ++ x :: T))) as [_|Hl];
    [|rewrite length_app in Hl; cbn in Hl; lia].
  rewrite take_app_length. change (x :: T) with ([x] ++ T). rewrite (app_assoc L [x] T).
  replace (S (length L)) with (length (L ++ [x])) by (rewrite length_app; cbn; lia).
  by rewrite drop_app_length.
Qed.

Lemma apply_edits_app l a b :
  apply_edits l (a ++ b) = apply_edits l a ≫= λ l, apply_edits l b.
Proof.
  revert l. induction a as [|e a IH]; intros l; [done|]. cbn. destruct (apply_edit l e); cbn; [apply IH|done].
Qed.

(** Edits that insert after [P]. *)
Lemma apply_inserts P T es :
  (∀ T e, e ∈ es → apply_edit (P ++ T) e = Some (P ++ pe_lines e ++ T)) →
  apply_edits (P ++ T) es = Some (P ++ inserted es ++ T).
Proof.
  revert T. unfold inserted. induction es as [|e es IH]; intros T Hes; [done|].
  cbn [apply_edits map]. rewrite Hes by by left. cbn [mbind option_bind].
  rewrite IH by (intros T' e' He'; apply Hes; by right).
  rewrite reverse_cons, concat_app. cbn [concat]. by rewrite app_nil_r, <-app_assoc.
Qed.

(** ** One line *)

#[local] Instance key_cmp_total : TotalCmp key_cmp.
Proof. unfold key_cmp. apply _. Qed.

Lemma edits_on_elem n op edits e : e ∈ edits_on n op edits → pe_anchor_line e = n ∧ pe_op e = op.
Proof. unfold edits_on. rewrite list_elem_of_filter. naive_solver. Qed.
Lemma edits_on_key n op edits :
  List.filter (has_key edit_key key_cmp (n, op_order op)) edits = edits_on n op edits.
Proof.
  unfold edits_on. induction edits as [|e edits IH]; [done|]. cbn [List.filter].
  rewrite filter_cons, IH.
  assert (Hk : has_key edit_key key_cmp (n, op_order op) e = true
    ↔ pe_anchor_line e = n ∧ pe_op e = op).
  { rewrite (has_key_eq edit_key key_cmp). unfold edit_key. rewrite pair_equal_spec.
    assert (op_order (pe_op e) = op_order op ↔ pe_op e = op) as ->; [|done].
    split; [|by intros ->]. by destruct (pe_op e), op. }
  destruct (has_key _ _ _ e), (decide _) as [Hd|Hd]; try done; naive_solver.
Qed.

Lemma apply_line edits L x T :
  length (edits_on (Z.of_nat (length L) + 1) Replace edits) ≤ 1 →
  let n := (Z.of_nat (length L) + 1)%Z in
  apply_edits (L ++ x :: T)
    (edits_on n Append edits ++ edits_on n Replace edits ++ edits_on n Prepend edits)
  = Some (L ++ patched_line edits n x ++ T).
Proof.
  intros Hone n. assert (Hi : Z.to_nat (n - 1) = length L) by (unfold n; lia).
  rewrite apply_edits_app. change (x :: T) with ([x] ++ T). rewrite app_assoc, apply_inserts.
  2:{ intros T' e [Hn Hop]%edits_on_elem. unfold apply_edit. rewrite Hop, Hn, Hi.
      replace (length L + 1) with (length (L ++ [x])) by (rewrite length_app; cbn; lia).
      apply vec_insert_all_app. }
  cbn [mbind option_bind]. rewrite apply_edits_app, <-!app_assoc. cbn [app].
  assert (Hrep : ∀ T', apply_edits (L ++ x :: T') (edits_on n Replace edits)
    = Some (L ++ match edits_on n Replace edits with e :: _ => pe_lines e | [] => [x] end ++ T')).
  { intros T'. pose proof (edits_on_elem n Replace edits) as He. fold n in Hone.
    destruct (edits_on n Replace edits) as [|e [|? ?]]; [done| |cbn in Hone; lia].
    destruct (He e ltac:(by left)) as [Hn Hop]. cbn. unfold apply_edit. rewrite Hop, Hn, Hi.
    by rewrite vec_splice_app. }
  rewrite Hrep. cbn [mbind option_bind]. unfold patched_line. rewrite <-!app_assoc.
  apply apply_inserts. intros T' e [Hn Hop]%edits_on_elem. unfold apply_edit. rewrite Hop, Hn, Hi.
  apply vec_insert_all_app.
Qed.

(** ** All lines *)

(** The keys of a file of [n] lines, in the order of the pass. *)
Fixpoint keys (n : nat) : list (Z * Z) :=
  match n with
  | O => []
  | S m => [(Z.of_nat n, 0%Z); (Z.of_nat n, 1%Z); (Z.of_nat n, 2%Z)] ++ keys m
  end.
Lemma keys_elem n l o : (l, o) ∈ keys n ↔ (1 ≤ l ≤ Z.of_nat n)%Z ∧ (0 ≤ o ≤ 2)%Z.
Proof.
  induction n as [|n IH]; cbn -[Z.of_nat]; [rewrite elem_of_nil; lia|].
  rewrite !elem_of_cons, IH, !pair_equal_spec. lia.
Qed.
Lemma key_cmp_line a b a' b' : (a' < a)%Z → key_cmp (a, b) (a', b') = Lt.
Proof. intros Hl. unfold key_cmp, lex, rev_cmp. cbn. by rewrite (proj2 (Z.compare_lt_iff a' a)). Qed.
Lemma keys_sorted n : StronglySorted (λ a b, key_cmp a b = Lt) (keys n).
Proof.
  induction n as [|n IH]; [constructor|].
  assert (Hn : ∀ o, Forall (λ b, key_cmp (Z.of_nat (S n), o) b = Lt) (keys n)).
  { intros o. apply Forall_forall. intros [l o'] [Hl _]%keys_elem. apply key_cmp_line. lia. }
  assert (He : ∀ o o', (o < o')%Z → key_cmp (Z.of_nat (S n), o) (Z.of_nat (S n), o') = Lt).
  { intros o o' Ho. unfold key_cmp, lex, rev_cmp. cbn -[Z.of_nat].
    rewrite Z.compare_refl. by apply Z.compare_lt_iff. }
  cbn -[Z.of_nat]. repeat constructor; try done; apply He; lia.
Qed.

Lemma patched_lines_snoc edits L x :
  patched_lines edits (L ++ [x])
  = patched_lines edits L ++ patched_line edits (Z.of_nat (length L) + 1) x.
Proof.
  unfold patched_lines. rewrite imap_app, concat_app. cbn. by rewrite Nat.add_0_r, app_nil_r.
Qed.

Lemma apply_groups edits L T :
  (∀ n, length (edits_on n Replace edits) ≤ 1) →
  apply_edits (L ++ T) (concat (map (λ k, List.filter (has_key edit_key key_cmp k) edits)
                                  (keys (length L))))
  = Some (patched_lines edits L ++ T).
Proof.
  intros Hone. revert T. induction L as [|x L IH] using rev_ind; intros T; [done|].
  rewrite length_app, Nat.add_comm. cbn [length Nat.add keys app map concat].
  replace (Z.of_nat (S (length L))) with (Z.of_nat (length L) + 1)%Z by lia.
  change 0%Z with (op_order Append) at 1. change 1%Z with (op_order Replace) at 3.
  change 2%Z with (op_order Prepend) at 1. rewrite !edits_on_key, <-app_assoc.
  rewrite (app_assoc (edits_on _ Append _)), (app_assoc (_ ++ _)).
  rewrite apply_edits_app, <-(app_assoc (edits_on _ Append _)). cbn [app].
  rewrite apply_line by apply Hone. cbn [mbind option_bind]. rewrite IH.
  by rewrite patched_lines_snoc, <-app_assoc.
Qed.

(** ** The checks *)

Lemma annotate_text text : map al_text (annotate text) = split_lines text.
Proof.
  unfold annotate. change (map al_text) with (fmap (M := list) al_text). rewrite fmap_imap.
  rewrite (imap_ext _ (const id)) by done. by rewrite imap_const, list_fmap_id.
Qed.

Lemma by_line_lookup text n l :
  (list_to_map (map (λ l, (al_line_no l, l)) (annotate text)) : gmap Z AnchoredLine) !! n = Some l
  ↔ ∃ i x, n = (Z.of_nat i + 1)%Z ∧ split_lines text !! i = Some x ∧ l = annotate_line i x.
Proof.
  assert (Hin : ∀ n l, (n, l) ∈ map (λ l, (al_line_no l, l)) (annotate text)
    ↔ ∃ i x, n = (Z.of_nat i + 1)%Z ∧ split_lines text !! i = Some x ∧ l = annotate_line i x).
  { intros n' l'. rewrite list_elem_of_fmap. unfold annotate. split.
    - intros (l0 & [= -> ->] & Hl). apply elem_of_lookup_imap in Hl as (i & x & -> & Hx). by exists i, x.
    - intros (i & x & -> & Hx & ->). exists (annotate_line i x). split; [done|].
      by apply elem_of_lookup_imap_2. }
  rewrite <-Hin. split; [apply elem_of_list_to_map_2|]. intros Hl. apply elem_of_list_to_map_1'; [|done].
  intros l' Hl'. apply Hin in Hl as (i & x & Hi & Hx & ->), Hl' as (j & y & Hj & Hy & ->).
  assert (i = j) as <- by lia. congruence.
Qed.

Definition replaced (edits : list PatchEdit) : list Z :=
  map pe_anchor_line (filter (λ e, pe_op e = Replace) edits).
Definition fresh_anchor (base_text : str) (e : PatchEdit) : Prop :=
  ∃ i text, pe_anchor_line e = (Z.of_nat i + 1)%Z ∧ split_lines base_text !! i = Some text ∧
    pe_anchor_hash e = line_hash (pe_anchor_line e) text.

Lemma check_anchor_Ok base text seen e seen' :
  check_anchor base (list_to_map (map (λ l, (al_line_no l, l)) (annotate text))) seen e = Ok seen' ↔
  fresh_anchor text e ∧
  (pe_op e = Replace → pe_anchor_line e ∉ seen) ∧
  seen' = list_to_set (replaced [e]) ∪ seen.
Proof.
  unfold check_anchor, fresh_anchor, replaced. rewrite filter_cons, filter_nil.
  destruct (_ !! pe_anchor_line e) as [l|] eqn:El.
  - apply by_line_lookup in El as (i & x & Hn & Hx & ->). cbn [al_hash annotate_line].
    destruct (str_eqb_spec (line_hash (Z.of_nat i + 1) x) (pe_anchor_hash e)) as [Hh|Hh]; cbn [negb].
    + assert (Hf : ∃ i0 text0, pe_anchor_line e = (Z.of_nat i0 + 1)%Z ∧
        split_lines text !! i0 = Some text0 ∧ pe_anchor_hash e = line_hash (pe_anchor_line e) text0)
        by (exists i, x; rewrite Hn; done).
      case_bool_decide as Ho; [rewrite decide_True by done; case_bool_decide as Hs |
        rewrite decide_False by done].
      * split; [done|]. intros (_ & Hns & _). by destruct (Hns Ho).
      * assert (list_to_set (map pe_anchor_line [e]) ∪ seen = {[pe_anchor_line e]} ∪ seen) as ->
          by (cbn [map list_to_set]; set_solver). split; [intros [= <-]; split_and!; done | by intros (_ & _ & ->)].
      * assert (list_to_set (map pe_anchor_line []) ∪ seen = seen) as ->
          by (cbn [map list_to_set]; set_solver). split; [intros [= <-]; split_and!; done | by intros (_ & _ & ->)].
    + split; [done|]. intros [(j & y & Hj & Hy & Hhash) _]. exfalso.
      assert (i = j) as <- by lia. rewrite Hx in Hy. injection Hy as <-. rewrite Hn in Hhash. congruence.
  - split; [done|]. intros [(j & y & Hj & Hy & _) _]. exfalso.
    assert (Hl : (list_to_map (map (λ l, (al_line_no l, l)) (annotate text)) : gmap Z AnchoredLine)
      !! pe_anchor_line e = Some (annotate_line j y)) by (apply by_line_lookup; eauto).
    congruence.
Qed.
Lemma check_anchors_Ok base text seen edits :
  is_ok (foldM (check_anchor base (list_to_map (map (λ l, (al_line_no l, l)) (annotate text))))
           seen edits) = true ↔
  Forall (fresh_anchor text) edits ∧ NoDup (replaced edits) ∧ (∀ n, n ∈ replaced edits → n ∉ seen).
Proof.
  revert seen. induction edits as [|e edits IH]; intros seen; cbn [foldM].
  { cbn. split; [|done]. intros _. split_and!; [done | constructor | by intros ? ?%not_elem_of_nil]. }
  rewrite Forall_cons.
  destruct (check_anchor _ _ _ _) as [seen'|err] eqn:Ec; cbn [mbind result_bind is_ok].
  - apply check_anchor_Ok in Ec as (Hf & Hn & ->). rewrite IH. clear IH. revert Hn.
    unfold replaced. rewrite !filter_cons, filter_nil. destruct (decide _) as [Ho|Ho]; cbn; intros Hn.
    + rewrite NoDup_cons. set_solver.
    + set_solver.
  - split; [done|]. intros ((Hf & _) & Hnd & Hs). exfalso.
    assert (check_anchor base (list_to_map (map (λ l, (al_line_no l, l)) (annotate text))) seen e
      = Ok (list_to_set (replaced [e]) ∪ seen)) as Hok; [|congruence].
    apply check_anchor_Ok. split_and!; [done | | done]. intros Ho. apply Hs. unfold replaced.
    rewrite filter_cons_True by done. by left.
Qed.

Lemma check_patch_Ok base_text expected edits limits :
  check_patch base_text expected edits limits = Ok () ↔
  patch_accepted base_text expected edits limits.
Proof.
  unfold check_patch, check_patch_limits. destruct edits as [|e edits]; [split; [done|by intros []]|].
  assert (Hne : e :: edits ≠ []) by done. set (es := e :: edits) in *. clearbody es. cbn [mbind result_bind].
  destruct (Z.ltb_spec (max_edits limits) (Z.of_nat (length es))) as [Hc|Hc].
  { split; [done|]. intros []. lia. }
  destruct (Z.ltb_spec (max_patch_bytes limits) (payload_bytes es)) as [Hp|Hp].
  { split; [done|]. intros []. lia. }
  cbn [mbind result_bind]. unfold base_sha256. set (chk := match expected with Some _ => _ | None => _ end).
  assert (Hb : chk = Ok () ↔ ∀ e, expected = Some e → to_ascii_lowercase e = sha256_hex base_text).
  { unfold chk. destruct expected as [x|]; [|by split].
    destruct (to_ascii_lowercase x =s sha256_hex base_text) eqn:Ex.
    - split; [|done]. intros _ ? [= <-]. by apply str_eqb_eq.
    - split; [done|]. intros Hx. specialize (Hx x eq_refl). apply str_eqb_eq in Hx. congruence. }
  pose proof (check_anchors_Ok (sha256_hex base_text) base_text ∅ es) as Ha.
  clearbody chk. destruct chk as [[]|err]; cbn [mbind result_bind].
  2:{ split; [done|]. intros [_ _ _ Hx _ _]. by apply Hb in Hx. }
  assert (Hx : ∀ e, expected = Some e → to_ascii_lowercase e = sha256_hex base_text) by (by apply Hb).
  destruct (foldM _ ∅ es); cbn [mbind result_bind is_ok] in *.
  - split; [|done]. intros _. destruct Ha as [(? & ? & _) _]; [done|]. by split.
  - split; [done|]. intros [_ _ _ _ Hf Ho]. destruct Ha as [_ Ha]. exfalso.
    discriminate Ha. split_and!; [done|done|set_solver].
Qed.
(** At most one replacement per line. *)
Lemma replaced_once edits n : NoDup (replaced edits) → length (edits_on n Replace edits) ≤ 1.
Proof.
  unfold replaced, edits_on. induction edits as [|e edits IH]; [intros _; rewrite filter_nil; cbn; lia|].
  rewrite !filter_cons. destruct (decide (pe_op e = Replace)) as [Ho|Ho]; cbn [map].
  - rewrite NoDup_cons. intros [Hn Hd]. destruct (decide _) as [[<- _]|]; [|by apply IH].
    cbn [length]. destruct (filter (λ e0, pe_anchor_line e0 = pe_anchor_line e ∧ _) edits)
      as [|e' rest] eqn:Ef; [cbn; lia|]. exfalso. apply Hn.
    assert (Hin : e' ∈ e' :: rest) by by left. rewrite <-Ef, list_elem_of_filter in Hin.
    destruct Hin as [[<- Ho'] Hin]. apply list_elem_of_fmap. exists e'. split; [done|].
    by apply list_elem_of_filter.
  - intros Hd. rewrite decide_False by naive_solver. by apply IH.
Qed.

Lemma ordered_applies base_text expected edits limits :
  patch_accepted base_text expected edits limits →
  apply_edits (split_lines base_text) (sort_by (λ l r, key_cmp (edit_key l) (edit_key r)) edits)
  = Some (patched_lines edits (split_lines base_text)).
Proof.
  intros Hacc. set (lines := split_lines base_text).
  destruct (sort_by_spec edit_key key_cmp edits) as [Hperm Hsorted].
  rewrite (sorted_groups edit_key key_cmp (keys (length lines)) _ Hsorted (keys_sorted _)).
  - rewrite <-(app_nil_r lines) at 1.
    erewrite map_ext by (intros k; apply (sort_by_filter edit_key key_cmp)).
    rewrite apply_groups; [by rewrite app_nil_r|]. intros n. apply replaced_once, (pa_once _ _ _ _ Hacc).
  - intros e He. rewrite Hperm in He. pose proof (pa_fresh _ _ _ _ Hacc) as Hf.
    rewrite Forall_forall in Hf. destruct (Hf e He) as (i & text & Hn & Hi & _).
    apply keys_elem. rewrite Hn. apply lookup_lt_Some in Hi. fold lines in Hi.
    split; [lia|]. destruct (pe_op e); cbn; lia.
Qed.

(** C24: a patch is applied as a whole or not at all, and line by line.  The call
    never panics.  It succeeds exactly when there are edits, they are within
    the limits, the pinned digest is that of the file, every anchor names an
    existing line by its current hash, no line is replaced twice and the result
    fits; then each line of the snapshot is rewritten on its own: the lines
    prepended to it, the line or its replacement, the lines appended to it. *)
Theorem anchored_patch_spec base_text expected edits limits :
  let new_text := join_lines base_text (patched_lines edits (split_lines base_text)) in
  ∃ r, apply_anchored_patch base_text expected edits limits = Some r ∧
  ∀ o, r = Ok o ↔
    patch_accepted base_text expected edits limits ∧
    (str_len new_text ≤ max_result_bytes limits)%Z ∧
    o = mkPatchOutcome new_text (sha256_hex new_text) (Z.of_nat (length edits)).
Proof.
  cbn zeta. unfold apply_anchored_patch.
  destruct (check_patch base_text expected edits limits) as [[]|e] eqn:Hc.
  - apply check_patch_Ok in Hc. rewrite annotate_text, (ordered_applies _ _ _ _ Hc). cbn [mbind option_bind].
    eexists. split; [reflexivity|]. intros o. destruct (Z.ltb_spec (max_result_bytes limits)
      (str_len (join_lines base_text (patched_lines edits (split_lines base_text))))) as [Hs|Hs].
    + split; [done|]. lia.
    + split; [intros [= <-]; split_and!; [done|lia|done] | by intros (_ & _ & ->)].
  - eexists. split; [reflexivity|]. intros o. split; [done|]. intros (Ha & _).
    apply check_patch_Ok in Ha. congruence.
Qed.

(** ** Line endings *)

Lemma elem_of_join sep ps (p : str) (c : char) : p ∈ ps → c ∈ p → c ∈ join sep ps.
Proof.
  intros Hp Hc. induction ps as [|q ps IH]; [by apply not_elem_of_nil in Hp|].
  destruct ps as [|r ps]; [by apply list_elem_of_singleton in Hp as <-|]. rewrite join_cons.
  apply elem_of_cons in Hp as [<-|Hp]; set_solver.
Qed.

Lemma strip_cr_free p : (∀ q, p ≠ q ++ [CR]) → strip_cr p = p.
Proof.
  intros Hp. unfold strip_cr. destruct (strip_suffix [CR] p) as [q|] eqn:E; [|done].
  apply strip_suffix_Some in E. by destruct (Hp q).
Qed.
Lemma strip_cr_snoc p : strip_cr (p ++ [CR]) = p.
Proof.
  unfold strip_cr. destruct (strip_suffix [CR] (p ++ [CR])) as [q|] eqn:E.
  - apply strip_suffix_Some in E. by apply app_inj_tail in E as [-> _].
  - exfalso. assert (strip_suffix [CR] (p ++ [CR]) = Some p) by (by apply strip_suffix_Some). congruence.
Qed.

Lemma uniform_at text i c : uniform_crlf text = true → text !! i = Some c → crlf_at text i c = true.
Proof.
  unfold uniform_crlf. case_if; [done|]. intros Hf Hi. rewrite forallb_forall in Hf.
  apply (Hf (crlf_at text i c)). apply list_elem_of_In. by apply elem_of_lookup_imap_2.
Qed.

Lemma uniform_join text ps A :
  uniform_crlf text = true → ps ≠ [] → text = A ++ join [LF] ps →
  Forall (λ p, LF ∉ p) ps → (A = [] ∨ ∃ A', A = A' ++ [LF]) →
  join [CR; LF] (map strip_cr ps) = join [LF] ps.
Proof.
  intros Hu Hne. revert A. induction ps as [|p ps IH]; intros A Htext Hfree HA; [done|].
  apply Forall_cons in Hfree as [Hp Hps]. destruct ps as [|q ps].
  - cbn. apply strip_cr_free. intros p' ->. cbn in Htext.
    assert (Hi : text !! length (A ++ p') = Some CR).
    { rewrite Htext, app_assoc. by apply list_lookup_middle. }
    pose proof (uniform_at _ _ _ Hu Hi) as Hc. unfold crlf_at in Hc. cbn in Hc.
    rewrite bool_decide_eq_true in Hc. apply lookup_lt_Some in Hc.
    rewrite Htext, !length_app in Hc. cbn in Hc. lia.
  - rewrite join_cons in Htext |- *. cbn [map]. rewrite join_cons.
    assert (Hi : text !! length (A ++ p) = Some LF).
    { rewrite Htext, app_assoc. by apply list_lookup_middle. }
    pose proof (uniform_at _ _ _ Hu Hi) as Hc. unfold crlf_at in Hc. cbn in Hc.
    apply andb_true_iff in Hc as [Hpos Hc]. rewrite bool_decide_eq_true in Hc.
    destruct p as [|c p' _] using rev_ind.
    { exfalso. rewrite app_nil_r in Hc, Hpos. destruct HA as [->|[A' ->]]; [done|].
      rewrite length_app in Hc. cbn in Hc. rewrite Nat.add_sub, Htext, <-app_assoc in Hc. cbn [app] in Hc.
      rewrite list_lookup_middle in Hc by done. done. }
    assert (c = CR) as ->.
    { rewrite app_assoc, length_app in Hc. cbn [length] in Hc. rewrite Nat.add_sub, Htext in Hc.
      rewrite <-app_assoc, (app_assoc A) in Hc. cbn in Hc.
      rewrite list_lookup_middle in Hc by done. congruence. }
    rewrite strip_cr_snoc, <-app_assoc. cbn [app]. do 3 f_equal.
    apply (IH ltac:(done) (A ++ (p' ++ [CR]) ++ [LF])); [|done|].
    + rewrite Htext. by rewrite <-!app_assoc.
    + right. exists (A ++ p' ++ [CR]). by rewrite <-!app_assoc.
Qed.

(** A patch keeps the line endings of the lines it does not touch: joining
    the lines of a file gives the file back if it has no carriage returns or
    every line ends in CRLF. *)
Theorem line_endings_kept text :
  uniform_crlf text = true ∨ CR ∉ text → join_lines text (split_lines text) = text.
Proof.
  unfold join_lines, split_lines. intros Ht. destruct (uniform_crlf text) eqn:Hu.
  - rewrite (uniform_join text (split_char LF text) []); try done.
    + apply join_split_char.
    + apply split_char_nonempty.
    + by rewrite join_split_char.
    + apply Forall_forall. apply split_char_sep_free.
    + by left.
  - destruct Ht as [|Hcr]; [done|]. transitivity (join [LF] (split_char LF text)); [|apply join_split_char].
    f_equal. rewrite <-(map_id (split_char LF text)) at 2. apply map_ext_in. intros p Hp.
    apply strip_cr_free. intros q ->. apply Hcr. apply list_elem_of_In in Hp.
    rewrite <-(join_split_char LF text). eapply elem_of_join; [exact Hp|]. set_solver.
Qed.
End spec.

(** ** From a reading to a patch *)

Lemma str_len_hex x : Forall (λ c, lower_hex c = true) x → str_len x = Z.of_nat (length x).
Proof.
  induction 1 as [|c x Hc _ IH]; [done|]. cbn [str_len length]. rewrite IH.
  unfold utf8_len. unfold lower_hex, is_ascii_digit in Hc. repeat case_if; lia.
Qed.
Lemma parse_usize_show n : (0 ≤ n ≤ USIZE_MAX)%Z → parse_usize (show_uint n) = Some n.
Proof.
  intros Hn. destruct (show_uint_spec n) as (Hd & Hv & _); [lia|]. unfold parse_usize, parse_uint.
  assert (Hbody : match show_uint n with c :: r => if (c =? 43)%Z then r else show_uint n | [] => [] end
    = show_uint n).
  { destruct Hd as [|c x Hc Hx]; [done|]. unfold is_ascii_digit in Hc. case_if; [lia|done]. }
  rewrite Hbody, Hv. case_if; [done|lia].
Qed.

Section reading.
Context `{Sha256Laws}.

Lemma line_hash_form n text : hex_id ANCHOR_HASH_LEN (line_hash n text).
Proof.
  unfold line_hash. destruct (sha256_form (show_uint n ++ s":" ++ text)) as [Hl Hf]. split.
  - rewrite length_take, Hl. done.
  - by apply Forall_take.
Qed.
Lemma parse_anchor_text n h :
  (1 ≤ n ≤ USIZE_MAX)%Z → hex_id ANCHOR_HASH_LEN h → parse_anchor (anchor_text n h) = Some (n, h).
Proof.
  intros Hn [Hl Hh]. unfold parse_anchor, anchor_text.
  assert (split_once 58 (show_uint n ++ s":" ++ h) = Some (show_uint n, h)) as ->.
  { apply split_once_Some. split; [done|]. destruct (show_uint_spec n) as (Hd & _); [lia|].
    rewrite Forall_forall in Hd. intros Hc%Hd. done. }
  cbn [mbind option_bind]. rewrite parse_usize_show by lia. cbn [mbind option_bind].
  rewrite str_len_hex, Hl, Z.eqb_refl by done. rewrite (proj2 (Z.eqb_neq n 0)) by lia. cbn [orb negb].
  assert (forallb is_ascii_hexdigit h = true) as ->.
  { apply forallb_forall. intros c Hc%list_elem_of_In. rewrite Forall_forall in Hh.
    by apply lower_hex_hexdigit, Hh. }
  cbn [negb]. by rewrite lower_hex_lower.
Qed.

Lemma parse_op_as_str op : parse_op (op_as_str op) = Some op.
Proof. by destruct op. Qed.

(** A wish: what to do with a line that was read. *)
Definition raw_of (wish : PatchOp * AnchoredLine * list str) : RawPatchEdit :=
  mkRawPatchEdit (op_as_str wish.1.1) (anchor wish.1.2) wish.2.
Definition edit_of (wish : PatchOp * AnchoredLine * list str) : PatchEdit :=
  mkPatchEdit wish.1.1 (al_line_no wish.1.2) (al_hash wish.1.2) wish.2.

Lemma replaced_wishes ws :
  map pe_anchor_line (filter (λ e, pe_op e = Replace) (map edit_of ws))
  = map (λ w, al_line_no w.1.2) (filter (λ w, w.1.1 = Replace) ws).
Proof.
  induction ws as [|w ws IH]; [done|]. cbn [map]. rewrite !filter_cons. cbn [pe_op edit_of].
  destruct (decide _); [|done]. cbn [map]. by rewrite IH.
Qed.
Lemma parse_raw w i x :
  w.1.2 = annotate_line i x → (Z.of_nat i + 1 ≤ USIZE_MAX)%Z → parse_edit (raw_of w) = Ok (edit_of w).
Proof.
  destruct w as [[op l] new]. cbn [fst snd]. intros -> Hi. unfold parse_edit, raw_of, edit_of.
  cbn [raw_op raw_anchor raw_lines_of fst snd]. rewrite parse_op_as_str. cbn [ok_or mbind result_bind].
  unfold anchor. rewrite parse_anchor_text; [done|cbn [al_line_no annotate_line]; lia|].
  apply line_hash_form.
Qed.

Lemma annotate_elem text l : l ∈ annotate text →
  ∃ i x, split_lines text !! i = Some x ∧ l = annotate_line i x.
Proof. unfold annotate. rewrite elem_of_lookup_imap. naive_solver. Qed.

(** What was read can be patched.  Edits written with the anchors and the
    digest that a reading of the file returned, replacing no line twice and
    within the limits, are parsed back and accepted as long as the file has
    not changed. *)
Theorem read_then_patch text offset limit wishes limits :
  let '(base, window) := read_window text offset limit in
  wishes ≠ [] → Forall (λ w, w.1.2 ∈ window) wishes →
  (Z.of_nat (length (split_lines text)) ≤ USIZE_MAX)%Z →
  NoDup (map (λ w, al_line_no w.1.2) (filter (λ w, w.1.1 = Replace) wishes)) →
  (Z.of_nat (length wishes) ≤ max_edits limits)%Z →
  (payload_bytes (map edit_of wishes) ≤ max_patch_bytes limits)%Z →
  parse_edits (map raw_of wishes) = Ok (map edit_of wishes) ∧
  patch_accepted text (Some base) (map edit_of wishes) limits.
Proof.
  cbn. intros Hne Hin Hlen Hdup Hcount Hpay.
  assert (Hw : ∀ w, w ∈ wishes → ∃ i x, split_lines text !! i = Some x ∧ w.1.2 = annotate_line i x).
  { intros w Hw. rewrite Forall_forall in Hin. specialize (Hin w Hw). apply annotate_elem.
    apply elem_of_take in Hin as (i & Hin & _). rewrite lookup_drop in Hin. by eapply list_elem_of_lookup_2. }
  split.
  - unfold parse_edits. transitivity (traverse parse_edit (map raw_of wishes)); [by destruct wishes|].
    clear Hne Hin Hdup Hcount Hpay. revert Hw. generalize wishes. clear wishes. intros ws Hw.
    induction ws as [|w ws IH]; [done|]. cbn [map traverse].
    destruct (Hw w ltac:(by left)) as (i & x & Hi & Hl). apply lookup_lt_Some in Hi.
    rewrite (parse_raw w i x) by (done || lia). cbn [mbind result_bind].
    by rewrite IH by (intros w' Hw'; apply Hw; by right).
  - split.
    + by destruct wishes.
    + by rewrite length_map.
    + done.
    + intros e [= <-]. apply lower_hex_lower, sha256_form.
    + apply Forall_forall. intros e (w & -> & Hw')%list_elem_of_fmap.
      destruct (Hw w Hw') as (i & x & Hi & Hl). exists i, x. unfold edit_of. by rewrite Hl.
    + by rewrite replaced_wishes.
Qed.
End reading.

(** ** A concrete file *)

#[local] Instance demo_digest : Sha256 := {
  sha256_hex x :=
    let h := hex16 (foldl fnv_step 0%Z x) in h ++ h ++ h ++ h }.
#[local] Instance demo_digest_laws : Sha256Laws.
Proof.
  split. intros x. cbn [sha256_hex demo_digest]. destruct (hex16_id (foldl fnv_step 0%Z x)) as [Hl Hf].
  split; [by rewrite !length_app, Hl | by repeat apply Forall_app_2].
Qed.

Definition demo_text : str := s"one" ++ [CR; LF] ++ s"two" ++ [CR; LF] ++ s"three".
Definition demo_patch_limits : PatchLimits := mkPatchLimits 8 100 100.
(** The second line is replaced, and a line is put before it. *)
Definition demo_wishes : list (PatchOp * AnchoredLine * list str) :=
  [ (Replace, annotate_line 1 (s"two"), [s"2"]); (Prepend, annotate_line 1 (s"two"), [s"1.5"]) ].

Example demo_patch :
  (λ r, match r with Ok o => po_new_text o | Err _ => [] end)
    <$> apply_anchored_patch demo_text (Some (base_sha256 demo_text)) (map edit_of demo_wishes)
          demo_patch_limits
  = Some (s"one" ++ [CR; LF] ++ s"1.5" ++ [CR; LF] ++ s"2" ++ [CR; LF] ++ s"three").
Proof. vm_compute. reflexivity. Qed.

Lemma line_endings_kept_witness : join_lines demo_text (split_lines demo_text) = demo_text.
Proof. apply (line_endings_kept demo_text). left. vm_compute. reflexivity. Defined.

Lemma read_then_patch_witness :
  parse_edits (map raw_of demo_wishes) = Ok (map edit_of demo_wishes) ∧
  patch_accepted demo_text (Some (base_sha256 demo_text)) (map edit_of demo_wishes) demo_patch_limits.
Proof.
  apply (read_then_patch demo_text 2 1 demo_wishes demo_patch_limits).
  - discriminate.
  - repeat constructor.
  - vm_compute. discriminate.
  - vm_compute. repeat constructor. apply not_elem_of_nil.
  - vm_compute. discriminate.
  - vm_compute. discriminate.
Defined.
