(* ===== verification/Graph.v ===== *)
(** * The flow graph

    [crates/contract/src/graph/{types,build,refs}.rs] with the node types of
    [manifest/nodes.rs]: implicit dependencies of a flow, validation of
    references, topological order, and the decision whether a node runs or is
    skipped.  The fields of [Manifest], [NodeDef] and [RetryPolicy] that neither the
    graph nor the run loop reads are left out. *)

From S2P Require Import Prelude Str BMap Json Serde.

Inductive OnDeps : Type := AllSucceeded | AnySucceeded | NoneFailed.
Inductive ExhaustedAction : Type := ExFail | ExRoute (to : str) | ExAskUser (title : option str) (fields : list value).
Inductive OnFail : Type :=
| Repair (repair recheck : str) (max_attempts : Z) (on_exhausted : ExhaustedAction)
| Regenerate (max_attempts : Z) (on_exhausted : ExhaustedAction)
| AskUser
| Route (to : str)
| FailNode.

(** A [toml::Value]: only strings are read. *)
Inductive toml_value : Type := TomlString (x : str) | TomlOther.

(** [RetryPolicy] of [manifest/resources.rs]. *)
Record RetryPolicy : Type := mkRetryPolicy {
  rp_max_attempts : Z;
  rp_backoff_ms : Z;
  rp_timeout_secs : option Z;
  rp_on_indeterminate : RetryOnIndeterminate;
}.
Definition retry_default : RetryPolicy := mkRetryPolicy 1 0 None RetryFail.

Record NodeDef : Type := mkNodeDef {
  nd_id : str;
  nd_kind : str;
  nd_needs : list str;
  nd_when : option str;
  nd_on_deps : OnDeps;
  nd_output : option str;
  nd_on_fail : option OnFail;
  nd_retry : option RetryPolicy;
  nd_params : bmap toml_value;
}.
Record Manifest : Type := mkManifest {
  mf_flow : list NodeDef;
  mf_parallel : list str;
  mf_blocks : bmap (list NodeDef);
}.
Definition param_str (n : NodeDef) (key : str) : option str :=
  match bm_get key (nd_params n) with Some (TomlString x) => Some x | _ => None end.
Definition set_needs (n : NodeDef) (needs : list str) : NodeDef :=
  mkNodeDef (nd_id n) (nd_kind n) needs (nd_when n) (nd_on_deps n) (nd_output n) (nd_on_fail n)
    (nd_retry n) (nd_params n).

Record Graph : Type := mkGraph { g_nodes : bmap NodeDef; g_order : list str }.
Inductive NodeState : Type :=
| Pending | Running | Success | SkippedNode (d : FailureDetail) | FailedNode (d : FailureDetail).

(** [DegreeUnderflow] is the arithmetic panic of [*degree -= 1] and
    [LoopDiverged] a fuel artefact; both are proved unreachable. *)
Inductive graph_error : Type :=
| ParallelUnknown (id : str)
| ParallelTooFew
| ParallelNotContiguous
| ParallelNotUnique
| ParallelWithNeeds (id : str)
| DuplicateNode (id : str)
| UnknownNeed (id need : str)
| OnFailUnknown (id target : str)
| ForeachNoSubflow (id : str)
| ForeachUnknownBlock (id block : str)
| BlockChildNeeds (block child : str)
| InternalGraphError (id : str)
| CycleDetected (ids : list str)
| DegreeUnderflow
| LoopDiverged.

(** ** Implicit dependencies *)

Definition list_min (l : list nat) : option nat :=
  match l with [] => None | x :: l => Some (foldl Nat.min x l) end.
Definition list_max (l : list nat) : option nat :=
  match l with [] => None | x :: l => Some (foldl Nat.max x l) end.

Definition parallel_indices (m : Manifest) : result graph_error (list nat) :=
  traverse (λ id, ok_or (position (λ n, nd_id n =s id) (mf_flow m)) (ParallelUnknown id))
    (mf_parallel m).

(** The loop over [flow[first..=last]]. *)
Fixpoint anchor_nodes (anchor : option str) (l : list NodeDef) : result graph_error (list NodeDef) :=
  match l with
  | [] => Ok []
  | n :: r =>
      if bool_decide (nd_needs n = []) then
        r' ← anchor_nodes anchor r;
        Ok (match anchor with Some a => set_needs n [a] | None => n end :: r')
      else Err (ParallelWithNeeds (nd_id n))
  end.

(** The parallel section: the new flow and the parallel range. *)
Definition apply_parallel (m : Manifest) (indices : list nat) :
    result graph_error (list NodeDef * option (nat * nat)) :=
  let flow := mf_flow m in
  match list_min indices, list_max indices with
  | Some first, Some last =>
      if length indices <? 2 then Err ParallelTooFew
      else if negb (last - first + 1 =? length indices) then Err ParallelNotContiguous
      else if existsb (λ i, negb (existsb (Nat.eqb i) indices)) (seq first (last - first + 1))
      then Err ParallelNotUnique
      else
        let anchor := match first with 0 => None | S i => nd_id <$> flow !! i end in
        group ← anchor_nodes anchor (take (last - first + 1) (drop first flow));
        let after := match drop (S last) flow with
                     | n :: r => (if bool_decide (nd_needs n = [])
                                  then set_needs n (mf_parallel m) else n) :: r
                     | [] => []
                     end in
        Ok (take first flow ++ group ++ after, Some (first, last))
  | _, _ => Ok (flow, None)
  end.

Definition in_range (r : option (nat * nat)) (i : nat) : bool :=
  match r with Some (first, last) => (first <=? i) && (i <=? last) | None => false end.

(** The loop over [1..flow.len()]; [previous] is the id at [i - 1]. *)
Fixpoint chain_nodes (range : option (nat * nat)) (i : nat) (previous : str) (l : list NodeDef) :
    list NodeDef :=
  match l with
  | [] => []
  | n :: r =>
      (if bool_decide (nd_needs n = []) && negb (in_range range i)
       then set_needs n [previous] else n) :: chain_nodes range (S i) (nd_id n) r
  end.

Definition flow_with_implicit_dependencies (m : Manifest) : result graph_error (list NodeDef) :=
  indices ← parallel_indices m;
  '(flow, range) ← apply_parallel m indices;
  Ok (match flow with
      | [] => []
      | n :: r => n :: chain_nodes range 1 (nd_id n) r
      end).

(** ** References *)

Definition validate_on_exhausted_ref (node : NodeDef) (nodes : bmap NodeDef) (a : ExhaustedAction) :
    result graph_error unit :=
  match a with
  | ExFail | ExAskUser _ _ => Ok ()
  | ExRoute to => if bm_contains to nodes then Ok () else Err (OnFailUnknown (nd_id node) to)
  end.
Definition validate_on_fail_ref (node : NodeDef) (nodes : bmap NodeDef) (on_fail : OnFail) :
    result graph_error unit :=
  match on_fail with
  | Repair repair recheck _ on_exhausted =>
      if negb (bm_contains repair nodes) then Err (OnFailUnknown (nd_id node) repair)
      else if negb (bm_contains recheck nodes) then Err (OnFailUnknown (nd_id node) recheck)
      else validate_on_exhausted_ref node nodes on_exhausted
  | Route to => if bm_contains to nodes then Ok () else Err (OnFailUnknown (nd_id node) to)
  | Regenerate _ on_exhausted => validate_on_exhausted_ref node nodes on_exhausted
  | AskUser | FailNode => Ok ()
  end.
Definition validate_on_fail_refs (node : NodeDef) (nodes : bmap NodeDef) : result graph_error unit :=
  match nd_on_fail node with
  | None => Ok ()
  | Some on_fail => validate_on_fail_ref node nodes on_fail
  end.

(** ** Topological order *)

Definition bm_modify {V} (k : str) (d : V) (f : V → V) (m : bmap V) : bmap V :=
  bm_insert k (f (default d (bm_get k m))) m.

Definition add_edge (acc : bmap Z * bmap (list str)) (id need : str) : bmap Z * bmap (list str) :=
  (bm_modify id 0%Z (λ n, n + 1)%Z acc.1, bm_modify need [] (λ l, l ++ [id]) acc.2).
Definition edges (nodes : bmap NodeDef) : bmap Z * bmap (list str) :=
  foldl (λ acc '(_, node), foldl (λ acc need, add_edge acc (nd_id node) need) acc (nd_needs node))
    (foldl (λ m id, bm_insert id 0%Z m) [] (bm_keys nodes), []) nodes.

(** The inner [for]: one outgoing edge releases one dependency. *)
Definition release (acc : bmap Z * list str) (next : str) : result graph_error (bmap Z * list str) :=
  degree ← ok_or (bm_get next acc.1) (InternalGraphError next);
  if (degree =? 0)%Z then Err DegreeUnderflow
  else
    let degree := (degree - 1)%Z in
    Ok (bm_insert next degree acc.1, if (degree =? 0)%Z then acc.2 ++ [next] else acc.2).

Fixpoint topo_loop (fuel : nat) (outgoing : bmap (list str)) (indegree : bmap Z)
    (queue order : list str) : result graph_error (list str) :=
  match queue with
  | [] => Ok order
  | id :: queue =>
      match fuel with
      | 0 => Err LoopDiverged
      | S fuel =>
          '(indegree, queue) ← foldM release (indegree, queue) (default [] (bm_get id outgoing));
          topo_loop fuel outgoing indegree queue (order ++ [id])
      end
  end.

Definition topo_sort (nodes : bmap NodeDef) : result graph_error (list str) :=
  let '(indegree, outgoing) := edges nodes in
  let queue := omap (λ '(id, degree), if (degree =? 0)%Z then Some id else None) indegree in
  order ← topo_loop (length nodes) outgoing indegree queue [];
  if negb (length order =? length nodes) then
    Err (CycleDetected
      (List.filter (λ id, negb (existsb (str_eqb id) order)) (bm_keys nodes)))
  else Ok order.

(** ** Building *)

Definition check_node (m : Manifest) (nodes : bmap NodeDef) (node : NodeDef) :
    result graph_error unit :=
  _ ← foldM (λ _ need, if bm_contains need nodes then Ok ()
                       else Err (UnknownNeed (nd_id node) need)) () (nd_needs node);
  _ ← validate_on_fail_refs node nodes;
  if nd_kind node =s s"foreach" then
    subflow ← ok_or (param_str node (s"subflow")) (ForeachNoSubflow (nd_id node));
    block ← ok_or (bm_get subflow (mf_blocks m)) (ForeachUnknownBlock (nd_id node) subflow);
    foldM (λ _ child, if bool_decide (nd_needs child = []) then Ok ()
                      else Err (BlockChildNeeds subflow (nd_id child))) () block
  else Ok ().

Definition build (m : Manifest) : result graph_error Graph :=
  flow ← flow_with_implicit_dependencies m;
  nodes ← foldM (λ nodes node, if bm_contains (nd_id node) nodes then Err (DuplicateNode (nd_id node))
                               else Ok (bm_insert (nd_id node) node nodes)) [] flow;
  _ ← foldM (λ _ node, check_node m nodes node) () (bm_values nodes);
  order ← topo_sort nodes;
  Ok (mkGraph nodes order).

Definition roots (g : Graph) : list NodeDef :=
  List.filter (λ n, bool_decide (nd_needs n = [])) (bm_values (g_nodes g)).

(** ** Running and skipping *)

Definition is_success (o : option NodeState) : bool :=
  match o with Some Success => true | _ => false end.
Definition is_failed (o : option NodeState) : bool :=
  match o with Some (FailedNode _) => true | _ => false end.
Definition is_terminal (o : option NodeState) : bool :=
  match o with Some (Success | SkippedNode _ | FailedNode _) => true | _ => false end.
Definition is_settled_ok (o : option NodeState) : bool :=
  match o with Some (Success | SkippedNode _) => true | _ => false end.

Definition needs_satisfied (node : NodeDef) (states : bmap NodeState) : bool :=
  if bool_decide (nd_needs node = []) then true
  else match nd_on_deps node with
       | AllSucceeded => forallb (λ need, is_success (bm_get need states)) (nd_needs node)
       | AnySucceeded => existsb (λ need, is_success (bm_get need states)) (nd_needs node)
       | NoneFailed => forallb (λ need, is_settled_ok (bm_get need states)) (nd_needs node)
       end.

Definition dependency_of (states : bmap NodeState) (need : str) : option DependencyFailure :=
  match bm_get need states with
  | Some (SkippedNode reason) => Some (mkDependencyFailure need DepSkipped (fd_message reason))
  | Some (FailedNode reason) => Some (mkDependencyFailure need DepFailed (fd_message reason))
  | _ => None
  end.
Definition dependency_message (f : DependencyFailure) : str :=
  s"dependency `" ++ df_path f ++ s"` "
  ++ match df_status f with DepSkipped => s"skipped" | DepFailed => s"failed" end
  ++ s": " ++ df_message f.
Definition dependency_failure (node : NodeDef) (states : bmap NodeState) (code : FailureCode) :
    option FailureDetail :=
  let dependencies := omap (dependency_of states) (nd_needs node) in
  match dependencies with
  | [] => None
  | _ =>
      let message :=
        if bool_decide (code = NoDependencySucceeded)
        then s"on_deps=any_succeeded had no successful dependency"
        else join (s"; ") (map dependency_message dependencies) in
      Some (mkFailureDetail code message dependencies None)
  end.

Definition should_skip_by_dependencies (node : NodeDef) (states : bmap NodeState) :
    option FailureDetail :=
  if bool_decide (nd_needs node = []) then None
  else match nd_on_deps node with
       | AllSucceeded => dependency_failure node states DependencyUnsatisfied
       | AnySucceeded =>
           if forallb (λ need, is_terminal (bm_get need states)) (nd_needs node)
              && negb (existsb (λ need, is_success (bm_get need states)) (nd_needs node))
           then dependency_failure node states NoDependencySucceeded else None
       | NoneFailed =>
           if forallb (λ need, is_terminal (bm_get need states)) (nd_needs node)
              && existsb (λ need, is_failed (bm_get need states)) (nd_needs node)
           then dependency_failure node states DependencyUnsatisfied else None
       end.
