(* ===== verification/GraphTopo.v ===== *)
(** * The flow graph: topological order *)

From S2P Require Import Prelude Str BMap Serde Graph.
From Stdlib Require Import Sorted.

Definition needs_of (nodes : bmap NodeDef) (x : str) : list str :=
  match bm_get x nodes with Some n => nd_needs n | None => [] end.

(** A node table as [build] makes it: keyed by id, needs known. *)
Record nodes_wf (nodes : bmap NodeDef) : Prop := {
  nw_sorted : bm_sorted nodes;
  nw_id : ∀ k n, (k, n) ∈ nodes → nd_id n = k;
  nw_needs : ∀ x y, y ∈ needs_of nodes x → y ∈ bm_keys nodes;
}.

Definition cnt (x : str) (l : list str) : Z := Z.of_nat (length (List.filter (str_eqb x) l)).

Lemma cnt_nil x : cnt x [] = 0%Z.
Proof. done. Qed.
Lemma cnt_cons x y l : cnt x (y :: l) = ((if x =s y then 1 else 0) + cnt x l)%Z.
Proof. unfold cnt. cbn. destruct (x =s y); cbn [length]; lia. Qed.
Lemma cnt_app x l l' : cnt x (l ++ l') = (cnt x l + cnt x l')%Z.
Proof. unfold cnt. rewrite List.filter_app, length_app. lia. Qed.
Lemma cnt_nonneg x l : (0 ≤ cnt x l)%Z.
Proof. unfold cnt. lia. Qed.
Lemma cnt_pos x l : (0 < cnt x l)%Z ↔ x ∈ l.
Proof.
  induction l as [|y l IH]; [rewrite cnt_nil; split; [lia|by intros ?%not_elem_of_nil]|].
  rewrite cnt_cons, elem_of_cons, <-IH. pose proof (cnt_nonneg x l).
  destruct (str_eqb_spec x y) as [->|]; split; [by left|lia|right; lia|intros [->|?]; [done|lia]].
Qed.

(** ** The edge tables *)

Definition degree_of (m : bmap Z) (x : str) : Z := default 0%Z (bm_get x m).
Definition targets (m : bmap (list str)) (y : str) : list str := default [] (bm_get y m).

Record edges_step (acc acc' : bmap Z * bmap (list str)) (id : str) (needs : list str) : Prop := {
  es_degree : ∀ x, degree_of acc'.1 x =
    (degree_of acc.1 x + if x =s id then Z.of_nat (length needs) else 0)%Z;
  es_keys : ∀ x, is_Some (bm_get x acc'.1) ↔ is_Some (bm_get x acc.1) ∨ x = id ∧ needs ≠ [];
  es_targets : ∀ x y, cnt x (targets acc'.2 y) =
    (cnt x (targets acc.2 y) + if x =s id then cnt y needs else 0)%Z;
  es_sorted : bm_sorted acc.1 → bm_sorted acc'.1;
}.

Lemma edges_of_node acc id needs :
  edges_step acc (foldl (λ acc need, add_edge acc id need) acc needs) id needs.
Proof.
  revert acc; induction needs as [|need needs IH]; intros acc; cbn.
  { constructor; try done; intros; [destruct (x =s id); cbn; lia|naive_solver|
      rewrite cnt_nil; destruct (x =s id); lia]. }
  destruct (IH (add_edge acc id need)) as [Hd Hk Ht Hs]. constructor.
  - intros x. rewrite Hd. unfold add_edge, bm_modify, degree_of. cbn -[bm_get bm_insert].
    rewrite bm_get_insert. destruct (str_eqb_spec x id) as [->|]; cbn -[bm_get]; lia.
  - intros x. rewrite Hk. unfold add_edge, bm_modify. cbn -[bm_get bm_insert]. rewrite bm_get_insert.
    destruct (str_eqb_spec x id) as [->|Hne]; [|naive_solver].
    split; [|intros; left; by eexists]. intros _. right. done.
  - intros x y. rewrite Ht. unfold add_edge, bm_modify, targets. cbn -[bm_get bm_insert cnt].
    rewrite bm_get_insert, (cnt_cons y need). destruct (str_eqb_spec y need) as [->|Hne]; cbn -[bm_get cnt].
    + rewrite cnt_app, cnt_cons, cnt_nil. destruct (x =s id); lia.
    + destruct (x =s id); lia.
  - intros Hs0. apply Hs. unfold add_edge, bm_modify. cbn. by apply bm_sorted_insert.
Qed.

(** The entry of a key in a table with distinct keys. *)
Definition at_key (x : str) (l : bmap NodeDef) (f : NodeDef → Z) : Z :=
  match bm_get x l with Some n => f n | None => 0%Z end.

Lemma edges_spec_gen (l : bmap NodeDef) :
  bm_sorted l → (∀ k n, (k, n) ∈ l → nd_id n = k) →
  ∀ acc, (∀ k, k ∈ bm_keys l → is_Some (bm_get k acc.1)) →
  let acc' := foldl (λ acc '(_, node),
    foldl (λ acc need, add_edge acc (nd_id node) need) acc (nd_needs node)) acc l in
  (∀ x, degree_of acc'.1 x = (degree_of acc.1 x + at_key x l (λ n, Z.of_nat (length (nd_needs n))))%Z) ∧
  (∀ x, is_Some (bm_get x acc'.1) ↔ is_Some (bm_get x acc.1)) ∧
  (∀ x y, cnt x (targets acc'.2 y) = (cnt x (targets acc.2 y) + at_key x l (λ n, cnt y (nd_needs n)))%Z) ∧
  (bm_sorted acc.1 → bm_sorted acc'.1).
Proof.
  induction l as [|[k n] l IH]; intros Hs Hid acc Hk; cbn -[cnt].
  { split; [intros; unfold at_key; cbn; lia|]. split; [done|].
    split; [intros; unfold at_key; cbn; lia|done]. }
  apply bm_sorted_cons in Hs as [Hlt Hs].
  assert (nd_id n = k) as Hn by (apply Hid; by left).
  destruct (edges_of_node acc (nd_id n) (nd_needs n)) as [Hd Hk' Ht Hso]. rewrite Hn in *.
  set (acc1 := foldl _ acc (nd_needs n)) in *.
  assert (Hkeys : ∀ x, is_Some (bm_get x acc1.1) ↔ is_Some (bm_get x acc.1)).
  { intros x. rewrite Hk'. split; [|by left]. intros [?|[-> _]]; [done|]. apply Hk. by left. }
  destruct (IH Hs ltac:(intros; apply Hid; by right) acc1) as (I1 & I2 & I3 & I4).
  { intros x Hx. apply Hkeys, Hk. by right. }
  assert (Hnone : bm_get k l = None).
  { apply bm_get_None. intros Hin. specialize (Hlt _ Hin). by destruct (irreflexivity str_lt k). }
  assert (Hat : ∀ x f, at_key x ((k, n) :: l) f = ((if x =s k then f n else 0) + at_key x l f)%Z).
  { intros x f. unfold at_key. cbn. destruct (str_eqb_spec x k) as [->|]; [|lia]. rewrite Hnone. lia. }
  split; [|split; [|split]].
  - intros x. rewrite I1, Hd, Hat. lia.
  - intros x. by rewrite I2, Hkeys.
  - intros x y. rewrite I3, Ht, Hat. lia.
  - intros. by apply I4, Hso.
Qed.

Lemma zero_table (l : list str) (m : bmap Z) :
  bm_sorted m → let m' := foldl (λ m id, bm_insert id 0%Z m) m l in
  bm_sorted m' ∧ ∀ x, bm_get x m' = if decide (x ∈ l) then Some 0%Z else bm_get x m.
Proof.
  revert m; induction l as [|k l IH]; intros m Hm; cbn; [done|].
  destruct (IH (bm_insert k 0%Z m)) as [H1 H2]; [by apply bm_sorted_insert|].
  split; [done|]. intros x. rewrite H2, bm_get_insert.
  destruct (str_eqb_spec x k) as [->|]; repeat case_decide; set_solver.
Qed.

(** The tables [topo_sort] starts from. *)
Lemma edges_spec nodes : nodes_wf nodes →
  let '(indegree, outgoing) := edges nodes in
  bm_sorted indegree ∧
  (∀ x, bm_get x indegree =
     if decide (x ∈ bm_keys nodes) then Some (Z.of_nat (length (needs_of nodes x))) else None) ∧
  (∀ x y, cnt x (targets outgoing y) = cnt y (needs_of nodes x)).
Proof.
  intros [Hs Hid _]. unfold edges.
  destruct (zero_table (bm_keys nodes) [] ltac:(constructor)) as [Hz1 Hz2].
  set (zero := foldl _ [] (bm_keys nodes)) in *.
  destruct (edges_spec_gen nodes Hs Hid (zero, [])) as (H1 & H2 & H3 & H4).
  { intros k Hk. cbn. rewrite Hz2, decide_True by done. by eexists. }
  destruct (foldl _ (zero, []) nodes) as [ind out]. cbn [fst snd] in *.
  split; [by apply H4|]. split.
  - intros x. specialize (H1 x). specialize (H2 x). rewrite Hz2 in H2. unfold degree_of in H1.
    rewrite Hz2 in H1. case_decide.
    + destruct (bm_get x ind) as [d|]; [|exfalso; naive_solver].
      f_equal. cbn in H1. unfold at_key, needs_of in *. destruct (bm_get x nodes); cbn in *; lia.
    + destruct (bm_get x ind); [exfalso; naive_solver|done].
  - intros x y. rewrite H3. unfold at_key, needs_of, targets. cbn -[cnt]. rewrite cnt_nil.
    destruct (bm_get x nodes); rewrite ?cnt_nil; lia.
Qed.

(** ** The loop *)

(** How many needs of a node are not in the order yet. *)
Definition pending (nodes : bmap NodeDef) (order : list str) (x : str) : Z :=
  Z.of_nat (length (List.filter (λ y, negb (bool_decide (y ∈ order))) (needs_of nodes x))).

Lemma filter_split_len (l order : list str) id : id ∉ order →
  Z.of_nat (length (List.filter (λ y, negb (bool_decide (y ∈ order))) l)) =
  (Z.of_nat (length (List.filter (λ y, negb (bool_decide (y ∈ order ++ [id]))) l)) + cnt id l)%Z.
Proof.
  intros Hid. induction l as [|y l IH]; [done|]. rewrite cnt_cons. cbn.
  destruct (str_eqb_spec id y) as [<-|Hne].
  - rewrite (bool_decide_false (id ∈ order)), (bool_decide_true (id ∈ _ ++ _)) by set_solver.
    cbn [negb length]. lia.
  - rewrite (bool_decide_ext (y ∈ order ++ [id]) (y ∈ order)) by set_solver.
    destruct (bool_decide _); cbn [negb length]; lia.
Qed.
Lemma pending_step nodes order id x : id ∉ order →
  pending nodes order x = (pending nodes (order ++ [id]) x + cnt id (needs_of nodes x))%Z.
Proof. apply filter_split_len. Qed.
Lemma pending_zero nodes order x :
  pending nodes order x = 0%Z ↔ ∀ y, y ∈ needs_of nodes x → y ∈ order.
Proof.
  unfold pending. induction (needs_of nodes x) as [|y l IH]; cbn.
  { split; [by intros _ y ?%not_elem_of_nil|done]. }
  destruct (bool_decide_reflect (y ∈ order)) as [Hy|Hy]; cbn [negb length].
  - rewrite IH. set_solver.
  - split; [lia|]. intros H. destruct Hy. apply H. by left.
Qed.

(** The invariant of the [while] loop, with the edges [rest] of the node
    being processed that are not released yet. *)
Record loop_inv (nodes : bmap NodeDef) (indegree : bmap Z) (rest queue order : list str) : Prop := {
  li_nodup : NoDup (order ++ queue);
  li_keys : ∀ x, x ∈ order ++ queue → x ∈ bm_keys nodes;
  li_degree : ∀ x, bm_get x indegree =
    if decide (x ∈ bm_keys nodes) then Some (pending nodes order x + cnt x rest)%Z else None;
  li_zero : ∀ x, x ∈ bm_keys nodes → (x ∈ order ++ queue ↔ (pending nodes order x + cnt x rest = 0)%Z);
  li_order : ∀ pre x post, order = pre ++ x :: post → ∀ y, y ∈ needs_of nodes x → y ∈ pre;
}.

Lemma release_inv nodes indegree next rest queue order :
  next ∈ bm_keys nodes → loop_inv nodes indegree (next :: rest) queue order →
  ∃ indegree' queue', release (indegree, queue) next = Ok (indegree', queue') ∧
    loop_inv nodes indegree' rest queue' order.
Proof.
  intros Hk [Hnd Hkeys Hdeg Hzero Hord]. unfold release. cbn [fst snd].
  rewrite (Hdeg next), decide_True by done. cbn [ok_or]. cbn -[bm_insert cnt Z.sub].
  assert (Hc : cnt next (next :: rest) = (1 + cnt next rest)%Z) by by rewrite cnt_cons, str_eqb_refl.
  assert (Hp : (0 ≤ pending nodes order next)%Z) by (unfold pending; lia).
  pose proof (cnt_nonneg next rest) as Hr.
  destruct (Z.eqb_spec (pending nodes order next + cnt next (next :: rest)) 0) as [|_]; [lia|].
  set (d := (_ - 1)%Z). eexists _, _. split; [done|].
  assert (Hd : d = (pending nodes order next + cnt next rest)%Z) by (unfold d; lia).
  assert (Hni : next ∉ order ++ queue) by (rewrite Hzero by done; lia).
  assert (Hother : ∀ x, x ≠ next → cnt x (next :: rest) = cnt x rest).
  { intros x Hx. rewrite cnt_cons. by rewrite (proj2 (str_eqb_neq _ _) Hx). }
  constructor.
  - destruct (d =? 0)%Z; [|done]. rewrite (assoc (++)). apply NoDup_app. split; [done|].
    split; [set_solver|apply NoDup_singleton].
  - intros x Hx. destruct (d =? 0)%Z; [|by apply Hkeys].
    rewrite (assoc (++)) in Hx. apply elem_of_app in Hx as [Hx|Hx]; [by apply Hkeys|].
    by apply list_elem_of_singleton in Hx as ->.
  - intros x. rewrite bm_get_insert. destruct (str_eqb_spec x next) as [->|Hx].
    + by rewrite decide_True, Hd by done.
    + by rewrite Hdeg, Hother.
  - intros x Hx. destruct (decide (x = next)) as [->|Hne].
    + rewrite <-Hd. destruct (Z.eqb_spec d 0) as [->|]; set_solver.
    + rewrite <-Hother, <-(Hzero x) by done. destruct (d =? 0)%Z; set_solver.
  - done.
Qed.

Lemma releases_inv nodes rest : (∀ x, x ∈ rest → x ∈ bm_keys nodes) →
  ∀ indegree queue order, loop_inv nodes indegree rest queue order →
  ∃ indegree' queue', foldM release (indegree, queue) rest = Ok (indegree', queue') ∧
    loop_inv nodes indegree' [] queue' order.
Proof.
  induction rest as [|next rest IH]; intros Hk indegree queue order Hinv; cbn.
  { by eexists _, _. }
  destruct (release_inv nodes indegree next rest queue order) as (i1 & q1 & -> & H1); [|done|].
  { apply Hk. by left. }
  cbn. apply IH; [|done]. intros. apply Hk. by right.
Qed.

Definition out_spec (nodes : bmap NodeDef) (outgoing : bmap (list str)) : Prop :=
  ∀ x y, cnt x (targets outgoing y) = cnt y (needs_of nodes x).

Lemma needs_of_key nodes x y : y ∈ needs_of nodes x → x ∈ bm_keys nodes.
Proof.
  unfold needs_of. intros H. apply bm_get_is_Some.
  destruct (bm_get x nodes); [by eexists|by apply not_elem_of_nil in H].
Qed.

Lemma pop_inv nodes outgoing indegree id queue order :
  out_spec nodes outgoing → loop_inv nodes indegree [] (id :: queue) order →
  loop_inv nodes indegree (targets outgoing id) queue (order ++ [id]).
Proof.
  intros Hout [Hnd Hkeys Hdeg Hzero Hord].
  assert (Hid : id ∉ order).
  { apply NoDup_app in Hnd as (_ & Hd & _). intros H. apply (Hd _ H). by left. }
  assert (Heq : (order ++ [id]) ++ queue = order ++ id :: queue) by by rewrite <-(assoc (++)).
  assert (Hsum : ∀ x, (pending nodes order x + cnt x [] =
    pending nodes (order ++ [id]) x + cnt x (targets outgoing id))%Z).
  { intros x. rewrite cnt_nil, Hout, (pending_step _ _ _ _ Hid). lia. }
  constructor.
  - by rewrite Heq.
  - by rewrite Heq.
  - intros x. by rewrite <-Hsum.
  - intros x Hx. rewrite Heq, <-Hsum. by apply Hzero.
  - intros pre x post Happ y Hy. destruct post as [|z post _] using rev_ind.
    + apply app_inj_tail in Happ as [-> ->]. revert y Hy. apply pending_zero.
      assert (Hk : x ∈ bm_keys nodes) by (apply Hkeys; set_solver).
      pose proof (proj1 (Hzero x Hk) ltac:(set_solver)) as H0. rewrite cnt_nil in H0. lia.
    + rewrite app_comm_cons, (assoc (++)) in Happ. apply app_inj_tail in Happ as [-> _].
      by eapply Hord.
Qed.

Lemma keys_length (nodes : bmap NodeDef) : length (bm_keys nodes) = length nodes.
Proof. apply List.length_map. Qed.
Lemma loop_inv_bound nodes indegree rest queue order :
  loop_inv nodes indegree rest queue order → length order + length queue ≤ length nodes.
Proof.
  intros [Hnd Hkeys _ _ _]. rewrite <-length_app, <-keys_length.
  apply submseteq_length, NoDup_submseteq; done.
Qed.

Lemma topo_loop_ok nodes outgoing : out_spec nodes outgoing →
  ∀ fuel indegree queue order, length nodes ≤ length order + fuel →
  loop_inv nodes indegree [] queue order →
  ∃ indegree' order', topo_loop fuel outgoing indegree queue order = Ok order' ∧
    loop_inv nodes indegree' [] [] order'.
Proof.
  intros Hout fuel. induction fuel as [|fuel IH]; intros indegree queue order Hf Hinv;
    destruct queue as [|id queue]; cbn -[foldM]; [by eexists _, _| |by eexists _, _|].
  { apply loop_inv_bound in Hinv. cbn in Hinv. lia. }
  pose proof (pop_inv _ _ _ _ _ _ Hout Hinv) as Hpop.
  destruct (releases_inv nodes (targets outgoing id)) with (2 := Hpop) as (i1 & q1 & Hr & H1).
  { intros x Hx. apply cnt_pos in Hx. rewrite Hout in Hx. apply cnt_pos in Hx. by eapply needs_of_key. }
  unfold targets in Hr. rewrite Hr. cbn. apply IH; [|done]. rewrite length_app. cbn. lia.
Qed.

Lemma start_inv nodes indegree outgoing : nodes_wf nodes → edges nodes = (indegree, outgoing) →
  loop_inv nodes indegree []
    (omap (λ '(id, degree), if (degree =? 0)%Z then Some id else None) indegree) [].
Proof.
  intros Hwf He. pose proof (edges_spec nodes Hwf) as Hs. rewrite He in Hs.
  destruct Hs as (Hsort & Hdeg & _).
  assert (Hp : ∀ x, pending nodes [] x = Z.of_nat (length (needs_of nodes x))).
  { intros x. unfold pending. induction (needs_of nodes x) as [|y l IH]; cbn -[decide]; [done|].
    rewrite bool_decide_false by set_solver. cbn [negb length]. lia. }
  assert (Hin : ∀ x, x ∈ omap (λ '(id, degree), if (degree =? 0)%Z then Some id else None) indegree
    ↔ bm_get x indegree = Some 0%Z).
  { intros x. rewrite list_elem_of_omap. split.
    - intros ([k d] & Hkd & Heq). case_match eqn:Ed; simplify_eq.
      apply Z.eqb_eq in Ed as ->. by apply bm_elem_get.
    - intros Hx%bm_get_elem. by eexists. }
  constructor.
  - cbn. clear -Hsort. induction indegree as [|[k d] m IH]; cbn; [constructor|].
    apply bm_sorted_cons in Hsort as [Hlt Hm]. destruct (d =? 0)%Z; [|by apply IH].
    constructor; [|by apply IH]. intros ([k' d'] & Hk & Heq)%list_elem_of_omap.
    case_match; simplify_eq. apply (irreflexivity str_lt k), Hlt.
    apply list_elem_of_In, (List.in_map fst _ (k, d')), list_elem_of_In, Hk.
  - intros x Hx. cbn in Hx. apply Hin in Hx. rewrite Hdeg in Hx. by case_decide.
  - intros x. rewrite Hdeg. case_decide; [|done]. rewrite Hp, cnt_nil. f_equal. lia.
  - intros x Hx. cbn. rewrite Hin, Hdeg, decide_True, Hp, cnt_nil by done. split; [intros [= ?]|intros; f_equal]; lia.
  - intros [] ? ? [=].
Qed.

(** ** The result *)

(** [x] waits for [y]. *)
Definition need (nodes : bmap NodeDef) (x y : str) : Prop := y ∈ needs_of nodes x.
Definition acyclic (nodes : bmap NodeDef) : Prop := ∀ x, ¬ tc (need nodes) x x.
(** Every node once, each after everything it needs. *)
Definition topological (nodes : bmap NodeDef) (order : list str) : Prop :=
  order ≡ₚ bm_keys nodes ∧
  ∀ pre x post, order = pre ++ x :: post → ∀ y, need nodes x y → y ∈ pre.

Lemma bm_keys_NoDup {V} (m : bmap V) : bm_sorted m → NoDup (bm_keys m).
Proof.
  unfold bm_sorted. induction (bm_keys m) as [|k l IH]; intros Hs; [constructor|].
  inversion Hs as [|?? Hs' Hf]; subst. constructor; [|by apply IH].
  intros Hin. rewrite Forall_forall in Hf. by apply (irreflexivity str_lt k), Hf.
Qed.

(** The order the loop ends with is the largest closed under [need]. *)
Lemma topo_sort_outcome nodes : nodes_wf nodes →
  ∃ order indegree, loop_inv nodes indegree [] [] order ∧
    topo_sort nodes =
      if negb (length order =? length nodes) then
        Err (CycleDetected (List.filter (λ id, negb (existsb (str_eqb id) order)) (bm_keys nodes)))
      else Ok order.
Proof.
  intros Hwf. unfold topo_sort. pose proof (edges_spec nodes Hwf) as Hs.
  destruct (edges nodes) as [indegree outgoing] eqn:He. destruct Hs as (_ & _ & Hout).
  pose proof (start_inv _ _ _ Hwf He) as H0.
  destruct (topo_loop_ok nodes outgoing Hout (length nodes) _ _ _ ltac:(cbn; lia) H0)
    as (ind' & order & Heq & Hinv).
  exists order, ind'. split; [done|]. by rewrite Heq.
Qed.

Lemma existsb_str_eqb x l : existsb (str_eqb x) l = bool_decide (x ∈ l).
Proof.
  induction l as [|y l IH]; cbn; [done|]. rewrite IH.
  destruct (str_eqb_spec x y) as [->|]; repeat case_bool_decide; set_solver.
Qed.

Section outcome.
Context (nodes : bmap NodeDef) (Hwf : nodes_wf nodes).
Context (indegree : bmap Z) (order : list str) (Hinv : loop_inv nodes indegree [] [] order).

Lemma order_closed x : x ∈ bm_keys nodes → x ∈ order ↔ ∀ y, need nodes x y → y ∈ order.
Proof.
  intros Hx. pose proof (li_zero _ _ _ _ _ Hinv x Hx) as H.
  rewrite app_nil_r, cnt_nil, Z.add_0_r in H. by rewrite H, pending_zero.
Qed.
Lemma order_NoDup : NoDup order.
Proof. pose proof (li_nodup _ _ _ _ _ Hinv) as H. by rewrite app_nil_r in H. Qed.
Lemma order_keys x : x ∈ order → x ∈ bm_keys nodes.
Proof. intros H. apply (li_keys _ _ _ _ _ Hinv). by rewrite app_nil_r. Qed.
Lemma order_full : length order = length nodes ↔ order ≡ₚ bm_keys nodes.
Proof.
  rewrite <-keys_length. split; [|by intros ->].
  intros Hl. apply submseteq_length_Permutation; [|lia].
  apply NoDup_submseteq; [apply order_NoDup|apply order_keys].
Qed.
Lemma order_not_full : length order ≠ length nodes → ∃ x, x ∈ bm_keys nodes ∧ x ∉ order.
Proof.
  intros Hne. destruct (decide (Forall (λ x, x ∈ order) (bm_keys nodes))) as [Hall|Hn].
  - destruct Hne. apply order_full, (anti_symm submseteq); apply NoDup_submseteq.
    + apply order_NoDup.
    + apply order_keys.
    + by apply bm_keys_NoDup, Hwf.
    + by rewrite Forall_forall in Hall.
  - apply not_Forall_Exists in Hn; [|apply _]. by apply Exists_exists in Hn.
Qed.

(** Without a cycle nothing is left out. *)
Lemma acyclic_order_full : acyclic nodes → length order = length nodes.
Proof.
  intros Hac. destruct (decide (length order = length nodes)) as [|Hne]; [done|].
  destruct (order_not_full Hne) as (x & Hx & Hnx). destruct Hnx.
  assert (Hsn : sn (need nodes) x).
  { apply tc_finite_sn; [intros z Hz; by apply (Hac z)|]. exists (bm_keys nodes).
    intros y Hy. clear Hx. induction Hy as [? ? Hn|? ? ? _ _ IH]; [by eapply (nw_needs _ Hwf)|done]. }
  clear Hne. revert Hx. induction Hsn as [x _ IH]. intros Hx. apply order_closed; [done|].
  intros y Hy. apply IH; [done|]. by eapply (nw_needs _ Hwf).
Qed.
Lemma order_acyclic : length order = length nodes → acyclic nodes.
Proof.
  intros Hl%order_full.
  assert (Hlt : ∀ x y, tc (need nodes) x y → ∀ i, order !! i = Some x →
            ∃ j, j < i ∧ order !! j = Some y).
  { intros x y Ht. induction Ht as [x y Hn|x y z Hn _ IH]; intros i Hi.
    - apply list_elem_of_split_length in Hi as (pre & post & Ho & ->).
      pose proof (li_order _ _ _ _ _ Hinv _ _ _ Ho _ Hn) as Hy.
      apply list_elem_of_lookup in Hy as [j Hj]. exists j.
      split; [by apply lookup_lt_Some in Hj|]. rewrite Ho. by apply lookup_app_l_Some.
    - apply list_elem_of_split_length in Hi as (pre & post & Ho & ->).
      pose proof (li_order _ _ _ _ _ Hinv _ _ _ Ho _ Hn) as Hy.
      apply list_elem_of_lookup in Hy as [j Hj].
      destruct (IH j) as (k & Hk & Hz); [rewrite Ho; by apply lookup_app_l_Some|].
      exists k. split; [apply lookup_lt_Some in Hj; lia|done]. }
  intros x Hx. assert (x ∈ order) as [i Hi]%list_elem_of_lookup.
  { rewrite Hl. inversion Hx; subst; by eapply needs_of_key. }
  destruct (Hlt x x Hx i Hi) as (j & Hj & Hj').
  pose proof (NoDup_lookup _ _ _ _ order_NoDup Hi Hj'). lia.
Qed.
End outcome.

(** Consequences used by the clients of the sort. *)
Lemma topo_sort_accepts nodes : nodes_wf nodes →
  (∃ order, topo_sort nodes = Ok order) ↔ acyclic nodes.
Proof.
  intros Hwf. destruct (topo_sort_outcome nodes Hwf) as (order & ind & Hinv & ->).
  destruct (Nat.eqb_spec (length order) (length nodes)) as [Hl|Hl]; cbn [negb].
  - split; [intros _; by eapply order_acyclic|by eexists].
  - split; [by intros [? [=]]|]. intros Hac. destruct Hl. by eapply acyclic_order_full.
Qed.
Lemma topo_sort_topological nodes order : nodes_wf nodes →
  topo_sort nodes = Ok order → topological nodes order.
Proof.
  intros Hwf. destruct (topo_sort_outcome nodes Hwf) as (order' & ind & Hinv & ->).
  destruct (Nat.eqb_spec (length order') (length nodes)) as [Hl|Hl]; cbn [negb]; [|done].
  intros [= <-]. split; [by eapply order_full|]. apply Hinv.
Qed.

(** C25: the sort of a table of nodes keyed by id whose needs all exist either
    lists every node once, after everything it needs, or reports a cycle; a
    reported set is not empty and closed: each of its nodes waits for another
    one of it.  It never ends in an internal error, an underflow of a degree
    or without a result, and it succeeds exactly when the needs have no cycle. *)
Theorem topo_sort_result nodes : nodes_wf nodes →
  ((∃ order, topo_sort nodes = Ok order) ↔ acyclic nodes) ∧
  match topo_sort nodes with
  | Ok order => topological nodes order
  | Err (CycleDetected ids) =>
      ids ≠ [] ∧ ∀ x, x ∈ ids → x ∈ bm_keys nodes ∧ ∃ y, need nodes x y ∧ y ∈ ids
  | Err _ => False
  end.
Proof.
  intros Hwf. split; [by apply topo_sort_accepts|].
  destruct (topo_sort_outcome nodes Hwf) as (order & ind & Hinv & ->).
  destruct (Nat.eqb_spec (length order) (length nodes)) as [Hl|Hl]; cbn [negb].
  { split; [by eapply order_full|]. apply Hinv. }
  set (ids := List.filter _ _).
  assert (Hids : ∀ x, x ∈ ids ↔ x ∈ bm_keys nodes ∧ x ∉ order).
  { intros x. unfold ids. rewrite !list_elem_of_In, List.filter_In, <-!list_elem_of_In.
    rewrite existsb_str_eqb. case_bool_decide; naive_solver. }
  split.
  - destruct (order_not_full nodes Hwf ind order Hinv Hl) as (x & Hx).
    intros Hnil. rewrite <-Hids, Hnil in Hx. by apply not_elem_of_nil in Hx.
  - intros x [Hx Hnx]%Hids. split; [done|]. rewrite (order_closed _ _ _ Hinv) in Hnx by done.
    destruct (decide (Forall (λ y, y ∈ order) (needs_of nodes x))) as [Hall|Hn].
    + destruct Hnx. by rewrite Forall_forall in Hall.
    + apply not_Forall_Exists in Hn; [|apply _]. apply Exists_exists in Hn as (y & Hy & Hny).
      exists y. split; [done|]. apply Hids. split; [by eapply (nw_needs _ Hwf)|done].
Qed.
