(* ===== verification/GraphBuild.v ===== *)
(** * Building the graph, and its implicit dependencies *)

From S2P Require Import Prelude Str BMap Serde Graph GraphTopo.
From Stdlib Require Import Sorted.

#[local] Arguments s : simpl never.

(** ** Building the graph, and its implicit dependencies *)

(** * The flow graph: what [build] accepts, and when a node runs

    The declarative specification of a valid flow ([valid_flow]), the proof
    that [build] decides it, the implicit dependencies node by node, and the
    decision between running and skipping. *)

(** ** The table of a flow *)

Definition table_step (nodes : bmap NodeDef) (node : NodeDef) : result graph_error (bmap NodeDef) :=
  if bm_contains (nd_id node) nodes then Err (DuplicateNode (nd_id node))
  else Ok (bm_insert (nd_id node) node nodes).

Lemma bm_contains_true {V} k (m : bmap V) : bm_contains k m = true ↔ k ∈ bm_keys m.
Proof. rewrite <-bm_get_is_Some. unfold bm_contains. destruct (bm_get k m); naive_solver. Qed.
Lemma bm_contains_false {V} k (m : bmap V) : bm_contains k m = false ↔ bm_get k m = None.
Proof. unfold bm_contains. destruct (bm_get k m); naive_solver. Qed.

(** What the table holds after a prefix of the flow. *)
Record table_of (flow : list NodeDef) (nodes : bmap NodeDef) : Prop := {
  to_sorted : bm_sorted nodes;
  to_get : ∀ x n, bm_get x nodes = Some n ↔ n ∈ flow ∧ nd_id n = x;
}.

Lemma table_keys flow nodes x : table_of flow nodes → x ∈ bm_keys nodes ↔ x ∈ map nd_id flow.
Proof.
  intros [_ Hg]. rewrite <-bm_get_is_Some, list_elem_of_fmap. split.
  - intros [n [Hn Hx]%Hg]. by exists n.
  - intros (n & -> & Hn). exists n. by apply Hg.
Qed.

Lemma table_steps flow2 : ∀ flow1 nodes, table_of flow1 nodes → NoDup (map nd_id flow1) →
  (∃ nodes', foldM table_step nodes flow2 = Ok nodes' ∧ table_of (flow1 ++ flow2) nodes' ∧
     NoDup (map nd_id (flow1 ++ flow2))) ∨
  (∃ e, foldM table_step nodes flow2 = Err e) ∧ ¬ NoDup (map nd_id (flow1 ++ flow2)).
Proof.
  induction flow2 as [|n flow2 IH]; intros flow1 nodes Ht Hnd; cbn.
  { left. rewrite app_nil_r. by exists nodes. }
  destruct (bm_contains (nd_id n) nodes) eqn:E;
    assert (Hstep := eq_refl (table_step nodes n)); unfold table_step in Hstep at 2;
    rewrite E in Hstep; rewrite !Hstep; cbn.
  - right. split; [by eexists|]. rewrite List.map_app. cbn. intros H.
    apply NoDup_app in H as (_ & Hd & _). apply (Hd (nd_id n)); [|by left].
    by apply (table_keys _ _ _ Ht), bm_contains_true.
  - replace (flow1 ++ n :: flow2) with ((flow1 ++ [n]) ++ flow2) by by rewrite <-(assoc (++)).
    assert (Hni : nd_id n ∉ map nd_id flow1).
    { rewrite <-(table_keys _ _ _ Ht), <-bm_get_None. by apply bm_contains_false. }
    apply IH.
    + destruct Ht as [Hs Hg]. constructor; [by apply bm_sorted_insert|]. intros x n'.
      rewrite bm_get_insert, elem_of_app, list_elem_of_singleton.
      destruct (str_eqb_spec x (nd_id n)) as [->|Hne].
      * split; [intros [= ->]; auto|]. intros [[Hin| ->] Hid]; [|done].
        destruct Hni. rewrite <-Hid. by apply list_elem_of_fmap_2.
      * rewrite Hg. naive_solver.
    + rewrite List.map_app. cbn. apply NoDup_app. split; [done|].
      split; [|apply NoDup_singleton]. set_solver.
Qed.
Lemma table_build flow :
  (∃ nodes, foldM table_step [] flow = Ok nodes ∧ table_of flow nodes ∧ NoDup (map nd_id flow)) ∨
  (∃ e, foldM table_step [] flow = Err e) ∧ ¬ NoDup (map nd_id flow).
Proof.
  apply (table_steps flow [] []); [|constructor].
  constructor; [apply bm_sorted_nil|]. intros x n. split; [done|by intros [?%not_elem_of_nil _]].
Qed.

(** ** The checks *)

Definition exhausted_targets (a : ExhaustedAction) : list str :=
  match a with ExRoute to => [to] | _ => [] end.
Definition on_fail_targets (n : NodeDef) : list str :=
  match nd_on_fail n with
  | Some (Repair repair recheck _ e) => repair :: recheck :: exhausted_targets e
  | Some (Regenerate _ e) => exhausted_targets e
  | Some (Route to) => [to]
  | Some AskUser | Some FailNode | None => []
  end.

Lemma validate_on_fail_refs_ok n nodes :
  validate_on_fail_refs n nodes = Ok () ↔ ∀ t, t ∈ on_fail_targets n → t ∈ bm_keys nodes.
Proof.
  assert (He : ∀ a, validate_on_exhausted_ref n nodes a = Ok () ↔
    ∀ t, t ∈ exhausted_targets a → t ∈ bm_keys nodes).
  { intros [|to|]; cbn; [set_solver| |set_solver].
    destruct (bm_contains to nodes) eqn:E; [apply bm_contains_true in E; set_solver|].
    rewrite bm_contains_false, bm_get_None in E. set_solver. }
  unfold validate_on_fail_refs, on_fail_targets.
  destruct (nd_on_fail n) as [[r c k a|k a| |to|]|]; cbn; [| apply He | set_solver | | set_solver..].
  - destruct (bm_contains r nodes) eqn:E1; cbn;
      [apply bm_contains_true in E1|rewrite bm_contains_false, bm_get_None in E1; set_solver].
    destruct (bm_contains c nodes) eqn:E2; cbn;
      [apply bm_contains_true in E2|rewrite bm_contains_false, bm_get_None in E2; set_solver].
    rewrite He. set_solver.
  - destruct (bm_contains to nodes) eqn:E; [apply bm_contains_true in E; set_solver|].
    rewrite bm_contains_false, bm_get_None in E. set_solver.
Qed.

Definition foreach_ok (m : Manifest) (n : NodeDef) : Prop :=
  nd_kind n = s"foreach" → ∃ b block, param_str n (s"subflow") = Some b ∧
    bm_get b (mf_blocks m) = Some block ∧ ∀ c, c ∈ block → nd_needs c = [].
(** What one pass of the checking loop requires of a node. *)
Definition node_ok (m : Manifest) (known : str → Prop) (n : NodeDef) : Prop :=
  (∀ y, y ∈ nd_needs n → known y) ∧ (∀ t, t ∈ on_fail_targets n → known t) ∧ foreach_ok m n.

Lemma foreach_check_ok m n :
  (if nd_kind n =s s"foreach" then
    subflow ← ok_or (param_str n (s"subflow")) (ForeachNoSubflow (nd_id n));
    block ← ok_or (bm_get subflow (mf_blocks m)) (ForeachUnknownBlock (nd_id n) subflow);
    foldM (λ _ child, if bool_decide (nd_needs child = []) then Ok ()
                      else Err (BlockChildNeeds subflow (nd_id child))) () block
   else Ok ()) = Ok () ↔ foreach_ok m n.
Proof.
  unfold foreach_ok. destruct (str_eqb_spec (nd_kind n) (s"foreach")) as [Hk|Hk]; [|naive_solver].
  assert (Hchild : ∀ b block, foldM (λ _ child, if bool_decide (nd_needs child = []) then Ok ()
      else Err (BlockChildNeeds b (nd_id child))) () block = Ok () ↔ ∀ c, c ∈ block → nd_needs c = []).
  { intros. apply foldM_unit_ok. intros _ c. case_bool_decide; naive_solver. }
  rewrite result_bind_Ok. setoid_rewrite result_bind_Ok. setoid_rewrite ok_or_Ok.
  setoid_rewrite Hchild. naive_solver.
Qed.

Lemma check_node_ok m nodes n :
  check_node m nodes n = Ok () ↔ node_ok m (λ x, x ∈ bm_keys nodes) n.
Proof.
  unfold check_node, node_ok. rewrite <-validate_on_fail_refs_ok, <-foreach_check_ok.
  rewrite <-(foldM_unit_ok _ (λ _ need, if bm_contains need nodes then Ok ()
                       else Err (UnknownNeed (nd_id n) need)) (nd_needs n)).
  2:{ intros _ x. rewrite <-bm_contains_true. by destruct (bm_contains x nodes). }
  rewrite result_bind_Ok. setoid_rewrite result_bind_Ok. split.
  - intros ([] & ? & [] & ? & ?). done.
  - intros (? & ? & ?). exists (). split; [done|]. by exists ().
Qed.

(** ** What [build] accepts *)

Definition flow_need (flow : list NodeDef) (x y : str) : Prop :=
  ∃ n, n ∈ flow ∧ nd_id n = x ∧ y ∈ nd_needs n.
Record valid_flow (m : Manifest) (flow : list NodeDef) : Prop := {
  vf_ids : NoDup (map nd_id flow);
  vf_nodes : ∀ n, n ∈ flow → node_ok m (λ x, x ∈ map nd_id flow) n;
  vf_acyclic : ∀ x, ¬ tc (flow_need flow) x x;
}.

Lemma table_need flow nodes x y : table_of flow nodes → need nodes x y ↔ flow_need flow x y.
Proof.
  intros Ht. unfold need, needs_of, flow_need. split.
  - destruct (bm_get x nodes) as [n|] eqn:E; [|by intros ?%not_elem_of_nil].
    apply (to_get _ _ Ht) in E as [? ?]. by exists n.
  - intros (n & Hn & Hx & Hy). by rewrite (proj2 (to_get _ _ Ht x n)).
Qed.
Lemma tc_ext {A} (R S : relation A) : (∀ x y, R x y ↔ S x y) → ∀ x y, tc R x y → tc S x y.
Proof.
  intros H x y Ht. induction Ht as [x y Hr|x y z Hr _ IH]; [apply tc_once|eapply tc_l; [|done]]; by apply H.
Qed.
Lemma table_acyclic flow nodes : table_of flow nodes →
  acyclic nodes ↔ ∀ x, ¬ tc (flow_need flow) x x.
Proof.
  intros Ht. unfold acyclic. pose proof (table_need flow nodes) as Hn.
  split; intros H x Hx; apply (H x); (eapply tc_ext; [|exact Hx]); intros; [symmetry|]; by apply Hn.
Qed.

Lemma table_values flow nodes n : table_of flow nodes → n ∈ bm_values nodes ↔ n ∈ flow.
Proof.
  intros Ht. unfold bm_values. rewrite list_elem_of_fmap. split.
  - intros ([k n'] & -> & Hin). apply bm_elem_get in Hin; [|apply Ht].
    by apply (to_get _ _ Ht) in Hin as [? _].
  - intros Hn. exists (nd_id n, n). split; [done|]. apply bm_get_elem. by apply (to_get _ _ Ht).
Qed.
Lemma table_checked m flow nodes : table_of flow nodes →
  foldM (λ _ node, check_node m nodes node) () (bm_values nodes) = Ok () ↔
  ∀ n, n ∈ flow → node_ok m (λ x, x ∈ map nd_id flow) n.
Proof.
  intros Ht. rewrite (foldM_unit_ok (node_ok m (λ x, x ∈ bm_keys nodes))).
  2:{ intros _ n. apply check_node_ok. }
  setoid_rewrite (table_values flow nodes); [|done]. unfold node_ok.
  setoid_rewrite (λ x, table_keys flow nodes x Ht). done.
Qed.
Lemma table_wf m flow nodes : table_of flow nodes →
  (∀ n, n ∈ flow → node_ok m (λ x, x ∈ map nd_id flow) n) → nodes_wf nodes.
Proof.
  intros Ht Hok. constructor; [apply Ht| |].
  - intros k n Hin. apply bm_elem_get in Hin; [|apply Ht]. by apply (to_get _ _ Ht) in Hin as [_ ?].
  - intros x y Hy. apply (table_need _ _ _ _ Ht) in Hy as (n & Hn & _ & Hy).
    apply (table_keys _ _ _ Ht). destruct (Hok n Hn) as [H _]. by apply H.
Qed.

(** The steps of a successful [build]. *)
Lemma build_steps m g : build m = Ok g → ∃ flow,
  flow_with_implicit_dependencies m = Ok flow ∧ valid_flow m flow ∧
  table_of flow (g_nodes g) ∧ nodes_wf (g_nodes g) ∧ topo_sort (g_nodes g) = Ok (g_order g).
Proof.
  intros H. unfold build in H. apply result_bind_Ok in H as (flow & Hflow & H).
  exists flow. split; [done|]. fold table_step in H.
  destruct (table_build flow) as [(nodes & Hn & Ht & Hnd)|[[e He] _]];
    [change (foldM _ [] flow) with (foldM table_step [] flow) in H; rewrite Hn in H; cbn [mbind result_bind] in H
    |change (foldM _ [] flow) with (foldM table_step [] flow) in H; by rewrite He in H].
  apply result_bind_Ok in H as ([] & Hc & H). apply result_bind_Ok in H as (order & Hs & [= <-]).
  cbn [g_nodes g_order]. pose proof (proj1 (table_checked m flow nodes Ht) Hc) as Hok.
  pose proof (table_wf m flow nodes Ht Hok) as Hwf.
  split; [|done]. constructor; [done..|]. apply (table_acyclic _ _ Ht), topo_sort_accepts; eauto.
Qed.

(** C39: [build] accepts a manifest exactly when its flow, with the implicit
    dependencies added, is valid: ids are unique, every need and every
    failure target names a node, a [foreach] names a block of nodes without
    needs, and the needs have no cycle. *)
Theorem build_accepts m :
  (∃ g, build m = Ok g) ↔
  ∃ flow, flow_with_implicit_dependencies m = Ok flow ∧ valid_flow m flow.
Proof.
  split.
  - intros [g (flow & ? & ? & _)%build_steps]. by exists flow.
  - intros (flow & Hflow & [Hnd Hok Hac]). unfold build. rewrite Hflow. cbn [mbind result_bind].
    change (foldM _ [] flow) with (foldM table_step [] flow).
    destruct (table_build flow) as [(nodes & Hn & Ht & _)|[_ ?]]; [|done].
    rewrite Hn. cbn [mbind result_bind]. rewrite (proj2 (table_checked m flow nodes Ht)) by done.
    cbn [mbind result_bind]. pose proof (table_wf m flow nodes Ht Hok) as Hwf.
    destruct (proj2 (topo_sort_accepts nodes Hwf)) as [order ->]; [by apply (table_acyclic flow)|].
    by eexists.
Qed.

(** The graph [build] returns holds exactly the nodes of the flow, each
    under its id, and its order lists each of them once, after everything it
    needs. *)
Theorem build_graph m g : build m = Ok g →
  ∃ flow, flow_with_implicit_dependencies m = Ok flow ∧
    (∀ x n, bm_get x (g_nodes g) = Some n ↔ n ∈ flow ∧ nd_id n = x) ∧
    topological (g_nodes g) (g_order g).
Proof.
  intros (flow & Hflow & _ & Ht & Hwf & Hs)%build_steps. exists flow. split; [done|].
  split; [apply Ht|]. by apply topo_sort_topological.
Qed.

(** ** Running and skipping *)

(** Every need of the node has ended. *)
Definition needs_ended (n : NodeDef) (states : bmap NodeState) : Prop :=
  ∀ y, y ∈ nd_needs n → is_terminal (bm_get y states) = true.
(** Later states keep what has ended. *)
Definition settles (states states' : bmap NodeState) : Prop :=
  ∀ y, is_terminal (bm_get y states) = true → bm_get y states' = bm_get y states.

Definition bad_state (o : option NodeState) : bool :=
  match o with Some (SkippedNode _ | FailedNode _) => true | _ => false end.

Lemma forallb_elem {A} (f : A → bool) l : forallb f l = true ↔ ∀ x, x ∈ l → f x = true.
Proof. rewrite List.forallb_forall. by setoid_rewrite list_elem_of_In. Qed.
Lemma existsb_elem {A} (f : A → bool) l : existsb f l = true ↔ ∃ x, x ∈ l ∧ f x = true.
Proof. rewrite List.existsb_exists. by setoid_rewrite list_elem_of_In. Qed.

Lemma dependency_failure_Some n states code :
  is_Some (dependency_failure n states code) ↔ ∃ y, y ∈ nd_needs n ∧ bad_state (bm_get y states) = true.
Proof.
  assert (Hd : ∀ y, is_Some (dependency_of states y) ↔ bad_state (bm_get y states) = true).
  { intros y. unfold dependency_of, bad_state. destruct (bm_get y states) as [[]|]; naive_solver. }
  setoid_rewrite <-Hd. unfold dependency_failure. induction (nd_needs n) as [|y l IH]; cbn.
  { split; [by intros [? [=]]|by intros (y & ?%not_elem_of_nil & _)]. }
  destruct (dependency_of states y) as [d|] eqn:E; cbn.
  - split; [|by eexists]. intros _. exists y. split; [by left|by eexists].
  - rewrite IH. split; [intros (z & ? & ?); exists z; by split; [right|]|].
    intros (z & [->|]%elem_of_cons & Hz); [|eauto]. rewrite E in Hz. by destruct Hz.
Qed.

(** The two decisions as conditions on the states of the needs. *)
Definition runs_when (n : NodeDef) (st : str → option NodeState) : Prop :=
  nd_needs n = [] ∨
  match nd_on_deps n with
  | AllSucceeded => ∀ y, y ∈ nd_needs n → is_success (st y) = true
  | AnySucceeded => ∃ y, y ∈ nd_needs n ∧ is_success (st y) = true
  | NoneFailed => ∀ y, y ∈ nd_needs n → is_settled_ok (st y) = true
  end.
Definition skips_when (n : NodeDef) (st : str → option NodeState) : Prop :=
  nd_needs n ≠ [] ∧
  match nd_on_deps n with
  | AllSucceeded => ∃ y, y ∈ nd_needs n ∧ bad_state (st y) = true
  | AnySucceeded => (∀ y, y ∈ nd_needs n → bad_state (st y) = true)
  | NoneFailed => (∀ y, y ∈ nd_needs n → is_terminal (st y) = true) ∧
                  ∃ y, y ∈ nd_needs n ∧ is_failed (st y) = true
  end.
Lemma needs_satisfied_spec n states :
  needs_satisfied n states = true ↔ runs_when n (λ y, bm_get y states).
Proof.
  unfold needs_satisfied, runs_when. case_bool_decide; [tauto|].
  destruct (nd_on_deps n); rewrite ?forallb_elem, ?existsb_elem; tauto.
Qed.
Lemma state_cases o : is_terminal o = true ↔ is_success o = true ∨ bad_state o = true.
Proof. destruct o as [[]|]; naive_solver. Qed.
Lemma bad_not_success o : bad_state o = true → is_success o = false.
Proof. by destruct o as [[]|]. Qed.
Lemma failed_bad o : is_failed o = true → bad_state o = true.
Proof. by destruct o as [[]|]. Qed.

Lemma should_skip_spec n states :
  is_Some (should_skip_by_dependencies n states) ↔ skips_when n (λ y, bm_get y states).
Proof.
  unfold should_skip_by_dependencies, skips_when. case_bool_decide as Hn.
  { split; [by intros [? [=]]|naive_solver]. }
  destruct (nd_on_deps n).
  - rewrite dependency_failure_Some. tauto.
  - case_if.
    + apply andb_true_iff in E as [E1 E2]. apply negb_true_iff in E2. rewrite forallb_elem in E1.
      assert (Hbad : ∀ y, y ∈ nd_needs n → bad_state (bm_get y states) = true).
      { intros y Hy. destruct (proj1 (state_cases _) (E1 y Hy)) as [Hs|]; [|done].
        assert (existsb (λ need, is_success (bm_get need states)) (nd_needs n) = true); [|congruence].
        apply existsb_elem. eauto. }
      rewrite dependency_failure_Some. split; [done|]. intros _.
      destruct (nd_needs n) as [|y l]; [done|]. exists y. split; [by left|]. apply Hbad. by left.
    + split; [by intros [? [=]]|]. intros [_ Hbad]. exfalso. apply andb_false_iff in E as [E|E].
      * rewrite <-not_true_iff_false, forallb_elem in E. destruct E. intros y Hy. apply state_cases. auto.
      * apply negb_false_iff, existsb_elem in E as (y & Hy & Hs).
        pose proof (bad_not_success _ (Hbad y Hy)). congruence.
  - case_if.
    + apply andb_true_iff in E as [E1 E2]. rewrite forallb_elem in E1. rewrite existsb_elem in E2.
      rewrite dependency_failure_Some. split; [done|]. intros _. destruct E2 as (y & Hy & Hf).
      exists y. split; [done|]. by apply failed_bad.
    + split; [by intros [? [=]]|]. intros (_ & H1 & H2). exfalso.
      rewrite <-forallb_elem in H1. rewrite <-existsb_elem in H2. by rewrite H1, H2 in E.
Qed.

Lemma first_failing {A} (f : A → bool) l : (∃ x, x ∈ l ∧ f x = false) →
  ∃ pre x post, l = pre ++ x :: post ∧ f x = false ∧ ∀ y, y ∈ pre → f y = true.
Proof.
  induction l as [|x l IH]; [by intros (? & ?%not_elem_of_nil & _)|].
  intros (z & Hz & Hf). destruct (f x) eqn:Ex.
  - destruct IH as (pre & y & post & -> & Hy & Hpre).
    { exists z. split; [|done]. apply elem_of_cons in Hz as [->|]; [congruence|done]. }
    exists (x :: pre), y, post. split; [done|]. split; [done|]. set_solver.
  - exists [], x, l. split; [done|]. split; [done|]. by intros ? ?%not_elem_of_nil.
Qed.
(** A node all of whose needs have ended is decided. *)
Lemma ended_decided n states : needs_ended n states →
  needs_satisfied n states = true ∨ is_Some (should_skip_by_dependencies n states).
Proof.
  rewrite needs_satisfied_spec, should_skip_spec. unfold runs_when, skips_when, needs_ended.
  intros He. destruct (decide (nd_needs n = [])) as [|Hn]; [by left; left|].
  assert (Hd : ∀ f : option NodeState → bool, (∀ y, y ∈ nd_needs n → f (bm_get y states) = true) ∨
    ∃ y, y ∈ nd_needs n ∧ f (bm_get y states) = false).
  { intros f. destruct (forallb (λ y, f (bm_get y states)) (nd_needs n)) eqn:E.
    - left. by rewrite forallb_elem in E.
    - right. clear -E. induction (nd_needs n) as [|y l IH]; [done|]. cbn in E.
      destruct (f (bm_get y states)) eqn:Ef; [|exists y; by split; [left|]].
      destruct (IH E) as (z & ? & ?). exists z. by split; [right|]. }
  assert (Hnb : ∀ o, is_terminal o = true → bad_state o = false → is_success o = true).
  { by intros [[]|]. }
  assert (Hns : ∀ o, is_terminal o = true → is_success o = false → bad_state o = true).
  { by intros [[]|]. }
  assert (Hnf : ∀ o, is_terminal o = true → is_settled_ok o = false → is_failed o = true).
  { by intros [[]|]. }
  destruct (nd_on_deps n).
  + destruct (Hd is_success) as [?|(y & Hy & Hf)]; [by left; right|]. right. split; [done|]. eauto.
  + destruct (Hd bad_state) as [?|(y & Hy & Hf)]; [by right|]. left. right. eauto.
  + destruct (Hd is_settled_ok) as [?|(y & Hy & Hf)]; [by left; right|]. right. split; [done|]. eauto 6.
Qed.

(** a node without needs runs; otherwise its [on_deps] policy decides from
    the states of its needs ([runs_when], [skips_when]).  At no moment is a
    node both ready to run and to be skipped; once all its needs have ended it
    is one of the two; and neither decision is taken back when further nodes
    end. *)
Theorem run_skip_decision n states :
  (needs_satisfied n states = true ↔ runs_when n (λ y, bm_get y states)) ∧
  (is_Some (should_skip_by_dependencies n states) ↔ skips_when n (λ y, bm_get y states)) ∧
  ¬ (needs_satisfied n states = true ∧ is_Some (should_skip_by_dependencies n states)) ∧
  (needs_ended n states →
     needs_satisfied n states = true ∨ is_Some (should_skip_by_dependencies n states)) ∧
  (∀ states', settles states states' →
     (needs_satisfied n states = true → needs_satisfied n states' = true) ∧
     (is_Some (should_skip_by_dependencies n states) →
      is_Some (should_skip_by_dependencies n states'))).
Proof.
  split; [apply needs_satisfied_spec|]. split; [apply should_skip_spec|].
  split; [|split; [apply ended_decided|]]; setoid_rewrite needs_satisfied_spec;
    setoid_rewrite should_skip_spec; unfold runs_when, skips_when, settles.
  - intros [[?|Hr] [Hn Hs]]; [done|]. destruct (nd_on_deps n).
    + destruct Hs as (y & Hy & Hb). specialize (Hr y Hy). apply bad_not_success in Hb. congruence.
    + destruct Hr as (y & Hy & Hr). specialize (Hs y Hy). apply bad_not_success in Hs. congruence.
    + destruct Hs as (_ & y & Hy & Hb). specialize (Hr y Hy). by destruct (bm_get y states) as [[]|].
  - intros states' Hst.
    assert (Hkeep : ∀ (f : option NodeState → bool) y, (∀ o, f o = true → is_terminal o = true) →
      f (bm_get y states) = true → f (bm_get y states') = true).
    { intros f y Hf H. by rewrite Hst by by apply Hf. }
    assert (H1 : ∀ o, is_success o = true → is_terminal o = true) by by intros [[]|].
    assert (H2 : ∀ o, is_settled_ok o = true → is_terminal o = true) by by intros [[]|].
    assert (H3 : ∀ o, bad_state o = true → is_terminal o = true) by by intros [[]|].
    assert (H4 : ∀ o, is_failed o = true → is_terminal o = true) by by intros [[]|].
    destruct (nd_on_deps n); naive_solver eauto.
Qed.

Lemma topological_progress nodes order states : topological nodes order →
  (∃ x, x ∈ bm_keys nodes ∧ is_terminal (bm_get x states) = false) →
  ∃ x n, bm_get x nodes = Some n ∧ is_terminal (bm_get x states) = false ∧
    (needs_satisfied n states = true ∨ is_Some (should_skip_by_dependencies n states)).
Proof.
  intros [Hp Hord] Hex.
  destruct (first_failing (λ x, is_terminal (bm_get x states)) order) as (pre & x & post & Ho & Hx & Hpre).
  { destruct Hex as (x & Hx & Hf). exists x. by rewrite Hp. }
  assert (Hk : x ∈ bm_keys nodes) by (rewrite <-Hp, Ho; set_solver).
  apply bm_get_is_Some in Hk as [n Hn]. exists x, n. split; [done|]. split; [done|].
  apply ended_decided. intros y Hy. apply Hpre, (Hord pre x post Ho). unfold need, needs_of.
  by rewrite Hn.
Qed.

(** as long as a node of a built graph has not ended, some such node is
    decided: it can run or it has to be skipped.  A run cannot get stuck. *)
Theorem run_progress m g states : build m = Ok g →
  (∃ x, x ∈ bm_keys (g_nodes g) ∧ is_terminal (bm_get x states) = false) →
  ∃ x n, bm_get x (g_nodes g) = Some n ∧ is_terminal (bm_get x states) = false ∧
    (needs_satisfied n states = true ∨ is_Some (should_skip_by_dependencies n states)).
Proof.
  intros (flow & _ & _ & Ht & Hwf & Hs)%build_steps. apply (topological_progress _ (g_order g)).
  by apply topo_sort_topological.
Qed.

(** * The flow graph: implicit dependencies

    What [flow_with_implicit_dependencies] does to each node of a flow. *)

Definition id_at (m : Manifest) (i : nat) : list str :=
  match mf_flow m !! i with Some n => [nd_id n] | None => [] end.
(** The needs a node without needs receives from its position. *)
Definition implicit_needs (m : Manifest) (range : option (nat * nat)) (i : nat) : list str :=
  match range with
  | Some (first, last) =>
      if (first <=? i) && (i <=? last) then match first with 0 => [] | S j => id_at m j end
      else if i =? S last then mf_parallel m
      else match i with 0 => [] | S j => id_at m j end
  | None => match i with 0 => [] | S j => id_at m j end
  end.
(** The parallel list names the nodes of a range of the flow, in any order. *)
Definition parallel_range (m : Manifest) (range : option (nat * nat)) : Prop :=
  match range with
  | None => mf_parallel m = []
  | Some (first, last) =>
      2 ≤ length (mf_parallel m) ∧ length (mf_parallel m) = last - first + 1 ∧
      first ≤ last ∧ last < length (mf_flow m) ∧
      ∀ j, first ≤ j → j ≤ last → ∃ n, mf_flow m !! j = Some n ∧ nd_id n ∈ mf_parallel m
  end.

Lemma set_needs_id n : set_needs n (nd_needs n) = n.
Proof. by destruct n. Qed.
Lemma set_needs_twice n a b : set_needs (set_needs n a) b = set_needs n b.
Proof. done. Qed.

Lemma chain_nodes_lookup range l : ∀ k prev j n, l !! j = Some n →
  chain_nodes range k prev l !! j = Some
    (if bool_decide (nd_needs n = []) && negb (in_range range (k + j))
     then set_needs n [match j with 0 => prev | S j => from_option nd_id [] (l !! j) end] else n).
Proof.
  induction l as [|x l IH]; intros k prev j n Hj; [done|]. destruct j as [|j]; cbn in *.
  { simplify_eq. by rewrite Nat.add_0_r. }
  etrans; [apply (IH (S k) (nd_id x) j n Hj)|]. replace (S k + j) with (k + S j) by lia.
  f_equal. by destruct j.
Qed.
Lemma chain_nodes_length range l : ∀ k prev, length (chain_nodes range k prev l) = length l.
Proof. induction l as [|x l IH]; intros; cbn; [done|]. by rewrite IH. Qed.

Lemma anchor_nodes_spec anchor l l' : anchor_nodes anchor l = Ok l' →
  l' = map (λ n, match anchor with Some a => set_needs n [a] | None => n end) l ∧
  ∀ n, n ∈ l → nd_needs n = [].
Proof.
  revert l'; induction l as [|x l IH]; intros l' H; cbn in H.
  { simplify_eq. split; [done|]. by intros ? ?%not_elem_of_nil. }
  case_bool_decide as Hx; [|done]. apply result_bind_Ok in H as (r & Hr & [= <-]).
  destruct (IH r Hr) as [-> Hn]. split; [done|]. intros n [->|]%elem_of_cons; auto.
Qed.

Lemma foldl_min_le l : ∀ x, foldl Nat.min x l ≤ x ∧ ∀ y, y ∈ l → foldl Nat.min x l ≤ y.
Proof.
  induction l as [|y l IH]; intros x; cbn; [split; [done|by intros ? ?%not_elem_of_nil]|].
  destruct (IH (Nat.min x y)) as [H1 H2]. split; [lia|]. intros z [->|Hz]%elem_of_cons; [lia|auto].
Qed.
Lemma foldl_max_ge l : ∀ x, x ≤ foldl Nat.max x l ∧ ∀ y, y ∈ l → y ≤ foldl Nat.max x l.
Proof.
  induction l as [|y l IH]; intros x; cbn; [split; [done|by intros ? ?%not_elem_of_nil]|].
  destruct (IH (Nat.max x y)) as [H1 H2]. split; [lia|]. intros z [->|Hz]%elem_of_cons; [lia|auto].
Qed.
Lemma foldl_max_in l : ∀ x, foldl Nat.max x l = x ∨ foldl Nat.max x l ∈ l.
Proof.
  induction l as [|y l IH]; intros x; cbn; [by left|].
  destruct (IH (Nat.max x y)) as [->|Hin]; [|right; by right].
  destruct (Nat.max_spec x y) as [[_ ->]|[_ ->]]; [right; by left|by left].
Qed.

(** The needs after the parallel section. *)
Definition group_needs (m : Manifest) (range : option (nat * nat)) (i : nat) : list str :=
  match range with
  | Some (first, last) =>
      if (first <=? i) && (i <=? last) then match first with 0 => [] | S j => id_at m j end
      else if i =? S last then mf_parallel m else []
  | None => []
  end.
Definition with_default (needs : list str) (n : NodeDef) : NodeDef :=
  if bool_decide (nd_needs n = []) then set_needs n needs else n.

Lemma splice_lookup {A} (f g : A → A) (l : list A) first last i :
  first ≤ last → last < length l →
  (take first l ++ map f (take (last - first + 1) (drop first l)) ++
   match drop (S last) l with n :: r => g n :: r | [] => [] end) !! i =
  (if (first <=? i) && (i <=? last) then f else if i =? S last then g else id) <$> l !! i.
Proof.
  intros Hfl Hl. destruct (decide (i < first)) as [Hi|Hi].
  { rewrite lookup_app_l by (rewrite length_take; lia). rewrite lookup_take_lt by done.
    replace (first <=? i) with false by (symmetry; apply Nat.leb_gt; lia).
    replace (i =? S last) with false by (symmetry; apply Nat.eqb_neq; lia).
    cbn. by destruct (l !! i). }
  rewrite lookup_app_r by (rewrite length_take; lia). rewrite length_take, Nat.min_l by lia.
  replace (first <=? i) with true by (symmetry; apply Nat.leb_le; lia).
  destruct (Nat.leb_spec i last) as [Hil|Hil]; cbn [andb].
  { rewrite lookup_app_l by (rewrite List.length_map, length_take, length_drop; lia).
    change (map f) with (fmap (M:=list) f). rewrite list_lookup_fmap, lookup_take_lt, lookup_drop by lia.
    by replace (first + (i - first)) with i by lia. }
  rewrite lookup_app_r by (rewrite List.length_map, length_take, length_drop; lia).
  rewrite List.length_map, length_take, length_drop, Nat.min_l by lia.
  replace (i - first - (last - first + 1)) with (i - S last) by lia.
  replace i with (S last + (i - S last)) at 2 3 by lia. rewrite <-lookup_drop.
  destruct (drop (S last) l) as [|n r]; [done|]. destruct (i - S last) as [|j]; cbn [lookup list_lookup].
  - by rewrite Nat.add_0_r, Nat.eqb_refl.
  - replace (S last + S j =? S last) with false by (symmetry; apply Nat.eqb_neq; lia). cbn.
    by destruct (r !! j).
Qed.

Lemma position_lt {A} (f : A → bool) l i : position f l = Some i → i < length l.
Proof. intros [(x & Hx & _) _]%position_Some. by apply lookup_lt_Some in Hx. Qed.

(** What the index checks establish. *)
Lemma indices_range m first indices last :
  parallel_indices m = Ok indices → list_min indices = Some first → list_max indices = Some last →
  2 ≤ length indices → last - first + 1 = length indices →
  existsb (λ i, negb (existsb (Nat.eqb i) indices)) (seq first (last - first + 1)) = false →
  parallel_range m (Some (first, last)).
Proof.
  intros Hi Hmin Hmax H2 Hlen Hall. apply traverse_Ok in Hi. cbn.
  pose proof (Forall2_length _ _ _ Hi) as Hl.
  assert (Hin : ∀ i, i ∈ indices → ∃ n, mf_flow m !! i = Some n ∧ nd_id n ∈ mf_parallel m).
  { intros i Hin. apply list_elem_of_lookup in Hin as [j Hj].
    destruct (Forall2_lookup_r _ _ _ _ _ Hi Hj) as (id & Hid & Hp%ok_or_Ok).
    apply position_Some in Hp as [(n & Hn & He) _]. apply str_eqb_eq in He as <-.
    exists n. split; [done|]. by eapply list_elem_of_lookup_2. }
  destruct indices as [|x l]; [done|]. cbn in Hmin, Hmax. simplify_eq.
  set (first := foldl Nat.min x l) in *. set (last := foldl Nat.max x l) in *.
  assert (Hle : first ≤ last).
  { pose proof (proj1 (foldl_min_le l x)). pose proof (proj1 (foldl_max_ge l x)). lia. }
  split; [lia|]. split; [lia|]. split; [done|]. split.
  - destruct (Hin last) as (n & Hn & _); [|by apply lookup_lt_Some in Hn].
    unfold last. destruct (foldl_max_in l x) as [->|]; [by left|by right].
  - intros j Hj1 Hj2. apply Hin. destruct (decide (j ∈ x :: l)) as [|Hn]; [done|]. exfalso.
    rewrite <-not_true_iff_false, List.existsb_exists in Hall. apply Hall. exists j.
    split; [apply List.in_seq; lia|]. apply negb_true_iff, not_true_iff_false.
    rewrite List.existsb_exists. intros (y & Hy & He%Nat.eqb_eq). subst y.
    by apply Hn, list_elem_of_In.
Qed.

Lemma with_default_nil n : with_default [] n = n.
Proof. unfold with_default. case_bool_decide as H; [|done]. rewrite <-H. apply set_needs_id. Qed.

Lemma apply_parallel_lookup m indices flow range :
  apply_parallel m indices = Ok (flow, range) → parallel_indices m = Ok indices →
  parallel_range m range ∧
  (∀ i, flow !! i = with_default (group_needs m range i) <$> mf_flow m !! i) ∧
  (∀ i n, in_range range i = true → mf_flow m !! i = Some n → nd_needs n = []).
Proof.
  unfold apply_parallel. intros H Hi.
  destruct (list_min indices) as [first|] eqn:Hmin;
    [destruct (list_max indices) as [last|] eqn:Hmax|]; cbv zeta in H.
  - destruct (length indices <? 2) eqn:E1; [done|]. apply Nat.ltb_ge in E1.
    destruct (last - first + 1 =? length indices) eqn:E2; [|done]. apply Nat.eqb_eq in E2. cbn [negb] in H.
    destruct (existsb _ _) eqn:E3 in H; [done|].
    pose proof (indices_range m first indices last Hi Hmin Hmax E1 E2 E3) as Hr.
    apply result_bind_Ok in H as (group & Hg & [= <- <-]).
    apply anchor_nodes_spec in Hg as [-> Hnone]. destruct Hr as (Hr1 & Hr2 & Hr3 & Hr4 & Hr5).
    assert (Hempty : ∀ i n, in_range (Some (first, last)) i = true → mf_flow m !! i = Some n → nd_needs n = []).
    { cbn. intros i n [H1%Nat.leb_le H2%Nat.leb_le]%andb_true_iff Hn. apply Hnone.
      apply (list_elem_of_lookup_2 _ (i - first)). rewrite lookup_take_lt, lookup_drop by lia.
      by replace (first + (i - first)) with i by lia. }
    split; [done|]. split; [|done]. intros i. rewrite splice_lookup by done. cbn [group_needs].
    destruct (mf_flow m !! i) as [n|] eqn:En; [|done]. cbn [fmap option_fmap option_map]. f_equal.
    destruct ((first <=? i) && (i <=? last)) eqn:Er.
    + assert (Hn : nd_needs n = []) by (by apply (Hempty i)).
      unfold with_default. rewrite bool_decide_true by done.
      destruct first as [|j]; [by rewrite <-Hn, set_needs_id|].
      unfold id_at. destruct (lookup_lt_is_Some_2 (mf_flow m) j) as [a Ha]; [lia|]. by rewrite Ha.
    + destruct (i =? S last); [done|]. by rewrite with_default_nil.
  - destruct indices; [done|by cbn in Hmax].
  - destruct indices; [|by cbn in Hmin]. simplify_eq. apply traverse_Ok in Hi.
    split; [by inversion Hi|]. split; [|done]. intros i. cbn. destruct (mf_flow m !! i); [|done].
    cbn. by rewrite with_default_nil.
Qed.

(** A node after the first one, through the chaining loop. *)
Lemma chain_step m range i o prev : parallel_range m range → [prev] = id_at m i →
  (let n := with_default (group_needs m range (S i)) o in
   if bool_decide (nd_needs n = []) && negb (in_range range (1 + i)) then set_needs n [prev] else n) =
  with_default (implicit_needs m range (S i)) o.
Proof.
  intros Hr Hp. cbv zeta. unfold with_default. destruct (bool_decide_reflect (nd_needs o = [])) as [Ho|Ho].
  2:{ by rewrite bool_decide_false. }
  cbn [nd_needs set_needs]. rewrite set_needs_twice, Hp. unfold group_needs, implicit_needs.
  destruct range as [[first last]|]; [|done]. cbn [in_range Nat.add].
  destruct ((first <=? S i) && (S i <=? last)); cbn [negb]; [by rewrite andb_false_r|].
  destruct (S i =? S last); [|done]. rewrite bool_decide_false; [done|].
  destruct Hr as [Hr _]. intros Hn. rewrite Hn in Hr. cbn in Hr. lia.
Qed.

(** The implicit dependencies keep every node and its position, id and
    declared needs; a node without needs receives those of its position: the
    nodes of the parallel group depend on the node before the group, the node
    after the group on all of the group, any other node on its predecessor,
    and the first node on nothing. *)
Theorem implicit_dependencies m flow : flow_with_implicit_dependencies m = Ok flow →
  ∃ range, parallel_range m range ∧
    (∀ i n, in_range range i = true → mf_flow m !! i = Some n → nd_needs n = []) ∧
    ∀ i, flow !! i = with_default (implicit_needs m range i) <$> mf_flow m !! i.
Proof.
  intros H. unfold flow_with_implicit_dependencies in H.
  apply result_bind_Ok in H as (indices & Hi & H). apply result_bind_Ok in H as ([flow' range] & Hp & [= <-]).
  destruct (apply_parallel_lookup _ _ _ _ Hp Hi) as (Hr & Hl & He). exists range.
  split; [done|]. split; [done|]. intros i.
  assert (Hid : ∀ j, from_option nd_id [] (flow' !! j) = from_option nd_id [] (mf_flow m !! j)).
  { intros j. rewrite Hl. destruct (mf_flow m !! j) as [o|]; [|done]. cbn.
    unfold with_default. by case_bool_decide. }
  assert (Hprev : ∀ j o, mf_flow m !! S j = Some o →
    id_at m j = [from_option nd_id [] (mf_flow m !! j)]).
  { intros j o Ho. unfold id_at. apply lookup_lt_Some in Ho.
    destruct (lookup_lt_is_Some_2 (mf_flow m) j) as [a ->]; [lia|done]. }
  destruct (mf_flow m !! i) as [o|] eqn:Eo.
  - pose proof (Hl i) as Hli. rewrite Eo in Hli. cbn in Hli |- *.
    destruct flow' as [|n r]; [done|]. destruct i as [|i].
    + cbn in Hli |- *. by rewrite Hli.
    + cbn in Hli |- *. etrans; [apply chain_nodes_lookup, Hli|]. f_equal.
      apply (chain_step m range i o _ Hr). rewrite (Hprev i o Eo), <-Hid. by destruct i.
  - pose proof (Hl i) as Hli. rewrite Eo in Hli. cbn. apply lookup_ge_None in Hli. apply lookup_ge_None.
    destruct flow' as [|n r]; [done|]. cbn. by rewrite chain_nodes_length.
Qed.

(** ** The flow graph: a manifest with a parallel group

    [plan], then [code] and [docs] in parallel, then [check], which sends a
    failure back to [code]. *)

Definition demo_node (id : str) (on_fail : option OnFail) : NodeDef :=
  mkNodeDef id (s"command") [] None AllSucceeded None on_fail None [].
Definition demo_manifest : Manifest :=
  mkManifest
    [demo_node (s"plan") None; demo_node (s"code") None; demo_node (s"docs") None;
     demo_node (s"check") (Some (Repair (s"code") (s"check") 2 ExFail))]
    [s"docs"; s"code"] [].
Definition demo_flow : list NodeDef :=
  match flow_with_implicit_dependencies demo_manifest with Ok f => f | Err _ => [] end.
Definition demo_graph : Graph :=
  match build demo_manifest with Ok g => g | Err _ => mkGraph [] [] end.

Lemma demo_flow_ok : flow_with_implicit_dependencies demo_manifest = Ok demo_flow.
Proof. vm_compute. done. Qed.
Lemma demo_build_ok : build demo_manifest = Ok demo_graph.
Proof. vm_compute. done. Qed.
Lemma demo_order : g_order demo_graph = [s"plan"; s"code"; s"docs"; s"check"].
Proof. vm_compute. done. Qed.

Lemma topo_sort_result_witness :
  topo_sort (g_nodes demo_graph) = Ok (g_order demo_graph) ∧
  topological (g_nodes demo_graph) (g_order demo_graph) ∧ acyclic (g_nodes demo_graph).
Proof.
  assert (Hs : topo_sort (g_nodes demo_graph) = Ok (g_order demo_graph)) by (vm_compute; done).
  destruct (build_steps _ _ demo_build_ok) as (_ & _ & _ & _ & Hwf & _).
  pose proof (topo_sort_result (g_nodes demo_graph) Hwf) as [[H1 _] H2]. rewrite Hs in H2.
  split; [done|]. split; [done|]. apply H1. by eexists.
Defined.

Lemma build_graph_witness :
  build demo_manifest = Ok demo_graph ∧ topological (g_nodes demo_graph) (g_order demo_graph).
Proof.
  split; [apply demo_build_ok|].
  by destruct (build_graph demo_manifest demo_graph demo_build_ok) as (_ & _ & _ & H).
Defined.

(** The group waits for [plan], and [check] for the group. *)
Lemma implicit_dependencies_witness :
  flow_with_implicit_dependencies demo_manifest = Ok demo_flow ∧
  (∃ range, parallel_range demo_manifest range ∧
     ∀ i, demo_flow !! i = with_default (implicit_needs demo_manifest range i) <$> mf_flow demo_manifest !! i) ∧
  map nd_needs demo_flow = [[]; [s"plan"]; [s"plan"]; [s"docs"; s"code"]].
Proof.
  split; [apply demo_flow_ok|]. split; [|vm_compute; done].
  destruct (implicit_dependencies demo_manifest demo_flow demo_flow_ok) as (range & H1 & _ & H2).
  by exists range.
Defined.

Definition demo_states : bmap NodeState := bm_of_list [(s"plan", Success); (s"code", Running)].
Lemma run_progress_witness :
  (∃ x, x ∈ bm_keys (g_nodes demo_graph) ∧ is_terminal (bm_get x demo_states) = false) ∧
  ∃ x n, bm_get x (g_nodes demo_graph) = Some n ∧ is_terminal (bm_get x demo_states) = false ∧
    (needs_satisfied n demo_states = true ∨ is_Some (should_skip_by_dependencies n demo_states)).
Proof.
  assert (H : ∃ x, x ∈ bm_keys (g_nodes demo_graph) ∧ is_terminal (bm_get x demo_states) = false).
  { exists (s"docs"). split; [|vm_compute; done]. apply bm_get_is_Some. vm_compute. by eexists. }
  split; [exact H|]. apply (run_progress demo_manifest demo_graph demo_states demo_build_ok H).
Defined.
