(* ===== verification/TextGate.v ===== *)
(** * The credential gate of streamed text

    [crates/llm/src/text_gate.rs]: text deltas of a provider pass through the
    gate, which withholds the last [key.len() - 1] bytes so that no byte of
    the provider's credential is published, however the stream is cut into
    chunks.  Strings are sequences of code points; lengths and the split are
    in UTF-8 bytes, as in the source. *)

From S2P Require Import Prelude Str.

Record SensitiveTextGate : Type := mkGate {
  tg_key : str;
  tg_holdback : Z;
  tg_unverified : str;
}.
Definition gate_default : SensitiveTextGate := mkGate [] 0 [].
Definition gate_new (key : option str) : SensitiveTextGate :=
  match key with
  | Some k => if bool_decide (k = []) then gate_default else mkGate k (Z.max 0 (str_len k - 1)) []
  | None => gate_default
  end.

(** [drain(..floor_char_boundary(i))]: the longest prefix of whole characters
    of at most [i] bytes, and what is left. *)
Fixpoint split_floor (i : Z) (x : str) : str * str :=
  match x with
  | [] => ([], [])
  | c :: r =>
      if (utf8_len c <=? i)%Z then
        let '(a, b) := split_floor (i - utf8_len c) r in (c :: a, b)
      else ([], x)
  end.

(** The gate after the call, and what is cleared for publication. *)
Definition push (g : SensitiveTextGate) (text : str) : SensitiveTextGate * result unit str :=
  if bool_decide (tg_key g = []) then (g, Ok text)
  else
    let unverified := tg_unverified g ++ text in
    if contains_str unverified (tg_key g)
    then (mkGate (tg_key g) (tg_holdback g) unverified, Err ())
    else
      let '(cleared, rest) :=
        split_floor (Z.max 0 (str_len unverified - tg_holdback g)) unverified in
      (mkGate (tg_key g) (tg_holdback g) rest, Ok cleared).

Definition finish (g : SensitiveTextGate) : result unit str :=
  if bool_decide (tg_key g = []) then Ok []
  else if contains_str (tg_unverified g) (tg_key g) then Err ()
  else Ok (tg_unverified g).

(** A stream: chunks are pushed in order until one is refused; the result is
    the text published so far and the gate. *)
Definition push_step (acc : str * SensitiveTextGate) (text : str) :
    result unit (str * SensitiveTextGate) :=
  let '(g, r) := push acc.2 text in
  cleared ← r; Ok (acc.1 ++ cleared, g).
Definition pushes (key : str) (chunks : list str) : result unit (str * SensitiveTextGate) :=
  foldM push_step ([], gate_new (Some key)) chunks.

(** ** The split *)

Lemma str_len_app a b : str_len (a ++ b) = (str_len a + str_len b)%Z.
Proof. induction a as [|c a IH]; cbn; lia. Qed.
Lemma split_floor_spec x : ∀ i a b, split_floor i x = (a, b) →
  x = a ++ b ∧ (a ≠ [] → str_len a ≤ i)%Z.
Proof.
  induction x as [|c x IH]; intros i a b H; cbn in H; [by simplify_eq|].
  destruct (Z.leb_spec (utf8_len c) i); [|by simplify_eq].
  destruct (split_floor (i - utf8_len c) x) as [a' b'] eqn:E. simplify_eq.
  destruct (IH _ _ _ E) as [-> Ha]. split; [done|]. intros _. cbn.
  destruct a' as [|d a']; [cbn; lia|]. specialize (Ha ltac:(done)). lia.
Qed.
(** At most one character more than necessary is withheld. *)
Lemma split_floor_max x : ∀ i a b, (0 ≤ i)%Z → split_floor i x = (a, b) →
  b = [] ∨ (i - 3 ≤ str_len a)%Z.
Proof.
  induction x as [|c x IH]; intros i a b Hi H; cbn in H; [simplify_eq; by left|].
  pose proof (utf8_len_pos c). destruct (Z.leb_spec (utf8_len c) i).
  - destruct (split_floor (i - utf8_len c) x) as [a' b'] eqn:E. simplify_eq.
    destruct (IH (i - utf8_len c)%Z _ _ ltac:(lia) E) as [->|]; [by left|]. right. cbn [str_len]. lia.
  - simplify_eq. right. cbn [str_len]. lia.
Qed.

(** ** The invariant of a stream *)

Record gate_inv (key emitted published : str) (g : SensitiveTextGate) : Prop := {
  gi_key : tg_key g = key;
  gi_holdback : tg_holdback g = (str_len key - 1)%Z;
  gi_text : emitted = published ++ tg_unverified g;
  gi_clean : contains_str emitted key = false;
  gi_held : published = [] ∨ (tg_holdback g ≤ str_len (tg_unverified g))%Z;
  gi_bound : (str_len (tg_unverified g) ≤ tg_holdback g + 3)%Z;
}.

Definition occurs (key x : str) : Prop := ∃ pre post, x = pre ++ key ++ post.
Lemma contains_occurs x key : contains_str x key = true ↔ occurs key x.
Proof. rewrite contains_str_spec. done. Qed.

Lemma str_len_nil x : str_len x = 0%Z → x = [].
Proof. destruct x as [|c x]; [done|]. cbn. pose proof (utf8_len_pos c). pose proof (str_len_nonneg x). lia. Qed.

(** Where enough is withheld and the text so far is clean, an occurrence of the
    key in the stream, now or later, starts after what has been published. *)
Lemma occurrence_after_published key published held later pre post :
  key ≠ [] → contains_str (published ++ held) key = false →
  published = [] ∨ (str_len key - 1 ≤ str_len held)%Z →
  (published ++ held) ++ later = pre ++ key ++ post → ∃ gap, pre = published ++ gap.
Proof.
  intros Hk Hc Hheld Heq.
  rewrite <-not_true_iff_false, contains_occurs in Hc. rewrite <-(assoc (++)) in Heq.
  apply app_eq_inv in Heq as [(k & Hp & Heq)|(k & Hp & _)]; [|by exists k].
  destruct (decide (k = [])) as [->|Hne]; [exists []; by rewrite !app_nil_r in *|].
  exfalso. destruct Hheld as [->|Hheld]; [by destruct pre, k|]. rewrite (assoc (++)) in Heq.
  apply app_eq_inv in Heq as [(j & Hj & _)|(j & Hj & _)].
  - assert (j = []) as ->.
    { apply str_len_nil. apply (f_equal str_len) in Hj. rewrite !str_len_app in Hj.
      pose proof (str_len_nonneg j). destruct k as [|c k]; [done|]. cbn [str_len] in Hj.
      pose proof (utf8_len_pos c). pose proof (str_len_nonneg k). lia. }
    apply Hc. exists pre, []. by rewrite Hp, Hj, !app_nil_r, <-(assoc (++)).
  - apply Hc. exists pre, j. by rewrite Hp, <-Hj, <-(assoc (++)).
Qed.
Lemma occurrence_unpublished key emitted published g later pre post :
  key ≠ [] → gate_inv key emitted published g → emitted ++ later = pre ++ key ++ post →
  ∃ gap, pre = published ++ gap.
Proof.
  intros Hk [_ Hh -> Hc Hheld _]. apply occurrence_after_published; [done|done|].
  by rewrite <-Hh.
Qed.

Lemma push_inv key emitted published g text :
  key ≠ [] → gate_inv key emitted published g →
  (occurs key (emitted ++ text) ∧ (push g text).2 = Err ()) ∨
  ∃ cleared g', push g text = (g', Ok cleared) ∧
    gate_inv key (emitted ++ text) (published ++ cleared) g'.
Proof.
  intros Hk Hinv. pose proof Hinv as [Hkey Hh Ht Hc Hheld _].
  unfold push. rewrite bool_decide_false by by rewrite Hkey. rewrite Hkey.
  destruct (contains_str (tg_unverified g ++ text) key) eqn:E.
  - left. split; [|done]. apply contains_occurs in E as (pre & post & E).
    exists (published ++ pre), post. by rewrite Ht, <-!(assoc (++)), E.
  - right. set (u := tg_unverified g ++ text) in *.
    destruct (split_floor (Z.max 0 (str_len u - tg_holdback g)) u) as [cleared rest] eqn:Es.
    destruct (split_floor_spec _ _ _ _ Es) as [Hu Hlen].
    pose proof (split_floor_max u _ cleared rest (Z.le_max_l 0 _) Es) as Hmax.
    eexists _, _. split; [done|].
    pose proof (f_equal str_len Hu) as Hul. rewrite str_len_app in Hul.
    pose proof (str_len_nonneg rest). pose proof (str_len_nonneg cleared).
    assert (Hpos : (0 ≤ tg_holdback g)%Z).
    { rewrite Hh. destruct key as [|c key]; [done|]. cbn [str_len].
      pose proof (utf8_len_pos c). pose proof (str_len_nonneg key). lia. }
    constructor; cbn [tg_key tg_holdback tg_unverified].
    + done.
    + done.
    + rewrite Ht, <-!(assoc (++)), <-Hu. done.
    + apply not_true_iff_false. rewrite contains_occurs. intros (pre & post & Hocc).
      destruct (occurrence_unpublished _ _ _ _ _ _ _ Hk Hinv Hocc) as [gap ->].
      rewrite <-not_true_iff_false, contains_occurs in E. apply E. exists gap, post.
      rewrite Ht, <-!(assoc (++)) in Hocc. by apply app_inv_head in Hocc.
    + destruct (decide (cleared = [])) as [->|Hne].
      * rewrite app_nil_r. destruct Hheld as [?|Hheld]; [by left|]. right.
        assert (str_len u = str_len (tg_unverified g) + str_len text)%Z as Hu' by apply str_len_app.
        pose proof (str_len_nonneg text). cbn [str_len] in Hul. lia.
      * right. specialize (Hlen Hne). destruct cleared as [|c cleared]; [done|]. cbn [str_len] in *.
        pose proof (utf8_len_pos c). pose proof (str_len_nonneg cleared). lia.
    + destruct Hmax as [->|Hmax]; [cbn [str_len]; lia|]. lia.
Qed.

Lemma pushes_inv key chunks : key ≠ [] → ∀ emitted published g, gate_inv key emitted published g →
  match foldM push_step (published, g) chunks with
  | Ok (published', g') => gate_inv key (emitted ++ concat chunks) published' g'
  | Err _ => occurs key (emitted ++ concat chunks)
  end.
Proof.
  intros Hk. induction chunks as [|text chunks IH]; intros emitted published g Hinv.
  { cbn. by rewrite app_nil_r. }
  cbn [concat foldM]. rewrite app_assoc.
  assert (Hstep : push_step (published, g) text =
    let '(g', r) := push g text in cleared ← r; Ok (published ++ cleared, g')) by done.
  rewrite Hstep. clear Hstep.
  destruct (push_inv _ _ _ _ text Hk Hinv) as [[(pre & post & Hocc) Herr]|(cleared & g' & -> & Hinv')].
  - destruct (push g text) as [g' r]. cbn in Herr |- *. subst r. cbn.
    exists pre, (post ++ concat chunks). by rewrite Hocc, <-!(assoc (++)).
  - cbn. by apply IH.
Qed.

Lemma gate_new_inv key : key ≠ [] → gate_inv key [] [] (gate_new (Some key)).
Proof.
  intros Hk. unfold gate_new. rewrite bool_decide_false by done.
  assert (1 ≤ str_len key)%Z as Hl.
  { destruct key as [|c key]; [done|]. cbn [str_len].
    pose proof (utf8_len_pos c). pose proof (str_len_nonneg key). lia. }
  constructor; cbn [tg_key tg_holdback tg_unverified]; [done|lia|done| |by left|cbn [str_len]; lia].
  apply not_true_iff_false. rewrite contains_occurs. intros (pre & post & Hocc). by destruct pre, key.
Qed.
Lemma pushes_spec key chunks : key ≠ [] →
  match pushes key chunks with
  | Ok (published, g) => gate_inv key (concat chunks) published g
  | Err _ => occurs key (concat chunks)
  end.
Proof. intros Hk. by apply (pushes_inv key chunks Hk [] []), gate_new_inv. Qed.

(** The gate refuses a stream exactly when the credential occurs in its
    text, however the text is cut into chunks; any other stream is delivered
    unchanged, with at most [key.len() + 2] bytes withheld until the end. *)
Theorem gate_delivers_clean_text key chunks : key ≠ [] →
  (is_ok (pushes key chunks) = false ↔ occurs key (concat chunks)) ∧
  ∀ published g, pushes key chunks = Ok (published, g) →
    finish g = Ok (tg_unverified g) ∧ published ++ tg_unverified g = concat chunks ∧
    (str_len (tg_unverified g) ≤ str_len key + 2)%Z.
Proof.
  intros Hk. pose proof (pushes_spec key chunks Hk) as Hs.
  destruct (pushes key chunks) as [[published g]|e]; cbn.
  - pose proof Hs as [Hkey Hh Ht Hc _ Hb]. split.
    + split; [done|]. rewrite <-contains_occurs. congruence.
    + intros ? ? [= <- <-]. unfold finish. rewrite bool_decide_false by by rewrite Hkey.
      split; [|split; [done|lia]]. destruct (contains_str (tg_unverified g) (tg_key g)) eqn:E; [|done]. exfalso.
      rewrite Hkey in E. apply contains_occurs in E as (pre & post & E).
      rewrite <-not_true_iff_false, contains_occurs in Hc. apply Hc.
      exists (published ++ pre), post. by rewrite Ht, E, <-(assoc (++)).
  - split; [done|]. intros ? ? [=].
Qed.

(** No part of a credential is ever published.  Whatever text follows,
    every occurrence of the credential in the whole stream starts after the
    text published so far. *)
Theorem gate_never_publishes_credential key chunks published g later pre post :
  key ≠ [] → pushes key chunks = Ok (published, g) →
  concat chunks ++ later = pre ++ key ++ post → ∃ gap, pre = published ++ gap.
Proof.
  intros Hk Hp. pose proof (pushes_spec key chunks Hk) as Hs. rewrite Hp in Hs.
  by apply (occurrence_unpublished _ _ _ g).
Qed.

Lemma gate_delivers_clean_text_witness :
  pushes (s"aba") [s"ab"; s"bab"] = Ok (s"abb", mkGate (s"aba") 2 (s"ab")) ∧
  finish (mkGate (s"aba") 2 (s"ab")) = Ok (s"ab").
Proof.
  split; [vm_compute; done|].
  by apply (gate_delivers_clean_text (s"aba") [s"ab"; s"bab"] ltac:(done)) with (published := s"abb").
Defined.
(** The next chunk completes the credential: none of it had been published. *)
Lemma gate_never_publishes_credential_witness :
  ∃ gap, s"abb" = s"abb" ++ gap.
Proof.
  apply (gate_never_publishes_credential (s"aba") [s"ab"; s"bab"] (s"abb")
           (mkGate (s"aba") 2 (s"ab")) (s"a") (s"abb") []); [done|vm_compute; done|done].
Defined.
