(* ===== verification/Scheduler.v ===== *)
(** * The run queue and the execution slots *)

From S2P Require Import Prelude Str Sorting BMap.
From Stdlib Require Import Sorted.

(** * The run queue

    [crates/service/src/queue.rs] with its clients in [runs_api/preemption.rs],
    [runs_api/query.rs] and [lifecycle.rs]: the order of queued runs, the
    choice of a preemption victim, the reported queue position, and the pool
    of execution slots.  A timestamp is a number of nanoseconds.  Of a
    [RunRecord] the fields the scheduler reads are kept. *)

(** ** Records and the queue *)

Inductive RunStatus : Type :=
| Queued | Running | Waiting | Confirming | CancelRequested
| Succeeded | Failed | Canceled | Interrupted.
#[global] Instance RunStatus_eq_dec : EqDecision RunStatus.
Proof. solve_decision. Defined.
Definition status_is_terminal (x : RunStatus) : bool :=
  match x with Succeeded | Failed | Canceled | Interrupted => true | _ => false end.

Record RunRecord : Type := mkRunRecord {
  rr_priority : Z;
  rr_preempted : bool;
  rr_state : RunStatus;
  rr_queued_at : option Z;
  rr_ephemeral : bool;
}.

(** [(Reverse(priority), queued_at.is_none(), queued_at, run_id)]. *)
Abbreviation QueueKey := (Z * (bool * (option Z * str)))%type.
Definition queue_key (priority : Z) (queued_at : option Z) (run_id : str) : QueueKey :=
  (priority, (bool_decide (queued_at = None), (queued_at, run_id))).
Definition queue_key_cmp : QueueKey → QueueKey → comparison :=
  lex (rev_cmp Z.compare) (lex bool_cmp (lex (option_cmp Z.compare) str_cmp)).

Definition record_key (e : str * RunRecord) : QueueKey :=
  queue_key (rr_priority e.2) (rr_queued_at e.2) e.1.
Definition is_queued (e : str * RunRecord) : bool := bool_decide (rr_state e.2 = Queued).
Definition queue_head (runs : bmap RunRecord) : option str :=
  fst <$> min_by (λ a b, queue_key_cmp (record_key a) (record_key b)) (List.filter is_queued runs).

(** ** Preemption *)

Definition victim_cmp (l r : str * Z) : comparison :=
  match Z.compare l.2 r.2 with Eq => str_cmp r.1 l.1 | o => o end.
Definition select_preemption_victim (running : list (str * Z))
    (occupied_slots max_active_runs arrival_priority : Z) : option str :=
  if (occupied_slots <? max_active_runs)%Z then None
  else fst <$> min_by victim_cmp (List.filter (λ e, (e.2 <? arrival_priority)%Z) running).

(** The choice made by [preempt_for_priority] from the run table. *)
Definition occupies_slot (e : str * RunRecord) : bool :=
  bool_decide (rr_state e.2 = Running) && negb (rr_ephemeral e.2).
Definition preemption_victim (enabled : bool) (runs : bmap RunRecord) (max_active_runs priority : Z) :
    option str :=
  if negb enabled then None
  else
    let occupied := Z.of_nat (length (List.filter occupies_slot runs)) in
    let running := map (λ e, (e.1, rr_priority e.2))
                     (List.filter (λ e, occupies_slot e && negb (rr_preempted e.2)) runs) in
    select_preemption_victim running occupied max_active_runs priority.

(** ** Queue positions *)

(** A [QueueOrderEntry]: run id, priority, admission time. *)
Abbreviation QueueOrderEntry := (str * (Z * option Z))%type.
Definition entry_key (e : QueueOrderEntry) : QueueKey := queue_key e.2.1 e.2.2 e.1.
Definition memory_queued (runs : bmap RunRecord) : list QueueOrderEntry :=
  map (λ e, (e.1, (rr_priority e.2, rr_queued_at e.2))) (List.filter is_queued runs).
Definition entry_cmp (a b : QueueOrderEntry) : comparison :=
  queue_key_cmp (entry_key a) (entry_key b).
(** The queued runs in memory, the target when it is not among them, and the
    runs of other processes found on disk; the position is counted from one. *)
Definition queue_order (runs : bmap RunRecord) (disk_entries : list QueueOrderEntry)
    (target : QueueOrderEntry) : list QueueOrderEntry :=
  let order := memory_queued runs in
  (if existsb (λ e, e.1 =s target.1) order then order else order ++ [target]) ++ disk_entries.
Definition queue_position (runs : bmap RunRecord) (disk_entries : list QueueOrderEntry)
    (target : QueueOrderEntry) : option nat :=
  S <$> position (λ e, e.1 =s target.1) (sort_by entry_cmp (queue_order runs disk_entries target)).

(** ** Execution slots *)

Definition try_take (available : Z) : Z * bool :=
  if (available =? 0)%Z then (available, false) else ((available - 1)%Z, true).
(** [Drop for Permit]. *)
Definition drop_permit (available : Z) : Z := (available + 1)%Z.

(** * The run queue: order, preemption, positions and slots *)

(** The documented queue order: higher priority first, then earlier admission
    (runs without one last), then run id. *)
Definition admitted_before (a b : option Z) : Prop :=
  match a, b with
  | Some x, Some y => (x < y)%Z
  | Some _, None => True
  | None, _ => False
  end.
Definition precedes (a b : str * RunRecord) : Prop :=
  (rr_priority b.2 < rr_priority a.2)%Z ∨
  rr_priority a.2 = rr_priority b.2 ∧
  (admitted_before (rr_queued_at a.2) (rr_queued_at b.2) ∨
   rr_queued_at a.2 = rr_queued_at b.2 ∧ str_lt a.1 b.1).

#[global] Instance queue_key_total : TotalCmp queue_key_cmp.
Proof. unfold queue_key_cmp. apply _. Qed.

Lemma record_key_lt a b :
  queue_key_cmp (record_key a) (record_key b) = Lt ↔ precedes a b.
Proof.
  destruct a as [i [p x1 x2 t x3]], b as [j [q y1 y2 u y3]].
  unfold queue_key_cmp, record_key, queue_key, precedes, lex, rev_cmp, str_lt. cbn.
  destruct (Z.compare_spec q p) as [->|H|H]; [|naive_solver lia|naive_solver lia].
  destruct t as [t|], u as [u|]; cbn.
  - destruct (Z.compare_spec t u) as [->|H|H]; [naive_solver lia|naive_solver lia|].
    split; [done|]. intros [?|[_ [?|[[= ->] _]]]]; lia.
  - split; [|done]. right. auto.
  - split; [done|]. intros [?|[_ [[]|[? _]]]]; [lia|done].
  - naive_solver lia.
Qed.
Lemma record_key_inj a b : record_key a = record_key b → a.1 = b.1.
Proof. unfold record_key, queue_key. by intros [=]. Qed.

Definition queued_run (runs : bmap RunRecord) (id : str) (r : RunRecord) : Prop :=
  bm_get id runs = Some r ∧ rr_state r = Queued.
Lemma queued_elem runs id r : bm_sorted runs →
  (id, r) ∈ List.filter is_queued runs ↔ queued_run runs id r.
Proof.
  intros Hs. rewrite list_elem_of_In, List.filter_In, <-list_elem_of_In.
  unfold is_queued, queued_run. rewrite bm_elem_get, bool_decide_eq_true by done. done.
Qed.

Lemma precedes_asym a b : precedes a b → ¬ precedes b a.
Proof.
  rewrite <-!record_key_lt, (tc_antisym (record_key b)). by intros ->.
Qed.
Lemma queue_head_None runs : bm_sorted runs →
  queue_head runs = None ↔ ∀ id r, ¬ queued_run runs id r.
Proof.
  intros Hs. unfold queue_head. rewrite fmap_None, min_by_None. split.
  - intros Hnil id r Hq. apply queued_elem in Hq; [|done]. rewrite Hnil in Hq.
    by apply not_elem_of_nil in Hq.
  - intros Hn. destruct (List.filter is_queued runs) as [|[id r] l] eqn:E; [done|].
    destruct (Hn id r). apply queued_elem; [done|]. rewrite E. by left.
Qed.
Lemma queue_head_Some runs id : bm_sorted runs →
  queue_head runs = Some id →
  ∃ r, queued_run runs id r ∧
    ∀ id' r', queued_run runs id' r' → id' ≠ id → precedes (id, r) (id', r').
Proof.
  intros Hs Hid. unfold queue_head in Hid. apply fmap_Some in Hid as ([id0 r] & Hmin & ->). cbn [fst].
  apply (min_by_Some record_key queue_key_cmp) in Hmin as [Hin Hle].
  exists r. split; [by apply queued_elem|]. intros id' r' Hq Hne.
  apply record_key_lt. apply queued_elem in Hq; [|done]. specialize (Hle _ Hq).
  destruct (queue_key_cmp (record_key (id0, r)) (record_key (id', r'))) eqn:E; [|done|done].
  apply tc_eq, record_key_inj in E. cbn in E. congruence.
Qed.
Lemma queue_head_iff runs id r : bm_sorted runs → queued_run runs id r →
  queue_head runs = Some id ↔
  ∀ id' r', queued_run runs id' r' → ¬ precedes (id', r') (id, r).
Proof.
  intros Hs Hq. split.
  - intros Hh id' r' Hq' Hp. destruct (queue_head_Some _ _ Hs Hh) as (r0 & Hq0 & Hall).
    assert (r0 = r) as -> by (destruct Hq, Hq0; congruence).
    destruct (decide (id' = id)) as [->|Hne]; [|by apply (precedes_asym _ _ Hp), Hall].
    assert (r' = r) as -> by (destruct Hq, Hq'; congruence). by apply (precedes_asym _ _ Hp).
  - intros Hno. destruct (queue_head runs) as [h|] eqn:Hh.
    + destruct (queue_head_Some _ _ Hs Hh) as (rh & Hqh & Hall).
      destruct (decide (id = h)) as [->|Hne]; [done|]. destruct (Hno h rh Hqh). by apply Hall.
    + by destruct (proj1 (queue_head_None runs Hs) Hh id r).
Qed.

(** The queue head is the queued run that precedes every other queued
    run: higher priority first, first in first out among equals; there is no
    head only when nothing is queued. *)
Theorem queue_head_first runs : bm_sorted runs →
  (queue_head runs = None ↔ ∀ id r, ¬ queued_run runs id r) ∧
  ∀ id, queue_head runs = Some id →
    ∃ r, queued_run runs id r ∧
      ∀ id' r', queued_run runs id' r' → id' ≠ id → precedes (id, r) (id', r').
Proof.
  intros Hs. split; [by apply queue_head_None|]. intros id. by apply queue_head_Some.
Qed.

(** ** Preemption *)

#[global] Instance victim_total : TotalCmp (lex Z.compare (rev_cmp str_cmp)).
Proof. apply _. Qed.

(** preemption evicts at most one run and only when every slot is taken:
    the victim is a live, not yet preempted run of strictly lower priority
    than the arrival, no eligible run has a lower priority, and among equals
    the largest id is taken.  When no such run exists nobody is evicted. *)
Theorem preemption_victim_spec runs max_active priority : bm_sorted runs →
  let eligible id r := bm_get id runs = Some r ∧ rr_state r = Running ∧
    rr_ephemeral r = false ∧ rr_preempted r = false ∧ (rr_priority r < priority)%Z in
  let full := (max_active ≤ Z.of_nat (length (List.filter
    (λ e, bool_decide (rr_state e.2 = Running ∧ rr_ephemeral e.2 = false)) runs)))%Z in
  (preemption_victim true runs max_active priority = None ↔ ¬ full ∨ ∀ id r, ¬ eligible id r) ∧
  ∀ v, preemption_victim true runs max_active priority = Some v →
    full ∧ ∃ r, eligible v r ∧
      ∀ id r', eligible id r' → id ≠ v →
        (rr_priority r < rr_priority r')%Z ∨ rr_priority r = rr_priority r' ∧ str_lt id v.
Proof.
  intros Hs eligible full. unfold preemption_victim, select_preemption_victim. cbn [negb].
  assert (Hslot : List.filter (λ e, bool_decide (rr_state e.2 = Running ∧ rr_ephemeral e.2 = false)) runs =
    List.filter occupies_slot runs).
  { apply List.filter_ext. intros [k r]. unfold occupies_slot. cbn.
    destruct (rr_ephemeral r); repeat case_bool_decide; naive_solver. }
  unfold full in *. clear full. rewrite Hslot.
  set (occupied := Z.of_nat (length (List.filter occupies_slot runs))) in *.
  set (cand := List.filter _ (map _ _)).
  assert (Hcand : ∀ id p, (id, p) ∈ cand ↔ ∃ r, eligible id r ∧ rr_priority r = p).
  { intros id p. unfold cand. rewrite list_elem_of_In, List.filter_In, List.in_map_iff. cbn [snd].
    rewrite Z.ltb_lt. unfold eligible. split.
    - intros [([k r] & [= -> <-] & Hin) Hp]. apply List.filter_In in Hin as [Hin Ho].
      apply list_elem_of_In, bm_elem_get in Hin; [|done]. unfold occupies_slot in Ho. cbn in Ho.
      rewrite !andb_true_iff, !negb_true_iff, bool_decide_eq_true in Ho. naive_solver.
    - intros (r & (Hg & Hr & He & Hp & Hlt) & <-). split; [|done]. exists (id, r). split; [done|].
      apply List.filter_In. split; [by apply list_elem_of_In, bm_elem_get|].
      unfold occupies_slot. cbn. by rewrite Hr, He, Hp. }
  assert (Hmin : ∀ x, min_by victim_cmp cand = Some x →
    x ∈ cand ∧ ∀ y, y ∈ cand → lex Z.compare (rev_cmp str_cmp) (x.2, x.1) (y.2, y.1) ≠ Gt).
  { intros x Hx. by apply (min_by_Some (λ e : str * Z, (e.2, e.1)) (lex Z.compare (rev_cmp str_cmp))). }
  destruct (Z.ltb_spec occupied max_active) as [Hocc|Hocc].
  { split; [|done]. split; [|done]. intros _. left. lia. }
  split.
  - rewrite fmap_None. split.
    + intros Hnone. right. intros id r He. assert (Hin : (id, rr_priority r) ∈ cand).
      { apply Hcand. by exists r. }
      destruct cand; [by apply not_elem_of_nil in Hin|done].
    + intros [Hf|Hno]; [lia|]. destruct cand as [|[id p] l] eqn:E; [done|].
      assert (Hin : (id, p) ∈ (id, p) :: l) by by left. rewrite Hcand in Hin.
      destruct Hin as (r & Hr & _). by destruct (Hno id r).
  - intros v Hv. split; [done|]. apply fmap_Some in Hv as ([v0 p] & Hv & ->). cbn [fst].
    destruct (Hmin _ Hv) as [Hin Hle]. apply Hcand in Hin as (r & Hr & <-). exists r. split; [done|].
    intros id r' He Hne. specialize (Hle (id, rr_priority r')). cbn [fst snd] in Hle.
    assert (Hin : (id, rr_priority r') ∈ cand) by (apply Hcand; by exists r'). specialize (Hle Hin).
    unfold lex, rev_cmp in Hle. cbn [fst snd] in Hle.
    destruct (Z.compare_spec (rr_priority r) (rr_priority r')) as [Heq|Hlt|Hgt]; [right|by left|done].
    split; [done|]. unfold str_lt. destruct (str_cmp id v0) eqn:E; [by apply str_cmp_eq in E|done|done].
Qed.

(** ** Positions *)

Lemma entry_key_inj a b : entry_key a = entry_key b → a.1 = b.1.
Proof. unfold entry_key, queue_key. by intros [=]. Qed.

Lemma memory_ids runs : bm_sorted runs → NoDup (map fst (memory_queued runs)) ∧
  ∀ id, id ∈ map fst (memory_queued runs) → id ∈ bm_keys runs.
Proof.
  intros Hs. unfold memory_queued. rewrite List.map_map. cbn.
  induction runs as [|[k r] runs IH]; cbn.
  { split; [constructor|by intros ? ?%not_elem_of_nil]. }
  apply bm_sorted_cons in Hs as [Hlt Hs]. destruct (IH Hs) as [H1 H2].
  destruct (is_queued (k, r)); cbn.
  - split; [|intros id [->|]%elem_of_cons; [by left|right; by apply H2]].
    constructor; [|done]. intros Hin. apply (irreflexivity str_lt k), Hlt, H2, Hin.
  - split; [done|]. intros. right. by apply H2.
Qed.

Lemma NoDup_fst {A B} (l : list (A * B)) k v v' :
  NoDup (map fst l) → (k, v) ∈ l → (k, v') ∈ l → v = v'.
Proof.
  induction l as [|[k0 v0] l IH]; cbn; [by intros _ ?%not_elem_of_nil|].
  intros [Hni Hnd]%NoDup_cons. assert (Hk : ∀ w, (k0, w) ∈ l → False).
  { intros w Hw. apply Hni, list_elem_of_In, (List.in_map fst _ (k0, w)), list_elem_of_In, Hw. }
  intros [H1|H1]%elem_of_cons [H2|H2]%elem_of_cons; simplify_eq;
    [done|by destruct (Hk v')|by destruct (Hk v)|by apply IH].
Qed.
Lemma memory_elem runs id p q : bm_sorted runs →
  (id, (p, q)) ∈ memory_queued runs ↔
  ∃ r, queued_run runs id r ∧ rr_priority r = p ∧ rr_queued_at r = q.
Proof.
  intros Hs. unfold memory_queued. rewrite list_elem_of_fmap. split.
  - intros ([k r] & [= -> -> ->] & Hin%queued_elem); [|done]. by exists r.
  - intros (r & Hq & <- & <-). exists (id, r). split; [done|]. by apply queued_elem.
Qed.
Lemma length_filter_0 {A} (f : A → bool) l :
  length (List.filter f l) = 0 ↔ ∀ x, x ∈ l → f x = false.
Proof.
  induction l as [|x l IH]; cbn; [split; [by intros _ ? ?%not_elem_of_nil|done]|].
  destruct (f x) eqn:E; cbn; [|rewrite IH; set_solver].
  split; [done|]. intros H. rewrite (H x) in E by by left. done.
Qed.

(** The position reported for a queued run is one more than the number of
    queued runs, in memory and on disk, that the scheduler's order puts
    before it; with no entries of other processes, position one is exactly
    the queue head. *)
Theorem queue_position_exact runs disk id r priority queued_at :
  bm_sorted runs → queued_run runs id r →
  NoDup (map fst disk) → (∀ e, e ∈ disk → e.1 ∉ bm_keys runs) →
  let entry := (id, (rr_priority r, rr_queued_at r)) in
  queue_position runs disk (id, (priority, queued_at)) =
    Some (S (before entry_key queue_key_cmp entry (memory_queued runs ++ disk))) ∧
  (disk = [] → queue_position runs disk (id, (priority, queued_at)) = Some 1 ↔ queue_head runs = Some id).
Proof.
  intros Hs Hq Hnd Hdisk entry.
  assert (Hin : entry ∈ memory_queued runs) by (apply memory_elem; [done|by exists r]).
  assert (Hpos : queue_position runs disk (id, (priority, queued_at)) =
    Some (S (before entry_key queue_key_cmp entry (memory_queued runs ++ disk)))).
  { unfold queue_position, queue_order. cbn [fst].
    replace (existsb _ _) with true.
    2:{ symmetry. apply List.existsb_exists. exists entry.
        split; [by apply list_elem_of_In|]. apply str_eqb_refl. }
    destruct (sort_by_spec entry_key queue_key_cmp (memory_queued runs ++ disk)) as [Hperm Hsorted].
    change (λ a b, queue_key_cmp (entry_key a) (entry_key b)) with entry_cmp in Hperm, Hsorted.
    rewrite (sorted_position entry_key queue_key_cmp _ entry);
      [|rewrite Hperm; apply elem_of_app; by left| |done].
    { cbn. do 2 f_equal. by apply before_perm. }
    destruct (memory_ids runs Hs) as [Hm1 Hm2].
    intros [k v] Hy. rewrite Hperm in Hy. cbn [fst]. rewrite str_eqb_eq. split.
    - intros ->. f_equal. f_equal. eapply (NoDup_fst (memory_queued runs ++ disk)); [|done|apply elem_of_app; by left].
      rewrite List.map_app. apply NoDup_app. split; [done|]. split; [|done].
      intros x Hx%Hm2 Hx'. apply list_elem_of_fmap in Hx' as (e & -> & He). by apply (Hdisk e He).
    - intros H. by apply entry_key_inj in H. }
  split; [done|]. intros ->. rewrite Hpos, app_nil_r, (queue_head_iff _ _ r) by done.
  unfold before. split.
  - intros [= H]. rewrite length_filter_0 in H. intros id' r' Hq' Hp.
    specialize (H (id', (rr_priority r', rr_queued_at r'))).
    rewrite bool_decide_eq_false in H. apply H; [apply memory_elem; [done|by exists r']|].
    by apply record_key_lt in Hp.
  - intros Hno. do 2 f_equal. apply length_filter_0. intros [id' [p q]] Hin'.
    apply memory_elem in Hin' as (r' & Hq' & <- & <-); [|done]. apply bool_decide_eq_false.
    intros Hlt. apply (Hno id' r' Hq'). by apply record_key_lt.
Qed.

(** ** Slots *)

(** The slot pool under every interleaving of its clients.  A waiter reads the
    head under the table lock and takes a slot afterwards ([observe], then
    [take]); a holder drops its permit once; records change at any time. *)
Record sched : Type := mkSched {
  sc_runs : bmap RunRecord;
  sc_available : Z;
  sc_observed : list str;
  sc_holders : list str;
}.
Inductive sched_step : sched → sched → Prop :=
| step_records runs runs' n obs hold :
    bm_sorted runs' → sched_step (mkSched runs n obs hold) (mkSched runs' n obs hold)
| step_observe runs n obs hold id :
    queue_head runs = Some id →
    sched_step (mkSched runs n obs hold) (mkSched runs n (id :: obs) hold)
| step_take runs n n' obs obs' hold id :
    obs ≡ₚ id :: obs' → try_take n = (n', true) →
    sched_step (mkSched runs n obs hold) (mkSched runs n' obs' (id :: hold))
| step_full runs n n' obs obs' hold id :
    obs ≡ₚ id :: obs' → try_take n = (n', false) →
    sched_step (mkSched runs n obs hold) (mkSched runs n' obs' hold)
| step_drop runs n obs hold hold' id :
    hold ≡ₚ id :: hold' →
    sched_step (mkSched runs n obs hold) (mkSched runs (drop_permit n) obs hold').

(** execution slots are conserved: under every interleaving the free
    slots and the running holders add up to the configured number, so no more
    than that many runs execute at a time and no slot is lost. *)
Theorem slots_conserved runs count s : (0 ≤ count)%Z →
  rtc sched_step (mkSched runs count [] []) s →
  (0 ≤ sc_available s)%Z ∧ (sc_available s + Z.of_nat (length (sc_holders s)) = count)%Z.
Proof.
  intros Hc Hr. apply (rtc_ind_r (λ s, (0 ≤ sc_available s)%Z ∧
    (sc_available s + Z.of_nat (length (sc_holders s)) = count)%Z) _) in Hr; [done|cbn; lia|].
  intros s1 s2 _ Hstep [H1 H2]. destruct Hstep as [| |runs1 n n' obs obs' hold id _ Ht|runs1 n n' obs obs' hold id _ Ht|runs1 n obs hold hold' id Hp];
    cbn in *; [done|done|..].
  - unfold try_take in Ht. destruct (Z.eqb_spec n 0); simplify_eq. lia.
  - unfold try_take in Ht. destruct (Z.eqb_spec n 0); simplify_eq. lia.
  - apply Permutation_length in Hp. cbn in Hp. unfold drop_permit. lia.
Qed.

(** ** A concrete table *)

Definition demo_runs : bmap RunRecord := bm_of_list
  [(s"a", mkRunRecord 0 false Queued (Some 5%Z) false);
   (s"b", mkRunRecord 1 false Queued (Some 9%Z) false);
   (s"c", mkRunRecord 5 false Running None false);
   (s"d", mkRunRecord 0 false Running None false)].
Lemma demo_sorted : bm_sorted demo_runs.
Proof. apply bm_sorted_extend, bm_sorted_nil. Qed.
Lemma demo_queued_b : queued_run demo_runs (s"b") (mkRunRecord 1 false Queued (Some 9%Z) false).
Proof. vm_compute. done. Qed.

Lemma queue_head_first_witness :
  queue_head demo_runs = Some (s"b") ∧
  ∃ r, queued_run demo_runs (s"b") r ∧
    ∀ id' r', queued_run demo_runs id' r' → id' ≠ s"b" → precedes (s"b", r) (id', r').
Proof.
  assert (H : queue_head demo_runs = Some (s"b")) by (vm_compute; done).
  split; [exact H|]. exact (proj2 (queue_head_first demo_runs demo_sorted) _ H).
Defined.

(** Both slots are taken and an arrival of priority 3 evicts [d]. *)
Lemma preemption_victim_spec_witness :
  preemption_victim true demo_runs 2 3 = Some (s"d") ∧
  ∃ r, bm_get (s"d") demo_runs = Some r ∧ (rr_priority r < 3)%Z.
Proof.
  assert (H : preemption_victim true demo_runs 2 3 = Some (s"d")) by (vm_compute; done).
  split; [exact H|].
  destruct (proj2 (preemption_victim_spec demo_runs 2 3 demo_sorted) _ H) as (_ & r & Hr & _).
  exists r. split; apply Hr.
Defined.

Lemma queue_position_exact_witness :
  queue_position demo_runs [] (s"b", (1%Z, None)) = Some 1 ↔ queue_head demo_runs = Some (s"b").
Proof.
  apply (queue_position_exact demo_runs [] (s"b") _ 1 None demo_sorted demo_queued_b);
    [constructor|by intros e ?%not_elem_of_nil|done].
Defined.

(** One slot: [b] is the head and takes it. *)
Lemma slots_conserved_witness :
  ∃ st, rtc sched_step (mkSched demo_runs 1 [] []) st ∧ sc_holders st = [s"b"] ∧ sc_available st = 0%Z.
Proof.
  exists (mkSched demo_runs 0 [] [s"b"]).
  assert (H : rtc sched_step (mkSched demo_runs 1 [] []) (mkSched demo_runs 0 [] [s"b"])).
  { eapply rtc_l; [apply (step_observe _ _ _ _ (s"b")); vm_compute; done|].
    eapply rtc_l; [by eapply step_take|]. apply rtc_refl. }
  split; [exact H|]. split; [done|].
  destruct (slots_conserved demo_runs 1 _ ltac:(lia) H) as [_ Hsum]. cbn in Hsum |- *. lia.
Defined.
