(* ===== verification/LlmRetry.v ===== *)
(** * Retrying model calls

    [crates/llm/src/retry.rs] (the policy), the retry loops of
    [crates/llm/src/router.rs] and the evidence types of
    [crates/model/src/llm_retry.rs].  A duration is a number of nanoseconds.
    The provider is code outside the model: its answers are a function of the
    attempt number, [None] standing for a request that outlives its timeout. *)

From S2P Require Import Prelude Str.

Inductive LlmErrorKind : Type :=
| HttpStatus (status : Z)
| TimedOut | Network | EmptyResponse | InvalidResponse | PartialStream
| CallCanceled | CircuitOpen | Other.
Inductive TransportPhase : Type := PhConnect | PhResponse | PhUnknown.
Inductive RequestDispatch : Type := NotSent | Sent | DispatchUnknown.
Record TransportFacts : Type := mkFacts { tf_phase : TransportPhase; tf_dispatch : RequestDispatch }.
Inductive RetryAction : Type := FailFast | Retry | NextRoute.
Inductive RetryGuard : Type :=
  AttemptLimit | StreamEmitted | TerminalError | CircuitOpenGuard.

#[global] Instance LlmErrorKind_eq_dec : EqDecision LlmErrorKind.
Proof. solve_decision. Defined.
#[global] Instance TransportPhase_eq_dec : EqDecision TransportPhase.
Proof. solve_decision. Defined.
#[global] Instance RequestDispatch_eq_dec : EqDecision RequestDispatch.
Proof. solve_decision. Defined.
#[global] Instance RetryAction_eq_dec : EqDecision RetryAction.
Proof. solve_decision. Defined.

Record RetryDecision : Type := mkDecision {
  dc_kind : LlmErrorKind;
  dc_facts : TransportFacts;
  dc_attempt : option nat;
  dc_stream : bool;
  dc_requested : RetryAction;
  dc_action : RetryAction;
  dc_source : str;
  dc_guard : option RetryGuard;
  dc_provider_code : option str;
  dc_retry_after_observed_secs : option Z;
  dc_retry_after_secs : option Z;
  dc_retry_after_applied : bool;
}.
Record RetryRule : Type := mkRule {
  rl_kind : option LlmErrorKind;
  rl_phase : option TransportPhase;
  rl_dispatch : option RequestDispatch;
  rl_stream : option bool;
  rl_attempt_from : option nat;
  rl_attempt_through : option nat;
  rl_provider_code : option str;
  rl_use_retry_after : bool;
  rl_action : RetryAction;
  rl_on_exhausted : RetryAction;
}.
Record RetryPolicy : Type := mkPolicy { rp_max_retry_after_secs : Z; rp_rules : list RetryRule }.
Record LlmError : Type := mkLlmError {
  le_message : str;
  le_kind : LlmErrorKind;
  le_facts : TransportFacts;
  le_decisions : list RetryDecision;
  le_provider_code : option str;
  le_retry_after_secs : option Z;
}.
Definition with_decisions (e : LlmError) (ds : list RetryDecision) : LlmError :=
  mkLlmError (le_message e) (le_kind e) (le_facts e) ds (le_provider_code e) (le_retry_after_secs e).

(** ** The policy *)

Definition MAX_PROVIDER_ERROR_CODE_LEN : Z := 64.
Definition DEFAULT_MAX_RETRY_AFTER_SECS : Z := 60.
Definition policy_default : RetryPolicy := mkPolicy DEFAULT_MAX_RETRY_AFTER_SECS [].

(** [bytes().all(..)]: a byte of a character that is not ASCII is refused, as
    is the character. *)
Definition is_code_char (c : char) : bool :=
  is_ascii_alphanumeric c || contains_char (s"._-") c.
Definition sanitize_provider_error_code (raw : str) : option str :=
  let code := trim raw in
  if negb (bool_decide (code = [])) && (str_len code <=? MAX_PROVIDER_ERROR_CODE_LEN)%Z
     && forallb is_code_char code
  then Some code else None.

Definition is_terminal_error_kind (kind : LlmErrorKind) : bool :=
  match kind with CallCanceled | PartialStream | Other => true | _ => false end.
Definition is_retryable_llm_error (error : LlmError) : bool :=
  match le_kind error with
  | TimedOut | EmptyResponse | CircuitOpen => true
  | HttpStatus status => ((status =? 429) || ((500 <=? status) && (status <=? 599)))%Z
  | _ => false
  end.

(** [Option::is_none_or]. *)
Definition is_none_or {A} (o : option A) (f : A → bool) : bool :=
  match o with None => true | Some x => f x end.

(** [RetryPolicy::validate]; the three messages are not told apart. *)
Definition rule_valid (rule : RetryRule) : bool :=
  negb (bool_decide (rl_attempt_from rule = Some 0) || bool_decide (rl_attempt_through rule = Some 0)
        || match rl_attempt_from rule, rl_attempt_through rule with
           | Some a, Some b => b <? a | _, _ => false end
        || bool_decide (rl_on_exhausted rule = Retry))
  && is_none_or (rl_provider_code rule) (λ code,
       match sanitize_provider_error_code code with Some x => x =s code | None => false end)
  && negb (rl_use_retry_after rule && negb (bool_decide (rl_action rule = Retry))).
Definition policy_valid (p : RetryPolicy) : bool := forallb rule_valid (rp_rules p).

Definition rule_matches (error : LlmError) (provider_code : option str) (attempt : nat)
    (stream : bool) (rule : RetryRule) : bool :=
  is_none_or (rl_kind rule) (λ v, bool_decide (v = le_kind error))
  && is_none_or (rl_phase rule) (λ v, bool_decide (v = tf_phase (le_facts error)))
  && is_none_or (rl_dispatch rule) (λ v, bool_decide (v = tf_dispatch (le_facts error)))
  && is_none_or (rl_stream rule) (λ v, eqb v stream)
  && is_none_or (rl_attempt_from rule) (λ v, v <=? attempt)
  && is_none_or (rl_attempt_through rule) (λ v, attempt <=? v)
  && is_none_or (rl_provider_code rule) (λ want, bool_decide (provider_code = Some want)).

(** [iter().enumerate().find(..)]. *)
Fixpoint find_rule (f : RetryRule → bool) (i : nat) (l : list RetryRule) : option (nat * RetryRule) :=
  match l with
  | [] => None
  | r :: l => if f r then Some (i, r) else find_rule f (S i) l
  end.

(** The action, and the mechanism that overrode the policy, if any. *)
Definition guarded_action (error : LlmError) (requested exhausted : RetryAction)
    (attempt max_attempts : nat) (emitted : bool) : RetryAction * option RetryGuard :=
  if emitted then (FailFast, Some StreamEmitted)
  else if is_terminal_error_kind (le_kind error) then (FailFast, Some TerminalError)
  else if bool_decide (le_kind error = CircuitOpen) && bool_decide (requested = Retry)
  then (exhausted, Some CircuitOpenGuard)
  else if bool_decide (requested = Retry) && (max_attempts <=? attempt)
  then (exhausted, Some AttemptLimit)
  else (requested, None).

Definition decide_retry (policy : RetryPolicy) (error : LlmError) (attempt max_attempts : nat)
    (stream emitted : bool) : RetryDecision :=
  let provider_code := le_provider_code error ≫= sanitize_provider_error_code in
  let retry_after_secs := (λ secs, Z.min secs (rp_max_retry_after_secs policy)) <$> le_retry_after_secs error in
  let matched := find_rule (rule_matches error provider_code attempt stream) 0 (rp_rules policy) in
  let '(requested, exhausted, source) :=
    match matched with
    | Some (index, rule) => (rl_action rule, rl_on_exhausted rule, s"rule:" ++ show_nat index)
    | None => if is_retryable_llm_error error then (Retry, NextRoute, s"default")
              else (FailFast, FailFast, s"default")
    end in
  let exhausted := if bool_decide (exhausted = Retry) then FailFast else exhausted in
  let '(action, guard) := guarded_action error requested exhausted attempt max_attempts emitted in
  let applied := bool_decide (action = Retry)
    && match matched with Some (_, rule) => rl_use_retry_after rule | None => false end
    && match retry_after_secs with Some _ => true | None => false end in
  mkDecision (le_kind error) (le_facts error) (Some attempt) stream requested action source guard
    provider_code (le_retry_after_secs error) retry_after_secs applied.

(** [observe_failure]: the error with the decision recorded, and the decision
    the observer sees. *)
Definition observe_failure (policy : RetryPolicy) (error : LlmError) (attempt max_attempts : nat)
    (stream emitted : bool) : LlmError * RetryDecision :=
  let decision := decide_retry policy error attempt max_attempts stream emitted in
  (with_decisions error (le_decisions error ++ [decision]), decision).

Definition allows_next_route (e : LlmError) : bool :=
  if is_terminal_error_kind (le_kind e) then false
  else match last (le_decisions e) with
       | Some d => bool_decide (dc_action d = NextRoute)
       | None => bool_decide (dc_action (decide_retry policy_default e 1 1 false false) = NextRoute)
       end.

(** ** Delays *)

Definition NANOS : Z := 10 ^ 9.
Definition DURATION_MAX : Z := U64_MAX * NANOS + (NANOS - 1).
Definition from_secs (secs : Z) : Z := secs * NANOS.

(** [2_u32.pow(exponent)] in a release build. *)
Definition pow2_u32 (exponent : Z) : Z := (2 ^ exponent) mod 2 ^ 32.
Definition retry_backoff (attempt : nat) (base exponent_cap : Z) : Z :=
  let exponent := Z.min (Z.of_nat (attempt - 1)) exponent_cap in
  saturating_mul DURATION_MAX base (pow2_u32 exponent).
Definition retry_delay (attempt : nat) (base rate_limit_floor exponent_cap : Z) (slow_down : bool) : Z :=
  let delay := retry_backoff attempt base exponent_cap in
  if slow_down
  then Z.max delay (saturating_mul DURATION_MAX rate_limit_floor (Z.of_nat attempt mod 2 ^ 32))
  else delay.
Definition effective_retry_delay (base : Z) (applied_after_secs : option Z) : Z :=
  match applied_after_secs with None => base | Some secs => Z.max base (from_secs secs) end.

Definition MAX_RETRY_SLEEP_CHUNK : Z := from_secs (30 * 24 * 60 * 60).
(** The timer waits issued by [sleep_retry_delay]. *)
Fixpoint sleep_chunks (fuel : nat) (remaining : Z) : list Z :=
  match fuel with
  | 0 => []
  | S fuel =>
      if (remaining =? 0)%Z then []
      else let chunk := Z.min remaining MAX_RETRY_SLEEP_CHUNK in
           chunk :: sleep_chunks fuel (remaining - chunk)
  end.
Definition sleep_retry_delay (total : Z) : list Z :=
  sleep_chunks (Z.to_nat (total / MAX_RETRY_SLEEP_CHUNK) + 1) total.

(** ** Providers and the loops *)

Record LlmProvider (A Ev : Type) : Type := mkProvider {
  lp_id : str;
  lp_timeout_seconds : Z;
  lp_retry_policy : RetryPolicy;
  lp_retry_attempts : nat;
  lp_stream_retry_attempts : nat;
  lp_retry_base_backoff : Z;
  lp_retry_rate_limit_floor : Z;
  lp_retry_backoff_exponent_cap : Z;
  lp_complete : nat → option (result LlmError A);
  lp_stream : nat → list Ev * option (result LlmError unit);
}.
Arguments lp_id {A Ev}. Arguments lp_timeout_seconds {A Ev}.
Arguments lp_retry_policy {A Ev}. Arguments lp_retry_attempts {A Ev}.
Arguments lp_stream_retry_attempts {A Ev}. Arguments lp_retry_base_backoff {A Ev}.
Arguments lp_retry_rate_limit_floor {A Ev}. Arguments lp_retry_backoff_exponent_cap {A Ev}.
Arguments lp_complete {A Ev}. Arguments lp_stream {A Ev}.

Definition timed_request {T} (message : str) (r : option (result LlmError T)) : result LlmError T :=
  match r with
  | Some r => r
  | None => Err (mkLlmError message TimedOut (mkFacts PhUnknown DispatchUnknown) [] None None)
  end.
Definition complete_timeout_message {A Ev} (p : LlmProvider A Ev) : str :=
  s"LLM provider `" ++ lp_id p ++ s"` timed out after " ++ show_uint (lp_timeout_seconds p) ++ s" seconds".
Definition stream_timeout_message {A Ev} (p : LlmProvider A Ev) : str :=
  s"LLM provider `" ++ lp_id p ++ s"` stream timed out after " ++ show_uint (lp_timeout_seconds p)
  ++ s" seconds".

Record RetryState : Type := mkRetryState {
  rs_max_attempts : nat;
  rs_stream : bool;
  rs_decisions : list RetryDecision;
}.
(** [RetryState::wait]: the state, the decision the observer sees, and either
    the wait before the next attempt or the final error. *)
Definition wait {A Ev} (p : LlmProvider A Ev) (st : RetryState) (error : LlmError) (attempt : nat)
    (emitted use_rate_limit_floor : bool) : RetryState * RetryDecision * result LlmError Z :=
  let max_attempts := if rs_stream st then S (rs_max_attempts st) else rs_max_attempts st in
  let '(error, decision) :=
    observe_failure (lp_retry_policy p) error attempt max_attempts (rs_stream st) emitted in
  let applied_after :=
    if dc_retry_after_applied decision then dc_retry_after_secs decision else None in
  let decisions := rs_decisions st ++ le_decisions error in
  if negb (bool_decide (dc_action decision = Retry)) then
    (mkRetryState (rs_max_attempts st) (rs_stream st) [], decision, Err (with_decisions error decisions))
  else
    let slow_down := use_rate_limit_floor
      && (bool_decide (le_kind error = HttpStatus 429) || bool_decide (le_kind error = EmptyResponse)) in
    let delay := retry_delay attempt (lp_retry_base_backoff p)
      (if use_rate_limit_floor then lp_retry_rate_limit_floor p else 0%Z)
      (lp_retry_backoff_exponent_cap p) slow_down in
    (mkRetryState (rs_max_attempts st) (rs_stream st) decisions, decision,
     Ok (effective_retry_delay delay applied_after)).

(** What a call did: provider requests, observed decisions, waits, events
    forwarded to the consumer. *)
Record call_log (Ev : Type) : Type := mkLog {
  lg_requests : nat;
  lg_observed : list RetryDecision;
  lg_waits : list Z;
  lg_events : list Ev;
}.
Arguments mkLog {Ev}. Arguments lg_requests {Ev}. Arguments lg_observed {Ev}.
Arguments lg_waits {Ev}. Arguments lg_events {Ev}.

(** [NeverReturned] is [unreachable!] for [complete] and the end of the fuel
    for [stream]; both are proved impossible. *)
Inductive call_outcome (T : Type) : Type := Returned (r : result LlmError T) | NeverReturned.
Arguments Returned {T}. Arguments NeverReturned {T}.

(** [for attempt in 1..=max_attempts]. *)
Fixpoint complete_loop {A Ev} (p : LlmProvider A Ev) (remaining attempt : nat) (st : RetryState)
    (log : call_log Ev) : call_log Ev * call_outcome A :=
  match remaining with
  | 0 => (log, NeverReturned)
  | S remaining =>
      match timed_request (complete_timeout_message p) (lp_complete p attempt) with
      | Ok response =>
          (mkLog (S (lg_requests log)) (lg_observed log) (lg_waits log) (lg_events log),
           Returned (Ok response))
      | Err error =>
          let '(st, d, r) := wait p st error attempt false true in
          match r with
          | Ok w =>
              complete_loop p remaining (S attempt) st
                (mkLog (S (lg_requests log)) (lg_observed log ++ [d]) (lg_waits log ++ [w]) (lg_events log))
          | Err e =>
              (mkLog (S (lg_requests log)) (lg_observed log ++ [d]) (lg_waits log) (lg_events log),
               Returned (Err e))
          end
      end
  end.
Definition complete_with_retry_observed {A Ev} (p : LlmProvider A Ev) : call_log Ev * call_outcome A :=
  let max_attempts := Nat.max (lp_retry_attempts p) 1 in
  complete_loop p max_attempts 1 (mkRetryState max_attempts false []) (mkLog 0 [] [] []).

(** The [loop] of [stream_observed]. *)
Fixpoint stream_loop {A Ev} (p : LlmProvider A Ev) (fuel attempt : nat) (st : RetryState)
    (log : call_log Ev) : call_log Ev * call_outcome unit :=
  match fuel with
  | 0 => (log, NeverReturned)
  | S fuel =>
      let '(events, r) := lp_stream p attempt in
      let log := mkLog (S (lg_requests log)) (lg_observed log) (lg_waits log) (lg_events log ++ events) in
      match timed_request (stream_timeout_message p) r with
      | Ok _ => (log, Returned (Ok ()))
      | Err error =>
          let emitted := negb (bool_decide (length events = 0)) in
          let '(st, d, r) := wait p st error attempt emitted true in
          let log := mkLog (lg_requests log) (lg_observed log ++ [d]) (lg_waits log) (lg_events log) in
          match r with
          | Ok w =>
              stream_loop p fuel (S attempt) st
                (mkLog (lg_requests log) (lg_observed log) (lg_waits log ++ [w]) (lg_events log))
          | Err e => (log, Returned (Err e))
          end
      end
  end.
Definition stream_observed {A Ev} (p : LlmProvider A Ev) : call_log Ev * call_outcome unit :=
  let attempts := lp_stream_retry_attempts p in
  stream_loop p (S attempts) 1 (mkRetryState attempts true []) (mkLog 0 [] [] []).
