(* ===== verification/LlmRetrySpec.v ===== *)
(** * Retrying model calls: bounds, guards and delays *)

From S2P Require Import Prelude Str LlmRetry.

#[local] Arguments s : simpl never.

(** ** Guards *)

(** When another attempt on the same route is allowed at all. *)
Definition may_retry (error : LlmError) (attempt max_attempts : nat) (emitted : bool) : Prop :=
  emitted = false ∧ le_kind error ∉ [CallCanceled; PartialStream; Other] ∧
  le_kind error ≠ CircuitOpen ∧ attempt < max_attempts.
Lemma terminal_kind_spec kind :
  is_terminal_error_kind kind = false ↔ kind ∉ [CallCanceled; PartialStream; Other].
Proof. destruct kind; cbn; set_solver. Qed.

Lemma guarded_retry error requested exhausted attempt max_attempts emitted :
  exhausted ≠ Retry →
  (guarded_action error requested exhausted attempt max_attempts emitted).1 = Retry →
  requested = Retry ∧ may_retry error attempt max_attempts emitted.
Proof.
  intros Hex. unfold guarded_action, may_retry.
  destruct emitted; [done|]. rewrite <-terminal_kind_spec.
  destruct (is_terminal_error_kind _); [done|].
  repeat case_bool_decide; cbn; subst; try done.
  destruct (Nat.leb_spec max_attempts attempt); cbn; [done|]. auto.
Qed.
Lemma decide_action policy error attempt max_attempts stream emitted :
  ∃ requested exhausted, exhausted ≠ Retry ∧
    dc_action (decide_retry policy error attempt max_attempts stream emitted) =
    (guarded_action error requested exhausted attempt max_attempts emitted).1.
Proof.
  unfold decide_retry. destruct (match find_rule _ _ _ with Some _ => _ | None => _ end)
    as [[requested exhausted] source].
  exists requested, (if bool_decide (exhausted = Retry) then FailFast else exhausted).
  split; [by case_bool_decide|]. by destruct (guarded_action _ _ _ _ _ _).
Qed.
Lemma decide_may_retry policy error attempt max_attempts stream emitted :
  dc_action (decide_retry policy error attempt max_attempts stream emitted) = Retry →
  may_retry error attempt max_attempts emitted.
Proof.
  destruct (decide_action policy error attempt max_attempts stream emitted)
    as (requested & exhausted & Hex & ->).
  intros H. by apply guarded_retry in H as [_ ?].
Qed.

(** No policy, validated or not, can bypass the guards: a decision to
    retry implies that nothing was emitted, that the error is neither terminal
    nor an open circuit and that attempts are left; a delay taken from the
    provider is applied only to such a retry and never exceeds the policy's
    bound; the first matching rule decides what is requested, and without one
    the retryable errors are retried. *)
Theorem retry_guards policy error attempt max_attempts stream emitted :
  let d := decide_retry policy error attempt max_attempts stream emitted in
  (dc_action d = Retry → may_retry error attempt max_attempts emitted ∧ dc_guard d = None) ∧
  (dc_retry_after_applied d = true → dc_action d = Retry ∧
     ∃ secs, dc_retry_after_secs d = Some secs ∧ (secs ≤ rp_max_retry_after_secs policy)%Z) ∧
  (may_retry error attempt max_attempts emitted → dc_action d = dc_requested d) ∧
  dc_requested d =
    match List.find (rule_matches error (dc_provider_code d) attempt stream) (rp_rules policy) with
    | Some rule => rl_action rule
    | None => if is_retryable_llm_error error then Retry else FailFast
    end.
Proof.
  assert (Hfind : ∀ f l i, find_rule f i l = None ∧ List.find f l = None ∨
    ∃ j r, find_rule f i l = Some (j, r) ∧ List.find f l = Some r).
  { intros f l. induction l as [|r l IH]; intros i; cbn; [by left|].
    destruct (f r); [right; by eexists _, _|apply IH]. }
  unfold decide_retry. set (code := le_provider_code error ≫= _).
  set (m := find_rule _ 0 _).
  destruct (match m with Some _ => _ | None => _ end) as [[requested exhausted] source] eqn:Er.
  set (ex := if bool_decide (exhausted = Retry) then FailFast else exhausted).
  assert (Hex : ex ≠ Retry) by (unfold ex; by case_bool_decide).
  destruct (guarded_action error requested ex attempt max_attempts emitted) as [action guard] eqn:Eg.
  cbn [dc_action dc_guard dc_retry_after_applied dc_retry_after_secs dc_requested dc_provider_code].
  split; [|split; [|split]].
  - intros ->. destruct (guarded_retry error requested ex attempt max_attempts emitted Hex) as [-> Hm];
      [by rewrite Eg|]. split; [done|]. destruct Hm as (-> & Ht%terminal_kind_spec & Hc & Hlt).
    unfold guarded_action in Eg. rewrite Ht, bool_decide_false in Eg by done. cbn in Eg.
    rewrite (proj2 (Nat.leb_gt _ _) Hlt), ?andb_false_r in Eg. by inversion Eg.
  - rewrite !andb_true_iff, bool_decide_eq_true. intros [[-> _] Hs]. split; [done|].
    destruct (le_retry_after_secs error) as [secs|]; [|done]. cbn in Hs |- *. eexists. split; [done|]. lia.
  - intros (-> & Ht%terminal_kind_spec & Hc & Hlt). unfold guarded_action in Eg. rewrite Ht, bool_decide_false in Eg by done.
    cbn in Eg. rewrite (proj2 (Nat.leb_gt _ _) Hlt), ?andb_false_r in Eg. by inversion Eg.
  - destruct (Hfind (rule_matches error code attempt stream) (rp_rules policy) 0)
      as [[H1 H2]|(j & r & H1 & H2)]; fold m in H1; rewrite H1 in Er; rewrite H2.
    + by destruct (is_retryable_llm_error error); simplify_eq.
    + by simplify_eq.
Qed.

(** ** The loops *)

Section loops.
Context {A Ev : Type} (p : LlmProvider A Ev).

Definition complete_attempt (i : nat) : result LlmError A :=
  timed_request (complete_timeout_message p) (lp_complete p i).
Definition stream_attempt (i : nat) : result LlmError unit :=
  timed_request (stream_timeout_message p) (lp_stream p i).2.
Definition emitted_by (i : nat) : bool := negb (bool_decide (length (lp_stream p i).1 = 0)).

(** The decision on the failure of attempt [i]. *)
Definition complete_decision (i : nat) (e : LlmError) : RetryDecision :=
  decide_retry (lp_retry_policy p) e i (Nat.max (lp_retry_attempts p) 1) false false.
Definition stream_decision (i : nat) (e : LlmError) : RetryDecision :=
  decide_retry (lp_retry_policy p) e i (S (lp_stream_retry_attempts p)) true (emitted_by i).

Lemma wait_spec st error attempt emitted floor :
  let max := if rs_stream st then S (rs_max_attempts st) else rs_max_attempts st in
  let d := decide_retry (lp_retry_policy p) error attempt max (rs_stream st) emitted in
  let '(st', d', r) := wait p st error attempt emitted floor in
  d' = d ∧ rs_max_attempts st' = rs_max_attempts st ∧ rs_stream st' = rs_stream st ∧
  match r with
  | Ok _ => dc_action d = Retry ∧ rs_decisions st' = rs_decisions st ++ le_decisions error ++ [d]
  | Err e => dc_action d ≠ Retry ∧ e = with_decisions error (rs_decisions st ++ le_decisions error ++ [d])
  end.
Proof.
  cbv zeta. unfold wait, observe_failure.
  set (d := decide_retry _ _ _ _ _ _). case_bool_decide as Hd; cbn; done.
Qed.

(** The requests before [n] failed and were all retried. *)
Definition retried {T} (attempt : nat → result LlmError T) (decision : nat → LlmError → RetryDecision)
    (first n : nat) : Prop :=
  ∀ i, first ≤ i → i < n → ∃ e, attempt i = Err e ∧ dc_action (decision i e) = Retry.

Lemma complete_loop_spec remaining : ∀ attempt st log,
  rs_stream st = false → rs_max_attempts st = Nat.max (lp_retry_attempts p) 1 →
  attempt + remaining = S (Nat.max (lp_retry_attempts p) 1) → 0 < remaining →
  ∃ n log' r, complete_loop p remaining attempt st log = (log', Returned r) ∧
    attempt ≤ n ≤ Nat.max (lp_retry_attempts p) 1 ∧
    lg_requests log' = lg_requests log + (S n - attempt) ∧
    retried complete_attempt complete_decision attempt n ∧
    match complete_attempt n with
    | Ok a => r = Ok a
    | Err e => dc_action (complete_decision n e) ≠ Retry ∧ ∃ ds, r = Err (with_decisions e ds)
    end.
Proof.
  induction remaining as [|remaining IH]; intros attempt st log Hst Hmax Hsum Hpos; [lia|].
  cbn [complete_loop]. fold (complete_attempt attempt).
  destruct (complete_attempt attempt) as [a|e] eqn:Ea.
  { eexists attempt, _, _. split; [done|]. split; [lia|]. split; [cbn; lia|].
    split; [intros i ??; lia|]. by rewrite Ea. }
  pose proof (wait_spec st e attempt false true) as Hw. rewrite Hst, Hmax in Hw. cbn zeta in Hw.
  fold (complete_decision attempt e) in Hw.
  destruct (wait p st e attempt false true) as [[st' d] r]. destruct Hw as (-> & Hm & Hs & Hr).
  destruct r as [w|e'].
  - destruct Hr as [Hd _]. pose proof Hd as Hlt. apply decide_may_retry in Hlt as (_ & _ & _ & Hlt).
    destruct (IH (S attempt) st' (mkLog (S (lg_requests log)) (lg_observed log ++ [complete_decision attempt e])
      (lg_waits log ++ [w]) (lg_events log))) as (n & log' & r & Heq & Hn & Hreq & Hret & Hres);
      [done..|lia|lia|].
    exists n, log', r. split; [done|]. split; [lia|]. split; [cbn in Hreq; lia|]. split; [|done].
    intros i Hi1 Hi2. destruct (decide (i = attempt)) as [->|]; [by exists e|]. apply Hret; lia.
  - destruct Hr as [Hd ->]. eexists attempt, _, _. split; [done|]. split; [lia|]. split; [cbn; lia|].
    split; [intros i ??; lia|]. rewrite Ea. split; [done|]. by eexists.
Qed.

(** A completion with retries always returns, after at least one request
    and at most [max(retry_attempts, 1)]: every request before the last
    failed with an error the policy retries; the last one either succeeded,
    and its response is returned, or failed with an error the policy does not
    retry, which is returned.  The loop never falls through. *)
Theorem complete_with_retry_bounded :
  ∃ n log r, complete_with_retry_observed p = (log, Returned r) ∧
    1 ≤ n ≤ Nat.max (lp_retry_attempts p) 1 ∧ lg_requests log = n ∧
    retried complete_attempt complete_decision 1 n ∧
    match complete_attempt n with
    | Ok a => r = Ok a
    | Err e => dc_action (complete_decision n e) ≠ Retry ∧ ∃ ds, r = Err (with_decisions e ds)
    end.
Proof.
  unfold complete_with_retry_observed.
  destruct (complete_loop_spec (Nat.max (lp_retry_attempts p) 1) 1
    (mkRetryState (Nat.max (lp_retry_attempts p) 1) false []) (mkLog 0 [] [] []))
    as (n & log & r & Heq & Hn & Hreq & Hret & Hres); [done|done|lia|lia|].
  exists n, log, r. split; [done|]. split; [done|]. split; [cbn in Hreq; lia|]. done.
Qed.

Lemma emitted_by_false i : emitted_by i = false → (lp_stream p i).1 = [].
Proof. unfold emitted_by. case_bool_decide as H; [|done]. intros _. by apply length_zero_iff_nil. Qed.

Lemma stream_loop_spec fuel : ∀ attempt st log,
  rs_stream st = true → rs_max_attempts st = lp_stream_retry_attempts p →
  attempt + fuel = S (S (lp_stream_retry_attempts p)) → 0 < fuel →
  ∃ n log' r, stream_loop p fuel attempt st log = (log', Returned r) ∧
    attempt ≤ n ≤ S (lp_stream_retry_attempts p) ∧
    lg_requests log' = lg_requests log + (S n - attempt) ∧
    lg_events log' = lg_events log ++ (lp_stream p n).1 ∧
    retried stream_attempt stream_decision attempt n ∧
    match stream_attempt n with
    | Ok _ => r = Ok ()
    | Err e => dc_action (stream_decision n e) ≠ Retry ∧ ∃ ds, r = Err (with_decisions e ds)
    end.
Proof.
  induction fuel as [|fuel IH]; intros attempt st log Hst Hmax Hsum Hpos; [lia|].
  cbn [stream_loop]. destruct (lp_stream p attempt) as [events o] eqn:Eo.
  assert (Ho : timed_request (stream_timeout_message p) o = stream_attempt attempt)
    by (unfold stream_attempt; by rewrite Eo).
  assert (He : negb (bool_decide (length events = 0)) = emitted_by attempt)
    by (unfold emitted_by; by rewrite Eo).
  rewrite Ho, He. destruct (stream_attempt attempt) as [[]|e] eqn:Ea.
  { eexists attempt, _, _. split; [done|]. split; [lia|]. split; [cbn; lia|]. rewrite Eo, Ea.
    split; [done|]. split; [intros i ??; lia|done]. }
  pose proof (wait_spec st e attempt (emitted_by attempt) true) as Hw. rewrite Hst, Hmax in Hw.
  cbn zeta in Hw. fold (stream_decision attempt e) in Hw.
  destruct (wait p st e attempt (emitted_by attempt) true) as [[st' d] r].
  destruct Hw as (-> & Hm & Hs & Hr). destruct r as [w|e'].
  - destruct Hr as [Hd _]. pose proof Hd as Hlt. apply decide_may_retry in Hlt as (Hem & _ & _ & Hlt).
    apply emitted_by_false in Hem. rewrite Eo in Hem. cbn in Hem. subst events.
    match goal with |- context [stream_loop p fuel (S attempt) st' ?l] => set (log1 := l) end.
    destruct (IH (S attempt) st' log1) as (n & log' & r & Heq & Hn & Hreq & Hev & Hret & Hres);
      [congruence|congruence|lia|lia|].
    exists n, log', r. split; [done|]. split; [lia|]. split; [cbn in Hreq; lia|].
    split; [rewrite Hev; cbn; by rewrite app_nil_r|]. split; [|done].
    intros i Hi1 Hi2. destruct (decide (i = attempt)) as [->|]; [by exists e|]. apply Hret; lia.
  - destruct Hr as [Hd ->]. eexists attempt, _, _. split; [done|]. split; [lia|]. split; [cbn; lia|].
    rewrite Eo, Ea. split; [done|]. split; [intros i ??; lia|]. split; [done|]. by eexists.
Qed.

(** C28: a stream with retries always returns, after at most
    [stream_retry_attempts + 1] requests, and the consumer sees the events of
    the last request only: an attempt that emitted anything is never
    repeated, so two responses are never interleaved. *)
Theorem stream_retry_single_response :
  ∃ n log r, stream_observed p = (log, Returned r) ∧
    1 ≤ n ≤ S (lp_stream_retry_attempts p) ∧ lg_requests log = n ∧
    lg_events log = (lp_stream p n).1 ∧
    retried stream_attempt stream_decision 1 n ∧
    match stream_attempt n with
    | Ok _ => r = Ok ()
    | Err e => dc_action (stream_decision n e) ≠ Retry ∧ ∃ ds, r = Err (with_decisions e ds)
    end.
Proof.
  unfold stream_observed.
  destruct (stream_loop_spec (S (lp_stream_retry_attempts p)) 1
    (mkRetryState (lp_stream_retry_attempts p) true []) (mkLog 0 [] [] []))
    as (n & log & r & Heq & Hn & Hreq & Hev & Hret & Hres); [done|done|lia|lia|].
  exists n, log, r. split; [done|]. split; [done|]. split; [cbn in Hreq; lia|]. done.
Qed.
End loops.

(** ** Delays *)

Lemma pow2_u32_small e : (0 ≤ e < 32)%Z → pow2_u32 e = (2 ^ e)%Z.
Proof.
  intros He. unfold pow2_u32. apply Z.mod_small. split; [by apply Z.pow_nonneg|].
  apply Z.pow_lt_mono_r; lia.
Qed.

Lemma sleep_chunks_spec fuel : ∀ total, (0 ≤ total)%Z →
  (total ≤ Z.of_nat fuel * MAX_RETRY_SLEEP_CHUNK)%Z →
  foldr Z.add 0%Z (sleep_chunks fuel total) = total ∧
  Forall (λ c, 0 < c ≤ MAX_RETRY_SLEEP_CHUNK)%Z (sleep_chunks fuel total).
Proof.
  induction fuel as [|fuel IH]; intros total H0 Hf; cbn [sleep_chunks foldr]; [split; [lia|constructor]|].
  destruct (Z.eqb_spec total 0) as [->|Hne]; [split; [done|constructor]|].
  assert (0 < MAX_RETRY_SLEEP_CHUNK)%Z as Hm by done.
  destruct (IH (total - Z.min total MAX_RETRY_SLEEP_CHUNK)%Z) as [H1 H2]; [lia|lia|].
  cbn [foldr]. rewrite H1. split; [lia|]. constructor; [lia|done].
Qed.

(** The waits between attempts.  For a validated exponent cap the backoff
    doubles with every attempt until the cap, is limited only by the largest
    duration, and never decreases; a rate-limited attempt waits at least the
    floor times the attempt number; and the chunked sleep waits exactly the
    total in positive timer chunks of at most thirty days. *)
Theorem retry_delays attempt base floor cap : (1 ≤ cap ≤ 16)%Z → (0 ≤ base)%Z → (0 ≤ floor)%Z →
  (1 ≤ attempt) → (Z.of_nat attempt < 2 ^ 32)%Z →
  let exponent := Z.min (Z.of_nat (attempt - 1)) cap in
  retry_backoff attempt base cap = Z.min DURATION_MAX (base * 2 ^ exponent) ∧
  (retry_backoff attempt base cap ≤ retry_backoff (S attempt) base cap)%Z ∧
  (Z.min DURATION_MAX (floor * Z.of_nat attempt) ≤ retry_delay attempt base floor cap true)%Z ∧
  ∀ total, (0 ≤ total)%Z →
    foldr Z.add 0%Z (sleep_retry_delay total) = total ∧
    Forall (λ c, 0 < c ≤ MAX_RETRY_SLEEP_CHUNK)%Z (sleep_retry_delay total).
Proof.
  intros Hcap Hb Hfl Ha Ha2. cbv zeta.
  assert (Hbo : ∀ n, retry_backoff n base cap =
    Z.min DURATION_MAX (base * 2 ^ Z.min (Z.of_nat (n - 1)) cap)).
  { intros n. unfold retry_backoff, saturating_mul. rewrite pow2_u32_small; [done|lia]. }
  split; [apply Hbo|]. split; [|split].
  - rewrite !Hbo. apply Z.min_le_compat_l, Z.mul_le_mono_nonneg_l; [done|].
    apply Z.pow_le_mono_r; lia.
  - unfold retry_delay, saturating_mul. rewrite Z.mod_small by lia. lia.
  - intros total Ht. unfold sleep_retry_delay. apply sleep_chunks_spec; [done|].
    assert (0 < MAX_RETRY_SLEEP_CHUNK)%Z as Hm by done.
    pose proof (Z.div_mod total MAX_RETRY_SLEEP_CHUNK ltac:(lia)) as Hd.
    pose proof (Z.mod_pos_bound total MAX_RETRY_SLEEP_CHUNK Hm).
    pose proof (Z.div_pos total MAX_RETRY_SLEEP_CHUNK Ht Hm). rewrite Nat2Z.inj_add, Z2Nat.id by done.
    lia.
Qed.

Lemma retry_delays_witness :
  retry_backoff 3 (from_secs 1) 8 = from_secs 4 ∧
  (retry_backoff 3 (from_secs 1) 8 ≤ retry_backoff 4 (from_secs 1) 8)%Z.
Proof.
  split; [done|].
  destruct (retry_delays 3 (from_secs 1) 0 8) as (_ & H & _); [lia|done|lia|lia|lia|]. exact H.
Defined.
