(* ===== verification/LlmParse.v ===== *)
(** * Responses of model providers

    [llm/src/types.rs] (responses and token usage), [llm/src/usage.rs] and
    [llm/src/parse.rs]: the three wire formats read into one response type.
    The text form of JSON is a parameter: what [serde_json::from_str] and
    [Value::to_string] do. *)

From S2P Require Import Prelude Str BMap Json LlmRetry.

#[local] Arguments s : simpl never.

(** [serde_json::from_str] (an error carries its text) and [to_string]. *)
Class JsonText := {
  json_from_str : str → result str value;
  json_to_string : value → str;
}.

(** ** Errors *)

Definition facts_default : TransportFacts := mkFacts PhUnknown DispatchUnknown.
Definition llm_new (message : str) : LlmError :=
  mkLlmError message Other facts_default [] None None.
Definition response_error (kind : LlmErrorKind) (message : str) : LlmError :=
  mkLlmError message kind (mkFacts PhResponse Sent) [] None None.
Definition invalid_response (message : str) : LlmError := response_error InvalidResponse message.
Definition quoted (x : str) : str := s"`" ++ x ++ s"`".

(** ** Responses *)

Inductive StopReason : Type :=
| EndTurn | ToolUse | MaxTokens | ModelContextWindowExceeded | Refusal.
#[global] Instance stop_reason_eq_dec : EqDecision StopReason.
Proof. solve_decision. Defined.

Record TokenUsage : Type := mkTokenUsage {
  tu_input : Z;
  tu_output : Z;
  tu_reasoning : Z;
  tu_cached_input : Z;
  tu_cache_creation_input : Z;
}.
Definition ordinary_input (u : TokenUsage) : result LlmError Z :=
  if (tu_output u <? tu_reasoning u)%Z
  then Err (invalid_response (s"reasoning usage exceeds output"))
  else ok_or
    (cached ← checked_add U64_MAX (tu_cached_input u) (tu_cache_creation_input u);
     if (tu_input u <? cached)%Z then None else Some (tu_input u - cached)%Z)
    (invalid_response (s"cache usage exceeds total input or overflowed")).

Inductive ChatContent : Type :=
| Text (text : str)
| ToolCall (id name : str) (args : value).
Definition is_tool_call (c : ChatContent) : bool :=
  match c with ToolCall _ _ _ => true | Text _ => false end.

Inductive ProviderSearchAction : Type := Search | OpenPage | FindInPage.
#[global] Instance search_action_eq_dec : EqDecision ProviderSearchAction.
Proof. solve_decision. Defined.
Record ProviderSearchEvent : Type := mkSearchEvent {
  se_id : option str;
  se_action : ProviderSearchAction;
  se_queries : list str;
  se_url : option str;
}.
Record UrlCitation : Type := mkUrlCitation {
  uc_url : str;
  uc_title : option str;
  uc_start_index : option Z;
  uc_end_index : option Z;
}.
Record ProviderWebSearchOutcome : Type := mkWebSearchOutcome {
  wo_calls : option Z;
  wo_events : list ProviderSearchEvent;
  wo_citations : list UrlCitation;
}.
Inductive WebSearchBilling : Type := BillingUnknown | OpenaiSearchActions | AzureNumRequests.
#[global] Instance billing_eq_dec : EqDecision WebSearchBilling.
Proof. solve_decision. Defined.

Record ChatResponse : Type := mkChatResponse {
  cr_content : list ChatContent;
  cr_usage : TokenUsage;
  cr_stop : StopReason;
  cr_provider_state : option value;
  cr_web_search : option ProviderWebSearchOutcome;
}.
Definition response_new (content : list ChatContent) (usage : TokenUsage) (stop : StopReason) :
    ChatResponse := mkChatResponse content usage stop None None.

(** ** Usage *)

Definition count (v : value) (field : str) (required : bool) : result LlmError Z :=
  let bad := invalid_response (s"provider usage requires unsigned integer " ++ quoted field) in
  match get field v with
  | None => if required then Err bad else Ok 0%Z
  | Some x => ok_or (as_u64 x) bad
  end.
Definition detail (v : value) (field counter : str) : result LlmError Z :=
  match get field v with
  | None => Ok 0%Z
  | Some x =>
      if is_object x then count x counter false
      else Err (invalid_response (s"provider usage requires object " ++ quoted field))
  end.
Definition openai_usage (v : value) (chat : bool) : result LlmError TokenUsage :=
  let '(input, output, input_details, output_details) :=
    if chat then
      (s"prompt_tokens", s"completion_tokens", s"prompt_tokens_details", s"completion_tokens_details")
    else (s"input_tokens", s"output_tokens", s"input_tokens_details", s"output_tokens_details") in
  input ← count v input true;
  output ← count v output true;
  reasoning ← detail v output_details (s"reasoning_tokens");
  cached_input ← detail v input_details (s"cached_tokens");
  cache_creation_input ← detail v input_details (s"cache_write_tokens");
  let usage := mkTokenUsage input output reasoning cached_input cache_creation_input in
  _ ← ordinary_input usage;
  Ok usage.
Definition anthropic_input (v : value) : result LlmError TokenUsage :=
  ordinary ← count v (s"input_tokens") true;
  cached_input ← count v (s"cache_read_input_tokens") false;
  cache_creation_input ← count v (s"cache_creation_input_tokens") false;
  input ← ok_or (total ← checked_add U64_MAX ordinary cached_input;
                 checked_add U64_MAX total cache_creation_input)
            (invalid_response (s"Anthropic input usage overflowed"));
  Ok (mkTokenUsage input 0 0 cached_input cache_creation_input).
Definition anthropic_update (v : value) (previous : TokenUsage) : result LlmError TokenUsage :=
  ordinary ← ordinary_input previous;
  let counters := bm_of_list
    [ (s"input_tokens", VNumber (PosInt ordinary));
      (s"cache_read_input_tokens", VNumber (PosInt (tu_cached_input previous)));
      (s"cache_creation_input_tokens", VNumber (PosInt (tu_cache_creation_input previous))) ] in
  counters ← foldM (λ counters field,
      match get field v with
      | Some _ => n ← count v field true; Ok (bm_insert field (VNumber (PosInt n)) counters)
      | None => Ok counters
      end) counters
    [s"input_tokens"; s"cache_read_input_tokens"; s"cache_creation_input_tokens"];
  anthropic_input (VObject counters).

(** ** Fields *)

Definition get_array (key : str) (v : value) : option (list value) := get key v ≫= as_array.
Definition has_type (kind : str) (v : value) : bool := bool_decide (get_str (s"type") v = Some kind).
(** [value.pointer("/a/b")]; neither token is a number. *)
Definition pointer2 (a b : str) (v : value) : option value := get a v ≫= get b.

Definition required_text (field : option value) (message : str) : result LlmError str :=
  ok_or (field ≫= as_str) (invalid_response message).
Definition required_nonempty_text (field : option value) (message : str) : result LlmError str :=
  text ← required_text field message;
  if bool_decide (text = []) then Err (invalid_response message) else Ok text.
Definition push_nonempty_text (content : list ChatContent) (text : option str) : list ChatContent :=
  match text with
  | Some text => if bool_decide (text = []) then content else content ++ [Text text]
  | None => content
  end.

Section parse.
Context {J : JsonText}.

Definition parse_arguments (message text : str) : result LlmError value :=
  match json_from_str text with
  | Ok v => Ok v
  | Err e => Err (invalid_response (message ++ s" arguments were invalid JSON: " ++ e))
  end.

(** ** Chat completions *)

Definition parse_openai_tool_call (call : value) : result LlmError ChatContent :=
  id ← required_nonempty_text (get (s"id") call) (s"OpenAI-compatible tool call did not include id");
  function ← ok_or (get (s"function") call)
    (invalid_response (s"OpenAI-compatible tool call did not include function"));
  name ← required_text (get (s"name") function)
    (s"OpenAI-compatible tool call did not include function.name");
  args_text ← required_text (get (s"arguments") function)
    (s"OpenAI-compatible tool call did not include string function.arguments");
  args ← parse_arguments (s"OpenAI-compatible tool call") args_text;
  Ok (ToolCall id name args).

Definition chat_stop (finish_reason : option str) (refused : bool) : result LlmError StopReason :=
  let reported r := bool_decide (finish_reason = Some r) in
  if refused || reported (s"content_filter") then Ok Refusal
  else if reported (s"length") then Ok MaxTokens
  else if reported (s"tool_calls") then Ok ToolUse
  else if reported (s"stop") then Ok EndTurn
  else Err (invalid_response (s"OpenAI-compatible response returned unknown finish_reason "
              ++ quoted (default (s"missing") finish_reason))).

Definition parse_chat_completions_response (v : value) : result LlmError ChatResponse :=
  let choice := get_array (s"choices") v ≫= head in
  message ← ok_or (choice ≫= get (s"message"))
    (invalid_response (s"OpenAI-compatible response did not include choices[0].message"));
  let content := push_nonempty_text [] (get_str (s"content") message) in
  let refused := match get_str (s"refusal") message with
                 | Some text => if bool_decide (text = []) then None else Some text
                 | None => None
                 end in
  let content := match refused with Some text => content ++ [Text text] | None => content end in
  content ← match get_array (s"tool_calls") message with
            | Some tool_calls =>
                calls ← traverse parse_openai_tool_call tool_calls; Ok (content ++ calls)
            | None => Ok content
            end;
  _ ← (if bool_decide (content = []) then
         Err (invalid_response (s"OpenAI-compatible response did not include text or tool calls"))
       else Ok ());
  usage ← openai_usage (index (s"usage") v) true;
  stop ← chat_stop (choice ≫= get_str (s"finish_reason")) (bool_decide (is_Some refused));
  Ok (response_new content usage stop).

(** ** Responses *)

Definition message_content_blocks (item : value) : list value :=
  default [] (get_array (s"content") item).
Definition is_web_search_call (item : value) : bool := has_type (s"web_search_call") item.

Definition parse_url_citation (annotation : value) : result LlmError UrlCitation :=
  url ← required_text (get (s"url") annotation) (s"Responses API url_citation did not include a url");
  Ok (mkUrlCitation url (get_str (s"title") annotation) (get_u64 (s"start_index") annotation)
        (get_u64 (s"end_index") annotation)).
Definition parse_message_citations (item : value) : result LlmError (list UrlCitation) :=
  traverse parse_url_citation
    (List.filter (has_type (s"url_citation"))
       (concat (map (λ block, default [] (get_array (s"annotations") block))
                  (message_content_blocks item)))).

Definition web_search_field (action item : value) (name : str) : option value :=
  match get name action with Some v => Some v | None => get name item end.
Definition parse_web_search_event (item : value) : result LlmError ProviderSearchEvent :=
  reported ← ok_or (get (s"action") item)
    (invalid_response (s"Responses API web_search_call did not include an action"));
  let kind := match reported with
              | VString text => text
              | other => default [] (get_str (s"type") other)
              end in
  action ← (if kind =s s"search" then Ok Search
            else if kind =s s"open_page" then Ok OpenPage
            else if kind =s s"find_in_page" then Ok FindInPage
            else Err (invalid_response
                   (s"Responses API web_search_call returned an unknown action " ++ quoted kind)));
  let queries :=
    match web_search_field reported item (s"queries") ≫= as_array with
    | Some values => omap as_str values
    | None =>
        match web_search_field reported item (s"query") ≫= as_str with
        | Some query => [query]
        | None => []
        end
    end in
  Ok (mkSearchEvent (get_str (s"id") item) action queries
        (web_search_field reported item (s"url") ≫= as_str)).

(** One output item read for its hosted searches and citations. *)
Definition search_item (acc : list ProviderSearchEvent * list UrlCitation) (item : value) :
    result LlmError (list ProviderSearchEvent * list UrlCitation) :=
  events ← (if is_web_search_call item then
              event ← parse_web_search_event item; Ok (acc.1 ++ [event])
            else Ok acc.1);
  citations ← (if has_type (s"message") item then
                 citations ← parse_message_citations item; Ok (acc.2 ++ citations)
               else Ok acc.2);
  Ok (events, citations).
Definition search_calls (events : list ProviderSearchEvent) : Z :=
  Z.of_nat (length (List.filter (λ e, bool_decide (se_action e = Search)) events)).
(** The billable units: [None] is unknown. *)
Definition outcome_calls (v : value) (billing : WebSearchBilling) (events : list ProviderSearchEvent) :
    option Z :=
  match billing with
  | BillingUnknown => None
  | OpenaiSearchActions =>
      match get_array (s"output") v with Some _ => Some (search_calls events) | None => None end
  | AzureNumRequests =>
      usage ← pointer2 (s"tool_usage") (s"web_search") v;
      get_u64 (s"num_requests") usage
  end.
Definition provider_web_search_outcome (v : value) (provider_web_search : bool)
    (billing : WebSearchBilling) : result LlmError (option ProviderWebSearchOutcome) :=
  if negb provider_web_search then Ok None
  else
    '(events, citations) ← foldM search_item ([], []) (default [] (get_array (s"output") v));
    Ok (Some (mkWebSearchOutcome (outcome_calls v billing events) events citations)).

(** The visible content of one message block, and whether it refuses. *)
Definition message_block (acc : list ChatContent * bool) (block : value) : list ChatContent * bool :=
  if has_type (s"output_text") block || has_type (s"text") block then
    (push_nonempty_text acc.1
       (match get (s"text") block with Some v => Some v | None => get (s"content") block end ≫= as_str),
     acc.2)
  else if has_type (s"refusal") block then
    match get_str (s"refusal") block with
    | Some text => (acc.1 ++ [Text text], true)
    | None => acc
    end
  else acc.
Definition parse_function_call (item : value) : result LlmError ChatContent :=
  id ← required_nonempty_text
    (match get (s"call_id") item with Some v => Some v | None => get (s"id") item end)
    (s"Responses API function_call did not include call_id");
  name ← required_text (get (s"name") item) (s"Responses API function_call did not include name");
  args_text ← required_text (get (s"arguments") item)
    (s"Responses API function_call did not include string arguments");
  args ← parse_arguments (s"Responses API function_call") args_text;
  Ok (ToolCall id name args).
Definition output_item (acc : list ChatContent * bool) (item : value) :
    result LlmError (list ChatContent * bool) :=
  if has_type (s"message") item then
    Ok (foldl message_block acc (message_content_blocks item))
  else if has_type (s"function_call") item then
    call ← parse_function_call item; Ok (acc.1 ++ [call], acc.2)
  else Ok acc.

Definition incomplete_reason (v : value) : option str :=
  pointer2 (s"incomplete_details") (s"reason") v ≫= as_str.
Definition responses_stop (v : value) (refused : bool) (content : list ChatContent) :
    result LlmError StopReason :=
  let status := get_str (s"status") v in
  let reported r := bool_decide (status = Some r) in
  if reported (s"incomplete") then
    if bool_decide (incomplete_reason v = Some (s"max_output_tokens")) then Ok MaxTokens
    else if bool_decide (incomplete_reason v = Some (s"content_filter")) then Ok Refusal
    else Err (invalid_response (s"Responses API returned unknown incomplete reason "
                ++ quoted (default (s"missing") (incomplete_reason v))))
  else if reported (s"completed") then
    Ok (if refused then Refusal else if existsb is_tool_call content then ToolUse else EndTurn)
  else Err (invalid_response (s"Responses API returned unsupported status "
              ++ quoted (default (s"missing") status))).

Definition parse_responses_response (v : value) (provider_web_search : bool)
    (billing : WebSearchBilling) : result LlmError ChatResponse :=
  let output_items := get_array (s"output") v in
  let items := default [] output_items in
  let content :=
    if existsb (has_type (s"message")) items then []
    else push_nonempty_text [] (get_str (s"output_text") v) in
  '(content, refused) ← foldM output_item (content, false) items;
  let incomplete_exhaustion :=
    bool_decide (get_str (s"status") v = Some (s"incomplete"))
    && bool_decide (incomplete_reason v = Some (s"max_output_tokens")) in
  _ ← (if bool_decide (content = []) && negb incomplete_exhaustion then
         Err (invalid_response (s"Responses API response did not include text or tool calls"))
       else Ok ());
  usage ← openai_usage (index (s"usage") v) false;
  stop ← responses_stop v refused content;
  let hosted_call := existsb is_web_search_call items in
  let provider_state :=
    if bool_decide (stop = ToolUse) || hosted_call then get (s"output") v else None in
  web_search ← provider_web_search_outcome v provider_web_search billing;
  Ok (mkChatResponse content usage stop provider_state web_search).

(** ** Anthropic *)

Definition parse_anthropic_stop_reason (reason : str) : result LlmError StopReason :=
  if (reason =s s"end_turn") || (reason =s s"stop_sequence") then Ok EndTurn
  else if reason =s s"tool_use" then Ok ToolUse
  else if reason =s s"max_tokens" then Ok MaxTokens
  else if reason =s s"model_context_window_exceeded" then Ok ModelContextWindowExceeded
  else if reason =s s"refusal" then Ok Refusal
  else Err (invalid_response (s"Anthropic response returned an unknown stop_reason")).
Definition anthropic_structured_stop (stop : StopReason) (structured_response : bool) :
    result LlmError StopReason :=
  if structured_response && negb (bool_decide (stop = ModelContextWindowExceeded)) then
    if negb (bool_decide (stop = ToolUse)) then
      Err (invalid_response (s"Anthropic response returned response without tool_use stop_reason"))
    else Ok EndTurn
  else Ok stop.

Definition anthropic_call (acc : list ChatContent * bool) (id name : str) (args : value) :
    list ChatContent * bool :=
  if name =s s"response" then (acc.1 ++ [Text (json_to_string args)], true)
  else (acc.1 ++ [ToolCall id name args], acc.2).
Definition anthropic_block (acc : list ChatContent * bool) (block : value) :
    result LlmError (list ChatContent * bool) :=
  if has_type (s"text") block then
    Ok (push_nonempty_text acc.1 (get_str (s"text") block), acc.2)
  else if has_type (s"tool_use") block then
    id ← required_nonempty_text (get (s"id") block) (s"Anthropic tool_use did not include id");
    name ← required_text (get (s"name") block) (s"Anthropic tool_use did not include name");
    Ok (anthropic_call acc id name (default (VObject []) (get (s"input") block)))
  else Ok acc.
(** A structured response beside external tool calls is refused. *)
Definition mixed_response (stop : StopReason) (structured : bool) (content : list ChatContent) : bool :=
  negb (bool_decide (stop = ModelContextWindowExceeded)) && structured && existsb is_tool_call content.

Definition parse_anthropic_response (v : value) : result LlmError ChatResponse :=
  blocks ← ok_or (get_array (s"content") v)
    (invalid_response (s"Anthropic response did not include content array"));
  stop ← parse_anthropic_stop_reason (default (s"missing") (as_str (index (s"stop_reason") v)));
  '(content, structured_response) ← foldM anthropic_block ([], false) blocks;
  _ ← (if bool_decide (content = []) && negb (bool_decide (stop = ModelContextWindowExceeded)) then
         Err (invalid_response (s"Anthropic response did not include text or tool calls"))
       else Ok ());
  usage ← anthropic_input (index (s"usage") v);
  output ← count (index (s"usage") v) (s"output_tokens") true;
  let usage := mkTokenUsage (tu_input usage) output (tu_reasoning usage) (tu_cached_input usage)
                 (tu_cache_creation_input usage) in
  _ ← (if mixed_response stop structured_response content then
         Err (invalid_response (s"Anthropic response mixed response with external tool calls"))
       else Ok ());
  stop ← anthropic_structured_stop stop structured_response;
  Ok (response_new content usage stop).
End parse.
