(* ===== verification/LlmStream.v ===== *)
(** * Streams of model providers

    [llm/src/stream.rs] (the accumulators of the three wire formats) and the
    streaming path of [llm/src/http_provider.rs]: body limit, screening of
    every event, ingestion, the credential gate and completion.

    The decoder of server-sent events is a parameter; it delivers a list of
    events or errors.  The ingest channel is the list of queued deltas; the
    downstream receiver accepts every event until it closes.  After an error
    the source reads neither the accumulator nor the channel again, so an
    error carries no state. *)

From S2P Require Import Prelude Str BMap Json LlmRetry TextGate LlmParse.

#[local] Arguments s : simpl never.

(** ** Tool calls in pieces *)

Record PartialToolCall : Type := mkPartial { pt_id : str; pt_name : str; pt_arguments : str }.
Definition partial_default : PartialToolCall := mkPartial [] [] [].
(** [BTreeMap<usize, PartialToolCall>]: ordered by index. *)
Abbreviation call_map := (list (Z * PartialToolCall)).
(** [f(map.entry(k).or_default())]. *)
Fixpoint entry_update (k : Z) (f : PartialToolCall → PartialToolCall) (m : call_map) : call_map :=
  match m with
  | [] => [(k, f partial_default)]
  | (k', c) :: m' =>
      if (k <? k')%Z then (k, f partial_default) :: m
      else if (k =? k')%Z then (k, f c) :: m'
      else (k', c) :: entry_update k f m'
  end.

Section stream.
Context {J : JsonText}.

Definition partial_finish (c : PartialToolCall) (api : str) (allow_partial : bool) :
    result LlmError (str * str * value) :=
  if bool_decide (pt_id c = []) || bool_decide (pt_name c = [])
  then Err (invalid_response (api ++ s" stream returned an incomplete tool call"))
  else
    args ← match json_from_str (pt_arguments c) with
           | Ok v => Ok v
           | Err _ =>
               if allow_partial then Ok (VString (pt_arguments c))
               else Err (invalid_response (api ++ s" stream returned invalid tool arguments"))
           end;
    Ok (pt_id c, pt_name c, args).
Definition block_index (v : value) : Z := default 0%Z (get_u64 (s"index") v).

(** [try_send] on the ingest channel; its receiver lives as long as the loop. *)
Definition GATE_CAPACITY : nat := 64.
Definition send_text_delta (queue : list str) (text : str) : result LlmError (list str) :=
  if (length queue <? GATE_CAPACITY)%nat then Ok (queue ++ [text])
  else Err (llm_new (s"LLM provider stream fan-out exceeded the ingest channel capacity")).

(** ** Chat completions *)

Record ChatCompletionAccumulator : Type := mkChatAcc {
  ca_text : str;
  ca_tool_calls : call_map;
  ca_usage : option TokenUsage;
  ca_usage_invalid : bool;
  ca_stop : option StopReason;
  ca_refused : bool;
}.
Definition chat_default : ChatCompletionAccumulator := mkChatAcc [] [] None false None false.
Definition chat_eta (a : ChatCompletionAccumulator) : ChatCompletionAccumulator :=
  mkChatAcc (ca_text a) (ca_tool_calls a) (ca_usage a) (ca_usage_invalid a) (ca_stop a) (ca_refused a).
#[global] Instance set_ca_text : Setter ca_text := ltac:(derive_setter chat_eta ca_text).
#[global] Instance set_ca_tool_calls : Setter ca_tool_calls := ltac:(derive_setter chat_eta ca_tool_calls).
#[global] Instance set_ca_usage : Setter ca_usage := ltac:(derive_setter chat_eta ca_usage).
#[global] Instance set_ca_usage_invalid : Setter ca_usage_invalid := ltac:(derive_setter chat_eta ca_usage_invalid).
#[global] Instance set_ca_stop : Setter ca_stop := ltac:(derive_setter chat_eta ca_stop).
#[global] Instance set_ca_refused : Setter ca_refused := ltac:(derive_setter chat_eta ca_refused).

Definition parse_openai_stop_reason (reason : str) : result LlmError StopReason :=
  if reason =s s"stop" then Ok EndTurn
  else if reason =s s"tool_calls" then Ok ToolUse
  else if reason =s s"length" then Ok MaxTokens
  else if reason =s s"content_filter" then Ok Refusal
  else Err (invalid_response (s"OpenAI-compatible stream returned an unknown finish_reason")).

Definition chat_usage (a : ChatCompletionAccumulator) (v : value) : ChatCompletionAccumulator :=
  match get (s"usage") v with
  | Some usage =>
      if is_null usage then a
      else match openai_usage usage true with
           | Ok usage => a <| ca_usage := Some usage |>
           | Err _ => a <| ca_usage_invalid := true |>
           end
  | None => a
  end.
Definition chat_delta (delta : value) (aq : ChatCompletionAccumulator * list str)
    (field : str * bool) : result LlmError (ChatCompletionAccumulator * list str) :=
  match get_str field.1 delta with
  | Some text =>
      if bool_decide (text = []) then Ok aq
      else
        queue ← send_text_delta aq.2 text;
        Ok (aq.1 <| ca_text := ca_text aq.1 ++ text |>
                 <| ca_refused := ca_refused aq.1 || field.2 |>, queue)
  | None => Ok aq
  end.
Definition append_opt (x : str) (o : option str) : str := x ++ default [] o.
Definition chat_call (a : ChatCompletionAccumulator) (call : value) : ChatCompletionAccumulator :=
  let function := default VNull (get (s"function") call) in
  a <| ca_tool_calls := entry_update (block_index call) (λ c, mkPartial
         (append_opt (pt_id c) (get_str (s"id") call))
         (append_opt (pt_name c) (get_str (s"name") function))
         (append_opt (pt_arguments c) (get_str (s"arguments") function))) (ca_tool_calls a) |>.
Definition chat_choice (a : ChatCompletionAccumulator) (queue : list str) (choice : value) :
    result LlmError (ChatCompletionAccumulator * list str) :=
  let delta := default VNull (get (s"delta") choice) in
  '(a, queue) ← foldM (chat_delta delta) (a, queue) [(s"content", false); (s"refusal", true)];
  let a := foldl chat_call a (default [] (get_array (s"tool_calls") delta)) in
  match get_str (s"finish_reason") choice with
  | Some reason => stop ← parse_openai_stop_reason reason; Ok (a <| ca_stop := Some stop |>, queue)
  | None => Ok (a, queue)
  end.
Definition chat_ingest (a : ChatCompletionAccumulator) (queue : list str) (v : value) :
    result LlmError (ChatCompletionAccumulator * list str) :=
  let a := chat_usage a v in
  match get_array (s"choices") v ≫= head with
  | None => Ok (a, queue)
  | Some choice => chat_choice a queue choice
  end.

Definition finish_call (api : str) (kc : Z * PartialToolCall) : result LlmError ChatContent :=
  '(id, name, args) ← partial_finish kc.2 api false;
  Ok (ToolCall id name args).
Definition chat_finish (a : ChatCompletionAccumulator) : result LlmError ChatResponse :=
  let content := push_nonempty_text [] (Some (ca_text a)) in
  calls ← traverse (finish_call (s"OpenAI-compatible")) (ca_tool_calls a);
  let content := content ++ calls in
  _ ← (if bool_decide (content = []) then
         Err (invalid_response (s"OpenAI-compatible stream did not include text or tool calls"))
       else Ok ());
  stop ← ok_or (ca_stop a)
    (invalid_response (s"OpenAI-compatible stream did not include finish_reason"));
  let stop := if ca_refused a then Refusal else stop in
  _ ← (if ca_usage_invalid a then
         Err (invalid_response (s"OpenAI-compatible stream returned invalid usage"))
       else Ok ());
  usage ← ok_or (ca_usage a)
    (invalid_response (s"OpenAI-compatible stream did not include usage"));
  Ok (response_new content usage stop).

(** ** Responses *)

Record ResponsesAccumulator : Type := mkResponsesAcc {
  ra_provider_web_search : bool;
  ra_billing : WebSearchBilling;
  ra_events : list ProviderSearchEvent;
  ra_citations : list UrlCitation;
  ra_calls : option Z;
}.

Definition ingest_output_item (a : ResponsesAccumulator) (v : value) :
    result LlmError ResponsesAccumulator :=
  if negb (ra_provider_web_search a) then Ok a
  else
    match get (s"item") v with
    | None => Ok a
    | Some item =>
        a ← (if is_web_search_call item then
               event ← parse_web_search_event item;
               let calls :=
                 if bool_decide (ra_billing a = OpenaiSearchActions)
                    && bool_decide (se_action event = Search)
                 then Some (saturating_add U64_MAX (default 0%Z (ra_calls a)) 1)
                 else ra_calls a in
               Ok (mkResponsesAcc (ra_provider_web_search a) (ra_billing a)
                     (ra_events a ++ [event]) (ra_citations a) calls)
             else Ok a);
        if has_type (s"message") item then
          citations ← parse_message_citations item;
          Ok (mkResponsesAcc (ra_provider_web_search a) (ra_billing a) (ra_events a)
                (ra_citations a ++ citations) (ra_calls a))
        else Ok a
    end.
Definition responses_merge (a : ResponsesAccumulator) (response : ChatResponse) (has_output : bool) :
    ChatResponse :=
  match cr_web_search response with
  | Some outcome =>
      if has_output then response
      else
        mkChatResponse (cr_content response) (cr_usage response) (cr_stop response)
          (cr_provider_state response)
          (Some (mkWebSearchOutcome
             (if bool_decide (ra_billing a = OpenaiSearchActions) then ra_calls a
              else wo_calls outcome)
             (ra_events a) (ra_citations a)))
  | None => response
  end.
Definition is_array (v : value) : bool := match v with VArray _ => true | _ => false end.
Definition responses_ingest (a : ResponsesAccumulator) (queue : list str) (v : value) :
    result LlmError (ResponsesAccumulator * list str * option ChatResponse) :=
  if has_type (s"response.output_text.delta") v || has_type (s"response.refusal.delta") v then
    match get_str (s"delta") v with
    | Some text =>
        if bool_decide (text = []) then Ok (a, queue, None)
        else queue ← send_text_delta queue text; Ok (a, queue, None)
    | None => Ok (a, queue, None)
    end
  else if has_type (s"response.output_item.done") v then
    a ← ingest_output_item a v; Ok (a, queue, None)
  else if has_type (s"response.completed") v || has_type (s"response.incomplete") v then
    let kind := default (s"response.completed") (get_str (s"type") v) in
    let has_output := match pointer2 (s"response") (s"output") v with
                      | Some o => is_array o | None => false end in
    response ← ok_or (get (s"response") v) (invalid_response (kind ++ s" did not include response"));
    response ← parse_responses_response response (ra_provider_web_search a) (ra_billing a);
    Ok (a, queue, Some (responses_merge a response has_output))
  else Ok (a, queue, None).

(** ** Anthropic *)

Record AnthropicAccumulator : Type := mkAnthropicAcc {
  aa_text : str;
  aa_tool_calls : call_map;
  aa_input_usage : option TokenUsage;
  aa_usage_invalid : bool;
  aa_output_tokens : option Z;
  aa_stop : option StopReason;
}.
Definition anthropic_default : AnthropicAccumulator := mkAnthropicAcc [] [] None false None None.
Definition anthropic_eta (a : AnthropicAccumulator) : AnthropicAccumulator :=
  mkAnthropicAcc (aa_text a) (aa_tool_calls a) (aa_input_usage a) (aa_usage_invalid a)
    (aa_output_tokens a) (aa_stop a).
#[global] Instance set_aa_text : Setter aa_text := ltac:(derive_setter anthropic_eta aa_text).
#[global] Instance set_aa_tool_calls : Setter aa_tool_calls := ltac:(derive_setter anthropic_eta aa_tool_calls).
#[global] Instance set_aa_input_usage : Setter aa_input_usage := ltac:(derive_setter anthropic_eta aa_input_usage).
#[global] Instance set_aa_usage_invalid : Setter aa_usage_invalid := ltac:(derive_setter anthropic_eta aa_usage_invalid).
#[global] Instance set_aa_output_tokens : Setter aa_output_tokens := ltac:(derive_setter anthropic_eta aa_output_tokens).
#[global] Instance set_aa_stop : Setter aa_stop := ltac:(derive_setter anthropic_eta aa_stop).

Definition note_input (a : AnthropicAccumulator) (r : result LlmError TokenUsage) : AnthropicAccumulator :=
  match r with
  | Ok usage => a <| aa_input_usage := Some usage |>
  | Err _ => a <| aa_usage_invalid := true |>
  end.
Definition note_output (a : AnthropicAccumulator) (r : result LlmError Z) : AnthropicAccumulator :=
  match r with
  | Ok output => a <| aa_output_tokens := Some output |>
  | Err _ => a <| aa_usage_invalid := true |>
  end.
Definition message_start (a : AnthropicAccumulator) (v : value) : AnthropicAccumulator :=
  let usage := index (s"usage") (index (s"message") v) in
  let a := note_input a (anthropic_input usage) in
  match get (s"output_tokens") usage with
  | Some _ => note_output a (count usage (s"output_tokens") true)
  | None => a
  end.
Definition content_block_start (a : AnthropicAccumulator) (v : value) : AnthropicAccumulator :=
  let block := default VNull (get (s"content_block") v) in
  if has_type (s"tool_use") block then
    a <| aa_tool_calls := entry_update (block_index v) (λ c, mkPartial
           (default [] (get_str (s"id") block)) (default [] (get_str (s"name") block))
           (pt_arguments c)) (aa_tool_calls a) |>
  else a.
Definition content_block_delta (a : AnthropicAccumulator) (queue : list str) (v : value) :
    result LlmError (AnthropicAccumulator * list str) :=
  let delta := default VNull (get (s"delta") v) in
  if has_type (s"text_delta") delta || has_type (s"refusal_delta") delta then
    match get_str (s"text") delta with
    | Some text =>
        queue ← send_text_delta queue text; Ok (a <| aa_text := aa_text a ++ text |>, queue)
    | None => Ok (a, queue)
    end
  else if has_type (s"input_json_delta") delta then
    Ok (match get_str (s"partial_json") delta with
        | Some json =>
            a <| aa_tool_calls := entry_update (block_index v) (λ c, mkPartial
                   (pt_id c) (pt_name c) (pt_arguments c ++ json)) (aa_tool_calls a) |>
        | None => a
        end, queue)
  else Ok (a, queue).
Definition message_delta (a : AnthropicAccumulator) (v : value) : result LlmError AnthropicAccumulator :=
  let usage := index (s"usage") v in
  let a := match aa_input_usage a with
           | Some previous => note_input a (anthropic_update usage previous)
           | None => a
           end in
  let a := note_output a (count usage (s"output_tokens") true) in
  match pointer2 (s"delta") (s"stop_reason") v ≫= as_str with
  | Some reason => stop ← parse_anthropic_stop_reason reason; Ok (a <| aa_stop := Some stop |>)
  | None => Ok (a <| aa_stop := None |>)
  end.
Definition anthropic_ingest (a : AnthropicAccumulator) (queue : list str) (v : value) :
    result LlmError (AnthropicAccumulator * list str) :=
  if has_type (s"message_start") v then Ok (message_start a v, queue)
  else if has_type (s"content_block_start") v then Ok (content_block_start a v, queue)
  else if has_type (s"content_block_delta") v then content_block_delta a queue v
  else if has_type (s"message_delta") v then a ← message_delta a v; Ok (a, queue)
  else Ok (a, queue).

Definition anthropic_finish_call (allow_partial : bool) (acc : list ChatContent * bool)
    (kc : Z * PartialToolCall) : result LlmError (list ChatContent * bool) :=
  '(id, name, args) ← partial_finish kc.2 (s"Anthropic") allow_partial;
  Ok (anthropic_call acc id name args).
Definition anthropic_finish (a : AnthropicAccumulator) : result LlmError ChatResponse :=
  _ ← (if aa_usage_invalid a then
         Err (invalid_response (s"Anthropic stream included invalid usage"))
       else Ok ());
  stop ← ok_or (aa_stop a) (invalid_response (s"Anthropic stream did not include stop_reason"));
  let exceeded := bool_decide (stop = ModelContextWindowExceeded) in
  '(content, structured_response) ←
    foldM (anthropic_finish_call exceeded)
      (push_nonempty_text [] (Some (aa_text a)), false) (aa_tool_calls a);
  _ ← (if bool_decide (content = []) && negb exceeded then
         Err (invalid_response (s"Anthropic stream did not include text or tool calls"))
       else Ok ());
  _ ← (if mixed_response stop structured_response content then
         Err (invalid_response (s"Anthropic stream mixed response with external tool calls"))
       else Ok ());
  stop ← anthropic_structured_stop stop structured_response;
  output ← ok_or (aa_output_tokens a)
    (invalid_response (s"Anthropic stream did not include output usage"));
  input ← ok_or (aa_input_usage a)
    (invalid_response (s"Anthropic stream did not include input usage"));
  Ok (response_new content
        (mkTokenUsage (tu_input input) output (tu_reasoning input) (tu_cached_input input)
           (tu_cache_creation_input input)) stop).

(** ** One accumulator for all formats *)

Inductive ApiFlavor : Type := ChatCompletions | Responses | AnthropicMessages | SystemOne.
Inductive HttpStreamAccumulator : Type :=
| AccChat (a : ChatCompletionAccumulator)
| AccResponses (a : ResponsesAccumulator)
| AccAnthropic (a : AnthropicAccumulator).

Definition accumulator_new (api : ApiFlavor) (provider_web_search : bool) (billing : WebSearchBilling) :
    result LlmError HttpStreamAccumulator :=
  match api with
  | SystemOne => Err (llm_new (s"system_one does not support streaming"))
  | ChatCompletions => Ok (AccChat chat_default)
  | Responses => Ok (AccResponses (mkResponsesAcc provider_web_search billing [] [] None))
  | AnthropicMessages => Ok (AccAnthropic anthropic_default)
  end.
Definition ingest (acc : HttpStreamAccumulator) (queue : list str) (v : value) :
    result LlmError (HttpStreamAccumulator * list str * option ChatResponse) :=
  match acc with
  | AccChat a => '(a, queue) ← chat_ingest a queue v; Ok (AccChat a, queue, None)
  | AccResponses a =>
      '(a, queue, response) ← responses_ingest a queue v; Ok (AccResponses a, queue, response)
  | AccAnthropic a => '(a, queue) ← anthropic_ingest a queue v; Ok (AccAnthropic a, queue, None)
  end.
Definition accumulator_finish (acc : HttpStreamAccumulator) : result LlmError ChatResponse :=
  match acc with
  | AccChat a => chat_finish a
  | AccResponses _ => Err (invalid_response (s"Responses API stream ended without terminal response"))
  | AccAnthropic a => anthropic_finish a
  end.
End stream.
