(* ===== verification/LlmHttp.v ===== *)
(** * The HTTP provider

    [llm/src/http_provider.rs]: the streaming path from the body to the
    published events, and the two guards in front of every request, the
    circuit breaker and the requests-per-minute window.  An instant is a
    number of nanoseconds.  The decoder of server-sent events
    ([sse_stream]) is a parameter. *)

From S2P Require Import Prelude Str BMap Json LlmRetry TextGate LlmParse LlmStream.

#[local] Arguments s : simpl never.

(** ** Credentials in JSON *)

Fixpoint json_contains_credential (credential : str) (substring_threshold : Z) (v : value) : bool :=
  match v with
  | VString text =>
      if (str_len credential <? substring_threshold)%Z then text =s credential
      else contains_str text credential
  | VArray values => existsb (json_contains_credential credential substring_threshold) values
  | VObject m =>
      existsb (λ '(key, v),
        ((substring_threshold <=? str_len credential)%Z && contains_str key credential)
        || json_contains_credential credential substring_threshold v) m
  | _ => false
  end.

(** ** The JSON form of a response *)

Definition vstr_opt (x : option str) : value := match x with Some x => VString x | None => VNull end.
Definition vnum_opt (x : option Z) : value := match x with Some n => VNumber (PosInt n) | None => VNull end.
Definition ser_content (c : ChatContent) : value :=
  match c with
  | Text text => VObject (bm_of_list [(s"text", VString text)])
  | ToolCall id name args =>
      VObject (bm_of_list [(s"tool_call",
        VObject (bm_of_list [(s"id", VString id); (s"name", VString name); (s"args", args)]))])
  end.
Definition ser_stop (stop : StopReason) : value :=
  VString match stop with
          | EndTurn => s"end_turn" | ToolUse => s"tool_use" | MaxTokens => s"max_tokens"
          | ModelContextWindowExceeded => s"model_context_window_exceeded" | Refusal => s"refusal"
          end.
Definition ser_usage (u : TokenUsage) : value :=
  let n z := VNumber (PosInt z) in
  VObject (bm_of_list
    [ (s"input", n (tu_input u)); (s"output", n (tu_output u)); (s"reasoning", n (tu_reasoning u));
      (s"cached_input", n (tu_cached_input u));
      (s"cache_creation_input", n (tu_cache_creation_input u)) ]).
Definition ser_search_event (e : ProviderSearchEvent) : value :=
  VObject (bm_of_list
    [ (s"id", vstr_opt (se_id e));
      (s"action", VString match se_action e with
                          | Search => s"search" | OpenPage => s"open_page"
                          | FindInPage => s"find_in_page" end);
      (s"queries", VArray (map VString (se_queries e))); (s"url", vstr_opt (se_url e)) ]).
Definition ser_citation (c : UrlCitation) : value :=
  VObject (bm_of_list
    [ (s"url", VString (uc_url c)); (s"title", vstr_opt (uc_title c));
      (s"start_index", vnum_opt (uc_start_index c)); (s"end_index", vnum_opt (uc_end_index c)) ]).
Definition ser_web_search (o : ProviderWebSearchOutcome) : value :=
  VObject (bm_of_list
    [ (s"calls", vnum_opt (wo_calls o)); (s"events", VArray (map ser_search_event (wo_events o)));
      (s"citations", VArray (map ser_citation (wo_citations o))) ]).
Definition ser_chat_response (r : ChatResponse) : value :=
  VObject (bm_of_list
    [ (s"content", VArray (map ser_content (cr_content r))); (s"usage", ser_usage (cr_usage r));
      (s"stop", ser_stop (cr_stop r)); (s"provider_state", default VNull (cr_provider_state r));
      (s"web_search", match cr_web_search r with Some o => ser_web_search o | None => VNull end) ]).

(** ** The body *)

Inductive SseBodyError : Type := BodyHttp (e : LlmError) | LimitExceeded.
(** The [scan] over the chunks of the body: raw bytes are counted before they
    are parsed, and nothing follows an error. *)
Fixpoint limit_body (budget : Z) (chunks : list (result LlmError (list Z))) :
    list (result SseBodyError (list Z)) :=
  match chunks with
  | [] => []
  | Err e :: _ => [Err (BodyHttp e)]
  | Ok chunk :: rest =>
      if (Z.of_nat (length chunk) <=? budget)%Z
      then Ok chunk :: limit_body (budget - Z.of_nat (length chunk)) rest
      else [Err LimitExceeded]
  end.
(** What the decoder yields: the data of an event, or an error. *)
Inductive SseError : Type := SseBody (e : SseBodyError) | SseInvalid.
Class SseDecoder := {
  sse_decode : list (result SseBodyError (list Z)) → list (result SseError (option str));
}.

Inductive ChatStreamEvent : Type := TextDelta (text : str) | Completed (response : ChatResponse).

Section provider.
Context {J : JsonText}.
Variables (provider_id : str) (response_body_limit_bytes : Z).

Definition provider_message (detail : str) : str := provider_id ++ s" provider " ++ detail.

Definition nonempty_key (credential : option str) : option str :=
  match credential with
  | Some key => if bool_decide (key = []) then None else Some key
  | None => None
  end.
Definition reflected (context : str) : LlmError :=
  llm_new (provider_message (context ++ s" contained its configured credential")).
Definition screened_json (text : str) (credential : option str) (context : str) :
    result LlmError (result str value) :=
  match nonempty_key credential with
  | None => Ok (json_from_str text)
  | Some key =>
      if contains_str text key then Err (reflected context)
      else
        match json_from_str text with
        | Ok v =>
            if json_contains_credential key 0 v then Err (reflected context) else Ok (Ok v)
        | Err e => Ok (Err e)
        end
  end.

(** The events sent downstream.  [accepts] is the number the receiver takes
    before it closes; [None] if it never does. *)
Section downstream.
Variable accepts : option nat.

Definition send_event (published : list ChatStreamEvent) (e : ChatStreamEvent) :
    list ChatStreamEvent * result LlmError () :=
  match accepts with
  | Some n => if (length published <? n)%nat then (published ++ [e], Ok ())
              else (published, Err (llm_new (s"LLM stream receiver closed")))
  | None => (published ++ [e], Ok ())
  end.

Fixpoint forward_gated_text (queue : list str) (gate : SensitiveTextGate)
    (published : list ChatStreamEvent) :
    SensitiveTextGate * list ChatStreamEvent * result LlmError () :=
  match queue with
  | [] => (gate, published, Ok ())
  | text :: queue =>
      match push gate text with
      | (gate, Err _) => (gate, published, Err (reflected (s"stream")))
      | (gate, Ok cleared) =>
          if bool_decide (cleared = []) then forward_gated_text queue gate published
          else
            match send_event published (TextDelta cleared) with
            | (published, Ok _) => forward_gated_text queue gate published
            | (published, Err e) => (gate, published, Err e)
            end
      end
  end.
Definition flush_gate_tail (gate : SensitiveTextGate) (published : list ChatStreamEvent) :
    list ChatStreamEvent * result LlmError () :=
  match finish gate with
  | Err _ => (published, Err (reflected (s"stream")))
  | Ok tail => if bool_decide (tail = []) then (published, Ok ())
               else send_event published (TextDelta tail)
  end.

Definition sse_error (e : SseError) : LlmError :=
  match e with
  | SseBody (BodyHttp e) => e
  | SseBody LimitExceeded =>
      invalid_response (provider_id ++ s" provider stream exceeded response_body_limit_bytes ("
        ++ show_uint response_body_limit_bytes ++ s")")
  | SseInvalid => invalid_response (provider_message (s"returned invalid SSE"))
  end.
Definition reports_error (v : value) : bool :=
  match get_str (s"type") v with
  | Some kind => (kind =s s"error") || ends_with kind (s".failed") || ends_with kind (s".error")
  | None => false
  end.

(** The loop over the decoded events: what was published, the gate, and the
    response. *)
Fixpoint stream_events (credential : option str) (items : list (result SseError (option str)))
    (acc : HttpStreamAccumulator) (gate : SensitiveTextGate) (published : list ChatStreamEvent) :
    SensitiveTextGate * list ChatStreamEvent * result LlmError ChatResponse :=
  match items with
  | [] => (gate, published, accumulator_finish acc)
  | Err e :: _ => (gate, published, Err (sse_error e))
  | Ok None :: items => stream_events credential items acc gate published
  | Ok (Some data) :: items =>
      if trim data =s s"[DONE]" then (gate, published, accumulator_finish acc)
      else
        match
          parsed ← screened_json data credential (s"stream");
          v ← match parsed with
              | Ok v => Ok v
              | Err _ => Err (invalid_response
                           (provider_message (s"returned invalid JSON in its SSE stream")))
              end;
          if reports_error v then Err (llm_new (provider_message (s"stream reported an error")))
          else ingest acc [] v
        with
        | Err e => (gate, published, Err e)
        | Ok (acc, queue, response) =>
            match forward_gated_text queue gate published with
            | (gate, published, Err e) => (gate, published, Err e)
            | (gate, published, Ok _) =>
                match response with
                | Some response => (gate, published, Ok response)
                | None => stream_events credential items acc gate published
                end
            end
        end
  end.

(** [send_stream] once the request was answered: everything published, in
    order, and the result. *)
Definition send_stream {D : SseDecoder} (api : ApiFlavor) (provider_web_search : bool)
    (billing : WebSearchBilling) (credential : option str)
    (body : list (result LlmError (list Z))) : list ChatStreamEvent * result LlmError () :=
  match accumulator_new api provider_web_search billing with
  | Err e => ([], Err e)
  | Ok acc =>
      let items := sse_decode (limit_body response_body_limit_bytes body) in
      match stream_events credential items acc (gate_new credential) [] with
      | (_, published, Err e) => (published, Err e)
      | (gate, published, Ok response) =>
          let leaked := match nonempty_key credential with
                        | Some key => json_contains_credential key 0 (ser_chat_response response)
                        | None => false
                        end in
          if leaked then (published, Err (reflected (s"stream")))
          else
            match flush_gate_tail gate published with
            | (published, Err e) => (published, Err e)
            | (published, Ok _) => send_event published (Completed response)
            end
      end
  end.
End downstream.
End provider.

(** ** Guards of a request *)

Record CircuitState : Type := mkCircuit {
  cs_consecutive_failures : Z;
  cs_open_until : option Z;
}.
Definition circuit_default : CircuitState := mkCircuit 0 None.

(** The first part of [acquire_request_slot]. *)
Definition check_circuit (provider_id : str) (now : Z) (c : CircuitState) :
    CircuitState * result LlmError () :=
  match cs_open_until c with
  | Some until =>
      if (now <? until)%Z then
        (c, Err (mkLlmError (provider_message provider_id (s"circuit breaker is open")) CircuitOpen
               facts_default [] None None))
      else (mkCircuit 0 None, Ok ())
  | None => (c, Ok ())
  end.
(** [record_request_result]: the error of the request, if it failed. *)
Definition record_request_result (failures cooldown now : Z) (outcome : option LlmError)
    (c : CircuitState) : CircuitState :=
  match outcome with
  | None => mkCircuit 0 None
  | Some e =>
      if is_retryable_llm_error e && negb (bool_decide (le_kind e = CircuitOpen)) then
        let n := saturating_add USIZE_MAX (cs_consecutive_failures c) 1 in
        mkCircuit n (if (failures <=? n)%Z then Some (now + cooldown)%Z else cs_open_until c)
      else c
  end.

Definition MINUTE : Z := 60 * 1000000000.
(** One round of the loop over the rate window: the window, and how long to
    sleep if there is no room; [None] when the request may start. *)
Fixpoint expire_window (now : Z) (window : list Z) : list Z :=
  match window with
  | started :: rest =>
      if (MINUTE <=? Z.max 0 (now - started))%Z then expire_window now rest else window
  | [] => []
  end.
Definition rate_round (limit : nat) (now : Z) (window : list Z) : list Z * option Z :=
  let window := expire_window now window in
  if (length window <? limit)%nat then (window ++ [now], None)
  else
    (window, match window with
             | started :: _ => Some (Z.max 0 (MINUTE - Z.max 0 (now - started)))
             | [] => None
             end).
