(* ===== verification/LlmStreamSpec.v ===== *)
(** * Streams of model providers: what is published

    Whatever the provider sends, the published text is the beginning of the
    text it sent and ends before any occurrence of the credential; a stream
    that succeeds published all of it. *)

From S2P Require Import Prelude Str BMap Json LlmRetry TextGate LlmParse LlmStream LlmHttp.
From Stdlib Require Import Sorted.

#[local] Arguments s : simpl never.

(** ** Published text *)

Definition event_text (e : ChatStreamEvent) : str :=
  match e with TextDelta text => text | Completed _ => [] end.
Definition published_text (events : list ChatStreamEvent) : str := concat (map event_text events).
Definition is_delta (e : ChatStreamEvent) : Prop :=
  match e with TextDelta text => text ≠ [] | Completed _ => False end.

Lemma published_text_snoc events e :
  published_text (events ++ [e]) = published_text events ++ event_text e.
Proof. unfold published_text. rewrite map_app, concat_app. cbn. by rewrite app_nil_r. Qed.

(** ** What the provider sent *)

Section received.
Context {J : JsonText}.

(** The text of one event, where its format puts it. *)
Definition delta_text (api : ApiFlavor) (v : value) : str :=
  match api with
  | ChatCompletions =>
      let choice := default VNull (get_array (s"choices") v ≫= head) in
      let delta := default VNull (get (s"delta") choice) in
      default [] (get_str (s"content") delta) ++ default [] (get_str (s"refusal") delta)
  | Responses =>
      if has_type (s"response.output_text.delta") v || has_type (s"response.refusal.delta") v
      then default [] (get_str (s"delta") v) else []
  | AnthropicMessages =>
      let delta := default VNull (get (s"delta") v) in
      if has_type (s"content_block_delta") v &&
         (has_type (s"text_delta") delta || has_type (s"refusal_delta") delta)
      then default [] (get_str (s"text") delta) else []
  | SystemOne => []
  end.
(** The event that carries the whole response ends a stream of this format. *)
Definition terminal (api : ApiFlavor) (v : value) : bool :=
  match api with
  | Responses => has_type (s"response.completed") v || has_type (s"response.incomplete") v
  | _ => false
  end.
(** The text of a stream, up to its end, as the provider sent it. *)
Fixpoint received (api : ApiFlavor) (items : list (result SseError (option str))) : str :=
  match items with
  | [] | Err _ :: _ => []
  | Ok None :: items => received api items
  | Ok (Some data) :: items =>
      if trim data =s s"[DONE]" then []
      else
        match json_from_str data with
        | Ok v => delta_text api v ++ (if terminal api v then [] else received api items)
        | Err _ => []
        end
  end.

(** The published text begins the text of the stream, and every occurrence of
    the credential there starts behind it. *)
Definition safe_beginning (key published text : str) : Prop :=
  published `prefix_of` text ∧ ∀ pre post, text = pre ++ key ++ post → published `prefix_of` pre.

(** A response of the text of the stream followed by the calls of tools only; a
    call of Anthropic's [response] tool is the structured answer. *)
Definition text_part (text : str) : list ChatContent :=
  if bool_decide (text = []) then [] else [Text text].
Definition chat_part (call : str * str * value) : ChatContent := ToolCall call.1.1 call.1.2 call.2.
Definition answer_part (call : str * str * value) : ChatContent :=
  if call.1.2 =s s"response" then Text (json_to_string call.2) else chat_part call.
Definition answers_with (api : ApiFlavor) (text : str) (content : list ChatContent) : Prop :=
  match api with
  | ChatCompletions => ∃ calls, content = text_part text ++ map chat_part calls
  | AnthropicMessages => ∃ calls, content = text_part text ++ map answer_part calls
  | Responses | SystemOne => True
  end.

Lemma has_type_other a b v : a ≠ b → has_type a v = true → has_type b v = false.
Proof.
  unfold has_type. intros Hab Ha%bool_decide_eq_true. apply bool_decide_eq_false. congruence.
Qed.
End received.

Definition flavor (acc : HttpStreamAccumulator) : ApiFlavor :=
  match acc with
  | AccChat _ => ChatCompletions
  | AccResponses _ => Responses
  | AccAnthropic _ => AnthropicMessages
  end.
(** The text an accumulator has emitted. *)
Definition acc_text (acc : HttpStreamAccumulator) : option str :=
  match acc with
  | AccChat a => Some (ca_text a)
  | AccAnthropic a => Some (aa_text a)
  | AccResponses _ => None
  end.
(** The emitted text of a format that keeps it. *)
Definition emitted_ok (acc : HttpStreamAccumulator) (emitted : str) : Prop :=
  ∀ text, acc_text acc = Some text → text = emitted.

Section ingest.
Context {J : JsonText}.

Lemma send_text_delta_Ok q text q' : send_text_delta q text = Ok q' → q' = q ++ [text].
Proof. unfold send_text_delta. case_if; [|done]. by intros [= <-]. Qed.

Lemma chat_call_text a call : ca_text (chat_call a call) = ca_text a.
Proof. done. Qed.
Lemma chat_calls_text a calls : ca_text (foldl chat_call a calls) = ca_text a.
Proof. revert a. induction calls as [|c calls IH]; intros a; cbn; [done|]. by rewrite IH. Qed.

Lemma chat_delta_text delta a q field a' q' :
  chat_delta delta (a, q) field = Ok (a', q') →
  ∃ new, q' = q ++ new ∧ ca_text a' = ca_text a ++ concat new ∧
    concat new = default [] (get_str field.1 delta).
Proof.
  unfold chat_delta. cbn [fst snd]. destruct (get_str field.1 delta) as [text|].
  2:{ intros [= <- <-]. exists []. by rewrite !app_nil_r. }
  case_bool_decide as Ht.
  { intros [= <- <-]. exists []. by rewrite Ht, !app_nil_r. }
  intros (q1 & Hq & [= <- <-])%result_bind_Ok. apply send_text_delta_Ok in Hq as ->.
  exists [text]. cbn. by rewrite app_nil_r.
Qed.
Lemma chat_choice_text a q choice a' q' :
  chat_choice a q choice = Ok (a', q') →
  let delta := default VNull (get (s"delta") choice) in
  ∃ new, q' = q ++ new ∧ ca_text a' = ca_text a ++ concat new ∧
    concat new = default [] (get_str (s"content") delta) ++ default [] (get_str (s"refusal") delta).
Proof.
  unfold chat_choice. intros ([a3 q3] & Hd & Hf)%result_bind_Ok. cbn [foldM] in Hd.
  apply result_bind_Ok in Hd as ([a1 q1] & H1 & Hd). apply result_bind_Ok in Hd as ([a2 q2] & H2 & [= <- <-]).
  apply chat_delta_text in H1 as (n1 & -> & T1 & L1), H2 as (n2 & -> & T2 & L2).
  assert (ca_text a' = ca_text a2 ∧ q' = (q ++ n1) ++ n2) as [-> ->].
  { destruct (get_str (s"finish_reason") choice) as [r|].
    - apply result_bind_Ok in Hf as (st & _ & [= <- <-]). split; [exact (chat_calls_text a2 _) | done].
    - injection Hf as <- <-. split; [exact (chat_calls_text a2 _) | done]. }
  exists (n1 ++ n2). rewrite <-app_assoc, concat_app, T2, T1, <-app_assoc, L1, L2. done.
Qed.
Lemma chat_ingest_text a q v a' q' :
  chat_ingest a q v = Ok (a', q') →
  ∃ new, q' = q ++ new ∧ ca_text a' = ca_text a ++ concat new ∧ concat new = delta_text ChatCompletions v.
Proof.
  unfold chat_ingest. assert (Ht : ca_text (chat_usage a v) = ca_text a).
  { unfold chat_usage. repeat case_match; done. }
  rewrite <-Ht. cbn [delta_text]. destruct (_ ≫= head) as [choice|].
  - apply chat_choice_text.
  - intros [= <- <-]. exists []. by rewrite !app_nil_r.
Qed.

Lemma note_text a r r' : aa_text (note_output (note_input a r) r') = aa_text a.
Proof. by destruct r, r'. Qed.
Lemma message_start_text a v : aa_text (message_start a v) = aa_text a.
Proof.
  unfold message_start. destruct (anthropic_input _), (get _ _); try done; by destruct (count _ _ _).
Qed.
Lemma message_delta_text a v a' : message_delta a v = Ok a' → aa_text a' = aa_text a.
Proof.
  unfold message_delta. cbn zeta. set (b := match aa_input_usage a with Some _ => _ | None => a end).
  assert (Hb : aa_text b = aa_text a).
  { unfold b. destruct (aa_input_usage a); [|done]. by destruct (anthropic_update _ _). }
  assert (Hn : aa_text (note_output b (count (index (s"usage") v) (s"output_tokens") true)) = aa_text a)
    by (by destruct (count _ _ _)).
  destruct (_ ≫= as_str) as [r|]; [|by intros [= <-]].
  intros (st & _ & [= <-])%result_bind_Ok. done.
Qed.
Lemma anthropic_ingest_text a q v a' q' :
  anthropic_ingest a q v = Ok (a', q') →
  ∃ new, q' = q ++ new ∧ aa_text a' = aa_text a ++ concat new ∧
    concat new = delta_text AnthropicMessages v.
Proof.
  assert (Hsame : ∀ a', aa_text a' = aa_text a → delta_text AnthropicMessages v = [] →
    ∃ new, q = q ++ new ∧ aa_text a' = aa_text a ++ concat new ∧
      concat new = delta_text AnthropicMessages v).
  { intros a0 -> ->. exists []. by rewrite !app_nil_r. }
  assert (Hother : ∀ kind, kind ≠ s"content_block_delta" → has_type kind v = true →
    delta_text AnthropicMessages v = []).
  { intros kind Hk Hv. cbn [delta_text]. by rewrite (has_type_other _ _ v Hk Hv). }
  unfold anthropic_ingest.
  destruct (has_type (s"message_start") v) eqn:H1.
  { intros [= <- <-]. apply Hsame; [apply message_start_text | by apply (Hother (s"message_start"))]. }
  destruct (has_type (s"content_block_start") v) eqn:H2.
  { intros [= <- <-]. apply Hsame; [unfold content_block_start; by case_if|].
    by apply (Hother (s"content_block_start")). }
  destruct (has_type (s"content_block_delta") v) eqn:H3.
  { unfold content_block_delta. cbn zeta. cbn [delta_text] in *. rewrite H3 in *. cbn [andb] in *.
    destruct (_ || _).
    - destruct (get_str _ _) as [text|]; [|intros [= <- <-]; by apply Hsame].
      intros (q1 & Hq & [= <- <-])%result_bind_Ok. apply send_text_delta_Ok in Hq as ->.
      exists [text]. cbn. by rewrite app_nil_r.
    - destruct (has_type (s"input_json_delta") _); intros [= <- <-]; apply Hsame; try done.
      by case_match. }
  assert (Hnone : delta_text AnthropicMessages v = []) by (cbn [delta_text]; by rewrite H3).
  destruct (has_type (s"message_delta") v); [|intros [= <- <-]; by apply Hsame].
  intros (a1 & Ha & [= <- <-])%result_bind_Ok. apply Hsame; [by eapply message_delta_text | done].
Qed.

Lemma responses_ingest_text a q v a' q' r :
  responses_ingest a q v = Ok (a', q', r) →
  (∃ new, q' = q ++ new ∧ concat new = delta_text Responses v) ∧
  (terminal Responses v = bool_decide (is_Some r)).
Proof.
  assert (Hsame : delta_text Responses v = [] → ∃ new : list str, q = q ++ new ∧ concat new = delta_text Responses v)
    by (intros ->; exists []; by rewrite app_nil_r).
  assert (Hother : ∀ kind, kind ≠ s"response.completed" → kind ≠ s"response.incomplete" →
    has_type kind v = true → terminal Responses v = false).
  { intros kind H1 H2 Hv. cbn [terminal]. by rewrite (has_type_other _ _ v H1 Hv), (has_type_other _ _ v H2 Hv). }
  unfold responses_ingest. cbn [delta_text] in *.
  destruct (has_type (s"response.output_text.delta") v || _) eqn:Hd.
  { assert (Ht : terminal Responses v = false).
    { apply orb_true_iff in Hd as [Hd|Hd]; by eapply Hother, Hd. }
    rewrite Ht. destruct (get_str _ _) as [text|]; [|by intros [= <- <- <-]; auto].
    case_bool_decide as He; [intros [= <- <- <-]; auto|].
    intros (q1 & Hq & [= <- <- <-])%result_bind_Ok. apply send_text_delta_Ok in Hq as ->.
    split; [|done]. exists [text]. cbn. by rewrite app_nil_r. }
  destruct (has_type (s"response.output_item.done") v) eqn:Hi.
  { intros (a1 & _ & [= <- <- <-])%result_bind_Ok. by rewrite (Hother (s"response.output_item.done")); auto. }
  cbn [terminal]. destruct (has_type (s"response.completed") v || _); [|by intros [= <- <- <-]; auto].
  intros (x & _ & Hr)%result_bind_Ok. apply result_bind_Ok in Hr as (y & _ & [= <- <- <-]).
  split; [auto|]. by rewrite bool_decide_true by by eexists.
Qed.

(** One event: what it adds to the text is what the provider sent in it. *)
Lemma ingest_text acc emitted v acc' q' r :
  emitted_ok acc emitted → ingest acc [] v = Ok (acc', q', r) →
  emitted_ok acc' (emitted ++ concat q') ∧ flavor acc' = flavor acc ∧
  concat q' = delta_text (flavor acc) v ∧ terminal (flavor acc) v = bool_decide (is_Some r).
Proof.
  assert (Hno : bool_decide (is_Some (@None ChatResponse)) = false)
    by (apply bool_decide_eq_false; by intros [? [=]]).
  intros He. destruct acc as [a|a|a]; cbn [ingest flavor]; intros Hi.
  - apply result_bind_Ok in Hi as ([a1 q1] & Hi & [= <- <- <-]).
    apply chat_ingest_text in Hi as (new & -> & Ht & Hl). cbn [app]. split_and!; try done.
    intros text [= <-]. by rewrite Ht, (He _ eq_refl).
  - apply result_bind_Ok in Hi as ([[a1 q1] r1] & Hi & [= <- <- <-]).
    apply responses_ingest_text in Hi as [(new & -> & Hl) Hr]. by split_and!.
  - apply result_bind_Ok in Hi as ([a1 q1] & Hi & [= <- <- <-]).
    apply anthropic_ingest_text in Hi as (new & -> & Ht & Hl). cbn [app]. split_and!; try done.
    intros text [= <-]. by rewrite Ht, (He _ eq_refl).
Qed.

(** The content of a finished response. *)
Lemma text_part_push text : push_nonempty_text [] (Some text) = text_part text.
Proof. done. Qed.
Lemma finish_calls_parts api kcs calls :
  traverse (finish_call api) kcs = Ok calls → ∃ cs, calls = map chat_part cs.
Proof.
  rewrite traverse_Ok. induction 1 as [|kc c kcs calls Hc _ [cs ->]]; [by exists []|].
  unfold finish_call in Hc. apply result_bind_Ok in Hc as ([[id name] args] & _ & [= <-]).
  by exists ((id, name, args) :: cs).
Qed.
Lemma anthropic_calls_parts allow kcs content b content' b' :
  foldM (anthropic_finish_call allow) (content, b) kcs = Ok (content', b') →
  ∃ cs, content' = content ++ map answer_part cs.
Proof.
  revert content b. induction kcs as [|kc kcs IH]; intros content b; cbn [foldM].
  { intros [= <- <-]. exists []. by rewrite app_nil_r. }
  intros ([c1 b1] & H1 & Hc)%result_bind_Ok. apply IH in Hc as [cs ->].
  unfold anthropic_finish_call in H1. apply result_bind_Ok in H1 as ([[id name] args] & _ & [= H1]).
  exists ((id, name, args) :: cs). change (map ?f (?x :: ?l)) with ([f x] ++ map f l).
  rewrite (assoc (++)). f_equal. unfold anthropic_call in H1. unfold answer_part. cbn [fst snd].
  case_if; by injection H1 as <- <-.
Qed.
Lemma finish_content acc r emitted :
  emitted_ok acc emitted → accumulator_finish acc = Ok r → answers_with (flavor acc) emitted (cr_content r).
Proof.
  intros He. destruct acc as [a|a|a]; cbn [accumulator_finish flavor answers_with]; [|done|]; intros Hf;
    rewrite <-(He _ eq_refl).
  - unfold chat_finish in Hf. cbn zeta in Hf. rewrite text_part_push in Hf.
    apply result_bind_Ok in Hf as (calls & Hc & Hf). apply result_bind_Ok in Hf as ([] & _ & Hf).
    apply result_bind_Ok in Hf as (st & _ & Hf). apply result_bind_Ok in Hf as ([] & _ & Hf).
    apply result_bind_Ok in Hf as (u & _ & [= <-]). apply finish_calls_parts in Hc as [cs ->]. by exists cs.
  - unfold anthropic_finish in Hf. cbn zeta in Hf. rewrite text_part_push in Hf.
    apply result_bind_Ok in Hf as ([] & _ & Hf). apply result_bind_Ok in Hf as (st & _ & Hf).
    apply result_bind_Ok in Hf as ([content structured] & Hc & Hf).
    apply result_bind_Ok in Hf as ([] & _ & Hf). apply result_bind_Ok in Hf as ([] & _ & Hf).
    apply result_bind_Ok in Hf as (st' & _ & Hf). apply result_bind_Ok in Hf as (o & _ & Hf).
    apply result_bind_Ok in Hf as (i & _ & [= <-]). by apply anthropic_calls_parts in Hc.
Qed.
End ingest.

(** ** The gate on the way out *)

Definition clean (key text : str) : Prop := contains_str text key = false.
Lemma clean_prefix key a b : clean key (a ++ b) → clean key a.
Proof.
  unfold clean. rewrite <-!not_true_iff_false, !contains_occurs. intros Hc (pre & post & ->).
  apply Hc. exists pre, (post ++ b). by rewrite <-!app_assoc.
Qed.
Lemma gate_inv_clean key emitted published g : gate_inv key emitted published g → clean key published.
Proof. intros [_ _ -> Hc _ _]. by eapply clean_prefix. Qed.

Lemma gate_finish key emitted published g : key ≠ [] → gate_inv key emitted published g →
  finish g = Ok (tg_unverified g) ∧ emitted = published ++ tg_unverified g ∧ clean key emitted.
Proof.
  intros Hk [Hkey _ Ht Hc _ _]. split; [|done]. unfold finish. rewrite Hkey, bool_decide_false by done.
  destruct (contains_str (tg_unverified g) key) eqn:E; [exfalso|done].
  apply contains_occurs in E as (pre & post & E). rewrite <-not_true_iff_false, contains_occurs in Hc.
  apply Hc. exists (published ++ pre), post. by rewrite Ht, E, <-app_assoc.
Qed.
Lemma gate_inv_safe key emitted published g later : key ≠ [] →
  gate_inv key emitted published g → safe_beginning key published (emitted ++ later).
Proof.
  intros Hk Hg. split.
  - destruct Hg as [_ _ -> _ _ _]. exists (tg_unverified g ++ later). by rewrite <-app_assoc.
  - intros pre post Ho. destruct (occurrence_unpublished _ _ _ _ _ _ _ Hk Hg Ho) as [gap ->]. by exists gap.
Qed.

Section publish.
Context {J : JsonText}.
Variables (provider_id : str) (limit : Z) (accepts : option nat) (key : str).
Hypothesis Hkey : key ≠ [].

(** Where a call stops, what it had published is safe, whatever was left. *)
Definition stopped (events : list ChatStreamEvent) (text : str) : Prop :=
  Forall is_delta events ∧ clean key (published_text events) ∧
  safe_beginning key (published_text events) text.
Lemma gate_stopped emitted events g later :
  gate_inv key emitted (published_text events) g → Forall is_delta events → stopped events (emitted ++ later).
Proof. intros Hg Hd. split_and!; [done | by eapply gate_inv_clean | by eapply gate_inv_safe]. Qed.

Lemma send_event_cases published e :
  send_event accepts published e = (published ++ [e], Ok ()) ∨
  ∃ err, send_event accepts published e = (published, Err err).
Proof. unfold send_event. destruct accepts; [case_if|]; eauto. Qed.

Lemma forward_inv queue emitted gate published :
  gate_inv key emitted (published_text published) gate → Forall is_delta published →
  match forward_gated_text provider_id accepts queue gate published with
  | (gate', published', Ok _) =>
      gate_inv key (emitted ++ concat queue) (published_text published') gate' ∧ Forall is_delta published'
  | (_, published', Err _) => ∀ later, stopped published' (emitted ++ concat queue ++ later)
  end.
Proof.
  revert emitted gate published. induction queue as [|text queue IH]; intros emitted gate published Hg Hd;
    cbn [forward_gated_text].
  { cbn. by rewrite app_nil_r. }
  destruct (push_inv _ _ _ _ text Hkey Hg) as [[_ He]|(cleared & gate' & -> & Hg')].
  { destruct (push gate text) as [gate' r']. cbn in He. subst r'. intros later. by eapply gate_stopped. }
  cbn [concat]. rewrite app_assoc.
  assert (Hl : ∀ later, emitted ++ (text ++ concat queue) ++ later = (emitted ++ text) ++ concat queue ++ later)
    by (intros later; by rewrite <-!app_assoc).
  case_bool_decide as Hc.
  { subst cleared. rewrite app_nil_r in Hg'. specialize (IH _ _ _ Hg' Hd).
    destruct (forward_gated_text _ _ _ _ _) as [[? ?] []]; [done|]. intros later. by rewrite Hl. }
  destruct (send_event_cases published (TextDelta cleared)) as [->|[err ->]].
  - specialize (IH (emitted ++ text) gate' (published ++ [TextDelta cleared])
      ltac:(by rewrite published_text_snoc) ltac:(apply Forall_app; by split; [|apply Forall_singleton])).
    destruct (forward_gated_text _ _ _ _ _) as [[? ?] []]; [done|]. intros later. by rewrite Hl.
  - intros later. by eapply gate_stopped.
Qed.

Lemma screened_value text context v :
  screened_json provider_id text (Some key) context = Ok (Ok v) → json_from_str text = Ok v.
Proof.
  unfold screened_json. destruct (nonempty_key _); [|by intros [=]].
  case_if; [done|]. destruct (json_from_str text); [|done]. case_if; [done|]. by intros [= ->].
Qed.

Lemma stream_events_inv items acc emitted gate published :
  emitted_ok acc emitted → gate_inv key emitted (published_text published) gate → Forall is_delta published →
  let text := emitted ++ received (flavor acc) items in
  match stream_events provider_id limit accepts (Some key) items acc gate published with
  | (gate', published', Ok response) =>
      gate_inv key text (published_text published') gate' ∧ Forall is_delta published' ∧
      answers_with (flavor acc) text (cr_content response)
  | (_, published', Err _) => stopped published' text
  end.
Proof.
  revert acc emitted gate published. induction items as [|[[data|]|e] items IH];
    intros acc emitted gate published He Hg Hd; cbn [stream_events received]; cbn zeta.
  - destruct (accumulator_finish acc) eqn:Hf; [|by eapply gate_stopped].
    rewrite app_nil_r. split_and!; [done..|]. by apply finish_content.
  - destruct (trim data =s _).
    { destruct (accumulator_finish acc) eqn:Hf; [|by eapply gate_stopped].
      rewrite app_nil_r. split_and!; [done..|]. by apply finish_content. }
    destruct (mbind _ _) as [[[acc' queue] response]|err] eqn:Hi; [|by eapply gate_stopped].
    apply result_bind_Ok in Hi as (parsed & Hp & Hi). apply result_bind_Ok in Hi as (v & Hv & Hi).
    destruct parsed as [v'|]; [|done]. injection Hv as ->. apply screened_value in Hp as ->.
    case_if in Hi; [done|]. destruct (ingest_text _ _ _ _ _ _ He Hi) as (He' & Hfl & <- & ->).
    pose proof (forward_inv queue emitted gate published Hg Hd) as Hfw.
    destruct (forward_gated_text _ _ _ _ _) as [[gate' published'] [[]|err]]; [|by apply Hfw].
    destruct Hfw as [Hg' Hd']. destruct response as [response|].
    + rewrite bool_decide_true by by eexists. rewrite app_nil_r. split_and!; [done..|].
      destruct acc as [a|a|a]; [..|]; cbn in Hi; [|done|];
        by apply result_bind_Ok in Hi as ([? ?] & _ & [=]).
    + rewrite bool_decide_false by (by intros [? [=]]). rewrite app_assoc, <-Hfl. by apply IH.
  - by apply IH.
  - by eapply gate_stopped.
Qed.
End publish.

Section safe.
Context {J : JsonText} {D : SseDecoder}.

(** How a stream of the text [text] ends: what was published, and the result. *)
Record ends_safely (key : str) (api : ApiFlavor) (text : str) (published : list ChatStreamEvent)
    (r : result LlmError ()) : Prop := {
  es_clean : contains_str (published_text published) key = false;
  es_beginning : safe_beginning key (published_text published) text;
  es_completed : r = Ok () → ∃ deltas response,
    published = deltas ++ [Completed response] ∧ Forall is_delta deltas ∧
    published_text deltas = text ∧
    json_contains_credential key 0 (ser_chat_response response) = false ∧
    answers_with api text (cr_content response);
  es_failed : is_ok r = false → Forall is_delta published;
}.
Lemma stopped_ends key api text events e : stopped key events text → ends_safely key api text events (Err e).
Proof. by intros (Hd & Hc & Hb). Qed.

(** The completion, once all the text is published. *)
Lemma completion_ends key api text accepts deltas response :
  clean key text → Forall is_delta deltas → published_text deltas = text →
  json_contains_credential key 0 (ser_chat_response response) = false →
  answers_with api text (cr_content response) →
  let '(published, r) := send_event accepts deltas (Completed response) in
  ends_safely key api text published r.
Proof.
  intros Hc Hd Hp Hleak Hans. assert (Hb : safe_beginning key text text).
  { split; [done|]. intros pre post Ho. exfalso. revert Hc. unfold clean.
    rewrite <-not_true_iff_false, contains_occurs. intros []. by exists pre, post. }
  destruct (send_event_cases accepts deltas (Completed response)) as [->|[err ->]].
  - split; try rewrite published_text_snoc; cbn [event_text]; rewrite ?app_nil_r, ?Hp; try done.
    intros _. by exists deltas, response.
  - split; by rewrite ?Hp.
Qed.

(** C23: a stream never publishes the credential, nor a part of it.  Whatever
    bytes the provider sends and however the decoder cuts them, error or not,
    the text published when the call ends does not contain the credential; it
    is the beginning of the text the provider sent, and every occurrence of
    the credential in that text starts behind the published part.  On failure
    only nonempty text deltas were published.  On success they are followed by
    one completion, whose response contains the credential nowhere, and their
    text is all the text the provider sent up to the end of the stream.  For
    chat completions the response is that text, if there is any, followed by
    tool calls only; for Anthropic it is that text, if there is any, followed
    by one part per tool call, a call of the [response] tool as the text of
    its arguments.  For Responses, whose last event carries the whole
    response, nothing is said of how its text relates to the deltas: the code
    does not compare them.  The credential is nonempty. *)
Theorem send_stream_safe provider_id limit accepts api web billing key body :
  key ≠ [] →
  let '(published, r) :=
    send_stream provider_id limit accepts api web billing (Some key) body in
  ends_safely key api (received api (sse_decode (limit_body limit body))) published r.
Proof.
  intros Hkey. unfold send_stream. set (items := sse_decode _). pose proof (gate_new_inv key Hkey) as Hnew.
  destruct (accumulator_new api web billing) as [acc|e] eqn:Ha.
  2:{ apply stopped_ends. by apply (gate_stopped key Hkey [] [] _ _ Hnew). }
  assert (emitted_ok acc [] ∧ flavor acc = api) as [He Hapi].
  { destruct api; try done; injection Ha as <-; (split; [|done]); try done; by intros ? [= <-]. }
  pose proof (stream_events_inv provider_id limit accepts key Hkey items acc [] (gate_new (Some key)) [] He
    Hnew ltac:(constructor)) as Hs. cbn zeta in Hs. rewrite Hapi in Hs. cbn [app] in Hs.
  destruct (stream_events _ _ _ _ _ _ _ _) as [[gate published] [response|e]]; [|by apply stopped_ends].
  destruct Hs as (Hg & Hd & Hans).
  assert (Hhere : stopped key published (received api items)).
  { rewrite <-(app_nil_r (received api items)). by eapply gate_stopped. }
  unfold nonempty_key. rewrite bool_decide_false by done.
  destruct (json_contains_credential key 0 _) eqn:Hleak; [by apply stopped_ends|].
  destruct (gate_finish key _ _ _ Hkey Hg) as (Hf & Hem & Hcl). unfold flush_gate_tail. rewrite Hf.
  case_bool_decide as Ht.
  - apply completion_ends; try done. by rewrite Hem, Ht, app_nil_r.
  - destruct (send_event_cases accepts published (TextDelta (tg_unverified gate))) as [->|[err ->]];
      [|by apply stopped_ends].
    apply completion_ends; try done; [apply Forall_app; by split; [|apply Forall_singleton]|].
    by rewrite published_text_snoc, Hem.
Qed.
End safe.
