(* ===== verification/LlmParity.v ===== *)
(** * Streamed and whole responses agree; usage and guards of model calls *)

From S2P Require Import Prelude Str BMap Json TextGate LlmRetry LlmParse LlmStream LlmHttp LlmStreamSpec.
From Stdlib Require Import Sorted.

#[local] Arguments s : simpl never.

(** ** Streamed and direct responses agree

    A chat completion may arrive as one body or as chunks that carry pieces of
    its text and of its tool calls.  Reading the chunks gives the response that
    reading the whole gives, for every way to cut it. *)

(** ** Chunks *)

Record CallDelta : Type := mkCallDelta {
  cd_index : Z;
  cd_id : option str;
  cd_name : option str;
  cd_arguments : option str;
}.
Record Chunk : Type := mkChunk {
  ck_content : option str;
  ck_refusal : option str;
  ck_calls : list CallDelta;
  ck_finish : option str;
  ck_usage : option value;
}.
(** Their form on the wire. *)
Definition delta_value (d : CallDelta) : value :=
  VObject (bm_of_list
    [ (s"index", VNumber (PosInt (cd_index d))); (s"id", vstr_opt (cd_id d));
      (s"function", VObject (bm_of_list
         [ (s"name", vstr_opt (cd_name d)); (s"arguments", vstr_opt (cd_arguments d)) ])) ]).
Definition chunk_value (c : Chunk) : value :=
  VObject (bm_of_list
    [ (s"choices", VArray [VObject (bm_of_list
         [ (s"delta", VObject (bm_of_list
              [ (s"content", vstr_opt (ck_content c)); (s"refusal", vstr_opt (ck_refusal c));
                (s"tool_calls", VArray (map delta_value (ck_calls c))) ]));
           (s"finish_reason", vstr_opt (ck_finish c)) ])]);
      (s"usage", default VNull (ck_usage c)) ]).

(** The pieces put together. *)
Definition content_text (cs : list Chunk) : str := concat (map (λ c, default [] (ck_content c)) cs).
Definition refusal_text (cs : list Chunk) : str := concat (map (λ c, default [] (ck_refusal c)) cs).
Definition pieces (f : CallDelta → option str) (k : Z) (ds : list CallDelta) : str :=
  concat (map (λ d, if (cd_index d =? k)%Z then default [] (f d) else []) ds).
Definition call_get (k : Z) (m : call_map) : option PartialToolCall :=
  snd <$> List.find (λ kc, kc.1 =? k)%Z m.
Record call_table (ds : list CallDelta) (m : call_map) : Prop := {
  ct_sorted : StronglySorted Z.lt (map fst m);
  ct_get : ∀ k, call_get k m =
    if existsb (λ d, cd_index d =? k)%Z ds
    then Some (mkPartial (pieces cd_id k ds) (pieces cd_name k ds) (pieces cd_arguments k ds))
    else None;
}.

(** The response as one body. *)
Definition call_value (kc : Z * PartialToolCall) : value :=
  VObject (bm_of_list
    [ (s"id", VString (pt_id kc.2));
      (s"function", VObject (bm_of_list
         [ (s"name", VString (pt_name kc.2)); (s"arguments", VString (pt_arguments kc.2)) ])) ]).
Definition whole_value (cs : list Chunk) (calls : call_map) (reason : str) (usage : value) : value :=
  VObject (bm_of_list
    [ (s"choices", VArray [VObject (bm_of_list
         [ (s"message", VObject (bm_of_list
              [ (s"content", VString (content_text cs)); (s"refusal", VString (refusal_text cs));
                (s"tool_calls", VArray (map call_value calls)) ]));
           (s"finish_reason", VString reason) ])]);
      (s"usage", usage) ]).

(** ** The table of calls *)

Lemma entry_update_keys k f m x : x ∈ map fst (entry_update k f m) → x = k ∨ x ∈ map fst m.
Proof.
  induction m as [|[k' c] m IH]; cbn; [set_solver|]. repeat case_if; cbn; set_solver.
Qed.
Lemma entry_update_sorted k f m :
  StronglySorted Z.lt (map fst m) → StronglySorted Z.lt (map fst (entry_update k f m)).
Proof.
  induction m as [|[k' c] m IH]; cbn [map fst entry_update]; intros Hs; [repeat constructor|].
  inversion Hs as [|?? Hs' Hf]; subst. destruct (Z.ltb_spec k k'), (Z.eqb_spec k k'); cbn; subst; try lia.
  - constructor; [done|]. constructor; [done|]. eapply Forall_impl; [exact Hf|]. cbn. lia.
  - by constructor.
  - constructor; [by apply IH|]. apply Forall_forall. intros x [->|Hx]%entry_update_keys; [lia|].
    rewrite Forall_forall in Hf. by apply Hf.
Qed.
Lemma call_get_cons k k' c m :
  call_get k ((k', c) :: m) = if (k' =? k)%Z then Some c else call_get k m.
Proof. unfold call_get. cbn. by case_if. Qed.
Lemma call_get_above k m : Forall (λ x, k < x)%Z (map fst m) → call_get k m = None.
Proof.
  induction m as [|[k' c] m IH]; [done|]. cbn [map fst]. rewrite Forall_cons. intros [Hlt Hm].
  rewrite call_get_cons, (proj2 (Z.eqb_neq k' k)) by lia. by apply IH.
Qed.
Lemma call_get_update k f m k' :
  StronglySorted Z.lt (map fst m) →
  call_get k' (entry_update k f m)
  = if (k =? k')%Z then Some (f (default partial_default (call_get k m))) else call_get k' m.
Proof.
  induction m as [|[k0 c] m IH]; cbn [map fst entry_update]; intros Hs; [by rewrite call_get_cons|].
  inversion Hs as [|?? Hs' Hf]; subst. destruct (Z.ltb_spec k k0).
  - rewrite call_get_cons. destruct (Z.eqb_spec k k'); [|done]. subst k'.
    rewrite call_get_above; [done|]. cbn. constructor; [done|].
    eapply Forall_impl; [exact Hf|]. cbn. lia.
  - destruct (Z.eqb_spec k k0) as [->|Hne].
    + rewrite !call_get_cons, Z.eqb_refl. by case_if.
    + rewrite !call_get_cons, IH by done. rewrite (proj2 (Z.eqb_neq k0 k)) by lia.
      destruct (Z.eqb_spec k0 k'), (Z.eqb_spec k k'); subst; done || lia.
Qed.

Definition add_delta (m : call_map) (d : CallDelta) : call_map :=
  entry_update (cd_index d) (λ c, mkPartial
    (append_opt (pt_id c) (cd_id d)) (append_opt (pt_name c) (cd_name d))
    (append_opt (pt_arguments c) (cd_arguments d))) m.
Lemma pieces_snoc f k ds d :
  pieces f k (ds ++ [d]) = pieces f k ds ++ if (cd_index d =? k)%Z then default [] (f d) else [].
Proof. unfold pieces. rewrite map_app, concat_app. cbn. by rewrite app_nil_r. Qed.
Lemma pieces_absent f k ds : existsb (λ d, cd_index d =? k)%Z ds = false → pieces f k ds = [].
Proof.
  unfold pieces. induction ds as [|d ds IH]; cbn; [done|]. intros [-> Hds]%orb_false_iff. by apply IH.
Qed.
Lemma add_deltas_table ds : call_table ds (foldl add_delta [] ds).
Proof.
  induction ds as [|d ds [Hs Hg]] using rev_ind; [by split; [constructor|]|].
  rewrite foldl_snoc. unfold add_delta at 1. split; [by apply entry_update_sorted|].
  intros k. rewrite call_get_update by done. rewrite existsb_app. cbn. rewrite orb_false_r, !pieces_snoc.
  destruct (Z.eqb_spec (cd_index d) k) as [->|]; [|by rewrite orb_false_r, !app_nil_r, Hg].
  rewrite orb_true_r, Hg. unfold append_opt. destruct (existsb _ ds) eqn:He; [done|].
  by rewrite !pieces_absent by done.
Qed.

(** ** The accumulated state *)

Section parity.
Context {J : JsonText}.

Definition chat_run (vs : list value) : result LlmError ChatResponse :=
  a ← foldM (λ a v, '(a, _) ← chat_ingest a [] v; Ok a) chat_default vs;
  chat_finish a.

Definition chunk_text (c : Chunk) : str := default [] (ck_content c) ++ default [] (ck_refusal c).
Definition refuses (c : Chunk) : bool := negb (bool_decide (default [] (ck_refusal c) = [])).
Definition note_chunk_usage (a : ChatCompletionAccumulator) (c : Chunk) : ChatCompletionAccumulator :=
  match ck_usage c with
  | Some u =>
      if is_null u then a
      else match openai_usage u true with
           | Ok u => a <| ca_usage := Some u |>
           | Err _ => a <| ca_usage_invalid := true |>
           end
  | None => a
  end.

Lemma str_opt_as o : as_str (vstr_opt o) = o.
Proof. by destruct o. Qed.
Lemma chat_deltas c a :
  ∃ q, foldM (chat_delta (VObject (bm_of_list
      [ (s"content", vstr_opt (ck_content c)); (s"refusal", vstr_opt (ck_refusal c));
        (s"tool_calls", VArray (map delta_value (ck_calls c))) ]))) (a, [])
    [(s"content", false); (s"refusal", true)]
  = Ok (a <| ca_text := ca_text a ++ chunk_text c |> <| ca_refused := ca_refused a || refuses c |>, q).
Proof.
  unfold chunk_text, refuses, chat_delta. cbn [foldM fst snd].
  set (delta := VObject _).
  assert (get_str (s"content") delta = ck_content c) as -> by (exact (str_opt_as _)).
  assert (get_str (s"refusal") delta = ck_refusal c) as -> by (exact (str_opt_as _)).
  destruct a as [t m u ui st rf], (ck_content c) as [[|x1 t1]|], (ck_refusal c) as [[|x2 t2]|];
    eexists; cbn; rewrite ?orb_false_r, ?orb_true_r, ?app_nil_r, <-?app_assoc; reflexivity.
Qed.
Lemma chat_calls_add ds a :
  foldl chat_call a (map delta_value ds)
  = a <| ca_tool_calls := foldl add_delta (ca_tool_calls a) ds |>.
Proof.
  revert a. induction ds as [|d ds IH]; intros a; [by destruct a|]. cbn [map foldl].
  rewrite IH. unfold chat_call, add_delta at 2.
  assert (get (s"function") (delta_value d) = Some (VObject (bm_of_list
    [ (s"name", vstr_opt (cd_name d)); (s"arguments", vstr_opt (cd_arguments d)) ]))) as -> by reflexivity.
  cbn [from_option id].
  assert (block_index (delta_value d) = cd_index d) as -> by reflexivity.
  assert (get_str (s"id") (delta_value d) = cd_id d) as -> by (exact (str_opt_as _)).
  set (f := VObject _).
  assert (get_str (s"name") f = cd_name d) as -> by (exact (str_opt_as _)).
  assert (get_str (s"arguments") f = cd_arguments d) as -> by (exact (str_opt_as _)).
  by destruct a.
Qed.

(** What a chunk with a known finish reason does. *)
Definition chunk_stop (c : Chunk) (stop : option StopReason) : option StopReason :=
  match ck_finish c with
  | Some r => match parse_openai_stop_reason r with Ok st => Some st | Err _ => stop end
  | None => stop
  end.
Definition chunk_state (a : ChatCompletionAccumulator) (c : Chunk) : ChatCompletionAccumulator :=
  let a' := note_chunk_usage a c in
  mkChatAcc (ca_text a ++ chunk_text c) (foldl add_delta (ca_tool_calls a) (ck_calls c))
    (ca_usage a') (ca_usage_invalid a') (chunk_stop c (ca_stop a)) (ca_refused a || refuses c).
Definition known_finish (c : Chunk) : Prop :=
  ∀ r, ck_finish c = Some r → is_ok (parse_openai_stop_reason r) = true.

Lemma chat_usage_chunk a c : chat_usage a (chunk_value c) = note_chunk_usage a c.
Proof.
  unfold chat_usage, note_chunk_usage.
  assert (get (s"usage") (chunk_value c) = Some (default VNull (ck_usage c))) as -> by reflexivity.
  by destruct (ck_usage c).
Qed.
Lemma note_usage_fields a c :
  let a' := note_chunk_usage a c in
  ca_text a' = ca_text a ∧ ca_tool_calls a' = ca_tool_calls a ∧ ca_stop a' = ca_stop a ∧
  ca_refused a' = ca_refused a.
Proof. unfold note_chunk_usage. cbn zeta. repeat case_match; done. Qed.

Lemma ingest_chunk a c :
  known_finish c → ('(a, _) ← chat_ingest a [] (chunk_value c); Ok a) = Ok (chunk_state a c).
Proof.
  intros Hk. unfold chat_ingest. rewrite chat_usage_chunk.
  destruct (note_usage_fields a c) as (Ht & Hm & Hst & Hrf). unfold chunk_state, chunk_stop.
  set (b := note_chunk_usage a c) in *. rewrite <-Ht, <-Hm, <-Hst, <-Hrf. clearbody b.
  set (delta := VObject (bm_of_list
      [ (s"content", vstr_opt (ck_content c)); (s"refusal", vstr_opt (ck_refusal c));
        (s"tool_calls", VArray (map delta_value (ck_calls c))) ])).
  assert (get_array (s"choices") (chunk_value c) ≫= head = Some (VObject (bm_of_list
    [ (s"delta", delta); (s"finish_reason", vstr_opt (ck_finish c)) ]))) as -> by reflexivity.
  unfold chat_choice. set (choice := VObject (bm_of_list [(s"delta", delta); _])).
  assert (get (s"delta") choice = Some delta) as -> by reflexivity. cbn [from_option id].
  assert (get_str (s"finish_reason") choice = ck_finish c) as -> by (exact (str_opt_as _)).
  assert (get_array (s"tool_calls") delta = Some (map delta_value (ck_calls c))) as -> by reflexivity.
  destruct (chat_deltas c b) as [q Hq]. fold delta in Hq. rewrite Hq. cbn [mbind result_bind from_option id].
  rewrite chat_calls_add. unfold known_finish in Hk. destruct (ck_finish c) as [r|].
  - specialize (Hk r eq_refl). destruct (parse_openai_stop_reason r) as [st|]; [|done]. by destruct b.
  - by destruct b.
Qed.
Lemma run_chunks a cs :
  Forall known_finish cs →
  foldM (λ a v, '(a, _) ← chat_ingest a [] v; Ok a) a (map chunk_value cs)
  = Ok (foldl chunk_state a cs).
Proof.
  intros Hk. revert a. induction Hk as [|c cs Hc _ IH]; intros a; [done|]. cbn [map foldM foldl].
  rewrite ingest_chunk by done. cbn [mbind result_bind]. apply IH.
Qed.

Lemma chunks_text cs a : ca_text (foldl chunk_state a cs) = ca_text a ++ concat (map chunk_text cs).
Proof.
  revert a. induction cs as [|c cs IH]; intros a; cbn; [by rewrite app_nil_r|]. rewrite IH. cbn.
  by rewrite <-app_assoc.
Qed.
Lemma chunks_calls cs a :
  ca_tool_calls (foldl chunk_state a cs) = foldl add_delta (ca_tool_calls a) (concat (map ck_calls cs)).
Proof.
  revert a. induction cs as [|c cs IH]; intros a; cbn; [done|]. rewrite IH. cbn. by rewrite foldl_app.
Qed.
Lemma chunks_refused cs a : ca_refused (foldl chunk_state a cs) = ca_refused a || existsb refuses cs.
Proof.
  revert a. induction cs as [|c cs IH]; intros a; cbn; [by rewrite orb_false_r|]. rewrite IH. cbn.
  by rewrite orb_assoc.
Qed.
Lemma chunks_stop cs a :
  ca_stop (foldl chunk_state a cs)
  = foldl (λ st r, match parse_openai_stop_reason r with Ok st => Some st | Err _ => st end)
      (ca_stop a) (omap ck_finish cs).
Proof.
  revert a. induction cs as [|c cs IH]; intros a; cbn; [done|]. rewrite IH. cbn. unfold chunk_stop.
  by destruct (ck_finish c).
Qed.
Definition note_usage (uv : option TokenUsage * bool) (u : value) : option TokenUsage * bool :=
  if is_null u then uv
  else match openai_usage u true with Ok u => (Some u, uv.2) | Err _ => (uv.1, true) end.
Lemma chunks_usage cs a :
  (ca_usage (foldl chunk_state a cs), ca_usage_invalid (foldl chunk_state a cs))
  = foldl note_usage (ca_usage a, ca_usage_invalid a) (omap ck_usage cs).
Proof.
  revert a. induction cs as [|c cs IH]; intros a; [done|]. cbn [foldl omap list_omap]. rewrite IH.
  unfold chunk_state, note_chunk_usage. cbn [ca_usage ca_usage_invalid].
  destruct (ck_usage c) as [u|]; [|done]. cbn [foldl]. unfold note_usage at 3.
  destruct (is_null u); [done|]. by destruct (openai_usage u true), a.
Qed.

(** One of the two texts is empty: the stream joins what the body separates. *)
Lemma no_refusals cs : refusal_text cs = [] → existsb refuses cs = false ∧
  concat (map chunk_text cs) = content_text cs.
Proof.
  unfold refusal_text, content_text. induction cs as [|c cs IH]; cbn; [done|].
  intros [Hc Hcs]%app_eq_nil. destruct (IH Hcs) as [-> ->]. unfold refuses, chunk_text. rewrite Hc.
  by rewrite app_nil_r.
Qed.
Lemma only_refusals cs : content_text cs = [] →
  existsb refuses cs = negb (bool_decide (refusal_text cs = [])) ∧
  concat (map chunk_text cs) = refusal_text cs.
Proof.
  unfold refusal_text, content_text. induction cs as [|c cs IH]; cbn; [done|].
  intros [Hc Hcs]%app_eq_nil. destruct (IH Hcs) as [-> ->]. unfold refuses, chunk_text. rewrite Hc.
  split; [|done]. destruct (default [] (ck_refusal c)) as [|x r]; cbn; repeat case_bool_decide; done.
Qed.

Lemma traverse_same {A B C} (f : A → result LlmError C) (g : B → result LlmError C) (h : A → B) l ys :
  Forall (λ x, ∀ y, f x = Ok y ↔ g (h x) = Ok y) l →
  traverse f l = Ok ys ↔ traverse g (map h l) = Ok ys.
Proof.
  intros Hl. revert ys. induction Hl as [|x l Hx _ IH]; intros ys; cbn; [done|].
  rewrite !result_bind_Ok. setoid_rewrite Hx. setoid_rewrite result_bind_Ok. by setoid_rewrite IH.
Qed.

Lemma finish_call_same kc y :
  pt_name kc.2 ≠ [] →
  finish_call (s"OpenAI-compatible") kc = Ok y ↔ parse_openai_tool_call (call_value kc) = Ok y.
Proof.
  intros Hn. destruct kc as [k [id name args]]. cbn in Hn.
  unfold finish_call, partial_finish, parse_openai_tool_call, required_nonempty_text, required_text.
  set (cv := call_value _). cbn [snd pt_id pt_name pt_arguments].
  assert (get (s"id") cv = Some (VString id)) as -> by reflexivity.
  assert (get (s"function") cv = Some (VObject (bm_of_list
    [ (s"name", VString name); (s"arguments", VString args) ]))) as -> by reflexivity.
  cbn [mbind option_bind as_str ok_or result_bind]. rewrite (bool_decide_false (name = [])), orb_false_r by done.
  case_bool_decide as Hid; [done|]. cbn [mbind result_bind]. set (fv := VObject _).
  assert (get (s"name") fv = Some (VString name)) as -> by reflexivity.
  assert (get (s"arguments") fv = Some (VString args)) as -> by reflexivity.
  cbn [mbind option_bind as_str ok_or result_bind]. unfold parse_arguments.
  by destruct (json_from_str args).
Qed.

Lemma known_stop reason st refused :
  parse_openai_stop_reason reason = Ok st →
  chat_stop (Some reason) refused = Ok (if refused then Refusal else st).
Proof.
  unfold parse_openai_stop_reason, chat_stop. intros Hp.
  assert (Hb : ∀ x, bool_decide (Some reason = Some x) = (reason =s x)).
  { intros x. destruct (str_eqb_spec reason x); case_bool_decide; congruence. }
  rewrite !Hb. destruct refused; [done|]. cbn [orb].
  destruct (str_eqb_spec reason (s"stop")) as [->|]; [by injection Hp as <-|].
  destruct (str_eqb_spec reason (s"tool_calls")) as [->|]; [by injection Hp as <-|].
  destruct (str_eqb_spec reason (s"length")) as [->|]; [by injection Hp as <-|].
  destruct (str_eqb_spec reason (s"content_filter")) as [->|]; [by injection Hp as <-|]. done.
Qed.

(** The direct parser on the whole response. *)
Lemma parse_whole cs calls reason usage :
  parse_chat_completions_response (whole_value cs calls reason usage)
  = (calls ← traverse parse_openai_tool_call (map call_value calls);
     let refused := negb (bool_decide (refusal_text cs = [])) in
     let content := push_nonempty_text (push_nonempty_text [] (Some (content_text cs)))
                      (Some (refusal_text cs)) ++ calls in
     _ ← (if bool_decide (content = []) then
            Err (invalid_response (s"OpenAI-compatible response did not include text or tool calls"))
          else Ok ());
     usage ← openai_usage usage true;
     stop ← chat_stop (Some reason) refused;
     Ok (response_new content usage stop)).
Proof.
  unfold parse_chat_completions_response. cbv zeta.
  set (message := VObject (bm_of_list
    [ (s"content", VString (content_text cs)); (s"refusal", VString (refusal_text cs));
      (s"tool_calls", VArray (map call_value calls)) ])).
  assert (get_array (s"choices") (whole_value cs calls reason usage) ≫= head = Some (VObject (bm_of_list
    [ (s"message", message); (s"finish_reason", VString reason) ]))) as -> by reflexivity.
  set (choice := VObject (bm_of_list [(s"message", message); _])).
  assert (Some choice ≫= get (s"message") = Some message) as -> by reflexivity.
  assert (Some choice ≫= get_str (s"finish_reason") = Some reason) as -> by reflexivity.
  cbn [ok_or mbind result_bind].
  assert (get_str (s"content") message = Some (content_text cs)) as -> by reflexivity.
  assert (get_str (s"refusal") message = Some (refusal_text cs)) as -> by reflexivity.
  assert (get_array (s"tool_calls") message = Some (map call_value calls)) as -> by reflexivity.
  assert (index (s"usage") (whole_value cs calls reason usage) = usage) as -> by reflexivity.
  destruct (traverse _ _) as [ys|]; [|done]. cbn [mbind result_bind push_nonempty_text].
  destruct (decide (refusal_text cs = [])) as [Hr|Hr].
  - rewrite !(bool_decide_true (refusal_text cs = [])) by done.
    rewrite (bool_decide_false (is_Some _)) by (by intros [? [=]]). done.
  - rewrite !(bool_decide_false (refusal_text cs = [])) by done.
    rewrite (bool_decide_true (is_Some _)) by by eexists. done.
Qed.

(** C27: a chat completion read from a stream is the one read from the whole.
    However the text and the calls are cut into chunks, if one chunk carries a
    known finish reason and one the usage, the chunks do not mix content with
    a refusal and every assembled call has a name, then the accumulated
    response and the one parsed from the assembled body are the same, and one
    is refused exactly when the other is. *)
Theorem chat_stream_matches_direct cs reason usage :
  omap ck_finish cs = [reason] → is_ok (parse_openai_stop_reason reason) = true →
  omap ck_usage cs = [usage] → content_text cs = [] ∨ refusal_text cs = [] →
  ∃ calls, call_table (concat (map ck_calls cs)) calls ∧
    (Forall (λ kc, pt_name kc.2 ≠ []) calls →
     ∀ r, chat_run (map chunk_value cs) = Ok r ↔
          parse_chat_completions_response (whole_value cs calls reason usage) = Ok r).
Proof.
  intros Hfin Hknown Husage Htext.
  exists (foldl add_delta [] (concat (map ck_calls cs))). split; [apply add_deltas_table|].
  intros Hnames r. unfold chat_run. rewrite run_chunks.
  2:{ apply Forall_forall. intros c Hc x Hx. assert (Hin : x ∈ omap ck_finish cs)
        by (apply list_elem_of_omap; eauto). rewrite Hfin in Hin. by apply list_elem_of_singleton in Hin as ->. }
  cbn [mbind result_bind]. unfold chat_finish. rewrite parse_whole.
  rewrite chunks_text, chunks_calls, chunks_refused, chunks_stop, Hfin.
  pose proof (chunks_usage cs chat_default) as Hu. rewrite Husage in Hu. cbn [foldl] in Hu.
  destruct (note_usage _ usage) as [u ui] eqn:Hnu. injection Hu as -> ->. cbn [foldl ca_text ca_tool_calls ca_stop ca_refused chat_default app orb].
  destruct (parse_openai_stop_reason reason) as [st|] eqn:Hp; [|done]. cbn zeta.
  set (m := foldl add_delta [] _) in *.
  assert (Htr : ∀ ys, traverse (finish_call (s"OpenAI-compatible")) m = Ok ys ↔
    traverse parse_openai_tool_call (map call_value m) = Ok ys).
  { intros ys. apply traverse_same. eapply Forall_impl; [exact Hnames|]. intros kc Hn y.
    by apply finish_call_same. }
  rewrite (known_stop _ _ _ Hp).
  assert (push_nonempty_text (push_nonempty_text [] (Some (content_text cs))) (Some (refusal_text cs))
      = push_nonempty_text [] (Some (concat (map chunk_text cs))) ∧
    existsb refuses cs = negb (bool_decide (refusal_text cs = []))) as [-> ->].
  { destruct Htext as [Ht|Ht].
    - destruct (only_refusals cs Ht) as [-> ->]. by rewrite Ht.
    - destruct (no_refusals cs Ht) as [-> ->]. by rewrite Ht. }
  destruct (traverse (finish_call _) m) as [ys|e].
  - rewrite (proj1 (Htr ys) eq_refl). cbn [mbind result_bind ok_or].
    destruct (bool_decide (_ ++ ys = [])); [done|]. cbn [mbind result_bind].
    unfold note_usage in Hnu. cbn [ca_usage ca_usage_invalid chat_default fst snd] in Hnu.
    destruct (is_null usage) eqn:Hnull.
    + injection Hnu as <- <-. by destruct usage.
    + destruct (openai_usage usage true) as [u'|]; injection Hnu as <- <-; done.
  - destruct (traverse parse_openai_tool_call _) as [ys|]; [|done].
    by destruct (proj2 (Htr ys) eq_refl).
Qed.
End parity.

(** ** Usage and guards of model calls

    Token counts keep their categories disjoint, a minute never sees more
    requests than its limit, and the circuit breaker opens and closes. *)

(** ** Usage *)

Lemma bm_get_wf k m v : value_wf (VObject m) → bm_get k m = Some v → value_wf v.
Proof.
  rewrite value_wf_object. intros [_ Hf] Hg. rewrite Forall_forall in Hf.
  by apply (Hf (k, v)), bm_get_elem.
Qed.
Lemma get_wf k v x : value_wf v → get k v = Some x → value_wf x.
Proof. destruct v; try done. apply bm_get_wf. Qed.
Lemma count_range v field required n :
  value_wf v → count v field required = Ok n → (0 ≤ n ≤ U64_MAX)%Z.
Proof.
  unfold count. intros Hv. destruct (get field v) as [x|] eqn:Hx.
  - rewrite ok_or_Ok. pose proof (get_wf _ _ _ Hv Hx) as Hwf.
    destruct x as [| |[z|z|f]| | |]; cbn; try done. by intros [= <-].
  - destruct required; [done|]. intros [= <-]. unfold U64_MAX. lia.
Qed.
Lemma detail_range v field counter n :
  value_wf v → detail v field counter = Ok n → (0 ≤ n ≤ U64_MAX)%Z.
Proof.
  unfold detail. intros Hv. destruct (get field v) as [x|] eqn:Hx.
  - case_if; [|done]. apply count_range. by eapply get_wf.
  - intros [= <-]. unfold U64_MAX. lia.
Qed.

Lemma ordinary_input_Ok u n :
  ordinary_input u = Ok n ↔
  (tu_reasoning u ≤ tu_output u)%Z ∧
  (tu_cached_input u + tu_cache_creation_input u ≤ U64_MAX)%Z ∧
  (tu_cached_input u + tu_cache_creation_input u ≤ tu_input u)%Z ∧
  n = (tu_input u - (tu_cached_input u + tu_cache_creation_input u))%Z.
Proof.
  unfold ordinary_input, checked_add. destruct (Z.ltb_spec (tu_output u) (tu_reasoning u)); [split; [done|lia]|].
  rewrite ok_or_Ok. set (c := (tu_cached_input u + tu_cache_creation_input u)%Z).
  destruct (decide (c ≤ U64_MAX)%Z); cbn [mbind option_bind]; [|split; [done|lia]].
  destruct (Z.ltb_spec (tu_input u) c); split; try lia; [done|intros [= <-]; lia|].
  intros (_ & _ & _ & ->). done.
Qed.

Lemma count_u64 v field n :
  count v field true = Ok n → get_u64 field v = Some n.
Proof. unfold count, get_u64. destruct (get field v); [|done]. by rewrite ok_or_Ok. Qed.

(** accepted token counts split the input.  For both formats the cached,
    the cache-creating and the ordinary tokens add up to the input, which is
    within 64 bits, and reasoning is part of the output; for the format that
    reports the categories apart, the ordinary tokens are the reported ones. *)
Theorem usage_partition v u :
  value_wf v →
  (∀ chat, openai_usage v chat = Ok u →
     (tu_reasoning u ≤ tu_output u ≤ U64_MAX)%Z ∧
     ∃ n, ordinary_input u = Ok n ∧ (0 ≤ n)%Z ∧
       (n + tu_cached_input u + tu_cache_creation_input u = tu_input u)%Z ∧ (tu_input u ≤ U64_MAX)%Z) ∧
  (anthropic_input v = Ok u →
     ∃ n, get_u64 (s"input_tokens") v = Some n ∧ ordinary_input u = Ok n ∧ (0 ≤ n)%Z ∧
       (n + tu_cached_input u + tu_cache_creation_input u = tu_input u)%Z ∧ (tu_input u ≤ U64_MAX)%Z).
Proof.
  intros Hv. split.
  - intros chat Hu. unfold openai_usage in Hu. destruct (if chat then _ else _) as [[[fi fo] fid] fod].
    apply result_bind_Ok in Hu as (i & Hi & Hu). apply result_bind_Ok in Hu as (o & Ho & Hu).
    apply result_bind_Ok in Hu as (r & Hr & Hu). apply result_bind_Ok in Hu as (c & Hc & Hu).
    apply result_bind_Ok in Hu as (w & Hw & Hu). apply result_bind_Ok in Hu as (n & Hn & [= <-]).
    apply count_range in Hi, Ho; [|done..]. apply detail_range in Hr, Hc, Hw; [|done..].
    pose proof Hn as (H1 & H2 & H3 & H4)%ordinary_input_Ok. cbn in *.
    split; [lia|]. exists n. split_and!; [done|lia..].
  - intros Hu. unfold anthropic_input in Hu.
    apply result_bind_Ok in Hu as (i & Hi & Hu). apply result_bind_Ok in Hu as (c & Hc & Hu).
    apply result_bind_Ok in Hu as (w & Hw & Hu). apply result_bind_Ok in Hu as (t & Ht & [= <-]).
    exists i. split; [by apply count_u64|]. apply count_range in Hi, Hc, Hw; [|done..].
    apply ok_or_Ok in Ht. unfold checked_add in Ht. destruct (decide _) in Ht; [|done]. cbn in Ht.
    destruct (decide _) in Ht; [|done]. injection Ht as <-. rewrite ordinary_input_Ok. cbn. split_and!; lia.
Qed.

(** ** The requests of a minute *)

(** Calls of the round at the given times: the window and the admitted times. *)
Definition rate_step (limit : nat) (st : list Z * list Z) (now : Z) : list Z * list Z :=
  let '(window, delay) := rate_round limit now st.1 in
  (window, match delay with None => st.2 ++ [now] | Some _ => st.2 end).
Definition rate_trace (limit : nat) (times : list Z) : list Z * list Z :=
  foldl (rate_step limit) ([], []) times.
Definition within_minute (x : Z) (admitted : list Z) : nat :=
  length (List.filter (λ t, (x <=? t) && (t <? x + MINUTE))%Z admitted).

Lemma expire_window_split now w :
  ∃ old, w = old ++ expire_window now w ∧ Forall (λ t, t ≤ now - MINUTE)%Z old.
Proof.
  induction w as [|t w (old & Heq & Hold)]; cbn; [by exists []|].
  destruct (Z.leb_spec MINUTE (Z.max 0 (now - t))) as [He|He].
  - exists (t :: old). split; [cbn; by rewrite <-Heq|]. constructor; [|done]. unfold MINUTE in *. lia.
  - by exists [].
Qed.
Lemma within_app x a b : within_minute x (a ++ b) = (within_minute x a + within_minute x b)%nat.
Proof. unfold within_minute. by rewrite List.filter_app, length_app. Qed.
Lemma within_length x a : within_minute x a ≤ length a.
Proof. unfold within_minute. apply List.filter_length_le. Qed.
Lemma within_old x a : Forall (λ t, t < x)%Z a → within_minute x a = 0%nat.
Proof.
  unfold within_minute. induction 1 as [|t a Ht _ IH]; [done|]. cbn.
  rewrite (proj2 (Z.leb_gt x t)) by lia. done.
Qed.

Record rate_inv (limit : nat) (now : Z) (st : list Z * list Z) : Prop := {
  ri_split : ∃ old, st.2 = old ++ st.1 ∧ Forall (λ t, t ≤ now - MINUTE)%Z old;
  ri_room : length st.1 ≤ limit;
  ri_bound : ∀ x, within_minute x st.2 ≤ limit;
}.
Lemma rate_step_inv limit now st t :
  0 < limit → (now ≤ t)%Z → rate_inv limit now st → rate_inv limit t (rate_step limit st t).
Proof.
  intros Hl Hle [(old & Ha & Hold) Hroom Hb]. destruct st as [w admitted]. cbn [fst snd] in *.
  unfold rate_step, rate_round. cbn [fst snd].
  destruct (expire_window_split t w) as (old' & Hw & Hold'). set (w' := expire_window t w) in *. clearbody w'.
  assert (Holds : Forall (λ x, x ≤ t - MINUTE)%Z (old ++ old')).
  { apply Forall_app. split; [|done]. eapply Forall_impl; [exact Hold|]. cbn. lia. }
  assert (Hadm : admitted = (old ++ old') ++ w') by (by rewrite <-app_assoc, <-Hw).
  destruct (Nat.ltb_spec (length w') limit) as [Hlt|Hge]; cbn [fst snd].
  - split; cbn [fst snd].
    + exists (old ++ old'). split; [|done]. by rewrite Hadm, <-app_assoc.
    + rewrite length_app. cbn. lia.
    + intros x. destruct (decide (x ≤ t < x + MINUTE)%Z) as [Hin|Hout].
      * rewrite Hadm, <-app_assoc, within_app, within_old.
        -- pose proof (within_length x (w' ++ [t])) as Hlen. rewrite length_app in Hlen. cbn in Hlen |- *. lia.
        -- eapply Forall_impl; [exact Holds|]. cbn. lia.
      * rewrite within_app. assert (within_minute x [t] = 0%nat) as ->; [|rewrite Nat.add_0_r; apply Hb].
        unfold within_minute. cbn. destruct (Z.leb_spec x t), (Z.ltb_spec t (x + MINUTE)); cbn; lia || done.
  - assert (Hmatch : ∀ b : list Z, match match w' with started :: _ =>
        Some (Z.max 0 (MINUTE - Z.max 0 (t - started))) | [] => None end
      with None => b ++ [t] | Some _ => b end = b) by (intros b; destruct w'; [cbn in Hge; lia|done]).
    rewrite Hmatch. split; cbn [fst snd]; [| |done].
    + by exists (old ++ old').
    + rewrite Hw, length_app in Hroom. lia.
Qed.

(** no minute sees more requests than its limit.  For calls at any times
    that do not go back, every span of sixty seconds contains at most [limit]
    admitted requests; a call that has to wait is told a wait of at most a
    minute, after which there is room. *)
Theorem minute_limit limit times :
  0 < limit → StronglySorted Z.le times →
  (∀ x, within_minute x (rate_trace limit times).2 ≤ limit) ∧
  (∀ now window d, (rate_round limit now window).2 = Some d → length window ≤ limit →
     Forall (λ t, t ≤ now)%Z window →
     (0 < d ≤ MINUTE)%Z ∧ (rate_round limit (now + d) (rate_round limit now window).1).2 = None).
Proof.
  intros Hl Hs. split.
  - assert (Hg : ∀ now st, rate_inv limit now st → Forall (Z.le now) times →
      ∀ x, within_minute x (foldl (rate_step limit) st times).2 ≤ limit).
    { induction Hs as [|t times Hs IH Hf]; intros now st Hi Hge x; [apply Hi|].
      apply Forall_cons in Hge as [Ht Hge]. apply (IH t); [|done]. by eapply rate_step_inv. }
    destruct times as [|t times]; [intros x; cbn; lia|].
    apply (Hg t ([], [])); [|by inversion Hs; subst; constructor].
    split; cbn; [by exists []|lia|]. intros x. cbn. lia.
  - intros now window d Hd Hlen Hpast. unfold rate_round in Hd |- *.
    destruct (expire_window_split now window) as (old & Hw & Hold).
    assert (Hcut : ∀ st rest, expire_window now window = st :: rest → (0 ≤ now - st < MINUTE)%Z).
    { intros st rest He. split.
      - rewrite Hw, He, Forall_app, Forall_cons in Hpast. lia.
      - clear -He. induction window as [|t w IH]; cbn in He; [done|].
        destruct (Z.leb_spec MINUTE (Z.max 0 (now - t))); [by apply IH|]. injection He as <- _. lia. }
    destruct (Nat.ltb_spec (length (expire_window now window)) limit) as [|Hge]; [done|]. cbn [fst snd] in *.
    destruct (expire_window now window) as [|st rest] eqn:He; [done|]. injection Hd as <-.
    specialize (Hcut st rest eq_refl). split; [lia|]. cbn [expire_window].
    rewrite (proj2 (Z.leb_le _ _)) by lia.
    assert (length (expire_window (now + Z.max 0 (MINUTE - Z.max 0 (now - st))) rest) ≤ length rest).
    { destruct (expire_window_split (now + Z.max 0 (MINUTE - Z.max 0 (now - st))) rest) as (o & Hr & _).
      apply (f_equal length) in Hr. rewrite length_app in Hr. lia. }
    rewrite Hw, length_app in Hlen. cbn in Hlen. rewrite (proj2 (Nat.ltb_lt _ _)) by lia. done.
Qed.

(** ** The circuit breaker *)

(** An error that counts against the provider. *)
Definition counts (e : LlmError) : bool :=
  is_retryable_llm_error e && negb (bool_decide (le_kind e = CircuitOpen)).
Definition record_errors (failures cooldown : Z) (c : CircuitState) (errs : list (Z * LlmError)) :
    CircuitState :=
  foldl (λ c te, record_request_result failures cooldown te.1 (Some te.2) c) c errs.

(** The breaker opens at the configured number of failures in a row and stays
    open for the cooldown after the last of them; then it is closed and the
    count starts over.  What it refuses itself does not count. *)
Theorem circuit_breaker provider_id failures cooldown errs t e :
  (0 < failures)%Z → Forall (λ te, counts te.2 = true) (errs ++ [(t, e)]) →
  (Z.of_nat (length errs) < USIZE_MAX)%Z →
  let c := record_errors failures cooldown circuit_default (errs ++ [(t, e)]) in
  let refusal := mkLlmError (provider_message provider_id (s"circuit breaker is open")) CircuitOpen
                   facts_default [] None None in
  (∀ now, check_circuit provider_id now c =
     if (Z.of_nat (length errs) + 1 <? failures)%Z then (c, Ok ())
     else if (now <? t + cooldown)%Z then (c, Err refusal) else (circuit_default, Ok ())) ∧
  (∀ now, record_request_result failures cooldown now (Some refusal) c = c).
Proof.
  intros Hf Hall Hlen. cbn zeta. unfold record_errors. rewrite foldl_snoc.
  apply Forall_app in Hall as [Herrs He]. rewrite Forall_singleton in He. unfold counts in He. cbn in He.
  assert (Hc : ∃ o, foldl (λ c te, record_request_result failures cooldown te.1 (Some te.2) c)
      circuit_default errs = mkCircuit (Z.of_nat (length errs)) o ∧
      ((Z.of_nat (length errs) < failures)%Z → o = None)).
  { clear He. induction errs as [|te errs IH] using rev_ind; [by exists None|].
    apply Forall_app in Herrs as [Herrs Hte]. rewrite Forall_singleton in Hte.
    rewrite length_app in Hlen |- *. cbn [length] in Hlen |- *. destruct IH as (o & Ho & Hn); [done|lia|].
    rewrite foldl_snoc, Ho. unfold record_request_result. unfold counts in Hte. rewrite Hte. cbn.
    assert (saturating_add USIZE_MAX (Z.of_nat (length errs)) 1 = Z.of_nat (length errs + 1)) as ->
      by (unfold saturating_add; lia).
    eexists. split; [reflexivity|]. intros Hlt. rewrite (proj2 (Z.leb_gt _ _)) by lia. apply Hn. lia. }
  destruct Hc as (o & -> & Hn). cbn [fst snd]. unfold record_request_result at 1 2 3. rewrite He. cbn.
  assert (saturating_add USIZE_MAX (Z.of_nat (length errs)) 1 = Z.of_nat (length errs) + 1)%Z as ->
    by (unfold saturating_add; lia).
  split; [|done]. intros now. unfold check_circuit. cbn.
  destruct (Z.leb_spec failures (Z.of_nat (length errs) + 1)); cbn.
  - rewrite (proj2 (Z.ltb_ge (Z.of_nat (length errs) + 1) failures)) by lia. done.
  - rewrite (proj2 (Z.ltb_lt (Z.of_nat (length errs) + 1) failures)), Hn by lia. done.
Qed.

(** ** Concrete streams *)

Definition demo_chunks : list Chunk :=
  [ mkChunk (Some (s"Hel")) None [mkCallDelta 1 (Some (s"b")) (Some (s"two")) (Some (s"{"))] None None;
    mkChunk (Some (s"lo")) None [mkCallDelta 0 (Some (s"a")) (Some (s"one")) (Some (s"{}"));
                                 mkCallDelta 1 None None (Some (s"}"))] (Some (s"tool_calls")) None;
    mkChunk None None [] None (Some (VObject (bm_of_list
      [ (s"prompt_tokens", VNumber (PosInt 7)); (s"completion_tokens", VNumber (PosInt 5)) ]))) ].
(** Chunks are named by their position; the arguments are an empty object. *)
#[local] Instance demo_text_json : JsonText := {
  json_from_str x :=
    if x =s s"{}" then Ok (VObject [])
    else match x with
         | [c] => ok_or (chunk_value <$> demo_chunks !! Z.to_nat (c - 48)) (s"expected value")
         | _ => Err (s"expected value")
         end;
  json_to_string _ := s"{}";
}.
#[local] Instance demo_sse : SseDecoder := {
  sse_decode := map (λ r, match r with Ok b => Ok (Some b) | Err e => Err (SseBody e) end) }.
Definition demo_body : list (result LlmError (list Z)) :=
  [Ok (s"0"); Ok (s"1"); Ok (s"2"); Ok (s"[DONE]")].

Example demo_published :
  map event_text
    (send_stream (s"p") 100 None ChatCompletions false BillingUnknown (Some (s"key")) demo_body).1
  = [s"H"; s"el"; s"lo"; []].
Proof. vm_compute. reflexivity. Qed.

(** A call that succeeds publishes all the text; where the provider's text spells
    the credential across two events, the first letter before it is all that
    is published. *)
Lemma send_stream_safe_witness :
  (∃ deltas response,
     (send_stream (s"p") 100 None ChatCompletions false BillingUnknown (Some (s"key")) demo_body).1
       = deltas ++ [Completed response] ∧
     published_text deltas = received ChatCompletions (sse_decode (limit_body 100 demo_body)) ∧
     answers_with ChatCompletions (published_text deltas) (cr_content response)) ∧
  safe_beginning (s"llo") (s"H") (s"Hello").
Proof.
  split.
  - pose proof (send_stream_safe (s"p") 100 None ChatCompletions false BillingUnknown (s"key") demo_body
      ltac:(discriminate)) as Hs.
    destruct (send_stream _ _ _ _ _ _ _ _) as [published r] eqn:E.
    assert (r = Ok ()) as Hr by (apply (f_equal snd) in E; cbn [snd] in E; rewrite <-E; vm_compute; reflexivity).
    destruct (es_completed _ _ _ _ _ Hs Hr) as (deltas & response & Hp & _ & Ht & _ & Ha).
    exists deltas, response. rewrite Ht. by split_and!.
  - pose proof (send_stream_safe (s"p") 100 None ChatCompletions false BillingUnknown (s"llo") demo_body
      ltac:(discriminate)) as Hs.
    destruct (send_stream _ _ _ _ _ _ _ _) as [published r] eqn:E.
    assert (published_text published = s"H") as Hp
      by (apply (f_equal (published_text ∘ fst)) in E; cbn [compose fst] in E; rewrite <-E; vm_compute; reflexivity).
    pose proof (es_beginning _ _ _ _ _ Hs) as Hb. rewrite Hp in Hb. exact Hb.
Defined.

Lemma chat_stream_matches_direct_witness :
  ∃ calls, call_table (concat (map ck_calls demo_chunks)) calls ∧
    is_ok (chat_run (map chunk_value demo_chunks)) = true.
Proof.
  destruct (chat_stream_matches_direct demo_chunks (s"tool_calls") (VObject (bm_of_list
      [ (s"prompt_tokens", VNumber (PosInt 7)); (s"completion_tokens", VNumber (PosInt 5)) ])))
    as (calls & Hc & _).
  - reflexivity.
  - vm_compute. reflexivity.
  - reflexivity.
  - right. reflexivity.
  - exists calls. split; [exact Hc | vm_compute; reflexivity].
Defined.

Lemma usage_partition_witness :
  ∃ n, ordinary_input (mkTokenUsage 7 5 0 0 0) = Ok n.
Proof.
  destruct (usage_partition (VObject (bm_of_list
      [ (s"prompt_tokens", VNumber (PosInt 7)); (s"completion_tokens", VNumber (PosInt 5)) ]))
    (mkTokenUsage 7 5 0 0 0)) as [Hu _].
  - apply value_wf_object. split; [apply bm_sorted_extend, bm_sorted_nil|].
    change (bm_of_list _) with
      [ (s"completion_tokens", VNumber (PosInt 5)); (s"prompt_tokens", VNumber (PosInt 7)) ].
    repeat constructor; cbn [snd value_wf number_wf]; unfold U64_MAX; lia.
  - destruct (Hu true) as (_ & n & Hn & _); [vm_compute; reflexivity|]. exists n. exact Hn.
Defined.

Lemma minute_limit_witness : within_minute 0 (rate_trace 2 [0; 5; 9; MINUTE]%Z).2 ≤ 2.
Proof.
  apply (minute_limit 2 [0; 5; 9; MINUTE]%Z); [lia|]. repeat constructor; unfold MINUTE; lia.
Defined.
