(* ===== verification/CostTier.v ===== *)
(** * Pricing: tiers of a model and what they guarantee *)

From S2P Require Import Prelude Str Json.
From Stdlib Require Import SpecFloat.
From Stdlib Require Import SpecFloat Sorted.

(** * Pricing of model calls

    [crates/policy/src/tier.rs] and [crates/policy/src/cost.rs]: context
    tiers, the rates a request is billed at, the rates a reservation is made
    at, the check of a tier list, and the choice of a price row.  Rates are
    binary64 numbers, compared and maximised as the source does. *)

Record CostTier : Type := mkCostTier {
  ct_threshold_tokens : Z;
  ct_input : option f64;
  ct_cache_read : option f64;
  ct_cache_creation : option f64;
  ct_output : option f64;
}.
Record CostRates : Type := mkCostRates {
  cr_input : option f64;
  cr_cache_read : option f64;
  cr_cache_creation : option f64;
  cr_output : option f64;
}.

(** [Option::or]. *)
Definition opt_or {A} (x y : option A) : option A := match x with Some _ => x | None => y end.

(** [CostRates::resolve]. *)
Definition resolve_rates (base : CostRates) (tier : option CostTier) : CostRates :=
  let input := opt_or (tier ≫= ct_input) (cr_input base) in
  let output := opt_or (tier ≫= ct_output) (cr_output base) in
  let base_cache_read := opt_or (cr_cache_read base) (cr_input base) in
  let base_cache_creation := opt_or (cr_cache_creation base) (cr_input base) in
  let '(cache_read, cache_creation) :=
    match tier with
    | Some tier => (opt_or (ct_cache_read tier) base_cache_read,
                    opt_or (ct_cache_creation tier) base_cache_creation)
    | None => (base_cache_read, base_cache_creation)
    end in
  mkCostRates input cache_read cache_creation output.

Definition rate_is_invalid (value : option f64) : bool :=
  match value with
  | Some x => negb (f64_is_finite x) || f64_ltb x f64_zero
  | None => false
  end.
Definition invalid_rate (r : CostRates) : option str :=
  fst <$> List.find (λ e, rate_is_invalid e.2)
    [(s"input_cost_per_million_usd", cr_input r);
     (s"cache_read_input_cost_per_million_usd", cr_cache_read r);
     (s"cache_creation_input_cost_per_million_usd", cr_cache_creation r);
     (s"output_cost_per_million_usd", cr_output r)].
Definition tier_rates (t : CostTier) : CostRates :=
  mkCostRates (ct_input t) (ct_cache_read t) (ct_cache_creation t) (ct_output t).
Definition tier_invalid_rate (t : CostTier) : option str := invalid_rate (tier_rates t).

Definition max_input_rate (r : CostRates) : option f64 :=
  foldl (λ dearest rate, Some (match dearest with None => rate | Some d => f64_max d rate end)) None
    (omap id [cr_input r; cr_cache_read r; cr_cache_creation r]).

(** [max_by_key] keeps the last of equal maxima. *)
Definition select_cost_tier (tiers : list CostTier) (prompt_input_tokens : Z) : option CostTier :=
  foldl (λ best t, match best with
                   | None => Some t
                   | Some b => if (ct_threshold_tokens b <=? ct_threshold_tokens t)%Z then Some t else best
                   end) None
    (List.filter (λ t, (ct_threshold_tokens t <=? prompt_input_tokens)%Z) tiers).

Definition carry_pinned_rates (tiers : list CostTier) (pinned : CostRates) : list CostTier :=
  map (λ t, mkCostTier (ct_threshold_tokens t)
              (opt_or (cr_input pinned) (ct_input t))
              (opt_or (cr_cache_read pinned) (ct_cache_read t))
              (opt_or (cr_cache_creation pinned) (ct_cache_creation t))
              (opt_or (cr_output pinned) (ct_output t))) tiers.

Definition max_rate (l r : option f64) : option f64 :=
  match l, r with
  | Some l, Some r => Some (f64_max l r)
  | Some l, None => Some l
  | None, r => r
  end.
Definition max_cost_rates (base : CostRates) (tiers : list CostTier) : CostRates :=
  foldl (λ rates tier,
           let row := resolve_rates base (Some tier) in
           mkCostRates (max_rate (cr_input rates) (cr_input row))
             (max_rate (cr_cache_read rates) (cr_cache_read row))
             (max_rate (cr_cache_creation rates) (cr_cache_creation row))
             (max_rate (cr_output rates) (cr_output row)))
    (resolve_rates base None) tiers.

Inductive CostTierError : Type :=
| InvalidRate (index : nat) (field : str)
| ThresholdNotIncreasing (index : nat) (threshold previous : Z).
Fixpoint validate_from (index : nat) (previous : option Z) (tiers : list CostTier) :
    result CostTierError unit :=
  match tiers with
  | [] => Ok ()
  | tier :: tiers =>
      match tier_invalid_rate tier with
      | Some field => Err (InvalidRate index field)
      | None =>
          match previous with
          | Some p =>
              if (ct_threshold_tokens tier <=? p)%Z
              then Err (ThresholdNotIncreasing index (ct_threshold_tokens tier) p)
              else validate_from (S index) (Some (ct_threshold_tokens tier)) tiers
          | None => validate_from (S index) (Some (ct_threshold_tokens tier)) tiers
          end
      end
  end.
Definition validate_cost_tiers (tiers : list CostTier) : result CostTierError unit :=
  validate_from 0 None tiers.

(** ** Price rows *)

Record PricingRow : Type := mkPricingRow {
  pr_provider : str;
  pr_model : str;
  pr_input : option f64;
  pr_cache_creation : option f64;
  pr_cache_read : option f64;
  pr_output : option f64;
  pr_web_search_call : option f64;
}.
Fixpoint select_pricing_from (index : nat) (first : option nat) (rows : list PricingRow)
    (provider model : str) : option nat :=
  match rows with
  | [] => first
  | row :: rows =>
      if negb (pr_provider row =s provider) || negb (pr_model row =s model)
      then select_pricing_from (S index) first rows provider model
      else
        let first := match first with None => Some index | _ => first end in
        if match pr_input row, pr_output row with Some _, Some _ => true | _, _ => false end
        then Some index
        else select_pricing_from (S index) first rows provider model
  end.
Definition select_pricing (rows : list PricingRow) (provider model : str) : option nat :=
  select_pricing_from 0 None rows provider model.

#[local] Arguments s : simpl never.

(** * Pricing of model calls: tier selection and reservations *)

(** ** Valid rates are totally ordered *)

Definition valid_rate (x : f64) : Prop := f64_is_finite x = true ∧ f64_ltb x f64_zero = false.
Definition valid_opt (o : option f64) : Prop := ∀ x, o = Some x → valid_rate x.
Record valid_rates (r : CostRates) : Prop := {
  vr_input : valid_opt (cr_input r);
  vr_cache_read : valid_opt (cr_cache_read r);
  vr_cache_creation : valid_opt (cr_cache_creation r);
  vr_output : valid_opt (cr_output r);
}.

Lemma rate_is_invalid_false o : rate_is_invalid o = false ↔ valid_opt o.
Proof.
  unfold rate_is_invalid, valid_opt, valid_rate. destruct o as [x|]; [|naive_solver].
  rewrite orb_false_iff, negb_false_iff. naive_solver.
Qed.
Lemma invalid_rate_None r : invalid_rate r = None ↔ valid_rates r.
Proof.
  unfold invalid_rate. rewrite fmap_None, find_none_elem. split.
  - intros H. constructor; apply rate_is_invalid_false.
    + apply (H (s"input_cost_per_million_usd", cr_input r)). by left.
    + apply (H (s"cache_read_input_cost_per_million_usd", cr_cache_read r)). right. by left.
    + apply (H (s"cache_creation_input_cost_per_million_usd", cr_cache_creation r)). right. right. by left.
    + apply (H (s"output_cost_per_million_usd", cr_output r)). right. right. right. by left.
  - intros [H1 H2 H3 H4] e He. apply rate_is_invalid_false in H1, H2, H3, H4.
    rewrite !elem_of_cons in He. destruct He as [->|[->|[->|[->|He]]]]; [done..|].
    by apply not_elem_of_nil in He.
Qed.

(** A valid rate is a zero or a positive number. *)
Lemma valid_rate_cases x : valid_rate x →
  (∃ b, x = S754_zero b) ∨ ∃ m e, x = S754_finite false m e.
Proof.
  intros [Hf Hn]. destruct x as [b|b| |b m e]; [by left; exists b|done|done|].
  destruct b; [by cbn in Hn|]. right. by exists m, e.
Qed.
Lemma f64_leb_refl x : valid_rate x → f64_leb x x = true.
Proof.
  intros [[b ->]|(m & e & ->)]%valid_rate_cases; [done|].
  unfold f64_leb, SFleb, SFcompare. rewrite Z.compare_refl.
  rewrite Pos.compare_cont_refl. done.
Qed.
Lemma f64_leb_finite m e m' e' :
  f64_leb (S754_finite false m e) (S754_finite false m' e') = true ↔
  (e < e')%Z ∨ e = e' ∧ (m ≤ m')%positive.
Proof.
  unfold f64_leb, SFleb, SFcompare. destruct (Z.compare_spec e e') as [->|H|H].
  - change (Pos.compare_cont Eq m m') with (m ?= m')%positive.
    destruct (Pos.compare_spec m m') as [->|H|H]; naive_solver lia.
  - naive_solver lia.
  - naive_solver lia.
Qed.
Lemma f64_ltb_leb x y : valid_rate x → valid_rate y → f64_ltb x y = false → f64_leb y x = true.
Proof.
  intros [[b ->]|(m & e & ->)]%valid_rate_cases [[b' ->]|(m' & e' & ->)]%valid_rate_cases; try done.
  rewrite f64_leb_finite. unfold f64_ltb, SFltb, SFcompare.
  destruct (Z.compare_spec e e') as [->|H|H]; [|done|intros _; by left; lia].
  change (Pos.compare_cont Eq m m') with (m ?= m')%positive.
  destruct (Pos.compare_spec m m') as [->|H|H]; [intros _; right; lia|done|intros _; right; lia].
Qed.
Lemma f64_ltb_weak x y : f64_ltb x y = true → f64_leb x y = true.
Proof. unfold f64_ltb, f64_leb, SFltb, SFleb. by destruct (SFcompare x y) as [[]|]. Qed.
Lemma f64_leb_trans x y z : valid_rate x → valid_rate y → valid_rate z →
  f64_leb x y = true → f64_leb y z = true → f64_leb x z = true.
Proof.
  intros [[b ->]|(m & e & ->)]%valid_rate_cases [[b' ->]|(m' & e' & ->)]%valid_rate_cases
    [[b'' ->]|(m'' & e'' & ->)]%valid_rate_cases; try done.
  rewrite !f64_leb_finite. intros [?|[-> ?]] [?|[-> ?]]; [left|left|left|right]; lia.
Qed.
Lemma valid_not_nan x : valid_rate x → f64_is_nan x = false.
Proof. intros [H _]. by destruct x. Qed.

(** [f64::max] of valid rates is their upper bound. *)
Lemma f64_max_spec x y : valid_rate x → valid_rate y →
  valid_rate (f64_max x y) ∧ f64_leb x (f64_max x y) = true ∧ f64_leb y (f64_max x y) = true.
Proof.
  intros Hx Hy. unfold f64_max. rewrite !valid_not_nan by done.
  destruct (f64_ltb x y) eqn:E.
  - split; [done|]. split; [by apply f64_ltb_weak|by apply f64_leb_refl].
  - split; [done|]. split; [by apply f64_leb_refl|by apply f64_ltb_leb].
Qed.

(** ** A billed rate and its bound *)

(** The category is unpriced, or its rate does not exceed the bound. *)
Definition rate_le (x y : option f64) : Prop :=
  match x with None => True | Some r => ∃ b, y = Some b ∧ f64_leb r b = true end.
Record rates_le (x y : CostRates) : Prop := {
  rle_input : rate_le (cr_input x) (cr_input y);
  rle_cache_read : rate_le (cr_cache_read x) (cr_cache_read y);
  rle_cache_creation : rate_le (cr_cache_creation x) (cr_cache_creation y);
  rle_output : rate_le (cr_output x) (cr_output y);
}.

Lemma rate_le_refl x : valid_opt x → rate_le x x.
Proof. destruct x as [r|]; [|done]. intros H. exists r. split; [done|]. by apply f64_leb_refl, H. Qed.
Lemma rate_le_trans x y z : valid_opt x → valid_opt y → valid_opt z →
  rate_le x y → rate_le y z → rate_le x z.
Proof.
  destruct x as [r|]; [|done]. intros Hx Hy Hz (b & -> & H1) (c & -> & H2). exists c. split; [done|].
  eapply f64_leb_trans; [| | |exact H1|exact H2]; [by apply Hx|by apply Hy|by apply Hz].
Qed.
Lemma max_rate_spec l r : valid_opt l → valid_opt r →
  valid_opt (max_rate l r) ∧ rate_le l (max_rate l r) ∧ rate_le r (max_rate l r).
Proof.
  intros Hl Hr. destruct l as [l|], r as [r|]; cbn [max_rate].
  - destruct (f64_max_spec l r) as (H1 & H2 & H3); [by apply Hl|by apply Hr|].
    split; [by intros ? [= <-]|]. split; by exists (f64_max l r).
  - split; [done|]. split; [by apply rate_le_refl|done].
  - split; [done|]. split; [done|by apply rate_le_refl].
  - done.
Qed.

Lemma opt_or_valid x y : valid_opt x → valid_opt y → valid_opt (opt_or x y).
Proof. by destruct x. Qed.
Lemma resolve_rates_valid base tier : valid_rates base →
  (∀ t, tier = Some t → valid_rates (tier_rates t)) → valid_rates (resolve_rates base tier).
Proof.
  intros [H1 H2 H3 H4] Ht. destruct tier as [t|]; cbn.
  - destruct (Ht t eq_refl) as [T1 T2 T3 T4]. cbn in *.
    constructor; cbn; repeat apply opt_or_valid; done.
  - constructor; cbn; repeat apply opt_or_valid; done.
Qed.

Definition max_row (rates row : CostRates) : CostRates :=
  mkCostRates (max_rate (cr_input rates) (cr_input row))
    (max_rate (cr_cache_read rates) (cr_cache_read row))
    (max_rate (cr_cache_creation rates) (cr_cache_creation row))
    (max_rate (cr_output rates) (cr_output row)).
Lemma max_row_spec a b : valid_rates a → valid_rates b →
  valid_rates (max_row a b) ∧ rates_le a (max_row a b) ∧ rates_le b (max_row a b).
Proof.
  intros [A1 A2 A3 A4] [B1 B2 B3 B4].
  destruct (max_rate_spec _ _ A1 B1) as (?&?&?), (max_rate_spec _ _ A2 B2) as (?&?&?),
    (max_rate_spec _ _ A3 B3) as (?&?&?), (max_rate_spec _ _ A4 B4) as (?&?&?).
  split; [by constructor|]. split; by constructor.
Qed.
Lemma rates_le_trans a b c : valid_rates a → valid_rates b → valid_rates c →
  rates_le a b → rates_le b c → rates_le a c.
Proof.
  intros [] [] [] [] []. constructor; (eapply rate_le_trans; [| | |eassumption|eassumption]); done.
Qed.
Lemma rates_le_refl a : valid_rates a → rates_le a a.
Proof. intros []. constructor; by apply rate_le_refl. Qed.

Lemma max_cost_rates_spec base tiers : valid_rates base →
  (∀ t, t ∈ tiers → valid_rates (tier_rates t)) →
  ∀ acc, valid_rates acc →
  let m := foldl (λ rates tier, max_row rates (resolve_rates base (Some tier))) acc tiers in
  valid_rates m ∧ rates_le acc m ∧ ∀ t, t ∈ tiers → rates_le (resolve_rates base (Some t)) m.
Proof.
  intros Hb. induction tiers as [|t tiers IH]; intros Ht acc Hacc; cbn.
  { split; [done|]. split; [by apply rates_le_refl|by intros ? ?%not_elem_of_nil]. }
  assert (Hrow : valid_rates (resolve_rates base (Some t))).
  { apply resolve_rates_valid; [done|]. intros ? [= <-]. apply Ht. by left. }
  destruct (max_row_spec acc (resolve_rates base (Some t)) Hacc Hrow) as (V & L1 & L2).
  destruct (IH ltac:(intros; apply Ht; by right) (max_row acc (resolve_rates base (Some t))) V) as (V' & L3 & L4).
  split; [done|]. split; [by eapply rates_le_trans; [| | |exact L1|exact L3]|].
  intros t' [->|Hin]%elem_of_cons; [|by apply L4].
  by eapply rates_le_trans; [| | |exact L2|exact L3].
Qed.

(** ** Tier lists *)

Definition tiers_wf (tiers : list CostTier) : Prop :=
  (∀ t, t ∈ tiers → valid_rates (tier_rates t)) ∧
  StronglySorted (λ a b, ct_threshold_tokens a < ct_threshold_tokens b)%Z tiers.

Lemma validate_from_ok tiers : ∀ index previous,
  validate_from index previous tiers = Ok () ↔
  tiers_wf tiers ∧ ∀ p t, previous = Some p → t ∈ tiers → (p < ct_threshold_tokens t)%Z.
Proof.
  induction tiers as [|t tiers IH]; intros index previous; cbn [validate_from].
  { split; [intros _|done]. split; [split; [by intros ? ?%not_elem_of_nil|constructor]|].
    by intros ?? _ ?%not_elem_of_nil. }
  assert (Hcons : tiers_wf (t :: tiers) ↔ valid_rates (tier_rates t) ∧ tiers_wf tiers ∧
    ∀ t', t' ∈ tiers → (ct_threshold_tokens t < ct_threshold_tokens t')%Z).
  { unfold tiers_wf. split.
    - intros [Hv Hs]. inversion Hs as [|?? Hs' Hf]; subst. rewrite Forall_forall in Hf.
      split; [apply Hv; by left|]. split; [|done]. split; [|done]. intros. apply Hv. by right.
    - intros (H1 & [H2 H3] & H4). split; [by intros ? [->|?]%elem_of_cons; [|apply H2]|].
      constructor; [done|]. by apply Forall_forall. }
  rewrite Hcons. unfold tier_invalid_rate. destruct (invalid_rate (tier_rates t)) as [f|] eqn:E.
  { split; [done|]. intros [[H _] _]. apply invalid_rate_None in H. congruence. }
  apply invalid_rate_None in E.
  assert (Hstep : validate_from (S index) (Some (ct_threshold_tokens t)) tiers = Ok () ↔
    tiers_wf tiers ∧ ∀ t', t' ∈ tiers → (ct_threshold_tokens t < ct_threshold_tokens t')%Z).
  { rewrite IH. naive_solver. }
  destruct previous as [p|]; [|rewrite Hstep; naive_solver].
  destruct (Z.leb_spec (ct_threshold_tokens t) p) as [Hle|Hlt].
  - split; [done|]. intros [_ H]. specialize (H p t eq_refl ltac:(by left)). lia.
  - rewrite Hstep. split; [|naive_solver]. intros [H1 H2]. split; [done|].
    intros ? t' [= <-] [->|Hin]%elem_of_cons; [done|]. specialize (H2 t' Hin). lia.
Qed.

Lemma select_foldl l : ∀ best : option CostTier,
  match foldl (λ best t, match best with
                         | None => Some t
                         | Some b => if (ct_threshold_tokens b <=? ct_threshold_tokens t)%Z then Some t else best
                         end) best l with
  | None => best = None ∧ l = []
  | Some t => (t ∈ l ∨ best = Some t) ∧
              ∀ t', t' ∈ l ∨ best = Some t' → (ct_threshold_tokens t' ≤ ct_threshold_tokens t)%Z
  end.
Proof.
  induction l as [|x l IH]; intros best; cbn.
  { destruct best as [b|]; [|done]. split; [by right|]. intros t' [?%not_elem_of_nil|[= ->]]; [done|lia]. }
  set (best' := match best with None => Some x | Some b => _ end).
  assert (Hb' : ∃ b, best' = Some b ∧ (b = x ∨ best = Some b) ∧ (ct_threshold_tokens x ≤ ct_threshold_tokens b)%Z ∧
    ∀ b0, best = Some b0 → (ct_threshold_tokens b0 ≤ ct_threshold_tokens b)%Z).
  { unfold best'. destruct best as [b|]; [destruct (Z.leb_spec (ct_threshold_tokens b) (ct_threshold_tokens x))|];
      eexists; (split; [done|]); split; auto; split; try lia; intros ? [=]; subst; lia. }
  destruct Hb' as (b & Eb & Hbx & Hxb & Hbb). specialize (IH best').
  destruct (foldl _ best' l) as [t|]; [|destruct IH; congruence].
  destruct IH as [H1 H2]. split.
  - destruct H1 as [?|H1]; [left; by right|]. rewrite Eb in H1. simplify_eq.
    destruct Hbx as [->| ->]; [left; by left|by right].
  - pose proof (H2 b ltac:(by right)) as Hb. intros t' [[->|Hin]%elem_of_cons|Hbest]; [lia|apply H2; by left|].
    specialize (Hbb t' Hbest). lia.
Qed.

Lemma select_cost_tier_spec tiers n t : select_cost_tier tiers n = Some t →
  t ∈ tiers ∧ (ct_threshold_tokens t ≤ n)%Z ∧
  ∀ t', t' ∈ tiers → (ct_threshold_tokens t' ≤ n)%Z → (ct_threshold_tokens t' ≤ ct_threshold_tokens t)%Z.
Proof.
  unfold select_cost_tier. intros H. set (l := List.filter _ tiers) in H.
  assert (Hl : ∀ x, x ∈ l ↔ x ∈ tiers ∧ (ct_threshold_tokens x ≤ n)%Z).
  { intros x. unfold l. rewrite list_elem_of_In, List.filter_In, <-list_elem_of_In, Z.leb_le. done. }
  pose proof (select_foldl l None) as Hs. rewrite H in Hs. destruct Hs as [[Hin|?] Hmax]; [|done].
  apply Hl in Hin as [??]. split; [done|]. split; [done|]. intros t' ??. apply Hmax. left. by apply Hl.
Qed.
Lemma select_cost_tier_None tiers n : select_cost_tier tiers n = None ↔
  ∀ t, t ∈ tiers → (n < ct_threshold_tokens t)%Z.
Proof.
  unfold select_cost_tier. set (l := List.filter _ tiers).
  assert (Hl : ∀ x, x ∈ l ↔ x ∈ tiers ∧ (ct_threshold_tokens x ≤ n)%Z).
  { intros x. unfold l. rewrite list_elem_of_In, List.filter_In, <-list_elem_of_In, Z.leb_le. done. }
  pose proof (select_foldl l None) as Hs. split.
  - intros Hn. rewrite Hn in Hs. destruct Hs as [_ Hnil]. intros t Ht.
    destruct (decide (ct_threshold_tokens t ≤ n)%Z); [|lia].
    assert (Hin : t ∈ l) by by apply Hl. rewrite Hnil in Hin. by apply not_elem_of_nil in Hin.
  - intros Hall. destruct (foldl _ None l) as [t|]; [|done]. destruct Hs as [[Hin|?] _]; [|done].
    apply Hl in Hin as [Hin ?]. specialize (Hall t Hin). lia.
Qed.

(** The check of a tier list accepts exactly the lists whose rates are
    all finite and not negative and whose thresholds strictly increase; on an
    accepted list one tier claims a request: the one with the greatest
    threshold the request reaches, and none below every threshold. *)
Theorem cost_tiers_checked tiers n :
  (validate_cost_tiers tiers = Ok () ↔ tiers_wf tiers) ∧
  (validate_cost_tiers tiers = Ok () → ∀ t,
     select_cost_tier tiers n = Some t ↔
     t ∈ tiers ∧ (ct_threshold_tokens t ≤ n)%Z ∧
     ∀ t', t' ∈ tiers → t' ≠ t → (ct_threshold_tokens t' ≤ n)%Z →
       (ct_threshold_tokens t' < ct_threshold_tokens t)%Z).
Proof.
  assert (Hv : validate_cost_tiers tiers = Ok () ↔ tiers_wf tiers).
  { unfold validate_cost_tiers. rewrite validate_from_ok. naive_solver. }
  split; [done|]. intros [_ Hs]%Hv t.
  assert (Hinj : ∀ a b, a ∈ tiers → b ∈ tiers → ct_threshold_tokens a = ct_threshold_tokens b → a = b).
  { clear Hv. induction Hs as [|x l _ IH Hf]; [by intros ?? ?%not_elem_of_nil|].
    rewrite Forall_forall in Hf. intros a b [->|Ha]%elem_of_cons [->|Hb]%elem_of_cons He;
      [done|specialize (Hf b Hb); lia|specialize (Hf a Ha); lia|by apply IH]. }
  split.
  - intros (Hin & Hle & Hmax)%select_cost_tier_spec. split; [done|]. split; [done|].
    intros t' Hin' Hne Hle'. specialize (Hmax t' Hin' Hle').
    assert (ct_threshold_tokens t' ≠ ct_threshold_tokens t) by (intros He; by apply Hne, Hinj). lia.
  - intros (Hin & Hle & Hmax). destruct (select_cost_tier tiers n) as [t0|] eqn:E.
    + apply select_cost_tier_spec in E as (Hin0 & Hle0 & Hmax0). specialize (Hmax0 t Hin Hle).
      f_equal. destruct (decide (ct_threshold_tokens t0 = ct_threshold_tokens t)); [by apply Hinj|].
      exfalso. assert (Hne : t0 ≠ t) by congruence. specialize (Hmax t0 Hin0 Hne Hle0). lia.
    + pose proof (proj1 (select_cost_tier_None tiers n) E t Hin). lia.
Qed.

(** a reservation covers the bill.  For valid base rates and a validated
    tier list, whatever tier a request reaches, every rate it is billed at is
    at most the corresponding rate of [max_cost_rates]. *)
Theorem reservation_covers_bill base tiers n :
  invalid_rate base = None → validate_cost_tiers tiers = Ok () →
  rates_le (resolve_rates base (select_cost_tier tiers n)) (max_cost_rates base tiers).
Proof.
  intros Hb%invalid_rate_None Hv. unfold validate_cost_tiers in Hv. apply validate_from_ok in Hv as [[Hv _] _].
  assert (H0 : valid_rates (resolve_rates base None)) by by apply resolve_rates_valid.
  destruct (max_cost_rates_spec base tiers Hb Hv _ H0) as (_ & H1 & H2).
  destruct (select_cost_tier tiers n) as [t|] eqn:E; [|exact H1].
  apply select_cost_tier_spec in E as (Hin & _). by apply H2.
Qed.

Definition demo_base : CostRates :=
  mkCostRates (Some f64_one) None None (Some (f64_of_Z 2)).
Definition demo_tiers : list CostTier :=
  [mkCostTier 200000 (Some (f64_of_Z 2)) None None (Some (f64_of_Z 3));
   mkCostTier 400000 (Some (f64_of_Z 4)) None None None].
Lemma reservation_covers_bill_witness :
  validate_cost_tiers demo_tiers = Ok () ∧
  rates_le (resolve_rates demo_base (select_cost_tier demo_tiers 250000)) (max_cost_rates demo_base demo_tiers) ∧
  cr_input (max_cost_rates demo_base demo_tiers) = Some (f64_of_Z 4).
Proof.
  assert (Hv : validate_cost_tiers demo_tiers = Ok ()) by (vm_compute; done).
  split; [exact Hv|]. split; [|vm_compute; done].
  apply (reservation_covers_bill demo_base demo_tiers 250000); [vm_compute; done|exact Hv].
Defined.

(** ** Price rows *)

Definition row_matches (provider model : str) (row : PricingRow) : Prop :=
  pr_provider row = provider ∧ pr_model row = model.
Definition row_complete (row : PricingRow) : Prop := is_Some (pr_input row) ∧ is_Some (pr_output row).

Lemma row_test provider model row :
  negb (pr_provider row =s provider) || negb (pr_model row =s model) = false ↔ row_matches provider model row.
Proof. rewrite orb_false_iff, !negb_false_iff, !str_eqb_eq. done. Qed.
Lemma complete_test row :
  match pr_input row, pr_output row with Some _, Some _ => true | _, _ => false end = true ↔ row_complete row.
Proof. unfold row_complete. destruct (pr_input row), (pr_output row); naive_solver. Qed.

(** The loop over the remaining rows [rows], [index] rows into the list, with
    the first match so far. *)
Lemma select_pricing_from_spec provider model rows : ∀ index first,
  match select_pricing_from index first rows provider model with
  | None => first = None ∧ ∀ row, row ∈ rows → ¬ row_matches provider model row
  | Some i =>
      (∃ j row, i = index + j ∧ rows !! j = Some row ∧ row_matches provider model row ∧ row_complete row ∧
         ∀ k row', k < j → rows !! k = Some row' → row_matches provider model row' → ¬ row_complete row') ∨
      ((∀ row, row ∈ rows → row_matches provider model row → ¬ row_complete row) ∧
       (first = Some i ∨
        first = None ∧ ∃ j row, i = index + j ∧ rows !! j = Some row ∧ row_matches provider model row ∧
          ∀ k row', k < j → rows !! k = Some row' → ¬ row_matches provider model row'))
  end.
Proof.
  induction rows as [|row rows IH]; intros index first; cbn [select_pricing_from].
  { destruct first as [i|]; [right|split; [done|by intros ? ?%not_elem_of_nil]].
    split; [by intros ? ?%not_elem_of_nil|by left]. }
  destruct (negb (pr_provider row =s provider) || negb (pr_model row =s model)) eqn:Em.
  { assert (Hm : ¬ row_matches provider model row) by (rewrite <-row_test; congruence). clear Em.
    specialize (IH (S index) first). destruct (select_pricing_from _ _ _ _ _) as [i|].
    - destruct IH as [(j & r & -> & Hj & Hr & Hc & Hk)|[Hn [Hf|(Hf & j & r & -> & Hj & Hr & Hk)]]].
      + left. exists (S j), r. split; [lia|]. split; [done|]. split; [done|]. split; [done|].
        intros [|k] r' Hlt Hl; cbn in Hl; [by simplify_eq|]. apply (Hk k r'); [lia|done].
      + right. split; [|by left]. by intros r [->|?]%elem_of_cons; [|apply Hn].
      + right. split; [by intros r' [->|?]%elem_of_cons; [|apply Hn]|]. right. split; [done|].
        exists (S j), r. split; [lia|]. split; [done|]. split; [done|].
        intros [|k] r' Hlt Hl; cbn in Hl; [by simplify_eq|]. apply (Hk k r'); [lia|done].
    - destruct IH as [-> Hn]. split; [done|]. by intros r [->|?]%elem_of_cons; [|apply Hn]. }
  apply row_test in Em.
  destruct (match pr_input row, pr_output row with Some _, Some _ => true | _, _ => false end) eqn:Ec.
  { apply complete_test in Ec. left. exists 0, row. split; [lia|]. split; [done|]. split; [done|].
    split; [done|]. intros; lia. }
  assert (Hc : ¬ row_complete row) by (rewrite <-complete_test; congruence). clear Ec.
  specialize (IH (S index) (match first with None => Some index | _ => first end)).
  destruct (select_pricing_from _ _ _ _ _) as [i|]; [|destruct IH as [H _]; by destruct first].
  destruct IH as [(j & r & -> & Hj & Hr & Hcr & Hk)|[Hn Hf]].
  - left. exists (S j), r. split; [lia|]. split; [done|]. split; [done|]. split; [done|].
    intros [|k] r' Hlt Hl; cbn in Hl; [by simplify_eq|]. apply (Hk k r'); [lia|done].
  - right. split; [by intros r [->|?]%elem_of_cons; [|apply Hn]|].
    destruct first as [f|]; [left; naive_solver|]. right. split; [done|].
    destruct Hf as [[= ->]|[? _]]; [|done]. exists 0, row. split; [lia|]. split; [done|].
    split; [done|]. intros; lia.
Qed.

(** The row that bills a call: the first row of the provider and model
    with both prices; without one, the first row of the provider and model;
    and none only when no row matches. *)
Theorem select_pricing_first rows provider model :
  match select_pricing rows provider model with
  | None => ∀ row, row ∈ rows → ¬ row_matches provider model row
  | Some i => ∃ row, rows !! i = Some row ∧ row_matches provider model row ∧
      ((row_complete row ∧ ∀ k row', k < i → rows !! k = Some row' →
          row_matches provider model row' → ¬ row_complete row') ∨
       ((∀ row', row' ∈ rows → row_matches provider model row' → ¬ row_complete row') ∧
        ∀ k row', k < i → rows !! k = Some row' → ¬ row_matches provider model row'))
  end.
Proof.
  unfold select_pricing. pose proof (select_pricing_from_spec provider model rows 0 None) as H.
  destruct (select_pricing_from _ _ _ _ _) as [i|]; [|by destruct H].
  destruct H as [(j & row & -> & Hj & Hr & Hc & Hk)|[Hn [?|(_ & j & row & -> & Hj & Hr & Hk)]]]; [|done|].
  - exists row. split; [done|]. split; [done|]. by left.
  - exists row. split; [done|]. split; [done|]. by right.
Qed.
