(* ===== verification/EngineTypes.v ===== *)
(** * Values of the engine

    [engine/src/engine/types.rs], [repair_support.rs], [replay.rs] and the error
    and outcome types of [engine/src/step.rs]: errors with their texts, step
    outcomes, their JSON form, and the projection of an error to the failure
    recorded for it.  Durations are nanoseconds. *)

From S2P Require Import Prelude Str BMap Json Serde Events RunState Graph.

#[local] Arguments s : simpl never.

(** ** Outcomes *)

(** [Finding] of [model/src/types/report.rs]. *)
Inductive Severity : Type := SevInfo | SevWarning | SevError.
Record Finding : Type := mkFinding {
  fn_severity : Severity;
  fn_message : str;
  fn_location : option str;
  fn_raw_output : option str;
}.
(** Questions and confirmations, which the wire types leave abstract: their JSON
    form, a new form, and the fields the engine itself asks for
    ([required_input_field]). *)
Class Forms `{WireTypes} := {
  ser_form : FormSpec → value;
  ser_confirm : ConfirmSpec → value;
  new_form : str → str → list value → FormSpec;
  resolution_field : str → value;
  answer_field : value;
}.

Section engine_types.
Context {W : WireTypes}.

(** [StepOutcome]. *)
Inductive StepOutcome : Type :=
| OSuccess (output : option value) (files : list str)
| OCheckFailed (findings : list Finding) (output : option value) (files : list str)
| ONeedsUser (question : FormSpec) (files : list str)
| ONeedsConfirm (confirm : ConfirmSpec) (files : list str).

(** ** JSON forms *)

(** [json!({ .. })]. *)
Definition obj (fields : list (str * value)) : value := VObject (bm_of_list fields).
Definition v_opt {A} (f : A → value) (o : option A) : value :=
  match o with Some x => f x | None => VNull end.
Definition v_num (n : Z) : value := VNumber (PosInt n).

Definition severity_name (x : Severity) : str :=
  match x with SevInfo => s"info" | SevWarning => s"warning" | SevError => s"error" end.
Definition ser_finding (f : Finding) : value :=
  obj [ (s"severity", VString (severity_name (fn_severity f)));
        (s"message", VString (fn_message f));
        (s"location", v_opt VString (fn_location f));
        (s"raw_output", v_opt VString (fn_raw_output f)) ].
Definition ser_findings (l : list Finding) : value := VArray (map ser_finding l).
Definition ser_pin (p : FilePin) : value :=
  obj [ (s"path", VString (pin_path p)); (s"sha256", VString (pin_sha256 p)) ].
Definition ser_pins (l : list FilePin) : value := VArray (map ser_pin l).

(** ** Errors *)

(** [StepError]; the errors of the standard library and of serde carry their
    text. *)
Inductive StepError : Type :=
| SFailed (node message : str)
| SIo (text : str)
| SJson (text : str)
| SCancelled
| SBudgetExceeded (resource : str) (used limit : Z)
| SGlobalStepBudgetExceeded (node : str) (used allowed : Z)
| SProviderContextExhausted (node : str)
| SAgentIterationsExhausted (node message resource : str) (used allowed : Z) (validation : option str)
| SLocalResourceExhausted (node message resource : str) (used allowed : Z)
| SRefused (node message : str)
| SMcpAuthorizationRequired (node server : str)
| STimedOut (node : str) (timeout_secs : Z)
| SElapsedExceeded (node : str) (limit_secs used : Z)
| SElapsedExpiredBeforeStart (limit_secs used : Z).

(** [EngineError]; the errors of other crates carry their text. *)
Inductive EngineError : Type :=
| EContract (text : str)
| EStep (e : StepError)
| EResumableAgent (e : EngineError)
| ESettled (d : FailureDetail)
| EGatewayCanceled
| EGateway (text : str)
| EIo (text : str)
| EJournal (text : str)
| EExpr (node message : str)
| EFailed (text : str)
| ERewound (text : str)
| ECanceled
| EYielded
| ENeedsUser (question_id : str) (question : FormSpec)
| ENeedsConfirm (confirm_id : str) (confirm : ConfirmSpec).

(** [Display] of both. *)
Definition step_error_text (e : StepError) : str :=
  match e with
  | SFailed node message => s"step `" ++ node ++ s"` failed: " ++ message
  | SIo text | SJson text => text
  | SCancelled => s"step execution was canceled"
  | SBudgetExceeded resource used limit =>
      s"run budget `" ++ resource ++ s"` exceeded: " ++ show_uint used ++ s" > " ++ show_uint limit
  | SGlobalStepBudgetExceeded node used allowed =>
      s"step `" ++ node ++ s"` failed: global step budget exceeded: " ++ show_uint used
      ++ s" >= " ++ show_uint allowed
  | SProviderContextExhausted node =>
      s"step `" ++ node
      ++ s"` exhausted the provider context window (model_context_window_exceeded)"
  | SAgentIterationsExhausted node message _ _ _ _ | SLocalResourceExhausted node message _ _ _ =>
      s"step `" ++ node ++ s"` failed: " ++ message
  | SRefused node message => s"step `" ++ node ++ s"` refused: " ++ message
  | SMcpAuthorizationRequired node server =>
      s"step `" ++ node ++ s"` requires MCP authorization for `" ++ server ++ s"`"
  | STimedOut node timeout_secs =>
      s"step `" ++ node ++ s"` timed out after " ++ show_uint timeout_secs ++ s"s"
  | SElapsedExceeded node limit_secs _ =>
      s"step `" ++ node ++ s"` exceeded the run elapsed limit of " ++ show_uint limit_secs ++ s"s"
  | SElapsedExpiredBeforeStart limit_secs _ =>
      s"run elapsed limit of " ++ show_uint limit_secs
      ++ s"s expired before the next step could start"
  end.
Fixpoint engine_error_text (e : EngineError) : str :=
  match e with
  | EContract text | EGateway text | EIo text | EJournal text => text
  | EStep e => step_error_text e
  | EResumableAgent e => engine_error_text e
  | ESettled d => fd_message d
  | EGatewayCanceled => s"execution was canceled"
  | EExpr node message => s"expression error in node `" ++ node ++ s"`: " ++ message
  | EFailed text => s"run failed: " ++ text
  | ERewound text => s"run workspace was rewound: " ++ text
  | ECanceled => s"run was canceled"
  | EYielded => s"run yielded at a scheduler boundary"
  | ENeedsUser id _ => s"run is waiting for user input: " ++ id
  | ENeedsConfirm id _ => s"run is waiting for side-effect confirmation: " ++ id
  end.

Definition is_resumable_agent (e : EngineError) : bool :=
  match e with EResumableAgent _ => true | _ => false end.
Definition is_canceled (e : EngineError) : bool :=
  match e with ECanceled | EGatewayCanceled | EStep SCancelled => true | _ => false end.
Definition is_interaction (e : EngineError) : bool :=
  match e with ENeedsUser _ _ | ENeedsConfirm _ _ => true | _ => false end.
Definition is_budget_exhaustion (e : EngineError) : bool :=
  match e with
  | EStep (SBudgetExceeded _ _ _ | SGlobalStepBudgetExceeded _ _ _) => true
  | _ => false
  end.
Definition is_elapsed_exhaustion (e : EngineError) : bool :=
  match e with
  | EStep (SElapsedExceeded _ _ _ | SElapsedExpiredBeforeStart _ _) => true
  | _ => false
  end.
Definition is_distinct_execution_error (e : EngineError) : bool :=
  is_budget_exhaustion e || is_elapsed_exhaustion e
  || match e with
     | EStep (STimedOut _ _ | SProviderContextExhausted _ | SLocalResourceExhausted _ _ _ _ _) =>
         true
     | _ => false
     end.
(** The errors [execute_node_with_retry] retries. *)
Definition is_retried (e : EngineError) : bool :=
  match e with
  | EStep (SFailed _ _ | STimedOut _ _ | SAgentIterationsExhausted _ _ _ _ _ _
          | SLocalResourceExhausted _ _ _ _ _) => true
  | _ => false
  end.

(** [BudgetExhaustion::elapsed]. *)
Definition NANOS_PER_SEC : Z := 1000000000.
Definition exhaustion_elapsed (used allowed : Z) : BudgetExhaustion :=
  mkBudgetExhaustion (s"elapsed_seconds") (used / NANOS_PER_SEC)%Z allowed
    (Some (used mod NANOS_PER_SEC)%Z).

Fixpoint failure_detail_for_error (e : EngineError) : FailureDetail :=
  let text := engine_error_text e in
  match e with
  | EResumableAgent e => failure_detail_for_error e
  | ESettled d => d
  | EStep (SElapsedExceeded _ limit_secs used | SElapsedExpiredBeforeStart limit_secs used) =>
      mkFailureDetail ElapsedExceeded text [] (Some (exhaustion_elapsed used limit_secs))
  | EStep (STimedOut _ _) => mkFailureDetail TimedOut text [] None
  | EStep (SBudgetExceeded resource used limit) =>
      mkFailureDetail BudgetExceeded text [] (Some (mkBudgetExhaustion resource used limit None))
  | EStep (SLocalResourceExhausted _ _ resource used allowed) =>
      mkFailureDetail ExecutionFailed text [] (Some (mkBudgetExhaustion resource used allowed None))
  | EStep (SGlobalStepBudgetExceeded _ used allowed) =>
      mkFailureDetail BudgetExceeded text [] (Some (mkBudgetExhaustion (s"steps") used allowed None))
  | EStep (SProviderContextExhausted _) => mkFailureDetail ProviderContextExhausted text [] None
  | EStep (SRefused _ _) => mkFailureDetail Refused text [] None
  | EStep (SMcpAuthorizationRequired _ _) => mkFailureDetail McpAuthorizationRequired text [] None
  | _ => mkFailureDetail (if is_canceled e then Canceled else ExecutionFailed) text [] None
  end.

Inductive RunFailureKind : Type := KCanceled | KExecution | KRewound.
Definition failure_kind_for_error (e : EngineError) : RunFailureKind :=
  if is_canceled e then KCanceled
  else match e with ERewound _ => KRewound | _ => KExecution end.

(** ** Evidence and names *)

Definition output_name_for (node : NodeDef) : str := default (nd_id node) (nd_output node).
Definition with_failed_evidence (payload : value) (failed_output : option value)
    (failed_files : list FilePin) : value :=
  match payload with
  | VObject m =>
      VObject (bm_insert (s"failed_files") (ser_pins failed_files)
                (bm_insert (s"failed_output") (default VNull failed_output) m))
  | _ => payload
  end.
Definition failure_from_findings (findings : list Finding) (code : FailureCode) : FailureDetail :=
  let message :=
    join (s"; ") (List.filter (λ m, negb (bool_decide (m = []))) (map fn_message findings)) in
  failure_new code (if bool_decide (message = []) then s"check failed" else message).

Definition exhausted_id (node : NodeDef) (phase : str) : str :=
  nd_id node ++ s":" ++ phase ++ s"_exhausted".
Definition exhausted_question `{!Forms} (node : NodeDef) (phase : str) (title : option str)
    (fields : list value) : FormSpec :=
  new_form (exhausted_id node phase)
    (default (s"Resolve exhausted " ++ phase ++ s" for node `" ++ nd_id node ++ s"`") title)
    match fields with [] => [resolution_field phase] | _ => fields end.
Definition on_fail_id (node : NodeDef) : str := nd_id node ++ s":on_fail".
Definition on_fail_question `{!Forms} (node : NodeDef) : FormSpec :=
  new_form (on_fail_id node)
    (s"Resolve check failure for node `" ++ nd_id node ++ s"`") [answer_field].

(** [NodePath::repair_child]. *)
Definition repair_child (owner : str) (attempt : Z) (child : str) : str :=
  owner ++ s"@repair." ++ show_uint attempt ++ s"/" ++ child.

(** [RepairCycleOutcome]. *)
Inductive RepairCycleOutcome : Type :=
| Repaired (output : option value)
| Routed (to : str) (output : value)
| Answered (output : value)
| RepairFailed (reason : FailureDetail).

(** ** Replay *)

Record ReplayedStep : Type := mkReplayed {
  rp_status : str;
  rp_output : option value;
  rp_files : list FilePin;
}.
(** [JournalReplay::from_state]. *)
Definition replayed_steps (st : RunState) : bmap ReplayedStep :=
  omap (λ '(path, outcome),
    match outcome with
    | NodeSuccess output files => Some (path, mkReplayed (s"success") output files)
    | NodeSkipped _ | NodeFailed _ => None
    end) (rs_nodes st).
End engine_types.
