(* ===== verification/EngineWorld.v ===== *)
(** * The engine and its surroundings

    What the run loop of [engine/src/engine] works with: the journal it writes,
    the signals it polls, the step bodies it runs, the store it pins files in.

    A run is a deterministic function of an [Environment], which answers every
    question the engine asks of its surroundings at the moment it asks it:
    whether the run is cancelled or its deadline has passed, what a step body
    wrote and returned, which task of a wave joins next.  The theorems hold for
    all environments.  The journal is the writer of [JournalWriter] seen from
    its caller: a record is refused by the storage, or accepted by the fold and
    appended.  The execution lock excludes other writers of step records. *)

From S2P Require Import Prelude Str BMap Json Serde Events ValueBag ExprLexer ExprEval ExprParser RunState AuditRules TraceIds JournalFile JournalWriter Graph EngineTypes.

#[local] Arguments s : simpl never.

(** The texts of errors this part only passes on. *)
Class Messages := {
  journal_error_text : JError → str;
  expr_error_text : ExprError → str;
  debug_when : option str → str;
}.

(** ** Surroundings *)

(** Who wrote a record: the run loop with its waves, the retry wrapper, a
    repair or regeneration, the hooks, or the body of a step. *)
Inductive author : Type := ByLoop | ByRetry | ByRepair | ByHook | ByBody.
Record entry : Type := mkEntry { en_by : author; en_kind : str; en_payload : value }.

Section surroundings.
Context {W : WireTypes}.

(** What a step body did: its records, the scope it left, its result. *)
Record Body : Type := mkBody {
  bd_records : list (str * value);
  bd_vars : ValueBag;
  bd_result : result EngineError StepOutcome;
}.
(** A deadline that runs against a body: did it fire first, was the run
    cancelled then, did the body settle within the grace period, was the run
    cancelled after it. *)
Record Race : Type := mkRace {
  rc_fired : bool;
  rc_parent_before : bool;
  rc_settled : bool;
  rc_parent_after : bool;
}.
Inductive Backoff : Type := BSlept | BCancelled | BElapsed.
(** How a task of a wave joins. *)
Inductive Join : Type := JFinish | JCancelled | JPanic (message : option str) | JOther (text : str).

Record Environment : Type := mkEnvironment {
  ev_clock : nat → Clock;
  ev_storage : nat → option str;
  ev_audited : nat → bool;
  ev_cancelled : nat → bool;
  ev_yield : nat → bool;
  ev_expired : nat → bool;
  ev_used : nat → Z;
  ev_body : nat → NodeDef → ValueBag → Body;
  ev_timeout : nat → Race;
  ev_deadline : nat → Race;
  ev_backoff : nat → Backoff;
  ev_pins : nat → list str → result EngineError (list FilePin);
  ev_slices : nat → list nat;
  ev_join : nat → nat * Join;
  ev_instant : nat → Z;
  ev_age : nat → str → option Z;
  ev_resources : nat → result EngineError (list value);
  ev_prepare : nat → result EngineError (bmap value);
  ev_outputs : nat → ValueBag → result EngineError (list value);
}.

End surroundings.

(** [Episode] of [elapsed.rs]: the instant it opened, the active time before
    it, and whether it is closed; nanoseconds. *)
Record Episode : Type := mkEpisode { ep_started : Z; ep_total : Z; ep_closed : bool }.

(** [StepTraits] of the registry. *)
Record StepTraits : Type := mkTraits {
  tr_parallel_safe : bool;
  tr_replay_safe : bool;
}.
(** [HookDef], [HookErrorPolicy] and [HooksConfig] of [manifest/hooks.rs]. *)
Inductive HookErrorPolicy : Type := HookFail | HookWarn.
Record HookDef : Type := mkHookDef {
  hk_id : str;
  hk_kind : str;
  hk_on_error : HookErrorPolicy;
  hk_retry : option RetryPolicy;
  hk_params : bmap toml_value;
}.
Record HooksConfig : Type := mkHooksConfig {
  hc_run_started : list HookDef;
  hc_run_succeeded : list HookDef;
  hc_run_failed : list HookDef;
  hc_step_failed : list HookDef;
}.

(** ** State *)

(** What the theorems exclude: a loop of the model that ran out of fuel, and a
    run loop that found no runnable node. *)
Inductive anomaly : Type := OutOfFuel | Stalled.

Section engine_world.
Context {W : WireTypes}.

(** [RunContext] and [RunOptions], as far as the loop reads them.  [cx_mode] is
    the accounting mode of the options, [cx_identity] the fields of
    [run_started] that name generator, contract and retention, [cx_inputs] the
    admitted inputs, [cx_replay] the state the journal had when the run was
    entered. *)
Record RunContext : Type := mkRunContext {
  cx_run_id : str;
  cx_graph : Graph;
  cx_hooks : HooksConfig;
  cx_traits : str → option StepTraits;
  cx_deadline : bool;
  cx_elapsed_limit : option Z;
  cx_answers : bmap value;
  cx_confirmations : bmap bool;
  cx_max_total_steps : Z;
  cx_max_parallel : nat;
  cx_contract_sha256 : str;
  cx_mode : ElapsedBudgetMode;
  cx_identity : list (str * value);
  cx_inputs : bmap value;
  cx_replay : RunState;
}.

(** The journal with its fold, the step counter all tasks share, the variables
    and the node states of the loop, the open episode.  Nothing reads the last
    fields: [eg_attempts] counts the bodies run, [eg_refused] the refused
    records, [eg_anomaly] marks what should not happen. *)
Record engine : Type := mkEngine {
  eg_tick : nat;
  eg_state : RunState;
  eg_log : list entry;
  eg_executed : Z;
  eg_vars : ValueBag;
  eg_states : bmap NodeState;
  eg_episode : option Episode;
  eg_attempts : nat;
  eg_refused : nat;
  eg_anomaly : option anomaly;
}.
Definition engine_eta (g : engine) : engine :=
  mkEngine (eg_tick g) (eg_state g) (eg_log g) (eg_executed g) (eg_vars g) (eg_states g)
    (eg_episode g) (eg_attempts g) (eg_refused g) (eg_anomaly g).
#[global] Instance set_eg_tick : Setter eg_tick := ltac:(derive_setter engine_eta eg_tick).
#[global] Instance set_eg_state : Setter eg_state := ltac:(derive_setter engine_eta eg_state).
#[global] Instance set_eg_log : Setter eg_log := ltac:(derive_setter engine_eta eg_log).
#[global] Instance set_eg_executed : Setter eg_executed := ltac:(derive_setter engine_eta eg_executed).
#[global] Instance set_eg_refused : Setter eg_refused := ltac:(derive_setter engine_eta eg_refused).
#[global] Instance set_eg_vars : Setter eg_vars := ltac:(derive_setter engine_eta eg_vars).
#[global] Instance set_eg_episode : Setter eg_episode := ltac:(derive_setter engine_eta eg_episode).
#[global] Instance set_eg_attempts : Setter eg_attempts := ltac:(derive_setter engine_eta eg_attempts).
#[global] Instance set_eg_anomaly : Setter eg_anomaly := ltac:(derive_setter engine_eta eg_anomaly).
#[global] Instance set_eg_states : Setter eg_states := ltac:(derive_setter engine_eta eg_states).

(** ** The monad: the state survives an error *)

Definition EM (A : Type) : Type := engine → engine * result EngineError A.
#[global] Instance em_ret : MRet EM := λ A x g, (g, Ok x).
#[global] Instance em_bind : MBind EM := λ A B f m g,
  match m g with
  | (g, Ok x) => f x g
  | (g, Err e) => (g, Err e)
  end.
Definition raise {A} (e : EngineError) : EM A := λ g, (g, Err e).
Definition raise_anomaly {A} (a : anomaly) (e : EngineError) : EM A := λ g,
  (g <| eg_anomaly := Some a |>, Err e).
Definition out_of_fuel {A} : EM A := raise_anomaly OutOfFuel (EFailed []).
Definition try_ {A} (m : EM A) : EM (result EngineError A) := λ g, let '(g, r) := m g in (g, Ok r).
Definition of_result {A} (r : result EngineError A) : EM A := λ g, (g, r).
Definition the_engine : EM engine := λ g, (g, Ok g).
Definition put (f : engine → engine) : EM () := λ g, (f g, Ok ()).
(** The moment of the next question to the environment. *)
Definition ask : EM nat := λ g, (g <| eg_tick := S (eg_tick g) |>, Ok (eg_tick g)).
Fixpoint each {A} (f : A → EM ()) (l : list A) : EM () :=
  match l with [] => mret () | x :: l => _ ← f x; each f l end.

(** ** The operations *)

Context `{Sha256, Messages}.
Variables (env : Environment) (cx : RunContext).

(** The state after a record, or why the writer refuses it. *)
Definition accept (clock : Clock) (audited : bool) (kind : str) (payload : value) (st : RunState) :
    result JError RunState :=
  seq ← next_seq (Z.max (rs_last_seq st) (rs_audit_seq st));
  match event_class kind with
  | Observation => Ok (if audited then st <| rs_audit_seq := seq |> else st)
  | Durable =>
      let object := with_metrics clock (rs_budget st) kind (payload_object payload) in
      _ ← check_payload_run (cx_run_id cx) object;
      let v := durable_record clock kind (cx_run_id cx) seq object in
      _ ← decode_event v;
      map_err JFold (apply st v)
  end.
(** [JournalWriter::event] as its caller sees it. *)
Definition event (by_ : author) (kind : str) (payload : value) : EM () := λ g,
  let n := eg_tick g in
  let g := g <| eg_tick := S n |> in
  let refuse text := (g <| eg_refused := S (eg_refused g) |>, Err (EJournal text)) in
  match ev_storage env n with
  | Some text => refuse text
  | None =>
      match accept (ev_clock env n) (ev_audited env n) kind payload (eg_state g) with
      | Err e => refuse (journal_error_text e)
      | Ok st =>
          (g <| eg_state := st |> <| eg_log := eg_log g ++ [mkEntry by_ kind payload] |>, Ok ())
      end
  end.

(** [RunContext::run_checkpoint]. *)
Definition run_checkpoint : EM () :=
  n ← ask;
  if ev_cancelled env n then raise ECanceled
  else match cx_elapsed_limit cx with
       | Some limit =>
           if cx_deadline cx && ev_expired env n
           then raise (EStep (SElapsedExpiredBeforeStart limit (ev_used env n)))
           else mret ()
       | None => mret ()
       end.

Definition sync_live_outcomes : EM () :=
  put (λ g, g <| eg_vars := sync_outcome_metadata (eg_vars g) (rs_vars (eg_state g)) |>).
Definition pin_attempt_files (files : list str) : EM (list FilePin) :=
  n ← ask; of_result (ev_pins env n files).
(** [BudgetTracker::consume]. *)
Definition consume (node : str) : EM () := λ g,
  let allowed := Z.max 1 (cx_max_total_steps cx) in
  if (eg_executed g <? allowed)%Z then (g <| eg_executed := (eg_executed g + 1)%Z |>, Ok ())
  else (g, Err (EStep (SGlobalStepBudgetExceeded node (eg_executed g) allowed))).

Definition set_node (id : str) (st : NodeState) : EM () :=
  put (λ g, g <| eg_states := bm_insert id st (eg_states g) |>).
Definition with_vars (f : ValueBag → ValueBag) : EM () := put (λ g, g <| eg_vars := f (eg_vars g) |>).
Definition publish_output (node : NodeDef) (output : option value) : EM () :=
  with_vars (λ vars, publish_step_output vars (nd_id node) (nd_output node) output None).
End engine_world.
