(* ===== verification/EngineExecute.v ===== *)
(** * Executing nodes, alone and in waves *)

From S2P Require Import Prelude Str TraceIds BMap Json ValueBag Serde Events RunState JournalWriter Graph EngineTypes EngineWorld.

#[local] Arguments s : simpl never.

(** * Executing one node

    [engine/src/engine/execute.rs]: an attempt with its deadlines and the retry
    wrapper every execution passes through.  The wrapper is a step function on
    tasks, so that the tasks of a wave can be interleaved. *)

Definition MAX_RETRY_ATTEMPTS : Z := 16.
Definition retry_of (node : NodeDef) : RetryPolicy := default retry_default (nd_retry node).
Definition max_attempts_of (node : NodeDef) : nat := Z.to_nat (rp_max_attempts (retry_of node)).

Section node.
Context {W : WireTypes}.

(** A task charges its next attempt, makes it, or has finished. *)
Inductive task : Type :=
| TCharge (attempt : nat)
| TAttempt (attempt : nat)
| TDone (r : result EngineError StepOutcome).
Definition is_done (t : task) : bool := match t with TDone _ => true | _ => false end.
(** Steps a task still takes at most. *)
Definition task_left (node : NodeDef) (t : task) : nat :=
  match t with
  | TCharge n => 2 * (max_attempts_of node - n) + 2
  | TAttempt n => 2 * (max_attempts_of node - n) + 1
  | TDone _ => 0
  end.

Context `{Sha256, Messages}.
Variables (env : Environment) (cx : RunContext).
Notation event := (event env cx).

Definition step_payload (node : NodeDef) : list (str * value) := [(s"node", VString (nd_id node))].

(** [execute_node_after_budget]: the body of the step. *)
Definition run_body (node : NodeDef) : EM StepOutcome :=
  n ← ask;
  _ ← put (λ g, g <| eg_attempts := S (eg_attempts g) |>);
  g ← the_engine;
  let body := ev_body env n node (eg_vars g) in
  _ ← each (λ '(kind, payload), _ ← try_ (event ByBody kind payload); mret ()) (bd_records body);
  _ ← with_vars (λ _, bd_vars body);
  of_result (bd_result body).

(** The declared timeout of an attempt. *)
Definition under_timeout (node : NodeDef) (r : result EngineError StepOutcome) : EM StepOutcome :=
  match rp_timeout_secs (retry_of node) with
  | None => of_result r
  | Some timeout_secs =>
      n ← ask;
      let race := ev_timeout env n in
      if negb (rc_fired race) then of_result r
      else if rc_parent_before race then raise ECanceled
      else if rc_parent_after race then of_result (if rc_settled race then r else Err ECanceled)
      else if rc_settled race && negb match r with Err e => is_canceled e | Ok _ => false end
      then of_result r
      else raise (EStep (STimedOut (nd_id node) timeout_secs))
  end.

(** The elapsed deadline of the run. *)
Definition under_deadline (node : NodeDef) (r : result EngineError StepOutcome) : EM StepOutcome :=
  if negb (cx_deadline cx) then of_result r
  else
    n ← ask;
    let race := ev_deadline env n in
    if negb (rc_fired race) then of_result r
    else if rc_parent_before race then raise ECanceled
    else match cx_elapsed_limit cx with
    | None => raise (EFailed (s"elapsed deadline fired without a configured elapsed limit"))
    | Some limit_secs =>
        if rc_parent_after race then raise ECanceled
        else
          let exceeded := EStep (SElapsedExceeded (nd_id node) limit_secs (ev_used env n)) in
          match r with
          | Ok (ONeedsUser _ _ | ONeedsConfirm _ _) =>
              if rc_settled race then
                _ ← event ByRetry (s"elapsed_exceeded")
                      (obj (step_payload node ++
                        [ (s"limit_secs", v_num limit_secs);
                          (s"exhaustion",
                            ser_budget_exhaustion (exhaustion_elapsed (ev_used env n) limit_secs));
                          (s"during", VString (s"interaction")) ]));
                of_result r
              else raise exceeded
          | Err (EStep (STimedOut _ inner_timeout)) =>
              _ ← (if rc_settled race then
                     event ByRetry (s"step_timeout")
                       (obj (step_payload node ++
                         [ (s"timeout_secs", v_num inner_timeout);
                           (s"during", VString (s"elapsed")) ]))
                   else mret ());
              raise exceeded
          | _ => raise exceeded
          end
    end.

Definition execute_attempt (node : NodeDef) : EM StepOutcome :=
  r ← try_ (run_body node);
  r ← try_ (under_timeout node r);
  under_deadline node r.

(** The wait between two attempts. *)
Definition backoff (node : NodeDef) : EM () :=
  n ← ask;
  match ev_backoff env n with
  | BSlept => mret ()
  | BCancelled => raise ECanceled
  | BElapsed =>
      if negb (cx_deadline cx) then mret ()
      else match cx_elapsed_limit cx with
           | None => raise (EFailed (s"elapsed deadline fired without a configured elapsed limit"))
           | Some limit_secs =>
               raise (EStep (SElapsedExceeded (nd_id node) limit_secs (ev_used env n)))
           end
  end.

(** One step of the loop of [execute_node_with_retry_charged]. *)
Definition charge_attempt (node : NodeDef) : EM () :=
  _ ← consume cx (nd_id node);
  event ByRetry (s"budget_charged") (obj (step_payload node ++ [(s"amount", v_num 1)])).
Definition record_retry (node : NodeDef) (attempt : nat) (e : EngineError) : EM () :=
  _ ← event ByRetry (s"step_retry")
        (obj (step_payload node ++
          [ (s"attempt", v_num (Z.of_nat attempt));
            (s"max_attempts", v_num (Z.of_nat (max_attempts_of node)));
            (s"error", VString (engine_error_text e)) ]));
  backoff node.
Definition task_step (charge : bool) (node : NodeDef) (t : task) : EM task :=
  match t with
  | TCharge n =>
      r ← try_ (if charge then charge_attempt node else mret ());
      mret match r with Ok _ => TAttempt n | Err e => TDone (Err e) end
  | TAttempt n =>
      r ← try_ (execute_attempt node);
      match r with
      | Err e =>
          if is_retried e && bool_decide (n < max_attempts_of node) then
            r' ← try_ (record_retry node n e);
            mret match r' with Ok _ => TCharge (S n) | Err e' => TDone (Err e') end
          else mret (TDone r)
      | Ok _ => mret (TDone r)
      end
  | TDone _ => mret t
  end.
Fixpoint finish_task (fuel : nat) (charge : bool) (node : NodeDef) (t : task) :
    EM (result EngineError StepOutcome) :=
  match t with
  | TDone r => mret r
  | _ => match fuel with
         | 0 => out_of_fuel
         | S fuel => t ← task_step charge node t; finish_task fuel charge node t
         end
  end.

(** The task a node starts as: out-of-range bounds are refused. *)
Definition first_task (node : NodeDef) : task :=
  let max_attempts := rp_max_attempts (retry_of node) in
  if (max_attempts <=? 0)%Z || (MAX_RETRY_ATTEMPTS <? max_attempts)%Z
  then TDone (Err (EFailed (s"node `" ++ nd_id node
                ++ s"` retry.max_attempts must be between 1 and " ++ show_uint MAX_RETRY_ATTEMPTS)))
  else TCharge 1.
Definition run_task (charge : bool) (node : NodeDef) (t : task) : EM (result EngineError StepOutcome) :=
  finish_task (task_left node t) charge node t.
(** [execute_node_with_retry]. *)
Definition execute_node_with_retry (node : NodeDef) : EM StepOutcome :=
  r ← run_task true node (first_task node);
  of_result r.
End node.

(** * Parallel waves

    [execute_parallel_wave] of [engine/src/engine/execute.rs]: the ready nodes
    are started one after the other, their tasks run interleaved, the first
    terminal outcome aborts the siblings, every task is joined, and the outcomes
    are settled in node order.

    An aborted task runs on until it observes the abort: it can make further
    steps, and a task that has finished reports its outcome.  Which task
    progresses and which joins next is the choice of the environment. *)

Section wave.
Context {W : WireTypes}.

(** A spawned task with its copy of the variables. *)
Record running : Type := mkRunning { ru_node : NodeDef; ru_task : task; ru_vars : ValueBag }.
(** [WaveJoin]. *)
Inductive wave_join : Type :=
| Reported (r : result EngineError StepOutcome)
| Aborted
| Panicked (message : option str)
| JoinFailed (text : str).

(** [join_task_error]. *)
Definition join_task_error (j : wave_join) : EngineError :=
  EStep (SFailed (s"scheduler")
    match j with
    | Panicked (Some message) => s"parallel task panicked: " ++ message
    | Panicked None => s"parallel task panicked with a non-string payload"
    | JoinFailed text => s"parallel task failed: " ++ text
    | _ => []
    end).

(** [combine_terminal_errors]. *)
Definition combine_terminal_errors (errors : list EngineError) : result EngineError () :=
  match errors with
  | [] => Ok ()
  | first :: rest =>
      match List.find is_interaction errors with
      | Some e => Err e
      | None =>
          match rest with
          | [] => Err first
          | _ =>
              let combined := EFailed (join (s"; ") (map engine_error_text errors)) in
              Err (if existsb is_resumable_agent errors then EResumableAgent combined else combined)
          end
      end
  end.

(** What the joins of a wave leave: the first refused record, the reported
    outcomes, the errors of tasks without one, and whether siblings were
    aborted. *)
Record collected : Type := mkCollected {
  co_fact : result EngineError ();
  co_outcomes : bmap (result EngineError StepOutcome);
  co_errors : list EngineError;
  co_abort : bool;
}.
Definition collected_none : collected := mkCollected (Ok ()) [] [] false.
Definition note_fact (fact : result EngineError ()) (co : collected) : collected :=
  mkCollected (match co_fact co with Ok _ => fact | Err e => Err e end)
    (co_outcomes co) (co_errors co) (co_abort co).
Definition note_outcome (node : NodeDef) (j : wave_join) (co : collected) : collected :=
  match j with
  | Reported r =>
      mkCollected (co_fact co) (bm_insert (nd_id node) r (co_outcomes co)) (co_errors co) (co_abort co)
  | _ => co
  end.
Definition note_error (e : EngineError) (co : collected) : collected :=
  mkCollected (co_fact co) (co_outcomes co) (co_errors co ++ [e]) (co_abort co).
Definition note_abort (co : collected) : collected :=
  mkCollected (co_fact co) (co_outcomes co) (co_errors co) true.

Definition outcome_name (o : StepOutcome) : str :=
  match o with
  | OSuccess _ _ => s"success"
  | OCheckFailed _ _ _ => s"check_failed"
  | ONeedsUser _ _ => s"needs_user"
  | ONeedsConfirm _ _ => s"needs_confirm"
  end.
(** The fields of a join record, and its classification. *)
Definition join_facts (j : wave_join) (abort_cause : str) : list (str * value) * str :=
  match j with
  | Reported (Ok o) =>
      ( (s"outcome", VString (outcome_name o))
        :: match o with
           | ONeedsUser question _ => [(s"question_id", VString (form_id question))]
           | ONeedsConfirm confirm _ => [(s"confirm_id", VString (confirm_id confirm))]
           | _ => []
           end,
        match o with OSuccess _ _ => s"completed_success" | _ => s"completed_terminal" end )
  | Reported (Err (ENeedsUser question_id _)) =>
      ([(s"question_id", VString question_id)], s"interaction_pending")
  | Reported (Err (ENeedsConfirm id _)) =>
      ([(s"confirm_id", VString id)], s"interaction_pending")
  | Reported (Err e) =>
      ( (s"code", VString (enum_name failure_codes (fd_code (failure_detail_for_error e))))
        :: (if is_resumable_agent e then [(s"continuation_owner", VString (s"agent"))] else [])
        ++ (if is_canceled e then [(s"cancellation_cause", VString (s"reported_by_task"))] else []),
        if is_canceled e then s"task_canceled" else s"task_error" )
  | Aborted =>
      ( [(s"cancellation_cause", VString abort_cause)],
        if abort_cause =s s"parent_cancellation" then s"parent_canceled"
        else if abort_cause =s s"none" then s"task_canceled"
        else s"scheduler_abort" )
  | Panicked _ => ([], s"task_panic")
  | JoinFailed _ => ([], s"task_join_error")
  end.

Context `{Sha256, Messages, !Forms}.
Variables (env : Environment) (cx : RunContext).
Notation event := (event env cx).

(** ** Tasks *)

(** Run [m] on the variables of a task. *)
Definition on_snapshot {A} (vars : ValueBag) (m : EM A) : EM (A * ValueBag) := λ g,
  let '(g', r) := m (g <| eg_vars := vars |>) in
  (g' <| eg_vars := eg_vars g |>, x ← r; Ok (x, eg_vars g')).
Definition advance (ts : list running) (i : nat) : EM (list running) :=
  match ts !! i with
  | None => mret ts
  | Some r =>
      '(t, vars) ← on_snapshot (ru_vars r) (task_step env cx true (ru_node r) (ru_task r));
      mret (<[i := mkRunning (ru_node r) t vars]> ts)
  end.
Fixpoint advance_all (ts : list running) (slices : list nat) : EM (list running) :=
  match slices with
  | [] => mret ts
  | i :: slices => ts ← advance ts i; advance_all ts slices
  end.
(** The tasks progress for a while. *)
Definition interleave (ts : list running) : EM (list running) :=
  n ← ask; advance_all ts (ev_slices env n).

(** [join_next_with_id]: a finished task reports; another one may run to its
    end, or end without a report. *)
Definition join_task (r : running) (how : Join) : EM wave_join :=
  match ru_task r, how with
  | TDone x, _ => mret (Reported x)
  | _, JFinish =>
      '(x, _) ← on_snapshot (ru_vars r) (run_task env cx true (ru_node r) (ru_task r));
      mret (Reported x)
  | _, JCancelled => mret Aborted
  | _, JPanic message => mret (Panicked message)
  | _, JOther text => mret (JoinFailed text)
  end.
Definition join_next (r : running) (ts : list running) : EM (running * wave_join * list running) :=
  n ← ask;
  let '(i, how) := ev_join env n in
  match (r :: ts) !! i with
  | Some r' => j ← join_task r' how; mret (r', j, take i (r :: ts) ++ drop (S i) (r :: ts))
  | None => j ← join_task r how; mret (r, j, ts)
  end.

Definition record_wave_join (node : NodeDef) (j : wave_join) (drain_cause abort_cause : str) : EM () :=
  let '(facts, classification) := join_facts j abort_cause in
  event ByLoop (s"parallel_task_joined")
    (obj ([(s"node", VString (nd_id node)); (s"drain_cause", VString drain_cause)]
          ++ facts ++ [(s"classification", VString classification)])).

(** ** Joining *)

(** [while let Some(result) = tasks.join_next_with_id().await] after an abort. *)
Fixpoint drain (fuel : nat) (drain_cause abort_cause : str) (ts : list running) (co : collected) :
    EM collected :=
  match ts, fuel with
  | [], _ => mret co
  | _, 0 => out_of_fuel
  | _, S fuel =>
      ts ← interleave ts;
      match ts with
      | [] => mret co
      | r :: ts =>
          '(r, j, ts) ← join_next r ts;
          fact ← try_ (record_wave_join (ru_node r) j drain_cause abort_cause);
          drain fuel drain_cause abort_cause ts (note_outcome (ru_node r) j (note_fact fact co))
      end
  end.

Definition fail_fast_cause (co : collected) : str := if co_abort co then s"fail_fast" else s"none".
(** Does the join end the wave, and with which error? *)
Definition note_join (node : NodeDef) (j : wave_join) (co : collected) : collected :=
  match j with
  | Reported (Ok (OSuccess _ _)) => note_outcome node j co
  | Reported _ => note_abort (note_outcome node j co)
  | Aborted =>
      if co_abort co then co
      else note_abort (note_error (EStep (SRefused (s"scheduler")
             (s"parallel task cancellation had no parent or fail-fast cause"))) co)
  | Panicked _ | JoinFailed _ => note_abort (note_error (join_task_error j) co)
  end.
(** The loop over the joins; the flag says that the run was cancelled. *)
Fixpoint collect (fuel : nat) (ts : list running) (co : collected) : EM (collected * bool) :=
  match ts, fuel with
  | [], _ => mret (co, false)
  | _, 0 => out_of_fuel
  | _, S fuel =>
      ts ← interleave ts;
      n ← ask;
      if ev_cancelled env n then
        co ← drain (length ts) (s"parent_cancellation")
               (if co_abort co then s"fail_fast" else s"parent_cancellation") ts co;
        mret (co, true)
      else
        match ts with
        | [] => mret (co, false)
        | r :: ts =>
            '(r, j, ts) ← join_next r ts;
            fact ← try_ (record_wave_join (ru_node r) j (fail_fast_cause co) (fail_fast_cause co));
            collect fuel ts (note_join (ru_node r) j (note_fact fact co))
        end
  end.

(** ** Starting *)

Definition start_node (node : NodeDef) : EM () :=
  _ ← run_checkpoint env cx;
  _ ← set_node (nd_id node) Running;
  event ByLoop (s"step_started")
    (obj [ (s"node", VString (nd_id node)); (s"type", VString (nd_kind node));
           (s"attempt", v_num 1); (s"parallel", VBool true) ]).
(** The started nodes, their tasks, what a failed start drained, its error. *)
Fixpoint start_wave (nodes started : list NodeDef) (ts : list running) :
    EM (list NodeDef * list running * collected * option EngineError) :=
  match nodes with
  | [] => mret (started, ts, collected_none, None)
  | node :: nodes =>
      ts ← interleave ts;
      r ← try_ (start_node node);
      match r with
      | Err e =>
          let cause := if is_canceled e then s"parent_cancellation" else s"wave_start_failure" in
          _ ← set_node (nd_id node) Pending;
          co ← drain (length ts) cause cause ts collected_none;
          mret (started, [], co, Some e)
      | Ok _ =>
          g ← the_engine;
          start_wave nodes (started ++ [node])
            (ts ++ [mkRunning node (first_task node) (eg_vars g)])
      end
  end.

(** ** Settling *)

Definition interrupted (node : NodeDef) (reason : str) : EM () :=
  _ ← set_node (nd_id node) Pending;
  event ByLoop (s"step_interrupted")
    (obj [ (s"node", VString (nd_id node)); (s"reason", VString reason); (s"parallel", VBool true) ]).
Definition parallel_mark : list (str * value) := [(s"parallel", VBool true)].
Definition status_payload (node : NodeDef) (status : str) : list (str * value) :=
  [(s"node", VString (nd_id node)); (s"status", VString status)].

(** The outcome of one node; the result is its terminal error. *)
Definition settle_report (node : NodeDef) (o : StepOutcome) : EM (list EngineError) :=
  match o with
  | OSuccess output files =>
      file_pins ← pin_attempt_files env files;
      _ ← publish_output node output;
      _ ← set_node (nd_id node) Success;
      _ ← event ByLoop (s"step_finished")
            (obj (status_payload node (s"success") ++
              [ (s"files", ser_pins file_pins); (s"output", v_opt id output);
                (s"output_name", VString (output_name_for node)) ] ++ parallel_mark));
      mret []
  | OCheckFailed findings output files =>
      let reason := failure_from_findings findings CheckFailed in
      file_pins ← pin_attempt_files env files;
      _ ← set_node (nd_id node) (FailedNode reason);
      _ ← event ByLoop (s"step_finished")
            (with_failed_evidence
              (obj (status_payload node (s"check_failed") ++
                [ (s"findings", ser_findings findings); (s"reason", ser_failure_detail reason) ]
                ++ parallel_mark)) output file_pins);
      mret []
  | ONeedsUser question files =>
      file_pins ← pin_attempt_files env files;
      _ ← event ByLoop (s"step_finished")
            (with_failed_evidence
              (obj (status_payload node (s"needs_user") ++
                [ (s"question", ser_form question); (s"files", ser_pins file_pins) ]
                ++ parallel_mark)) None []);
      mret [ENeedsUser (form_id question) question]
  | ONeedsConfirm confirm files =>
      file_pins ← pin_attempt_files env files;
      _ ← event ByLoop (s"confirm_request")
            (obj ([ (s"node", VString (nd_id node)); (s"confirm", ser_confirm confirm);
                    (s"files", ser_pins file_pins) ] ++ parallel_mark));
      mret [ENeedsConfirm (confirm_id confirm) confirm]
  end.
Definition settle_wave_node (hitl_pending : bool) (outcomes : bmap (result EngineError StepOutcome))
    (node : NodeDef) : EM (list EngineError) :=
  match bm_get (nd_id node) outcomes with
  | None =>
      _ ← interrupted node (s"parallel task did not report an outcome; effects unknown");
      mret []
  | Some (Ok o) => settle_report node o
  | Some (Err e) =>
      if hitl_pending && is_canceled e then
        _ ← interrupted node (s"parallel sibling canceled for user input; will resume");
        mret []
      else if is_resumable_agent e then
        _ ← interrupted node (s"agent failure defers to sequential re-entry; will resume");
        mret [e]
      else
        let reason := failure_detail_for_error e in
        _ ← set_node (nd_id node) (FailedNode reason);
        _ ← event ByLoop (s"step_finished")
              (obj (status_payload node (s"failed") ++
                [(s"reason", ser_failure_detail reason)] ++ parallel_mark));
        mret [e]
  end.
Fixpoint settle_wave (hitl_pending : bool) (outcomes : bmap (result EngineError StepOutcome))
    (nodes : list NodeDef) : EM (list EngineError) :=
  match nodes with
  | [] => mret []
  | node :: nodes =>
      errors ← settle_wave_node hitl_pending outcomes node;
      more ← settle_wave hitl_pending outcomes nodes;
      mret (errors ++ more)
  end.

Definition is_hitl (r : result EngineError StepOutcome) : bool :=
  match r with Ok (ONeedsUser _ _ | ONeedsConfirm _ _) => true | _ => false end.
(** [execute_parallel_wave]. *)
Definition execute_parallel_wave (nodes : list NodeDef) : EM () :=
  '(nodes, ts, co, start_error) ← start_wave nodes [] [];
  '(co, parent_cancelled) ← collect (length ts) ts co;
  _ ← of_result (co_fact co);
  errors ← settle_wave (existsb is_hitl (bm_values (co_outcomes co))) (co_outcomes co) nodes;
  if parent_cancelled : bool then raise ECanceled
  else match start_error with
       | Some e => raise e
       | None => of_result (combine_terminal_errors (co_errors co ++ errors))
       end.
End wave.
