(* ===== verification/EngineRepair.v ===== *)
(** * Repair, regeneration and elapsed time *)

From S2P Require Import Prelude Str TraceIds BMap Json ValueBag Serde Events RunState JournalWriter Graph EngineTypes EngineWorld EngineExecute.

#[local] Arguments s : simpl never.

(** ** Repair and regeneration

    [engine/src/engine/repair.rs]: the repair cycle of a node whose check
    failed, its regeneration, and the execution of a node by name. *)

(** A graph node under the path of a repair attempt. *)
Definition under_path (node : NodeDef) (path : str) : NodeDef :=
  mkNodeDef path (nd_kind node) (nd_needs node) (nd_when node) (nd_on_deps node) None
    (nd_on_fail node) (nd_retry node) (nd_params node).
Definition check_failed_value (findings : list Finding) : value :=
  obj [(s"status", VString (s"check_failed")); (s"findings", ser_findings findings)].
Section repair.
Context {W : WireTypes}.

(** Errors that leave a node open: a cancellation, a continuation of an agent,
    a question. *)
Definition propagates (e : EngineError) : bool :=
  is_canceled e || is_resumable_agent e || is_interaction e.

Context `{Sha256, Messages, !Forms}.
Variables (env : Environment) (cx : RunContext).
Notation event := (event env cx).

Definition sync_subtree (path : str) : EM () :=
  put (λ g, g <| eg_vars := sync_step_outcome_subtree (eg_vars g) (rs_vars (eg_state g)) path |>).

(** The records of an executed named node. *)
Definition finish_named (node : NodeDef) (graph_id : str) (o : StepOutcome) : EM () :=
  match o with
  | OSuccess output files =>
      file_pins ← pin_attempt_files env files;
      _ ← set_node graph_id Success;
      _ ← event ByRepair (s"step_finished")
            (obj (status_payload node (s"success") ++
              [ (s"files", ser_pins file_pins); (s"output", v_opt id output);
                (s"output_name", VString (output_name_for node)) ]));
      _ ← with_vars (λ vars, publish_step_output vars (nd_id node) (nd_output node) output (Some graph_id));
      sync_subtree (nd_id node)
  | OCheckFailed findings output files =>
      let reason := failure_from_findings findings CheckFailed in
      file_pins ← pin_attempt_files env files;
      _ ← set_node graph_id (FailedNode reason);
      _ ← event ByRepair (s"step_finished")
            (with_failed_evidence
              (obj (status_payload node (s"check_failed") ++
                [ (s"findings", ser_findings findings); (s"reason", ser_failure_detail reason) ]))
              output file_pins);
      sync_subtree (nd_id node)
  | ONeedsUser question files =>
      file_pins ← pin_attempt_files env files;
      event ByRepair (s"step_finished")
        (with_failed_evidence
          (obj (status_payload node (s"needs_user") ++
            [ (s"question", ser_form question); (s"files", ser_pins file_pins) ])) None [])
  | ONeedsConfirm confirm files =>
      file_pins ← pin_attempt_files env files;
      event ByRepair (s"confirm_request")
        (obj [ (s"node", VString (nd_id node)); (s"confirm", ser_confirm confirm);
               (s"files", ser_pins file_pins) ])
  end.

(** [execute_named_node]. *)
Definition execute_named_node (owner node_id : str) (attempt : Z) : EM StepOutcome :=
  match bm_get node_id (g_nodes (cx_graph cx)) with
  | None => raise (EStep (SFailed node_id (s"referenced node was not found")))
  | Some found =>
      let graph_id := nd_id found in
      let node := under_path found (repair_child owner attempt graph_id) in
      match bm_get (nd_id node) (replayed_steps (cx_replay cx)) with
      | Some replayed =>
          _ ← with_vars (λ vars,
                match rp_output replayed with
                | Some output => set_step_output (set_step_output vars (nd_id node) output) graph_id output
                | None => vars
                end);
          _ ← set_node graph_id Success;
          _ ← event ByRepair (s"step_replayed") (obj (status_payload node (rp_status replayed)));
          _ ← sync_subtree (nd_id node);
          mret (OSuccess (rp_output replayed) (map pin_path (rp_files replayed)))
      | None =>
          _ ← set_node graph_id Running;
          _ ← event ByRepair (s"step_started")
                (obj [ (s"node", VString (nd_id node)); (s"type", VString (nd_kind node));
                       (s"attempt", v_num attempt) ]);
          r ← try_ (execute_node_with_retry env cx node);
          match r with
          | Ok o => _ ← finish_named node graph_id o; mret o
          | Err e =>
              if propagates e then raise e
              else
                let reason := failure_detail_for_error e in
                _ ← set_node graph_id (FailedNode reason);
                _ ← event ByRepair (s"step_finished")
                      (obj (status_payload node (s"failed") ++
                        [(s"reason", ser_failure_detail reason)]));
                _ ← sync_subtree (nd_id node);
                raise e
          end
      end
  end.

(** The end of a repair attempt. *)
Definition attempt_finished (node : NodeDef) (attempt : Z) (status : str)
    (more : list (str * value)) : EM () :=
  event ByRepair (s"repair_attempt_finished")
    (obj ([ (s"node", VString (nd_id node)); (s"attempt", v_num attempt);
            (s"status", VString status) ] ++ more)).
(** A question of the repair or recheck node suspends the cycle. *)
Definition suspend_user {A} (node : NodeDef) (attempt : Z) (question : FormSpec) : EM A :=
  _ ← attempt_finished node attempt (s"needs_user") [(s"question", ser_form question)];
  raise (ENeedsUser (form_id question) question).
Definition suspend_confirm {A} (node : NodeDef) (attempt : Z) (confirm : ConfirmSpec) : EM A :=
  _ ← attempt_finished node attempt (s"needs_confirm") [(s"confirm", ser_confirm confirm)];
  raise (ENeedsConfirm (confirm_id confirm) confirm).

(** One attempt: repair, then recheck.  [inl] ends the cycle, [inr] is the
    reason the next attempt starts from. *)
Definition repair_attempt (failed : NodeDef) (repair recheck : str) (max_attempts attempt : Z) :
    EM (RepairCycleOutcome + FailureDetail) :=
  _ ← run_checkpoint env cx;
  _ ← event ByRepair (s"repair_attempt_started")
        (obj [ (s"node", VString (nd_id failed)); (s"repair", VString repair);
               (s"recheck", VString recheck); (s"attempt", v_num attempt);
               (s"max_attempts", v_num max_attempts) ]);
  repair_output ← execute_named_node (nd_id failed) repair attempt;
  match repair_output with
  | ONeedsUser question _ => suspend_user failed attempt question
  | ONeedsConfirm confirm _ => suspend_confirm failed attempt confirm
  | OCheckFailed findings _ _ =>
      let last_reason := failure_from_findings findings CheckFailed in
      _ ← attempt_finished failed attempt (s"repair_failed")
            [(s"reason", ser_failure_detail last_reason)];
      mret (inr last_reason)
  | OSuccess _ _ =>
      recheck_output ← execute_named_node (nd_id failed) recheck attempt;
      match recheck_output with
      | OSuccess output _ =>
          _ ← attempt_finished failed attempt (s"repaired") [];
          mret (inl (Repaired (Some (obj [ (s"status", VString (s"repaired"));
                                           (s"attempts", v_num attempt);
                                           (s"recheck", v_opt id output) ]))))
      | OCheckFailed findings _ _ =>
          _ ← with_vars (λ vars, set_step_output vars (nd_id failed) (check_failed_value findings));
          _ ← attempt_finished failed attempt (s"recheck_failed")
                [(s"findings", ser_findings findings)];
          mret (inr (failure_from_findings findings CheckFailed))
      | ONeedsUser question _ => suspend_user failed attempt question
      | ONeedsConfirm confirm _ => suspend_confirm failed attempt confirm
      end
  end.
Fixpoint repair_attempts (remaining : nat) (failed : NodeDef) (repair recheck : str)
    (max_attempts attempt : Z) (last_reason : FailureDetail) :
    EM (RepairCycleOutcome + FailureDetail) :=
  match remaining with
  | 0 => mret (inr last_reason)
  | S remaining =>
      r ← repair_attempt failed repair recheck max_attempts attempt;
      match r with
      | inl o => mret (inl o)
      | inr last_reason =>
          repair_attempts remaining failed repair recheck max_attempts (attempt + 1) last_reason
      end
  end.

Definition cycle_exhausted : NodeState :=
  SkippedNode (failure_new ExecutionFailed (s"repair cycle exhausted")).
Definition skip_cycle (repair recheck : str) : EM () :=
  _ ← set_node repair cycle_exhausted; set_node recheck cycle_exhausted.
Definition repair_exhausted (failed : NodeDef) (repair recheck : str) (max_attempts : Z)
    (last_reason : FailureDetail) (on_exhausted : ExhaustedAction) : EM RepairCycleOutcome :=
  _ ← skip_cycle repair recheck;
  match on_exhausted with
  | ExRoute to =>
      mret (Routed to
        (obj [ (s"routed_to", VString to); (s"status", VString (s"repair_exhausted"));
               (s"attempts", v_num max_attempts); (s"reason", ser_failure_detail last_reason) ]))
  | ExAskUser title fields =>
      let question := exhausted_question failed (s"repair") title fields in
      match bm_get (exhausted_id failed (s"repair")) (cx_answers cx) with
      | Some answer =>
          mret (Answered
            (obj [ (s"status", VString (s"repair_exhausted_answered"));
                   (s"attempts", v_num max_attempts); (s"answer", answer);
                   (s"reason", ser_failure_detail last_reason) ]))
      | None => raise (ENeedsUser (exhausted_id failed (s"repair")) question)
      end
  | ExFail =>
      mret (RepairFailed (failure_new RepairExhausted
        (s"repair cycle exhausted after " ++ show_uint max_attempts ++ s" attempt(s): "
         ++ fd_message last_reason)))
  end.

(** [execute_repair_cycle]. *)
Definition execute_repair_cycle (failed : NodeDef) (initial_findings : list Finding) :
    EM RepairCycleOutcome :=
  match nd_on_fail failed with
  | Some (Repair repair recheck max_attempts on_exhausted) =>
      if (max_attempts =? 0)%Z
      then mret (RepairFailed (failure_new RepairExhausted
                   (s"repair max_attempts must be greater than 0")))
      else
        _ ← with_vars (λ vars,
              set_step_output vars (nd_id failed) (check_failed_value initial_findings));
        r ← repair_attempts (Z.to_nat max_attempts) failed repair recheck max_attempts 1
              (failure_from_findings initial_findings CheckFailed);
        match r with
        | inl o => mret o
        | inr last_reason =>
            repair_exhausted failed repair recheck max_attempts last_reason on_exhausted
        end
  | _ => mret (RepairFailed (failure_new RepairExhausted
                 (s"repair cycle requested for non-repair on_fail")))
  end.

(** [execute_regenerate]: the last failed revision, or the first outcome that
    is not a failed check. *)
Fixpoint regenerate_attempts (remaining : nat) (node : NodeDef) (max_attempts attempt : Z)
    (last : list Finding * option value * list str) : EM StepOutcome :=
  match remaining with
  | 0 => let '(findings, output, files) := last in mret (OCheckFailed findings output files)
  | S remaining =>
      let finished status more :=
        event ByRepair (s"regenerate_attempt_finished")
          (obj ([ (s"node", VString (nd_id node)); (s"attempt", v_num attempt);
                  (s"status", VString status) ] ++ more)) in
      _ ← event ByRepair (s"regenerate_attempt_started")
            (obj [ (s"node", VString (nd_id node)); (s"attempt", v_num attempt);
                   (s"max_attempts", v_num max_attempts) ]);
      _ ← run_checkpoint env cx;
      o ← execute_node_with_retry env cx node;
      match o with
      | OCheckFailed findings output files =>
          _ ← with_vars (λ vars, set_step_output vars (nd_id node) (check_failed_value findings));
          _ ← finished (s"check_failed") [(s"findings", ser_findings findings)];
          regenerate_attempts remaining node max_attempts (attempt + 1) (findings, output, files)
      | OSuccess _ _ => _ ← finished (s"success") []; mret o
      | ONeedsUser _ _ | ONeedsConfirm _ _ => mret o
      end
  end.
Definition execute_regenerate (node : NodeDef) (max_attempts : Z) (initial_findings : list Finding) :
    EM StepOutcome :=
  if (max_attempts =? 0)%Z then mret (OCheckFailed initial_findings None [])
  else
    _ ← with_vars (λ vars, set_step_output vars (nd_id node) (check_failed_value initial_findings));
    regenerate_attempts (Z.to_nat max_attempts) node max_attempts 1 (initial_findings, None, []).
End repair.

(** ** Elapsed time

    [engine/src/engine/elapsed.rs] and [wall_elapsed] of [run.rs]: the ledger of
    active time in the journal, the episode an execution opens and closes, and
    the time a run has left.  Durations are nanoseconds, limits seconds. *)

Section elapsed.
Context {W : WireTypes}.

Definition invalid_elapsed (message : str) : EngineError :=
  EFailed (s"active elapsed accounting refused: " ++ message).
(** [nanos]: [u64::try_from(duration.as_nanos())]. *)
Definition nanos (duration : Z) : result EngineError Z :=
  if (duration <=? U64_MAX)%Z then Ok duration else Err (invalid_elapsed (s"nanoseconds overflow")).
Definition add_elapsed (total duration : Z) : result EngineError Z :=
  n ← nanos duration;
  ok_or (checked_add U64_MAX total n) (invalid_elapsed (s"active total overflow")).
(** [remaining]. *)
Definition remaining_elapsed (limit total : Z) : result EngineError Z :=
  let left := (limit * NANOS_PER_SEC - total)%Z in
  if (0 <? left)%Z then Ok left else Err (EStep (SElapsedExpiredBeforeStart limit total)).

(** [wall_elapsed]: the seconds left and the time used; [age] is the time since
    the durable start. *)
Definition FUTURE_TOLERANCE_SECS : Z := 5.
Definition NANOS_PER_MS : Z := 1000000.
Definition wall_elapsed (limit_secs : Z) (started_at : option str) (execution_started : bool)
    (age : str → option Z) : result EngineError (Z * Z) :=
  elapsed ← match started_at with
    | Some started =>
        match age started with
        | None => Err (EFailed (s"cannot parse durable budget start `" ++ started ++ s"`"))
        | Some delta =>
            if (Z.quot delta NANOS_PER_MS <? - FUTURE_TOLERANCE_SECS * 1000)%Z
            then Err (EFailed (s"durable budget start `" ++ started ++ s"` is more than "
                        ++ show_uint FUTURE_TOLERANCE_SECS ++ s"s in the future; refusing resume"))
            else Ok (Z.max 0 delta)
        end
    | None =>
        if execution_started
        then Err (EFailed (s"cannot safely resume: journal started execution without a durable budget start"))
        else Ok 0%Z
    end;
  Ok (Z.max 0 (limit_secs - elapsed / NANOS_PER_SEC), elapsed)%Z.

Context `{Sha256, Messages}.
Variables (env : Environment) (cx : RunContext).

Definition record_elapsed (total : Z) (anchor : option str) : EM () :=
  event env cx ByLoop (s"elapsed_accounted")
    (obj [(s"active_nanoseconds", v_num total); (s"active_started_at", v_opt VString anchor)]).

(** [recover]: an open interval is closed with the time since its anchor. *)
Definition recover : EM Z :=
  g ← the_engine;
  match bs_elapsed (rs_budget (eg_state g)) with
  | None => raise (invalid_elapsed (s"missing ledger"))
  | Some ledger =>
      match active_started_at ledger with
      | None => mret (active_nanoseconds ledger)
      | Some anchor =>
          n ← ask;
          match ev_age env n anchor with
          | None => raise (invalid_elapsed (s"invalid anchor"))
          | Some age =>
              if (age <? 0)%Z then raise (invalid_elapsed (s"wall clock moved backwards"))
              else
                total ← of_result (add_elapsed (active_nanoseconds ledger) age);
                _ ← record_elapsed total None;
                mret total
          end
      end
  end.

(** [Episode::open] and [Episode::close]. *)
Definition open_episode (total : Z) : EM () :=
  n ← ask;
  _ ← record_elapsed total (Some (now (ev_clock env n)));
  put (λ g, g <| eg_episode := Some (mkEpisode (ev_instant env n) total false) |>).
Definition close_episode : EM () :=
  g ← the_engine;
  match eg_episode g with
  | None => mret ()
  | Some ep =>
      if ep_closed ep then mret ()
      else
        n ← ask;
        total ← of_result (add_elapsed (ep_total ep) (Z.max 0 (ev_instant env n - ep_started ep)));
        _ ← record_elapsed total None;
        put (λ g, g <| eg_episode := Some (mkEpisode (ep_started ep) (ep_total ep) true) |>)
  end.
End elapsed.
