(* ===== verification/EngineRun.v ===== *)
(** * The run loop

    [engine/src/engine/run.rs]: hooks, the scan for ready nodes, the settlement
    of a node, the loop, the settlement of a run, and [run_inner] from the open
    journal on. *)

From S2P Require Import Prelude Str BMap Json Serde Events ValueBag ExprEval ExprParser RunState TraceIds JournalWriter Graph EngineTypes EngineWorld EngineExecute EngineRepair.

#[local] Arguments s : simpl never.

(** [HookDef::to_node], [HooksConfig::for_event]. *)
Definition hook_node_id (hook : HookDef) (event : str) : str :=
  s"hook." ++ event ++ s"." ++ hk_id hook.
Definition hook_to_node (hook : HookDef) (event : str) : NodeDef :=
  mkNodeDef (hook_node_id hook event) (hk_kind hook) [] None AllSucceeded None None (hk_retry hook)
    (hk_params hook).
Definition hooks_for_event (c : HooksConfig) (event : str) : list HookDef :=
  if event =s s"run_started" then hc_run_started c
  else if event =s s"run_succeeded" then hc_run_succeeded c
  else if event =s s"run_failed" then hc_run_failed c
  else if event =s s"step_failed" then hc_step_failed c
  else [].
Definition is_failure_settlement_event (event : str) : bool :=
  (event =s s"step_failed") || (event =s s"run_failed").
Definition hook_policy_name (p : HookErrorPolicy) : str :=
  match p with HookFail => s"fail" | HookWarn => s"warn" end.

Definition is_open_state (st : NodeState) : bool :=
  match st with Pending | Running => true | _ => false end.

Section run.
Context {W : WireTypes} `{Sha256, Messages, !Forms, CaseMapping}.
Variables (env : Environment) (cx : RunContext).
Notation event := (event env cx).

(** ** Hooks *)

Definition hook_record (kind : str) (node : NodeDef) (ev : str) (more : list (str * value)) : EM () :=
  event ByHook kind (obj ([(s"hook", VString (nd_id node)); (s"event", VString ev)] ++ more)).
Definition skip_hook (node : NodeDef) (ev : str) (e : EngineError) : EM () :=
  hook_record (s"hook_skipped") node ev
    [(s"reason", VString (s"budget")); (s"error", VString (engine_error_text e))].
Definition fail_hook (hook : HookDef) (node : NodeDef) (ev error : str) : EM () :=
  _ ← hook_record (s"hook_failed") node ev
        [(s"error", VString error); (s"policy", VString (hook_policy_name (hk_on_error hook)))];
  match hk_on_error hook with
  | HookWarn => mret ()
  | HookFail => raise (EFailed (s"hook `" ++ hk_id hook ++ s"` failed: " ++ error))
  end.

(** The records of an executed hook; the result is the reason it failed. *)
Definition finish_hook (node : NodeDef) (o : StepOutcome) : EM (option str) :=
  match o with
  | OSuccess output files =>
      file_pins ← pin_attempt_files env files;
      _ ← event ByHook (s"step_finished")
            (obj (status_payload node (s"success") ++
              [ (s"files", ser_pins file_pins); (s"output", v_opt id output);
                (s"output_name", VString (output_name_for node)) ]));
      _ ← publish_output node output;
      _ ← sync_live_outcomes;
      mret None
  | OCheckFailed findings output files =>
      let reason := failure_from_findings findings CheckFailed in
      file_pins ← pin_attempt_files env files;
      _ ← event ByHook (s"step_finished")
            (with_failed_evidence
              (obj (status_payload node (s"check_failed") ++
                [ (s"findings", ser_findings findings); (s"reason", ser_failure_detail reason) ]))
              output file_pins);
      _ ← sync_live_outcomes;
      mret (Some (fd_message reason))
  | ONeedsUser _ _ | ONeedsConfirm _ _ =>
      mret (Some (s"hook attempted to suspend the run; hooks must not suspend"))
  end.

(** A hook that is neither replayed nor settled. *)
Definition execute_hook (ev : str) (hook : HookDef) (node : NodeDef) : EM () :=
  _ ← event ByHook (s"step_started")
        (obj [ (s"node", VString (nd_id node)); (s"type", VString (nd_kind node));
               (s"attempt", v_num 1) ]);
  r ← try_ (execute_node_with_retry env cx node);
  match r with
  | Ok o =>
      failure ← finish_hook node o;
      match failure with
      | Some reason => fail_hook hook node ev reason
      | None => mret ()
      end
  | Err e =>
      if is_canceled e then raise e
      else if is_elapsed_exhaustion e && negb (is_failure_settlement_event ev) then raise e
      else if is_budget_exhaustion e
              || is_failure_settlement_event ev && is_elapsed_exhaustion e
      then skip_hook node ev e
      else fail_hook hook node ev (engine_error_text e)
  end.
Definition run_hook (ev : str) (hook : HookDef) : EM () :=
  _ ← sync_live_outcomes;
  let node := hook_to_node hook ev in
  match bm_get (nd_id node) (replayed_steps (cx_replay cx)) with
  | Some replayed =>
      _ ← with_vars (λ vars,
            match rp_output replayed with
            | Some output => set_step_output vars (nd_id node) output
            | None => vars
            end);
      event ByHook (s"step_replayed") (obj (status_payload node (rp_status replayed)))
  | None =>
      g ← the_engine;
      if bm_contains (nd_id node) (rs_hooks_settled (eg_state g))
      then hook_record (s"hook_replayed") node ev []
      else if is_failure_settlement_event ev then
        r ← try_ (run_checkpoint env cx);
        match r with
        | Ok _ => execute_hook ev hook node
        | Err e => if is_elapsed_exhaustion e then skip_hook node ev e else raise e
        end
      else execute_hook ev hook node
  end.
(** [run_hooks]. *)
Definition run_hooks (ev : str) : EM () := each (run_hook ev) (hooks_for_event (cx_hooks cx) ev).

(** * The scan for ready nodes *)

Definition skip_node (id : str) (reason : FailureDetail) : EM () :=
  _ ← set_node id (SkippedNode reason);
  event ByLoop (s"step_skipped")
    (obj [(s"node", VString id); (s"reason", ser_failure_detail reason)]).
(** One node of the scan: [Some node] is ready, and the flag says whether the
    scan settled it. *)
Definition scan_node (id : str) : EM (option NodeDef * bool) :=
  g ← the_engine;
  match bm_get id (eg_states g) with
  | Some Pending =>
      match bm_get id (g_nodes (cx_graph cx)) with
      | None => raise (EStep (SFailed (s"scheduler") (s"node `" ++ id ++ s"` disappeared")))
      | Some node =>
          match should_skip_by_dependencies node (eg_states g) with
          | Some reason => _ ← skip_node id reason; mret (None, true)
          | None =>
              if negb (needs_satisfied node (eg_states g)) then mret (None, false)
              else
                _ ← sync_live_outcomes;
                g ← the_engine;
                holds ← of_result (map_err (λ e, EExpr id (expr_error_text e))
                          (eval_bool_typed (eg_vars g) (nd_when node)));
                if negb holds then
                  _ ← skip_node id (failure_new WhenFalse
                        (s"when expression evaluated false: " ++ debug_when (nd_when node)));
                  mret (None, true)
                else match bm_get id (replayed_steps (cx_replay cx)) with
                | Some replayed =>
                    _ ← publish_output node (rp_output replayed);
                    _ ← set_node id Success;
                    _ ← event ByLoop (s"step_replayed")
                          (obj [(s"node", VString id); (s"status", VString (rp_status replayed))]);
                    mret (None, true)
                | None => mret (Some node, false)
                end
          end
      end
  | _ => mret (None, false)
  end.
Fixpoint scan (ids : list str) (ready : list NodeDef) (progressed : bool) :
    EM (list NodeDef * bool) :=
  match ids with
  | [] => mret (ready, progressed)
  | id :: ids =>
      '(node, settled) ← scan_node id;
      scan ids (ready ++ match node with Some node => [node] | None => [] end) (progressed || settled)
  end.

(** ** Settling a node *)

(** [step_finished] of a node that continues with an output. *)
Definition settle_success (node : NodeDef) (status : str) (more : list (str * value))
    (output : option value) (evidence : option (option value * list FilePin)) : EM () :=
  let payload := obj (status_payload node status ++ more ++
        [(s"output", v_opt id output); (s"output_name", VString (output_name_for node))]) in
  _ ← publish_output node output;
  _ ← set_node (nd_id node) Success;
  event ByLoop (s"step_finished")
    match evidence with
    | Some (failed_output, failed_files) => with_failed_evidence payload failed_output failed_files
    | None => payload
    end.
Definition settle_failure (node : NodeDef) (status : str) (more : list (str * value))
    (reason : FailureDetail) (failed_output : option value) (failed_files : list FilePin) : EM () :=
  _ ← set_node (nd_id node) (FailedNode reason);
  event ByLoop (s"step_finished")
    (with_failed_evidence
      (obj (status_payload node status ++ more ++ [(s"reason", ser_failure_detail reason)]))
      failed_output failed_files).
(** [step_finished] of a node that asks. *)
Definition suspend_question {A} (node : NodeDef) (question : FormSpec) (more : list (str * value))
    (failed_output : option value) (failed_files : list FilePin) : EM A :=
  _ ← event ByLoop (s"step_finished")
        (with_failed_evidence
          (obj (status_payload node (s"needs_user") ++ [(s"question", ser_form question)] ++ more))
          failed_output failed_files);
  raise (ENeedsUser (form_id question) question).
Definition suspend_confirmation {A} (node : NodeDef) (confirm : ConfirmSpec) (files : list str) : EM A :=
  file_pins ← pin_attempt_files env files;
  _ ← event ByLoop (s"confirm_request")
        (obj [ (s"node", VString (nd_id node)); (s"confirm", ser_confirm confirm);
               (s"files", ser_pins file_pins) ]);
  raise (ENeedsConfirm (confirm_id confirm) confirm).
Definition suspend_user_files {A} (node : NodeDef) (question : FormSpec) (files : list str) : EM A :=
  file_pins ← pin_attempt_files env files;
  suspend_question node question [(s"files", ser_pins file_pins)] None [].

Definition settle_repaired (node : NodeDef) (o : RepairCycleOutcome) (failed_output : option value)
    (pins : list FilePin) : EM () :=
  match o with
  | Repaired output =>
      settle_success node (s"repaired") [] output (Some (failed_output, pins))
  | Routed to output =>
      settle_success node (s"routed") [(s"to", VString to)] (Some output) (Some (failed_output, pins))
  | Answered output =>
      settle_success node (s"answered_on_fail") [] (Some output) (Some (failed_output, pins))
  | RepairFailed reason =>
      settle_failure node (s"repair_exhausted") [] reason failed_output pins
  end.

(** [OnFail::Regenerate] after its attempts. *)
Definition settle_exhausted (node : NodeDef) (on_exhausted : ExhaustedAction)
    (findings : list Finding) (output : option value) (pins : list FilePin) : EM () :=
  match on_exhausted with
  | ExFail =>
      settle_failure node (s"regenerate_exhausted") [(s"findings", ser_findings findings)]
        (failure_from_findings findings CheckFailed) output pins
  | ExRoute to =>
      settle_success node (s"routed") [(s"to", VString to)]
        (Some (obj [ (s"status", VString (s"regenerate_exhausted")); (s"routed_to", VString to);
                     (s"findings", ser_findings findings) ]))
        (Some (output, pins))
  | ExAskUser title fields =>
      let question := exhausted_question node (s"regenerate") title fields in
      match bm_get (exhausted_id node (s"regenerate")) (cx_answers cx) with
      | Some answer =>
          settle_success node (s"answered_on_fail") [(s"answer", answer)]
            (Some (obj [ (s"status", VString (s"regenerate_exhausted_answered"));
                         (s"answer", answer); (s"findings", ser_findings findings) ]))
            (Some (output, pins))
      | None =>
          suspend_question node question [(s"findings", ser_findings findings)] output pins
      end
  end.
Definition settle_regenerated (node : NodeDef) (on_exhausted : ExhaustedAction) (o : StepOutcome) :
    EM () :=
  match o with
  | OSuccess output files =>
      file_pins ← pin_attempt_files env files;
      settle_success node (s"regenerated") [(s"files", ser_pins file_pins)] output None
  | OCheckFailed findings output files =>
      regen_pins ← pin_attempt_files env files;
      settle_exhausted node on_exhausted findings output regen_pins
  | ONeedsUser question files => suspend_user_files node question files
  | ONeedsConfirm confirm files => suspend_confirmation node confirm files
  end.

(** A node whose check failed. *)
Definition settle_check_failed (node : NodeDef) (findings : list Finding) (output : option value)
    (files : list str) : EM () :=
  let reason := failure_from_findings findings CheckFailed in
  pins ← pin_attempt_files env files;
  match nd_on_fail node with
  | Some (Repair _ _ _ _) =>
      o ← execute_repair_cycle env cx node findings;
      settle_repaired node o output pins
  | Some (Route to) =>
      settle_success node (s"routed") [(s"to", VString to); (s"findings", ser_findings findings)]
        (Some (obj [ (s"routed_to", VString to); (s"findings", ser_findings findings);
                     (s"failed_output", v_opt id output); (s"failed_files", ser_pins pins) ]))
        (Some (output, pins))
  | Some AskUser =>
      let question := on_fail_question node in
      match bm_get (on_fail_id node) (cx_answers cx) with
      | Some answer =>
          settle_success node (s"answered_on_fail") [(s"answer", answer)]
            (Some (obj [(s"answer", answer); (s"findings", ser_findings findings)]))
            (Some (output, pins))
      | None => suspend_question node question [(s"findings", ser_findings findings)] output pins
      end
  | Some (Regenerate max_attempts on_exhausted) =>
      o ← execute_regenerate env cx node max_attempts findings;
      settle_regenerated node on_exhausted o
  | Some FailNode | None =>
      settle_failure node (s"check_failed") [(s"findings", ser_findings findings)] reason output pins
  end.
Definition settle_outcome (node : NodeDef) (o : StepOutcome) : EM () :=
  match o with
  | OSuccess output files =>
      file_pins ← pin_attempt_files env files;
      _ ← set_node (nd_id node) Success;
      _ ← event ByLoop (s"step_finished")
            (obj (status_payload node (s"success") ++
              [ (s"files", ser_pins file_pins); (s"output", v_opt id output);
                (s"output_name", VString (output_name_for node)) ]));
      _ ← publish_output node output;
      sync_live_outcomes
  | OCheckFailed findings output files => settle_check_failed node findings output files
  | ONeedsUser question files => suspend_user_files node question files
  | ONeedsConfirm confirm files => suspend_confirmation node confirm files
  end.

(** ** One round *)

(** How a round continues: the stall check, the next round, or the settlement
    of the run; with the first distinct error so far. *)
Inductive flow : Type :=
| Checked (progressed : bool) (first : option EngineError)
| Again (first : option EngineError)
| Leave (first : option EngineError).
Definition keep_first (first : option EngineError) (e : EngineError) : option EngineError :=
  match first with Some _ => first | None => Some e end.

Definition run_wave (ready : list NodeDef) (first : option EngineError) : EM flow :=
  _ ← sync_live_outcomes;
  r ← try_ (execute_parallel_wave env cx ready);
  match r with
  | Ok _ => mret (Checked true first)
  | Err e =>
      g ← the_engine;
      if negb (bool_decide (rs_unresolved_tasks (eg_state g) = [])) || propagates e then raise e
      else if is_budget_exhaustion e || is_elapsed_exhaustion e
      then mret (Leave (keep_first first e))
      else mret (Checked true (if is_distinct_execution_error e then keep_first first e else first))
  end.
Definition run_single (node : NodeDef) (first : option EngineError) : EM flow :=
  _ ← run_checkpoint env cx;
  _ ← sync_live_outcomes;
  _ ← set_node (nd_id node) Running;
  _ ← event ByLoop (s"step_started")
        (obj [ (s"node", VString (nd_id node)); (s"type", VString (nd_kind node));
               (s"attempt", v_num 1) ]);
  r ← try_ (execute_node_with_retry env cx node);
  match r with
  | Ok o => _ ← settle_outcome node o; mret (Checked true first)
  | Err e =>
      if propagates e then raise e
      else
        let reason := failure_detail_for_error e in
        _ ← set_node (nd_id node) (FailedNode reason);
        _ ← event ByLoop (s"step_finished")
              (obj (status_payload node (s"failed") ++ [(s"reason", ser_failure_detail reason)]));
        if is_budget_exhaustion e || is_elapsed_exhaustion e
        then mret (Leave (keep_first first e))
        else mret (Again (if is_distinct_execution_error e then keep_first first e else first))
  end.
(** [is_parallel_safe_node]. *)
Definition is_parallel_safe_node (node : NodeDef) : bool :=
  match nd_on_fail node with
  | None => match cx_traits cx (nd_kind node) with Some t => tr_parallel_safe t | None => false end
  | Some _ => false
  end.
Definition takes_wave (ready : list NodeDef) : bool :=
  bool_decide (1 < length ready) && bool_decide (length ready ≤ Nat.max 1 (cx_max_parallel cx))
  && forallb is_parallel_safe_node ready.
Definition round (first : option EngineError) : EM flow :=
  n ← ask;
  if ev_cancelled env n then raise ECanceled
  else
    n ← ask;
    if ev_yield env n then
      _ ← run_checkpoint env cx;
      _ ← close_episode env cx;
      _ ← event ByLoop (s"run_yielded") (obj []);
      raise EYielded
    else
      '(ready, progressed) ← scan (g_order (cx_graph cx)) [] false;
      if takes_wave ready then run_wave ready first
      else match ready with
           | node :: _ => run_single node first
           | [] => mret (Checked progressed first)
           end.

(** The loop: it ends with the first distinct error when the run can settle. *)
Fixpoint loop (fuel : nat) (first : option EngineError) : EM (option EngineError) :=
  match fuel with
  | 0 => out_of_fuel
  | S fuel =>
      f ← round first;
      match f with
      | Again first => loop fuel first
      | Leave first => mret first
      | Checked progressed first =>
          g ← the_engine;
          if forallb (λ st, negb (is_open_state st)) (bm_values (eg_states g)) then mret first
          else if progressed then loop fuel first
          else raise_anomaly Stalled (EStep (SFailed (s"scheduler") (s"no runnable node remains")))
      end
  end.
End run.
