(* ===== verification/EngineInner.v ===== *)
(** * A run from its journal to its settlement

    [run_inner] and the settlement of [engine/src/engine/run.rs], from the open
    journal on: what is checked before anything is written, the identity and
    resume records, the node states a resumed run starts from, the loop, the
    failure or success of the run, and the closing of the episode.

    The hashes of resources, the verification of checkpointed files with the
    placement of input files, and the collection of outputs are answers of the
    environment.  Validation of the contract, the construction of the gateways,
    host cgroups and the sweep of stale files are left out. *)

From S2P Require Import Prelude Str BMap Json Serde Events ValueBag ExprEval RunState TraceIds JournalWriter Graph EngineTypes EngineWorld EngineExecute EngineRepair EngineRun.

#[local] Arguments s : simpl never.

Section inner.
Context {W : WireTypes} `{Sha256, Messages, !Forms, CaseMapping}.
Variables (env : Environment) (cx : RunContext).
Notation event := (event env cx).

(** ** Settlement *)

(** [RunNodeFailureEventData]. *)
Definition node_failure : Type := str * FailureDetail.
Definition ser_node_failure (f : node_failure) : value :=
  obj [(s"path", VString f.1); (s"failure", ser_failure_detail f.2)].
Definition failed_nodes (states : bmap NodeState) : list node_failure :=
  omap (λ '(id, st), match st with FailedNode reason => Some (id, reason) | _ => None end) states.
(** An overrun found before a failure is recorded is a further failure. *)
Definition elapsed_failure (r : result EngineError ()) : list node_failure :=
  match r with
  | Err (EStep (SElapsedExceeded _ limit_secs _ | SElapsedExpiredBeforeStart limit_secs _) as e) =>
      let d := failure_detail_for_error e in
      [(s"runtime",
        mkFailureDetail (fd_code d)
          (s"run elapsed budget exceeded before finalization (limit " ++ show_uint limit_secs ++ s"s)")
          (fd_dependencies d) (fd_exhaustion d))]
  | _ => []
  end.
Definition hook_failure (ev : str) (r : result EngineError ()) : list node_failure :=
  match r with
  | Err e =>
      let d := failure_detail_for_error e in
      [(s"hook." ++ ev,
        mkFailureDetail ExecutionFailed (fd_message d) (fd_dependencies d) (fd_exhaustion d))]
  | Ok _ => []
  end.

Definition settle_failed {A} (failed : list node_failure) (first : option EngineError) : EM A :=
  _ ← with_vars (λ vars, set_step_output vars (s"hook_failures")
        (obj [(s"failures", VArray (map ser_node_failure failed))]));
  r_step ← try_ (run_hooks env cx (s"step_failed"));
  r_run ← try_ (run_hooks env cx (s"run_failed"));
  let failed := failed ++ hook_failure (s"step_failed") r_step ++ hook_failure (s"run_failed") r_run in
  _ ← close_episode env cx;
  _ ← event ByLoop (s"run_finished")
        (obj [ (s"status", VString (s"failed"));
               (s"failures", VArray (map ser_node_failure failed)) ]);
  raise match first with
        | Some e => e
        | None => EFailed (join (s"; ") (map (λ f, f.1 ++ s": " ++ fd_message f.2) failed))
        end.
Definition settle_succeeded : EM (list value) :=
  _ ← run_checkpoint env cx;
  _ ← run_hooks env cx (s"run_succeeded");
  _ ← sync_live_outcomes;
  n ← ask;
  g ← the_engine;
  artifacts ← of_result (ev_outputs env n (eg_vars g));
  _ ← each (event ByLoop (s"artifact")) artifacts;
  _ ← close_episode env cx;
  _ ← event ByLoop (s"run_finished") (obj [(s"status", VString (s"success"))]);
  mret artifacts.
Definition settle_run (first : option EngineError) : EM (list value) :=
  g ← the_engine;
  match failed_nodes (eg_states g) with
  | [] => settle_succeeded
  | failed =>
      r ← try_ (run_checkpoint env cx);
      settle_failed (failed ++ elapsed_failure r) first
  end.

(** ** Entering *)

Definition resumes : bool := rs_execution_started (cx_replay cx).
(** The states the loop starts from: a durable success is replayed by the loop
    itself. *)
Definition replayed_state (o : option NodeOutcome) : NodeState :=
  match o with
  | Some (NodeSkipped reason) => SkippedNode reason
  | Some (NodeFailed reason) => FailedNode reason
  | Some (NodeSuccess _ _) | None => Pending
  end.
Definition replayed_states (st : RunState) : bmap NodeState :=
  map (λ '(id, _), (id, replayed_state (bm_get id (rs_nodes st)))) (g_nodes (cx_graph cx)).
(** A foreach node whose question was answered is entered again. *)
Definition is_answered (fact : value) : bool :=
  match as_str (index (s"question_id") fact) with
  | Some id => bm_contains id (cx_answers cx) | None => false end
  || match as_str (index (s"confirm_id") fact) with
     | Some id => bm_contains id (cx_confirmations cx) | None => false end.
Definition reenter (states : bmap NodeState) (fact : value) : bmap NodeState :=
  if is_answered fact then
    match as_str (index (s"node") fact) with
    | Some parent =>
        map (λ '(id, st), (id, if (parent =s id) || starts_with parent (id ++ s"[")
                               then Pending else st)) states
    | None => states
    end
  else states.
Definition initial_states : bmap NodeState :=
  foldl reenter (replayed_states (cx_replay cx)) (bm_values (rs_foreach_reports (cx_replay cx))).
Definition initial_executed : Z :=
  let b := rs_budget (cx_replay cx) in
  if bs_has_budget_charges b then bs_budget_charged b else bs_steps_executed b.

(** A saved question nobody answered is asked again. *)
Definition saved_question (i : Interaction) : option EngineError :=
  match i with
  | Question question =>
      if bm_contains (form_id question) (cx_answers cx) then None
      else Some (ENeedsUser (form_id question) question)
  | Confirmation confirm =>
      if bm_contains (confirm_id confirm) (cx_confirmations cx) then None
      else Some (ENeedsConfirm (confirm_id confirm) confirm)
  end.
(** An unreported task may only be repeated when its executor declares that. *)
Definition may_repeat (owner : str) (fact : value) : bool :=
  match as_str (index (s"node") fact) with
  | Some id =>
      if id =s owner then
        match bm_get id (g_nodes (cx_graph cx)) ≫= λ node, cx_traits cx (nd_kind node) with
        | Some t => tr_replay_safe t
        | None => false
        end
      else false
  | None => false
  end.
Definition authorize (task : str * value) : EM () :=
  let '(owner, fact) := task in
  event ByLoop (s"parallel_replay_authorized")
    (obj [ (s"node", index (s"node") fact); (s"owner", VString owner);
           (s"scope", VString (s"interrupted_task"));
           (s"authorization", VString (s"StepExecutor.replay_safe_after_interruption"));
           (s"executor", v_opt (λ node, VString (nd_kind node)) (bm_get owner (g_nodes (cx_graph cx))));
           (s"unresolved_seq", index (s"seq") fact) ]).
Definition authorize_unresolved : EM () :=
  let tasks := rs_unresolved_tasks (cx_replay cx) in
  match List.find (λ '(owner, fact), negb (may_repeat owner fact)) tasks with
  | Some (owner, _) =>
      raise (EStep (SRefused owner (s"unreported task `" ++ owner
        ++ s"` has unknown effects; guarded replay is not attributable to this owner")))
  | None => each authorize tasks
  end.

Definition run_mode : ElapsedBudgetMode :=
  let b := rs_budget (cx_replay cx) in
  if bool_decide (is_Some (bs_started_at b)) then bs_elapsed_budget_mode b else cx_mode cx.
Definition run_started (inputs : bmap value) (resources : list value) (more : list (str * value)) :
    EM () :=
  event ByLoop (s"run_started")
    (obj (cx_identity cx ++
      [ (s"contract_sha256", VString (cx_contract_sha256 cx)); (s"inputs", VObject inputs);
        (s"resource_hashes", VArray resources); (s"schema_version", v_num JOURNAL_SCHEMA_VERSION);
        (s"elapsed_budget_mode", VString (enum_name elapsed_budget_modes run_mode)) ] ++ more)).

(** The inputs of the run: the durable ones win. *)
Definition canonical_inputs : result EngineError (bmap value) :=
  match rs_inputs (cx_replay cx) with
  | Some inputs => Ok inputs
  | None =>
      if resumes || negb (bool_decide (replayed_steps (cx_replay cx) = []))
      then Err (EFailed (s"cannot safely resume run `" ++ cx_run_id cx
                  ++ s"`: journal has no durable inputs"))
      else Ok (cx_inputs cx)
  end.
(** The records of a run that starts. *)
Definition begin_records (inputs : bmap value) (resources : list value) : EM () :=
  if resumes then mret ()
  else
    g ← the_engine;
    _ ← (if rs_execution_started (eg_state g) then mret ()
         else run_started inputs resources
                [ (s"run_id", VString (cx_run_id cx));
                  (s"parallel_compatibility", VString (s"fail_fast"));
                  (s"parallel_compatibility_origin", VString (s"deployment_policy")) ]);
    _ ← each (event ByLoop (s"resource")) resources;
    event ByLoop (s"graph_resolved")
      (obj [(s"nodes", VArray (map VString (g_order (cx_graph cx))))]).

(** The block of [run_inner] between opening and closing the episode. *)
Definition run_block (deadline : result EngineError ()) (fuel : nat) : EM (list value) :=
  _ ← of_result deadline;
  inputs ← of_result canonical_inputs;
  n ← ask;
  resources ← of_result (ev_resources env n);
  _ ← begin_records inputs resources;
  n ← ask;
  materialized ← of_result (ev_prepare env n);
  match omap saved_question (bm_values (rs_pending_interactions (cx_replay cx))) with
  | e :: _ => raise e
  | [] =>
      _ ← (if resumes
           then event ByLoop (s"run_resumed") (obj [(s"run_id", VString (cx_run_id cx))])
           else mret ());
      _ ← put (λ g,
            g <| eg_vars := if resumes then set_inputs (rs_vars (cx_replay cx)) materialized
                            else with_inputs materialized |>
              <| eg_executed := initial_executed |>
              <| eg_states := initial_states |>);
      _ ← authorize_unresolved;
      _ ← run_hooks env cx (s"run_started");
      first ← loop env cx fuel None;
      settle_run first
  end.

(** What is refused before anything is written. *)
Definition entry_check : result EngineError () :=
  let st := cx_replay cx in
  match ensure_no_fail_closed_inflight_operations st with
  | Some id => Err (EFailed id)
  | None =>
      if match rs_run_id st with Some existing => negb (existing =s cx_run_id cx) | None => false end
      then Err (EFailed (s"run id mismatch"))
      else if match rs_contract_sha256 st with
              | Some expected => negb (expected =s cx_contract_sha256 cx) | None => false end
      then Err (EFailed (s"contract changed while resuming run `" ++ cx_run_id cx ++ s"`"))
      else Ok ()
  end.
(** The deadline of the run; an episode opens in the active mode. *)
Definition open_elapsed : EM (result EngineError ()) :=
  if bool_decide (run_mode = ActiveExecution) then
    total ← recover env cx;
    _ ← match cx_elapsed_limit cx with
        | Some limit => _ ← of_result (remaining_elapsed limit total); mret ()
        | None => mret ()
        end;
    _ ← open_episode env cx total;
    mret (Ok ())
  else
    n ← ask;
    mret match cx_elapsed_limit cx with
         | Some limit =>
             _ ← wall_elapsed limit (bs_started_at (rs_budget (cx_replay cx))) resumes (ev_age env n);
             Ok ()
         | None => Ok ()
         end.
Definition run_inner (fuel : nat) : EM (list value) :=
  _ ← of_result entry_check;
  _ ← (if bool_decide (run_mode = ActiveExecution)
          && negb (bool_decide (is_Some (bs_started_at (rs_budget (cx_replay cx)))))
       then run_started (cx_inputs cx) [] [] else mret ());
  deadline ← open_elapsed;
  r ← try_ (run_block deadline fuel);
  _ ← close_episode env cx;
  of_result r.
End inner.
