(* ===== verification/EngineFold.v ===== *)
(** * What a record does to the outcomes of nodes

    The two parts of the run state the loop relies on: the outcome of a node
    ([rs_nodes]) and the tasks that ended without a report
    ([rs_unresolved_tasks]).  Each record touches them for one node at most, its
    [subject]. *)

From S2P Require Import Prelude Str BMap Json ValueBag PathPolicy Serde Events RunState RunStateEffect AuditRules TraceIds JournalFile JournalWriter Graph EngineTypes EngineWorld.

#[local] Arguments s : simpl never.

Definition settling_kinds : list str := [s"step_finished"; s"step_skipped"; s"confirm_request"].
Definition foreach_kinds : list str := [s"foreach_sibling_drained"; s"foreach_iteration_settled"].
(** The node whose outcome or task a record is about. *)
Definition subject (kind : str) (event : value) : option str :=
  if kind_in kind foreach_kinds then get_str (s"iteration") event
  else if kind_in kind (s"parallel_task_joined" :: settling_kinds) then get_str (s"node") event
  else None.

Section fold.
Context {W : WireTypes}.
Implicit Types (st : RunState) (event : value).

Definition node_of st (id : str) : option NodeOutcome := bm_get id (rs_nodes st).
(** A task of the node ended without a report. *)
Definition unreported st (id : str) : Prop :=
  ∃ fact, bm_get id (rs_unresolved_tasks st) = Some fact ∧ as_str (index (s"node") fact) = Some id.
Definition outcomes_of st : bmap NodeOutcome * bmap value := (rs_nodes st, rs_unresolved_tasks st).
(** Nothing about [id] is lost. *)
Definition keeps_node st st' (id : str) : Prop :=
  node_of st' id = node_of st id ∧ (unreported st id → unreported st' id).

Lemma keeps_unchanged st st' id : outcomes_of st' = outcomes_of st → keeps_node st st' id.
Proof. unfold keeps_node, node_of, unreported. intros [= -> ->]. done. Qed.

Ltac fold_inv :=
  repeat match goal with
  | E : mbind _ _ = Ok _ |- _ => apply result_bind_Ok in E as (? & ? & E)
  | E : Ok _ = Ok _ |- _ => injection E as E; subst
  | E : Err _ = Ok _ |- _ => discriminate E
  | E : invalid _ = Ok _ |- _ => discriminate E
  | E : ok_or_invalid _ _ = Ok _ |- _ => apply ok_or_Ok in E
  | E : (if ?b then _ else _) = Ok _ |- _ => destruct b eqn:?
  | E : (match ?o with Some _ => _ | None => _ end) = Ok _ |- _ => destruct o eqn:?
  end; cbn zeta in *.

Lemma note_outcomes st kind event : outcomes_of (note_search_cost st kind event) = outcomes_of st.
Proof. unfold note_search_cost. by case_if. Qed.
Lemma project_outcomes st : outcomes_of (project_interaction st) = outcomes_of st.
Proof. unfold project_interaction. by repeat case_match. Qed.
Lemma install_outcomes st st' event b :
  install_interaction st event b = Ok st' → outcomes_of st' = outcomes_of st.
Proof. unfold install_interaction. intros Hi. fold_inv; [|done..]. by rewrite project_outcomes. Qed.
Lemma retire_outcomes st path : outcomes_of (retire_interaction st path) = outcomes_of st.
Proof.
  unfold retire_interaction. cbn zeta.
  by repeat case_match.
Qed.

(** ** The arms *)

(** The outcome [step_finished] leaves for its node. *)
Definition outcome_of_status (status : str) (o o' : option NodeOutcome) : Prop :=
  if is_suspended_status status then o' = o
  else if is_success_status status then ∃ output files, o' = Some (NodeSuccess output files)
  else ∃ reason, o' = Some (NodeFailed reason).
Definition stays (path status owner : str) (fact : value) : bool :=
  negb (owner =s path)
  && negb (is_success_status status && bool_decide (as_str (index (s"node") fact) = Some path)).

Lemma pins_outcomes st files : outcomes_of (apply_workspace_file_pins st files) = outcomes_of st.
Proof. by rewrite workspace_pins_eq. Qed.
Lemma settled_outcomes st st' event path status files :
  (if is_success_status status then step_succeeded st event path files
   else if negb (is_suspended_status status) then step_failed st event path status else Ok st) = Ok st' →
  rs_unresolved_tasks st' = rs_unresolved_tasks st ∧
  (∀ id, id ≠ path → node_of st' id = node_of st id) ∧
  outcome_of_status status (node_of st path) (node_of st' path).
Proof.
  unfold outcome_of_status, node_of. destruct (is_success_status status) eqn:Es.
  - destruct (is_suspended_status status) eqn:Eu; [apply suspended_not_success in Eu; congruence|].
    unfold step_succeeded. intros Hs. fold_inv.
    split; [done|]. split; [intros id Hid; by apply bm_get_insert_ne|].
    eexists _, _. apply bm_get_insert_eq.
  - destruct (is_suspended_status status); cbn [negb]; [by intros [= <-]|].
    unfold step_failed. intros Hs. fold_inv. split; [done|].
    split; [intros id Hid; by apply bm_get_insert_ne|]. eexists. apply bm_get_insert_eq.
Qed.
Lemma execution_outcomes st st' path :
  record_node_execution st path = Ok st' → outcomes_of st' = outcomes_of st.
Proof. unfold record_node_execution. intros Hr. by fold_inv. Qed.

Lemma finished_outcomes st st' event :
  apply_step_finished st event = Ok st' → ∃ path status,
    get_str (s"node") event = Some path ∧ get_str (s"status") event = Some status ∧
    rs_unresolved_tasks st' =
      bm_retain (stays path status) (rs_unresolved_tasks st) ∧
    (∀ id, id ≠ path → node_of st' id = node_of st id) ∧
    outcome_of_status status (node_of st path) (node_of st' path).
Proof.
  unfold apply_step_finished. intros Hf.
  apply result_bind_Ok in Hf as (path & Hp%ok_or_Ok & Hf).
  apply result_bind_Ok in Hf as (status & Hs%ok_or_Ok & Hf).
  apply result_bind_Ok in Hf as (files & _ & Hf). apply result_bind_Ok in Hf as (failed & _ & Hf).
  cbn zeta in Hf. apply result_bind_Ok in Hf as (st3 & Hi & Hf).
  apply result_bind_Ok in Hf as (st4 & H4 & Hf). exists path, status. split; [done|]. split; [done|].
  apply settled_outcomes in H4 as (Hu & Hn & Ho).
  assert (E5 : outcomes_of st' = outcomes_of st4).
  { case_if in Hf; [|by injection Hf as <-].
    apply execution_outcomes in Hf. rewrite Hf, retire_outcomes. done. }
  set (st2 := if is_success_status status || is_suspended_status status
              then apply_workspace_file_pins _ files else _) in Hi.
  assert (E2 : outcomes_of st2 = (rs_nodes st,
    bm_retain (stays path status) (rs_unresolved_tasks st))).
  { unfold st2. case_if; [rewrite pins_outcomes|]; done. }
  assert (E3 : outcomes_of st3 = outcomes_of st2).
  { case_if in Hi; [by eapply install_outcomes | by injection Hi as <-]. }
  rewrite E2 in E3. unfold node_of in *. injection E5 as En5 Eu5. injection E3 as En3 Eu3.
  rewrite En5, Eu5, Hu, Eu3. rewrite En3 in *. done.
Qed.

Lemma bm_get_retain_keep {V} (f : str → V → bool) k v (m : bmap V) :
  bm_get k m = Some v → f k v = true → bm_get k (bm_retain f m) = Some v.
Proof.
  intros Hg Hf. induction m as [|[k' v'] m IH]; cbn in Hg |- *; [done|].
  destruct (str_eqb_spec k k') as [<-|Hk].
  - injection Hg as ->. rewrite Hf. cbn. by rewrite str_eqb_refl.
  - destruct (f k' v'); cbn; [|by apply IH]. destruct (str_eqb_spec k k'); [done|]. by apply IH.
Qed.
Lemma unreported_insert st st' id owner fact :
  rs_unresolved_tasks st' = bm_insert owner fact (rs_unresolved_tasks st) → id ≠ owner →
  unreported st id → unreported st' id.
Proof.
  unfold unreported. intros -> Hid (f & Hf & Hn). exists f.
  split; [by rewrite bm_get_insert_ne | done].
Qed.
Lemma finished_keeps st st' event id :
  apply_step_finished st event = Ok st' → get_str (s"node") event ≠ Some id → keeps_node st st' id.
Proof.
  intros (path & status & Hp & _ & Hu & Hn & _)%finished_outcomes Hid. rewrite Hp in Hid.
  assert (Hne : id ≠ path) by congruence. split; [by apply Hn|].
  intros (fact & Hf & Hfn). exists fact. split; [|done]. rewrite Hu.
  apply bm_get_retain_keep; [done|]. unfold stays. destruct (str_eqb_spec id path); [done|].
  rewrite bool_decide_false by congruence. by rewrite andb_false_r.
Qed.
Lemma map_err_Ok {E F A} (f : E → F) (m : result E A) x : map_err f m = Ok x → m = Ok x.
Proof. destruct m; [by intros [= ->] | done]. Qed.
Lemma Ok_inj {E A} (x y : A) : Ok (E:=E) x = Ok y → x = y.
Proof. by intros [=]. Qed.
Lemma skipped_outcomes st st' event :
  apply_step_skipped st event = Ok st' →
  rs_unresolved_tasks st' = rs_unresolved_tasks st ∧
  match get_str (s"node") event with
  | None => rs_nodes st' = rs_nodes st
  | Some path => (∀ id, id ≠ path → node_of st' id = node_of st id) ∧
                 ∃ reason, node_of st' path = Some (NodeSkipped reason)
  end.
Proof.
  unfold apply_step_skipped. intros Hs. apply result_bind_Ok in Hs as (n & _ & Hs). cbn zeta in Hs.
  destruct (get_str (s"node") event) as [path|] eqn:Ep; [|by injection Hs as <-].
  apply result_bind_Ok in Hs as (reason & _ & Hs). apply Ok_inj in Hs.
  assert (E : outcomes_of st' =
    (bm_insert path (NodeSkipped reason) (rs_nodes st), rs_unresolved_tasks st)).
  { subst st'. exact (eq_trans eq_refl (retire_outcomes
      (st <| rs_budget := rs_budget st <| bs_steps_skipped := n |> |>
          <| rs_nodes := bm_insert path (NodeSkipped reason) (rs_nodes st) |>) path)). }
  split; [exact (f_equal snd E)|]. unfold node_of. pose proof (f_equal fst E) as En. cbn [fst outcomes_of] in En.
  rewrite En. split; [intros id Hid; by apply bm_get_insert_ne | eexists; apply bm_get_insert_eq].
Qed.
Lemma waiting_keeps st st' kind event id :
  apply_waiting st kind event = Ok st' →
  (kind = s"confirm_request" → get_str (s"node") event ≠ Some id) → keeps_node st st' id.
Proof.
  unfold apply_waiting. cbn zeta. intros Hw Hid. apply result_bind_Ok in Hw as (st1 & H1 & Hw).
  apply install_outcomes in Hw. assert (Hk : keeps_node st st1 id).
  { destruct (_ && _ && _) eqn:Eb in H1; [|injection H1 as <-; by apply keeps_unchanged].
    apply andb_true_iff in Eb as [[Hc%str_eqb_eq _]%andb_true_iff _].
    eapply finished_keeps; [exact H1|]. specialize (Hid Hc). destruct event; try done.
    unfold get_str, get in *. cbn in *. by rewrite bm_get_insert_ne. }
  unfold keeps_node, node_of, unreported in *. injection Hw as -> ->. done.
Qed.
Lemma index_str key event : as_str (index key event) = get_str key event.
Proof. unfold index, get_str. by destruct (get key event). Qed.
Lemma joined_nodes st st' kind event :
  apply_task_joined st kind event = Ok st' → rs_nodes st' = rs_nodes st.
Proof.
  unfold apply_task_joined. cbn zeta. intros Hj. apply result_bind_Ok in Hj as (st1 & H1 & Hj).
  assert (E1 : rs_nodes st1 = rs_nodes st).
  { unfold foreach_report in H1. case_if in H1; [|by injection H1 as <-].
    apply result_bind_Ok in H1 as (owner & _ & [= <-]). by case_if. }
  rewrite <-E1. unfold unreported_task in Hj. case_if in Hj; [|by injection Hj as <-].
  by apply result_bind_Ok in Hj as (owner & _ & [= <-]).
Qed.
(** The owner a join record is stored under. *)
Definition joined_owner (kind : str) (event : value) : option str :=
  get_str (if kind =s s"parallel_task_joined" then s"node" else s"iteration") event.
Lemma foreach_report_unresolved st st' class event :
  foreach_report st class event = Ok st' →
  rs_unresolved_tasks st' = rs_unresolved_tasks st ∨
  ∃ owner, get_str (s"iteration") event = Some owner ∧
    rs_unresolved_tasks st' = bm_insert owner event (rs_unresolved_tasks st).
Proof.
  unfold foreach_report. intros Hr. apply result_bind_Ok in Hr as (owner & Ho%ok_or_Ok & [= <-]).
  rewrite index_str in Ho. case_if; [right; by exists owner | by left].
Qed.
Lemma unreported_task_unresolved st st' kind event :
  unreported_task st kind event = Ok st' → ∃ owner, joined_owner kind event = Some owner ∧
    rs_unresolved_tasks st' = bm_insert owner event (rs_unresolved_tasks st).
Proof.
  unfold unreported_task, joined_owner. intros Hr.
  apply result_bind_Ok in Hr as (owner & Ho%ok_or_Ok & [= <-]). exists owner. split; [|done].
  destruct (as_str _) as [o|] eqn:Eo in Ho; [|done]. cbn in Ho. case_if in Ho; [|done].
  injection Ho as <-. rewrite <-Eo. by destruct (kind =s s"parallel_task_joined"); cbn [negb]; rewrite index_str.
Qed.
Lemma joined_keeps st st' kind event id :
  apply_task_joined st kind event = Ok st' → joined_owner kind event ≠ Some id → keeps_node st st' id.
Proof.
  intros Hj Hid. split; [unfold node_of; by rewrite (joined_nodes _ _ _ _ Hj)|]. intros Hu.
  unfold apply_task_joined in Hj. cbn zeta in Hj. apply result_bind_Ok in Hj as (st1 & H1 & Hj).
  assert (Hu1 : unreported st1 id).
  { destruct (_ && _) eqn:Eb in H1; [|by injection H1 as <-].
    apply andb_true_iff in Eb as [_ Eb]. unfold joined_owner in Hid.
    destruct (kind =s s"parallel_task_joined"); [done|].
    apply foreach_report_unresolved in H1 as [E|(owner & Ho & E)].
    - unfold unreported in *. by rewrite E.
    - eapply unreported_insert; [exact E | congruence | done]. }
  case_if in Hj; [|by injection Hj as <-].
  apply unreported_task_unresolved in Hj as (owner & Ho & Eu).
  eapply unreported_insert; [exact Eu | congruence | done].
Qed.
(** A task without a report is remembered. *)
Lemma joined_unreported st st' event id :
  apply_task_joined st (s"parallel_task_joined") event = Ok st' →
  get_str (s"node") event = Some id →
  is_reported_class (default [] (get_str (s"classification") event)) = false → unreported st' id.
Proof.
  unfold apply_task_joined. cbn zeta. intros Hj Hid Hc. rewrite index_str, Hc in Hj.
  cbn [negb andb mbind result_bind] in Hj.
  apply unreported_task_unresolved in Hj as (owner & Ho & E). unfold joined_owner in Ho.
  rewrite str_eqb_refl, Hid in Ho. injection Ho as <-.
  exists event. rewrite E, bm_get_insert_eq. split; [done|]. by rewrite index_str.
Qed.

(** ** An accepted record *)

Lemma sans_identity_outcomes st st' :
  sans_identity st' = sans_identity st → outcomes_of st' = outcomes_of st.
Proof. intros E. exact (f_equal outcomes_of E). Qed.
Lemma identity_outcomes st st' kind event :
  apply_identity st kind event = Ok st' → outcomes_of st' = outcomes_of st.
Proof.
  unfold apply_identity. intros Hi. apply result_bind_Ok in Hi as (mode & _ & Hi).
  apply result_bind_Ok in Hi as (st1 & (_ & ledger & -> & _)%ledger_inv & Hi).
  apply result_bind_Ok in Hi as (st2 & (E2 & _)%lineage_inv & [= <-]).
  destruct (identity_body_frame st2 kind event) as (El & _).
  etrans; [apply sans_identity_outcomes, (f_equal (λ x, x.1.1.1.1) El)|].
  by apply sans_identity_outcomes in E2.
Qed.
Lemma response_outcomes st st' kind event :
  apply_response st kind event = Ok st' → outcomes_of st' = outcomes_of st.
Proof.
  unfold apply_response. cbn zeta. intros Hr. apply result_bind_Ok in Hr as (id & _ & Hr).
  apply result_bind_Ok in Hr as (st1 & H1 & [= <-]).
  assert (E1 : outcomes_of st1 = outcomes_of st) by (case_if in H1; by fold_inv).
  rewrite <-E1. change (outcomes_of (settle kind event st1) = outcomes_of st1). unfold settle. cbn zeta.
  change (rs_pending (st1 <| rs_pending_interactions := _ |> <| rs_interaction_seqs := _ |>))
    with (rs_pending st1). destruct (rs_pending st1); [|done]. case_if; [|done]. by rewrite project_outcomes.
Qed.
Lemma hook_failed_outcomes st event : outcomes_of (apply_hook_failed st event) = outcomes_of st.
Proof.
  unfold apply_hook_failed. destruct (get_str _ _); [|done]. cbn zeta.
  destruct (get_path _ _); by case_if.
Qed.
Lemma file_changes_outcomes st st' event :
  apply_file_changes st event = Ok st' → outcomes_of st' = outcomes_of st.
Proof.
  unfold apply_file_changes. intros Hf. fold_inv. destruct (ev_data _); try done.
  case_if in Hf; [done|]. injection Hf as <-. by rewrite written_loop_eq, removed_loop_eq.
Qed.
Lemma patched_outcomes st st' event :
  apply_state_patched st event = Ok st' → outcomes_of st' = outcomes_of st.
Proof.
  unfold apply_state_patched. cbn zeta. intros Hp.
  destruct (get_object (s"inputs") event), (get_object (s"step_outputs") event),
    (get_object (s"step_statuses") event); fold_inv; done.
Qed.
Lemma counted_outcomes st st' event :
  apply_elapsed st event = Ok st' ∨ apply_budget_charged st event = Ok st' ∨
  apply_llm_call st event = Ok st' ∨ apply_operation_started st event = Ok st' →
  outcomes_of st' = outcomes_of st.
Proof.
  unfold apply_elapsed, apply_budget_charged, apply_llm_call, apply_operation_started. cbn zeta.
  intros [Ha|[Ha|[Ha|Ha]]]; fold_inv; done.
Qed.
Lemma step_keeps st st' kind event id :
  kind_step event st st' kind → subject kind event ≠ Some id → keeps_node st st' id.
Proof.
  intros Hs Hid. destruct Hs as [? ? Ha|Ha|Ha|Ha|Ha|Ha|Ha|Ha|Ha|kind Hk Ha|Ha|Ha|Ha|Ha|Ha|kind Hk Ha
    |kind Hk Ha|Ha|Ha|Ha|Ha|Ha|Ha|? ? Ha|Ha|Ha|Ha|? ? Ha]; try (subst st'; by apply keeps_unchanged).
  - by eapply keeps_unchanged, identity_outcomes.
  - unfold apply_step_started in Ha. fold_inv. by apply keeps_unchanged.
  - apply keeps_unchanged. eapply counted_outcomes; eauto.
  - apply keeps_unchanged. eapply counted_outcomes; eauto.
  - apply keeps_unchanged. eapply counted_outcomes; eauto.
  - by eapply keeps_unchanged, file_changes_outcomes.
  - subst. apply keeps_unchanged. unfold apply_checkpoint. by repeat case_match.
  - by eapply keeps_unchanged, patched_outcomes.
  - eapply joined_keeps; [exact Ha|]. split_kind; exact Hid.
  - eapply finished_keeps; [exact Ha | exact Hid].
  - apply skipped_outcomes in Ha as [Hu Hn]. change (subject _ event) with (get_str (s"node") event) in Hid.
    unfold keeps_node, unreported. rewrite Hu. split; [|done].
    destruct (get_str (s"node") event); [|unfold node_of; by rewrite Hn]. apply Hn. congruence.
  - unfold apply_repair_started in Ha. fold_inv. by apply keeps_unchanged.
  - unfold apply_regenerate_started in Ha. fold_inv. by apply keeps_unchanged.
  - subst. apply keeps_unchanged. unfold apply_resource. by repeat case_match.
  - eapply waiting_keeps; [exact Ha|]. intros ->. exact Hid.
  - by eapply keeps_unchanged, response_outcomes.
  - subst. apply keeps_unchanged. unfold apply_cancel_requested. by repeat case_match.
  - subst. apply keeps_unchanged, hook_failed_outcomes.
  - subst. apply keeps_unchanged. unfold apply_hook_skipped. by repeat case_match.
  - subst. apply keeps_unchanged. unfold apply_mcp_pending. by repeat case_match.
  - subst. apply keeps_unchanged. unfold apply_mcp_consumed. by repeat case_match.
  - subst. apply keeps_unchanged. unfold apply_mcp_resumed. by repeat case_match.
  - apply keeps_unchanged. eapply counted_outcomes; eauto.
  - subst. apply keeps_unchanged. unfold apply_operation_finished. destruct (get_str _ _); [|done].
    by destruct (finished_outcome event) as [[? ?] ?].
Qed.
Lemma apply_keeps st st' kind event id :
  apply st event = Ok st' → get_str (s"t") event = Some kind → subject kind event ≠ Some id →
  keeps_node st st' id.
Proof.
  intros [k Hj]%apply_step Hk Hid. pose proof (js_kind _ _ _ _ Hj) as Hk'. rewrite Hk in Hk'.
  injection Hk' as <-. pose proof (step_keeps _ _ _ _ _ (js_step _ _ _ _ Hj) Hid) as Hs.
  unfold keeps_node, node_of, unreported in *.
  injection (note_outcomes (st <| rs_last_seq := default (rs_last_seq st) (get_u64 (s"seq") event) |>)
    kind event) as E1 E2. rewrite E1, E2 in Hs. exact Hs.
Qed.

(** ** Through the envelope *)

Context `{Sha256}.
Definition stamp_keys : list str :=
  [s"t"; s"ts"; s"seq"; s"run_id"; s"trace_id"; s"span_id"; s"parent_span_id"; s"metrics"].

Lemma record_get clock kind run_id seq object key :
  key ∉ stamp_keys → get key (durable_record clock kind run_id seq object) = bm_get key object.
Proof.
  unfold stamp_keys. rewrite !not_elem_of_cons. intros (?&?&?&?&?&?&?&?&_).
  unfold durable_record, get, stamp_parent, stamp. cbn zeta.
  case_if; by rewrite !bm_get_insert_ne by done.
Qed.
Lemma record_kind clock kind run_id seq object :
  get_str (s"t") (durable_record clock kind run_id seq object) = Some kind.
Proof.
  unfold durable_record, get_str, get, stamp_parent, stamp. cbn zeta.
  case_if; rewrite !bm_get_insert_ne by done; by rewrite bm_get_insert_eq.
Qed.
Lemma metrics_get clock b kind object key :
  key ≠ s"metrics" → bm_get key (with_metrics clock b kind object) = bm_get key object.
Proof. intros Hk. unfold with_metrics. repeat case_match; try done. by rewrite bm_get_insert_ne. Qed.

Variable (cx : RunContext).
Lemma accept_inv clock audited kind payload st st' :
  accept cx clock audited kind payload st = Ok st' →
  event_class kind = Observation ∧ outcomes_of st' = outcomes_of st ∨
  event_class kind = Durable ∧ ∃ v, apply st v = Ok st' ∧ get_str (s"t") v = Some kind ∧
    ∀ key, key ∉ stamp_keys → get key v = bm_get key (payload_object payload).
Proof.
  unfold accept. intros Ha. apply result_bind_Ok in Ha as (seq & _ & Ha).
  destruct (event_class kind); [right|left]; (split; [done|]).
  - cbn zeta in Ha. apply result_bind_Ok in Ha as (? & _ & Ha).
    apply result_bind_Ok in Ha as (? & _ & Ha). eexists. split; [by eapply map_err_Ok|].
    split; [apply record_kind|]. intros key Hk. rewrite record_get by done. apply metrics_get.
    intros ->. apply Hk. unfold stamp_keys. set_solver.
  - injection Ha as <-. by case_if.
Qed.
Lemma accept_keeps clock audited kind payload st st' id :
  accept cx clock audited kind payload st = Ok st' →
  subject kind (VObject (payload_object payload)) ≠ Some id → keeps_node st st' id.
Proof.
  intros [[_ E]|[_ (v & Hv & Hk & Hg)]]%accept_inv Hid; [by apply keeps_unchanged|].
  eapply apply_keeps; [exact Hv | exact Hk|]. revert Hid. unfold subject, get_str.
  by rewrite !Hg by (apply (bool_decide_unpack _); vm_compute; exact I).
Qed.

Lemma accept_durable clock audited kind payload st st' :
  accept cx clock audited kind payload st = Ok st' → event_class kind = Durable →
  ∃ st0 v, outcomes_of st0 = outcomes_of st ∧ apply_kind st0 kind v = Ok st' ∧
    ∀ key, key ∉ stamp_keys → get key v = bm_get key (payload_object payload).
Proof.
  intros [[E _]|[_ (v & Hv & Hk & Hg)]]%accept_inv Hd; [congruence|].
  eexists _, v. split; [|split; [by apply apply_arm; [exact Hv|exact Hk] | exact Hg]].
  by rewrite note_outcomes.
Qed.
Lemma node_of_same st st' id : outcomes_of st' = outcomes_of st → node_of st' id = node_of st id.
Proof. unfold node_of. by intros [= -> _]. Qed.

Lemma accept_finished clock audited payload st st' id status :
  accept cx clock audited (s"step_finished") payload st = Ok st' →
  bm_get (s"node") (payload_object payload) = Some (VString id) →
  bm_get (s"status") (payload_object payload) = Some (VString status) →
  outcome_of_status status (node_of st id) (node_of st' id).
Proof.
  intros Ha Hn Hs. apply accept_durable in Ha as (st0 & v & E0 & Ha & Hg); [|done].
  change (apply_kind st0 _ v) with (apply_step_finished st0 v) in Ha.
  apply finished_outcomes in Ha as (path & status' & Hp & Hs' & _ & _ & Ho).
  unfold get_str in Hp, Hs'. rewrite Hg in Hp, Hs' by (apply (bool_decide_unpack _); vm_compute; exact I).
  rewrite Hn in Hp. rewrite Hs in Hs'. injection Hp as <-. injection Hs' as <-.
  by rewrite (node_of_same _ _ _ E0) in Ho.
Qed.
Lemma accept_skipped clock audited payload st st' id :
  accept cx clock audited (s"step_skipped") payload st = Ok st' →
  bm_get (s"node") (payload_object payload) = Some (VString id) →
  ∃ reason, node_of st' id = Some (NodeSkipped reason).
Proof.
  intros Ha Hn. apply accept_durable in Ha as (st0 & v & E0 & Ha & Hg); [|done].
  change (apply_kind st0 _ v) with (apply_step_skipped st0 v) in Ha.
  apply skipped_outcomes in Ha as [_ Ha].
  unfold get_str in Ha. rewrite Hg, Hn in Ha by (apply (bool_decide_unpack _); vm_compute; exact I).
  apply Ha.
Qed.
Lemma accept_joined clock audited payload st st' id class :
  accept cx clock audited (s"parallel_task_joined") payload st = Ok st' →
  bm_get (s"node") (payload_object payload) = Some (VString id) →
  bm_get (s"classification") (payload_object payload) = Some (VString class) →
  is_reported_class class = false → unreported st' id.
Proof.
  intros Ha Hn Hs Hc. apply accept_durable in Ha as (st0 & v & E0 & Ha & Hg); [|done].
  change (apply_kind st0 _ v) with (apply_task_joined st0 (s"parallel_task_joined") v) in Ha.
  eapply joined_unreported; [exact Ha | |]; unfold get_str;
    rewrite Hg by (apply (bool_decide_unpack _); vm_compute; exact I); [by rewrite Hn | by rewrite Hs].
Qed.
(** A join record loses nothing, of no node. *)
Lemma accept_joined_keeps clock audited payload st st' id :
  accept cx clock audited (s"parallel_task_joined") payload st = Ok st' → keeps_node st st' id.
Proof.
  intros Ha. destruct (decide (subject (s"parallel_task_joined") (VObject (payload_object payload)) = Some id))
    as [Hs|Hs]; [|by eapply accept_keeps].
  change (get_str (s"node") (VObject (payload_object payload)) = Some id) in Hs.
  apply accept_durable in Ha as (st0 & v & E0 & Ha & Hg); [|done].
  change (apply_kind st0 _ v) with (apply_task_joined st0 (s"parallel_task_joined") v) in Ha.
  unfold keeps_node. rewrite <-(node_of_same _ _ id E0).
  split; [unfold node_of; by rewrite (joined_nodes _ _ _ _ Ha)|]. intros Hu.
  assert (Hv : get_str (s"node") v = Some id).
  { unfold get_str. by rewrite Hg by (apply (bool_decide_unpack _); vm_compute; exact I). }
  destruct (is_reported_class (default [] (get_str (s"classification") v))) eqn:Ec;
    [|by eapply joined_unreported].
  unfold apply_task_joined in Ha. cbn zeta in Ha. rewrite index_str, Ec in Ha. cbn in Ha. injection Ha as <-.
  unfold unreported in *. by injection E0 as _ ->.
Qed.

(** A request for confirmation changes no outcome. *)
Lemma accept_confirm clock audited payload st st' id :
  accept cx clock audited (s"confirm_request") payload st = Ok st' → node_of st' id = node_of st id.
Proof.
  intros Ha. apply accept_durable in Ha as (st0 & v & E0 & Ha & _); [|done].
  change (apply_kind st0 _ v) with (apply_waiting st0 (s"confirm_request") v) in Ha.
  rewrite <-(node_of_same _ _ id E0). unfold apply_waiting in Ha. cbn zeta in Ha.
  apply result_bind_Ok in Ha as (st1 & H1 & Hi%install_outcomes). rewrite (node_of_same _ _ id Hi).
  destruct (_ && _ && _) in H1; [|by injection H1 as <-].
  apply finished_outcomes in H1 as (path & status & Hp & Hs & _ & Hn & Ho).
  destruct (decide (id = path)) as [->|]; [|by apply Hn].
  destruct v; try done. unfold get_str, get in Hs. cbn in Hs. rewrite bm_get_insert_eq in Hs.
  by injection Hs as <-.
Qed.
End fold.
