(* ===== verification/EngineCalm.v ===== *)
(** * Bodies, retries, repairs and joins leave the nodes alone *)

From S2P Require Import Prelude Str TraceIds BMap Json ValueBag Serde Events RunState RunStateEffect JournalFile AuditRules JournalWriter Graph EngineTypes EngineWorld EngineExecute EngineRepair EngineFold.

#[local] Arguments s : simpl never.

(** * Computations that leave the nodes alone

    Step bodies, retries, repairs, hooks and joins: whatever they do, the node
    states of the loop (outside a given set), its trace, and the durable
    outcomes of graph nodes stay as they are. *)

Create HintDb engine.

(** ** The trace of the loop *)

(** How a node was settled. *)
Inductive class : Type := KSuccess | KFailed | KSkipped.
#[global] Instance class_eq_dec : EqDecision class.
Proof. solve_decision. Defined.
Inductive mark : Type :=
| MStart (id : str)
| MInterrupt (id : str)
| MDone (id : str) (c : class)
| MEnd (success : bool).
#[global] Instance mark_eq_dec : EqDecision mark.
Proof. solve_decision. Defined.

(** What a record of the loop says about its nodes. *)
Definition mark_of (e : entry) : option mark :=
  match en_by e with
  | ByLoop =>
      let node := get_str (s"node") (en_payload e) in
      let status := default [] (get_str (s"status") (en_payload e)) in
      if en_kind e =s s"step_started" then MStart <$> node
      else if en_kind e =s s"step_interrupted" then MInterrupt <$> node
      else if en_kind e =s s"step_skipped" then (λ id, MDone id KSkipped) <$> node
      else if en_kind e =s s"step_replayed" then (λ id, MDone id KSuccess) <$> node
      else if en_kind e =s s"step_finished" then
        if is_suspended_status status then None
        else (λ id, MDone id (if is_success_status status then KSuccess else KFailed)) <$> node
      else if en_kind e =s s"run_finished" then Some (MEnd (status =s s"success"))
      else None
  | _ => None
  end.

Section calm.
Context {W : WireTypes} {Sha : Sha256} {Msg : Messages} {Frm : Forms}.
Variables (env : Environment) (cx : RunContext).

Definition trace (g : engine) : list mark := omap mark_of (eg_log g).
Definition ids : list str := bm_keys (g_nodes (cx_graph cx)).

(** Step bodies write no outcome of a graph node. *)
Definition modest_bodies : Prop := ∀ n node vars kind payload id,
  (kind, payload) ∈ bd_records (ev_body env n node vars) → id ∈ ids →
  subject kind (VObject (payload_object payload)) ≠ Some id.
(** Graph nodes are not named like repair attempts or hooks. *)
Definition plain_ids : Prop := ∀ id, id ∈ ids →
  (∀ owner attempt child, id ≠ repair_child owner attempt child) ∧
  (∀ ev hook, id ≠ s"hook." ++ ev ++ s"." ++ hook).

Record calm (T : str → Prop) (g g' : engine) : Prop := {
  ca_states : ∀ id, ¬ T id → bm_get id (eg_states g') = bm_get id (eg_states g);
  ca_pending : ∀ id, bm_get id (eg_states g') = Some Pending → bm_get id (eg_states g) = Some Pending;
  ca_trace : trace g' = trace g;
  ca_refused : eg_refused g ≤ eg_refused g';
  ca_tick : eg_tick g ≤ eg_tick g';
  ca_sorted : bm_sorted (eg_states g) → bm_sorted (eg_states g');
  ca_dom : ∀ id, is_Some (bm_get id (eg_states g)) → is_Some (bm_get id (eg_states g'));
  ca_nodes : ∀ id, id ∈ ids → keeps_node (eg_state g) (eg_state g') id;
  ca_anomaly : eg_anomaly g' = eg_anomaly g;
  ca_episode : eg_episode g' = eg_episode g;
}.
#[global] Instance calm_preorder T : PreOrder (calm T).
Proof.
  split.
  - intros g. by split.
  - intros g1 g2 g3 [S1 P1 T1 R1 K1 O1 D1 N1 A1 E1] [S2 P2 T2 R2 K2 O2 D2 N2 A2 E2].
    split; [| | | lia | lia | auto | auto | | congruence..].
    + intros id Hid. by rewrite S2, S1.
    + eauto.
    + congruence.
    + intros id Hid. destruct (N1 id Hid) as [Na Nb], (N2 id Hid) as [Nc Nd]. split; [congruence | eauto].
Qed.
Definition still {A} (T : str → Prop) (m : EM A) : Prop := ∀ g, calm T g (m g).1.

(** ** Rules *)

Lemma bind_run {A B} (m : EM A) (k : A → EM B) g :
  (m ≫= k) g = match m g with (g, Ok x) => k x g | (g, Err e) => (g, Err e) end.
Proof. done. Qed.

Lemma still_ret {A} T (x : A) : still T (mret x).
Proof. intros g. by cbn. Qed.
Lemma still_bind {A B} T (m : EM A) (k : A → EM B) :
  still T m → (∀ x, still T (k x)) → still T (m ≫= k).
Proof.
  intros Hm Hk g. specialize (Hm g). rewrite bind_run. destruct (m g) as [g' [x|e]]; [|exact Hm].
  etrans; [exact Hm | apply Hk].
Qed.
Lemma still_raise {A} T e : still (A:=A) T (raise e).
Proof. intros g. by cbn. Qed.
Lemma still_result {A} T (r : result EngineError A) : still T (of_result r).
Proof. intros g. by cbn. Qed.
Lemma still_try {A} T (m : EM A) : still T m → still T (try_ m).
Proof. intros Hm g. specialize (Hm g). unfold try_. by destruct (m g). Qed.
Lemma still_engine T : still T the_engine.
Proof. intros g. by cbn. Qed.
Lemma still_each {A} T (f : A → EM ()) l : (∀ x, x ∈ l → still T (f x)) → still T (each f l).
Proof.
  induction l as [|x l IH]; cbn [each]; intros Hf; [apply still_ret|].
  apply still_bind; [apply Hf; left | intros _; apply IH; intros y Hy; apply Hf; by right].
Qed.
Lemma still_put T (f : engine → engine) :
  (∀ g, eg_states (f g) = eg_states g ∧ eg_log (f g) = eg_log g ∧ eg_refused (f g) = eg_refused g ∧
     eg_state (f g) = eg_state g ∧ eg_anomaly (f g) = eg_anomaly g ∧ eg_episode (f g) = eg_episode g ∧
     eg_tick g ≤ eg_tick (f g)) →
  still T (put f).
Proof.
  intros Hf g. destruct (Hf g) as (E1 & E2 & E3 & E4 & E5 & E6 & E7). cbn. unfold trace.
  by split; unfold trace; rewrite ?E1, ?E2, ?E3, ?E4, ?E5.
Qed.
Lemma still_ask T : still T ask.
Proof. apply (still_put T (λ g, g <| eg_tick := S (eg_tick g) |>)). intros g. split_and!; try done. cbn. lia. Qed.
Lemma still_with_vars T f : still T (with_vars f).
Proof. by apply still_put. Qed.
Lemma still_mono {A} (T T' : str → Prop) (m : EM A) : (∀ id, T id → T' id) → still T m → still T' m.
Proof. intros HT Hm g. destruct (Hm g) as [S P]. split; try done. intros id Hid. apply S. eauto. Qed.
Lemma still_match {A B} T (o : option A) (m : A → EM B) (m' : EM B) :
  (∀ x, o = Some x → still T (m x)) → (o = None → still T m') →
  still T match o with Some x => m x | None => m' end.
Proof. destruct o; eauto. Qed.

(** A record the fold accepts without losing the outcome of a graph node. *)
Lemma trace_snoc g e : omap mark_of (eg_log g ++ [e]) = trace g ++ option_list (mark_of e).
Proof. rewrite omap_app. cbn. by destruct (mark_of e). Qed.
Lemma still_event T by_ kind payload :
  mark_of (mkEntry by_ kind payload) = None →
  (∀ id, id ∈ ids → subject kind (VObject (payload_object payload)) ≠ Some id) →
  still T (event env cx by_ kind payload).
Proof.
  intros Hm Hs g. unfold event. cbn zeta. destruct (ev_storage env (eg_tick g)); [split; cbn; (done || lia)|].
  destruct (accept _ _ _ _ _ _) as [st|] eqn:Ea; [|split; cbn; (done || lia)].
  split; cbn; try (done || lia).
  - unfold trace. cbn. by rewrite trace_snoc, Hm, app_nil_r.
  - intros id Hid. eapply accept_keeps; [exact Ea | by apply Hs].
Qed.

Lemma subject_none kind event :
  kind_in kind (foreach_kinds ++ s"parallel_task_joined" :: settling_kinds) = false →
  subject kind event = None.
Proof.
  unfold kind_in, subject. rewrite existsb_app. intros [E1 E2]%orb_false_iff. unfold kind_in. by rewrite E1, E2.
Qed.
Lemma still_record T by_ kind payload :
  mark_of (mkEntry by_ kind payload) = None →
  kind_in kind (foreach_kinds ++ s"parallel_task_joined" :: settling_kinds) = false →
  still T (event env cx by_ kind payload).
Proof. intros Hm Hk. apply still_event; [done|]. intros id _. by rewrite subject_none. Qed.
(** A record about a node that is not in the graph. *)
Lemma still_foreign T by_ kind payload id :
  by_ ≠ ByLoop → kind ∉ foreach_kinds → get_str (s"node") (VObject (payload_object payload)) = Some id →
  id ∉ ids → still T (event env cx by_ kind payload).
Proof.
  intros Hb Hk Hn Hid. apply still_event; [by destruct by_|]. intros id' Hid'. unfold subject.
  rewrite Hn. destruct (kind_in kind foreach_kinds) eqn:E; [by apply kind_in_elem in E|].
  case_if; [|done]. intros [= ->]. done.
Qed.

End calm.

Ltac still_step :=
  match goal with
  | |- still _ _ (mret _) => apply still_ret
  | |- still _ _ (raise _) => apply still_raise
  | |- still _ _ (of_result _) => apply still_result
  | |- still _ _ (try_ _) => apply still_try
  | |- still _ _ ask => apply still_ask
  | |- still _ _ the_engine => apply still_engine
  | |- still _ _ (with_vars _) => apply still_with_vars
  | |- still _ _ (event _ _ _ _ _) => apply still_record; reflexivity
  | |- still _ _ (_ ≫= _) => apply still_bind; [|intros ?]
  | |- still _ _ (match ?x with _ => _ end) => destruct x eqn:?
  | |- still _ _ (let '(_, _) := ?x in _) => destruct x eqn:?
  | |- _ => solve [eauto with engine]
  end.
Ltac stills := cbn zeta; repeat still_step.

(** ** One node *)

Section tasks.
Context {W : WireTypes} {Sha : Sha256} {Msg : Messages} {Frm : Forms}.
Variables (env : Environment) (cx : RunContext).
Hypothesis modest : modest_bodies env cx.
Notation still := (still cx).
Notation calm := (calm cx).

Lemma still_checkpoint T : still T (run_checkpoint env cx).
Proof. unfold run_checkpoint. stills. Qed.
Lemma still_pins T files : still T (pin_attempt_files env files).
Proof. unfold pin_attempt_files. stills. Qed.
Lemma still_sync T : still T sync_live_outcomes.
Proof. by apply still_put. Qed.
Lemma still_publish T node output : still T (publish_output node output).
Proof. apply still_with_vars. Qed.
Lemma still_consume T node : still T (consume cx node).
Proof. intros g. unfold consume. cbn zeta. by case_if. Qed.
#[local] Hint Resolve still_checkpoint still_pins still_sync still_publish still_consume : engine.

Lemma still_body T node : still T (run_body env cx node).
Proof.
  unfold run_body. stills; [by apply still_put|].
  apply still_each. intros [kind payload] Hin. stills.
  apply still_event; [done|]. intros id Hid. by eapply modest.
Qed.
Lemma still_timeout T node r : still T (under_timeout env node r).
Proof. unfold under_timeout. stills. Qed.
Lemma still_deadline T node r : still T (under_deadline env cx node r).
Proof. unfold under_deadline. stills. Qed.
#[local] Hint Resolve still_body still_timeout still_deadline : engine.
Lemma still_attempt T node : still T (execute_attempt env cx node).
Proof. unfold execute_attempt. stills. Qed.
Lemma still_backoff T node : still T (backoff env cx node).
Proof. unfold backoff. stills. Qed.
#[local] Hint Resolve still_attempt still_backoff : engine.
Lemma still_task_step T charge node t : still T (task_step env cx charge node t).
Proof. unfold task_step, charge_attempt, record_retry. stills. Qed.
#[local] Hint Resolve still_task_step : engine.

(** A task makes a step that brings it closer to its end. *)
Lemma try_run {A} (m : EM A) g : try_ m g = ((m g).1, Ok (m g).2).
Proof. unfold try_. by destruct (m g). Qed.
Lemma task_step_ok charge node t g : ∃ t', (task_step env cx charge node t g).2 = Ok t' ∧
  (is_done t = false → task_left node t' < task_left node t).
Proof.
  destruct t as [n|n|r]; [| |by exists (TDone r)]; cbn [task_step]; rewrite bind_run, try_run.
  - eexists. split; [done|]. intros _. destruct (_ : result _ _); cbn; lia.
  - destruct (execute_attempt env cx node g) as [g1 [o|e]]; cbn [fst snd].
    { eexists. split; [done|]. cbn. lia. }
    destruct (is_retried e && _) eqn:Er; [|eexists; split; [done|]; cbn; lia].
    apply andb_true_iff in Er as [_ Hn%bool_decide_eq_true].
    rewrite bind_run, try_run. eexists. split; [done|]. intros _. destruct (_ : result _ _); cbn; lia.
Qed.
Lemma finish_task_spec T charge node fuel : ∀ t g, task_left node t ≤ fuel →
  calm T g (finish_task env cx fuel charge node t g).1 ∧
  ∃ r, (finish_task env cx fuel charge node t g).2 = Ok r.
Proof.
  induction fuel as [|fuel IH]; intros t g Hf.
  - destruct t; cbn in Hf; [lia..|]. split; [apply still_ret | by eexists].
  - destruct (is_done t) eqn:Ed.
    { destruct t; try done. split; [apply still_ret | by eexists]. }
    destruct (task_step_ok charge node t g) as (t' & Ht & Hl). specialize (Hl Ed).
    pose proof (still_task_step T charge node t g) as Hs.
    assert (E : finish_task env cx (S fuel) charge node t g =
      finish_task env cx fuel charge node t' (task_step env cx charge node t g).1).
    { destruct t; try done; cbn [finish_task]; rewrite bind_run;
        destruct (task_step _ _ _ _ _ _) as [g1 r1]; cbn in Ht |- *; by subst. }
    rewrite E. destruct (IH t' (task_step env cx charge node t g).1) as [Hc Hr]; [lia|].
    split; [by etrans | done].
Qed.
Lemma still_run_task T charge node t : still T (run_task env cx charge node t).
Proof. intros g. by apply finish_task_spec. Qed.
#[local] Hint Resolve still_run_task : engine.
Lemma still_execute T node : still T (execute_node_with_retry env cx node).
Proof. unfold execute_node_with_retry. stills. Qed.
#[local] Hint Resolve still_execute : engine.

(** ** Tasks of a wave *)

Definition no_id : str → Prop := λ _, False.
Lemma still_snapshot {A} T vars (m : EM A) : still T m → still T (on_snapshot vars m).
Proof.
  intros Hm g. unfold on_snapshot. specialize (Hm (g <| eg_vars := vars |>)).
  destruct (m _) as [g' r]. cbn in Hm |- *. by destruct Hm; split.
Qed.
#[local] Hint Resolve still_snapshot : engine.
Lemma still_advance T ts i : still T (advance env cx ts i).
Proof. unfold advance. stills. Qed.
#[local] Hint Resolve still_advance : engine.
Lemma still_advance_all T slices : ∀ ts, still T (advance_all env cx ts slices).
Proof. induction slices; intros ts; cbn [advance_all]; stills. Qed.
#[local] Hint Resolve still_advance_all : engine.
Lemma still_interleave T ts : still T (interleave env cx ts).
Proof. unfold interleave. stills. Qed.
Lemma still_join_task T r how : still T (join_task env cx r how).
Proof. unfold join_task. stills. Qed.
#[local] Hint Resolve still_interleave still_join_task : engine.
Lemma still_join_next T r ts : still T (join_next env cx r ts).
Proof. unfold join_next. stills. Qed.
#[local] Hint Resolve still_join_next : engine.
Lemma still_joined T node j drain_cause abort_cause :
  still T (record_wave_join env cx node j drain_cause abort_cause).
Proof.
  intros g. unfold record_wave_join. destruct (join_facts j abort_cause) as [facts c]. unfold event. cbn zeta.
  destruct (ev_storage env (eg_tick g)); [split; cbn; (done || lia)|].
  destruct (accept _ _ _ _ _ _) as [st|] eqn:Ea; [|split; cbn; (done || lia)].
  split; cbn; try (done || lia).
  - unfold trace. cbn. by rewrite trace_snoc, app_nil_r.
  - intros id _. by eapply accept_joined_keeps.
Qed.
#[local] Hint Resolve still_joined : engine.
Lemma advance_length ts i g ts' g' : advance env cx ts i g = (g', Ok ts') → length ts' = length ts.
Proof.
  unfold advance. destruct (ts !! i) as [r|]; [|by intros [= <- <-]].
  rewrite bind_run. destruct (on_snapshot _ _ _) as [g1 [[t vars]|]]; [|done].
  intros [= <- <-]. by rewrite length_insert.
Qed.
End tasks.
#[export] Hint Resolve still_checkpoint still_pins still_sync still_publish still_body still_execute
  still_interleave still_join_next still_joined : engine.

(** * The joins of a wave

    Every task of a wave is joined once; a task without a report is remembered
    in the journal, unless the journal refused to. *)

Definition task_ids {W : WireTypes} (ts : list running) : list str := map (λ r, nd_id (ru_node r)) ts.

Section joins.
Context {W : WireTypes} {Sha : Sha256} {Msg : Messages} {Frm : Forms}.
Variables (env : Environment) (cx : RunContext).
Hypothesis modest : modest_bodies env cx.
Notation calm := (calm cx no_id).

Lemma snapshot_ok {A} vars (m : EM A) g x : (m (g <| eg_vars := vars |>)).2 = Ok x →
  ∃ v, (on_snapshot vars m g).2 = Ok (x, v).
Proof. unfold on_snapshot. destruct (m _) as [g' r]. cbn. intros ->. by eexists. Qed.
Lemma advance_spec ts i g : ∃ ts', (advance env cx ts i g).2 = Ok ts' ∧ map ru_node ts' = map ru_node ts.
Proof.
  unfold advance. destruct (ts !! i) as [r|] eqn:Er; [|by eexists].
  destruct (task_step_ok env cx true (ru_node r) (ru_task r) (g <| eg_vars := ru_vars r |>)) as (t & Ht & _).
  apply snapshot_ok in Ht as [v Hv]. rewrite bind_run.
  destruct (on_snapshot _ _ _) as [g1 r1]. cbn in Hv. subst r1. eexists. split; [done|].
  rewrite list_fmap_insert. cbn. apply list_insert_id. by rewrite list_lookup_fmap, Er.
Qed.
Lemma advance_all_spec slices : ∀ ts g, ∃ ts',
  (advance_all env cx ts slices g).2 = Ok ts' ∧ map ru_node ts' = map ru_node ts.
Proof.
  induction slices as [|i slices IH]; intros ts g; cbn [advance_all]; [by eexists|].
  destruct (advance_spec ts i g) as (ts1 & H1 & E1). rewrite bind_run.
  destruct (advance _ _ _ _ _) as [g1 r1]. cbn in H1. subst r1.
  destruct (IH ts1 g1) as (ts2 & H2 & E2). exists ts2. split; [done | congruence].
Qed.
Lemma interleave_spec ts g : ∃ ts',
  (interleave env cx ts g).2 = Ok ts' ∧ map ru_node ts' = map ru_node ts.
Proof. unfold interleave. rewrite bind_run. apply advance_all_spec. Qed.
Lemma map_nodes_ids ts ts' : map ru_node ts' = map ru_node ts → task_ids ts' = task_ids ts.
Proof.
  intros E. unfold task_ids. rewrite <-(map_map ru_node nd_id ts), <-(map_map ru_node nd_id ts'). by rewrite E.
Qed.

Lemma join_task_ok r how g : ∃ j, (join_task env cx r how g).2 = Ok j.
Proof.
  unfold join_task. destruct (ru_task r) eqn:Et, how; try (by eexists).
  all: rewrite bind_run.
  all: destruct (finish_task_spec env cx modest no_id true (ru_node r) (task_left (ru_node r) (ru_task r))
         (ru_task r) (g <| eg_vars := ru_vars r |>)) as [_ [x Hx]]; [lia|].
  all: rewrite Et in Hx; apply (snapshot_ok (ru_vars r)) in Hx as [v Hv]; unfold run_task;
       destruct (on_snapshot _ _ _) as [g1 r1]; cbn in Hv; subst r1; by eexists.
Qed.
Lemma join_next_spec r ts g : ∃ r' j rest, (join_next env cx r ts g).2 = Ok (r', j, rest) ∧
  task_ids (r :: ts) ≡ₚ nd_id (ru_node r') :: task_ids rest ∧ S (length rest) = length (r :: ts).
Proof.
  unfold join_next. rewrite bind_run. cbn [ask]. destruct (ev_join _ _) as [i how].
  destruct ((r :: ts) !! i) as [r'|] eqn:Ei; rewrite bind_run.
  - destruct (join_task_ok r' how (g <| eg_tick := S (eg_tick g) |>)) as [j Hj].
    destruct (join_task _ _ _ _ _) as [g1 r1]. cbn in Hj. subst r1. eexists _, _, _. split; [done|].
    pose proof (take_drop_middle _ _ _ Ei) as E. split.
    + rewrite <-E at 1. unfold task_ids. rewrite !map_app. cbn [map]. apply Permutation_sym, Permutation_middle.
    + rewrite <-E at 3. rewrite !length_app. cbn. lia.
  - destruct (join_task_ok r how (g <| eg_tick := S (eg_tick g) |>)) as [j Hj].
    destruct (join_task _ _ _ _ _) as [g1 r1]. cbn in Hj. subst r1. by eexists _, _, _.
Qed.

(** ** One join *)

Lemma event_result by_ kind payload g :
  match event env cx by_ kind payload g with
  | (g', Ok _) => eg_refused g' = eg_refused g ∧
      eg_log g' = eg_log g ++ [mkEntry by_ kind payload] ∧
      ∃ clock audited, accept cx clock audited kind payload (eg_state g) = Ok (eg_state g')
  | (g', Err e) => eg_refused g' = S (eg_refused g) ∧ eg_log g' = eg_log g ∧ ∃ text, e = EJournal text
  end.
Proof.
  unfold event. cbn zeta. destruct (ev_storage _ _); [by eauto|].
  destruct (accept _ _ _ _ _ _) eqn:Ea; [|by eauto]. split; [done|]. split; [done|]. by eauto.
Qed.

Definition lost_class (j : wave_join) : Prop := match j with Reported _ => False | _ => True end.
Lemma joined_payload node j drain_cause abort_cause facts c : join_facts j abort_cause = (facts, c) →
  let m := payload_object (obj ([(s"node", VString (nd_id node)); (s"drain_cause", VString drain_cause)]
             ++ facts ++ [(s"classification", VString c)])) in
  lost_class j →
  bm_get (s"node") m = Some (VString (nd_id node)) ∧ bm_get (s"classification") m = Some (VString c) ∧
  is_reported_class c = false.
Proof.
  intros E m Hl. destruct j; try done; cbn in E.
  - injection E as <- <-. split; [done|]. split; [done|]. by repeat case_if.
  - injection E as <- <-. done.
  - injection E as <- <-. done.
Qed.
Lemma lost_remembered node j drain_cause abort_cause g g' :
  record_wave_join env cx node j drain_cause abort_cause g = (g', Ok ()) → lost_class j →
  unreported (eg_state g') (nd_id node).
Proof.
  unfold record_wave_join. destruct (join_facts j abort_cause) as [facts c] eqn:Ej. intros Hr Hl.
  pose proof (event_result ByLoop (s"parallel_task_joined")
    (obj ([(s"node", VString (nd_id node)); (s"drain_cause", VString drain_cause)]
          ++ facts ++ [(s"classification", VString c)])) g) as He. rewrite Hr in He.
  destruct He as (_ & _ & clock & audited & Ha).
  destruct (joined_payload node j drain_cause abort_cause facts c Ej Hl) as (Hn & Hc & Hu).
  by eapply accept_joined.
Qed.

(** What the joins of the tasks in [J] leave; [r0] records had been refused
    before. *)
Record joined (r0 : nat) (J : str → Prop) (co : collected) (g : engine) : Prop := {
  jn_refused : r0 ≤ eg_refused g;
  jn_sorted : bm_sorted (co_outcomes co);
  jn_keys : ∀ id x, bm_get id (co_outcomes co) = Some x → J id;
  jn_fact : ∀ e, co_fact co = Err e → r0 < eg_refused g;
  jn_lost : ∀ id, id ∈ ids cx → J id → bm_get id (co_outcomes co) = None →
    r0 < eg_refused g ∨ unreported (eg_state g) id;
}.
Lemma joined_calm r0 J co g g' : joined r0 J co g → calm g g' → joined r0 J co g'.
Proof.
  intros [Hr Hsort Hk Hf Hl] Hc. pose proof (ca_refused _ _ _ _ Hc) as Hr'. split; [lia | done | done | |].
  - intros e He. apply Hf in He. lia.
  - intros id Hid Hj Ho. destruct (Hl id Hid Hj Ho) as [?|Hu]; [left; lia|].
    right. by apply (ca_nodes _ _ _ _ Hc).
Qed.
Lemma joined_ext r0 J J' co co' g : joined r0 J co g →
  (∀ id, J id ↔ J' id) → co_outcomes co' = co_outcomes co → co_fact co' = co_fact co → joined r0 J' co' g.
Proof.
  intros [Hr Hsort Hk Hf Hl] HJ Eo Ef. split; rewrite ?Eo, ?Ef; try done.
  - intros id x Hx. apply HJ. eauto.
  - intros id Hid Hj. apply Hl; [done | by apply HJ].
Qed.
Lemma joined_step r0 J co g node j drain_cause abort_cause :
  joined r0 J co g → ¬ J (nd_id node) →
  joined r0 (λ id, id = nd_id node ∨ J id)
    (note_outcome node j (note_fact (record_wave_join env cx node j drain_cause abort_cause g).2 co))
    (record_wave_join env cx node j drain_cause abort_cause g).1.
Proof.
  intros Hj Hn. pose proof (still_joined env cx no_id node j drain_cause abort_cause g) as Hc.
  pose proof (joined_calm _ _ _ _ _ Hj Hc) as [Hr Hsort Hk Hf Hl].
  assert (Hs' : ∀ fact, bm_sorted (co_outcomes (note_outcome node j (note_fact fact co)))).
  { intros fact. destruct j; cbn; [by apply bm_sorted_insert | done..]. }
  destruct (record_wave_join _ _ _ _ _ _ g) as [g' [[]|e]] eqn:Er; cbn [fst snd] in *.
  - split; [done | apply Hs' | | |].
    + intros id x. destruct j as [r| | |]; cbn; [|by eauto..]. rewrite bm_get_insert.
      destruct (str_eqb_spec id (nd_id node)); [by left|]. eauto.
    + intros e. destruct j; cbn; destruct (co_fact co) eqn:E; try done; intros [= <-]; by eapply Hf.
    + intros id Hid [->|HJ] Ho; [right|].
      * destruct j as [r| | |]; [cbn in Ho; by rewrite bm_get_insert_eq in Ho|..]; by eapply lost_remembered.
      * apply (Hl id Hid HJ). destruct j as [r| | |]; cbn in Ho; try done.
        rewrite bm_get_insert_ne in Ho; [done|]. by intros ->.
  - assert (Hlt : r0 < eg_refused g').
    { unfold record_wave_join in Er. destruct (join_facts _ _) as [facts c].
      pose proof (event_result ByLoop (s"parallel_task_joined")
        (obj ([(s"node", VString (nd_id node)); (s"drain_cause", VString drain_cause)]
          ++ facts ++ [(s"classification", VString c)])) g) as He. rewrite Er in He.
      destruct He as (-> & _). pose proof (jn_refused _ _ _ _ Hj). lia. }
    split; [done | apply Hs' | | by intros | by left].
    intros id x. destruct j as [r| | |]; cbn; [|by eauto..]. rewrite bm_get_insert. destruct (str_eqb_spec id (nd_id node)); [by left|]. eauto.
Qed.

(** ** All joins *)

(** Joins of the tasks [ts] beside those of [J]. *)
Definition also (ts : list running) (J : str → Prop) : str → Prop := λ id, id ∈ task_ids ts ∨ J id.
Definition fresh_tasks (ts : list running) (J : str → Prop) : Prop :=
  NoDup (task_ids ts) ∧ ∀ id, id ∈ task_ids ts → ¬ J id.

Lemma fresh_next ts J r rest : fresh_tasks ts J → task_ids ts ≡ₚ nd_id (ru_node r) :: task_ids rest →
  ¬ J (nd_id (ru_node r)) ∧ fresh_tasks rest (λ id, id = nd_id (ru_node r) ∨ J id) ∧
  ∀ id, also rest (λ id, id = nd_id (ru_node r) ∨ J id) id ↔ also ts J id.
Proof.
  intros [Hnd Hf] Hp. rewrite Hp in Hnd. apply NoDup_cons in Hnd as [Hr Hnd]. split_and!.
  - apply Hf. rewrite Hp. by left.
  - split; [done|]. intros id Hid [->|HJ]; [done|]. apply (Hf id); [|done]. rewrite Hp. by right.
  - intros id. unfold also. rewrite Hp, elem_of_cons. tauto.
Qed.
Lemma fresh_same ts ts' J : task_ids ts' = task_ids ts → fresh_tasks ts J → fresh_tasks ts' J.
Proof. unfold fresh_tasks. by intros ->. Qed.

Lemma interleaved ts J g : fresh_tasks ts J → ∃ ts' g', interleave env cx ts g = (g', Ok ts') ∧
  calm g g' ∧ task_ids ts' = task_ids ts ∧ length ts' = length ts ∧ fresh_tasks ts' J.
Proof.
  intros Hf. destruct (interleave_spec ts g) as (ts' & H1 & E1).
  pose proof (still_interleave env cx modest no_id ts g) as C1.
  destruct (interleave _ _ _ _) as [g1 x1]. cbn [snd fst] in H1, C1. subst x1. exists ts', g1.
  split; [done|]. split; [done|]. split; [by apply map_nodes_ids|].
  split; [apply (f_equal length) in E1; by rewrite !length_map in E1|].
  eapply fresh_same; [by apply map_nodes_ids | done].
Qed.
Lemma next_joined r ts J g : fresh_tasks (r :: ts) J → ∃ r' j rest g',
  join_next env cx r ts g = (g', Ok (r', j, rest)) ∧ calm g g' ∧ ¬ J (nd_id (ru_node r')) ∧
  nd_id (ru_node r') ∈ task_ids (r :: ts) ∧
  S (length rest) = length (r :: ts) ∧ fresh_tasks rest (λ id, id = nd_id (ru_node r') ∨ J id) ∧
  ∀ id, also rest (λ id, id = nd_id (ru_node r') ∨ J id) id ↔ also (r :: ts) J id.
Proof.
  intros Hf. destruct (join_next_spec r ts g) as (r' & j & rest & H1 & Hp & Hl).
  pose proof (still_join_next env cx modest no_id r ts g) as C1.
  destruct (join_next _ _ _ _ _) as [g1 x1]. cbn [snd fst] in H1, C1. subst x1.
  destruct (fresh_next _ _ _ _ Hf Hp) as (Hn & Hf' & Ha). exists r', j, rest, g1. split_and!; try done.
  rewrite Hp. by left.
Qed.
Lemma also_nil J id : also [] J id ↔ J id.
Proof. unfold also, task_ids. cbn. set_solver. Qed.

Lemma drain_spec r0 drain_cause abort_cause fuel : ∀ ts co g J,
  length ts ≤ fuel → fresh_tasks ts J → joined r0 J co g → ∃ co' g',
    drain env cx fuel drain_cause abort_cause ts co g = (g', Ok co') ∧ calm g g' ∧
    joined r0 (also ts J) co' g'.
Proof.
  induction fuel as [|fuel IH]; intros [|r ts] co g J Hlen Hfr Hj; [|cbn in Hlen; lia| |].
  1,2: exists co, g; split; [done|]; split; [done|]; eapply joined_ext; [exact Hj | | done..];
       intros id; symmetry; apply also_nil.
  cbn [drain]. destruct (interleaved _ _ g Hfr) as (ts1 & g1 & E1 & C1 & I1 & L1 & F1).
  rewrite bind_run, E1. destruct ts1 as [|r1 ts1]; [done|].
  destruct (next_joined _ _ _ g1 F1) as (r2 & j & rest & g2 & E2 & C2 & Hn & _ & L2 & F2 & A2).
  rewrite bind_run, E2, bind_run, try_run.
  pose proof (joined_calm _ _ _ _ _ Hj (transitivity C1 C2)) as Hj2.
  pose proof (still_joined env cx no_id (ru_node r2) j drain_cause abort_cause g2) as C3.
  apply (joined_step _ _ _ _ (ru_node r2) j drain_cause abort_cause) in Hj2; [|done].
  cbn [length] in L1, L2, Hlen.
  destruct (IH rest _ _ _ ltac:(lia) F2 Hj2) as (co' & g' & Ho & Hc & Hj'). exists co', g'.
  split; [exact Ho|]. split; [by repeat (etrans; [eassumption|])|].
  eapply joined_ext; [exact Hj' | | done..]. intros id. rewrite A2. unfold also. by rewrite I1.
Qed.

(** An error of a join is one of a task without a report; a join is an outcome
    or such an error. *)
Record told (J : str → Prop) (co : collected) : Prop := {
  td_errors : co_errors co ≠ [] → ∃ id, J id ∧ bm_get id (co_outcomes co) = None;
  td_some : co_abort co = true ∨ (∃ id, J id) → co_outcomes co ≠ [] ∨ co_errors co ≠ [];
}.
Lemma told_step J co node j fact : told J co → ¬ J (nd_id node) →
  (∀ id x, bm_get id (co_outcomes co) = Some x → J id) →
  told (λ id, id = nd_id node ∨ J id) (note_join node j (note_fact fact co)).
Proof.
  intros [He Hs] Hn Hk. assert (Hi : bm_get (nd_id node) (co_outcomes co) = None).
  { destruct (bm_get _ _) eqn:E; [|done]. by apply Hk in E. }
  assert (Hins : ∀ r, bm_insert (nd_id node) r (co_outcomes co) ≠ []).
  { intros r E. pose proof (bm_get_insert_eq (nd_id node) r (co_outcomes co)) as Hg. by rewrite E in Hg. }
  split.
  - assert (Hold : ∀ r, co_errors co ≠ [] → ∃ id, (id = nd_id node ∨ J id) ∧
      bm_get id (bm_insert (nd_id node) r (co_outcomes co)) = None).
    { intros r (id & HJ & Ho)%He. exists id. split; [by right|]. rewrite bm_get_insert_ne; [done|].
      by intros ->. }
    intros Herr. destruct j as [[[]|]| | |]; cbn in Herr |- *; try (by apply Hold); try (by eauto).
    destruct (co_abort co); cbn in *; [|by eauto]. destruct (He Herr) as (id & ? & ?). eauto.
  - intros _. destruct j as [[[]|]| | |]; cbn; try (left; by apply Hins); try (right; by destruct (co_errors co)).
    destruct (co_abort co) eqn:Ea; cbn; [apply Hs; by left | right; by destruct (co_errors co)].
Qed.
Lemma collect_spec r0 fuel : ∀ ts co g J,
  length ts ≤ fuel → fresh_tasks ts J → joined r0 J co g → told J co → ∃ co' cancelled g',
    collect env cx fuel ts co g = (g', Ok (co', cancelled)) ∧ calm g g' ∧
    joined r0 (also ts J) co' g' ∧ (cancelled = false → told (also ts J) co').
Proof.
  induction fuel as [|fuel IH]; intros [|r ts] co g J Hlen Hfr Hj Ht; [|cbn in Hlen; lia| |].
  1,2: exists co, false, g; split; [done|]; split; [done|]; split;
       [eapply joined_ext; [exact Hj | | done..]; intros id; symmetry; apply also_nil|];
       intros _; destruct Ht; split; setoid_rewrite also_nil; done.
  cbn [collect]. destruct (interleaved _ _ g Hfr) as (ts1 & g1 & E1 & C1 & I1 & L1 & F1).
  rewrite bind_run, E1, bind_run. cbn [ask]. set (g1' := g1 <| eg_tick := _ |>).
  assert (C1' : calm g1 g1') by apply (still_ask cx no_id g1).
  pose proof (joined_calm _ _ _ _ _ Hj (transitivity C1 C1')) as Hj1.
  destruct (ev_cancelled _ _).
  { destruct (drain_spec r0 (s"parent_cancellation")
      (if co_abort co then s"fail_fast" else s"parent_cancellation") (length ts1) ts1 co g1' J)
      as (co' & g' & E & C & Hj'); [done..|].
    rewrite bind_run, E. exists co', true, g'. split; [done|].
    split; [by repeat (etrans; [eassumption|])|]. split; [|done].
    eapply joined_ext; [exact Hj' | | done..]. intros id. unfold also. by rewrite I1. }
  destruct ts1 as [|r1 ts1]; [done|].
  destruct (next_joined _ _ _ g1' F1) as (r2 & j & rest & g2 & E2 & C2 & Hn & _ & L2 & F2 & A2).
  rewrite bind_run, E2, bind_run, try_run. pose proof (joined_calm _ _ _ _ _ Hj1 C2) as Hj2.
  pose proof (still_joined env cx no_id (ru_node r2) j (fail_fast_cause co) (fail_fast_cause co) g2) as C3.
  pose proof (jn_keys _ _ _ _ Hj2) as Hkeys.
  apply (joined_step _ _ _ _ (ru_node r2) j (fail_fast_cause co) (fail_fast_cause co)) in Hj2; [|done].
  destruct (record_wave_join _ _ _ _ _ _ g2) as [g3 fact]. cbn [fst snd] in *.
  cbn [length] in L1, L2, Hlen.
  destruct (IH rest (note_join (ru_node r2) j (note_fact fact co)) g3 _ ltac:(lia) F2)
    as (co' & b & g' & Ho & Hc & Hj' & Ht').
  { eapply joined_ext; [exact Hj2 | done | |]; destruct j as [[[]|]| | |]; cbn; try done;
      by destruct (co_abort co). }
  { by apply told_step. }
  exists co', b, g'. split; [exact Ho|]. split; [by repeat (etrans; [eassumption|])|].
  split; [eapply joined_ext; [exact Hj' | | done..]; intros id; rewrite A2; unfold also; by rewrite I1|].
  intros Hb. destruct (Ht' Hb) as [He Hs]. split.
  - intros (id & HJ & Hid)%He. exists id. split; [|done]. apply A2 in HJ. unfold also in *. by rewrite <-I1.
  - intros [Ha|(id & HJ)]; apply Hs; [by left|]. right. exists id. apply A2. unfold also in *. by rewrite I1.
Qed.
End joins.
