(* ===== verification/EngineMoves.v ===== *)
(** * The scheduler of a run, and the run loop as its moves *)

From S2P Require Import Prelude Str TraceIds BMap Json ExprEval ValueBag ExprParser Serde Events RunState RunStateEffect JournalFile AuditRules JournalWriter Graph GraphBuild EngineTypes EngineWorld EngineExecute EngineRepair EngineRun EngineFold EngineCalm.

(** ** The scheduler of a run

    What [engine/src/engine/run.rs] promises about the nodes of a graph, without
    journal, variables or tasks: a node waits, is active, or has ended; moves
    leave marks.  The run loop refines this machine ([EngineMoves]). *)

Inductive phase : Type := Waiting | Active | Ended (c : class).
#[global] Instance phase_eq_dec : EqDecision phase.
Proof. solve_decision. Defined.
Definition view : Type := str → option phase.

Definition phase_of (st : NodeState) : phase :=
  match st with
  | Pending => Waiting
  | Running => Active
  | Success => Ended KSuccess
  | SkippedNode _ => Ended KSkipped
  | FailedNode _ => Ended KFailed
  end.
Definition view_of (states : bmap NodeState) : view := λ id, phase_of <$> bm_get id states.

(** ** Guards *)

Definition ended_well (o : option phase) : Prop :=
  o = Some (Ended KSuccess) ∨ o = Some (Ended KSkipped).
Definition has_ended (o : option phase) : Prop := ∃ c, o = Some (Ended c).
(** The dependencies let the node run. *)
Definition may_run (n : NodeDef) (v : view) : Prop :=
  nd_needs n = [] ∨
  match nd_on_deps n with
  | AllSucceeded => ∀ y, y ∈ nd_needs n → v y = Some (Ended KSuccess)
  | AnySucceeded => ∃ y, y ∈ nd_needs n ∧ v y = Some (Ended KSuccess)
  | NoneFailed => ∀ y, y ∈ nd_needs n → ended_well (v y)
  end.
(** A dependency that ended otherwise excludes the node. *)
Definition excluded (n : NodeDef) (v : view) : Prop :=
  ∃ y c, y ∈ nd_needs n ∧ v y = Some (Ended c) ∧ c ≠ KSuccess.

Lemma view_success states y :
  is_success (bm_get y states) = true ↔ view_of states y = Some (Ended KSuccess).
Proof. unfold view_of. by destruct (bm_get y states) as [[]|]. Qed.
Lemma view_settled states y :
  is_settled_ok (bm_get y states) = true ↔ ended_well (view_of states y).
Proof. unfold view_of, ended_well. destruct (bm_get y states) as [[]|]; naive_solver. Qed.
Lemma satisfied_may_run n states : needs_satisfied n states = true → may_run n (view_of states).
Proof.
  rewrite needs_satisfied_spec. unfold runs_when, may_run. intros [?|Hr]; [by left | right].
  destruct (nd_on_deps n); [by setoid_rewrite view_success in Hr..|by setoid_rewrite view_settled in Hr].
Qed.
Lemma skip_excluded n states d :
  should_skip_by_dependencies n states = Some d → excluded n (view_of states).
Proof.
  intros Hs. assert (Hi : is_Some (should_skip_by_dependencies n states)) by eauto.
  apply should_skip_spec in Hi as [Hne Hc].
  assert (Hb : ∃ y, y ∈ nd_needs n ∧ bad_state (bm_get y states) = true).
  { destruct (nd_on_deps n); [done | |].
    - destruct (nd_needs n) as [|y l]; [done|]. exists y. split; [left | apply Hc; left].
    - destruct Hc as (_ & y & Hy & Hf). exists y. split; [done | by apply failed_bad]. }
  destruct Hb as (y & Hy & Hb). unfold excluded, view_of. exists y.
  destruct (bm_get y states) as [[]|]; try done; cbn; eauto.
Qed.

(** ** Moves *)

Definition becomes (v : view) (id : str) (p : phase) (v' : view) : Prop :=
  v' id = Some p ∧ ∀ id', id' ≠ id → v' id' = v id'.

Section machine.
(** The nodes, the repair targets, and the nodes with a durable success of an
    earlier execution. *)
Variables (nodes : bmap NodeDef) (target replayed : str → Prop).

Inductive move : view → list mark → view → Prop :=
| move_start v v' id n :
    bm_get id nodes = Some n → v id = Some Waiting → may_run n v →
    becomes v id Active v' → move v [MStart id] v'
| move_interrupt v v' id :
    v id = Some Active → becomes v id Waiting v' → move v [MInterrupt id] v'
| move_finish v v' id c :
    v id = Some Active ∨ target id → c ≠ KSkipped → becomes v id (Ended c) v' → move v [MDone id c] v'
| move_replay v v' id n :
    bm_get id nodes = Some n → v id = Some Waiting → may_run n v → replayed id →
    becomes v id (Ended KSuccess) v' → move v [MDone id KSuccess] v'
| move_skip v v' id n :
    bm_get id nodes = Some n → v id = Some Waiting → may_run n v ∨ excluded n v →
    becomes v id (Ended KSkipped) v' → move v [MDone id KSkipped] v'
| move_repair v v' :
    (∀ id, ¬ target id → v' id = v id) → (∀ id, v' id = Some Waiting → v id = Some Waiting) →
    move v [] v'.

Inductive moves : view → list mark → view → Prop :=
| moves_nil v : moves v [] v
| moves_cons v ms v' ms' v'' : move v ms v' → moves v' ms' v'' → moves v (ms ++ ms') v''.

Lemma moves_one v ms v' : move v ms v' → moves v ms v'.
Proof. intros Hm. rewrite <-(app_nil_r ms). econstructor; [done | constructor]. Qed.
Lemma moves_app v ms v' ms' v'' : moves v ms v' → moves v' ms' v'' → moves v (ms ++ ms') v''.
Proof.
  intros H1 H2. induction H1 as [|v ms v1 ms1 v2 Hm H1 IH]; [done|].
  rewrite <-(assoc_L (++)). econstructor; eauto.
Qed.
Lemma moves_same v v' : (∀ id, v' id = v id) → moves v [] v'.
Proof. intros He. apply moves_one, move_repair; intros id; by rewrite He. Qed.

(** ** What the machine guarantees *)

(** A node that is no repair target stays ended. *)
Lemma moves_ended v ms v' id c :
  moves v ms v' → ¬ target id → v id = Some (Ended c) → v' id = Some (Ended c).
Proof.
  intros Hm Ht. induction Hm as [|v ms v1 ms1 v2 Hm _ IH]; [done|]. intros Hv. apply IH. clear IH.
  destruct Hm as [v v' i n _ Hw _ [_ Hb]|v v' i Hw [_ Hb]|v v' i c' Hw _ [_ Hb]|v v' i n _ Hw _ _ [_ Hb]
    |v v' i n _ Hw _ [_ Hb]|v v' Hb _]; try (rewrite Hb; [done|]; intros <-; naive_solver).
  by rewrite Hb.
Qed.
(** Only repair targets can appear. *)
Lemma moves_dom `{!∀ id, Decision (target id)} v ms v' id : moves v ms v' → is_Some (v' id) → is_Some (v id) ∨ target id.
Proof.
  intros Hm. induction Hm as [|v ms v1 ms1 v2 Hm _ IH]; [by left|]. intros [Hv|?]%IH; [|by right]. clear IH.
  destruct Hm as [v v' i n _ Hw _ [Hi Hb]|v v' i Hw [Hi Hb]|v v' i c' Hw _ [Hi Hb]|v v' i n _ Hw _ _ [Hi Hb]
    |v v' i n _ Hw _ [Hi Hb]|v v' Hb _]; try (destruct (decide (id = i)) as [->|Hne]; [|rewrite Hb in Hv; auto];
    first [destruct Hw as [Hw|?]; [|by right]; rewrite Hw | rewrite Hw]; left; by eexists).
  destruct (decide (target id)); [by right | left; by rewrite <-Hb].
Qed.
(** It ends by a mark. *)
Lemma moves_done v ms v' id c :
  moves v ms v' → ¬ target id → v' id = Some (Ended c) → v id = Some (Ended c) ∨ MDone id c ∈ ms.
Proof.
  intros Hm Ht. induction Hm as [|v ms v1 ms1 v2 Hm _ IH]; [by left|]. intros Hv.
  destruct (IH Hv) as [Hv1|Hin]; [|right; set_solver]. clear IH Hv.
  destruct Hm as [v v' i n _ Hw _ [Hi Hb]|v v' i Hw [Hi Hb]|v v' i c' Hw _ [Hi Hb]|v v' i n _ Hw _ _ [Hi Hb]
    |v v' i n _ Hw _ [Hi Hb]|v v' Hb _];
    try (destruct (decide (id = i)) as [->|Hne]; [rewrite Hi in Hv1; simplify_eq; right; set_solver|];
         left; by rewrite <-Hb).
  left. by rewrite <-Hb.
Qed.

(** A start finds the needs of its node ended as its policy asks. *)
Lemma moves_split v ms v' : moves v ms v' → ∀ before m after, ms = before ++ m :: after →
  ∃ v1 v2, moves v before v1 ∧ move v1 [m] v2 ∧ moves v2 after v'.
Proof.
  intros Hm. induction Hm as [|v ms v1 ms1 v2 Hm H1 IH]; intros before m after E; [by destruct before|].
  assert (Hl : ms = [] ∨ ∃ x, ms = [x]) by (destruct Hm; eauto).
  destruct Hl as [->|[x ->]].
  - destruct (IH _ _ _ E) as (w1 & w2 & Ha & Hb & Hc). exists w1, w2.
    split; [|done]. by eapply (moves_cons _ [] _ before).
  - destruct before as [|y before]; cbn in E; injection E as -> E.
    + subst ms1. exists v, v1. split; [constructor | done].
    + destruct (IH _ _ _ E) as (w1 & w2 & Ha & Hb & Hc). exists w1, w2.
      split; [|done]. by eapply (moves_cons _ [y] _ before).
Qed.
Lemma move_start_inv v id v' : move v [MStart id] v' → ∃ n,
  bm_get id nodes = Some n ∧ v id = Some Waiting ∧ may_run n v ∧ becomes v id Active v'.
Proof. inversion 1; subst; eauto. Qed.

(** Without an interruption a node does not come back to waiting. *)
Lemma moves_waiting v ms v' id :
  moves v ms v' → v' id = Some Waiting → MInterrupt id ∉ ms → v id = Some Waiting.
Proof.
  intros Hm Hw. induction Hm as [|v ms v1 ms1 v2 Hm _ IH]; [done|]. intros Hn.
  specialize (IH Hw ltac:(set_solver)). clear Hw.
  destruct Hm as [v v' i n _ Hw _ [Hi Hb]|v v' i Hw [Hi Hb]|v v' i c' Hw _ [Hi Hb]|v v' i n _ Hw _ _ [Hi Hb]
    |v v' i n _ Hw _ [Hi Hb]|v v' _ Hb]; [.. | by apply Hb];
    (destruct (decide (id = i)) as [->|Hne]; [|by rewrite <-Hb]); [rewrite Hi in IH; simplify_eq| |rewrite Hi in IH; simplify_eq..].
  set_solver.
Qed.
Lemma moves_restart v ms v' id before between after :
  moves v ms v' → ms = before ++ MStart id :: between ++ MStart id :: after → MInterrupt id ∈ between.
Proof.
  intros Hm E. destruct (moves_split _ _ _ Hm _ _ _ E) as (v1 & v2 & _ & Hs & Hm2).
  apply move_start_inv in Hs as (_ & _ & _ & _ & [Ha _]).
  destruct (moves_split _ _ _ Hm2 _ _ _ eq_refl) as (v3 & v4 & Hb & Hs & _).
  apply move_start_inv in Hs as (_ & _ & Hw & _ & _).
  destruct (decide (MInterrupt id ∈ between)) as [|Hn]; [done|].
  pose proof (moves_waiting _ _ _ _ Hb Hw Hn) as Hv. congruence.
Qed.

(** What has ended well enough for a node keeps doing so. *)
Lemma may_run_mono n v v' : (∀ y c, v y = Some (Ended c) → v' y = Some (Ended c)) →
  may_run n v → may_run n v'.
Proof.
  intros Hk [?|Hr]; [by left | right]. destruct (nd_on_deps n).
  - eauto.
  - destruct Hr as (y & ? & ?). eauto.
  - intros y Hy. destruct (Hr y Hy); [left | right]; eauto.
Qed.
End machine.

#[local] Arguments s : simpl never.

(** ** The operations of the run loop as moves of the scheduler *)

(** * Repairs and hooks leave the nodes alone

    Apart from the repair targets, whose states a repair sets. *)

Section still_more.
Context {W : WireTypes} {Sha : Sha256} {Msg : Messages} {Frm : Forms} {Cm : CaseMapping}.
Variables (env : Environment) (cx : RunContext).

(** The repair and recheck nodes of a graph. *)
Definition repairs_with (id : str) (n : NodeDef) : bool :=
  match nd_on_fail n with
  | Some (Repair repair recheck _ _) => (id =s repair) || (id =s recheck)
  | _ => false
  end.
Definition target (id : str) : Prop :=
  existsb (repairs_with id) (bm_values (g_nodes (cx_graph cx))) = true.
#[global] Instance target_dec id : Decision (target id).
Proof. unfold target. apply _. Defined.
Lemma targets_of n repair recheck m e : n ∈ bm_values (g_nodes (cx_graph cx)) →
  nd_on_fail n = Some (Repair repair recheck m e) → target repair ∧ target recheck.
Proof.
  intros Hn Hf. unfold target. rewrite !existsb_exists. unfold repairs_with.
  split; exists n; (split; [by apply list_elem_of_In|]); rewrite Hf, str_eqb_refl; [done | apply orb_true_r].
Qed.
Definition keyed : Prop := ∀ k n, bm_get k (g_nodes (cx_graph cx)) = Some n → nd_id n = k.

Hypotheses (modest : modest_bodies env cx) (plain : plain_ids cx).
Notation still := (still cx).

Lemma still_set_node (T : str → Prop) id st : T id → st ≠ Pending → still T (set_node id st).
Proof.
  intros Ht Hst g. split; cbn; try done.
  - intros id' Hid. apply bm_get_insert_ne. by intros ->.
  - intros id'. rewrite bm_get_insert. destruct (str_eqb id' id); [by intros [= ->] | done].
  - apply bm_sorted_insert.
  - intros id'. rewrite bm_get_insert. destruct (str_eqb id' id); [by eexists | done].
Qed.
Lemma still_subtree T path : still T (sync_subtree path).
Proof. by apply still_put. Qed.
Hint Resolve still_set_node still_subtree : engine.

(** Records about a repair child or a hook. *)
Lemma still_child T kind payload owner attempt child :
  kind ∉ foreach_kinds →
  get_str (s"node") (VObject (payload_object payload)) = Some (repair_child owner attempt child) →
  still T (event env cx ByRepair kind payload).
Proof.
  intros Hk Hn. eapply still_foreign; [done | done | exact Hn |].
  intros Hid. by apply (proj1 (plain _ Hid) owner attempt child).
Qed.
Lemma still_hook_record T kind payload ev hook :
  kind ∉ foreach_kinds →
  get_str (s"node") (VObject (payload_object payload)) = Some (s"hook." ++ ev ++ s"." ++ hook) →
  still T (event env cx ByHook kind payload).
Proof.
  intros Hk Hn. eapply still_foreign; [done | done | exact Hn |].
  intros Hid. by apply (proj2 (plain _ Hid) ev hook).
Qed.
Ltac not_foreach := apply (bool_decide_unpack _); vm_compute; exact I.

Lemma still_finish_named (T : str → Prop) found owner attempt child graph_id o : T graph_id →
  still T (finish_named env cx (under_path found (repair_child owner attempt child)) graph_id o).
Proof.
  intros Ht. unfold finish_named. stills; (eapply still_child; [not_foreach | reflexivity]).
Qed.
Hint Resolve still_finish_named : engine.
Lemma still_named (T : str → Prop) owner node_id attempt :
  (∀ found, bm_get node_id (g_nodes (cx_graph cx)) = Some found → T (nd_id found)) →
  still T (execute_named_node env cx owner node_id attempt).
Proof.
  intros Ht. unfold execute_named_node. stills; try (apply still_set_node; [by apply Ht | done]).
  all: eapply still_child; [not_foreach | reflexivity].
Qed.

(** A repair cycle of [failed] whose targets are in [T]. *)
Lemma still_cycle (T : str → Prop) failed findings : keyed →
  (∀ repair recheck m e, nd_on_fail failed = Some (Repair repair recheck m e) → T repair ∧ T recheck) →
  still T (execute_repair_cycle env cx failed findings).
Proof.
  intros Hk Ht. unfold execute_repair_cycle.
  destruct (nd_on_fail failed) as [[repair recheck m ex| | | |]|] eqn:Ef; try apply still_ret.
  destruct (Ht _ _ _ _ eq_refl) as [T1 T2].
  assert (N1 : ∀ a, still T (execute_named_node env cx (nd_id failed) repair a)).
  { intros a. apply still_named. intros found ->%Hk. done. }
  assert (N2 : ∀ a, still T (execute_named_node env cx (nd_id failed) recheck a)).
  { intros a. apply still_named. intros found ->%Hk. done. }
  assert (Na : ∀ a, still T (repair_attempt env cx failed repair recheck m a)).
  { intros a. unfold repair_attempt, suspend_user, suspend_confirm, attempt_finished. stills. }
  assert (Nr : ∀ k a r, still T (repair_attempts env cx k failed repair recheck m a r)).
  { induction k as [|k IH]; intros a r; cbn [repair_attempts]; stills. }
  unfold repair_exhausted, skip_cycle, cycle_exhausted. stills; by apply still_set_node.
Qed.
Lemma still_regenerate T node m findings : still T (execute_regenerate env cx node m findings).
Proof.
  assert (Hr : ∀ k a last, still T (regenerate_attempts env cx k node m a last)).
  { induction k as [|k IH]; intros a last; cbn [regenerate_attempts]; stills. }
  unfold execute_regenerate. stills.
Qed.

Lemma still_run_hooks T ev : still T (run_hooks env cx ev).
Proof.
  apply still_each. intros hook _. unfold run_hook, skip_hook, hook_record.
  assert (He : still T (execute_hook env cx ev hook (hook_to_node hook ev))).
  { unfold execute_hook, finish_hook, fail_hook, skip_hook, hook_record. stills;
      eapply still_hook_record; [not_foreach | reflexivity | not_foreach | reflexivity]. }
  stills.
Qed.
End still_more.

(** * The run loop moves like the scheduler

    As long as the journal accepts the records of a run, what the engine does
    to its node states are moves of [EngineSched], marked in the journal, and
    the fold of the journal knows how every node ended. *)

Lemma bm_insert_dom {V} k (v : V) m k' : is_Some (bm_get k' m) → is_Some (bm_get k' (bm_insert k v m)).
Proof. rewrite bm_get_insert. destruct (str_eqb k' k); [by eexists | done]. Qed.
Ltac keeping := split; cbn; first [done | lia | apply bm_sorted_insert | intros ?; apply bm_insert_dom].

Definition outcome_class (o : NodeOutcome) : class :=
  match o with NodeSuccess _ _ => KSuccess | NodeSkipped _ => KSkipped | NodeFailed _ => KFailed end.

Section moves.
Context {W : WireTypes} {Sha : Sha256} {Msg : Messages} {Frm : Forms} {Cm : CaseMapping}.
Variables (env : Environment) (cx : RunContext).
Notation nodes := (g_nodes (cx_graph cx)).
Notation target := (target cx).

Definition view_at (g : engine) : view := view_of (eg_states g).
Definition replays (id : str) : Prop := is_Some (bm_get id (replayed_steps (cx_replay cx))).
Notation run_moves := (moves nodes target replays).

(** The journal knows how a node ended, and nothing new about one that has not. *)
Definition outcome_known (g : engine) (id : str) (p : phase) : Prop :=
  match p with
  | Ended c => outcome_class <$> node_of (eg_state g) id = Some c
  | _ => node_of (eg_state g) id = node_of (cx_replay cx) id
  end.
Definition tracked (g : engine) : Prop := ∀ id p, id ∈ ids cx → ¬ target id →
  view_at g id = Some p → outcome_known g id p.

Record advanced (g g' : engine) : Prop := {
  ad_refused : eg_refused g' = eg_refused g;
  ad_moves : ∃ ms, trace g' = trace g ++ ms ∧ run_moves (view_at g) ms (view_at g');
  ad_tracked : tracked g → tracked g';
  ad_anomaly : eg_anomaly g' = eg_anomaly g;
}.
Record kept (g g' : engine) : Prop := {
  kp_anomaly : eg_anomaly g' = eg_anomaly g;
  kp_tick : eg_tick g ≤ eg_tick g';
  kp_sorted : bm_sorted (eg_states g) → bm_sorted (eg_states g');
  kp_dom : ∀ id, is_Some (bm_get id (eg_states g)) → is_Some (bm_get id (eg_states g'));
}.
(** A record was refused, or the engine made moves. *)
Definition leads (g g' : engine) : Prop :=
  kept g g' ∧ (eg_refused g < eg_refused g' ∨ advanced g g').

#[global] Instance leads_preorder : PreOrder leads.
Proof.
  split.
  - intros g. split; [done|]. right. split; try done. exists []. rewrite app_nil_r. split; [done | constructor].
  - intros g1 g2 g3 [[A1 K1 O1 D1] L1] [[A2 K2 O2 D2] L2].
    split; [split; [congruence | lia | auto | auto]|].
    destruct L1 as [?|[R1 (m1 & E1 & M1) T1 _]], L2 as [?|[R2 (m2 & E2 & M2) T2 _]];
      [left; lia.. | right]. split; [congruence | | auto | congruence].
    exists (m1 ++ m2). split; [by rewrite E2, E1, (assoc_L (++)) | by eapply moves_app].
Qed.
Lemma leads_refused g g' : leads g g' → eg_refused g ≤ eg_refused g'.
Proof. intros [_ [?|[]]]; lia. Qed.

Lemma calm_mono (T T' : str → Prop) g g' : (∀ id, T id → T' id) → calm cx T g g' → calm cx T' g g'.
Proof. intros HT [S P]. split; try done. intros id Hid. apply S. eauto. Qed.
Lemma calm_tracked g g' : calm cx target g g' → tracked g → tracked g'.
Proof.
  intros Hc Ht id p Hid Hn Hv. unfold view_at, view_of in Hv. rewrite (ca_states _ _ _ _ Hc id Hn) in Hv.
  specialize (Ht id p Hid Hn Hv). unfold outcome_known in *.
  by rewrite (proj1 (ca_nodes _ _ _ _ Hc id Hid)).
Qed.
Lemma calm_leads g g' : calm cx target g g' → leads g g'.
Proof.
  intros Hc. split; [split; apply Hc|]. pose proof (ca_refused _ _ _ _ Hc) as Hr.
  destruct (decide (eg_refused g' = eg_refused g)) as [E|]; [right | left; lia].
  split; [done | | by apply calm_tracked | apply Hc].
  exists []. split; [rewrite app_nil_r; apply Hc|]. apply moves_one, move_repair; intros id; unfold view_at, view_of.
  - intros Hn. by rewrite (ca_states _ _ _ _ Hc id Hn).
  - intros Hw. rewrite (ca_pending _ _ _ _ Hc id); [done|]. by destruct (bm_get id _) as [[]|].
Qed.
Lemma still_leads {A} (m : EM A) g : still cx target m → leads g (m g).1.
Proof. intros Hs. apply calm_leads, Hs. Qed.

(** ** One recorded move *)

Definition settle_to (id : str) (st : NodeState) (kind : str) (payload : value) : EM () :=
  _ ← set_node id st; event env cx ByLoop kind payload.
Definition moved (g : engine) (id : str) (st : NodeState) (st' : RunState) : engine :=
  g <| eg_states := bm_insert id st (eg_states g) |> <| eg_state := st' |>.

Lemma view_insert id st states : becomes (view_of states) id (phase_of st) (view_of (bm_insert id st states)).
Proof.
  unfold view_of. split; [by rewrite bm_get_insert_eq|]. intros id' Hid. by rewrite bm_get_insert_ne.
Qed.
Lemma settle_to_leads id st kind payload m g :
  mark_of (mkEntry ByLoop kind payload) = Some m →
  (∀ v', becomes (view_at g) id (phase_of st) v' → move nodes target replays (view_at g) [m] v') →
  (∀ clock audited st', accept cx clock audited kind payload (eg_state g) = Ok st' →
     (∀ id', id' ∈ ids cx → id' ≠ id → node_of st' id' = node_of (eg_state g) id') ∧
     (id ∈ ids cx → ¬ target id → tracked g → outcome_known (g <| eg_state := st' |>) id (phase_of st))) →
  leads g (settle_to id st kind payload g).1 ∧
  ((settle_to id st kind payload g).2 = Ok () →
     view_at (settle_to id st kind payload g).1 id = Some (phase_of st)).
Proof.
  intros Hm Hmove Hacc. unfold settle_to. rewrite bind_run. cbn [set_node put].
  set (g1 := g <| eg_states := _ |>).
  assert (Hb : becomes (view_at g) id (phase_of st) (view_of (bm_insert id st (eg_states g)))) by apply view_insert.
  unfold event. cbn zeta. destruct (ev_storage env (eg_tick g1)).
  { split; [|done]. split; [keeping|]. left. cbn. lia. }
  destruct (accept _ _ _ _ _ _) as [st'|] eqn:Ea; [|split; [split; [keeping|]; left; cbn; lia | done]].
  split; [|intros _; apply Hb]. split; [keeping|]. right. split; try done.
  - exists [m]. split; [unfold trace; cbn; by rewrite trace_snoc, Hm|]. apply moves_one, Hmove, Hb.
  - intros Ht id' p Hid Hn Hv. destruct (Hacc _ _ _ Ea) as [Hothers Hthis].
    change (view_of (bm_insert id st (eg_states g)) id' = Some p) in Hv.
    destruct (decide (id' = id)) as [->|Hne].
    + rewrite (proj1 Hb) in Hv. injection Hv as <-. by apply Hthis.
    + assert (Hv' : view_at g id' = Some p) by (rewrite <-Hv; symmetry; by apply (proj2 Hb)).
      specialize (Ht id' p Hid Hn Hv'). unfold outcome_known in *. cbn [eg_state].
      change (eg_state _) with st'. by rewrite (Hothers id' Hid Hne).
Qed.

(** Starting and interrupting say nothing new to the fold. *)
Lemma accept_other clock audited kind payload st st' id :
  accept cx clock audited kind payload st = Ok st' →
  subject kind (VObject (payload_object payload)) ≠ Some id → node_of st' id = node_of st id.
Proof. intros Ha Hs. by eapply (accept_keeps cx). Qed.
Lemma start_leads id n payload g :
  get_str (s"node") payload = Some id → bm_get id nodes = Some n →
  view_at g id = Some Waiting → may_run n (view_at g) →
  leads g (settle_to id Running (s"step_started") payload g).1 ∧
  ((settle_to id Running (s"step_started") payload g).2 = Ok () →
     view_at (settle_to id Running (s"step_started") payload g).1 id = Some Active).
Proof.
  intros Hn Hg Hw Hr. apply (settle_to_leads id Running _ _ (MStart id)).
  - unfold mark_of. cbn [en_by en_kind en_payload]. by rewrite Hn.
  - intros v' Hb. by eapply move_start.
  - intros clock audited st' Ha. split; [intros id' _ _; by eapply accept_other|].
    intros Hid Ht Htr. specialize (Htr id _ Hid Ht Hw). cbn in *. rewrite <-Htr. by eapply accept_other.
Qed.
Lemma interrupt_leads id payload g :
  get_str (s"node") payload = Some id → view_at g id = Some Active →
  leads g (settle_to id Pending (s"step_interrupted") payload g).1.
Proof.
  intros Hn Hw. apply (settle_to_leads id Pending _ _ (MInterrupt id)).
  - unfold mark_of. cbn [en_by en_kind en_payload]. by rewrite Hn.
  - intros v' Hb. by eapply move_interrupt.
  - intros clock audited st' Ha. split; [intros id' _ _; by eapply accept_other|].
    intros Hid Ht Htr. specialize (Htr id _ Hid Ht Hw). cbn in *. rewrite <-Htr. by eapply accept_other.
Qed.

(** The settling records. *)
Definition node_field (payload : value) (id : str) : Prop :=
  bm_get (s"node") (payload_object payload) = Some (VString id).
Definition status_field (payload : value) (status : str) : Prop :=
  bm_get (s"status") (payload_object payload) = Some (VString status).
Lemma field_str key payload x :
  bm_get key (payload_object payload) = Some (VString x) → (∃ m, payload = VObject m) → get_str key payload = Some x.
Proof. intros Hf [m ->]. unfold get_str, get. cbn in Hf |- *. by rewrite Hf. Qed.
Lemma subject_settling kind payload id id' : kind_in kind foreach_kinds = false →
  node_field payload id → id' ≠ id → subject kind (VObject (payload_object payload)) ≠ Some id'.
Proof.
  intros Hk Hn Hne. unfold subject. rewrite Hk. case_if; [|done].
  unfold get_str, get. unfold node_field in Hn. cbn. rewrite Hn. cbn. congruence.
Qed.

Definition may_finish (g : engine) (id : str) : Prop := view_at g id = Some Active ∨ target id.
Definition status_class (status : str) : class := if is_success_status status then KSuccess else KFailed.
Lemma finish_leads id st payload status g :
  (∃ m, payload = VObject m) → node_field payload id → status_field payload status →
  is_suspended_status status = false → phase_of st = Ended (status_class status) → may_finish g id →
  leads g (settle_to id st (s"step_finished") payload g).1 ∧
  ((settle_to id st (s"step_finished") payload g).2 = Ok () →
     has_ended (view_at (settle_to id st (s"step_finished") payload g).1 id)).
Proof.
  intros Ho Hn Hs Hsus Hst Hf.
  destruct (settle_to_leads id st (s"step_finished") payload (MDone id (status_class status)) g) as [Hl Hv].
  - unfold mark_of. cbn [en_by en_kind en_payload].
    rewrite (field_str _ _ _ Hn Ho), (field_str _ _ _ Hs Ho). cbn -[is_suspended_status is_success_status].
    by rewrite Hsus.
  - intros v' Hb. apply move_finish; [done | unfold status_class; by case_if | by rewrite <-Hst].
  - intros clock audited st' Ha. split.
    + intros id' _ Hne. eapply accept_other; [exact Ha | by eapply subject_settling].
    + intros _ _ _. rewrite Hst. cbn. pose proof (accept_finished cx _ _ _ _ _ id status Ha Hn Hs) as Hout.
      unfold outcome_of_status, status_class in *. rewrite Hsus in Hout.
      destruct (is_success_status status); [destruct Hout as (? & ? & ->) | destruct Hout as (? & ->)]; done.
  - split; [done|]. intros Hok. rewrite (Hv Hok), Hst. by eexists.
Qed.
Lemma skip_leads id n st payload g :
  (∃ m, payload = VObject m) → node_field payload id → phase_of st = Ended KSkipped →
  bm_get id nodes = Some n → view_at g id = Some Waiting → may_run n (view_at g) ∨ excluded n (view_at g) →
  leads g (settle_to id st (s"step_skipped") payload g).1 ∧
  ((settle_to id st (s"step_skipped") payload g).2 = Ok () →
     view_at (settle_to id st (s"step_skipped") payload g).1 id = Some (phase_of st)).
Proof.
  intros Ho Hn Hst Hg Hw Hr. apply (settle_to_leads id st _ _ (MDone id KSkipped)).
  - unfold mark_of. cbn [en_by en_kind en_payload]. by rewrite (field_str _ _ _ Hn Ho).
  - intros v' Hb. rewrite Hst in Hb. by eapply move_skip.
  - intros clock audited st' Ha. split.
    + intros id' _ Hne. eapply accept_other; [exact Ha | by eapply subject_settling].
    + intros _ _ _. rewrite Hst. cbn. by destruct (accept_skipped cx _ _ _ _ _ id Ha Hn) as [? ->].
Qed.
Lemma replay_leads id n payload g :
  (∃ m, payload = VObject m) → node_field payload id → bm_sorted (rs_nodes (cx_replay cx)) →
  bm_get id nodes = Some n → view_at g id = Some Waiting → may_run n (view_at g) → replays id →
  leads g (settle_to id Success (s"step_replayed") payload g).1 ∧
  ((settle_to id Success (s"step_replayed") payload g).2 = Ok () →
     view_at (settle_to id Success (s"step_replayed") payload g).1 id = Some (phase_of Success)).
Proof.
  intros Ho Hn Hsort Hg Hw Hr Hrep. apply (settle_to_leads id Success _ _ (MDone id KSuccess)).
  - unfold mark_of. cbn [en_by en_kind en_payload]. by rewrite (field_str _ _ _ Hn Ho).
  - intros v' Hb. by eapply move_replay.
  - intros clock audited st' Ha. split; [intros id' _ _; by eapply accept_other|].
    intros Hid Ht Htr. specialize (Htr id _ Hid Ht Hw). cbn in *.
    rewrite (accept_other _ _ _ _ _ _ id Ha), Htr by done.
    destruct Hrep as [r Hrep]. apply bm_get_elem in Hrep. unfold replayed_steps in Hrep.
    apply list_elem_of_omap in Hrep as ([path o] & Hin & Ho'). destruct o; simplify_eq.
    apply bm_elem_get in Hin; [|done]. unfold node_of. by rewrite Hin.
Qed.
(** A question leaves a node open. *)
Lemma suspended_leads kind payload id g :
  (∃ m, payload = VObject m) → node_field payload id →
  kind = s"confirm_request" ∨ kind = s"step_finished" ∧ status_field payload (s"needs_user") →
  leads g (event env cx ByLoop kind payload g).1.
Proof.
  intros Ho Hn Hk. unfold event. cbn zeta.
  destruct (ev_storage env (eg_tick g)); [split; [keeping|]; left; cbn; lia|].
  destruct (accept _ _ _ _ _ _) as [st'|] eqn:Ea; [|split; [keeping|]; left; cbn; lia].
  cbn [eg_state] in Ea. change (eg_state _) with (eg_state g) in Ea.
  assert (Hsame : ∀ id', node_of st' id' = node_of (eg_state g) id').
  { intros id'. destruct Hk as [->|[-> Hs]]; [by eapply (accept_confirm cx)|].
    destruct (decide (id' = id)) as [->|Hne]; [|by eapply accept_other, subject_settling].
    by apply (accept_finished cx _ _ _ _ _ id (s"needs_user") Ea Hn Hs). }
  split; [keeping|]. right. split; try done.
  - exists []. split; [|apply moves_nil]. rewrite app_nil_r. unfold trace. cbn. rewrite trace_snoc.
    replace (mark_of _) with (@None mark); [by rewrite app_nil_r|]. unfold mark_of. cbn [en_by en_kind en_payload].
    destruct Hk as [->|[-> Hs]]; [done|]. by rewrite (field_str _ _ _ Hs Ho).
  - intros Ht id' p Hid Hnt Hv. specialize (Ht id' p Hid Hnt Hv). unfold outcome_known in *. cbn [eg_state].
    change (eg_state _) with st'. by rewrite Hsame.
Qed.
End moves.

(** * Settling nodes

    Triples about the operations of the run loop: what they do are moves of the
    scheduler, and what holds of the node states when they return. *)

Section settle.
Context {W : WireTypes} {Sha : Sha256} {Msg : Messages} {Frm : Forms} {Cm : CaseMapping}.
Variables (env : Environment) (cx : RunContext).
Notation nodes := (g_nodes (cx_graph cx)).
Notation target := (target cx).
Notation leads := (leads cx).

(** ** Triples *)

Definition triple {A} (P : engine → Prop) (m : EM A) (Q : A → engine → Prop) : Prop := ∀ g,
  P g → leads g (m g).1 ∧ ∀ x, (m g).2 = Ok x → Q x (m g).1.
(** Assertions about the node states alone. *)
Definition about_nodes (P : engine → Prop) : Prop := ∀ g g',
  (∀ id, view_at g' id = view_at g id) → P g → P g'.

Lemma triple_ret {A} (P : engine → Prop) (x : A) (Q : A → engine → Prop) :
  (∀ g, P g → Q x g) → triple P (mret x) Q.
Proof. intros HQ g HP. split; [reflexivity|]. intros y [= <-]. by apply HQ. Qed.
Lemma triple_raise {A} P e (Q : A → engine → Prop) : triple P (raise e) Q.
Proof. intros g HP. by split. Qed.
Lemma triple_run_bind {A B} P (m : EM A) (k : A → EM B) R Q :
  triple P m R → (∀ x, triple (R x) (k x) Q) → triple P (m ≫= k) Q.
Proof.
  intros Hm Hk g HP. destruct (Hm g HP) as [Hl HR]. rewrite bind_run.
  destruct (m g) as [g1 [x|e]]; cbn [fst snd] in *; [|by split].
  destruct (Hk x g1 (HR x eq_refl)) as [Hl' HQ]. split; [by etrans | done].
Qed.
Lemma triple_run_pre {A} (P P' : engine → Prop) (m : EM A) Q : (∀ g, P g → P' g) → triple P' m Q → triple P m Q.
Proof. intros HP Hm g Hg. by apply Hm, HP. Qed.
Lemma triple_run_post {A} P (m : EM A) (Q Q' : A → engine → Prop) :
  (∀ x g, Q x g → Q' x g) → triple P m Q → triple P m Q'.
Proof. intros HQ Hm g Hg. destruct (Hm g Hg). split; eauto. Qed.
Lemma triple_match {A B} P (o : option A) (m : A → EM B) (m' : EM B) Q :
  (∀ x, o = Some x → triple P (m x) Q) → (o = None → triple P m' Q) →
  triple P match o with Some x => m x | None => m' end Q.
Proof. destruct o; eauto. Qed.
Lemma triple_still {A} P (m : EM A) :
  about_nodes P → still cx no_id m → triple P m (λ _, P).
Proof.
  intros HP Hm g Hg. pose proof (Hm g) as Hc. split.
  - apply calm_leads. eapply calm_mono; [|exact Hc]. by intros id [].
  - intros x _. eapply HP; [|exact Hg]. intros id. unfold view_at, view_of.
    by rewrite (ca_states _ _ _ _ Hc id) by (by intros []).
Qed.
(** [try_] hands the result on, the state of the error case included. *)
Lemma triple_try_still {A} P (m : EM A) :
  about_nodes P → still cx no_id m → triple P (try_ m) (λ _, P).
Proof. intros HP Hm. apply triple_still; [done | by apply still_try]. Qed.

Lemma about_may_finish id : about_nodes (λ g, may_finish cx g id).
Proof. intros g g' Hv. unfold may_finish. by rewrite Hv. Qed.
Lemma about_ended id : about_nodes (λ g, has_ended (view_at g id)).
Proof. intros g g' Hv. by rewrite Hv. Qed.
Lemma about_true : about_nodes (λ _, True).
Proof. done. Qed.
Hint Resolve about_may_finish about_ended about_true : engine.

(** ** Settling records *)

Definition ends (id : str) {A} (m : EM A) : Prop :=
  triple (λ g, may_finish cx g id) m (λ _ g, has_ended (view_at g id)).
Lemma ends_finish {A} id st payload status (k : () → EM A) :
  (∃ m, payload = VObject m) → node_field payload id → status_field payload status →
  is_suspended_status status = false → phase_of st = Ended (status_class status) →
  (∀ x, still cx no_id (k x)) →
  ends id (_ ← set_node id st; x ← event env cx ByLoop (s"step_finished") payload; k x).
Proof.
  intros Ho Hn Hs Hsus Hst Hk.
  change (ends id (settle_to env cx id st (s"step_finished") payload ≫= k)).
  eapply triple_run_bind; [|intros x; apply triple_still; [apply about_ended | apply Hk]].
  intros g Hg. destruct (finish_leads env cx id st payload status g) as [Hl He]; [done..|].
  split; [done|]. intros [] Hx. by apply He.
Qed.
Lemma ends_finish' id st payload status :
  (∃ m, payload = VObject m) → node_field payload id → status_field payload status →
  is_suspended_status status = false → phase_of st = Ended (status_class status) →
  ends id (settle_to env cx id st (s"step_finished") payload).
Proof.
  intros Ho Hn Hs Hsus Hst g Hg. destruct (finish_leads env cx id st payload status g) as [Hl He]; [done..|].
  split; [done|]. intros [] Hx. by apply He.
Qed.
(** A question is recorded and raised. *)
Lemma ends_suspend {A} id kind payload e :
  (∃ m, payload = VObject m) → node_field payload id →
  kind = s"confirm_request" ∨ kind = s"step_finished" ∧ status_field payload (s"needs_user") →
  ends id (A:=A) (_ ← event env cx ByLoop kind payload; raise e).
Proof.
  intros Ho Hn Hk. eapply (triple_run_bind _ _ _ (λ _ _, True)); [|intros; apply triple_raise].
  intros g _. split; [by eapply suspended_leads | done].
Qed.
Lemma ends_still {A B} id (m : EM A) (k : A → EM B) :
  still cx no_id m → (∀ x, ends id (k x)) → ends id (m ≫= k).
Proof. intros Hm Hk. eapply triple_run_bind; [apply triple_still; [apply about_may_finish | done] | exact Hk]. Qed.
Lemma ends_raise {A} id e : ends id (A:=A) (raise e).
Proof. apply triple_raise. Qed.

(** ** A node outside a wave *)

Lemma settle_success_ends node status more output evidence :
  is_success_status status = true → is_suspended_status status = false →
  (let payload := obj (status_payload node status ++ more ++
        [(s"output", v_opt id output); (s"output_name", VString (output_name_for node))]) in
   node_field payload (nd_id node) ∧ status_field payload status) →
  ends (nd_id node) (settle_success env cx node status more output evidence).
Proof.
  intros Hs Hsus [Hn Hst]. unfold settle_success. cbn zeta. apply ends_still; [apply still_publish|]. intros _.
  eapply (ends_finish' _ _ _ status); try done.
  - destruct evidence as [[]|]; by eexists.
  - destruct evidence as [[]|]; [|done]. unfold node_field, with_failed_evidence. cbn [payload_object obj].
    rewrite !bm_get_insert_ne by done. exact Hn.
  - destruct evidence as [[]|]; [|done]. unfold status_field, with_failed_evidence. cbn [payload_object obj].
    rewrite !bm_get_insert_ne by done. exact Hst.
  - cbn. unfold status_class. by rewrite Hs.
Qed.
Lemma settle_failure_ends node status more reason failed_output pins :
  is_success_status status = false → is_suspended_status status = false →
  (let payload := obj (status_payload node status ++ more ++ [(s"reason", ser_failure_detail reason)]) in
   node_field payload (nd_id node) ∧ status_field payload status) →
  ends (nd_id node) (settle_failure env cx node status more reason failed_output pins).
Proof.
  intros Hs Hsus [Hn Hst]. unfold settle_failure. eapply (ends_finish' _ _ _ status); try done.
  - by eexists.
  - unfold node_field, with_failed_evidence. cbn [payload_object obj].
    rewrite !bm_get_insert_ne by done. exact Hn.
  - unfold status_field, with_failed_evidence. cbn [payload_object obj].
    rewrite !bm_get_insert_ne by done. exact Hst.
  - cbn. unfold status_class. by rewrite Hs.
Qed.
Ltac by_record := first [reflexivity | split; reflexivity | by eexists].
Lemma suspend_question_ends {A} node question more failed_output pins :
  (let payload := obj (status_payload node (s"needs_user") ++ [(s"question", ser_form question)] ++ more) in
   node_field payload (nd_id node) ∧ status_field payload (s"needs_user")) →
  ends (nd_id node) (A:=A) (suspend_question env cx node question more failed_output pins).
Proof.
  intros [Hn Hs]. unfold suspend_question. apply ends_suspend; [by eexists | |right; split; [done|]].
  all: unfold node_field, status_field, with_failed_evidence; cbn [payload_object obj];
       rewrite !bm_get_insert_ne by done; done.
Qed.
Lemma suspend_user_files_ends {A} node question files :
  ends (nd_id node) (A:=A) (suspend_user_files env cx node question files).
Proof. apply ends_still; [apply still_pins|]. intros pins. apply suspend_question_ends. by_record. Qed.
Lemma suspend_confirmation_ends {A} node confirm files :
  ends (nd_id node) (A:=A) (suspend_confirmation env cx node confirm files).
Proof.
  apply ends_still; [apply still_pins|]. intros pins. apply ends_suspend; [by_record.. | by left].
Qed.
Ltac ends_step :=
  match goal with
  | |- ends _ (suspend_user_files _ _ _ _ _) => apply suspend_user_files_ends
  | |- ends _ (suspend_confirmation _ _ _ _ _) => apply suspend_confirmation_ends
  | |- ends _ (settle_success _ _ _ _ _ _ _) => apply settle_success_ends; by_record
  | |- ends _ (settle_failure _ _ _ _ _ _ _ _) => apply settle_failure_ends; by_record
  | |- ends _ (suspend_question _ _ _ _ _ _ _) => apply suspend_question_ends; by_record
  | |- ends _ (_ ≫= _) => apply ends_still; [eauto with engine|intros ?]
  | |- ends _ (match ?x with _ => _ end) => destruct x eqn:?
  | |- ends _ (let '(_, _) := ?x in _) => destruct x eqn:?
  end.
Ltac endings := cbn zeta; repeat ends_step.

Lemma settle_repaired_ends node o failed_output pins :
  ends (nd_id node) (settle_repaired env cx node o failed_output pins).
Proof. unfold settle_repaired. endings. Qed.
Lemma settle_regenerated_ends node on_exhausted o :
  ends (nd_id node) (settle_regenerated env cx node on_exhausted o).
Proof. unfold settle_regenerated, settle_exhausted. endings. Qed.

Hypotheses (modest : modest_bodies env cx) (plain : plain_ids cx) (Hkeyed : keyed cx).

(** The cycle of a graph node sets its targets only. *)
Lemma cycle_ends {A} id node findings (k : RepairCycleOutcome → EM A) :
  node ∈ bm_values nodes → (∀ o, ends id (k o)) → ends id (execute_repair_cycle env cx node findings ≫= k).
Proof.
  intros Hin Hk. eapply triple_run_bind; [|exact Hk]. intros g Hg.
  assert (Hs : still cx target (execute_repair_cycle env cx node findings)).
  { apply still_cycle; [done.. |]. intros repair recheck m e E. by eapply targets_of. }
  split; [by apply still_leads|]. intros o _. destruct (decide (target id)) as [|Hn]; [by right|].
  destruct Hg as [Ha|]; [left | done]. unfold view_at, view_of in *.
  by rewrite (ca_states _ _ _ _ (Hs g) id Hn).
Qed.
Lemma settle_check_failed_ends node findings output files : node ∈ bm_values nodes →
  ends (nd_id node) (settle_check_failed env cx node findings output files).
Proof.
  intros Hin. unfold settle_check_failed. cbn zeta. apply ends_still; [apply still_pins|]. intros pins.
  destruct (nd_on_fail node) as [[]|]; [| |endings..].
  - apply cycle_ends; [done|]. intros o. apply settle_repaired_ends.
  - apply ends_still; [by apply still_regenerate|]. intros o. apply settle_regenerated_ends.
Qed.
Lemma settle_outcome_ends node o : node ∈ bm_values nodes →
  ends (nd_id node) (settle_outcome env cx node o).
Proof.
  intros Hin. destruct o; cbn [settle_outcome]; [|by apply settle_check_failed_ends | endings..].
  apply ends_still; [apply still_pins|]. intros pins.
  eapply (ends_finish _ _ _ (s"success")); by_record.
Qed.
End settle.
