(* ===== verification/EngineRound.v ===== *)
(** * The scan and a node outside a wave *)

From S2P Require Import Prelude Str TraceIds BMap Json ExprEval ValueBag ExprParser Serde Events RunState RunStateEffect JournalFile AuditRules JournalWriter Graph GraphBuild EngineTypes EngineWorld EngineExecute EngineRepair EngineRun EngineFold EngineCalm EngineMoves.

#[local] Arguments s : simpl never.

(** * The scan for ready nodes *)

Section scan.
Context {W : WireTypes} {Sha : Sha256} {Msg : Messages} {Frm : Forms} {Cm : CaseMapping}.
Variables (env : Environment) (cx : RunContext).
Notation nodes := (g_nodes (cx_graph cx)).
Notation leads := (leads cx).
Hypothesis replay_sorted : bm_sorted (rs_nodes (cx_replay cx)).

Definition undecided (n : NodeDef) (states : bmap NodeState) : Prop :=
  needs_satisfied n states = false ∧ should_skip_by_dependencies n states = None.
Definition startable (n : NodeDef) (g : engine) : Prop :=
  bm_get (nd_id n) nodes = Some n ∧ view_at g (nd_id n) = Some Waiting ∧ may_run n (view_at g).

(** What the scan of one node found. *)
Definition scanned_node (id : str) (g g' : engine) (r : option NodeDef * bool) : Prop :=
  match r with
  | (Some n, settled) => settled = false ∧ eg_states g' = eg_states g ∧ bm_get id nodes = Some n ∧
      view_at g id = Some Waiting ∧ may_run n (view_at g)
  | (None, true) => view_at g id = Some Waiting ∧ ∃ c, becomes (view_at g) id (Ended c) (view_at g')
  | (None, false) => eg_states g' = eg_states g ∧
      ∀ n, bm_get id (eg_states g) = Some Pending → bm_get id nodes = Some n → undecided n (eg_states g)
  end.
Lemma becomes_settle id st kind payload g : (settle_to env cx id st kind payload g).2 = Ok () →
  becomes (view_at g) id (phase_of st) (view_at (settle_to env cx id st kind payload g).1).
Proof.
  unfold settle_to. rewrite bind_run. cbn [set_node put]. unfold event. cbn zeta.
  destruct (ev_storage _ _); [done|]. destruct (accept _ _ _ _ _ _); [|done]. intros _. apply view_insert.
Qed.
Lemma view_pending id g : bm_get id (eg_states g) = Some Pending → view_at g id = Some Waiting.
Proof. unfold view_at, view_of. by intros ->. Qed.
Lemma skip_spec id n reason g :
  bm_get id nodes = Some n → view_at g id = Some Waiting → may_run n (view_at g) ∨ excluded n (view_at g) →
  let m := (_ ← skip_node env cx id reason; mret (None, true)) in
  leads g (m g).1 ∧ ∀ r, (m g).2 = Ok r → scanned_node id g (m g).1 r.
Proof.
  intros Hn Hw Hr m. unfold m. rewrite bind_run.
  change (skip_node env cx id reason g) with (settle_to env cx id (SkippedNode reason) (s"step_skipped")
    (obj [(s"node", VString id); (s"reason", ser_failure_detail reason)]) g).
  match goal with |- context [settle_to env cx id ?st ?kind ?payload g] =>
    pose proof (skip_leads env cx id n st payload g ltac:(by eexists) ltac:(reflexivity) eq_refl Hn Hw Hr) as [Hl _];
    pose proof (becomes_settle id st kind payload g) as Hb end.
  destruct (settle_to _ _ _ _ _ _ g) as [g' [[]|e]]; cbn [fst snd] in *; [|by split].
  split; [done|]. intros r [= <-]. split; [done|]. eexists. by apply Hb.
Qed.
Lemma scan_node_spec id g : leads g (scan_node env cx id g).1 ∧
  ∀ r, (scan_node env cx id g).2 = Ok r → scanned_node id g (scan_node env cx id g).1 r.
Proof.
  unfold scan_node. rewrite bind_run. cbn [the_engine].
  destruct (bm_get id (eg_states g)) as [[]|] eqn:Es;
    try (split; [reflexivity|]; intros r [= <-]; split; [done | by rewrite Es]).
  destruct (bm_get id nodes) as [n|] eqn:En; [|by split]. pose proof (view_pending _ _ Es) as Hw.
  destruct (should_skip_by_dependencies n (eg_states g)) as [reason|] eqn:Esk.
  { apply (skip_spec id n); [done..|]. right. by eapply skip_excluded. }
  destruct (needs_satisfied n (eg_states g)) eqn:Ens; cbn [negb].
  2:{ split; [reflexivity|]. intros r [= <-]. split; [done|]. intros n' _ Hn'. rewrite En in Hn'. by injection Hn' as <-. }
  apply satisfied_may_run in Ens. rewrite bind_run. cbn [sync_live_outcomes put the_engine]. rewrite bind_run.
  set (g1 := g <| eg_vars := _ |>). cbn [the_engine].
  assert (L1 : leads g g1) by (apply (still_leads cx sync_live_outcomes), still_sync).
  destruct (eval_bool_typed (eg_vars g1) (nd_when n)) as [holds|]; [|by split]. rewrite bind_run. cbn [of_result map_err].
  destruct holds; cbn [negb].
  2:{ destruct (skip_spec id n (failure_new WhenFalse
        (s"when expression evaluated false: " ++ debug_when (nd_when n))) g1) as [L2 H2]; [done | done | by left|].
      split; [by etrans | exact H2]. }
  destruct (bm_get id (replayed_steps (cx_replay cx))) as [replayed|] eqn:Er.
  - rewrite bind_run. cbn [publish_output with_vars put]. set (g2 := g1 <| eg_vars := _ |>).
    assert (L2 : leads g1 g2) by (apply (still_leads cx (publish_output n (rp_output replayed))), still_publish).
    match goal with |- context [event env cx ByLoop ?kind ?payload] =>
      change (λ _ : (), event env cx ByLoop kind payload ≫= λ _ : (), mret (None, true))
        with (λ _ : (), event env cx ByLoop kind payload ≫= λ _ : (), mret (@None NodeDef, true));
      pose proof (replay_leads env cx id n payload g2 ltac:(by eexists) ltac:(reflexivity)
        replay_sorted En Hw Ens ltac:(by eexists)) as [L3 _];
      pose proof (becomes_settle id Success kind payload g2) as Hb;
      change ((set_node id Success ≫= λ _ : (), event env cx ByLoop kind payload ≫= λ _ : (),
        mret (@None NodeDef, true)) g2)
        with ((settle_to env cx id Success kind payload ≫= λ _ : (), mret (@None NodeDef, true)) g2)
    end.
    rewrite bind_run. destruct (settle_to _ _ _ _ _ _ g2) as [g3 [[]|e]]; cbn [fst snd] in *.
    + split; [by repeat (etrans; [eassumption|])|]. intros r [= <-]. split; [done|]. eexists. by apply Hb.
    + split; [by repeat (etrans; [eassumption|]) | done].
  - split; [done|]. intros r [= <-]. done.
Qed.

(** ** The whole scan *)

Record scanned (g0 : engine) (seen : list str) (ready : list NodeDef) (progressed : bool) (g : engine) : Prop := {
  sc_waiting : ∀ id, view_at g id = Some Waiting → view_at g0 id = Some Waiting;
  sc_ready : Forall (λ n, startable n g ∧ nd_id n ∈ seen) ready;
  sc_distinct : NoDup (map nd_id ready);
  sc_active : ∀ id, view_at g id = Some Active → view_at g0 id = Some Active;
  sc_moved : if progressed then ∃ id, id ∈ seen ∧ view_at g0 id = Some Waiting ∧ view_at g id ≠ Some Waiting
             else eg_states g = eg_states g0;
  sc_stuck : progressed = false → ready = [] → ∀ id n, id ∈ seen →
    bm_get id (eg_states g0) = Some Pending → bm_get id nodes = Some n → undecided n (eg_states g0);
}.
Lemma startable_same n g g' : eg_states g' = eg_states g → startable n g → startable n g'.
Proof. intros E. unfold startable, view_at. by rewrite E. Qed.
Lemma startable_becomes n id c g g' : becomes (view_at g) id (Ended c) (view_at g') →
  view_at g id = Some Waiting → nd_id n ≠ id → startable n g → startable n g'.
Proof.
  intros [Hb Ho] Hw Hne (Hn & Hv & Hr). split; [done|]. split; [by rewrite Ho|].
  eapply may_run_mono; [|exact Hr]. intros y c' Hy. destruct (decide (y = id)) as [->|]; [congruence | by rewrite Ho].
Qed.
Hypothesis Hkeyed : keyed cx.
Lemma scanned_step g0 seen ready progressed g id g' r :
  scanned g0 seen ready progressed g → id ∉ seen → scanned_node id g g' r →
  scanned g0 (seen ++ [id]) (ready ++ match r.1 with Some n => [n] | None => [] end) (progressed || r.2) g'.
Proof.
  intros [Hw Hr Hd Ha Hm Hs] Hid Hn. rewrite Forall_forall in Hr. destruct r as [[n|] settled]; cbn [fst snd].
  - destruct Hn as (-> & E & Hg & Hv & Hrun). rewrite orb_false_r. pose proof (Hkeyed _ _ Hg) as <-. split.
    + intros x. unfold view_at. rewrite E. apply Hw.
    + apply Forall_app. split; [apply Forall_forall; intros x Hx; destruct (Hr x Hx) as [? ?]|
        apply Forall_singleton]; (split; [eapply startable_same; [exact E|] | set_solver]); done.
    + rewrite map_app. apply NoDup_app. split; [done|]. split; [|apply NoDup_singleton].
      intros x (y & Ey & Hy)%list_elem_of_fmap Hx%list_elem_of_singleton.
      destruct (Hr y Hy) as [_ Hin]. apply Hid. by rewrite <-Hx, Ey.
    + intros x. unfold view_at. rewrite E. apply Ha.
    + destruct progressed; [|congruence]. destruct Hm as (x & Hx & ? & ?). exists x.
      split; [set_solver|]. split; [done|]. unfold view_at. by rewrite E.
    + intros _ Hnil. by destruct ready.
  - rewrite app_nil_r. destruct settled.
    + destruct Hn as (Hv & c & Hb). rewrite orb_true_r. split.
      * intros x Hx. apply Hw. destruct (decide (x = id)) as [->|Hne]; [destruct Hb; congruence|].
        by rewrite <-(proj2 Hb).
      * apply Forall_forall. intros x Hx. destruct (Hr x Hx) as [Hst Hin].
        split; [eapply startable_becomes; [exact Hb | done | | done] | set_solver]. by intros E; subst.
      * done.
      * intros x Hx. apply Ha. destruct (decide (x = id)) as [->|Hne]; [destruct Hb; congruence|].
        by rewrite <-(proj2 Hb).
      * exists id. split; [set_solver|]. split; [by apply Hw|]. destruct Hb as [-> _]. done.
      * done.
    + destruct Hn as (E & Hu). rewrite orb_false_r. split.
      * intros x. unfold view_at. rewrite E. apply Hw.
      * apply Forall_forall. intros x Hx. destruct (Hr x Hx) as [Hst Hin].
        split; [by eapply startable_same | set_solver].
      * done.
      * intros x. unfold view_at. rewrite E. apply Ha.
      * destruct progressed; [|congruence]. destruct Hm as (x & Hx & ? & ?). exists x.
        split; [set_solver|]. split; [done|]. unfold view_at. by rewrite E.
      * intros -> Hnil x n [Hx| ->%list_elem_of_singleton]%elem_of_app; [by apply Hs|].
        rewrite <-Hm. apply Hu.
Qed.
Lemma scan_spec g0 rest : ∀ seen ready progressed g,
  NoDup (seen ++ rest) → scanned g0 seen ready progressed g →
  leads g (scan env cx rest ready progressed g).1 ∧
  ∀ ready' progressed', (scan env cx rest ready progressed g).2 = Ok (ready', progressed') →
    scanned g0 (seen ++ rest) ready' progressed' (scan env cx rest ready progressed g).1.
Proof.
  induction rest as [|id rest IH]; intros seen ready progressed g Hnd Hs; cbn [scan].
  { split; [reflexivity|]. intros ? ? [= <- <-]. by rewrite app_nil_r. }
  rewrite bind_run. destruct (scan_node_spec id g) as [L1 H1].
  destruct (scan_node env cx id g) as [g1 [[node settled]|e]]; cbn [fst snd] in *; [|by split].
  assert (Hid : id ∉ seen). { apply NoDup_app in Hnd as (_ & Hd & _). intros Hin. apply (Hd _ Hin). left. }
  pose proof (scanned_step _ _ _ _ _ _ _ _ Hs Hid (H1 _ eq_refl)) as Hs'. cbn [fst snd] in Hs'.
  rewrite (app_assoc seen [id] rest : seen ++ id :: rest = (seen ++ [id]) ++ rest) in Hnd |- *.
  destruct (IH _ _ _ g1 Hnd Hs') as [L2 H2]. split; [by etrans | exact H2].
Qed.
Lemma scan_start g : scanned g [] [] false g.
Proof. split; [done | constructor | constructor | done | done|]. intros _ _ id n Hid. by apply not_elem_of_nil in Hid. Qed.
End scan.

(** * What an operation that returns leaves behind

    No node waits that did not wait before, and none is left active. *)

Definition is_suspension {W : WireTypes} (o : StepOutcome) : bool :=
  match o with ONeedsUser _ _ | ONeedsConfirm _ _ => true | _ => false end.

Section tidy.
Context {W : WireTypes} {Sha : Sha256} {Msg : Messages} {Frm : Forms} {Cm : CaseMapping}.
Variables (env : Environment) (cx : RunContext).
Notation nodes := (g_nodes (cx_graph cx)).

(** Up to the nodes in [E]. *)
Definition tidied (E : str → Prop) (g g' : engine) : Prop := ∀ id,
  (view_at g' id = Some Waiting → view_at g id = Some Waiting) ∧
  (¬ E id → view_at g' id = Some Active → view_at g id = Some Active).
#[global] Instance tidied_preorder E : PreOrder (tidied E).
Proof.
  split; [by intros g id|]. intros g1 g2 g3 H1 H2 id. destruct (H1 id), (H2 id). split; auto.
Qed.
Definition tidy (E : str → Prop) {A} (m : EM A) : Prop := ∀ g x, (m g).2 = Ok x → tidied E g (m g).1.

Lemma tidy_bind {A B} E (m : EM A) (k : A → EM B) : tidy E m → (∀ x, tidy E (k x)) → tidy E (m ≫= k).
Proof.
  intros Hm Hk g y. rewrite bind_run. specialize (Hm g). destruct (m g) as [g1 [x|e]]; [|done].
  intros Hy. etrans; [by eapply Hm | by eapply Hk].
Qed.
Lemma tidy_ret {A} E (x : A) : tidy E (mret x).
Proof. by intros g y _. Qed.
Lemma tidy_raise {A} E e : tidy E (A:=A) (raise e).
Proof. by intros g y. Qed.
Lemma still_view {A} (m : EM A) g id : still cx no_id m → view_at (m g).1 id = view_at g id.
Proof. intros Hm. unfold view_at, view_of. by rewrite (ca_states _ _ _ _ (Hm g) id) by (by intros []). Qed.
Lemma tidy_still {A} E (m : EM A) : still cx no_id m → tidy E m.
Proof. intros Hm g x _ id. by rewrite still_view. Qed.
Lemma tidy_set_node (E : str → Prop) id st : st ≠ Pending → st = Running → E id → tidy E (set_node id st).
Proof.
  intros Hp -> HE g x _ id'. cbn. unfold view_at, view_of. cbn. rewrite bm_get_insert.
  destruct (str_eqb_spec id' id) as [->|]; done.
Qed.
Lemma tidy_set_ended E id st c : phase_of st = Ended c → tidy E (set_node id st).
Proof.
  intros Hc g x _ id'. cbn. unfold view_at, view_of. cbn. rewrite bm_get_insert.
  destruct (str_eqb_spec id' id) as [->|]; [|done]. cbn. by rewrite Hc.
Qed.
Lemma event_view by_ kind payload g id : view_at (event env cx by_ kind payload g).1 id = view_at g id.
Proof. unfold event. cbn zeta. destruct (ev_storage _ _); [done|]. by destruct (accept _ _ _ _ _ _). Qed.
Lemma tidy_event E by_ kind payload : tidy E (event env cx by_ kind payload).
Proof. intros g x _ id. by rewrite event_view. Qed.

Hypotheses (modest : modest_bodies env cx) (plain : plain_ids cx) (Hkeyed : keyed cx).
Ltac tidy_step :=
  match goal with
  | |- tidy _ (mret _) => apply tidy_ret
  | |- tidy _ (raise _) => apply tidy_raise
  | |- tidy _ (of_result _) => apply tidy_still, still_result
  | |- tidy _ (event _ _ _ _ _) => apply tidy_event
  | |- tidy _ (set_node _ Running) => apply tidy_set_node
  | |- tidy _ (set_node _ _) => eapply tidy_set_ended; reflexivity
  | |- tidy _ (_ ≫= _) => apply tidy_bind; [|intros ?]
  | |- tidy _ (match ?x with _ => _ end) => destruct x eqn:?
  | |- tidy _ (let '(_, _) := ?x in _) => destruct x eqn:?
  | |- _ => solve [apply tidy_still; stills; eauto with engine | eauto with engine]
  end.
Ltac tidying := cbn zeta; repeat tidy_step.

(** ** A node outside a wave *)

Lemma tidy_repaired E node o failed_output pins : tidy E (settle_repaired env cx node o failed_output pins).
Proof. unfold settle_repaired, settle_success, settle_failure. tidying. Qed.
Lemma tidy_regenerated E node on_exhausted o : tidy E (settle_regenerated env cx node on_exhausted o).
Proof.
  unfold settle_regenerated, settle_exhausted, settle_success, settle_failure, suspend_question,
    suspend_user_files, suspend_question, suspend_confirmation. tidying.
Qed.

(** A named node ends unless it asks. *)
Lemma tidy_subtree E path : tidy E (sync_subtree path).
Proof. apply tidy_still, still_subtree. Qed.
Hint Resolve tidy_subtree : engine.
Lemma tidy_named owner node_id attempt :
  tidy (λ id, id = node_id) (execute_named_node env cx owner node_id attempt).
Proof.
  unfold execute_named_node. destruct (bm_get node_id nodes) as [found|] eqn:Ef; [|apply tidy_raise].
  rewrite (Hkeyed _ _ Ef). cbn zeta. unfold finish_named. tidying; done.
Qed.

Definition fixes {A} (id : str) (m : EM A) : Prop := ∀ g, view_at (m g).1 id = view_at g id.
Lemma fixes_bind {A B} id (m : EM A) (k : A → EM B) : fixes id m → (∀ x, fixes id (k x)) → fixes id (m ≫= k).
Proof.
  intros Hm Hk g. rewrite bind_run. specialize (Hm g). destruct (m g) as [g1 [x|e]]; [|done].
  etrans; [apply Hk | done].
Qed.
Lemma fixes_event id by_ kind payload : fixes id (event env cx by_ kind payload).
Proof. intros g. apply event_view. Qed.
Lemma fixes_still {A} id (m : EM A) : still cx no_id m → fixes id m.
Proof. intros Hm g. by apply still_view. Qed.
Hint Resolve fixes_event fixes_bind : engine.
Hint Extern 1 (fixes _ (sync_subtree _)) => apply fixes_still, still_subtree : engine.
Hint Extern 1 (fixes _ (with_vars _)) => apply fixes_still, still_with_vars : engine.
Hint Extern 1 (fixes _ (mret _)) => apply fixes_still, still_ret : engine.
Hint Extern 1 (fixes _ (raise _)) => apply fixes_still, still_raise : engine.

(** [m] ends the node when it returns. *)
Definition leaves {A} (id : str) (m : EM A) : Prop := ∀ g x, (m g).2 = Ok x → has_ended (view_at (m g).1 id).
Lemma leaves_skip {A B} id (m : EM A) (k : A → EM B) : (∀ x, leaves id (k x)) → leaves id (m ≫= k).
Proof. intros Hk g y. rewrite bind_run. destruct (m g) as [g1 [x|e]]; [apply Hk | done]. Qed.
Lemma leaves_set {B} id st c (k : () → EM B) :
  phase_of st = Ended c → (∀ x, fixes id (k x)) → leaves id (set_node id st ≫= k).
Proof.
  intros Hc Hk g y _. rewrite bind_run. cbn [set_node put]. rewrite Hk. exists c.
  unfold view_at, view_of. cbn. rewrite bm_get_insert_eq. cbn. by rewrite Hc.
Qed.
Lemma finish_named_leaves node id o : is_suspension o = false → leaves id (finish_named env cx node id o).
Proof.
  destruct o; try done; intros _; cbn [finish_named]; cbn zeta; apply leaves_skip; intros pins;
    eapply leaves_set; try reflexivity; eauto 8 with engine.
Qed.
Lemma named_ends owner node_id attempt g o :
  (execute_named_node env cx owner node_id attempt g).2 = Ok o → is_suspension o = false →
  has_ended (view_at (execute_named_node env cx owner node_id attempt g).1 node_id).
Proof.
  unfold execute_named_node. destruct (bm_get node_id nodes) as [found|] eqn:Ef; [|done].
  rewrite (Hkeyed _ _ Ef). cbn zeta. destruct (bm_get _ (replayed_steps _)) as [replayed|].
  - intros Ho _. revert Ho. apply leaves_skip. intros _. eapply leaves_set; [reflexivity|]. eauto 8 with engine.
  - intros Ho Hs. revert Ho. rewrite bind_run. cbn [set_node put]. rewrite bind_run.
    destruct (event _ _ _ _ _ _) as [g2 [[]|e2]]; [|done]. rewrite bind_run, try_run. cbn [fst snd].
    destruct (execute_node_with_retry _ _ _ g2) as [g3 [o'|e]]; cbn [fst snd].
    + rewrite bind_run. destruct (is_suspension o') eqn:Eo.
      * destruct (finish_named _ _ _ _ _ _) as [? [?|]]; [|done]. intros [= <-]. congruence.
      * pose proof (finish_named_leaves (under_path found (repair_child owner attempt node_id)) node_id o' Eo g3) as Hl.
        destruct (finish_named _ _ _ _ _ _) as [g4 [u|]]; [|done]. intros _. by apply (Hl u).
    + destruct (propagates e); [done|]. rewrite bind_run. cbn [set_node put]. rewrite bind_run.
      destruct (event _ _ _ _ _ _) as [g4 [[]|e4]]; done.
Qed.
Lemma tidy_all E E' {A} (m : EM A) g x : (∀ id, E' id → E id ∨ has_ended (view_at (m g).1 id)) →
  tidy E' m → (m g).2 = Ok x → tidied E g (m g).1.
Proof.
  intros HE Hm Hx id. destruct (Hm g x Hx id) as [Hw Ha]. split; [done|]. intros Hn Hact. apply Ha; [|done].
  intros HE'. destruct (HE id HE') as [|[c Hc]]; [done | congruence].
Qed.
Definition nowhere : str → Prop := λ _, False.
Lemma tidy_named_bind {B} owner node_id attempt (k : StepOutcome → EM B) :
  (∀ o, is_suspension o = false → tidy nowhere (k o)) →
  (∀ o g x, is_suspension o = true → (k o g).2 ≠ Ok x) →
  tidy nowhere (execute_named_node env cx owner node_id attempt ≫= k).
Proof.
  intros Hk Hs g y. rewrite bind_run. pose proof (named_ends owner node_id attempt g) as He.
  pose proof (λ x HE, tidy_all nowhere _ _ g x HE (tidy_named owner node_id attempt)) as Ht.
  destruct (execute_named_node _ _ _ _ _ g) as [g1 [o|e]]; [|done]. cbn [fst snd] in *. intros Hy.
  destruct (is_suspension o) eqn:Eo; [by apply Hs in Hy|].
  etrans; [eapply Ht; [|done]; intros id ->; right; by eapply He | by eapply Hk].
Qed.
Lemma suspend_user_never {A} node attempt question g (x : A) :
  (suspend_user env cx node attempt question g).2 ≠ Ok x.
Proof. unfold suspend_user, attempt_finished. rewrite bind_run. by destruct (event _ _ _ _ _ _) as [? [[]|]]. Qed.
Lemma suspend_confirm_never {A} node attempt confirm g (x : A) :
  (suspend_confirm env cx node attempt confirm g).2 ≠ Ok x.
Proof. unfold suspend_confirm, attempt_finished. rewrite bind_run. by destruct (event _ _ _ _ _ _) as [? [[]|]]. Qed.
Lemma tidy_attempt failed repair recheck m attempt :
  tidy nowhere (repair_attempt env cx failed repair recheck m attempt).
Proof.
  unfold repair_attempt. do 2 (apply tidy_bind; [tidying | intros _]).
  apply tidy_named_bind; [|intros o g x Ho; destruct o; try done; [apply suspend_user_never | apply suspend_confirm_never]].
  intros o Ho. destruct o; try done; [|unfold attempt_finished; tidying].
  apply tidy_named_bind; [|intros o g x Ho'; destruct o; try done; [apply suspend_user_never | apply suspend_confirm_never]].
  intros o Ho'. unfold attempt_finished. destruct o; try done; tidying.
Qed.
Lemma tidy_cycle failed findings : tidy nowhere (execute_repair_cycle env cx failed findings).
Proof.
  unfold execute_repair_cycle. destruct (nd_on_fail failed) as [[repair recheck m ex| | | |]|]; try apply tidy_ret.
  assert (Hr : ∀ k a r, tidy nowhere (repair_attempts env cx k failed repair recheck m a r)).
  { induction k as [|k IH]; intros a r; cbn [repair_attempts]; [apply tidy_ret|].
    apply tidy_bind; [apply tidy_attempt|]. intros [o|r']; [apply tidy_ret | apply IH]. }
  unfold repair_exhausted, skip_cycle, cycle_exhausted. tidying.
Qed.
Lemma tidy_outcome node o : tidy nowhere (settle_outcome env cx node o).
Proof.
  assert (Hc : ∀ findings output files, tidy nowhere (settle_check_failed env cx node findings output files)).
  { intros. unfold settle_check_failed. cbn zeta. apply tidy_bind; [tidying|]. intros pins.
    destruct (nd_on_fail node) as [[]|]; [..|unfold settle_failure; tidying].
    - apply tidy_bind; [apply tidy_cycle | intros; apply tidy_repaired].
    - apply tidy_bind; [apply tidy_still, still_regenerate; done | intros; apply tidy_regenerated].
    - unfold settle_success, suspend_question. tidying.
    - unfold settle_success. tidying.
    - unfold settle_failure. tidying. }
  destruct o; cbn [settle_outcome]; [tidying | apply Hc | |];
    unfold suspend_user_files, suspend_question, suspend_confirmation; tidying.
Qed.
End tidy.

(** * A node outside a wave *)

Section round.
Context {W : WireTypes} {Sha : Sha256} {Msg : Messages} {Frm : Forms} {Cm : CaseMapping}.
Variables (env : Environment) (cx : RunContext).
Notation nodes := (g_nodes (cx_graph cx)).
Notation leads := (leads cx).
Hypotheses (modest : modest_bodies env cx) (plain : plain_ids cx) (Hkeyed : keyed cx).

(** What follows the start record. *)
Definition after_start (node : NodeDef) (first : option EngineError) : EM flow :=
  r ← try_ (execute_node_with_retry env cx node);
  match r with
  | Ok o => _ ← settle_outcome env cx node o; mret (Checked true first)
  | Err e =>
      if propagates e then raise e
      else
        let reason := failure_detail_for_error e in
        _ ← set_node (nd_id node) (FailedNode reason);
        _ ← event env cx ByLoop (s"step_finished")
              (obj (status_payload node (s"failed") ++ [(s"reason", ser_failure_detail reason)]));
        if is_budget_exhaustion e || is_elapsed_exhaustion e
        then mret (Leave (keep_first first e))
        else mret (Again (if is_distinct_execution_error e then keep_first first e else first))
  end.
Lemma after_start_ends node first : node ∈ bm_values nodes → ends cx (nd_id node) (after_start node first).
Proof.
  intros Hin. apply ends_still; [apply still_try, still_execute; done|]. intros [o|e].
  - eapply triple_run_bind; [by apply settle_outcome_ends|]. intros u.
    apply triple_still; [apply about_ended | apply still_ret].
  - destruct (propagates e); [apply ends_raise|]. cbn zeta.
    eapply (ends_finish _ _ _ _ _ (s"failed")); try reflexivity; [by eexists|]. intros _. case_match; apply still_ret.
Qed.
Lemma after_start_tidy node first : tidy nowhere (after_start node first).
Proof.
  apply tidy_bind; [eapply tidy_still, still_try, still_execute; done|]. intros [o|e].
  - apply tidy_bind; [by apply tidy_outcome | intros _; apply tidy_ret].
  - destruct (propagates e); [apply tidy_raise|]. cbn zeta.
    apply tidy_bind; [by eapply tidy_set_ended|]. intros _.
    apply tidy_bind; [apply tidy_event|]. intros _. case_match; apply tidy_ret.
Qed.

Lemma view_values node : bm_get (nd_id node) nodes = Some node → node ∈ bm_values nodes.
Proof. intros Hn%bm_get_elem. apply list_elem_of_fmap. by exists (nd_id node, node). Qed.
Lemma startable_views n g g' : (∀ id, view_at g' id = view_at g id) → startable cx n g → startable cx n g'.
Proof.
  intros Hv (Hn & Hw & Hr). split; [done|]. split; [by rewrite Hv|].
  eapply may_run_mono; [|exact Hr]. intros y c. by rewrite Hv.
Qed.
Lemma still_startable {A} n (m : EM A) g : still cx no_id m → startable cx n g → startable cx n (m g).1.
Proof. intros Hm. apply startable_views. intros id. by eapply still_view. Qed.

(** The start record of a node. *)
Lemma start_spec node payload g :
  get_str (s"node") payload = Some (nd_id node) → startable cx node g →
  leads g (settle_to env cx (nd_id node) Running (s"step_started") payload g).1 ∧
  ((settle_to env cx (nd_id node) Running (s"step_started") payload g).2 = Ok () →
   becomes (view_at g) (nd_id node) Active
     (view_at (settle_to env cx (nd_id node) Running (s"step_started") payload g).1)).
Proof.
  intros Hp (Hn & Hw & Hr). split; [by eapply start_leads|]. intros Hok. by apply (becomes_settle env cx _ Running).
Qed.
Lemma becomes_tidied id p g g' : p ≠ Waiting → becomes (view_at g) id p (view_at g') → tidied (λ x, x = id) g g'.
Proof.
  intros Hp [Hi Ho] x. destruct (decide (x = id)) as [->|Hx]; [|by rewrite Ho].
  rewrite Hi. split; [congruence | done].
Qed.
Lemma tidied_weaken (E E' : str → Prop) g g' : (∀ id, E id → E' id) → tidied E g g' → tidied E' g g'.
Proof. intros HE Ht id. destruct (Ht id) as [Hw Ha]. split; [done|]. intros Hn. apply Ha. eauto. Qed.
Lemma tidied_ended (E : str → Prop) g g' : (∀ id, E id → has_ended (view_at g' id)) → tidied E g g' → tidied nowhere g g'.
Proof.
  intros HE Ht id. destruct (Ht id) as [Hw Ha]. split; [done|]. intros _ Hact. apply Ha; [|done].
  intros [c Hc]%HE. congruence.
Qed.

Lemma run_single_spec node first g : startable cx node g →
  leads g (run_single env cx node first g).1 ∧ ∀ f, (run_single env cx node first g).2 = Ok f →
    tidied nowhere g (run_single env cx node first g).1 ∧
    has_ended (view_at (run_single env cx node first g).1 (nd_id node)).
Proof.
  intros Hst. unfold run_single. rewrite bind_run.
  pose proof (still_checkpoint env cx no_id g) as C1. pose proof (still_startable _ _ g (still_checkpoint env cx no_id) Hst) as S1.
  pose proof (tidy_still cx nowhere (run_checkpoint env cx) (still_checkpoint env cx no_id) g) as T1.
  pose proof (still_leads cx _ g (still_checkpoint env cx _)) as L1.
  destruct (run_checkpoint env cx g) as [g1 [[]|e]]; cbn [fst snd] in *; [|by split].
  rewrite bind_run. cbn [sync_live_outcomes put]. set (g2 := g1 <| eg_vars := _ |>).
  assert (L2 : leads g1 g2) by apply (still_leads cx sync_live_outcomes g1 (still_sync cx _)).
  assert (T2 : tidied nowhere g1 g2) by done.
  assert (S2 : startable cx node g2) by done.
  match goal with |- context [event env cx ByLoop ?kind ?payload] =>
    match goal with |- context [(set_node ?id Running ≫= ?k) g2] =>
      change ((set_node id Running ≫= k) g2)
        with ((settle_to env cx id Running kind payload ≫= λ _, after_start node first) g2);
      destruct (start_spec node payload g2 eq_refl S2) as [L3 H3] end end.
  rewrite bind_run. destruct (settle_to _ _ _ _ _ _ g2) as [g3 [[]|e]]; cbn [fst snd] in *;
    [|split; [by repeat (etrans; [eassumption|]) | done]].
  specialize (H3 eq_refl). destruct (after_start_ends node first (view_values _ (proj1 Hst)) g3) as [L4 H4].
  { left. apply H3. }
  pose proof (after_start_tidy node first g3) as T4.
  split; [by repeat (etrans; [eassumption|])|]. intros f Hf.
  split; [|by eapply H4]. eapply (tidied_ended (λ x, x = nd_id node)); [intros id ->; by eapply H4|].
  etrans; [eapply tidied_weaken; [|by eapply T1]; by intros id []|].
  etrans; [by eapply tidied_weaken; [|exact T2]; intros id []|].
  etrans; [by eapply becomes_tidied; [|exact H3]|].
  eapply tidied_weaken; [|by eapply T4]. by intros id [].
Qed.
End round.
