(* ===== verification/EngineWaveSpec.v ===== *)
(** * Running and settling a wave *)

From S2P Require Import Prelude Str TraceIds BMap Json ExprEval ValueBag ExprParser Serde Events RunState RunStateEffect JournalFile AuditRules JournalWriter Graph GraphBuild EngineTypes EngineWorld EngineExecute EngineRepair EngineRun EngineFold EngineCalm EngineMoves EngineRound.

#[local] Arguments s : simpl never.

(** * Settling a wave *)

Section wave_spec.
Context {W : WireTypes} {Sha : Sha256} {Msg : Messages} {Frm : Forms} {Cm : CaseMapping}.
Variables (env : Environment) (cx : RunContext).
Notation leads := (leads cx).

(** Pinning the files of an attempt never fails. *)
Definition pins_work : Prop := ∀ n files, is_ok (ev_pins env n files) = true.

(** What an operation on the node [id] does to the others. *)
Record local_to (id : str) (g g' : engine) : Prop := {
  lo_leads : leads g g';
  lo_views : ∀ id', id' ≠ id → view_at g' id' = view_at g id';
  lo_tasks : ∀ id', id' ∈ ids cx → id' ≠ id → unreported (eg_state g) id' → unreported (eg_state g') id';
}.
Lemma local_trans id g1 g2 g3 : local_to id g1 g2 → local_to id g2 g3 → local_to id g1 g3.
Proof.
  intros [L1 V1 T1] [L2 V2 T2]. split; [by etrans | | eauto]. intros id' Hid. by rewrite V2, V1.
Qed.
Lemma local_still {A} id (m : EM A) g : still cx no_id m → local_to id g (m g).1.
Proof.
  intros Hm. split.
  - apply calm_leads. eapply calm_mono; [|apply Hm]. by intros ? [].
  - intros id' _. by eapply still_view.
  - intros id' Hid _. apply (ca_nodes _ _ _ _ (Hm g) id' Hid).
Qed.
Lemma event_tasks by_ kind payload g id :
  subject kind (VObject (payload_object payload)) ≠ Some id →
  unreported (eg_state g) id → unreported (eg_state (event env cx by_ kind payload g).1) id.
Proof.
  intros Hs Hu. pose proof (event_result env cx by_ kind payload g) as He.
  unfold event in *. cbn zeta in *. destruct (ev_storage _ _); [done|].
  destruct (accept _ _ _ _ _ _) as [st|] eqn:Ea; [|done]. cbn. by eapply (accept_keeps cx).
Qed.
Lemma event_err by_ kind payload g e :
  (event env cx by_ kind payload g).2 = Err e → eg_refused g < eg_refused (event env cx by_ kind payload g).1.
Proof.
  pose proof (event_result env cx by_ kind payload g) as He. destruct (event _ _ _ _ _ _) as [g' [|]]; [done|].
  intros _. cbn. destruct He as (-> & _). lia.
Qed.
Lemma settle_to_views id st kind payload g id' : id' ≠ id →
  view_at (settle_to env cx id st kind payload g).1 id' = view_at g id'.
Proof.
  intros Hid. unfold settle_to. rewrite bind_run. cbn [set_node put]. rewrite event_view.
  by apply (proj2 (view_insert id st (eg_states g))).
Qed.
Lemma local_settle_to id st kind payload g :
  leads g (settle_to env cx id st kind payload g).1 → node_field payload id →
  kind_in kind foreach_kinds = false → local_to id g (settle_to env cx id st kind payload g).1.
Proof.
  intros Hl Hn Hk. split; [done | by apply settle_to_views|]. intros id' _ Hne Hu.
  apply event_tasks; [by eapply subject_settling | done].
Qed.

(** The result of an operation: refused, or [Q] of its value. *)
Definition settled_with {A} (id : str) (m : EM A) (g : engine) (Q : A → option phase → Prop) : Prop :=
  local_to id g (m g).1 ∧
  match (m g).2 with
  | Ok x => Q x (view_at (m g).1 id)
  | Err _ => eg_refused g < eg_refused (m g).1 ∨ ¬ pins_work ∧ view_at (m g).1 id = Some Active
  end.
Lemma settled_still {A B} id (m : EM A) (k : A → EM B) g Q :
  still cx no_id m → (∀ e, (m g).2 = Err e → ¬ pins_work ∧ view_at g id = Some Active) →
  (∀ x g1, view_at g1 id = view_at g id → settled_with id (k x) g1 Q) → settled_with id (m ≫= k) g Q.
Proof.
  intros Hm He Hk. pose proof (local_still id m g Hm) as Hl. pose proof (still_view cx m g id Hm) as Hv.
  pose proof (ca_refused _ _ _ _ (Hm g)) as Hr. unfold settled_with in *. rewrite !bind_run.
  destruct (m g) as [g1 [x|e]]; cbn [fst snd] in *.
  - destruct (Hk x g1 Hv) as [L2 H2]. split; [by eapply local_trans|].
    destruct (k x g1) as [g2 [y|e]]; cbn [fst snd] in *; [done|].
    destruct H2 as [?|[? ?]]; [left; lia | by right].
  - split; [done|]. right. rewrite Hv. by apply (He e).
Qed.
Lemma settled_pins {B} id files (k : list FilePin → EM B) g Q : view_at g id = Some Active →
  (∀ x g1, view_at g1 id = Some Active → settled_with id (k x) g1 Q) →
  settled_with id (pin_attempt_files env files ≫= k) g Q.
Proof.
  intros Ha Hk. apply settled_still; [apply still_pins | | intros x g1 Hv; apply Hk; congruence].
  intros e He. split; [|done]. intros Hp. unfold pin_attempt_files in He. rewrite bind_run in He. cbn in He.
  specialize (Hp (eg_tick g) files). by rewrite He in Hp.
Qed.
Lemma settled_record {A} id st kind payload g (x : A) (Q : A → option phase → Prop) :
  leads g (settle_to env cx id st kind payload g).1 → node_field payload id →
  kind_in kind foreach_kinds = false → Q x (Some (phase_of st)) →
  settled_with id (_ ← set_node id st; _ ← event env cx ByLoop kind payload; mret x) g Q.
Proof.
  intros Hl Hn Hk HQ. pose proof (local_settle_to id st kind payload g Hl Hn Hk) as Hloc.
  pose proof (becomes_settle env cx id st kind payload g) as Hb.
  change (settled_with id (settle_to env cx id st kind payload ≫= λ _, mret x) g Q).
  assert (He : ∀ e, (settle_to env cx id st kind payload g).2 = Err e →
    eg_refused g < eg_refused (settle_to env cx id st kind payload g).1).
  { intros e. unfold settle_to. rewrite bind_run. cbn [set_node put]. by intros He%event_err. }
  unfold settled_with. rewrite !bind_run.
  destruct (settle_to _ _ _ _ _ _ g) as [g1 [[]|e]]; cbn [fst snd] in *; split; try done.
  - change (Q x (view_at g1 id)). by rewrite (proj1 (Hb eq_refl)).
  - left. by eapply He.
Qed.
Lemma settled_ask {A} id kind payload g (x : A) (Q : A → option phase → Prop) :
  (∃ m, payload = VObject m) → node_field payload id →
  kind = s"confirm_request" ∨ kind = s"step_finished" ∧ status_field payload (s"needs_user") →
  view_at g id = Some Active → Q x (Some Active) →
  settled_with id (_ ← event env cx ByLoop kind payload; mret x) g Q.
Proof.
  intros Ho Hn Hk Ha HQ. pose proof (suspended_leads env cx kind payload id g Ho Hn Hk) as Hl.
  unfold settled_with. rewrite bind_run. pose proof (event_err ByLoop kind payload g) as He.
  assert (Hloc : local_to id g (event env cx ByLoop kind payload g).1).
  { split; [done | intros; apply event_view|]. intros id' _ Hne Hu. apply event_tasks; [|done].
    eapply subject_settling; [by destruct Hk as [->|[-> _]] | done..]. }
  pose proof (event_view env cx ByLoop kind payload g id) as Hv.
  destruct (event _ _ _ _ _ _) as [g1 [[]|e]]; cbn [fst snd] in *; split; try done.
  - change (Q x (view_at g1 id)). by rewrite Hv, Ha.
  - left. by eapply He.
Qed.

(** ** One node *)

Definition node_post (hitl : bool) (outcome : option (result EngineError StepOutcome))
    (errors : list EngineError) (p : option phase) : Prop :=
  match outcome with
  | None => errors = [] ∧ p = Some Waiting
  | Some (Ok o) =>
      if is_suspension o then p = Some Active ∧ ∃ e, errors = [e] ∧ is_interaction e = true
      else errors = [] ∧ has_ended p
  | Some (Err e) =>
      if hitl && is_canceled e then errors = [] ∧ p = Some Waiting
      else errors = [e] ∧ p = Some (if is_resumable_agent e then Waiting else Ended KFailed)
  end.
Ltac recorded := first [reflexivity | by eexists].
Lemma settle_report_spec hitl node o g : view_at g (nd_id node) = Some Active →
  settled_with (nd_id node) (settle_report env cx node o) g (node_post hitl (Some (Ok o))).
Proof.
  intros Ha. destruct o as [output files|findings output files|question files|confirm files]; cbn [settle_report];
    cbn zeta; apply settled_pins; try done; intros pins g1 H1.
  - apply settled_still; [apply still_publish | by intros|]. intros _ g2 H2. rewrite H1 in H2.
    apply settled_record; [|recorded..|by split; [|eexists]].
    apply (finish_leads env cx _ _ _ (s"success")); try recorded. by left.
  - apply settled_record; [|recorded..|by split; [|eexists]].
    apply (finish_leads env cx _ _ _ (s"check_failed")); try recorded. by left.
  - apply settled_ask; [recorded | recorded | right; split; recorded | done|]. split; [done|]. by eexists.
  - apply settled_ask; [recorded | recorded | by left | done|]. split; [done|]. by eexists.
Qed.
Lemma interrupted_spec {A} node reason (errors : A) g (Q : A → option phase → Prop) :
  view_at g (nd_id node) = Some Active → Q errors (Some Waiting) →
  settled_with (nd_id node) (_ ← interrupted env cx node reason; mret errors) g Q ∧
  (unreported (eg_state g) (nd_id node) →
   unreported (eg_state ((_ ← interrupted env cx node reason; mret errors) g).1) (nd_id node)).
Proof.
  intros Ha HQ.
  set (payload := obj [ (s"node", VString (nd_id node)); (s"reason", VString reason); (s"parallel", VBool true) ]).
  change ((_ ← interrupted env cx node reason; mret errors)) with
    (_ ← set_node (nd_id node) Pending; _ ← event env cx ByLoop (s"step_interrupted") payload; mret errors).
  split.
  - apply settled_record; [|recorded..|done]. apply interrupt_leads; [recorded | done].
  - intros Hu. rewrite bind_run. cbn [set_node put]. rewrite bind_run.
    pose proof (event_tasks ByLoop (s"step_interrupted") payload
      (g <| eg_states := bm_insert (nd_id node) Pending (eg_states g) |>) (nd_id node)) as He.
    destruct (event _ _ _ _ _ _) as [g1 [[]|]]; by apply He.
Qed.
Lemma settle_wave_node_spec hitl outcomes node g : view_at g (nd_id node) = Some Active →
  settled_with (nd_id node) (settle_wave_node env cx hitl outcomes node) g
    (node_post hitl (bm_get (nd_id node) outcomes)) ∧
  (bm_get (nd_id node) outcomes = None → unreported (eg_state g) (nd_id node) →
   unreported (eg_state (settle_wave_node env cx hitl outcomes node g).1) (nd_id node)).
Proof.
  intros Ha. unfold settle_wave_node. destruct (bm_get (nd_id node) outcomes) as [[o|e]|].
  - split; [by apply settle_report_spec | done].
  - split; [|done]. destruct (hitl && is_canceled e) eqn:Eh.
    { apply interrupted_spec; [done|]. unfold node_post. by rewrite Eh. }
    destruct (is_resumable_agent e) eqn:Er.
    { apply interrupted_spec; [done|]. unfold node_post. by rewrite Eh, Er. }
    cbn zeta. apply settled_record; [|recorded..|].
    + apply (finish_leads env cx _ _ _ (s"failed")); try recorded. by left.
    + unfold node_post. by rewrite Eh, Er.
  - destruct (interrupted_spec node (s"parallel task did not report an outcome; effects unknown")
      (@nil EngineError) g (node_post hitl None) Ha) as [H1 H2]; [done|]. by split.
Qed.

(** ** All nodes *)

Record wave_settled (hitl : bool) (outcomes : bmap (result EngineError StepOutcome)) (nodes : list NodeDef)
    (r : result EngineError (list EngineError)) (g g' : engine) : Prop := {
  ws_leads : leads g g';
  ws_views : ∀ id, id ∉ map nd_id nodes → view_at g' id = view_at g id;
  ws_tasks : ∀ id, id ∈ ids cx → bm_get id outcomes = None → unreported (eg_state g) id → unreported (eg_state g') id;
  ws_result : match r with
    | Err _ => eg_refused g < eg_refused g' ∨
               ¬ pins_work ∧ ∃ n, n ∈ nodes ∧ view_at g' (nd_id n) = Some Active
    | Ok errors =>
        ∃ parts, errors = concat parts ∧
          Forall2 (λ n part, node_post hitl (bm_get (nd_id n) outcomes) part (view_at g' (nd_id n))) nodes parts
    end;
}.
Lemma local_tasks hitl outcomes node g id : view_at g (nd_id node) = Some Active →
  id ∈ ids cx → bm_get id outcomes = None → unreported (eg_state g) id →
  unreported (eg_state (settle_wave_node env cx hitl outcomes node g).1) id.
Proof.
  intros Ha Hid Ho Hu. destruct (settle_wave_node_spec hitl outcomes node g Ha) as [[Hl _] Hs].
  destruct (decide (id = nd_id node)) as [->|Hne]; [by apply Hs | by eapply lo_tasks].
Qed.
Lemma settle_wave_spec hitl outcomes nodes : ∀ g, NoDup (map nd_id nodes) →
  (∀ n, n ∈ nodes → view_at g (nd_id n) = Some Active) →
  wave_settled hitl outcomes nodes (settle_wave env cx hitl outcomes nodes g).2 g
    (settle_wave env cx hitl outcomes nodes g).1.
Proof.
  induction nodes as [|node nodes IH]; intros g Hnd Ha; cbn [settle_wave].
  { split; [reflexivity | done | done|]. exists []. by split. }
  cbn in Hnd. apply NoDup_cons in Hnd as [Hnew Hnd]. rewrite bind_run.
  assert (Hnode : view_at g (nd_id node) = Some Active) by (apply Ha; left).
  destruct (settle_wave_node_spec hitl outcomes node g Hnode) as [[[L1 V1 T1] H1] _].
  pose proof (λ id, local_tasks hitl outcomes node g id Hnode) as Htask.
  destruct (settle_wave_node _ _ _ _ _ g) as [g1 [errors|e]]; cbn [fst snd] in *.
  2:{ split; [done | intros id Hid; apply V1; set_solver | done|].
      destruct H1 as [?|[? ?]]; [by left | right; split; [done|]; exists node; split; [left | done]]. }
  destruct (IH g1 Hnd) as [L2 V2 T2 R2].
  { intros n Hn. rewrite V1; [apply Ha; by right|]. intros E. apply Hnew. rewrite <-E.
    apply list_elem_of_fmap. by exists n. }
  rewrite bind_run. assert (Hr : eg_refused g ≤ eg_refused g1) by by eapply leads_refused.
  destruct (settle_wave _ _ _ _ nodes g1) as [g2 [more|e]]; cbn [fst snd] in *.
  all: split; [by etrans | intros id Hid; rewrite V2, V1; set_solver | eauto|].
  - destruct R2 as (parts & -> & Hp). exists (errors :: parts). split; [done|]. constructor; [|done].
    by rewrite V2.
  - destruct R2 as [?|(? & n & ? & ?)]; [left; lia | right; split; [done|]; exists n; split; [by right | done]].
Qed.
End wave_spec.

(** * Running a wave *)

Section wave_run.
Context {W : WireTypes} {Sha : Sha256} {Msg : Messages} {Frm : Forms} {Cm : CaseMapping}.
Variables (env : Environment) (cx : RunContext).
Notation leads := (leads cx).
Notation startable := (startable cx).
Hypothesis modest : modest_bodies env cx.

(** ** Starting *)

(** A check found the elapsed deadline passed. *)
Definition expired_by (g : engine) : Prop :=
  cx_deadline cx = true ∧ is_Some (cx_elapsed_limit cx) ∧ ∃ n, n < eg_tick g ∧ ev_expired env n = true.
Lemma expired_later g g' : expired_by g → eg_tick g ≤ eg_tick g' → expired_by g'.
Proof. intros (? & ? & n & ? & ?) Hk. split; [done|]. split; [done|]. exists n. split; [lia | done]. Qed.
Definition stops (e : EngineError) (g : engine) : Prop :=
  is_canceled e = true ∨ is_elapsed_exhaustion e = true ∧ expired_by g.
Lemma checkpoint_err g g' e : run_checkpoint env cx g = (g', Err e) → stops e g'.
Proof.
  unfold run_checkpoint, stops, expired_by. rewrite bind_run. cbn [ask].
  destruct (ev_cancelled _ _); [intros [= <- <-]; by left|].
  destruct (cx_elapsed_limit cx) as [limit|]; [|done]. destruct (_ && _) eqn:Ed; [|done].
  apply andb_true_iff in Ed as [Ed Ee]. intros [= <- <-]. right. split; [done|]. split; [done|]. split; [done|].
  exists (eg_tick g). cbn. split; [lia | done].
Qed.
Lemma set_pending_still id g : view_at g id = Some Waiting → calm cx no_id g (set_node id Pending g).1.
Proof.
  intros Hw. assert (Hp : bm_get id (eg_states g) = Some Pending).
  { unfold view_at, view_of in Hw. by destruct (bm_get id (eg_states g)) as [[]|]. }
  assert (Hs : ∀ id', bm_get id' (bm_insert id Pending (eg_states g)) = bm_get id' (eg_states g)).
  { intros id'. rewrite bm_get_insert. by destruct (str_eqb_spec id' id) as [->|]. }
  split; cbn; try done; [intros id'; by rewrite Hs | apply bm_sorted_insert | intros id'; by rewrite Hs].
Qed.
Lemma calm_none_leads g g' : calm cx no_id g g' → leads g g'.
Proof. intros Hc. apply calm_leads. eapply calm_mono; [|exact Hc]. by intros ? []. Qed.
Lemma calm_none_view g g' id : calm cx no_id g g' → view_at g' id = view_at g id.
Proof. intros Hc. unfold view_at, view_of. by rewrite (ca_states _ _ _ _ Hc id) by (by intros []). Qed.

Lemma start_node_spec node g g' r : startable node g → start_node env cx node g = (g', r) →
  match r with
  | Ok _ => leads g g' ∧ becomes (view_at g) (nd_id node) Active (view_at g')
  | Err e => let g'' := (set_node (nd_id node) Pending g').1 in
      leads g g'' ∧ (∀ id, view_at g'' id = view_at g id) ∧
      (stops e g'' ∨ eg_refused g < eg_refused g'')
  end.
Proof.
  intros Hst. unfold start_node. rewrite bind_run. pose proof (still_checkpoint env cx no_id g) as C1.
  pose proof (still_startable cx node _ g (still_checkpoint env cx no_id) Hst) as S1.
  destruct (run_checkpoint env cx g) as [g1 [[]|e]] eqn:Ec; cbn [fst] in *.
  2:{ intros [= <- <-]. cbn zeta. pose proof (set_pending_still (nd_id node) g1 (proj1 (proj2 S1))) as C2.
      pose proof (transitivity C1 C2) as C. split; [by apply calm_none_leads|].
      split; [intros id; by apply calm_none_view|]. left. by apply checkpoint_err in Ec. }
  set (payload := obj _).
  change ((set_node (nd_id node) Running ≫= λ _, event env cx ByLoop (s"step_started") payload) g1)
    with (settle_to env cx (nd_id node) Running (s"step_started") payload g1).
  destruct (start_spec env cx node payload g1 eq_refl S1) as [L2 H2].
  pose proof (settle_to_views env cx (nd_id node) Running (s"step_started") payload g1) as V2.
  assert (He : ∀ e, (settle_to env cx (nd_id node) Running (s"step_started") payload g1).2 = Err e →
    eg_refused g1 < eg_refused (settle_to env cx (nd_id node) Running (s"step_started") payload g1).1).
  { intros e. unfold settle_to. rewrite bind_run. cbn [set_node put]. by intros Hx%event_err. }
  assert (A2 : eg_anomaly (settle_to env cx (nd_id node) Running (s"step_started") payload g1).1 = eg_anomaly g1)
    by apply L2.
  assert (K2 : eg_tick g1 ≤ eg_tick (settle_to env cx (nd_id node) Running (s"step_started") payload g1).1) by apply L2.
  assert (D2 : ∀ id, is_Some (bm_get id (eg_states g1)) → is_Some (bm_get id
    (eg_states (settle_to env cx (nd_id node) Running (s"step_started") payload g1).1))) by apply L2.
  assert (O2 : bm_sorted (eg_states g1) →
    bm_sorted (eg_states (settle_to env cx (nd_id node) Running (s"step_started") payload g1).1)) by apply L2.
  destruct (settle_to _ _ _ _ _ _ g1) as [g2 [[]|e]]; cbn [fst snd] in *; intros [= <- <-].
  - split; [etrans; [by apply calm_none_leads | done]|].
    destruct (H2 eq_refl) as [Hi Ho]. split; [done|]. intros id' Hid. rewrite Ho by done. by apply calm_none_view.
  - cbn zeta. specialize (He e eq_refl). pose proof (ca_refused _ _ _ _ C1) as Hr.
    split; [|split].
    + split; [split; cbn | left; cbn; lia].
      * rewrite A2. apply C1.
      * pose proof (ca_tick _ _ _ _ C1). lia.
      * intros Hso. apply bm_sorted_insert, O2, C1, Hso.
      * intros id Hd. apply bm_insert_dom, D2, C1, Hd.
    + intros id. destruct (decide (id = nd_id node)) as [->|Hne].
      * destruct S1 as (_ & Hw & _). rewrite <-(calm_none_view g g1 (nd_id node) C1), Hw.
        unfold view_at, view_of. cbn. by rewrite bm_get_insert_eq.
      * rewrite <-(calm_none_view g g1 id C1), <-(V2 id Hne). unfold view_at, view_of. cbn.
        by rewrite bm_get_insert_ne.
    + right. cbn. lia.
Qed.

Definition started_spec (r0 : nat) (nodes started : list NodeDef) (g : engine)
    (started' : list NodeDef) (ts' : list running) (co : collected) (err : option EngineError) (g' : engine) : Prop :=
  leads g g' ∧ (∃ more rest, nodes = more ++ rest ∧ started' = started ++ more) ∧
  (∀ n, n ∈ started' → view_at g' (nd_id n) = Some Active) ∧
  (∀ id, id ∉ map nd_id started' → view_at g' id = view_at g id) ∧
  match err with
  | None => co = collected_none ∧ task_ids ts' = map nd_id started' ∧ started' = started ++ nodes
  | Some e => ts' = [] ∧ joined cx r0 (λ id, id ∈ map nd_id started') co g' ∧
      (stops e g' ∨ r0 < eg_refused g')
  end.
Lemma joined_none r0 g : r0 ≤ eg_refused g → joined cx r0 (λ _, False) collected_none g.
Proof. intros Hr. split; [done | apply bm_sorted_nil | done..]. Qed.
Lemma start_wave_spec r0 nodes : ∀ started ts g,
  r0 ≤ eg_refused g → NoDup (map nd_id (started ++ nodes)) → task_ids ts = map nd_id started →
  (∀ n, n ∈ started → view_at g (nd_id n) = Some Active) → (∀ n, n ∈ nodes → startable n g) →
  ∃ started' ts' co err g', start_wave env cx nodes started ts g = (g', Ok (started', ts', co, err)) ∧
    started_spec r0 nodes started g started' ts' co err g'.
Proof.
  induction nodes as [|node nodes IH]; intros started ts g Hr Hnd Hts Hact Hst; cbn [start_wave].
  { eexists _, _, _, _, _. split; [done|]. split; [reflexivity|].
    split; [exists [], []; split; [done | by rewrite app_nil_r]|]. rewrite app_nil_r. done. }
  assert (Hfr : fresh_tasks ts (λ _, False)).
  { split; [|tauto]. rewrite Hts. rewrite map_app in Hnd. by apply NoDup_app in Hnd as (? & _ & _). }
  destruct (interleaved env cx modest ts _ g Hfr) as (ts1 & g1 & E1 & C1 & I1 & Len1 & F1).
  rewrite bind_run, E1, bind_run, try_run.
  assert (S1 : ∀ n, n ∈ node :: nodes → startable n g1).
  { intros n Hn. eapply startable_views; [|by apply Hst]. intros id. by apply calm_none_view. }
  destruct (start_node env cx node g1) as [g2 r] eqn:E2. cbn [fst snd].
  pose proof (start_node_spec node g1 g2 r (S1 node ltac:(left)) E2) as H2.
  pose proof (ca_refused _ _ _ _ C1) as Hr1. pose proof (λ id, calm_none_view _ _ id C1) as V1.
  destruct r as [[]|e].
  - destruct H2 as [L2 [Hi Ho]]. rewrite bind_run. cbn [the_engine].
    assert (Hne : ∀ n, n ∈ started ++ nodes → nd_id n ≠ nd_id node).
    { intros n Hn E. rewrite map_app in Hnd. cbn in Hnd. apply NoDup_app in Hnd as (_ & Hd & Hnd).
      apply NoDup_cons in Hnd as [Hd' _]. apply elem_of_app in Hn as [Hn|Hn].
      - apply (Hd (nd_id n)); [apply list_elem_of_fmap; by exists n | rewrite E; left].
      - apply Hd'. rewrite <-E. apply list_elem_of_fmap. by exists n. }
    destruct (IH (started ++ [node]) (ts1 ++ [mkRunning node (first_task node) (eg_vars g2)]) g2)
      as (started' & ts' & co & err & g' & E & L & (more & rest & -> & ->) & A & V & X).
    + apply leads_refused in L2. lia.
    + by rewrite <-(assoc_L (++)).
    + unfold task_ids in *. rewrite !map_app. cbn. by rewrite I1, Hts.
    + intros n [Hn| ->%list_elem_of_singleton]%elem_of_app; [|done].
      rewrite Ho by (apply Hne; set_solver). rewrite V1. by apply Hact.
    + intros n Hn. destruct (S1 n ltac:(by right)) as (? & Hw & Hrun). split; [done|].
      split; [rewrite Ho; [done | apply Hne; set_solver]|]. eapply may_run_mono; [|exact Hrun].
      intros y c Hy. rewrite Ho; [done|]. intros ->. destruct (S1 node ltac:(left)) as (_ & ? & _). congruence.
    + eexists _, _, _, _, _. split; [exact E|]. split; [etrans; [by apply calm_none_leads | by etrans]|].
      split; [exists (node :: more), rest; by rewrite <-(assoc_L (++))|]. split; [done|]. split.
      * intros id Hid. rewrite V by done. rewrite Ho, V1; [done|]. intros ->. apply Hid.
        rewrite !map_app. cbn. set_solver.
      * destruct err; [done|]. destruct X as (? & ? & Heq). split; [done|]. split; [done|].
        etrans; [exact Heq|]. by rewrite <-(assoc_L (++)).
  - cbn zeta in H2. destruct H2 as (L2 & V2 & He). rewrite bind_run.
    change (set_node (nd_id node) Pending g2) with ((set_node (nd_id node) Pending g2).1, Ok (E:=EngineError) ()).
    cbv beta iota. set (g3 := (set_node (nd_id node) Pending g2).1) in *.
    pose proof (leads_refused _ _ _ L2) as Hr3. set (cause := if is_canceled e then _ else _).
    destruct (drain_spec env cx modest r0 cause cause (length ts1) ts1 collected_none g3 (λ _, False))
      as (co & g4 & E4 & C4 & J4); [done | done | apply joined_none; lia|].
    rewrite bind_run, E4. pose proof (ca_refused _ _ _ _ C4) as Hr4. eexists _, _, _, _, _. split; [done|].
    split; [etrans; [by apply calm_none_leads|]; etrans; [exact L2 | by apply calm_none_leads]|].
    split; [exists [], (node :: nodes); split; [done | by rewrite app_nil_r]|].
    pose proof (λ id, calm_none_view _ _ id C4) as V4.
    split; [intros n Hn; rewrite V4, V2, V1; by apply Hact|].
    split; [intros id _; by rewrite V4, V2, V1|]. split; [done|]. split.
    + eapply joined_ext; [exact J4 | | done..]. intros id. unfold also. rewrite I1, Hts. tauto.
    + destruct He as [[?|[? ?]]|?]; [by left; left | left; right | right; lia].
      split; [done|]. eapply expired_later; [done | apply C4].
Qed.

(** ** The wave *)

Lemma combine_inv errors e : combine_terminal_errors errors = Err e → propagates e = false →
  errors ≠ [] ∧ ∀ x, x ∈ errors → is_interaction x = false ∧ is_resumable_agent x = false.
Proof.
  destruct errors as [|first rest]; [done|]. cbn [combine_terminal_errors]. intros H Hp. split; [done|].
  destruct (List.find is_interaction (first :: rest)) as [i|] eqn:Ef.
  { injection H as <-. apply List.find_some in Ef as [_ Ef]. unfold propagates in Hp. rewrite Ef in Hp.
    by rewrite orb_true_r in Hp. }
  assert (Hi : ∀ x, x ∈ first :: rest → is_interaction x = false).
  { intros x Hx%list_elem_of_In. by eapply List.find_none in Hx. }
  intros x Hx. split; [by apply Hi|]. destruct rest as [|second rest].
  - injection H as <-. apply list_elem_of_singleton in Hx as ->. unfold propagates in Hp.
    by apply orb_false_iff in Hp as [[_ ?]%orb_false_iff _].
  - destruct (existsb is_resumable_agent (first :: second :: rest)) eqn:Er.
    { injection H as <-. done. }
    destruct (is_resumable_agent x) eqn:Ex; [|done].
    assert (existsb is_resumable_agent (first :: second :: rest) = true); [|congruence].
    apply existsb_exists. exists x. split; [by apply list_elem_of_In | done].
Qed.
Lemma concat_nil {A} (l : list (list A)) x : concat l = [] → x ∈ l → x = [].
Proof. induction l as [|y l IH]; cbn; [by intros _ ?%not_elem_of_nil|]. intros [-> ?]%app_eq_nil [->|]%elem_of_cons; auto. Qed.
Lemma concat_elem {A} (l : list (list A)) x : x ∈ concat l → ∃ y, y ∈ l ∧ x ∈ y.
Proof.
  induction l as [|y l IH]; cbn; [by intros ?%not_elem_of_nil|].
  intros [?|(z & ? & ?)%IH]%elem_of_app; [exists y | exists z]; split; try done; [left | by right].
Qed.

Lemma bm_nonempty {V} (m : bmap V) : m ≠ [] → ∃ k v, bm_get k m = Some v.
Proof. destruct m as [|[k v] m]; [done|]. intros _. exists k, v. cbn. by rewrite str_eqb_refl. Qed.

(** The joins and the settlement of the nodes together. *)
Section conclusion.
Variables (r0 : nat) (nodes : list NodeDef) (co : collected) (g g' : engine) (errors : list EngineError).
Hypotheses (Hj : joined cx r0 (λ id, id ∈ map nd_id nodes) co g) (Ht : told (λ id, id ∈ map nd_id nodes) co)
  (Hs : wave_settled env cx (existsb is_hitl (bm_values (co_outcomes co))) (co_outcomes co) nodes (Ok errors) g g')
  (Hids : ∀ n, n ∈ nodes → nd_id n ∈ ids cx).

Notation hitl := (existsb is_hitl (bm_values (co_outcomes co))).

Lemma part_of n : n ∈ nodes → ∃ part, (∀ x, x ∈ part → x ∈ errors) ∧
  node_post hitl (bm_get (nd_id n) (co_outcomes co)) part (view_at g' (nd_id n)).
Proof.
  intros [i Hi]%list_elem_of_lookup. destruct (ws_result _ _ _ _ _ _ _ _ Hs) as (parts & -> & Hp).
  destruct (Forall2_lookup_l _ _ _ _ _ Hp Hi) as (part & Hin & Hpost). exists part. split; [|done].
  intros x Hx. apply list_elem_of_lookup_2 in Hin. clear -Hx Hin. induction Hin; cbn; set_solver.
Qed.
Lemma error_of x : x ∈ errors → ∃ n part, n ∈ nodes ∧ x ∈ part ∧
  node_post hitl (bm_get (nd_id n) (co_outcomes co)) part (view_at g' (nd_id n)).
Proof.
  destruct (ws_result _ _ _ _ _ _ _ _ Hs) as (parts & -> & Hp). intros (part & [i Hi]%list_elem_of_lookup & Hx)%concat_elem.
  destruct (Forall2_lookup_r _ _ _ _ _ Hp Hi) as (n & Hn & Hpost). exists n, part.
  split; [by eapply list_elem_of_lookup_2 | done].
Qed.
(** A question is an error of its node. *)
Lemma hitl_error : hitl = true → ∃ e, e ∈ errors ∧ is_interaction e = true.
Proof.
  intros (r & Hr & Hh)%existsb_exists. apply list_elem_of_In in Hr. apply list_elem_of_fmap in Hr as ([id r'] & -> & Hin).
  apply bm_elem_get in Hin; [|apply Hj]. pose proof (jn_keys _ _ _ _ _ Hj _ _ Hin) as (n & -> & Hn)%list_elem_of_fmap.
  destruct (part_of n Hn) as (part & Hsub & Hpost). rewrite Hin in Hpost. cbn in Hh.
  destruct r' as [[]|]; try done; cbn in Hpost; destruct Hpost as (_ & e & -> & He); exists e;
    (split; [apply Hsub; left | done]).
Qed.
Definition no_questions : Prop := ∀ x, x ∈ errors → is_interaction x = false ∧ is_resumable_agent x = false.
Lemma none_active : no_questions → ∀ n, n ∈ nodes → view_at g' (nd_id n) ≠ Some Active.
Proof.
  intros Hq n Hn Ha. destruct (part_of n Hn) as (part & Hsub & Hpost). rewrite Ha in Hpost. unfold node_post in Hpost.
  destruct (bm_get _ _) as [[o|e]|]; [| |by destruct Hpost].
  - destruct (is_suspension o); [|destruct Hpost as [_ [c Hc]]; done].
    destruct Hpost as (_ & e & -> & He). destruct (Hq e) as [Hq' _]; [apply Hsub; left | congruence].
  - case_if in Hpost; [by destruct Hpost|]. destruct Hpost as [_ Hp]. by case_if in Hp.
Qed.
Lemma error_ended x : no_questions → x ∈ errors → ∃ n, n ∈ nodes ∧ view_at g' (nd_id n) = Some (Ended KFailed).
Proof.
  intros Hq Hx. destruct (Hq x Hx) as [Hi Hr]. destruct (error_of x Hx) as (n & part & Hn & Hin & Hpost).
  exists n. split; [done|]. unfold node_post in Hpost. destruct (bm_get _ _) as [[o|e]|].
  - destruct (is_suspension o); [|by destruct Hpost as [-> _]; apply not_elem_of_nil in Hin].
    destruct Hpost as (_ & e & -> & He). apply list_elem_of_singleton in Hin as ->. congruence.
  - case_if in Hpost; [by destruct Hpost as [-> _]; apply not_elem_of_nil in Hin|]. destruct Hpost as [-> Hp].
    apply list_elem_of_singleton in Hin as ->. by rewrite Hr in Hp.
  - destruct Hpost as [-> _]. by apply not_elem_of_nil in Hin.
Qed.
Lemma outcome_ended : nodes ≠ [] → co_errors co = [] → errors = [] →
  ∃ n, n ∈ nodes ∧ has_ended (view_at g' (nd_id n)).
Proof.
  intros Hne Hce He. destruct (td_some _ _ Ht) as [Ho|]; [| |done].
  { right. clear -Hne. destruct nodes as [|n l]; [done|]. exists (nd_id n). cbn. left. }
  apply bm_nonempty in Ho as (id & r & Hg).
  pose proof (jn_keys _ _ _ _ _ Hj _ _ Hg) as (n & -> & Hn)%list_elem_of_fmap. exists n. split; [done|].
  destruct (part_of n Hn) as (part & Hsub & Hpost). rewrite Hg in Hpost.
  assert (part = []) as ->. { destruct part as [|x part]; [done|]. specialize (Hsub x ltac:(left)). rewrite He in Hsub.
    by apply not_elem_of_nil in Hsub. }
  unfold node_post in Hpost. destruct r as [o|e].
  - destruct (is_suspension o); [|by destruct Hpost]. by destruct Hpost as (_ & e & ? & _).
  - destruct (_ && _) eqn:Eh; [|by destruct Hpost]. apply andb_true_iff in Eh as [Eh _].
    destruct (hitl_error Eh) as (e' & He' & _). rewrite He in He'. by apply not_elem_of_nil in He'.
Qed.
(** The errors of tasks without a report leave an unresolved task. *)
Lemma errors_unresolved : co_errors co ≠ [] → r0 < eg_refused g ∨ rs_unresolved_tasks (eg_state g') ≠ [].
Proof.
  intros (id & HJ & Ho)%(td_errors _ _ Ht). pose proof HJ as (n & E & Hn)%list_elem_of_fmap.
  assert (Hid : id ∈ ids cx) by (rewrite E; by apply Hids).
  destruct (jn_lost _ _ _ _ _ Hj id Hid HJ Ho) as [?|Hu]; [by left | right].
  apply (ws_tasks _ _ _ _ _ _ _ _ Hs id Hid Ho) in Hu as (fact & Hf & _). intros E'. by rewrite E' in Hf.
Qed.
End conclusion.

(** What a wave leaves. *)
Definition wave_progress (nodes : list NodeDef) (g' : engine) : Prop :=
  (∃ n, n ∈ nodes ∧ has_ended (view_at g' (nd_id n))) ∧
  ∀ n, n ∈ nodes → view_at g' (nd_id n) ≠ Some Active.
Definition wave_result (r0 : nat) (nodes : list NodeDef) (r : result EngineError ()) (g' : engine) : Prop :=
  r0 < eg_refused g' ∨
  match r with
  | Ok _ => wave_progress nodes g'
  | Err e =>
      propagates e = true ∨ is_elapsed_exhaustion e = true ∧ expired_by g' ∨
      rs_unresolved_tasks (eg_state g') ≠ [] ∨
      ¬ pins_work env ∧ (∃ n, n ∈ nodes ∧ view_at g' (nd_id n) = Some Active) ∨
      wave_progress nodes g' ∧ ∃ n, n ∈ nodes ∧ view_at g' (nd_id n) = Some (Ended KFailed)
  end.
Lemma combined_result r0 nodes co g g' errors :
  joined cx r0 (λ id, id ∈ map nd_id nodes) co g → told (λ id, id ∈ map nd_id nodes) co →
  wave_settled env cx (existsb is_hitl (bm_values (co_outcomes co))) (co_outcomes co) nodes (Ok errors) g g' →
  (∀ n, n ∈ nodes → nd_id n ∈ ids cx) → nodes ≠ [] →
  wave_result r0 nodes (combine_terminal_errors (co_errors co ++ errors)) g'.
Proof.
  intros Hj Ht Hs Hids Hne. pose proof (leads_refused _ _ _ (ws_leads _ _ _ _ _ _ _ _ Hs)) as Hr.
  destruct (combine_terminal_errors (co_errors co ++ errors)) as [[]|e] eqn:Ec.
  - assert (Hnil : co_errors co ++ errors = []).
    { destruct (co_errors co ++ errors) as [|x l]; [done|]. cbn in Ec.
      destruct (if is_interaction x then _ else _); [done|]. by destruct l. }
    apply app_eq_nil in Hnil as [Hce ->]. right. split.
    + by eapply outcome_ended.
    + eapply none_active; [done..|]. by intros x ?%not_elem_of_nil.
  - destruct (propagates e) eqn:Ep; [right; by left|]. destruct (combine_inv _ _ Ec Ep) as [Hcons Hq].
    destruct (decide (co_errors co = [])) as [Hce|Hce].
    + rewrite Hce in Hcons, Hq. cbn in Hcons, Hq. right. do 4 right.
      assert (Hfail : ∃ n, n ∈ nodes ∧ view_at g' (nd_id n) = Some (Ended KFailed)).
      { destruct errors as [|x l]; [done|]. eapply (error_ended); [done..|]. left. }
      split; [|done]. split; [|by eapply none_active]. destruct Hfail as (n & Hn & Hf). exists n. by split; [|eexists].
    + destruct (errors_unresolved _ _ _ _ _ _ Hj Ht Hs Hids Hce) as [?|?]; [left; lia | right; by do 2 right; left].
Qed.

(** The joins of a started wave. *)
Lemma collected_spec r0 nodes started ts co err g1 g :
  started_spec r0 nodes [] g started ts co err g1 → NoDup (map nd_id started) → r0 ≤ eg_refused g1 →
  ∃ co' cancelled g2, collect env cx (length ts) ts co g1 = (g2, Ok (co', cancelled)) ∧ calm cx no_id g1 g2 ∧
    joined cx r0 (λ id, id ∈ map nd_id started) co' g2 ∧
    (err = None → cancelled = false → started = nodes ∧ told (λ id, id ∈ map nd_id nodes) co').
Proof.
  intros (_ & _ & _ & _ & X) Hnd Hr. destruct err as [e|].
  { destruct X as (-> & Hj & _). exists co, false, g1. by split_and!. }
  destruct X as (-> & Hts & ->). cbn [app] in *.
  destruct (collect_spec env cx modest r0 (length ts) ts collected_none g1 (λ _, False))
    as (co' & cancelled & g2 & E & C & J & T); [done | | by apply joined_none | |].
  { split; [by rewrite Hts | tauto]. }
  { split; [done|]. by intros [|[? []]]. }
  exists co', cancelled, g2. split; [done|]. split; [done|].
  assert (Ha : ∀ id, also ts (λ _, False) id ↔ id ∈ map nd_id nodes) by (intros id; unfold also; rewrite Hts; tauto).
  split; [by eapply joined_ext|]. intros _ Hc. split; [done|]. destruct (T Hc) as [He Hsm]. split.
  - intros (id & HJ & Ho)%He. exists id. by rewrite <-Ha.
  - intros [?|(id & HJ)]; apply Hsm; [by left | right; exists id; by rewrite Ha].
Qed.
Lemma wave_spec nodes g : NoDup (map nd_id nodes) → nodes ≠ [] → (∀ n, n ∈ nodes → startable n g) →
  leads g (execute_parallel_wave env cx nodes g).1 ∧
  (∀ id, id ∉ map nd_id nodes → view_at (execute_parallel_wave env cx nodes g).1 id = view_at g id) ∧
  wave_result (eg_refused g) nodes (execute_parallel_wave env cx nodes g).2 (execute_parallel_wave env cx nodes g).1.
Proof.
  intros Hnd Hne Hst. unfold execute_parallel_wave. rewrite bind_run.
  destruct (start_wave_spec (eg_refused g) nodes [] [] g) as (started & ts & co & err & g1 & E1 & Hsp);
    [done | done | done | by intros n ?%not_elem_of_nil | done|].
  rewrite E1. cbv beta iota. pose proof Hsp as (L1 & (more & rest & Hsplit & Hmore) & A1 & V1 & X1). cbn in Hmore. subst more.
  assert (Hsub : ∀ n, n ∈ started → n ∈ nodes) by (rewrite Hsplit; set_solver).
  assert (Hsubid : ∀ id, id ∈ map nd_id started → id ∈ map nd_id nodes) by (rewrite Hsplit, map_app; set_solver).
  assert (Hnds : NoDup (map nd_id started)) by (rewrite Hsplit, map_app in Hnd; by apply NoDup_app in Hnd as (? & _)).
  assert (Hids : ∀ n, n ∈ nodes → nd_id n ∈ ids cx) by (intros n Hn; apply bm_get_is_Some; by eexists; apply Hst).
  pose proof (leads_refused _ _ _ L1) as R1. rewrite bind_run.
  destruct (collected_spec _ _ _ _ _ _ _ _ Hsp Hnds R1) as (co' & cancelled & g2 & E2 & C2 & J2 & T2).
  rewrite E2. cbv beta iota. assert (L2 : leads g g2) by (etrans; [done | by apply calm_none_leads]).
  assert (V2 : ∀ id, id ∉ map nd_id nodes → view_at g2 id = view_at g id).
  { intros id Hid. rewrite (calm_none_view _ _ id C2). apply V1. auto. }
  rewrite bind_run. destruct (co_fact co') as [[]|e] eqn:Ef; cbn [of_result].
  2:{ split; [done|]. split; [done|]. left. by eapply jn_fact. }
  rewrite bind_run.
  pose proof (settle_wave_spec env cx (existsb is_hitl (bm_values (co_outcomes co'))) (co_outcomes co') started g2 Hnds
    ltac:(intros n Hn; rewrite (calm_none_view _ _ _ C2); by apply A1)) as Hws.
  destruct (settle_wave _ _ _ _ started g2) as [g3 r3]. cbn [fst snd] in Hws.
  assert (L3 : leads g g3) by (etrans; [done | apply Hws]).
  assert (V3 : ∀ id, id ∉ map nd_id nodes → view_at g3 id = view_at g id).
  { intros id Hid. rewrite (ws_views _ _ _ _ _ _ _ _ Hws) by auto. by apply V2. }
  assert (Hres : ∀ m : result EngineError (), wave_result (eg_refused g) nodes m g3 →
    leads g g3 ∧ (∀ id, id ∉ map nd_id nodes → view_at g3 id = view_at g id) ∧ wave_result (eg_refused g) nodes m g3) by done.
  destruct r3 as [errors|e].
  2:{ apply (Hres (Err e)). pose proof (leads_refused _ _ _ L2) as R2. pose proof (ws_result _ _ _ _ _ _ _ _ Hws) as [?|(? & n & ? & ?)].
      - left. cbn in *. lia.
      - right. do 3 right. left. split; [done|]. exists n. auto. }
  destruct cancelled; [apply (Hres (Err ECanceled)); right; by left|].
  destruct err as [e|].
  - apply (Hres (Err e)). destruct X1 as (_ & _ & [[He|[He Hx]]|He]).
    + right. left. unfold propagates. by rewrite He.
    + right. right. left. split; [done|]. eapply expired_later; [exact Hx|].
      pose proof (ca_tick _ _ _ _ C2). pose proof (kp_tick _ _ (proj1 (ws_leads _ _ _ _ _ _ _ _ Hws))). lia.
    + left. pose proof (ca_refused _ _ _ _ C2). pose proof (leads_refused _ _ _ (ws_leads _ _ _ _ _ _ _ _ Hws)). lia.
  - destruct (T2 eq_refl eq_refl) as [-> Ht]. apply (Hres (combine_terminal_errors (co_errors co' ++ errors))).
    by eapply combined_result.
Qed.
End wave_run.
