(* ===== verification/EngineLoop.v ===== *)
(** * The run loop and what surrounds it *)

From S2P Require Import Prelude Str TraceIds BMap Json ExprEval ValueBag ExprParser Serde Events RunState RunStateEffect JournalFile AuditRules JournalWriter Graph GraphTopo GraphBuild EngineTypes EngineWorld EngineExecute EngineRepair EngineRun EngineInner EngineFold EngineCalm EngineMoves EngineRound EngineWaveSpec.

#[local] Arguments s : simpl never.

(** * The run loop

    Every round the loop goes on from leaves fewer waiting nodes, or a record
    was refused; a round of a built graph that finds nothing to do leaves no
    open node. *)

Section loop_spec.
Context {W : WireTypes} {Sha : Sha256} {Msg : Messages} {Frm : Forms} {Cm : CaseMapping}.
Variables (env : Environment) (cx : RunContext).
Notation nodes := (g_nodes (cx_graph cx)).
Notation order := (g_order (cx_graph cx)).
Notation leads := (leads cx).
Notation startable := (startable cx).
Hypotheses (modest : modest_bodies env cx) (plain : plain_ids cx) (Hkeyed : keyed cx)
  (replay_sorted : bm_sorted (rs_nodes (cx_replay cx))) (Horder : topological nodes order)
  (nodes_sorted : bm_sorted nodes).

Definition quiet (g : engine) : Prop := ∀ id, view_at g id ≠ Some Active.
Definition went_on (g g' : engine) : Prop :=
  (∀ id, view_at g' id = Some Waiting → view_at g id = Some Waiting) ∧
  (∃ id, id ∈ order ∧ view_at g id = Some Waiting ∧ view_at g' id ≠ Some Waiting) ∧
  (pins_work env → quiet g → quiet g').
(** The run is cut short: a node failed or the deadline passed. *)
Definition cut_short (g : engine) : Prop :=
  pins_work env → expired_by env cx g ∨ ∃ id, view_at g id = Some (Ended KFailed).
Definition round_result (g g' : engine) (f : flow) : Prop :=
  eg_refused g < eg_refused g' ∨
  match f with
  | Leave _ => cut_short g'
  | Again _ | Checked true _ => went_on g g'
  | Checked false _ => eg_states g' = eg_states g ∧
      ∀ id n, id ∈ order → bm_get id (eg_states g) = Some Pending → bm_get id nodes = Some n →
        undecided n (eg_states g)
  end.

(** ** A node or a wave *)

Lemma after_start_leave node first g x : (after_start env cx node first g).2 = Ok (Leave x) →
  view_at (after_start env cx node first g).1 (nd_id node) = Some (Ended KFailed).
Proof.
  unfold after_start. rewrite bind_run, try_run.
  destruct (execute_node_with_retry env cx node g) as [g1 [o|e]]; cbn [fst snd].
  { rewrite bind_run. by destruct (settle_outcome _ _ _ _ _) as [g2 [u|]]. }
  destruct (propagates e); [done|]. cbn zeta. rewrite bind_run. cbn [set_node put]. rewrite bind_run.
  set (g2 := g1 <| eg_states := _ |>). set (payload := obj _).
  pose proof (event_view env cx ByLoop (s"step_finished") payload g2 (nd_id node)) as Hv.
  destruct (event _ _ _ _ _ g2) as [g3 [u|]]; [|done]. intros _.
  assert (H3 : view_at g3 (nd_id node) = Some (Ended KFailed)).
  { cbn in Hv. rewrite Hv. unfold view_at, view_of. cbn. by rewrite bm_get_insert_eq. }
  by destruct (_ || _).
Qed.
Lemma run_single_leave node first g x : (run_single env cx node first g).2 = Ok (Leave x) →
  view_at (run_single env cx node first g).1 (nd_id node) = Some (Ended KFailed).
Proof.
  unfold run_single. rewrite bind_run. destruct (run_checkpoint env cx g) as [g1 [[]|]]; [|done].
  rewrite bind_run. cbn [sync_live_outcomes put]. rewrite bind_run. cbn [set_node put]. rewrite bind_run.
  destruct (event _ _ _ _ _ _) as [g3 [[]|]]; [|done]. apply (after_start_leave node first g3 x).
Qed.
Lemma tidied_quiet g g' : tidied nowhere g g' → quiet g → quiet g'.
Proof. intros Ht Hq id Ha. apply (Hq id). apply (Ht id); [by intros []|done]. Qed.
Definition checks_out (f : flow) : bool := match f with Checked false _ => false | _ => true end.
Lemma single_flow node first g f : (run_single env cx node first g).2 = Ok f → checks_out f = true.
Proof.
  unfold run_single. rewrite bind_run. destruct (run_checkpoint env cx g) as [g1 [[]|]]; [|done].
  rewrite bind_run. cbn [sync_live_outcomes put]. rewrite bind_run. cbn [set_node put]. rewrite bind_run.
  destruct (event _ _ _ _ _ _) as [g3 [[]|]]; [|done].
  rewrite bind_run, try_run. destruct (execute_node_with_retry env cx node g3) as [g4 [o|e]]; cbn [fst snd].
  { rewrite bind_run. destruct (settle_outcome _ _ _ _ _) as [g5 [u|]]; [by intros [= <-] | done]. }
  destruct (propagates e); [done|]. rewrite bind_run. cbn [set_node put]. rewrite bind_run.
  destruct (event _ _ _ _ _ _) as [g5 [[]|]]; [|done]. by destruct (_ || _); intros [= <-].
Qed.
Lemma wave_flow ready first g f : (run_wave env cx ready first g).2 = Ok f → checks_out f = true.
Proof.
  unfold run_wave. rewrite bind_run. cbn [sync_live_outcomes put]. rewrite bind_run, try_run. cbn zeta.
  destruct (execute_parallel_wave _ _ _ _) as [g2 [[]|e]]; cbn [fst snd]; [by intros [= <-]|].
  rewrite bind_run. cbn [the_engine]. destruct (_ || _); [done|]. by destruct (_ || _); intros [= <-].
Qed.
Lemma single_result node first g f : startable node g → nd_id node ∈ order →
  (run_single env cx node first g).2 = Ok f →
  round_result g (run_single env cx node first g).1 f.
Proof.
  intros Hst Hin Hf. right. destruct (run_single_spec env cx modest plain Hkeyed node first g Hst) as [_ H].
  destruct (H f Hf) as [Ht [c Hc]].
  assert (Hw : went_on g (run_single env cx node first g).1).
  { split; [intros id; apply Ht|]. split; [|intros _; by apply tidied_quiet].
    exists (nd_id node). split; [done|]. split; [apply Hst | congruence]. }
  destruct f as [[] ?|?|x]; try done.
  - by apply single_flow in Hf.
  - intros _. right. eexists. by apply (run_single_leave node first g x).
Qed.

Lemma wave_went_on ready g g' : ready ≠ [] → (∀ n, n ∈ ready → startable n g ∧ nd_id n ∈ order) →
  (∀ id, id ∉ map nd_id ready → view_at g' id = view_at g id) →
  (∃ n, n ∈ ready ∧ view_at g' (nd_id n) ≠ Some Waiting) →
  (pins_work env → ∀ n, n ∈ ready → view_at g' (nd_id n) ≠ Some Active) → went_on g g'.
Proof.
  intros Hne Hst Hv (n & Hn & Hw) Ha.
  assert (Hcase : ∀ id, view_at g' id = view_at g id ∨ ∃ n, n ∈ ready ∧ id = nd_id n).
  { intros id. destruct (decide (id ∈ map nd_id ready)) as [(m & -> & Hm)%list_elem_of_fmap|Hid]; [|by left; apply Hv].
    right. by exists m. }
  split; [|split].
  - intros id Hw'. destruct (Hcase id) as [<-|(m & Hm & ->)]; [done|]. by apply (Hst m Hm).
  - exists (nd_id n). destruct (Hst n Hn) as [(_ & ? & _) ?]. done.
  - intros Hp Hq id Hact. destruct (Hcase id) as [E|(m & Hm & ->)]; [apply (Hq id); congruence | by eapply Ha].
Qed.
Lemma run_wave_spec ready first g : NoDup (map nd_id ready) → ready ≠ [] →
  (∀ n, n ∈ ready → startable n g ∧ nd_id n ∈ order) →
  leads g (run_wave env cx ready first g).1 ∧ ∀ f, (run_wave env cx ready first g).2 = Ok f →
    round_result g (run_wave env cx ready first g).1 f.
Proof.
  intros Hnd Hne Hst. unfold run_wave. rewrite bind_run. cbn [sync_live_outcomes put]. set (g1 := g <| eg_vars := _ |>).
  assert (L1 : leads g g1) by apply (still_leads cx sync_live_outcomes g (still_sync cx _)).
  rewrite bind_run, try_run.
  destruct (wave_spec env cx modest ready g1 Hnd Hne) as (L2 & V2 & R2); [intros n Hn; apply (Hst n Hn)|].
  change (eg_refused g1) with (eg_refused g) in R2.
  destruct (execute_parallel_wave env cx ready g1) as [g2 r]. cbn [fst snd] in *.
  assert (Hgo : ∀ P : Prop, (∃ n, n ∈ ready ∧ view_at g2 (nd_id n) ≠ Some Waiting) →
    (pins_work env → ∀ n, n ∈ ready → view_at g2 (nd_id n) ≠ Some Active) → P ∨ went_on g g2).
  { intros P H1 H2. right. by apply (wave_went_on ready). }
  assert (Hprog : ∀ P : Prop, wave_progress ready g2 → P ∨ went_on g g2).
  { intros P [(n & Hn & [c Hc]) Ha]. apply Hgo; [|by intros _]. exists n. split; [done | congruence]. }
  destruct r as [[]|e].
  { split; [by etrans|]. intros f [= <-]. destruct R2 as [?|Hp]; [by left | by apply Hprog]. }
  rewrite bind_run. cbn [the_engine].
  destruct (negb _ || propagates e) eqn:Eu; [split; [by etrans | done]|].
  apply orb_false_iff in Eu as [Eu Ep]. apply negb_false_iff, bool_decide_eq_true in Eu.
  destruct (is_budget_exhaustion e || is_elapsed_exhaustion e) eqn:Ex.
  - split; [by etrans|]. intros f [= <-]. destruct R2 as [?|[?|[[_ ?]|[?|[[? _]|[_ (n & _ & ?)]]]]]];
      [by left | congruence | right | done | right; by intros Hp | right].
    + intros _. by left.
    + intros _. right. by eexists.
  - split; [by etrans|]. intros f [= <-]. apply orb_false_iff in Ex as [_ Ex].
    destruct R2 as [?|[?|[[? _]|[?|[[Hp (n & Hn & Ha)]|[Hp _]]]]]]; [by left | congruence | congruence | done | |].
    + apply Hgo; [|by intros]. exists n. split; [done | congruence].
    + by apply Hprog.
Qed.

(** ** A round *)

Lemma leads_bind {A B} (m : EM A) (k : A → EM B) g : leads g (m g).1 →
  (∀ x g1, m g = (g1, Ok x) → leads g1 (k x g1).1) → leads g ((m ≫= k) g).1.
Proof.
  intros Hm Hk. rewrite bind_run. destruct (m g) as [g1 [x|e]]; cbn in *; [|done]. etrans; [done | by apply Hk].
Qed.
Lemma episode_leads ep g : leads g (g <| eg_episode := ep |>).
Proof.
  split; [done|]. right. split; try done. exists []. rewrite app_nil_r. split; [done | constructor].
Qed.
Lemma close_leads g : leads g (close_episode env cx g).1.
Proof.
  unfold close_episode. rewrite bind_run. cbn [the_engine]. destruct (eg_episode g) as [ep|]; [|reflexivity].
  destruct (ep_closed ep); [reflexivity|]. apply leads_bind; [apply still_leads, still_ask|]. intros n g1 _.
  apply leads_bind; [apply still_leads, still_result|]. intros total g2 _.
  apply leads_bind; [apply still_leads; unfold record_elapsed; stills|]. intros _ g3 _. apply episode_leads.
Qed.
Lemma yield_leads g :
  leads g ((_ ← run_checkpoint env cx; _ ← close_episode env cx;
            _ ← event env cx ByLoop (s"run_yielded") (obj []); raise (A:=flow) EYielded) g).1.
Proof.
  apply leads_bind; [apply still_leads, still_checkpoint|]. intros _ g1 _.
  apply leads_bind; [apply close_leads|]. intros _ g2 _.
  apply leads_bind; [apply still_leads; stills|]. intros _ g3 _. reflexivity.
Qed.
Lemma graph_order_NoDup : NoDup order.
Proof. destruct Horder as [Hp _]. rewrite Hp. by apply bm_keys_NoDup. Qed.
Lemma takes_wave_some ready : takes_wave cx ready = true → ready ≠ [].
Proof. intros Ht ->. by unfold takes_wave in Ht. Qed.

(** A round after its scan. *)
Lemma scanned_result g0 ready progressed g first : scanned cx g0 order ready progressed g →
  eg_refused g0 ≤ eg_refused g →
  let m := if takes_wave cx ready then run_wave env cx ready first
           else match ready with
                | node :: _ => run_single env cx node first
                | [] => mret (Checked progressed first)
                end in
  leads g (m g).1 ∧ ∀ f, (m g).2 = Ok f → round_result g0 (m g).1 f.
Proof.
  intros [Hw Hr Hd Ha Hm Hs] Href m. rewrite Forall_forall in Hr.
  assert (Hfrom : ∀ g' f, ready ≠ [] → round_result g g' f →
    checks_out f = true → round_result g0 g' f).
  { intros g' f Hne [?|Hg] Hf; [left; lia|]. right.
    assert (Hgo : went_on g g' → went_on g0 g').
    { intros (H1 & (id & ? & ? & ?) & H3). split; [eauto|]. split; [exists id; eauto|].
      intros Hp Hq. apply H3; [done|]. intros x Hx. apply (Hq x). auto. }
    destruct f as [[]|?|?]; first [done | by auto]. }
  unfold m. destruct (takes_wave cx ready) eqn:Et.
  - apply takes_wave_some in Et. destruct (run_wave_spec ready first g Hd Et Hr) as [L R]. split; [done|].
    intros f Hf. apply Hfrom; [done | by apply R | by eapply wave_flow].
  - destruct ready as [|node rest].
    + split; [reflexivity|]. intros f [= <-]. right. destruct progressed.
      * split; [done|]. split; [done|]. intros _ Hq id Hx. apply (Hq id). auto.
      * split; [done|]. intros id n Hid. by apply Hs.
    + destruct (Hr node ltac:(left)) as [Hst Hin].
      destruct (run_single_spec env cx modest plain Hkeyed node first g Hst) as [L H]. split; [done|].
      intros f Hf. apply Hfrom; [done | by apply single_result | by eapply single_flow].
Qed.
Lemma round_spec first g : leads g (round env cx first g).1 ∧
  ∀ f, (round env cx first g).2 = Ok f → round_result g (round env cx first g).1 f.
Proof.
  unfold round. rewrite bind_run. cbn [ask]. set (g1 := g <| eg_tick := _ |>).
  assert (L1 : leads g g1) by apply (still_leads cx ask g (still_ask cx _)).
  destruct (ev_cancelled env (eg_tick g)); [by split|]. rewrite bind_run. cbn [ask]. set (g2 := g1 <| eg_tick := _ |>).
  assert (L2 : leads g1 g2) by apply (still_leads cx ask g1 (still_ask cx _)).
  destruct (ev_yield env (eg_tick g1)).
  { split; [etrans; [done|]; etrans; [done | apply yield_leads]|]. intros f. rewrite bind_run.
    destruct (run_checkpoint _ _ _) as [? [[]|]]; [|done]. rewrite bind_run.
    destruct (close_episode _ _ _) as [? [[]|]]; [|done]. rewrite bind_run.
    by destruct (event _ _ _ _ _ _) as [? [[]|]]. }
  rewrite bind_run.
  destruct (scan_spec env cx replay_sorted Hkeyed g2 order [] [] false g2 graph_order_NoDup (scan_start cx g2)) as [L3 H3].
  destruct (scan env cx order [] false g2) as [g3 [[ready progressed]|e]]; cbn [fst snd] in *;
    [|split; [by repeat (etrans; [eassumption|]) | done]].
  pose proof (leads_refused _ _ _ L3) as R3.
  destruct (scanned_result g2 ready progressed g3 first (H3 _ _ eq_refl) R3) as [L4 H4].
  split; [by repeat (etrans; [eassumption|]) | exact H4].
Qed.

(** ** The loop *)

Hypothesis targets_known : ∀ id, target cx id → id ∈ ids cx.

Definition waiting_count (g : engine) : nat :=
  length (filter (λ id, view_at g id = Some Waiting) order).
Lemma filter_shrinks {A} (P Q : A → Prop) `{!∀ x, Decision (P x), !∀ x, Decision (Q x)} (l : list A) :
  (∀ x, Q x → P x) → (∃ x, x ∈ l ∧ P x ∧ ¬ Q x) → length (filter Q l) < length (filter P l).
Proof.
  intros HQ (x & Hx & Hp & Hn).
  assert (Hle : ∀ l : list A, length (filter Q l) ≤ length (filter P l)).
  { clear -HQ. induction l as [|y l IH]; [done|]. rewrite !filter_cons. repeat case_decide; cbn; try lia. naive_solver. }
  induction l as [|y l IH]; [by apply not_elem_of_nil in Hx|]. rewrite !filter_cons.
  apply elem_of_cons in Hx as [<-|Hx].
  - rewrite (decide_False (P:=Q x)), (decide_True (P:=P x)) by done. cbn. specialize (Hle l). lia.
  - specialize (IH Hx). repeat case_decide; cbn; try lia. naive_solver.
Qed.
Lemma went_on_count g g' : went_on g g' → waiting_count g' < waiting_count g.
Proof. intros (H1 & (id & ? & ? & ?) & _). apply filter_shrinks; [done | by exists id]. Qed.

(** The loop has a state for every node and no other. *)
Record in_graph (g : engine) : Prop := {
  ig_sorted : bm_sorted (eg_states g);
  ig_dom : ∀ id, is_Some (bm_get id (eg_states g)) ↔ id ∈ ids cx;
}.
Lemma view_Some g id : is_Some (view_at g id) ↔ is_Some (bm_get id (eg_states g)).
Proof. unfold view_at, view_of. by rewrite fmap_is_Some. Qed.
Lemma in_graph_leads g g' : kept g g' → advanced cx g g' → in_graph g → in_graph g'.
Proof.
  intros Hk Ha [Hs Hd]. split; [by apply Hk|]. intros id. split; [|intros Hid; by apply Hk, Hd].
  rewrite <-view_Some. intros Hv. destruct (ad_moves _ _ _ Ha) as (ms & _ & Hm).
  destruct (moves_dom _ _ _ _ _ _ id Hm Hv) as [Hv'|]; [|by apply targets_known].
  by apply Hd, view_Some.
Qed.
Definition closed (g : engine) : Prop := ∀ id, id ∈ ids cx → has_ended (view_at g id).
Lemma all_closed g : in_graph g → forallb (λ st, negb (is_open_state st)) (bm_values (eg_states g)) = true → closed g.
Proof.
  intros [Hs Hd] Hf id [st Hst]%Hd. rewrite forallb_elem in Hf.
  assert (Hn : negb (is_open_state st) = true).
  { apply Hf. apply list_elem_of_fmap. exists (id, st). split; [done | by apply bm_get_elem]. }
  unfold view_at, view_of. rewrite Hst. destruct st; try done; cbn; by eexists.
Qed.
(** A round that found nothing to do has left nothing open. *)
Lemma nothing_open g : in_graph g → quiet g →
  (∀ id n, id ∈ order → bm_get id (eg_states g) = Some Pending → bm_get id nodes = Some n →
     undecided n (eg_states g)) →
  forallb (λ st, negb (is_open_state st)) (bm_values (eg_states g)) = true.
Proof.
  intros Hig Hq Hu. apply forallb_elem. intros st ([id st'] & -> & Hin)%list_elem_of_fmap. cbn.
  apply bm_elem_get in Hin; [|apply Hig]. destruct (is_open_state st') eqn:Eo; [|done]. exfalso.
  assert (Hid : id ∈ ids cx) by (apply Hig; by eexists).
  destruct (topological_progress nodes order (eg_states g) Horder) as (x & n & Hn & Hx & Hdec).
  { exists id. split; [done|]. rewrite Hin. by destruct st'. }
  assert (Hxid : x ∈ ids cx) by (apply bm_get_is_Some; by eexists).
  pose proof Hxid as [sx Hsx]%(ig_dom _ Hig). rewrite Hsx in Hx.
  assert (sx = Pending) as ->.
  { destruct sx; try done. exfalso. apply (Hq x). unfold view_at, view_of. by rewrite Hsx. }
  destruct (Hu x n) as [H1 H2]; [by rewrite (proj1 Horder) | done | done|].
  rewrite H1, H2 in Hdec. by destruct Hdec as [|[]].
Qed.

(** What a call of the loop does: a record is refused, or the engine moves to
    [g1] and returns there, stalling only when it could not pin files. *)
Definition loop_result (g : engine) (r : result EngineError (option EngineError)) (g' : engine) : Prop :=
  eg_refused g < eg_refused g' ∨
  ∃ g1, kept g g1 ∧ advanced cx g g1 ∧
    (g' = g1 ∧ (∀ first, r = Ok first → cut_short g1 ∨ closed g1) ∨
     g' = g1 <| eg_anomaly := Some Stalled |> ∧ ¬ is_ok r ∧ ¬ (pins_work env ∧ quiet g)).
Lemma loop_result_after g g1 r g' : kept g g1 → advanced cx g g1 → (pins_work env → quiet g → quiet g1) →
  loop_result g1 r g' → loop_result g r g'.
Proof.
  intros Hk Ha Hq [?|(g2 & Hk2 & Ha2 & Hr)]; [left; rewrite <-(ad_refused _ _ _ Ha); done|].
  assert (L : leads g g2) by (etrans; [split; [exact Hk | by right] | split; [exact Hk2 | by right]]).
  destruct L as [Hk' [Hlt|Ha']].
  { exfalso. rewrite (ad_refused _ _ _ Ha2), (ad_refused _ _ _ Ha) in Hlt. lia. }
  right. exists g2. split; [done|]. split; [done|].
  destruct Hr as [Hr|(? & ? & Hn)]; [by left | right]. split_and!; try done. intros [Hp Hqg]. apply Hn. split; auto.
Qed.
Definition after_round (fuel : nat) (f : flow) : EM (option EngineError) :=
  match f with
  | Again first => loop env cx fuel first
  | Leave first => mret first
  | Checked progressed first =>
      g ← the_engine;
      if forallb (λ st, negb (is_open_state st)) (bm_values (eg_states g)) then mret first
      else if progressed then loop env cx fuel first
      else raise_anomaly Stalled (EStep (SFailed (s"scheduler") (s"no runnable node remains")))
  end.
Lemma loop_S fuel first g : loop env cx (S fuel) first g =
  match round env cx first g with
  | (g1, Ok f) => after_round fuel f g1
  | (g1, Err e) => (g1, Err e)
  end.
Proof. cbn [loop]. rewrite bind_run. destruct (round env cx first g) as [g1 [f|e]]; done. Qed.
Lemma loop_refused fuel : ∀ first g, eg_refused g ≤ eg_refused (loop env cx fuel first g).1.
Proof.
  induction fuel as [|fuel IH]; intros first g; [done|]. rewrite loop_S.
  destruct (round_spec first g) as [L%leads_refused _].
  destruct (round env cx first g) as [g1 [f|e]]; cbn [fst] in *; [|done]. etrans; [exact L|].
  destruct f as [progressed first'|first'|first']; cbn [after_round]; [|apply IH | done].
  rewrite bind_run. cbn [the_engine]. destruct (forallb _ _); [done|]. destruct progressed; [apply IH | done].
Qed.
Lemma loop_spec fuel : ∀ first g, waiting_count g < fuel → in_graph g →
  loop_result g (loop env cx fuel first g).2 (loop env cx fuel first g).1.
Proof.
  induction fuel as [|fuel IH]; intros first g Hf Hig; [lia|].
  pose proof (loop_S fuel first g) as E. destruct (round_spec first g) as [[Hk L] R].
  assert (Hdone : ∀ g1 r, kept g g1 → advanced cx g g1 → (∀ first, r = Ok first → cut_short g1 ∨ closed g1) → loop_result g r g1).
  { intros g1 r Hk1 Ha1 Hr. right. exists g1. split; [done|]. split; [done|]. by left. }
  destruct (round env cx first g) as [g1 [f|e]]; cbn [fst snd] in *.
  2:{ rewrite E. destruct L as [?|Ha]; [by left | by apply Hdone]. }
  destruct L as [Hlt|Ha].
  { left. rewrite E. destruct f as [progressed first'|first'|first']; cbn [after_round]; [| |done].
    - rewrite bind_run. cbn [the_engine]. destruct (forallb _ _); [done|]. destruct progressed; [|done].
      pose proof (loop_refused fuel first' g1). lia.
    - pose proof (loop_refused fuel first' g1). lia. }
  destruct (R f eq_refl) as [Hlt|Hf']; [rewrite (ad_refused _ _ _ Ha) in Hlt; lia|].
  pose proof (in_graph_leads g g1 Hk Ha Hig) as Hig1. rewrite E.
  assert (Hnext : went_on g g1 → ∀ first', loop_result g (loop env cx fuel first' g1).2 (loop env cx fuel first' g1).1).
  { intros Hw first'. eapply loop_result_after; [exact Hk | exact Ha | apply Hw|].
    apply IH; [|done]. pose proof (went_on_count g g1 Hw). lia. }
  destruct f as [progressed first'|first'|first']; cbn [after_round]; [|by apply Hnext|].
  2:{ apply Hdone; [done | done|]. by left. }
  rewrite bind_run. cbn [the_engine]. destruct (forallb _ _) eqn:Eo.
  { apply Hdone; [done | done|]. right. by apply all_closed. }
  destruct progressed; [by apply Hnext|]. right. exists g1. split; [done|]. split; [done|]. right.
  split; [done|]. split; [by intros []|]. intros [Hp Hq]. destruct Hf' as [Es Hu].
  rewrite <-Es in Hu. rewrite nothing_open in Eo; [done | done | | done].
  intros id. unfold view_at. rewrite Es. apply Hq.
Qed.
End loop_spec.

(** * From the journal to the loop and back

    What [run_inner] does around its loop: nothing of it concerns the nodes,
    and a run ends with at most one closing mark. *)

Section entry.
Context {W : WireTypes} {Sha : Sha256} {Msg : Messages} {Frm : Forms} {Cm : CaseMapping}.
Variables (env : Environment) (cx : RunContext).
Notation nodes := (g_nodes (cx_graph cx)).
Hypotheses (modest : modest_bodies env cx) (plain : plain_ids cx).

(** Outside the loop. *)
Record outside (g g' : engine) : Prop := {
  ou_trace : trace g' = trace g;
  ou_refused : eg_refused g ≤ eg_refused g';
  ou_tick : eg_tick g ≤ eg_tick g';
  ou_nodes : ∀ id, id ∈ ids cx → node_of (eg_state g') id = node_of (eg_state g) id;
  ou_anomaly : eg_anomaly g' = eg_anomaly g;
}.
#[global] Instance outside_preorder : PreOrder outside.
Proof.
  split; [by intros g|]. intros g1 g2 g3 [T1 R1 K1 N1 A1] [T2 R2 K2 N2 A2].
  split; [congruence | lia | lia | | congruence]. intros id Hid. by rewrite N2, N1.
Qed.
Lemma calm_outside T g g' : calm cx T g g' → outside g g'.
Proof. intros Hc. split; apply Hc. Qed.
Definition stays_outside {A} (m : EM A) : Prop := ∀ g, outside g (m g).1.
Lemma outside_still {A} (m : EM A) : still cx no_id m → stays_outside m.
Proof. intros Hm g. eapply calm_outside, Hm. Qed.
Lemma outside_bind {A B} (m : EM A) (k : A → EM B) :
  stays_outside m → (∀ x, stays_outside (k x)) → stays_outside (m ≫= k).
Proof.
  intros Hm Hk g. rewrite bind_run. specialize (Hm g). destruct (m g) as [g1 [x|e]]; [|done].
  etrans; [exact Hm | apply Hk].
Qed.
(** Leaves the states of the nodes alone as well. *)
Definition same_states {A} (m : EM A) : Prop := ∀ g, eg_states (m g).1 = eg_states g.
Lemma same_states_bind {A B} (m : EM A) (k : A → EM B) :
  same_states m → (∀ x, same_states (k x)) → same_states (m ≫= k).
Proof.
  intros Hm Hk g. rewrite bind_run. specialize (Hm g). destruct (m g) as [g1 [x|e]]; [|done].
  cbn in Hm. by rewrite Hk.
Qed.
Lemma same_states_event by_ kind payload : same_states (event env cx by_ kind payload).
Proof. intros g. unfold event. cbn zeta. destruct (ev_storage _ _); [done|]. by destruct (accept _ _ _ _ _ _). Qed.

Lemma outside_episode ep : stays_outside (put (λ g, g <| eg_episode := ep g |>)).
Proof. intros g. by split. Qed.
Lemma outside_record total anchor : stays_outside (record_elapsed env cx total anchor).
Proof. apply outside_still. unfold record_elapsed. stills. Qed.
Lemma outside_close : stays_outside (close_episode env cx).
Proof.
  intros g. unfold close_episode. rewrite bind_run. cbn [the_engine]. destruct (eg_episode g) as [ep|]; [|reflexivity].
  destruct (ep_closed ep); [reflexivity|]. revert g. apply outside_bind; [apply outside_still, still_ask|]. intros n.
  apply outside_bind; [apply outside_still, still_result|]. intros total.
  apply outside_bind; [apply outside_record|]. intros _. apply (outside_episode (λ _, _)).
Qed.
Lemma close_states : same_states (close_episode env cx).
Proof.
  intros g. unfold close_episode. rewrite bind_run. cbn [the_engine]. destruct (eg_episode g) as [ep|]; [|done].
  destruct (ep_closed ep); [done|]. revert g. apply same_states_bind; [done|]. intros n.
  apply same_states_bind; [done|]. intros total. apply same_states_bind; [apply same_states_event | done].
Qed.
Lemma outside_elapsed : stays_outside (open_elapsed env cx).
Proof.
  unfold open_elapsed. case_match; [|apply outside_still; stills].
  apply outside_bind.
  - apply outside_still. unfold recover, record_elapsed. stills.
  - intros total. apply outside_bind; [apply outside_still; stills|]. intros _.
    apply outside_bind; [|intros _; apply outside_still, still_ret]. unfold open_episode.
    apply outside_bind; [apply outside_still, still_ask|]. intros n.
    apply outside_bind; [apply outside_record|]. intros _. apply (outside_episode (λ _, _)).
Qed.
Lemma still_run_started T inputs resources more : still cx T (run_started env cx inputs resources more).
Proof. unfold run_started. stills. Qed.
Lemma still_begin T inputs resources : still cx T (begin_records env cx inputs resources).
Proof.
  unfold begin_records. stills; [by apply still_run_started|]. apply still_each. intros resource _. stills.
Qed.
Lemma still_authorize T : still cx T (authorize_unresolved env cx).
Proof.
  unfold authorize_unresolved. cbn zeta. destruct (List.find _ _) as [[owner fact]|]; [apply still_raise|].
  apply still_each. intros [owner fact] _. unfold authorize. stills.
Qed.

(** ** To the loop *)

(** A run that ended before its loop, or a state its loop starts from. *)
Inductive entered (fuel : nat) (g : engine) : engine * result EngineError (list value) → Prop :=
| entered_not g' e : outside g g' → entered fuel g (g', Err e)
| entered_loop g0 : outside g g0 → bm_sorted (eg_states g0) →
    (∀ id, bm_get id (eg_states g0) = bm_get id (initial_states cx)) →
    entered fuel g ((loop env cx fuel None ≫= settle_run env cx) g0).
Lemma entered_after fuel g g1 x : outside g g1 → entered fuel g1 x → entered fuel g x.
Proof. intros Ho [g' e H1|g0 H1 H2 H3]; [left | right]; try done; by etrans. Qed.
Lemma entered_bind {A} fuel (m : EM A) k g : stays_outside m → (∀ x g1, entered fuel g1 (k x g1)) →
  entered fuel g ((m ≫= k) g).
Proof.
  intros Hm Hk. rewrite bind_run. specialize (Hm g). destruct (m g) as [g1 [x|e]]; [|by left].
  eapply entered_after; [exact Hm | apply Hk].
Qed.
Hypothesis initial_sorted : bm_sorted (initial_states cx).
Lemma run_block_entered deadline fuel g : entered fuel g (run_block env cx deadline fuel g).
Proof.
  unfold run_block. apply entered_bind; [apply outside_still, still_result|]. intros _ g1.
  apply entered_bind; [apply outside_still, still_result|]. intros inputs g2.
  apply entered_bind; [apply outside_still, still_ask|]. intros n g3.
  apply entered_bind; [apply outside_still, still_result|]. intros resources g4.
  apply entered_bind; [apply outside_still, still_begin|]. intros _ g5.
  apply entered_bind; [apply outside_still, still_ask|]. intros n' g6.
  apply entered_bind; [apply outside_still, still_result|]. intros materialized g7.
  destruct (omap (saved_question cx) _) as [|e l]; [|by left].
  apply entered_bind; [apply outside_still; stills|]. intros _ g8. rewrite bind_run. cbn [put].
  set (g9 := g8 <| eg_vars := _ |> <| eg_executed := _ |> <| eg_states := _ |>).
  apply (entered_after fuel g8 g9); [by split|]. rewrite bind_run.
  pose proof (still_authorize no_id g9) as C1. destruct (authorize_unresolved _ _ g9) as [g10 [[]|e]].
  2:{ left. by eapply calm_outside. }
  rewrite bind_run. pose proof (still_run_hooks env cx modest plain no_id (s"run_started") g10) as C2.
  pose proof (transitivity C1 C2) as C. destruct (run_hooks _ _ _ g10) as [g11 [[]|e]]; cbn [fst] in C.
  2:{ left. by eapply calm_outside. }
  right; [by eapply calm_outside | by apply C|]. intros id. apply C. by intros [].
Qed.

(** ** From the loop *)

Definition ended_with (g g' : engine) (ms : list mark) : Prop :=
  trace g' = trace g ++ ms ∧ eg_refused g ≤ eg_refused g' ∧ eg_anomaly g' = eg_anomaly g ∧
  (∀ id, view_at g' id = view_at g id) ∧
  ∀ id, id ∈ ids cx → node_of (eg_state g') id = node_of (eg_state g) id.
Lemma outside_ended g g' : outside g g' → (∀ id, view_at g' id = view_at g id) → ended_with g g' [].
Proof. intros [T R K N A] Hv. split_and!; try done. by rewrite app_nil_r. Qed.
Lemma ended_outside g g1 g2 ms : outside g g1 → (∀ id, view_at g1 id = view_at g id) →
  ended_with g1 g2 ms → ended_with g g2 ms.
Proof.
  intros [T R K N A] Hv (T2 & R2 & A2 & V2 & N2). split_and!; [congruence | lia | congruence | |].
  - intros id. by rewrite V2.
  - intros id Hid. by rewrite N2, N.
Qed.
Lemma ended_then g g1 g2 ms : ended_with g g1 ms → outside g1 g2 → (∀ id, view_at g2 id = view_at g1 id) →
  ended_with g g2 ms.
Proof.
  intros (T1 & R1 & A1 & V1 & N1) [T R K N A] Hv. split_and!; [congruence | lia | congruence | |].
  - intros id. by rewrite Hv.
  - intros id Hid. by rewrite N, N1.
Qed.
Lemma still_same {A} (m : EM A) g : still cx no_id m → outside g (m g).1 ∧ ∀ id, view_at (m g).1 id = view_at g id.
Proof. intros Hm. split; [by apply outside_still | intros id; by eapply still_view]. Qed.
Lemma close_same g : outside g (close_episode env cx g).1 ∧ ∀ id, view_at (close_episode env cx g).1 id = view_at g id.
Proof. split; [apply outside_close|]. intros id. unfold view_at. by rewrite close_states. Qed.
Lemma finished_event status more g : let payload := obj ((s"status", VString status) :: more) in
  get_str (s"status") payload = Some status →
  match event env cx ByLoop (s"run_finished") payload g with
  | (g', Ok _) => ended_with g g' [MEnd (status =s s"success")]
  | (g', Err _) => ended_with g g' []
  end.
Proof.
  intros payload Hs. unfold event. cbn zeta.
  destruct (ev_storage _ _); [split_and!; cbn; try done; [by rewrite app_nil_r | lia]|].
  destruct (accept _ _ _ _ _ _) as [st|] eqn:Ea; [|split_and!; cbn; try done; [by rewrite app_nil_r | lia]].
  split_and!; cbn; try done.
  - unfold trace. cbn. rewrite trace_snoc. unfold mark_of. cbn [en_by en_kind en_payload]. by rewrite Hs.
  - intros id Hid. by eapply (accept_other cx).
Qed.

(** ** Settling the run *)

(** The result of the settlement of a run from [g]. *)
Definition in_time (g : engine) : Prop :=
  ¬ (cx_deadline cx = true ∧ is_Some (cx_elapsed_limit cx) ∧ ev_expired env (eg_tick g) = true).
Definition settlement (g g' : engine) (r : result EngineError (list value)) : Prop :=
  match r with
  | Ok _ => ended_with g g' [MEnd true]
  | Err _ => ended_with g g' [] ∨ ended_with g g' [MEnd false]
  end.
Lemma settlement_bind {A} (m : EM A) (k : A → EM (list value)) g :
  (∀ g, outside g (m g).1 ∧ ∀ id, view_at (m g).1 id = view_at g id) →
  (∀ x g1, settlement g1 (k x g1).1 (k x g1).2) → settlement g ((m ≫= k) g).1 ((m ≫= k) g).2.
Proof.
  intros Hm Hk. rewrite bind_run. destruct (Hm g) as [Ho Hv].
  destruct (m g) as [g1 [x|e]]; cbn [fst snd] in *; [|left; by apply outside_ended].
  specialize (Hk x g1). unfold settlement in *. destruct (k x g1) as [g2 [a|e]]; cbn [fst snd] in *.
  - by eapply ended_outside.
  - destruct Hk as [?|?]; [left | right]; by eapply ended_outside.
Qed.
Lemma settle_failed_spec failed first g :
  settlement g (settle_failed (A:=list value) env cx failed first g).1
    (settle_failed (A:=list value) env cx failed first g).2.
Proof.
  unfold settle_failed.
  apply settlement_bind; [intros; apply still_same, still_with_vars|]. intros _ g1.
  apply settlement_bind; [intros; by apply still_same, still_try, still_run_hooks|]. intros r1 g2.
  apply settlement_bind; [intros; by apply still_same, still_try, still_run_hooks|]. intros r2 g3. cbn zeta.
  apply settlement_bind; [apply close_same|]. intros _ g4. rewrite bind_run.
  match goal with |- context [event _ _ _ _ (obj (_ :: ?more))] =>
    pose proof (finished_event (s"failed") more g4 eq_refl) as Hf end.
  destruct (event _ _ _ _ _ g4) as [g5 [[]|e]]; [by right | by left].
Qed.
Lemma settle_succeeded_spec g :
  settlement g (settle_succeeded env cx g).1 (settle_succeeded env cx g).2.
Proof.
  unfold settle_succeeded.
  apply settlement_bind; [intros; apply still_same, still_checkpoint|]. intros _ g1.
  apply settlement_bind; [intros; by apply still_same, still_run_hooks|]. intros _ g2.
  apply settlement_bind; [intros; apply still_same, still_sync|]. intros _ g3.
  apply settlement_bind; [intros; apply still_same, still_ask|]. intros n g4.
  apply settlement_bind; [intros; apply still_same, still_engine|]. intros g' g5.
  apply settlement_bind; [intros; apply still_same, still_result|]. intros artifacts g6.
  apply settlement_bind; [intros; apply still_same, still_each; intros x _; stills|]. intros _ g7.
  apply settlement_bind; [apply close_same|]. intros _ g8. rewrite bind_run.
  pose proof (finished_event (s"success") [] g8 eq_refl) as Hf.
  destruct (event _ _ _ _ _ g8) as [g9 [[]|e]]; [done | by left].
Qed.
Lemma settle_run_spec first g :
  settlement g (settle_run env cx first g).1 (settle_run env cx first g).2 ∧
  (is_ok (settle_run env cx first g).2 = true → failed_nodes (eg_states g) = [] ∧ in_time g).
Proof.
  unfold settle_run. rewrite bind_run. cbn [the_engine]. destruct (failed_nodes (eg_states g)) as [|f failed].
  - split; [apply settle_succeeded_spec|]. intros Hok. split; [done|]. intros (Hd & [limit Hl] & He).
    unfold settle_succeeded in Hok. rewrite bind_run in Hok. unfold run_checkpoint in Hok. rewrite bind_run in Hok.
    cbn [ask] in Hok. destruct (ev_cancelled env (eg_tick g)); [done|]. rewrite Hl, Hd, He in Hok. done.
  - split.
    + apply settlement_bind; [intros; apply still_same, still_try, still_checkpoint|]. intros r g1.
      apply settle_failed_spec.
    + rewrite bind_run, try_run. cbn [fst snd]. unfold settle_failed.
      intros Hok. exfalso. revert Hok. rewrite bind_run. cbn [with_vars put]. rewrite bind_run, try_run, bind_run, try_run.
      cbn [fst snd]. rewrite bind_run. destruct (close_episode _ _ _) as [? [[]|]]; [|done]. rewrite bind_run.
      by destruct (event _ _ _ _ _ _) as [? [[]|]].
Qed.
End entry.
