(* ===== verification/EngineSpec.v ===== *)
(** * What a run guarantees

    The theorems about [run_inner] of [engine/src/engine/run.rs]: it refines
    the scheduler of [EngineMoves], it terminates and does not stall, a node
    starts after its needs and once, and a successful run settled every node. *)

From S2P Require Import Prelude Str BMap Json Serde Events ValueBag ExprEval ExprParser RunState RunStateEffect AuditRules TraceIds JournalFile JournalWriter Graph GraphTopo GraphBuild EngineTypes EngineWorld EngineExecute EngineRepair EngineRun EngineInner EngineFold EngineCalm EngineMoves EngineRound EngineWaveSpec EngineLoop.

#[local] Arguments s : simpl never.

Section spec.
Context {W : WireTypes} {Sha : Sha256} {Msg : Messages} {Frm : Forms} {Cm : CaseMapping}.
Variables (env : Environment) (cx : RunContext).
Notation nodes := (g_nodes (cx_graph cx)).
Notation run_moves := (moves nodes (target cx) (replays cx)).

(** A run of a built graph whose journal is in the state it was entered with.
    Bodies record nothing about graph nodes, and node ids are not those of
    repairs and hooks. *)
Record run_of (m : Manifest) (fuel : nat) (g : engine) : Prop := {
  ro_graph : build m = Ok (cx_graph cx);
  ro_bodies : modest_bodies env cx;
  ro_ids : plain_ids cx;
  ro_replay : bm_sorted (rs_nodes (cx_replay cx));
  ro_state : eg_state g = cx_replay cx;
  ro_fuel : length (g_order (cx_graph cx)) < fuel;
}.

(** ** The graph and the initial states *)

Section built.
Variable m : Manifest.
Hypothesis built : build m = Ok (cx_graph cx).
Lemma built_facts : keyed cx ∧ topological nodes (g_order (cx_graph cx)) ∧ bm_sorted nodes ∧
  ∀ id, target cx id → id ∈ ids cx.
Proof.
  destruct (build_steps m _ built) as (flow & _ & Hv & Ht & Hwf & Hs). split_and!.
  - intros k n Hk%(to_get _ _ Ht). apply Hk.
  - by apply topo_sort_topological.
  - apply Ht.
  - intros id Hid. unfold target in Hid. apply existsb_exists in Hid as (n & Hn & Hr).
    apply list_elem_of_In in Hn. apply (table_values _ _ _ Ht) in Hn.
    destruct (vf_nodes _ _ Hv n Hn) as (_ & Hok & _). apply (table_keys _ _ id Ht). apply Hok.
    unfold repairs_with in Hr. unfold on_fail_targets. destruct (nd_on_fail n) as [[]|]; try done.
    apply orb_true_iff in Hr as [->%str_eqb_eq| ->%str_eqb_eq]; set_solver.
Qed.
End built.

Lemma reenter_get states fact id :
  bm_get id (reenter cx states fact) = bm_get id states ∨
  is_Some (bm_get id states) ∧ bm_get id (reenter cx states fact) = Some Pending.
Proof.
  unfold reenter. case_if; [|by left]. destruct (as_str _) as [parent|]; [|by left].
  induction states as [|[k st] states IH]; [by left|]. cbn. destruct (str_eqb id k); [|done].
  case_if; [right | by left]. split; [by eexists | done].
Qed.
Lemma reenter_keys states fact : bm_keys (reenter cx states fact) = bm_keys states.
Proof.
  unfold reenter. case_if; [|done]. destruct (as_str _); [|done]. unfold bm_keys. rewrite map_map.
  apply map_ext. by intros [].
Qed.
Lemma replayed_get st id :
  bm_get id (replayed_states cx st) = if bm_get id nodes then Some (replayed_state (node_of st id)) else None.
Proof.
  unfold replayed_states, node_of. induction nodes as [|[k n] l IH]; [done|]. cbn.
  destruct (str_eqb_spec id k) as [->|]; done.
Qed.
Lemma initial_get id : id ∈ ids cx →
  bm_get id (initial_states cx) = Some Pending ∨
  bm_get id (initial_states cx) = Some (replayed_state (node_of (cx_replay cx) id)).
Proof.
  intros [n Hn]%bm_get_is_Some. unfold initial_states.
  assert (H0 : bm_get id (replayed_states cx (cx_replay cx)) = Some (replayed_state (node_of (cx_replay cx) id)))
    by (rewrite replayed_get; by rewrite Hn).
  revert H0. generalize (replayed_states cx (cx_replay cx)). intros states H0.
  assert (Hc : bm_get id states = Some Pending ∨
    bm_get id states = Some (replayed_state (node_of (cx_replay cx) id))) by by right.
  clear H0. revert states Hc. induction (bm_values _) as [|fact l IH]; intros states Hc; [done|].
  cbn. apply IH. destruct (reenter_get states fact id) as [->|[_ ->]]; [done | by left].
Qed.
Lemma initial_keys : bm_keys (initial_states cx) = ids cx.
Proof.
  unfold initial_states. assert (H0 : bm_keys (replayed_states cx (cx_replay cx)) = ids cx).
  { unfold replayed_states, ids, bm_keys. rewrite map_map. apply map_ext. by intros []. }
  revert H0. generalize (replayed_states cx (cx_replay cx)).
  induction (bm_values _) as [|fact l IH]; intros states H0; [done|]. cbn. apply IH. by rewrite reenter_keys.
Qed.
Lemma initial_sorted m : build m = Ok (cx_graph cx) → bm_sorted (initial_states cx).
Proof. intros Hb. unfold bm_sorted. rewrite initial_keys. apply (built_facts m Hb). Qed.
(** No node starts as active or as successful. *)
Lemma initial_view id p : view_of (initial_states cx) id = Some p →
  p ≠ Active ∧ p ≠ Ended KSuccess ∧
  ∀ c, p = Ended c → outcome_class <$> node_of (cx_replay cx) id = Some c.
Proof.
  unfold view_of. intros Hv. assert (Hid : id ∈ ids cx).
  { rewrite <-initial_keys. apply bm_get_is_Some. destruct (bm_get id (initial_states cx)); [by eexists | done]. }
  destruct (initial_get id Hid) as [E|E]; rewrite E in Hv; apply (inj Some) in Hv as <-; [by split_and!|].
  destruct (node_of (cx_replay cx) id) as [[]|]; cbn; (split; [done|]; split; [done|]); intros c Hc; by simplify_eq.
Qed.

(** ** The whole run *)

(** A run that ended before its loop, or the loop and the settlement from a
    state with the initial node states. *)
Inductive ran (fuel : nat) (g : engine) : engine * result EngineError (list value) → Prop :=
| ran_not g' e : outside cx g g' → ran fuel g (g', Err e)
| ran_loop g0 g' r : outside cx g g0 → bm_sorted (eg_states g0) →
    (∀ id, bm_get id (eg_states g0) = bm_get id (initial_states cx)) →
    let x := (loop env cx fuel None ≫= settle_run env cx) g0 in
    outside cx x.1 g' → (∀ id, view_at g' id = view_at x.1 id) →
    (∀ artifacts, r = Ok artifacts → x.2 = Ok artifacts) → ran fuel g (g', r).
Lemma ran_after fuel g g1 x : outside cx g g1 → ran fuel g1 x → ran fuel g x.
Proof.
  intros Ho [g' e H1|g0 g' r H1 H2 H3 x' H4 H5 H6]; [left; by etrans|].
  apply (ran_loop fuel g g0); [by etrans | done..].
Qed.
Lemma run_inner_ran m fuel g : run_of m fuel g → ran fuel g (run_inner env cx fuel g).
Proof.
  intros [Hb Hm Hp _ _ _]. unfold run_inner. rewrite bind_run. cbn [of_result].
  destruct (entry_check cx) as [[]|e]; [|by left]. rewrite bind_run.
  match goal with |- ran _ _ (match ?mm g with _ => _ end) => set (first := mm) end.
  assert (Ho1 : stays_outside cx first).
  { apply outside_still. unfold first. case_if; [apply still_run_started | apply still_ret]. }
  specialize (Ho1 g). destruct (first g) as [g1 [[]|e]]; [|by left]. cbn [fst] in Ho1.
  apply (ran_after _ _ _ _ Ho1). rewrite bind_run. pose proof (outside_elapsed env cx g1) as Ho2.
  destruct (open_elapsed env cx g1) as [g2 [deadline|e]]; [|by left]. cbn [fst] in Ho2.
  apply (ran_after _ _ _ _ Ho2). rewrite bind_run, try_run.
  destruct (run_block_entered env cx Hm Hp (initial_sorted m Hb) deadline fuel g2) as [g3 e H1|g0 H1 H2 H3];
    cbn [fst snd]; rewrite bind_run.
  - destruct (close_same env cx g3) as [Ho3 _]. destruct (close_episode env cx g3) as [g4 [[]|e']]; left; by etrans.
  - set (x := (loop env cx fuel None ≫= settle_run env cx) g0).
    destruct (close_same env cx x.1) as [Ho3 Hv3].
    destruct (close_episode env cx x.1) as [g4 [[]|e']]; cbn [fst] in *; eapply (ran_loop fuel g2 g0); done.
Qed.

(** The state the loop starts from. *)
Lemma loop_start m fuel g g0 : run_of m fuel g → outside cx g g0 → bm_sorted (eg_states g0) →
  (∀ id, bm_get id (eg_states g0) = bm_get id (initial_states cx)) →
  in_graph cx g0 ∧ quiet g0 ∧ tracked cx g0 ∧ waiting_count cx g0 < fuel ∧
  ∀ id, view_at g0 id = view_of (initial_states cx) id.
Proof.
  intros Hr Ho Hs Hg.
  assert (Hv : ∀ id, view_at g0 id = view_of (initial_states cx) id) by (intros id; unfold view_at, view_of; by rewrite Hg).
  split_and!; [| | | |done].
  - split; [done|]. intros id. rewrite Hg, <-initial_keys. apply bm_get_is_Some.
  - intros id Ha. rewrite Hv in Ha. by apply initial_view in Ha as (? & _).
  - intros id p Hid _ Hp. rewrite Hv in Hp. apply initial_view in Hp as (_ & _ & Hc).
    unfold outcome_known. rewrite (ou_nodes _ _ _ Ho id Hid), (ro_state _ _ _ Hr). destruct p; auto.
  - pose proof (ro_fuel _ _ _ Hr). unfold waiting_count. pose proof (length_filter (λ id, view_at g0 id = Some Waiting) (g_order (cx_graph cx))). lia.
Qed.

(** ** The summary of a run *)

Definition closing (tail : list mark) : Prop := tail = [] ∨ ∃ success, tail = [MEnd success].
Record summary (g g' : engine) (r : result EngineError (list value)) (ms : list mark) (v : view) (tail : list mark) :
    Prop := {
  su_trace : trace g' = trace g ++ ms ++ tail;
  su_moves : run_moves (view_of (initial_states cx)) ms v;
  su_known : ∀ id c, id ∈ ids cx → ¬ target cx id → v id = Some (Ended c) →
    outcome_class <$> node_of (eg_state g') id = Some c;
  su_closing : closing tail;
  su_anomaly : eg_anomaly g' = eg_anomaly g ∨ ¬ pins_work env ∧ eg_anomaly g' = Some Stalled;
  su_success : is_ok r = true → tail = [MEnd true] ∧ (∀ id, view_at g' id = v id) ∧
    ∃ g1, (∀ id, view_at g1 id = v id) ∧ failed_nodes (eg_states g1) = [] ∧ in_time env cx g1 ∧
      (cut_short env cx g1 ∨ closed cx g1);
}.
Lemma settlement_end g g' r : settlement cx g g' r → ∃ tail, ended_with cx g g' tail ∧ closing tail ∧
  (is_ok r = true → tail = [MEnd true]).
Proof.
  unfold settlement, closing. destruct r as [x|e]; [|intros [?|?]]; eexists; (split; [eassumption|]); naive_solver.
Qed.
(** The loop and the settlement. *)
Lemma loop_summary fuel g0 : modest_bodies env cx → plain_ids cx → in_graph cx g0 → quiet g0 → tracked cx g0 →
  waiting_count cx g0 < fuel → (∀ m, build m = Ok (cx_graph cx) → bm_sorted (rs_nodes (cx_replay cx)) →
  let x := (loop env cx fuel None ≫= settle_run env cx) g0 in
  eg_refused x.1 ≤ eg_refused g0 → ∃ ms g1 tail, kept g0 g1 ∧ run_moves (view_at g0) ms (view_at g1) ∧
    tracked cx g1 ∧ trace g1 = trace g0 ++ ms ∧ closing tail ∧
    (ended_with cx g1 x.1 tail ∨
     x.1 = g1 <| eg_anomaly := Some Stalled |> ∧ tail = [] ∧ ¬ pins_work env ∧ is_ok x.2 = false) ∧
    (is_ok x.2 = true → tail = [MEnd true] ∧ failed_nodes (eg_states g1) = [] ∧ in_time env cx g1 ∧
       (cut_short env cx g1 ∨ closed cx g1))).
Proof.
  intros Hm Hp Hig Hq Ht Hw m Hb Hrs x Href. destruct (built_facts m Hb) as (Hk & Hto & Hso & Htg).
  pose proof (loop_spec env cx Hm Hp Hk Hrs Hto Hso Htg fuel None g0 Hw Hig) as Hl.
  pose proof (loop_refused env cx Hm Hp Hk Hrs Hto Hso fuel None g0) as Hr0.
  unfold x in *. clear x. rewrite bind_run in *. destruct (loop env cx fuel None g0) as [g' [first|e]]; cbn [fst snd] in *.
  - destruct (settle_run_spec env cx Hm Hp first g') as [Hs Hok].
    destruct (settlement_end _ _ _ Hs) as (tail & He & Hc & Htail). pose proof (proj1 (proj2 He)) as Hr1.
    destruct Hl as [?|(g1 & Hkept & Ha & [[-> Hres]|(_ & Hno & _)])]; [lia | | done].
    destruct (ad_moves _ _ _ Ha) as (ms & Etr & Hmv). exists ms, g1, tail.
    split_and!; try done; [by apply Ha | by left|].
    intros Ho. destruct (Hok Ho). split_and!; [by apply Htail | done | done | by apply (Hres first)].
  - destruct Hl as [?|(g1 & Hkept & Ha & Hres)]; [lia|].
    destruct (ad_moves _ _ _ Ha) as (ms & Etr & Hmv). exists ms, g1, [].
    split_and!; try done; [by apply Ha | by left|].
    destruct Hres as [[-> _]|(-> & _ & Hn)]; [left | right].
    + split_and!; try done. by rewrite app_nil_r.
    + split_and!; try done. intros Hpw. by apply Hn.
Qed.
Lemma ended_summary g g0 g1 g2 g' r ms tail : outside cx g g0 → tracked cx g1 →
  run_moves (view_at g0) ms (view_at g1) → (∀ id, view_at g0 id = view_of (initial_states cx) id) →
  trace g1 = trace g0 ++ ms → ended_with cx g1 g2 tail → outside cx g2 g' → closing tail →
  eg_anomaly g1 = eg_anomaly g0 → (∀ id, view_at g' id = view_at g2 id) →
  (is_ok r = true → tail = [MEnd true] ∧ failed_nodes (eg_states g1) = [] ∧ in_time env cx g1 ∧
       (cut_short env cx g1 ∨ closed cx g1)) → summary g g' r ms (view_at g1) tail.
Proof.
  intros Ho Ht Hmv Hv Etr (T2 & R2 & A2 & V2 & N2) Ho' Hc Han Hv' Hok. split.
  - rewrite (ou_trace _ _ _ Ho'), T2, Etr, (ou_trace _ _ _ Ho). by rewrite <-!(assoc_L (++)).
  - rewrite <-(app_nil_l ms). eapply moves_app; [|exact Hmv]. by apply moves_same.
  - intros id c Hid Hn He. rewrite (ou_nodes _ _ _ Ho' id Hid), N2 by done. apply (Ht id _ Hid Hn He).
  - done.
  - left. rewrite (ou_anomaly _ _ _ Ho'), A2, Han. apply Ho.
  - intros (? & ? & ? & ?)%Hok. split; [done|]. split; [intros id; by rewrite Hv', V2|]. by exists g1.
Qed.
Lemma run_summary m fuel g : run_of m fuel g →
  eg_refused (run_inner env cx fuel g).1 = eg_refused g →
  ∃ ms v tail, summary g (run_inner env cx fuel g).1 (run_inner env cx fuel g).2 ms v tail.
Proof.
  intros Hr Href. destruct (run_inner_ran m fuel g Hr) as [g' e Ho|g0 g' r Ho Hs Hg x Ho' Hv' Hok]; cbn [fst snd] in *.
  { exists [], (view_of (initial_states cx)), []. split; try done.
    - rewrite app_nil_r. apply Ho.
    - constructor.
    - intros id c Hid _ Hv. rewrite (ou_nodes _ _ _ Ho id Hid), (ro_state _ _ _ Hr). by apply initial_view in Hv as (_ & _ & ?); auto.
    - by left.
    - left. apply Ho. }
  destruct (loop_start m fuel g g0 Hr Ho Hs Hg) as (Hig & Hq & Ht & Hw & Hv).
  destruct (loop_summary fuel g0 (ro_bodies _ _ _ Hr) (ro_ids _ _ _ Hr) Hig Hq Ht Hw m (ro_graph _ _ _ Hr)
    (ro_replay _ _ _ Hr)) as (ms & g1 & tail & Hkept & Hmv & Ht1 & Etr & Hc & Hend & Hsucc).
  { fold x. pose proof (ou_refused _ _ _ Ho). pose proof (ou_refused _ _ _ Ho'). lia. }
  fold x in Hend, Hsucc. exists ms, (view_at g1), tail.
  assert (Hisok : is_ok r = true → is_ok x.2 = true) by (destruct r as [a|]; [by rewrite (Hok a eq_refl) | done]).
  destruct Hend as [He|(Ex & -> & Hp & Hno)].
  - eapply ended_summary; [exact Ho | done | done | done | done | exact He | done | done | apply Hkept | done | auto].
  - assert (Hx : trace x.1 = trace g1 ∧ eg_state x.1 = eg_state g1 ∧ eg_anomaly x.1 = Some Stalled) by by rewrite Ex.
    destruct Hx as (Tx & Sx & Ax). split; try done.
    + rewrite (ou_trace _ _ _ Ho'), Tx, Etr, (ou_trace _ _ _ Ho). by rewrite app_nil_r.
    + rewrite <-(app_nil_l ms). eapply moves_app; [|exact Hmv]. by apply moves_same.
    + intros id c Hid Hn He. rewrite (ou_nodes _ _ _ Ho' id Hid), Sx. apply (Ht1 id _ Hid Hn He).
    + right. split; [done|]. by rewrite (ou_anomaly _ _ _ Ho').
    + intros Hr'. apply Hisok in Hr'. congruence.
Qed.

(** ** Theorems *)

Lemma closing_split ms tail before id after : closing tail → ms ++ tail = before ++ MStart id :: after →
  ∃ after', ms = before ++ MStart id :: after' ∧ after = after' ++ tail.
Proof.
  intros [->|[b ->]] E.
  - exists after. rewrite !app_nil_r in *. done.
  - destruct after as [|x l _] using rev_ind.
    + apply app_inj_tail in E as [_ [=]].
    + rewrite app_comm_cons, (assoc_L (++)) in E. apply app_inj_tail in E as [-> <-]. by exists l.
Qed.

(** Evidence, in the marks of a run, that the needs of a node ended as its
    policy asks; a repair target can end without a mark of the loop. *)
Definition succeeded_before (before : list mark) (y : str) : Prop := target cx y ∨ MDone y KSuccess ∈ before.
Definition settled_before (before : list mark) (y : str) : Prop :=
  succeeded_before before y ∨ MDone y KSkipped ∈ before ∨
  ∃ reason, node_of (cx_replay cx) y = Some (NodeSkipped reason).
Definition needs_evidence (n : NodeDef) (before : list mark) : Prop :=
  nd_needs n = [] ∨
  match nd_on_deps n with
  | AllSucceeded => ∀ y, y ∈ nd_needs n → succeeded_before before y
  | AnySucceeded => ∃ y, y ∈ nd_needs n ∧ succeeded_before before y
  | NoneFailed => ∀ y, y ∈ nd_needs n → settled_before before y
  end.
Lemma success_evidence before v y : run_moves (view_of (initial_states cx)) before v →
  v y = Some (Ended KSuccess) → succeeded_before before y.
Proof.
  intros Hm Hv. destruct (decide (target cx y)) as [|Hn]; [by left | right].
  destruct (moves_done _ _ _ _ _ _ _ _ Hm Hn Hv) as [Hi|]; [|done]. by apply initial_view in Hi as (_ & ? & _).
Qed.
Lemma settled_evidence before v y : run_moves (view_of (initial_states cx)) before v →
  ended_well (v y) → settled_before before y.
Proof.
  intros Hm [Hv|Hv]; [left; by eapply success_evidence|].
  destruct (decide (target cx y)) as [|Hn]; [by left; left | right].
  destruct (moves_done _ _ _ _ _ _ _ _ Hm Hn Hv) as [Hi|]; [right | by left].
  apply initial_view in Hi as (_ & _ & Hc). specialize (Hc _ eq_refl).
  destruct (node_of (cx_replay cx) y) as [[]|]; try done. by eexists.
Qed.

(** What the theorems below assume of a run: it is a run of a built graph in the
    sense of [run_of], with more fuel than the graph has nodes, and the journal
    refused none of its records. *)
Section run.
Variables (m : Manifest) (fuel : nat) (g g' : engine) (r : result EngineError (list value)).
Hypotheses (Hrun : run_of m fuel g) (Hcall : run_inner env cx fuel g = (g', r))
  (Haccepted : eg_refused g' = eg_refused g).
Lemma the_summary : ∃ ms v tail, summary g g' r ms v tail.
Proof. pose proof (run_summary m fuel g Hrun) as Hs. rewrite Hcall in Hs. by apply Hs. Qed.


(** C16: In a run of a built graph in which the journal refuses no record, whose
    bodies record nothing about graph nodes and whose node ids are not those of
    repairs and hooks, the loop ends: with as much fuel as the graph has nodes
    and one more it never runs out; and if moreover the files of every attempt
    can be pinned, it finds a runnable node as long as one is open, so it does
    not stall either. (When a record is refused, the loop can repeat a wave:
    [refused_wave_repeats].) *)
Theorem run_terminates :
  (eg_anomaly g' = eg_anomaly g ∨ eg_anomaly g' = Some Stalled) ∧
  (pins_work env → eg_anomaly g' = eg_anomaly g).
Proof.
  destruct the_summary as (ms & v & tail & []). destruct su_anomaly0 as [?|[? ?]]; [by split; [left|]|].
  split; [by right | by intros].
Qed.

(** C15: In a run of a built graph in which the journal refuses no record, whose
    bodies record nothing about graph nodes and whose node ids are not those of
    repairs and hooks, the loop starts a node only after its needs: the marks of
    this run before the start show each need (one of them under
    [AnySucceeded]) ended in success, or under [NoneFailed] in success or
    skipped. Two kinds of needs are excepted: a node that some node names as its
    repair or recheck node, since a repair cycle sets its state without a mark
    of the loop, and under [NoneFailed] a node that the replayed journal already
    shows as skipped. *)
Theorem starts_after_needs id before after :
  trace g' = trace g ++ before ++ MStart id :: after →
  ∃ n, bm_get id nodes = Some n ∧ needs_evidence n before.
Proof.
  destruct the_summary as (ms & v & tail & []). intros E. rewrite su_trace0 in E. apply app_inv_head in E.
  destruct (closing_split _ _ _ _ _ su_closing0 E) as (after' & -> & _).
  destruct (moves_split _ _ _ _ _ _ su_moves0 _ _ _ eq_refl) as (v1 & v2 & Hb & Hs & _).
  apply move_start_inv in Hs as (n & Hn & _ & Hmay & _). exists n. split; [done|].
  destruct Hmay as [?|Hmay]; [by left | right]. destruct (nd_on_deps n).
  - intros y Hy. eapply success_evidence; eauto.
  - destruct Hmay as (y & ? & ?). exists y. split; [done|]. by eapply success_evidence.
  - intros y Hy. eapply settled_evidence; eauto.
Qed.

(** C18: Within one invocation of a run of a built graph in which the journal
    refuses no record, whose bodies record nothing about graph nodes and whose
    node ids are not those of repairs and hooks, the loop starts no node a second
    time unless it recorded that the node was interrupted in between. Starts of
    earlier invocations are not counted, and neither are the executions of a
    node inside the repair cycle of another one, which the loop does not start. *)
Theorem restarts_after_interruption id before between after :
  trace g' = trace g ++ before ++ MStart id :: between ++ MStart id :: after →
  MInterrupt id ∈ between.
Proof.
  destruct the_summary as (ms & v & tail & []). intros E. rewrite su_trace0 in E. apply app_inv_head in E.
  rewrite app_comm_cons, (assoc_L (++)) in E.
  destruct (closing_split _ _ _ _ _ su_closing0 E) as (after' & -> & _).
  eapply moves_restart; [exact su_moves0|]. by rewrite <-(assoc_L (++)).
Qed.

(** The elapsed deadline stays passed. *)
Definition expiry_final : Prop := ∀ n n', n ≤ n' → ev_expired env n = true → ev_expired env n' = true.
Lemma no_failed_view g1 id : failed_nodes (eg_states g1) = [] → view_at g1 id ≠ Some (Ended KFailed).
Proof.
  intros Hf Hv. unfold view_at, view_of in Hv. destruct (bm_get id (eg_states g1)) as [[]|] eqn:E; try done.
  apply bm_get_elem in E. assert (Hin : (id, d) ∈ failed_nodes (eg_states g1)); [|rewrite Hf in Hin; by apply not_elem_of_nil in Hin].
  apply list_elem_of_omap. by exists (id, FailedNode d).
Qed.
(** C17: In a run of a built graph in which the journal refuses no record, whose
    bodies record nothing about graph nodes and whose node ids are not those of
    repairs and hooks, and provided the files of every attempt can be pinned and
    an elapsed deadline stays elapsed: if the run succeeds, then every node ended
    in success or was skipped, the mark of success is the last one of the
    journal, and the fold of the journal says of each node that it did not fail,
    except perhaps of the nodes that serve as repair or recheck nodes, which a
    repair cycle records under its own name. *)
Theorem success_settles_nodes artifacts : r = Ok artifacts → pins_work env → expiry_final →
  (∃ ms, trace g' = trace g ++ ms ++ [MEnd true]) ∧
  ∀ id, id ∈ ids cx → ended_well (view_at g' id) ∧
    (¬ target cx id → ∃ c, outcome_class <$> node_of (eg_state g') id = Some c ∧ c ≠ KFailed).
Proof.
  intros Hr Hp Hx. destruct the_summary as (ms & v & tail & [Htr _ Hk _ _ Hs]).
  destruct (Hs ltac:(by rewrite Hr)) as (-> & Hv & g1 & Hv1 & Hf & Ht & Hend). split; [by exists ms|]. intros id Hid.
  assert (Hc : closed cx g1).
  { destruct Hend as [Hcut|]; [|done]. exfalso. destruct (Hcut Hp) as [(Hd & Hl & n & Hn & He)|(x & Hxv)].
    - apply Ht. split_and!; try done. eapply Hx; [|exact He]. lia.
    - by eapply no_failed_view. }
  destruct (Hc id Hid) as [c Hcv]. pose proof (no_failed_view g1 id Hf) as Hnf. rewrite Hv1 in Hcv, Hnf.
  split; [|intros Hn; exists c; split; [by apply Hk | congruence]].
  rewrite Hv, Hcv. destruct c; [by left | congruence | by right].
Qed.
End run.
End spec.
