(* ===== verification/EngineBudget.v ===== *)
(** * The step budget of a run

    Every body that runs was charged to the one counter all tasks of a run
    share, and the counter stops at the limit: a run, its waves, retries,
    repairs and hooks together, makes no more attempts than the limit leaves. *)

From S2P Require Import Prelude Str BMap Json Serde Events ValueBag ExprEval ExprParser RunState TraceIds JournalWriter Graph EngineTypes EngineWorld EngineExecute EngineRepair EngineRun EngineInner EngineCalm.

#[local] Arguments s : simpl never.

Create HintDb budget.

Section budget.
Context {W : WireTypes} {Sha : Sha256} {Msg : Messages} {Frm : Forms} {Cm : CaseMapping}.
Variables (env : Environment) (cx : RunContext).

Definition allowed : Z := Z.max 1 (cx_max_total_steps cx).
(** Charges that no attempt has used. *)
Definition slack (g : engine) : Z := (eg_executed g - Z.of_nat (eg_attempts g))%Z.
(** From [k] charged tasks to [k']. *)
Definition frugal (k k' : nat) (g g' : engine) : Prop :=
  (slack g - Z.of_nat k ≤ slack g' - Z.of_nat k')%Z ∧
  (eg_executed g ≤ eg_executed g' ≤ Z.max (eg_executed g) allowed)%Z.
Definition spends {A} (k : nat) (m : EM A) (k' : A → nat) : Prop := ∀ g,
  match m g with
  | (g', Ok x) => frugal k (k' x) g g'
  | (g', Err _) => frugal k 0 g g'
  end.
Notation thrifty m := (spends 0 m (λ _, 0)).

Lemma frugal_trans k1 k2 k3 g1 g2 g3 : frugal k1 k2 g1 g2 → frugal k2 k3 g2 g3 → frugal k1 k3 g1 g3.
Proof. unfold frugal. lia. Qed.
Lemma frugal_drop k k' g g' : frugal k k' g g' → frugal k 0 g g'.
Proof. unfold frugal. lia. Qed.
Lemma spends_bind {A B} k (m : EM A) k' (f : A → EM B) k'' :
  spends k m k' → (∀ x, spends (k' x) (f x) k'') → spends k (m ≫= f) k''.
Proof.
  intros Hm Hf g. specialize (Hm g). rewrite bind_run. destruct (m g) as [g1 [x|e]]; [|done].
  specialize (Hf x g1). destruct (f x g1) as [g2 [y|e]]; by eapply frugal_trans.
Qed.
Lemma spends_ret {A} k (x : A) k' : k' x ≤ k → spends k (mret x) k'.
Proof. intros Hk g. cbn. unfold frugal. lia. Qed.
Lemma spends_raise {A} k e k' : spends k (raise (A:=A) e) k'.
Proof. intros g. cbn. unfold frugal. lia. Qed.
Lemma spends_result {A} k (r : result EngineError A) k' : (∀ x, k' x ≤ k) → spends k (of_result r) k'.
Proof. intros Hk g. unfold of_result, frugal. destruct r as [x|]; [specialize (Hk x)|]; lia. Qed.
Lemma spends_try {A} k (m : EM A) : spends k m (λ _, 0) → spends k (try_ m) (λ _, 0).
Proof. intros Hm g. specialize (Hm g). unfold try_. by destruct (m g) as [g1 [x|e]]. Qed.
(** What charges nothing keeps the charged tasks. *)
Lemma spends_keep {A} k (m : EM A) : thrifty m → spends k m (λ _, k).
Proof. intros Hm g. specialize (Hm g). unfold frugal in *. destruct (m g) as [g1 [x|e]]; lia. Qed.
Lemma spends_same {A} k (m : EM A) : (∀ g, eg_executed (m g).1 = eg_executed g ∧ eg_attempts (m g).1 = eg_attempts g) →
  spends k m (λ _, k).
Proof.
  intros Hm g. destruct (Hm g) as [E1 E2]. unfold frugal, slack. destruct (m g) as [g1 [x|e]]; cbn in *; rewrite E1, E2; lia.
Qed.
Lemma spends_event k by_ kind payload : spends k (event env cx by_ kind payload) (λ _, k).
Proof.
  apply spends_same. intros g. unfold event. cbn zeta. destruct (ev_storage _ _); [done|].
  by destruct (accept _ _ _ _ _ _).
Qed.
Lemma thrifty_each {A} (f : A → EM ()) l : (∀ x, thrifty (f x)) → thrifty (each f l).
Proof. intros Hf. induction l as [|x l IH]; [by apply spends_ret|]. eapply spends_bind; [apply Hf | intros; apply IH]. Qed.
End budget.

Notation thrifty cx m := (spends cx 0 m (λ _, 0)).
Ltac thrift_step :=
  match goal with
  | |- spends _ _ (mret _) _ => apply spends_ret; lia
  | |- spends _ _ (raise _) _ => apply spends_raise
  | |- spends _ _ (of_result _) _ => apply spends_result; intros; lia
  | |- spends _ _ (try_ _) _ => apply spends_try
  | |- spends _ _ (event _ _ _ _ _) _ => apply spends_event
  | |- spends _ _ (each _ _) _ => apply thrifty_each; intros ?
  | |- spends _ _ ask _ => by apply spends_same
  | |- spends _ _ the_engine _ => by apply spends_same
  | |- spends _ _ (with_vars _) _ => by apply spends_same
  | |- spends _ _ (set_node _ _) _ => by apply spends_same
  | |- spends _ _ (put _) _ => by apply spends_same
  | |- spends _ _ (_ ≫= _) _ => apply (spends_bind _ _ _ (λ _, 0)); [|intros ?]
  | |- spends _ _ (match ?x with _ => _ end) _ => destruct x
  | |- spends _ _ (let '(_, _) := ?x in _) _ => destruct x
  | |- _ => solve [eauto with budget]
  end.
Ltac thrift := cbn zeta; repeat thrift_step.

Section tasks.
Context {W : WireTypes} {Sha : Sha256} {Msg : Messages} {Frm : Forms} {Cm : CaseMapping}.
Variables (env : Environment) (cx : RunContext).

(** ** One node *)

Lemma thrifty_checkpoint : thrifty cx (run_checkpoint env cx).
Proof. unfold run_checkpoint. thrift. Qed.
Lemma thrifty_pins files : thrifty cx (pin_attempt_files env files).
Proof. unfold pin_attempt_files. thrift. Qed.
Lemma thrifty_sync : thrifty cx sync_live_outcomes.
Proof. unfold sync_live_outcomes. thrift. Qed.
Lemma thrifty_publish node output : thrifty cx (publish_output node output).
Proof. unfold publish_output. thrift. Qed.
Hint Resolve thrifty_checkpoint thrifty_pins thrifty_sync thrifty_publish : budget.

Definition charged (t : task) : nat := match t with TAttempt _ => 1 | _ => 0 end.
Lemma spends_body node : spends cx 1 (run_body env cx node) (λ _, 0).
Proof.
  unfold run_body. apply (spends_bind _ _ _ (λ _, 1)); [by apply spends_same|]. intros n.
  apply (spends_bind _ _ _ (λ _, 0)).
  { intros g. cbn. unfold frugal, slack. cbn. lia. }
  intros _. thrift.
Qed.
Lemma spends_attempt node : spends cx 1 (execute_attempt env cx node) (λ _, 0).
Proof.
  unfold execute_attempt. apply (spends_bind _ _ _ (λ _, 0)); [apply spends_try, spends_body|]. intros r.
  unfold under_timeout, under_deadline. thrift.
Qed.
Lemma spends_charge node : spends cx 0 (charge_attempt env cx node) (λ _, 1).
Proof.
  unfold charge_attempt. apply (spends_bind _ _ _ (λ _, 1)); [|intros _; apply spends_event].
  intros g. unfold consume. cbn zeta. destruct (_ <? _)%Z eqn:E; unfold frugal, slack, allowed; cbn; [|lia].
  apply Z.ltb_lt in E. lia.
Qed.
Lemma spends_step node t : spends cx (charged t) (task_step env cx true node t) charged.
Proof.
  destruct t as [n|n|r]; cbn [task_step charged].
  - intros g. rewrite bind_run, try_run. pose proof (spends_charge node g) as Hc.
    destruct (charge_attempt env cx node g) as [g1 [[]|e]]; cbn [fst snd]; exact Hc.
  - apply (spends_bind _ _ _ (λ _, 0)); [apply spends_try, spends_attempt|]. intros [o|e]; [by apply spends_ret|].
    destruct (_ && _); [|by apply spends_ret]. apply (spends_bind _ _ _ (λ _, 0)).
    { unfold record_retry, backoff. thrift. }
    intros [[]|e']; by apply spends_ret.
  - by apply spends_ret.
Qed.
Lemma spends_finish node fuel : ∀ t, spends cx (charged t) (finish_task env cx fuel true node t) (λ _, 0).
Proof.
  assert (Ho : ∀ k, spends cx k (out_of_fuel (A:=result EngineError StepOutcome)) (λ _, 0)).
  { intros k g. cbn. unfold frugal, slack. cbn. lia. }
  induction fuel as [|fuel IH]; intros t; destruct t as [n|n|r]; cbn [finish_task]; try apply Ho;
    try (apply spends_ret; cbn; lia); (eapply spends_bind; [apply spends_step | exact IH]).
Qed.
Lemma spends_run node t : spends cx (charged t) (run_task env cx true node t) (λ _, 0).
Proof. apply spends_finish. Qed.
Lemma thrifty_execute node : thrifty cx (execute_node_with_retry env cx node).
Proof.
  unfold execute_node_with_retry. apply (spends_bind _ _ _ (λ _, 0)); [|intros; thrift].
  assert (E : charged (first_task node) = 0) by (unfold first_task; by destruct (_ || _)).
  pose proof (spends_run node (first_task node)) as H. by rewrite E in H.
Qed.
Hint Resolve thrifty_execute : budget.

(** ** Waves *)

Definition charges (ts : list running) : nat := list_sum (map (λ r, charged (ru_task r)) ts).
Lemma charges_cons r ts : charges (r :: ts) = charged (ru_task r) + charges ts.
Proof. done. Qed.
Lemma charges_app ts ts' : charges (ts ++ ts') = charges ts + charges ts'.
Proof. unfold charges. rewrite map_app. apply list_sum_app. Qed.
Lemma charges_split ts i r : ts !! i = Some r →
  charges ts = charged (ru_task r) + charges (take i ts ++ drop (S i) ts).
Proof.
  intros Hi. rewrite <-(take_drop_middle _ _ _ Hi) at 1. rewrite !charges_app, charges_cons. lia.
Qed.
Lemma charges_insert ts i r r' : ts !! i = Some r →
  charges (<[i := r']> ts) = charged (ru_task r') + charges (take i ts ++ drop (S i) ts).
Proof.
  intros Hi. rewrite insert_take_drop by (by eapply lookup_lt_Some). rewrite !charges_app, charges_cons. lia.
Qed.
(** A task charges for itself, whatever the others have been charged. *)
Lemma spends_beside {A} k n (m : EM A) k' : spends cx k m k' → spends cx (k + n) m (λ x, k' x + n).
Proof. intros Hm g. specialize (Hm g). unfold frugal in *. destruct (m g) as [g1 [x|e]]; lia. Qed.
Lemma spends_snapshot {A} vars k (m : EM A) k' : spends cx k m k' → spends cx k (on_snapshot vars m) (λ x, k' x.1).
Proof.
  intros Hm g. unfold on_snapshot. specialize (Hm (g <| eg_vars := vars |>)).
  destruct (m _) as [g1 [x|e]]; exact Hm.
Qed.
Lemma spends_advance ts i : spends cx (charges ts) (advance env cx ts i) charges.
Proof.
  unfold advance. destruct (ts !! i) as [r|] eqn:Ei; [|by apply spends_ret].
  rewrite (charges_split _ _ _ Ei).
  eapply spends_bind; [apply spends_beside, spends_snapshot, spends_step|].
  intros [t vars]. apply spends_ret. rewrite (charges_insert _ _ _ _ Ei). cbn. lia.
Qed.
Lemma spends_interleave ts : spends cx (charges ts) (interleave env cx ts) charges.
Proof.
  unfold interleave. apply (spends_bind _ _ _ (λ _, charges ts)); [by apply spends_same|]. intros n.
  generalize (ev_slices env n). intros slices. revert ts. induction slices as [|i slices IH]; intros ts; cbn [advance_all].
  - by apply spends_ret.
  - eapply spends_bind; [apply spends_advance | exact IH].
Qed.
Lemma spends_join r how : spends cx (charged (ru_task r)) (join_task env cx r how) (λ _, 0).
Proof.
  unfold join_task. destruct (ru_task r) eqn:Et, how; try (apply spends_ret; cbn; lia).
  all: rewrite <-Et; eapply spends_bind; [apply spends_snapshot, spends_run|]; intros [x v]; by apply spends_ret.
Qed.
Lemma spends_join_next r ts : spends cx (charges (r :: ts)) (join_next env cx r ts) (λ x, charges x.2).
Proof.
  unfold join_next. apply (spends_bind _ _ _ (λ _, charges (r :: ts))); [by apply spends_same|]. intros n.
  destruct (ev_join env n) as [i how]. destruct ((r :: ts) !! i) as [r'|] eqn:Ei.
  - rewrite (charges_split _ _ _ Ei). eapply spends_bind; [apply spends_beside, spends_join|]. intros j. by apply spends_ret.
  - rewrite charges_cons. eapply spends_bind; [apply spends_beside, spends_join|]. intros j. by apply spends_ret.
Qed.
Lemma spends_record k node j a b : spends cx k (try_ (record_wave_join env cx node j a b)) (λ _, k).
Proof.
  apply spends_same. intros g. rewrite try_run. cbn [fst]. unfold record_wave_join.
  destruct (join_facts j b) as [facts c]. unfold event. cbn zeta. destruct (ev_storage _ _); [done|].
  by destruct (accept _ _ _ _ _ _).
Qed.
Lemma spends_fuel {A} k k' : spends cx k (out_of_fuel (A:=A)) k'.
Proof. intros g. cbn. unfold frugal, slack. cbn. lia. Qed.
Lemma spends_drain a b fuel : ∀ ts co, spends cx (charges ts) (drain env cx fuel a b ts co) (λ _, 0).
Proof.
  induction fuel as [|fuel IH]; intros [|r ts] co; cbn [drain]; try (by apply spends_ret); [apply spends_fuel|].
  eapply spends_bind; [apply spends_interleave|]. intros [|r' ts']; [by apply spends_ret|].
  eapply spends_bind; [apply spends_join_next|]. intros [[r'' j] rest]. cbn [snd].
  eapply spends_bind; [apply spends_record|]. intros fact. apply IH.
Qed.
Lemma spends_collect fuel : ∀ ts co, spends cx (charges ts) (collect env cx fuel ts co) (λ _, 0).
Proof.
  induction fuel as [|fuel IH]; intros [|r ts] co; cbn [collect]; try (by apply spends_ret); [apply spends_fuel|].
  eapply spends_bind; [apply spends_interleave|]. intros ts'.
  apply (spends_bind _ _ _ (λ _, charges ts')); [by apply spends_same|]. intros n. destruct (ev_cancelled _ _).
  { eapply spends_bind; [apply spends_drain|]. intros co'. by apply spends_ret. }
  destruct ts' as [|r' ts']; [by apply spends_ret|].
  eapply spends_bind; [apply spends_join_next|]. intros [[r'' j] rest]. cbn [snd].
  eapply spends_bind; [apply spends_record|]. intros fact. apply IH.
Qed.
Lemma charged_first node vars : charges [mkRunning node (first_task node) vars] = 0.
Proof. unfold charges, first_task. cbn. by destruct (_ || _). Qed.
Lemma spends_start nodes : ∀ started ts,
  spends cx (charges ts) (start_wave env cx nodes started ts) (λ x, charges x.1.1.2).
Proof.
  induction nodes as [|node nodes IH]; intros started ts; cbn [start_wave]; [by apply spends_ret|].
  eapply spends_bind; [apply spends_interleave|]. intros ts'.
  apply (spends_bind _ _ _ (λ _, charges ts')).
  { apply spends_keep. apply spends_try. unfold start_node. thrift. }
  intros [u|e].
  - apply (spends_bind _ _ _ (λ _, charges ts')); [by apply spends_same|]. intros g.
    pose proof (IH (started ++ [node]) (ts' ++ [mkRunning node (first_task node) (eg_vars g)])) as H.
    rewrite charges_app, charged_first, Nat.add_0_r in H. exact H.
  - cbn zeta. apply (spends_bind _ _ _ (λ _, charges ts')); [by apply spends_same|]. intros _.
    eapply spends_bind; [apply spends_drain|]. intros co. by apply spends_ret.
Qed.
Lemma thrifty_settle_wave hitl outcomes nodes : thrifty cx (settle_wave env cx hitl outcomes nodes).
Proof.
  induction nodes as [|node nodes IH]; cbn [settle_wave]; [by apply spends_ret|].
  unfold settle_wave_node, settle_report, interrupted. thrift.
Qed.
Lemma thrifty_wave nodes : thrifty cx (execute_parallel_wave env cx nodes).
Proof.
  unfold execute_parallel_wave. eapply spends_bind; [apply (spends_start nodes [] [])|].
  intros [[[nodes' ts] co] err]. cbn [fst snd].
  eapply spends_bind; [apply spends_collect|]. intros [co' cancelled].
  pose proof thrifty_settle_wave. thrift.
Qed.
Hint Resolve thrifty_wave : budget.

(** ** The loop *)

Lemma thrifty_subtree path : thrifty cx (sync_subtree path).
Proof. unfold sync_subtree. thrift. Qed.
Hint Resolve thrifty_subtree : budget.
Lemma thrifty_named owner node_id attempt : thrifty cx (execute_named_node env cx owner node_id attempt).
Proof. unfold execute_named_node, finish_named. thrift. Qed.
Hint Resolve thrifty_named : budget.
Lemma thrifty_cycle failed findings : thrifty cx (execute_repair_cycle env cx failed findings).
Proof.
  assert (Ha : ∀ r c m a, thrifty cx (repair_attempt env cx failed r c m a)).
  { intros. unfold repair_attempt, suspend_user, suspend_confirm, attempt_finished. thrift. }
  assert (Hr : ∀ k r c m a last, thrifty cx (repair_attempts env cx k failed r c m a last)).
  { induction k; intros; cbn [repair_attempts]; thrift. }
  unfold execute_repair_cycle, repair_exhausted, skip_cycle. thrift.
Qed.
Lemma thrifty_regenerate node m findings : thrifty cx (execute_regenerate env cx node m findings).
Proof.
  assert (Hr : ∀ k a last, thrifty cx (regenerate_attempts env cx k node m a last)).
  { induction k; intros; cbn [regenerate_attempts]; thrift. }
  unfold execute_regenerate. thrift.
Qed.
Hint Resolve thrifty_cycle thrifty_regenerate : budget.
Lemma thrifty_outcome node o : thrifty cx (settle_outcome env cx node o).
Proof.
  unfold settle_outcome, settle_check_failed, settle_repaired, settle_regenerated, settle_exhausted, settle_success,
    settle_failure, suspend_user_files, suspend_confirmation, suspend_question. thrift.
Qed.
Hint Resolve thrifty_outcome : budget.
Lemma thrifty_hooks ev : thrifty cx (run_hooks env cx ev).
Proof.
  apply thrifty_each. intros hook.
  unfold run_hook, execute_hook, finish_hook, fail_hook, skip_hook, hook_record. thrift.
Qed.
Lemma thrifty_close : thrifty cx (close_episode env cx).
Proof. unfold close_episode, record_elapsed. thrift. Qed.
Hint Resolve thrifty_hooks thrifty_close : budget.
Lemma thrifty_scan order : ∀ ready progressed, thrifty cx (scan env cx order ready progressed).
Proof.
  assert (Hs : ∀ id, thrifty cx (scan_node env cx id)).
  { intros id. unfold scan_node, skip_node. thrift. }
  induction order; intros; cbn [scan]; thrift.
Qed.
Hint Resolve thrifty_scan : budget.
Lemma thrifty_round first : thrifty cx (round env cx first).
Proof. unfold round, run_wave, run_single. thrift. Qed.
Hint Resolve thrifty_round : budget.
Lemma thrifty_loop fuel : ∀ first, thrifty cx (loop env cx fuel first).
Proof.
  induction fuel as [|fuel IH]; intros first; cbn [loop]; [apply spends_fuel|]. thrift.
Qed.
Lemma thrifty_settle first : thrifty cx (settle_run env cx first).
Proof. unfold settle_run, settle_failed, settle_succeeded. thrift. Qed.

(** ** The run *)

(** Runs no body. *)
Definition idle {A} (m : EM A) : Prop := ∀ g, eg_attempts (m g).1 = eg_attempts g.
Lemma idle_bind {A B} (m : EM A) (k : A → EM B) : idle m → (∀ x, idle (k x)) → idle (m ≫= k).
Proof.
  intros Hm Hk g. rewrite bind_run. specialize (Hm g). destruct (m g) as [g1 [x|e]]; [|done].
  cbn in Hm. by rewrite Hk.
Qed.
Lemma idle_event by_ kind payload : idle (event env cx by_ kind payload).
Proof. intros g. unfold event. cbn zeta. destruct (ev_storage _ _); [done|]. by destruct (accept _ _ _ _ _ _). Qed.
Lemma idle_each {A} (f : A → EM ()) l : (∀ x, idle (f x)) → idle (each f l).
Proof. intros Hf. induction l as [|x l IH]; [done|]. apply idle_bind; [apply Hf | intros; apply IH]. Qed.
Ltac idle_step :=
  match goal with
  | |- idle (event _ _ _ _ _) => apply idle_event
  | |- idle (each _ _) => apply idle_each; intros ?
  | |- idle (_ ≫= _) => apply idle_bind; [|intros ?]
  | |- idle (match ?x with _ => _ end) => destruct x
  | |- idle (let '(_, _) := ?x in _) => destruct x
  | |- _ => done
  end.
Ltac idles := cbn zeta; repeat idle_step.
Lemma idle_begin inputs resources : idle (begin_records env cx inputs resources).
Proof. unfold begin_records, run_started. idles. Qed.
Lemma idle_elapsed : idle (open_elapsed env cx).
Proof. unfold open_elapsed, recover, open_episode, record_elapsed. idles. Qed.
Lemma idle_close : idle (close_episode env cx).
Proof. unfold close_episode, record_elapsed. idles. Qed.
Lemma thrifty_authorize : thrifty cx (authorize_unresolved env cx).
Proof. unfold authorize_unresolved, authorize. thrift. Qed.

Definition within (g g' : engine) : Prop :=
  (Z.of_nat (eg_attempts g') ≤ Z.of_nat (eg_attempts g) + Z.max 0 (allowed cx - initial_executed cx))%Z.
Definition stays_within {A} (m : EM A) : Prop := ∀ g, within g (m g).1.
Lemma within_bind {A B} (m : EM A) (k : A → EM B) : idle m → (∀ x, stays_within (k x)) → stays_within (m ≫= k).
Proof.
  intros Hm Hk g. rewrite bind_run. specialize (Hm g). unfold stays_within, within in *.
  destruct (m g) as [g1 [x|e]]; cbn in *; [|lia]. specialize (Hk x g1). lia.
Qed.
Lemma within_idle {A} (m : EM A) : idle m → stays_within m.
Proof. intros Hm g. unfold within. rewrite Hm. lia. Qed.
Lemma within_thrifty {A} (m : EM A) g : thrifty cx m → eg_executed g = initial_executed cx → within g (m g).1.
Proof.
  intros Hm E. specialize (Hm g). unfold within, frugal, slack in *. destruct (m g) as [g1 [x|e]]; cbn; lia.
Qed.
Lemma run_block_within deadline fuel : stays_within (run_block env cx deadline fuel).
Proof.
  unfold run_block. do 4 (apply within_bind; [by idles|]; intros ?).
  apply within_bind; [apply idle_begin|]. intros _. do 2 (apply within_bind; [by idles|]; intros ?).
  destruct (omap _ _) as [|e l]; [|by apply within_idle].
  apply within_bind; [idles|]. intros _ g. rewrite bind_run. cbn [put].
  match goal with |- within _ ?x.1 => match x with ?m ?g1 =>
    assert (Hw : within g1 (m g1).1); [apply within_thrifty; [|done]|exact Hw] end end.
  pose proof thrifty_authorize. pose proof thrifty_loop. pose proof thrifty_settle. thrift.
Qed.

End tasks.
