(* ===== verification/EngineDemo.v ===== *)
(** * A run of the engine

    The graph of [GraphBuild] from an empty journal: [plan] runs alone, [code]
    and [docs] in a wave, and [check] fails once and is repaired by [code] and
    itself.  The hypotheses of the theorems of [EngineSpec] hold for it.  Two
    further surroundings show what those hypotheses are for: a wave whose failed
    check aborts an unreported sibling, and a journal that refuses. *)

From S2P Require Import Prelude Str BMap Json Serde Events ValueBag ExprLexer ExprEval ExprParser RunState RunStateEffect RunStateDemo AuditRules TraceIds JournalFile JournalWriter JournalDemo Graph GraphTopo GraphBuild EngineTypes EngineWorld EngineExecute EngineRepair EngineRun EngineInner EngineFold EngineCalm EngineMoves EngineWaveSpec EngineSpec.

#[local] Instance demo_messages : Messages := {
  journal_error_text := λ _, s"journal";
  expr_error_text := λ _, s"expression";
  debug_when := λ _, s"None";
}.
#[local] Instance demo_case : CaseMapping := {
  to_uppercase := map ascii_upper_char;
  to_lowercase := to_ascii_lowercase;
}.
#[local] Instance demo_forms : Forms := {
  ser_form := λ id, obj [(s"id", VString id)];
  ser_confirm := λ id, obj [(s"id", VString id)];
  new_form := λ id _ _, id;
  resolution_field := VString;
  answer_field := VNull;
}.

Definition demo_body (node : NodeDef) (vars : ValueBag) : Body :=
  mkBody [(s"llm_call", obj [ (s"node", VString (nd_id node)); (s"cost_microusd", v_num 7);
            (s"tokens", obj [(s"input", v_num 100); (s"output", v_num 20); (s"cached_input", v_num 0)]) ])] vars
    (if nd_id node =s s"check"
     then Ok (OCheckFailed [] None []) else Ok (OSuccess (Some (VString (nd_id node))) [])).
Definition no_race : Race := mkRace false false false false.
Definition demo_env : Environment := {|
  ev_clock := λ _, demo_clock;
  ev_storage := λ _, None;
  ev_audited := λ _, false;
  ev_cancelled := λ _, false;
  ev_yield := λ _, false;
  ev_expired := λ _, false;
  ev_used := λ _, 0%Z;
  ev_body := λ _, demo_body;
  ev_timeout := λ _, no_race;
  ev_deadline := λ _, no_race;
  ev_backoff := λ _, BSlept;
  ev_pins := λ _ files, Ok (map (λ f, mkFilePin f (s"h")) files);
  ev_slices := λ n, [n mod 2; 0; 1];
  ev_join := λ n, (n mod 2, JFinish);
  ev_instant := λ n, Z.of_nat n;
  ev_age := λ _ _, Some 0%Z;
  ev_resources := λ _, Ok [];
  ev_prepare := λ _, Ok [];
  ev_outputs := λ _ _, Ok [];
|}.
Definition demo_context : RunContext := {|
  cx_run_id := s"r1";
  cx_graph := demo_graph;
  cx_hooks := mkHooksConfig [] [] [] [];
  cx_traits := λ _, Some (mkTraits true false);
  cx_deadline := false;
  cx_elapsed_limit := None;
  cx_answers := [];
  cx_confirmations := [];
  cx_max_total_steps := 100;
  cx_max_parallel := 4;
  cx_contract_sha256 := s"c1";
  cx_mode := ActiveExecution;
  cx_identity := [(s"package_sha256", VString (s"p1")); (s"generator", VString (s"gen@1.0"))];
  cx_inputs := [];
  cx_replay := state_default;
|}.
Definition demo_engine : engine :=
  mkEngine 0 state_default [] 0 (with_inputs []) [] None 0 0 None.
Definition demo_run : engine * result EngineError (list value) := run_inner demo_env demo_context 5 demo_engine.

Lemma demo_plain : plain_ids demo_context.
Proof.
  assert (Hc : Forall (λ id, 64%Z ∉ id ∧ 46%Z ∉ id) (ids demo_context))
    by (apply (bool_decide_unpack _); vm_compute; exact I).
  rewrite Forall_forall in Hc.
  intros id Hid. destruct (Hc id Hid) as [H1 H2]. split.
  - intros owner attempt child ->. apply H1. unfold repair_child. apply elem_of_app. right.
    apply elem_of_app. left. apply (bool_decide_unpack _). vm_compute. exact I.
  - intros ev hook ->. apply H2. apply elem_of_app. left. apply (bool_decide_unpack _). vm_compute. exact I.
Qed.
Lemma demo_run_of env : modest_bodies env demo_context → run_of env demo_context demo_manifest 5 demo_engine.
Proof.
  intros Hm. split; [apply demo_build_ok | done | apply demo_plain | apply bm_sorted_nil | done | vm_compute; lia].
Qed.
Lemma demo_modest : modest_bodies demo_env demo_context.
Proof.
  intros n node vars kind payload id Hin _. cbn [ev_body demo_env] in Hin. unfold demo_body in Hin.
  apply list_elem_of_singleton in Hin as [= -> ->]. done.
Qed.
Lemma demo_pins : pins_work demo_env.
Proof. intros n files. reflexivity. Qed.
Lemma demo_accepted : eg_refused demo_run.1 = 0.
Proof. vm_compute. reflexivity. Qed.
Definition demo_call : run_inner demo_env demo_context 5 demo_engine = (demo_run.1, demo_run.2) :=
  surjective_pairing _.

Lemma run_terminates_witness : pins_work demo_env ∧ eg_anomaly demo_run.1 = eg_anomaly demo_engine.
Proof.
  split; [exact demo_pins|].
  exact (proj2 (run_terminates demo_env demo_context demo_manifest 5 demo_engine demo_run.1 demo_run.2
    (demo_run_of _ demo_modest) demo_call demo_accepted) demo_pins).
Defined.
(** [docs] starts while [code] runs, after [plan]. *)
Definition before_docs : list mark := [MStart (s"plan"); MDone (s"plan") KSuccess; MStart (s"code")].
Lemma starts_after_needs_witness :
  (∃ after, trace demo_run.1 = trace demo_engine ++ before_docs ++ MStart (s"docs") :: after) ∧
  ∃ n, bm_get (s"docs") (g_nodes demo_graph) = Some n ∧ needs_evidence demo_context n before_docs.
Proof.
  assert (Ht : trace demo_run.1 = trace demo_engine ++ before_docs ++ MStart (s"docs") :: drop 4 (trace demo_run.1))
    by (vm_compute; reflexivity).
  split; [eexists; exact Ht|].
  exact (starts_after_needs demo_env demo_context demo_manifest 5 demo_engine demo_run.1 demo_run.2
    (demo_run_of _ demo_modest) demo_call demo_accepted (s"docs") before_docs _ Ht).
Defined.
Lemma success_settles_nodes_witness : demo_run.2 = Ok [] ∧ ended_well (view_at demo_run.1 (s"docs")) ∧
  ∃ c, outcome_class <$> node_of (eg_state demo_run.1) (s"docs") = Some c ∧ c ≠ KFailed.
Proof.
  assert (Hok : demo_run.2 = Ok []) by (vm_compute; reflexivity).
  assert (Hx : expiry_final demo_env) by (intros n n' _ He; exact He).
  assert (Hid : s"docs" ∈ ids demo_context) by (apply (bool_decide_unpack _); vm_compute; exact I).
  assert (Ht : ¬ target demo_context (s"docs")) by (apply (bool_decide_unpack _); vm_compute; exact I).
  pose proof (success_settles_nodes demo_env demo_context demo_manifest 5 demo_engine demo_run.1 demo_run.2
    (demo_run_of _ demo_modest) demo_call demo_accepted [] Hok demo_pins Hx) as [_ Hs].
  destruct (Hs (s"docs") Hid) as [He Hk]. split; [exact Hok|]. split; [exact He | exact (Hk Ht)].
Defined.

(** ** A failed check aborts its sibling *)

(** [code] reports a failed check while [docs] runs; [docs] is aborted without
    a report, as an executor that may not be repeated.  The wave returns no
    error, so the loop starts [docs] again in the same invocation. *)
Definition abort_body (node : NodeDef) (vars : ValueBag) : Body :=
  mkBody [] vars (if nd_id node =s s"code" then Ok (OCheckFailed [] None []) else Ok (OSuccess None [])).
Definition with_answers (storage : nat → option str) (slices : nat → list nat) : Environment := {|
  ev_clock := ev_clock demo_env;
  ev_storage := storage;
  ev_audited := ev_audited demo_env;
  ev_cancelled := ev_cancelled demo_env;
  ev_yield := ev_yield demo_env;
  ev_expired := ev_expired demo_env;
  ev_used := ev_used demo_env;
  ev_body := λ _, abort_body;
  ev_timeout := ev_timeout demo_env;
  ev_deadline := ev_deadline demo_env;
  ev_backoff := ev_backoff demo_env;
  ev_pins := ev_pins demo_env;
  ev_slices := slices;
  ev_join := λ _, (0, JCancelled);
  ev_instant := ev_instant demo_env;
  ev_age := ev_age demo_env;
  ev_resources := ev_resources demo_env;
  ev_prepare := ev_prepare demo_env;
  ev_outputs := ev_outputs demo_env;
|}.
Definition abort_env : Environment := with_answers (λ _, None) (λ n, if n <? 24 then [0; 0] else []).
Definition abort_run : engine * result EngineError (list value) := run_inner abort_env demo_context 5 demo_engine.
Lemma abort_modest storage slices : modest_bodies (with_answers storage slices) demo_context.
Proof. intros n node vars kind payload id Hin. by apply not_elem_of_nil in Hin. Qed.
Lemma unreported_sibling_repeated :
  trace abort_run.1 =
    [ MStart (s"plan"); MDone (s"plan") KSuccess; MStart (s"code"); MStart (s"docs");
      MDone (s"code") KFailed; MInterrupt (s"docs"); MDone (s"check") KSkipped;
      MStart (s"docs"); MDone (s"docs") KSuccess; MEnd false ] ∧
  cx_traits demo_context (s"command") = Some (mkTraits true false).
Proof. split; [vm_compute; reflexivity | reflexivity]. Qed.
Lemma restarts_after_interruption_witness :
  ∃ before between after,
    trace abort_run.1 = trace demo_engine ++ before ++ MStart (s"docs") :: between ++ MStart (s"docs") :: after ∧
    MInterrupt (s"docs") ∈ between.
Proof.
  exists before_docs, [MDone (s"code") KFailed; MInterrupt (s"docs"); MDone (s"check") KSkipped],
    [MDone (s"docs") KSuccess; MEnd false].
  assert (Ht : trace abort_run.1 = trace demo_engine ++ before_docs ++ MStart (s"docs") ::
    [MDone (s"code") KFailed; MInterrupt (s"docs"); MDone (s"check") KSkipped] ++ MStart (s"docs") ::
    [MDone (s"docs") KSuccess; MEnd false]) by (vm_compute; reflexivity).
  assert (Ha : eg_refused abort_run.1 = eg_refused demo_engine) by (vm_compute; reflexivity).
  split; [exact Ht|].
  exact (restarts_after_interruption abort_env demo_context demo_manifest 5 demo_engine abort_run.1 abort_run.2
    (demo_run_of _ (abort_modest _ _)) (surjective_pairing _) Ha (s"docs") before_docs _ _ Ht).
Defined.

(** ** A journal that refuses *)

(** From the start of the wave on no record is stored: the wave fails to start,
    its nodes wait again, and the loop comes back to them as long as it may. *)
Definition refusing_env : Environment :=
  with_answers (λ n, if n <? 18 then None else Some (s"no space left on device")) (λ _, []).
Lemma refused_wave_repeats : ∀ fuel, fuel ∈ [5; 10; 40] →
  let g := (run_inner refusing_env demo_context fuel demo_engine).1 in
  eg_anomaly g = Some OutOfFuel ∧ eg_refused g = fuel.
Proof.
  intros fuel Hf. rewrite !elem_of_cons, elem_of_nil in Hf.
  destruct Hf as [->|[->|[->|[]]]]; vm_compute; split; reflexivity.
Qed.
