(* ===== verification/LlmDecision.v ===== *)
(** * Typed decisions

    [llm/src/decision.rs]: the questions put to a decision model, the HTTP body
    they travel in, the two places an answer may be found in, and the check of
    an answer against its questions.  A slice of a string at a byte that is not
    the start of a character panics, as does indexing a map with an absent key:
    both are outcomes here. *)

From S2P Require Import Prelude Str BMap Json Serde TextGate LlmRetry LlmParse CostTier EngineTypes.
From Stdlib Require Import SpecFloat.

#[local] Arguments s : simpl never.

(** ** Data *)

Inductive DecisionQuestion : Type :=
| QNoul (instructions : value) (criteria : option (bmap str))
| QChoice (instructions : value) (criteria : bmap (option str))
| QScore (instructions : value) (criteria : list str).
Record DecisionRequest : Type := mkDecisionRequest {
  dq_provider : str;
  dq_model : str;
  dq_state : value;
  dq_questions : bmap DecisionQuestion;
}.
Inductive DecisionAnswer : Type :=
| ANoul (noul : f64)
| AChoice (choice : str) (probabilities : bmap f64) (confidence : f64)
| AScore (score : f64) (legend : bmap str) (probabilities : bmap f64) (confidence : f64).
Record DecisionUsage : Type := mkDecisionUsage { du_input_tokens : Z; du_output_tokens : Z }.
Record DecisionResponse : Type := mkDecisionResponse {
  dr_model : str;
  dr_answers : bmap DecisionAnswer;
  dr_usage : DecisionUsage;
}.
Inductive DecisionInputWrapper : Type := WrapNone | WrapInput.
Inductive DecisionResponseWrapper : Type := WrapperAuto | WrapperDirect | WrapperResult.

(** A computation that may panic. *)
Inductive outcome (A : Type) : Type := Returns (a : A) | Panics.
Arguments Returns {A}.
Arguments Panics {A}.

(** ** The questions and their payload *)

Definition v_map {A} (ser : A → value) (m : bmap A) : value := VObject (map (λ '(k, x), (k, ser x)) m).
Definition v_f64 (x : f64) : value := match num_from_f64 x with Some n => VNumber n | None => VNull end.

Definition ser_question (q : DecisionQuestion) : value :=
  match q with
  | QNoul instructions criteria =>
      obj ([(s"type", VString (s"noul")); (s"instructions", instructions)]
             ++ match criteria with Some c => [(s"criteria", v_map VString c)] | None => [] end)
  | QChoice instructions criteria =>
      obj [(s"type", VString (s"choice")); (s"instructions", instructions);
             (s"criteria", v_map (from_option VString VNull) criteria)]
  | QScore instructions criteria =>
      obj [(s"type", VString (s"score")); (s"instructions", instructions);
             (s"criteria", VArray (map VString criteria))]
  end.
Definition ser_decision_request (r : DecisionRequest) : value :=
  obj [(s"provider", VString (dq_provider r)); (s"model", VString (dq_model r));
         (s"state", dq_state r); (s"questions", v_map ser_question (dq_questions r))].
(** [body["model"] = ..] on an object. *)
Definition set_key (key : str) (x v : value) : value :=
  match v with VObject m => VObject (bm_insert key x m) | _ => v end.
Definition payload_for (r : DecisionRequest) (model_in_body : bool) (wrapper : DecisionInputWrapper) : value :=
  let inner := obj [(s"state", dq_state r); (s"questions", v_map ser_question (dq_questions r))] in
  let body := match wrapper with WrapNone => inner | WrapInput => obj [(s"input", inner)] end in
  if model_in_body then set_key (s"model") (VString (dq_model r)) body else body.

Definition reject_if (invalid : bool) (message : str) : result LlmError () :=
  if invalid then Err (llm_new message) else Ok ().
Definition valid_content (v : value) : bool :=
  match v with VString _ | VObject _ | VArray _ => true | _ => false end.
(** [(2..=255).contains(&len)]. *)
Definition option_count_ok (n : nat) : bool := (2 <=? n)%nat && (n <=? 255)%nat.
Definition question_check (q : DecisionQuestion) : result LlmError value :=
  match q with
  | QNoul instructions criteria =>
      _ ← reject_if (match criteria with
                     | Some c => existsb (λ k, negb (k =s s"true") && negb (k =s s"false")) (bm_keys c)
                     | None => false
                     end) (s"Decision noul criteria keys must be true or false");
      Ok instructions
  | QChoice instructions criteria =>
      _ ← reject_if (negb (option_count_ok (length criteria)))
            (s"Decision choice requires between 2 and 255 options");
      Ok instructions
  | QScore instructions criteria =>
      _ ← reject_if (negb (option_count_ok (length criteria)))
            (s"Decision score requires between 2 and 255 levels");
      Ok instructions
  end.
Definition is_blank (x : str) : bool := bool_decide (trim x = []).
Definition request_validate (r : DecisionRequest) : result LlmError () :=
  _ ← reject_if (is_blank (dq_provider r) || is_blank (dq_model r) || bool_decide (length (dq_questions r) = 0))
        (s"Decision provider, model and questions must not be empty");
  _ ← reject_if (negb (valid_content (dq_state r))) (s"Decision state must be a string, object or array");
  foldM (λ _ q,
    instructions ← question_check q;
    reject_if (negb (valid_content instructions))
      (s"Decision instructions must be a string, object or array")) () (bm_values (dq_questions r)).

(** ** Reading a response *)

Definition de_f64 (v : value) : option f64 := as_f64 v.
Definition de_map {A} (de : value → option A) (v : value) : option (bmap A) :=
  match v with VObject m => mapM (λ '(k, x), pair k <$> de x) m | _ => None end.
(** An internally tagged enum: the name of the variant, and its content. *)
Definition de_tagged (v : value) : option (str * value) :=
  match v with
  | VObject m => name ← bm_get (s"type") m ≫= as_str; Some (name, VObject (bm_remove (s"type") m))
  | VArray (VString name :: l) => Some (name, VArray l)
  | _ => None
  end.
Definition noul_fields : list str := [s"noul"].
Definition choice_fields : list str := [s"choice"; s"probabilities"; s"confidence"].
Definition score_fields : list str := [s"score"; s"legend"; s"probabilities"; s"confidence"].
Definition de_noul (v : value) : option DecisionAnswer :=
  if struct_shape true noul_fields v then
    noul ← required de_f64 (struct_field noul_fields v (s"noul"));
    Some (ANoul noul)
  else None.
Definition de_choice (v : value) : option DecisionAnswer :=
  if struct_shape true choice_fields v then
    choice ← required de_string (struct_field choice_fields v (s"choice"));
    probabilities ← required (de_map de_f64) (struct_field choice_fields v (s"probabilities"));
    confidence ← required de_f64 (struct_field choice_fields v (s"confidence"));
    Some (AChoice choice probabilities confidence)
  else None.
Definition de_score (v : value) : option DecisionAnswer :=
  if struct_shape true score_fields v then
    score ← required de_f64 (struct_field score_fields v (s"score"));
    legend ← required (de_map de_string) (struct_field score_fields v (s"legend"));
    probabilities ← required (de_map de_f64) (struct_field score_fields v (s"probabilities"));
    confidence ← required de_f64 (struct_field score_fields v (s"confidence"));
    Some (AScore score legend probabilities confidence)
  else None.
Definition de_answer (v : value) : option DecisionAnswer :=
  '(name, content) ← de_tagged v;
  if name =s s"noul" then de_noul content
  else if name =s s"choice" then de_choice content
  else if name =s s"score" then de_score content
  else None.
Definition usage_fields : list str := [s"input_tokens"; s"output_tokens"].
Definition de_decision_usage (v : value) : option DecisionUsage :=
  if struct_shape true usage_fields v then
    input ← required de_u64 (struct_field usage_fields v (s"input_tokens"));
    output ← required de_u64 (struct_field usage_fields v (s"output_tokens"));
    Some (mkDecisionUsage input output)
  else None.
Definition response_fields : list str := [s"model"; s"answers"; s"usage"].
Definition de_decision_response (v : value) : option DecisionResponse :=
  if struct_shape true response_fields v then
    model ← required de_string (struct_field response_fields v (s"model"));
    answers ← required (de_map de_answer) (struct_field response_fields v (s"answers"));
    usage ← required de_decision_usage (struct_field response_fields v (s"usage"));
    Some (mkDecisionResponse model answers usage)
  else None.

Definition invalid_shape : LlmError := invalid_response (s"invalid System One response shape").
Definition DETAIL_LIMIT : Z := 500.
(** [&x[..limit]]: panics inside a character. *)
Definition slice_to (x : str) (limit : Z) : outcome str :=
  let '(a, _) := split_floor limit x in
  if (str_len a =? limit)%Z then Returns a else Panics.
(** What the envelope says about a failure. *)
Definition error_messages (v : value) : option str :=
  errors ← get (s"errors") v ≫= as_array;
  let detail := join (s"; ") (omap (λ e, match get_str (s"message") e with
                                         | Some m => Some m
                                         | None => as_str e
                                         end) (take 3 errors)) in
  if bool_decide (detail = []) then None else Some detail.
Definition failure_detail_text (v : value) : outcome str :=
  match error_messages v with
  | None => Returns []
  | Some detail =>
      if (DETAIL_LIMIT <? str_len detail)%Z then
        match slice_to detail DETAIL_LIMIT with
        | Returns head => Returns (s": " ++ head ++ [8230%Z])
        | Panics => Panics
        end
      else Returns (s": " ++ detail)
  end.
Definition parse_result_envelope (v : value) : outcome (result LlmError DecisionResponse) :=
  match get (s"result") v with
  | None => Returns (Err invalid_shape)
  | Some r =>
      if bool_decide (get_bool (s"success") v = Some false) then
        match failure_detail_text v with
        | Returns detail => Returns (Err (llm_new (s"decision provider reported failure" ++ detail)))
        | Panics => Panics
        end
      else Returns (ok_or (de_decision_response r) invalid_shape)
  end.
Definition parse_decision_response (v : value) (wrapper : DecisionResponseWrapper) :
    outcome (result LlmError DecisionResponse) :=
  match wrapper with
  | WrapperDirect => Returns (ok_or (de_decision_response v) invalid_shape)
  | WrapperResult => parse_result_envelope v
  | WrapperAuto =>
      match de_decision_response v with
      | Some response => Returns (Ok response)
      | None => parse_result_envelope v
      end
  end.

(** ** The check of an answer *)

Definition f64_abs (x : f64) : f64 := SFabs x.
Definition TOLERANCE : f64 := f64_of_decimal 1 (-5).
Definition unit_interval (x : f64) : bool :=
  f64_is_finite x && (f64_leb f64_zero x && f64_leb x f64_one).
Definition f64_sum (l : list f64) : f64 := foldl f64_add (S754_zero true) l.
Definition validate_probabilities (probabilities : bmap f64) (confidence : f64) : result LlmError () :=
  if negb (unit_interval confidence)
     || existsb (λ x, negb (unit_interval x)) (bm_values probabilities)
     || f64_ltb TOLERANCE (f64_abs (f64_sub (f64_sum (bm_values probabilities)) f64_one))
  then Err (invalid_response (s"Decision probabilities must be finite, between 0 and 1 and sum to 1; confidence must be between 0 and 1"))
  else Ok ().

Definition opt_eqb (a b : option str) : bool := bool_decide (a = b).
Fixpoint legend_matches (index : nat) (legend : bmap str) (criteria : list str) : bool :=
  match criteria with
  | [] => true
  | label :: criteria =>
      opt_eqb (bm_get (show_nat index) legend) (Some label) && legend_matches (S index) legend criteria
  end.
(** A score has at least two levels, by the check of the request. *)
Definition answer_check (q : DecisionQuestion) (a : DecisionAnswer) : result LlmError () :=
  match q, a with
  | QNoul _ _, ANoul noul =>
      if negb (unit_interval noul)
      then Err (invalid_response (s"Decision noul must be finite and between 0 and 1")) else Ok ()
  | QChoice _ criteria, AChoice choice probabilities confidence =>
      _ ← validate_probabilities probabilities confidence;
      if negb (bool_decide (bm_keys probabilities = bm_keys criteria))
         || match bm_get choice probabilities with
            | Some selected => existsb (f64_ltb selected) (bm_values probabilities)
            | None => true
            end
      then Err (invalid_response (s"Decision choice must select a maximum probability option with exactly the declared criteria"))
      else Ok ()
  | QScore _ criteria, AScore score legend probabilities confidence =>
      _ ← validate_probabilities probabilities confidence;
      if negb (bool_decide (length legend = length criteria))
         || negb (legend_matches 0 legend criteria)
         || negb (bool_decide (bm_keys probabilities = bm_keys legend))
         || negb (f64_is_finite score)
         || negb (f64_leb f64_zero score && f64_leb score (f64_of_Z (Z.of_nat (length criteria) - 1)))
      then Err (invalid_response (s"Decision score and legend must match the declared levels"))
      else Ok ()
  | _, _ => Err (invalid_response (s"Decision answer kind must match question kind"))
  end.
Fixpoint check_answers (answers : bmap DecisionAnswer) (questions : list (str * DecisionQuestion)) :
    outcome (result LlmError ()) :=
  match questions with
  | [] => Returns (Ok ())
  | (id, q) :: questions =>
      match bm_get id answers with
      | None => Panics
      | Some a =>
          match answer_check q a with
          | Ok _ => check_answers answers questions
          | Err e => Returns (Err e)
          end
      end
  end.
Definition response_validate (r : DecisionResponse) (request : DecisionRequest) :
    outcome (result LlmError ()) :=
  match request_validate request with
  | Err e => Returns (Err e)
  | Ok _ =>
      if is_blank (dr_model r) || negb (bool_decide (bm_keys (dr_answers r) = bm_keys (dq_questions request)))
      then Returns (Err (invalid_response (s"Decision model must not be empty and answer IDs must match question IDs")))
      else check_answers (dr_answers r) (dq_questions request)
  end.
Definition decision_token_usage (r : DecisionResponse) : TokenUsage :=
  mkTokenUsage (du_input_tokens (dr_usage r)) (du_output_tokens (dr_usage r)) 0 0 0.
Definition ser_answer (a : DecisionAnswer) : value :=
  match a with
  | ANoul noul => obj [(s"type", VString (s"noul")); (s"noul", v_f64 noul)]
  | AChoice choice probabilities confidence =>
      obj [(s"type", VString (s"choice")); (s"choice", VString choice);
           (s"probabilities", v_map v_f64 probabilities); (s"confidence", v_f64 confidence)]
  | AScore score legend probabilities confidence =>
      obj [(s"type", VString (s"score")); (s"score", v_f64 score); (s"legend", v_map VString legend);
           (s"probabilities", v_map v_f64 probabilities); (s"confidence", v_f64 confidence)]
  end.
Definition ser_decision_response (r : DecisionResponse) : value :=
  obj [(s"model", VString (dr_model r)); (s"answers", v_map ser_answer (dr_answers r));
       (s"usage", obj [(s"input_tokens", v_num (du_input_tokens (dr_usage r)));
                       (s"output_tokens", v_num (du_output_tokens (dr_usage r)))])].

(** ** An answer that passed fits its question *)

Definition in_unit (x : f64) : Prop := valid_rate x ∧ f64_leb x f64_one = true.
(** Every probability and the confidence lie between zero and one, and the
    probabilities sum to one up to the tolerance. *)
Definition distribution (probabilities : bmap f64) (confidence : f64) : Prop :=
  in_unit confidence ∧ (∀ k p, bm_get k probabilities = Some p → in_unit p) ∧
  f64_ltb TOLERANCE (f64_abs (f64_sub (f64_sum (bm_values probabilities)) f64_one)) = false.
(** The legend names the declared levels by their position, and nothing else. *)
Definition exact_legend (criteria : list str) (legend : bmap str) : Prop :=
  ∀ k label, bm_get k legend = Some label ↔ ∃ i, k = show_nat i ∧ criteria !! i = Some label.
Inductive answer_fits : DecisionQuestion → DecisionAnswer → Prop :=
| fits_noul instructions criteria x :
    in_unit x → answer_fits (QNoul instructions criteria) (ANoul x)
| fits_choice instructions criteria choice probabilities confidence p :
    distribution probabilities confidence → bm_keys probabilities = bm_keys criteria →
    bm_get choice probabilities = Some p →
    (∀ o p', bm_get o probabilities = Some p' → f64_leb p' p = true) →
    answer_fits (QChoice instructions criteria) (AChoice choice probabilities confidence)
| fits_score instructions criteria score legend probabilities confidence :
    distribution probabilities confidence →
    exact_legend criteria legend → bm_keys probabilities = bm_keys legend →
    valid_rate score → f64_leb score (f64_of_Z (Z.of_nat (length criteria) - 1)) = true →
    answer_fits (QScore instructions criteria) (AScore score legend probabilities confidence).

Lemma leb_zero_valid x : f64_is_finite x = true → f64_leb f64_zero x = true → valid_rate x.
Proof. intros Hf H. split; [done|]. destruct x as [b|b| |[] m e]; done. Qed.
Lemma unit_interval_valid x : unit_interval x = true → in_unit x.
Proof. intros [Hf [H0 H1]%andb_prop]%andb_prop. split; [by apply leb_zero_valid|done]. Qed.
Lemma validate_probabilities_valid m c : validate_probabilities m c = Ok () → distribution m c.
Proof.
  unfold validate_probabilities. case_if; [done|]. intros _.
  apply orb_false_elim in E as [[Ec E]%orb_false_elim Es]. apply negb_false_iff in Ec.
  split; [by apply unit_interval_valid|]. split; [|done]. intros k p Hp. apply unit_interval_valid.
  rewrite <-not_true_iff_false, existsb_exists in E. apply bm_get_elem in Hp.
  destruct (unit_interval p) eqn:Ep; [done|]. exfalso. apply E. exists p. rewrite Ep. split; [|done].
  apply in_map_iff. exists (k, p). split; [done|]. by apply list_elem_of_In.
Qed.
Lemma legend_matches_spec criteria : ∀ index legend, legend_matches index legend criteria = true →
  ∀ i label, criteria !! i = Some label → bm_get (show_nat (index + i)) legend = Some label.
Proof.
  induction criteria as [|c criteria IH]; intros index legend H i label Hi; [done|].
  cbn in H. apply andb_prop in H as [H1 H2]. destruct i as [|i]; cbn in Hi.
  - simplify_eq. rewrite Nat.add_0_r. by apply bool_decide_eq_true in H1.
  - rewrite Nat.add_succ_r, <-Nat.add_succ_l. by apply IH.
Qed.

#[export] Instance show_nat_inj : Inj (=) (=) show_nat.
Proof.
  intros i j E. destruct (show_uint_spec (Z.of_nat i)) as (_ & Hi & _); [lia|].
  destruct (show_uint_spec (Z.of_nat j)) as (_ & Hj & _); [lia|].
  unfold show_nat in E. rewrite E, Hj in Hi. simplify_eq. lia.
Qed.
(** As many entries as levels and every level among them: nothing else. *)
Lemma legend_exact criteria legend :
  length legend = length criteria → legend_matches 0 legend criteria = true → exact_legend criteria legend.
Proof.
  intros Hlen Hm k label. pose proof (legend_matches_spec _ _ _ Hm) as Hget. cbn [plus] in Hget.
  split; [|intros (i & -> & Hi); by apply Hget].
  intros Hk. set (keys := map show_nat (seq 0 (length criteria))).
  assert (Hnd : NoDup keys) by (apply NoDup_fmap_2; [apply _|apply NoDup_seq]).
  assert (Hsub : keys ⊆+ bm_keys legend).
  { apply NoDup_submseteq; [done|]. intros x (i & -> & Hi)%list_elem_of_fmap.
    apply elem_of_seq in Hi. destruct (lookup_lt_is_Some_2 criteria i) as [l Hl]; [lia|].
    apply bm_get_is_Some. exists l. by apply Hget. }
  apply submseteq_length_Permutation in Hsub; [|unfold bm_keys, keys; rewrite !length_map, length_seq; lia].
  assert (Hin : k ∈ keys) by (rewrite Hsub; apply bm_get_is_Some; by exists label).
  apply list_elem_of_fmap in Hin as (i & -> & Hi%elem_of_seq). exists i. split; [done|].
  destruct (lookup_lt_is_Some_2 criteria i) as [l Hl]; [lia|].
  rewrite (Hget i l Hl) in Hk. by simplify_eq.
Qed.
Lemma answer_check_fits q a : answer_check q a = Ok () → answer_fits q a.
Proof.
  destruct q as [i c|i c|i c], a as [x|choice ps conf|score legend ps conf]; cbn; try done.
  - case_if; [done|]. intros _. apply negb_false_iff, unit_interval_valid in E as [? ?]. by constructor.
  - intros H. apply result_bind_Ok in H as ([] & Hp & H). case_if in H; [done|].
    apply orb_false_elim in E as [Hk E]. apply negb_false_iff, bool_decide_eq_true in Hk.
    destruct (bm_get choice ps) as [p|] eqn:Ep; [|done].
    pose proof (validate_probabilities_valid _ _ Hp) as Hv. pose proof Hv as (_ & Hu & _).
    econstructor; [done|done|exact Ep|].
    intros o p' Hp'. apply f64_ltb_leb; [by eapply Hu|by eapply Hu|].
    destruct (f64_ltb p p') eqn:El; [|done]. rewrite <-not_true_iff_false, existsb_exists in E.
    exfalso. apply E. exists p'. split; [|done]. apply in_map_iff. exists (o, p').
    split; [done|]. by apply list_elem_of_In, bm_get_elem.
  - intros H. apply result_bind_Ok in H as ([] & Hp & H). case_if in H; [done|].
    repeat (apply orb_false_elim in E as [E ?E]).
    repeat match goal with Hx : negb _ = false |- _ => apply negb_false_iff in Hx end.
    apply andb_prop in E0 as [? ?]. apply bool_decide_eq_true in E, E2.
    constructor; [by apply validate_probabilities_valid|by apply legend_exact|done|by apply leb_zero_valid|done].
Qed.
Lemma check_answers_total answers questions :
  (∀ id, id ∈ map fst questions → is_Some (bm_get id answers)) →
  ∃ r, check_answers answers questions = Returns r ∧
    (r = Ok () → ∀ id q, (id, q) ∈ questions → ∃ a, bm_get id answers = Some a ∧ answer_fits q a).
Proof.
  induction questions as [|[id q] questions IH]; intros H; cbn.
  { exists (Ok ()). split; [done|]. by intros _ ?? ?%not_elem_of_nil. }
  destruct (H id) as [a Ha]; [by left|]. rewrite Ha.
  destruct (answer_check q a) as [[]|e] eqn:E; [|by exists (Err e)].
  destruct IH as (r & Hr & IH); [intros; apply H; by right|]. exists r. split; [done|].
  intros Hok id' q' [[= -> ->]|Hin]%elem_of_cons; [|by apply IH].
  exists a. split; [done|]. by apply answer_check_fits.
Qed.

(** C37: checking a decision never panics, and an accepted decision answers every
    question by an answer of its kind: a noul lies between zero and one; the
    probabilities of a choice are those of exactly the declared options and none
    is higher than the chosen one's; a score lies between the first and the last
    declared level, its legend gives each declared level its label under its
    position and holds no other entry, and the probabilities have the legend's
    keys. Probabilities and confidence lie between zero and one and the
    probabilities sum to one within the tolerance. *)
Theorem accepted_decision_fits r request : ∃ out, response_validate r request = Returns out ∧
  (out = Ok () → ∀ id q, (id, q) ∈ dq_questions request →
    ∃ a, bm_get id (dr_answers r) = Some a ∧ answer_fits q a).
Proof.
  unfold response_validate. destruct (request_validate request) as [[]|e]; [|by eexists].
  case_if; [by eexists|]. apply orb_false_elim in E as [_ E]. apply negb_false_iff, bool_decide_eq_true in E.
  apply check_answers_total. intros id Hid. apply bm_get_is_Some. by rewrite E.
Qed.

(** ** Reading back what was written *)

(** What [BTreeMap] and JSON numbers guarantee. *)
Definition answer_wf (a : DecisionAnswer) : Prop :=
  match a with
  | ANoul x => f64_is_finite x = true
  | AChoice _ ps c => f64_is_finite c = true ∧ Forall (λ kv, f64_is_finite kv.2 = true) ps
  | AScore x _ ps c =>
      f64_is_finite x = true ∧ f64_is_finite c = true ∧ Forall (λ kv, f64_is_finite kv.2 = true) ps
  end.
Definition response_wf (r : DecisionResponse) : Prop := Forall (λ kv, answer_wf kv.2) (dr_answers r).

Lemma de_v_f64 x : f64_is_finite x = true → de_f64 (v_f64 x) = Some x.
Proof. intros H. unfold v_f64, num_from_f64. by rewrite H. Qed.
Lemma de_map_back {A} (P : A → Prop) (ser : A → value) (de : value → option A) m :
  (∀ x, P x → de (ser x) = Some x) → Forall (λ kv, P kv.2) m → de_map de (v_map ser m) = Some m.
Proof.
  intros H. unfold de_map, v_map. induction m as [|[k x] m IH]; intros Hm; [done|].
  apply Forall_cons in Hm as [Hx Hm]. cbn in *. rewrite (H x Hx). cbn. by rewrite (IH Hm).
Qed.
Lemma de_answer_back a : answer_wf a → de_answer (ser_answer a) = Some a.
Proof.
  assert (Hs : ∀ m, de_map de_string (v_map VString m) = Some m).
  { intros m. apply (de_map_back (λ _, True)); [done|]. by apply Forall_true. }
  destruct a as [x|choice ps c|x legend ps c]; cbn [answer_wf].
  - intros Hx. change (de_answer (ser_answer (ANoul x))) with (n ← de_f64 (v_f64 x); Some (ANoul n)).
    by rewrite de_v_f64.
  - intros [Hc Hp].
    change (de_answer (ser_answer (AChoice choice ps c))) with
      (p ← de_map de_f64 (v_map v_f64 ps); c ← de_f64 (v_f64 c); Some (AChoice choice p c)).
    rewrite (de_map_back (λ x, f64_is_finite x = true)) by (done || apply de_v_f64).
    cbn. by rewrite de_v_f64.
  - intros (Hx & Hc & Hp).
    change (de_answer (ser_answer (AScore x legend ps c))) with
      (x ← de_f64 (v_f64 x); l ← de_map de_string (v_map VString legend);
       p ← de_map de_f64 (v_map v_f64 ps); c ← de_f64 (v_f64 c); Some (AScore x l p c)).
    rewrite (de_v_f64 x), Hs by done. cbn [mbind option_bind].
    rewrite (de_map_back (λ x, f64_is_finite x = true)) by (done || apply de_v_f64).
    cbn. by rewrite de_v_f64.
Qed.
Lemma de_response_back r : response_wf r → de_decision_response (ser_decision_response r) = Some r.
Proof.
  intros H. destruct r as [model answers [i o]].
  change (de_decision_response (ser_decision_response (mkDecisionResponse model answers (mkDecisionUsage i o)))) with
    (a ← de_map de_answer (v_map ser_answer answers);
     Some (mkDecisionResponse model a (mkDecisionUsage i o))).
  by rewrite (de_map_back answer_wf) by (done || apply de_answer_back).
Qed.

(** The envelope of a gateway that wraps its answers. *)
Definition envelope (fields : list (str * value)) (r : DecisionResponse) : value :=
  obj ((s"result", ser_decision_response r) :: fields).

(** A decision is read back from either place it may be found in: at the top
    level by the direct form, under [result] by the envelope form, and from both
    by the automatic form, whose preference never mistakes one for the other. *)
Theorem decision_read_back r : response_wf r →
  let top := ser_decision_response r in
  let enveloped := envelope [(s"success", VBool true)] r in
  parse_decision_response top WrapperDirect = Returns (Ok r) ∧
  parse_decision_response enveloped WrapperResult = Returns (Ok r) ∧
  parse_decision_response top WrapperAuto = Returns (Ok r) ∧
  parse_decision_response enveloped WrapperAuto = Returns (Ok r) ∧
  parse_decision_response enveloped WrapperDirect = Returns (Err invalid_shape) ∧
  parse_decision_response top WrapperResult = Returns (Err invalid_shape).
Proof.
  intros H top enveloped.
  assert (He : parse_result_envelope enveloped = Returns (ok_or (de_decision_response top) invalid_shape))
    by done.
  assert (Hd : de_decision_response enveloped = None) by done.
  unfold parse_decision_response. rewrite He, Hd. unfold top. rewrite de_response_back by done. done.
Qed.

(** ** When reading panics *)

Lemma split_floor_app a : ∀ b, split_floor (str_len a) (a ++ b) = (a, b).
Proof.
  induction a as [|c a IH]; intros b; cbn [str_len app].
  - destruct b as [|c b]; [done|]. cbn. pose proof (utf8_len_pos c).
    by rewrite (proj2 (Z.leb_gt (utf8_len c) 0)) by lia.
  - cbn [split_floor]. pose proof (str_len_nonneg a).
    rewrite (proj2 (Z.leb_le _ _)) by lia.
    replace (utf8_len c + str_len a - utf8_len c)%Z with (str_len a) by lia. by rewrite IH.
Qed.
(** Slicing panics exactly inside a character. *)
Lemma slice_to_panics x limit :
  slice_to x limit = Panics ↔ ∀ a b, x = a ++ b → str_len a ≠ limit.
Proof.
  unfold slice_to. destruct (split_floor limit x) as [a b] eqn:E.
  destruct (Z.eqb_spec (str_len a) limit) as [<-|Hne]; (split; [intros H|intros H]); try done.
  - exfalso. apply split_floor_spec in E as [-> _]. by apply (H a b).
  - intros a' b' -> <-. rewrite split_floor_app in E. by simplify_eq.
Qed.

(** C38: reading a response panics exactly when the provider reports a failure in
    an envelope and the text of its errors is longer than the limit and has a
    character across the limit; every other body is read or refused. *)
Theorem reading_panics_exactly v wrapper :
  parse_decision_response v wrapper = Panics ↔
  wrapper ≠ WrapperDirect ∧ (wrapper = WrapperAuto → de_decision_response v = None) ∧
  is_Some (get (s"result") v) ∧ get_bool (s"success") v = Some false ∧
  ∃ detail, error_messages v = Some detail ∧ (DETAIL_LIMIT < str_len detail)%Z ∧
    ∀ a b, detail = a ++ b → str_len a ≠ DETAIL_LIMIT.
Proof.
  assert (He : parse_result_envelope v = Panics ↔
    is_Some (get (s"result") v) ∧ get_bool (s"success") v = Some false ∧
    ∃ detail, error_messages v = Some detail ∧ (DETAIL_LIMIT < str_len detail)%Z ∧
      ∀ a b, detail = a ++ b → str_len a ≠ DETAIL_LIMIT).
  { unfold parse_result_envelope, failure_detail_text.
    destruct (get (s"result") v) as [r|]; [|split; [done|by intros [[? ?] _]]].
    case_bool_decide as Hs; [|split; [done|by intros (_ & ? & _)]]. rewrite Hs.
    destruct (error_messages v) as [detail|]; [|split; [done|by intros (_ & _ & ? & ? & _)]].
    destruct (Z.ltb_spec DETAIL_LIMIT (str_len detail)) as [Hl|Hl].
    - pose proof (slice_to_panics detail DETAIL_LIMIT) as Hp.
      destruct (slice_to detail DETAIL_LIMIT); (split; [intros H|intros H]); try done.
      + destruct H as (_ & _ & ? & [= <-] & _ & H). by apply Hp in H.
      + split; [done|]. split; [done|]. exists detail. by rewrite <-Hp.
    - split; [done|]. intros (_ & _ & ? & [= <-] & ? & _). lia. }
  unfold parse_decision_response. destruct wrapper.
  - destruct (de_decision_response v) as [r|]; [|rewrite He; naive_solver].
    split; [done|]. intros (_ & H & _). by specialize (H eq_refl).
  - split; [done|by intros [? _]].
  - rewrite He. naive_solver.
Qed.

(** A response a gateway can send: 166 euro signs and more. *)
Definition euro_failure : value :=
  obj [(s"result", VNull); (s"success", VBool false);
       (s"errors", VArray [VString (replicate 200 8364%Z)])].
Lemma euro_failure_panics : parse_decision_response euro_failure WrapperAuto = Panics.
Proof. vm_compute. done. Qed.

Definition demo_request : DecisionRequest :=
  mkDecisionRequest (s"p") (s"m") (VString (s"x"))
    [(s"pick", QChoice (VString (s"which")) [(s"a", None); (s"b", None)])].
Definition demo_decision : DecisionResponse :=
  mkDecisionResponse (s"m")
    [(s"pick", AChoice (s"b") [(s"a", f64_of_decimal 25 (-2)); (s"b", f64_of_decimal 75 (-2))] f64_one)]
    (mkDecisionUsage 10 2).
Lemma demo_decision_accepted : response_validate demo_decision demo_request = Returns (Ok ()).
Proof. vm_compute. done. Qed.
Lemma decision_read_back_witness :
  parse_decision_response (envelope [(s"success", VBool true)] demo_decision) WrapperAuto =
    Returns (Ok demo_decision).
Proof.
  apply (decision_read_back demo_decision). constructor; [|constructor]. split; [vm_compute; done|].
  repeat constructor; vm_compute; done.
Defined.
