(* ===== verification/LlmRequest.v ===== *)
(** * Chat requests and what a route has to support

    The request of [llm/src/types.rs], the analysis of a response schema for
    native structured output ([llm/src/payload.rs]) and the check of a request
    against the capabilities of a route ([llm/src/validate.rs]), which every
    fallback route repeats.  An [f32] is the double it denotes. *)

From S2P Require Import Prelude Str BMap Json Serde LlmRetry LlmParse CostTier EngineTypes LlmDecision.

#[local] Arguments s : simpl never.

(** ** Data *)

Inductive ReasoningEffort : Type :=
| EffortNone | EffortMinimal | EffortLow | EffortMedium | EffortHigh | EffortXhigh | EffortMax.
#[global] Instance ReasoningEffort_eq_dec : EqDecision ReasoningEffort.
Proof. solve_decision. Defined.
Definition effort_str (e : ReasoningEffort) : str :=
  match e with
  | EffortNone => s"none" | EffortMinimal => s"minimal" | EffortLow => s"low"
  | EffortMedium => s"medium" | EffortHigh => s"high" | EffortXhigh => s"xhigh" | EffortMax => s"max"
  end.
Inductive ToolChoiceMode : Type := ModeNone | ModeAuto | ModeRequired.
Inductive ToolChoice : Type := ChoiceMode (mode : ToolChoiceMode) | ChoiceTool (tool : str).
Inductive ResponseVerbosity : Type := VerbLow | VerbMedium | VerbHigh.
Inductive StructuredOutputMode : Type := SoAuto | SoNativeStrict | SoNativeCompatible | SoPrompt.
Inductive PromptCache : Type := CacheAuto | CacheOff.
Inductive CacheWritePolicy : Type := WriteAllow | WriteForbid.
Inductive CacheRetention : Type := RetentionExtended.
Inductive PromptCacheRetention : Type := Retention24h | Ttl12h | Ttl1h.
Inductive ImageDetail : Type := DetailAuto | DetailLow | DetailHigh.
Inductive ChatContentPart : Type :=
| PartText (text : str)
| PartImage (media_type data : str) (detail : option ImageDetail)
| PartAudio (media_type data : str)
| PartFile (media_type data filename : str).
Record ChatToolCall : Type := mkToolCall { tc_id : str; tc_name : str; tc_args : value }.
Record ChatMessage : Type := mkMessage {
  cm_role : str;
  cm_content : str;
  cm_parts : list ChatContentPart;
  cm_tool_calls : list ChatToolCall;
  cm_tool_call_id : option str;
  cm_provider_state : option (list value);
}.
Record ToolSpec : Type := mkToolSpec { ts_name : str; ts_description : str; ts_input_schema : value }.
Inductive SearchContextSize : Type := ContextLow | ContextMedium | ContextHigh.
Record UserLocation : Type := mkUserLocation {
  ul_country : option str;
  ul_region : option str;
  ul_city : option str;
  ul_timezone : option str;
}.
Record ProviderWebSearch : Type := mkProviderWebSearch {
  ws_allowed_domains : list str;
  ws_blocked_domains : list str;
  ws_search_context_size : option SearchContextSize;
  ws_user_location : option UserLocation;
  ws_max_calls : Z;
}.
Record ChatRequest : Type := mkChatRequest {
  cq_provider : str;
  cq_model : str;
  cq_system : option str;
  cq_messages : list ChatMessage;
  cq_tools : list ToolSpec;
  cq_response_schema : option value;
  cq_structured_output : StructuredOutputMode;
  cq_temperature : option f64;
  cq_top_p : option f64;
  cq_max_tokens : Z;
  cq_stop_sequences : list str;
  cq_seed : option Z;
  cq_reasoning_effort : option ReasoningEffort;
  cq_tool_choice : option ToolChoice;
  cq_parallel_tool_calls : option bool;
  cq_verbosity : option ResponseVerbosity;
  cq_stream : bool;
  cq_prompt_cache : PromptCache;
  cq_cache_write : CacheWritePolicy;
  cq_cache_retention : option CacheRetention;
  cq_provider_web_search : option ProviderWebSearch;
}.
Definition request_eta (r : ChatRequest) : ChatRequest :=
  mkChatRequest (cq_provider r) (cq_model r) (cq_system r) (cq_messages r) (cq_tools r)
    (cq_response_schema r) (cq_structured_output r) (cq_temperature r) (cq_top_p r)
    (cq_max_tokens r) (cq_stop_sequences r) (cq_seed r) (cq_reasoning_effort r) (cq_tool_choice r)
    (cq_parallel_tool_calls r) (cq_verbosity r) (cq_stream r) (cq_prompt_cache r)
    (cq_cache_write r) (cq_cache_retention r) (cq_provider_web_search r).
#[global] Instance set_cq_provider : Setter cq_provider := ltac:(derive_setter request_eta cq_provider).
#[global] Instance set_cq_model : Setter cq_model := ltac:(derive_setter request_eta cq_model).

Record Capabilities : Type := mkCapabilities {
  cp_tool_use : bool;
  cp_json_schema : bool;
  cp_structured_output_with_tools : bool;
  cp_seed : bool;
  cp_image_input : bool;
  cp_audio_input : bool;
  cp_file_input : bool;
  cp_streaming : bool;
  cp_temperature : bool;
  cp_top_p : bool;
  cp_stop_sequences : bool;
  cp_tool_choice : bool;
  cp_parallel_tool_calls : bool;
  cp_verbosity : bool;
  cp_prompt_cache : bool;
  cp_web_search : bool;
  cp_reasoning_effort : list ReasoningEffort;
}.

(** ** Native schemas *)

Record NativeSchemaLimits : Type := mkSchemaLimits {
  sl_properties : Z;
  sl_string_chars : Z;
  sl_enum_values : Z;
}.
Definition limits_default : NativeSchemaLimits := mkSchemaLimits 0 0 0.
Definition SUPPORTED : list str :=
  [ s"$defs"; s"$ref"; s"additionalProperties"; s"anyOf"; s"const"; s"description"; s"enum";
    s"exclusiveMaximum"; s"exclusiveMinimum"; s"format"; s"items"; s"maximum"; s"maxItems";
    s"minimum"; s"minItems"; s"multipleOf"; s"pattern"; s"properties"; s"required"; s"title"; s"type" ].
Definition SUPPORTED_TYPES : list str :=
  [ s"object"; s"array"; s"string"; s"number"; s"integer"; s"boolean"; s"null" ].
Definition SUPPORTED_FORMATS : list str :=
  [ s"date-time"; s"time"; s"date"; s"duration"; s"email"; s"hostname"; s"ipv4"; s"ipv6"; s"uuid" ].
Definition TYPE_KEYWORDS : list (list str * list str) :=
  [ ([s"properties"; s"required"; s"additionalProperties"], [s"object"]);
    ([s"items"; s"minItems"; s"maxItems"], [s"array"]);
    ([s"pattern"; s"format"], [s"string"]);
    ([s"minimum"; s"maximum"; s"exclusiveMinimum"; s"exclusiveMaximum"; s"multipleOf"],
     [s"number"; s"integer"]) ].
Definition str_in (x : str) (l : list str) : bool := existsb (str_eqb x) l.
Definition is_str (x : str) (v : value) : bool := match v with VString y => y =s x | _ => false end.
Definition some_and {A} (f : A → bool) (o : option A) : bool :=
  match o with Some x => f x | None => false end.

Definition unsupported_type (v : value) : bool :=
  match v with
  | VString kind => negb (str_in kind SUPPORTED_TYPES)
  | VArray kinds =>
      negb (bool_decide (length kinds = 2)) || negb (existsb (is_str (s"null")) kinds)
      || existsb (λ kind, negb (some_and (λ k, str_in k SUPPORTED_TYPES) (as_str kind))) kinds
  | _ => true
  end.
Definition allows_type (object : bmap value) (expected : str) : bool :=
  match bm_get (s"type") object with
  | Some (VString kind) => kind =s expected
  | Some (VArray kinds) => existsb (is_str expected) kinds
  | _ => false
  end.
Definition misplaced_keyword (object : bmap value) : bool :=
  existsb (λ '(keywords, types),
    existsb (λ keyword, bm_contains keyword object) keywords
    && forallb (λ kind, negb (allows_type object kind)) types) TYPE_KEYWORDS.
Definition nonempty_array (v : value) : bool :=
  some_and (λ items, negb (bool_decide (length items = 0))) (as_array v).
Definition malformed_keyword (object : bmap value) : bool :=
  some_and (λ v, negb (is_object v)) (bm_get (s"properties") object)
  || some_and (λ v, negb (is_object v)) (bm_get (s"$defs") object)
  || some_and (λ v, negb (some_and (forallb is_string) (as_array v))) (bm_get (s"required") object)
  || some_and (λ v, negb (nonempty_array v)) (bm_get (s"enum") object)
  || some_and (λ v, negb (nonempty_array v)) (bm_get (s"anyOf") object).
Definition external_ref (object : bmap value) : bool :=
  some_and (λ v, negb (some_and (λ r, starts_with r (s"#")) (as_str v))) (bm_get (s"$ref") object).
Definition unsupported_format (object : bmap value) : bool :=
  some_and (λ v, negb (some_and (λ f, str_in f SUPPORTED_FORMATS) (as_str v))) (bm_get (s"format") object).
(** The checks of a node before its parts are looked at. *)
Definition refused_node (object : bmap value) : bool :=
  existsb (λ key, negb (str_in key SUPPORTED)) (bm_keys object)
  || some_and unsupported_type (bm_get (s"type") object)
  || misplaced_keyword object || malformed_keyword object
  || external_ref object || unsupported_format object.

Definition chars (x : str) : Z := Z.of_nat (length x).
Definition sum_chars (l : list str) : Z := foldr (λ x n, (chars x + n)%Z) 0%Z l.
Definition count_names (limits : NativeSchemaLimits) (children : bmap value) : NativeSchemaLimits :=
  mkSchemaLimits (sl_properties limits)
    (saturating_add USIZE_MAX (sl_string_chars limits) (sum_chars (bm_keys children)))
    (sl_enum_values limits).
Definition count_properties (limits : NativeSchemaLimits) (children : bmap value) : option NativeSchemaLimits :=
  let properties := saturating_add USIZE_MAX (sl_properties limits) (Z.of_nat (length children)) in
  if (5000 <? properties)%Z then None
  else Some (mkSchemaLimits properties (sl_string_chars limits) (sl_enum_values limits)).
Definition count_enum (limits : NativeSchemaLimits) (object : bmap value) : option NativeSchemaLimits :=
  match bm_get (s"enum") object ≫= as_array with
  | None => Some limits
  | Some values =>
      let enum_values := saturating_add USIZE_MAX (sl_enum_values limits) (Z.of_nat (length values)) in
      let enum_string_chars := sum_chars (omap as_str values) in
      let string_chars := saturating_add USIZE_MAX (sl_string_chars limits) enum_string_chars in
      if (1000 <? enum_values)%Z || ((250 <? length values)%nat && (15000 <? enum_string_chars)%Z)
      then None
      else Some (mkSchemaLimits (sl_properties limits) string_chars enum_values)
  end.
Definition count_const (limits : NativeSchemaLimits) (object : bmap value) : NativeSchemaLimits :=
  match bm_get (s"const") object ≫= as_str with
  | Some v => mkSchemaLimits (sl_properties limits)
                (saturating_add USIZE_MAX (sl_string_chars limits) (chars v)) (sl_enum_values limits)
  | None => limits
  end.
Definition is_boolean (v : value) : bool := match v with VBool _ => true | _ => false end.
Definition required_names (object : bmap value) : option (list str) :=
  (λ items, omap (M:=list) as_str items) <$> (bm_get (s"required") object ≫= as_array).
Definition undeclared_required (object : bmap value) : bool :=
  match required_names object, bm_get (s"properties") object ≫= as_object with
  | Some required, Some properties => existsb (λ name, negb (bm_contains name properties)) required
  | _, _ => false
  end.
Definition schema_allows_object (object : bmap value) : bool :=
  match bm_get (s"type") object with
  | Some (VString kind) => kind =s s"object"
  | Some (VArray kinds) => existsb (is_str (s"object")) kinds
  | _ => bm_contains (s"properties") object
  end.
(** An object schema is strict when it is closed and all its properties are
    required. *)
Definition closed_object (object : bmap value) : bool :=
  negb (schema_allows_object object)
  || bool_decide (bm_get (s"additionalProperties") object ≫= as_bool = Some false)
     && is_none_or (bm_get (s"properties") object ≫= as_object) (λ properties,
          forallb (λ name, str_in name (default [] (required_names object))) (bm_keys properties)).

(** A loop over sub-schemas that threads the limits and the verdict. *)
Fixpoint analyse_all (analyse : value → NativeSchemaLimits → option (bool * NativeSchemaLimits))
    (schemas : list value) (acc : bool * NativeSchemaLimits) : option (bool * NativeSchemaLimits) :=
  match schemas with
  | [] => Some acc
  | schema :: schemas =>
      '(strict, limits) ← analyse schema acc.2;
      analyse_all analyse schemas (acc.1 && strict, limits)
  end.
Definition object_values (key : str) (object : bmap value) : list value :=
  from_option bm_values [] (bm_get key object ≫= as_object).
(** [native_schema_node_compatible]; [levels] is the depth still allowed. *)
Fixpoint native_schema_node (classify_strict : bool) (levels : nat) (schema : value)
    (limits : NativeSchemaLimits) : option (bool * NativeSchemaLimits) :=
  match schema, levels with
  | VObject object, S levels =>
      if refused_node object then None
      else
        let analyse := native_schema_node classify_strict levels in
        limits ← match bm_get (s"properties") object ≫= as_object with
                 | Some children => limits ← count_properties limits children; Some (count_names limits children)
                 | None => Some limits
                 end;
        acc ← analyse_all analyse (object_values (s"properties") object) (classify_strict, limits);
        let limits := match bm_get (s"$defs") object ≫= as_object with
                      | Some children => count_names acc.2 children
                      | None => acc.2
                      end in
        acc ← analyse_all analyse (object_values (s"$defs") object) (acc.1, limits);
        limits ← count_enum acc.2 object;
        let limits := count_const limits object in
        if (120000 <? sl_string_chars limits)%Z then None
        else
          acc ← match bm_get (s"items") object with
                | Some nested =>
                    if is_boolean nested then Some (acc.1, limits)
                    else analyse_all analyse [nested] (acc.1, limits)
                | None => Some (acc.1, limits)
                end;
          if some_and (λ v, negb (is_boolean v)) (bm_get (s"additionalProperties") object)
             || undeclared_required object
          then None
          else
            acc ← analyse_all analyse (default [] (bm_get (s"anyOf") object ≫= as_array)) acc;
            Some (acc.1 && closed_object object, acc.2)
  | _, _ => None
  end.
(** The root is at depth one of ten. *)
Definition native_schema_analysis (schema : value) (classify_strict : bool) : option bool :=
  match schema with
  | VObject root =>
      if negb (bool_decide (bm_get (s"type") root ≫= as_str = Some (s"object")))
         || bm_contains (s"anyOf") root
      then None
      else fst <$> native_schema_node classify_strict 10 schema limits_default
  | _ => None
  end.
Definition native_schema_classification (schema : value) : option bool :=
  native_schema_analysis schema true.
Definition native_response_schema (r : ChatRequest) : option (value * bool) :=
  schema ← cq_response_schema r;
  match cq_structured_output r with
  | SoPrompt => None
  | SoNativeStrict => Some (schema, true)
  | SoNativeCompatible => Some (schema, false)
  | SoAuto => pair schema <$> native_schema_classification schema
  end.

(** ** Capabilities of a route *)

(** [dyn LlmProvider], as far as a gateway asks it about its models. *)
Record ProviderTraits : Type := mkProviderTraits {
  pt_configuration_error : str → option str;
  pt_capabilities : str → str → option Capabilities;
  pt_prompt_cache_retention : str → str → option PromptCacheRetention;
  pt_retry_policy : RetryPolicy;
}.

Definition is_some {A} (o : option A) : bool := match o with Some _ => true | None => false end.
Definition part_capability (c : Capabilities) (part : ChatContentPart) : bool * str :=
  match part with
  | PartText _ => (true, s"text_input")
  | PartImage _ _ _ => (cp_image_input c, s"image_input")
  | PartAudio _ _ => (cp_audio_input c, s"audio_input")
  | PartFile _ _ _ => (cp_file_input c, s"file_input")
  end.
Definition validate_multimodal_capabilities (r : ChatRequest) (c : Capabilities) : result LlmError () :=
  foldM (λ _ part,
    let '(supported, capability) := part_capability c part in
    if supported then Ok ()
    else Err (llm_new (s"provider `" ++ cq_provider r ++ s"` does not advertise support for `"
                       ++ capability ++ s"`")))
    () (concat (map cm_parts (cq_messages r))).
(** Required, supported, name. *)
Definition capability_rows (r : ChatRequest) (c : Capabilities) : list (bool * bool * str) :=
  let native := is_some (native_response_schema r) in
  let tools := negb (bool_decide (length (cq_tools r) = 0)) in
  [ (tools, cp_tool_use c, s"tool_use");
    (native, cp_json_schema c, s"json_schema");
    (native && tools, cp_structured_output_with_tools c, s"structured_output_with_tools");
    (is_some (cq_seed r), cp_seed c, s"seed");
    (cq_stream r, cp_streaming c, s"streaming");
    (is_some (cq_temperature r), cp_temperature c, s"temperature");
    (is_some (cq_top_p r), cp_top_p c, s"top_p");
    (negb (bool_decide (length (cq_stop_sequences r) = 0)), cp_stop_sequences c, s"stop_sequences");
    (is_some (cq_tool_choice r), cp_tool_choice c, s"tool_choice");
    (is_some (cq_parallel_tool_calls r), cp_parallel_tool_calls c, s"parallel_tool_calls");
    (is_some (cq_verbosity r), cp_verbosity c, s"verbosity");
    (match cq_prompt_cache r with CacheAuto => true | CacheOff => false end, cp_prompt_cache c,
     s"prompt_cache");
    (is_some (cq_provider_web_search r), cp_web_search c, s"web_search") ].
Definition route_name (r : ChatRequest) : str :=
  s"LLM route `" ++ cq_provider r ++ s"/" ++ cq_model r ++ s"` ".
Definition validate_request_capabilities (r : ChatRequest) (c : Capabilities) : result LlmError () :=
  _ ← validate_multimodal_capabilities r c;
  _ ← foldM (λ _ '(required, supported, name),
        if required && negb supported
        then Err (llm_new (route_name r ++ s"does not support " ++ name)) else Ok ())
        () (capability_rows r c);
  match cq_reasoning_effort r with
  | Some effort =>
      if negb (bool_decide (effort ∈ cp_reasoning_effort c))
      then Err (llm_new (route_name r ++ s"does not support reasoning_effort `" ++ effort_str effort ++ s"`"))
      else Ok ()
  | None => Ok ()
  end.
Definition validate_route_capabilities (p : ProviderTraits) (r : ChatRequest) : result LlmError () :=
  match pt_configuration_error p (cq_provider r) with
  | Some error => Err (llm_new error)
  | None =>
      c ← ok_or (pt_capabilities p (cq_provider r) (cq_model r))
            (llm_new (s"LLM provider `" ++ cq_provider r ++ s"` is not registered"));
      _ ← reject_if (is_some (cq_cache_retention r)
                     && negb (is_some (pt_prompt_cache_retention p (cq_provider r) (cq_model r))))
            (s"LLM route does not declare extended cache retention");
      validate_request_capabilities r c
  end.

(** ** A strict schema is closed throughout *)

(** The schemas directly below a node. *)
Definition child_of (object : bmap value) (child : value) : Prop :=
  child ∈ object_values (s"properties") object ∨ child ∈ object_values (s"$defs") object ∨
  bm_get (s"items") object = Some child ∨
  child ∈ default [] (bm_get (s"anyOf") object ≫= as_array).
Inductive subschema : value → value → Prop :=
| sub_here v : subschema v v
| sub_below object child v : child_of object child → subschema child v → subschema (VObject object) v.

Lemma analyse_all_true f schemas : ∀ acc limits,
  analyse_all f schemas acc = Some (true, limits) →
  acc.1 = true ∧ ∀ v, v ∈ schemas → ∃ l l', f v l = Some (true, l').
Proof.
  induction schemas as [|v schemas IH]; intros acc limits H; cbn in H.
  { simplify_eq. split; [done|]. by intros v ?%not_elem_of_nil. }
  apply bind_Some in H as ([strict l] & Hv & H). apply IH in H as [[Ha Hs]%andb_prop H]. cbn in Hs. subst strict.
  split; [done|]. intros w [->|Hw]%elem_of_cons; [by eexists _, _|by apply H].
Qed.

Lemma native_schema_node_true c levels v limits limits' :
  native_schema_node c levels v limits = Some (true, limits') →
  ∃ object below, v = VObject object ∧ levels = S below ∧
    refused_node object = false ∧ closed_object object = true ∧
    ∀ child, child_of object child →
      (bm_get (s"items") object = Some child ∧ is_boolean child = true) ∨
      ∃ l l', native_schema_node c below child l = Some (true, l').
Proof.
  destruct v as [| | | | |object], levels as [|below]; try done. cbn [native_schema_node].
  case_if; [done|]. intros H. apply bind_Some in H as (l1 & _ & H).
  apply bind_Some in H as ([s1 l2] & H1 & H). apply bind_Some in H as ([s2 l3] & H2 & H).
  apply bind_Some in H as (l4 & _ & H). case_if in H; [done|].
  apply bind_Some in H as ([s3 l5] & H3 & H). case_if in H; [done|].
  apply bind_Some in H as ([s4 l6] & H4 & H). injection H as H _.
  apply andb_prop in H as [Hs4 Hclosed]. cbn in Hs4. subst s4.
  apply analyse_all_true in H4 as [Hs3 H4]. cbn in Hs3. subst s3.
  assert (s2 = true ∧ ∀ child, bm_get (s"items") object = Some child → is_boolean child = true ∨
    ∃ l l', native_schema_node c below child l = Some (true, l')) as [-> H3'].
  { destruct (bm_get (s"items") object) as [nested|]; [|by simplify_eq].
    destruct (is_boolean nested) eqn:Eb; [simplify_eq; split; [done|]; intros; simplify_eq; by left|].
    apply (analyse_all_true _ [nested]) in H3 as [Hs H3]. split; [done|].
    intros child [= <-]. right. apply H3. by left. }
  apply analyse_all_true in H2 as [Hs1 H2]. cbn in Hs1. subst s1. apply analyse_all_true in H1 as [_ H1].
  exists object, below. do 4 (split; [done|]).
  intros child [Hc|[Hc|[Hi|Hc]]]; [right; by apply H1|right; by apply H2| |right; by apply H4].
  destruct (H3' child Hi) as [Hb|Hb]; [by left|by right].
Qed.

Definition OBJECT_KEYWORDS : list str := [s"properties"; s"required"; s"additionalProperties"].
Definition ARRAY_KEYWORDS : list str := [s"items"; s"minItems"; s"maxItems"].
(** A node whose type includes objects forbids additional properties and requires
    each property it declares. *)
Definition closed_properties (object : bmap value) : Prop :=
  bm_get (s"additionalProperties") object = Some (VBool false) ∧
  ∀ properties name, bm_get (s"properties") object = Some (VObject properties) →
    name ∈ bm_keys properties →
    ∃ required, bm_get (s"required") object = Some (VArray required) ∧ VString name ∈ required.
(** A node is a boolean (below [items] only, by [parts]) or an object: its
    references stay inside the document; objects are closed where its type
    includes them, and no keyword speaks of objects or arrays where it does not.
    A node without a type constrains neither. *)
Inductive closed_schema : value → Prop :=
| closed_flag b : closed_schema (VBool b)
| closed_node object
    (local : external_ref object = false)
    (closed : allows_type object (s"object") = true → closed_properties object)
    (objects : allows_type object (s"object") = false →
      ∀ key, key ∈ OBJECT_KEYWORDS → bm_contains key object = false)
    (arrays : allows_type object (s"array") = false →
      ∀ key, key ∈ ARRAY_KEYWORDS → bm_contains key object = false)
    (parts : ∀ child, child_of object child → is_object child = true ∨
      bm_get (s"items") object = Some child ∧ is_boolean child = true) :
    closed_schema (VObject object).

Lemma closed_object_spec object : closed_object object = true →
  schema_allows_object object = true → closed_properties object.
Proof.
  intros H Ha. apply orb_prop in H as [H|H]; [by rewrite Ha in H|].
  apply andb_prop in H as [H1%bool_decide_eq_true H2].
  split; [apply bind_Some in H1 as (v & -> & H1); destruct v; cbn in H1; congruence|].
  intros properties name Hp Hn. rewrite Hp in H2. cbn in H2.
  rewrite forallb_forall in H2. apply list_elem_of_In, H2 in Hn. unfold required_names in Hn.
  destruct (bm_get (s"required") object) as [[| | | |required|]|]; try done.
  exists required. split; [done|]. apply existsb_exists in Hn as (x & Hx & ->%str_eqb_eq).
  apply list_elem_of_In, list_elem_of_omap in Hx as (v & Hv & Hs). by destruct v; simplify_eq/=.
Qed.
Lemma allows_object_type object :
  allows_type object (s"object") = true → schema_allows_object object = true.
Proof. unfold allows_type, schema_allows_object. by destruct (bm_get _ _) as [[]|]. Qed.
(** The keywords of a type are refused where the type is not allowed. *)
Lemma placed_keywords object keywords kind : misplaced_keyword object = false →
  (keywords, [kind]) ∈ TYPE_KEYWORDS → allows_type object kind = false →
  ∀ key, key ∈ keywords → bm_contains key object = false.
Proof.
  unfold misplaced_keyword. rewrite <-not_true_iff_false, existsb_exists. intros H Hin Ha key Hkey.
  destruct (bm_contains key object) eqn:E; [|done]. exfalso. apply H. exists (keywords, [kind]).
  split; [by apply list_elem_of_In|]. apply andb_true_intro. split; [|cbn; by rewrite Ha].
  apply existsb_exists. exists key. split; [by apply list_elem_of_In|done].
Qed.
Lemma accepted_node_closed object :
  refused_node object = false → closed_object object = true →
  (∀ child, child_of object child → is_object child = true ∨
    bm_get (s"items") object = Some child ∧ is_boolean child = true) →
  closed_schema (VObject object).
Proof.
  unfold refused_node. intros Hr Hc Hp.
  apply orb_false_elim in Hr as [[[[_ Hm]%orb_false_elim _]%orb_false_elim He]%orb_false_elim _].
  constructor; [done| | | |done].
  - intros Ha. by apply closed_object_spec, allows_object_type.
  - apply (placed_keywords _ _ _ Hm). by left.
  - apply (placed_keywords _ _ _ Hm). right. by left.
Qed.

(** What the analysis calls strict is closed, whichever way one descends. *)
Lemma strict_schema_closed schema sub :
  native_schema_classification schema = Some true → subschema schema sub → closed_schema sub.
Proof.
  intros Hn Hsub.
  assert (∃ levels l l', native_schema_node true levels schema l = Some (true, l')) as (levels & l & l' & H).
  { unfold native_schema_classification, native_schema_analysis in Hn.
    destruct schema as [| | | | |root]; try done. case_if in Hn; [done|].
    apply fmap_Some in Hn as ([b l] & H & [= <-]). by eexists _, _, _. }
  clear Hn. revert levels l l' H.
  induction Hsub as [v|object child v Hc Hsub IH]; intros levels l l' H;
    apply native_schema_node_true in H as (o & below & E & -> & Hr & Hcl & Hp).
  - subst v. apply accepted_node_closed; [done..|]. intros child Hc.
    destruct (Hp child Hc) as [Hb|(l1 & l2 & Hn)]; [by right|left].
    by destruct child, below.
  - simplify_eq. destruct (Hp child Hc) as [[_ Hb]|(l1 & l2 & Hn)]; [|by eapply IH].
    destruct child as [|b| | | |]; try done. inversion Hsub; subst. constructor.
Qed.
(** What passes as strict may still leave parts open: items of any kind, and a
    property without a type. *)
Lemma open_parts_pass :
  let strict fields := native_schema_classification (obj
    ((s"type", VString (s"object")) :: (s"additionalProperties", VBool false)
     :: (s"required", VArray [VString (s"a")]) :: fields)) = Some true in
  strict [(s"properties", obj [(s"a", obj [(s"type", VString (s"array")); (s"items", VBool true)])])] ∧
  strict [(s"properties", obj [(s"a", obj [])])].
Proof. vm_compute. done. Qed.

(** Each fallback route supports what the request asks for. *)
Lemma capable_supports r c : validate_request_capabilities r c = Ok () →
  ∀ supported name, (true, supported, name) ∈ capability_rows r c → supported = true.
Proof.
  unfold validate_request_capabilities. intros H supported name Hin.
  apply result_bind_Ok in H as (_ & _ & H). apply result_bind_Ok in H as ([] & H & _).
  assert (Hrow : ∀ u row, (λ (_ : ()) '(required, supported, name),
      if required && negb supported
      then Err (llm_new (route_name r ++ s"does not support " ++ name)) else Ok ()) u row = Ok () ↔
    (λ '(required, supported, _), required = true → supported = true) row).
  { intros u [[[] []] n]; cbn; (split; [intros Hr|intros Hr]); try done; by specialize (Hr eq_refl). }
  by apply (proj1 (foldM_unit_ok _ _ _ Hrow) H _ Hin).
Qed.

Definition demo_schema : value :=
  let closed fields := obj ((s"type", VString (s"object")) :: (s"additionalProperties", VBool false) :: fields) in
  closed [(s"required", VArray [VString (s"a")]);
          (s"properties", obj [(s"a", obj [(s"type", VString (s"array")); (s"items", closed [])])])].
Definition demo_items : value :=
  obj [(s"type", VString (s"object")); (s"additionalProperties", VBool false)].
Lemma demo_items_below : subschema demo_schema demo_items.
Proof.
  apply (sub_below _ (obj [(s"type", VString (s"array")); (s"items", demo_items)])); [left; by left|].
  apply (sub_below _ demo_items); [|constructor]. right. right. by left.
Qed.
