(* ===== verification/LlmPayload.v ===== *)
(** * Requests on the wire

    What the HTTP provider checks before it sends a chat request
    ([llm/src/validate.rs], [policy/src/schema.rs], the cache and search checks
    of [llm/src/http_provider.rs]) and the three request bodies it builds
    ([llm/src/payload.rs]).  The compiler of JSON schemas and the text form of
    JSON are parameters. *)

From S2P Require Import Prelude Str TraceIds BMap Json Serde LlmRetry LlmParse LlmStream EngineTypes LlmDecision LlmRequest.

#[local] Arguments s : simpl never.

(** ** Bounded schemas *)

Definition MAX_JSON_SCHEMA_BYTES : Z := 262144.
Definition MAX_JSON_SCHEMA_DEPTH : nat := 64.
Definition MAX_JSON_SCHEMA_NODES : nat := 8192.
Definition MAX_JSON_SCHEMA_OBJECT_MEMBERS : nat := 1024.
Definition MAX_JSON_SCHEMA_STRING_BYTES : Z := 16384.

(** [jsonschema::options()..build(schema)]: the text of the error, if any. *)
Class SchemaCompiler := { schema_build : value → option str }.

Definition reference_key (name : str) : bool :=
  str_in name [s"$ref"; s"$dynamicRef"; s"$recursiveRef"].
Definition outside_ref (v : value) : bool := some_and (λ r, negb (starts_with r (s"#"))) (as_str v).
Definition member_check (member : str * value) : result str () :=
  let '(name, v) := member in
  if (MAX_JSON_SCHEMA_STRING_BYTES <? str_len name)%Z
  then Err (s"schema property name exceeds 16384 bytes")
  else if reference_key name && outside_ref v then Err (s"schema contains an external reference")
  else Ok ().
(** The arms of a popped value: what is pushed, in order. *)
Definition node_children (v : value) : result str (list value) :=
  match v with
  | VArray l => Ok l
  | VObject m =>
      if (MAX_JSON_SCHEMA_OBJECT_MEMBERS <? length m)%nat
      then Err (s"schema object exceeds 1024 members")
      else _ ← foldM (λ _, member_check) () m; Ok (bm_values m)
  | VString x =>
      if (MAX_JSON_SCHEMA_STRING_BYTES <? str_len x)%Z
      then Err (s"schema string exceeds 16384 bytes") else Ok []
  | _ => Ok []
  end.
(** The loop over the stack, its top first; [room] is how many values may still
    be popped before the count of values exceeds its limit. *)
Fixpoint check_stack (room : nat) (stack : list (value * nat)) : result str () :=
  match stack with
  | [] => Ok ()
  | (v, depth) :: stack =>
      match room with
      | O => Err (s"schema exceeds 8192 JSON values")
      | S room =>
          if (MAX_JSON_SCHEMA_DEPTH <? depth)%nat then Err (s"schema nesting exceeds 64 levels")
          else
            children ← node_children v;
            check_stack room (reverse (map (λ child, (child, S depth)) children) ++ stack)
      end
  end.

Section schemas.
Context {J : JsonText} {SC : SchemaCompiler}.
(** Encoding a value does not fail. *)
Definition check_bounded_json_schema (schema : value) : result str () :=
  if (MAX_JSON_SCHEMA_BYTES <? str_len (json_to_string schema))%Z
  then Err (s"schema exceeds 262144 bytes")
  else check_stack MAX_JSON_SCHEMA_NODES [(schema, 0%nat)].
Definition compile_bounded_validator (schema : value) : result str () :=
  _ ← check_bounded_json_schema schema;
  match schema_build schema with Some error => Err error | None => Ok () end.

(** ** Checks before a request is sent *)

Definition strict_schema_syntax_compatible (schema : value) : bool :=
  bool_decide (native_schema_classification schema = Some true).
Definition native_schema_syntax_compatible (schema : value) : bool :=
  is_some (native_schema_analysis schema false).
Definition native_schema_compatible (schema : value) : bool :=
  native_schema_syntax_compatible schema
  && match compile_bounded_validator schema with Ok _ => true | Err _ => false end.
Definition strict_schema_compatible (schema : value) : bool :=
  strict_schema_syntax_compatible schema
  && match compile_bounded_validator schema with Ok _ => true | Err _ => false end.
Definition valid_media_type (media_type : str) : bool :=
  match split_once 47 media_type with
  | None => false
  | Some (kind, subtype) =>
      negb (bool_decide (kind = [])) && negb (bool_decide (subtype = []))
      && forallb (λ c, is_ascii_alphanumeric c || existsb (Z.eqb c) [47; 43; 46; 45]%Z) media_type
  end.
Definition in_range (low high x : f64) : bool := f64_is_finite x && (f64_leb low x && f64_leb x high).
Definition validate_tool_input_schema (name : str) (schema : value) (api : ApiFlavor) : result LlmError () :=
  _ ← reject_if (negb (bool_decide (get_str (s"type") schema = Some (s"object"))))
        (s"tool `" ++ name ++ s"` input_schema root must have type `object`");
  _ ← match api, as_object schema with
      | AnthropicMessages, Some object =>
          match List.find (λ keyword, bm_contains keyword object) [s"oneOf"; s"anyOf"; s"allOf"] with
          | Some keyword =>
              Err (llm_new (s"tool `" ++ name ++ s"` input_schema uses top-level `" ++ keyword
                            ++ s"` which Anthropic input_schema rejects"))
          | None => Ok ()
          end
      | _, _ => Ok ()
      end;
  map_err (λ error, llm_new (s"tool `" ++ name ++ s"` input_schema is invalid: " ++ error))
    (compile_bounded_validator schema).
Definition validate_response_schema (r : ChatRequest) : result LlmError () :=
  match cq_response_schema r with
  | None => Ok ()
  | Some schema =>
      _ ← map_err (λ error, llm_new (s"response_schema is invalid: " ++ error))
            (compile_bounded_validator schema);
      match cq_structured_output r with
      | SoNativeStrict =>
          reject_if (negb (strict_schema_syntax_compatible schema))
            (s"native_strict response_schema contains unsupported keywords or is not fully closed")
      | SoNativeCompatible =>
          reject_if (negb (native_schema_syntax_compatible schema))
            (s"native_compatible response_schema contains unsupported keywords")
      | _ => Ok ()
      end
  end.
(** The loop over the tools, with the names seen so far. *)
Fixpoint validate_tools (api : ApiFlavor) (tool_names : list str) (tools : list ToolSpec) : result LlmError () :=
  match tools with
  | [] => Ok ()
  | tool :: tools =>
      _ ← reject_if (is_blank (ts_name tool)) (s"tool name must not be empty");
      _ ← reject_if (ts_name tool =s s"response") (s"tool name `response` is reserved for structured output");
      _ ← reject_if (str_in (ts_name tool) tool_names)
            (s"duplicate tool name `" ++ ts_name tool ++ s"`");
      _ ← validate_tool_input_schema (ts_name tool) (ts_input_schema tool) api;
      validate_tools api (ts_name tool :: tool_names) tools
  end.
Definition is_empty {A} (l : list A) : bool := match l with [] => true | _ => false end.
Definition media_check (api : ApiFlavor) (media_type data : str) (audio : bool) : result LlmError () :=
  _ ← reject_if (negb (valid_media_type media_type) || is_empty data)
        (s"multimodal content requires a valid MIME type and non-empty base64 data");
  reject_if (match api with AnthropicMessages => audio | _ => false end)
    (s"Anthropic Messages does not support audio input content parts").
Definition part_check (api : ApiFlavor) (part : ChatContentPart) : result LlmError () :=
  match part with
  | PartText text => reject_if (is_empty text) (s"text content parts must not be empty")
  | PartImage media_type data _ => media_check api media_type data false
  | PartAudio media_type data => media_check api media_type data true
  | PartFile media_type data _ => media_check api media_type data false
  end.
Definition message_check (api : ApiFlavor) (m : ChatMessage) : result LlmError () :=
  _ ← reject_if (is_some (cm_provider_state m) && match api with Responses => false | _ => true end)
        (s"provider state messages are only valid for the Responses API");
  _ ← reject_if ((cm_role m =s s"tool") && is_none_or (cm_tool_call_id m) is_empty)
        (s"tool result is missing its tool call id");
  _ ← reject_if (negb (is_empty (cm_parts m)) && negb (cm_role m =s s"user"))
        (s"multimodal content parts are only valid on user messages");
  _ ← foldM (λ _, part_check api) () (cm_parts m);
  if is_empty (cm_tool_calls m) then Ok ()
  else
    _ ← reject_if (negb (cm_role m =s s"assistant")) (s"tool calls must be carried by an assistant message");
    reject_if (existsb (λ call, is_empty (tc_id call) || is_empty (tc_name call)) (cm_tool_calls m))
      (s"assistant tool calls must include non-empty ids and names").
Definition choice_check (r : ChatRequest) : result LlmError () :=
  match cq_tool_choice r with
  | Some (ChoiceTool tool) =>
      reject_if (is_blank tool || negb (existsb (λ candidate, ts_name candidate =s tool) (cq_tools r)))
        (s"tool_choice.tool must name one of the request tools")
  | _ => Ok ()
  end.
(** Anthropic forces its response tool. *)
Definition owns_tool_choice (r : ChatRequest) (api : ApiFlavor) : bool :=
  match api with AnthropicMessages => true | _ => false end
  && is_some (cq_response_schema r)
  && match cq_structured_output r with SoPrompt => false | _ => true end
  && some_and (λ choice, match choice with ChoiceMode ModeAuto => false | _ => true end) (cq_tool_choice r).
Definition validate_chat_request (r : ChatRequest) (api : ApiFlavor) : result LlmError () :=
  let sampling := is_some (cq_temperature r) || is_some (cq_top_p r) in
  let reasoning := is_some (cq_reasoning_effort r) in
  _ ← reject_if (match api with SystemOne => true | _ => false end)
        (s"system_one requires llm.decide, not a chat request");
  _ ← reject_if (cq_max_tokens r =? 0)%Z (s"max_tokens must be greater than zero");
  _ ← reject_if (some_and (λ x, negb (in_range f64_zero (f64_of_Z 2) x)) (cq_temperature r))
        (s"temperature must be finite and between 0 and 2");
  _ ← reject_if (some_and (λ x, negb (in_range f64_zero f64_one x)) (cq_top_p r))
        (s"top_p must be finite and between 0 and 1");
  _ ← reject_if (is_some (cq_temperature r) && is_some (cq_top_p r))
        (s"temperature and top_p are mutually exclusive");
  _ ← reject_if (reasoning && sampling)
        (s"temperature and top_p must be omitted when reasoning_effort is set");
  _ ← reject_if (reasoning && is_some (cq_seed r)) (s"seed must be omitted when reasoning_effort is set");
  _ ← reject_if ((8 <? length (cq_stop_sequences r))%nat
                 || existsb (λ x, is_empty x || (1024 <? str_len x)%Z) (cq_stop_sequences r))
        (s"stop_sequences must contain at most 8 non-empty strings of at most 1024 bytes");
  _ ← reject_if ((is_some (cq_tool_choice r) || is_some (cq_parallel_tool_calls r)) && is_empty (cq_tools r))
        (s"tool_choice and parallel_tool_calls require at least one tool");
  _ ← choice_check r;
  _ ← reject_if (owns_tool_choice r api) (s"Anthropic native structured output owns tool_choice");
  _ ← validate_response_schema r;
  _ ← validate_tools api [] (cq_tools r);
  foldM (λ _, message_check api) () (cq_messages r).
End schemas.

Definition validate_structured_output_capabilities (r : ChatRequest) (api : ApiFlavor) (c : Capabilities) :
    result LlmError () :=
  match cq_response_schema r with
  | None => Ok ()
  | Some _ =>
      let uses_native := is_some (native_response_schema r) in
      _ ← reject_if (uses_native && negb (cp_json_schema c))
            (s"provider does not support native structured output");
      if is_empty (cq_tools r) then Ok ()
      else
        _ ← reject_if (uses_native && negb (cp_structured_output_with_tools c))
              (s"provider does not support native structured output with external tools");
        reject_if (uses_native && match api with AnthropicMessages => true | _ => false end)
          (s"Anthropic Messages cannot force response while external tools are available")
  end.

(** ** Messages and tools *)

(** [v[key] = x]: a null becomes an object.  Every [v] below is an object or
    null; on other values the source would panic. *)
Definition assign (key : str) (x v : value) : value :=
  match v with
  | VObject m => VObject (bm_insert key x m)
  | VNull => obj [(key, x)]
  | _ => v
  end.
Definition set_optional {A} (key : str) (ser : A → value) (x : option A) (v : value) : value :=
  match x with Some x => assign key (ser x) v | None => v end.
Definition strings (l : list str) : value := VArray (map VString l).
Definition mode_str (mode : ToolChoiceMode) : str :=
  match mode with ModeNone => s"none" | ModeAuto => s"auto" | ModeRequired => s"required" end.
Definition verbosity_str (v : ResponseVerbosity) : str :=
  match v with VerbLow => s"low" | VerbMedium => s"medium" | VerbHigh => s"high" end.
Definition detail_str (d : ImageDetail) : str :=
  match d with DetailAuto => s"auto" | DetailLow => s"low" | DetailHigh => s"high" end.
Definition context_str (c : SearchContextSize) : str :=
  match c with ContextLow => s"low" | ContextMedium => s"medium" | ContextHigh => s"high" end.

Definition data_url (media_type data : str) : str := s"data:" ++ media_type ++ s";base64," ++ data.
Definition media_subtype (media_type : str) : str :=
  match split_once 47 media_type with Some (_, subtype) => subtype | None => media_type end.
Definition typed_text (text_type text : str) : value :=
  obj [(s"type", VString text_type); (s"text", VString text)].
Definition message_content (m : ChatMessage) (text_type : str) (encode : ChatContentPart → value) : value :=
  if is_empty (cm_parts m) then VString (cm_content m)
  else VArray ((if is_empty (cm_content m) then [] else [typed_text text_type (cm_content m)])
               ++ map encode (cm_parts m)).
Definition openai_part (responses : bool) (text_type : str) (part : ChatContentPart) : value :=
  match part with
  | PartText text => typed_text text_type text
  | PartImage media_type data detail =>
      let url := VString (data_url media_type data) in
      let detail := VString (detail_str (default DetailAuto detail)) in
      if responses
      then obj [(s"type", VString (s"input_image")); (s"image_url", url); (s"detail", detail)]
      else obj [(s"type", VString (s"image_url"));
                (s"image_url", obj [(s"url", url); (s"detail", detail)])]
  | PartAudio media_type data =>
      obj [(s"type", VString (s"input_audio"));
           (s"input_audio", obj [(s"data", VString data); (s"format", VString (media_subtype media_type))])]
  | PartFile media_type data filename =>
      let file := obj [(s"filename", VString filename); (s"file_data", VString (data_url media_type data))] in
      if responses then assign (s"type") (VString (s"input_file")) file
      else obj [(s"type", VString (s"file")); (s"file", file)]
  end.
Definition openai_message_content (m : ChatMessage) (responses : bool) : value :=
  let text_type := if responses then s"input_text" else s"text" in
  message_content m text_type (openai_part responses text_type).
Definition base64_source (media_type data : str) : value :=
  obj [(s"type", VString (s"base64")); (s"media_type", VString media_type); (s"data", VString data)].
Definition UNSUPPORTED_AUDIO : str := s"[UNSUPPORTED_AUDIO_INPUT]".
Definition anthropic_part (part : ChatContentPart) : value :=
  match part with
  | PartText text => typed_text (s"text") text
  | PartImage media_type data _ =>
      obj [(s"type", VString (s"image")); (s"source", base64_source media_type data)]
  | PartFile media_type data filename =>
      obj [(s"type", VString (s"document")); (s"title", VString filename);
           (s"source", base64_source media_type data)]
  | PartAudio _ _ => typed_text (s"text") UNSUPPORTED_AUDIO
  end.
Definition anthropic_message_content (m : ChatMessage) : value :=
  message_content m (s"text") anthropic_part.

Definition function_tool (tool : ToolSpec) : value :=
  obj [(s"name", VString (ts_name tool)); (s"description", VString (ts_description tool));
       (s"parameters", ts_input_schema tool)].
Definition openai_tool (tool : ToolSpec) : value :=
  obj [(s"type", VString (s"function")); (s"function", function_tool tool)].
Definition responses_tool (tool : ToolSpec) : value :=
  assign (s"type") (VString (s"function")) (function_tool tool).
Definition anthropic_tool (tool : ToolSpec) : value :=
  obj [(s"name", VString (ts_name tool)); (s"description", VString (ts_description tool));
       (s"input_schema", ts_input_schema tool)].
(** Without a choice the mode is [auto]. *)
Definition openai_tool_choice (choice : option ToolChoice) (responses : bool) : value :=
  match default (ChoiceMode ModeAuto) choice with
  | ChoiceMode mode => VString (mode_str mode)
  | ChoiceTool tool =>
      if responses then obj [(s"type", VString (s"function")); (s"name", VString tool)]
      else obj [(s"type", VString (s"function")); (s"function", obj [(s"name", VString tool)])]
  end.
Definition anthropic_tool_choice (choice : option ToolChoice) : value :=
  match default (ChoiceMode ModeAuto) choice with
  | ChoiceMode ModeNone => obj [(s"type", VString (s"none"))]
  | ChoiceMode ModeAuto => obj [(s"type", VString (s"auto"))]
  | ChoiceMode ModeRequired => obj [(s"type", VString (s"any"))]
  | ChoiceTool tool => obj [(s"type", VString (s"tool")); (s"name", VString tool)]
  end.

Section messages.
Context {J : JsonText}.
Definition role_content (role : str) (content : value) : value :=
  obj [(s"role", VString role); (s"content", content)].
Definition system_message (r : ChatRequest) : list value :=
  match cq_system r with Some system => [role_content (s"system") (VString system)] | None => [] end.
Definition openai_call (call : ChatToolCall) : value :=
  obj [(s"id", VString (tc_id call)); (s"type", VString (s"function"));
       (s"function", obj [(s"name", VString (tc_name call));
                          (s"arguments", VString (json_to_string (tc_args call)))])].
Definition openai_message (m : ChatMessage) : value :=
  if negb (is_empty (cm_tool_calls m)) then
    obj [(s"role", VString (s"assistant"));
         (s"content", if is_empty (cm_content m) then VNull else VString (cm_content m));
         (s"tool_calls", VArray (map openai_call (cm_tool_calls m)))]
  else if cm_role m =s s"tool" then
    obj [(s"role", VString (s"tool")); (s"tool_call_id", v_opt VString (cm_tool_call_id m));
         (s"content", VString (cm_content m))]
  else role_content (cm_role m) (openai_message_content m false).
Definition openai_messages (r : ChatRequest) : list value :=
  system_message r ++ map openai_message (cq_messages r).
Definition responses_call (call : ChatToolCall) : value :=
  obj [(s"type", VString (s"function_call")); (s"call_id", VString (tc_id call));
       (s"name", VString (tc_name call)); (s"arguments", VString (json_to_string (tc_args call)))].
Definition responses_items (m : ChatMessage) : list value :=
  match cm_provider_state m with
  | Some state => state
  | None =>
      if negb (is_empty (cm_tool_calls m)) then map responses_call (cm_tool_calls m)
      else if cm_role m =s s"tool" then
        [obj [(s"type", VString (s"function_call_output")); (s"call_id", v_opt VString (cm_tool_call_id m));
              (s"output", VString (cm_content m))]]
      else [role_content (cm_role m) (openai_message_content m true)]
  end.
Definition responses_input (r : ChatRequest) : list value :=
  system_message r ++ concat (map responses_items (cq_messages r)).
Definition anthropic_call (call : ChatToolCall) : value :=
  obj [(s"type", VString (s"tool_use")); (s"id", VString (tc_id call)); (s"name", VString (tc_name call));
       (s"input", tc_args call)].
Definition anthropic_message (m : ChatMessage) : option value :=
  if cm_role m =s s"system" then None
  else if cm_role m =s s"tool" then
    Some (role_content (s"user")
      (VArray [obj [(s"type", VString (s"tool_result")); (s"tool_use_id", v_opt VString (cm_tool_call_id m));
                    (s"content", VString (cm_content m))]]))
  else if (cm_role m =s s"assistant") && negb (is_empty (cm_tool_calls m)) then
    Some (role_content (s"assistant")
      (VArray ((if is_empty (cm_content m) then [] else [typed_text (s"text") (cm_content m)])
               ++ map anthropic_call (cm_tool_calls m))))
  else Some (role_content (cm_role m) (anthropic_message_content m)).
Definition anthropic_messages (r : ChatRequest) : list value := omap anthropic_message (cq_messages r).
End messages.

(** ** Bodies *)

Inductive ChatTokenLimitField : Type := FieldMaxTokens | FieldMaxCompletionTokens.
Inductive PromptCacheField : Type := FieldCacheControl | FieldCacheControlAuto | FieldPromptCacheKey.
#[global] Instance PromptCacheField_eq_dec : EqDecision PromptCacheField.
Proof. solve_decision. Defined.
#[global] Instance PromptCache_eq_dec : EqDecision PromptCache.
Proof. solve_decision. Defined.
#[global] Instance CacheWritePolicy_eq_dec : EqDecision CacheWritePolicy.
Proof. solve_decision. Defined.
#[global] Instance CacheRetention_eq_dec : EqDecision CacheRetention.
Proof. solve_decision. Defined.
#[global] Instance PromptCacheRetention_eq_dec : EqDecision PromptCacheRetention.
Proof. solve_decision. Defined.
#[global] Instance ApiFlavor_eq_dec : EqDecision ApiFlavor.
Proof. solve_decision. Defined.

Definition caching_allowed (r : ChatRequest) : bool :=
  bool_decide (cq_prompt_cache r = CacheAuto) && bool_decide (cq_cache_write r = WriteAllow).
Definition wants_prompt_cache (r : ChatRequest) (prompt_cache : option PromptCacheField)
    (expected : PromptCacheField) : bool :=
  caching_allowed r && bool_decide (prompt_cache = Some expected).
Definition wants_anthropic_cache (r : ChatRequest) (prompt_cache : option PromptCacheField) : bool :=
  caching_allowed r
  && match prompt_cache with Some (FieldCacheControl | FieldCacheControlAuto) => true | _ => false end.
Definition extended (r : ChatRequest) : bool := bool_decide (cq_cache_retention r = Some RetentionExtended).
Definition sampling_payload (r : ChatRequest) (v : value) : value :=
  set_optional (s"top_p") v_f64 (cq_top_p r) (set_optional (s"temperature") v_f64 (cq_temperature r) v).
Definition unless_empty {A} (l : list A) (key : str) (x : value) (v : value) : value :=
  if is_empty l then v else assign key x v.
(** [v["text"][key] = x]. *)
Definition assign_text (key : str) (x v : value) : value :=
  assign (s"text") (assign key x (index (s"text") v)) v.
Definition location_fields (l : UserLocation) : list (str * option str) :=
  [(s"country", ul_country l); (s"region", ul_region l); (s"city", ul_city l); (s"timezone", ul_timezone l)].
Definition provider_web_search_tool (search : ProviderWebSearch) : value :=
  let domains := (if is_empty (ws_allowed_domains search) then []
                  else [(s"allowed_domains", strings (ws_allowed_domains search))])
                 ++ (if is_empty (ws_blocked_domains search) then []
                     else [(s"blocked_domains", strings (ws_blocked_domains search))]) in
  let tool := obj [(s"type", VString (s"web_search"))] in
  let tool := unless_empty domains (s"filters") (obj domains) tool in
  let tool := set_optional (s"search_context_size") (λ c, VString (context_str c))
                (ws_search_context_size search) tool in
  set_optional (s"user_location")
    (λ l, fold_left (λ v '(name, field), set_optional name VString field v) (location_fields l)
            (obj [(s"type", VString (s"approximate"))]))
    (ws_user_location search) tool.

Section bodies.
Context {J : JsonText} {H : Sha256}.
(** The first sixteen bytes of the digest. *)
Definition prompt_cache_key (r : ChatRequest) : str :=
  s"cache-" ++ take 32 (sha256_hex (default [] (cq_system r))).
Definition openai_cache_policy (r : ChatRequest) (prompt_cache : option PromptCacheField)
    (retention : option PromptCacheRetention) (explicit_disable responses : bool) (v : value) : value :=
  if bool_decide (cq_cache_write r = WriteForbid) then
    if explicit_disable
    then assign (s"prompt_cache_options") (obj [(s"mode", VString (s"explicit"))]) v else v
  else
    let v := if wants_prompt_cache r prompt_cache FieldPromptCacheKey
             then assign (s"prompt_cache_key") (VString (prompt_cache_key r)) v else v in
    if bool_decide (cq_prompt_cache r = CacheAuto) && extended r then
      match retention with
      | Some Retention24h => assign (s"prompt_cache_retention") (VString (s"24h")) v
      | Some Ttl12h =>
          if responses
          then assign (s"prompt_cache_options") (obj [(s"ttl", VString (s"12h"))]) v else v
      | _ => v
      end
    else v.
Definition with_tools (r : ChatRequest) (tools choice : value) (v : value) : value :=
  if is_empty (cq_tools r) then v
  else set_optional (s"parallel_tool_calls") VBool (cq_parallel_tool_calls r)
         (assign (s"tool_choice") choice (assign (s"tools") tools v)).

Definition chat_schema (schema : value) (strict : bool) : value :=
  obj [(s"type", VString (s"json_schema"));
       (s"json_schema", obj [(s"name", VString (s"response")); (s"strict", VBool strict); (s"schema", schema)])].
Definition chat_completions_payload (r : ChatRequest) (send_seed : bool) (field : ChatTokenLimitField)
    (prompt_cache : option PromptCacheField) (retention : option PromptCacheRetention)
    (explicit_disable : bool) : value :=
  let payload := obj [(s"model", VString (cq_model r)); (s"messages", VArray (openai_messages r))] in
  let payload := set_optional (s"reasoning_effort") (λ e, VString (effort_str e)) (cq_reasoning_effort r) payload in
  let key := match field with
             | FieldMaxTokens => s"max_tokens" | FieldMaxCompletionTokens => s"max_completion_tokens" end in
  let payload := sampling_payload r (assign key (v_num (cq_max_tokens r)) payload) in
  let payload := unless_empty (cq_stop_sequences r) (s"stop") (strings (cq_stop_sequences r)) payload in
  let payload := set_optional (s"seed") v_num (if send_seed then cq_seed r else None) payload in
  let payload := set_optional (s"response_format") (λ '(schema, strict), chat_schema schema strict)
                   (native_response_schema r) payload in
  let payload := with_tools r (VArray (map openai_tool (cq_tools r)))
                   (openai_tool_choice (cq_tool_choice r) false) payload in
  openai_cache_policy r prompt_cache retention explicit_disable false payload.

Definition responses_schema (schema : value) (strict : bool) : value :=
  obj [(s"type", VString (s"json_schema")); (s"name", VString (s"response")); (s"strict", VBool strict);
       (s"schema", schema)].
Definition with_reasoning (r : ChatRequest) (v : value) : value :=
  match cq_reasoning_effort r with
  | Some effort =>
      unless_empty (cq_tools r) (s"include") (strings [s"reasoning.encrypted_content"])
        (assign (s"reasoning") (obj [(s"effort", VString (effort_str effort))]) v)
  | None => v
  end.
Definition with_web_search_tool (r : ChatRequest) (v : value) : value :=
  match cq_provider_web_search r with
  | Some search =>
      let tools := default [] (as_array (index (s"tools") v)) in
      assign (s"max_tool_calls") (v_num (ws_max_calls search))
        (assign (s"tools") (VArray (tools ++ [provider_web_search_tool search])) v)
  | None => v
  end.
Definition responses_payload (r : ChatRequest) (prompt_cache : option PromptCacheField)
    (retention : option PromptCacheRetention) (explicit_disable : bool) : value :=
  let payload := obj [(s"model", VString (cq_model r)); (s"input", VArray (responses_input r));
                      (s"max_output_tokens", v_num (cq_max_tokens r)); (s"store", VBool false)] in
  let payload := with_reasoning r (sampling_payload r payload) in
  let payload := match cq_verbosity r with
                 | Some v => assign_text (s"verbosity") (VString (verbosity_str v)) payload
                 | None => payload end in
  let payload := match native_response_schema r with
                 | Some (schema, strict) => assign_text (s"format") (responses_schema schema strict) payload
                 | None => payload end in
  let payload := with_tools r (VArray (map responses_tool (cq_tools r)))
                   (openai_tool_choice (cq_tool_choice r) true) payload in
  openai_cache_policy r prompt_cache retention explicit_disable true (with_web_search_tool r payload).

Definition response_tool (schema : value) : value :=
  obj [(s"name", VString (s"response")); (s"description", VString (s"Return the final structured response."));
       (s"input_schema", schema)].
Definition named_response (v : value) : bool :=
  some_and (existsb (λ tool, is_str (s"response") (index (s"name") tool))) (as_array (index (s"tools") v)).
Definition cache_marker (r : ChatRequest) (retention : option PromptCacheRetention) : value :=
  let marker := obj [(s"type", VString (s"ephemeral"))] in
  if caching_allowed r && extended r && bool_decide (retention = Some Ttl1h)
  then assign (s"ttl") (VString (s"1h")) marker else marker.
Definition anthropic_payload (r : ChatRequest) (prompt_cache : option PromptCacheField)
    (retention : option PromptCacheRetention) : value :=
  let tools := map anthropic_tool (cq_tools r)
               ++ match native_response_schema r with Some (schema, _) => [response_tool schema] | None => [] end in
  let payload := obj [(s"model", VString (cq_model r)); (s"max_tokens", v_num (cq_max_tokens r));
                      (s"messages", VArray (anthropic_messages r))] in
  let marker := cache_marker r retention in
  let payload := set_optional (s"system") (λ system,
                   if wants_anthropic_cache r prompt_cache
                   then VArray [obj [(s"type", VString (s"text")); (s"text", VString system);
                                     (s"cache_control", marker)]]
                   else VString system) (cq_system r) payload in
  let payload := if wants_prompt_cache r prompt_cache FieldCacheControlAuto
                 then assign (s"cache_control") marker payload else payload in
  let payload := sampling_payload r payload in
  let payload := unless_empty (cq_stop_sequences r) (s"stop_sequences") (strings (cq_stop_sequences r)) payload in
  let choice := anthropic_tool_choice (cq_tool_choice r) in
  let choice := if bool_decide (cq_parallel_tool_calls r = Some false)
                then assign (s"disable_parallel_tool_use") (VBool true) choice else choice in
  let payload := if is_empty tools then payload
                 else assign (s"tool_choice") choice (assign (s"tools") (VArray tools) payload) in
  if named_response payload
  then assign (s"tool_choice") (obj [(s"type", VString (s"tool")); (s"name", VString (s"response"))]) payload
  else payload.
End bodies.

(** ** The provider row

    The fields of a row and of its models that building a request reads. *)

Record ModelSpec : Type := mkModelSpec {
  ms_id : str;
  ms_capabilities : option Capabilities;
  ms_reasoning_effort : option (list ReasoningEffort);
  ms_prompt_cache_retention : option PromptCacheRetention;
  ms_prompt_cache_explicit_mode : option bool;
}.
Record ProviderSpec : Type := mkProviderSpec {
  sp_id : str;
  sp_api : ApiFlavor;
  sp_capabilities : Capabilities;
  sp_models : list ModelSpec;
  sp_chat_token_limit_field : option ChatTokenLimitField;
  sp_prompt_cache_field : option PromptCacheField;
  sp_prompt_cache_retention : option PromptCacheRetention;
  sp_prompt_cache_explicit_mode : bool;
}.
Definition with_effort (c : Capabilities) (effort : list ReasoningEffort) : Capabilities :=
  mkCapabilities (cp_tool_use c) (cp_json_schema c) (cp_structured_output_with_tools c) (cp_seed c)
    (cp_image_input c) (cp_audio_input c) (cp_file_input c) (cp_streaming c) (cp_temperature c) (cp_top_p c)
    (cp_stop_sequences c) (cp_tool_choice c) (cp_parallel_tool_calls c) (cp_verbosity c) (cp_prompt_cache c)
    (cp_web_search c) effort.
Definition effective_capabilities (m : ModelSpec) (provider : Capabilities) : Capabilities :=
  let effective := default provider (ms_capabilities m) in
  match ms_reasoning_effort m with Some effort => with_effort effective effort | None => effective end.
Definition spec_model (p : ProviderSpec) (id : str) : option ModelSpec :=
  List.find (λ m, ms_id m =s id) (sp_models p).
Definition capabilities_for_model (p : ProviderSpec) (id : str) : Capabilities :=
  match spec_model p id with
  | Some m => effective_capabilities m (sp_capabilities p)
  | None => sp_capabilities p
  end.
Definition retention_for_model (p : ProviderSpec) (id : str) : option PromptCacheRetention :=
  match spec_model p id ≫= ms_prompt_cache_retention with
  | Some retention => Some retention
  | None => sp_prompt_cache_retention p
  end.
Definition explicit_mode_for_model (p : ProviderSpec) (id : str) : bool :=
  default (sp_prompt_cache_explicit_mode p) (spec_model p id ≫= ms_prompt_cache_explicit_mode).
Definition supports_api (retention : PromptCacheRetention) (api : ApiFlavor) : bool :=
  match retention, api with
  | Retention24h, (ChatCompletions | Responses) | Ttl12h, Responses | Ttl1h, AnthropicMessages => true
  | _, _ => false
  end.

Definition quote (x : str) : str := [34%Z] ++ x ++ [34%Z].
Definition row_name (p : ProviderSpec) (r : ChatRequest) : str :=
  s"provider `" ++ sp_id p ++ s"` model `" ++ cq_model r ++ s"` ".
Definition check_provider_web_search (p : ProviderSpec) (r : ChatRequest) (c : Capabilities) : result LlmError () :=
  if negb (is_some (cq_provider_web_search r)) then Ok ()
  else
    _ ← reject_if (negb (bool_decide (sp_api p = Responses)))
          (row_name p r ++ s"cannot use provider web search: the hosted search tool exists only on the Responses API; use a Responses endpoint or remove `provider_web_search`");
    reject_if (negb (cp_web_search c))
      (row_name p r ++ s"does not support provider web search: select a model whose registry row advertises the `web_search` capability or remove `provider_web_search`").
Definition prompt_cache_field_for (p : ProviderSpec) (r : ChatRequest) (c : Capabilities) :
    result LlmError (option PromptCacheField) :=
  if negb (bool_decide (cq_prompt_cache r = CacheAuto)) || bool_decide (cq_cache_write r = WriteForbid) then Ok None
  else
    _ ← reject_if (negb (cp_prompt_cache c)) (sp_id p ++ s" provider does not support prompt caching");
    Some <$> ok_or (sp_prompt_cache_field p)
      (llm_new (sp_id p ++ s" provider enables prompt caching without a `prompt_cache_field`")).
Definition check_cache_policy (p : ProviderSpec) (r : ChatRequest) (c : Capabilities) :
    result LlmError (option PromptCacheRetention * bool) :=
  let invalid message := llm_new (row_name p r ++ message) in
  let auto := bool_decide (cq_prompt_cache r = CacheAuto) in
  let forbid := bool_decide (cq_cache_write r = WriteForbid) in
  if bool_decide (sp_api p = SystemOne) then
    if auto || forbid || is_some (cq_cache_retention r)
    then Err (invalid (s"cannot use advanced cache policies on a system_one route: remove cache, cache_write_policy and cache_retention"))
    else Ok (None, false)
  else if is_some (cq_cache_retention r) then
    if negb auto then Err (invalid (s"cache_retention requires cache = " ++ quote (s"auto")))
    else if forbid then Err (invalid (s"cache_retention requires cache_write_policy = " ++ quote (s"allow")))
    else
      mechanism ← ok_or (retention_for_model p (cq_model r))
        (invalid (s"does not declare an extended-retention mechanism: add `prompt_cache_retention` for this model or row"));
      if negb (supports_api mechanism (sp_api p))
      then Err (invalid (s"declares an extended-retention mechanism that is not valid for its api"))
      else if negb (cp_prompt_cache c)
      then Err (invalid (s"cannot use cache_retention without prompt caching support"))
      else Ok (Some mechanism, false)
  else
    let explicit_disable := forbid && match sp_api p with ChatCompletions | Responses => true | _ => false end in
    if forbid && bool_decide (sp_api p = AnthropicMessages)
    then Err (invalid (s"cannot guarantee no cache writes: Anthropic may cache tool/thinking continuations and server-tool results without qcg markers"))
    else if explicit_disable && negb (explicit_mode_for_model p (cq_model r))
    then Err (invalid (s"cannot disable caching: declare `prompt_cache_explicit_mode = true` for this model or row"))
    else Ok (None, explicit_disable).

Section prepare.
Context {J : JsonText} {SC : SchemaCompiler} {H : Sha256}.
Definition request_payload (p : ProviderSpec) (r : ChatRequest) (c : Capabilities) : result LlmError value :=
  _ ← check_provider_web_search p r c;
  '(cache_retention, cache_explicit_disable) ← check_cache_policy p r c;
  prompt_cache ← prompt_cache_field_for p r c;
  match sp_api p with
  | ChatCompletions =>
      Ok (chat_completions_payload r (is_some (cq_seed r) && cp_seed c)
            (default FieldMaxTokens (sp_chat_token_limit_field p))
            prompt_cache cache_retention cache_explicit_disable)
  | Responses => Ok (responses_payload r prompt_cache cache_retention cache_explicit_disable)
  | AnthropicMessages => Ok (anthropic_payload r prompt_cache cache_retention)
  | SystemOne => Err (llm_new (s"system_one requires typed decisions"))
  end.
Definition prepare_request (p : ProviderSpec) (r : ChatRequest) : result LlmError value :=
  _ ← validate_chat_request r (sp_api p);
  let c := capabilities_for_model p (cq_model r) in
  _ ← validate_multimodal_capabilities r c;
  _ ← validate_structured_output_capabilities r (sp_api p) c;
  payload ← request_payload p r c;
  _ ← validate_request_capabilities r c;
  Ok payload.
End prepare.

(** ** What the bound on schemas admits *)

Definition children_of (v : value) : list value :=
  match v with VArray l => l | VObject m => bm_values m | _ => [] end.
Fixpoint value_count (v : value) : nat :=
  match v with
  | VArray l => S (list_sum (map value_count l))
  | VObject m => S (list_sum (map (λ kv, value_count kv.2) m))
  | _ => 1
  end.
(** [nested v d x]: [x] is [d] levels below [v]. *)
Inductive nested : value → nat → value → Prop :=
| nested_here v : nested v 0 v
| nested_below v child d x : child ∈ children_of v → nested child d x → nested v (S d) x.
Definition member_fine (member : str * value) : Prop :=
  (str_len member.1 ≤ MAX_JSON_SCHEMA_STRING_BYTES)%Z ∧
  (member.1 ∈ [s"$ref"; s"$dynamicRef"; s"$recursiveRef"] →
   ∀ x, member.2 = VString x → starts_with x (s"#") = true).
Definition node_fine (v : value) : Prop :=
  match v with
  | VObject m => (length m ≤ MAX_JSON_SCHEMA_OBJECT_MEMBERS)%nat ∧ ∀ member, member ∈ m → member_fine member
  | VString x => (str_len x ≤ MAX_JSON_SCHEMA_STRING_BYTES)%Z
  | _ => True
  end.

Lemma value_count_children v : value_count v = S (list_sum (map value_count (children_of v))).
Proof. destruct v; try done. cbn. unfold bm_values. by rewrite map_map. Qed.
Lemma str_in_elem x l : str_in x l = true ↔ x ∈ l.
Proof.
  unfold str_in. rewrite existsb_exists. split.
  - intros (y & Hy & ->%str_eqb_eq). by apply list_elem_of_In.
  - intros Hx. exists x. by rewrite str_eqb_refl, <-list_elem_of_In.
Qed.
Lemma member_check_fine member : member_check member = Ok () ↔ member_fine member.
Proof.
  destruct member as [name v]. unfold member_check, member_fine, reference_key, outside_ref. cbn [fst snd].
  rewrite <-str_in_elem. destruct (Z.ltb_spec MAX_JSON_SCHEMA_STRING_BYTES (str_len name)).
  { split; [done|]. intros [? _]. lia. }
  destruct (str_in name _); [|by split].
  destruct v; cbn; try (split; [split; [done|naive_solver]|done]).
  destruct (starts_with x (s"#")) eqn:E; cbn; (split; [|by intros [_ Hx]; specialize (Hx eq_refl x eq_refl); congruence]).
  - intros _. split; [done|]. intros _ y [= <-]. done.
  - done.
Qed.
Lemma node_children_fine v children :
  node_children v = Ok children ↔ node_fine v ∧ children = children_of v.
Proof.
  destruct v as [| | |x|l|m]; cbn [node_children node_fine children_of]; try naive_solver.
  - destruct (Z.ltb_spec MAX_JSON_SCHEMA_STRING_BYTES (str_len x)).
    + split; [done|]. intros [? _]. lia.
    + split; [intros [= <-]; by split|by intros [_ ->]].
  - destruct (Nat.ltb_spec MAX_JSON_SCHEMA_OBJECT_MEMBERS (length m)).
    { split; [done|]. intros [[? _] _]. lia. }
    pose proof (foldM_unit_ok member_fine (λ _, member_check) m (λ _, member_check_fine)) as [Hm1 Hm2].
    rewrite result_bind_Ok. split.
    + intros ([] & Hf & [= <-]). split; [|done]. split; [done|exact (Hm1 Hf)].
    + intros [[_ Hf] ->]. exists (). split; [exact (Hm2 Hf)|done].
Qed.

Lemma nested_cases v d x : nested v d x ↔
  (d = 0%nat ∧ x = v) ∨ ∃ child e, d = S e ∧ child ∈ children_of v ∧ nested child e x.
Proof.
  split.
  - intros Hn. inversion Hn; subst; [by left|]. right. by eexists _, _.
  - intros [[-> ->]|(child & e & -> & Hc & Hn)]; [constructor|by econstructor].
Qed.
Definition stack_count (stack : list (value * nat)) : nat := list_sum (map (λ '(v, _), value_count v) stack).
Lemma stack_count_push d children stack :
  stack_count (reverse (map (λ child, (child, d)) children) ++ stack) =
    (list_sum (map value_count children) + stack_count stack)%nat.
Proof.
  unfold stack_count. rewrite map_app, list_sum_app. f_equal.
  induction children as [|child children IH]; [done|].
  cbn [map]. rewrite reverse_cons, map_app, list_sum_app, IH. unfold list_sum. cbn [map fold_right]. lia.
Qed.
Lemma check_stack_spec room : ∀ stack, check_stack room stack = Ok () ↔
  (stack_count stack ≤ room)%nat ∧
  ∀ v d, (v, d) ∈ stack → ∀ e x, nested v e x → (d + e ≤ MAX_JSON_SCHEMA_DEPTH)%nat ∧ node_fine x.
Proof.
  induction room as [|room IH]; intros [|[v d] stack]; cbn [check_stack].
  1, 3: split; [intros _; split; [cbn; lia|by intros ? ? ?%not_elem_of_nil]|done].
  { split; [done|]. cbn. rewrite value_count_children. intros [? _]. lia. }
  change (stack_count ((v, d) :: stack)) with (value_count v + stack_count stack)%nat.
  destruct (Nat.ltb_spec MAX_JSON_SCHEMA_DEPTH d) as [Hd|Hd].
  { split; [done|]. intros [_ Hs]. destruct (Hs v d ltac:(by left) 0%nat v ltac:(constructor)). lia. }
  rewrite result_bind_Ok. setoid_rewrite node_children_fine. setoid_rewrite IH.
  rewrite value_count_children. split.
  - intros (children & [Hf ->] & Hc & Hs). rewrite stack_count_push in Hc. split; [lia|].
    intros w e [[= -> ->]|Hw]%elem_of_cons k x Hn; [|by apply (Hs w e); [set_solver|]].
    apply nested_cases in Hn as [[-> ->]|(child & k' & -> & Hc' & Hn)]; [split; [lia|done]|].
    destruct (Hs child (S d)) with k' x as [? ?]; [|done|by split; [lia|]].
    apply elem_of_app. left. apply elem_of_reverse, list_elem_of_In, in_map_iff. exists child.
    by rewrite <-list_elem_of_In.
  - intros [Hc Hs]. exists (children_of v). split; [split; [|done]|split].
    + by apply (Hs v d ltac:(by left) 0%nat v); constructor.
    + rewrite stack_count_push. lia.
    + intros w e [Hw|Hw]%elem_of_app k x Hn; [|by apply (Hs w e); [by right|]].
      apply elem_of_reverse, list_elem_of_In, in_map_iff in Hw as (child & [= -> <-] & Hw%list_elem_of_In).
      destruct (Hs v d ltac:(by left) (S k) x) as [? ?]; [by econstructor|]. split; [lia|done].
Qed.

Section bounded.
Context {J : JsonText}.
(** The bound on schemas, declaratively: the length of the text, the number of
    values, and at every nested value the depth, the members, the strings and
    the references. *)
Theorem bounded_schema_spec schema :
  check_bounded_json_schema schema = Ok () ↔
  (str_len (json_to_string schema) ≤ MAX_JSON_SCHEMA_BYTES)%Z ∧
  (value_count schema ≤ MAX_JSON_SCHEMA_NODES)%nat ∧
  ∀ d x, nested schema d x → (d ≤ MAX_JSON_SCHEMA_DEPTH)%nat ∧ node_fine x.
Proof.
  unfold check_bounded_json_schema. destruct (Z.ltb_spec MAX_JSON_SCHEMA_BYTES (str_len (json_to_string schema))).
  { split; [done|]. intros [? _]. lia. }
  rewrite check_stack_spec. unfold stack_count. cbn [map list_sum fold_right]. rewrite Nat.add_0_r. split.
  - intros [Hc Hs]. split; [done|]. split; [done|]. by apply (Hs schema 0%nat); left.
  - intros (_ & Hc & Hs). split; [done|]. intros v d [= -> ->]%list_elem_of_singleton. apply Hs.
Qed.
End bounded.

(** ** Reading a body back *)

Lemma get_assign_ne k key x v : (k =s key) = false → get k (assign key x v) = get k v.
Proof.
  intros Hne. assert (k ≠ key) by (intros ->; by rewrite str_eqb_refl in Hne). destruct v as [| | | | |m]; try done.
  - cbn. by rewrite Hne.
  - cbn. by rewrite bm_get_insert_ne.
Qed.
Lemma get_assign_eq key x v : is_object v = true ∨ v = VNull → get key (assign key x v) = Some x.
Proof.
  intros [Hv| ->]; [|by cbn; rewrite str_eqb_refl]. destruct v; try done. cbn. by rewrite bm_get_insert_eq.
Qed.
Lemma get_optional_ne {A} k key (ser : A → value) x v :
  (k =s key) = false → get k (set_optional key ser x v) = get k v.
Proof. intros Hk. destruct x; [by apply get_assign_ne|done]. Qed.
Lemma get_optional_eq {A} key (ser : A → value) x v :
  is_object v = true → get key v = None → get key (set_optional key ser x v) = ser <$> x.
Proof. intros Hv Hn. destruct x; [by apply get_assign_eq; left|done]. Qed.
Lemma get_unless_ne {A} k (l : list A) key x v :
  (k =s key) = false → get k (unless_empty l key x v) = get k v.
Proof. intros Hk. destruct l; [done|by apply get_assign_ne]. Qed.
Lemma get_sampling_ne k r v : (k =s s"top_p") = false → (k =s s"temperature") = false →
  get k (sampling_payload r v) = get k v.
Proof. intros. unfold sampling_payload. by rewrite !get_optional_ne. Qed.
Lemma get_tools_ne k r tools choice v : (k =s s"tools") = false → (k =s s"tool_choice") = false →
  (k =s s"parallel_tool_calls") = false → get k (with_tools r tools choice v) = get k v.
Proof.
  intros. unfold with_tools. destruct (is_empty _); [done|]. by rewrite get_optional_ne, !get_assign_ne.
Qed.
Lemma get_reasoning_ne k r v : (k =s s"include") = false → (k =s s"reasoning") = false →
  get k (with_reasoning r v) = get k v.
Proof.
  intros. unfold with_reasoning. destruct (cq_reasoning_effort r); [|done]. by rewrite get_unless_ne, get_assign_ne.
Qed.
Lemma get_search_ne k r v : (k =s s"tools") = false → (k =s s"max_tool_calls") = false →
  get k (with_web_search_tool r v) = get k v.
Proof. intros. unfold with_web_search_tool. destruct (cq_provider_web_search r); [|done]. by rewrite !get_assign_ne. Qed.
Lemma get_text_ne k key x v : (k =s s"text") = false → get k (assign_text key x v) = get k v.
Proof. apply get_assign_ne. Qed.

Lemma object_assign key x v : is_object v = true → is_object (assign key x v) = true.
Proof. by destruct v. Qed.
Lemma object_optional {A} key (ser : A → value) x v :
  is_object v = true → is_object (set_optional key ser x v) = true.
Proof. destruct x; [apply object_assign|done]. Qed.
Lemma object_unless {A} (l : list A) key x v : is_object v = true → is_object (unless_empty l key x v) = true.
Proof. destruct l; [done|apply object_assign]. Qed.
Lemma object_if (b : bool) v w : is_object v = true → is_object w = true → is_object (if b then v else w) = true.
Proof. by destruct b. Qed.
Create HintDb bodies.
#[export] Hint Resolve object_assign object_optional object_unless object_if : bodies.
Lemma object_sampling r v : is_object v = true → is_object (sampling_payload r v) = true.
Proof. unfold sampling_payload. auto with bodies. Qed.
Lemma object_tools r tools choice v : is_object v = true → is_object (with_tools r tools choice v) = true.
Proof. unfold with_tools. auto with bodies. Qed.
Lemma object_reasoning r v : is_object v = true → is_object (with_reasoning r v) = true.
Proof. unfold with_reasoning. destruct (cq_reasoning_effort r); auto with bodies. Qed.
Lemma object_search r v : is_object v = true → is_object (with_web_search_tool r v) = true.
Proof. unfold with_web_search_tool. destruct (cq_provider_web_search r); auto with bodies. Qed.
Lemma object_text key x v : is_object v = true → is_object (assign_text key x v) = true.
Proof. apply object_assign. Qed.
#[export] Hint Resolve object_sampling object_tools object_reasoning object_search object_text : bodies.

(** A field the remaining steps of a body do not write. *)
Ltac frames :=
  repeat first
    [ rewrite get_assign_ne by reflexivity | rewrite get_optional_ne by reflexivity
    | rewrite get_unless_ne by reflexivity | rewrite get_sampling_ne by reflexivity
    | rewrite get_tools_ne by reflexivity | rewrite get_reasoning_ne by reflexivity
    | rewrite get_search_ne by reflexivity | rewrite get_text_ne by reflexivity ].

Section policy.
Context {J : JsonText} {H : Sha256}.
Implicit Types (r : ChatRequest) (v : value).

Lemma get_policy_ne k r field retention off responses v :
  (k =s s"prompt_cache_options") = false → (k =s s"prompt_cache_key") = false →
  (k =s s"prompt_cache_retention") = false →
  get k (openai_cache_policy r field retention off responses v) = get k v.
Proof.
  intros. unfold openai_cache_policy. case_bool_decide; [destruct off; by rewrite ?get_assign_ne|].
  destruct (wants_prompt_cache _ _ _), (_ && _), retention as [[]|], responses; by rewrite ?get_assign_ne.
Qed.
Lemma policy_forbid r field retention responses v :
  cq_cache_write r = WriteForbid →
  openai_cache_policy r field retention true responses v =
    assign (s"prompt_cache_options") (obj [(s"mode", VString (s"explicit"))]) v.
Proof. intros Hf. unfold openai_cache_policy. by rewrite Hf. Qed.
End policy.

(** ** What a prepared body says *)

Definition named (v : value) : option str :=
  match get_str (s"name") v with
  | Some name => Some name
  | None => get (s"function") v ≫= get_str (s"name")
  end.
(** The tool a body forces, the tools it offers, the format it asks for. *)
Definition chosen_tool (body : value) : option str := get (s"tool_choice") body ≫= named.
Definition offered (body : value) : list str := omap named (default [] (as_array (index (s"tools") body))).
Definition body_format (body : value) : option value :=
  match get (s"response_format") body ≫= get (s"json_schema") with
  | Some format => Some format
  | None => get (s"text") body ≫= get (s"format")
  end.

Section prepared.
Context {J : JsonText} {SC : SchemaCompiler} {H : Sha256}.
Implicit Types (p : ProviderSpec) (r : ChatRequest) (body : value).

Lemma validated_parts r api : validate_chat_request r api = Ok () →
  choice_check r = Ok () ∧ validate_response_schema r = Ok () ∧ api ≠ SystemOne.
Proof.
  unfold validate_chat_request. cbv zeta. intros Hv.
  repeat (apply result_bind_Ok in Hv as ([] & ? & Hv)). do 2 (split; [assumption|]). by intros ->.
Qed.
Lemma prepared_cases p r body : prepare_request p r = Ok body →
  validate_chat_request r (sp_api p) = Ok () ∧
  ∃ field retention off,
    check_cache_policy p r (capabilities_for_model p (cq_model r)) = Ok (retention, off) ∧
    ((sp_api p = ChatCompletions ∧ ∃ seed limit, body = chat_completions_payload r seed limit field retention off) ∨
     (sp_api p = Responses ∧ body = responses_payload r field retention off) ∨
     (sp_api p = AnthropicMessages ∧ body = anthropic_payload r field retention)).
Proof.
  unfold prepare_request, request_payload. cbv zeta. intros Hp.
  apply result_bind_Ok in Hp as ([] & Hv & Hp). split; [done|].
  apply result_bind_Ok in Hp as ([] & _ & Hp). apply result_bind_Ok in Hp as ([] & _ & Hp).
  apply result_bind_Ok in Hp as (body' & Hb & Hp). apply result_bind_Ok in Hp as ([] & _ & [= <-]).
  apply result_bind_Ok in Hb as ([] & _ & Hb). apply result_bind_Ok in Hb as ([retention off] & Hc & Hb).
  apply result_bind_Ok in Hb as (field & _ & Hb). exists field, retention, off. split; [done|].
  destruct (sp_api p); simplify_eq; naive_solver.
Qed.
Lemma forbid_explicit p r c retention off :
  check_cache_policy p r c = Ok (retention, off) → cq_cache_write r = WriteForbid →
  sp_api p ≠ AnthropicMessages ∧ explicit_mode_for_model p (cq_model r) = true ∧ off = true.
Proof.
  unfold check_cache_policy. intros Hc Hf. rewrite Hf in Hc. cbv zeta in Hc. change (bool_decide (WriteForbid = WriteForbid)) with true in Hc.
  case_bool_decide; [by rewrite orb_true_r in Hc|].
  destruct (is_some (cq_cache_retention r)); [by destruct (negb _) in Hc|].
  destruct (sp_api p); try done; cbn in Hc; destruct (explicit_mode_for_model p (cq_model r)); cbn in Hc; naive_solver.
Qed.

(** C35: a request that forbids cache writes is refused or its body says so: the
    prompt cache is in explicit mode, on a model declared to honour it, and no
    other cache instruction is in the body.  No request of that kind is sent to
    an endpoint that caches on its own. *)
Theorem forbidden_cache_writes p r body :
  prepare_request p r = Ok body → cq_cache_write r = WriteForbid →
  sp_api p ≠ AnthropicMessages ∧ explicit_mode_for_model p (cq_model r) = true ∧
  get (s"prompt_cache_options") body = Some (obj [(s"mode", VString (s"explicit"))]) ∧
  get (s"prompt_cache_key") body = None ∧ get (s"prompt_cache_retention") body = None ∧
  get (s"cache_control") body = None.
Proof.
  intros (_ & field & retention & off & Hc & Hb)%prepared_cases Hf.
  destruct (forbid_explicit _ _ _ _ _ Hc Hf) as (Ha & He & ->). do 2 (split; [done|]).
  destruct Hb as [[_ (seed & limit & ->)]|[[_ ->]|[? _]]]; [| |done].
  - unfold chat_completions_payload. cbv zeta. rewrite policy_forbid by done.
    rewrite get_assign_eq by auto 20 with bodies. by destruct limit; frames.
  - unfold responses_payload. cbv zeta. rewrite policy_forbid by done.
    destruct (cq_verbosity r), (native_response_schema r) as [[schema strict]|];
      (rewrite get_assign_eq by auto 20 with bodies); by frames.
Qed.

Lemma native_strict r schema : validate_response_schema r = Ok () →
  native_response_schema r = Some (schema, true) → native_schema_classification schema = Some true.
Proof.
  unfold validate_response_schema, native_response_schema. intros Hv Hn.
  apply bind_Some in Hn as (schema' & Hs & Hn). rewrite Hs in Hv.
  apply result_bind_Ok in Hv as ([] & _ & Hv). destruct (cq_structured_output r).
  - apply fmap_Some in Hn as (b & Hc & [= -> <-]). done.
  - injection Hn as <-. unfold reject_if, strict_schema_syntax_compatible in Hv. by case_bool_decide.
  - done.
  - done.
Qed.
Lemma chat_format r seed limit field retention off :
  body_format (chat_completions_payload r seed limit field retention off) =
    native_response_schema r ≫= λ '(schema, strict), get (s"json_schema") (chat_schema schema strict).
Proof.
  unfold body_format, chat_completions_payload. cbv zeta. rewrite !get_policy_ne by done.
  assert (Ht : ∀ v, is_object v = true → get (s"response_format") v = None →
    get (s"response_format") (with_tools r (VArray (map openai_tool (cq_tools r)))
        (openai_tool_choice (cq_tool_choice r) false)
        (set_optional (s"response_format") (λ '(schema, strict), chat_schema schema strict)
          (native_response_schema r) v)) =
      (λ '(schema, strict), chat_schema schema strict) <$> native_response_schema r).
  { intros v Hv Hn. frames. by apply get_optional_eq. }
  rewrite Ht by (auto 20 with bodies || by destruct limit; frames).
  destruct (native_response_schema r) as [[schema strict]|]; [done|]. cbn [fmap option_fmap option_map mbind option_bind].
  by destruct limit; frames.
Qed.
Lemma text_format (verbosity : option ResponseVerbosity) (format : option (value * bool)) v :
  is_object v = true → get (s"text") v = None →
  let v := match verbosity with
           | Some x => assign_text (s"verbosity") (VString (verbosity_str x)) v
           | None => v end in
  let w := match format with
           | Some (schema, strict) => assign_text (s"format") (responses_schema schema strict) v
           | None => v end in
  get (s"text") w ≫= get (s"format") = (λ '(schema, strict), responses_schema schema strict) <$> format.
Proof.
  intros Hv Hn. cbv zeta. unfold assign_text, index.
  destruct verbosity, format as [[schema strict]|]; rewrite ?get_assign_eq by (left; auto with bodies);
    rewrite ?Hn; done.
Qed.
Lemma responses_format r field retention off :
  body_format (responses_payload r field retention off) =
    (λ '(schema, strict), responses_schema schema strict) <$> native_response_schema r.
Proof.
  unfold body_format, responses_payload. cbv zeta. rewrite !get_policy_ne by done. frames.
  rewrite text_format by (auto with bodies || by frames).
  destruct (cq_verbosity r), (native_response_schema r) as [[schema strict]|]; by frames.
Qed.
Lemma anthropic_format r field retention : body_format (anthropic_payload r field retention) = None.
Proof.
  unfold body_format, anthropic_payload. cbv zeta.
  destruct (named_response _), (is_empty (_ ++ _)), (wants_prompt_cache _ _ _); by frames.
Qed.

(** C36: whatever the request asked for, if the format of the body says strict,
    then every schema reached from its schema through properties, definitions,
    items and alternatives is an object, or the boolean of an [items]. Where the
    type of such a node includes objects, it forbids additional properties and
    requires each property it declares; where it does not, the node has no
    keyword of objects, and likewise for arrays; references stay inside the
    document. A node without a type and a boolean [items] remain unconstrained,
    as [open_parts_pass] shows. *)
Theorem strict_body_closed p r body format schema sub :
  prepare_request p r = Ok body → body_format body = Some format →
  get_bool (s"strict") format = Some true → get (s"schema") format = Some schema →
  subschema schema sub → closed_schema sub.
Proof.
  intros (Hv & field & retention & off & _ & Hb)%prepared_cases Hf Hs Hg Hsub.
  apply validated_parts in Hv as (_ & Hv & _).
  assert (Hn : native_response_schema r = Some (schema, true)).
  { destruct Hb as [[_ (seed & limit & ->)]|[[_ ->]|[_ ->]]].
    - rewrite chat_format in Hf. apply bind_Some in Hf as ([sch strict] & -> & Hf).
      assert (get_bool (s"strict") format = Some strict ∧ get (s"schema") format = Some sch) as [? ?]
        by (injection Hf as <-; by split). by simplify_eq.
    - rewrite responses_format in Hf. apply fmap_Some in Hf as ([sch strict] & -> & ->).
      change (Some strict = Some true) in Hs. change (Some sch = Some schema) in Hg. by simplify_eq.
    - by rewrite anthropic_format in Hf. }
  by eapply strict_schema_closed, Hsub; eapply native_strict.
Qed.

Lemma named_tools {A} (ser : A → value) (name : A → str) l x more :
  (∀ a, named (ser a) = Some (name a)) → x ∈ map name l → x ∈ omap named (map ser l ++ more).
Proof.
  intros Hs Hx. rewrite omap_app, elem_of_app. left. apply list_elem_of_In, in_map_iff in Hx as (a & <- & Ha).
  apply list_elem_of_omap. exists (ser a). split; [|done]. by apply list_elem_of_In, in_map.
Qed.
Lemma chosen_declared r tool : choice_check r = Ok () → cq_tool_choice r = Some (ChoiceTool tool) →
  tool ∈ map ts_name (cq_tools r).
Proof.
  unfold choice_check, reject_if. intros Hc Hr. rewrite Hr in Hc. destruct (is_blank tool); [done|].
  destruct (existsb _ _) eqn:E; [|done]. apply existsb_exists in E as (t & Ht & <-%str_eqb_eq).
  by apply list_elem_of_In, in_map.
Qed.
Lemma openai_choice choice responses name : named (openai_tool_choice choice responses) = Some name →
  choice = Some (ChoiceTool name).
Proof. destruct choice as [[[]|tool]|], responses; cbn; try done; intros E; vm_compute in E; congruence. Qed.
Lemma with_tools_spec r tools choice v :
  is_object v = true → get (s"tools") v = None → get (s"tool_choice") v = None →
  get (s"tool_choice") (with_tools r tools choice v) = (if is_empty (cq_tools r) then None else Some choice) ∧
  get (s"tools") (with_tools r tools choice v) = (if is_empty (cq_tools r) then None else Some tools).
Proof.
  intros Hv Hn1 Hn2. unfold with_tools. destruct (is_empty (cq_tools r)); [done|].
  split; frames; apply get_assign_eq; left; auto with bodies.
Qed.

Lemma chat_forced r seed limit field retention off name : choice_check r = Ok () →
  let body := chat_completions_payload r seed limit field retention off in
  chosen_tool body = Some name → name ∈ offered body.
Proof.
  intros Hv. unfold chosen_tool, offered, index, chat_completions_payload. cbv zeta.
  rewrite !get_policy_ne by done.
  match goal with |- context [with_tools r ?tools ?choice ?v] =>
    destruct (with_tools_spec r tools choice v) as [-> ->]; [auto 20 with bodies|by destruct limit; frames..|] end.
  destruct (is_empty (cq_tools r)); [done|]. cbn [mbind option_bind default]. intros Hc%openai_choice.
  apply (chosen_declared r) in Hc; [|done]. cbn [as_array default]. rewrite <-(app_nil_r (map openai_tool _)).
  by apply (named_tools _ ts_name).
Qed.
Lemma responses_forced r field retention off name : choice_check r = Ok () →
  let body := responses_payload r field retention off in
  chosen_tool body = Some name → name ∈ offered body.
Proof.
  intros Hv. unfold chosen_tool, offered, index, responses_payload. cbv zeta. rewrite !get_policy_ne by done.
  match goal with |- context [with_web_search_tool r (with_tools r ?tools ?choice ?v)] =>
    assert (Hv' : is_object v = true) by
      (destruct (cq_verbosity r), (native_response_schema r) as [[]|]; auto 20 with bodies);
    destruct (with_tools_spec r tools choice v) as [Hchoice Htools]; [done| | |] end.
  1, 2: destruct (cq_verbosity r), (native_response_schema r) as [[]|]; by frames.
  unfold with_web_search_tool, index. destruct (cq_provider_web_search r) as [search|].
  - frames. rewrite Hchoice, Htools, get_assign_eq by (left; auto 20 with bodies).
    destruct (is_empty (cq_tools r)); [done|]. cbn [mbind option_bind default as_array]. intros Hc%openai_choice.
    apply (chosen_declared r) in Hc; [|done]. by apply (named_tools _ ts_name).
  - rewrite Hchoice, Htools. destruct (is_empty (cq_tools r)); [done|].
    cbn [mbind option_bind default as_array]. intros Hc%openai_choice.
    apply (chosen_declared r) in Hc; [|done]. rewrite <-(app_nil_r (map responses_tool _)).
    by apply (named_tools _ ts_name).
Qed.
Lemma anthropic_choice choice (solo : bool) name :
  named (if solo then assign (s"disable_parallel_tool_use") (VBool true) (anthropic_tool_choice choice)
         else anthropic_tool_choice choice) = Some name → choice = Some (ChoiceTool name).
Proof. destruct choice as [[[]|tool]|], solo; cbn; try done; intros E; vm_compute in E; congruence. Qed.
Lemma named_response_spec v tools : get (s"tools") v = Some (VArray tools) → named_response v = true →
  s"response" ∈ omap named tools.
Proof.
  intros Ht. unfold named_response, index at 2. rewrite Ht. cbn [default as_array some_and].
  intros (tool & Hin & Hn)%existsb_exists. apply list_elem_of_omap. exists tool. rewrite list_elem_of_In.
  split; [done|]. unfold index in Hn. unfold named, get_str.
  destruct (get (s"name") tool) as [[| | |x| |]|]; try done. cbn in Hn. apply str_eqb_eq in Hn as ->. done.
Qed.
Lemma anthropic_tools_forced P tools choice name :
  is_object P = true → get (s"tools") P = None → get (s"tool_choice") P = None →
  (named choice = Some name → name ∈ omap named tools) →
  let v := if is_empty tools then P else assign (s"tool_choice") choice (assign (s"tools") (VArray tools) P) in
  let w := if named_response v
           then assign (s"tool_choice") (obj [(s"type", VString (s"tool")); (s"name", VString (s"response"))]) v
           else v in
  chosen_tool w = Some name → name ∈ offered w.
Proof.
  intros HP Ht Hc Hname. cbv zeta. unfold chosen_tool, offered, index. destruct (is_empty tools).
  { unfold named_response, index. rewrite Ht. cbn [default as_array some_and]. by rewrite Hc. }
  set (v := assign (s"tool_choice") _ _).
  assert (Htv : get (s"tools") v = Some (VArray tools)).
  { unfold v. frames. apply get_assign_eq. by left. }
  assert (Hcv : get (s"tool_choice") v = Some choice) by (apply get_assign_eq; left; auto with bodies).
  assert (Hov : is_object v = true) by (unfold v; auto with bodies). clearbody v.
  destruct (named_response v) eqn:E; [|by rewrite Htv, Hcv].
  rewrite (get_assign_ne (s"tools")), Htv, get_assign_eq by (done || by left). intros [= <-].
  by apply (named_response_spec v).
Qed.
Lemma anthropic_forced r field retention name : choice_check r = Ok () →
  let body := anthropic_payload r field retention in
  chosen_tool body = Some name → name ∈ offered body.
Proof.
  intros Hv. unfold anthropic_payload. cbv zeta. apply anthropic_tools_forced.
  - auto 20 with bodies.
  - destruct (wants_prompt_cache _ _ _); by frames.
  - destruct (wants_prompt_cache _ _ _); by frames.
  - intros Hc%anthropic_choice. by apply (named_tools _ ts_name), chosen_declared.
Qed.

(** A body forces a tool only if it offers it, in each of the three formats. *)
Theorem forced_tool_offered p r body name :
  prepare_request p r = Ok body → chosen_tool body = Some name → name ∈ offered body.
Proof.
  intros (Hv & field & retention & off & _ & Hb)%prepared_cases Hc.
  apply validated_parts in Hv as (Hv & _ & _).
  destruct Hb as [[_ (seed & limit & ->)]|[[_ ->]|[_ ->]]];
    [by apply (chat_forced _ _ _ _ _ _ _ Hv)|by apply (responses_forced _ _ _ _ _ Hv)|
     by apply (anthropic_forced _ _ _ _ Hv)].
Qed.
End prepared.

(** The text beside tool calls reaches the chat and the Anthropic format; the
    Responses format leaves it out. *)
Lemma call_text_left_out `{JsonText} m content :
  cm_provider_state m = None → cm_tool_calls m ≠ [] →
  responses_items (mkMessage (cm_role m) content (cm_parts m) (cm_tool_calls m) (cm_tool_call_id m) None) =
    responses_items m.
Proof. intros Hs Hc. unfold responses_items. cbn. rewrite Hs. by destruct (cm_tool_calls m). Qed.

(** ** A concrete provider and requests *)

Module PayloadDemo.
#[local] Instance plain_text : JsonText := { json_from_str := λ _, Err []; json_to_string := λ _, s"{}" }.
#[local] Instance any_schema : SchemaCompiler := { schema_build := λ _, None }.
#[local] Instance zero_digest : Sha256 := { sha256_hex := λ _, replicate 64 48%Z }.
Definition all_capabilities : Capabilities :=
  mkCapabilities true true true true true true true true true true true true true true true true [EffortLow].
Definition row (api : ApiFlavor) : ProviderSpec :=
  mkProviderSpec (s"local") api all_capabilities [] None (Some FieldPromptCacheKey) None true.
Definition search_tool : ToolSpec :=
  mkToolSpec (s"search") (s"Search") (obj [(s"type", VString (s"object"))]).
Definition request (tools : list ToolSpec) (choice : option ToolChoice) (write : CacheWritePolicy) : ChatRequest :=
  mkChatRequest (s"local") (s"m") (Some (s"be brief")) [mkMessage (s"user") (s"hello") [] [] None None]
    tools (Some demo_schema) SoAuto None None 64 [] None None choice None (Some VerbLow) false CacheAuto write None
    None.
Definition prepared (api : ApiFlavor) (r : ChatRequest) : value :=
  match prepare_request (row api) r with Ok body => body | Err _ => VNull end.
Definition quiet : ChatRequest := request [] None WriteForbid.
Definition forced : ChatRequest := request [search_tool] (Some (ChoiceTool (s"search"))) WriteAllow.

Lemma quiet_prepared :
  prepare_request (row Responses) quiet = Ok (prepared Responses quiet) ∧
  prepare_request (row ChatCompletions) quiet = Ok (prepared ChatCompletions quiet) ∧
  prepare_request (row AnthropicMessages) quiet = Err (llm_new (row_name (row AnthropicMessages) quiet ++
    s"cannot guarantee no cache writes: Anthropic may cache tool/thinking continuations and server-tool results without qcg markers")).
Proof. vm_compute. done. Qed.
Lemma forced_search : chosen_tool (prepared ChatCompletions forced) = Some (s"search") ∧
  offered (prepared Responses forced) = [s"search"] ∧
  get_str (s"prompt_cache_key") (prepared Responses forced) = Some (s"cache-" ++ replicate 32 48%Z).
Proof. vm_compute. done. Qed.
Lemma forbidden_cache_writes_witness :
  get (s"prompt_cache_options") (prepared Responses quiet) = Some (obj [(s"mode", VString (s"explicit"))]) ∧
  get (s"prompt_cache_key") (prepared Responses quiet) = None.
Proof.
  destruct (forbidden_cache_writes (row Responses) quiet (prepared Responses quiet))
    as (_ & _ & Ho & Hk & _); [apply quiet_prepared|done|by split].
Defined.
Lemma strict_body_closed_witness : closed_schema demo_items.
Proof.
  apply (strict_body_closed (row ChatCompletions) quiet (prepared ChatCompletions quiet)
    (obj [(s"name", VString (s"response")); (s"strict", VBool true); (s"schema", demo_schema)])
    demo_schema); [apply quiet_prepared|vm_compute; done..|exact demo_items_below].
Defined.
End PayloadDemo.
