(* ===== verification/LlmGateway.v ===== *)
(** * The model gateway

    [engine/src/llm_gateway] and the secret store of [engine/src/secret.rs]:
    every model call of a step.  The request is scanned for secrets, its tokens
    and cost are reserved against the budget of the run, the routes are tried in
    order, streamed text is published only as far as no secret can be completed
    from it, the call is priced and recorded, and the answer is scanned before
    anyone sees it.

    The journal writer and the table of reservations are shared by the tasks of
    a process: before each access other tasks may have changed them
    ([wd_others]).  The provider answers as it likes; an awaited call may also be
    dropped with its future, which ends in [Gone].  [ca_records], [ca_pool] and
    [ca_sent] are history. *)

From S2P Require Import Prelude Str BMap Json Serde Events RunState TraceIds AuditRules JournalFile JournalWriter TextGate LlmRetry LlmParse LlmHttp CostTier Graph EngineTypes EngineWorld LlmDecision LlmRequest.
From Stdlib Require Import SpecFloat.

#[local] Arguments s : simpl never.

(** ** Secrets *)

Record SecretStore : Type := mkSecretStore { ss_values : bmap str }.
Definition from_values (values : bmap str) : SecretStore :=
  mkSecretStore (bm_retain (λ _ v, negb (bool_decide (v = []))) values).
Definition secret_get (st : SecretStore) (name : str) : option str := bm_get name (ss_values st).
Definition store_is_empty (st : SecretStore) : bool := bool_decide (length (ss_values st) = 0).
Definition max_value_len (st : SecretStore) : Z := foldr Z.max 0%Z (map str_len (bm_values (ss_values st))).
Fixpoint assert_absent_go (values : list (str * str)) (text : str) : result str () :=
  match values with
  | [] => Ok ()
  | (name, v) :: values =>
      if negb (bool_decide (v = [])) && contains_str text v
      then Err (s"secret `" ++ name ++ s"` value was found in LLM context")
      else assert_absent_go values text
  end.
Definition assert_absent (st : SecretStore) (text : str) : result str () :=
  assert_absent_go (ss_values st) text.

(** [x.find(p)]: what is before and after the first occurrence. *)
Fixpoint split_first (p x : str) : option (str * str) :=
  match strip_prefix p x with
  | Some rest => Some ([], rest)
  | None =>
      match x with
      | [] => None
      | c :: x => '(a, b) ← split_first p x; Some (c :: a, b)
      end
  end.
Definition OPEN : str := s"{{SECRET:".
Definition CLOSE : str := s"}}".
(** The loop consumes at least the marker; [fuel] is the length of the text. *)
Fixpoint inject_loop (fuel : nat) (st : SecretStore) (allowed : list str) (output rest : str) :
    result str str :=
  match split_first OPEN rest, fuel with
  | None, _ => Ok (output ++ rest)
  | Some (before, after_start), S fuel =>
      let output := output ++ before in
      match split_first CLOSE after_start with
      | None => Err (s"unterminated SECRET placeholder")
      | Some (name, rest) =>
          let name := trim name in
          if negb (existsb (λ a, a =s name) allowed)
          then Err (s"secret `" ++ name ++ s"` is used but is not declared by the transform")
          else
            v ← ok_or (secret_get st name) (s"secret `" ++ name ++ s"` is not available");
            inject_loop fuel st allowed (output ++ v) rest
      end
  | Some _, O => Ok (output ++ rest)
  end.
Definition inject_declared_placeholders (st : SecretStore) (text : str) (allowed : list str) : result str str :=
  inject_loop (length text) st allowed [] text.

(** ** Data of the gateway *)

Record ModelRef : Type := mkModelRef {
  mr_provider : str;
  mr_model : str;
  mr_input : option f64;
  mr_cache_creation : option f64;
  mr_cache_read : option f64;
  mr_output : option f64;
  mr_web_search_call : option f64;
  mr_cost_tiers : list CostTier;
}.
Definition model_rates (m : ModelRef) : CostRates :=
  mkCostRates (mr_input m) (mr_cache_read m) (mr_cache_creation m) (mr_output m).
Definition invalid_price (m : ModelRef) : option str :=
  match invalid_rate (model_rates m) with
  | Some field => Some field
  | None => if rate_is_invalid (mr_web_search_call m) then Some (s"web_search_call_cost_usd") else None
  end.
Record LlmCostBudget : Type := mkCostBudget {
  cb_max_tokens : option Z;
  cb_max_cost_microusd : option Z;
  cb_require_pricing : bool;
}.
Record PendingReservation : Type := mkReservation { rv_tokens : Z; rv_cost_microusd : Z }.
Record LlmGateway : Type := mkGateway {
  gw_provider : ProviderTraits;
  gw_secrets : SecretStore;
  gw_budget : LlmCostBudget;
  gw_pricing : list ModelRef;
}.

(** ** Scanning *)

(** [self.secrets.assert_absent(text).step_err(&node.id)]. *)
Definition scan_text (g : LlmGateway) (node : NodeDef) (text : str) : result StepError () :=
  map_err (SFailed (nd_id node)) (assert_absent (gw_secrets g) text).
Fixpoint assert_value_absent (g : LlmGateway) (node : NodeDef) (v : value) : result StepError () :=
  match v with
  | VString x => scan_text g node x
  | VArray l => foldr (λ v rest, _ ← assert_value_absent g node v; rest) (Ok ()) l
  | VObject m =>
      foldr (λ kv rest, _ ← scan_text g node kv.1; _ ← assert_value_absent g node kv.2; rest) (Ok ()) m
  | VNull | VBool _ | VNumber _ => Ok ()
  end.
Definition each {A} (f : A → result StepError ()) (l : list A) : result StepError () :=
  foldM (λ _, f) () l.
Definition each_some {A} (f : A → result StepError ()) (o : option A) : result StepError () :=
  match o with Some x => f x | None => Ok () end.
Definition scan_part (g : LlmGateway) (node : NodeDef) (part : ChatContentPart) : result StepError () :=
  match part with
  | PartText text => scan_text g node text
  | PartImage media_type _ _ | PartAudio media_type _ => scan_text g node media_type
  | PartFile media_type _ filename => _ ← scan_text g node media_type; scan_text g node filename
  end.
Definition scan_message (g : LlmGateway) (node : NodeDef) (m : ChatMessage) : result StepError () :=
  _ ← scan_text g node (cm_content m);
  _ ← each (scan_part g node) (cm_parts m);
  _ ← each_some (scan_text g node) (cm_tool_call_id m);
  _ ← each (λ call,
        _ ← scan_text g node (tc_id call);
        _ ← scan_text g node (tc_name call);
        assert_value_absent g node (tc_args call)) (cm_tool_calls m);
  each_some (λ state, assert_value_absent g node (VArray state)) (cm_provider_state m).
Definition scan_request (g : LlmGateway) (node : NodeDef) (r : ChatRequest) : result StepError () :=
  _ ← each_some (scan_text g node) (cq_system r);
  each (scan_message g node) (cq_messages r).
Definition scan_response (g : LlmGateway) (node : NodeDef) (r : ChatResponse) : result StepError () :=
  _ ← each (λ content, match content with
                       | Text text => scan_text g node text
                       | ToolCall id name args =>
                           _ ← scan_text g node id;
                           _ ← scan_text g node name;
                           assert_value_absent g node args
                       end) (cr_content r);
  each_some (assert_value_absent g node) (cr_provider_state r).

(** ** Pricing a call *)

(** [x.ceil() as u64] and [x.round().clamp(0.0, u64::MAX as f64) as u64]: the
    cast saturates, and is zero on a NaN. *)
Definition saturate_u64 (z : Z) : Z := Z.max 0 (Z.min U64_MAX z).
Definition cast_u64 (of_finite : bool → positive → Z → Z) (x : f64) : Z :=
  match x with
  | S754_finite sx m e => saturate_u64 (of_finite sx m e)
  | S754_infinity sx => if sx then 0%Z else U64_MAX
  | _ => 0%Z
  end.
Definition ceil_finite (sx : bool) (m : positive) (e : Z) : Z :=
  if (0 <=? e)%Z then (if sx then - (Zpos m * 2 ^ e) else Zpos m * 2 ^ e)%Z
  else let d := (2 ^ (- e))%Z in
       (if sx then - (Zpos m / d) else (Zpos m + d - 1) / d)%Z.
Definition round_finite (sx : bool) (m : positive) (e : Z) : Z :=
  if (0 <=? e)%Z then (if sx then - (Zpos m * 2 ^ e) else Zpos m * 2 ^ e)%Z
  else let d := (2 ^ (- e))%Z in
       let r := ((2 * Zpos m + d) / (2 * d))%Z in (if sx then - r else r)%Z.
Definition f64_ceil_u64 (x : f64) : Z := cast_u64 ceil_finite x.
Definition f64_round_u64 (x : f64) : Z := cast_u64 round_finite x.

Definition cache_write_multiplier (g : LlmGateway) (provider model : str) (retention : option CacheRetention) :
    option f64 :=
  match retention with
  | None => None
  | Some RetentionExtended =>
      retention ← pt_prompt_cache_retention (gw_provider g) provider model;
      match retention with
      | Ttl1h => Some (f64_of_Z 2)
      | Ttl12h => Some (f64_of_decimal 25 (-1))
      | Retention24h => None
      end
  end.
Definition pricing_row (m : ModelRef) : PricingRow :=
  mkPricingRow (mr_provider m) (mr_model m) (mr_input m) (mr_cache_creation m) (mr_cache_read m)
    (mr_output m) (mr_web_search_call m).
Definition selected_route (g : LlmGateway) (routes : list ModelRef) (provider model : str) : option ModelRef :=
  let entries := routes ++ gw_pricing g in
  index ← select_pricing (map pricing_row entries) provider model;
  entries !! index.
Definition MILLION : f64 := f64_of_Z 1000000.
Definition web_search_cost_microusd (g : LlmGateway) (routes : list ModelRef) (provider model : str)
    (calls : option Z) : option Z :=
  calls ← calls;
  if (calls =? 0)%Z then Some 0%Z
  else
    price ← selected_route g routes provider model ≫= mr_web_search_call;
    Some (f64_round_u64 (f64_mul (f64_mul (f64_of_Z calls) price) MILLION)).
Definition model_name (provider model : str) : str := s"model `" ++ provider ++ s"/" ++ model ++ s"` ".
Definition cost_microusd (g : LlmGateway) (node : NodeDef) (routes : list ModelRef) (provider model : str)
    (usage : TokenUsage) (retention : option CacheRetention) (web_search_calls : option Z) :
    result StepError Z :=
  let fail message := SFailed (nd_id node) message in
  ordinary ← map_err (λ e, fail (le_message e)) (ordinary_input usage);
  match selected_route g routes provider model with
  | None =>
      if cb_require_pricing (gw_budget g)
      then Err (fail (model_name provider model ++ s"has no pricing for the run cost budget"))
      else Ok 0%Z
  | Some route =>
      let prompt_input :=
        saturating_add U64_MAX (saturating_add U64_MAX ordinary (tu_cached_input usage))
          (tu_cache_creation_input usage) in
      let tier := select_cost_tier (mr_cost_tiers route) prompt_input in
      let base := resolve_rates (model_rates route) tier in
      let rates :=
        match cache_write_multiplier g provider model retention with
        | Some factor => mkCostRates (cr_input base) (cr_cache_read base)
                           ((λ rate, f64_mul rate factor) <$> cr_input base) (cr_output base)
        | None => base
        end in
      if cb_require_pricing (gw_budget g)
         && (negb (is_some (cr_input rates)) || negb (is_some (cr_output rates))
             || ((0 <? tu_cached_input usage)%Z && negb (is_some (cr_cache_read rates)))
             || ((0 <? tu_cache_creation_input usage)%Z && negb (is_some (cr_cache_creation rates))))
      then Err (fail (model_name provider model ++ s"has incomplete pricing for the run cost budget"))
      else if is_some (invalid_rate rates) then Err (fail (s"invalid model pricing"))
      else
        let rate o := default f64_zero o in
        let cost n o := f64_mul (f64_of_Z n) (rate o) in
        let microusd :=
          f64_add (f64_add (f64_add (cost ordinary (cr_input rates))
                              (cost (tu_cached_input usage) (cr_cache_read rates)))
                     (cost (tu_cache_creation_input usage) (cr_cache_creation rates)))
            (cost (tu_output usage) (cr_output rates)) in
        match web_search_calls, mr_web_search_call route with
        | Some calls, Some price =>
            if (0 <? calls)%Z then
              if rate_is_invalid (Some price) then Err (fail (s"invalid model pricing"))
              else Ok (f64_round_u64
                         (f64_add microusd (f64_mul (f64_mul (f64_of_Z calls) price) MILLION)))
            else Ok (f64_round_u64 microusd)
        | _, _ => Ok (f64_round_u64 microusd)
        end
  end.

(** ** Reservations *)

(** The length of the serialized request, or the text of the error. *)
Class ChatCodec := { request_len : ChatRequest → result str Z }.

Section estimate.
Context `{ChatCodec}.
(** The rows of a route: the base, then each tier. *)
Definition row_check (g : LlmGateway) (node : NodeDef) (unpriced : str → StepError) (base : CostRates)
    (ttl : option f64) (tier : option CostTier) : result StepError () :=
  let row := resolve_rates base tier in
  if cb_require_pricing (gw_budget g)
     && (negb (is_some (cr_cache_read row)) || (negb (is_some ttl) && negb (is_some (cr_cache_creation row))))
  then Err (unpriced (s"lacks cache input pricing in a base or tier row"))
  else
    match ttl with
    | None => Ok ()
    | Some multiplier =>
        input ← ok_or (cr_input row)
                  (unpriced (s"lacks ordinary input pricing for extended cache TTL"));
        if negb (f64_is_finite input) || f64_ltb input f64_zero
           || negb (f64_is_finite (f64_mul input multiplier))
        then Err (SFailed (nd_id node) (s"invalid model pricing")) else Ok ()
    end.
Definition estimate_cost (g : LlmGateway) (node : NodeDef) (r : ChatRequest) (routes : list ModelRef)
    (input_est max_output : Z) : result StepError Z :=
  let unpriced detail :=
    SFailed (nd_id node) (model_name (cq_provider r) (cq_model r) ++ detail ++ s"; refusing blind spend") in
  route ← ok_or (selected_route g routes (cq_provider r) (cq_model r)) (unpriced (s"has no priced entry"));
  let base := model_rates route in
  let ttl := cache_write_multiplier g (cq_provider r) (cq_model r) (cq_cache_retention r) in
  _ ← each (row_check g node unpriced base ttl) (None :: map Some (mr_cost_tiers route));
  let highest := max_cost_rates base (mr_cost_tiers route) in
  let rates :=
    match ttl with
    | Some multiplier => mkCostRates (cr_input highest) (cr_cache_read highest)
                           ((λ input, f64_mul input multiplier) <$> cr_input highest) (cr_output highest)
    | None => highest
    end in
  match max_input_rate rates, cr_output rates with
  | Some input_rate, Some output =>
      if rate_is_invalid (Some input_rate) || rate_is_invalid (Some output)
      then Err (SFailed (nd_id node) (s"invalid model pricing"))
      else
        Ok match cb_max_cost_microusd (gw_budget g) with
           | Some _ => f64_ceil_u64 (f64_add (f64_mul (f64_of_Z input_est) input_rate)
                                       (f64_mul (f64_of_Z max_output) output))
           | None => 0%Z
           end
  | _, _ => Err (unpriced (s"lacks pricing"))
  end.
Definition estimate_reservation (g : LlmGateway) (node : NodeDef) (r : ChatRequest) (routes : list ModelRef) :
    result StepError (option PendingReservation) :=
  let b := gw_budget g in
  let bounded := is_some (cb_max_tokens b) || is_some (cb_max_cost_microusd b) in
  if negb bounded && negb (cb_require_pricing b) then Ok None
  else
    prompt_bytes ← map_err (λ e, SFailed (s"budget") (s"request is not serializable: " ++ e)) (request_len r);
    let input_est := ((prompt_bytes + 3) / 4)%Z in
    let tokens := saturating_add U64_MAX input_est (cq_max_tokens r) in
    cost ← (if cb_require_pricing b || is_some (cb_max_cost_microusd b)
            then estimate_cost g node r routes input_est (cq_max_tokens r) else Ok 0%Z);
    Ok (if bounded then Some (mkReservation tokens cost) else None).
End estimate.

Definition exceeds (used : Z) (limit : option Z) : option Z :=
  limit ← limit; if (limit <? used)%Z then Some limit else None.
Definition check_budget_values (g : LlmGateway) (tokens cost : Z) : result StepError () :=
  match exceeds tokens (cb_max_tokens (gw_budget g)) with
  | Some limit => Err (SBudgetExceeded (s"tokens") tokens limit)
  | None =>
      match exceeds cost (cb_max_cost_microusd (gw_budget g)) with
      | Some limit => Err (SBudgetExceeded (s"cost_microusd") cost limit)
      | None => Ok ()
      end
  end.

Definition no_reservation : PendingReservation := mkReservation 0 0.
Definition add_reservation (a b : PendingReservation) : PendingReservation :=
  mkReservation (saturating_add U64_MAX (rv_tokens a) (rv_tokens b))
    (saturating_add U64_MAX (rv_cost_microusd a) (rv_cost_microusd b)).
(** [saturating_sub] of unsigned integers. *)
Definition sub_reservation (a b : PendingReservation) : PendingReservation :=
  mkReservation (Z.max 0 (rv_tokens a - rv_tokens b))
    (Z.max 0 (rv_cost_microusd a - rv_cost_microusd b)).
(** The critical section of [try_reserve]: [map.entry(run_id).or_default()]
    stays when the budget refuses. *)
Definition reserve_pending (g : LlmGateway) (spent_tokens spent_cost : Z) (run_id : str)
    (r : PendingReservation) (m : bmap PendingReservation) : bmap PendingReservation * result StepError () :=
  let entry := default no_reservation (bm_get run_id m) in
  let projected_tokens :=
    saturating_add U64_MAX (saturating_add U64_MAX spent_tokens (rv_tokens entry)) (rv_tokens r) in
  let projected_cost :=
    saturating_add U64_MAX (saturating_add U64_MAX spent_cost (rv_cost_microusd entry))
      (rv_cost_microusd r) in
  match check_budget_values g projected_tokens projected_cost with
  | Err e => (bm_insert run_id entry m, Err e)
  | Ok _ => (bm_insert run_id (add_reservation entry r) m, Ok ())
  end.
Definition release_pending (run_id : str) (r : PendingReservation) (m : bmap PendingReservation) :
    bmap PendingReservation :=
  match bm_get run_id m with
  | None => m
  | Some entry =>
      let entry := sub_reservation entry r in
      if (rv_tokens entry =? 0)%Z && (rv_cost_microusd entry =? 0)%Z then bm_remove run_id m
      else bm_insert run_id entry m
  end.

(** ** JSON forms of the records *)

Definition ser_kind (k : LlmErrorKind) : value :=
  match k with
  | HttpStatus status => obj [(s"http_status", v_num status)]
  | LlmRetry.TimedOut => VString (s"timed_out") | Network => VString (s"network")
  | EmptyResponse => VString (s"empty_response") | InvalidResponse => VString (s"invalid_response")
  | PartialStream => VString (s"partial_stream") | CallCanceled => VString (s"canceled")
  | CircuitOpen => VString (s"circuit_open") | Other => VString (s"other")
  end.
Definition ser_action (a : RetryAction) : value :=
  VString match a with FailFast => s"fail_fast" | Retry => s"retry" | NextRoute => s"next_route" end.
Definition ser_guard (x : RetryGuard) : value :=
  VString match x with
          | AttemptLimit => s"attempt_limit" | StreamEmitted => s"stream_emitted"
          | TerminalError => s"terminal_error" | CircuitOpenGuard => s"circuit_open"
          end.
Definition ser_facts (f : TransportFacts) : value :=
  obj [ (s"phase", VString match tf_phase f with
                           | PhConnect => s"connect" | PhResponse => s"response" | PhUnknown => s"unknown" end);
        (s"dispatch", VString match tf_dispatch f with
                              | NotSent => s"not_sent" | Sent => s"sent" | DispatchUnknown => s"unknown" end) ].
Definition present {A} (key : str) (f : A → value) (o : option A) : list (str * value) :=
  match o with Some x => [(key, f x)] | None => [] end.
Definition ser_decision (d : RetryDecision) : value :=
  obj ([ (s"kind", ser_kind (dc_kind d)); (s"facts", ser_facts (dc_facts d));
         (s"attempt", v_opt (λ n, v_num (Z.of_nat n)) (dc_attempt d)); (s"stream", VBool (dc_stream d));
         (s"requested", ser_action (dc_requested d)); (s"action", ser_action (dc_action d));
         (s"source", VString (dc_source d)); (s"guard", v_opt ser_guard (dc_guard d));
         (s"retry_after_applied", VBool (dc_retry_after_applied d)) ]
       ++ present (s"provider_code") VString (dc_provider_code d)
       ++ present (s"retry_after_observed_secs") v_num (dc_retry_after_observed_secs d)
       ++ present (s"retry_after_secs") v_num (dc_retry_after_secs d)).
Definition ser_decisions (l : list RetryDecision) : value := VArray (map ser_decision l).
Definition ser_structured (m : StructuredOutputMode) : value :=
  VString match m with
          | SoAuto => s"auto" | SoNativeStrict => s"native_strict"
          | SoNativeCompatible => s"native_compatible" | SoPrompt => s"prompt"
          end.
Definition ser_tool_choice (c : ToolChoice) : value :=
  match c with
  | ChoiceMode m => VString match m with
                            | ModeNone => s"none" | ModeAuto => s"auto" | ModeRequired => s"required" end
  | ChoiceTool tool => obj [(s"tool", VString tool)]
  end.
Definition ser_verbosity (x : ResponseVerbosity) : value :=
  VString match x with VerbLow => s"low" | VerbMedium => s"medium" | VerbHigh => s"high" end.

(** The body of an [llm_call] record of a completion. *)
Definition call_record (node : NodeDef) (provider model : str) (r : ChatRequest) (usage : TokenUsage)
    (stop : StopReason) (cost : Z) : value :=
  obj [ (s"node", VString (nd_id node)); (s"provider", VString provider); (s"model", VString model);
        (s"seed", v_opt v_num (cq_seed r));
        (s"reasoning_effort", v_opt (λ e, VString (effort_str e)) (cq_reasoning_effort r));
        (s"temperature", v_opt v_f64 (cq_temperature r)); (s"top_p", v_opt v_f64 (cq_top_p r));
        (s"max_tokens", v_num (cq_max_tokens r));
        (s"stop_sequences", VArray (map VString (cq_stop_sequences r)));
        (s"structured_output", ser_structured (cq_structured_output r));
        (s"tool_choice", v_opt ser_tool_choice (cq_tool_choice r));
        (s"parallel_tool_calls", v_opt VBool (cq_parallel_tool_calls r));
        (s"verbosity", v_opt ser_verbosity (cq_verbosity r)); (s"stream", VBool (cq_stream r));
        (s"tokens", ser_usage usage); (s"stop_reason", ser_stop stop); (s"cost_microusd", v_num cost) ].
Definition with_cache_policy (r : ChatRequest) (event : value) : value :=
  let event := match cq_cache_write r with
               | WriteForbid => set_key (s"cache_write_policy") (VString (s"forbid")) event
               | WriteAllow => event
               end in
  match cq_cache_retention r with
  | Some RetentionExtended => set_key (s"cache_retention") (VString (s"extended")) event
  | None => event
  end.
(** Strings that contain a secret are left out of the record. *)
Definition with_web_search (g : LlmGateway) (node : NodeDef) (outcome : option ProviderWebSearchOutcome)
    (search_cost : option Z) (event : value) : value :=
  match outcome with
  | None => event
  | Some o =>
      let field key v search := if is_ok (assert_value_absent g node v) then set_key key v search else search in
      let search := obj [(s"calls", v_opt v_num (wo_calls o)); (s"cost_microusd", v_opt v_num search_cost)] in
      let search := field (s"events") (VArray (map ser_search_event (wo_events o))) search in
      let search := field (s"citations") (VArray (map ser_citation (wo_citations o))) search in
      set_key (s"web_search") search event
  end.
Definition merge_event_extra (event extra : value) : value :=
  match event, extra with
  | VObject m, VObject m' => VObject (bm_extend m m')
  | _, _ => event
  end.

(** ** A call *)

(** [StreamAccumulator]. *)
Record StreamAccumulator : Type := mkAccumulator {
  sa_index : Z;
  sa_pending : str;
  sa_published_tail : str;
  sa_response : option ChatResponse;
  sa_rejection : option LlmError;
  sa_canceled : bool;
}.
Definition acc_default : StreamAccumulator := mkAccumulator 0 [] [] None None false.
Definition acc_eta (a : StreamAccumulator) : StreamAccumulator :=
  mkAccumulator (sa_index a) (sa_pending a) (sa_published_tail a) (sa_response a) (sa_rejection a)
    (sa_canceled a).
#[global] Instance set_sa_index : Setter sa_index := ltac:(derive_setter acc_eta sa_index).
#[global] Instance set_sa_pending : Setter sa_pending := ltac:(derive_setter acc_eta sa_pending).
#[global] Instance set_sa_published_tail : Setter sa_published_tail := ltac:(derive_setter acc_eta sa_published_tail).
#[global] Instance set_sa_response : Setter sa_response := ltac:(derive_setter acc_eta sa_response).
#[global] Instance set_sa_rejection : Setter sa_rejection := ltac:(derive_setter acc_eta sa_rejection).
#[global] Instance set_sa_canceled : Setter sa_canceled := ltac:(derive_setter acc_eta sa_canceled).
Definition llm_error (kind : LlmErrorKind) (message : str) : LlmError :=
  mkLlmError message kind facts_default [] None None.
Definition reject (a : StreamAccumulator) (e : StepError) : StreamAccumulator :=
  a <| sa_pending := [] |> <| sa_published_tail := [] |>
    <| sa_rejection := Some (llm_error PartialStream (step_error_text e)) |>.
(** The suffix of at most [holdback] bytes, from a character boundary on. *)
Fixpoint suffix_within (holdback : Z) (x : str) : str :=
  match x with
  | [] => []
  | _ :: r => if (str_len x <=? holdback)%Z then x else suffix_within holdback r
  end.
Definition holdback_tail (published : str) (holdback : Z) : str := suffix_within holdback published.

(** How a computation that may be dropped ends. *)
Inductive exit (A : Type) : Type := Done (a : A) | Failed (e : StepError) | Gone.
Arguments Done {A}.
Arguments Failed {A}.
Arguments Gone {A}.

(** What an awaited future of the provider does: the decisions its router
    reports and its answer; or the cancellation token fires first; or the future
    is dropped. *)
Inductive await (A : Type) : Type :=
| Answer (observed : list RetryDecision) (a : A)
| CancelWins (observed : list RetryDecision)
| Dropped.
Arguments Answer {A}.
Arguments CancelWins {A}.
Arguments Dropped {A}.
(** The arms of the loop over a stream; after the last the future is dropped. *)
Inductive stream_move : Type :=
| MvEvent (e : ChatStreamEvent)
| MvClosed
| MvCancel (queued : list ChatStreamEvent)
| MvDone (r : result LlmError ()) (queued : list ChatStreamEvent).

Inductive pool_op : Type :=
| PoolReserve (run_id : str) (r : PendingReservation)
| PoolRelease (run_id : str) (r : PendingReservation).

Section gateway.
Context {W : WireTypes} {SJ : SerdeJson} {C : StateCodec} {H : Sha256} {M : Messages} {CC : ChatCodec}.

Record Shared : Type := mkShared {
  sh_disk : Disk;
  sh_writer : JournalWriter;
  sh_reservations : bmap PendingReservation;
}.
Record World : Type := mkWorld {
  wd_clock : nat → Clock;
  wd_out : nat → write_outcome * write_outcome;
  wd_others : nat → Shared → Shared;
  wd_complete : nat → await (result LlmError ChatResponse);
  wd_stream : nat → list RetryDecision * list stream_move;
  wd_decide : nat → await (result LlmError DecisionResponse);
}.
Record Call : Type := mkCall {
  ca_shared : Shared;
  ca_tick : nat;
  ca_records : list (str * value);
  ca_pool : list pool_op;
  ca_sent : list (str * str);
}.

Definition CM (A : Type) : Type := Call → Call * exit A.
#[global] Instance cm_ret : MRet CM := λ A x c, (c, Done x).
#[global] Instance cm_bind : MBind CM := λ A B f m c,
  match m c with
  | (c, Done x) => f x c
  | (c, Failed e) => (c, Failed e)
  | (c, Gone) => (c, Gone)
  end.
Definition raise {A} (e : StepError) : CM A := λ c, (c, Failed e).
Definition gone {A} : CM A := λ c, (c, Gone).
Definition pure {A} (r : result StepError A) : CM A :=
  λ c, (c, match r with Ok x => Done x | Err e => Failed e end).
(** The result as a value; being dropped is not caught. *)
Definition catch {A} (m : CM A) : CM (result StepError A) := λ c,
  match m c with
  | (c, Done x) => (c, Done (Ok x))
  | (c, Failed e) => (c, Done (Err e))
  | (c, Gone) => (c, Gone)
  end.
Definition step {A} (f : Call → Call * exit A) : CM A := f.

Variables (w : World) (g : LlmGateway).

(** The next access to shared state: other tasks may have come first. *)
Definition turn : CM nat := λ c,
  (mkCall (wd_others w (ca_tick c) (ca_shared c)) (ca_tick c + 1) (ca_records c) (ca_pool c) (ca_sent c),
   Done (ca_tick c)).
Definition journal_state : CM RunState :=
  _ ← turn; step (λ c, (c, Done (jw_state (sh_writer (ca_shared c))))).
(** [journal.event] and [journal.durable_event]. *)
Definition journal_append (durable : bool) (kind : str) (payload : value) : CM (result JError ()) :=
  n ← turn;
  step (λ c,
    let sh := ca_shared c in
    let clock := wd_clock w n in
    let '(d, wr, r) :=
      if durable then
        let '(d, wr, r) := durable_event clock (wd_out w n).1 kind (ser_ok payload) (sh_disk sh) (sh_writer sh) in
        (d, wr, (λ _, ()) <$> r)
      else
        let '(d, wr, r) := writer_event clock (wd_out w n).1 (wd_out w n).2 kind (ser_ok payload)
                             (sh_disk sh) (sh_writer sh) in
        (d, wr, (λ _, ()) <$> r) in
    (mkCall (mkShared d wr (sh_reservations sh)) (ca_tick c) (ca_records c ++ [(kind, payload)])
       (ca_pool c) (ca_sent c), Done r)).
Definition step_err {A} (node : NodeDef) (r : result JError A) : result StepError A :=
  map_err (λ e, SFailed (nd_id node) (journal_error_text e)) r.
Definition llm_step_err {A} (node : NodeDef) (r : result LlmError A) : result StepError A :=
  map_err (λ e, SFailed (nd_id node) (le_message e)) r.

Definition run_id_of (st : RunState) : str := default [] (rs_run_id st).
Definition spent_tokens (st : RunState) : Z :=
  saturating_add U64_MAX (bs_tokens_input (rs_budget st)) (bs_tokens_output (rs_budget st)).
Definition try_reserve (reservation : option PendingReservation) : CM () :=
  st ← journal_state;
  if cb_require_pricing (gw_budget g) && bs_unresolved_search_cost (rs_budget st)
  then raise (SFailed (s"budget") (s"run has unresolved hosted search cost; refusing blind spend"))
  else
    match reservation with
    | None => mret ()
    | Some r =>
        st' ← journal_state;
        let run_id := run_id_of st' in
        _ ← turn;
        step (λ c,
          let sh := ca_shared c in
          let '(m, out) := reserve_pending g (spent_tokens st) (bs_cost_microusd (rs_budget st)) run_id r
                             (sh_reservations sh) in
          (mkCall (mkShared (sh_disk sh) (sh_writer sh) m) (ca_tick c) (ca_records c)
             (ca_pool c ++ match out with Ok _ => [PoolReserve run_id r] | Err _ => [] end) (ca_sent c),
           match out with Ok x => Done x | Err e => Failed e end))
    end.
Definition release_now (run_id : str) (r : PendingReservation) : CM () :=
  _ ← turn;
  step (λ c,
    let sh := ca_shared c in
    (mkCall (mkShared (sh_disk sh) (sh_writer sh) (release_pending run_id r (sh_reservations sh)))
       (ca_tick c) (ca_records c) (ca_pool c ++ [PoolRelease run_id r]) (ca_sent c), Done ())).
Definition release_reservation (reservation : option PendingReservation) : CM () :=
  match reservation with
  | None => mret ()
  | Some r => st ← journal_state; release_now (run_id_of st) r
  end.
Definition check_budget : CM () :=
  st ← journal_state;
  pure (check_budget_values g (spent_tokens st) (bs_cost_microusd (rs_budget st))).

(** *** Streams *)

Definition delta_record (node : NodeDef) (provider model : str) (index : Z) (text : str) : value :=
  obj [ (s"node", VString (nd_id node)); (s"provider", VString provider); (s"model", VString model);
        (s"index", v_num index); (s"text", VString text) ].
(** The accumulator is borrowed: it is also returned beside an error. *)
Definition Recorded : Type := StreamAccumulator * result LlmError ().
Definition publish_delta (node : NodeDef) (provider model text : str) (a : StreamAccumulator) : CM Recorded :=
  r ← journal_append false (s"llm_delta") (delta_record node provider model (sa_index a) text);
  mret match r with
       | Ok _ => (a <| sa_index := saturating_add USIZE_MAX (sa_index a) 1 |>, Ok ())
       | Err e => (a, Err (llm_new (journal_error_text e)))
       end.
Definition record_text (node : NodeDef) (provider model text : str) (a : StreamAccumulator) : CM Recorded :=
  if is_some (sa_rejection a) then mret (a, Ok ())
  else if store_is_empty (gw_secrets g) then
    match scan_text g node text with
    | Err e => mret (a, Err (llm_new (step_error_text e)))
    | Ok _ => publish_delta node provider model text a
    end
  else
    let a := a <| sa_pending := sa_pending a ++ text |> in
    let holdback := Z.max 0 (max_value_len (gw_secrets g) - 1) in
    match scan_text g node (sa_published_tail a ++ sa_pending a) with
    | Err e => mret (reject a e, Ok ())
    | Ok _ =>
        let '(publish, rest) := split_floor (Z.max 0 (str_len (sa_pending a) - holdback)) (sa_pending a) in
        if bool_decide (publish = []) then mret (a, Ok ())
        else
          '(a, r) ← publish_delta node provider model publish (a <| sa_pending := rest |>);
          mret match r with
               | Ok _ =>
                   (a <| sa_published_tail := holdback_tail (sa_published_tail a ++ publish) holdback |>, Ok ())
               | Err e => (a, Err e)
               end
    end.
Definition record_completed (node : NodeDef) (provider model : str) (completed : ChatResponse)
    (a : StreamAccumulator) : CM Recorded :=
  let settled a := (a <| sa_response := Some completed |>, Ok ()) in
  if negb (is_some (sa_rejection a)) && negb (store_is_empty (gw_secrets g))
     && negb (bool_decide (cr_stop completed = ModelContextWindowExceeded)) then
    if negb (is_ok (scan_response g node completed)) || bool_decide (sa_pending a = [])
    then mret (settled a)
    else
      let flush := sa_pending a in
      match scan_text g node (sa_published_tail a ++ flush) with
      | Err e => mret (settled (reject a e))
      | Ok _ =>
          '(a, r) ← publish_delta node provider model flush (a <| sa_pending := [] |>);
          mret match r with
               | Ok _ => settled (a <| sa_published_tail := [] |>)
               | Err e => (a, Err e)
               end
      end
  else mret (settled a).
(** [record_stream_event]. *)
Definition record_stream_event (node : NodeDef) (provider model : str) (event : ChatStreamEvent)
    (a : StreamAccumulator) : CM Recorded :=
  if is_some (sa_response a) then mret (a, Ok ())
  else match event with
       | TextDelta text => record_text node provider model text a
       | Completed completed => record_completed node provider model completed a
       end.
(** [while let Ok(event) = receiver.try_recv() { record(event, acc)?; }]. *)
Fixpoint record_all (node : NodeDef) (provider model : str) (events : list ChatStreamEvent)
    (a : StreamAccumulator) : CM Recorded :=
  match events with
  | [] => mret (a, Ok ())
  | event :: events =>
      '(a, r) ← record_stream_event node provider model event a;
      match r with
      | Ok _ => record_all node provider model events a
      | Err e => mret (a, Err e)
      end
  end.

Definition Routed : Type := StreamAccumulator * result LlmError ChatResponse.
(** [acc.response.take().ok_or_else(..)]. *)
Definition take_response (a : StreamAccumulator) (message : str) : Routed :=
  match sa_response a with
  | Some response => (a <| sa_response := None |>, Ok response)
  | None => (a, Err (llm_new message))
  end.
Definition is_canceled (r : result LlmError ()) : bool :=
  match r with Err e => bool_decide (le_kind e = CallCanceled) | Ok _ => false end.
(** What the loop returns once the queue is drained. *)
Definition after_cancel (a : StreamAccumulator) : Routed :=
  match sa_response a with
  | Some response => (a <| sa_response := None |> <| sa_canceled := true |>, Ok response)
  | None => (a, Err (llm_error CallCanceled (s"LLM stream canceled")))
  end.
Definition after_done (r : result LlmError ()) (a : StreamAccumulator) : Routed :=
  match sa_rejection a, sa_response a with
  | Some _, Some response => (a <| sa_response := None |> <| sa_canceled := is_canceled r |>, Ok response)
  | _, _ =>
      match r with
      | Err error =>
          if (0 <? sa_index a)%Z then
            (a, Err (llm_error PartialStream
                       (s"LLM stream failed after " ++ show_uint (sa_index a)
                        ++ s" emitted deltas; route fallback is unsafe: " ++ le_message error)))
          else (a, Err error)
      | Ok _ => take_response a (s"LLM stream ended without a completed response")
      end
  end.
Definition drained (node : NodeDef) (provider model : str) (queued : list ChatStreamEvent)
    (k : StreamAccumulator → Routed) (a : StreamAccumulator) : CM Routed :=
  '(a, r) ← record_all node provider model queued a;
  mret match r with Ok _ => k a | Err e => (a, Err e) end.
Fixpoint stream_route (node : NodeDef) (provider model : str) (moves : list stream_move)
    (a : StreamAccumulator) : CM Routed :=
  match moves with
  | [] => gone
  | MvCancel queued :: _ => drained node provider model queued after_cancel a
  | MvDone r queued :: _ => drained node provider model queued (after_done r) a
  | MvEvent event :: moves =>
      '(a, r) ← record_stream_event node provider model event a;
      match r with
      | Ok _ => stream_route node provider model moves a
      | Err e => mret (a, Err e)
      end
  | MvClosed :: _ => mret (take_response a (s"LLM stream channel closed before completion"))
  end.

(** A request leaves for the provider. *)
Definition dispatch (provider model : str) : CM nat :=
  n ← turn;
  step (λ c, (mkCall (ca_shared c) (ca_tick c) (ca_records c) (ca_pool c) (ca_sent c ++ [(provider, model)]),
              Done n)).
(** [complete_route], with the decisions the observer has seen. *)
Definition complete_route (node : NodeDef) (r : ChatRequest) : CM (list RetryDecision * Routed) :=
  n ← dispatch (cq_provider r) (cq_model r);
  if negb (cq_stream r) then
    match wd_complete w n with
    | Answer observed out => mret (observed, (acc_default, out))
    | CancelWins observed =>
        mret (observed, (acc_default, Err (llm_error CallCanceled (s"LLM call canceled"))))
    | Dropped => gone
    end
  else
    let '(observed, moves) := wd_stream w n in
    routed ← stream_route node (cq_provider r) (cq_model r) moves acc_default;
    mret (observed, routed).

(** *** Routes *)

(** [RetryTrace::finish_error]. *)
Definition gateway_decision (e : LlmError) (d : RetryDecision) : RetryDecision :=
  let set attempt facts :=
    mkDecision (dc_kind d) facts attempt (dc_stream d) (dc_requested d) (dc_action d) (s"gateway")
      (dc_guard d) (dc_provider_code d) (dc_retry_after_observed_secs d) (dc_retry_after_secs d)
      (dc_retry_after_applied d) in
  match le_kind e with
  | CallCanceled => set None (dc_facts d)
  | PartialStream => set (last (le_decisions e) ≫= dc_attempt) (mkFacts PhResponse Sent)
  | _ => d
  end.
Definition finish_error (observed : list RetryDecision) (e : LlmError) (stream : bool) : LlmError :=
  let e := match observed with [] => e | _ => with_decisions e observed end in
  if is_none_or (last (le_decisions e)) (λ d, negb (bool_decide (dc_kind d = le_kind e))) then
    let attempts := S (length (le_decisions e)) in
    let d := decide_retry (pt_retry_policy (gw_provider g)) e attempts attempts stream
               (bool_decide (le_kind e = PartialStream)) in
    with_decisions e (le_decisions e ++ [gateway_decision e d])
  else e.

Definition route_failure (node : NodeDef) (route : ModelRef) (attempt routes_total : nat) (e : LlmError)
    (unknown_search : bool) : value :=
  let event :=
    obj [ (s"node", VString (nd_id node)); (s"provider", VString (mr_provider route));
          (s"model", VString (mr_model route)); (s"attempt", v_num (Z.of_nat attempt));
          (s"fallback_index", v_num (Z.of_nat (attempt - 1)));
          (s"routes_total", v_num (Z.of_nat routes_total)); (s"kind", ser_kind (le_kind e));
          (s"retry_decisions", ser_decisions (le_decisions e));
          (s"fallback_taken", VBool ((attempt <? routes_total)%nat && allows_next_route e)) ] in
  if unknown_search
  then set_key (s"web_search") (obj [(s"calls", VNull); (s"cost_microusd", VNull)]) event
  else event.
Definition record_route_failure (node : NodeDef) (route : ModelRef) (attempt routes_total : nat)
    (e : LlmError) (unknown_search : bool) : CM () :=
  r ← journal_append unknown_search (s"llm_route_failed")
        (route_failure node route attempt routes_total e unknown_search);
  pure (step_err node r).

(** What a completed route leaves. *)
Record Completion : Type := mkCompletion {
  co_provider : str;
  co_model : str;
  co_response : ChatResponse;
  co_decisions : list RetryDecision;
  co_rejection : option LlmError;
  co_canceled : bool;
}.
(** The loop over the routes, from number [attempt] on. *)
Fixpoint try_routes (node : NodeDef) (request : ChatRequest) (routes : list ModelRef) (attempt : nat)
    (rest : list ModelRef) : CM (option Completion) :=
  match rest with
  | [] => mret None
  | route :: rest =>
      let routed_request :=
        request <| cq_provider := mr_provider route |> <| cq_model := mr_model route |> in
      _ ← pure (scan_request g node routed_request);
      _ ← (if (0 <? attempt)%nat && cb_require_pricing (gw_budget g)
           then _ ← pure (estimate_reservation g node routed_request routes); mret ()
           else mret ());
      let validation :=
        if (attempt =? 0)%nat then Ok () else validate_route_capabilities (gw_provider g) routed_request in
      '(observed, (a, out)) ← match validation with
                              | Ok _ => complete_route node routed_request
                              | Err e => mret ([], (acc_default, Err e))
                              end;
      match out with
      | Ok completed =>
          mret (Some (mkCompletion (mr_provider route) (mr_model route) completed observed
                        (sa_rejection a) (sa_canceled a)))
      | Err e =>
          let canceled := bool_decide (le_kind e = CallCanceled) in
          let error := finish_error observed (default e (sa_rejection a)) (cq_stream request) in
          _ ← record_route_failure node route (attempt + 1) (length routes) error
                (is_some (sa_rejection a) && is_some (cq_provider_web_search request));
          if canceled then raise SCancelled
          else if negb (allows_next_route error) || (attempt + 1 =? length routes)%nat
          then raise (SFailed (nd_id node) (le_message error))
          else try_routes node request routes (attempt + 1) rest
      end
  end.

(** The hosted search of a call: a requested search stays visible even if the
    provider reported none. *)
Definition searched (request : ChatRequest) (response : ChatResponse) : option ProviderWebSearchOutcome :=
  match cr_web_search response with
  | Some o => Some o
  | None => (λ _, mkWebSearchOutcome None [] []) <$> cq_provider_web_search request
  end.
Definition search_cost (request : ChatRequest) (routes : list ModelRef) (k : Completion) : option Z :=
  web_search_cost_microusd g routes (co_provider k) (co_model k)
    (searched request (co_response k) ≫= wo_calls).
Definition call_event (node : NodeDef) (request : ChatRequest) (routes : list ModelRef)
    (event_extra : TokenUsage → value) (k : Completion) (cost : Z) : value :=
  let response := co_response k in
  let event := call_record node (co_provider k) (co_model k) request (cr_usage response) (cr_stop response) cost in
  let event := with_web_search g node (searched request response) (search_cost request routes k)
                 (with_cache_policy request event) in
  set_key (s"retry_decisions") (ser_decisions (co_decisions k))
    (merge_event_extra event (event_extra (cr_usage response))).
(** What follows a completed route: price, record, then refuse or return. *)
Definition settle_call (node : NodeDef) (request : ChatRequest) (routes : list ModelRef)
    (event_extra : TokenUsage → value) (k : Completion) : CM ChatResponse :=
  let response := co_response k in
  let web_search := searched request response in
  cost ← pure (cost_microusd g node routes (co_provider k) (co_model k) (cr_usage response)
                 (cq_cache_retention request) (web_search ≫= wo_calls));
  r ← journal_append false (s"llm_call") (call_event node request routes event_extra k cost);
  _ ← pure (step_err node r);
  _ ← pure (if co_canceled k then Err SCancelled else Ok ());
  _ ← pure (match co_rejection k with
            | Some e => Err (SFailed (nd_id node) (le_message e))
            | None => Ok ()
            end);
  let exhausted := bool_decide (cr_stop response = ModelContextWindowExceeded) in
  _ ← pure (if exhausted then Ok () else scan_response g node response);
  _ ← pure (if cb_require_pricing (gw_budget g) && is_some web_search
               && negb (is_some (search_cost request routes k))
            then Err (SFailed (nd_id node)
                        (model_name (co_provider k) (co_model k) ++ s"has "
                         ++ match web_search ≫= wo_calls with
                            | None => s"unknown billable hosted search usage"
                            | Some _ => s"billable hosted search units without a `web_search_call_cost_usd` price"
                            end ++ s" for the run cost budget"))
            else Ok ());
  _ ← check_budget;
  pure (if exhausted then Err (SProviderContextExhausted (nd_id node)) else Ok response).
Definition complete_inner (node : NodeDef) (request : ChatRequest) (routes : list ModelRef)
    (event_extra : TokenUsage → value) : CM ChatResponse :=
  if is_none_or (head routes) (λ route, negb (mr_provider route =s cq_provider request)
                                        || negb (mr_model route =s cq_model request))
  then raise (SFailed (nd_id node) (s"LLM route policy does not start with the request model"))
  else
    completion ← try_routes node request routes 0 routes;
    match completion with
    | None => raise (SFailed (nd_id node) (s"no LLM route was available"))
    | Some k => settle_call node request routes event_extra k
    end.
(** [LlmGateway::complete]: a dropped future skips the release. *)
Definition complete (node : NodeDef) (request : ChatRequest) (routes : list ModelRef)
    (event_extra : TokenUsage → value) : CM ChatResponse :=
  _ ← pure (scan_request g node request);
  reservation ← pure (estimate_reservation g node request routes);
  _ ← try_reserve reservation;
  out ← catch (complete_inner node request routes event_extra);
  _ ← release_reservation reservation;
  pure out.

(** *** Decisions *)

(** [DecisionReservationGuard]: released however the body ends. *)
Definition with_guard {A} (run_id : str) (r : PendingReservation) (body : CM A) : CM A := λ c,
  let '(c, out) := body c in
  ((release_now run_id r c).1, out).
Definition decision_record (node : NodeDef) (model : ModelRef) (max_tokens : Z) (usage : TokenUsage)
    (cost : Z) (observed : list RetryDecision) : value :=
  obj [ (s"node", VString (nd_id node)); (s"provider", VString (mr_provider model));
        (s"model", VString (mr_model model)); (s"max_tokens", v_num max_tokens);
        (s"tokens", ser_usage usage); (s"cost_microusd", v_num cost);
        (s"retry_decisions", ser_decisions observed) ].
Definition decide_guarded (node : NodeDef) (request : DecisionRequest) (model : ModelRef) (max_tokens : Z) :
    CM DecisionResponse :=
  n ← dispatch (dq_provider request) (dq_model request);
  match wd_decide w n with
  | Dropped => gone
  | CancelWins observed =>
      let e := finish_error observed (llm_error CallCanceled (s"LLM decision canceled")) false in
      _ ← record_route_failure node model 1 1 e false;
      raise SCancelled
  | Answer observed (Err e) =>
      let e := finish_error observed e false in
      _ ← record_route_failure node model 1 1 e false;
      if bool_decide (le_kind e = CallCanceled) then raise SCancelled
      else raise (SFailed (nd_id node) (le_message e))
  | Answer observed (Ok response) =>
      let usage := decision_token_usage response in
      cost ← pure (cost_microusd g node [model] (mr_provider model) (mr_model model) usage None None);
      r ← journal_append false (s"llm_call") (decision_record node model max_tokens usage cost observed);
      _ ← pure (step_err node r);
      let used := saturating_add U64_MAX (tu_input usage) (tu_output usage) in
      if (max_tokens <? used)%Z then raise (SBudgetExceeded (s"tokens") used max_tokens)
      else
        _ ← check_budget;
        match response_validate response request with
        | Panics => gone
        | Returns out =>
            _ ← pure (llm_step_err node out);
            _ ← pure (assert_value_absent g node (ser_decision_response response));
            mret response
        end
  end.
(** [LlmGateway::decide]. *)
Definition decide_call (node : NodeDef) (request : DecisionRequest) (model : ModelRef) (max_tokens : Z) :
    CM DecisionResponse :=
  _ ← pure (llm_step_err node (request_validate request));
  if negb (dq_provider request =s mr_provider model) || negb (dq_model request =s mr_model model)
     || (max_tokens =? 0)%Z
  then raise (SFailed (nd_id node) (s"invalid decision model or token budget"))
  else
    _ ← pure (match invalid_price model with
              | Some field => Err (SFailed (nd_id node)
                  (model_name (mr_provider model) (mr_model model) ++ field
                   ++ s" must be finite and non-negative"))
              | None => Ok ()
              end);
    _ ← pure (assert_value_absent g node (ser_decision_request request));
    let worst := mkTokenUsage max_tokens max_tokens 0 0 0 in
    cost ← pure (cost_microusd g node [model] (mr_provider model) (mr_model model) worst None None);
    let reservation := mkReservation max_tokens cost in
    _ ← try_reserve (Some reservation);
    st ← journal_state;
    with_guard (run_id_of st) reservation (decide_guarded node request model max_tokens).
End gateway.
