(* ===== verification/LlmGatewaySpec.v ===== *)
(** * The model gateway: what it publishes, returns and reserves

    No prefix of a secret reaches the journal through a stream, however the
    provider cuts it and whichever routes are tried; a returned answer was scanned
    and recorded, and streamed text was published to its end; the reservations of the
    calls of a run never exceed its budget together. *)

From stdpp Require Import relations.
From S2P Require Import Prelude Str BMap Json Serde Events RunState RunStateDemo TraceIds AuditRules JournalFile JournalWriter JournalDemo TextGate LlmRetry LlmParse LlmHttp CostTier Graph EngineTypes EngineWorld LlmDecision LlmRequest LlmGateway.

#[local] Arguments s : simpl never.

(** ** Secrets *)

Definition secret (st : SecretStore) (v : str) : Prop := v ∈ bm_values (ss_values st) ∧ v ≠ [].
(** No secret occurs in the text. *)
Definition clean (st : SecretStore) (text : str) : Prop := ∀ v, secret st v → contains_str text v = false.

Lemma assert_absent_clean st text : assert_absent st text = Ok () ↔ clean st text.
Proof.
  unfold assert_absent, clean, secret, bm_values. destruct st as [l]. cbn.
  induction l as [|[name v] l IH]; cbn.
  { split; [intros _ v [Hv _]; by apply not_elem_of_nil in Hv|done]. }
  case_bool_decide as Hv; cbn; [|destruct (contains_str text v) eqn:E].
  - rewrite IH. set_solver.
  - split; [done|]. intros H. specialize (H v). rewrite H in E; [done|]. split; [by left|done].
  - rewrite IH. set_solver.
Qed.
Lemma scan_text_clean g node text : scan_text g node text = Ok () ↔ clean (gw_secrets g) text.
Proof. rewrite <-assert_absent_clean. unfold scan_text. by destruct (assert_absent _ _) as [[]|]. Qed.
Lemma secret_len st v : secret st v → (str_len v ≤ max_value_len st)%Z.
Proof.
  unfold secret, max_value_len. intros [H _].
  induction (bm_values (ss_values st)) as [|x l IH]; [by apply not_elem_of_nil in H|].
  apply elem_of_cons in H as [->|H]; cbn; [|specialize (IH H)]; lia.
Qed.
Lemma empty_store_clean st text : store_is_empty st = true → clean st text.
Proof.
  intros H%bool_decide_eq_true v [Hv _]. unfold bm_values in Hv. destruct (ss_values st); [|done].
  by apply not_elem_of_nil in Hv.
Qed.
Lemma clean_part st a b c : clean st (a ++ b ++ c) → clean st b.
Proof.
  intros H v Hv. specialize (H v Hv). rewrite <-not_true_iff_false, contains_occurs in *.
  intros (pre & post & ->). apply H. exists (a ++ pre), (post ++ c). by rewrite <-!(assoc (++)).
Qed.

Lemma split_first_parts p x a b : split_first p x = Some (a, b) → x = a ++ p ++ b.
Proof.
  revert a; induction x as [|c x IH]; intros a; simpl; destruct (strip_prefix p _) as [r|] eqn:E.
  1, 3: intros [= <- <-]; by apply strip_prefix_Some in E.
  - done.
  - destruct (split_first p x) as [[a' b']|]; intros [= <- <-]. by rewrite (IH a' eq_refl).
Qed.
(** More fuel than characters changes nothing: the loop ends before it runs out. *)
Lemma inject_loop_fuel st allowed m output rest n :
  (length rest ≤ n)%nat → (length rest ≤ m)%nat →
  inject_loop n st allowed output rest = inject_loop m st allowed output rest.
Proof.
  revert m output rest; induction n as [|n IH]; intros m output rest Hn Hm.
  { by destruct rest; simpl in Hn; [destruct m|lia]. }
  destruct m as [|m]; [by destruct rest; simpl in Hm; [|lia]|]. simpl.
  destruct (split_first OPEN rest) as [[before after]|] eqn:E1; [|done].
  destruct (split_first CLOSE after) as [[name tail]|] eqn:E2; [|done].
  apply split_first_parts in E1, E2. subst. rewrite !length_app in Hn, Hm.
  change (length OPEN) with 9%nat in *. change (length CLOSE) with 2%nat in *.
  case_match; [done|]. destruct (ok_or _ _); [|done]. apply IH; lia.
Qed.
(** What declared placeholders are replaced by depends on declared secrets
    only. *)
Lemma inject_declared_only st st' allowed :
  (∀ name, name ∈ allowed → secret_get st name = secret_get st' name) →
  ∀ text, inject_declared_placeholders st text allowed = inject_declared_placeholders st' text allowed.
Proof.
  intros H text. unfold inject_declared_placeholders. generalize (@nil char) as output.
  generalize text at 2 4 as rest. induction (length text) as [|fuel IH]; intros rest output; cbn.
  { by destruct (split_first OPEN rest) as [[]|]. }
  destruct (split_first OPEN rest) as [[before after]|]; [|done].
  destruct (split_first CLOSE after) as [[name tail]|]; [|done].
  destruct (existsb _ allowed) eqn:E; cbn; [|done].
  apply existsb_exists in E as (a & Ha & ->%str_eqb_eq). rewrite (H (trim name)) by by apply list_elem_of_In.
  destruct (secret_get st' (trim name)); cbn; [|done]. by rewrite IH.
Qed.

(** ** What a scan covers *)

(** The strings of a value, keys included. *)
Fixpoint value_strings (v : value) : list str :=
  match v with
  | VString x => [x]
  | VArray l => concat (map value_strings l)
  | VObject m => concat (map (λ kv, kv.1 :: value_strings kv.2) m)
  | _ => []
  end.
Definition part_strings (part : ChatContentPart) : list str :=
  match part with
  | PartText text => [text]
  | PartImage media_type _ _ | PartAudio media_type _ => [media_type]
  | PartFile media_type _ filename => [media_type; filename]
  end.
Definition call_strings (call : ChatToolCall) : list str := tc_id call :: tc_name call :: value_strings (tc_args call).
Definition message_strings (m : ChatMessage) : list str :=
  cm_content m :: concat (map part_strings (cm_parts m)) ++ option_list (cm_tool_call_id m)
  ++ concat (map call_strings (cm_tool_calls m)) ++ concat (map value_strings (default [] (cm_provider_state m))).
(** What a prompt says; contents of attachments are encoded bytes. *)
Definition prompt_strings (r : ChatRequest) : list str :=
  option_list (cq_system r) ++ concat (map message_strings (cq_messages r)).
Definition answer_strings (r : ChatResponse) : list str :=
  concat (map (λ c, match c with
                    | Text text => [text]
                    | ToolCall id name args => id :: name :: value_strings args
                    end) (cr_content r))
  ++ concat (map value_strings (option_list (cr_provider_state r))).

Definition all_clean (st : SecretStore) (l : list str) : Prop := Forall (clean st) l.
Lemma ok_bind (r : result StepError ()) k : (_ ← r; k) = Ok () ↔ r = Ok () ∧ k = Ok ().
Proof. destruct r as [[]|e]; cbn; naive_solver. Qed.
Section scans.
Variables (g : LlmGateway) (node : NodeDef).
Notation good := (all_clean (gw_secrets g)).
Lemma good_app l1 l2 : good (l1 ++ l2) ↔ good l1 ∧ good l2.
Proof. apply Forall_app. Qed.
Lemma good_cons x l : good (x :: l) ↔ clean (gw_secrets g) x ∧ good l.
Proof. apply Forall_cons. Qed.
Lemma good_nil : good [] ↔ True.
Proof. split; [done|constructor]. Qed.
Lemma each_good {A} (f : A → result StepError ()) (strings : A → list str) l :
  (∀ x, f x = Ok () ↔ good (strings x)) → each f l = Ok () ↔ good (concat (map strings l)).
Proof.
  intros Hf. unfold each. induction l as [|x l IH]; [cbn; by rewrite good_nil|].
  cbn [foldM map concat]. rewrite good_app, <-Hf, <-IH. destruct (f x) as [[]|e]; cbn; naive_solver.
Qed.
Lemma each_some_good {A} (f : A → result StepError ()) (strings : A → list str) o :
  (∀ x, f x = Ok () ↔ good (strings x)) → each_some f o = Ok () ↔ good (concat (map strings (option_list o))).
Proof. intros Hf. destruct o; cbn; [by rewrite app_nil_r|by rewrite good_nil]. Qed.
Lemma scan_text_good x : scan_text g node x = Ok () ↔ good [x].
Proof. rewrite scan_text_clean, good_cons, good_nil. naive_solver. Qed.
Lemma assert_value_good v : assert_value_absent g node v = Ok () ↔ good (value_strings v).
Proof.
  induction v as [| | |x|l IH|m IH] using value_ind'; cbn; [by rewrite good_nil..|apply scan_text_good| |].
  - induction IH as [|v l Hv _ IHl]; cbn; [by rewrite good_nil|]. by rewrite ok_bind, good_app, <-Hv, <-IHl.
  - induction IH as [|[k v] m Hv _ IHm]; cbn; [by rewrite good_nil|].
    by rewrite !ok_bind, good_cons, good_app, <-Hv, <-IHm, scan_text_clean.
Qed.
(** The scans refuse exactly what contains a secret. *)
Lemma scan_response_good r : scan_response g node r = Ok () ↔ good (answer_strings r).
Proof.
  unfold scan_response, answer_strings. rewrite ok_bind, good_app.
  rewrite (each_good _ (λ c, match c with Text text => [text]
    | ToolCall id name args => id :: name :: value_strings args end)); cycle 1.
  { intros [text|id name args]; [apply scan_text_good|].
    by rewrite !ok_bind, !good_cons, !scan_text_clean, assert_value_good. }
  by rewrite (each_some_good _ value_strings) by apply assert_value_good.
Qed.
Lemma scan_message_good m : scan_message g node m = Ok () ↔ good (message_strings m).
Proof.
  unfold scan_message, message_strings. rewrite !ok_bind, good_cons, !good_app, scan_text_clean.
  rewrite (each_good _ part_strings); cycle 1.
  { intros [text|mt d o|mt d|mt d f]; try apply scan_text_good. cbn [scan_part part_strings].
    by rewrite ok_bind, good_cons, scan_text_clean, scan_text_good. }
  rewrite (each_good _ call_strings); cycle 1.
  { intros call. unfold call_strings. by rewrite !ok_bind, !good_cons, !scan_text_clean, assert_value_good. }
  rewrite (each_some_good _ (λ x, [x])) by apply scan_text_good.
  rewrite (each_some_good _ (λ l, concat (map value_strings l))); cycle 1.
  { intros l. apply assert_value_good. }
  destruct (cm_tool_call_id m), (cm_provider_state m); cbn; rewrite ?app_nil_r; done.
Qed.
Lemma scan_request_good r : scan_request g node r = Ok () ↔ good (prompt_strings r).
Proof.
  unfold scan_request, prompt_strings. rewrite ok_bind, good_app.
  rewrite (each_good _ message_strings) by apply scan_message_good.
  rewrite (each_some_good _ (λ x, [x])) by apply scan_text_good.
  by destruct (cq_system r).
Qed.
End scans.

(** ** What a stream publishes *)

(** Every occurrence of a secret in the text, whatever follows it, starts after
    what was published. *)
Definition sealed (st : SecretStore) (published text : str) : Prop :=
  ∀ v later pre post, secret st v → text ++ later = pre ++ v ++ post → ∃ gap, pre = published ++ gap.
(** A publication is safe: no part of a secret was published, or all of the text
    was and it is clean. *)
Definition safe (st : SecretStore) (published text : str) : Prop :=
  published `prefix_of` text ∧
  (sealed st published text ∨ published = text ∧ clean st text).

Lemma sealed_more st published text more : sealed st published text → sealed st published (text ++ more).
Proof. intros H v later pre post Hv. rewrite <-(assoc (++)). by apply H. Qed.
Lemma sealed_nil st text : sealed st [] text.
Proof. intros v later pre post _ _. by exists pre. Qed.
Lemma safe_nil st text : safe st [] text.
Proof. split; [apply prefix_nil|]. left. apply sealed_nil. Qed.
Lemma safe_clean st published text : safe st published text → clean st published.
Proof.
  intros [[rest ->] [H|[Heq H]]]; [|by rewrite <-Heq in H]. intros v Hv.
  apply not_true_iff_false. rewrite contains_occurs. intros (pre & post & ->).
  destruct (H v [] pre (post ++ rest) Hv) as [gap Hg]; [by rewrite app_nil_r, <-!(assoc (++))|].
  destruct Hv as [_ Hv]. rewrite <-!(assoc (++)) in Hg.
  rewrite <-(app_nil_r pre) in Hg at 1. apply app_inv_head in Hg. by destruct v.
Qed.

Definition holdback_of (g : LlmGateway) : Z := Z.max 0 (max_value_len (gw_secrets g) - 1).
Lemma sealed_held g published held :
  clean (gw_secrets g) (published ++ held) →
  published = [] ∨ (holdback_of g ≤ str_len held)%Z →
  sealed (gw_secrets g) published (published ++ held).
Proof.
  intros Hc Hh v later pre post Hv Heq. eapply occurrence_after_published; [apply Hv|by apply Hc| |exact Heq].
  destruct Hh as [?|Hh]; [by left|right]. apply secret_len in Hv. unfold holdback_of in Hh. lia.
Qed.
Lemma suffix_within_suffix h x : ∃ front, x = front ++ suffix_within h x.
Proof.
  induction x as [|c x IH]; cbn [suffix_within]; [by exists []|]. case_if; [by exists []|].
  destruct IH as [front IH]. exists (c :: front). cbn. by rewrite <-IH.
Qed.

(** The text of an [llm_delta] record. *)
Definition delta_text (record : str * value) : option str :=
  if record.1 =s s"llm_delta" then get_str (s"text") record.2 else None.
Definition deltas (records : list (str * value)) : list str := omap delta_text records.
Definition event_text (e : ChatStreamEvent) : str := match e with TextDelta text => text | Completed _ => [] end.

(** The completion passed the checks that release the withheld text. *)
Definition released (g : LlmGateway) (node : NodeDef) (r : ChatResponse) : Prop :=
  store_is_empty (gw_secrets g) = true ∨
  cr_stop r ≠ ModelContextWindowExceeded ∧ scan_response g node r = Ok ().
(** [published] is what was handed to the journal, [text] what arrived before
    the completion. *)
Record stream_inv (g : LlmGateway) (node : NodeDef) (published : list str) (text : str)
    (a : StreamAccumulator) : Prop := {
  st_index : (0 ≤ sa_index a)%Z ∧ (published ≠ [] → 0 < sa_index a)%Z;
  st_safe : safe (gw_secrets g) (concat published) text;
  st_open : sa_response a = None → sa_rejection a = None →
    text = concat published ++ sa_pending a ∧ clean (gw_secrets g) text ∧
    (concat published = [] ∨ (holdback_of g ≤ str_len (sa_pending a))%Z ∨ store_is_empty (gw_secrets g) = true) ∧
    (store_is_empty (gw_secrets g) = true → sa_pending a = [] ∧ sa_published_tail a = []) ∧
    ∃ front, concat published = front ++ sa_published_tail a;
  st_rejected : ∀ e, sa_rejection a = Some e →
    le_kind e = PartialStream ∧ (sa_response a = None → sealed (gw_secrets g) (concat published) text);
  st_done : ∀ r, sa_response a = Some r → sa_rejection a = None → released g node r →
    concat published = text ∧ clean (gw_secrets g) text;
}.
Lemma stream_inv_start g node : stream_inv g node [] [] acc_default.
Proof.
  split; cbn; [done|apply safe_nil| |done|done]. intros _ _. split; [done|].
  split; [|split; [by left|split; [done|by exists []]]]. intros v [_ Hv]. by destruct v.
Qed.

Section streams.
Context {W : WireTypes} {SJ : SerdeJson} {C : StateCodec} {H : Sha256} {M : Messages} {CC : ChatCodec}.
Variables (w : World) (g : LlmGateway).
Implicit Types (c : Call) (a : StreamAccumulator).

(** What a part of a call added to its history. *)
Record wrote (c c' : Call) (records : list (str * value)) (sent : list (str * str)) : Prop := {
  wr_records : ca_records c' = ca_records c ++ records;
  wr_sent : ca_sent c' = ca_sent c ++ sent;
  wr_pool : ca_pool c' = ca_pool c;
}.
Lemma wrote_nil c : wrote c c [] [].
Proof. by split; rewrite ?app_nil_r. Qed.
Lemma wrote_trans c1 c2 c3 rs1 rs2 sent1 sent2 :
  wrote c1 c2 rs1 sent1 → wrote c2 c3 rs2 sent2 → wrote c1 c3 (rs1 ++ rs2) (sent1 ++ sent2).
Proof. intros [A1 A2 A3] [B1 B2 B3]. split; [by rewrite B1, A1, (assoc (++))|by rewrite B2, A2, (assoc (++))|congruence]. Qed.
Lemma deltas_app rs rs' : deltas (rs ++ rs') = deltas rs ++ deltas rs'.
Proof. apply omap_app. Qed.

(** Nothing but deltas. *)
Definition wrote_deltas (c c' : Call) (records : list (str * value)) : Prop :=
  wrote c c' records [] ∧ ∀ p, p ∈ records → p.1 = s"llm_delta".
Lemma wrote_deltas_nil c : wrote_deltas c c [].
Proof. split; [apply wrote_nil|]. by intros ? ?%not_elem_of_nil. Qed.
Lemma wrote_deltas_trans c1 c2 c3 rs1 rs2 :
  wrote_deltas c1 c2 rs1 → wrote_deltas c2 c3 rs2 → wrote_deltas c1 c3 (rs1 ++ rs2).
Proof.
  intros [W1 H1] [W2 H2]. split; [exact (wrote_trans _ _ _ _ _ _ _ W1 W2)|].
  intros p [?|?]%elem_of_app; [by apply H1|by apply H2].
Qed.

Lemma journal_append_spec durable kind payload c : ∃ c' r,
  journal_append w durable kind payload c = (c', Done r) ∧ wrote c c' [(kind, payload)] [].
Proof.
  unfold journal_append, turn, step, mbind, cm_bind. cbn.
  destruct durable.
  - destruct (durable_event _ _ _ _ _ _) as [[d wr] r].
    eexists _, _. split; [done|]. split; cbn; by rewrite ?app_nil_r.
  - destruct (writer_event _ _ _ _ _ _ _) as [[d wr] r].
    eexists _, _. split; [done|]. split; cbn; by rewrite ?app_nil_r.
Qed.
Lemma publish_delta_spec node provider model text a c : ∃ c' r rs,
  publish_delta w node provider model text a c = (c', Done r) ∧ wrote_deltas c c' rs ∧ deltas rs = [text] ∧
  (r = (a <| sa_index := saturating_add USIZE_MAX (sa_index a) 1 |>, Ok ()) ∨
   ∃ e, r = (a, Err e) ∧ le_kind e = Other).
Proof.
  destruct (journal_append_spec false (s"llm_delta") (delta_record node provider model (sa_index a) text) c)
    as (c' & r & E & Hw).
  unfold publish_delta, mbind, cm_bind. rewrite E.
  eexists c', _, _. split; [done|]. split; [split; [exact Hw|by intros ? ->%list_elem_of_singleton]|]. split; [done|].
  destruct r as [[]|e]; [by left|right; by eexists].
Qed.

(** What recording one event, or several, establishes. *)
Definition recorded (node : NodeDef) (published : list str) (text : str) (out : Recorded) : Prop :=
  match out.2 with
  | Ok _ => stream_inv g node published text out.1
  | Err e => le_kind e = Other ∧ sa_rejection out.1 = None ∧ safe (gw_secrets g) (concat published) text
  end.
Definition records_as (f : CM Recorded) (c : Call) (P : Recorded → list str → Prop) : Prop :=
  ∃ c' out rs, f c = (c', Done out) ∧ wrote_deltas c c' rs ∧ P out (deltas rs).

Lemma records_nothing f c out P :
  f c = (c, Done out) → P out [] → records_as f c P.
Proof. intros E HP. exists c, out, []. split; [done|]. split; [apply wrote_deltas_nil|done]. Qed.

Lemma concat_snoc (l : list str) x : concat (l ++ [x]) = concat l ++ x.
Proof. rewrite concat_app. cbn. by rewrite app_nil_r. Qed.
Lemma next_index a : (0 ≤ sa_index a → 0 < saturating_add USIZE_MAX (sa_index a) 1)%Z.
Proof. intros Ha. unfold saturating_add, USIZE_MAX, U64_MAX. lia. Qed.

(** Text that arrives keeps a clean stream clean when the withheld part is. *)
Lemma arriving_clean node published text a more :
  stream_inv g node published text a → sa_response a = None → sa_rejection a = None →
  store_is_empty (gw_secrets g) = false →
  clean (gw_secrets g) (sa_published_tail a ++ sa_pending a ++ more) →
  text ++ more = concat published ++ (sa_pending a ++ more) ∧ clean (gw_secrets g) (text ++ more).
Proof.
  intros Hinv Hr Hj He Hc. destruct (st_open _ _ _ _ _ Hinv Hr Hj) as (Ht & Hcl & Hh & _ & _).
  split; [by rewrite Ht, <-(assoc (++))|]. intros v Hv.
  apply not_true_iff_false. rewrite contains_occurs. intros (pre & post & Heq).
  assert (Hs : sealed (gw_secrets g) (concat published) text).
  { rewrite Ht. apply sealed_held; [by rewrite <-Ht|]. destruct Hh as [?|[?|?]]; [by left|by right|congruence]. }
  destruct (Hs v more pre post Hv Heq) as [gap ->].
  rewrite Ht, <-!(assoc (++)) in Heq. apply app_inv_head in Heq.
  specialize (Hc v Hv). rewrite <-not_true_iff_false, contains_occurs in Hc. apply Hc.
  exists (sa_published_tail a ++ gap), post. by rewrite Heq, <-(assoc (++)).
Qed.

Lemma stream_inv_reject node published text a e :
  stream_inv g node published text a → sealed (gw_secrets g) (concat published) text →
  stream_inv g node published text (reject a e).
Proof.
  intros Hinv Hs. destruct Hinv as [Hi Hsafe _ _ _]. split; [done|done|done| |].
  - cbn. by intros ? [= <-].
  - done.
Qed.
Lemma safe_more node published text a more :
  stream_inv g node published text a → sa_response a = None → store_is_empty (gw_secrets g) = false →
  sealed (gw_secrets g) (concat published) (text ++ more) ∧
  safe (gw_secrets g) (concat published) (text ++ more).
Proof.
  intros Hinv Hr He.
  assert (Hs : sealed (gw_secrets g) (concat published) text).
  { destruct (sa_rejection a) as [e|] eqn:Ej; [by apply (st_rejected _ _ _ _ _ Hinv e Ej)|].
    destruct (st_open _ _ _ _ _ Hinv Hr Ej) as (-> & Hcl & Hh & _ & _). apply sealed_held; [done|].
    destruct Hh as [?|[?|?]]; [by left|by right|congruence]. }
  split; [by apply sealed_more|]. destruct (st_safe _ _ _ _ _ Hinv) as [Hp _].
  split; [by apply prefix_app_r|]. left. by apply sealed_more.
Qed.

Lemma rejected_more node published text a e more :
  stream_inv g node published text a → sa_response a = None → sa_rejection a = Some e →
  stream_inv g node published (text ++ more) a.
Proof.
  intros Hinv Hr Hj. destruct (st_rejected _ _ _ _ _ Hinv e Hj) as [Hk Hs]. specialize (Hs Hr).
  destruct Hinv as [Hi [Hp _] _ _ _]. split; [done| |congruence| |congruence].
  - split; [by apply prefix_app_r|]. left. by apply sealed_more.
  - intros e' He'. split; [congruence|]. intros _. by apply sealed_more.
Qed.

(** An empty store publishes everything at once. *)
Lemma publish_all node provider model published text a more c :
  stream_inv g node published text a → sa_response a = None → sa_rejection a = None →
  store_is_empty (gw_secrets g) = true →
  records_as (publish_delta w node provider model more a) c
    (λ out new, recorded node (published ++ new) (text ++ more) out).
Proof.
  intros Hinv Hr Hj He. destruct (st_open _ _ _ _ _ Hinv Hr Hj) as (Ht & _ & _ & Hp & front & Hf).
  destruct (Hp He) as [Hpend Htail]. rewrite Hpend, app_nil_r in Ht.
  destruct (publish_delta_spec node provider model more a c) as (c' & out & rs & E & Hw & Hd & Hout).
  exists c', out, rs. split; [done|]. split; [done|]. rewrite Hd.
  assert (Hsafe : safe (gw_secrets g) (concat (published ++ [more])) (text ++ more)).
  { rewrite concat_snoc, <-Ht. split; [done|]. right. split; [done|]. by apply empty_store_clean. }
  destruct Hout as [->|(e & -> & Hk)]; [|by cbn].
  destruct (st_index _ _ _ _ _ Hinv) as [Hi _]. pose proof (next_index a Hi). split; cbn; [by split; [lia|]|done| |congruence|congruence].
  intros _ _. rewrite concat_snoc, <-Ht, Hpend, Htail, app_nil_r. split; [done|].
  split; [by apply empty_store_clean|]. split; [by right; right|]. split; [done|]. by exists (text ++ more); rewrite app_nil_r.
Qed.

Lemma publish_prefix node provider model published text a more c :
  stream_inv g node published text a → sa_response a = None → sa_rejection a = None →
  store_is_empty (gw_secrets g) = false →
  clean (gw_secrets g) (sa_published_tail a ++ sa_pending a ++ more) →
  ∀ publish rest, sa_pending a ++ more = publish ++ rest → publish ≠ [] →
    (holdback_of g ≤ str_len rest)%Z →
  records_as (λ c, ('(a, r) ← publish_delta w node provider model publish (a <| sa_pending := rest |>);
     mret match r with
          | Ok _ => (a <| sa_published_tail := holdback_tail (sa_published_tail a ++ publish) (holdback_of g) |>, Ok ())
          | Err e => (a, Err e)
          end) c) c
    (λ out new, recorded node (published ++ new) (text ++ more) out).
Proof.
  intros Hinv Hr Hj He Hc publish rest Hsplit Hne Hheld.
  destruct (arriving_clean _ _ _ _ _ Hinv Hr Hj He Hc) as [Ht Hclean].
  destruct (st_open _ _ _ _ _ Hinv Hr Hj) as (_ & _ & _ & _ & front & Hf).
  rewrite Hsplit, (assoc (++)), <-concat_snoc in Ht.
  destruct (publish_delta_spec node provider model publish (a <| sa_pending := rest |>) c)
    as (c' & out & rs & E & Hw & Hd & Hout).
  assert (Hs : sealed (gw_secrets g) (concat (published ++ [publish])) (text ++ more)).
  { rewrite Ht. apply sealed_held; [by rewrite <-Ht|by right]. }
  assert (Hsafe : safe (gw_secrets g) (concat (published ++ [publish])) (text ++ more)).
  { split; [rewrite Ht; by eexists|by left]. }
  unfold records_as, mbind, cm_bind. rewrite E.
  destruct Hout as [->|(e & -> & Hk)]; [|by eexists _, _, rs; rewrite Hd].
  eexists _, _, rs. split; [done|]. split; [done|]. rewrite Hd.
  destruct (st_index _ _ _ _ _ Hinv) as [Hi _]. pose proof (next_index a Hi).
  split; [split; [cbn; lia|done]|done| |cbn; congruence|cbn; congruence].
  intros _ _. split; [exact Ht|]. split; [done|]. split; [by right; left|]. split; [congruence|].
  rewrite concat_snoc, Hf. destruct (suffix_within_suffix (holdback_of g) (sa_published_tail a ++ publish)) as [mid Hm].
  exists (front ++ mid). unfold holdback_tail. rewrite <-!(assoc (++)). by rewrite Hm at 1.
Qed.

Lemma withhold_more node published text a more :
  stream_inv g node published text a → sa_response a = None → sa_rejection a = None →
  store_is_empty (gw_secrets g) = false →
  clean (gw_secrets g) (sa_published_tail a ++ sa_pending a ++ more) →
  stream_inv g node published (text ++ more) (a <| sa_pending := sa_pending a ++ more |>).
Proof.
  intros Hinv Hr Hj He Hc. destruct (arriving_clean _ _ _ _ _ Hinv Hr Hj He Hc) as [Ht Hclean].
  destruct (safe_more _ _ _ _ more Hinv Hr He) as [_ Hsafe].
  destruct (st_open _ _ _ _ _ Hinv Hr Hj) as (_ & _ & Hh & _ & Hf).
  split; [by apply (st_index _ _ _ _ _ Hinv)|done| |cbn; congruence|cbn; congruence].
  intros _ _. cbn. split; [done|]. split; [done|]. split; [|split; [congruence|done]].
  destruct Hh as [?|[Hh|?]]; [by left| |congruence]. right; left. rewrite str_len_app.
  pose proof (str_len_nonneg more). lia.
Qed.

Lemma record_text_spec node provider model more published text a c :
  stream_inv g node published text a → sa_response a = None →
  records_as (record_text w g node provider model more a) c
    (λ out new, recorded node (published ++ new) (text ++ more) out).
Proof.
  intros Hinv Hr. unfold record_text. destruct (sa_rejection a) as [e|] eqn:Hj; cbn [is_some].
  { eapply records_nothing; [done|]. rewrite app_nil_r. by apply (rejected_more _ _ _ _ e). }
  destruct (store_is_empty (gw_secrets g)) eqn:He.
  { rewrite (proj2 (scan_text_clean g node more)) by by apply empty_store_clean. by apply publish_all. }
  destruct (scan_text g node _) as [[]|e] eqn:Es; cycle 1.
  { eapply records_nothing; [done|]. rewrite app_nil_r. cbn [recorded fst snd].
    destruct (safe_more _ _ _ _ more Hinv Hr He) as [Hs Hsafe].
    split; [by apply (st_index _ _ _ _ _ Hinv)|done|done| |done].
    cbn. intros ? [= <-]. split; [done|]. by intros _. }
  apply scan_text_clean in Es. cbn in Es.
  destruct (split_floor _ _) as [publish rest] eqn:Esp. cbn in Esp.
  destruct (split_floor_spec _ _ _ _ Esp) as [Hsplit Hlen].
  case_bool_decide as Hne.
  { eapply records_nothing; [done|]. rewrite app_nil_r. by apply withhold_more. }
  specialize (Hlen Hne).
  apply (publish_prefix _ _ _ _ _ _ more c Hinv Hr Hj He Es publish rest Hsplit Hne).
  apply (f_equal str_len) in Hsplit. rewrite (str_len_app publish rest) in Hsplit. unfold holdback_of.
  assert (0 < str_len publish)%Z by (destruct publish as [|ch rem]; [done|];
    cbn; pose proof (utf8_len_pos ch); pose proof (str_len_nonneg rem); lia).
  lia.
Qed.

Lemma record_completed_spec node provider model completed published text a c :
  stream_inv g node published text a → sa_response a = None →
  records_as (record_completed w g node provider model completed a) c
    (λ out new, recorded node (published ++ new) text out).
Proof.
  intros Hinv Hr. unfold record_completed. destruct (st_index _ _ _ _ _ Hinv) as [Hi Hi'].
  assert (Hsettled : (sa_rejection a = None → released g node completed → concat published = text ∧ clean (gw_secrets g) text) →
    stream_inv g node published text (a <| sa_response := Some completed |>)).
  { intros Hdone. split; [done|by apply (st_safe _ _ _ _ _ Hinv)|done| |].
    - intros e He. cbn in He. split; [by apply (st_rejected _ _ _ _ _ Hinv)|done].
    - by intros ? [= <-]. }
  destruct (sa_rejection a) as [e|] eqn:Hj; cbn [is_some negb andb].
  { eapply records_nothing; [done|]. rewrite app_nil_r. by apply Hsettled. }
  destruct (st_open _ _ _ _ _ Hinv Hr Hj) as (Ht & Hcl & Hh & Hemp & Hf).
  destruct (store_is_empty (gw_secrets g)) eqn:He; cbn [negb andb].
  { eapply records_nothing; [done|]. rewrite app_nil_r. apply Hsettled. intros _ _.
    destruct (Hemp eq_refl) as [Hp _]. rewrite Hp, app_nil_r in Ht. by split. }
  case_bool_decide as Hstop; cbn [negb].
  { eapply records_nothing; [done|]. rewrite app_nil_r. apply Hsettled. intros _ [?|[? _]]; congruence. }
  destruct (scan_response g node completed) as [[]|e] eqn:Hscan; cbn [is_ok negb orb]; cycle 1.
  { eapply records_nothing; [done|]. rewrite app_nil_r. apply Hsettled. intros _ [?|[_ ?]]; congruence. }
  case_bool_decide as Hp.
  { eapply records_nothing; [done|]. rewrite app_nil_r. apply Hsettled. intros _ _.
    rewrite Hp, app_nil_r in Ht. by split. }
  destruct Hf as [front Hf].
  rewrite (proj2 (scan_text_clean g node _)); cycle 1.
  { rewrite Ht, Hf, <-(assoc (++)), <-(app_nil_r (sa_pending a)), (assoc (++) _ _ []) in Hcl. by apply clean_part in Hcl. }
  destruct (publish_delta_spec node provider model (sa_pending a) (a <| sa_pending := [] |>) c)
    as (c' & out & rs & E & Hw & Hd & Hout).
  assert (Hall : concat (published ++ [sa_pending a]) = text) by by rewrite concat_snoc.
  assert (Hsafe : safe (gw_secrets g) (concat (published ++ [sa_pending a])) text).
  { rewrite Hall. split; [done|]. by right. }
  unfold records_as, mbind, cm_bind. rewrite E.
  destruct Hout as [->|(e & -> & Hk)]; [|by eexists _, _, rs; rewrite Hd].
  eexists _, _, rs. split; [done|]. split; [done|]. rewrite Hd. pose proof (next_index a Hi).
  split; [split; [cbn; lia|done]|done|done|cbn; congruence|]. by intros ? _ _ _.
Qed.

Lemma record_event_spec node provider model event published text a c :
  stream_inv g node published text a →
  records_as (record_stream_event w g node provider model event a) c (λ out new,
    recorded node (published ++ new) (if is_some (sa_response a) then text else text ++ event_text event) out).
Proof.
  intros Hinv. unfold record_stream_event. destruct (sa_response a) as [r|] eqn:Hr; cbn [is_some].
  { eapply records_nothing; [done|]. by rewrite app_nil_r. }
  destruct event as [more|completed]; [by apply record_text_spec|].
  cbn [event_text]. rewrite app_nil_r. by apply record_completed_spec.
Qed.

Definition events_text (events : list ChatStreamEvent) : str := concat (map event_text events).
Definition event_response (e : ChatStreamEvent) : option ChatResponse :=
  match e with TextDelta _ => None | Completed r => Some r end.
Definition is_delta (e : ChatStreamEvent) : Prop := event_response e = None.
(** [r] is the first completion among the events and [t] the text before it; an
    answer that is [held] already is not replaced. *)
Definition answered (held : option ChatResponse) (events : list ChatStreamEvent) (t : str)
    (r : ChatResponse) : Prop :=
  match held with
  | Some r' => t = [] ∧ r = r'
  | None => ∃ before after, events = before ++ Completed r :: after ∧ Forall is_delta before ∧
      t = events_text before
  end.
(** What was heard when all the events were recorded. *)
Definition heard (held : option ChatResponse) (events : list ChatStreamEvent) (t : str)
    (a : StreamAccumulator) : Prop :=
  match sa_response a with
  | Some r => answered held events t r
  | None => held = None ∧ Forall is_delta events ∧ t = events_text events
  end.
Lemma answered_after event events t r : is_delta event →
  answered None events t r → answered None (event :: events) (event_text event ++ t) r.
Proof.
  intros Hd (before & after & -> & Hb & ->). exists (event :: before), after.
  split; [done|]. split; [by constructor|done].
Qed.
(** The answer after one more event: it completes the stream, or the rest does. *)
Lemma answered_cons event events t r : answered (event_response event) events t r →
  answered None (event :: events) (event_text event ++ t) r.
Proof.
  destruct event as [more|completed]; [by apply answered_after|].
  intros [-> ->]. exists [], events. done.
Qed.
Lemma heard_cons event events t a : heard (event_response event) events t a →
  heard None (event :: events) (event_text event ++ t) a.
Proof.
  unfold heard. destruct (sa_response a) as [r|]; [apply answered_cons|].
  intros (He & Hd & ->). split; [done|]. by split; [constructor|].
Qed.
Ltac read_return E := cbn -[publish_delta] in E; unfold mret, cm_ret in E; simplify_eq/=.
Lemma record_event_response node provider model event a a' c c' :
  record_stream_event w g node provider model event a c = (c', Done (a', Ok ())) →
  sa_response a = None → sa_response a' = event_response event.
Proof.
  intros E Hr. unfold record_stream_event in E. rewrite Hr in E. cbn [is_some] in E.
  destruct event as [more|completed]; cbn [event_response].
  - unfold record_text in E. case_if in E; [by read_return E|].
    case_if in E.
    { destruct (scan_text g node more) as [[]|e]; [|by read_return E].
      destruct (publish_delta_spec node provider model more a c) as (c2 & r & rs & Ep & _ & _ & Hout).
      rewrite Ep in E. destruct Hout as [->|(e & -> & _)]; by read_return E. }
    cbv zeta in E. destruct (scan_text _ _ _) as [[]|e]; [|by read_return E].
    destruct (split_floor _ _) as [publish rest]. case_if in E; [by read_return E|].
    match type of E with (publish_delta _ _ _ _ _ ?b ≫= _) _ = _ =>
      destruct (publish_delta_spec node provider model publish b c) as (c2 & r & rs & Ep & _ & _ & Hout) end.
    unfold mbind, cm_bind in E. rewrite Ep in E. destruct Hout as [->|(e & -> & _)]; by read_return E.
  - unfold record_completed in E. cbv zeta in E. case_if in E; [|by read_return E].
    case_if in E; [by read_return E|]. destruct (scan_text _ _ _) as [[]|e]; [|by read_return E].
    match type of E with (publish_delta _ _ _ _ ?x ?b ≫= _) _ = _ =>
      destruct (publish_delta_spec node provider model x b c) as (c2 & r & rs & Ep & _ & _ & Hout) end.
    unfold mbind, cm_bind in E. rewrite Ep in E. destruct Hout as [->|(e & -> & _)]; by read_return E.
Qed.
Lemma recorded_safe node published text out : recorded node published text out →
  safe (gw_secrets g) (concat published) text.
Proof. unfold recorded. destruct out as [a [[]|e]]; [by intros []|by intros (_ & _ & ?)]. Qed.
Lemma record_all_settled node provider model events a c r : sa_response a = Some r →
  record_all w g node provider model events a c = (c, Done (a, Ok ())).
Proof.
  intros Hr. induction events as [|event events IH]; [done|]. cbn [record_all].
  assert (Hev : record_stream_event w g node provider model event a c = (c, Done (a, Ok ()))).
  { unfold record_stream_event. by rewrite Hr. }
  unfold mbind, cm_bind. by rewrite Hev.
Qed.
Lemma record_all_spec node provider model events : ∀ published text a c,
  stream_inv g node published text a →
  records_as (record_all w g node provider model events a) c (λ out new,
    ∃ t, t `prefix_of` events_text events ∧ recorded node (published ++ new) (text ++ t) out ∧
      (out.2 = Ok () → heard (sa_response a) events t out.1)).
Proof.
  induction events as [|event events IH]; intros published text a c Hinv.
  { eapply records_nothing; [done|]. exists []. rewrite !app_nil_r. split; [apply prefix_nil|].
    split; [done|]. intros _. unfold heard. cbn. by destruct (sa_response a). }
  destruct (sa_response a) as [r|] eqn:Hr.
  { eapply records_nothing; [by eapply record_all_settled|]. exists []. rewrite !app_nil_r.
    split; [apply prefix_nil|]. split; [done|]. intros _. unfold heard. cbn. by rewrite Hr. }
  destruct (record_event_spec node provider model event _ _ _ c Hinv) as (c1 & [a1 r1] & rs1 & E1 & W1 & R1).
  rewrite Hr in R1. cbn [is_some] in R1. unfold records_as. cbn [record_all]. unfold mbind, cm_bind. rewrite E1.
  destruct r1 as [[]|e].
  - destruct (IH _ _ _ c1 R1) as (c2 & out & rs2 & E2 & W2 & t & Hp & R2 & Hh).
    exists c2, out, (rs1 ++ rs2). split; [done|]. split; [exact (wrote_deltas_trans _ _ _ _ _ W1 W2)|].
    exists (event_text event ++ t). split; [by apply prefix_app|].
    split; [by rewrite deltas_app, !(assoc (++))|]. intros Hok. apply heard_cons.
    rewrite <-(record_event_response _ _ _ _ _ _ _ _ E1 Hr). by apply Hh.
  - exists c1, (a1, Err e), rs1. split; [done|]. split; [done|]. exists (event_text event).
    split; [by eexists|]. by split.
Qed.

(** What a route leaves: an error after a publication is terminal. *)
Definition routed (node : NodeDef) (published : list str) (text : str) (out : Routed) : Prop :=
  safe (gw_secrets g) (concat published) text ∧
  match out.2 with
  | Ok r => sa_rejection out.1 = None → released g node r → concat published = text ∧ clean (gw_secrets g) text
  | Err e =>
      published = [] ∧ sa_rejection out.1 = None ∨
      is_terminal_error_kind (le_kind (default e (sa_rejection out.1))) = true
  end.
Lemma rejected_terminal node published text a e : stream_inv g node published text a →
  is_terminal_error_kind (le_kind e) = true →
  is_terminal_error_kind (le_kind (default e (sa_rejection a))) = true.
Proof.
  intros Hinv He. destruct (sa_rejection a) as [e'|] eqn:Hj; [|done]. cbn.
  by rewrite (proj1 (st_rejected _ _ _ _ _ Hinv e' Hj)).
Qed.
Lemma routed_response node published text a a' r : stream_inv g node published text a →
  sa_response a = Some r → sa_rejection a' = sa_rejection a → routed node published text (a', Ok r).
Proof.
  intros Hinv Hr Hj. split; [by apply (st_safe _ _ _ _ _ Hinv)|]. cbn. rewrite Hj.
  by apply (st_done _ _ _ _ _ Hinv).
Qed.
Lemma take_response_routed node published text a message : stream_inv g node published text a →
  routed node published text (take_response a message).
Proof.
  intros Hinv. unfold take_response. destruct (sa_response a) as [r|] eqn:Hr.
  - by eapply routed_response.
  - split; [by apply (st_safe _ _ _ _ _ Hinv)|]. right. by apply (rejected_terminal _ _ _ _ _ Hinv).
Qed.
Lemma after_cancel_routed node published text a : stream_inv g node published text a →
  routed node published text (after_cancel a).
Proof.
  intros Hinv. unfold after_cancel. destruct (sa_response a) as [r|] eqn:Hr.
  - by eapply routed_response.
  - split; [by apply (st_safe _ _ _ _ _ Hinv)|]. right. by apply (rejected_terminal _ _ _ _ _ Hinv).
Qed.
Lemma after_done_routed node published text a r : stream_inv g node published text a →
  routed node published text (after_done r a).
Proof.
  intros Hinv. pose proof (st_safe _ _ _ _ _ Hinv) as Hsafe.
  assert (Hrest : ∀ out, out = match r with
      | Err error =>
          if (0 <? sa_index a)%Z then
            (a, Err (llm_error PartialStream
                       (s"LLM stream failed after " ++ show_uint (sa_index a)
                        ++ s" emitted deltas; route fallback is unsafe: " ++ le_message error)))
          else (a, Err error)
      | Ok _ => take_response a (s"LLM stream ended without a completed response")
      end → routed node published text out).
  { intros out ->. destruct r as [[]|error]; [by apply take_response_routed|].
    destruct (Z.ltb_spec 0 (sa_index a)) as [Hi|Hi].
    - split; [done|]. right. by apply (rejected_terminal _ _ _ _ _ Hinv).
    - split; [done|]. cbn. destruct (sa_rejection a) as [e|] eqn:Hj.
      + right. cbn. by rewrite (proj1 (st_rejected _ _ _ _ _ Hinv e Hj)).
      + left. split; [|done]. destruct published; [done|].
        destruct (st_index _ _ _ _ _ Hinv) as [_ Hpos]. specialize (Hpos ltac:(done)). lia. }
  unfold after_done. destruct (sa_rejection a) as [e|] eqn:Hj; [|by apply Hrest].
  destruct (sa_response a) as [response|] eqn:Hr; [|by apply Hrest].
  eapply routed_response; [done|done|]. cbn. by rewrite Hj.
Qed.

Definition move_events (m : stream_move) : list ChatStreamEvent :=
  match m with MvEvent e => [e] | MvClosed => [] | MvCancel queued | MvDone _ queued => queued end.
(** All a provider sent on a stream, and its text. *)
Definition all_events (moves : list stream_move) : list ChatStreamEvent := concat (map move_events moves).
Definition moves_text (moves : list stream_move) : str := events_text (all_events moves).

(** What a part of a route did, however it ended. *)
Definition streamed (node : NodeDef) (published : list str) (text : str) (events : list ChatStreamEvent)
    (held : option ChatResponse) (c c' : Call) (out : exit Routed) : Prop :=
  ∃ rs t, wrote_deltas c c' rs ∧ t `prefix_of` events_text events ∧ (is_some held = true → t = []) ∧
    safe (gw_secrets g) (concat (published ++ deltas rs)) (text ++ t) ∧
    match out with
    | Done o => routed node (published ++ deltas rs) (text ++ t) o ∧
        ∀ r, o.2 = Ok r → answered held events t r
    | Failed _ => False
    | Gone => True
    end.

Lemma answered_more held events later t r : answered held events t r → answered held (events ++ later) t r.
Proof.
  destruct held; [done|]. intros (before & after & -> & H1 & H2). exists before, (after ++ later).
  by rewrite <-(assoc (++)).
Qed.
(** The answer of a route is the one it holds. *)
Definition gives_held (k : StreamAccumulator → Routed) : Prop :=
  ∀ a r, (k a).2 = Ok r → sa_response a = Some r.
Lemma take_response_held message : gives_held (λ a, take_response a message).
Proof. intros a r. unfold take_response. destruct (sa_response a); naive_solver. Qed.
Lemma after_cancel_held : gives_held after_cancel.
Proof. intros a r. unfold after_cancel. destruct (sa_response a); naive_solver. Qed.
Lemma after_done_held r : gives_held (after_done r).
Proof.
  intros a r'. unfold after_done. pose proof (take_response_held (s"LLM stream ended without a completed response") a r').
  destruct (sa_rejection a), (sa_response a), r as [[]|e]; cbn; try done; try case_if; naive_solver.
Qed.
Lemma drained_spec node provider model queued later k published text a c :
  stream_inv g node published text a →
  (∀ published text a, stream_inv g node published text a → routed node published text (k a)) →
  gives_held k →
  ∃ c' out, drained w g node provider model queued k a c = (c', out) ∧
    streamed node published text (queued ++ later) (sa_response a) c c' out.
Proof.
  intros Hinv Hk Hheld. unfold drained, mbind, cm_bind.
  destruct (sa_response a) as [r|] eqn:Hr; cbn [is_some].
  { rewrite (record_all_settled _ _ _ _ _ _ _ Hr). eexists _, _. split; [done|]. exists [], [].
    rewrite !app_nil_r. split; [apply wrote_deltas_nil|]. split; [apply prefix_nil|]. split; [done|].
    split; [by apply (st_safe _ _ _ _ _ Hinv)|]. split; [by apply Hk|].
    intros r' Hr'%Hheld. rewrite Hr in Hr'. by simplify_eq. }
  destruct (record_all_spec node provider model queued _ _ _ c Hinv)
    as (c' & [a' r] & rs & E & Hw & t & Ht & Hrec & Hh).
  rewrite E. eexists _, _. split; [done|]. exists rs, t. split; [done|].
  split; [etrans; [exact Ht|]; unfold events_text; rewrite map_app, concat_app; by eexists|]. split; [done|].
  split; [exact (recorded_safe _ _ _ _ Hrec)|]. destruct r as [[]|e].
  - split; [by apply Hk|]. intros r Hr'%Hheld. specialize (Hh eq_refl). cbn [fst] in Hh. unfold heard in Hh.
    rewrite Hr', Hr in Hh. by apply answered_more.
  - destruct Hrec as (He & Hj & Hs). split; [|done]. split; [done|]. right. cbn in *. rewrite Hj. cbn. by rewrite He.
Qed.

Lemma stream_route_spec node provider model moves : ∀ published text a c,
  stream_inv g node published text a →
  ∃ c' out, stream_route w g node provider model moves a c = (c', out) ∧
    streamed node published text (all_events moves) (sa_response a) c c' out.
Proof.
  induction moves as [|m moves IH]; intros published text a c Hinv.
  { eexists _, _. split; [done|]. exists [], []. rewrite !app_nil_r. split; [apply wrote_deltas_nil|].
    split; [apply prefix_nil|]. split; [done|]. split; [|done]. by apply (st_safe _ _ _ _ _ Hinv). }
  destruct m as [event| |queued|r queued]; cbn [stream_route].
  - unfold mbind, cm_bind. destruct (sa_response a) as [r|] eqn:Hr; cbn [is_some].
    { assert (E : record_stream_event w g node provider model event a c = (c, Done (a, Ok ())))
        by (unfold record_stream_event; by rewrite Hr).
      rewrite E. destruct (IH _ _ _ c Hinv) as (c2 & out & E2 & rs2 & t & W2 & _ & Hset & Hs & Hout).
      rewrite Hr in Hset, Hout. specialize (Hset eq_refl). subst t. eexists _, _. split; [exact E2|].
      exists rs2, []. do 2 (split; [by try apply prefix_nil|]). done. }
    destruct (record_event_spec node provider model event _ _ _ c Hinv) as (c1 & [a1 r1] & rs1 & E1 & W1 & R1).
    rewrite Hr in R1. cbn [is_some] in R1. rewrite E1. destruct r1 as [[]|e].
    + destruct (IH _ _ _ c1 R1) as (c2 & out & E2 & rs2 & t & W2 & Ht & _ & Hs & Hout).
      eexists _, _. split; [exact E2|]. exists (rs1 ++ rs2), (event_text event ++ t).
      rewrite deltas_app, (assoc (++) published), (assoc (++) text).
      split; [exact (wrote_deltas_trans _ _ _ _ _ W1 W2)|]. split; [by apply prefix_app|].
      split; [done|]. split; [done|]. destruct out; [|done|done].
      split; [rewrite (assoc (++) published), (assoc (++) text); apply Hout|].
      intros r Hok. apply (answered_cons event (all_events moves)).
      rewrite <-(record_event_response _ _ _ _ _ _ _ _ E1 Hr). by apply Hout.
    + eexists _, _. split; [done|]. exists rs1, (event_text event). split; [done|].
      split; [by eexists|]. split; [done|]. pose proof (recorded_safe _ _ _ _ R1) as Hs.
      split; [done|]. destruct R1 as (He & Hj & _). split; [|done]. split; [done|].
      right. cbn in *. rewrite Hj. cbn. by rewrite He.
  - eexists _, _. split; [done|]. exists [], []. rewrite !app_nil_r. split; [apply wrote_deltas_nil|].
    split; [apply prefix_nil|]. split; [done|]. pose proof (take_response_routed _ _ _ _ (s"LLM stream channel closed before completion") Hinv) as Hr.
    split; [apply Hr|]. split; [exact Hr|]. intros r' Hr'%take_response_held. by rewrite Hr'.
  - apply (drained_spec _ _ _ queued (all_events moves)); [done| |apply after_cancel_held].
    intros; by apply after_cancel_routed.
  - apply (drained_spec _ _ _ queued (all_events moves)); [done| |apply after_done_held].
    intros; by apply after_done_routed.
Qed.

(** ** Routes *)

(** The publications of a call are safe for the text of one stream. *)
Definition published_safely (new : list str) : Prop :=
  ∃ n t, t `prefix_of` moves_text (wd_stream w n).2 ∧ safe (gw_secrets g) (concat new) t.
Lemma published_nothing : published_safely [].
Proof. exists 0, []. split; [apply prefix_nil|apply safe_nil]. Qed.
(** The publications are the whole text of a stream up to its completion, which
    is the answer. *)
Definition published_fully (new : list str) (response : ChatResponse) : Prop :=
  ∃ n, answered None (all_events (wd_stream w n).2) (concat new) response ∧
    clean (gw_secrets g) (concat new).

Lemma dispatch_spec provider model c : ∃ c' n,
  dispatch w provider model c = (c', Done n) ∧ wrote c c' [] [(provider, model)].
Proof. eexists _, _. split; [done|]. split; cbn; by rewrite ?app_nil_r. Qed.

Lemma complete_route_spec node r c : ∃ c' out rs,
  complete_route w g node r c = (c', out) ∧ wrote c c' rs [(cq_provider r, cq_model r)] ∧
  published_safely (deltas rs) ∧ (∀ p, p ∈ rs → p.1 = s"llm_delta") ∧
  match out with
  | Done (_, (a, Ok response)) =>
      sa_rejection a = None → cq_stream r = true → released g node response →
      published_fully (deltas rs) response
  | Done (_, (a, Err e)) =>
      deltas rs = [] ∧ sa_rejection a = None ∨
      is_terminal_error_kind (le_kind (default e (sa_rejection a))) = true
  | Failed _ => False
  | Gone => True
  end.
Proof.
  destruct (dispatch_spec (cq_provider r) (cq_model r) c) as (c1 & n & E1 & W1).
  unfold complete_route, mbind, cm_bind. rewrite E1. destruct (cq_stream r) eqn:Es; cbn [negb].
  - destruct (wd_stream w n) as [observed moves] eqn:Ew.
    destruct (stream_route_spec node (cq_provider r) (cq_model r) moves [] [] acc_default c1
      (stream_inv_start g node)) as (c2 & out & E2 & rs & t & [W2 Hd] & Ht & _ & Hs & Hout).
    rewrite E2. cbn [app] in *.
    assert (Hp : published_safely (deltas rs)) by (exists n, t; by rewrite Ew).
    destruct out as [[a out]|e|]; [|done|]; eexists _, _, rs; (split; [done|]);
      (split; [exact (wrote_trans _ _ _ _ _ _ _ W1 W2)|]); do 2 (split; [done|]); [|done].
    destruct Hout as [[_ Hout] Hans]. destruct out as [response|e]; [|exact Hout].
    intros Hj _ Hrel. destruct (Hout Hj Hrel) as [Ht' Hc]. exists n. rewrite Ew, Ht'.
    split; [by apply (Hans response)|done].
  - assert (Hnone : published_safely (deltas []) ∧ (∀ p : str * value, p ∈ [] → p.1 = s"llm_delta")).
    { split; [apply published_nothing|]. by intros ? ?%not_elem_of_nil. }
    destruct (wd_complete w n) as [observed [response|e]|observed|]; eexists _, _, []; (split; [done|]);
      (split; [done|]); (split; [apply Hnone|]); (split; [apply Hnone|]); try done; by left.
Qed.

Lemma finish_error_kind observed e stream : le_kind (finish_error g observed e stream) = le_kind e.
Proof. unfold finish_error. destruct observed; cbn; by case_if. Qed.
Lemma terminal_stays e : is_terminal_error_kind (le_kind e) = true → allows_next_route e = false.
Proof. intros H1. unfold allows_next_route. by rewrite H1. Qed.
Lemma record_failure_spec node route attempt total e unknown c : ∃ c' out rs,
  record_route_failure w node route attempt total e unknown c = (c', out) ∧ wrote c c' rs [] ∧
  deltas rs = [] ∧ (∀ p, p ∈ rs → p.1 = s"llm_route_failed") ∧ out ≠ Gone.
Proof.
  destruct (journal_append_spec unknown (s"llm_route_failed") (route_failure node route attempt total e unknown) c)
    as (c' & r & E & Hw).
  unfold record_route_failure, mbind, cm_bind. rewrite E. eexists c', _, _. split; [done|]. split; [exact Hw|].
  split; [done|]. split; [by intros ? ->%list_elem_of_singleton|]. by destruct r.
Qed.

Definition route_key (m : ModelRef) : str * str := (mr_provider m, mr_model m).
Definition no_call (rs : list (str * value)) : Prop := ∀ p, p ∈ rs → p.1 ≠ s"llm_call".
Lemma no_call_app rs rs' : no_call rs → no_call rs' → no_call (rs ++ rs').
Proof. intros H1 H2 p [?|?]%elem_of_app; [by apply H1|by apply H2]. Qed.
Lemma no_call_kind kind rs : (kind =s s"llm_call") = false → (∀ p, p ∈ rs → p.1 = kind) → no_call rs.
Proof. intros Hk Hrs p Hp Heq. apply Hrs in Hp. rewrite <-Hp, Heq in Hk. by rewrite str_eqb_refl in Hk. Qed.

(** What trying routes does. *)
Definition tried (node : NodeDef) (request : ChatRequest) (rest : list ModelRef) (c c' : Call)
    (out : exit (option Completion)) : Prop :=
  ∃ rs sent, wrote c c' rs sent ∧ published_safely (deltas rs) ∧ no_call rs ∧
    sent `sublist_of` map route_key rest ∧
    match out with
    | Done (Some k) =>
        last sent = Some (co_provider k, co_model k) ∧
        (co_rejection k = None → cq_stream request = true → released g node (co_response k) →
         published_fully (deltas rs) (co_response k))
    | Done None => rest = []
    | Failed _ | Gone => True
    end.
Lemma tried_nothing node request rest c out :
  match out with Failed _ => True | _ => False end → tried node request rest c c out.
Proof.
  intros Ho. exists [], []. split; [apply wrote_nil|]. split; [apply published_nothing|].
  split; [by intros ? ?%not_elem_of_nil|]. split; [apply sublist_nil_l|]. by destruct out.
Qed.
Lemma tried_after node request route rest c c1 c2 c3 rs1 rs2 sent out :
  wrote c c1 rs1 sent → sent `sublist_of` [route_key route] → deltas rs1 = [] → no_call rs1 →
  wrote c1 c2 rs2 [] → deltas rs2 = [] → no_call rs2 →
  tried node request rest c2 c3 out → out ≠ Done None → tried node request (route :: rest) c c3 out.
Proof.
  intros W1 S1 D1 N1 W2 D2 N2 (rs & sent' & W3 & P3 & N3 & S3 & Hout) Hne.
  exists (rs1 ++ rs2 ++ rs), (sent ++ [] ++ sent').
  rewrite !deltas_app, D1, D2. cbn [app].
  split; [exact (wrote_trans _ _ _ _ _ _ _ W1 (wrote_trans _ _ _ _ _ _ _ W2 W3))|].
  split; [done|]. split; [by repeat apply no_call_app|]. split; [by apply (sublist_app sent [_])|].
  destruct out as [[k|]|e|]; try done. destruct Hout as [Hl Hd]. split; [|done].
  rewrite last_app, Hl. done.
Qed.

Lemma route_attempt_spec node request attempt route c :
  let routed_request := request <| cq_provider := mr_provider route |> <| cq_model := mr_model route |> in
  let validation :=
    if (attempt =? 0)%nat then Ok () else validate_route_capabilities (gw_provider g) routed_request in
  ∃ c' out rs sent,
    match validation with
    | Ok _ => complete_route w g node routed_request
    | Err e => mret ([], (acc_default, Err e))
    end c = (c', out) ∧ wrote c c' rs sent ∧ sent `sublist_of` [route_key route] ∧
    published_safely (deltas rs) ∧ (∀ p, p ∈ rs → p.1 = s"llm_delta") ∧
    match out with
    | Done (_, (a, Ok response)) =>
        sent = [route_key route] ∧
        (sa_rejection a = None → cq_stream request = true → released g node response →
         published_fully (deltas rs) response)
    | Done (_, (a, Err e)) =>
        deltas rs = [] ∧ sa_rejection a = None ∨
        is_terminal_error_kind (le_kind (default e (sa_rejection a))) = true
    | Failed _ => False
    | Gone => True
    end.
Proof.
  intros routed_request validation. destruct validation as [[]|e].
  - destruct (complete_route_spec node routed_request c) as (c' & out & rs & E & Hw & Hp & Hd & Hout).
    exists c', out, rs, [route_key route]. do 2 (split; [done|]). split; [done|]. do 2 (split; [done|]).
    destruct out as [[? [? []]]| |]; done.
  - eexists _, _, [], []. split; [done|]. split; [apply wrote_nil|]. split; [apply sublist_nil_l|].
    split; [apply published_nothing|]. split; [by intros ? ?%not_elem_of_nil|]. by left.
Qed.

Lemma pure_bind {A B} (r : result StepError A) (f : A → CM B) c :
  (pure r ≫= f) c = match r with Ok x => f x c | Err e => (c, Failed e) end.
Proof. by destruct r. Qed.
Lemma cm_bind_eq {A B} (m : CM A) (f : A → CM B) c c' out : m c = (c', out) →
  (m ≫= f) c = match out with Done x => f x c' | Failed e => (c', Failed e) | Gone => (c', Gone) end.
Proof. intros E. unfold mbind, cm_bind. rewrite E. by destruct out. Qed.
Lemma try_routes_spec node request routes rest : ∀ attempt c, ∃ c' out,
  try_routes w g node request routes attempt rest c = (c', out) ∧
  (attempt + length rest = length routes → tried node request rest c c' out).
Proof.
  induction rest as [|route rest IH]; intros attempt c.
  { eexists _, _. split; [done|]. intros _. exists [], []. split; [apply wrote_nil|].
    split; [apply published_nothing|]. split; [by intros ? ?%not_elem_of_nil|]. done. }
  cbn [try_routes]. rewrite pure_bind.
  set (rr := request <| cq_provider := mr_provider route |> <| cq_model := mr_model route |>).
  destruct (scan_request g node rr) as [[]|e]; [|eexists _, _; split; [done|]; intros _; by apply tried_nothing].
  assert (Hest : ∀ {B} (k : () → CM B), (∃ e, ((if (0 <? attempt)%nat && cb_require_pricing (gw_budget g)
      then _ ← pure (estimate_reservation g node rr routes); mret () else mret ()) ≫= k) c = (c, Failed e)) ∨
    ((if (0 <? attempt)%nat && cb_require_pricing (gw_budget g)
      then _ ← pure (estimate_reservation g node rr routes); mret () else mret ()) ≫= k) c = k () c).
  { intros B k. case_if; [|by right]. destruct (estimate_reservation g node rr routes); [by right|left; by eexists]. }
  match goal with |- context [(mbind ?k _) c] => destruct (Hest _ k) as [[e ->]| ->] end.
  { eexists _, _. split; [done|]. intros _. by apply tried_nothing. }
  destruct (route_attempt_spec node request attempt route c) as (c1 & out & rs & sent & E & W1 & S1 & P1 & D1 & Hout).
  fold rr in E. rewrite (cm_bind_eq _ _ _ _ _ E).
  pose proof (no_call_kind (s"llm_delta") rs ltac:(done) D1) as N1.
  assert (Hsub : sent `sublist_of` map route_key (route :: rest)).
  { etrans; [exact S1|]. apply sublist_skip, sublist_nil_l. }
  destruct out as [[observed [a [response|e]]]|e|]; [|  |done|].
  - eexists _, _. split; [done|]. intros _. destruct Hout as [-> Hout]. exists rs, [route_key route]. done.
  - set (error := finish_error g observed (default e (sa_rejection a)) (cq_stream request)).
    destruct (record_failure_spec node route (attempt + 1) (length routes) error
      (is_some (sa_rejection a) && is_some (cq_provider_web_search request)) c1)
      as (c2 & out & rs2 & E2 & W2 & D2 & N2 & Hgone).
    rewrite (cm_bind_eq _ _ _ _ _ E2). apply no_call_kind in N2; [|done].
    assert (Hstop : ∀ e', tried node request (route :: rest) c c2 (Failed e')).
    { intros e'. exists (rs ++ rs2), (sent ++ []). rewrite deltas_app, D2, !app_nil_r.
      split; [rewrite <-(app_nil_r sent); exact (wrote_trans _ _ _ _ _ _ _ W1 W2)|]. split; [done|].
      split; [by apply no_call_app|]. done. }
    destruct out as [[]|e'|]; [|by eexists _, _|done].
    case_if; [by eexists _, _|]. case_if; [by eexists _, _|].
    apply orb_false_elim in E1 as [E1 E3]. apply negb_false_iff in E1. apply Nat.eqb_neq in E3.
    destruct (IH (attempt + 1) c2) as (c3 & out & E4 & IH'). eexists _, _. split; [exact E4|].
    intros Hlen. cbn in Hlen. eapply tried_after; [exact W1|exact S1| |exact N1|exact W2|exact D2|exact N2| |].
    + destruct Hout as [[? _]|Ht]; [done|]. rewrite <-(finish_error_kind observed _ (cq_stream request)) in Ht.
      apply terminal_stays in Ht. fold error in Ht. congruence.
    + apply IH'. lia.
    + intros ->. destruct (IH' ltac:(lia)) as (? & ? & _ & _ & _ & _ & ->). cbn in Hlen. lia.
  - eexists _, _. split; [done|]. intros _. exists rs, sent. done.
Qed.

(** ** The whole call *)

Lemma journal_state_spec c : ∃ c' st, journal_state w c = (c', Done st) ∧ wrote c c' [] [].
Proof. eexists _, _. split; [done|]. split; cbn; by rewrite ?app_nil_r. Qed.
Lemma check_budget_spec c : ∃ c' out, check_budget w g c = (c', out) ∧ wrote c c' [] [] ∧ out ≠ Gone.
Proof.
  eexists _, _. split; [done|]. split; [split; cbn; by rewrite ?app_nil_r|]. by destruct (check_budget_values _ _ _).
Qed.

Definition settled (node : NodeDef) (request : ChatRequest) (routes : list ModelRef)
    (extra : TokenUsage → value) (k : Completion) (c c' : Call) (out : exit ChatResponse) : Prop :=
  ∃ rs, wrote c c' rs [] ∧ deltas rs = [] ∧
  match out with
  | Done response =>
      response = co_response k ∧ co_rejection k = None ∧ scan_response g node response = Ok () ∧
      cr_stop response ≠ ModelContextWindowExceeded ∧
      ∃ cost, cost_microusd g node routes (co_provider k) (co_model k) (cr_usage response)
                (cq_cache_retention request) (searched request response ≫= wo_calls) = Ok cost ∧
        rs = [(s"llm_call", call_event g node request routes extra k cost)]
  | Failed _ => True
  | Gone => False
  end.
Lemma settle_call_spec node request routes extra k c : ∃ c' out,
  settle_call w g node request routes extra k c = (c', out) ∧ settled node request routes extra k c c' out.
Proof.
  unfold settle_call. rewrite pure_bind.
  destruct (cost_microusd g node routes _ _ _ _ _) as [cost|e] eqn:Ec; cycle 1.
  { eexists _, _. split; [done|]. exists []. split; [apply wrote_nil|done]. }
  destruct (journal_append_spec false (s"llm_call") (call_event g node request routes extra k cost) c)
    as (c1 & r & E1 & W1).
  rewrite (cm_bind_eq _ _ _ _ _ E1).
  assert (Hrefused : ∀ e, ∃ c' out, (c1, Failed e) = (c', out) ∧ settled node request routes extra k c c' out).
  { intros e. eexists _, _. split; [done|]. by eexists; split; [exact W1|]. }
  rewrite pure_bind. destruct (step_err node r) as [[]|e]; [|apply Hrefused].
  rewrite pure_bind. case_if; [apply Hrefused|].
  rewrite pure_bind. destruct (co_rejection k) as [e|] eqn:Ej; [apply Hrefused|].
  rewrite pure_bind. case_bool_decide as Hstop.
  - rewrite pure_bind. case_if; [apply Hrefused|].
    destruct (check_budget_spec c1) as (c2 & out & E2 & W2 & Hg). rewrite (cm_bind_eq _ _ _ _ _ E2).
    pose proof (wrote_trans _ _ _ _ _ _ _ W1 W2) as W3.
    destruct out as [[]|e|]; eexists _, _; (split; [done|]); (eexists; split; [exact W3|]); try done.
  - destruct (scan_response g node (co_response k)) as [[]|e] eqn:Es; [|apply Hrefused].
    rewrite pure_bind. case_if; [apply Hrefused|].
    destruct (check_budget_spec c1) as (c2 & out & E2 & W2 & Hg). rewrite (cm_bind_eq _ _ _ _ _ E2).
    pose proof (wrote_trans _ _ _ _ _ _ _ W1 W2) as W3.
    destruct out as [[]|e|]; eexists _, _; (split; [done|]); (eexists; split; [exact W3|]); try done.
    split; [done|]. do 4 (split; [done|]). by exists cost.
Qed.

(** A returned answer, against the records [rs] and the requests [sent] of its
    call. *)
Definition returned (node : NodeDef) (request : ChatRequest) (routes : list ModelRef)
    (extra : TokenUsage → value) (rs : list (str * value)) (sent : list (str * str))
    (response : ChatResponse) : Prop :=
  ∃ k cost before, co_response k = response ∧
    rs = before ++ [(s"llm_call", call_event g node request routes extra k cost)] ∧ no_call before ∧
    cost_microusd g node routes (co_provider k) (co_model k) (cr_usage response)
      (cq_cache_retention request) (searched request response ≫= wo_calls) = Ok cost ∧
    sent `sublist_of` map route_key routes ∧ last sent = Some (co_provider k, co_model k) ∧
    scan_response g node response = Ok () ∧
    (cq_stream request = true → published_fully (deltas rs) response).
Lemma complete_inner_spec node request routes extra c : ∃ c' out rs sent,
  complete_inner w g node request routes extra c = (c', out) ∧ wrote c c' rs sent ∧
  published_safely (deltas rs) ∧
  match out with Done response => returned node request routes extra rs sent response | _ => True end.
Proof.
  unfold complete_inner. case_if.
  { eexists _, _, [], []. split; [done|]. split; [apply wrote_nil|]. by split; [apply published_nothing|]. }
  destruct (try_routes_spec node request routes routes 0 c) as (c1 & out & E1 & Ht).
  destruct (Ht eq_refl) as (rs & sent & W1 & P1 & N1 & S1 & Hout). rewrite (cm_bind_eq _ _ _ _ _ E1).
  destruct out as [[k|]|e|]; try by eexists _, _, rs, sent.
  destruct (settle_call_spec node request routes extra k c1) as (c2 & out & E2 & rs2 & W2 & D2 & Hset).
  exists c2, out, (rs ++ rs2), (sent ++ []). split; [done|].
  split; [exact (wrote_trans _ _ _ _ _ _ _ W1 W2)|]. rewrite deltas_app, D2, app_nil_r. split; [done|].
  destruct out as [response|e|]; [|done|done].
  destruct Hset as (-> & Hj & Hscan & Hstop & cost & Hcost & ->). destruct Hout as [Hlast Hfull].
  exists k, cost, rs. rewrite app_nil_r. do 4 (split; [done|]). split; [done|]. do 2 (split; [done|]).
  intros Hs. rewrite deltas_app. change (deltas [_]) with (@nil str). rewrite app_nil_r.
  apply Hfull; [done|done|]. by right.
Qed.

(** The run the shared journal belongs to. *)
Definition same_run (id : str) : Prop :=
  ∀ n sh, run_id_of (jw_state (sh_writer (wd_others w n sh))) = id.
Definition reserving (id : str) (reservation : option PendingReservation) : list pool_op :=
  match reservation with Some r => [PoolReserve id r] | None => [] end.
Definition releasing (id : str) (reservation : option PendingReservation) : list pool_op :=
  match reservation with Some r => [PoolRelease id r] | None => [] end.
(** The history of a call that changed nothing but the reservations. *)
Definition pooled (c c' : Call) (ops : list pool_op) : Prop :=
  ca_records c' = ca_records c ∧ ca_sent c' = ca_sent c ∧ ca_pool c' = ca_pool c ++ ops.
Lemma try_reserve_spec reservation c : ∃ c' out id,
  try_reserve w g reservation c = (c', out) ∧ (∀ run, same_run run → id = run) ∧
  match out with
  | Done _ => pooled c c' (reserving id reservation)
  | Failed _ => pooled c c' []
  | Gone => False
  end.
Proof.
  unfold try_reserve, journal_state, turn, step, raise, mret, cm_ret, mbind, cm_bind. cbn. case_if.
  { eexists _, _, _. split; [done|]. split; [intros run Hrun; apply Hrun|]. by split; [|rewrite app_nil_r]. }
  destruct reservation as [r|]; cbn; cycle 1.
  { eexists _, _, _. split; [done|]. split; [intros run Hrun; apply Hrun|]. by split; [|rewrite app_nil_r]. }
  destruct (reserve_pending _ _ _ _ _ _) as [m [[]|e]]; eexists _, _, _; (split; [done|]);
    (split; [intros run Hrun; apply Hrun|]); done.
Unshelve. all: exact 0 || exact (ca_shared c).
Qed.
Lemma release_reservation_spec reservation c : ∃ c' id,
  release_reservation w reservation c = (c', Done ()) ∧ (∀ run, same_run run → id = run) ∧
  pooled c c' (releasing id reservation).
Proof.
  destruct reservation as [r|]; cbn.
  - eexists _, _. split; [done|]. split; [intros run Hrun; apply Hrun|]. done.
  - eexists _, _. split; [done|]. split; [intros run Hrun; apply Hrun|]. by split; [|rewrite app_nil_r].
Unshelve. all: exact 0 || exact (ca_shared c).
Qed.

Definition is_done {A} (out : exit A) : bool := match out with Done _ => true | _ => false end.
Definition is_gone {A} (out : exit A) : bool := match out with Gone => true | _ => false end.
(** How a call uses the table of reservations. *)
Definition call_ops (id id' : str) (reservation : option PendingReservation) (dropped : bool) : list pool_op :=
  reserving id reservation ++ if dropped then [] else releasing id' reservation.
(** Everything a call did. *)
Definition call_did (node : NodeDef) (request : ChatRequest) (routes : list ModelRef)
    (extra : TokenUsage → value) (c c' : Call) (out : exit ChatResponse) : Prop :=
  ∃ rs sent ops id id',
    ca_records c' = ca_records c ++ rs ∧ ca_sent c' = ca_sent c ++ sent ∧ ca_pool c' = ca_pool c ++ ops ∧
    published_safely (deltas rs) ∧ (∀ run, same_run run → id = run ∧ id' = run) ∧
    (ops = [] ∧ rs = [] ∧ (∃ e, out = Failed e) ∨
     ∃ reservation, estimate_reservation g node request routes = Ok reservation ∧
       scan_request g node request = Ok () ∧ ops = call_ops id id' reservation (is_gone out)) ∧
    match out with Done response => returned node request routes extra rs sent response | _ => True end.
Lemma call_refused node request routes extra c c' e : pooled c c' [] →
  call_did node request routes extra c c' (Failed e).
Proof.
  intros (H1 & H2 & H3). pose (id := run_id_of (jw_state (sh_writer (wd_others w 0 (ca_shared c))))).
  exists [], [], [], id, id. rewrite !app_nil_r in *. do 3 (split; [done|]). split; [apply published_nothing|].
  split; [intros run Hrun; split; apply Hrun|]. split; [|done]. left. do 2 (split; [done|]). by eexists.
Qed.
Lemma complete_spec node request routes extra c : ∃ c' out,
  complete w g node request routes extra c = (c', out) ∧ call_did node request routes extra c c' out.
Proof.
  assert (Hc : pooled c c []) by (split; [|rewrite app_nil_r]; done).
  unfold complete. rewrite pure_bind.
  destruct (scan_request g node request) as [[]|e] eqn:Es;
    [|eexists _, _; split; [done|by apply call_refused]].
  rewrite pure_bind. destruct (estimate_reservation g node request routes) as [reservation|e] eqn:Ee;
    [|eexists _, _; split; [done|by apply call_refused]].
  destruct (try_reserve_spec reservation c) as (c1 & out1 & id & E1 & Hid & H1).
  rewrite (cm_bind_eq _ _ _ _ _ E1). destruct out1 as [[]|e|];
    [|eexists _, _; split; [done|by apply call_refused]|done].
  destruct (complete_inner_spec node request routes extra c1) as (c2 & out2 & rs & sent & E2 & [W1 W2 W3] & P2 & Hret).
  assert (Ecatch : catch (complete_inner w g node request routes extra) c1 =
    (c2, match out2 with Done r => Done (Ok r) | Failed e => Done (Err e) | Gone => Gone end)).
  { unfold catch. rewrite E2. by destruct out2. }
  rewrite (cm_bind_eq _ _ _ _ _ Ecatch). destruct H1 as (R1 & S1 & O1).
  destruct (release_reservation_spec reservation c2) as (c3 & id' & E3 & Hid' & (R3 & S3 & O3)).
  assert (Hboth : ∀ run, same_run run → id = run ∧ id' = run) by (intros; split; auto).
  rewrite W1, R1 in R3. rewrite W2, S1 in S3. rewrite W3, O1, <-(assoc (++)) in O3.
  destruct out2 as [response|e|]; [| |].
  - rewrite (cm_bind_eq _ _ _ _ _ E3). eexists _, _. split; [done|].
    exists rs, sent, (call_ops id id' reservation false), id, id'. do 5 (split; [done|]). split; [|done].
    right. by exists reservation.
  - rewrite (cm_bind_eq _ _ _ _ _ E3). eexists _, _. split; [done|].
    exists rs, sent, (call_ops id id' reservation false), id, id'. do 5 (split; [done|]). split; [|done].
    right. by exists reservation.
  - eexists _, _. split; [done|]. exists rs, sent, (call_ops id id' reservation true), id, id'.
    unfold call_ops. rewrite app_nil_r, W1, R1, W2, S1, W3, O1. do 5 (split; [done|]). split; [|done].
    right. exists reservation. unfold call_ops. by rewrite app_nil_r.
Qed.

(** C10: nothing a model streams puts a secret into the journal.  Whatever the
    provider sends, in whatever pieces, over whichever routes, and however the
    call ends, the text handed to the journal is a prefix of what one route
    streamed, contains no secret, and either no part of a secret was published
    (every occurrence in that stream, now or later, starts after it) or all of
    the text was, and it is clean. *)
Theorem streams_publish_no_secret node request routes extra c :
  let c' := (complete w g node request routes extra c).1 in
  ∃ rs n t, ca_records c' = ca_records c ++ rs ∧ t `prefix_of` moves_text (wd_stream w n).2 ∧
    concat (deltas rs) `prefix_of` t ∧ clean (gw_secrets g) (concat (deltas rs)) ∧
    (sealed (gw_secrets g) (concat (deltas rs)) t ∨ concat (deltas rs) = t ∧ clean (gw_secrets g) t).
Proof.
  intros c'. destruct (complete_spec node request routes extra c) as (c1 & out & E & rs & sent & ops & id & id' & R & _ & _ & (n & t & Ht & Hs) & _).
  unfold c'. rewrite E. exists rs, n, t. split; [done|]. split; [done|]. split; [apply Hs|].
  split; [by eapply safe_clean|apply Hs].
Qed.


(** ** Reservations of a call *)

Lemma decide_guarded_pool node request model max_tokens c :
  ca_pool (decide_guarded w g node request model max_tokens c).1 = ca_pool c.
Proof.
  destruct (dispatch_spec (dq_provider request) (dq_model request) c) as (c1 & n & E1 & [_ _ P1]).
  unfold decide_guarded. rewrite (cm_bind_eq _ _ _ _ _ E1).
  assert (Hfail : ∀ e (f : () → CM DecisionResponse), (∀ u c2, ca_pool (f u c2).1 = ca_pool c2) →
    ca_pool ((record_route_failure w node model 1 1 e false ≫= f) c1).1 = ca_pool c).
  { intros e f Hf. destruct (record_failure_spec node model 1 1 e false c1) as (c2 & out & rs & E2 & [_ _ P2] & _).
    rewrite (cm_bind_eq _ _ _ _ _ E2). destruct out; [rewrite Hf|..]; cbn; congruence. }
  destruct (wd_decide w n) as [observed [response|e]|observed|]; [|apply Hfail; intros; by case_if|by apply Hfail|done].
  rewrite pure_bind. destruct (cost_microusd _ _ _ _ _ _ _ _) as [cost|e]; [|done].
  match goal with |- context [journal_append w false ?k ?p] =>
    destruct (journal_append_spec false k p c1) as (c2 & r & E2 & [_ _ P2]) end.
  rewrite (cm_bind_eq _ _ _ _ _ E2), pure_bind. destruct (step_err node r) as [[]|e]; [|cbn; congruence].
  case_if; [cbn; congruence|].
  destruct (check_budget_spec c2) as (c3 & out & E3 & [_ _ P3] & _). rewrite (cm_bind_eq _ _ _ _ _ E3).
  destruct out as [[]|e|]; [|cbn; congruence..].
  destruct (response_validate response request) as [checked|]; [|cbn; congruence].
  rewrite pure_bind. destruct (llm_step_err node checked) as [[]|e]; [|cbn; congruence]. rewrite pure_bind.
  destruct (assert_value_absent _ _ _) as [[]|e]; cbn; congruence.
Qed.

Definition took_and_gave (run : str) (dropped : bool) (ops : list pool_op) : Prop :=
  ops = [] ∨ ∃ r, ops = if dropped then [PoolReserve run r] else [PoolReserve run r; PoolRelease run r].
(** C13: a call gives back what it reserved, once, whether it succeeds or fails.  A
    decision does so even when its future is dropped; a completion whose future
    is dropped while it waits for the provider keeps its reservation. *)
Theorem reservations_given_back run : same_run run →
  (∀ node request routes extra c,
     let '(c', out) := complete w g node request routes extra c in
     ∃ ops, ca_pool c' = ca_pool c ++ ops ∧ took_and_gave run (is_gone out) ops) ∧
  (∀ node request model max_tokens c,
     let '(c', out) := decide_call w g node request model max_tokens c in
     ∃ ops, ca_pool c' = ca_pool c ++ ops ∧ took_and_gave run false ops).
Proof.
  intros Hrun. split.
  - intros node request routes extra c.
    destruct (complete_spec node request routes extra c) as (c1 & out & -> & rs & sent & ops & id & id' & _ & _ & P & _ & Hid & Hops & _).
    destruct (Hid run Hrun) as [-> ->]. exists ops. split; [done|].
    destruct Hops as [(-> & _)|(reservation & _ & _ & ->)]; [by left|].
    destruct reservation as [r|]; [right; exists r; by destruct (is_gone out)|left; by destruct (is_gone out)].
  - intros node request model max_tokens c. unfold decide_call.
    assert (Hnone : ∃ ops, ca_pool c = ca_pool c ++ ops ∧ took_and_gave run false ops)
      by (exists []; split; [by rewrite app_nil_r|by left]).
    rewrite pure_bind. destruct (llm_step_err _ _) as [[]|e]; [|done]. case_if; [done|].
    rewrite pure_bind. destruct (invalid_price model); [done|].
    rewrite pure_bind. destruct (assert_value_absent _ _ _) as [[]|e]; [|done].
    rewrite pure_bind. destruct (cost_microusd _ _ _ _ _ _ _ _) as [cost|e]; [|done].
    destruct (try_reserve_spec (Some (mkReservation max_tokens cost)) c) as (c1 & out & id & E1 & Hid & H1).
    rewrite (cm_bind_eq _ _ _ _ _ E1). destruct out as [[]|e|]; [| |done].
    + destruct H1 as (_ & _ & P1). rewrite (Hid run Hrun) in P1.
      assert (Est : journal_state w c1 = ((turn w c1).1, Done (jw_state (sh_writer (wd_others w (ca_tick c1) (ca_shared c1)))))) by done.
      rewrite (cm_bind_eq _ _ _ _ _ Est), Hrun. unfold with_guard.
      destruct (decide_guarded w g node request model max_tokens (turn w c1).1) as [c2 out] eqn:E2.
      exists [PoolReserve run (mkReservation max_tokens cost); PoolRelease run (mkReservation max_tokens cost)].
      split; [|right; by eexists]. pose proof (decide_guarded_pool node request model max_tokens (turn w c1).1) as P2.
      rewrite E2 in P2. cbn in P2.
      change (ca_pool c2 ++ [PoolRelease run (mkReservation max_tokens cost)] = ca_pool c ++
        [PoolReserve run (mkReservation max_tokens cost)] ++ [PoolRelease run (mkReservation max_tokens cost)]).
      by rewrite P2, P1, <-(assoc (++)).
    + destruct H1 as (_ & _ & P1). exists []. split; [done|by left].
Qed.
End streams.

(** ** Reservations of a process

    Calls of several tasks take and give back reservations in any order: the
    critical sections of [try_reserve] and [release_pending] as steps.  The
    spending a call reads is whatever the journal showed it. *)

Inductive resource : Type := RTokens | RCost.
Definition amount (res : resource) (r : PendingReservation) : Z :=
  match res with RTokens => rv_tokens r | RCost => rv_cost_microusd r end.
Definition limit_of (g : LlmGateway) (res : resource) : option Z :=
  match res with RTokens => cb_max_tokens (gw_budget g) | RCost => cb_max_cost_microusd (gw_budget g) end.
Definition spending (res : resource) (tokens cost : Z) : Z := match res with RTokens => tokens | RCost => cost end.

Definition pool : Type := bmap PendingReservation * list (str * PendingReservation).
Definition entry_amount (res : resource) (run : str) (p : pool) : Z :=
  amount res (default no_reservation (bm_get run p.1)).
(** What the calls of a run hold. *)
Definition held_amount (res : resource) (run : str) (held : list (str * PendingReservation)) : Z :=
  foldr (λ e n, (if e.1 =s run then amount res e.2 else 0) + n)%Z 0%Z held.
Definition unsigned (r : PendingReservation) : Prop := (0 ≤ rv_tokens r ∧ 0 ≤ rv_cost_microusd r)%Z.
Inductive pool_step (g : LlmGateway) : pool → pool → Prop :=
| pool_admit m m' held tokens cost run r :
    (0 ≤ tokens)%Z → (0 ≤ cost)%Z → unsigned r → reserve_pending g tokens cost run r m = (m', Ok ()) →
    pool_step g (m, held) (m', (run, r) :: held)
| pool_refuse m m' held tokens cost run r e :
    reserve_pending g tokens cost run r m = (m', Err e) → pool_step g (m, held) (m', held)
| pool_release m held1 held2 run r :
    pool_step g (m, held1 ++ (run, r) :: held2) (release_pending run r m, held1 ++ held2).

Lemma held_amount_cons res run e held :
  held_amount res run (e :: held) = ((if e.1 =s run then amount res e.2 else 0) + held_amount res run held)%Z.
Proof. done. Qed.
Lemma held_amount_app res run l1 l2 :
  held_amount res run (l1 ++ l2) = (held_amount res run l1 + held_amount res run l2)%Z.
Proof. unfold held_amount. induction l1 as [|e l1 IH]; cbn; [done|]. rewrite IH. lia. Qed.
Lemma held_amount_nonneg res run held : Forall (λ e, unsigned e.2) held → (0 ≤ held_amount res run held)%Z.
Proof.
  induction 1 as [|e held [He1 He2] _ IH]; [done|]. rewrite held_amount_cons. destruct (e.1 =s run); [|lia].
  destruct res; cbn; lia.
Qed.
Lemma exceeds_None used limit L : exceeds used limit = None → limit = Some L → (used ≤ L)%Z.
Proof. unfold exceeds. intros H1 ->. cbn in H1. case_if in H1; [done|]. lia. Qed.
Lemma reserve_admits g tokens cost run r m m' : reserve_pending g tokens cost run r m = (m', Ok ()) →
  m' = bm_insert run (add_reservation (default no_reservation (bm_get run m)) r) m ∧
  ∀ res L, limit_of g res = Some L →
    (saturating_add U64_MAX (saturating_add U64_MAX (spending res tokens cost) (entry_amount res run (m, [])))
       (amount res r) ≤ L)%Z.
Proof.
  unfold reserve_pending, check_budget_values.
  destruct (exceeds _ (cb_max_tokens _)) as [?|] eqn:E1; [done|].
  destruct (exceeds _ (cb_max_cost_microusd _)) as [?|] eqn:E2; [done|]. intros [= <-]. split; [done|].
  intros [] L HL; cbn in *; [by apply (exceeds_None _ _ _ E1)|by apply (exceeds_None _ _ _ E2)].
Qed.
Lemma reserve_refuses g tokens cost run r m m' e : reserve_pending g tokens cost run r m = (m', Err e) →
  m' = bm_insert run (default no_reservation (bm_get run m)) m.
Proof.
  unfold reserve_pending. destruct (check_budget_values _ _ _); [done|]. by intros [= <-].
Qed.
Lemma entry_insert res run run' e m held :
  entry_amount res run' (bm_insert run e m, held) =
  if run' =s run then amount res e else entry_amount res run' (m, held).
Proof. unfold entry_amount. cbn. rewrite bm_get_insert. by destruct (str_eqb_spec run' run). Qed.
Lemma entry_release res run run' r m held : unsigned r →
  entry_amount res run' (release_pending run r m, held) =
  if run' =s run then Z.max 0 (entry_amount res run (m, held) - amount res r) else entry_amount res run' (m, held).
Proof.
  intros [H1 H2]. unfold release_pending, entry_amount. cbn.
  destruct (bm_get run m) as [e|] eqn:Ee; cbn.
  - assert (Hsub : amount res (sub_reservation e r) = Z.max 0 (amount res e - amount res r)) by (by destruct res).
    case_if.
    + rewrite bm_get_remove. destruct (run' =s run); [|done]. rewrite <-Hsub. cbn.
      apply andb_prop in E as [E1%Z.eqb_eq E2%Z.eqb_eq]. destruct res; cbn in *; lia.
    + rewrite bm_get_insert. by destruct (run' =s run).
  - destruct (str_eqb_spec run' run) as [->|]; [|done]. rewrite Ee. cbn. destruct res; cbn; lia.
Qed.

(** The table shows exactly what is held, and that is within the limit. *)
Record pool_inv (g : LlmGateway) (p : pool) : Prop := {
  pi_unsigned : Forall (λ e, unsigned e.2) p.2;
  pi_exact : ∀ res L run, limit_of g res = Some L → (L < U64_MAX)%Z →
    entry_amount res run p = held_amount res run p.2 ∧ (held_amount res run p.2 ≤ Z.max 0 L)%Z;
}.
Lemma admit_exact g m m' held tokens cost run r res L :
  pool_inv g (m, held) → (0 ≤ tokens)%Z → (0 ≤ cost)%Z → unsigned r →
  reserve_pending g tokens cost run r m = (m', Ok ()) → limit_of g res = Some L → (L < U64_MAX)%Z →
  entry_amount res run (m', (run, r) :: held) = held_amount res run ((run, r) :: held) ∧
  (spending res tokens cost + held_amount res run ((run, r) :: held) ≤ L)%Z.
Proof.
  intros [Hu Hx] Ht Hc [H1 H2] Hr HL Hmax. apply reserve_admits in Hr as [-> Hr].
  destruct (Hx res L run HL Hmax) as [Hexact _]. specialize (Hr res L HL).
  rewrite entry_insert, str_eqb_refl. pose proof (held_amount_nonneg res run held Hu).
  assert (Hh : held_amount res run ((run, r) :: held) = (amount res r + held_amount res run held)%Z).
  { rewrite held_amount_cons. cbn [fst snd]. by rewrite str_eqb_refl. }
  rewrite Hh. unfold entry_amount in Hexact, Hr. cbn [fst snd] in Hexact, Hr.
  assert (0 ≤ spending res tokens cost)%Z by (by destruct res). unfold saturating_add in Hr.
  set (e := default no_reservation (bm_get run m)) in *.
  assert (Hadd : amount res (add_reservation e r) = Z.min U64_MAX (amount res e + amount res r)) by (by destruct res).
  assert (0 ≤ amount res r)%Z by (by destruct res). rewrite Hadd. lia.
Qed.
Lemma pool_step_inv g p p' : pool_step g p p' → pool_inv g p → pool_inv g p'.
Proof.
  intros Hstep Hinv. pose proof Hinv as [Hu Hx].
  destruct Hstep as [m m' held tokens cost run r Ht Hc Hr Hres|m m' held tokens cost run r e Hres|m held1 held2 run r].
  - split; [by constructor|]. intros res L run' HL Hmax. cbn [snd].
    destruct (str_eqb_spec run' run) as [->|Hne].
    + destruct (admit_exact g m m' held tokens cost run r res L) as [-> Hle]; [done..|].
      split; [done|]. assert (0 ≤ spending res tokens cost)%Z by (by destruct res). lia.
    + destruct (Hx res L run' HL Hmax) as [He Hle]. apply reserve_admits in Hres as [-> _].
      rewrite entry_insert. rewrite (proj2 (str_eqb_neq run' run)) by done.
      rewrite held_amount_cons. cbn [fst snd]. rewrite (proj2 (str_eqb_neq run run')) by done. done.
  - split; [done|]. intros res L run' HL Hmax. apply reserve_refuses in Hres as ->.
    rewrite entry_insert. destruct (str_eqb_spec run' run) as [->|]; by apply (Hx res L).
  - apply Forall_app in Hu as [Hu1 Hu2]. apply Forall_cons in Hu2 as [Hr Hu2].
    split; [by apply Forall_app|]. intros res L run' HL Hmax. cbn [snd].
    destruct (Hx res L run' HL Hmax) as [He Hle]. cbn [snd] in He, Hle.
    rewrite held_amount_app, held_amount_cons in He, Hle. cbn [fst snd] in He, Hle. rewrite entry_release by done.
    rewrite held_amount_app.
    pose proof (held_amount_nonneg res run' _ Hu1). pose proof (held_amount_nonneg res run' _ Hu2).
    assert (0 ≤ amount res r)%Z by (destruct Hr; by destruct res).
    rewrite (str_eqb_sym run run') in He, Hle. destruct (str_eqb_spec run' run) as [->|].
    + unfold entry_amount in *. cbn in *. lia.
    + unfold entry_amount in *. cbn in *. lia.
Qed.

(** C11: the reservations of parallel calls stay within the budget together.  In
    every interleaving, the table shows for each run exactly what its calls
    hold; a call is admitted only if the spending it read and all that is held,
    its own reservation included, do not exceed the limit; and once every call
    has given its reservation back nothing is shown. *)
Theorem reservations_within_budget g p res L : rtc (pool_step g) ([], []) p →
  limit_of g res = Some L → (L < U64_MAX)%Z →
  (∀ run, entry_amount res run p = held_amount res run p.2) ∧
  (∀ tokens cost run r m', (0 ≤ tokens)%Z → (0 ≤ cost)%Z → unsigned r →
     reserve_pending g tokens cost run r p.1 = (m', Ok ()) →
     (spending res tokens cost + held_amount res run ((run, r) :: p.2) ≤ L)%Z) ∧
  (p.2 = [] → ∀ run, entry_amount res run p = 0%Z).
Proof.
  intros Hp HL Hmax. assert (Hinv : pool_inv g p).
  { assert (H0 : pool_inv g ([], [])). { split; [constructor|]. intros [] L' run _ _; cbn; lia. }
    induction Hp as [|p1 p2 p3 Hs _ IH]; [done|]. by apply IH, (pool_step_inv g p1). }
  clear Hp. pose proof Hinv as [_ Hx]. split; [intros run; by apply (Hx res L)|]. split.
  - intros tokens cost run r m' Ht Hc Hr Hres. destruct p as [m held].
    by apply (admit_exact g m m' held tokens cost run r res L).
  - intros Hnone run. destruct (Hx res L run HL Hmax) as [-> _]. by rewrite Hnone.
Qed.

(** ** A concrete call

    The first of two routes answers with a server error, the second streams an
    answer in two pieces; the secret is [aba]. *)

#[local] Instance call_messages : Messages := {
  journal_error_text := λ _, s"journal";
  expr_error_text := λ _, s"expression";
  debug_when := λ _, s"None";
}.
#[local] Instance call_codec : ChatCodec := { request_len _ := Ok 40%Z }.
Definition able : Capabilities :=
  mkCapabilities true true true true true true true true true true true true true true true true [].
Definition demo_traits : ProviderTraits := mkProviderTraits (λ _, None) (λ _ _, Some able) (λ _ _, None) policy_default.
Definition demo_secrets : SecretStore := from_values [(s"key", s"aba"); (s"none", [])].
Definition demo_gateway : LlmGateway :=
  mkGateway demo_traits demo_secrets (mkCostBudget (Some 1000%Z) None false) [].
Definition demo_model (name : str) : ModelRef :=
  mkModelRef (s"p") name (Some (f64_of_Z 2)) None None (Some (f64_of_Z 4)) None [].
Definition demo_routes : list ModelRef := [demo_model (s"m1"); demo_model (s"m2")].
Definition demo_chat : ChatRequest :=
  mkChatRequest (s"p") (s"m1") (Some (s"be brief")) [mkMessage (s"user") (s"hello") [] [] None None] [] None
    SoAuto None None 100 [] None None None None None true CacheOff WriteAllow None None.
Definition demo_answer : ChatResponse :=
  response_new [Text (s"abxab")] (mkTokenUsage 10 5 0 0 0) EndTurn.
Definition server_error : LlmError := response_error (HttpStatus 500) (s"unavailable").
(** The shared journal is that of run [r1]. *)
Definition tagged (sh : Shared) : Shared :=
  mkShared (sh_disk sh) (sh_writer sh <| jw_state := jw_state (sh_writer sh) <| rs_run_id := Some (s"r1") |> |>)
    (sh_reservations sh).
(** Accesses 0 to 2 reserve; the routes are dispatched at 3 and 5. *)
Definition demo_world (answer : list stream_move) : World :=
  mkWorld (λ _, demo_clock) (λ _, (Written, Written)) (λ _, tagged) (λ _, Dropped)
    (λ n, if (n <=? 3)%nat then ([], [MvDone (Err server_error) []]) else ([], answer)) (λ _, Dropped).
Definition answering_moves : list stream_move :=
  [MvEvent (TextDelta (s"abx")); MvEvent (TextDelta (s"ab")); MvEvent (Completed demo_answer); MvDone (Ok ()) []].
Definition demo_call : Call :=
  mkCall (mkShared (create_with_policies demo_disk (s"r1") demo_limits audit_policy_default (audit_within 100000)).1
            (writer_within 100000) []) 0 [] [] [].
Definition chat_node : NodeDef := mkNodeDef (s"draft") (s"llm") [] None AllSucceeded None None None [].
Notation demo_complete moves :=
  (complete (demo_world moves) demo_gateway chat_node demo_chat demo_routes (λ _, VNull) demo_call) (only parsing).
Definition after_call : Call := (demo_complete answering_moves).1.

Lemma demo_call_returns : demo_complete answering_moves = (after_call, Done demo_answer).
Proof. vm_compute. reflexivity. Qed.
Lemma demo_call_streams : deltas (ca_records after_call) = [s"a"; s"bx"; s"ab"] ∧
  ca_sent after_call = [(s"p", s"m1"); (s"p", s"m2")].
Proof. vm_compute. done. Qed.

Lemma demo_same_run moves : same_run (demo_world moves) (s"r1").
Proof. intros n sh. reflexivity. Qed.
(** Dropped while the second route streams. *)
Definition dropped_call : Call := (demo_complete [MvEvent (TextDelta (s"abx"))]).1.
Lemma demo_call_dropped : (demo_complete [MvEvent (TextDelta (s"abx"))]).2 = Gone ∧
  ca_pool dropped_call = [PoolReserve (s"r1") (mkReservation 110 0)] ∧
  sh_reservations (ca_shared dropped_call) = [(s"r1", mkReservation 110 0)].
Proof. vm_compute. done. Qed.
Lemma reservations_given_back_witness : ∃ ops,
  ca_pool after_call = ca_pool demo_call ++ ops ∧ took_and_gave (s"r1") false ops.
Proof.
  pose proof (proj1 (reservations_given_back (demo_world answering_moves) demo_gateway (s"r1")
    (demo_same_run answering_moves)) chat_node demo_chat demo_routes (λ _, VNull) demo_call) as H.
  rewrite demo_call_returns in H. exact H.
Defined.

Lemma demo_pool : rtc (pool_step demo_gateway) ([], [])
  ([(s"r1", mkReservation 110 0)], [(s"r1", mkReservation 110 0)]).
Proof.
  apply rtc_once. apply (pool_admit _ _ _ _ 700%Z 0%Z); [lia|lia|split; cbn; lia|]. vm_compute. reflexivity.
Qed.
(** With 700 tokens spent and 110 held, 191 more are refused. *)
Lemma reservations_within_budget_witness :
  (700 + held_amount RTokens (s"r1") [(s"r1", mkReservation 190 0); (s"r1", mkReservation 110 0)] ≤ 1000)%Z ∧
  is_ok (reserve_pending demo_gateway 700 0 (s"r1") (mkReservation 191 0) [(s"r1", mkReservation 110 0)]).2 = false.
Proof.
  split; [|vm_compute; reflexivity].
  refine (proj1 (proj2 (reservations_within_budget demo_gateway _ RTokens 1000%Z demo_pool eq_refl eq_refl))
    700%Z 0%Z (s"r1") (mkReservation 190 0) _ _ _ _ _); [lia|lia|split; cbn; lia|]. vm_compute. reflexivity.
Defined.
