(* ===== verification/Base64.v ===== *)
(** * Base64 streams

    [steps/src/common/base64.rs] and [decode_canonical_base64] of
    [model/src/types/encoding.rs]: the streaming encoder and decoder of the
    transform steps, and the decoder of wire values.  A reader delivers as many
    bytes as it likes per call and may fail; a writer may fail.  Bytes are [Z].

    The engine [STANDARD] of the crate [base64] is a parameter; its law is
    that it implements RFC 4648 ([rfc4648]). *)

From S2P Require Import Prelude Str.

#[local] Arguments s : simpl never.
#[local] Open Scope Z_scope.

Notation bytes := (list Z).
Definition is_byte (x : Z) : Prop := 0 ≤ x < 256.

(** ** Readers and writers *)

Inductive IoError : Type :=
| InvalidData (message : str)
| OtherIo (message : str)
| DeviceIo (message : str)
| StreamFuel.

(** How the next call of [read] goes; a reader without answers fills the
    buffer. *)
Inductive read_answer : Type := RGive (n : nat) | RFail (message : str).
Record source : Type := mkSource { so_bytes : bytes; so_reads : list read_answer }.
(** [Read::read] into a buffer of [k] bytes: the bytes it delivered. *)
Definition read (k : nat) (src : source) : source * result IoError bytes :=
  let give n reads :=
    let n := Nat.max 1 (Nat.min n k) in
    (mkSource (drop n (so_bytes src)) reads, Ok (take n (so_bytes src))) in
  match so_reads src with
  | [] => give k []
  | RGive n :: reads => give n reads
  | RFail message :: reads => (mkSource (so_bytes src) reads, Err (DeviceIo message))
  end.

(** The bytes written, and which further calls of [write_all] fail. *)
Record sink : Type := mkSink { si_bytes : bytes; si_writes : list (option str) }.
Definition write_all (x : bytes) (out : sink) : sink * result IoError () :=
  match si_writes out with
  | Some message :: writes => (mkSink (si_bytes out) writes, Err (DeviceIo message))
  | None :: writes => (mkSink (si_bytes out ++ x) writes, Ok ())
  | [] => (mkSink (si_bytes out ++ x) [], Ok ())
  end.

(** ** Decoding *)

Definition PAD : Z := 61.
Definition base64_value (byte : Z) : result str Z :=
  if (65 <=? byte) && (byte <=? 90) then Ok (byte - 65)
  else if (97 <=? byte) && (byte <=? 122) then Ok (byte - 97 + 26)
  else if (48 <=? byte) && (byte <=? 57) then Ok (byte - 48 + 52)
  else if byte =? 43 then Ok 62
  else if byte =? 47 then Ok 63
  else Err (s"base64 contains a non-alphabet character").

(** [<<] on [u8]. *)
Definition shl8 (x n : Z) : Z := Z.land (Z.shiftl x n) 255.
Definition first_byte (a b : Z) : Z := Z.lor (shl8 a 2) (Z.shiftr b 4).
Definition second_byte (b c : Z) : Z := Z.lor (shl8 b 4) (Z.shiftr c 2).
Definition third_byte (c d : Z) : Z := Z.lor (shl8 c 6) d.

(** The decoded bytes, and whether the quartet ends the data. *)
Definition decode_base64_quartet (q0 q1 q2 q3 : Z) : result str (bytes * bool) :=
  first ← base64_value q0;
  second ← base64_value q1;
  if q2 =? PAD then
    if negb (q3 =? PAD) || negb (Z.land second 15 =? 0) then Err (s"non-canonical base64 padding")
    else Ok ([first_byte first second], true)
  else
    third ← base64_value q2;
    if q3 =? PAD then
      if negb (Z.land third 3 =? 0) then Err (s"non-canonical base64 padding")
      else Ok ([first_byte first second; second_byte second third], true)
    else
      fourth ← base64_value q3;
      Ok ([first_byte first second; second_byte second third; third_byte third fourth], false).

Definition over_limit (limit : option Z) (n : Z) : bool :=
  match limit with Some limit => limit <? n | None => false end.
Definition source_exceeds (limit : option Z) : IoError :=
  InvalidData (s"base64 source exceeds " ++ show_uint (default 0 limit) ++ s" bytes").

(** [while filled < quartet.len()]: [room] is what the quartet lacks, and every
    read fills at least one place of it. *)
Fixpoint fill (room : nat) (limit : option Z) (quartet : bytes) (encoded : Z) (src : source) :
    source * result IoError (bytes * Z) :=
  match room, (4 - length quartet)%nat with
  | O, _ | _, O => (src, Ok (quartet, encoded))
  | S room, k =>
      match read k src with
      | (src, Err e) => (src, Err e)
      | (src, Ok []) => (src, Ok (quartet, encoded))
      | (src, Ok x) =>
          let encoded := saturating_add USIZE_MAX encoded (Z.of_nat (length x)) in
          if over_limit limit encoded then (src, Err (source_exceeds limit))
          else fill room limit (quartet ++ x) encoded src
      end
  end.

Fixpoint decode_loop (fuel : nat) (limit : option Z) (finished : bool) (encoded output : Z)
    (src : source) (out : sink) : source * sink * result IoError Z :=
  match fuel with
  | O => (src, out, Err StreamFuel)
  | S fuel =>
      match fill 4 limit [] encoded src with
      | (src, Err e) => (src, out, Err e)
      | (src, Ok ([], _)) => (src, out, Ok output)
      | (src, Ok ([q0; q1; q2; q3], encoded)) =>
          if finished then
            (src, out, Err (InvalidData (s"base64 data appeared after terminal padding")))
          else
            match decode_base64_quartet q0 q1 q2 q3 with
            | Err e => (src, out, Err (InvalidData e))
            | Ok (decoded, terminal) =>
                match write_all decoded out with
                | (out, Err e) => (src, out, Err e)
                | (out, Ok _) =>
                    match checked_add USIZE_MAX output (Z.of_nat (length decoded)) with
                    | None => (src, out, Err (OtherIo (s"base64 output byte count overflowed")))
                    | Some output =>
                        if over_limit limit output then
                          (src, out, Err (InvalidData (s"base64 decoded output exceeds "
                             ++ show_uint (default 0 limit) ++ s" bytes")))
                        else decode_loop fuel limit terminal encoded output src out
                    end
                end
            end
      | (src, Ok _) =>
          (src, out, Err (InvalidData (s"base64 input length must be a multiple of four")))
      end
  end.
Definition decode_base64_stream (limit : option Z) (src : source) (out : sink) :
    source * sink * result IoError Z :=
  decode_loop (S (length (so_bytes src))) limit false 0 0 src out.

(** ** The engine [STANDARD] *)

(** A digit of the standard alphabet. *)
Definition digit (v : Z) : Z :=
  if v <? 26 then v + 65 else if v <? 52 then v - 26 + 97
  else if v <? 62 then v - 52 + 48 else if v =? 62 then 43 else 47.
(** RFC 4648, section 4. *)
Fixpoint rfc4648 (x : bytes) : bytes :=
  match x with
  | [] => []
  | [a] => [digit (a / 4); digit (a mod 4 * 16); PAD; PAD]
  | [a; b] => [digit (a / 4); digit (a mod 4 * 16 + b / 16); digit (b mod 16 * 4); PAD]
  | a :: b :: c :: x =>
      digit (a / 4) :: digit (a mod 4 * 16 + b / 16) :: digit (b mod 16 * 4 + c / 64)
      :: digit (c mod 64) :: rfc4648 x
  end.

Inductive DecodeError : Type :=
| InvalidByte (index byte : Z)
| InvalidLength (len : Z)
| InvalidLastSymbol (index byte : Z)
| InvalidPadding.
Class Base64Engine := {
  b64_encode : bytes → bytes;
  b64_decode : bytes → result DecodeError bytes;
}.
(** What the clients rely on: encoding is RFC 4648 with padding, and a chunk of
    four bytes decodes exactly when it is the encoding of something. *)
Class Base64Laws `{Base64Engine} : Prop := {
  b64_encode_rfc x : Forall is_byte x → b64_encode x = rfc4648 x;
  b64_decode_rfc chunk x : length chunk = 4%nat →
    b64_decode chunk = Ok x ↔ x ≠ [] ∧ Forall is_byte x ∧ chunk = rfc4648 x;
}.

Section engine.
Context `{Base64Engine}.

(** [decode_canonical_base64]; the loop over the chunks knows what is left. *)
Fixpoint decode_chunks (input output : bytes) : result str bytes :=
  match input with
  | q0 :: q1 :: q2 :: q3 :: rest =>
      x ← map_err (λ e, match e with
                        | InvalidByte 2 61 | InvalidLastSymbol _ _ => s"base64 padding is not canonical"
                        | _ => s"base64 contains a non-alphabet character"
                        end) (b64_decode [q0; q1; q2; q3]);
      if (q3 =? PAD) && negb (bool_decide (rest = [])) then
        Err (s"base64 data appeared after terminal padding")
      else decode_chunks rest (output ++ x)
  | _ => Ok output
  end.
Definition decode_canonical_base64 (input : bytes) : result str bytes :=
  if negb (Z.of_nat (length input) mod 4 =? 0) then
    Err (s"base64 length must be a multiple of four with required padding")
  else decode_chunks input [].

(** ** Encoding *)

(** [while pending.len() >= BASE64_STREAM_CHUNK]; [chunk] is that constant. *)
Fixpoint flush_chunks (chunk fuel : nat) (pending : bytes) (out : sink) : sink * result IoError bytes :=
  match fuel with
  | O => (out, Err StreamFuel)
  | S fuel =>
      if bool_decide (chunk ≤ length pending)%nat then
        match write_all (b64_encode (take chunk pending)) out with
        | (out, Err e) => (out, Err e)
        | (out, Ok _) => flush_chunks chunk fuel (drop chunk pending) out
        end
      else (out, Ok pending)
  end.
Fixpoint encode_loop (chunk fuel : nat) (limit : option Z) (pending : bytes) (total : Z)
    (src : source) (out : sink) : source * sink * result IoError Z :=
  match fuel with
  | O => (src, out, Err StreamFuel)
  | S fuel =>
      match read chunk src with
      | (src, Err e) => (src, out, Err e)
      | (src, Ok []) =>
          match pending with
          | [] => (src, out, Ok total)
          | _ =>
              match write_all (b64_encode pending) out with
              | (out, Err e) => (src, out, Err e)
              | (out, Ok _) => (src, out, Ok total)
              end
          end
      | (src, Ok x) =>
          match checked_add USIZE_MAX total (Z.of_nat (length x)) with
          | None => (src, out, Err (OtherIo (s"base64 source size overflowed")))
          | Some total =>
              if over_limit limit total then (src, out, Err (source_exceeds limit))
              else match flush_chunks chunk (S (length (pending ++ x))) (pending ++ x) out with
                   | (out, Err e) => (src, out, Err e)
                   | (out, Ok pending) => encode_loop chunk fuel limit pending total src out
                   end
          end
      end
  end.
Definition BASE64_STREAM_CHUNK : nat := Z.to_nat (3 * 16 * 1024).
Definition encode_base64_stream (limit : option Z) (src : source) (out : sink) :
    source * sink * result IoError Z :=
  encode_loop BASE64_STREAM_CHUNK (S (length (so_bytes src))) limit [] 0 src out.
End engine.

(** ** Digits and quartets *)

Definition sextets : list Z := map Z.of_nat (seq 0 64).
Lemma sextets_elem v : 0 ≤ v < 64 → v ∈ sextets.
Proof.
  intros Hv. apply list_elem_of_In, in_map_iff. exists (Z.to_nat v). rewrite Z2Nat.id by lia.
  split; [done|]. apply in_seq. lia.
Qed.
Lemma sextets_all (P : Z → bool) : forallb P sextets = true → ∀ v, 0 ≤ v < 64 → P v = true.
Proof. intros Hp v Hv. rewrite forallb_forall in Hp. apply Hp, list_elem_of_In. by apply sextets_elem. Qed.
Lemma sextets_all2 (P : Z → Z → bool) :
  forallb (λ a, forallb (P a) sextets) sextets = true → ∀ a b, 0 ≤ a < 64 → 0 ≤ b < 64 → P a b = true.
Proof. intros Hp a b Ha Hb. by apply sextets_all; [apply (sextets_all (λ a, forallb (P a) sextets))|]. Qed.

Lemma first_byte_eq a b : 0 ≤ a < 64 → 0 ≤ b < 64 → first_byte a b = a * 4 + b / 16.
Proof.
  intros Ha Hb. apply Z.eqb_eq.
  by apply (sextets_all2 (λ a b, first_byte a b =? a * 4 + b / 16)); [vm_compute | ..].
Qed.
Lemma second_byte_eq b c : 0 ≤ b < 64 → 0 ≤ c < 64 → second_byte b c = b mod 16 * 16 + c / 4.
Proof.
  intros Hb Hc. apply Z.eqb_eq.
  by apply (sextets_all2 (λ b c, second_byte b c =? b mod 16 * 16 + c / 4)); [vm_compute | ..].
Qed.
Lemma third_byte_eq c d : 0 ≤ c < 64 → 0 ≤ d < 64 → third_byte c d = c mod 4 * 64 + d.
Proof.
  intros Hc Hd. apply Z.eqb_eq.
  by apply (sextets_all2 (λ c d, third_byte c d =? c mod 4 * 64 + d)); [vm_compute | ..].
Qed.
Lemma digit_value v : 0 ≤ v < 64 → base64_value (digit v) = Ok v ∧ digit v ≠ PAD.
Proof.
  intros Hv. apply (sextets_all (λ v, bool_decide (base64_value (digit v) = Ok v ∧ digit v ≠ PAD))) in Hv;
    [by apply bool_decide_eq_true in Hv | by vm_compute].
Qed.
Lemma value_digit q v : base64_value q = Ok v → 0 ≤ v < 64 ∧ q = digit v.
Proof.
  unfold base64_value, digit. intros Hv. repeat case_if in Hv; try discriminate; injection Hv as <-;
    repeat case_if; lia.
Qed.
Lemma land_15 v : Z.land v 15 = v mod 16.
Proof. by apply (Z.land_ones v 4). Qed.
Lemma land_3 v : Z.land v 3 = v mod 4.
Proof. by apply (Z.land_ones v 2). Qed.

Lemma rfc_cons3 a b c x : rfc4648 (a :: b :: c :: x) = rfc4648 [a; b; c] ++ rfc4648 x.
Proof. done. Qed.

(** A quartet decodes exactly when it is an encoding. *)
Definition quartet_of (q : bytes) (x : bytes) (terminal : bool) : Prop :=
  x ≠ [] ∧ (length x ≤ 3)%nat ∧ Forall is_byte x ∧ q = rfc4648 x ∧
  terminal = bool_decide (length x < 3)%nat.

Ltac bytes_lia := unfold is_byte in *; Z.to_euclidean_division_equations; lia.
Lemma quartet_sound q0 q1 q2 q3 x t :
  decode_base64_quartet q0 q1 q2 q3 = Ok (x, t) → quartet_of [q0; q1; q2; q3] x t.
Proof.
  unfold decode_base64_quartet, quartet_of. intros Hd.
  apply result_bind_Ok in Hd as (a & (Ha & ->)%value_digit & Hd).
  apply result_bind_Ok in Hd as (b & (Hb & ->)%value_digit & Hd).
  destruct (q2 =? PAD) eqn:E2; [|apply result_bind_Ok in Hd as (c & (Hc & ->)%value_digit & Hd);
    destruct (q3 =? PAD) eqn:E3; [|apply result_bind_Ok in Hd as (d & (Hd' & ->)%value_digit & Hd)]].
  - case_if in Hd; [done|]. injection Hd as <- <-. rewrite land_15 in *.
    rewrite first_byte_eq by done. split_and!; [done | cbn; lia | | |done].
    + constructor; [bytes_lia | constructor].
    + cbn [rfc4648]. assert (q2 = PAD ∧ q3 = PAD ∧ b mod 16 = 0) as (-> & -> & Hb0) by lia.
      repeat f_equal; bytes_lia.
  - case_if in Hd; [done|]. injection Hd as <- <-. rewrite land_3 in *.
    rewrite first_byte_eq, second_byte_eq by done.
    split_and!; [done | cbn; lia | | |done].
    + repeat constructor; bytes_lia.
    + cbn [rfc4648]. assert (q3 = PAD ∧ c mod 4 = 0) as (-> & Hc0) by lia. repeat f_equal; bytes_lia.
  - injection Hd as <- <-. rewrite first_byte_eq, second_byte_eq, third_byte_eq by done.
    split_and!; [done | cbn; lia | | |done].
    + repeat constructor; bytes_lia.
    + cbn [rfc4648]. repeat f_equal; bytes_lia.
Qed.
Lemma digit_bind {A} v (k : Z → result str A) : 0 ≤ v < 64 → (x ← base64_value (digit v); k x) = k v.
Proof. intros Hv. by rewrite (proj1 (digit_value v Hv)). Qed.
Lemma digit_not_pad v : 0 ≤ v < 64 → (digit v =? PAD) = false.
Proof. intros Hv. apply Z.eqb_neq, digit_value, Hv. Qed.
Lemma quartet_complete q0 q1 q2 q3 x t :
  quartet_of [q0; q1; q2; q3] x t → decode_base64_quartet q0 q1 q2 q3 = Ok (x, t).
Proof.
  intros (Hne & Hl & Hb & Hq & ->). unfold decode_base64_quartet.
  destruct x as [|a [|b [|c [|]]]]; try done; [..|cbn in Hl; lia]; cbn [rfc4648] in Hq;
    injection Hq as -> -> -> ->; rewrite !Forall_cons in Hb; cbn [length];
    (do 2 rewrite digit_bind by bytes_lia).
  - cbn [Z.eqb PAD Pos.eqb negb orb]. rewrite land_15, first_byte_eq by bytes_lia.
    rewrite (proj2 (Z.eqb_eq _ 0)) by bytes_lia. cbn. repeat f_equal. bytes_lia.
  - rewrite digit_not_pad, digit_bind by bytes_lia. cbn [Z.eqb PAD Pos.eqb].
    rewrite land_3, first_byte_eq, second_byte_eq by bytes_lia.
    rewrite (proj2 (Z.eqb_eq _ 0)) by bytes_lia. cbn. repeat f_equal; bytes_lia.
  - rewrite digit_not_pad, digit_bind, digit_not_pad, digit_bind by bytes_lia.
    rewrite first_byte_eq, second_byte_eq, third_byte_eq by bytes_lia. cbn. repeat f_equal; bytes_lia.
Qed.
Lemma quartet_pad q0 q1 q2 q3 x t : quartet_of [q0; q1; q2; q3] x t → (q3 =? PAD) = t.
Proof.
  intros (Hne & Hl & Hb & Hq & ->). rewrite Forall_forall in Hb.
  destruct x as [|a [|b [|c [|]]]]; try done; [..|cbn in Hl; lia]; cbn [rfc4648] in Hq;
    injection Hq as -> -> -> ->; try done. apply digit_not_pad.
  assert (is_byte c) by (apply Hb; set_solver). bytes_lia.
Qed.

(** ** What a text decodes to *)

Lemma by_three (P : bytes → Prop) : P [] → (∀ a, P [a]) → (∀ a b, P [a; b]) →
  (∀ a b c x, P x → P (a :: b :: c :: x)) → ∀ x, P x.
Proof.
  intros H0 H1 H2 H3. fix IH 1. intros [|a [|b [|c x]]]; [done | apply H1 | apply H2 | apply H3, IH].
Qed.
Lemma by_four (P : bytes → Prop) : P [] → (∀ a, P [a]) → (∀ a b, P [a; b]) → (∀ a b c, P [a; b; c]) →
  (∀ a b c d x, P x → P (a :: b :: c :: d :: x)) → ∀ x, P x.
Proof.
  intros H0 H1 H2 H3 H4. fix IH 1.
  intros [|a [|b [|c [|d x]]]]; [done | apply H1 | apply H2 | apply H3 | apply H4, IH].
Qed.

Fixpoint decode_text (finished : bool) (text : bytes) : option bytes :=
  match text with
  | [] => Some []
  | q0 :: q1 :: q2 :: q3 :: rest =>
      if finished then None
      else match decode_base64_quartet q0 q1 q2 q3 with
           | Ok (x, t) => y ← decode_text t rest; Some (x ++ y)
           | Err _ => None
           end
  | _ => None
  end.
Definition canonical (text x : bytes) : Prop := Forall is_byte x ∧ text = rfc4648 x.

Lemma rfc_length x : (4 * length x ≤ 3 * length (rfc4648 x))%nat ∧ ∃ k, length (rfc4648 x) = (4 * k)%nat.
Proof.
  induction x as [|a|a b|a b c x [Hl [k Hk]]] using by_three;
    [by split; [cbn | exists 0%nat] | by split; [cbn; lia | exists 1%nat]
    | by split; [cbn; lia | exists 1%nat] |].
  split; [cbn [rfc4648 length]; lia | exists (S k); cbn [rfc4648 length]; lia].
Qed.
Lemma canonical_app q0 q1 q2 q3 x t text y : quartet_of [q0; q1; q2; q3] x t →
  canonical text y → (t = true → y = []) → canonical (q0 :: q1 :: q2 :: q3 :: text) (x ++ y).
Proof.
  intros (Hne & Hl & Hb & Hq & ->) [Hy ->] Ht. split; [by apply Forall_app|].
  destruct x as [|a [|b [|c [|]]]]; try done; [..|cbn in Hl; lia]; cbn [rfc4648] in Hq;
    injection Hq as -> -> -> ->; [by rewrite Ht | by rewrite Ht | done].
Qed.
Lemma decode_text_sound text : ∀ x finished, decode_text finished text = Some x →
  canonical text x ∧ (finished = true → text = []).
Proof.
  induction text as [| | | |q0 q1 q2 q3 rest IH] using by_four; intros x finished Hd; try discriminate.
  { injection Hd as <-. split; [by split | done]. }
  cbn in Hd. destruct finished; [done|]. split; [|done].
  destruct (decode_base64_quartet q0 q1 q2 q3) as [[x0 t]|] eqn:Eq; [|done].
  destruct (decode_text t rest) as [y|] eqn:Er; [|done]. injection Hd as <-.
  apply quartet_sound in Eq. destruct (IH y t Er) as [Hc Ht].
  eapply canonical_app; [done..|]. intros ->. destruct Hc as [_ Hc]. rewrite Ht in Hc by done.
  by destruct y as [|? [|? []]].
Qed.
Lemma decode_text_complete x : Forall is_byte x → decode_text false (rfc4648 x) = Some x.
Proof.
  induction x as [|a|a b|a b c x IH] using by_three; intros Hb; [done|..].
  - cbn. by rewrite (quartet_complete _ _ _ _ [a] true) by (split_and!; [done | cbn; lia | done..]).
  - cbn. by rewrite (quartet_complete _ _ _ _ [a; b] true) by (split_and!; [done | cbn; lia | done..]).
  - cbn. rewrite !Forall_cons in Hb.
    rewrite (quartet_complete _ _ _ _ [a; b; c] false)
      by (split_and!; [done | cbn; lia | repeat constructor; apply Hb | done..]).
    by rewrite IH by apply Hb.
Qed.
Lemma decode_text_spec text x : decode_text false text = Some x ↔ canonical text x.
Proof. split; [intros Hd; apply (decode_text_sound _ _ _ Hd) | intros [Hb ->]; by apply decode_text_complete]. Qed.

(** ** Streams without failures *)

Definition healthy_source (src : source) : Prop := Forall (λ a, ∃ n, a = RGive n) (so_reads src).
Definition healthy_sink (out : sink) : Prop := Forall (λ a, a = None) (si_writes out).
Notation len x := (Z.of_nat (length x)).

Lemma read_spec k src : healthy_source src → (0 < k)%nat → ∃ src' x,
  read k src = (src', Ok x) ∧ healthy_source src' ∧ so_bytes src = x ++ so_bytes src' ∧
  (length x ≤ k)%nat ∧ (x = [] → so_bytes src = []).
Proof.
  intros Hs Hk. unfold read. destruct src as [text reads]; cbn in *. unfold healthy_source in Hs; cbn in Hs.
  assert (∀ n reads', healthy_source (mkSource text reads') → ∃ src' x,
    (mkSource (drop (Nat.max 1 (Nat.min n k)) text) reads',
      Ok (E := IoError) (take (Nat.max 1 (Nat.min n k)) text)) = (src', Ok x) ∧
    healthy_source src' ∧ text = x ++ so_bytes src' ∧ (length x ≤ k)%nat ∧ (x = [] → text = [])) as Hgive.
  { intros n reads' Hr. eexists _, _. split_and!; [done | done | cbn [so_bytes]; by rewrite take_drop | rewrite length_take; lia |].
    destruct text; [done|]. by destruct (Nat.max 1 (Nat.min n k)) eqn:E; [lia|]. }
  destruct reads as [|a reads]; [apply (Hgive k []); constructor|].
  apply Forall_cons in Hs as [[n ->] Hs]. by apply Hgive.
Qed.
Lemma write_spec x out : healthy_sink out → ∃ out',
  write_all x out = (out', Ok ()) ∧ healthy_sink out' ∧ si_bytes out' = si_bytes out ++ x.
Proof.
  intros Hs. unfold write_all. destruct out as [text [|a writes]]; unfold healthy_sink in *; cbn in *.
  - by eexists.
  - apply Forall_cons in Hs as [-> Hs]. by eexists.
Qed.

Lemma over_limit_mono limit n m : n ≤ m → over_limit limit n = true → over_limit limit m = true.
Proof. unfold over_limit. destruct limit; [lia | done]. Qed.

(** The quartet is the next four bytes, however they are delivered. *)
Lemma fill_spec room : ∀ limit q encoded src, healthy_source src → (4 ≤ length q + room)%nat →
  (length q ≤ 4)%nat → encoded + len (so_bytes src) ≤ USIZE_MAX → over_limit limit encoded = false →
  let k := (4 - length q)%nat in let n := Z.of_nat (Nat.min k (length (so_bytes src))) in
  ∃ src', healthy_source src' ∧
    if over_limit limit (encoded + n) then fill room limit q encoded src = (src', Err (source_exceeds limit))
    else fill room limit q encoded src = (src', Ok (q ++ take k (so_bytes src), encoded + n)) ∧
      so_bytes src' = drop k (so_bytes src).
Proof.
  assert (∀ limit q encoded src, over_limit limit encoded = false → healthy_source src →
    (4 - length q = 0)%nat → ∃ src', healthy_source src' ∧
    let n := Z.of_nat (Nat.min 0 (length (so_bytes src))) in
    if over_limit limit (encoded + n) then (src, Ok (q, encoded)) = (src', Err (source_exceeds limit))
    else (src, Ok (E := IoError) (q, encoded)) = (src', Ok (q ++ take 0 (so_bytes src), encoded + n)) ∧
      so_bytes src' = drop 0 (so_bytes src)) as Hend.
  { intros limit q encoded src Hl Hs Hk. exists src. split; [done|]. cbn. by rewrite Z.add_0_r, Hl, app_nil_r. }
  induction room as [|room IH]; intros limit q encoded src Hs Hr Hq Hm Hl; cbn zeta.
  { replace (4 - length q)%nat with 0%nat by lia. apply (Hend limit q encoded src); [done..|lia]. }
  destruct (4 - length q)%nat as [|k'] eqn:Ek.
  { cbn [fill]. rewrite Ek. by apply (Hend limit q encoded src). }
  cbn [fill]. rewrite Ek. destruct (read_spec (S k') src Hs ltac:(lia)) as (src1 & x & -> & Hs1 & Hb & Hx & He).
  destruct x as [|b x].
  { pose proof (He eq_refl) as E0. cbn in Hb. rewrite E0 in Hb |- *. cbn [length].
    rewrite Nat.min_0_r, Z.add_0_r, take_nil, app_nil_r, Hl. exists src1. by rewrite drop_nil, <-Hb. }
  clear He. rewrite Hb in *. rewrite length_app in Hm. set (y := b :: x) in *. unfold saturating_add.
  rewrite Z.min_r by lia. rewrite (length_app y), take_app_ge, drop_app_ge by lia.
  assert (over_limit limit (encoded + len y) = true →
    over_limit limit (encoded + Z.of_nat (Nat.min (S k') (length y + length (so_bytes src1)))) = true) as Hover
    by (apply over_limit_mono; lia).
  destruct (over_limit limit (encoded + len y)) eqn:Eo; [rewrite Hover by done; by exists src1|].
  destruct (IH limit (q ++ y) (encoded + len y) src1 Hs1) as (src2 & Hs2 & H2);
    [rewrite length_app; cbn in *; lia | rewrite length_app; cbn in *; lia | lia | done |].
  replace (4 - length (q ++ y))%nat with (S k' - length y)%nat in H2 by (rewrite length_app; lia).
  replace (encoded + Z.of_nat (Nat.min (S k') (length y + length (so_bytes src1)))) with
    (encoded + len y + Z.of_nat (Nat.min (S k' - length y) (length (so_bytes src1)))) by lia.
  exists src2. split; [done|]. case_match; [done|]. destruct H2 as [-> ->]. by rewrite <-app_assoc.
Qed.

(** ** The decoders *)

(** What the loop does to a text, [decode_text] of it at hand. *)
Definition loop_result (limit : option Z) (size output : Z) (o : option bytes) (out out' : sink)
    (r : result IoError Z) : Prop :=
  match o with
  | Some x =>
      if over_limit limit size then is_ok r = false
      else r = Ok (output + len x) ∧ si_bytes out' = si_bytes out ++ x
  | None => is_ok r = false
  end.
Lemma loop_error limit size output o out out' e :
  (o = None ∨ over_limit limit size = true) → loop_result limit size output o out out' (Err e).
Proof. unfold loop_result. intros [-> | ->]; [done | by destruct o]. Qed.

Lemma decode_loop_spec fuel : ∀ limit finished encoded output src out,
  healthy_source src → healthy_sink out → 0 ≤ output ≤ encoded →
  encoded + len (so_bytes src) ≤ USIZE_MAX → over_limit limit encoded = false →
  (length (so_bytes src) < fuel)%nat → ∃ src' out' r,
  decode_loop fuel limit finished encoded output src out = (src', out', r) ∧
  loop_result limit (encoded + len (so_bytes src)) output (decode_text finished (so_bytes src)) out out' r.
Proof.
  induction fuel as [|fuel IH]; [lia|]. intros limit finished encoded output src out Hs Hw Ho Hm Hl Hf.
  cbn [decode_loop]. destruct (fill_spec 4 limit [] encoded src Hs) as (src1 & Hs1 & H1); [cbn; lia.. | done | done |].
  cbn [length app] in H1. rewrite Nat.sub_0_r in H1.
  destruct (over_limit limit (encoded + _)) eqn:Eo in H1.
  { rewrite H1. eexists _, _, _. split; [done|]. apply loop_error. right. revert Eo. apply over_limit_mono. lia. }
  destruct H1 as [-> Hb1]. destruct (so_bytes src) as [|q0 [|q1 [|q2 [|q3 rest]]]];
    try by (eexists _, _, _; split; [done|]; apply loop_error; left).
  { eexists _, _, _. split; [done|]. cbn in *. rewrite Z.add_0_r, Hl, Z.add_0_r, app_nil_r. done. }
  cbn [take decode_text]. cbn [drop length Nat.min] in *. destruct finished.
  { eexists _, _, _. split; [done|]. apply loop_error. by left. }
  destruct (decode_base64_quartet q0 q1 q2 q3) as [[x t]|e] eqn:Eq.
  2:{ eexists _, _, _. split; [done|]. apply loop_error. by left. }
  apply quartet_sound in Eq as (_ & Hx & _). destruct (write_spec x out Hw) as (out1 & -> & Hw1 & Eout).
  rewrite (proj2 (checked_add_Some USIZE_MAX output (len x) _)) by (split; [done | lia]).
  rewrite (not_true_is_false (over_limit limit (output + _)))
    by (intros Ht; apply (over_limit_mono _ _ (encoded + Z.of_nat 4)) in Ht; [congruence | lia]).
  assert (rest = so_bytes src1) as -> by done.
  destruct (IH limit t (encoded + Z.of_nat 4) (output + len x) src1 out1) as (src2 & out2 & r & -> & H2);
    [done | done | lia | lia | done | lia |].
  eexists _, _, _. split; [done|]. revert H2.
  replace (encoded + Z.of_nat 4 + len (so_bytes src1)) with (encoded + Z.of_nat (S (S (S (S (length (so_bytes src1))))))) by lia.
  unfold loop_result. destruct (decode_text t (so_bytes src1)) as [y|]; cbn; [|done]. case_match; [done|].
  intros [-> ->]. rewrite Eout, length_app, app_assoc. split; [f_equal; lia | done].
Qed.

Section laws.
Context `{Base64Laws}.

Lemma chunk_decodes q0 q1 q2 q3 x :
  b64_decode [q0; q1; q2; q3] = Ok x ↔
  decode_base64_quartet q0 q1 q2 q3 = Ok (x, bool_decide (length x < 3)%nat).
Proof.
  rewrite b64_decode_rfc by done. split.
  - intros (Hne & Hb & Hq). apply quartet_complete. split_and!; try done.
    destruct (rfc_length x) as [Hl _]. rewrite <-Hq in Hl. cbn [length] in Hl. lia.
  - intros (Hne & Hl & Hb & Hq & _)%quartet_sound. done.
Qed.
Lemma finished_text text x : decode_text true text = Some x ↔ text = [] ∧ x = [].
Proof.
  split; [|by intros [-> ->]]. intros Hd. pose proof (decode_text_sound _ _ _ Hd) as [_ Ht].
  rewrite Ht in * by done. by injection Hd as <-.
Qed.
Lemma decode_chunks_spec input : ∀ output y k, length input = (4 * k)%nat →
  decode_chunks input output = Ok y ↔ ∃ x, decode_text false input = Some x ∧ y = output ++ x.
Proof.
  induction input as [| | | |q0 q1 q2 q3 rest IH] using by_four; intros output y k Hk; try (cbn in Hk; lia).
  { cbn. split; [intros [= <-]; exists []; by rewrite app_nil_r | intros (x & [= <-] & ->); by rewrite app_nil_r]. }
  cbn [decode_chunks decode_text].
  assert (∀ x t, decode_base64_quartet q0 q1 q2 q3 = Ok (x, t) → (q3 =? PAD) = t ∧ b64_decode [q0; q1; q2; q3] = Ok x) as Hq.
  { intros x t Hx. pose proof (quartet_sound _ _ _ _ _ _ Hx) as Hs. split; [by eapply quartet_pad|].
    apply chunk_decodes. rewrite Hx. repeat f_equal. apply Hs. }
  destruct (decode_base64_quartet q0 q1 q2 q3) as [[x t]|e] eqn:Eq.
  2:{ split; [|by intros (x & [=] & _)]. intros Hd. apply result_bind_Ok in Hd as (x & Hd & _).
      destruct (b64_decode _) as [x'|] eqn:Ed; [|done]. apply chunk_decodes in Ed. congruence. }
  destruct (Hq x t eq_refl) as [-> ->]. cbn [map_err mbind result_bind]. destruct t; cbn [andb].
  - case_bool_decide as Er; cbn.
    + subst rest. cbn. split; [intros [= <-]; exists x; by rewrite app_nil_r | intros (? & [= <-] & ->); by rewrite app_nil_r].
    + split; [done|]. intros (z & Hz & _). destruct (decode_text true rest) as [w|] eqn:Ew; [|done].
      by apply finished_text in Ew as [-> _].
  - rewrite (IH (output ++ x) y (k - 1)%nat) by (cbn in Hk; lia).
    split; [intros (z & -> & ->); eexists; by rewrite <-app_assoc|].
    intros (z & Hz & ->). destruct (decode_text false rest) as [w|]; [|done]. injection Hz as <-.
    eexists; by rewrite <-app_assoc.
Qed.
Lemma decode_canonical_spec input x : decode_canonical_base64 input = Ok x ↔ canonical input x.
Proof.
  rewrite <-decode_text_spec. unfold decode_canonical_base64. case_if.
  - split; [done|]. intros [_ ->]%decode_text_spec. destruct (rfc_length x) as [_ [k Hk]].
    rewrite Hk in *. exfalso. bytes_lia.
  - rewrite (decode_chunks_spec input [] x (length input / 4)%nat).
    + split; [by intros (y & -> & ->) | intros ->; by exists x].
    + apply Nat2Z.inj. rewrite Nat2Z.inj_mul, Nat2Z.inj_div. bytes_lia.
Qed.

(** ** The encoder *)

Lemma rfc_app x y : (length x mod 3 = 0)%nat → rfc4648 (x ++ y) = rfc4648 x ++ rfc4648 y.
Proof.
  induction x as [|a|a b|a b c x IH] using by_three; intros Hl; try done.
  change ((a :: b :: c :: x) ++ y) with (a :: b :: c :: (x ++ y)).
  rewrite (rfc_cons3 a b c (x ++ y)), (rfc_cons3 a b c x), IH; [by rewrite app_assoc|].
  cbn [length] in Hl. replace (S (S (S (length x)))) with (length x + 1 * 3)%nat in Hl by lia.
  by rewrite Nat.Div0.mod_add in Hl.
Qed.
Section chunks.
Variable chunk : nat.
Hypotheses (chunk_pos : (0 < chunk)%nat) (chunk_third : (chunk mod 3 = 0)%nat).

Lemma flush_spec fuel : ∀ pending out, healthy_sink out → Forall is_byte pending →
  (length pending < fuel)%nat → ∃ out' x rest, flush_chunks chunk fuel pending out = (out', Ok rest) ∧
  healthy_sink out' ∧ Forall is_byte rest ∧ si_bytes out' = si_bytes out ++ x ∧
  ∀ more, rfc4648 (pending ++ more) = x ++ rfc4648 (rest ++ more).
Proof.
  induction fuel as [|fuel IH]; intros pending out Hw Hb Hf; [lia|]. cbn [flush_chunks].
  case_bool_decide as Hc.
  2:{ exists out, [], pending. by rewrite app_nil_r. }
  rewrite b64_encode_rfc by by apply Forall_take.
  destruct (write_spec (rfc4648 (take chunk pending)) out Hw) as (out1 & -> & Hw1 & E1).
  destruct (IH (drop chunk pending) out1 Hw1) as (out2 & x & rest & -> & Hw2 & Hr & E2 & Hx);
    [by apply Forall_drop | rewrite length_drop; lia |].
  exists out2, (rfc4648 (take chunk pending) ++ x), rest.
  split_and!; [done | done | done | by rewrite E2, E1, app_assoc |]. intros more.
  rewrite <-(take_drop chunk pending) at 1. rewrite <-!app_assoc, <-Hx. apply rfc_app.
  by rewrite length_take_le.
Qed.
Lemma encode_loop_spec fuel : ∀ limit pending total src out,
  healthy_source src → healthy_sink out → Forall is_byte (pending ++ so_bytes src) →
  total + len (so_bytes src) ≤ USIZE_MAX → over_limit limit (total + len (so_bytes src)) = false →
  (length (so_bytes src) < fuel)%nat → ∃ src' out',
  encode_loop chunk fuel limit pending total src out = (src', out', Ok (total + len (so_bytes src))) ∧
  si_bytes out' = si_bytes out ++ rfc4648 (pending ++ so_bytes src).
Proof.
  induction fuel as [|fuel IH]; intros limit pending total src out Hs Hw Hb Hm Hl Hf; [lia|].
  cbn [encode_loop]. destruct (read_spec chunk src Hs chunk_pos) as (src1 & x & -> & Hs1 & E & _ & He).
  destruct x as [|b x].
  { rewrite (He eq_refl) in *. cbn in *. rewrite app_nil_r in *. rewrite Z.add_0_r.
    destruct pending as [|p pending]; [eexists _, _; split; [done | by rewrite app_nil_r]|].
    rewrite b64_encode_rfc by done.
    destruct (write_spec (rfc4648 (p :: pending)) out Hw) as (out1 & -> & _ & E1). by eexists _, _. }
  clear He. rewrite E in *. rewrite length_app in *. set (y := b :: x) in *.
  rewrite (proj2 (checked_add_Some USIZE_MAX total (len y) _)) by (split; [done | lia]).
  rewrite (not_true_is_false (over_limit limit (total + len y)))
    by (intros Ht; apply (over_limit_mono _ _ (total + Z.of_nat (length y + length (so_bytes src1)))) in Ht;
        [congruence | lia]).
  rewrite app_assoc, Forall_app in Hb. destruct Hb as [Hb1 Hb2].
  destruct (flush_spec (S (length pending + length y)) (pending ++ y) out Hw Hb1)
    as (out1 & z & rest & -> & Hw1 & Hr & E1 & Hx); [rewrite length_app; lia|].
  destruct (IH limit rest (total + len y) src1 out1) as (src2 & out2 & -> & E2);
    [done | done | by apply Forall_app | lia | rewrite <-Hl; f_equal; lia | cbn in Hf; lia |].
  exists src2, out2. split; [by rewrite length_app, Nat2Z.inj_add, Z.add_assoc|]. by rewrite E2, E1, <-app_assoc, <-Hx, <-app_assoc.
Qed.
End chunks.

(** The hypotheses about a source and a sink: no call fails, and the source has
    a size. *)
Definition usable (limit : option Z) (src : source) (out : sink) : Prop :=
  healthy_source src ∧ healthy_sink out ∧ len (so_bytes src) ≤ USIZE_MAX ∧ over_limit limit 0 = false.

(** C32: The streaming decoder and the decoder of wire values accept the same
    texts and agree on the bytes: a text is accepted exactly when it is the
    padded RFC 4648 encoding of the bytes, which is the only one, within the
    limit of the stream, however the reader cuts it. *)
Theorem decoders_accept_canonical limit src out x : usable limit src out →
  (decode_canonical_base64 (so_bytes src) = Ok x ↔ Forall is_byte x ∧ so_bytes src = rfc4648 x) ∧
  ((∃ src' out', decode_base64_stream limit src out = (src', out', Ok (len x)) ∧
     si_bytes out' = si_bytes out ++ x) ↔
   decode_canonical_base64 (so_bytes src) = Ok x ∧ over_limit limit (len (so_bytes src)) = false).
Proof.
  intros (Hs & Hw & Hm & Hl). split; [apply decode_canonical_spec|].
  rewrite decode_canonical_spec, <-decode_text_spec.
  destruct (decode_loop_spec (S (length (so_bytes src))) limit false 0 0 src out) as (src1 & out1 & r & E & Hr);
    [done | done | lia | done | done | lia |].
  unfold decode_base64_stream. rewrite E. unfold loop_result in Hr. rewrite Z.add_0_l in Hr. split.
  - intros (src' & out' & [= -> -> ->] & Eo). destruct (decode_text _ _) as [y|]; [|done].
    case_match; [done|]. destruct Hr as [_ Ho]. split; [|done]. f_equal. apply (app_inv_head (si_bytes out)). congruence.
  - intros [Hd Ho]. rewrite Hd, Ho in Hr. destruct Hr as [-> Ho1]. by eexists _, _.
Qed.

(** Encoding a file and decoding the result gives the file back, whatever
    reads and writes the two streams are made of. *)
Theorem base64_roundtrip limit limit' src out : usable limit src out → Forall is_byte (so_bytes src) →
  over_limit limit (len (so_bytes src)) = false → ∃ src' out' text,
  encode_base64_stream limit src out = (src', out', Ok (len (so_bytes src))) ∧
  si_bytes out' = si_bytes out ++ text ∧
  ∀ reads target, usable limit' (mkSource text reads) target → over_limit limit' (len text) = false →
    ∃ src'' target', decode_base64_stream limit' (mkSource text reads) target =
      (src'', target', Ok (len (so_bytes src))) ∧ si_bytes target' = si_bytes target ++ so_bytes src.
Proof.
  intros (Hs & Hw & Hm & Hl) Hb Ho.
  destruct (encode_loop_spec BASE64_STREAM_CHUNK ltac:(unfold BASE64_STREAM_CHUNK; lia) eq_refl
    (S (length (so_bytes src))) limit [] 0 src out) as (src' & out' & E & Eo); [done | done | done | done | done | lia |].
  exists src', out', (rfc4648 (so_bytes src)). split; [done|]. split; [done|].
  intros reads target (Hs' & Hw' & Hm' & Hl') Ho'.
  destruct (decode_loop_spec (S (length (rfc4648 (so_bytes src)))) limit' false 0 0
    (mkSource (rfc4648 (so_bytes src)) reads) target) as (src1 & out1 & r & E1 & Hr); [done | done | lia | done | done | cbn; lia |].
  cbn [so_bytes] in Hr. rewrite decode_text_complete in Hr by done. unfold loop_result in Hr.
  rewrite Z.add_0_l, Ho' in Hr. destruct Hr as [-> Hr]. by eexists _, _.
Qed.
End laws.

(** ** A concrete engine *)

Definition plain_base64 : Base64Engine := {|
  b64_encode := rfc4648;
  b64_decode chunk :=
    match chunk with
    | [q0; q1; q2; q3] =>
        match decode_base64_quartet q0 q1 q2 q3 with Ok (x, _) => Ok x | Err _ => Err InvalidPadding end
    | _ => Err (InvalidLength (len chunk))
    end |}.
Lemma plain_base64_laws : @Base64Laws plain_base64.
Proof.
  split; [done|]. intros chunk x Hl. destruct chunk as [|q0 [|q1 [|q2 [|q3 []]]]]; try discriminate. cbn. split.
  - destruct (decode_base64_quartet q0 q1 q2 q3) as [[y t]|] eqn:Eq; [|done]. intros [= ->].
    apply quartet_sound in Eq as (? & ? & ? & ? & ?). done.
  - intros (Hne & Hb & Hq). rewrite (quartet_complete q0 q1 q2 q3 x (bool_decide (length x < 3)%nat)); [done|].
    split_and!; try done. destruct (rfc_length x) as [Hx _]. rewrite <-Hq in Hx. cbn [length] in Hx. lia.
Qed.

(** [SGk=] in reads of one byte. *)
Definition hi_source : source := mkSource [83; 71; 107; 61] (repeat (RGive 1) 9).
Definition hi_bytes : bytes := [72; 105].
Definition empty_sink : sink := mkSink [] [].
Lemma hi_usable limit reads x : over_limit limit 0 = false → Forall (λ a, ∃ n, a = RGive n) reads →
  len x ≤ 4 → usable limit (mkSource x reads) empty_sink.
Proof. intros Hl Hr Hx. split_and!; [done | constructor | cbn; unfold USIZE_MAX, U64_MAX; lia | done]. Qed.
Lemma decoders_accept_canonical_witness :
  @decode_canonical_base64 plain_base64 (so_bytes hi_source) = Ok hi_bytes ∧
  ∃ src' out', decode_base64_stream (Some 4) hi_source empty_sink = (src', out', Ok (len hi_bytes)) ∧
    si_bytes out' = [] ++ hi_bytes.
Proof.
  destruct (@decoders_accept_canonical plain_base64 plain_base64_laws (Some 4) hi_source empty_sink hi_bytes)
    as [Hc Hd].
  - apply hi_usable; [done | by repeat (constructor; [by eexists|]) | done].
  - assert (@decode_canonical_base64 plain_base64 (so_bytes hi_source) = Ok hi_bytes) as Hh
      by (apply Hc; split; [by repeat constructor | reflexivity]).
    split; [exact Hh|]. apply Hd. by split.
Defined.
Lemma base64_roundtrip_witness : ∃ src' out' text,
  @encode_base64_stream plain_base64 None (mkSource hi_bytes [RGive 1; RGive 1]) empty_sink = (src', out', Ok 2) ∧
  si_bytes out' = [] ++ text ∧
  ∀ reads target, usable None (mkSource text reads) target → over_limit None (len text) = false →
    ∃ src'' target', decode_base64_stream None (mkSource text reads) target = (src'', target', Ok 2) ∧
      si_bytes target' = si_bytes target ++ hi_bytes.
Proof.
  apply (@base64_roundtrip plain_base64 plain_base64_laws None None (mkSource hi_bytes [RGive 1; RGive 1]) empty_sink).
  - apply hi_usable; [done | by repeat (constructor; [by eexists|]) | done].
  - by repeat constructor.
  - reflexivity.
Defined.
