(* ===== verification/RateLimit.v ===== *)
(** * The rate limiter of the server

    [server/src/server/rate_limit.rs]: the policy read from the environment at
    boot, the bucket a request is charged to, and the token buckets.  Instants
    and durations are nanoseconds, tokens are binary64.  SHA-256, the check of
    header names and the iteration order of a [HashMap] are parameters. *)

From stdpp Require Import gmap.
From S2P Require Import Prelude Str Json.
From Stdlib Require Import SpecFloat.

#[local] Arguments s : simpl never.

(** ** The policy *)

Inductive RateLimitOverflow : Type := FoldAnonymous | RejectNew.
Record RateLimitPolicy : Type := mkRateLimitPolicy {
  rl_rps : Z;
  rl_burst : Z;
  rl_trusted_identity_header : option str;
  rl_max_identities : Z;
  rl_overflow : RateLimitOverflow;
}.
Definition DEFAULT_RATE_LIMIT_MAX_IDENTITIES : Z := 4096.
Definition MIN_RATE_LIMIT_MAX_IDENTITIES : Z := 1.
Definition MAX_RATE_LIMIT_MAX_IDENTITIES : Z := 65536.

Definition parse_positive (name value : str) : result str Z :=
  match parse_uint U32_MAX value with
  | Some parsed =>
      if (1 <=? parsed)%Z then Ok parsed
      else Err (s"invalid " ++ name ++ s" `" ++ value ++ s"`: must be an integer of at least 1")
  | None => Err (s"invalid " ++ name ++ s" `" ++ value ++ s"`: must be an integer of at least 1")
  end.

(** [http::HeaderName::from_bytes] accepts the name. *)
Class HeaderNames := { valid_header_name : str → bool }.

Section policy.
Context `{HeaderNames}.
(** The variables of the environment that are set to valid Unicode. *)
Variable env_var : str → option str.

Definition optional {A} (name : str) (parse : str → result str A) : result str (option A) :=
  match env_var name with Some value => v ← parse value; Ok (Some v) | None => Ok None end.

Definition parse_identity_header (value : str) : result str str :=
  let name := to_ascii_lowercase (trim value) in
  if (name =s s"authorization") || negb (valid_header_name name) then
    Err (s"invalid RATE_LIMIT_IDENTITY_HEADER `" ++ value ++ s"`: must be a non-authorization header name")
  else Ok name.
Definition parse_max_identities (value : str) : result str Z :=
  let refuse := Err (s"invalid RATE_LIMIT_MAX_IDENTITIES `" ++ value ++ s"`: must be an integer between "
    ++ show_uint MIN_RATE_LIMIT_MAX_IDENTITIES ++ s" and " ++ show_uint MAX_RATE_LIMIT_MAX_IDENTITIES) in
  match parse_usize value with
  | Some parsed =>
      if ((MIN_RATE_LIMIT_MAX_IDENTITIES <=? parsed) && (parsed <=? MAX_RATE_LIMIT_MAX_IDENTITIES))%Z
      then Ok parsed else refuse
  | None => refuse
  end.
Definition parse_overflow (value : str) : result str RateLimitOverflow :=
  let name := to_ascii_lowercase value in
  if name =s s"fold" then Ok FoldAnonymous
  else if name =s s"reject" then Ok RejectNew
  else Err (s"invalid RATE_LIMIT_OVERFLOW `" ++ value ++ s"`: must be `fold` or `reject`").

Definition companion_settings : list str :=
  [ s"RATE_LIMIT_BURST"; s"RATE_LIMIT_IDENTITY_HEADER"; s"RATE_LIMIT_MAX_IDENTITIES";
    s"RATE_LIMIT_OVERFLOW" ].
Definition resolve_rate_limit_policy : result str (option RateLimitPolicy) :=
  rps ← optional (s"RATE_LIMIT_RPS") (parse_positive (s"RATE_LIMIT_RPS"));
  burst ← optional (s"RATE_LIMIT_BURST") (parse_positive (s"RATE_LIMIT_BURST"));
  header ← optional (s"RATE_LIMIT_IDENTITY_HEADER") parse_identity_header;
  max_identities ← optional (s"RATE_LIMIT_MAX_IDENTITIES") parse_max_identities;
  overflow ← optional (s"RATE_LIMIT_OVERFLOW") parse_overflow;
  match rps with
  | None =>
      match List.find (λ name, bool_decide (is_Some (env_var name))) companion_settings with
      | Some name => Err (name ++ s" is set without RATE_LIMIT_RPS; set both or neither")
      | None => Ok None
      end
  | Some rps =>
      Ok (Some (mkRateLimitPolicy rps (default rps burst) header
        (default DEFAULT_RATE_LIMIT_MAX_IDENTITIES max_identities) (default FoldAnonymous overflow)))
  end.
End policy.

(** ** Keys *)

Notation digest := (list Z).
(** [sha256_bytes] of [middleware.rs]. *)
Class Sha256Digest := { sha256_bytes : str → digest }.

Fixpoint xor_all (diff : Z) (xs ys : digest) : Z :=
  match xs, ys with
  | a :: xs, b :: ys => xor_all (Z.lor diff (Z.lxor a b)) xs ys
  | _, _ => diff
  end.
Definition constant_time_eq (xs ys : digest) : bool := (xor_all 0 xs ys =? 0)%Z.

(** The headers of a request whose values are visible ASCII. *)
Notation headers := (str → option str).

Section limiter.
Context `{Sha256Digest}.
Variable policy : RateLimitPolicy.
Variable expected_digest : option digest.

Definition rate_key (request : headers) : option digest :=
  let identity :=
    name ← rl_trusted_identity_header policy;
    value ← request name;
    if bool_decide (trim value = []) then None else Some (trim value) in
  match identity with
  | Some value => Some (sha256_bytes value)
  | None =>
      let presented := sha256_bytes <$> (request (s"authorization") ≫= strip_prefix (s"Bearer ")) in
      match presented, expected_digest with
      | Some supplied, Some expected =>
          if constant_time_eq supplied expected then Some expected else None
      | _, _ => None
      end
  end.

(** ** Buckets *)

Record TokenBucket : Type := mkBucket { tb_tokens : spec_float; tb_last_refill : Z }.
Notation buckets := (gmap (option digest) TokenBucket).

Definition NANOS : Z := 1000000000.
(** [Duration::as_secs_f64]. *)
Definition as_secs_f64 (d : Z) : spec_float :=
  f64_add (f64_of_Z (d / NANOS)) (f64_div (f64_of_Z (d mod NANOS)) (f64_of_Z NANOS)).

(** [Iterator::max_by]: the last one of the greatest. *)
Definition max_by {A} (cmp : A → A → comparison) (l : list A) : option A :=
  match l with
  | [] => None
  | x :: l => Some (foldl (λ x y, match cmp x y with Gt => x | _ => y end) x l)
  end.
Definition cmp_tokens (a b : option digest * TokenBucket) : comparison :=
  default Eq (f64_cmp (tb_tokens a.2) (tb_tokens b.2)).

(** The order in which a [HashMap] is visited. *)
Variable iter : buckets → list (option digest * TokenBucket).

Inductive verdict : Type := Admit | Deny (wait_secs : spec_float).

(** A new key at capacity: the key that is charged, after an eviction where
    there is one, or a denial. *)
Definition admit_key (key : option digest) (bs : buckets) :
    result spec_float (option digest * buckets) :=
  let full (bs : buckets) := (rl_max_identities policy <=? Z.of_nat (size bs))%Z in
  let new (key : option digest) := bool_decide (bs !! key = None) in
  if new key && full bs then
    match rl_overflow policy with
    | RejectNew =>
        Err (f64_max (f64_div f64_one (f64_of_Z (rl_rps policy))) (f64_of_decimal 1 (-3)))
    | FoldAnonymous =>
        let key := None in
        if new key && full bs then
          match max_by cmp_tokens (iter bs) with
          | Some (fullest, _) => Ok (key, delete fullest bs)
          | None => Ok (key, bs)
          end
        else Ok (key, bs)
    end
  else Ok (key, bs).

(** A bucket after the time since its last refill. *)
Definition refill (now : Z) (b : TokenBucket) : TokenBucket :=
  let elapsed := Z.max 0 (now - tb_last_refill b) in
  if (0 <? elapsed)%Z then
    mkBucket (f64_min (f64_add (tb_tokens b) (f64_mul (as_secs_f64 elapsed) (f64_of_Z (rl_rps policy))))
                      (f64_of_Z (rl_burst policy))) now
  else b.
Definition take_token (b : TokenBucket) : TokenBucket * verdict :=
  if f64_leb f64_one (tb_tokens b)
  then (mkBucket (f64_sub (tb_tokens b) f64_one) (tb_last_refill b), Admit)
  else (b, Deny (f64_div (f64_sub f64_one (tb_tokens b)) (f64_of_Z (rl_rps policy)))).
Definition try_acquire (key : option digest) (now : Z) (bs : buckets) : buckets * verdict :=
  match admit_key key bs with
  | Err wait => (bs, Deny wait)
  | Ok (key, bs) =>
      let b := default (mkBucket (f64_of_Z (rl_burst policy)) now) (bs !! key) in
      let '(b, v) := take_token (refill now b) in
      (<[key := b]> bs, v)
  end.

(** ** Requests *)

(** [Duration::from_secs_f64] rounds to the nearest nanosecond, ties to even;
    [None] is its panic. *)
Definition round_half_even (num den : Z) : Z :=
  let q := (num / den)%Z in
  match (2 * (num mod den) ?= den)%Z with
  | Lt => q
  | Gt => q + 1
  | Eq => q + q mod 2
  end%Z.
Definition from_secs_f64 (x : spec_float) : option Z :=
  match x with
  | S754_zero _ => Some 0%Z
  | S754_finite false m e =>
      let n := if (0 <=? e)%Z then (Zpos m * 2 ^ e * NANOS)%Z
               else round_half_even (Zpos m * NANOS) (2 ^ (- e)) in
      if (n / NANOS <=? U64_MAX)%Z then Some n else None
  | _ => None
  end.
(** [f64::ceil] as an integer. *)
Definition ceil_secs (x : spec_float) : Z :=
  let t := f64_trunc x in if f64_ltb (f64_of_Z t) x then (t + 1)%Z else t.
Definition retry_after_seconds (wait : Z) : Z :=
  let seconds := ceil_secs (as_secs_f64 wait) in
  if (seconds <? 1)%Z then 1%Z else Z.min U64_MAX seconds.

(** What the middleware answers: the request passes, or 429 with its
    [Retry-After]. *)
Inductive response : Type := Passed | TooManyRequests (retry_after : Z) | Panicked.
Definition enforce_rate_limit (path : str) (request : headers) (now : Z) (bs : buckets) :
    buckets * response :=
  if path =s s"/healthz" then (bs, Passed)
  else match try_acquire (rate_key request) now bs with
       | (bs, Admit) => (bs, Passed)
       | (bs, Deny wait) =>
           ( bs, match from_secs_f64 wait with
                 | Some wait => TooManyRequests (retry_after_seconds wait)
                 | None => Panicked
                 end )
       end.
End limiter.

(** ** Keys of unverified requests *)

Lemma xor_all_zero xs : ∀ diff ys, length xs = length ys →
  xor_all diff xs ys = 0%Z ↔ diff = 0%Z ∧ xs = ys.
Proof.
  induction xs as [|a xs IH]; intros diff [|b ys] Hl; try discriminate; cbn; [by split; [|intros []]|].
  rewrite IH by (cbn in Hl; lia). rewrite Z.lor_eq_0_iff, Z.lxor_eq_0_iff. naive_solver.
Qed.
Lemma constant_time_eq_spec xs ys : length xs = length ys → constant_time_eq xs ys = true ↔ xs = ys.
Proof. intros Hl. unfold constant_time_eq. rewrite Z.eqb_eq, xor_all_zero by done. naive_solver. Qed.

(** ** How many buckets are minted *)

Section minting.
Context `{Sha256Digest}.
Variables (policy : RateLimitPolicy) (expected_digest : option digest).
Variable iter : gmap (option digest) TokenBucket → list (option digest * TokenBucket).
Hypothesis iter_visits : ∀ bs, iter bs ≡ₚ map_to_list bs.
Notation try_acquire := (try_acquire policy iter).
Notation buckets := (gmap (option digest) TokenBucket).

(** A call mints a bucket when it leaves one that was not there, or replaces
    an evicted one. *)
Definition mints (bs bs' : buckets) : nat := size (dom bs' ∖ dom bs).
(** The buckets after a sequence of requests, and how many it minted. *)
Fixpoint serve_all (requests : list (str * headers * Z)) (bs : buckets) : buckets * nat :=
  match requests with
  | [] => (bs, 0%nat)
  | (path, request, now) :: requests =>
      let bs1 := (enforce_rate_limit policy expected_digest iter path request now bs).1 in
      let '(bs2, n) := serve_all requests bs1 in (bs2, (mints bs bs1 + n)%nat)
  end.

Lemma max_by_elem {A} (cmp : A → A → comparison) l x : max_by cmp l = Some x → x ∈ l.
Proof.
  destruct l as [|y l]; [done|]. cbn. intros [= <-]. revert y. induction l as [|z l IH]; intros y; cbn; [set_solver|].
  destruct (cmp y z); set_solver.
Qed.
Lemma max_by_none {A} (cmp : A → A → comparison) l : max_by cmp l = None → l = [].
Proof. by destruct l. Qed.

(** What a call does to the keys. *)
Inductive keys_step (bs : buckets) : buckets → Prop :=
| KSame bs' : dom bs' = dom bs → keys_step bs bs'
| KNew bs' key : key ∉ dom bs → (Z.of_nat (size bs) < rl_max_identities policy)%Z →
    dom bs' = {[key]} ∪ dom bs → keys_step bs bs'
| KEvict bs' key : None ∉ dom bs → key ∈ dom bs →
    dom bs' = {[None]} ∪ (dom bs ∖ {[key]}) → keys_step bs bs'.
Hypothesis room : (1 ≤ rl_max_identities policy)%Z.

Lemma try_acquire_keys key now bs : keys_step bs (try_acquire key now bs).1.
Proof.
  unfold try_acquire, admit_key. set (full := (rl_max_identities policy <=? Z.of_nat (size bs))%Z).
  destruct (bool_decide (bs !! key = None) && full) eqn:Ek.
  - destruct (rl_overflow policy); [|by apply KSame].
    apply andb_true_iff in Ek as [_ Hf]. rewrite Hf, andb_true_r.
    case_bool_decide as Hn; [|destruct (take_token _ _) as [b v]; apply KSame; cbn; rewrite dom_insert_L;
      apply not_eq_None_Some, elem_of_dom in Hn; set_solver].
    destruct (max_by _ _) as [[fullest b']|] eqn:Em.
    + apply max_by_elem in Em. rewrite iter_visits, elem_of_map_to_list in Em.
      destruct (take_token _ _) as [b v]. apply (KEvict _ _ fullest); cbn.
      * by apply not_elem_of_dom.
      * by eapply elem_of_dom_2.
      * by rewrite dom_insert_L, dom_delete_L.
    + apply max_by_none in Em. pose proof (iter_visits bs) as Hp. rewrite Em in Hp.
      apply Permutation_nil, map_to_list_empty_iff in Hp. subst bs full. rewrite map_size_empty in Hf. exfalso. clear -room Hf. apply Z.leb_le in Hf. lia.
  - destruct (take_token _ _) as [b v]; cbn. destruct (bs !! key) as [b'|] eqn:Eb.
    + apply KSame. rewrite dom_insert_L. apply elem_of_dom_2 in Eb. set_solver.
    + apply (KNew _ _ key); [by apply not_elem_of_dom | subst full; cbn in Ek; lia | by rewrite dom_insert_L].
Qed.

(** Every bucket was minted once, but for the one the anonymous bucket
    replaced; there is at most one such, because that bucket stays. *)
Definition accounted (minted : nat) (bs : buckets) : Prop :=
  (Z.of_nat (size bs) ≤ rl_max_identities policy)%Z ∧
  (minted ≤ size bs ∨ minted ≤ S (size bs) ∧ None ∈ dom bs)%nat.
Lemma keys_step_accounted minted bs bs' :
  keys_step bs bs' → accounted minted bs → accounted (minted + mints bs bs') bs'.
Proof.
  intros Hs [Hm Ha]. unfold accounted, mints. rewrite <-!size_dom in *.
  destruct Hs as [bs' Hd|bs' key Hk Hr Hd|bs' key Hn Hk Hd]; rewrite Hd.
  - rewrite difference_diag_L, size_empty, Nat.add_0_r. by split.
  - replace (({[key]} ∪ dom bs) ∖ dom bs) with ({[key]} : gset (option digest)) by set_solver.
    rewrite <-size_dom in Hr. rewrite size_union, !size_singleton by set_solver. split; [lia|].
    destruct Ha as [|[]]; [left; lia | right; split; [lia | set_solver]].
  - replace (({[None]} ∪ dom bs ∖ {[key]}) ∖ dom bs) with ({[None]} : gset (option digest)) by set_solver.
    rewrite size_union, !size_singleton, size_difference, size_singleton by set_solver.
    assert (size (dom bs) ≠ 0)%nat by (intros E%size_empty_inv; set_solver).
    destruct Ha as [Ha|[_ Ha]]; [|done]. split; [lia | right; split; [lia | set_solver]].
Qed.
Lemma enforce_keys path request now bs :
  keys_step bs (enforce_rate_limit policy expected_digest iter path request now bs).1.
Proof.
  unfold enforce_rate_limit. case_if; [by apply KSame|].
  pose proof (try_acquire_keys (rate_key policy expected_digest request) now bs) as Hk.
  by destruct (try_acquire _ now bs) as [bs' []].
Qed.
Lemma serve_all_accounted requests : ∀ minted bs, accounted minted bs →
  accounted (minted + (serve_all requests bs).2) (serve_all requests bs).1.
Proof.
  induction requests as [|[[path request] now] requests IH]; intros minted bs Ha; cbn; [by rewrite Nat.add_0_r|].
  specialize (IH _ _ (keys_step_accounted _ _ _ (enforce_keys path request now bs) Ha)).
  destruct (serve_all requests _) as [bs2 n]. cbn in *. by rewrite Nat.add_assoc.
Qed.

(** Requests that are all charged to the anonymous bucket. *)
Definition anonymous (request : headers) : Prop := rate_key policy expected_digest request = None.
Lemma anonymous_keys path request now bs : anonymous request → dom bs ⊆ {[None]} →
  dom (enforce_rate_limit policy expected_digest iter path request now bs).1 ⊆ {[None]}.
Proof.
  unfold enforce_rate_limit, anonymous. intros -> Hd. case_if; [done|]. unfold try_acquire, admit_key.
  assert (∀ bs' b, dom bs' ⊆ dom bs → dom (<[None := b]> bs' : buckets) ⊆ {[None]}) as Hin
    by (intros; rewrite dom_insert_L; set_solver).
  repeat case_match; simplify_eq; cbn; try done; apply Hin; try done; rewrite dom_delete_L; set_solver.
Qed.
Lemma keys_step_grows bs bs' : keys_step bs bs' → dom bs ⊆ {[None]} → size bs' = (size bs + mints bs bs')%nat.
Proof.
  intros Hs Hd. unfold mints. rewrite <-!size_dom.
  destruct Hs as [bs' E|bs' key Hk _ E|bs' key Hn Hk _]; [..|set_solver]; rewrite E.
  - by rewrite difference_diag_L, size_empty, Nat.add_0_r.
  - replace (({[key]} ∪ dom bs) ∖ dom bs) with ({[key]} : gset (option digest)) by set_solver.
    rewrite size_union by set_solver. lia.
Qed.
Lemma serve_anonymous requests : ∀ bs, (∀ r, r ∈ requests → anonymous r.1.2) → dom bs ⊆ {[None]} →
  dom (serve_all requests bs).1 ⊆ {[None]} ∧
  size (serve_all requests bs).1 = (size bs + (serve_all requests bs).2)%nat.
Proof.
  induction requests as [|[[path request] now] requests IH]; intros bs Ha Hd; cbn; [by rewrite Nat.add_0_r|].
  pose proof (keys_step_grows _ _ (enforce_keys path request now bs) Hd) as Hg.
  destruct (IH (enforce_rate_limit policy expected_digest iter path request now bs).1) as [Hd' Hn];
    [intros r Hr; apply Ha; by right | apply anonymous_keys; [apply (Ha (path, request, now)); by left | done] |].
  destruct (serve_all requests _) as [bs2 n]. cbn in *. split; [done | lia].
Qed.
End minting.

Lemma optional_Ok {A} env name (parse : str → result str A) o :
  optional env name parse = Ok o → o = None ∨ ∃ value v, parse value = Ok v ∧ o = Some v.
Proof.
  unfold optional. destruct (env name) as [value|]; [|intros [= <-]; by left].
  intros (v & Hv & [= <-])%result_bind_Ok. right. by exists value, v.
Qed.
Lemma resolved_room `{HeaderNames} env policy : resolve_rate_limit_policy env = Ok (Some policy) →
  (1 ≤ rl_rps policy ∧ 1 ≤ rl_burst policy ∧ 1 ≤ rl_max_identities policy)%Z.
Proof.
  unfold resolve_rate_limit_policy. intros Hr.
  apply result_bind_Ok in Hr as (rps & H1%optional_Ok & Hr).
  apply result_bind_Ok in Hr as (burst & H2%optional_Ok & Hr).
  apply result_bind_Ok in Hr as (header & _ & Hr).
  apply result_bind_Ok in Hr as (identities & H4%optional_Ok & Hr).
  apply result_bind_Ok in Hr as (overflow & _ & Hr).
  assert (∀ name value v, parse_positive name value = Ok v → 1 ≤ v)%Z as Hpos.
  { intros name value v. unfold parse_positive. destruct (parse_uint _ _); [|done]. case_if; [|done].
    intros [= <-]. lia. }
  destruct rps as [rps|]; [|case_match; discriminate]. injection Hr as <-. cbn.
  destruct H1 as [|(? & ? & H1%Hpos & [= ->])]; [done|]. split; [done|]. split.
  - destruct H2 as [->|(? & ? & H2%Hpos & ->)]; done.
  - destruct H4 as [->|(value & v & H4 & ->)]; [by vm_compute|]. cbn. unfold parse_max_identities in H4.
    destruct (parse_usize value); [|done]. case_if in H4; [|done]. injection H4 as <-.
    unfold MIN_RATE_LIMIT_MAX_IDENTITIES in *. lia.
Qed.

Class Sha256DigestLaws `{Sha256Digest} : Prop := { sha256_bytes_len x : length (sha256_bytes x) = 32%nat }.
(** A request without the credential of the instance. *)
Definition unverified `{Sha256Digest} (expected : option digest) (request : headers) : Prop :=
  ∀ token, request (s"authorization") = Some (s"Bearer " ++ token) → expected ≠ Some (sha256_bytes token).
Lemma unverified_anonymous `{Sha256DigestLaws} policy expected request :
  rl_trusted_identity_header policy = None → (∀ e, expected = Some e → length e = 32%nat) →
  unverified expected request → anonymous policy expected request.
Proof.
  intros Ht Hl Hu. unfold anonymous, rate_key. rewrite Ht. cbn.
  destruct (request (s"authorization")) as [value|] eqn:Er; [|by destruct expected]. cbn.
  destruct (strip_prefix _ value) as [token|] eqn:Es; [|by destruct expected]. cbn.
  destruct expected as [e|]; [|done]. case_if; [|done]. apply strip_prefix_Some in Es as ->.
  apply constant_time_eq_spec in E as <-; [|rewrite sha256_bytes_len; symmetry; by apply Hl].
  by destruct (Hu token Er).
Qed.

Section requests.
Context `{HeaderNames, Sha256DigestLaws}.
Variables (env_var : str → option str) (policy : RateLimitPolicy) (expected : option digest).
Variable iter : gmap (option digest) TokenBucket → list (option digest * TokenBucket).
Hypothesis resolved : resolve_rate_limit_policy env_var = Ok (Some policy).
Hypothesis iter_visits : ∀ bs, iter bs ≡ₚ map_to_list bs.

(** C33: Under a policy the server boots with, any sequence of requests, of
    however many identities, tracks at most the configured number of buckets
    and hands out at most one full burst more than that: rotating identities
    gains no fresh budget. *)
Theorem fresh_bursts_bounded requests :
  let '(bs, minted) := serve_all policy expected iter requests ∅ in
  (Z.of_nat (size bs) ≤ rl_max_identities policy ∧ Z.of_nat minted ≤ rl_max_identities policy + 1)%Z.
Proof.
  destruct (resolved_room _ _ resolved) as (_ & _ & Hr).
  pose proof (serve_all_accounted policy expected iter iter_visits Hr requests 0 ∅) as Ha.
  destruct (serve_all _ _ _ _ _) as [bs minted]. destruct Ha as [Hs Hm]; [|cbn in *; lia].
  split; [rewrite map_size_empty; lia | left; lia].
Qed.

(** Without a trusted identity header, requests that do not present the
    credential of the instance share one bucket and one burst, whatever
    bearers they present. *)
Theorem unverified_share_one_burst requests :
  rl_trusted_identity_header policy = None → (∀ e, expected = Some e → length e = 32%nat) →
  (∀ r, r ∈ requests → unverified expected r.1.2) →
  let '(bs, minted) := serve_all policy expected iter requests ∅ in
  dom bs ⊆ {[None]} ∧ (minted ≤ 1)%nat.
Proof.
  intros Ht Hl Hu. destruct (resolved_room _ _ resolved) as (_ & _ & Hr).
  pose proof (serve_anonymous policy expected iter iter_visits Hr requests ∅) as Ha.
  destruct (serve_all _ _ _ _ _) as [bs minted]. destruct Ha as [Hd Hm]; [|by rewrite dom_empty_L; set_solver|].
  - intros r Hr'. apply unverified_anonymous; auto.
  - cbn in *. split; [done|]. apply subseteq_size in Hd. rewrite size_singleton, size_dom in Hd.
    rewrite Hm, map_size_empty in Hd. done.
Qed.
End requests.

(** ** A concrete limiter *)

Definition any_header : HeaderNames := {| valid_header_name _ := true |}.
Definition padded_digest : Sha256Digest := {| sha256_bytes x := take 32 (x ++ repeat 0%Z 32) |}.
Lemma padded_digest_laws : @Sha256DigestLaws padded_digest.
Proof. split. intros x. cbn [sha256_bytes padded_digest]. rewrite length_take, length_app, repeat_length. lia. Qed.
Definition boot_env (header : option str) (name : str) : option str :=
  if name =s s"RATE_LIMIT_RPS" then Some (s"2")
  else if name =s s"RATE_LIMIT_MAX_IDENTITIES" then Some (s"2")
  else if name =s s"RATE_LIMIT_IDENTITY_HEADER" then header
  else None.
Definition boot_policy (header : option str) : RateLimitPolicy := mkRateLimitPolicy 2 2 header 2 FoldAnonymous.
Definition with_header (name value : str) : headers := λ n, if n =s name then Some value else None.
Definition identities : list (str * headers * Z) :=
  map (λ id, (s"/v1/runs", with_header (s"x-user") id, 0%Z)) [s"ann"; s"bob"; s"eve"; s"ann"].
Definition rotating : list (str * headers * Z) :=
  map (λ token, (s"/v1/runs", with_header (s"authorization") (s"Bearer " ++ token), 0%Z)) [s"a"; s"b"; s"c"].

(** The third identity is folded into the anonymous bucket, which takes the
    place of another one. *)
Lemma fresh_bursts_attained :
  (@serve_all padded_digest (boot_policy (Some (s"x-user"))) None map_to_list identities ∅).2 = 3%nat.
Proof. by vm_compute. Qed.
Lemma fresh_bursts_bounded_witness :
  let '(bs, minted) :=
    @serve_all padded_digest (boot_policy (Some (s"x-user"))) None map_to_list identities ∅ in
  (Z.of_nat (size bs) ≤ 2 ∧ Z.of_nat minted ≤ 2 + 1)%Z.
Proof.
  exact (@fresh_bursts_bounded any_header padded_digest (boot_env (Some (s"x-user")))
    (boot_policy (Some (s"x-user"))) None map_to_list eq_refl (λ bs, reflexivity _) identities).
Defined.
Lemma unverified_share_one_burst_witness :
  let '(bs, minted) := @serve_all padded_digest (boot_policy None)
    (Some (@sha256_bytes padded_digest (s"secret"))) map_to_list rotating ∅ in
  dom bs ⊆ {[None]} ∧ (minted ≤ 1)%nat.
Proof.
  apply (@unverified_share_one_burst any_header padded_digest padded_digest_laws (boot_env None)
    (boot_policy None)).
  - reflexivity.
  - intros bs. reflexivity.
  - reflexivity.
  - intros e [= <-]. reflexivity.
  - intros r Hr token. unfold rotating in Hr. rewrite list_elem_of_fmap in Hr.
    destruct Hr as (t & -> & Ht). cbn [fst snd with_header]. intros [= <-].
    rewrite !elem_of_cons, elem_of_nil in Ht. destruct Ht as [->|[->|[->|[]]]]; by vm_compute.
Defined.
