(* ===== verification/Guard.v ===== *)
(** * The operation guard

    [engine/src/engine/run_context.rs], with the gateway errors of
    [engine/src/gateway/error.rs] and the two steps that act on the outside
    world through it ([steps/src/http.rs], [steps/src/command.rs]): what an
    approval binds, when an external operation may be sent, what is recorded of
    it, and when its recorded result is returned instead of sending it again.

    The guard writes through the journal writer of [JournalWriter]: the state it
    reads is what that writer has in memory, a write may be cut at any byte, other
    processes may use the run directory before any of its steps, and it may stop
    before any of them.  [gu_sends] is history: nothing
    reads it. *)

From S2P Require Import Prelude Str BMap Sorting Json Serde Events ValueBag RunState AuditRules TraceIds JournalFile JournalWriter Graph EngineTypes EngineWorld.

#[local] Arguments s : simpl never.

(** ** Data *)

Inductive GuardDecision : Type :=
| Proceed (operation_id : str)
| Resend (operation_id : str) (result : value).
Inductive OperationOutcome : Type :=
| OutSuccess (result : option value)
| OutCleanError
| OutIndeterminate (reason : str).
Inductive GuardVerdict : Type :=
| GvStart
| GvRepeat
| GvResend (result : value)
| GvRefuse (reason : str).

(** [SideEffects] and [SideEffectScope] of [contract/src/manifest/resources.rs]. *)
Inductive SideEffects : Type := SeNone | SeConfirm | SeDryRunFirst | SeAllowed.
Inductive SideEffectScope : Type := ScInvocation | ScContent.
(** [ConfirmSpec] of [api/src/api/dto.rs]. *)
Record Confirm : Type := mkConfirm {
  cf_id : str;
  cf_title : str;
  cf_kind : str;
  cf_target : str;
  cf_dry_run : bool;
  cf_details : option value;
  cf_operation_digest : str;
  cf_scope : SideEffectScope;
}.

(** [GatewayError]; lists carry their [Debug] text, errors of other crates their
    text. *)
Inductive GatewayError : Type :=
| FsReadDenied
| FsWriteDenied
| PathDenied (path workspace : str)
| EmptyCommand
| CommandDenied (bin allowed : str)
| CommandArgsDenied (bin actual allowed : str)
| CommandPathDenied (bin : str)
| CommandIsolationMissing (bin : str)
| ContainerRuntimeMissing (bin : str)
| ContainerImageMissing (bin : str)
| ContainerFailed (text : str)
| CommandTimedOut (bin : str)
| CommandOutputTooLarge (bin : str)
| CommandInputTooLarge (bin : str)
| NetworkDenied (host : str)
| NetworkIpDenied (host ip : str)
| UnsupportedUrl (url : str)
| HttpBodyTooLarge (url : str)
| HttpRequestBodyTooLarge (url : str)
| HttpValidationTimedOut
| HttpFailed (is_builder is_connect : bool) (text : str)
| AfterSend (error : GatewayError)
| IoFailed (text : str)
| GwCanceled
| AnchoredPatchFailed (text : str)
| PatchNotUtf8 (path : str).

(** Its [Display]. *)
Fixpoint gateway_error_text (e : GatewayError) : str :=
  match e with
  | FsReadDenied => s"filesystem read from workspace is not allowed by permissions.fs_read"
  | FsWriteDenied => s"filesystem write to workspace is not allowed by permissions.fs_write"
  | PathDenied path workspace =>
      s"path `" ++ path ++ s"` is outside allowed workspace `" ++ workspace ++ s"`"
  | EmptyCommand => s"command is empty"
  | CommandDenied bin allowed =>
      s"command `" ++ bin
      ++ s"` is not allowed by permissions.commands; allowed declarations: " ++ allowed
  | CommandArgsDenied bin actual allowed =>
      s"command `" ++ bin ++ s"` arguments " ++ actual
      ++ s" are not allowed by permissions.commands; allowed declarations: " ++ allowed
  | CommandPathDenied bin =>
      s"command path `" ++ bin ++ s"` is not a safe executable inside the workspace"
  | CommandIsolationMissing bin => s"command `" ++ bin ++ s"` has no declared execution isolation"
  | ContainerRuntimeMissing bin => s"container runtime was not found for command `" ++ bin ++ s"`"
  | ContainerImageMissing bin => s"container-isolated command `" ++ bin ++ s"` has no image"
  | CommandTimedOut bin => s"command `" ++ bin ++ s"` timed out"
  | CommandOutputTooLarge bin => s"command `" ++ bin ++ s"` output exceeded limit"
  | CommandInputTooLarge bin => s"command `" ++ bin ++ s"` input exceeded limit"
  | NetworkDenied host =>
      s"network access to host `" ++ host ++ s"` is not allowed by permissions.network"
  | NetworkIpDenied host ip =>
      s"network access to host `" ++ host ++ s"` is denied: resolved IP `" ++ ip
      ++ s"` is not globally reachable (permissions.network_deny_private_ips)"
  | UnsupportedUrl url => s"unsupported URL `" ++ url ++ s"`"
  | HttpBodyTooLarge url => s"HTTP response body exceeded limit for `" ++ url ++ s"`"
  | HttpRequestBodyTooLarge url => s"HTTP request body exceeded limit for `" ++ url ++ s"`"
  | HttpValidationTimedOut => s"HTTP URL validation timed out"
  | AfterSend error =>
      s"side-effect-bearing request was already sent when the operation failed: "
      ++ gateway_error_text error
  | GwCanceled => s"execution was canceled"
  | PatchNotUtf8 path => s"file `" ++ path ++ s"` is not valid UTF-8 for anchored patch"
  | ContainerFailed text | HttpFailed _ _ text | IoFailed text | AnchoredPatchFailed text => text
  end.

(** [StepError::from_gateway]. *)
Definition from_gateway (node : str) (e : GatewayError) : StepError :=
  match e with GwCanceled => SCancelled | _ => SFailed node (gateway_error_text e) end.

(** ** The decision *)

Definition INDETERMINATE : str :=
  s"has an indeterminate result after interruption; refusing automatic replay".
Definition decide_operation_guard (record : option OperationRecord) (digest : str)
    (on_indeterminate : RetryOnIndeterminate) : GuardVerdict :=
  match record with
  | None => GvStart
  | Some record =>
      if negb (or_digest record =s digest) then
        GvRefuse (s"admitted for different content; a changed-content resend is refused")
      else
        match or_status record with
        | Started | FailedIndeterminate =>
            match on_indeterminate with
            | RetryRepeat => GvRepeat
            | RetryFail => GvRefuse INDETERMINATE
            end
        | OpSucceeded =>
            match or_result record with
            | Some result => GvResend result
            | None =>
                GvRefuse (s"already finished without a cached result; manual recovery required")
            end
        | FailedClean => GvStart
        end
  end.

(** [OperationOutcome::gateway_error]. *)
Definition gateway_outcome (e : GatewayError) (side_effect_free : bool) : OperationOutcome :=
  match e with
  | AfterSend _ => OutIndeterminate (gateway_error_text e)
  | _ =>
      if side_effect_free then OutCleanError
      else
        let indeterminate :=
          OutIndeterminate (s"gateway failure may have applied effects: " ++ gateway_error_text e) in
        match e with
        | EmptyCommand | CommandDenied _ _ | CommandArgsDenied _ _ _ | CommandPathDenied _
        | CommandIsolationMissing _ | ContainerRuntimeMissing _ | ContainerImageMissing _
        | CommandInputTooLarge _ | NetworkDenied _ | NetworkIpDenied _ _ | UnsupportedUrl _
        | HttpRequestBodyTooLarge _ | HttpValidationTimedOut | FsReadDenied | FsWriteDenied
        | PathDenied _ _ => OutCleanError
        | HttpFailed is_builder is_connect _ =>
            if is_builder || is_connect then OutCleanError else indeterminate
        | GwCanceled => OutIndeterminate (s"cancelled operation reached error classification")
        | _ => indeterminate
        end
  end.

(** ** What an approval binds *)

Section binding.
Context `{SerdeJson, Sha256Bytes}.

Definition sha_str (x : str) : str := sha256_bytes_hex (utf8_bytes x).
Definition salted (domain salt : str) : bytes :=
  utf8_bytes domain ++ [0%Z] ++ utf8_bytes salt ++ [0%Z].
Definition salted_binding_digest (domain salt : str) (contents : bytes) : str :=
  sha256_bytes_hex (salted domain salt ++ contents).

Definition bind_command_stdin (node : str) (plan : value) (stdin : option bytes) (salt : str) :
    result StepError value :=
  match plan with
  | VObject m =>
      Ok (VObject (bm_insert (s"stdin_sha256")
        match stdin with
        | Some b => VString (salted_binding_digest (s"command-stdin-v1") salt b)
        | None => VNull
        end m))
  | _ =>
      match stdin with
      | Some _ => Err (SFailed node
          (s"command plan with stdin must be an object so the input is bound to the approval"))
      | None => Err (SFailed node
          (s"command plan with no stdin must still be an object so the input binding is explicit"))
      end
  end.

(** [policy::credential::canonical_http_url]. *)
Fixpoint split_pairs (x : str) : list str :=
  match x with
  | [] => [[]]
  | c :: x =>
      if (c =? 38)%Z || (c =? 59)%Z then [] :: split_pairs x
      else match split_pairs x with
           | p :: ps => (c :: p) :: ps
           | [] => [[c]]
           end
  end.
Definition split_fragment (url : str) : str * str :=
  match split_once 35%Z url with
  | Some (before, after) => (before, 35%Z :: after)
  | None => (url, [])
  end.
Definition canonical_http_url (url : str) : str :=
  let '(before_fragment, fragment) := split_fragment url in
  match split_once 63%Z before_fragment with
  | None => url
  | Some (_, []) => url
  | Some (base, query) =>
      base ++ s"?" ++ join (s"&") (sort_by str_cmp (split_pairs query)) ++ fragment
  end.

Definition pair_bytes (fold : str → str) (kv : str * str) : bytes :=
  utf8_bytes (fold kv.1) ++ [0%Z] ++ utf8_bytes kv.2 ++ [0%Z].
Definition headers_digest (salt : str) (headers : bmap str) : str :=
  salted_binding_digest (s"http-headers-v1") salt (concat (map (pair_bytes to_ascii_lowercase) headers)).
Definition sensitive_digest (salt : str) (sensitive : bmap str) : str :=
  salted_binding_digest (s"http-sensitive-v1") salt (concat (map (pair_bytes id) sensitive)).
Definition is_safe_method (method : str) : bool := (method =s s"GET") || (method =s s"HEAD").

Definition http_operation_details (method : str) (headers : bmap str) (body : option bytes)
    (sensitive : bmap str) (salt : str) : option value :=
  if is_safe_method method then None
  else
    Some (obj [ (s"method", VString method);
                (s"headers_sha256", VString (headers_digest salt headers));
                (s"body_sha256",
                  v_opt (λ b, VString (salted_binding_digest (s"http-body-v1") salt b)) body);
                (s"sensitive_query_sha256",
                  if bool_decide (sensitive = []) then VNull
                  else VString (sensitive_digest salt sensitive)) ]).
Definition url_digest (salt url : str) : str :=
  salted_binding_digest (s"http-url-v1") salt (utf8_bytes (canonical_http_url url)).
Definition safe_http_details (method : str) (headers : bmap str) (salt url : str) : option value :=
  Some (obj [ (s"method", VString method);
              (s"headers_sha256", VString (headers_digest salt headers));
              (s"url_sha256", VString (url_digest salt url));
              (s"safe_read", VBool true) ]).
Definition http_details_with_url (method : str) (headers : bmap str) (body : option bytes)
    (sensitive : bmap str) (salt url : str) : option value :=
  if is_safe_method method then safe_http_details method headers salt url
  else
    details ← http_operation_details method headers body sensitive salt;
    Some match details with
         | VObject m => VObject (bm_insert (s"url_sha256") (VString (url_digest salt url)) m)
         | _ => details
         end.

(** [RunContext::operation_digest]: serialization of a value does not fail. *)
Definition operation_digest (target : str) (details : option value) : str :=
  sha256_bytes_hex (utf8_bytes target ++ [0%Z] ++ from_option to_vec [] details).
(** The id an approval is stored under. *)
Definition confirmation_id (scope : SideEffectScope) (node kind digest invocation_id : str) : str :=
  match scope with
  | ScContent => node ++ s":" ++ kind ++ s":" ++ digest
  | ScInvocation => node ++ s":" ++ kind ++ s":" ++ digest ++ s":" ++ sha_str invocation_id
  end.
Definition pending_payload_name (operation_id : str) : str := sha_str operation_id ++ s".json".
End binding.

(** ** The process that acts *)

(** [RunContext] and its manifest, as far as this part reads them;
    [gc_metadata] is the path of the metadata directory. *)
Record GuardContext : Type := mkGuardContext {
  gc_run_id : str;
  gc_metadata : str;
  gc_confirmations : bmap bool;
  gc_side_effects : SideEffects;
  gc_scope : SideEffectScope;
  gc_state_limit : option Z;
}.
(** The texts of errors this part only passes on. *)
Class GuardTexts := {
  json_error_text : json_category → str;
  not_found_text : str;
}.
(** The surroundings at each moment: what other processes did to the run
    directory (its files and their writers) since the last one, the clock, how
    far the writes of a record get, whether the process stops, which file
    operations fail (an atomic publication may fail before or after the rename),
    and what a gateway answers. *)
Record Surroundings {W : WireTypes} (A : Type) : Type := mkSurroundings {
  su_others : nat → Disk * list JournalWriter → Disk * list JournalWriter;
  su_clock : nat → Clock;
  su_out : nat → write_outcome * write_outcome;
  su_stop : nat → bool;
  su_dir : nat → option str;
  su_publish : nat → option (bool * str);
  su_read : nat → option str;
  su_remove : nat → bool;
  su_answer : nat → result GatewayError A;
}.
Arguments su_others {W A}.
Arguments su_clock {W A}.
Arguments su_out {W A}.
Arguments su_stop {W A}.
Arguments su_dir {W A}.
Arguments su_publish {W A}.
Arguments su_read {W A}.
Arguments su_remove {W A}.
Arguments su_answer {W A}.

(** A request handed to a gateway: the operation, the number of its start
    record, and the retry policy of the node. *)
Record send : Type := mkSend { sn_id : str; sn_seq : Z; sn_policy : RetryOnIndeterminate }.

Section guard.
Context {W : WireTypes} {SJ : SerdeJson} {C : StateCodec} {H : Sha256} {HB : Sha256Bytes}.
Context {M : Messages} {G : GuardTexts}.

(** [gu_peers] are the writers of the other processes. *)
Record Actor : Type := mkActor {
  gu_disk : Disk;
  gu_peers : list JournalWriter;
  gu_writer : JournalWriter;
  gu_results : bmap bytes;
  gu_payloads : bmap bytes;
  gu_tick : nat;
  gu_alive : bool;
  gu_sends : list send;
}.
Definition actor_eta (g : Actor) : Actor :=
  mkActor (gu_disk g) (gu_peers g) (gu_writer g) (gu_results g) (gu_payloads g) (gu_tick g) (gu_alive g)
    (gu_sends g).
#[global] Instance set_gu_disk : Setter gu_disk := ltac:(derive_setter actor_eta gu_disk).
#[global] Instance set_gu_peers : Setter gu_peers := ltac:(derive_setter actor_eta gu_peers).
#[global] Instance set_gu_writer : Setter gu_writer := ltac:(derive_setter actor_eta gu_writer).
#[global] Instance set_gu_results : Setter gu_results := ltac:(derive_setter actor_eta gu_results).
#[global] Instance set_gu_payloads : Setter gu_payloads := ltac:(derive_setter actor_eta gu_payloads).
#[global] Instance set_gu_tick : Setter gu_tick := ltac:(derive_setter actor_eta gu_tick).
#[global] Instance set_gu_alive : Setter gu_alive := ltac:(derive_setter actor_eta gu_alive).
#[global] Instance set_gu_sends : Setter gu_sends := ltac:(derive_setter actor_eta gu_sends).

Definition GM (A : Type) : Type := Actor → Actor * result StepError A.
#[global] Instance gm_ret : MRet GM := λ A x g, (g, Ok x).
#[global] Instance gm_bind : MBind GM := λ A B f m g,
  match m g with
  | (g, Ok x) => f x g
  | (g, Err e) => (g, Err e)
  end.
Definition throw {A} (e : StepError) : GM A := λ g, (g, Err e).
Definition hoist {A} (r : result StepError A) : GM A := λ g, (g, r).
Definition attempt {A} (m : GM A) : GM (result StepError A) := λ g, let '(g, r) := m g in (g, Ok r).
Definition act {A} (f : Actor → Actor * result StepError A) : GM A := f.
Definition the_actor : GM Actor := λ g, (g, Ok g).
(** [journal.state()]. *)
Definition the_state : GM RunState := λ g, (g, Ok (jw_state (gu_writer g))).

Context {A : Type}.
Variables (su : Surroundings A) (cx : GuardContext).

(** The next moment of a process that is still there: the other processes come
    first.  What a stopped process would return is never seen. *)
Definition live : GM nat := λ g,
  if gu_alive g then
    let n := gu_tick g in
    let '(d, peers) := su_others su n (gu_disk g, gu_peers g) in
    let g := g <| gu_tick := (n + 1)%nat |> <| gu_disk := d |> <| gu_peers := peers |> in
    if su_stop su n then (g <| gu_alive := false |>, Err SCancelled) else (g, Ok n)
  else (g, Err SCancelled).

(** [journal.event(..).map_err(..)]. *)
Definition record_event (node : NodeDef) (kind : str) (payload : value) : GM () :=
  n ← live;
  act (λ g,
    let '(d, w, r) :=
      writer_event (su_clock su n) (su_out su n).1 (su_out su n).2 kind (ser_ok payload)
        (gu_disk g) (gu_writer g) in
    (g <| gu_disk := d |> <| gu_writer := w |>,
     match r with
     | Ok _ => Ok ()
     | Err e => Err (SFailed (nd_id node) (journal_error_text e))
     end)).

(** ** Files *)

Inductive ReadError : Type := NotFound | ReadFailed (text : str).
Definition read_error_text (e : ReadError) : str :=
  match e with NotFound => not_found_text | ReadFailed text => text end.
(** [files::read_nofollow_bounded]. *)
Definition read_nofollow_bounded (n : nat) (path : str) (file : option bytes) (limit : Z) :
    result ReadError bytes :=
  match su_read su n with
  | Some text => Err (ReadFailed text)
  | None =>
      match file with
      | None => Err NotFound
      | Some b =>
          if (limit <? zlen b)%Z
          then Err (ReadFailed (s"file `" ++ path ++ s"` exceeds " ++ show_uint limit ++ s" bytes"))
          else Ok b
      end
  end.
(** [create_dir_all] and [files::write_sidecar_atomic]. *)
Definition create_dir (fail : str → StepError) : GM () :=
  n ← live;
  match su_dir su n with Some text => throw (fail text) | None => mret () end.
Definition publish_sidecar (update : Actor → Actor) (fail : str → StepError) : GM () :=
  n ← live;
  act (λ g, match su_publish su n with
            | None => (update g, Ok ())
            | Some (renamed, text) => (if renamed then update g else g, Err (fail text))
            end).

Definition OPERATION_RESULT_MAX_BYTES : Z := 64 * 1024.
Definition PENDING_PAYLOAD_MAX_BYTES : Z := TOOL_EVENT_VALUE_LIMIT_BYTES + 4096.
Definition operation_result_sidecar_max_bytes : Z :=
  default DEFAULT_MAX_STATE_BYTES (gc_state_limit cx).

Definition operation (id : str) : str := s"operation `" ++ id ++ s"` ".
Definition result_name (contents : bytes) : str := sha256_bytes_hex contents ++ s".json".

(** [cache_success_result]: the value inline, or the name of its sidecar. *)
Definition cache_success_result (node : NodeDef) (operation_id : str) (v : value) :
    GM (option value * option str) :=
  let fail message := SFailed (nd_id node) (operation operation_id ++ message) in
  let contents := to_vec v in
  if (zlen contents <=? OPERATION_RESULT_MAX_BYTES)%Z then mret (Some v, None)
  else
    let name := result_name contents in
    _ ← create_dir (λ text, fail (s"large result sidecar dir cannot be created: " ++ text));
    let limit := operation_result_sidecar_max_bytes in
    if (limit <? zlen contents)%Z then
      throw (fail (s"result is " ++ show_uint (zlen contents) ++ s" bytes, exceeding the "
                   ++ show_uint limit ++ s"-byte sidecar bound"))
    else
      _ ← publish_sidecar (λ g, g <| gu_results := bm_insert name contents (gu_results g) |>)
            (λ text, fail (s"large result sidecar cannot be published: " ++ text));
      mret (None, Some name).

(** [name.trim_end_matches(".json")]. *)
Fixpoint trim_json_go (fuel : nat) (name : str) : str :=
  match fuel with
  | O => name
  | S fuel =>
      match strip_suffix (s".json") name with
      | Some name => trim_json_go fuel name
      | None => name
      end
  end.
Definition trim_json (name : str) : str := trim_json_go (length name) name.

(** [load_spilled_result]. *)
Definition load_spilled_result (node : NodeDef) (operation_id name : str) : GM value :=
  let fail message := SRefused (nd_id node) (operation operation_id ++ message) in
  if contains_char name 47%Z || contains_char name 92%Z || negb (ends_with name (s".json")) then
    throw (fail (s"names an unsafe spilled result `" ++ name ++ s"`; refusing resend"))
  else
    n ← live;
    g ← the_actor;
    let path := gc_metadata cx ++ s"/operation-results/" ++ name in
    let spilled := s"spilled result `" ++ name ++ s"` " in
    match read_nofollow_bounded n path (bm_get name (gu_results g))
            operation_result_sidecar_max_bytes with
    | Err e =>
        throw (fail (spilled ++ s"is unavailable: " ++ read_error_text e
                     ++ s"; manual recovery required"))
    | Ok contents =>
        if negb (sha256_bytes_hex contents =s trim_json name) then
          throw (fail (spilled ++ s"failed integrity check; refusing resend"))
        else
          match from_slice contents with
          | Ok v => mret v
          | Err c =>
              throw (fail (spilled ++ s"is corrupt: " ++ json_error_text c
                           ++ s"; manual recovery required"))
          end
    end.

(** ** Guard and finish *)

(** [RunContext::execution_invocation]. *)
Definition execution_invocation (node : NodeDef) : GM str :=
  st ← the_state;
  mret (s"execution:" ++ nd_id node ++ s":"
        ++ show_uint (default 0%Z (bm_get (nd_id node) (rs_node_executions st)))).

Definition retry_of_node (node : NodeDef) : RetryOnIndeterminate :=
  from_option rp_on_indeterminate RetryFail (nd_retry node).
Definition operation_key (node : NodeDef) (invocation_id : str) : str :=
  operation_id_for sha_str (gc_run_id cx) (nd_id node) invocation_id.
Definition with_result (v : value) (r : OperationRecord) : OperationRecord :=
  mkOperationRecord (or_digest r) (or_status r) (Some v) (or_result_ref r) (or_invocation r)
    (or_on_indeterminate r).

(** The record with a spilled result loaded back. *)
Definition load_record (node : NodeDef) (operation_id : str) (record : option OperationRecord) :
    GM (option OperationRecord) :=
  match record with
  | Some r =>
      match or_result r, or_result_ref r with
      | None, Some name =>
          v ← load_spilled_result node operation_id name;
          mret (Some (with_result v r))
      | _, _ => mret record
      end
  | None => mret None
  end.
(** A record without an invocation, or of another one, is corrupt. *)
Definition check_invocation (refuse : str → StepError) (invocation_id : str)
    (record : option OperationRecord) : GM () :=
  match record with
  | Some r =>
      if bool_decide (or_invocation r = []) then
        throw (refuse (s"has an empty invocation; refusing as corrupt"))
      else if negb (or_invocation r =s invocation_id) then
        throw (refuse (s"names a different invocation; refusing as corrupt"))
      else mret ()
  | None => mret ()
  end.
(** The closure [start_fresh]. *)
Definition start_fresh (node : NodeDef) (kind target digest invocation_id operation_id : str)
    (attempt_number : Z) : GM GuardDecision :=
  _ ← record_event node (s"operation_started")
        (obj [ (s"node", VString (nd_id node));
               (s"kind", VString kind);
               (s"target", VString target);
               (s"operation_id", VString operation_id);
               (s"operation_digest", VString digest);
               (s"invocation_id", VString invocation_id);
               (s"attempt", v_num attempt_number);
               (s"on_indeterminate",
                 VString match retry_of_node node with
                         | RetryRepeat => s"repeat"
                         | RetryFail => s"fail"
                         end) ]);
  mret (Proceed operation_id).

(** [guard_external_operation]. *)
Definition guard_external_operation (node : NodeDef) (kind target : str) (details : option value)
    (invocation_id : str) : GM GuardDecision :=
  let digest := operation_digest target details in
  let operation_id := operation_key node invocation_id in
  let refuse message :=
    SRefused (nd_id node)
      (operation operation_id ++ s"(" ++ kind ++ s" to `" ++ target ++ s"`) " ++ message) in
  st ← the_state;
  record ← load_record node operation_id (bm_get operation_id (rs_operation_records st));
  _ ← check_invocation refuse invocation_id record;
  attempt_number ←
    match checked_add U32_MAX (default 0%Z (bm_get operation_id (rs_operation_attempts st))) 1 with
    | Some n => mret n
    | None =>
        throw (SFailed (nd_id node) (operation operation_id ++ s"attempt generation overflowed"))
    end;
  let start := start_fresh node kind target digest invocation_id operation_id attempt_number in
  match decide_operation_guard record digest (retry_of_node node) with
  | GvStart => start
  | GvRepeat =>
      _ ← record_event node (s"operation_repeated")
            (obj [ (s"node", VString (nd_id node));
                   (s"operation_id", VString operation_id);
                   (s"attempt", v_num attempt_number);
                   (s"policy", VString (s"repeat")) ]);
      start
  | GvResend v => mret (Resend operation_id v)
  | GvRefuse reason => throw (refuse reason)
  end.

(** [finish_external_operation_with]. *)
Definition finish_external_operation_with (node : NodeDef) (operation_id : str)
    (outcome : OperationOutcome) : GM () :=
  '(status, reason, cached) ←
    match outcome with
    | OutSuccess v =>
        cached ← match v with
                 | Some v => cache_success_result node operation_id v
                 | None => mret (None, None)
                 end;
        mret (s"success", None, cached)
    | OutCleanError => mret (s"clean", None, (None, None))
    | OutIndeterminate reason => mret (s"indeterminate", Some reason, (None, None))
    end;
  record_event node (s"operation_finished")
    (obj ([ (s"node", VString (nd_id node)); (s"operation_id", VString operation_id);
            (s"status", VString status) ]
          ++ match reason with Some x => [(s"reason", VString x)] | None => [] end
          ++ match cached.1 with Some v => [(s"result", v)] | None => [] end
          ++ match cached.2 with Some x => [(s"result_ref", VString x)] | None => [] end)).
Definition finish_external_operation (node : NodeDef) (operation_id : str) (v : option value) :
    GM () := finish_external_operation_with node operation_id (OutSuccess v).
(** [finish_external_operation_with_warn]: the failure goes to the log. *)
Definition finish_external_operation_with_warn (node : NodeDef) (operation_id : str)
    (outcome : OperationOutcome) : GM () :=
  _ ← attempt (finish_external_operation_with node operation_id outcome); mret ().

(** ** Approval *)

Definition side_effect_event (node : NodeDef) (kind target : str) (details : option value)
    (decision policy : str) (more : list (str * value)) : GM () :=
  record_event node (s"side_effect")
    (obj ([ (s"node", VString (nd_id node)); (s"kind", VString kind); (s"target", VString target);
            (s"decision", VString decision); (s"policy", VString policy);
            (s"details", v_opt id details) ] ++ more)).
Definition debug_side_effects (p : SideEffects) : str :=
  match p with
  | SeNone => s"None" | SeConfirm => s"Confirm" | SeDryRunFirst => s"DryRunFirst"
  | SeAllowed => s"Allowed"
  end.

(** [require_side_effect]: the confirmation that is still needed. *)
Definition require_side_effect (node : NodeDef) (kind target : str) (details : option value)
    (invocation_id : str) : GM (option Confirm) :=
  let digest := operation_digest target details in
  let id := confirmation_id (gc_scope cx) (nd_id node) kind digest invocation_id in
  let policy := gc_side_effects cx in
  let bound := (s"operation_digest", VString digest) in
  match policy with
  | SeNone =>
      _ ← side_effect_event node kind target details (s"denied") (s"none") [];
      throw (SFailed (nd_id node)
        (s"side effect `" ++ kind ++ s"` to `" ++ target
         ++ s"` is not allowed by permissions.side_effects=none"))
  | SeAllowed =>
      _ ← side_effect_event node kind target details (s"allowed") (s"allowed") [];
      mret None
  | SeConfirm | SeDryRunFirst =>
      if default false (bm_get id (gc_confirmations cx)) then
        _ ← side_effect_event node kind target details (s"approved_by_user")
              (debug_side_effects policy) [bound];
        mret None
      else
        let dry_run := match policy with SeDryRunFirst => true | _ => false end in
        _ ← (if dry_run then
               record_event node (s"dry_run")
                 (obj [ (s"node", VString (nd_id node)); (s"kind", VString kind);
                        (s"target", VString target); (s"details", v_opt (λ v, v) details); bound ])
             else mret ());
        _ ← side_effect_event node kind target details (s"confirmation_required")
              (debug_side_effects policy) [(s"dry_run", VBool dry_run); bound];
        mret (Some (mkConfirm id
          (s"Confirm side effect `" ++ kind ++ s"` for node `" ++ nd_id node ++ s"`")
          kind target dry_run details digest (gc_scope cx)))
  end.

(** ** Pending payloads *)

Definition store_pending_tool_payload (node : NodeDef) (operation_id : str) (payload : value) :
    GM () :=
  let fail message := SFailed (nd_id node) (operation operation_id ++ s"pending payload " ++ message) in
  _ ← create_dir (λ text, fail (s"dir cannot be created: " ++ text));
  let name := pending_payload_name operation_id in
  let contents := to_vec payload in
  if (PENDING_PAYLOAD_MAX_BYTES <? zlen contents)%Z then
    throw (SRefused (nd_id node)
      (operation operation_id ++ s"pending payload is " ++ show_uint (zlen contents)
       ++ s" bytes, exceeding the " ++ show_uint PENDING_PAYLOAD_MAX_BYTES ++ s"-byte sidecar bound"))
  else
    publish_sidecar (λ g, g <| gu_payloads := bm_insert name contents (gu_payloads g) |>)
      (λ text, fail (s"cannot be published: " ++ text)).
Definition load_pending_tool_payload (node : NodeDef) (operation_id : str) : GM (option value) :=
  let refuse message :=
    SRefused (nd_id node)
      (operation operation_id ++ s"pending payload " ++ message ++ s"; manual recovery required") in
  let name := pending_payload_name operation_id in
  n ← live;
  g ← the_actor;
  match read_nofollow_bounded n (gc_metadata cx ++ s"/pending-payloads/" ++ name)
          (bm_get name (gu_payloads g)) PENDING_PAYLOAD_MAX_BYTES with
  | Ok contents =>
      match from_slice contents with
      | Ok v => mret (Some v)
      | Err c => throw (refuse (s"is corrupt: " ++ json_error_text c))
      end
  | Err NotFound => mret None
  | Err e => throw (refuse (s"is unreadable: " ++ read_error_text e))
  end.
(** [clear_pending_tool_payload]: a failure goes to the log. *)
Definition clear_pending_tool_payload (operation_id : str) : GM () :=
  n ← live;
  act (λ g, (if su_remove su n
             then g <| gu_payloads := bm_remove (pending_payload_name operation_id) (gu_payloads g) |>
             else g, Ok ())).

(** ** Steps that act *)

(** [StepContext::side_effecting_gateway_error]. *)
Definition side_effecting_gateway_error (node : NodeDef) (operation_id : str) (e : GatewayError) :
    GM StepError :=
  _ ← match e with
      | GwCanceled => mret ()
      | _ => finish_external_operation_with_warn node operation_id (gateway_outcome e false)
      end;
  mret (from_gateway (nd_id node) e).

(** The request leaves for the gateway. *)
Definition hand_over (node : NodeDef) (operation_id : str) : GM (result GatewayError A) :=
  n ← live;
  act (λ g, (g <| gu_sends := gu_sends g ++
                [mkSend operation_id (rs_last_seq (jw_state (gu_writer g))) (retry_of_node node)] |>,
             Ok (su_answer su n))).

(** What the steps do between the guard and the use of the output: the output,
    and the operation if it was sent now. *)
Definition operate (ser : A → value) (de : value → option A) (corrupt : str) (node : NodeDef)
    (kind target : str) (details : option value) (invocation_id : str) : GM (A * option str) :=
  decision ← guard_external_operation node kind target details invocation_id;
  match decision with
  | Proceed operation_id =>
      answer ← hand_over node operation_id;
      match answer with
      | Err e =>
          error ← side_effecting_gateway_error node operation_id e;
          throw error
      | Ok output =>
          _ ← finish_external_operation node operation_id (Some (ser output));
          mret (output, Some operation_id)
      end
  | Resend _ v =>
      match de v with
      | Some output => mret (output, None)
      | None => throw (SFailed (nd_id node) corrupt)
      end
  end.
End guard.

(** ** The HTTP step *)

Definition de_u8 (v : value) : option Z :=
  n ← as_u64 v; if (n <=? 255)%Z then Some n else None.
Definition ser_bytes (b : bytes) : value := VArray (map v_num b).

(** [HttpOutput] of [gateway/http.rs] with its derived codec. *)
Record HttpOutput : Type := mkHttpOutput {
  ho_status : Z;
  ho_url : str;
  ho_headers : bmap str;
  ho_body : bytes;
  ho_content_type : option str;
}.
Definition ho_fields : list str := [s"status"; s"url"; s"headers"; s"body"; s"content_type"].
Definition ser_http_output (o : HttpOutput) : value :=
  obj [ (s"status", v_num (ho_status o)); (s"url", VString (ho_url o));
        (s"headers", VObject (map (λ '(k, v), (k, VString v)) (ho_headers o)));
        (s"body", ser_bytes (ho_body o)); (s"content_type", v_opt VString (ho_content_type o)) ].
Definition de_headers (v : value) : option (bmap str) :=
  match v with VObject m => mapM (λ '(k, v), pair k <$> de_string v) m | _ => None end.
Definition de_http_output (v : value) : option HttpOutput :=
  if struct_shape false ho_fields v then
    status ← required (λ v, n ← as_u64 v; if (n <=? 65535)%Z then Some n else None)
               (struct_field ho_fields v (s"status"));
    url ← required de_string (struct_field ho_fields v (s"url"));
    headers ← required de_headers (struct_field ho_fields v (s"headers"));
    body ← required (de_vec de_u8) (struct_field ho_fields v (s"body"));
    content_type ← defaulted None (de_option de_string) (struct_field ho_fields v (s"content_type"));
    Some (mkHttpOutput status url headers body content_type)
  else None.

Section steps.
Context {W : WireTypes} {SJ : SerdeJson} {C : StateCodec} {H : Sha256} {HB : Sha256Bytes}.
Context {M : Messages} {G : GuardTexts}.
Variable (cx : GuardContext).

(** What a step leaves: a confirmation to ask for, or its output. *)
Inductive Called (A : Type) : Type := NeedsConfirm (c : Confirm) | Answered (output : A).
Arguments NeedsConfirm {A}.
Arguments Answered {A}.

(** The exchange of [HttpStep::execute]; [journal_url] is the redacted URL. *)
Definition http_exchange (su : Surroundings HttpOutput) (node : NodeDef) (method url journal_url : str)
    (headers : bmap str) (body : option bytes) (sensitive : bmap str) : GM (Called HttpOutput) :=
  invocation ← execution_invocation node;
  let details := http_details_with_url method headers body sensitive (gc_run_id cx) url in
  needed ← (if is_safe_method method then mret None
            else require_side_effect su cx node (s"http") journal_url details invocation);
  match needed with
  | Some c => mret (NeedsConfirm c)
  | None =>
      if is_safe_method method then
        n ← live su;
        match su_answer su n with
        | Ok output => mret (Answered output)
        | Err e => throw (from_gateway (nd_id node) e)
        end
      else
        '(output, _) ← operate su cx ser_http_output de_http_output
                         (s"cached HTTP response is corrupt: " ++ json_error_text CatData)
                         node (s"http") journal_url details invocation;
        mret (Answered output)
  end.

(** ** The command step *)

(** [CommandOutput] of [gateway/command.rs]. *)
Record CommandOutput : Type := mkCommandOutput {
  co_status : Z;
  co_stdout : str;
  co_stderr : str;
  co_stdout_bytes : bytes;
  co_stderr_bytes : bytes;
}.
Definition co_fields : list str :=
  [s"status"; s"stdout"; s"stderr"; s"stdout_bytes"; s"stderr_bytes"].
Definition show_int (n : Z) : str := if (n <? 0)%Z then s"-" ++ show_uint (- n) else show_uint n.
Definition v_int (n : Z) : value := VNumber (if (n <? 0)%Z then NegInt n else PosInt n).
Definition de_i32 (v : value) : option Z :=
  match v with
  | VNumber (PosInt n) => if (n <=? I32_MAX)%Z then Some n else None
  | VNumber (NegInt n) => if (I32_MIN <=? n)%Z then Some n else None
  | _ => None
  end.
Definition ser_command_output (o : CommandOutput) : value :=
  obj [ (s"status", v_int (co_status o)); (s"stdout", VString (co_stdout o));
        (s"stderr", VString (co_stderr o)); (s"stdout_bytes", ser_bytes (co_stdout_bytes o));
        (s"stderr_bytes", ser_bytes (co_stderr_bytes o)) ].
Definition de_command_output (v : value) : option CommandOutput :=
  if struct_shape false co_fields v then
    status ← required de_i32 (struct_field co_fields v (s"status"));
    stdout ← required de_string (struct_field co_fields v (s"stdout"));
    stderr ← required de_string (struct_field co_fields v (s"stderr"));
    stdout_bytes ← required (de_vec de_u8) (struct_field co_fields v (s"stdout_bytes"));
    stderr_bytes ← required (de_vec de_u8) (struct_field co_fields v (s"stderr_bytes"));
    Some (mkCommandOutput status stdout stderr stdout_bytes stderr_bytes)
  else None.

(** The plan with everything the approval binds. *)
Definition command_details (node : str) (command : list str) (plan : value) (input : option bytes)
    (salt : str) : result StepError value :=
  plan ← bind_command_stdin node plan input salt;
  Ok match plan with
     | VObject m =>
         VObject
           (bm_insert (s"argv_sha256")
              (VString (salted_binding_digest (s"command-argv-v1") salt
                          (to_vec (VArray (map VString command)))))
              (bm_insert (s"target_sha256")
                 (VString (salted_binding_digest (s"command-target-v1") salt
                             (utf8_bytes (join (s" ") command)))) m))
     | _ => plan
     end.

(** The exchange of [CommandStep::execute]; [target] is the redacted command
    line, [plan] what the command gateway resolved. *)
Definition command_exchange (su : Surroundings CommandOutput) (node : NodeDef) (command : list str)
    (target : str) (plan : value) (input : option bytes) : GM (Called CommandOutput) :=
  invocation ← execution_invocation node;
  details ← hoist (command_details (nd_id node) command plan input (gc_run_id cx));
  needed ← require_side_effect su cx node (s"command") target (Some details) invocation;
  match needed with
  | Some c => mret (NeedsConfirm c)
  | None =>
      '(output, sent) ← operate su cx ser_command_output de_command_output
                          (s"cached command output is corrupt: " ++ json_error_text CatData)
                          node (s"command") target (Some details) invocation;
      if bool_decide (co_status output = 0%Z) then mret (Answered output)
      else
        let reason := s"command exited with " ++ show_int (co_status output) in
        _ ← match sent with
            | Some operation_id =>
                finish_external_operation_with_warn su cx node operation_id (OutIndeterminate reason)
            | None => mret ()
            end;
        throw (SFailed (nd_id node) reason)
  end.
End steps.
Arguments NeedsConfirm {A}.
Arguments Answered {A}.
