(* ===== verification/GuardSpec.v ===== *)
(** * Operations are sent at most once

    The guard of [Guard] as a process among others: it acts, its writes are cut,
    it stops and is started again, while other processes append to the same
    journal.  The theorems relate what was handed to the gateways to what the
    journal on disk says. *)

From S2P Require Import Prelude Str BMap Sorting Json Serde Events ValueBag RunState RunStateEffect RunStateInv RunStateOps RunStateFrame AuditRules TraceIds JournalFile JournalLines JournalRepair JournalWriter JournalSafety JournalSystem Graph EngineTypes EngineWorld EngineFold Guard.
From stdpp Require Import relations.
From Stdlib Require Import Sorted.

#[local] Arguments s : simpl never.

(** ** Records *)

Section records.
Context {W : WireTypes} {SJ : SerdeJson} {SL : SerdeJsonLaws} {H : Sha256}.

Lemma record_seq clock kind run seq object :
  seq_of (durable_record clock kind run seq object) = Some seq.
Proof.
  unfold durable_record, seq_of, get_u64, get, stamp_parent, stamp. cbn zeta.
  case_if; rewrite !bm_get_insert_ne by (by vm_compute); by rewrite bm_get_insert_eq.
Qed.
Lemma record_str clock kind run seq object key :
  key ∉ stamp_keys →
  get_str key (durable_record clock kind run seq object) = bm_get key object ≫= as_str.
Proof. intros Hk. unfold get_str. by rewrite record_get. Qed.

(** The payload of a record comes back from its serialization. *)
Lemma payload_back clock w kind m object :
  is_terminal_event_kind kind = false → exact_value (VObject m) = true →
  durable_payload clock w kind (ser_ok (VObject m)) = Ok object → object = m.
Proof.
  unfold durable_payload. intros Hk Hm Ho. apply result_bind_Ok in Ho as (b & Hb & Ho).
  apply serialize_bounded_ok in Hb as [_ ->]. change (concat (ser_ok _).1) with (to_vec (VObject m)) in Ho.
  rewrite from_to_vec in Ho by done. cbn [map_err mbind result_bind] in Ho.
  injection Ho as <-. unfold with_metrics. by rewrite Hk.
Qed.
Lemma payload_exact v : is_object v = true → exact_value v = true → exact_payload (ser_ok v).
Proof.
  intros Ho He u. change (concat (ser_ok v).1) with (to_vec v). rewrite from_to_vec by done.
  by intros [= <-].
Qed.

(** Numbers increase along a journal. *)
Lemma seqs_increase events st before v after v' n n' :
  fold_values events = Ok st → events = before ++ v :: after → v' ∈ after →
  seq_of v = Some n → seq_of v' = Some n' → (n < n')%Z.
Proof.
  intros ((l & Hl & Hs) & _)%fold_last_seq -> Hin Hn Hn'.
  apply Forall2_app_inv_l in Hl as (l1 & l2 & _ & Hl & ->).
  apply Forall2_cons_inv_l in Hl as (m & l2' & Hm & Hl & ->). rewrite Hn in Hm. injection Hm as <-.
  apply sorted_app_r in Hs. apply StronglySorted_inv in Hs as [Hs _].
  apply StronglySorted_inv in Hs as [_ Hs]. rewrite Forall_forall in Hs. apply Hs.
  apply list_elem_of_lookup in Hin as [i Hi]. destruct (Forall2_lookup_l _ _ _ _ _ Hl Hi) as (m & Hm & E).
  rewrite Hn' in E. injection E as ->. by eapply list_elem_of_lookup_2.
Qed.
Lemma seq_known events st v : fold_values events = Ok st → v ∈ events → ∃ n, seq_of v = Some n.
Proof.
  intros ((l & Hl & _) & _)%fold_last_seq Hin. apply list_elem_of_lookup in Hin as [i Hi].
  destruct (Forall2_lookup_l _ _ _ _ _ Hl Hi) as (m & _ & E). by exists m.
Qed.
End records.

(** ** What the journal says about a send *)

(** Between two sends of one operation the journal reports that the first had no
    effect, or records that the second repeats it as the node allows. *)
Definition excused (events : list value) (x y : send) : Prop :=
  ∃ v n, v ∈ events ∧ seq_of v = Some n ∧ (sn_seq x < n < sn_seq y)%Z ∧
    (op_event_of v = Some (OpFinished (sn_id y) FailedClean) ∨
     sn_policy y = RetryRepeat ∧ get_str (s"t") v = Some (s"operation_repeated") ∧
     get_str (s"operation_id") v = Some (sn_id y)).
Record sends_ok (events : list value) (sends : list send) : Prop := {
  so_started : ∀ x, x ∈ sends → ∃ v, v ∈ events ∧ seq_of v = Some (sn_seq x) ∧
    op_event_of v = Some (OpStarted (sn_id x));
  so_excused : ∀ l1 x l2 y l3, sends = l1 ++ x :: l2 ++ y :: l3 → sn_id x = sn_id y →
    excused events x y;
}.

Lemma excused_mono events events' x y :
  events `prefix_of` events' → excused events x y → excused events' x y.
Proof. intros [k ->] (v & n & Hv & ?). exists v, n. split; [set_solver | done]. Qed.
Lemma sends_ok_mono events events' sends :
  events `prefix_of` events' → sends_ok events sends → sends_ok events' sends.
Proof.
  intros Hp [H1 H2]. split.
  - intros x Hx. destruct (H1 x Hx) as (v & Hv & ?). exists v. split; [|done].
    destruct Hp as [k ->]. set_solver.
  - intros l1 x l2 y l3 E Hid. eapply excused_mono; [done | by eapply H2].
Qed.
Lemma sends_ok_snoc events sends y v :
  sends_ok events sends → v ∈ events → seq_of v = Some (sn_seq y) →
  op_event_of v = Some (OpStarted (sn_id y)) →
  (∀ x, x ∈ sends → sn_id x = sn_id y → excused events x y) → sends_ok events (sends ++ [y]).
Proof.
  intros [H1 H2] Hv Hn Hs Hx. split.
  - intros x [Hx'| ->%list_elem_of_singleton]%elem_of_app; [by apply H1 | by exists v].
  - intros l1 x l2 y' l3 E Hid. destruct l3 as [|z l3 _] using rev_ind.
    + rewrite app_comm_cons, app_assoc in E. apply app_inj_tail in E as [-> ->].
      apply Hx; [set_solver | done].
    + rewrite app_comm_cons, !app_assoc, app_comm_cons, app_assoc in E.
      apply app_inj_tail in E as [E _]. rewrite <-!app_assoc in E. by eapply H2.
Qed.

Lemma sent_excused {W : WireTypes} (sends : list send) events st x y :
  sends_ok events sends → fold_values events = Ok st → x ∈ sends → sn_id x = sn_id y →
  or_status <$> bm_get (sn_id y) (rs_operation_records st) ∈ [None; Some FailedClean] →
  (∀ v n, v ∈ events → seq_of v = Some n → n < sn_seq y)%Z → excused events x y.
Proof.
  intros Hs Hf Hx Hid Hst Hlt. destruct (so_started _ _ Hs x Hx) as (v & Hv & Hn & Hev).
  rewrite (proj1 (fold_operations _ _ Hf)) in Hst.
  apply list_elem_of_split in Hv as (before & after & E). rewrite Hid in Hev.
  destruct (op_status_after (sn_id y) before v after _ Hev eq_refl) as (o & v' & Ho & Hin & Hev').
  { rewrite <-E. rewrite !elem_of_cons in Hst. set_solver. }
  assert (o = FailedClean) as -> by (rewrite <-E in Ho; rewrite Ho in Hst; set_solver).
  assert (Hv' : v' ∈ events) by (rewrite E; set_solver).
  destruct (seq_known _ _ _ Hf Hv') as [n' Hn'].
  exists v', n'. split; [done|]. split; [done|]. split; [|by left].
  split; [by eapply seqs_increase | by eapply Hlt].
Qed.

(** ** The process *)

Section process.
Context {W : WireTypes} {SJ : SerdeJson} {SL : SerdeJsonLaws} {C : StateCodec} {H : Sha256}.
Context {CL : StateCodecLaws} {HB : Sha256Bytes} {M : Messages} {G : GuardTexts}.
Context {A : Type}.
Variables (su : Surroundings A) (cx : GuardContext) (L : JournalLimits).

(** What the other processes do, they do by the operations of the journal. *)
Definition others_ok : Prop := ∀ n d peers,
  rtc (system_step L (gc_run_id cx)) (mkSystem d peers)
    (mkSystem (su_others su n (d, peers)).1 (su_others su n (d, peers)).2).
Hypothesis others : others_ok.

(** The journal when the process began, and what it had seen of it. *)
Variables origin floor : list value.

(** The journal holds [events], and the process has seen at least [base]. *)
Record sees (base events : list value) (g : Actor) : Prop := {
  se_inv : inv L (gc_run_id cx) base events (gu_disk g) (gu_writer g);
  se_peers : Forall (λ w, writer_ok L (gc_run_id cx) [] w events) (gu_peers g);
  se_floor : floor `prefix_of` base;
  se_origin : origin `prefix_of` events;
}.
(** The process has seen the start of everything it sent. *)
Definition gok (g : Actor) : Prop :=
  ∃ base events, sees base events g ∧ sends_ok base (gu_sends g).
Lemma sees_base base events g : sees base events g → base `prefix_of` events.
Proof. intros [[_ (_ & _ & evs & st & ? & ? & _)] _ _ _]. by etransitivity. Qed.
(** Nothing of the process happened, only others acted. *)
Record waits (g g' : Actor) : Prop := {
  wa_writer : gu_writer g' = gu_writer g;
  wa_sends : gu_sends g' = gu_sends g;
  wa_others : rtc (system_step L (gc_run_id cx)) (mkSystem (gu_disk g) (gu_peers g))
    (mkSystem (gu_disk g') (gu_peers g'));
}.
#[export] Instance waits_preorder : PreOrder waits.
Proof.
  split; [done|]. intros g1 g2 g3 [A1 A2 A3] [B1 B2 B3]. split; [congruence..|]. by etransitivity.
Qed.
Lemma sees_waits base events g g' :
  sees base events g → waits g g' → ∃ new, sees base (events ++ new) g'.
Proof.
  intros [[Hd Hw] Hp Hf Ho] [E _ Hst].
  destruct (system_steps_inv L (gc_run_id cx) events _ _ (conj Hd Hp : system_inv L _ events (mkSystem _ _)) Hst)
    as [new [Hd' Hp']].
  exists new. split; [|done|done|by apply prefix_app_r]. split; [done|]. rewrite E. by apply writer_ok_mono.
Qed.
Lemma gok_waits g g' : gok g → waits g g' → gok g'.
Proof.
  intros (base & events & Hi & Hs) Hw. destruct (sees_waits _ _ _ _ Hi Hw) as [new Hi'].
  exists base, (events ++ new). split; [done|]. by rewrite (wa_sends _ _ Hw).
Qed.

Definition run_ok {B} (P : Actor → Prop) (m : GM B) (Q : B → Actor → Prop) : Prop :=
  ∀ g, P g → match m g with (g', Ok x) => Q x g' | (g', Err _) => gok g' end.
Notation keeps m := (run_ok gok m (λ _, gok)).

Lemma run_bind {B D} P (m : GM B) R (k : B → GM D) Q :
  run_ok P m R → (∀ x, run_ok (R x) (k x) Q) → run_ok P (m ≫= k) Q.
Proof.
  intros Hm Hk g HP. unfold mbind, gm_bind. specialize (Hm g HP).
  destruct (m g) as [g1 [x|e]]; [by apply Hk | done].
Qed.
Lemma run_pre {B} P P' (m : GM B) Q : run_ok P' m Q → (∀ g, P g → P' g) → run_ok P m Q.
Proof. intros Hm HP g Hg. by apply Hm, HP. Qed.
Lemma keeps_ret {B} (x : B) : keeps (mret x).
Proof. by intros g. Qed.
Lemma keeps_throw {B} e : keeps (throw (A := B) e).
Proof. by intros g. Qed.
Lemma keeps_hoist {B} (x : result StepError B) : keeps (hoist x).
Proof. intros g Hg. unfold hoist. by destruct x. Qed.
Lemma keeps_actor : keeps the_actor.
Proof. by intros g. Qed.
Lemma keeps_state : keeps the_state.
Proof. by intros g. Qed.
Lemma keeps_attempt {B} (m : GM B) : keeps m → keeps (attempt m).
Proof. intros Hm g Hg. unfold attempt. specialize (Hm g Hg). by destruct (m g) as [g' []]. Qed.

Lemma live_waits g : waits g (live su g).1.
Proof.
  unfold live. destruct (gu_alive g); [|done].
  pose proof (others (gu_tick g) (gu_disk g) (gu_peers g)) as Ho.
  destruct (su_others su _ _) as [d peers]. by destruct (su_stop su _).
Qed.
Lemma keeps_live : keeps (live su).
Proof.
  intros g Hg. pose proof (gok_waits _ _ Hg (live_waits g)) as Hg'. by destruct (live su g) as [g' []].
Qed.
Lemma keeps_act {B} (f : Actor → Actor * result StepError B) :
  (∀ g, waits g (f g).1) → keeps (act f).
Proof.
  intros Hf g Hg. specialize (Hf g). unfold act. destruct (f g) as [g' []]; by eapply gok_waits.
Qed.

(** A record of the process. *)
Lemma keeps_writer clock out out' kind payload g d w r :
  event_class kind = Observation ∨ exact_payload payload → gok g →
  writer_event clock out out' kind payload (gu_disk g) (gu_writer g) = (d, w, r) →
  gok (g <| gu_disk := d |> <| gu_writer := w |>).
Proof.
  intros Hp (base & events & [Hi Hpe Hf Ho] & Hs) Hw.
  assert (Ht : triple L (gc_run_id cx) base events (inv L (gc_run_id cx) base events)
                 (writer_event clock out out' kind payload)
                 (λ _ d w, ext L (gc_run_id cx) base events d w)).
  { destruct Hp as [Hk|Hp]; [|by apply writer_event_triple].
    unfold writer_event. rewrite Hk. by apply observation_event_triple. }
  specialize (Ht _ _ Hi). rewrite Hw in Ht.
  assert (ext L (gc_run_id cx) base events d w) as (new & _ & Hn) by (by destruct r).
  exists base, (events ++ new). split; [|done].
  split; [done | by apply writers_mono | done | by apply prefix_app_r].
Qed.
Lemma keeps_record node kind payload :
  event_class kind = Observation ∨ is_object payload = true ∧ exact_value payload = true →
  keeps (record_event su node kind payload).
Proof.
  intros Hp. unfold record_event. eapply run_bind; [apply keeps_live|]. intros n g Hg. unfold act.
  destruct (writer_event _ _ _ _ _ _ _) as [[d w] r] eqn:Ew.
  assert (gok (g <| gu_disk := d |> <| gu_writer := w |>)) as Hg'.
  { refine (keeps_writer _ _ _ _ _ _ _ _ _ _ Hg Ew).
    destruct Hp as [?|[??]]; [by left | right; by apply payload_exact]. }
  by destruct r.
Qed.

Lemma record_durable base events node kind m sends :
  event_class kind = Durable → is_terminal_event_kind kind = false → exact_value (VObject m) = true →
  run_ok (λ g, sees base events g ∧ sends_ok base sends ∧ gu_sends g = sends)
    (record_event su node kind (VObject m))
    (λ _ g, gu_sends g = sends ∧
       ∃ new clock, let seq := rs_last_seq (jw_state (gu_writer g)) in
         let v := durable_record clock kind (gc_run_id cx) seq m in
         let all := (events ++ new) ++ [v] in sees all all g).
Proof.
  intros Hk Ht Hm g (Hi0 & Hs & Eg). unfold record_event, mbind, gm_bind.
  pose proof (live_waits g) as Hw. destruct (sees_waits _ _ _ _ Hi0 Hw) as [new0 Hi1].
  pose proof (wa_sends _ _ Hw) as E3. clear Hi0 Hw.
  destruct (live su g) as [g1 [n|e]]; cbn [fst] in *; rewrite Eg in E3; clear Eg g.
  2:{ exists base, (events ++ new0). by rewrite E3. }
  pose proof (sees_base _ _ _ Hi1) as Hbe. destruct Hi1 as [Hi Hpe Hf Ho].
  set (events0 := events ++ new0) in *. enough (
    match act (λ g, let '(d, w, r) := writer_event (su_clock su n) (su_out su n).1 (su_out su n).2 kind
        (ser_ok (VObject m)) (gu_disk g) (gu_writer g) in
      (g <| gu_disk := d |> <| gu_writer := w |>,
       match r with Ok _ => Ok () | Err e => Err (SFailed (nd_id node) (journal_error_text e)) end)) g1 with
    | (g', Ok _) => gu_sends g' = sends ∧ ∃ clock, let seq := rs_last_seq (jw_state (gu_writer g')) in
         let v := durable_record clock kind (gc_run_id cx) seq m in
         let all := events0 ++ [v] in sees all all g'
    | (g', Err _) => gok g' end) as Hgoal.
  { revert Hgoal. destruct (act _ g1) as [g' [[]|]]; [|done]. intros (E & clock & Hall).
    split; [done|]. by exists new0, clock. }
  unfold act, writer_event. rewrite Hk. unfold mbind, wm_bind. clearbody events0. clear events.
  rename events0 into events. pose proof (durable_record_triple L (gc_run_id cx) base (su_clock su n) (su_out su n).1 kind
    (ser_ok (VObject m)) events (payload_exact (VObject m) eq_refl Hm) _ _ Hi) as Hd.
  destruct (durable_event _ _ _ _ _ _) as [[d w] [e|e]]; cbn [mret wm_ret].
  - destruct Hd as (w0 & object & seq & st1 & Hp & _ & Hsyn).
    apply payload_back in Hp as ->; [|done..]. split; [done|]. exists (su_clock su n).
    cbn [gu_writer set_field set_gu_writer set_gu_disk]. set (v := durable_record _ _ _ seq _) in *.
    pose proof (synced_all _ _ _ _ _ _ _ Hsyn) as Hall.
    destruct Hsyn as (_ & Hg & _ & _ & _ & _ & Hfol & _). cbn zeta.
    change (jw_state _) with (jw_state w).
    destruct (fold_last_seq _ _ (gd_fold _ _ _ _ Hg)) as (_ & Hl & _).
    rewrite (follows_last_seq _ _ _ Hfol), Hl. unfold last_seq. rewrite last_snoc. cbn [mbind option_bind].
    unfold v. rewrite record_seq.
    split; [exact Hall | by apply writers_mono | by etransitivity; [|apply prefix_app_r] | by apply prefix_app_r].
  - destruct Hd as (new & _ & Hn). exists base, (events ++ new). cbn [gu_sends set_field set_gu_disk set_gu_writer].
    split; [|by rewrite <-E3 in Hs]. split; [exact Hn | by apply writers_mono | done | by apply prefix_app_r].
Qed.

(** ** The guard *)

Definition above (events : list value) (n : Z) : Prop :=
  ∀ v m, v ∈ events → seq_of v = Some m → (m < n)%Z.
(** A send of [id] with any later number is excused. *)
Definition may_send (events : list value) (id : str) (policy : RetryOnIndeterminate) (sends : list send) : Prop :=
  ∀ x n, x ∈ sends → sn_id x = id → above events n → excused events x (mkSend id n policy).
Lemma may_send_mono events new id policy sends :
  may_send events id policy sends → may_send (events ++ new) id policy sends.
Proof.
  intros Hm x n Hx Hid Ha. eapply excused_mono; [by apply prefix_app_r|]. apply Hm; [done..|].
  intros v m Hv. apply Ha. set_solver.
Qed.
(** The process has recorded the start, and the send may follow. *)
Definition ready (id : str) (policy : RetryOnIndeterminate) (g : Actor) : Prop :=
  ∃ base events v, sees base events g ∧ sends_ok base (gu_sends g) ∧ v ∈ base ∧
    let y := mkSend id (rs_last_seq (jw_state (gu_writer g))) policy in
    seq_of v = Some (sn_seq y) ∧ op_event_of v = Some (OpStarted id) ∧
    ∀ x, x ∈ gu_sends g → sn_id x = id → excused base x y.

Lemma sees_fold base events g : sees base events g →
  ∃ evs st, base `prefix_of` evs ∧ evs `prefix_of` events ∧ fold_values evs = Ok st ∧
    follows (gc_run_id cx) (jw_state (gu_writer g)) st.
Proof. intros [[_ (_ & _ & evs & st & ? & ? & ? & ? & _)] _ _ _]. by exists evs, st. Qed.
Lemma sees_good base events g : sees base events g → ∃ st, fold_values events = Ok st.
Proof. intros [[[st [Hh _]] _] _ _ _]. exists st. apply (holds_good _ _ _ _ _ Hh). Qed.
Lemma snoc_above events v n st :
  fold_values (events ++ [v]) = Ok st → seq_of v = Some n → above events n.
Proof.
  intros Hf Hn u m (before & after & ->)%list_elem_of_split Hm.
  eapply (seqs_increase _ _ before u (after ++ [v]) v); [exact Hf | by rewrite <-app_assoc | set_solver | done..].
Qed.

Lemma start_ready base events node kind target digest invocation id attempt :
  run_ok (λ g, sees base events g ∧ sends_ok base (gu_sends g) ∧
               may_send events id (retry_of_node node) (gu_sends g))
    (start_fresh su node kind target digest invocation id attempt)
    (λ d g, d = Proceed id ∧ ready id (retry_of_node node) g).
Proof.
  intros g (Hi & Hs & Hm). unfold start_fresh.
  refine (run_bind _ _ _ _ _ (record_durable base events _ _ _ (gu_sends g) _ _ _) _ g _);
    [done | done | done | | done].
  intros [] g1 [E (new & clock & Hall)]. cbn zeta in Hall. split; [done|].
  set (seq := rs_last_seq _) in *. set (v := durable_record _ _ _ _ _) in *.
  destruct (sees_good _ _ _ Hall) as [st Hf].
  assert (Hseq : seq_of v = Some seq) by apply record_seq.
  apply sees_base in Hi. apply (may_send_mono _ new) in Hm.
  exists ((events ++ new) ++ [v]), ((events ++ new) ++ [v]), v. fold seq. rewrite E. split; [done|].
  split; [eapply sends_ok_mono; [|exact Hs]; by do 2 apply prefix_app_r|].
  split; [set_solver|]. cbn zeta. split; [done|]. split.
  - unfold op_event_of, v. rewrite record_kind. cbn [mbind option_bind].
    rewrite str_eqb_refl, record_str by (apply (bool_decide_unpack _); vm_compute; exact I). done.
  - intros x Hx Hid. eapply excused_mono; [by apply prefix_app_r|]. apply Hm; [done..|].
    by eapply snoc_above.
Qed.

Lemma bind_eq {B D} (m : GM B) (k : B → GM D) g :
  (m ≫= k) g = match m g with (g1, Ok x) => k x g1 | (g1, Err e) => (g1, Err e) end.
Proof. done. Qed.

(** Computations that touch neither the journal nor the sends. *)
Definition quiet {B} (m : GM B) : Prop := ∀ g, waits g (m g).1.
Lemma quiet_bind {B D} (m : GM B) (k : B → GM D) : quiet m → (∀ x, quiet (k x)) → quiet (m ≫= k).
Proof.
  intros Hm Hk g. rewrite bind_eq. pose proof (Hm g) as Hg.
  destruct (m g) as [g1 [x|e]]; [|done]. etransitivity; [exact Hg | apply Hk].
Qed.
Lemma quiet_throw {B} e : quiet (throw (A := B) e).
Proof. done. Qed.
Lemma quiet_ret {B} (x : B) : quiet (mret x).
Proof. done. Qed.
Lemma quiet_live : quiet (live su).
Proof. exact live_waits. Qed.
Lemma quiet_actor : quiet the_actor.
Proof. done. Qed.
Lemma quiet_load_spilled node id name : quiet (load_spilled_result su cx node id name).
Proof.
  unfold load_spilled_result. cbn zeta. case_if; [apply quiet_throw|].
  apply quiet_bind; [apply quiet_live|]. intros n. apply quiet_bind; [apply quiet_actor|]. intros g.
  destruct (read_nofollow_bounded _ _ _ _ _); [|apply quiet_throw]. case_if; [apply quiet_throw|].
  destruct (from_slice _); [apply quiet_ret | apply quiet_throw].
Qed.
Lemma quiet_load_record node id record : quiet (load_record su cx node id record).
Proof.
  unfold load_record. destruct record as [r|]; [|apply quiet_ret].
  destruct (or_result r); [apply quiet_ret|]. destruct (or_result_ref r); [|apply quiet_ret].
  apply quiet_bind; [apply quiet_load_spilled | intros v; apply quiet_ret].
Qed.
(** Loading a result changes nothing else of the record. *)
Definition essence (r : OperationRecord) : OperationStatus * str * str :=
  (or_status r, or_digest r, or_invocation r).
Lemma load_record_essence node id record g g' record' :
  load_record su cx node id record g = (g', Ok record') → essence <$> record' = essence <$> record.
Proof.
  unfold load_record. destruct record as [r|]; [|by intros [= _ <-]].
  destruct (or_result r); [by intros [= _ <-]|]. destruct (or_result_ref r); [|by intros [= _ <-]].
  rewrite bind_eq. destruct (load_spilled_result _ _ _ _ _ _) as [g1 [v|]]; [|done].
  by intros [= _ <-].
Qed.
Lemma essence_status (o o' : option OperationRecord) :
  essence <$> o' = essence <$> o → or_status <$> o' = or_status <$> o.
Proof. intros E. destruct o, o'; try done. cbn in *. unfold essence in E. congruence. Qed.

Lemma start_may_send base events node g id record digest :
  sees base events g → sends_ok base (gu_sends g) →
  or_status <$> record = or_status <$> bm_get id (rs_operation_records (jw_state (gu_writer g))) →
  decide_operation_guard record digest (retry_of_node node) = GvStart →
  may_send events id (retry_of_node node) (gu_sends g).
Proof.
  intros Hi Hs Hr Hd x n Hx Hid Ha. destruct (sees_fold _ _ _ Hi) as (evs & st & Hb & He & Hf & Hfol).
  destruct (follows_retag _ _ _ Hfol) as (o & a & E). rewrite E in Hr.
  change (rs_operation_records (retag o a st)) with (rs_operation_records st) in Hr.
  apply (excused_mono evs); [done|]. eapply (sent_excused (gu_sends g) evs st); try done.
  - by eapply sends_ok_mono.
  - cbn [sn_id]. rewrite <-Hr. unfold decide_operation_guard in Hd.
    destruct record as [r|]; cbn; [|set_solver].
    case_if in Hd; [done|]. destruct (or_status r), (retry_of_node node); try done; try set_solver;
      by destruct (or_result r).
  - intros v m Hv. apply Ha. destruct He as [k ->]. set_solver.
Qed.
Lemma repeat_may_send events node g clock seq m id :
  let v := durable_record clock (s"operation_repeated") (gc_run_id cx) seq m in
  sees (events ++ [v]) (events ++ [v]) g → sends_ok events (gu_sends g) →
  retry_of_node node = RetryRepeat → bm_get (s"operation_id") m = Some (VString id) →
  may_send (events ++ [v]) id (retry_of_node node) (gu_sends g).
Proof.
  intros v Hi Hs Hp Hid x n Hx Ex Ha. destruct (sees_good _ _ _ Hi) as [st Hf].
  assert (Hseq : seq_of v = Some seq) by apply record_seq.
  destruct (so_started _ _ Hs x Hx) as (u & Hu & Hn & _).
  exists v, seq. split; [set_solver|]. split; [done|]. split.
  - split; [by eapply (snoc_above events v seq) | eapply (Ha v); [set_solver | done]].
  - right. split; [done|]. split; [apply record_kind|]. unfold v.
    rewrite record_str by (apply (bool_decide_unpack _); vm_compute; exact I). by rewrite Hid.
Qed.

Definition guarded (node : NodeDef) (id : str) (d : GuardDecision) (g : Actor) : Prop :=
  match d with Proceed i => i = id ∧ ready id (retry_of_node node) g | Resend _ _ => gok g end.

(** The guard after the record was read. *)
Lemma verdict_ready base events node kind target digest invocation id attempt record refuse :
  run_ok (λ g, sees base events g ∧ sends_ok base (gu_sends g) ∧
      or_status <$> record = or_status <$> bm_get id (rs_operation_records (jw_state (gu_writer g))))
    (let start := start_fresh su node kind target digest invocation id attempt in
     match decide_operation_guard record digest (retry_of_node node) with
     | GvStart => start
     | GvRepeat =>
         _ ← record_event su node (s"operation_repeated")
               (obj [ (s"node", VString (nd_id node)); (s"operation_id", VString id);
                      (s"attempt", v_num attempt); (s"policy", VString (s"repeat")) ]);
         start
     | GvResend v => mret (Resend id v)
     | GvRefuse reason => throw (refuse reason)
     end)
    (guarded node id).
Proof.
  intros g (Hi & Hs & Hr). cbn zeta.
  assert (Hgok : gok g) by (by exists base, events).
  assert (Hstart : ∀ base events g, sees base events g → sends_ok base (gu_sends g) →
    may_send events id (retry_of_node node) (gu_sends g) →
    match start_fresh su node kind target digest invocation id attempt g with
    | (g', Ok d) => guarded node id d g' | (g', Err _) => gok g' end).
  { intros b evs h H1 H2 H3. pose proof (start_ready b evs node kind target digest invocation id attempt
      h (conj H1 (conj H2 H3))) as Hst. destruct (start_fresh _ _ _ _ _ _ _ _ _) as [g' [d|]]; [|done].
    destruct Hst as [-> Hst]. by split. }
  destruct (decide_operation_guard _ _ _) eqn:Ed; [|  |done..].
  - eapply Hstart; [done..|]. by eapply start_may_send.
  - assert (Hp : retry_of_node node = RetryRepeat).
    { unfold decide_operation_guard in Ed. destruct record as [r|]; [|done]. case_if in Ed; [done|].
      by destruct (or_status r), (or_result r), (retry_of_node node). }
    refine (run_bind _ _ _ _ _ (record_durable base events _ _ _ (gu_sends g) _ _ _) _ g _);
      [done | done | done | | done].
    intros [] g1 [E (new & clock & Hall)]. cbn zeta in Hall. set (v := durable_record _ _ _ _ _) in *.
    rewrite <-E in Hs. apply sees_base in Hi.
    eapply Hstart; [exact Hall | eapply sends_ok_mono; [|exact Hs]; by do 2 apply prefix_app_r |].
    eapply repeat_may_send; [exact Hall | eapply sends_ok_mono; [|exact Hs]; by apply prefix_app_r | done | done].
Qed.

Lemma guard_ready node kind target details invocation :
  run_ok gok (guard_external_operation su cx node kind target details invocation)
    (guarded node (operation_key cx node invocation)).
Proof.
  intros g (base & events & Hi & Hs). unfold guard_external_operation. cbn zeta.
  set (id := operation_key cx node invocation). rewrite bind_eq. cbn [the_state].
  set (st := jw_state (gu_writer g)). rewrite bind_eq.
  pose proof (quiet_load_record node id (bm_get id (rs_operation_records st)) g) as Hw.
  destruct (sees_waits _ _ _ _ Hi Hw) as [new Hi1].
  assert (Hg1 : gok (load_record su cx node id (bm_get id (rs_operation_records st)) g).1)
    by (eapply gok_waits; [|exact Hw]; by exists base, events).
  destruct Hw as [E2 E3 _]. rewrite <-E3 in Hs.
  destruct (load_record _ _ _ _ _ _) as [g1 [record|e]] eqn:El; cbn [fst] in *; [|done].
  apply load_record_essence, essence_status in El. unfold st in *. clear st. rewrite <-E2 in El. clear E2 E3 Hi.
  rewrite bind_eq.
  destruct (check_invocation _ _ _ _) as [g2 res] eqn:Ec.
  assert (g2 = g1) as ->.
  { unfold check_invocation in Ec. destruct record; [|by injection Ec as <-].
    repeat case_if in Ec; by injection Ec as <- _. }
  destruct res as [[]|]; [|done].
  rewrite bind_eq. destruct (checked_add _ _ _) as [n|]; [|done]. cbn [mret gm_ret].
  by apply verdict_ready with (base := base) (events := events ++ new).
Qed.

(** ** The other operations *)

Lemma exact_obj fields : forallb (λ kv, exact_value kv.2) fields = true → exact_value (obj fields) = true.
Proof.
  intros Hf. unfold obj, bm_of_list, bm_extend. cbn [exact_value].
  assert (Hm : forallb (λ kv, exact_value kv.2) ([] : bmap value) = true) by done. revert Hm.
  generalize ([] : bmap value). induction fields as [|[k v] fields IH]; intros m Hm; cbn; [done|].
  cbn in Hf. apply andb_true_iff in Hf as [Hv Hf]. apply IH; [done|]. by apply exact_insert.
Qed.
Lemma run_keeps {B} (m : GM B) Q : run_ok gok m Q → (∀ x g, Q x g → gok g) → keeps m.
Proof. intros Hm HQ g Hg. specialize (Hm g Hg). destruct (m g) as [g' [x|]]; [by eapply HQ | done]. Qed.
Lemma keeps_bind {B D} (m : GM B) (k : B → GM D) : keeps m → (∀ x, keeps (k x)) → keeps (m ≫= k).
Proof. intros Hm Hk. by eapply run_bind. Qed.
Lemma keeps_if {B} (b : bool) (m m' : GM B) : keeps m → keeps m' → keeps (if b then m else m').
Proof. by destruct b. Qed.
Lemma keeps_create_dir fail : keeps (create_dir su fail).
Proof.
  apply keeps_bind; [apply keeps_live|]. intros n.
  destruct (su_dir su n); [apply keeps_throw | apply keeps_ret].
Qed.
Lemma keeps_publish update fail : (∀ g, waits g (update g)) → keeps (publish_sidecar su update fail).
Proof.
  intros Hu. apply keeps_bind; [apply keeps_live|]. intros n. apply keeps_act. intros g.
  destruct (su_publish su n) as [[[] ?]|]; cbn; [apply Hu | done | apply Hu].
Qed.

Lemma run_cache node id v :
  run_ok gok (cache_success_result su cx node id v)
    (λ c g, gok g ∧ (c = (Some v, None) ∨ c = (None, Some (result_name (to_vec v))))).
Proof.
  unfold cache_success_result. cbn zeta. case_if; [intros g Hg; split; [done | by left]|].
  eapply run_bind; [apply keeps_create_dir|]. intros []. case_if; [by intros g|].
  eapply run_bind; [by apply keeps_publish|]. intros [] g Hg. split; [done | by right].
Qed.
Definition exact_outcome (outcome : OperationOutcome) : Prop :=
  match outcome with OutSuccess (Some v) => exact_value v = true | _ => True end.
Lemma keeps_finish node id outcome :
  exact_outcome outcome → keeps (finish_external_operation_with su cx node id outcome).
Proof.
  intros Ho. unfold finish_external_operation_with.
  eapply run_bind with (R := λ x g, gok g ∧ from_option exact_value true x.2.1 = true).
  - destruct outcome as [[v|]| |reason]; [|by intros g Hg..].
    eapply run_bind; [apply run_cache|]. intros c g [Hg Hc]. split; [done|].
    by destruct Hc as [-> | ->].
  - intros [[status reason] [cached ref]] g [Hg Hc]. cbn [fst snd] in *. revert g Hg.
    apply keeps_record. right. split; [done|]. apply exact_obj. rewrite !forallb_app.
    apply andb_true_iff. split; [done|]. rewrite !andb_true_iff.
    destruct reason, cached, ref; cbn in Hc |- *; by rewrite ?andb_true_r.
Qed.
Lemma keeps_warn node id outcome :
  exact_outcome outcome → keeps (finish_external_operation_with_warn su cx node id outcome).
Proof.
  intros Ho. apply keeps_bind; [by apply keeps_attempt, keeps_finish | intros; apply keeps_ret].
Qed.
Lemma exact_gateway e b : exact_outcome (gateway_outcome e b).
Proof. destruct e, b; try done. cbn. by case_if. Qed.
Lemma keeps_gateway_error node id e : keeps (side_effecting_gateway_error su cx node id e).
Proof.
  apply keeps_bind; [|intros; apply keeps_ret]. destruct e; try apply keeps_ret;
    (apply keeps_warn; apply exact_gateway).
Qed.

(** The request is handed over once the guard let it pass. *)
Lemma run_hand_over node id w :
  run_ok (λ g, ready id (retry_of_node node) g ∧ gu_writer g = w) (hand_over su node id)
    (λ _ g, gok g ∧ gu_writer g = w).
Proof.
  intros g [(base & events & v & Hi & Hs & Hv & Hn & Hev & Hx) Ew]. unfold hand_over. rewrite bind_eq.
  pose proof (live_waits g) as Hw. destruct (sees_waits _ _ _ _ Hi Hw) as [new Hi1]. destruct Hw as [E2 E3 _].
  destruct (live su g) as [g1 [n|e]]; cbn [fst] in *; [|by exists base, (events ++ new); rewrite E3].
  split; [|cbn; congruence]. exists base, (events ++ new). split; [by destruct Hi1; split|].
  cbn [gu_sends set_field set_gu_sends]. rewrite E2, E3. by eapply sends_ok_snoc.
Qed.
Lemma keeps_operate ser de corrupt node kind target details invocation :
  (∀ x, exact_value (ser x) = true) →
  keeps (operate su cx ser de corrupt node kind target details invocation).
Proof.
  intros Hser. eapply run_bind; [apply guard_ready|]. intros [i|i v].
  - set (id := operation_key cx node invocation). intros g [-> Hg]. revert g Hg.
    change (run_ok (ready id (retry_of_node node))
      (hand_over su node id ≫= λ answer, match answer with
         | Ok output => finish_external_operation su cx node id (Some (ser output)) ≫= λ _,
                          mret (output, Some id)
         | Err e => side_effecting_gateway_error su cx node id e ≫= λ error, throw error
         end) (λ _, gok)).
    eapply run_bind with (R := λ _, gok).
    { intros g Hg. pose proof (run_hand_over node id (gu_writer g) g (conj Hg eq_refl)) as Hh.
      destruct (hand_over _ _ _ _) as [g' []]; [by apply Hh | done]. }
    intros [output|e].
    + apply keeps_bind; [by apply keeps_finish, Hser | intros; apply keeps_ret].
    + apply keeps_bind; [apply keeps_gateway_error | intros; apply keeps_throw].
  - cbn [guarded]. destruct (de v); [apply keeps_ret | apply keeps_throw].
Qed.
Lemma keeps_side_effect node kind target details decision policy more :
  keeps (side_effect_event su node kind target details decision policy more).
Proof. apply keeps_record. by left. Qed.
Lemma keeps_require node kind target details invocation :
  keeps (require_side_effect su cx node kind target details invocation).
Proof.
  unfold require_side_effect. cbn zeta. destruct (gc_side_effects cx).
  2,3: apply keeps_if; [apply keeps_bind; [apply keeps_side_effect | intros; apply keeps_ret]|].
  1,4: apply keeps_bind; [apply keeps_side_effect | intros []; apply keeps_throw || apply keeps_ret].
  all: apply keeps_bind; [first [apply keeps_ret | apply keeps_record; by left]|]; intros [];
    (apply keeps_bind; [apply keeps_side_effect | intros; apply keeps_ret]).
Qed.
End process.

(** ** The record of an operation *)

Section record_of.
Context {W : WireTypes}.
Implicit Types (st : RunState) (v : value).

Lemma note_table st kind v : table (note_search_cost st kind v) = table st.
Proof. unfold note_search_cost. by case_if. Qed.
Lemma started_record st st' v id digest invocation :
  RunState.apply st v = Ok st' → get_str (s"t") v = Some (s"operation_started") →
  get_str (s"operation_id") v = Some id → get_str (s"operation_digest") v = Some digest →
  get_str (s"invocation_id") v = Some invocation →
  let old := bm_get id (rs_operation_records st) in
  ∃ record, bm_get id (rs_operation_records st') = Some record ∧ or_status record = Started ∧
    or_digest record = from_option or_digest digest old ∧
    or_invocation record = from_option or_invocation invocation old.
Proof.
  intros Ha Ht Hid Hd Hi old. pose proof (apply_arm _ _ _ _ Ha Ht) as Hk.
  set (st0 := note_search_cost _ _ _) in Hk.
  assert (Et : table st0 = table st) by (unfold st0; by rewrite note_table).
  pose proof (f_equal fst Et : rs_operation_records st0 = rs_operation_records st) as E. clearbody st0.
  change (apply_operation_started st0 v = Ok st') in Hk. unfold apply_operation_started in Hk.
  rewrite Hid, Hd, Hi in Hk. apply result_bind_Ok in Hk as (d & Ed & Hk). apply Ok_inj in Ed as <-.
  apply result_bind_Ok in Hk as (i & Ei & Hk). apply Ok_inj in Ei as <-.
  apply result_bind_Ok in Hk as (n & _ & Hk). apply Ok_inj in Hk. subst st'.
  eexists. split; [apply bm_get_insert_eq|]. split; [done|]. rewrite E. fold old.
  by destruct old.
Qed.
Lemma finished_record st st' v id :
  RunState.apply st v = Ok st' → get_str (s"t") v = Some (s"operation_finished") →
  get_str (s"operation_id") v = Some id → get_str (s"status") v = Some (s"success") →
  get_str (s"operation_digest") v = None →
  let old := bm_get id (rs_operation_records st) in
  ∃ record, bm_get id (rs_operation_records st') = Some record ∧ or_status record = OpSucceeded ∧
    or_digest record = from_option or_digest [] old ∧
    or_invocation record = from_option or_invocation [] old ∧
    or_result record = get (s"result") v ∧ or_result_ref record = get_str (s"result_ref") v.
Proof.
  intros Ha Ht Hid Hs Hd old. pose proof (apply_arm _ _ _ _ Ha Ht) as Hk.
  set (st0 := note_search_cost _ _ _) in Hk.
  assert (Et : table st0 = table st) by (unfold st0; by rewrite note_table).
  pose proof (f_equal fst Et : rs_operation_records st0 = rs_operation_records st) as E. clearbody st0.
  change (apply_kind st0 _ v) with (Ok (E := JournalError) (apply_operation_finished st0 v)) in Hk. apply Ok_inj in Hk as <-.
  unfold apply_operation_finished, finished_outcome. rewrite Hid, Hs, str_eqb_refl, Hd.
  eexists. split; [apply bm_get_insert_eq|]. rewrite E. fold old. by destruct old.
Qed.
End record_of.
