(* ===== verification/GuardSystem.v ===== *)
(** * The guard as a system

    One process acts on the outside world for a run (it holds the execution
    lock); it may stop anywhere and be started again.  Other processes append to
    the journal between any two of its effects, and between its calls the sidecar
    files may change arbitrarily. *)

From S2P Require Import Prelude Str BMap Sorting Json Serde Events ValueBag RunState RunStateEffect RunStateInv RunStateOps RunStateFrame AuditRules TraceIds JournalFile JournalLines JournalRepair JournalWriter JournalSafety JournalSystem Graph EngineTypes EngineWorld EngineFold Guard GuardSpec.
From stdpp Require Import relations.

#[local] Arguments s : simpl never.

Lemma exact_bytes `{SerdeJson} b : exact_value (ser_bytes b) = true.
Proof. unfold ser_bytes. cbn [exact_value]. induction b; [done|]. by cbn. Qed.
Lemma exact_http_output `{SerdeJson} o : exact_value (ser_http_output o) = true.
Proof.
  apply exact_obj. cbn [forallb snd]. rewrite exact_bytes. cbn.
  assert (forallb (λ kv, exact_value kv.2) (map (λ '(k, v), (k, VString v)) (ho_headers o)) = true) as ->.
  { induction (ho_headers o) as [|[k v] l IH]; [done|]. by cbn. }
  by destruct (ho_content_type o).
Qed.
Lemma exact_command_output `{SerdeJson} o : exact_value (ser_command_output o) = true.
Proof.
  apply exact_obj. cbn [forallb snd]. rewrite !exact_bytes. unfold v_int. by case_if.
Qed.

Section system.
Context {W : WireTypes} {SJ : SerdeJson} {SL : SerdeJsonLaws} {C : StateCodec} {H : Sha256}.
Context {CL : StateCodecLaws} {HB : Sha256Bytes} {M : Messages} {G : GuardTexts}.
Variables (L : JournalLimits) (cx : GuardContext).
Notation r := (gc_run_id cx).
Notation others_ok su := (others_ok su cx L).

(** The process makes a call, in whose course other processes use the run
    directory before each of its effects; or something happens between its
    calls: the files change, another process takes a step, it stops, it is
    started again. *)
Inductive site_step (g : Actor) : Actor → Prop :=
| SiteHttp su node method url journal_url headers body sensitive :
    others_ok su →
    site_step g (http_exchange cx su node method url journal_url headers body sensitive g).1
| SiteCommand su node command target plan input :
    others_ok su → site_step g (command_exchange cx su node command target plan input g).1
| SiteOperate {A} (su : Surroundings A) ser de corrupt node kind target details invocation :
    others_ok su → (∀ x, exact_value (ser x) = true) →
    site_step g (operate su cx ser de corrupt node kind target details invocation g).1
| SiteFinish {A} (su : Surroundings A) node id outcome :
    others_ok su → exact_outcome outcome →
    site_step g (finish_external_operation_with su cx node id outcome g).1
| SiteRecord {A} (su : Surroundings A) node kind payload :
    others_ok su → event_class kind = Observation ∨ is_object payload = true ∧ exact_value payload = true →
    site_step g (record_event su node kind payload g).1
| SiteFiles results payloads :
    site_step g (g <| gu_results := results |> <| gu_payloads := payloads |>)
| SitePeers d peers :
    system_step L r (mkSystem (gu_disk g) (gu_peers g)) (mkSystem d peers) →
    site_step g (g <| gu_disk := d |> <| gu_peers := peers |>)
| SiteStop : site_step g (g <| gu_alive := false |>)
| SiteRestart policy alimits d w :
    create_with_policies (gu_disk g) r L policy alimits = (d, Ok w) →
    site_step g (g <| gu_disk := d |> <| gu_writer := w |> <| gu_alive := true |>).

(** The journal holds [events], of which the process has seen [floor] and the
    start of everything it sent. *)
Definition site_ok (floor events : list value) (g : Actor) : Prop :=
  ∃ base, sees cx L [] floor base events g ∧ sends_ok base (gu_sends g).

Lemma sees_origin floor base events g : sees cx L [] floor base events g →
  sees cx L events floor base events g.
Proof. intros []. by split. Qed.
(** What the process itself does. *)
Lemma actor_step {A} floor events g (m : GM A) :
  site_ok floor events g →
  (∀ origin, run_ok cx L origin floor (gok cx L origin floor) m (λ _, gok cx L origin floor)) →
  ∃ new, site_ok floor (events ++ new) (m g).1.
Proof.
  intros (base & Hi%sees_origin & Hs) Hm. specialize (Hm events g).
  assert (gok cx L events floor (m g).1) as (base' & events' & [Hi' Hp' Hf' [new ->]] & Hs').
  { destruct (m g) as [g' [x|e]]; apply Hm; by exists base, events. }
  exists new, base'. split; [|done]. split; [done..|apply prefix_nil].
Qed.

Section keeping.
Variables origin floor : list value.
Notation keeps m := (run_ok cx L origin floor (gok cx L origin floor) m (λ _, gok cx L origin floor)).

Lemma keeps_invocation node : keeps (execution_invocation node).
Proof. apply keeps_bind; [apply keeps_state | intros; apply keeps_ret]. Qed.
Lemma keeps_http su node method url journal_url headers body sensitive : others_ok su →
  keeps (http_exchange cx su node method url journal_url headers body sensitive).
Proof.
  intros Hsu. unfold http_exchange. cbn zeta. apply keeps_bind; [apply keeps_invocation|]. intros invocation.
  apply keeps_bind; [apply keeps_if; [apply keeps_ret | by apply keeps_require]|].
  intros [c|]; [apply keeps_ret|]. apply keeps_if.
  - apply keeps_bind; [by apply keeps_live|]. intros n.
    destruct (su_answer su n); [apply keeps_ret | apply keeps_throw].
  - apply keeps_bind; [apply keeps_operate; [done | apply exact_http_output]|]. intros []. apply keeps_ret.
Qed.
Lemma keeps_command su node command target plan input : others_ok su →
  keeps (command_exchange cx su node command target plan input).
Proof.
  intros Hsu. unfold command_exchange. cbn zeta. apply keeps_bind; [apply keeps_invocation|]. intros invocation.
  apply keeps_bind; [apply keeps_hoist|]. intros details.
  apply keeps_bind; [by apply keeps_require|]. intros [c|]; [apply keeps_ret|].
  apply keeps_bind; [apply keeps_operate; [done | apply exact_command_output]|]. intros [output sent].
  apply keeps_if; [apply keeps_ret|].
  apply keeps_bind; [|intros; apply keeps_throw].
  destruct sent; [by apply keeps_warn | apply keeps_ret].
Qed.
End keeping.

Lemma site_step_ok floor events g g' :
  site_ok floor events g → site_step g g' → ∃ new, site_ok floor (events ++ new) g'.
Proof.
  intros Hok Hst. pose proof Hok as (base & Hi & Hs).
  destruct Hst as [| | | | |results payloads|d peers Hd| |policy alimits d w Hc].
  - eapply actor_step; [done|]. intros. by apply keeps_http.
  - eapply actor_step; [done|]. intros. by apply keeps_command.
  - eapply actor_step; [done|]. intros. by apply keeps_operate.
  - eapply actor_step; [done|]. intros. by apply keeps_finish.
  - eapply actor_step; [done|]. intros. by apply keeps_record.
  - exists []. rewrite app_nil_r. exists base. split; [by destruct Hi; split | exact Hs].
  - destruct (sees_waits cx L [] floor base events g (g <| gu_disk := d |> <| gu_peers := peers |>) Hi)
      as [new Hi']; [split; [done..|by apply rtc_once]|]. exists new, base. by split.
  - exists []. rewrite app_nil_r. exists base. split; [by destruct Hi; split | exact Hs].
  - pose proof (sees_base _ _ _ _ _ _ _ Hi) as Hbe. destruct Hi as [[[st Hdisk] _] Hp Hf Ho].
    destruct (create_safe L r base _ _ _ _ _ _ _ Hdisk Hc) as [Hdisk' Hw].
    exists []. rewrite app_nil_r. exists base. split; [|done]. split; [|done..].
    split; [by exists st|]. by apply Hw.
Qed.
Lemma site_steps_ok floor events g g' :
  site_ok floor events g → rtc site_step g g' → ∃ new, site_ok floor (events ++ new) g'.
Proof.
  intros Hok Hst. revert events Hok. induction Hst as [g|g g1 g2 Hst _ IH]; intros events Hok.
  - exists []. by rewrite app_nil_r.
  - destruct (site_step_ok _ _ _ _ Hok Hst) as [n1 Hok1]. destruct (IH _ Hok1) as [n2 Hok2].
    exists (n1 ++ n2). by rewrite app_assoc.
Qed.
Lemma site_reads floor events g : site_ok floor events g →
  ∃ stats, read_journal_values (dk_journal (gu_disk g)) L = Ok (mkJournalScan events stats).
Proof. intros (base & [[[st [Hh _]] _] _ _ _] & _). by eapply holds_read. Qed.

(** C4: an external operation is sent at most once, except as recorded.
    One process acts for a run: it makes HTTP and command steps, other guarded
    calls and records, of outputs and records whose doubles are read back from
    JSON as themselves.  Before every single effect of these calls (a record, a
    file operation, the request itself) any number of other processes may append
    to the journal, open writers on it and disappear; every write may be cut at
    any byte; the process may stop at any effect and be started again; and
    between its calls the sidecar files may change arbitrarily.  Then, whenever
    one operation id was handed to a gateway twice, the journal on disk holds,
    between the start records of the two sends, a report that the operation
    failed without effect, or the record that the second one repeats it, which
    the guard writes only for a node whose retry policy is [repeat].  The journal
    holds the start record of every send. *)
Theorem sent_at_most_once events g g' :
  site_ok [] events g → rtc site_step g g' →
  ∃ journal stats,
    read_journal_values (dk_journal (gu_disk g')) L = Ok (mkJournalScan journal stats) ∧
    (∀ x, x ∈ gu_sends g' → ∃ v, v ∈ journal ∧ seq_of v = Some (sn_seq x) ∧
       op_event_of v = Some (OpStarted (sn_id x))) ∧
    (∀ l1 x l2 y l3, gu_sends g' = l1 ++ x :: l2 ++ y :: l3 → sn_id x = sn_id y →
       excused journal x y).
Proof.
  intros Hok Hst. destruct (site_steps_ok _ _ _ _ Hok Hst) as [new Hok'].
  destruct (site_reads _ _ _ Hok') as [stats Hr]. exists (events ++ new), stats. split; [done|].
  destruct Hok' as (base & Hi & Hs).
  apply (sends_ok_mono _ (events ++ new)) in Hs as []; [done | by eapply sees_base].
Qed.
End system.

(** ** The recorded result *)

Section resend.
Context {W : WireTypes} {SJ : SerdeJson} {SL : SerdeJsonLaws} {C : StateCodec} {H : Sha256}.
Context {CL : StateCodecLaws} {HB : Sha256Bytes} {M : Messages} {G : GuardTexts}.
Context {A : Type}.
Variables (L : JournalLimits) (cx : GuardContext).
Implicit Types (g : Actor) (su : Surroundings A).

Notation gok := (gok cx L [] []).
Notation run_ok := (run_ok cx L [] []).
Notation waits := (waits cx L).
Notation others_ok su := (others_ok su cx L).
Definition record_of g (id : str) : option OperationRecord :=
  bm_get id (rs_operation_records (jw_state (gu_writer g))).

(** The state of a writer is that of a part of the journal. *)
Lemma sees_records floor base events g : sees cx L [] floor base events g →
  ∃ evs st, base `prefix_of` evs ∧ evs `prefix_of` events ∧ fold_values evs = Ok st ∧
    rs_operation_records (jw_state (gu_writer g)) = rs_operation_records st.
Proof.
  intros (evs & st & Hb & He & Hf & Hfol)%sees_fold. exists evs, st. split_and!; [done..|].
  destruct (follows_retag _ _ _ Hfol) as (o & a & E). by rewrite E.
Qed.
(** The writer has just seen all of the journal, and the record satisfies [R]. *)
Definition settled (id : str) (R : option OperationRecord → Prop) g : Prop :=
  ∃ events, sees cx L [] [] events events g ∧ sends_ok events (gu_sends g) ∧ R (record_of g id).

(** A record the process writes is applied to the journal as it then is. *)
Lemma record_settled su node kind m id (R : option OperationRecord → Prop) : others_ok su →
  event_class kind = Durable → is_terminal_event_kind kind = false → exact_value (VObject m) = true →
  (∀ st st' v, RunState.apply st v = Ok st' → get_str (s"t") v = Some kind →
     (∀ key, key ∉ stamp_keys → get key v = bm_get key m) → R (bm_get id (rs_operation_records st'))) →
  run_ok gok (record_event su node kind (VObject m)) (λ _, settled id R).
Proof.
  intros Hsu Hk Ht Hm HR g (base & events & Hi & Hs).
  pose proof (record_durable su cx L Hsu [] [] base events node kind m (gu_sends g) Hk Ht Hm g
    (conj Hi (conj Hs eq_refl))) as Hd.
  destruct (record_event _ _ _ _ _) as [g' [[]|e]]; [|done]. destruct Hd as [E (new & clock & Hall)].
  cbn zeta in Hall. set (v := durable_record _ _ _ _ _) in *. set (all := (events ++ new) ++ [v]) in *.
  exists all. split; [done|]. split.
  { rewrite E. eapply sends_ok_mono; [|exact Hs]. do 2 apply prefix_app_r. by eapply sees_base. }
  destruct (sees_records _ _ _ _ Hall) as (evs & st' & Hb & He & Hf' & Er').
  apply (anti_symm prefix) in Hb; [|done]. subst evs.
  apply fold_values_snoc in Hf' as (st0 & Hf0 & (e & _ & Ha)%fold_step_Ok).
  unfold record_of. rewrite Er'. eapply HR; [exact Ha | apply record_kind |].
  intros key Hkey. by apply record_get.
Qed.

(** The operation is known with this content and invocation. *)
Definition known (digest invocation : str) (o : option OperationRecord) : Prop :=
  ∃ record, o = Some record ∧ or_digest record = digest ∧ or_invocation record = invocation.

(** What the record keeps of a result. *)
Definition keeps_result (v : value) (r : OperationRecord) : Prop :=
  or_result r = Some v ∧ (zlen (to_vec v) ≤ OPERATION_RESULT_MAX_BYTES)%Z ∨
  or_result r = None ∧ or_result_ref r = Some (result_name (to_vec v)) ∧
  (OPERATION_RESULT_MAX_BYTES < zlen (to_vec v))%Z.
Definition succeeded (v : value) (o : option OperationRecord) : Prop :=
  ∃ r, o = Some r ∧ or_status r = OpSucceeded ∧ keeps_result v r.

Lemma cache_result su node id v g g' c :
  cache_success_result su cx node id v g = (g', Ok c) →
  c = (Some v, None) ∧ (zlen (to_vec v) ≤ OPERATION_RESULT_MAX_BYTES)%Z ∨
  c = (None, Some (result_name (to_vec v))) ∧ (OPERATION_RESULT_MAX_BYTES < zlen (to_vec v))%Z.
Proof.
  unfold cache_success_result. cbn zeta. case_if.
  { intros [= _ <-]. left. split; [done|]. by apply Z.leb_le. }
  rewrite bind_eq. destruct (create_dir _ _ _) as [g1 [[]|]]; [|done].
  case_if; [done|]. rewrite bind_eq. destruct (publish_sidecar _ _ _ _) as [g2 [[]|]]; [|done].
  intros [= _ <-]. right. split; [done|]. by apply Z.leb_gt.
Qed.
Lemma finish_known su node id v : others_ok su → exact_value v = true →
  run_ok gok (finish_external_operation su cx node id (Some v)) (λ _, settled id (succeeded v)).
Proof.
  intros Hsu Hv g Hg. unfold finish_external_operation, finish_external_operation_with.
  rewrite bind_eq. rewrite bind_eq. pose proof (run_cache su cx L Hsu [] [] node id v g Hg) as Hc.
  destruct (cache_success_result _ _ _ _ _ _) as [g1 [[cached ref]|e]] eqn:Ec; [|done].
  destruct Hc as [Hg1 _]. apply cache_result in Ec. cbn [mret gm_ret fst snd app].
  refine (record_settled su node _ _ id (succeeded v) Hsu _ _ _ _ g1 Hg1);
    [done | done | apply exact_obj; destruct Ec as [[[= -> ->] _]|[[= -> ->] _]]; cbn; by rewrite ?Hv |].
  intros st st' u Ha Ht Hget.
  destruct (finished_record st st' u id Ha Ht) as (r & Hr & Hst & _ & _ & Hres & Href);
    [unfold get_str; rewrite Hget by (apply (bool_decide_unpack _); vm_compute; exact I);
     by destruct Ec as [[[= -> ->] _]|[[= -> ->] _]]..|].
  exists r. split; [done|]. split; [done|].
  unfold get_str in Href. rewrite Hget in Hres, Href by (apply (bool_decide_unpack _); vm_compute; exact I).
  destruct Ec as [[[= -> ->] Hl]|[[= -> ->] Hl]]; [left | right]; by rewrite Hres, ?Href.
Qed.

(** A call that was answered has recorded its answer. *)
Lemma operate_known su ser de corrupt node kind target details invocation : others_ok su →
  (∀ x, exact_value (ser x) = true) →
  run_ok gok (operate su cx ser de corrupt node kind target details invocation)
    (λ r g, let id := operation_key cx node invocation in
            ∀ i, r.2 = Some i → i = id ∧ settled id (succeeded (ser r.1)) g).
Proof.
  intros Hsu Hser g Hg. unfold operate. rewrite bind_eq.
  pose proof (guard_ready su cx L Hsu [] [] node kind target details invocation g Hg) as Hr.
  set (id := operation_key cx node invocation) in *.
  destruct (guard_external_operation _ _ _ _ _ _ _ _) as [g1 [[i|i v]|e]]; [| |done].
  2:{ destruct (de v); [done|]. exact Hr. }
  destruct Hr as [-> Hr]. rewrite bind_eq.
  pose proof (run_hand_over su cx L Hsu [] [] node id (gu_writer g1) g1 (conj Hr eq_refl)) as Hh.
  destruct (hand_over _ _ _ _) as [g2 [[output|e]|e]]; [| |done]; rewrite bind_eq; destruct Hh as [Hg2 _].
  - pose proof (finish_known su node id (ser output) Hsu (Hser output) g2 Hg2) as Hf.
    destruct (finish_external_operation _ _ _ _ _ _) as [g3 [[]|e]]; [|done].
    cbn. intros i [= <-]. by split.
  - pose proof (keeps_gateway_error su cx L Hsu [] [] node id e g2 Hg2) as He.
    by destruct (side_effecting_gateway_error _ _ _ _ _ _) as [g3 []].
Qed.

(** As long as nothing is recorded about the operation, its record stays in the
    memory of the process, restarts included. *)
Lemma settled_stays id R g1 g2 later J s1 s2 :
  settled id R g1 → rtc (site_step L cx) g1 g2 →
  read_journal_values (dk_journal (gu_disk g1)) L = Ok (mkJournalScan J s1) →
  read_journal_values (dk_journal (gu_disk g2)) L = Ok (mkJournalScan (J ++ later) s2) →
  (∀ v, v ∈ later → op_subject v ≠ Some id) → R (record_of g2 id).
Proof.
  intros (events & Hi & Hs & HR) Hst R1 R2 Hlater.
  assert (Hok : site_ok L cx events events g1).
  { exists events. split; [|done]. destruct Hi. by split. }
  destruct (site_reads _ _ _ _ _ Hok) as [stats E1]. rewrite R1 in E1. injection E1 as -> _.
  destruct (site_steps_ok _ _ _ _ _ _ Hok Hst) as [new Hok2].
  destruct (site_reads _ _ _ _ _ Hok2) as [stats2 E2]. rewrite R2 in E2. injection E2 as E2 _.
  apply app_inv_head in E2 as ->. destruct Hok2 as (base & Hi2 & _).
  destruct (sees_records _ _ _ _ Hi) as (evs1 & st1 & B1 & P1 & F1 & T1).
  apply (anti_symm prefix) in B1; [|done]. subst evs1.
  destruct (sees_records _ _ _ _ Hi2) as (evs & st & B2 & P2 & F2 & T2).
  assert (Hp : events `prefix_of` evs) by (etransitivity; [apply (se_floor _ _ _ _ _ _ _ Hi2) | done]).
  destruct Hp as [part ->]. destruct P2 as [rest P2]. rewrite <-app_assoc in P2.
  apply app_inv_head in P2 as ->.
  unfold record_of in *. rewrite T2, (fold_record_kept _ _ _ _ id F1 F2), <-T1; [done|].
  intros v Hv. apply Hlater. set_solver.
Qed.

(** ** Answering from the record *)

Context {HL : Sha256BytesLaws}.

Lemma trim_result_name b : trim_json (result_name b) = sha256_bytes_hex b.
Proof.
  unfold trim_json, result_name. rewrite length_app, Nat.add_comm.
  change (length (s".json")) with 5. cbn [Nat.add trim_json_go].
  assert (∀ x, Str.strip_suffix (s".json") (x ++ s".json") = Some x) as -> by (intros; by apply strip_suffix_Some).
  assert (Hn : Str.strip_suffix (s".json") (sha256_bytes_hex b) = None).
  { destruct (Str.strip_suffix _ _) as [x|] eqn:E; [|done]. apply strip_suffix_Some in E.
    destruct (sha256_bytes_form b) as [_ Hf]. rewrite E in Hf. apply Forall_app in Hf as [_ Hf].
    by apply Forall_inv in Hf. }
  by rewrite Hn.
Qed.

(** No other contents with the digest of the result lies in its place. *)
Definition no_collision (b : bytes) (files : bmap bytes) : Prop :=
  ∀ b', bm_get (result_name b) files = Some b' → sha256_bytes_hex b' = sha256_bytes_hex b → b' = b.

Lemma load_recorded su node id v g g' r :
  event_value v → no_collision (to_vec v) (gu_results g) →
  load_spilled_result su cx node id (result_name (to_vec v)) g = (g', Ok r) → r = v.
Proof.
  intros Hv Hn. unfold load_spilled_result. cbn zeta. case_if; [done|]. rewrite bind_eq.
  destruct (live su g) as [g1 [n|]] eqn:El; [|done]. rewrite bind_eq. cbn [the_actor].
  assert (gu_results g1 = gu_results g) as ->.
  { unfold live in El. destruct (su_others _ _ _). repeat case_if in El; by injection El as <- _. }
  unfold read_nofollow_bounded. destruct (su_read su n); [done|].
  destruct (bm_get _ _) as [b|] eqn:Eb; [|done]. case_if; [done|]. rewrite trim_result_name.
  destruct (str_eqb_spec (sha256_bytes_hex b) (sha256_bytes_hex (to_vec v))) as [Es|]; [|done].
  cbn [negb]. rewrite (Hn b Eb Es), from_to_vec by done. by intros [= _ <-].
Qed.
Lemma load_record_recorded su node id v r g g' record :
  event_value v → no_collision (to_vec v) (gu_results g) → keeps_result v r →
  load_record su cx node id (Some r) g = (g', Ok record) →
  ∃ r', record = Some r' ∧ essence r' = essence r ∧ or_result r' = Some v.
Proof.
  intros Hv Hn Hk. unfold load_record. destruct Hk as [[E _]|(E & Er & _)]; rewrite E.
  - intros [= _ <-]. by exists r.
  - rewrite Er, bind_eq. destruct (load_spilled_result _ _ _ _ _ _) as [g1 [v'|]] eqn:El; [|done].
    apply load_recorded in El as ->; [|done..]. intros [= _ <-]. by eexists.
Qed.
Lemma guard_resends su node kind target details invocation v g g' res : others_ok su →
  let id := operation_key cx node invocation in
  succeeded v (record_of g id) →
  event_value v → no_collision (to_vec v) (gu_results g) →
  guard_external_operation su cx node kind target details invocation g = (g', res) →
  waits g g' ∧ (∀ d, res = Ok d → d = Resend id v) ∧
  (known (operation_digest target details) invocation (record_of g id) →
   (zlen (to_vec v) ≤ OPERATION_RESULT_MAX_BYTES)%Z → invocation ≠ [] →
   (0 ≤ default 0 (bm_get id (rs_operation_attempts (jw_state (gu_writer g)))) < U32_MAX)%Z →
   res = Ok (Resend id v)).
Proof.
  intros Hsu id (r & Er & Hst & Hk) Hv Hn. unfold guard_external_operation. cbn zeta. fold id.
  rewrite bind_eq. cbn [the_state]. rewrite bind_eq. change (bm_get id (rs_operation_records _))
    with (record_of g id). rewrite Er. unfold known.
  pose proof (quiet_load_record su cx L Hsu node id (Some r) g) as Hq.
  destruct (load_record _ _ _ _ _ _) as [g1 [record|e]] eqn:El; cbn [fst] in Hq.
  2:{ intros [= <- <-]. split; [done|]. split; [done|]. intros _ Hl. unfold load_record in El.
      destruct Hk as [[E _]|(_ & _ & Hl')]; [by rewrite E in El | lia]. }
  apply (load_record_recorded _ _ _ v) in El as (r' & -> & E & Hr'); [|done..].
  unfold essence in E. injection E as E1 E2 E3. rewrite bind_eq. unfold check_invocation.
  rewrite E3. case_bool_decide as Hempty.
  { intros [= <- <-]. split; [done|]. split; [done|]. intros (? & [= <-] & _ & Hi) _ Hne. congruence. }
  destruct (str_eqb_spec (or_invocation r) invocation) as [Hi|Hi]; cbn [negb].
  2:{ intros [= <- <-]. split; [done|]. split; [done|]. by intros (? & [= <-] & _ & ?). }
  cbn [mret gm_ret]. rewrite bind_eq. destruct (checked_add _ _ _) as [n|] eqn:Ea.
  - cbn [mret gm_ret]. unfold decide_operation_guard. rewrite E2, E1, Hst, Hr'.
    destruct (str_eqb_spec (or_digest r) (operation_digest target details)) as [Hd|Hd]; cbn [negb].
    + intros [= <- <-]. split; [done|]. split; [by intros d [= <-] | done].
    + intros [= <- <-]. split; [done|]. split; [done|]. by intros (? & [= <-] & ? & _).
  - intros [= <- <-]. split; [done|]. split; [done|]. intros _ _ _ Ha.
    rewrite checked_add_ok in Ea by (unfold U32_MAX in *; lia). done.
Qed.

(** C5: a repeated call returns the recorded output and sends nothing.  A
    guarded call, whose outputs are objects whose doubles are read back from
    JSON as themselves, was answered and its output recorded.  Anything may
    happen then: further calls, stops, restarts, records of other processes and
    changes to the sidecar files, as long as no record about this operation is
    added to the journal.  When the same invocation is made again, the process
    hands nothing to the gateway and writes nothing (only other processes act
    meanwhile), and the call returns exactly the first output or fails, provided
    the output decodes from its own serialization and its sidecar was not
    replaced by other bytes with the same digest.  It does not fail if the record
    of the operation the process has in memory names this content and this
    invocation, the invocation is not the empty string, the output is small
    enough to lie in the journal, and the attempts are not used up. *)
Theorem resend_returns_recorded su1 su2 ser de corrupt node kind target details invocation
    g g1 g2 g3 output id res events J later s1 s2 :
  others_ok su1 → others_ok su2 →
  (∀ x, event_value (ser x)) → de (ser output) = Some output → site_ok L cx [] events g →
  operate su1 cx ser de corrupt node kind target details invocation g = (g1, Ok (output, Some id)) →
  rtc (site_step L cx) g1 g2 →
  read_journal_values (dk_journal (gu_disk g1)) L = Ok (mkJournalScan J s1) →
  read_journal_values (dk_journal (gu_disk g2)) L = Ok (mkJournalScan (J ++ later) s2) →
  (∀ v, v ∈ later → op_subject v ≠ Some id) →
  no_collision (to_vec (ser output)) (gu_results g2) →
  operate su2 cx ser de corrupt node kind target details invocation g2 = (g3, res) →
  gu_sends g3 = gu_sends g2 ∧ gu_writer g3 = gu_writer g2 ∧
  rtc (system_step L (gc_run_id cx)) (mkSystem (gu_disk g2) (gu_peers g2))
    (mkSystem (gu_disk g3) (gu_peers g3)) ∧
  (∀ x, res = Ok x → x = (output, None)) ∧
  (known (operation_digest target details) invocation (record_of g2 id) →
   (zlen (to_vec (ser output)) ≤ OPERATION_RESULT_MAX_BYTES)%Z → invocation ≠ [] →
   (0 ≤ default 0 (bm_get id (rs_operation_attempts (jw_state (gu_writer g2)))) < U32_MAX)%Z →
   res = Ok (output, None)).
Proof.
  intros Hsu1 Hsu2 Hser Hde (base & Hi & Hs) Ho Hst R1 R2 Hlater Hn.
  pose proof (operate_known su1 ser de corrupt node kind target details invocation Hsu1
    (λ x, proj2 (Hser x)) g (ex_intro _ base (ex_intro _ events (conj Hi Hs)))) as Hk. rewrite Ho in Hk.
  destruct (Hk id eq_refl) as [-> Hset]. cbn [fst] in Hset. clear Hk Ho Hi Hs.
  pose proof (settled_stays _ _ _ _ _ _ _ _ Hset Hst R1 R2 Hlater) as Hrec.
  unfold operate. rewrite bind_eq. set (id := operation_key cx node invocation) in *.
  destruct (guard_external_operation _ _ _ _ _ _ _ _) as [g' r] eqn:Eg.
  destruct (guard_resends _ _ _ _ _ _ _ _ _ _ Hsu2 Hrec (Hser output) Hn Eg) as ([E1 E2 E3] & Hd & Hok).
  fold id in Hd, Hok. destruct r as [d|e].
  - rewrite (Hd d eq_refl), Hde. intros [= <- <-]. by split_and!; [..| intros x [= <-]|].
  - intros [= <- <-]. split_and!; [done..|]. intros H0 H1 H2 H3. by specialize (Hok H0 H1 H2 H3).
Qed.
End resend.

(** ** The outputs of the two steps come back from the record *)

Lemma bytes_back b : Forall (λ x, 0 ≤ x ≤ 255)%Z b → de_vec de_u8 (ser_bytes b) = Some b.
Proof.
  intros Hb. unfold ser_bytes, de_vec. induction Hb as [|x b Hx _ IH]; [done|]. cbn [map mapM].
  assert (de_u8 (v_num x) = Some x) as ->; [|by rewrite IH].
  unfold de_u8. cbn -[Z.leb]. by rewrite (proj2 (Z.leb_le x 255)) by lia.
Qed.
Lemma headers_back (m : bmap str) : de_headers (VObject (map (λ '(k, v), (k, VString v)) m)) = Some m.
Proof. unfold de_headers. induction m as [|[k v] m IH]; [done|]. cbn [map mapM]. cbn. by rewrite IH. Qed.
Definition http_output_ok (o : HttpOutput) : Prop :=
  (0 ≤ ho_status o ≤ 65535)%Z ∧ Forall (λ x, 0 ≤ x ≤ 255)%Z (ho_body o).
Lemma http_output_back o : http_output_ok o → de_http_output (ser_http_output o) = Some o.
Proof.
  destruct o as [status url headers body type]. intros [Hs Hb]. cbn in Hs, Hb.
  unfold de_http_output, ser_http_output. cbn [ho_status ho_url ho_headers ho_body ho_content_type].
  pose proof (bytes_back body Hb) as Eb. pose proof (headers_back headers) as Eh.
  set (b := ser_bytes body) in *. set (h := VObject _) in *. clearbody b h.
  set (t := v_opt VString type). assert (Et : de_option de_string t = Some type) by (by destruct type).
  clearbody t. unfold obj. eval_struct ho_fields. cbn [de_string as_str as_u64 num_as_u64 mbind option_bind v_num].
  rewrite (proj2 (Z.leb_le status 65535)) by lia. cbn [mbind option_bind]. by rewrite Eh, Eb, Et.
Qed.
Definition command_output_ok (o : CommandOutput) : Prop :=
  (I32_MIN ≤ co_status o ≤ I32_MAX)%Z ∧ Forall (λ x, 0 ≤ x ≤ 255)%Z (co_stdout_bytes o) ∧
  Forall (λ x, 0 ≤ x ≤ 255)%Z (co_stderr_bytes o).
Lemma command_output_back o : command_output_ok o → de_command_output (ser_command_output o) = Some o.
Proof.
  destruct o as [status out err bout berr]. intros (Hs & Ho & He). cbn in Hs, Ho, He.
  unfold de_command_output, ser_command_output.
  cbn [co_status co_stdout co_stderr co_stdout_bytes co_stderr_bytes].
  pose proof (bytes_back bout Ho) as Eo. pose proof (bytes_back berr He) as Ee.
  set (b := ser_bytes bout) in *. set (b' := ser_bytes berr) in *. clearbody b b'.
  assert (Ei : de_i32 (v_int status) = Some status).
  { unfold v_int, de_i32. destruct (status <? 0)%Z; [rewrite (proj2 (Z.leb_le _ _)) by lia | rewrite (proj2 (Z.leb_le _ _)) by lia]; done. }
  set (i := v_int status) in *. clearbody i. unfold obj. eval_struct co_fields.
  cbn [de_string as_str mbind option_bind]. by rewrite Ei, Eo, Ee.
Qed.

(** ** Pending payloads *)

Section payloads.
Context {W : WireTypes} {SJ : SerdeJson} {SL : SerdeJsonLaws} {C : StateCodec} {HB : Sha256Bytes}.
Context {G : GuardTexts} {A : Type}.
Variable (cx : GuardContext).

(** The payload of an operation that waits for an approval comes back as it was
    stored, or the load fails. *)
Lemma pending_payload_back (su su' : Surroundings A) node id payload g g' g2 res :
  event_value payload → store_pending_tool_payload su node id payload g = (g', Ok ()) →
  gu_payloads g2 = gu_payloads g' → (load_pending_tool_payload su' cx node id g2).2 = res →
  ∀ x, res = Ok x → x = Some payload.
Proof.
  intros Hp. unfold store_pending_tool_payload. cbn zeta. rewrite bind_eq.
  destruct (create_dir _ _ _) as [g1 [[]|]]; [|done]. case_if; [done|].
  unfold publish_sidecar. rewrite bind_eq. destruct (live su g1) as [g3 [n|]]; [|done]. unfold act.
  destruct (su_publish su n) as [[[] ?]|]; [done..|]. intros [= <-] Eg <- x.
  unfold load_pending_tool_payload. cbn zeta. rewrite bind_eq.
  destruct (live su' g2) as [g4 [n'|]] eqn:El; [|done]. rewrite bind_eq. cbn [the_actor].
  assert (gu_payloads g4 = gu_payloads g2) as ->.
  { unfold live in El. destruct (su_others _ _ _). repeat case_if in El; by injection El as <- _. }
  rewrite Eg. cbn [gu_payloads set_field set_gu_payloads]. rewrite bm_get_insert_eq.
  unfold read_nofollow_bounded. destruct (su_read su' n'); [done|]. case_if; [done|].
  rewrite from_to_vec by done. by intros [= <-].
Qed.
End payloads.
