(* ===== verification/GuardBinding.v ===== *)
(** * What an approval binds

    An approval is stored under an id built from digests.  The theorems say that
    the id determines the request: an approval lets through the request it was
    asked for and no other, as long as SHA-256 does not collide on them. *)

From stdpp Require Import sorting.
From S2P Require Import Prelude Str BMap Sorting Json Serde Events ValueBag RunState AuditRules TraceIds JournalFile JournalLines JournalWriter Graph EngineTypes EngineWorld Guard GuardSpec.
From Stdlib Require Import Sorted.

#[local] Arguments s : simpl never.

(** ** Splitting texts *)

Lemma first_sep (c : Z) x y x' y' :
  c ∉ x → c ∉ x' → x ++ c :: y = x' ++ c :: y' → x = x' ∧ y = y'.
Proof.
  revert x'. induction x as [|a x IH]; intros [|a' x'] Hx Hx' E; cbn in E.
  - by injection E as ->.
  - injection E as -> _. set_solver.
  - injection E as -> _. set_solver.
  - injection E as -> E. apply IH in E as [-> ->]; set_solver.
Qed.

Section binding.
Context {SJ : SerdeJson} {SL : SerdeJsonLaws} {HB : Sha256Bytes} {HL : Sha256BytesLaws}.

(** Two byte strings on which the digest does not collide. *)
Definition distinct_digests (a b : bytes) : Prop := sha256_bytes_hex a = sha256_bytes_hex b → a = b.
Definition nul_free (x : str) : Prop := 0%Z ∉ utf8_bytes x.

Lemma digest_64 b : length (sha256_bytes_hex b) = 64.
Proof. apply sha256_bytes_form. Qed.
Lemma operation_digest_64 t d : length (operation_digest t d) = 64.
Proof. apply digest_64. Qed.
Lemma sha_str_64 x : length (sha_str x) = 64.
Proof. apply digest_64. Qed.
Lemma confirmation_id_inj scope n k t d i n' k' t' d' i' :
  58%Z ∉ n → 58%Z ∉ n' →
  confirmation_id scope n k (operation_digest t d) i = confirmation_id scope n' k' (operation_digest t' d') i' →
  n = n' ∧ k = k' ∧ operation_digest t d = operation_digest t' d' ∧
  (scope = ScInvocation → sha_str i = sha_str i').
Proof.
  intros Hn Hn' E.
  assert (H2 : ∀ p p', n ++ s":" ++ k ++ p = n' ++ s":" ++ k' ++ p' → length p = length p' →
    n = n' ∧ k = k' ∧ p = p').
  { intros p p' E' Hl. rewrite !app_assoc in E'. apply app_inj_2 in E' as [E1 E2]; [|done].
    rewrite <-!app_assoc in E1. apply (first_sep 58%Z) in E1 as [-> ->]; done. }
  destruct scope; cbn [confirmation_id] in E.
  - apply H2 in E as (-> & -> & E); [|by rewrite !length_app, !operation_digest_64, !sha_str_64].
    rewrite !app_assoc in E. apply app_inj_2 in E as [E Ei]; [|by rewrite !sha_str_64].
    apply app_inj_2 in E as [E _]; [|done]. apply app_inj_1 in E as [_ E]; [|done]. done.
  - apply H2 in E as (-> & -> & E); [|by rewrite !length_app, !operation_digest_64].
    apply app_inj_1 in E as [_ E]; [|done]. done.
Qed.

Definition digest_input (target : str) (details : option value) : bytes :=
  utf8_bytes target ++ [0%Z] ++ from_option to_vec [] details.
Definition event_details (details : option value) : Prop := from_option event_value True details.
Lemma to_vec_inj v v' : event_value v → event_value v' → to_vec v = to_vec v' → v = v'.
Proof.
  intros Hv Hv' E. pose proof (from_to_vec v Hv) as H1. pose proof (from_to_vec v' Hv') as H2.
  rewrite E, H2 in H1. by injection H1.
Qed.
Lemma to_vec_nonempty v : event_value v → to_vec v ≠ [].
Proof. intros Hv E. pose proof (to_vec_brace v Hv) as Hb. by rewrite E in Hb. Qed.
Lemma operation_digest_inj t d t' d' :
  nul_free t → nul_free t' → event_details d → event_details d' →
  distinct_digests (digest_input t d) (digest_input t' d') →
  operation_digest t d = operation_digest t' d' → utf8_bytes t = utf8_bytes t' ∧ d = d'.
Proof.
  intros Ht Ht' Hd Hd' Hc E. apply Hc in E. unfold digest_input in E. cbn [app] in E.
  apply first_sep in E as [-> E]; [|done..]. split; [done|].
  destruct d as [v|], d' as [v'|]; cbn in *; [|..|done].
  - f_equal. by apply to_vec_inj.
  - exfalso. by apply (to_vec_nonempty v).
  - exfalso. by apply (to_vec_nonempty v').
Qed.
End binding.

(** ** Approvals *)

Section approvals.
Context {W : WireTypes} {SJ : SerdeJson} {SL : SerdeJsonLaws} {C : StateCodec} {H : Sha256}.
Context {HB : Sha256Bytes} {HL : Sha256BytesLaws} {M : Messages} {A : Type}.
Implicit Types (su : Surroundings A) (cx : GuardContext) (g : Actor).

Definition asks cx : Prop := gc_side_effects cx = SeConfirm ∨ gc_side_effects cx = SeDryRunFirst.
Definition request_id cx (node : NodeDef) (kind target : str) (details : option value) (invocation : str) : str :=
  confirmation_id (gc_scope cx) (nd_id node) kind (operation_digest target details) invocation.

Ltac run_event :=
  rewrite bind_eq;
  match goal with |- context [match ?m with (_, _) => _ end] => destruct m as [? [?|?]] end.
Lemma require_passes su cx node kind target details invocation g g' :
  asks cx → require_side_effect su cx node kind target details invocation g = (g', Ok None) →
  bm_get (request_id cx node kind target details invocation) (gc_confirmations cx) = Some true.
Proof.
  unfold require_side_effect. cbn zeta. fold (request_id cx node kind target details invocation).
  intros Ha. destruct (bm_get _ _) as [[]|]; [done|..]; intros E; exfalso; revert E;
    destruct Ha as [-> | ->]; cbn [default from_option id]; run_event; try done; run_event; done.
Qed.
Lemma require_asks su cx node kind target details invocation g g' c :
  require_side_effect su cx node kind target details invocation g = (g', Ok (Some c)) →
  cf_id c = request_id cx node kind target details invocation ∧ cf_kind c = kind ∧
  cf_target c = target ∧ cf_details c = details ∧ cf_scope c = gc_scope cx.
Proof.
  unfold require_side_effect. cbn zeta. fold (request_id cx node kind target details invocation).
  destruct (gc_side_effects cx); [by run_event| | |by run_event];
    (case_if; [by run_event|]); run_event; try done; run_event; try done; by intros [= _ <-].
Qed.

(** C6: an approval lets through the request it was asked for, and no other.
    One confirmation was shown and approved; a request of any kind then passes
    the check of a run that asks for confirmations, of the same approval scope, and
    in which nothing else was approved.  It comes from the same node,
    is of the same kind, has the target and the details that were shown, and,
    where approvals are per invocation, the same digest of the invocation, when
    the digests of the two requests do not collide.  Node ids contain no colon,
    as the validation of a manifest demands, targets no NUL, and the details are
    absent or objects whose doubles are read back from JSON as themselves. *)
Theorem approval_covers_its_request su0 cx0 node0 kind0 target0 details0 invocation0 g0 g0' c
    su cx node kind target details invocation g g' :
  require_side_effect su0 cx0 node0 kind0 target0 details0 invocation0 g0 = (g0', Ok (Some c)) →
  (∀ id, bm_get id (gc_confirmations cx) = Some true → id = cf_id c) → gc_scope cx = cf_scope c →
  asks cx → require_side_effect su cx node kind target details invocation g = (g', Ok None) →
  58%Z ∉ nd_id node0 → 58%Z ∉ nd_id node → nul_free target0 → nul_free target →
  event_details details0 → event_details details →
  distinct_digests (digest_input target details) (digest_input target0 details0) →
  nd_id node = nd_id node0 ∧ kind = cf_kind c ∧ utf8_bytes target = utf8_bytes (cf_target c) ∧
  details = cf_details c ∧ (cf_scope c = ScInvocation → sha_str invocation = sha_str invocation0).
Proof.
  intros (Eid & Ek & Et & Ed & Es)%require_asks Honly Hsc Ha Hp%require_passes Hk0 Hk Hn0 Hn Hd0 Hd Hcol;
    [|done]. apply Honly in Hp. rewrite Eid in Hp. unfold request_id in Hp. rewrite Hsc, Es in Hp.
  apply confirmation_id_inj in Hp as (-> & -> & Hp & Hi); [|done..].
  apply operation_digest_inj in Hp as [Ht ->]; [|done..]. rewrite Ek, Et, Ed, Es. done.
Qed.
End approvals.

(** ** HTTP requests *)

Section http.
Context {HB : Sha256Bytes}.

Lemma split_pairs_bytes (f : str → str) (l l' : list (str * str)) :
  (∀ kv, kv ∈ l ++ l' → nul_free (f kv.1) ∧ nul_free kv.2) →
  concat (map (pair_bytes f) l) = concat (map (pair_bytes f) l') →
  map (λ kv, (utf8_bytes (f kv.1), utf8_bytes kv.2)) l =
  map (λ kv, (utf8_bytes (f kv.1), utf8_bytes kv.2)) l'.
Proof.
  revert l'. induction l as [|kv l IH]; intros [|kv' l'] Hn E; [done|..].
  - exfalso. cbn in E. unfold pair_bytes in E. by destruct (utf8_bytes (f kv'.1)).
  - exfalso. cbn in E. unfold pair_bytes in E. by destruct (utf8_bytes (f kv.1)).
  - cbn [map concat] in *. unfold pair_bytes in E at 1 3. rewrite <-!app_assoc in E. cbn [app] in E.
    destruct (Hn kv) as [Hk Hv]; [set_solver|]. destruct (Hn kv') as [Hk' Hv']; [set_solver|].
    apply first_sep in E as [-> E]; [|done..]. apply first_sep in E as [-> E]; [|done..].
    f_equal. apply IH; [|done]. intros x Hx. apply Hn. set_solver.
Qed.

(** The digests of two requests do not collide. *)
Record distinct_requests (salt : str) (headers headers' : bmap str) (body body' : option bytes)
    (sensitive sensitive' : bmap str) (url url' : str) : Prop := {
  dr_headers : distinct_digests
    (salted (s"http-headers-v1") salt ++ concat (map (pair_bytes to_ascii_lowercase) headers))
    (salted (s"http-headers-v1") salt ++ concat (map (pair_bytes to_ascii_lowercase) headers'));
  dr_body : ∀ b b', body = Some b → body' = Some b' → distinct_digests
    (salted (s"http-body-v1") salt ++ b) (salted (s"http-body-v1") salt ++ b');
  dr_sensitive : distinct_digests
    (salted (s"http-sensitive-v1") salt ++ concat (map (pair_bytes id) sensitive))
    (salted (s"http-sensitive-v1") salt ++ concat (map (pair_bytes id) sensitive'));
  dr_url : distinct_digests
    (salted (s"http-url-v1") salt ++ utf8_bytes (canonical_http_url url))
    (salted (s"http-url-v1") salt ++ utf8_bytes (canonical_http_url url'));
}.
Definition nul_free_pairs (l : list (str * str)) : Prop :=
  ∀ kv, kv ∈ l → nul_free kv.1 ∧ nul_free kv.2.
(** The texts of pairs as bytes, and headers without the case of their names. *)
Definition pair_texts (l : list (str * str)) : list (bytes * bytes) :=
  map (λ kv, (utf8_bytes kv.1, utf8_bytes kv.2)) l.
Definition lower_names (l : list (str * str)) : list (str * str) :=
  map (λ kv, (to_ascii_lowercase kv.1, kv.2)) l.

Lemma salted_inj domain salt (b b' : bytes) :
  distinct_digests (salted domain salt ++ b) (salted domain salt ++ b') →
  salted_binding_digest domain salt b = salted_binding_digest domain salt b' → b = b'.
Proof. intros Hd E. apply Hd in E. by apply app_inv_head in E. Qed.
Lemma pair_texts_inj (f : str → str) (l l' : list (str * str)) :
  nul_free_pairs (map (λ kv, (f kv.1, kv.2)) l) → nul_free_pairs (map (λ kv, (f kv.1, kv.2)) l') →
  concat (map (pair_bytes f) l) = concat (map (pair_bytes f) l') →
  pair_texts (map (λ kv, (f kv.1, kv.2)) l) = pair_texts (map (λ kv, (f kv.1, kv.2)) l').
Proof.
  intros Hl Hl' E%split_pairs_bytes; [by unfold pair_texts; rewrite !map_map|].
  intros kv [Hin|Hin]%elem_of_app; [apply (Hl (f kv.1, kv.2)) | apply (Hl' (f kv.1, kv.2))];
    apply list_elem_of_fmap; by exists kv.
Qed.

(** The fields of the details. *)
Lemma details_fields method headers body sensitive salt url m :
  http_details_with_url method headers body sensitive salt url = Some (VObject m) →
  bm_get (s"method") m = Some (VString method) ∧
  bm_get (s"headers_sha256") m = Some (VString (headers_digest salt headers)) ∧
  bm_get (s"url_sha256") m = Some (VString (url_digest salt url)) ∧
  (is_safe_method method = false →
   bm_get (s"body_sha256") m =
     Some (v_opt (λ b, VString (salted_binding_digest (s"http-body-v1") salt b)) body) ∧
   bm_get (s"sensitive_query_sha256") m =
     Some (if bool_decide (sensitive = []) then VNull else VString (sensitive_digest salt sensitive))).
Proof.
  unfold http_details_with_url, safe_http_details, http_operation_details.
  destruct (is_safe_method method); intros [= <-]; split_and!; try done; by intros.
Qed.
Lemma details_object method headers body sensitive salt url :
  ∃ m, http_details_with_url method headers body sensitive salt url = Some (VObject m).
Proof.
  unfold http_details_with_url, safe_http_details, http_operation_details.
  destruct (is_safe_method method); by eexists.
Qed.

(** C34: the details of an HTTP request determine the request.  Two requests of
    a run whose approval details are equal have the same method, the same
    headers up to the case of their names, the same canonical URL and, unless
    the method is safe, the same body and the same sensitive query values, as
    long as their digests do not collide and no text contains a NUL: no part of
    the request can be changed under an approval or a recorded result. *)
Theorem http_details_determine_request salt method headers body sensitive url
    method' headers' body' sensitive' url' :
  distinct_requests salt headers headers' body body' sensitive sensitive' url url' →
  nul_free_pairs (lower_names headers) → nul_free_pairs (lower_names headers') →
  nul_free_pairs sensitive → nul_free_pairs sensitive' →
  http_details_with_url method headers body sensitive salt url =
  http_details_with_url method' headers' body' sensitive' salt url' →
  method = method' ∧ pair_texts (lower_names headers) = pair_texts (lower_names headers') ∧
  utf8_bytes (canonical_http_url url) = utf8_bytes (canonical_http_url url') ∧
  (is_safe_method method = false → body = body' ∧ pair_texts sensitive = pair_texts sensitive').
Proof.
  intros [Dh Db Ds Du] Hh Hh' Hs Hs' E.
  destruct (details_object method headers body sensitive salt url) as [m Hm].
  pose proof Hm as Hm'. rewrite E in Hm'.
  destruct (details_fields _ _ _ _ _ _ _ Hm) as (E1 & E2 & E3 & E4).
  destruct (details_fields _ _ _ _ _ _ _ Hm') as (F1 & F2 & F3 & F4).
  assert (method' = method) as -> by congruence.
  assert (G2 : headers_digest salt headers = headers_digest salt headers') by congruence.
  assert (G3 : url_digest salt url = url_digest salt url') by congruence.
  split; [done|]. split; [by apply pair_texts_inj, (salted_inj _ _ _ _ Dh G2)|].
  split; [by apply (salted_inj _ _ _ _ Du G3)|].
  intros Hsafe. destruct (E4 Hsafe) as [E5 E6], (F4 Hsafe) as [F5 F6].
  rewrite E5 in F5. rewrite E6 in F6. injection F5 as F5. injection F6 as F6. split.
  - destruct body as [b|], body' as [b'|]; try done. injection F5 as F5. f_equal.
    by apply (salted_inj _ _ _ _ (Db _ _ eq_refl eq_refl) F5).
  - destruct (bool_decide_reflect (sensitive = [])) as [->|], (bool_decide_reflect (sensitive' = [])) as [->|];
      try done. injection F6 as F6. apply (salted_inj _ _ _ _ Ds) in F6.
    pose proof (pair_texts_inj id sensitive sensitive') as Hp. unfold id in Hp at 1 2 4 5.
    rewrite !(map_ext (λ kv : str * str, (kv.1, kv.2)) id), !map_id in Hp by (by intros []). by apply Hp.
Qed.
End http.

(** ** Canonical URLs *)

Section urls.
Definition url_of (base : str) (pairs : list str) (fragment : str) : str :=
  base ++ s"?" ++ join (s"&") pairs ++ fragment.
(** The parts of a URL with a query: the pairs without separators, the fragment
    with its mark. *)
Record url_parts (base : str) (pairs : list str) (fragment : str) : Prop := {
  up_base : 63%Z ∉ base ∧ 35%Z ∉ base;
  up_some : pairs ≠ [];
  up_pairs : Forall (λ p, 35%Z ∉ p ∧ 38%Z ∉ p ∧ 59%Z ∉ p) pairs;
  up_fragment : fragment = [] ∨ ∃ rest, fragment = 35%Z :: rest;
}.

Lemma join_free c (pairs : list str) : c ≠ 38%Z → Forall (λ p, c ∉ p) pairs → c ∉ join (s"&") pairs.
Proof.
  intros Hc. induction 1 as [|p [|q ps] Hp _ IH]; [apply not_elem_of_nil | done|].
  rewrite join_cons, !not_elem_of_app. split; [done|]. split; [|done].
  change (s"&") with [38%Z]. set_solver.
Qed.
Lemma split_pairs_app p x : 38%Z ∉ p → 59%Z ∉ p → split_pairs (p ++ 38%Z :: x) = p :: split_pairs x.
Proof.
  induction p as [|c p IH]; intros H1 H2; [done|]. cbn [app split_pairs].
  rewrite not_elem_of_cons in H1, H2. destruct H1 as [H1 H1'], H2 as [H2 H2'].
  rewrite (proj2 (Z.eqb_neq c 38)), (proj2 (Z.eqb_neq c 59)) by congruence. cbn [orb].
  by rewrite IH.
Qed.
Lemma split_pairs_free p : 38%Z ∉ p → 59%Z ∉ p → split_pairs p = [p].
Proof.
  induction p as [|c p IH]; intros H1 H2; [done|]. cbn [split_pairs].
  rewrite not_elem_of_cons in H1, H2. destruct H1 as [H1 H1'], H2 as [H2 H2'].
  rewrite (proj2 (Z.eqb_neq c 38)), (proj2 (Z.eqb_neq c 59)) by congruence. cbn [orb].
  by rewrite IH.
Qed.
Lemma split_pairs_join (pairs : list str) :
  pairs ≠ [] → Forall (λ p, 38%Z ∉ p ∧ 59%Z ∉ p) pairs → split_pairs (join (s"&") pairs) = pairs.
Proof.
  intros Hn Hp. induction Hp as [|p [|q ps] [H1 H2] _ IH]; [done | by apply split_pairs_free|].
  rewrite join_cons. change (s"&" ++ ?x) with (38%Z :: x). rewrite split_pairs_app by done. by rewrite IH.
Qed.
Lemma split_once_free c x y : c ∉ x → split_once c (x ++ c :: y) = Some (x, y).
Proof. intros Hx. by apply split_once_Some. Qed.
Lemma split_once_absent c x : c ∉ x → split_once c x = None.
Proof.
  intros Hx. destruct (split_once c x) as [[a b]|] eqn:E; [|done].
  apply split_once_Some in E as [-> _]. set_solver.
Qed.

Lemma parts_free base pairs fragment c :
  url_parts base pairs fragment → c = 35%Z ∨ c = 63%Z → c ∉ base.
Proof. intros [[? ?] _ _ _] [-> | ->]; done. Qed.
Lemma query_free base pairs fragment : url_parts base pairs fragment → 35%Z ∉ join (s"&") pairs.
Proof.
  intros [_ _ Hp _]. apply join_free; [done|]. eapply Forall_impl; [exact Hp|]. by intros p [? _].
Qed.
Lemma canonical_url base pairs fragment :
  url_parts base pairs fragment →
  canonical_http_url (url_of base pairs fragment) = url_of base (sort_by str_cmp pairs) fragment.
Proof.
  intros Hu. pose proof (query_free _ _ _ Hu) as Hq. destruct Hu as [[Hb1 Hb2] Hn Hp Hf].
  assert (Hs : split_fragment (url_of base pairs fragment) = (base ++ s"?" ++ join (s"&") pairs, fragment)).
  { unfold url_of, split_fragment. rewrite !app_assoc. rewrite <-(app_assoc base).
    assert (Hfree : 35%Z ∉ base ++ s"?" ++ join (s"&") pairs).
    { rewrite !not_elem_of_app. split_and!; [done | change (s"?") with [63%Z]; set_solver | done]. }
    destruct Hf as [->|[rest ->]]; [|by rewrite split_once_free].
    rewrite app_nil_r. by rewrite split_once_absent. }
  unfold canonical_http_url. rewrite Hs.
  change (base ++ s"?" ++ join (s"&") pairs) with (base ++ 63%Z :: join (s"&") pairs).
  rewrite split_once_free by done. destruct (join (s"&") pairs) as [|c q] eqn:Ej.
  - unfold url_of. rewrite Ej. destruct pairs as [|p [|p' ps]]; [done| |].
    + cbn in Ej. by subst p.
    + exfalso. rewrite join_cons in Ej. by destruct p.
  - rewrite <-Ej, split_pairs_join; [done | done |]. eapply Forall_impl; [exact Hp|]. by intros p [_ ?].
Qed.
Lemma sort_by_str_perm (l : list str) : sort_by str_cmp l ≡ₚ l.
Proof. apply (sort_by_spec id str_cmp l). Qed.
Lemma sort_by_str_inj (l l' : list str) : sort_by str_cmp l = sort_by str_cmp l' ↔ l ≡ₚ l'.
Proof.
  split; intros E.
  - by rewrite <-(sort_by_str_perm l), E, sort_by_str_perm.
  - destruct (sort_by_spec id str_cmp l) as [H1 H2], (sort_by_spec id str_cmp l') as [H3 H4].
    apply (StronglySorted_unique_strong (λ a b, str_cmp a b ≠ Gt)); [|exact H2 | exact H4 |].
    + intros a b _ _ Ha Hb. apply str_cmp_eq. rewrite (str_cmp_antisym b a) in Hb. by destruct (str_cmp a b).
    + by rewrite !sort_by_str_perm.
Qed.
Lemma parts_perm base pairs pairs' fragment :
  url_parts base pairs fragment → pairs ≡ₚ pairs' → url_parts base pairs' fragment.
Proof.
  intros [Hb Hn Hp Hf] E. split; [done | | by rewrite <-E | done].
  intros ->. by apply Permutation_nil_r in E.
Qed.
Lemma url_of_inj base pairs fragment base' pairs' fragment' :
  url_parts base pairs fragment → url_parts base' pairs' fragment' →
  url_of base pairs fragment = url_of base' pairs' fragment' →
  base = base' ∧ pairs = pairs' ∧ fragment = fragment'.
Proof.
  intros Hu Hu' E. pose proof (query_free _ _ _ Hu) as Hq. pose proof (query_free _ _ _ Hu') as Hq'.
  destruct Hu as [[Hb1 Hb2] Hn Hp Hf], Hu' as [[Hb1' Hb2'] Hn' Hp' Hf'].
  apply first_sep in E as [-> E]; [|done..]. split; [done|].
  assert (Hsp : join (s"&") pairs = join (s"&") pairs' ∧ fragment = fragment').
  { destruct Hf as [->|[f ->]], Hf' as [->|[f' ->]]; rewrite ?app_nil_r in E.
    - done.
    - exfalso. apply Hq. rewrite E. set_solver.
    - exfalso. apply Hq'. rewrite <-E. set_solver.
    - apply first_sep in E as [-> ->]; done. }
  destruct Hsp as [Ej ->]. split; [|done].
  assert (Hfree : ∀ l : list str, Forall (λ p, 35%Z ∉ p ∧ 38%Z ∉ p ∧ 59%Z ∉ p) l →
    Forall (λ p, 38%Z ∉ p ∧ 59%Z ∉ p) l) by (intros l Hl; eapply Forall_impl; [exact Hl|]; by intros p [_ ?]).
  rewrite <-(split_pairs_join pairs), <-(split_pairs_join pairs') by auto. by rewrite Ej.
Qed.

(** Canonical URLs identify the URLs that differ only in the order of
    their query.  For URLs with a query, the canonical forms are equal exactly
    if the part before the query and the fragment are equal and the pairs of the
    query are the same up to their order, each as often. *)
Theorem canonical_url_up_to_order base pairs fragment base' pairs' fragment' :
  url_parts base pairs fragment → url_parts base' pairs' fragment' →
  canonical_http_url (url_of base pairs fragment) = canonical_http_url (url_of base' pairs' fragment') ↔
  base = base' ∧ pairs ≡ₚ pairs' ∧ fragment = fragment'.
Proof.
  intros Hu Hu'. rewrite !canonical_url by done. split.
  - intros E. apply url_of_inj in E as (-> & E & ->).
    + split; [done|]. split; [by apply sort_by_str_inj | done].
    + eapply parts_perm; [exact Hu | by rewrite sort_by_str_perm].
    + eapply parts_perm; [exact Hu' | by rewrite sort_by_str_perm].
  - intros (-> & E & ->). by apply sort_by_str_inj in E as ->.
Qed.
End urls.
