(* ===== verification/GuardDemo.v ===== *)
(** * The guard: concrete instances

    A node that posts to a server while another process writes to the journal:
    the connection breaks, the request is sent again under [repeat] and refused
    under [fail]; an answer is returned again from the record after a restart;
    approvals and their details. *)

From S2P Require Import Prelude Str BMap Sorting Json Serde Events ValueBag RunState RunStateInv RunStateOps RunStateDemo AuditRules TraceIds JournalFile JournalLines JournalRepair JournalWriter JournalSafety JournalSystem JournalDemo Graph EngineTypes EngineWorld Guard GuardSpec GuardSystem GuardBinding.
From stdpp Require Import relations.

#[local] Arguments s : simpl never.

(** A digest of 64 hexadecimal digits. *)
Definition checksum (b : list Z) : Z := foldl (λ h x, (h * 1000003 + x + 1) mod 2 ^ 240)%Z 5381%Z b.
#[local] Instance guard_sha : Sha256Bytes := { sha256_bytes_hex b := hex_go 64 (checksum b) [] }.
#[local] Instance guard_sha_laws : Sha256BytesLaws.
Proof. split. intros b. exact (hex_go_id 64 (checksum b) [] 0 (conj eq_refl (List.Forall_nil _))). Qed.
#[local] Instance guard_messages : Messages := {
  journal_error_text := λ _, s"journal";
  expr_error_text := λ _, s"expression";
  debug_when := λ _, s"None";
}.
#[local] Instance guard_texts : GuardTexts := {
  json_error_text := λ _, s"json";
  not_found_text := s"not found";
}.

Definition post_node (policy : RetryOnIndeterminate) : NodeDef :=
  mkNodeDef (s"post") (s"http") [] None AllSucceeded None None (Some (mkRetryPolicy 3 0 None policy)) [].
Definition post_context (effects : SideEffects) (confirmed : bmap bool) : GuardContext :=
  mkGuardContext (s"r1") (s"/run/meta") confirmed effects ScInvocation None.
(** Before every effect the other process writes a record. *)
Definition chatter (n : nat) (x : Disk * list JournalWriter) : Disk * list JournalWriter :=
  match x.2 with
  | [] => x
  | w :: peers =>
      let e := writer_event demo_clock Written Written (s"step_started") (demo_payload demo_node) x.1 w in
      (e.1.1, e.1.2 :: peers)
  end.
Definition calm_with (answer : result GatewayError HttpOutput) : Surroundings HttpOutput :=
  mkSurroundings _ HttpOutput chatter (λ _, demo_clock) (λ _, (Written, Written)) (λ _, false) (λ _, None)
    (λ _, None) (λ _, None) (λ _, true) (λ _, answer).
Definition broken : Surroundings HttpOutput := calm_with (Err (HttpFailed false false (s"disconnected"))).
Definition created : HttpOutput := mkHttpOutput 201 (s"https://h/x") [] [111%Z; 107%Z] None.
Definition answering : Surroundings HttpOutput := calm_with (Ok created).
Definition guard_opened : Disk :=
  (create_with_policies demo_disk (s"r1") demo_limits audit_policy_default (audit_within 100000)).1.
Definition guard_writer : JournalWriter := writer_within 100000.
Definition fresh_actor : Actor := mkActor guard_opened [guard_writer] guard_writer [] [] 0 true [].

Definition post cx su policy (g : Actor) : Actor * result StepError (Called HttpOutput) :=
  http_exchange cx su (post_node policy) (s"POST") (s"https://h/x?b=1&a=2") (s"https://h/x?b=*&a=*")
    [(s"Accept", s"text/plain")] (Some [104%Z; 105%Z]) [] g.
Definition allowed : GuardContext := post_context SeAllowed [].

(** ** Sent twice, with a record of it *)

Definition once (policy : RetryOnIndeterminate) : Actor := (post allowed broken policy fresh_actor).1.
Definition again (policy : RetryOnIndeterminate) (g : Actor) : Actor := (post allowed broken policy g).1.
Definition twice (policy : RetryOnIndeterminate) : Actor := again policy (once policy).

Lemma guard_created :
  create_with_policies demo_disk (s"r1") demo_limits audit_policy_default (audit_within 100000)
  = (guard_opened, Ok guard_writer).
Proof. vm_compute. reflexivity. Qed.
Lemma fresh_ok : site_ok demo_limits allowed [] demo_prefix fresh_actor.
Proof.
  destruct (create_safe _ _ demo_prefix _ _ _ _ _ _ _ demo_disk_ok guard_created) as [Hd Hw].
  destruct (create_safe _ _ [] _ _ _ _ _ _ _ demo_disk_ok guard_created) as [_ Hw'].
  exists demo_prefix. split; [split|].
  - split; [exists (state_of demo_prefix); exact Hd | exact (Hw _ eq_refl (reflexivity _))].
  - apply Forall_singleton. exact (Hw' _ eq_refl (prefix_nil _)).
  - apply prefix_nil.
  - apply prefix_nil.
  - split; [by intros x Hx%not_elem_of_nil | by intros []].
Qed.
Lemma chatter_ok answer : others_ok (calm_with answer) allowed demo_limits.
Proof.
  intros n d [|w peers]; [constructor|]. apply rtc_once.
  exact (StepEvent demo_limits (s"r1") (mkSystem d (w :: peers)) 0 w demo_clock Written Written
    (s"step_started") (demo_payload demo_node) _ _ _ eq_refl (demo_payload_exact demo_node eq_refl) (triple_eta _)).
Qed.
Lemma post_step su policy g : others_ok su allowed demo_limits →
  site_step demo_limits allowed g (post allowed su policy g).1.
Proof. intros Hsu. unfold post. exact (SiteHttp demo_limits allowed g su _ _ _ _ _ _ _ Hsu). Qed.
Lemma post_twice policy : rtc (site_step demo_limits allowed) fresh_actor (twice policy).
Proof.
  apply (rtc_l _ _ (once policy)); [exact (post_step broken policy fresh_actor (chatter_ok _))|].
  unfold twice. generalize (once policy) as g. intros g. apply rtc_once. exact (post_step broken policy g (chatter_ok _)).
Qed.

Lemma sent_at_most_once_witness :
  (∃ x y, gu_sends (twice RetryRepeat) = [x; y] ∧ sn_id x = sn_id y ∧
     ∃ journal, excused journal x y) ∧
  length (gu_sends (twice RetryFail)) = 1.
Proof.
  split; [|vm_compute; reflexivity].
  destruct (sent_at_most_once demo_limits allowed demo_prefix _ _ fresh_ok (post_twice RetryRepeat))
    as (journal & stats & _ & _ & Hx).
  destruct (gu_sends (twice RetryRepeat)) as [|x [|y [|z l]]] eqn:E;
    [exfalso; revert E; vm_compute; discriminate.. | | exfalso; revert E; vm_compute; discriminate].
  exists x, y. split; [reflexivity|].
  assert (Hid : sn_id x = sn_id y) by (revert E; vm_compute; intros [= <- <-]; reflexivity).
  split; [exact Hid|]. exists journal. apply (Hx [] x [] y []); [reflexivity | exact Hid].
Defined.

(** ** Answered once *)

Notation operate_post su g :=
  (operate su allowed ser_http_output de_http_output (s"corrupt") (post_node RetryFail) (s"http")
     (s"https://h/x") None (s"call-1") g) (only parsing).
Definition post_id : str := operation_key allowed (post_node RetryFail) (s"call-1").
Definition after_post : Actor := (operate_post answering fresh_actor).1.
Lemma post_answered : operate_post answering fresh_actor = (after_post, Ok (created, Some post_id)).
Proof. vm_compute. reflexivity. Qed.
Lemma created_ok : http_output_ok created.
Proof. split; [done|]. repeat constructor; done. Qed.
Lemma exact_http_event o : event_value (ser_http_output o).
Proof. split; [reflexivity | apply exact_http_output]. Qed.

(** The process is stopped and started again. *)
Definition restarted : Disk * result JError JournalWriter :=
  create_with_policies (gu_disk after_post) (s"r1") demo_limits audit_policy_default (audit_within 100000).
Definition reopened : Actor :=
  after_post <| gu_disk := restarted.1 |> <| gu_writer := the_ok guard_writer restarted.2 |> <| gu_alive := true |>.
Lemma reopened_step : site_step demo_limits allowed after_post reopened.
Proof.
  apply (SiteRestart demo_limits allowed after_post audit_policy_default (audit_within 100000)).
  vm_compute. reflexivity.
Qed.
Definition scanned (g : Actor) : JournalScan :=
  the_ok (mkJournalScan [] journal_stats_default) (read_journal_values (dk_journal (gu_disk g)) demo_limits).
Lemma after_post_reads : read_journal_values (dk_journal (gu_disk after_post)) demo_limits =
  Ok (mkJournalScan (scan_events (scanned after_post)) (scan_stats (scanned after_post))).
Proof. vm_compute. reflexivity. Qed.
Lemma reopened_reads : read_journal_values (dk_journal (gu_disk reopened)) demo_limits =
  Ok (mkJournalScan (scan_events (scanned after_post) ++ []) (scan_stats (scanned reopened))).
Proof. vm_compute. reflexivity. Qed.
Lemma post_results : gu_results reopened = [].
Proof. vm_compute. reflexivity. Qed.
Lemma post_attempts :
  default 0%Z (bm_get post_id (rs_operation_attempts (jw_state (gu_writer reopened)))) = 1%Z.
Proof. vm_compute. reflexivity. Qed.
Lemma post_known :
  known (operation_digest (s"https://h/x") None) (s"call-1") (record_of reopened post_id).
Proof. eexists. split; [vm_compute; reflexivity|]. split; vm_compute; reflexivity. Qed.
Lemma post_small : (zlen (to_vec (ser_http_output created)) ≤ OPERATION_RESULT_MAX_BYTES)%Z.
Proof. vm_compute. discriminate. Qed.
Lemma post_no_collision : no_collision (to_vec (ser_http_output created)) (gu_results reopened).
Proof. intros b Hb. rewrite post_results in Hb. discriminate Hb. Qed.

(** The second call would meet a broken connection, but sends nothing. *)
Lemma resend_returns_recorded_witness :
  gu_sends (operate_post broken reopened).1 = gu_sends reopened ∧
  (operate_post broken reopened).2 = Ok (created, None).
Proof.
  destruct (operate_post broken reopened) as [g3 res] eqn:E.
  destruct (resend_returns_recorded demo_limits allowed answering broken ser_http_output de_http_output
    (s"corrupt") (post_node RetryFail) (s"http") (s"https://h/x") None (s"call-1") fresh_actor after_post
    reopened g3 created post_id res demo_prefix _ [] _ _ (chatter_ok _) (chatter_ok _) exact_http_event
    (http_output_back created created_ok) fresh_ok post_answered (rtc_once _ _ reopened_step)
    after_post_reads reopened_reads (λ v Hv, False_ind _ (proj1 (elem_of_nil v) Hv)) post_no_collision E)
    as (Hs & _ & _ & _ & Hok).
  split; [exact Hs|]. apply Hok; [exact post_known | exact post_small | discriminate |]. rewrite post_attempts.
  split; [discriminate | reflexivity].
Defined.

(** ** Approvals *)

Definition asking (confirmed : bmap bool) : GuardContext := post_context SeConfirm confirmed.
Notation require_post cx target g :=
  (require_side_effect answering cx (post_node RetryFail) (s"mcp:post") target None (s"call-1") g)
  (only parsing).
Definition asked : Actor * result StepError (option Confirm) :=
  require_post (asking []) (s"https://h/x") fresh_actor.
Definition shown : Confirm :=
  match asked.2 with Ok (Some c) => c | _ => mkConfirm [] [] [] [] false None [] ScContent end.
Definition approved : GuardContext := asking [(cf_id shown, true)].
Definition passed : Actor := (require_post approved (s"https://h/x") fresh_actor).1.
Lemma post_shown : require_post (asking []) (s"https://h/x") fresh_actor = (asked.1, Ok (Some shown)).
Proof. vm_compute. reflexivity. Qed.
Lemma post_passed : require_post approved (s"https://h/x") fresh_actor = (passed, Ok None).
Proof. vm_compute. reflexivity. Qed.
Lemma approved_only id : bm_get id (gc_confirmations approved) = Some true → id = cf_id shown.
Proof.
  change (gc_confirmations approved) with [(cf_id shown, true)]. cbn [bm_get].
  destruct (str_eqb_spec id (cf_id shown)) as [E|E]; [intros _; exact E | discriminate].
Qed.
Lemma shown_scope : gc_scope approved = cf_scope shown.
Proof. vm_compute. reflexivity. Qed.
Lemma other_refused : is_ok (require_post approved (s"https://h/y") fresh_actor).2 = true ∧
  (require_post approved (s"https://h/y") fresh_actor).2 ≠ Ok None.
Proof. split; vm_compute; [reflexivity | discriminate]. Qed.
Lemma target_plain : nul_free (s"https://h/x").
Proof. apply (bool_decide_unpack _). vm_compute. exact I. Qed.
Lemma node_plain : 58%Z ∉ nd_id (post_node RetryFail).
Proof. apply (bool_decide_unpack _). vm_compute. exact I. Qed.

Lemma approval_covers_its_request_witness :
  (require_post approved (s"https://h/y") fresh_actor).2 ≠ Ok None ∧
  utf8_bytes (s"https://h/x") = utf8_bytes (cf_target shown).
Proof.
  split; [exact (proj2 other_refused)|].
  exact (proj1 (proj2 (proj2 (approval_covers_its_request answering (asking []) (post_node RetryFail)
    (s"mcp:post") (s"https://h/x") None (s"call-1") fresh_actor asked.1 shown answering approved
    (post_node RetryFail) (s"mcp:post") (s"https://h/x") None (s"call-1") fresh_actor passed post_shown
    approved_only shown_scope (or_introl eq_refl) post_passed node_plain node_plain target_plain
    target_plain I I (λ _, eq_refl))))).
Defined.

Definition accept_a : bmap str := [(s"Accept", s"a")].
Definition accept_b : bmap str := [(s"accept", s"a")].
Lemma same_details :
  http_details_with_url (s"POST") accept_a None [] (s"r1") (s"https://h/x") =
  http_details_with_url (s"POST") accept_b None [] (s"r1") (s"https://h/x").
Proof. vm_compute. reflexivity. Qed.
Lemma plain_headers : nul_free_pairs (lower_names accept_a) ∧ nul_free_pairs (lower_names accept_b).
Proof.
  split; intros kv ->%list_elem_of_singleton; split; apply (bool_decide_unpack _); vm_compute; exact I.
Qed.
Lemma plain_query : nul_free_pairs [].
Proof. intros kv Hkv. by apply not_elem_of_nil in Hkv. Qed.
Lemma distinct_demo :
  distinct_requests (s"r1") accept_a accept_b None None [] [] (s"https://h/x") (s"https://h/x").
Proof.
  split; [intros _; vm_compute; reflexivity | intros b b' Hb; discriminate Hb
         | intros _; reflexivity | intros _; reflexivity].
Qed.
Lemma http_details_determine_request_witness :
  pair_texts (lower_names accept_a) = pair_texts (lower_names accept_b).
Proof.
  exact (proj1 (proj2 (http_details_determine_request (s"r1") (s"POST") accept_a None [] (s"https://h/x")
    (s"POST") accept_b None [] (s"https://h/x") distinct_demo (proj1 plain_headers) (proj2 plain_headers)
    plain_query plain_query same_details))).
Defined.

Lemma url_parts_demo l : l ≠ [] → forallb (λ p, bool_decide (35%Z ∉ p ∧ 38%Z ∉ p ∧ 59%Z ∉ p)) l = true →
  url_parts (s"https://h/x") l [].
Proof.
  intros Hl Hp. split; [split; apply (bool_decide_unpack _); vm_compute; exact I | done | | by left].
  apply Forall_forall. intros p Hin. rewrite forallb_forall in Hp. apply (bool_decide_unpack _), Is_true_true_2, Hp.
  by apply list_elem_of_In.
Qed.
Lemma canonical_url_up_to_order_witness :
  canonical_http_url (url_of (s"https://h/x") [s"b=1"; s"a=2"] []) =
  canonical_http_url (url_of (s"https://h/x") [s"a=2"; s"b=1"] []).
Proof.
  apply (canonical_url_up_to_order (s"https://h/x") [s"b=1"; s"a=2"] [] (s"https://h/x") [s"a=2"; s"b=1"] []).
  - by apply url_parts_demo.
  - by apply url_parts_demo.
  - split; [reflexivity|]. split; [apply perm_swap | reflexivity].
Defined.
